(* ===== verification/_CoqProject ===== *)
-Q . S2P
Prelude.v
Word64.v
RelationSets.v
BitSets.v
EstimateMath.v
FloatSums.v
QueryGraph.v
Joins.v
AlgebraicProperties.v
Partitionings.v
Nodes.v
Closures.v
Hypergraphs.v
HypergraphFacts.v
HypergraphColumns.v
HypergraphBuilders.v
HypergraphBuilderFacts.v
HypergraphBuilderColumns.v
HypergraphBuilderExamples.v
Memo.v
DPhyp.v
Enumerations.v
PlanSoundness.v
Candidates.v
Emission.v
Greedy.v
Examples.v
EnumerationResults.v
Fallbacks.v
Domains.v
DomainSets.v
Expressions.v
ExprDomains.v
IntegralDomains.v
SqlSemantics.v
SqlEngine.v
DomainExamples.v
Builders.v
ExprFactories.v
DomainFilters.v
ExprSimplifiers.v
NonNullSimplifiers.v
FilterSimplifiers.v
SimplifierExamples.v
ImpliedFilters.v
Substitutions.v
PlanSubstitutions.v
JoinPlacements.v
JoinRouting.v
JoinReductions.v
RedundantKeys.v
NonNullOutputs.v
JoinIdentities.v
ImpliedExamples.v
JoinExamples.v
ReductionExamples.v
NonNullExamples.v
LimitOrders.v
LimitMeanings.v
LimitFacts.v
ProjectInlinings.v
LimitExamples.v
NameMappings.v
IntervalParser.v
