(* ===== verification/Prelude.v ===== *)
(** * Verification of the Axiom query optimizer

    The v2 optimizer of [src/axiom/optimizer/v2/] orders joins by cost: a join
    cluster becomes a hypergraph whose vertices are relations and whose edges
    are predicates, and [DPhyp] enumerates its connected subgraphs and their
    complements, keeps the non-dominated physical plans of each relation set in
    a memo, and returns the cheapest plan of the full set.  This library models
    that core and everything it computes with - word-level sets, estimates,
    column equivalences, partitionings, join types, the hypergraph and the memo -
    as executable Rocq functions, and proves what makes it correct: the plans it
    returns compute the query.  Next to it stand three parts the optimizer and its
    front end rely on: expressions - their interning, their simplification and the
    domains of filters -, the name scopes of the logical plan, and the Presto
    interval literals.

    ** Parts of the join planner

    - [Prelude]: errors ([VELOX_CHECK] as [Throw]), the [Result] and [StateM]
      monads, the [spec] logic for stateful code with its rules and the hint
      database [spec], lemmas on lists.  [Word64]: 64-bit words with their
      wrap-around, [std::countr_zero], [std::popcount].
    - [RelationSets]: [v2/RelationSet.h], one word.  [BitSets]:
      [BitSet.h], [BitSet.cpp], a growing vector of words, over the interface
      [VeloxBits] of [velox::bits] (with a reference implementation).
    - [EstimateMath]: [EstimateMath.h] and [v2/Cost.h] over IEEE binary32.
      [FloatSums]: sums of numbers that are not negative are monotone in spite of the
      rounding, which is what comparing costs takes.
    - [QueryGraph]: the arena of plan objects, [PlanObjectSet],
      [Column::equals] and [Expr::sameOrEqual] ([PlanObject.h], [QueryGraph.cpp]).
      Objects are ids into a map, so sharing and mutation through pointers are
      explicit.
    - [Joins]: the static functions of [v2::Join] on join types, and the rows
      each join type emits, against which they are proved exact.
    - [AlgebraicProperties]: the tables of [v2/AlgebraicProperties.*], which pairs of
      joins may be re-associated, against the rows of [Joins].
    - [Partitionings]: [v2/PhysicalProperties.*] and [v2/JoinPartitioning.*];
      the interface [Connector] of bucketed tables, and [PartitionFunctions], what
      placing rows means.
    - [Nodes]: what the enumeration reads of a node, unique keys, and
      [Join::outputPartitioning] ([v2/Node.cpp], [v2/Builder.cpp]).
    - [Closures], [Hypergraphs], [HypergraphFacts], [HypergraphColumns]:
      [v2/JoinEdge.h], [v2/Relation.h] and [v2/JoinHypergraph.*] - the union-find,
      the graph's operations, their invariants, and the columns of a cover.
    - [HypergraphBuilders], [HypergraphBuilderFacts], [HypergraphBuilderColumns]:
      [v2/HypergraphBuilder.cpp] on the clusters of [v2/JoinCluster.h] - from a tree of
      joins, unnests and filters to the hypergraph.  [HypergraphBuilderExamples]: clusters
      to build.
    - [Memo]: [v2/MemoOp.*], [v2/PlanSet.*], [CostModel::broadcastSizeIfFits] and the
      prices of shuffles of [DefaultCostModel], over the interface [CostModel] (the virtual
      class of [v2/CostModel.h]).
    - [DPhyp]: all of [v2/DPhyp.cpp], function by function, on an explicit
      [State] (memo, budget, enforcement exchanges, caches).
    - [Enumerations]: its pure parts.  [PlanSoundness]: what a sound plan is.
      [Candidates], [Emission], [Greedy]: every operation of [DPhyp] keeps the
      memo sound.  [Examples]: clusters to run.  [EnumerationResults]: the
      theorems on [DPhyp::enumerate].
    - [Fallbacks]: [v2/FallbackJoinPlanner.*], the uncosted order of a graph of inner
      joins [DPhyp] found no plan for.

    ** Other parts

    - [Domains], [DomainSets]: [Domain.h] and the first half of [Domain.cpp] -
      bounds, ranges and domains over the interface [VariantOrder] of
      [velox::Variant].  [Expressions]: the expressions of [QueryGraph.h] as trees
      whose nodes carry the ids of the objects, [FunctionSet] and [functionBits],
      over the interfaces [TypeOps], [VariantOps] and [FunctionRegistry].
      [ExprDomains]: [exprToDomain] with its helpers ([integerValue] of
      [PlanUtils.cpp], [Call::constantInList] of [QueryGraph.cpp]).
      [IntegralDomains]: domains of integral columns.
    - [SqlSemantics]: typed expressions, and what the code relies on of their
      evaluation, as laws ([SqlLaws], [EvalLaws]).  [SqlEngine]: types, variants, a
      registry and an evaluator that have the laws.  [DomainExamples]: filters to
      convert.
    - [Builders]: the interned literals and calls of [v2/Builder.*] on an explicit
      arena, the canonical order of reversible calls; and the logic [builds] for
      code that creates objects.  [ExprFactories]: [v2/ExprFactory.*].
    - [DomainFilters], [ExprSimplifiers], [NonNullSimplifiers], [FilterSimplifiers]:
      [v2/ExprSimplifier.*] - the filter of a domain, [simplify] with its memo,
      [simplify] under non-null columns, [simplifyFilter] with [tryFactorOr] - on the
      state of the builder and the memo; Velox's constant folding is a parameter.
      [SimplifierExamples]: expressions to simplify.
    - [Substitutions]: the expression builder's [replace] and [substitute], with the
      rewrites memoised per expression and per set of shadowing parameters.
      [PlanSubstitutions]: [v2/PlanSubstitutions.*] - the expressions a rewritten plan
      replaces, applied until nothing changes.
      [ImpliedFilters]: [v2/ImpliedFilters.*] - filters the conjuncts above a join
      imply for one of its inputs, for the other columns of an equivalence class,
      and between join keys.  [ImpliedExamples]: clusters to derive from.
    - [JoinPlacements], [JoinRouting]: [v2/JoinCondition.*] and
      [v2/JoinPredicatePlacement.*] - the keys of a join condition, where each
      predicate above a join or of its condition is evaluated, which way filters pass
      between the inputs, and the columns a join makes equal, against the rows of
      [Joins].  [JoinExamples]: joins to place predicates at.
    - [JoinReductions]: [v2/OuterJoinReduction.*], [v2/MarkFilterFusion.*] and what
      [PushdownAndPrunePass::prepareJoin] keeps of a fusion.  [JoinIdentities]:
      [NodeSimplifier::addJoinKeySubstitutions], the expressions that join keys make
      equal.  [ReductionExamples]: joins to reduce.
    - [NonNullOutputs]: [v2/NonNullOutput.*], the columns of a node that are never
      [NULL], on plans of the nodes it reads, against the rows they emit.
      [NonNullExamples]: plans to ask.  [RedundantKeys]: [v2/RedundantKeys.cpp], the
      partition and sort keys a window does without.
    - [LimitOrders]: [v2/LimitAndOrderPass.cpp] on the hooks of [v2/NodeRewriter.h], the
      pass that moves row bounds down a plan and drops sorts nobody observes.
      [LimitMeanings]: the rows a plan may emit, over an interface [Engine] with its laws,
      and the plans the pass is right on.  [LimitFacts]: that it is.  [ProjectInlinings]:
      [PrecomputeProjections::inlineInputProject], which discharges the interface
      [InlineLaws] of the pass.  [LimitExamples]: an engine, plans to rewrite, and plans the
      pass gets wrong.
    - [NameMappings]: [logical_plan/NameMappings.*], the names in scope of a query;
      iteration over a hash map is over its entries in any order.
    - [IntervalParser]: [sql/presto/IntervalParser.cpp], against the grammar of
      [docs/IntervalParser.md].

    ** What the theorems show

    - A plan [enumerate] returns is sound: its joins are legal orientations of the
      graph's edges with every crossing predicate accounted for, its inputs are
      distributed so that each join computes its result in place, every relation
      is read or expanded exactly once and no edge is applied twice.  Without a
      budget every predicate is applied or implied.  Every run ends, with a plan,
      without one, or with one of the errors the code means to raise.
    - The legality of a distribution is justified on rows: broadcast legality,
      co-partitioning, output partitionings, unique keys, exchanged inputs.  Keys that
      match, or are found equal, are taken to hash alike ([hash_alike]): the code does not
      exclude the types for which they need not.
    - The memo is lossless: among plans of one cover and cardinality pruning never costs a
      better plan, whatever rounding does to the sums, if the price of a shuffle depends on
      the two ([ShuffleLaws]), as [DefaultCostModel]'s does.
    - The fallback planner ends, with a legal left-deep plan of each component in the first
      order equalities allow, or without one.
    - The hypergraph keeps its invariants; the classification of crossing edges,
      the canonical key edges, the representatives of a cover and its output
      columns, the components and the final check are exact.
    - The hypergraph of a cluster holds each of its predicates and no other; what a join
      waits for blocks exactly the re-associations that would change its rows; implied
      edges close the classes of inner equalities; conjuncts wait for the joins that make
      their columns.
    - The data structures refine their mathematical counterparts.
    - The domain of a filter holds every value that makes the filter true, and no
      other unless the filter uses LIKE; operations on domains are set operations;
      the conversion never throws.
    - Deterministic calls are interned, whichever way round they are written: two calls are
      one object exactly if they are one call.
    - Simplifying an expression ends and keeps its type and its value on every row;
      under non-null columns, on the rows in which they are not null.  A simplified
      filter accepts the rows it accepted before, and is reported never to pass only
      if it never does; the filter of a domain is exact.
    - A substitution replaces exactly the free occurrences of what it maps.  Filters
      derived for the inputs of a join keep its rows; those derived for other columns
      follow from the equalities; dropping a redundant key loses nothing.
    - The tables of re-associations hold exactly the identities of the joins' rows.
    - Placing predicates around a join keeps its rows, whatever its type; filters pass
      between its inputs exactly in the directions that change nothing.  A reduced outer
      join, and a join fused with a filter on its mark, give the rows the consumer keeps;
      the identities of join keys hold on every row, padded ones included, for types whose
      equal values are indistinguishable.
    - The limit pass narrows the outputs of a query and changes nothing else, on plans in
      which no limit under an operator without order looks at a sort through a filter.
    - Every node of a plan gets its non-null columns, whatever was cached before, and no
      row it emits has [NULL] in one.  Dropped partition and sort keys change neither the
      partitions nor the order within one.
    - Applying a plan's substitutions ends with an expression of the same value, or
      with the error that they do not converge.
    - A merged scope resolves each name as documented, whatever the iteration
      order; an ambiguous name stays so; the reverse index is the inverse of the
      names - and one ambiguity is missed.
    - The interval parser accepts the documented grammar and nothing else, computes
      its durations, and never overflows.

    ** Fuel

    Loops of the source run on fuel: 64 rounds for words of 64 bits; one round
    more than there are relations (66) for the fixpoints over relation sets; the
    number of registered values for the union-find; the number of columns for the
    demand fixpoint; [2^n + 1] for the subsets of [n] neighbors; 65 for the depth
    of the csg/cmp recursion, each level of which forbids a new relation; 4161 for
    the greedy loop, whose measure is at most [64 * 65]; 65 for the fallback planner, each
    round of which places one of 64 relations.  Each has a theorem that
    it suffices, so [OutOfFuel] is never raised.  [ExprSimplifier::simplify], which
    simplifies again what it expands, runs on the weight of the expression, which no
    rewrite increases and the expansion decreases.  [Expr::sameOrEqual] recurses to
    a depth the theorems quantify over.  [PlanSubstitutions::apply] visits a new object
    below the limit on objects in each round.  The outputs of joins are resolved in one
    pass more than there are outputs; a chain of outputs is no longer than there are
    fresh ones, unless the loop of the code does not end either.

    ** Not modelled

    - Memo plans are values: that a plan set may free a plan another plan points
      to is outside the model.  [VELOX_DCHECK]s are checks under the flag
      [debug], and so is the consistency check of debug builds.
    - Expressions are trees: the evaluation of one is a function of it and the row,
      so a non-deterministic call has one value per row.  Literals that compare equal are
      taken to be one value ([VariantEq]), which leaves out -0.0 next to 0.0.
      [ExprSimplifier::evaluate] only calls Velox.
    - The cost model, [GroupedRead], the [substitute] and [makeCoalesce] the
      hypergraph uses, and the connectors are interfaces the theorems quantify
      over; the costs of operators of [DefaultCostModel] and its statistics are not
      modelled.
    - The join-tree emitter, the collection of clusters and the other passes over the
      node IR; the version 1 optimizer; the rest of the SQL front ends and of the
      logical plan, the runner and the bindings. *)

From stdpp Require Export base numbers list gmap strings sorting.
From Stdlib Require Export NArith.

#[export] Set Default Goal Selector "!".

Declare Scope axiom_scope.
Delimit Scope axiom_scope with axiom.
Open Scope axiom_scope.

(** ** Errors and fallible code

    [VELOX_CHECK]/[VELOX_CHECK_*] throw a [VeloxRuntimeError];
    [VELOX_UNREACHABLE] throws on a path the code declares impossible;
    [OutOfFuel] is the model's own error: a fuelled loop ran out.  Every
    function that can raise it has a theorem that it does not. *)
Inductive Error :=
  | VeloxCheck (what : string)
  | VeloxUnreachable (what : string)
  | OutOfFuel.

Inductive Result (A : Type) :=
  | Ok (a : A)
  | Throw (e : Error).
Arguments Ok {A} a.
Arguments Throw {A} e.

#[export] Instance Result_ret : MRet Result := fun A a => Ok a.
#[export] Instance Result_bind : MBind Result := fun A B f m =>
  match m with Ok a => f a | Throw e => Throw e end.
#[export] Instance Result_fmap : FMap Result := fun A B f m =>
  match m with Ok a => Ok (f a) | Throw e => Throw e end.

(** [VELOX_CHECK(cond, what)]. *)
Definition velox_check (cond : bool) (what : string) : Result unit :=
  if cond then Ok tt else Throw (VeloxCheck what).

(** ** State and error monad, for code that updates member variables. *)
Definition StateM (S A : Type) : Type := S -> Result (A * S).

#[export] Instance StateM_ret {S} : MRet (StateM S) := fun A a s => Ok (a, s).
#[export] Instance StateM_bind {S} : MBind (StateM S) := fun A B f m s =>
  match m s with Ok (a, s') => f a s' | Throw e => Throw e end.

Definition gets {S A} (f : S -> A) : StateM S A := fun s => Ok (f s, s).
Definition modify {S} (f : S -> S) : StateM S unit := fun s => Ok (tt, f s).
Definition throw {S A} (e : Error) : StateM S A := fun _ => Throw e.
Definition lift {S A} (r : Result A) : StateM S A := fun s =>
  match r with Ok a => Ok (a, s) | Throw e => Throw e end.
Definition when_ {S} (b : bool) (m : StateM S unit) : StateM S unit :=
  if b then m else mret tt.

(** A range-based [for] whose body runs for its effects. *)
Fixpoint for_each {S A} (l : list A) (body : A -> StateM S unit) : StateM S unit :=
  match l with
  | [] => mret tt
  | x :: l => body x ≫= fun _ => for_each l body
  end.

(** ** A logic for stateful code

    [spec I Ex m Q]: started where [I] holds, [m] either ends where [I] holds
    with a result in [Q], or throws an error in [Ex]. *)
Definition spec {S A} (I : S -> Prop) (Ex : Error -> Prop) (m : StateM S A) (Q : A -> Prop) : Prop :=
  forall s, I s -> match m s with Ok (a, s') => I s' /\ Q a | Throw e => Ex e end.

Section SpecRules.
Context {S : Type} (I : S -> Prop) (Ex : Error -> Prop).

Lemma spec_ret {A} (a : A) (Q : A -> Prop) : Q a -> spec I Ex (mret a) Q.
Proof. by intros H s Hs. Qed.

Lemma spec_bind {A B} (m : StateM S A) (f : A -> StateM S B) (Q : A -> Prop) (R : B -> Prop) :
  spec I Ex m Q -> (forall a, Q a -> spec I Ex (f a) R) -> spec I Ex (m ≫= f) R.
Proof.
  intros Hm Hf s Hs. specialize (Hm s Hs). unfold mbind, StateM_bind.
  destruct (m s) as [[a s']|e]; [| done]. destruct Hm as [Hs' Ha]. by apply Hf.
Qed.

Lemma spec_weaken {A} (m : StateM S A) (Q R : A -> Prop) :
  spec I Ex m Q -> (forall a, Q a -> R a) -> spec I Ex m R.
Proof. intros Hm H s Hs. specialize (Hm s Hs). destruct (m s) as [[a s']|e]; [| done]. naive_solver. Qed.

Lemma spec_gets {A} (f : S -> A) (Q : A -> Prop) : (forall s, I s -> Q (f s)) -> spec I Ex (gets f) Q.
Proof. intros H s Hs. cbn. auto. Qed.

Lemma spec_modify (f : S -> S) : (forall s, I s -> I (f s)) -> spec I Ex (modify f) (fun _ => True).
Proof. intros H s Hs. cbn. auto. Qed.

Lemma spec_lift {A} (r : Result A) (Q : A -> Prop) :
  match r with Ok a => Q a | Throw e => Ex e end -> spec I Ex (lift r) Q.
Proof. intros H s Hs. unfold lift. by destruct r. Qed.

Lemma spec_when (b : bool) (m : StateM S unit) :
  (b = true -> spec I Ex m (fun _ => True)) -> spec I Ex (when_ b m) (fun _ => True).
Proof. destruct b; cbn; [auto |]. intros _. by apply spec_ret. Qed.

Lemma spec_for_each {A} (l : list A) (body : A -> StateM S unit) :
  (forall x, x ∈ l -> spec I Ex (body x) (fun _ => True)) -> spec I Ex (for_each l body) (fun _ => True).
Proof.
  induction l as [|x l IH]; intros H; cbn [for_each]; [by apply spec_ret |].
  eapply spec_bind; [apply H; by left |]. intros _ _. apply IH. intros y Hy. apply H. by right.
Qed.
End SpecRules.

(** ** Automation *)

(** [spec]: closes the commands that change nothing. *)
Create HintDb spec discriminated.
#[export] Hint Extern 1 (spec _ _ (mret _) _) => (by apply spec_ret) : spec.
#[export] Hint Extern 1 (spec _ _ (lift (Ok _)) _) => (by apply spec_lift) : spec.
#[export] Hint Resolve spec_when spec_for_each : spec.

(** Splits conjunctions without unfolding [iff]. *)
Ltac split_conj := repeat match goal with |- and _ _ => split end.

(** ** Lists *)

Lemma sublist_sorted {A} (R : relation A) (l1 l2 : list A) :
  l1 `sublist_of` l2 -> StronglySorted R l2 -> StronglySorted R l1.
Proof.
  induction 1 as [|x l1 l2 Hsub IH|x l1 l2 Hsub IH]; [done | |]; intros [Hs Hx]%StronglySorted_inv.
  - constructor; [by apply IH |]. rewrite Forall_forall in Hx |- *. intros y Hy. apply Hx.
    by eapply elem_of_sublist.
  - by apply IH.
Qed.

Lemma filter_sorted (f : N -> bool) (l : list N) :
  StronglySorted N.lt l -> StronglySorted N.lt (List.filter f l).
Proof.
  induction 1 as [|x l _ IH Hx]; cbn; [constructor |]. destruct (f x); [| done].
  constructor; [done |]. rewrite Forall_forall in *. intros y Hy%list_elem_of_In.
  apply List.filter_In in Hy as [Hy _]. by apply Hx, list_elem_of_In.
Qed.

Lemma filter_perm {A} (f : A -> bool) (l k : list A) : l ≡ₚ k -> List.filter f l ≡ₚ List.filter f k.
Proof.
  induction 1 as [|x l k _ IH|x y l|l k m _ IH1 _ IH2]; simpl; [done | | | by etransitivity].
  - destruct (f x); [by constructor | done].
  - destruct (f x), (f y); try done. constructor.
Qed.

Lemma sorted_lt_NoDup (l : list N) : StronglySorted N.lt l -> NoDup l.
Proof.
  induction 1 as [|x l _ IH Hx]; constructor; [| done].
  intros Hin. rewrite Forall_forall in Hx. by apply (N.lt_irrefl x), Hx.
Qed.

Lemma sorted_lookup_lt {A} (R : relation A) (l : list A) i j x y :
  StronglySorted R l -> (i < j)%nat -> l !! i = Some x -> l !! j = Some y -> R x y.
Proof.
  intros Hs. revert i j. induction Hs as [|z l _ IH Hz]; intros i j Hij Hx Hy; [done |].
  destruct j as [|j]; [by apply Nat.nlt_0_r in Hij |]. destruct i as [|i]; cbn in *.
  - injection Hx as <-. rewrite Forall_forall in Hz. apply Hz. by eapply list_elem_of_lookup_2.
  - eapply IH; [| done | done]. by apply Nat.succ_lt_mono.
Qed.

Lemma foldl_flat_map {A B C} (f : C -> B -> C) (h : A -> list B) (l : list A) (c : C) :
  foldl (fun c x => foldl f c (h x)) c l = foldl f c (flat_map h l).
Proof.
  revert c. induction l as [|x l IH]; intros c; cbn; [done |]. by rewrite IH, foldl_app.
Qed.
