(* ===== verification/Word64.v ===== *)
(** * 64-bit machine words

    [uint64_t] as an [N] below [2^64].  The bound is carried by the type, in
    [SProp], so that two words with the same value are the same word and no
    theorem needs a width hypothesis.  Also the bit operations of [<bit>] the
    optimizer uses: [std::countr_zero], [std::popcount], and the loop step
    [r &= r - 1] that clears the lowest set bit. *)

From S2P Require Import Prelude.
From Stdlib Require Import Lia StrictProp.

Open Scope N_scope.

(** ** The word *)

Definition STrue (b : bool) : SProp := if b then sUnit else sEmpty.

Lemma STrue_elim (b : bool) : STrue b -> b = true.
Proof. destruct b; [done | intros []]. Qed.

Lemma STrue_intro (b : bool) : b = true -> STrue b.
Proof. intros ->. exact stt. Qed.

Definition width : N := 64.
(** [~uint64_t{0}] *)
Definition all_ones : N := N.ones width.

(** Conversion to [uint64_t]. *)
Definition wrap64 (n : N) : N := N.land n all_ones.

Lemma wrap64_lt (n : N) : (wrap64 n <? 2 ^ width) = true.
Proof.
  apply N.ltb_lt. unfold wrap64, all_ones. rewrite N.land_ones.
  apply N.mod_lt. done.
Qed.

Record word64 : Set := mkWord { word_val : N; word_ok : STrue (word_val <? 2 ^ width) }.

(** The word [n mod 2^64]. *)
Definition to_word (n : N) : word64 := mkWord (wrap64 n) (STrue_intro _ (wrap64_lt n)).

(** [~x] on [uint64_t]. *)
Definition not64 (n : N) : N := N.lxor n all_ones.

(** [std::countr_zero] on a [uint64_t]. *)
Fixpoint pos_ctz (p : positive) : N :=
  match p with
  | xO q => N.succ (pos_ctz q)
  | _ => 0
  end.

Definition countr_zero (n : N) : N :=
  match n with 0 => width | Npos p => pos_ctz p end.

(** [std::popcount] on a [uint64_t]. *)
Fixpoint pos_popcount (p : positive) : N :=
  match p with
  | xH => 1
  | xO q => pos_popcount q
  | xI q => N.succ (pos_popcount q)
  end.

Definition popcount (n : N) : N :=
  match n with 0 => 0 | Npos p => pos_popcount p end.

Lemma word_inj (a b : word64) : word_val a = word_val b -> a = b.
Proof. destruct a, b; cbn. intros ->. reflexivity. Qed.

Lemma word_lt (w : word64) : word_val w < 2 ^ width.
Proof. destruct w as [n Hn]; cbn. apply N.ltb_lt, STrue_elim, Hn. Qed.

#[export] Instance word64_eq_dec : EqDecision word64.
Proof.
  intros [a Ha] [b Hb]. destruct (decide (a = b)) as [->|Hne].
  - left. reflexivity.
  - right. intros [= ?]. done.
Defined.

Lemma wrap64_small (n : N) : n < 2 ^ width -> wrap64 n = n.
Proof. intros H. unfold wrap64, all_ones. rewrite N.land_ones. by apply N.mod_small. Qed.

Lemma testbit_above (n i : N) : n < 2 ^ width -> width <= i -> N.testbit n i = false.
Proof.
  intros Hn Hi. destruct (decide (n = 0)) as [->|Hnz]; [apply N.bits_0 |].
  apply N.bits_above_log2. apply N.log2_lt_pow2 in Hn; lia.
Qed.

Lemma wrap64_testbit (n i : N) : N.testbit (wrap64 n) i = N.testbit n i && (i <? width).
Proof.
  unfold wrap64, all_ones. rewrite N.land_spec.
  destruct (N.ltb_spec i width).
  - by rewrite N.ones_spec_low.
  - by rewrite N.ones_spec_high.
Qed.

Lemma not64_testbit (n i : N) :
  i < width -> N.testbit (not64 n) i = negb (N.testbit n i).
Proof.
  intros Hi. unfold not64, all_ones. rewrite N.lxor_spec, N.ones_spec_low by done.
  by destruct (N.testbit n i).
Qed.

Lemma andnot_testbit (n m i : N) :
  n < 2 ^ width ->
  N.testbit (N.land n (not64 m)) i = N.testbit n i && negb (N.testbit m i).
Proof.
  intros Hn. rewrite N.land_spec. destruct (N.lt_ge_cases i width).
  - by rewrite not64_testbit.
  - by rewrite testbit_above.
Qed.

Lemma word_zero_iff (n : N) : (n =? 0) = true <-> forall i, N.testbit n i = false.
Proof.
  rewrite N.eqb_eq. split; [intros -> i; apply N.bits_0 |].
  intros H. apply N.bits_inj_0. done.
Qed.

Lemma pos_ctz_testbit (p : positive) : N.testbit (Npos p) (pos_ctz p) = true.
Proof.
  induction p as [p _|p IH|]; [done | | done]. cbn [pos_ctz].
  change (Npos p~0) with (N.double (Npos p)).
  by rewrite N.double_spec, N.testbit_even_succ by lia.
Qed.

Lemma pos_ctz_lowest (p : positive) (i : N) : i < pos_ctz p -> N.testbit (Npos p) i = false.
Proof.
  revert i. induction p as [p _|p IH|]; cbn [pos_ctz]; intros i Hi; [lia | | lia].
  change (Npos p~0) with (N.double (Npos p)). rewrite N.double_spec.
  destruct i as [|i] using N.peano_ind; [apply N.testbit_even_0 |].
  rewrite N.testbit_even_succ by lia. apply IH. lia.
Qed.

Lemma land_pred_testbit (p : positive) (i : N) :
  N.testbit (N.land (Npos p) (N.pred (Npos p))) i = N.testbit (Npos p) i && negb (i =? pos_ctz p).
Proof.
  revert i. induction p as [p _|p IH|]; intros i.
  - change (N.pred (Npos p~1)) with (N.double (Npos p)).
    change (Npos p~1) with (N.succ_double (Npos p)). cbn [pos_ctz].
    rewrite N.double_spec, N.succ_double_spec, N.land_spec.
    destruct i as [|i _] using N.peano_ind.
    + by rewrite N.testbit_even_0, andb_false_r, andb_false_r.
    + rewrite N.testbit_even_succ, N.testbit_odd_succ by lia.
      rewrite (proj2 (N.eqb_neq _ _)) by lia. by destruct (N.testbit _ i).
  - change (N.pred (Npos p~0)) with (Npos (Pos.pred_double p)).
    replace (Npos (Pos.pred_double p)) with (N.succ_double (N.pred (Npos p)))
      by (rewrite N.succ_double_spec; lia).
    change (Npos p~0) with (N.double (Npos p)). cbn [pos_ctz].
    rewrite N.double_spec, N.succ_double_spec, N.land_spec.
    destruct i as [|i _] using N.peano_ind.
    + by rewrite N.testbit_even_0.
    + rewrite N.testbit_even_succ, N.testbit_odd_succ by lia.
      rewrite <- N.land_spec, IH. f_equal. f_equal.
      apply Bool.eq_true_iff_eq. rewrite !N.eqb_eq. lia.
  - change (N.land 1 (N.pred 1)) with 0. rewrite N.bits_0. cbn [pos_ctz].
    by destruct i as [|i].
Qed.

Lemma popcount_land_pred (p : positive) :
  pos_popcount p = N.succ (popcount (N.land (Npos p) (N.pred (Npos p)))).
Proof.
  induction p as [p _|p IH|]; [| | done].
  - change (N.pred (Npos p~1)) with (N.double (Npos p)). cbn [pos_popcount]. f_equal.
    replace (N.land (Npos p~1) (N.double (Npos p))) with (N.double (Npos p)); [done |].
    change (Npos p~1) with (N.succ_double (Npos p)). apply N.bits_inj. intros i.
    rewrite N.land_spec, N.double_spec, N.succ_double_spec.
    destruct i as [|i _] using N.peano_ind; [by rewrite N.testbit_even_0 |].
    rewrite N.testbit_even_succ, N.testbit_odd_succ by lia. by destruct (N.testbit _ i).
  - change (N.pred (Npos p~0)) with (Npos (Pos.pred_double p)). cbn [pos_popcount].
    rewrite IH. f_equal.
    replace (N.land (Npos p~0) (Npos (Pos.pred_double p)))
      with (N.double (N.land (Npos p) (N.pred (Npos p)))).
    + by destruct (N.land _ _).
    + replace (Npos (Pos.pred_double p)) with (N.succ_double (N.pred (Npos p)))
        by (rewrite N.succ_double_spec; lia).
      change (Npos p~0) with (N.double (Npos p)).
      apply N.bits_inj. intros i. rewrite N.land_spec.
      rewrite !N.double_spec, N.succ_double_spec.
      destruct i as [|i _] using N.peano_ind.
      * by rewrite !N.testbit_even_0.
      * rewrite !N.testbit_even_succ, N.testbit_odd_succ by lia. by rewrite N.land_spec.
Qed.

Lemma popcount_zero (n : N) : popcount n = 0 -> n = 0.
Proof. destruct n as [|p]; [done |]. cbn. rewrite popcount_land_pred. lia. Qed.

Lemma popcount_le (k : N) (n : N) : n < 2 ^ k -> popcount n <= k.
Proof.
  revert n. induction k as [|k IH] using N.peano_ind; intros n Hn.
  - assert (n = 0) as -> by (cbn in Hn; lia). done.
  - destruct n as [|[p|p|]]; cbn [popcount pos_popcount]; rewrite ?N.pow_succ_r' in Hn;
      [lia | | | lia].
    + specialize (IH (Npos p)). cbn in IH. lia.
    + specialize (IH (Npos p)). cbn in IH. lia.
Qed.

