(* ===== verification/RelationSets.v ===== *)
(** * RelationSet: 64-bit set of relation ids

    Models [axiom/optimizer/v2/RelationSet.h]: a set of small ids held in one
    [uint64_t] ([Word64.word64]).  Every operation is the bit operation of the source followed by the
    wrap-around of [uint64_t].  The theorems relate the bit operations to
    membership and show that the loops visit the members in ascending order. *)

From S2P Require Import Prelude Word64.
From Stdlib Require Import Lia.
Set Warnings "-clear-no-such-hyp".


Open Scope N_scope.

Module RelationSet.

(** [class RelationSet], whose only member is [uint64_t bits_]. *)
Record t : Set := mkRelationSet { bits_ : word64 }.

(** [constexpr uint64_t bits() const] *)
Definition bits (s : t) : N := word_val (bits_ s).

(** [explicit constexpr RelationSet(uint64_t bits)] *)
Definition ofBits (n : N) : t := mkRelationSet (to_word n).

(** [RelationSet() = default] *)
Definition rsEmpty : t := ofBits 0.

Definition kMaxRelations : N := 64.

(** [uint64_t{1} << id]; the source requires [id] in [[0, kMaxRelations)]. *)
Definition mask (id : N) : N := wrap64 (N.shiftl 1 id).

(** ** Operations *)

Definition contains (s : t) (id : N) : bool :=
  negb (N.land (bits s) (mask id) =? 0).

Definition add (s : t) (id : N) : t :=
  ofBits (N.lor (bits s) (mask id)).

Definition erase (s : t) (id : N) : t :=
  ofBits (N.land (bits s) (not64 (mask id))).

Definition singleton (id : N) : t := add rsEmpty id.

Definition prefixThrough (id : N) : t :=
  if id =? kMaxRelations - 1 then ofBits all_ones
  else ofBits (N.pred (N.shiftl 1 (id + 1))).

Definition empty (s : t) : bool := bits s =? 0.

(** [this.isSubset(super)] *)
Definition isSubset (s super : t) : bool :=
  N.land (bits s) (not64 (bits super)) =? 0.

Definition hasIntersection (s other : t) : bool :=
  negb (N.land (bits s) (bits other) =? 0).

Definition intersect (s other : t) : t :=
  ofBits (N.land (bits s) (bits other)).

Definition unionSet (s other : t) : t :=
  ofBits (N.lor (bits s) (bits other)).

Definition except (s other : t) : t :=
  ofBits (N.land (bits s) (not64 (bits other))).

Definition size (s : t) : N := popcount (bits s).

Definition min (s : t) : N := countr_zero (bits s).

(** The ids [forEach] passes to its callback, in call order: the loop
    [while (remaining != 0) { f(countr_zero(remaining)); remaining &=
    remaining - 1; }].  64 iterations clear a 64-bit word. *)
Fixpoint forEach_loop (fuel : nat) (remaining : N) : list N :=
  match fuel with
  | O => []
  | S fuel =>
      if remaining =? 0 then []
      else countr_zero remaining
             :: forEach_loop fuel (N.land remaining (N.pred remaining))
  end.

Definition ids (s : t) : list N := forEach_loop 64 (bits s).

Arguments ids : simpl never.

(** [forEach(f)] for an effectful [f]. *)
Definition forEach {S} (s : t) (f : N -> StateM S unit) : StateM S unit :=
  for_each (ids s) f.

(** [anyOf(predicate)]: the same loop, left at the first match. *)
Fixpoint anyOf_loop (fuel : nat) (predicate : N -> bool) (remaining : N) : bool :=
  match fuel with
  | O => false
  | S fuel =>
      if remaining =? 0 then false
      else if predicate (countr_zero remaining) then true
      else anyOf_loop fuel predicate (N.land remaining (N.pred remaining))
  end.

Definition anyOf (s : t) (predicate : N -> bool) : bool :=
  anyOf_loop 64 predicate (bits s).

#[export] Instance RelationSet_eq_dec : EqDecision t.
Proof. solve_decision. Defined.

Lemma bits_inj (a b : t) : bits a = bits b -> a = b.
Proof. destruct a, b; unfold bits; cbn. intros H. f_equal. by apply word_inj. Qed.

Lemma bits_lt (s : t) : bits s < 2 ^ width.
Proof. apply word_lt. Qed.

Lemma ofBits_bits (s : t) : ofBits (bits s) = s.
Proof. apply bits_inj. unfold bits. cbn. apply wrap64_small, bits_lt. Qed.

#[export] Instance RelationSet_countable : Countable t.
Proof.
  refine (inj_countable' bits ofBits _). apply ofBits_bits.
Defined.


(** ** Membership *)

#[export] Instance elem_of_instance : ElemOf N t := fun id s => N.testbit (bits s) id = true.

Lemma elem_of_bits (s : t) (id : N) : id ∈ s <-> N.testbit (bits s) id = true.
Proof. done. Qed.

#[export] Instance elem_of_dec : RelDecision (∈@{t}).
Proof. intros id s. unfold elem_of, elem_of_instance. apply _. Defined.

Lemma elem_of_lt (s : t) (id : N) : id ∈ s -> id < width.
Proof.
  rewrite elem_of_bits. intros H. destruct (N.lt_ge_cases id width) as [|Hge]; [done |].
  rewrite testbit_above in H; [done | apply bits_lt | done].
Qed.

Lemma elem_of_ofBits (n id : N) : id ∈ ofBits n <-> N.testbit n id = true /\ id < width.
Proof.
  rewrite elem_of_bits. cbn. rewrite wrap64_testbit, andb_true_iff, N.ltb_lt. done.
Qed.

Lemma mask_testbit (id i : N) :
  N.testbit (mask id) i = (i =? id) && (i <? width).
Proof.
  unfold mask. rewrite wrap64_testbit. f_equal.
  rewrite N.shiftl_1_l, N.pow2_bits_eqb. apply N.eqb_sym.
Qed.

Lemma rs_ext (a b : t) : (forall i, i ∈ a <-> i ∈ b) -> a = b.
Proof.
  intros H. apply bits_inj, N.bits_inj. intros i. specialize (H i).
  rewrite !elem_of_bits in H. apply Bool.eq_true_iff_eq. done.
Qed.

Lemma elem_of_empty_rs (i : N) : i ∈ rsEmpty <-> False.
Proof. unfold rsEmpty. rewrite elem_of_ofBits, N.bits_0. naive_solver. Qed.

Lemma elem_of_add (s : t) (id i : N) : i ∈ add s id <-> (i = id /\ id < width) \/ i ∈ s.
Proof.
  unfold add. rewrite elem_of_ofBits, N.lor_spec, mask_testbit, orb_true_iff, andb_true_iff.
  rewrite N.eqb_eq, N.ltb_lt. pose proof (elem_of_lt s i) as Hlt. rewrite elem_of_bits in *.
  naive_solver.
Qed.

Lemma elem_of_singleton_rs (id i : N) : i ∈ singleton id <-> i = id /\ id < width.
Proof. unfold singleton. rewrite elem_of_add, elem_of_empty_rs. naive_solver. Qed.

Lemma elem_of_erase (s : t) (id i : N) : i ∈ erase s id <-> i ∈ s /\ i <> id.
Proof.
  unfold erase. rewrite elem_of_ofBits, N.land_spec. pose proof (elem_of_lt s i) as Hlt.
  rewrite elem_of_bits in *. split.
  - intros [[H1 H2]%andb_true_iff Hi]. split; [done |].
    rewrite not64_testbit, mask_testbit in H2 by done. intros ->.
    rewrite N.eqb_refl, (proj2 (N.ltb_lt _ _)) in H2; done.
  - intros [H1 H2]. split; [| naive_solver].
    rewrite H1, not64_testbit, mask_testbit by naive_solver.
    by rewrite (proj2 (N.eqb_neq _ _)).
Qed.

Lemma elem_of_unionSet (a b : t) (i : N) : i ∈ unionSet a b <-> i ∈ a \/ i ∈ b.
Proof.
  unfold unionSet. rewrite elem_of_ofBits, N.lor_spec, orb_true_iff.
  pose proof (elem_of_lt a i) as Ha. pose proof (elem_of_lt b i) as Hb.
  rewrite !elem_of_bits in *. naive_solver.
Qed.

Lemma elem_of_intersect (a b : t) (i : N) : i ∈ intersect a b <-> i ∈ a /\ i ∈ b.
Proof.
  unfold intersect. rewrite elem_of_ofBits, N.land_spec, andb_true_iff.
  pose proof (elem_of_lt a i) as Ha. rewrite !elem_of_bits in *. naive_solver.
Qed.

Lemma elem_of_except (a b : t) (i : N) : i ∈ except a b <-> i ∈ a /\ i ∉ b.
Proof.
  unfold except. rewrite elem_of_ofBits, andnot_testbit by apply bits_lt.
  pose proof (elem_of_lt a i) as Ha.
  rewrite !elem_of_bits, andb_true_iff, negb_true_iff, not_true_iff_false in *. naive_solver.
Qed.

Lemma contains_spec (s : t) (id : N) : id < width -> contains s id = true <-> id ∈ s.
Proof.
  intros Hid. unfold contains. rewrite elem_of_bits, negb_true_iff, <- not_true_iff_false.
  rewrite word_zero_iff. setoid_rewrite N.land_spec. setoid_rewrite mask_testbit. split.
  - intros H. destruct (N.testbit (bits s) id) eqn:E; [done |]. exfalso. apply H.
    intros i. destruct (N.eqb_spec i id) as [->|]; [by rewrite E | by rewrite andb_false_r].
  - intros E H. specialize (H id). rewrite E, N.eqb_refl, (proj2 (N.ltb_lt _ _)) in H; done.
Qed.

Lemma empty_spec (s : t) : empty s = true <-> s = rsEmpty.
Proof.
  unfold empty. rewrite N.eqb_eq. split.
  - intros H. apply bits_inj. done.
  - intros ->. done.
Qed.

Lemma empty_false (s : t) : empty s = false <-> exists i, i ∈ s.
Proof.
  unfold empty. rewrite N.eqb_neq. split.
  - intros H. exists (N.log2 (bits s)). apply N.bit_log2. done.
  - intros [i Hi] E. rewrite elem_of_bits, E, N.bits_0 in Hi. done.
Qed.

Lemma isSubset_spec (a b : t) : isSubset a b = true <-> a ⊆ b.
Proof.
  unfold isSubset. rewrite word_zero_iff. split.
  - intros H i Hi. specialize (H i). rewrite andnot_testbit in H by apply bits_lt.
    rewrite elem_of_bits in *. rewrite Hi in H. by destruct (N.testbit (bits b) i).
  - intros H i. rewrite andnot_testbit by apply bits_lt. specialize (H i).
    rewrite !elem_of_bits in H. destruct (N.testbit (bits a) i); [| done].
    by rewrite H.
Qed.

Lemma isSubset_false (a b : t) : isSubset a b = false <-> ~ (a ⊆ b).
Proof. rewrite <- isSubset_spec. by destruct (isSubset a b). Qed.

Lemma hasIntersection_spec (a b : t) :
  hasIntersection a b = true <-> exists i, i ∈ a /\ i ∈ b.
Proof.
  unfold hasIntersection. rewrite negb_true_iff, <- not_true_iff_false, N.eqb_eq.
  split.
  - intros H. exists (N.log2 (N.land (bits a) (bits b))).
    rewrite !elem_of_bits, <- andb_true_iff, <- N.land_spec. by apply N.bit_log2.
  - intros (i & Ha & Hb) E. apply (f_equal (fun n => N.testbit n i)) in E.
    rewrite N.land_spec, N.bits_0 in E. rewrite !elem_of_bits in *. by rewrite Ha, Hb in E.
Qed.

Lemma hasIntersection_false (a b : t) :
  hasIntersection a b = false <-> a ## b.
Proof.
  rewrite <- not_true_iff_false, hasIntersection_spec. unfold disjoint, set_disjoint_instance.
  naive_solver.
Qed.

Lemma elem_of_prefixThrough (id i : N) :
  id < width -> i ∈ prefixThrough id <-> i <= id.
Proof.
  intros Hid. unfold prefixThrough, kMaxRelations, width in *.
  destruct (N.eqb_spec id (64 - 1)) as [->|Hne].
  - rewrite elem_of_ofBits. unfold all_ones, width. split; [lia |].
    intros Hi. rewrite N.ones_spec_low; lia.
  - rewrite elem_of_ofBits. unfold width.
    change (N.pred (N.shiftl 1 (id + 1))) with (N.ones (id + 1)). split.
    + intros [H1 H2]. destruct (N.lt_ge_cases i (id + 1)); [lia |].
      by rewrite N.ones_spec_high in H1.
    + intros Hi. rewrite N.ones_spec_low; lia.
Qed.

(** ** The lowest set bit and the loops over members *)

(** With enough fuel the loop lists exactly the set bits, in ascending order. *)
Lemma forEach_loop_spec (fuel : nat) (r : N) :
  popcount r <= N.of_nat fuel ->
  (forall i, i ∈ forEach_loop fuel r <-> N.testbit r i = true) /\
  StronglySorted N.lt (forEach_loop fuel r) /\
  N.of_nat (length (forEach_loop fuel r)) = popcount r.
Proof.
  revert r. induction fuel as [|fuel IH]; intros r Hr; cbn [forEach_loop].
  - assert (r = 0) as -> by (apply popcount_zero; lia). split_and!; [| constructor | done].
    intros i. rewrite N.bits_0. set_solver.
  - destruct r as [|p]; cbn [N.eqb].
    { split_and!; [| constructor | done]. intros i. rewrite N.bits_0. set_solver. }
    cbn [countr_zero]. cbn in Hr. rewrite popcount_land_pred in Hr.
    destruct (IH (N.land (Npos p) (N.pred (Npos p)))) as (Hin & Hsort & Hlen); [lia |].
    split_and!.
    + intros i. rewrite elem_of_cons, Hin, land_pred_testbit, andb_true_iff, negb_true_iff, N.eqb_neq.
      destruct (N.eq_dec i (pos_ctz p)) as [->|]; [| naive_solver].
      rewrite pos_ctz_testbit. naive_solver.
    + constructor; [done |]. apply Forall_forall. intros i Hi.
      apply Hin in Hi. rewrite land_pred_testbit, andb_true_iff, negb_true_iff, N.eqb_neq in Hi.
      destruct Hi as [Hi Hne]. destruct (N.lt_ge_cases i (pos_ctz p)); [| lia].
      rewrite pos_ctz_lowest in Hi; done.
    + cbn [length]. rewrite Nat2N.inj_succ, Hlen. cbn. by rewrite popcount_land_pred.
Qed.

Lemma elem_of_ids (s : t) (i : N) : i ∈ ids s <-> i ∈ s.
Proof.
  unfold ids. apply forEach_loop_spec.
  pose proof (popcount_le width (bits s) (bits_lt s)). done.
Qed.

Lemma ids_sorted (s : t) : StronglySorted N.lt (ids s).
Proof. apply forEach_loop_spec. apply (popcount_le width), bits_lt. Qed.

Lemma ids_NoDup (s : t) : NoDup (ids s).
Proof.
  pose proof (ids_sorted s) as H. induction H as [|x l Hl IH Hx]; constructor; [| done].
  rewrite Forall_forall in Hx. intros Hin. specialize (Hx _ Hin). lia.
Qed.

Lemma size_ids (s : t) : size s = N.of_nat (length (ids s)).
Proof.
  unfold size, ids. symmetry. apply forEach_loop_spec. apply (popcount_le width), bits_lt.
Qed.

Lemma forEach_loop_head (fuel : nat) (r i : N) :
  head (forEach_loop fuel r) = Some i -> countr_zero r = i.
Proof. destruct fuel; cbn; [done |]. destruct (r =? 0); cbn; [done |]. by intros [= ->]. Qed.

Lemma head_ids (s : t) (i : N) : head (ids s) = Some i -> min s = i.
Proof. apply forEach_loop_head. Qed.

Lemma anyOf_loop_spec (fuel : nat) (f : N -> bool) (r : N) :
  anyOf_loop fuel f r = existsb f (forEach_loop fuel r).
Proof.
  revert r. induction fuel as [|fuel IH]; intros r; cbn; [done |].
  destruct (r =? 0); cbn; [done |]. rewrite IH. by destruct (f _).
Qed.

Lemma anyOf_ids (s : t) (f : N -> bool) : anyOf s f = existsb f (ids s).
Proof. exact (anyOf_loop_spec 64 f (bits s)). Qed.

Lemma anyOf_spec (s : t) (f : N -> bool) :
  anyOf s f = true <-> exists i, i ∈ s /\ f i = true.
Proof.
  rewrite anyOf_ids, existsb_exists. split; intros (i & Hi & Hf); exists i; split; try done.
  - apply elem_of_ids. by apply list_elem_of_In.
  - apply list_elem_of_In. by apply elem_of_ids.
Qed.

Lemma min_elem (s : t) : empty s = false -> min s ∈ s.
Proof.
  unfold empty, min. rewrite elem_of_bits. destruct (bits s) as [|p]; [done |].
  intros _. apply pos_ctz_testbit.
Qed.

Lemma min_le (s : t) (i : N) : i ∈ s -> min s <= i.
Proof.
  unfold min. rewrite elem_of_bits. destruct (bits s) as [|p]; [done |].
  intros Hi. destruct (N.lt_ge_cases i (pos_ctz p)); [| done].
  cbn [countr_zero] in *. rewrite pos_ctz_lowest in Hi; done.
Qed.
(** ** Automation: [set_solver] sees through the operations *)

#[export] Instance subseteq_preorder : PreOrder (⊆@{t}).
Proof. split; [by intros s i | intros a b c Hab Hbc i Hi; by apply Hbc, Hab]. Qed.

#[export] Instance set_unfold_rsEmpty i : SetUnfoldElemOf i rsEmpty False.
Proof. constructor. apply elem_of_empty_rs. Qed.
#[export] Instance set_unfold_unionSet i a b P Q :
  SetUnfoldElemOf i a P -> SetUnfoldElemOf i b Q -> SetUnfoldElemOf i (unionSet a b) (P \/ Q).
Proof. intros [Ha] [Hb]. constructor. by rewrite elem_of_unionSet, Ha, Hb. Qed.
#[export] Instance set_unfold_intersect i a b P Q :
  SetUnfoldElemOf i a P -> SetUnfoldElemOf i b Q -> SetUnfoldElemOf i (intersect a b) (P /\ Q).
Proof. intros [Ha] [Hb]. constructor. by rewrite elem_of_intersect, Ha, Hb. Qed.
#[export] Instance set_unfold_except i a b P Q :
  SetUnfoldElemOf i a P -> SetUnfoldElemOf i b Q -> SetUnfoldElemOf i (except a b) (P /\ ~ Q).
Proof. intros [Ha] [Hb]. constructor. by rewrite elem_of_except, Ha, Hb. Qed.
#[export] Instance set_unfold_erase i a j P :
  SetUnfoldElemOf i a P -> SetUnfoldElemOf i (erase a j) (P /\ i <> j).
Proof. intros [Ha]. constructor. by rewrite elem_of_erase, Ha. Qed.
#[export] Instance set_unfold_add i a j P :
  SetUnfoldElemOf i a P -> SetUnfoldElemOf i (add a j) ((i = j /\ j < width) \/ P).
Proof. intros [Ha]. constructor. by rewrite elem_of_add, Ha. Qed.
#[export] Instance set_unfold_singleton_rs i j :
  SetUnfoldElemOf i (singleton j) (i = j /\ j < width).
Proof. constructor. apply elem_of_singleton_rs. Qed.

(** ** Refinement to finite sets

    [to_gset] is the abstraction function.  Each operation, given ids in
    [[0, kMaxRelations)] as the header demands, implements the operation of
    the same name on finite sets. *)

Definition to_gset (s : t) : gset N := list_to_set (ids s).

Lemma elem_of_to_gset (s : t) (i : N) : i ∈ to_gset s <-> i ∈ s.
Proof. unfold to_gset. by rewrite elem_of_list_to_set, elem_of_ids. Qed.

#[export] Instance set_unfold_to_gset i s P :
  SetUnfoldElemOf i s P -> SetUnfoldElemOf i (to_gset s) P.
Proof. intros [Ha]. constructor. by rewrite elem_of_to_gset, Ha. Qed.

Lemma to_gset_inj (a b : t) : to_gset a = to_gset b -> a = b.
Proof. intros H. apply rs_ext. intros i. by rewrite <- !elem_of_to_gset, H. Qed.

Lemma size_to_gset (s : t) : N.of_nat (stdpp.base.size (to_gset s)) = size s.
Proof.
  rewrite size_ids. unfold to_gset. rewrite size_list_to_set; [done | apply ids_NoDup].
Qed.

(** C38: every [RelationSet] operation, run on ids below [kMaxRelations],
    computes the finite-set operation it is named after: membership, insertion,
    removal, prefixes, union, intersection, difference, subset, overlap,
    emptiness, equality of words and cardinality. *)
Theorem operations_refine_finite_sets (a b : t) (id : N) (Hid : id < kMaxRelations) :
  (contains a id = true <-> id ∈ to_gset a) /\
  to_gset (add a id) = {[id]} ∪ to_gset a /\
  to_gset (erase a id) = to_gset a ∖ {[id]} /\
  to_gset (singleton id) = {[id]} /\
  (forall i, i ∈ to_gset (prefixThrough id) <-> i <= id) /\
  to_gset (unionSet a b) = to_gset a ∪ to_gset b /\
  to_gset (intersect a b) = to_gset a ∩ to_gset b /\
  to_gset (except a b) = to_gset a ∖ to_gset b /\
  (isSubset a b = true <-> to_gset a ⊆ to_gset b) /\
  (hasIntersection a b = true <-> to_gset a ∩ to_gset b ≠ ∅) /\
  (empty a = true <-> to_gset a = ∅) /\
  (bits a = bits b <-> to_gset a = to_gset b) /\
  size a = N.of_nat (stdpp.base.size (to_gset a)).
Proof.
  unfold kMaxRelations in Hid.
  split_and!; rewrite ?contains_spec, ?isSubset_spec, ?hasIntersection_spec, ?size_to_gset by done;
    try set_solver.
  - intros i. rewrite elem_of_to_gset. by apply elem_of_prefixThrough.
  - split; [set_solver |]. intros H. apply set_choose_L in H as [i Hi]. set_solver.
  - rewrite empty_spec. split; [intros ->; set_solver |]. intros H. apply to_gset_inj. set_solver.
  - split; [intros H; by rewrite (bits_inj _ _ H) |]. intros H. by rewrite (to_gset_inj _ _ H).
Qed.

Lemma operations_refine_finite_sets_witness :
  62 < kMaxRelations /\ to_gset (add (ofBits 5) 62) = {[62]} ∪ to_gset (ofBits 5).
Proof.
  split; [reflexivity |].
  apply (operations_refine_finite_sets (ofBits 5) rsEmpty 62). reflexivity.
Defined.

(** [forEach] (and so every loop over a relation set) visits each member
    exactly once, in strictly ascending order; the number of visits is
    [size()]; [min()] is the first of them; [anyOf] decides existence.  In
    particular 64 iterations of [remaining &= remaining - 1] always suffice. *)
Theorem forEach_visits_members_ascending (s : t) :
  (forall i, i ∈ ids s <-> i ∈ to_gset s) /\
  StronglySorted N.lt (ids s) /\
  N.of_nat (length (ids s)) = size s /\
  (forall i, head (ids s) = Some i -> min s = i) /\
  (forall f, anyOf s f = true <-> exists i, i ∈ to_gset s /\ f i = true).
Proof.
  split_and!.
  - intros i. by rewrite elem_of_ids, elem_of_to_gset.
  - apply ids_sorted.
  - by rewrite size_ids.
  - apply head_ids.
  - intros f. rewrite anyOf_spec. set_solver.
Qed.
End RelationSet.

Abbreviation RelationSet := RelationSet.t.

(** The instances above, for the files that require this one. *)
Export (hints) RelationSets.RelationSet.
