(* ===== verification/BitSets.v ===== *)
(** * BitSet: growable bitmap of plan-object ids

    Models [axiom/optimizer/BitSet.h] and [BitSet.cpp].  A [BitSet] is a vector
    of [uint64_t] words; trailing zero words do not count, so equality of sets
    ([operator==]) is coarser than equality of vectors: it is the setoid [≡]
    below, every operation is [Proper] for it except [hash].

    The bit primitives of Velox ([velox::bits::...] and [crc32U64]) are not part
    of the repository: they are the class [VeloxBits], whose laws state their
    documented behaviour, with an instance that satisfies the laws. *)

From S2P Require Import Prelude Word64.
From Stdlib Require Import Lia.
Set Warnings "-clear-no-such-hyp".

Open Scope N_scope.

(** ** The Velox primitives *)

(** Bit [i] of a vector of words: bit [i mod 64] of word [i / 64]. *)
Definition bit_at (ws : list word64) (i : N) : bool :=
  match ws !! N.to_nat (i / 64) with
  | Some w => N.testbit (word_val w) (i mod 64)
  | None => false
  end.

Definition num_bits (ws : list word64) : N := 64 * N.of_nat (length ws).

Class VeloxBits := {
  isBitSet : list word64 -> N -> bool;
  setBit : list word64 -> N -> list word64;
  clearBit : list word64 -> N -> list word64;
  nwords : N -> N;
  countBits : list word64 -> N -> N -> N;
  (** The positions [forEachSetBit(bits, begin, end, f)] passes to [f]. *)
  setBitPositions : list word64 -> N -> N -> list N;
  bitsIsSubset : list word64 -> list word64 -> N -> N -> bool;
  bitsHasIntersection : list word64 -> list word64 -> N -> N -> bool;
  crc32U64 : N -> N -> N;
  isBitSet_law ws i : i < num_bits ws -> isBitSet ws i = bit_at ws i;
  setBit_length ws i : length (setBit ws i) = length ws;
  setBit_law ws i j : i < num_bits ws ->
    bit_at (setBit ws i) j = (j =? i) || bit_at ws j;
  clearBit_length ws i : length (clearBit ws i) = length ws;
  clearBit_law ws i j : i < num_bits ws ->
    bit_at (clearBit ws i) j = negb (j =? i) && bit_at ws j;
  nwords_law i : nwords i = (i + 63) / 64;
  setBitPositions_law ws b e i : e <= num_bits ws ->
    i ∈ setBitPositions ws b e <-> b <= i < e /\ bit_at ws i = true;
  setBitPositions_sorted ws b e : StronglySorted N.lt (setBitPositions ws b e);
  countBits_law ws b e : countBits ws b e = N.of_nat (length (setBitPositions ws b e));
  bitsIsSubset_law ws ws' b e : e <= num_bits ws -> e <= num_bits ws' ->
    bitsIsSubset ws ws' b e = true <->
    forall i, b <= i < e -> bit_at ws i = true -> bit_at ws' i = true;
  bitsHasIntersection_law ws ws' b e : e <= num_bits ws -> e <= num_bits ws' ->
    bitsHasIntersection ws ws' b e = true <->
    exists i, b <= i < e /\ bit_at ws i = true /\ bit_at ws' i = true;
}.

(** ** The class *)

(** [QGVector<uint64_t> bits_] *)
Record BitSet : Set := mkBitSet { words : list word64 }.

Module BitSet.
Section Operations.
Context {VB : VeloxBits}.

Definition zero_word : word64 := to_word 0.

Definition new : BitSet := mkBitSet [].

(** [std::vector::resize(size)] *)
Definition resize (ws : list word64) (n : N) : list word64 :=
  take (N.to_nat n) ws ++ replicate (N.to_nat n - length ws) zero_word.

Definition ensureWords (ws : list word64) (n : N) : list word64 :=
  if N.of_nat (length ws) <? n then resize ws n else ws.

Definition ensureSize (ws : list word64) (id : N) : list word64 :=
  ensureWords ws (nwords (id + 1)).

Definition contains (s : BitSet) (id : N) : bool :=
  (id <? num_bits (words s)) && isBitSet (words s) id.

Definition add (s : BitSet) (id : N) : BitSet :=
  mkBitSet (setBit (ensureSize (words s) id) id).

Definition erase (s : BitSet) (id : N) : BitSet :=
  if id <? num_bits (words s) then mkBitSet (clearBit (words s) id) else s.

Definition is_zero_word (w : word64) : bool := word_val w =? 0.

(** [isZero(bits, begin, end)] *)
Definition isZero (ws : list word64) (begin_ end_ : nat) : bool :=
  forallb is_zero_word (take (end_ - begin_) (drop begin_ ws)).

(** The common prefix compared by [operator==]. *)
Fixpoint equal_prefix (l1 l2 : list word64) : bool :=
  match l1, l2 with
  | w1 :: l1, w2 :: l2 => if word_val w1 =? word_val w2 then equal_prefix l1 l2 else false
  | _, _ => true
  end.

(** [operator==] *)
Definition eqb (s other : BitSet) : bool :=
  let l1 := length (words s) in
  let l2 := length (words other) in
  if negb (equal_prefix (words s) (words other)) then false
  else if (l1 <? l2)%nat then isZero (words other) l1 l2
  else if (l2 <? l1)%nat then isZero (words s) l2 l1
  else true.

Definition empty (s : BitSet) : bool := forallb is_zero_word (words s).

(** [std::ranges::fill(bits_, 0)] *)
Definition clear (s : BitSet) : BitSet :=
  mkBitSet (replicate (length (words s)) zero_word).

Definition isSubset (s super : BitSet) : bool :=
  let l1 := length (words s) in
  let l2 := length (words super) in
  if negb (bitsIsSubset (words s) (words super) 0 (N.of_nat (Nat.min l1 l2) * 64)) then false
  else if (l2 <? l1)%nat then isZero (words s) l2 l1
  else true.

Definition hasIntersection (s other : BitSet) : bool :=
  let l1 := length (words s) in
  let l2 := length (words other) in
  bitsHasIntersection (words s) (words other) 0 (N.of_nat (Nat.min l1 l2) * 64).

(** The loop [for (i < other.size()) bits_[i] |= other.bits_[i]]; the words of
    [this] beyond [other] stay. *)
Fixpoint or_words (l1 l2 : list word64) : list word64 :=
  match l1, l2 with
  | w1 :: l1, w2 :: l2 => to_word (N.lor (word_val w1) (word_val w2)) :: or_words l1 l2
  | l1, _ => l1
  end.

Definition unionSet (s other : BitSet) : BitSet :=
  mkBitSet (or_words (ensureWords (words s) (N.of_nat (length (words other)))) (words other)).

Definition and_words (l1 l2 : list word64) : list word64 :=
  zip_with (fun w1 w2 => to_word (N.land (word_val w1) (word_val w2))) l1 l2.

Definition intersect (s other : BitSet) : BitSet :=
  let n := Nat.min (length (words s)) (length (words other)) in
  mkBitSet (and_words (resize (words s) (N.of_nat n)) (words other)).

Definition positions (s : BitSet) : list N :=
  setBitPositions (words s) 0 (num_bits (words s)).

(** [except]: clears in [this] every bit set in [other]. *)
Definition except (s other : BitSet) : BitSet :=
  mkBitSet
    (foldl (fun ws id => if id <? num_bits ws then clearBit ws id else ws)
           (words s) (positions other)).

Definition size (s : BitSet) : N := countBits (words s) 0 (num_bits (words s)).

(** The ids [forEach] visits, in order. *)
Definition ids (s : BitSet) : list N := positions s.

(** [!testSetBits(..., [&](auto id) { return !predicate(id); })] *)
Definition anyOf (s : BitSet) (predicate : N -> bool) : bool :=
  negb (forallb (fun id => negb (predicate id)) (positions s)).

(** [hash()], on [size_t]. *)
Definition hash (s : BitSet) : N :=
  let h := foldl (fun h w => crc32U64 h (word_val w)) 123 (words s) in
  wrap64 (h * h).
End Operations.

(** ** Membership *)

Lemma div_mod_64 (i : N) : i = 64 * (i / 64) + i mod 64 /\ i mod 64 < 64.
Proof. split; [apply N.div_mod' | by apply N.mod_lt]. Qed.

(** Linear arithmetic over the word index and bit index of [i]. *)
Ltac div64 i :=
  let q := fresh "q" in let r := fresh "r" in
  destruct (div_mod_64 i);
  set (q := i / 64) in *; set (r := i mod 64) in *; clearbody q r.

Lemma bit_at_lt (ws : list word64) (i : N) : bit_at ws i = true -> i < num_bits ws.
Proof.
  unfold bit_at, num_bits. destruct (ws !! _) as [w|] eqn:E; [| done].
  intros _. apply lookup_lt_Some in E. div64 i. lia.
Qed.

Lemma bit_at_zero_word (i : N) : N.testbit (word_val zero_word) i = false.
Proof. apply N.bits_0. Qed.

Lemma lookup_word_index (i : N) (n : N) : (N.to_nat (i / 64) < N.to_nat n)%nat <-> i < 64 * n.
Proof.
  div64 i. split; intros; lia.
Qed.

Lemma resize_bit_at (ws : list word64) (n i : N) :
  bit_at (resize ws n) i = bit_at ws i && (i <? 64 * n).
Proof.
  unfold bit_at, resize. destruct (N.ltb_spec i (64 * n)) as [Hi|Hi].
  - apply lookup_word_index in Hi. rewrite andb_true_r.
    destruct (decide (N.to_nat (i / 64) < length ws)%nat) as [Hl|Hl].
    + rewrite lookup_app_l by (rewrite length_take; lia).
      by rewrite lookup_take_lt.
    + rewrite lookup_app_r by (rewrite length_take; lia).
      rewrite length_take, lookup_replicate_2 by lia.
      rewrite (lookup_ge_None_2 ws) by lia. apply bit_at_zero_word.
  - rewrite andb_false_r, lookup_ge_None_2; [done |].
    rewrite length_app, length_take, length_replicate.
    pose proof (lookup_word_index i n). lia.
Qed.

Lemma resize_length (ws : list word64) (n : N) : length (resize ws n) = N.to_nat n.
Proof. unfold resize. rewrite length_app, length_take, length_replicate. lia. Qed.

Lemma ensureWords_bit_at (ws : list word64) (n i : N) :
  bit_at (ensureWords ws n) i = bit_at ws i.
Proof.
  unfold ensureWords. destruct (N.ltb_spec (N.of_nat (length ws)) n); [| done].
  rewrite resize_bit_at. destruct (bit_at ws i) eqn:E; [| done].
  apply bit_at_lt in E. unfold num_bits in E. apply N.ltb_lt. lia.
Qed.

Lemma ensureWords_length (ws : list word64) (n : N) :
  N.of_nat (length (ensureWords ws n)) = N.max (N.of_nat (length ws)) n.
Proof.
  unfold ensureWords. destruct (N.ltb_spec (N.of_nat (length ws)) n); [| lia].
  rewrite resize_length. lia.
Qed.

Lemma is_zero_word_spec (w : word64) :
  is_zero_word w = true <-> forall i, N.testbit (word_val w) i = false.
Proof. apply word_zero_iff. Qed.

(** A run of zero words is a run of clear bits. *)
Lemma forallb_zero_bits (ws : list word64) :
  forallb is_zero_word ws = true <-> forall i, bit_at ws i = false.
Proof.
  rewrite forallb_forall. setoid_rewrite <- list_elem_of_In. split.
  - intros H i. unfold bit_at. destruct (ws !! _) as [w|] eqn:E; [| done].
    by apply is_zero_word_spec, H, (list_elem_of_lookup_2 _ _ _ E).
  - intros H w [k E]%list_elem_of_lookup. apply is_zero_word_spec. intros j.
    destruct (N.lt_ge_cases j 64) as [Hj|Hj].
    + specialize (H (N.of_nat k * 64 + j)). unfold bit_at in H.
      rewrite N.div_add_l, N.div_small, N.add_0_r, Nat2N.id, E in H by done.
      rewrite N.add_comm, N.Div0.mod_add, N.mod_small in H by done. done.
    + apply testbit_above; [apply word_lt | done].
Qed.

Lemma drop_bit_at (ws : list word64) (k : nat) (i : N) :
  bit_at (drop k ws) i = bit_at ws (64 * N.of_nat k + i).
Proof.
  unfold bit_at. rewrite lookup_drop. rewrite (N.mul_comm 64), N.div_add_l by done.
  rewrite N.add_comm with (n := _ * 64), N.Div0.mod_add.
  rewrite N2Nat.inj_add, Nat2N.id. done.
Qed.

(** [isZero(bits, begin, size)] says that no bit at or above word [begin] is set. *)
Lemma isZero_tail (ws : list word64) (k : nat) :
  isZero ws k (length ws) = true <-> forall i, bit_at ws i = true -> i < 64 * N.of_nat k.
Proof.
  unfold isZero. rewrite take_ge by (rewrite length_drop; lia).
  rewrite forallb_zero_bits. setoid_rewrite drop_bit_at. split.
  - intros H i Hi. destruct (N.lt_ge_cases i (64 * N.of_nat k)) as [|Hge]; [done |].
    specialize (H (i - 64 * N.of_nat k)).
    replace (64 * N.of_nat k + (i - 64 * N.of_nat k)) with i in H by lia. congruence.
  - intros H i. destruct (bit_at ws _) eqn:E; [| done]. specialize (H _ E). lia.
Qed.

#[export] Instance elem_of_instance : ElemOf N BitSet := fun i s => bit_at (words s) i = true.

Lemma elem_of_bit_at (s : BitSet) (i : N) : i ∈ s <-> bit_at (words s) i = true.
Proof. done. Qed.

#[export] Instance elem_of_dec : RelDecision (∈@{BitSet}).
Proof. intros i s. unfold elem_of, elem_of_instance. apply _. Defined.

Lemma elem_of_num_bits (s : BitSet) (i : N) : i ∈ s -> i < num_bits (words s).
Proof. apply bit_at_lt. Qed.

Lemma not_elem_of_new (i : N) : i ∈ new <-> False.
Proof. done. Qed.

Section Theory.
Context {VB : VeloxBits}.

Lemma bitset_contains_spec (s : BitSet) (id : N) : contains s id = true <-> id ∈ s.
Proof.
  unfold contains. rewrite elem_of_bit_at, andb_true_iff, N.ltb_lt. split.
  - intros [Hlt H]. by rewrite isBitSet_law in H.
  - intros H. pose proof (bit_at_lt _ _ H). by rewrite isBitSet_law.
Qed.

Lemma contains_false (s : BitSet) (id : N) : contains s id = false <-> id ∉ s.
Proof. rewrite <- bitset_contains_spec. by destruct (contains s id). Qed.

Lemma ensureSize_room (ws : list word64) (id : N) : id < num_bits (ensureSize ws id).
Proof.
  unfold ensureSize, num_bits. rewrite ensureWords_length, nwords_law.
  div64 (id + 1 + 63). lia.
Qed.

Lemma bitset_elem_of_add (s : BitSet) (id i : N) : i ∈ add s id <-> i = id \/ i ∈ s.
Proof.
  unfold add. rewrite !elem_of_bit_at. cbn. rewrite setBit_law by apply ensureSize_room.
  unfold ensureSize. by rewrite ensureWords_bit_at, orb_true_iff, N.eqb_eq.
Qed.

Lemma bitset_elem_of_erase (s : BitSet) (id i : N) : i ∈ erase s id <-> i ∈ s /\ i <> id.
Proof.
  unfold erase. rewrite !elem_of_bit_at. destruct (N.ltb_spec id (num_bits (words s))); cbn.
  - rewrite clearBit_law, andb_true_iff, negb_true_iff, N.eqb_neq by done. naive_solver.
  - split; [| naive_solver]. intros Hi. split; [done |]. apply bit_at_lt in Hi. lia.
Qed.

Lemma or_words_bit_at (l1 l2 : list word64) (i : N) :
  (length l2 <= length l1)%nat -> bit_at (or_words l1 l2) i = bit_at l1 i || bit_at l2 i.
Proof.
  intros Hlen. unfold bit_at. generalize (N.to_nat (i / 64)) as k. pose proof (proj2 (div_mod_64 i)).
  revert l2 Hlen. induction l1 as [|w1 l1 IH]; intros l2 Hlen k.
  - destruct l2; [done | cbn in Hlen; lia].
  - destruct l2 as [|w2 l2]; cbn [or_words].
    + cbn [lookup list_lookup]. by rewrite lookup_nil, orb_false_r.
    + destruct k as [|k]; cbn [lookup list_lookup].
      * cbn [word_val to_word]. rewrite wrap64_testbit, N.lor_spec.
        unfold width. rewrite (proj2 (N.ltb_lt _ _)), andb_true_r by lia. done.
      * apply IH. cbn in Hlen. lia.
Qed.

Lemma bitset_elem_of_unionSet (s other : BitSet) (i : N) : i ∈ unionSet s other <-> i ∈ s \/ i ∈ other.
Proof.
  unfold unionSet. rewrite !elem_of_bit_at. cbn. rewrite or_words_bit_at.
  - by rewrite ensureWords_bit_at, orb_true_iff.
  - pose proof (ensureWords_length (words s) (N.of_nat (length (words other)))). lia.
Qed.

Lemma and_words_bit_at (l1 l2 : list word64) (i : N) :
  bit_at (and_words l1 l2) i = bit_at l1 i && bit_at l2 i.
Proof.
  unfold bit_at, and_words. rewrite lookup_zip_with.
  destruct (l1 !! _) as [w1|]; cbn; [| done]. destruct (l2 !! _) as [w2|]; cbn.
  - rewrite wrap64_testbit, N.land_spec. pose proof (proj2 (div_mod_64 i)).
    unfold width. rewrite (proj2 (N.ltb_lt _ _)), andb_true_r by lia. done.
  - by rewrite andb_false_r.
Qed.

Lemma bitset_elem_of_intersect (s other : BitSet) (i : N) :
  i ∈ intersect s other <-> i ∈ s /\ i ∈ other.
Proof.
  unfold intersect. rewrite !elem_of_bit_at. cbn.
  rewrite and_words_bit_at, resize_bit_at, !andb_true_iff, N.ltb_lt. split; [naive_solver |].
  intros [H1 H2]. split_and!; try done. apply bit_at_lt in H1, H2. unfold num_bits in *. lia.
Qed.

Lemma elem_of_positions (s : BitSet) (i : N) : i ∈ positions s <-> i ∈ s.
Proof.
  unfold positions. rewrite setBitPositions_law by done. rewrite elem_of_bit_at.
  split; [naive_solver |]. intros H. split; [| done]. apply bit_at_lt in H. lia.
Qed.

Lemma bitset_elem_of_except (s other : BitSet) (i : N) : i ∈ except s other <-> i ∈ s /\ i ∉ other.
Proof.
  unfold except. rewrite elem_of_bit_at. cbn.
  rewrite <- (elem_of_positions other), (elem_of_bit_at s).
  generalize (positions other) as l. generalize (words s) as ws.
  intros ws l. revert ws. induction l as [|id l IH]; intros ws; cbn [foldl]; [set_solver |].
  rewrite IH, not_elem_of_cons. destruct (N.ltb_spec id (num_bits ws)).
  - rewrite clearBit_law, andb_true_iff, negb_true_iff, N.eqb_neq by done. naive_solver.
  - split; [| naive_solver]. intros [Hi Hn]. split_and!; try done.
    apply bit_at_lt in Hi. intros ->. lia.
Qed.

Lemma bitset_isSubset_spec (s super : BitSet) : isSubset s super = true <-> s ⊆ super.
Proof.
  unfold isSubset. set (n := Nat.min _ _).
  assert (Hprefix : bitsIsSubset (words s) (words super) 0 (N.of_nat n * 64) = true <->
    forall i, i < N.of_nat n * 64 -> i ∈ s -> i ∈ super).
  { rewrite bitsIsSubset_law by (unfold num_bits; lia). setoid_rewrite elem_of_bit_at.
    split; intros H i Hi; apply H; lia. }
  destruct (bitsIsSubset _ _ _ _); cbn [negb].
  - pose proof (proj1 Hprefix eq_refl) as Hp. clear Hprefix.
    destruct (Nat.ltb_spec (length (words super)) (length (words s))) as [Hl|Hl].
    + rewrite isZero_tail. split.
      * intros H i Hi. specialize (H _ Hi). apply Hp; [lia | done].
      * intros H i Hi. specialize (H _ Hi). apply elem_of_num_bits in H.
        unfold num_bits in H. lia.
    + split; [| done]. intros _ i Hi. apply Hp; [| done].
      apply elem_of_num_bits in Hi. unfold num_bits in Hi. lia.
  - split; [done |]. intros H. exfalso. destruct Hprefix as [_ Hf].
    discriminate Hf. intros i _. apply H.
Qed.

Lemma bitset_isSubset_false (s super : BitSet) : isSubset s super = false <-> ~ (s ⊆ super).
Proof. rewrite <- bitset_isSubset_spec. by destruct (isSubset s super). Qed.

Lemma bitset_hasIntersection_spec (s other : BitSet) :
  hasIntersection s other = true <-> exists i, i ∈ s /\ i ∈ other.
Proof.
  unfold hasIntersection. rewrite bitsHasIntersection_law by (unfold num_bits; lia). split.
  - intros (i & _ & H). by exists i.
  - intros (i & H1 & H2). exists i. split_and!; try done; [lia |].
    apply elem_of_num_bits in H1, H2. unfold num_bits in *. lia.
Qed.

Lemma bitset_empty_spec (s : BitSet) : empty s = true <-> forall i, i ∉ s.
Proof.
  unfold empty. rewrite forallb_zero_bits. setoid_rewrite elem_of_bit_at.
  by setoid_rewrite not_true_iff_false.
Qed.

Lemma bitset_elem_of_ids (s : BitSet) (i : N) : i ∈ ids s <-> i ∈ s.
Proof. apply elem_of_positions. Qed.

Lemma bitset_ids_sorted (s : BitSet) : StronglySorted N.lt (ids s).
Proof. apply setBitPositions_sorted. Qed.

Lemma bitset_size_ids (s : BitSet) : size s = N.of_nat (length (ids s)).
Proof. apply countBits_law. Qed.

Lemma forallb_negb {A} (f : A -> bool) (l : list A) :
  forallb (fun x => negb (f x)) l = negb (existsb f l).
Proof. induction l as [|x l IH]; cbn; [done |]. rewrite IH. by destruct (f x). Qed.

Lemma bitset_anyOf_spec (s : BitSet) (f : N -> bool) :
  anyOf s f = true <-> exists i, i ∈ s /\ f i = true.
Proof.
  unfold anyOf. rewrite forallb_negb, negb_involutive, existsb_exists.
  setoid_rewrite <- list_elem_of_In. by setoid_rewrite elem_of_positions.
Qed.

Lemma equal_prefix_spec (l1 l2 : list word64) :
  equal_prefix l1 l2 = true <->
  forall k w1 w2, l1 !! k = Some w1 -> l2 !! k = Some w2 -> w1 = w2.
Proof.
  revert l2. induction l1 as [|w1 l1 IH]; intros [|w2 l2]; cbn [equal_prefix];
    try (split; [intros _ k ? ?; by rewrite ?lookup_nil | done]).
  destruct (N.eqb_spec (word_val w1) (word_val w2)) as [E|Hne].
  - apply word_inj in E as <-. rewrite IH. split.
    + intros H [|k] v1 v2; cbn; [naive_solver | apply H].
    + intros H k. apply (H (S k)).
  - split; [done |]. intros H. rewrite (H 0%nat w1 w2) in Hne; done.
Qed.

Lemma word_eq_bits (w1 w2 : word64) :
  (forall j, j < 64 -> N.testbit (word_val w1) j = N.testbit (word_val w2) j) -> w1 = w2.
Proof.
  intros H. apply word_inj, N.bits_inj. intros j. destruct (N.lt_ge_cases j 64); [by apply H |].
  rewrite !testbit_above; done || apply word_lt.
Qed.

Lemma bit_at_split (ws : list word64) (k : nat) (j : N) (w : word64) :
  ws !! k = Some w -> j < 64 -> bit_at ws (N.of_nat k * 64 + j) = N.testbit (word_val w) j.
Proof.
  intros E Hj. unfold bit_at. rewrite N.div_add_l, N.div_small, N.add_0_r, Nat2N.id, E by done.
  by rewrite N.add_comm, N.Div0.mod_add, N.mod_small.
Qed.

Lemma equal_prefix_bits (l1 l2 : list word64) :
  equal_prefix l1 l2 = true <->
  forall i, i < 64 * N.of_nat (Nat.min (length l1) (length l2)) -> bit_at l1 i = bit_at l2 i.
Proof.
  rewrite equal_prefix_spec. split.
  - intros H i Hi. unfold bit_at.
    assert (Hk : (N.to_nat (i / 64) < Nat.min (length l1) (length l2))%nat)
      by (div64 i; lia).
    destruct (lookup_lt_is_Some_2 l1 (N.to_nat (i / 64))) as [w1 E1]; [lia |].
    destruct (lookup_lt_is_Some_2 l2 (N.to_nat (i / 64))) as [w2 E2]; [lia |].
    rewrite E1, E2. by rewrite (H _ _ _ E1 E2).
  - intros H k w1 w2 E1 E2. apply word_eq_bits. intros j Hj.
    rewrite <- (bit_at_split l1 k j w1), <- (bit_at_split l2 k j w2) by done.
    apply H. apply lookup_lt_Some in E1, E2. lia.
Qed.

Lemma eqb_spec (s other : BitSet) : eqb s other = true <-> s ≡ other.
Proof.
  unfold eqb. pose proof (equal_prefix_bits (words s) (words other)) as Hp.
  assert (Hsub : forall a b : BitSet, isZero (words a) (length (words b)) (length (words a)) = true ->
    forall i, i ∈ a -> i < 64 * N.of_nat (length (words b))).
  { intros a b Ha. by apply isZero_tail. }
  assert (Hbits : forall i, (bit_at (words s) i = bit_at (words other) i) <-> (i ∈ s <-> i ∈ other)).
  { intros i. rewrite !elem_of_bit_at. split; [by intros -> | apply Bool.eq_true_iff_eq]. }
  setoid_rewrite Hbits in Hp.
  destruct (equal_prefix _ _) eqn:E; cbn [negb].
  2:{ split; [done |]. intros H. cut (false = true); [done |]. apply Hp. intros i _. apply H. }
  pose proof (proj1 Hp eq_refl) as Hpre. clear Hp Hbits E.
  destruct (Nat.ltb_spec (length (words s)) (length (words other))) as [Hl|Hl];
    [| destruct (Nat.ltb_spec (length (words other)) (length (words s))) as [Hl'|Hl']].
  - split.
    + intros Hz i. pose proof (Hsub _ _ Hz i) as Hi. pose proof (elem_of_num_bits s i) as Hs.
      unfold num_bits in Hs. split; intros Hin; apply Hpre; try done; naive_solver lia.
    + intros Heq. apply isZero_tail. intros i Hi. apply Heq, elem_of_num_bits in Hi. done.
  - split.
    + intros Hz i. pose proof (Hsub _ _ Hz i) as Hi. pose proof (elem_of_num_bits other i) as Hs.
      unfold num_bits in Hs. split; intros Hin; apply Hpre; try done; naive_solver lia.
    + intros Heq. apply isZero_tail. intros i Hi. apply Heq, elem_of_num_bits in Hi. done.
  - split; [| done]. intros _ i. pose proof (elem_of_num_bits other i) as Ho.
    pose proof (elem_of_num_bits s i) as Hs. unfold num_bits in *.
    split; intros Hin; apply Hpre; try done; naive_solver lia.
Qed.

(** ** Rewriting under set equality *)

#[export] Instance elem_of_proper : Proper ((=) ==> (≡) ==> iff) (∈@{BitSet}).
Proof. intros i ? <- s s' Hs. apply Hs. Qed.
#[export] Instance contains_proper : Proper ((≡) ==> (=) ==> (=)) contains.
Proof. intros s s' Hs i ? <-. apply Bool.eq_true_iff_eq. by rewrite !bitset_contains_spec, Hs. Qed.
#[export] Instance add_proper : Proper ((≡) ==> (=) ==> (≡)) add.
Proof. intros s s' Hs id ? <- i. by rewrite !bitset_elem_of_add, Hs. Qed.
#[export] Instance unionSet_proper : Proper ((≡) ==> (≡) ==> (≡)) unionSet.
Proof. intros s s' Hs o o' Ho i. by rewrite !bitset_elem_of_unionSet, Hs, Ho. Qed.
#[export] Instance intersect_proper : Proper ((≡) ==> (≡) ==> (≡)) intersect.
Proof. intros s s' Hs o o' Ho i. by rewrite !bitset_elem_of_intersect, Hs, Ho. Qed.
#[export] Instance except_proper : Proper ((≡) ==> (≡) ==> (≡)) except.
Proof. intros s s' Hs o o' Ho i. by rewrite !bitset_elem_of_except, Hs, Ho. Qed.
#[export] Instance isSubset_proper : Proper ((≡) ==> (≡) ==> (=)) isSubset.
Proof.
  intros s s' Hs o o' Ho. apply Bool.eq_true_iff_eq. rewrite !bitset_isSubset_spec.
  split; intros H i Hi; apply Ho, H, Hs, Hi.
Qed.

(** Two sorted lists with the same elements are equal; hence equal sets are
    enumerated alike, whatever their storage. *)
Lemma sorted_lt_unique (l1 l2 : list N) :
  StronglySorted N.lt l1 -> StronglySorted N.lt l2 -> (forall i, i ∈ l1 <-> i ∈ l2) -> l1 = l2.
Proof.
  intros H1 H2 Heq. assert (AntiSymm (=) N.lt) by (intros x y Hx Hy; lia).
  apply (StronglySorted_unique N.lt); [done | done |].
  - apply NoDup_Permutation; [| | done].
    + clear -H1. induction H1 as [|x l _ IH Hx]; constructor; [| done].
      rewrite Forall_forall in Hx. intros Hin%Hx. lia.
    + clear -H2. induction H2 as [|x l _ IH Hx]; constructor; [| done].
      rewrite Forall_forall in Hx. intros Hin%Hx. lia.
Qed.

#[export] Instance ids_proper : Proper ((≡) ==> (=)) ids.
Proof.
  intros s s' Hs. apply sorted_lt_unique; [apply bitset_ids_sorted | apply bitset_ids_sorted |].
  intros i. by rewrite !bitset_elem_of_ids, Hs.
Qed.

#[export] Instance subseteq_preorder : PreOrder (⊆@{BitSet}).
Proof. split; [by intros s i | intros a b c Hab Hbc i Hi; by apply Hbc, Hab]. Qed.

#[export] Instance set_unfold_add i s j P :
  SetUnfoldElemOf i s P -> SetUnfoldElemOf i (add s j) (i = j \/ P).
Proof. intros [Hs]. constructor. by rewrite bitset_elem_of_add, Hs. Qed.
#[export] Instance set_unfold_unionSet i s o P Q :
  SetUnfoldElemOf i s P -> SetUnfoldElemOf i o Q -> SetUnfoldElemOf i (unionSet s o) (P \/ Q).
Proof. intros [Hs] [Ho]. constructor. by rewrite bitset_elem_of_unionSet, Hs, Ho. Qed.
#[export] Instance set_unfold_intersect i s o P Q :
  SetUnfoldElemOf i s P -> SetUnfoldElemOf i o Q -> SetUnfoldElemOf i (intersect s o) (P /\ Q).
Proof. intros [Hs] [Ho]. constructor. by rewrite bitset_elem_of_intersect, Hs, Ho. Qed.

(** Every [BitSet] operation, whatever the lengths of the two word vectors
    and whatever trailing zero words they carry, computes the finite-set
    operation it is named after. *)
Theorem bitset_operations_are_set_operations (s other : BitSet) (id i : N) :
  (contains s id = true <-> id ∈ s) /\
  (i ∈ add s id <-> i = id \/ i ∈ s) /\
  (i ∈ erase s id <-> i ∈ s /\ i <> id) /\
  (i ∈ unionSet s other <-> i ∈ s \/ i ∈ other) /\
  (i ∈ intersect s other <-> i ∈ s /\ i ∈ other) /\
  (i ∈ except s other <-> i ∈ s /\ i ∉ other) /\
  (i ∉ clear s) /\
  (isSubset s other = true <-> s ⊆ other) /\
  (hasIntersection s other = true <-> exists j, j ∈ s /\ j ∈ other) /\
  (empty s = true <-> forall j, j ∉ s) /\
  size s = N.of_nat (length (ids s)) /\
  (i ∈ ids s <-> i ∈ s) /\ StronglySorted N.lt (ids s).
Proof.
  split_conj; [apply bitset_contains_spec | apply bitset_elem_of_add | apply bitset_elem_of_erase
    | apply bitset_elem_of_unionSet | apply bitset_elem_of_intersect | apply bitset_elem_of_except | 
    | apply bitset_isSubset_spec | apply bitset_hasIntersection_spec | apply bitset_empty_spec
    | apply bitset_size_ids | apply bitset_elem_of_ids | apply bitset_ids_sorted].
  rewrite elem_of_bit_at. unfold bit_at. cbn [words clear].
  destruct (replicate _ _ !! _) as [w|] eqn:E; [| done].
  apply lookup_replicate in E as [-> _]. by rewrite bit_at_zero_word.
Qed.

(** [operator==] decides equality of the represented sets, ignoring storage:
    two vectors of different lengths compare equal exactly when they have the
    same members, and then every query and every loop over them agree. *)
Theorem bitset_equality_is_set_equality (s other : BitSet) :
  (eqb s other = true <-> (forall i, i ∈ s <-> i ∈ other)) /\
  (eqb s other = true ->
     ids s = ids other /\ size s = size other /\
     (forall id, contains s id = contains other id) /\
     (forall super, isSubset s super = isSubset other super)).
Proof.
  split; [apply eqb_spec |]. rewrite eqb_spec. intros Heq. split_and!.
  - by rewrite Heq.
  - by rewrite !bitset_size_ids, Heq.
  - intros id. by rewrite Heq.
  - intros super. by rewrite Heq.
Qed.

(** [hash()] mixes every word of the vector, trailing zero words included
    (the comment in the source says "all non-zero words"), so it is not a
    function of the set: the empty set stored in no words and in one zero word
    compare equal with [operator==], and hash alike only if the CRC of a zero
    word leaves the square of the seed unchanged. *)
Theorem bitset_hash_depends_on_storage :
  let stored_empty := mkBitSet [zero_word] in
  eqb new stored_empty = true /\
  (hash new = hash stored_empty <->
   wrap64 (crc32U64 123 0 * crc32U64 123 0) = wrap64 (123 * 123)).
Proof.
  split; [apply eqb_spec |].
  - intros i. rewrite !elem_of_bit_at. unfold bit_at. cbn.
    destruct (N.to_nat (i / 64)); cbn; [by rewrite bit_at_zero_word | done].
  - split; intros H; symmetry; exact H.
Qed.
End Theory.

(** ** An instance of the Velox primitives *)

Module Velox.
Definition set_word (f : N -> N) (ws : list word64) (i : N) : list word64 :=
  alter (fun w => to_word (f (word_val w))) (N.to_nat (i / 64)) ws.

Definition setBit (ws : list word64) (i : N) : list word64 :=
  set_word (fun w => N.setbit w (i mod 64)) ws i.
Definition clearBit (ws : list word64) (i : N) : list word64 :=
  set_word (fun w => N.clearbit w (i mod 64)) ws i.
Definition range (e : N) : list N := map N.of_nat (seq 0 (N.to_nat e)).
Definition setBitPositions (ws : list word64) (b e : N) : list N :=
  List.filter (fun i => (b <=? i) && bit_at ws i) (range e).
Definition bitsIsSubset (ws ws' : list word64) (b e : N) : bool :=
  forallb (bit_at ws') (setBitPositions ws b e).
Definition bitsHasIntersection (ws ws' : list word64) (b e : N) : bool :=
  existsb (bit_at ws') (setBitPositions ws b e).

(** CRC-32C of one 64-bit word, bit by bit (the [crc32] instruction). *)
Fixpoint crc_bits (n : nat) (crc data : N) : N :=
  match n with
  | O => crc
  | S n =>
      let bit := N.testbit (N.lxor crc data) 0 in
      let crc := N.shiftr crc 1 in
      crc_bits n (if bit then N.lxor crc 0x82F63B78 else crc) (N.shiftr data 1)
  end.
Definition crc32U64 (crc data : N) : N := crc_bits 64 (crc mod 2 ^ 32) data.

Lemma set_word_bit_at (f : N -> N) (ws : list word64) (i j : N) :
  i < num_bits ws ->
  bit_at (set_word f ws i) j =
  if j / 64 =? i / 64
  then match ws !! N.to_nat (i / 64) with
       | Some w => N.testbit (f (word_val w)) (j mod 64) | None => false end
  else bit_at ws j.
Proof.
  intros Hi. unfold bit_at, set_word. destruct (N.eqb_spec (j / 64) (i / 64)) as [E|Hne].
  - rewrite E, list_lookup_alter_eq. destruct (ws !! _); cbn; [| done].
    pose proof (proj2 (div_mod_64 j)). rewrite wrap64_testbit. unfold width.
    by rewrite (proj2 (N.ltb_lt _ _)), andb_true_r.
  - rewrite list_lookup_alter_ne; [done |]. intros H%N2Nat.inj. done.
Qed.

Lemma same_bit (i j : N) : j / 64 = i / 64 -> (j mod 64 =? i mod 64) = (j =? i).
Proof.
  intros E. apply Bool.eq_true_iff_eq. rewrite !N.eqb_eq. split; [| by intros ->].
  destruct (div_mod_64 i), (div_mod_64 j). lia.
Qed.

Lemma lookup_word (ws : list word64) (i : N) :
  i < num_bits ws -> exists w, ws !! N.to_nat (i / 64) = Some w.
Proof. intros Hi. apply lookup_lt_is_Some_2. unfold num_bits in Hi. div64 i. lia. Qed.

Lemma setBit_law (ws : list word64) (i j : N) :
  i < num_bits ws -> bit_at (setBit ws i) j = (j =? i) || bit_at ws j.
Proof.
  intros Hi. unfold setBit. rewrite set_word_bit_at by done.
  destruct (N.eqb_spec (j / 64) (i / 64)) as [E|Hne].
  - destruct (lookup_word ws i Hi) as [w Ew]. unfold bit_at. rewrite E, Ew.
    by rewrite N.setbit_eqb, <- (same_bit i j E), N.eqb_sym.
  - destruct (N.eqb_spec j i) as [->|]; done.
Qed.

Lemma clearBit_law (ws : list word64) (i j : N) :
  i < num_bits ws -> bit_at (clearBit ws i) j = negb (j =? i) && bit_at ws j.
Proof.
  intros Hi. unfold clearBit. rewrite set_word_bit_at by done.
  destruct (N.eqb_spec (j / 64) (i / 64)) as [E|Hne].
  - destruct (lookup_word ws i Hi) as [w Ew]. unfold bit_at. rewrite E, Ew.
    rewrite N.clearbit_eqb, <- (same_bit i j E), N.eqb_sym. apply andb_comm.
  - destruct (N.eqb_spec j i) as [->|]; done.
Qed.

Lemma elem_of_range (e i : N) : i ∈ range e <-> i < e.
Proof.
  unfold range. rewrite list_elem_of_fmap. setoid_rewrite elem_of_seq. split.
  - intros (k & -> & Hk). lia.
  - intros Hi. exists (N.to_nat i). lia.
Qed.

Lemma range_sorted (e : N) : StronglySorted N.lt (range e).
Proof.
  unfold range. generalize 0%nat as a. induction (N.to_nat e) as [|n IH]; intros a; cbn; constructor.
  - apply IH.
  - apply Forall_forall. intros x (k & -> & Hk%elem_of_seq)%list_elem_of_fmap. lia.
Qed.

Lemma elem_of_setBitPositions (ws : list word64) (b e i : N) :
  i ∈ setBitPositions ws b e <-> b <= i < e /\ bit_at ws i = true.
Proof.
  unfold setBitPositions. rewrite list_elem_of_In, List.filter_In, <- list_elem_of_In.
  rewrite elem_of_range, andb_true_iff, N.leb_le. naive_solver.
Qed.

#[export] Instance primitives : VeloxBits.
Proof.
  refine {|
    BitSets.isBitSet := bit_at;
    BitSets.setBit := setBit;
    BitSets.clearBit := clearBit;
    BitSets.nwords := fun i => (i + 63) / 64;
    BitSets.countBits := fun ws b e => N.of_nat (length (setBitPositions ws b e));
    BitSets.setBitPositions := setBitPositions;
    BitSets.bitsIsSubset := bitsIsSubset;
    BitSets.bitsHasIntersection := bitsHasIntersection;
    BitSets.crc32U64 := crc32U64 |}.
  - done.
  - intros. apply length_alter.
  - apply setBit_law.
  - intros. apply length_alter.
  - apply clearBit_law.
  - done.
  - intros. apply elem_of_setBitPositions.
  - intros. apply filter_sorted, range_sorted.
  - done.
  - intros. unfold bitsIsSubset. rewrite forallb_forall. setoid_rewrite <- list_elem_of_In.
    setoid_rewrite elem_of_setBitPositions. naive_solver.
  - intros. unfold bitsHasIntersection. rewrite existsb_exists. setoid_rewrite <- list_elem_of_In.
    setoid_rewrite elem_of_setBitPositions. naive_solver.
Defined.
End Velox.

(** With CRC-32C the two representations of the empty set hash differently. *)
Example hash_of_empty_sets :
  wrap64 (Velox.crc32U64 123 0 * Velox.crc32U64 123 0) <> wrap64 (123 * 123).
Proof. vm_compute. discriminate. Qed.
End BitSet.

(** The instances above, for the files that require this one. *)
Export (hints) BitSet.
