(* ===== verification/EstimateMath.v ===== *)
(** * Estimates: [float] arithmetic over optional statistics

    Models [axiom/optimizer/EstimateMath.h] and the costs of
    [axiom/optimizer/v2/Cost.h].  A C++ [float] is an IEEE-754 binary32 number:
    the executable specification of the Standard Library ([SpecFloat], with 24
    bits of precision and maximal exponent 128), round to nearest even.  The
    comparison of two numbers is related to a lexicographic order on integers
    ([float_key]), from which the memo gets the total preorder its ranking
    needs. *)

From S2P Require Import Prelude.
From Stdlib Require Import ZArith Lia SpecFloat.
Set Warnings "-clear-no-such-hyp".

Open Scope Z_scope.

(** ** [float] *)

Abbreviation float := spec_float.

Definition prec : Z := 24.
Definition emax : Z := 128.

Module Float.
Definition add (a b : float) : float := SFadd prec emax a b.
Definition sub (a b : float) : float := SFsub prec emax a b.
Definition mul (a b : float) : float := SFmul prec emax a b.
Definition div (a b : float) : float := SFdiv prec emax a b.
(** [a < b], [a == b]; false when an operand is NaN. *)
Definition ltb (a b : float) : bool := SFltb a b.
Definition eqb (a b : float) : bool := SFeqb a b.

Definition zero : float := S754_zero false.
Definition of_Z (n : Z) : float := binary_normalize prec emax n 0 false.

(** [std::numeric_limits<float>::max()] and [::lowest()] *)
Definition max_value : float := SFmax_float prec emax.
Definition lowest : float := SFopp max_value.

Definition is_nan (a : float) : bool :=
  match a with S754_nan => true | _ => false end.

Definition is_finite (a : float) : bool :=
  match a with S754_nan | S754_infinity _ => false | _ => true end.

(** The position of a number in the order of [float]: class, exponent,
    mantissa; [-0] and [+0] share one. *)
Definition key (a : float) : Z * Z * Z :=
  match a with
  | S754_nan => (0, 0, 0)
  | S754_infinity true => (-2, 0, 0)
  | S754_finite true m e => (-1, - e, Z.neg m)
  | S754_zero _ => (0, 0, 0)
  | S754_finite false m e => (1, e, Z.pos m)
  | S754_infinity false => (2, 0, 0)
  end.

Definition key_lt (a b : Z * Z * Z) : Prop :=
  let '(a1, a2, a3) := a in
  let '(b1, b2, b3) := b in
  a1 < b1 \/ (a1 = b1 /\ (a2 < b2 \/ (a2 = b2 /\ a3 < b3))).

Lemma ltb_key (a b : float) :
  is_nan a = false -> is_nan b = false -> ltb a b = true <-> key_lt (key a) (key b).
Proof.
  intros Ha Hb. unfold ltb, SFltb, key_lt.
  destruct a as [[]|[]| |[] m e], b as [[]|[]| |[] m' e']; try done; cbn;
    try (split; [done | lia]); try (split; [lia | done]).
  all: destruct (Z.compare_spec e e'); cbn; try (split; [done | lia]); try (split; [lia | done]);
    change (Pos.compare_cont Eq m m') with (Pos.compare m m');
    destruct (Pos.compare_spec m m'); cbn; (split; [done | lia]) || (split; [lia | done]).
Qed.

Lemma eqb_key (a b : float) :
  is_nan a = false -> is_nan b = false -> eqb a b = true <-> key a = key b.
Proof.
  intros Ha Hb. unfold eqb, SFeqb.
  destruct a as [[]|[]| |[] m e], b as [[]|[]| |[] m' e']; try done; cbn;
    destruct (Z.compare_spec e e'); cbn;
    change (Pos.compare_cont Eq m m') with (Pos.compare m m');
    try destruct (Pos.compare_spec m m'); cbn;
    split; intros; simplify_eq; try done; try (f_equal; lia).
Qed.

Lemma ltb_false_key (a b : float) :
  is_nan a = false -> is_nan b = false -> ltb a b = false <-> ~ key_lt (key a) (key b).
Proof. intros Ha Hb. rewrite <- (ltb_key a b Ha Hb). by destruct (ltb a b). Qed.

Lemma eqb_false_key (a b : float) :
  is_nan a = false -> is_nan b = false -> eqb a b = false <-> key a <> key b.
Proof. intros Ha Hb. rewrite <- (eqb_key a b Ha Hb). by destruct (eqb a b). Qed.

(** Lexicographic trichotomy and transitivity, by [lia]. *)
Ltac key_lia :=
  unfold key_lt in *;
  repeat match goal with p : (Z * Z * Z)%type |- _ => destruct p as [[? ?] ?] end;
  simplify_eq; try lia; try (intuition lia).

Lemma key_lt_irrefl (a : Z * Z * Z) : ~ key_lt a a.
Proof. key_lia. Qed.
Lemma key_lt_trans (a b c : Z * Z * Z) : key_lt a b -> key_lt b c -> key_lt a c.
Proof. key_lia. Qed.
Lemma key_lt_total (a b : Z * Z * Z) : key_lt a b \/ a = b \/ key_lt b a.
Proof.
  destruct a as [[a1 a2] a3], b as [[b1 b2] b3]. unfold key_lt.
  destruct (Z.lt_trichotomy a1 b1) as [?|[->|?]]; [lia | | lia].
  destruct (Z.lt_trichotomy a2 b2) as [?|[->|?]]; [lia | | lia].
  destruct (Z.lt_trichotomy a3 b3) as [?|[->|?]]; [lia | by auto | lia].
Qed.

(** ** Arithmetic on finite numbers never yields NaN *)

Lemma iter_pos_inv {A} (P : A -> Prop) (f : A -> A) (n : positive) (x : A) :
  (forall y, P y -> P (f y)) -> P x -> P (iter_pos f n x).
Proof. intros Hf. revert x. induction n; cbn; intros x Hx; auto. Qed.

Lemma shr_1_nonneg (r : shr_record) : 0 <= shr_m r -> 0 <= shr_m (shr_1 r).
Proof. destruct r as [[|[]|[]] ? ?]; cbn; lia. Qed.

Lemma shr_nonneg (r : shr_record) (e n : Z) : 0 <= shr_m r -> 0 <= shr_m (fst (shr r e n)).
Proof.
  intros H. destruct n; cbn; try done.
  by apply (iter_pos_inv (fun r => 0 <= shr_m r)); [apply shr_1_nonneg |].
Qed.

Lemma shr_m_of_loc (m : Z) (l : location) : shr_m (shr_record_of_loc m l) = m.
Proof. by destruct l as [|[]]. Qed.

Lemma round_nonneg (m : Z) (l : location) : 0 <= m -> 0 <= round_nearest_even m l.
Proof. destruct l as [|[]]; cbn; try destruct (Z.even m); lia. Qed.

Lemma binary_round_aux_not_nan (s : bool) (m e : Z) (l : location) :
  0 <= m -> is_nan (binary_round_aux prec emax s m e l) = false.
Proof.
  intros Hm. unfold binary_round_aux, shr_fexp.
  pose proof (shr_nonneg (shr_record_of_loc m l) e (fexp prec emax (Zdigits2 m + e) - e)) as H1.
  rewrite shr_m_of_loc in H1. specialize (H1 Hm).
  destruct (shr _ e _) as [r1 e1]. cbn [fst] in H1.
  set (m2 := round_nearest_even _ _).
  pose proof (shr_nonneg (shr_record_of_loc m2 loc_Exact) e1
                (fexp prec emax (Zdigits2 m2 + e1) - e1)) as H2.
  rewrite shr_m_of_loc in H2. specialize (H2 (round_nonneg _ _ H1)).
  destruct (shr _ e1 _) as [r2 e2]. cbn [fst] in H2.
  destruct (shr_m r2); [done | | lia]. by destruct (_ <=? _).
Qed.

Lemma binary_normalize_not_nan (m e : Z) (s : bool) :
  is_nan (binary_normalize prec emax m e s) = false.
Proof.
  unfold binary_normalize, binary_round. destruct m; [done | |];
    destruct (shl_align _ _ _); by apply binary_round_aux_not_nan.
Qed.

Lemma add_not_nan (a b : float) :
  is_finite a = true -> is_finite b = true -> is_nan (add a b) = false.
Proof.
  unfold add, SFadd. destruct a as [[]|[]| |[] m e], b as [[]|[]| |[] m' e']; intros; try done;
    apply binary_normalize_not_nan.
Qed.

Lemma sub_not_nan (a b : float) :
  is_finite a = true -> is_finite b = true -> is_nan (sub a b) = false.
Proof.
  unfold sub, SFsub. destruct a as [[]|[]| |[] m e], b as [[]|[]| |[] m' e']; intros; try done;
    apply binary_normalize_not_nan.
Qed.

Lemma mul_not_nan (a b : float) :
  is_finite a = true -> is_finite b = true -> is_nan (mul a b) = false.
Proof.
  unfold mul, SFmul. destruct a as [s|s| |s m e], b as [s'|s'| |s' m' e']; intros; try done.
  by apply binary_round_aux_not_nan.
Qed.

Lemma div_not_nan (a b : float) :
  is_finite a = true -> is_finite b = true -> eqb b zero = false -> is_nan (div a b) = false.
Proof.
  unfold div, SFdiv. destruct a as [s|s| |s m e], b as [s'|s'| |s' m' e']; intros; try done.
  unfold SFdiv_core_binary.
  destruct (Z.div_eucl _ _) as [q r] eqn:E.
  apply binary_round_aux_not_nan.
  apply (f_equal fst) in E. cbn [fst] in E. subst q.
  apply (Z.div_pos _ (Z.pos m')); [| lia]. destruct (_ - _); try lia. apply Z.shiftl_nonneg. lia.
Qed.
End Float.

(** ** Arithmetic over optional estimates *)

(** Clamps an overflowed value back to the finite range; NaN passes through. *)
Definition saturate (value : float) : float :=
  if Float.ltb Float.max_value value then Float.max_value
  else if Float.ltb value Float.lowest then Float.lowest
  else value.

Definition mul (a b : option float) : option float :=
  match a, b with Some a, Some b => Some (saturate (Float.mul a b)) | _, _ => None end.

Definition add (a b : option float) : option float :=
  match a, b with Some a, Some b => Some (saturate (Float.add a b)) | _, _ => None end.

Definition subtract (a b : option float) : option float :=
  match a, b with Some a, Some b => Some (saturate (Float.sub a b)) | _, _ => None end.

Definition divide (a b : option float) : option float :=
  match a, b with
  | Some a, Some b =>
      if negb (Float.eqb b Float.zero) then Some (saturate (Float.div a b)) else None
  | _, _ => None
  end.

(** [std::max(a, b)] is [(a < b) ? b : a]; [std::min(a, b)] is [(b < a) ? b : a]. *)
Definition std_max (a b : float) : float := if Float.ltb a b then b else a.
Definition std_min (a b : float) : float := if Float.ltb b a then b else a.

Definition maxOf (a b : option float) : option float :=
  match a, b with Some a, Some b => Some (std_max a b) | _, _ => None end.

Definition minOf (a b : option float) : option float :=
  match a, b with Some a, Some b => Some (std_min a b) | _, _ => None end.

Definition lessThan (a b : option float) : bool :=
  match a, b with Some a, Some b => Float.ltb a b | _, _ => false end.

(** [struct Cost] of [v2/Cost.h]. *)
Record Cost := mkCost { cost : option float; cardinality : option float }.

(** [Cost{}] *)
Definition no_cost : Cost := mkCost None None.

(** [kDefaultUnnestFanout] *)
Definition kDefaultUnnestFanout : float := Float.of_Z 10.

(** ** Saturation *)

Lemma saturate_finite (v : float) :
  Float.is_nan v = false -> Float.is_finite (saturate v) = true.
Proof.
  unfold saturate. intros Hn.
  destruct (Float.ltb Float.max_value v) eqn:E1; [done |].
  destruct (Float.ltb v Float.lowest) eqn:E2; [done |].
  by destruct v as [s|[]| |s m e].
Qed.

Lemma saturate_id (v : float) :
  Float.ltb Float.max_value v = false -> Float.ltb v Float.lowest = false -> saturate v = v.
Proof. unfold saturate. by intros -> ->. Qed.

(** An estimate a consumer accepts: unknown, or a finite number. *)
Definition estimate_ok (a : option float) : Prop :=
  match a with Some v => Float.is_finite v = true | None => True end.

(** C39: combining estimates never leaves the finite range: on operands that are
    unknown or finite every combinator returns unknown or a finite [float] -
    never NaN and never an infinity - and the result is unknown exactly when an
    operand is, or a division has a zero divisor. *)
Theorem estimate_arithmetic_stays_finite (a b : option float)
    (Ha : estimate_ok a) (Hb : estimate_ok b) :
  estimate_ok (mul a b) /\ estimate_ok (add a b) /\ estimate_ok (subtract a b) /\
  estimate_ok (divide a b) /\ estimate_ok (maxOf a b) /\ estimate_ok (minOf a b) /\
  (mul a b = None <-> a = None \/ b = None) /\
  (add a b = None <-> a = None \/ b = None) /\
  (subtract a b = None <-> a = None \/ b = None) /\
  (divide a b = None <->
     a = None \/ b = None \/ exists d, b = Some d /\ Float.eqb d Float.zero = true).
Proof.
  destruct a as [a|], b as [b|]; cbn in *; split_conj; try done; try (intuition congruence);
    try (apply saturate_finite); auto using Float.mul_not_nan, Float.add_not_nan, Float.sub_not_nan;
    try match goal with |- context [Float.eqb b Float.zero] =>
      destruct (Float.eqb b Float.zero) eqn:E; cbn end.
  - done.
  - by apply saturate_finite, Float.div_not_nan.
  - unfold std_max. by case_match.
  - unfold std_min. by case_match.
  - split; [| done]. intros _. right; right. by exists b.
  - split; [done |]. intros [?|[?|(d & [= ->] & Hd)]]; congruence.
Qed.

Lemma estimate_arithmetic_stays_finite_witness :
  let huge := Some Float.max_value in
  estimate_ok huge /\ mul huge huge = Some Float.max_value /\ estimate_ok (mul huge huge).
Proof.
  cbn zeta. split; [reflexivity |]. split; [reflexivity |].
  apply (estimate_arithmetic_stays_finite (Some Float.max_value) (Some Float.max_value)); reflexivity.
Defined.
