(* ===== verification/FloatSums.v ===== *)
(** * Sums of non-negative [float]s

    Binary32 numbers that are not negative are multiples of [2^-149]: [units] counts them,
    infinity being the first multiple out of range.  A sum is the rounded sum of the units
    ([add_units]), rounding is monotone, so adding a number never lowers another one and
    keeps the order of two - what planning relies on when it adds the cost of a shuffle. *)

From S2P Require Import Prelude EstimateMath.
From Stdlib Require Import ZArith Lia SpecFloat.
Set Warnings "-clear-no-such-hyp".

Open Scope Z_scope.

(** ** Rounding to even *)

(** [m / 2^n], rounded to the nearest integer, ties to even. *)
Definition rne (m n : Z) : Z :=
  let q := m / 2 ^ n in
  let r := m mod 2 ^ n in
  if (2 ^ n <? 2 * r) || ((2 * r =? 2 ^ n) && Z.odd q) then q + 1 else q.

Lemma pow2_pos n : 0 <= n -> 0 < 2 ^ n.
Proof. intros. by apply Z.pow_pos_nonneg. Qed.

Lemma rne_near m n : 0 <= n -> m / 2 ^ n <= rne m n <= m / 2 ^ n + 1.
Proof. unfold rne. case_match; lia. Qed.

Lemma rne_exact q n : 0 <= n -> rne (q * 2 ^ n) n = q.
Proof.
  intros Hn. pose proof (pow2_pos n Hn). unfold rne. rewrite Z.div_mul, Z.mod_mul by lia.
  destruct (Z.ltb_spec (2 ^ n) (2 * 0)), (Z.eqb_spec (2 * 0) (2 ^ n)); cbn; lia.
Qed.

Lemma rne_0 m : rne m 0 = m.
Proof. rewrite <- (rne_exact m 0) at 2 by lia. by rewrite Z.pow_0_r, Z.mul_1_r. Qed.

Lemma rne_scale m n k : 0 <= n -> 0 <= k -> rne (m * 2 ^ k) (n + k) = rne m n.
Proof.
  intros Hn Hk. pose proof (pow2_pos n Hn). pose proof (pow2_pos k Hk). unfold rne.
  rewrite Z.pow_add_r, Z.div_mul_cancel_r, Z.mul_mod_distr_r by lia.
  replace (2 ^ n * 2 ^ k <? 2 * (m mod 2 ^ n * 2 ^ k)) with (2 ^ n <? 2 * (m mod 2 ^ n)).
  2: { apply eq_true_iff_eq. rewrite !Z.ltb_lt. nia. }
  replace (2 * (m mod 2 ^ n * 2 ^ k) =? 2 ^ n * 2 ^ k) with (2 * (m mod 2 ^ n) =? 2 ^ n); [done |].
  apply eq_true_iff_eq. rewrite !Z.eqb_eq. nia.
Qed.

Lemma rne_mono m m' n : 0 <= n -> m <= m' -> rne m n <= rne m' n.
Proof.
  intros Hn Hm. pose proof (pow2_pos n Hn) as Hp. pose proof (Z.div_le_mono m m' _ Hp Hm) as Hq.
  destruct (Z.eq_dec (m / 2 ^ n) (m' / 2 ^ n)) as [Heq|Hne].
  - unfold rne. rewrite <- Heq. pose proof (Z.div_mod m (2 ^ n) ltac:(lia)) as E.
    pose proof (Z.div_mod m' (2 ^ n) ltac:(lia)) as E'. rewrite <- Heq in E'.
    assert (Hr : m mod 2 ^ n <= m' mod 2 ^ n) by lia.
    destruct (Z.ltb_spec (2 ^ n) (2 * (m mod 2 ^ n))), (Z.eqb_spec (2 * (m mod 2 ^ n)) (2 ^ n)),
      (Z.ltb_spec (2 ^ n) (2 * (m' mod 2 ^ n))), (Z.eqb_spec (2 * (m' mod 2 ^ n)) (2 ^ n));
      destruct (Z.odd (m / 2 ^ n)); cbn; lia.
  - pose proof (rne_near m n Hn). pose proof (rne_near m' n Hn). lia.
Qed.

(** ** Digits *)

Definition digits (m : Z) : Z := Z.log2 m + 1.

Lemma digits2_spec p : Z.pos (digits2_pos p) = digits (Z.pos p).
Proof.
  unfold digits. induction p as [p IH|p IH|]; cbn [digits2_pos]; [| | done].
  - rewrite Pos2Z.inj_succ, IH, (Pos2Z.inj_xI p), Z.log2_succ_double by lia. lia.
  - rewrite Pos2Z.inj_succ, IH, (Pos2Z.inj_xO p), Z.log2_double by lia. lia.
Qed.

Lemma digits_bounds m : 0 < m -> 1 <= digits m /\ 2 ^ (digits m - 1) <= m < 2 ^ digits m.
Proof.
  intros Hm. unfold digits. pose proof (Z.log2_nonneg m). pose proof (Z.log2_spec m Hm) as H1.
  replace (Z.log2 m + 1 - 1) with (Z.log2 m) by lia. replace (Z.log2 m + 1) with (Z.succ (Z.log2 m)) by lia. lia.
Qed.

Lemma digits_scale m k : 0 < m -> 0 <= k -> digits (m * 2 ^ k) = digits m + k.
Proof. intros. unfold digits. rewrite Z.log2_mul_pow2 by lia. lia. Qed.

Lemma digits_unique m d : 1 <= d -> 2 ^ (d - 1) <= m < 2 ^ d -> digits m = d.
Proof. intros Hd Hm. unfold digits. rewrite (Z.log2_unique m (d - 1)); [lia | lia |]. by replace (Z.succ (d - 1)) with d by lia. Qed.

(** ** [binary_round_aux] rounds to even *)

(** [k] shifts to the right: the quotient, and where the rest is in it. *)
Definition shifted (m : Z) (k : Z) (r : shr_record) : Prop :=
  shr_m r = m / 2 ^ k /\
  match shr_r r, shr_s r with
  | false, false => m mod 2 ^ k = 0
  | false, true => 0 < 2 * (m mod 2 ^ k) < 2 ^ k
  | true, false => 2 * (m mod 2 ^ k) = 2 ^ k
  | true, true => 2 ^ k < 2 * (m mod 2 ^ k)
  end.

Lemma shr_1_spec r : 0 <= shr_m r ->
  shr_m (shr_1 r) = shr_m r / 2 /\ shr_r (shr_1 r) = Z.odd (shr_m r) /\ shr_s (shr_1 r) = shr_r r || shr_s r.
Proof.
  destruct r as [m r s]. cbn [shr_m shr_r shr_s]. intros Hm. destruct m as [|[p|p|]|p]; [done | | | done | lia];
    cbn [shr_1 shr_m shr_r shr_s]; (split; [| done]).
  - apply (Z.div_unique _ 2 _ 1); lia.
  - apply (Z.div_unique _ 2 _ 0); lia.
Qed.

Lemma shifted_step m k r : 0 <= m -> 0 <= k -> shifted m k r -> shifted m (k + 1) (shr_1 r).
Proof.
  intros Hm Hk [Hq Hr]. pose proof (pow2_pos k Hk) as Hp. set (P := 2 ^ k) in *.
  pose proof (Z.div_pos m P Hm Hp) as Hq0. destruct (shr_1_spec r) as (E1 & E2 & E3); [lia |].
  unfold shifted. rewrite E1, E2, E3, Hq. replace (2 ^ (k + 1)) with (P * 2) by (rewrite Z.pow_add_r by lia; lia).
  rewrite <- Z.div_div by lia. split; [done |].
  assert (Hrem : m mod (P * 2) = m mod P + P * Z.b2z (Z.odd (m / P))).
  { rewrite Z.rem_mul_r by lia. by rewrite Zmod_odd. }
  pose proof (Z.mod_pos_bound m P Hp) as Hb.
  rewrite Hrem. destruct (Z.odd (m / P)), (shr_r r), (shr_s r); cbn [orb Z.b2z]; lia.
Qed.

Lemma iter_shifted p m k r : 0 <= m -> 0 <= k -> shifted m k r -> shifted m (k + Z.pos p) (iter_pos shr_1 p r).
Proof.
  intros Hm. revert k r. induction p as [p IH|p IH|]; intros k r Hk Hr; cbn [iter_pos].
  - replace (k + Z.pos p~1) with ((k + 1) + Z.pos p + Z.pos p) by lia.
    apply IH; [lia |]. apply IH; [lia |]. by apply shifted_step.
  - replace (k + Z.pos p~0) with (k + Z.pos p + Z.pos p) by lia. apply IH; [lia |]. by apply IH.
  - by apply shifted_step.
Qed.

Lemma shr_shifted m e n : 0 <= m -> 0 <= n ->
  shifted m n (fst (shr (Build_shr_record m false false) e n)) /\ snd (shr (Build_shr_record m false false) e n) = e + n.
Proof.
  intros Hm Hn. assert (H0 : shifted m 0 (Build_shr_record m false false)).
  { split; cbn; [by rewrite Z.div_1_r | by rewrite Z.mod_1_r]. }
  destruct n as [|p|p]; [| | lia]; cbn [shr fst snd].
  - split; [done | lia].
  - split; [| done]. apply (iter_shifted p m 0); [done | lia | done].
Qed.

Lemma shifted_rne m n r : 0 <= n -> shifted m n r -> round_nearest_even (shr_m r) (loc_of_shr_record r) = rne m n.
Proof.
  intros Hn [Hq Hr]. pose proof (pow2_pos n Hn). unfold rne. destruct r as [q r s]. cbn [shr_m shr_r shr_s] in *. subst q.
  destruct r, s; cbn [loc_of_shr_record round_nearest_even].
  - replace (2 ^ n <? 2 * (m mod 2 ^ n)) with true by (symmetry; by apply Z.ltb_lt). done.
  - replace (2 ^ n <? 2 * (m mod 2 ^ n)) with false by (symmetry; apply Z.ltb_ge; lia).
    replace (2 * (m mod 2 ^ n) =? 2 ^ n) with true by (symmetry; by apply Z.eqb_eq). cbn.
    rewrite <- Z.negb_even. by destruct (Z.even _).
  - replace (2 ^ n <? 2 * (m mod 2 ^ n)) with false by (symmetry; apply Z.ltb_ge; lia).
    replace (2 * (m mod 2 ^ n) =? 2 ^ n) with false by (symmetry; apply Z.eqb_neq; lia). done.
  - replace (2 ^ n <? 2 * (m mod 2 ^ n)) with false by (symmetry; apply Z.ltb_ge; lia).
    replace (2 * (m mod 2 ^ n) =? 2 ^ n) with false by (symmetry; apply Z.eqb_neq; lia). done.
Qed.

(** The exponent of the last digit kept. *)
Definition exponent (m e : Z) : Z := fexp prec emax (digits m + e).

Lemma exponent_eq m e : exponent m e = Z.max (digits m + e - 24) (-149).
Proof. done. Qed.

Lemma shr_fexp_spec m e : 0 < m -> e <= exponent m e ->
  shifted m (exponent m e - e) (fst (shr_fexp prec emax m e loc_Exact)) /\
  snd (shr_fexp prec emax m e loc_Exact) = exponent m e.
Proof.
  intros Hm He. unfold shr_fexp. replace (fexp prec emax (Zdigits2 m + e) - e) with (exponent m e - e).
  2: { unfold exponent. destruct m; [lia | | lia]. by rewrite <- digits2_spec. }
  destruct (shr_shifted m e (exponent m e - e)) as [H1 H2]; [lia | lia |]. split; [done |]. cbn in *. rewrite H2. lia.
Qed.

(** The finite number [q * 2^e] with at most 24 digits, or infinity. *)
Definition pack (s : bool) (q e : Z) : float :=
  match q with
  | Z.pos p => if e <=? 104 then S754_finite s p e else S754_infinity s
  | _ => S754_zero s
  end.

(** What is rounded has at most 24 digits, exactly 24 if the exponent is not the least. *)
Lemma rounded_digits m e : 0 < m -> e <= exponent m e ->
  let q := rne m (exponent m e - e) in
  0 <= q <= 2 ^ 24 /\ (exponent m e <> -149 -> 2 ^ 23 <= q).
Proof.
  intros Hm He. cbv zeta. rewrite exponent_eq in *. pose proof (digits_bounds m Hm) as [Hd Hb].
  set (d := digits m) in *. set (n := Z.max (d + e - 24) (-149) - e) in *. assert (Hn : 0 <= n) by lia.
  pose proof (pow2_pos n Hn) as Hp. pose proof (rne_near m n Hn) as Hr.
  assert (Hq : 0 <= m / 2 ^ n) by (apply Z.div_pos; lia).
  assert (Hq24 : m / 2 ^ n < 2 ^ 24).
  { apply Z.div_lt_upper_bound; [lia |]. rewrite <- Z.pow_add_r by lia.
    eapply Z.lt_le_trans; [apply Hb |]. apply Z.pow_le_mono_r; lia. }
  split; [lia |]. intros Hne. assert (Hn' : n = d - 24) by lia.
  assert (2 ^ 23 <= m / 2 ^ n); [| lia]. apply Z.div_le_lower_bound; [lia |].
  rewrite <- Z.pow_add_r by lia. replace (n + 23) with (d - 1) by lia. apply Hb.
Qed.

Lemma pack_spec s m e : 0 <= m ->
  match m with
  | Z0 => S754_zero s
  | Z.pos p => if Z.leb e (emax - prec) then S754_finite s p e else S754_infinity s
  | _ => S754_nan
  end = pack s m e.
Proof. by destruct m. Qed.

Lemma round_spec s m e : 0 < m -> e <= exponent m e ->
  exists q e', binary_round_aux prec emax s m e loc_Exact = pack s q e' /\ 0 <= q /\ -149 <= e' /\
    q * 2 ^ (e' + 149) = rne m (exponent m e - e) * 2 ^ (exponent m e + 149) /\ (0 < q -> exponent q e' = e').
Proof.
  intros Hm He. pose proof (rounded_digits m e Hm He) as [Hq Hq24]. unfold binary_round_aux.
  destruct (shr_fexp_spec m e Hm He) as [Hs1 He1]. destruct (shr_fexp prec emax m e loc_Exact) as [r1 e1].
  cbn [fst snd] in Hs1, He1. rewrite (shifted_rne m (exponent m e - e)) by (done || lia).
  set (q := rne m (exponent m e - e)) in *. subst e1. assert (Hmin : -149 <= exponent m e) by (rewrite exponent_eq; lia).
  set (e1 := exponent m e) in *. clearbody e1 q. clear Hs1 He Hm r1 m e.
  destruct (Z.eq_dec q 0) as [->|Hq0].
  { exists 0, e1. unfold shr_fexp. cbn [Zdigits2 shr_record_of_loc].
    change (fexp prec emax (0 + e1)) with (Z.max (0 + e1 - 24) (-149)).
    destruct (Z.max (0 + e1 - 24) (-149) - e1) eqn:E; [| lia |];
      cbn [shr shr_m]; (split_conj; [done | lia | lia | done | lia]). }
  assert (Hdig : digits q <= 25).
  { unfold digits. pose proof (Z.log2_le_mono q (2 ^ 24) ltac:(lia)) as H. change (Z.log2 (2 ^ 24)) with 24 in H. lia. }
  pose proof (digits_bounds q ltac:(lia)) as [Hd1 Hd2].
  destruct (Z.eq_dec q (2 ^ 24)) as [->|Hne].
  - assert (Hexp : exponent (2 ^ 24) e1 = e1 + 1) by (rewrite exponent_eq; change (digits (2 ^ 24)) with 25; lia).
    destruct (shr_fexp_spec (2 ^ 24) e1) as [[Hs2 _] He2]; [lia | lia |].
    destruct (shr_fexp prec emax (2 ^ 24) e1 loc_Exact) as [r2 e2]. cbn [fst snd] in *. subst e2.
    rewrite Hs2, Hexp. replace (e1 + 1 - e1) with 1 by lia. change (2 ^ 24 / 2 ^ 1) with (2 ^ 23).
    rewrite pack_spec by lia. exists (2 ^ 23), (e1 + 1).
    split_conj; [done | lia | lia | replace (e1 + 1 + 149) with (e1 + 149 + 1) by lia; rewrite (Z.pow_add_r 2 (e1 + 149)) by lia; lia |].
    intros _. rewrite exponent_eq. change (digits (2 ^ 23)) with 24. lia.
  - assert (Hexp : exponent q e1 = e1).
    { rewrite exponent_eq. destruct (Z.eq_dec e1 (-149)) as [->|Hne1].
      - assert (digits q <= 24); [| lia]. unfold digits. assert (Z.log2 q < 24); [| lia]. apply Z.log2_lt_pow2; lia.
      - rewrite (digits_unique q 24) by (cbn in *; lia). lia. }
    destruct (shr_fexp_spec q e1) as [[Hs2 _] He2]; [lia | lia |].
    destruct (shr_fexp prec emax q e1 loc_Exact) as [r2 e2]. cbn [fst snd] in *. subst e2.
    rewrite Hs2, Hexp. replace (e1 - e1) with 0 by lia. change (2 ^ 0) with 1. rewrite Z.div_1_r, pack_spec by lia.
    exists q, e1. split_conj; [done | lia | lia | done | done].
Qed.

(** ** Units *)

(** A number that is not negative. *)
Definition nonneg (a : float) : Prop :=
  valid_binary prec emax a = true /\
  match a with S754_zero _ | S754_infinity false | S754_finite false _ _ => True | _ => False end.

(** In multiples of the least number, [2^-149]; infinity is out of range. *)
Definition units (a : float) : Z :=
  match a with
  | S754_finite _ m e => Z.pos m * 2 ^ (e + 149)
  | S754_infinity _ => 2 ^ 277
  | _ => 0
  end.

Lemma finite_valid m e s : valid_binary prec emax (S754_finite s m e) = true <->
  exponent (Z.pos m) e = e /\ e <= 104.
Proof.
  cbn. unfold bounded, canonical_mantissa. rewrite andb_true_iff, Z.eqb_eq, Z.leb_le, digits2_spec. done.
Qed.

(** Numbers with a canonical exponent are ordered by it. *)
Lemma significand_bounds m e : 0 < m -> exponent m e = e ->
  -149 <= e /\ m < 2 ^ 24 /\ (-149 < e -> 2 ^ 23 <= m).
Proof.
  rewrite exponent_eq. intros Hm He. pose proof (digits_bounds m Hm) as [Hd Hb]. split_conj; [lia | |].
  - eapply Z.lt_le_trans; [apply Hb |]. apply Z.pow_le_mono_r; lia.
  - intros H. assert (digits m = 24) as Ed by lia. rewrite Ed in Hb. apply Hb.
Qed.

Lemma canonical_lt m e m' e' : 0 < m -> exponent m e = e -> 0 < m' -> exponent m' e' = e' -> e < e' ->
  m * 2 ^ (e + 149) < m' * 2 ^ (e' + 149).
Proof.
  intros Hm He Hm' He' Hlt. destruct (significand_bounds m e Hm He) as (H1 & H2 & _).
  destruct (significand_bounds m' e' Hm' He') as (_ & _ & H3). specialize (H3 ltac:(lia)).
  replace (e' + 149) with ((e + 149) + 1 + (e' - e - 1)) by lia. 
  assert (Ha : 0 <= e + 149) by lia. assert (Hk : 0 <= e' - e - 1) by lia.
  revert Ha Hk. generalize (e + 149) (e' - e - 1). intros a k Ha Hk.
  rewrite !Z.pow_add_r by lia. pose proof (pow2_pos a ltac:(lia)). pose proof (pow2_pos k ltac:(lia)).
  apply (Z.lt_le_trans _ (2 ^ 24 * 2 ^ a)); [nia |]. 
  assert (Hk' : 2 ^ 23 * 1 <= m' * 2 ^ k) by (apply Z.mul_le_mono_nonneg; lia).
  replace (m' * (2 ^ a * 2 ^ 1 * 2 ^ k)) with (m' * 2 ^ k * 2 * 2 ^ a) by lia. nia.
Qed.

Lemma finite_in_range m e : 0 < m -> exponent m e = e -> e <= 104 -> 0 < m * 2 ^ (e + 149) < 2 ^ 277.
Proof.
  intros Hm He Hr. destruct (significand_bounds m e Hm He) as (H1 & H2 & _). pose proof (pow2_pos (e + 149) ltac:(lia)).
  split; [nia |]. apply (Z.lt_le_trans _ (2 ^ 24 * 2 ^ (e + 149))); [nia |].
  rewrite <- Z.pow_add_r by lia. apply Z.pow_le_mono_r; lia.
Qed.

Lemma ltb_units a b : nonneg a -> nonneg b -> Float.ltb a b = true <-> units a < units b.
Proof.
  intros [Ha Hsa] [Hb Hsb]. unfold Float.ltb, SFltb.
  destruct a as [sa|[|]| |[|] m e]; try done; destruct b as [sb|[|]| |[|] m' e']; try done; cbn [SFcompare units].
  - apply finite_valid in Hb as [He Hr]. split; [| done]. intros _.
    apply (finite_in_range (Z.pos m') e'); [lia | done | done].
  - apply finite_valid in Hb as [He Hr]. split; [done |].
    pose proof (finite_in_range (Z.pos m') e' ltac:(lia) He Hr). lia.
  - apply finite_valid in Ha as [He Hr]. split; [done |].
    pose proof (finite_in_range (Z.pos m) e ltac:(lia) He Hr). lia.
  - apply finite_valid in Ha as [He Hr]. split; [| done]. intros _.
    apply (finite_in_range (Z.pos m) e); [lia | done | done].
  - apply finite_valid in Ha as [He Hr], Hb as [He' Hr'].
    destruct (significand_bounds (Z.pos m) e ltac:(lia) He) as (Hmin & _).
    destruct (Z.compare_spec e e') as [<-|Hlt|Hgt].
    + change (Pos.compare_cont Eq m m') with (Pos.compare m m'). pose proof (pow2_pos (e + 149) ltac:(lia)).
      destruct (Pos.compare_spec m m'); (split; [done || nia | nia || done]).
    + split; [| done]. intros _. apply canonical_lt; done || lia.
    + split; [done |]. intros H.
      pose proof (canonical_lt (Z.pos m') e' (Z.pos m) e ltac:(lia) He' ltac:(lia) He ltac:(lia)). lia.
Qed.

(** ** Sums *)

(** Units rounded to 24 digits. *)
Definition round_units (v : Z) : Z :=
  let n := Z.max 0 (digits v - 24) in rne v n * 2 ^ n.

Lemma round_units_bounds v : 0 < v -> 2 ^ (digits v - 1) <= round_units v <= 2 ^ digits v.
Proof.
  intros Hv. unfold round_units. pose proof (digits_bounds v Hv) as [Hd Hb]. set (d := digits v) in *. clearbody d.
  destruct (Z.max_spec 0 (d - 24)) as [[Hn ->]|[Hn ->]].
  2: { rewrite rne_0. change (2 ^ 0) with 1. lia. }
  pose proof (pow2_pos (d - 24) ltac:(lia)) as Hp. split.
  - replace (d - 1) with (23 + (d - 24)) by lia. rewrite Z.pow_add_r by lia. apply Z.mul_le_mono_nonneg_r; [lia |].
    etransitivity; [| apply rne_near; lia]. apply Z.div_le_lower_bound; [lia |]. rewrite <- Z.pow_add_r by lia.
    replace (d - 24 + 23) with (d - 1) by lia. apply Hb.
  - replace (2 ^ d) with (2 ^ 24 * 2 ^ (d - 24)) by (rewrite <- Z.pow_add_r by lia; f_equal; lia).
    apply Z.mul_le_mono_nonneg_r; [lia |]. etransitivity; [apply rne_near; lia |].
    assert (v / 2 ^ (d - 24) < 2 ^ 24); [| lia]. apply Z.div_lt_upper_bound; [lia |]. rewrite <- Z.pow_add_r by lia.
    replace (d - 24 + 24) with d by lia. apply Hb.
Qed.

Lemma round_units_mono u v : 0 <= u -> u <= v -> round_units u <= round_units v.
Proof.
  intros Hu Huv. destruct (Z.eq_dec u 0) as [->|Hu0].
  { change (round_units 0) with 0. destruct (Z.eq_dec v 0) as [->|]; [done |].
    pose proof (round_units_bounds v ltac:(lia)) as [H _]. pose proof (Z.pow_nonneg 2 (digits v - 1)). lia. }
  assert (Hd : digits u <= digits v) by (unfold digits; pose proof (Z.log2_le_mono u v Huv); lia).
  destruct (Z.eq_dec (digits u) (digits v)) as [Heq|Hne].
  - unfold round_units. rewrite Heq. apply Z.mul_le_mono_nonneg_r; [apply Z.pow_nonneg; lia |]. apply rne_mono; lia.
  - pose proof (round_units_bounds u ltac:(lia)) as [_ H1]. pose proof (round_units_bounds v ltac:(lia)) as [H2 _].
    pose proof (Z.pow_le_mono_r 2 (digits u) (digits v - 1)). lia.
Qed.

Lemma round_units_exact v : 0 <= v -> digits v <= 24 -> round_units v = v.
Proof. intros. unfold round_units. rewrite Z.max_l by lia. rewrite rne_0. change (2 ^ 0) with 1. lia. Qed.

Lemma round_units_shift m k : 0 < m -> digits m <= 24 -> 0 <= k -> round_units (m * 2 ^ k) = m * 2 ^ k.
Proof.
  intros Hm Hd Hk. unfold round_units. rewrite digits_scale by lia. set (n := Z.max 0 (digits m + k - 24)).
  assert (Hn : 0 <= n <= k) by lia. replace (m * 2 ^ k) with ((m * 2 ^ (k - n)) * 2 ^ n).
  2: { rewrite <- Z.mul_assoc, <- Z.pow_add_r by lia. f_equal. f_equal. lia. }
  by rewrite rne_exact by lia.
Qed.

Lemma round_units_own a : nonneg a -> round_units (units a) = units a.
Proof.
  intros [Ha Hs]. destruct a as [s|[|]| |[|] m e]; try done.
  apply finite_valid in Ha as [He Hr]. destruct (significand_bounds (Z.pos m) e ltac:(lia) He) as (Hmin & Hm & _).
  cbn [units]. apply round_units_shift; [lia | | lia].
  unfold digits. assert (Z.log2 (Z.pos m) < 24); [| lia]. apply Z.log2_lt_pow2; lia.
Qed.

Lemma pack_units q e : 0 <= q -> -149 <= e -> (0 < q -> exponent q e = e) ->
  nonneg (pack false q e) /\ units (pack false q e) = Z.min (q * 2 ^ (e + 149)) (2 ^ 277).
Proof.
  intros Hq Hmin He. destruct q as [|p|p]; [| | lia]; cbn [pack].
  { split; [done |]. cbn [units]. rewrite Z.mul_0_l, Z.min_l; [done | by apply Z.pow_nonneg]. }
  specialize (He ltac:(lia)). destruct (Z.leb_spec e 104) as [Hr|Hr].
  - split; [split; [by apply finite_valid | done] |]. cbn [units].
    pose proof (finite_in_range (Z.pos p) e ltac:(lia) He Hr). by rewrite Z.min_l by lia.
  - split; [done |]. cbn [units]. destruct (significand_bounds (Z.pos p) e ltac:(lia) He) as (_ & _ & Hn).
    specialize (Hn ltac:(lia)). rewrite Z.min_r; [done |].
    apply (Z.le_trans _ (2 ^ 23 * 2 ^ (e + 149))); [rewrite <- Z.pow_add_r by lia; apply Z.pow_le_mono_r; lia |].
    apply Z.mul_le_mono_nonneg_r; [by apply Z.pow_nonneg | done].
Qed.

Lemma iter_xO m d : Z.pos (Pos.iter xO m d) = Z.pos m * 2 ^ Z.pos d.
Proof.
  induction d as [|d IH] using Pos.peano_ind; [cbn [Pos.iter]; rewrite (Pos2Z.inj_xO m); change (2 ^ 1) with 2; lia |].
  rewrite Pos.iter_succ, Pos2Z.inj_xO, IH, Pos2Z.inj_succ, Z.pow_succ_r by lia. lia.
Qed.

Lemma shl_align_down m e e' : e' <= e -> Z.pos (fst (shl_align m e e')) = Z.pos m * 2 ^ (e - e').
Proof.
  intros He. unfold shl_align. destruct (e' - e) as [|d|d] eqn:E; cbn [fst]; [| lia |].
  - replace (e - e') with 0 by lia. change (2 ^ 0) with 1. lia.
  - rewrite iter_xO. f_equal. f_equal. lia.
Qed.

Lemma binary_round_units p e : -149 <= e ->
  nonneg (binary_round prec emax false p e) /\
  units (binary_round prec emax false p e) = Z.min (round_units (Z.pos p * 2 ^ (e + 149))) (2 ^ 277).
Proof.
  intros He. unfold binary_round. rewrite digits2_spec. fold (exponent (Z.pos p) e). set (e' := exponent (Z.pos p) e).
  assert (Hmin : -149 <= e') by (unfold e'; rewrite exponent_eq; lia).
  assert (Hm : exists m ez, shl_align p e e' = (m, ez) /\ Z.pos m * 2 ^ (ez + 149) = Z.pos p * 2 ^ (e + 149) /\
    -149 <= ez <= e' /\ digits (Z.pos m) + ez = digits (Z.pos p) + e).
  { unfold shl_align. destruct (e' - e) as [|d|d] eqn:E; [exists p, e; split_conj; done || lia.. |].
    exists (Pos.iter xO p d), e'. rewrite iter_xO, <- Z.mul_assoc, <- Z.pow_add_r, digits_scale by lia.
    split_conj; [done | f_equal; f_equal; lia | lia | lia | lia]. }
  destruct Hm as (m & ez & -> & <- & Hez & Hd).
  assert (Hexp : exponent (Z.pos m) ez = e') by (unfold e', exponent; by rewrite Hd).
  destruct (round_spec false (Z.pos m) ez) as (q & e2 & -> & Hq & He2 & Hv & Hcan); [lia | lia |].
  destruct (pack_units q e2 Hq He2 Hcan) as [Hn ->]. split; [done |]. rewrite Hv, Hexp. f_equal.
  unfold round_units. rewrite digits_scale by lia.
  replace (Z.max 0 (digits (Z.pos m) + (ez + 149) - 24)) with ((e' - ez) + (ez + 149)).
  2: { rewrite <- Hexp, exponent_eq. lia. }
  rewrite rne_scale by lia. f_equal. f_equal. lia.
Qed.

Lemma units_range a : nonneg a -> 0 <= units a <= 2 ^ 277.
Proof.
  intros [Ha Hs]. destruct a as [s|[|]| |[|] m e]; try contradiction; cbn [units]; [lia | lia |].
  apply finite_valid in Ha as [He Hr]. pose proof (finite_in_range (Z.pos m) e ltac:(lia) He Hr). lia.
Qed.

Lemma round_units_infinite u : 0 <= u -> Z.min (round_units (u + 2 ^ 277)) (2 ^ 277) = 2 ^ 277.
Proof.
  intros Hu. apply Z.min_r. pose proof (round_units_mono (2 ^ 277) (u + 2 ^ 277)) as H.
  replace (round_units (2 ^ 277)) with (2 ^ 277) in H by (vm_compute; reflexivity). apply H; lia.
Qed.

Lemma zero_sum a : nonneg a -> Z.min (round_units (units a)) (2 ^ 277) = units a.
Proof. intros Ha. pose proof (units_range a Ha). rewrite round_units_own by done. lia. Qed.

(** The sum of two numbers is the rounded sum of their units, or infinity. *)
Lemma add_units a b : nonneg a -> nonneg b ->
  nonneg (Float.add a b) /\ units (Float.add a b) = Z.min (round_units (units a + units b)) (2 ^ 277).
Proof.
  intros Ha Hb. pose proof (zero_sum a Ha) as Za. pose proof (zero_sum b Hb) as Zb.
  pose proof (proj1 (units_range a Ha)) as La. pose proof (proj1 (units_range b Hb)) as Lb.
  pose proof (round_units_infinite (units a) La) as Ia. pose proof (round_units_infinite (units b) Lb) as Ib.
  assert (Hzero : units (S754_zero false) = 0 /\ units (S754_zero true) = 0) by done.
  assert (Hinf : units (S754_infinity false) = 2 ^ 277) by reflexivity.
  unfold Float.add, SFadd. destruct a as [sa|[|]| |[|] m e]; try (destruct Ha; contradiction);
    destruct b as [sb|[|]| |[|] m' e']; try (destruct Hb; contradiction).
  - destruct sa, sb; (split; [done |]); symmetry; exact Za.
  - split; [done |]. rewrite Hinf. symmetry. exact Ia.
  - split; [done |]. change (units (S754_zero sa)) with 0. rewrite Z.add_0_l. symmetry. exact Zb.
  - split; [done |]. rewrite Hinf, Z.add_comm. symmetry. exact Ib.
  - split; [done |]. rewrite Hinf. symmetry. rewrite Hinf in Ia. exact Ia.
  - split; [done |]. rewrite Hinf, Z.add_comm. symmetry. exact Ib.
  - split; [done |]. change (units (S754_zero sb)) with 0. rewrite Z.add_0_r. symmetry. exact Za.
  - split; [done |]. rewrite Hinf. symmetry. exact Ia.
  - clear Za Zb La Lb Ia Ib Hzero Hinf. destruct Ha as [Ha _], Hb as [Hb _].
    apply finite_valid in Ha as [Hea _], Hb as [Heb _].
    destruct (significand_bounds (Z.pos m) e ltac:(lia) Hea) as (Hma & _).
    destruct (significand_bounds (Z.pos m') e' ltac:(lia) Heb) as (Hmb & _). cbv zeta.
    set (ez := Z.min e e'). assert (Hez : -149 <= ez /\ ez <= e /\ ez <= e') by lia. cbn [cond_Zopp].
    pose proof (shl_align_down m e ez ltac:(lia)) as E1. pose proof (shl_align_down m' e' ez ltac:(lia)) as E2.
    destruct (Z.pos (fst (shl_align m e ez)) + Z.pos (fst (shl_align m' e' ez))) as [|p|p] eqn:Esum; [lia | | lia].
    cbn [binary_normalize]. destruct (binary_round_units p ez) as [Hn Hu]; [lia |]. split; [exact Hn |]. rewrite Hu.
    f_equal. f_equal. rewrite <- Esum, E1, E2. cbn [units].
    rewrite Z.mul_add_distr_r, <- !Z.mul_assoc, <- !Z.pow_add_r by lia. f_equal; f_equal; f_equal; lia.
Qed.

(** Adding never lowers a number, and keeps the order of two. *)
Lemma add_grows a s : nonneg a -> nonneg s -> Float.ltb (Float.add a s) a = false.
Proof.
  intros Ha Hs. destruct (add_units a s Ha Hs) as [Hn Hu]. apply not_true_iff_false. rewrite ltb_units by done. rewrite Hu.
  pose proof (units_range a Ha). pose proof (units_range s Hs).
  pose proof (round_units_mono (units a) (units a + units s)) as H1. rewrite (round_units_own a Ha) in H1. lia.
Qed.

Lemma add_monotone a b s : nonneg a -> nonneg b -> nonneg s ->
  Float.ltb b a = false -> Float.ltb (Float.add b s) (Float.add a s) = false.
Proof.
  intros Ha Hb Hs. destruct (add_units a s Ha Hs) as [Hna Hua], (add_units b s Hb Hs) as [Hnb Hub].
  rewrite <- !not_true_iff_false, !ltb_units, Hua, Hub by done.
  pose proof (units_range a Ha). pose proof (units_range b Hb). pose proof (units_range s Hs). intros Hle Hlt.
  pose proof (round_units_mono (units a + units s) (units b + units s)). lia.
Qed.

Lemma nonneg_number a : nonneg a -> Float.is_nan a = false.
Proof. by intros [_ H]; destruct a. Qed.

(** ** Products *)

Definition nonneg_finite (a : float) : Prop := nonneg a /\ Float.is_finite a = true.

Lemma digits_product m m' : 0 < m -> 0 < m' -> digits m + digits m' - 1 <= digits (m * m').
Proof. intros. unfold digits. pose proof (Z.log2_mul_below m m'). lia. Qed.

Lemma mul_nonneg a b : nonneg_finite a -> nonneg_finite b -> nonneg (Float.mul a b).
Proof.
  intros [[Ha Hsa] Hfa] [[Hb Hsb] Hfb]. unfold Float.mul, SFmul.
  destruct a as [[]|s| |[|] m e]; try discriminate; try contradiction;
    destruct b as [[]|s'| |[|] m' e']; try discriminate; try contradiction; try done.
  apply finite_valid in Ha as [He Hr], Hb as [He' Hr'].
  destruct (significand_bounds (Z.pos m) e ltac:(lia) He) as (H1 & _).
  destruct (significand_bounds (Z.pos m') e' ltac:(lia) He') as (H1' & _).
  rewrite exponent_eq in He, He'. pose proof (digits_product (Z.pos m) (Z.pos m') ltac:(lia) ltac:(lia)) as Hd.
  pose proof (proj1 (digits_bounds (Z.pos m) ltac:(lia))). pose proof (proj1 (digits_bounds (Z.pos m') ltac:(lia))).
  destruct (round_spec false (Z.pos (m * m')) (e + e')) as (q & e2 & Hround & Hq & He2 & _ & Hcan).
  - lia.
  - rewrite exponent_eq, Pos2Z.inj_mul. lia.
  - cbn [xorb]. rewrite Hround. by apply pack_units.
Qed.

Lemma saturate_nonneg a : nonneg a -> nonneg_finite (saturate a).
Proof.
  intros Ha. split; [| by apply saturate_finite, nonneg_number]. unfold saturate.
  destruct (Float.ltb Float.max_value a); [done |].
  replace (Float.ltb a Float.lowest) with false; [done |].
  destruct Ha as [_ Hs]. by destruct a as [s|[|]| |[|] m e].
Qed.
