(* ===== verification/QueryGraph.v ===== *)
(** * Query graph: expressions, columns and their equivalence classes

    Models the part of [axiom/optimizer/QueryGraph.{h,cpp}] and
    [PlanObject.{h,cpp}] that join planning reads.  Plan objects are arena
    allocated, immutable except for [Column::equivalence_], and identified by
    the small integer [id()] that [QueryGraphContext::newId] gives each of them;
    an [ExprCP]/[ColumnCP] is that id, and the arena is a finite map from ids to
    objects ([objectAt]).  [Equivalence] objects have addresses of their own,
    so two columns share a class when they hold the same address. *)

From S2P Require Import Prelude Word64 BitSets.
From Stdlib Require Import Lia.
Set Warnings "-clear-no-such-hyp".

Open Scope N_scope.

(** ** Plan objects *)

Inductive PlanType :=
  | kColumnExpr | kLiteralExpr | kCallExpr | kAggregateExpr | kWindowExpr
  | kFieldExpr | kLambdaExpr | kTableNode | kValuesTableNode | kUnnestTableNode
  | kDerivedTableNode | kAggregationNode | kWindowPlanNode | kWriteNode | kV2Node.

#[export] Instance PlanType_eq_dec : EqDecision PlanType.
Proof. solve_decision. Defined.

(** Pointers: expressions and columns by object id, [Equivalence] objects and
    [velox::Type]s by address. *)
Abbreviation ExprCP := N (only parsing).
Abbreviation ColumnCP := N (only parsing).
Abbreviation EquivalenceP := N (only parsing).
Abbreviation TypeCP := N (only parsing).

(** The members of [PlanObject], [Expr], [Column], [Call] and [Aggregate] the
    model reads; a member the object's class does not have is unused. *)
Record PlanObject := mkPlanObject {
  type : PlanType;
  columns : BitSet;                    (* Expr::columns_ *)
  valueType : TypeCP;                  (* Expr::value_.type *)
  nonDefaultNullBehavior : bool;       (* containsNonDefaultNullBehavior() *)
  name : string;                       (* Column::name_, Call::name_ *)
  equivalence : option EquivalenceP;   (* Column::equivalence_ *)
  args : list ExprCP;                  (* Call::args_ *)
  isDistinct : bool;                   (* Aggregate::isDistinct_ *)
  condition : option ExprCP;           (* Aggregate::condition_ *)
  orderKeys : list ExprCP;             (* Aggregate::orderKeys_ *)
}.

(** The arena: [QueryGraphContext::objects_] and the [Equivalence] objects with
    their [columns]; [nextEquivalence] is the next free address. *)
Record QueryGraph := mkQueryGraph {
  objects : gmap N PlanObject;
  equivalences : gmap EquivalenceP (list ColumnCP);
  nextEquivalence : EquivalenceP;
}.

(** What a dangling id would read; no theorem depends on it. *)
Definition no_object : PlanObject :=
  mkPlanObject kV2Node BitSet.new 0 false "" None [] false None [].

(** [queryCtx()->objectAt(id)] *)
Definition objectAt (g : QueryGraph) (id : N) : PlanObject := default no_object (objects g !! id).

Definition isColumn (g : QueryGraph) (e : ExprCP) : bool :=
  bool_decide (type (objectAt g e) = kColumnExpr).

(** [column->equivalence()] *)
Definition column_equivalence (g : QueryGraph) (c : ColumnCP) : option EquivalenceP :=
  equivalence (objectAt g c).

(** [equivalence->columns] *)
Definition equivalence_columns (g : QueryGraph) (e : EquivalenceP) : list ColumnCP :=
  default [] (equivalences g !! e).

(** [column->equivalence_ = e] *)
Definition set_equivalence (g : QueryGraph) (c : ColumnCP) (e : EquivalenceP) : QueryGraph :=
  mkQueryGraph
    (alter (fun o => mkPlanObject (type o) (columns o) (valueType o) (nonDefaultNullBehavior o)
                       (name o) (Some e) (args o) (isDistinct o) (condition o) (orderKeys o))
           c (objects g))
    (equivalences g) (nextEquivalence g).

(** [equivalence->columns = cols] *)
Definition set_equivalence_columns (g : QueryGraph) (e : EquivalenceP) (cols : list ColumnCP)
    : QueryGraph :=
  mkQueryGraph (objects g) (<[e := cols]> (equivalences g)) (nextEquivalence g).

(** [make<Equivalence>()] *)
Definition make_equivalence (g : QueryGraph) : EquivalenceP * QueryGraph :=
  let e := nextEquivalence g in
  (e, mkQueryGraph (objects g) (<[e := []]> (equivalences g)) (e + 1)).

(** [equivalence->columns.push_back(column)] *)
Definition push_column (g : QueryGraph) (e : EquivalenceP) (c : ColumnCP) : QueryGraph :=
  set_equivalence_columns g e (equivalence_columns g e ++ [c]).

(** ** [Column::equals] *)

(** The branch where [this] has a class and [other] has none. *)
Definition join_class (g : QueryGraph) (this_eq : EquivalenceP) (other : ColumnCP)
    : QueryGraph :=
  push_column (set_equivalence g other this_eq) this_eq other.

(** One iteration of the merging loop: append to the surviving class and
    re-point the column. *)
Definition move_column (this_eq : EquivalenceP) (g : QueryGraph) (column : ColumnCP)
    : QueryGraph :=
  set_equivalence (push_column g this_eq column) column this_eq.

Definition equals (g : QueryGraph) (this other : ColumnCP) : bool * QueryGraph :=
  match column_equivalence g this, column_equivalence g other with
  | None, None =>
      let '(equiv, g) := make_equivalence g in
      let g := push_column g equiv this in
      let g := push_column g equiv other in
      let g := set_equivalence g this equiv in
      (true, set_equivalence g other equiv)
  | Some e, None => (true, join_class g e other)
  | None, Some e => (true, join_class g e this)
  | Some e, Some e' =>
      if e =? e' then (false, g)
      else (true, foldl (move_column e) g (equivalence_columns g e'))
  end.

(** ** [Expr::sameOrEqual] *)

(** Recursion follows the arguments; [fuel] bounds the depth of the expression
    (arguments are created before the calls over them, see [well_founded]). *)
Fixpoint sameOrEqual_args (same : ExprCP -> ExprCP -> bool) (l l' : list ExprCP) : bool :=
  match l, l' with
  | a :: l, a' :: l' => if same a a' then sameOrEqual_args same l l' else false
  | _, _ => true
  end.

(** The comparison of two aggregates' DISTINCT flags and FILTER conditions. *)
Definition same_aggregate_modifiers (same : ExprCP -> ExprCP -> bool) (a b : PlanObject) : bool :=
  bool_decide (isDistinct a = isDistinct b) &&
  (bool_decide (condition a = condition b) ||
   match condition a, condition b with
   | Some c, Some c' => same c c'
   | _, _ => false
   end).

Fixpoint sameOrEqual (fuel : nat) (g : QueryGraph) (e other : ExprCP) : bool :=
  if e =? other then true
  else match fuel with
  | O => false
  | S fuel =>
      let a := objectAt g e in
      let b := objectAt g other in
      if negb (bool_decide (type a = type b)) then false
      else
        let same_call :=
          if negb (bool_decide (name a = name b)) then false
          else if negb (length (args a) =? length (args b))%nat then false
          else sameOrEqual_args (sameOrEqual fuel g) (args a) (args b) in
        match type a with
        | kColumnExpr =>
            match equivalence a, equivalence b with
            | Some x, Some y => x =? y
            | _, _ => false
            end
        | kAggregateExpr =>
            if same_aggregate_modifiers (sameOrEqual fuel g) a b then same_call else false
        | kCallExpr => same_call
        | _ => false
        end
  end.

(** ** [PlanObjectSet] *)

Module PlanObjectSet.
Section Operations.
Context {VB : VeloxBits}.

(** [unionObjects(objects)], [fromObjects], [single] *)
Definition unionObjects (s : BitSet) (objects : list N) : BitSet := foldl BitSet.add s objects.
Definition fromObjects (objects : list N) : BitSet := unionObjects BitSet.new objects.
Definition single (object : N) : BitSet := BitSet.add BitSet.new object.

Definition containsAll (s : BitSet) (objects : list N) : bool :=
  forallb (BitSet.contains s) objects.
Definition containsAny (s : BitSet) (objects : list N) : bool :=
  existsb (BitSet.contains s) objects.
Definition eraseAll (s : BitSet) (objects : list N) : BitSet := foldl BitSet.erase s objects.

(** [containsColumns(expr)]: the columns [expr] depends on are in the set. *)
Definition containsColumns1 (g : QueryGraph) (s : BitSet) (e : ExprCP) : bool :=
  BitSet.isSubset (columns (objectAt g e)) s.
Definition containsColumns (g : QueryGraph) (s : BitSet) (exprs : list ExprCP) : bool :=
  forallb (containsColumns1 g s) exprs.

Definition unionColumns1 (g : QueryGraph) (s : BitSet) (e : ExprCP) : BitSet :=
  BitSet.unionSet s (columns (objectAt g e)).
Definition unionColumns (g : QueryGraph) (s : BitSet) (exprs : list ExprCP) : BitSet :=
  foldl (unionColumns1 g) s exprs.
End Operations.

Section Theory.
Context {VB : VeloxBits}.

Lemma elem_of_unionObjects s objects x : x ∈ unionObjects s objects <-> x ∈ s \/ x ∈ objects.
Proof.
  unfold unionObjects. revert s. induction objects as [|o objects IH]; intros s; cbn [foldl].
  - set_solver.
  - rewrite IH. set_solver.
Qed.

Lemma elem_of_fromObjects objects x : x ∈ fromObjects objects <-> x ∈ objects.
Proof.
  unfold fromObjects. rewrite elem_of_unionObjects, BitSet.not_elem_of_new. tauto.
Qed.

Lemma containsAll_spec s objects : containsAll s objects = true <-> forall x, x ∈ objects -> x ∈ s.
Proof.
  unfold containsAll. rewrite forallb_forall. setoid_rewrite <- list_elem_of_In.
  by setoid_rewrite BitSet.bitset_contains_spec.
Qed.

Lemma containsColumns1_spec g s e :
  containsColumns1 g s e = true <-> columns (objectAt g e) ⊆ s.
Proof. apply BitSet.bitset_isSubset_spec. Qed.

Lemma containsColumns_spec g s exprs :
  containsColumns g s exprs = true <-> forall e, e ∈ exprs -> columns (objectAt g e) ⊆ s.
Proof.
  unfold containsColumns. rewrite forallb_forall. setoid_rewrite <- list_elem_of_In.
  by setoid_rewrite containsColumns1_spec.
Qed.

Lemma elem_of_unionColumns g s exprs x :
  x ∈ unionColumns g s exprs <->
  x ∈ s \/ exists e, e ∈ exprs /\ x ∈ columns (objectAt g e).
Proof.
  unfold unionColumns, unionColumns1. revert s. induction exprs as [|e exprs IH]; intros s; cbn [foldl].
  - set_solver.
  - rewrite IH. set_solver.
Qed.
End Theory.
End PlanObjectSet.

(** ** Equivalence classes *)

Definition same_class (g : QueryGraph) (a b : ColumnCP) : Prop :=
  a = b \/ exists e, column_equivalence g a = Some e /\ column_equivalence g b = Some e.

(** The representation invariant of the classes: a column is listed by the class
    it points to, and a class some column points to lists only columns that point
    to it (a class drained by a merge keeps its list but no column points to it). *)
Record classes_ok (g : QueryGraph) : Prop := {
  class_lists : forall c e, column_equivalence g c = Some e -> c ∈ equivalence_columns g e;
  class_points : forall c c' e, column_equivalence g c = Some e ->
    c' ∈ equivalence_columns g e -> column_equivalence g c' = Some e;
  class_fresh : forall e cols, equivalences g !! e = Some cols -> e < nextEquivalence g;
}.

Lemma same_class_sym g a b : same_class g a b -> same_class g b a.
Proof. unfold same_class. naive_solver. Qed.

Lemma same_class_trans g a b c : same_class g a b -> same_class g b c -> same_class g a c.
Proof.
  intros [->|(e & Ha & Hb)] [->|(e' & Hb' & Hc)]; unfold same_class; naive_solver.
Qed.

Lemma column_equivalence_registered g c e :
  column_equivalence g c = Some e -> is_Some (objects g !! c).
Proof. unfold column_equivalence, objectAt. destruct (objects g !! c); [by eexists | done]. Qed.

Lemma column_equivalence_set g c e x :
  is_Some (objects g !! c) ->
  column_equivalence (set_equivalence g c e) x =
  if decide (x = c) then Some e else column_equivalence g x.
Proof.
  intros [o Ho]. unfold column_equivalence, set_equivalence, objectAt; cbn.
  case_decide as E; [subst x | by rewrite lookup_alter_ne].
  by rewrite lookup_alter_eq, Ho.
Qed.

Lemma registered_set g c e x :
  is_Some (objects (set_equivalence g c e) !! x) <-> is_Some (objects g !! x).
Proof.
  unfold set_equivalence; cbn. destruct (decide (x = c)) as [->|]; [| by rewrite lookup_alter_ne].
  rewrite lookup_alter_eq. by rewrite fmap_is_Some.
Qed.

Lemma equivalence_columns_push g e c e' :
  equivalence_columns (push_column g e c) e' =
  if decide (e' = e) then equivalence_columns g e ++ [c] else equivalence_columns g e'.
Proof.
  unfold push_column, set_equivalence_columns, equivalence_columns; cbn.
  case_decide as E; [subst e' | by rewrite lookup_insert_ne].
  by rewrite lookup_insert_eq.
Qed.

(** The merging loop re-points exactly the listed columns and appends them. *)
Lemma move_columns_spec e l g :
  (forall c, c ∈ l -> is_Some (objects g !! c)) ->
  let g' := foldl (move_column e) g l in
  (forall x, column_equivalence g' x = if decide (x ∈ l) then Some e else column_equivalence g x) /\
  (forall e', equivalence_columns g' e' =
     if decide (e' = e) then equivalence_columns g e ++ l else equivalence_columns g e') /\
  (forall e' cols, equivalences g' !! e' = Some cols ->
     e' = e \/ exists cols', equivalences g !! e' = Some cols') /\
  nextEquivalence g' = nextEquivalence g.
Proof.
  revert g. induction l as [|c l IH]; intros g Hreg; cbn [foldl].
  - split_conj; try done.
    + intros e'. case_decide; [subst; by rewrite app_nil_r | done].
    + naive_solver.
  - assert (Hc : is_Some (objects g !! c)) by (apply Hreg; left).
    assert (Hreg' : forall x, x ∈ l -> is_Some (objects (move_column e g c) !! x)).
    { intros x Hx. unfold move_column. apply registered_set. apply Hreg. by right. }
    destruct (IH _ Hreg') as (H1 & H2 & H3 & H4). cbn zeta in *. split_conj.
    + intros x. rewrite H1. unfold move_column. rewrite column_equivalence_set by done.
      repeat case_decide; set_solver.
    + intros e'. rewrite H2. unfold move_column.
      assert (Heq : forall k, equivalence_columns (set_equivalence (push_column g e c) c e) k =
        equivalence_columns (push_column g e c) k) by done.
      rewrite !Heq, !equivalence_columns_push. repeat case_decide; try done.
      by rewrite <- app_assoc.
    + intros e' cols Hl. destruct (H3 _ _ Hl) as [->|[cols' Hl']]; [by left |].
      unfold move_column, set_equivalence, push_column, set_equivalence_columns in Hl'; cbn in Hl'.
      destruct (decide (e' = e)); [by left |]. rewrite lookup_insert_ne in Hl' by done. eauto.
    + rewrite H4. done.
Qed.

(** Attaching one column to the class of another. *)
Lemma join_class_spec g c e other :
  classes_ok g -> column_equivalence g c = Some e -> column_equivalence g other = None ->
  is_Some (objects g !! other) ->
  classes_ok (join_class g e other) /\
  forall x, column_equivalence (join_class g e other) x =
    if decide (x = other) then Some e else column_equivalence g x.
Proof.
  intros [Hl Hp Hf] Hc Ho Hreg.
  assert (Hce : forall x, column_equivalence (join_class g e other) x =
    if decide (x = other) then Some e else column_equivalence g x).
  { intros x. unfold join_class. change (column_equivalence (push_column ?h _ _) x)
      with (column_equivalence h x). by apply column_equivalence_set. }
  assert (Hcols : forall k, equivalence_columns (join_class g e other) k =
    if decide (k = e) then equivalence_columns g e ++ [other] else equivalence_columns g k).
  { intros k. unfold join_class. by rewrite equivalence_columns_push. }
  split; [constructor | done].
  - intros x k. rewrite Hce, Hcols. repeat case_decide; intros; simplify_eq; set_solver.
  - intros x x' k Hx Hx'. rewrite Hce in Hx |- *. rewrite Hcols in Hx'.
    destruct (decide (k = e)) as [->|Hk].
    + destruct (decide (x' = other)) as [|Eo]; [done |]. eapply Hp; [apply Hc |]. set_solver.
    + destruct (decide (x = other)); [congruence |].
      assert (Hx'' : column_equivalence g x' = Some k) by (by eapply Hp).
      destruct (decide (x' = other)); congruence.
  - intros k cols. unfold join_class, push_column, set_equivalence_columns; cbn.
    destruct (decide (k = e)) as [->|]; [| rewrite lookup_insert_ne by done; apply Hf].
    intros _. pose proof (Hl _ _ Hc) as Hin. unfold equivalence_columns in Hin.
    destruct (equivalences g !! e) eqn:E; [by eapply Hf | set_solver].
Qed.

Lemma equivalences_columns_of_lookup g e c :
  c ∈ equivalence_columns g e -> exists cols, equivalences g !! e = Some cols.
Proof. unfold equivalence_columns. destruct (equivalences g !! e); [eauto | set_solver]. Qed.

Lemma nextEquivalence_unused g x :
  classes_ok g -> column_equivalence g x = Some (nextEquivalence g) -> False.
Proof.
  intros [Hl _ Hf] Hx. apply Hl, equivalences_columns_of_lookup in Hx as [cols Hx].
  apply Hf in Hx. lia.
Qed.

(** Two fresh columns: a new class holding both. *)
Lemma new_class_spec g a b :
  classes_ok g -> column_equivalence g a = None -> column_equivalence g b = None ->
  is_Some (objects g !! a) -> is_Some (objects g !! b) ->
  let '(equiv, g1) := make_equivalence g in
  let g' := set_equivalence (set_equivalence (push_column (push_column g1 equiv a) equiv b) a equiv)
              b equiv in
  classes_ok g' /\
  (forall x, column_equivalence g' x =
     if decide (x = a \/ x = b) then Some (nextEquivalence g) else column_equivalence g x).
Proof.
  intros [Hl Hp Hf] Ha Hb Hra Hrb. cbn zeta. set (e := nextEquivalence g).
  cbn [make_equivalence]. set (g1 := mkQueryGraph _ _ _). fold e.
  set (g' := set_equivalence _ b e).
  assert (Hce : forall x, column_equivalence g' x =
    if decide (x = a \/ x = b) then Some e else column_equivalence g x).
  { intros x. unfold g'. rewrite column_equivalence_set by (apply registered_set; done).
    rewrite column_equivalence_set by done. repeat case_decide; naive_solver. }
  assert (Hcols : forall k, equivalence_columns g' k =
    if decide (k = e) then [a; b] else equivalence_columns g k).
  { intros k. unfold g'.
    change (equivalence_columns (push_column (push_column g1 e a) e b) k =
            if decide (k = e) then [a; b] else equivalence_columns g k).
    rewrite !equivalence_columns_push. unfold g1, equivalence_columns; cbn.
    repeat case_decide; subst; try done; [by rewrite lookup_insert_eq | by rewrite lookup_insert_ne]. }
  assert (Hfresh : forall x k, column_equivalence g x = Some k -> k <> e).
  { intros x k Hx ->. by eapply nextEquivalence_unused. }
  split; [constructor | done].
  - intros x k. rewrite Hce, Hcols. case_decide as E.
    + intros [= <-]. rewrite decide_True by done. set_solver.
    + intros Hx. rewrite decide_False by eauto. by apply Hl.
  - intros x x' k Hx Hx'. rewrite Hce in Hx |- *. rewrite Hcols in Hx'.
    destruct (decide (x' = a \/ x' = b)) as [E'|E'];
      destruct (decide (x = a \/ x = b)) as [E|E]; simplify_eq; try done.
    + exfalso. rewrite decide_False in Hx' by eauto.
      assert (column_equivalence g x' = Some k) by (by eapply Hp). naive_solver congruence.
    + rewrite decide_True in Hx' by done. set_solver.
    + rewrite decide_False in Hx' by eauto. by eapply Hp.
  - intros k cols. unfold g', set_equivalence, push_column, set_equivalence_columns, g1; cbn.
    destruct (decide (k = e)) as [->|Hk]; [unfold e; lia |].
    rewrite !lookup_insert_ne by done. intros H%Hf. lia.
Qed.

(** Merging two classes. *)
Lemma merge_classes_spec g a b e e' :
  classes_ok g -> column_equivalence g a = Some e -> column_equivalence g b = Some e' ->
  e <> e' ->
  let g' := foldl (move_column e) g (equivalence_columns g e') in
  classes_ok g' /\
  (forall x, column_equivalence g' x =
     if decide (column_equivalence g x = Some e') then Some e else column_equivalence g x).
Proof.
  intros [Hl Hp Hf] Ha Hb Hne. cbn zeta.
  assert (Hin : forall x, x ∈ equivalence_columns g e' <-> column_equivalence g x = Some e').
  { intros x. split; [by apply Hp with (c := b) | apply Hl]. }
  destruct (move_columns_spec e (equivalence_columns g e') g) as (Hce & Hcols & Hdom & Hnext).
  { intros c Hc. eapply column_equivalence_registered, Hin, Hc. }
  set (g' := foldl _ _ _) in *. clearbody g'.
  assert (Hce' : forall x, column_equivalence g' x =
    if decide (column_equivalence g x = Some e') then Some e else column_equivalence g x).
  { intros x. rewrite Hce. repeat case_decide; naive_solver. }
  split; [constructor | done].
  - intros x k. rewrite Hce', Hcols. repeat case_decide; intros; simplify_eq; set_solver.
  - intros x x' k Hx Hx'. rewrite Hce' in Hx |- *. rewrite Hcols in Hx'.
    destruct (decide (k = e)) as [->|Hk].
    + apply elem_of_app in Hx' as [Hx'|Hx'%Hin]; [| by rewrite decide_True].
      rewrite (Hp _ _ _ Ha Hx'). by rewrite decide_False by congruence.
    + destruct (decide (column_equivalence g x = Some e')); [congruence |].
      rewrite (Hp _ _ _ Hx Hx'). rewrite decide_False; [done | congruence].
  - intros k cols Hk. rewrite Hnext. destruct (Hdom _ _ Hk) as [->|[cols' Hk']]; [| by eapply Hf].
    destruct (equivalences_columns_of_lookup g e a) as [cols' Hc]; [by apply Hl | by eapply Hf].
Qed.

#[export] Instance same_class_dec g a b : Decision (same_class g a b).
Proof.
  destruct (decide (a = b)) as [|Hne]; [left; by left |].
  destruct (column_equivalence g a) as [e|] eqn:Ea.
  - destruct (decide (column_equivalence g b = Some e)) as [Hb|Hb].
    + left. right. by exists e.
    + right. intros [|(e' & ? & ?)]; [done | congruence].
  - right. intros [|(e' & ? & ?)]; [done | congruence].
Defined.

(** When the members of two classes now point to [e] and no other column does,
    the classes are the old ones with those two merged. *)
Lemma merged_classes g g' a b e :
  (forall x, same_class g x a \/ same_class g x b -> column_equivalence g' x = Some e) ->
  (forall x, ~ (same_class g x a \/ same_class g x b) ->
     column_equivalence g' x = column_equivalence g x /\ column_equivalence g x <> Some e) ->
  forall x y, same_class g' x y <->
    same_class g x y \/ (same_class g x a /\ same_class g b y) \/
    (same_class g x b /\ same_class g a y).
Proof.
  intros Hin Hout x y.
  assert (Hsym := same_class_sym g). assert (Htr := same_class_trans g).
  destruct (decide (same_class g x a \/ same_class g x b)) as [Hx|Hx];
    destruct (decide (same_class g y a \/ same_class g y b)) as [Hy|Hy].
  - split; [| intros _; right; exists e; auto]. intros _. destruct Hx, Hy; eauto 6.
  - split.
    + intros [->|(k & Hk & Hk')]; [done |]. exfalso.
      rewrite Hin in Hk by done. destruct (Hout y Hy) as [E1 E2]. congruence.
    + intros H. exfalso. apply Hy. destruct Hx, H as [|[[]|[]]]; eauto.
  - split.
    + intros [->|(k & Hk & Hk')]; [done |]. exfalso.
      rewrite Hin in Hk' by done. destruct (Hout x Hx) as [E1 E2]. congruence.
    + intros H. exfalso. apply Hx. destruct Hy, H as [|[[]|[]]]; eauto.
  - destruct (Hout x Hx) as [Ex _], (Hout y Hy) as [Ey _].
    unfold same_class at 1. rewrite Ex, Ey. fold (same_class g x y).
    split; [by left |]. intros [|[[]|[]]]; [done | exfalso; auto ..].
Qed.

(** [Column::equals(this, other)] maintains the representation invariant of
    the equivalence classes on every branch (two fresh columns, one fresh, two
    classes, one class), the classes it leaves are exactly the old ones with
    those of the two columns merged - the least equivalence containing the old
    one and the new pair - and, for distinct columns, it returns true exactly
    when the two were not in one class before. *)
Theorem column_equals_merges_classes (g : QueryGraph) (this other : ColumnCP)
    (Hok : classes_ok g)
    (Hthis : is_Some (objects g !! this)) (Hother : is_Some (objects g !! other)) :
  let '(merged, g') := equals g this other in
  classes_ok g' /\
  (forall x y, same_class g' x y <->
     same_class g x y \/
     (same_class g x this /\ same_class g other y) \/
     (same_class g x other /\ same_class g this y)) /\
  (this <> other -> (merged = true <-> ~ same_class g this other)).
Proof.
  unfold equals. destruct (column_equivalence g this) as [e|] eqn:Et;
    destruct (column_equivalence g other) as [e'|] eqn:Eo.
  - destruct (N.eqb_spec e e') as [<-|Hne].
    + assert (same_class g this other) by (right; by exists e).
      split_conj; [done | | done].
      intros x y. split; [auto |].
      intros [|[[? ?]|[? ?]]]; eauto using same_class_trans, same_class_sym.
    + destruct (merge_classes_spec g this other e e' Hok Et Eo Hne) as [Hok' Hce].
      split_conj; [done | | unfold same_class; naive_solver].
      apply merged_classes with (e := e); intros x Hx; rewrite Hce;
        unfold same_class in Hx; case_decide; naive_solver.
  - destruct (join_class_spec g this e other Hok Et Eo Hother) as [Hok' Hce].
    split_conj; [done | | unfold same_class; naive_solver].
    apply merged_classes with (e := e); intros x Hx; rewrite Hce;
      unfold same_class in Hx; case_decide; naive_solver.
  - destruct (join_class_spec g other e' this Hok Eo Et Hthis) as [Hok' Hce].
    split_conj; [done | | unfold same_class; naive_solver].
    apply merged_classes with (e := e'); intros x Hx; rewrite Hce;
      unfold same_class in Hx; case_decide; naive_solver.
  - destruct (make_equivalence g) as [equiv g1] eqn:Em.
    pose proof (new_class_spec g this other Hok Et Eo Hthis Hother) as Hnew.
    rewrite Em in Hnew. cbn zeta in *. destruct Hnew as [Hok' Hce].
    split_conj; [done | | unfold same_class; naive_solver].
    apply merged_classes with (e := nextEquivalence g); intros x Hx; rewrite Hce;
      unfold same_class in Hx.
    + rewrite decide_True; [done |]. destruct Hx as [[|(? & ? & ?)]|[|(? & ? & ?)]]; auto; congruence.
    + rewrite decide_False by (intros [|]; naive_solver). split; [done |].
      intros E. by apply (nextEquivalence_unused g x) in E.
Qed.

(** A graph of three columns, the first two in one class. *)
Definition example_column (n : string) : PlanObject :=
  mkPlanObject kColumnExpr BitSet.new 1 false n None [] false None [].
Definition example_graph : QueryGraph :=
  mkQueryGraph {[ 0 := example_column "a"; 1 := example_column "b"; 2 := example_column "c" ]} ∅ 0.
Definition example_graph_ab : QueryGraph := snd (equals example_graph 0 1).

(** Before the first [equals] no column has a class. *)
Lemma fresh_graph_ok objects :
  map_Forall (fun _ object => equivalence object = None) objects -> classes_ok (mkQueryGraph objects ∅ 0).
Proof.
  intros Hnone.
  assert (H : forall c, column_equivalence (mkQueryGraph objects ∅ 0) c = None).
  { intros c. unfold column_equivalence, objectAt. cbn. destruct (objects !! c) as [o|] eqn:E; [| done].
    by apply (Hnone c o). }
  constructor.
  - intros c e Hc. by rewrite H in Hc.
  - intros c c' e Hc. by rewrite H in Hc.
  - intros e cols He. cbn in He. by rewrite lookup_empty in He.
Qed.

Lemma example_graph_ok : classes_ok example_graph.
Proof. apply fresh_graph_ok, (bool_decide_unpack _). vm_compute. exact I. Qed.

Lemma example_graph_ab_ok : classes_ok example_graph_ab.
Proof.
  exact (proj1 (new_class_spec example_graph 0 1 example_graph_ok eq_refl eq_refl
           ltac:(eexists; reflexivity) ltac:(eexists; reflexivity))).
Qed.

Lemma column_equals_merges_classes_witness :
  same_class (snd (equals example_graph 0 2)) 0 2 /\ ~ same_class example_graph 0 2.
Proof.
  pose proof (column_equals_merges_classes example_graph 0 2 example_graph_ok
                ltac:(eexists; reflexivity) ltac:(eexists; reflexivity)) as H.
  destruct (equals example_graph 0 2) as [merged g'] eqn:E.
  destruct H as (_ & Hsame & Hret). cbn [snd]. split.
  - apply Hsame. right; left. split; by left.
  - apply Hret; [done |]. apply (f_equal fst) in E. exact (eq_sym E).
Defined.

(** ** What [sameOrEqual] means for values *)

Section Evaluation.
Context {V : Type} (bottom : V).
(** The value of a column, of any other leaf, of a call and of an aggregate: a
    function of what [sameOrEqual] compares. *)
Context (column_value : ColumnCP -> V) (leaf_value : ExprCP -> V).
Context (call_value : string -> list V -> V).
Context (aggregate_value : string -> bool -> option V -> list V -> V).

Fixpoint eval (fuel : nat) (g : QueryGraph) (e : ExprCP) : V :=
  match fuel with
  | O => bottom
  | S fuel =>
      let o := objectAt g e in
      match type o with
      | kColumnExpr => column_value e
      | kCallExpr => call_value (name o) (map (eval fuel g) (args o))
      | kAggregateExpr =>
          aggregate_value (name o) (isDistinct o) (option_map (eval fuel g) (condition o))
            (map (eval fuel g) (args o))
      | _ => leaf_value e
      end
  end.

(** Columns of one class hold the same value. *)
Definition respects_classes (g : QueryGraph) : Prop :=
  forall a b, same_class g a b -> column_value a = column_value b.

Lemma sameOrEqual_args_map (same : ExprCP -> ExprCP -> bool) (f : ExprCP -> V) (l l' : list ExprCP) :
  (forall a b, same a b = true -> f a = f b) ->
  length l = length l' -> sameOrEqual_args same l l' = true -> map f l = map f l'.
Proof.
  intros Hf. revert l'. induction l as [|a l IH]; intros [|b l'] Hlen; cbn in *; try done.
  destruct (same a b) eqn:E; [| done]. intros H. f_equal; [by apply Hf | by apply IH; [lia |]].
Qed.

(** Soundness of [Expr::sameOrEqual]: if equivalent columns hold equal
    values, and a call's value is a function of its name and its arguments'
    values (an aggregate's also of its DISTINCT flag and FILTER condition),
    expressions it declares the same evaluate to the same value, at whatever
    depth the two are unfolded. *)
Theorem sameOrEqual_sound (g : QueryGraph) (n fuel : nat) (a b : ExprCP)
    (Hclasses : respects_classes g) (Hsame : sameOrEqual n g a b = true) :
  eval fuel g a = eval fuel g b.
Proof.
  revert fuel a b Hsame. induction n as [|n IH]; intros fuel a b Hsame; cbn in Hsame.
  { destruct (N.eqb_spec a b) as [->|]; done. }
  destruct (N.eqb_spec a b) as [->|Hab]; [done |].
  destruct fuel as [|fuel]; [done |]. cbn [eval].
  case_bool_decide as Etype; cbn [negb] in Hsame; [| done]. rewrite <- Etype.
  assert (Hargs : forall o o', length (args o) = length (args o') ->
    sameOrEqual_args (sameOrEqual n g) (args o) (args o') = true ->
    map (eval fuel g) (args o) = map (eval fuel g) (args o')).
  { intros o o'. apply sameOrEqual_args_map. intros. by apply IH. }
  destruct (type (objectAt g a)) eqn:Ea; try done.
  - apply Hclasses. right. destruct (equivalence (objectAt g a)) as [x|] eqn:Ex; [| done].
    destruct (equivalence (objectAt g b)) as [y|] eqn:Ey; [| done].
    apply N.eqb_eq in Hsame as ->. by exists y.
  - case_bool_decide as En; cbn [negb] in Hsame; [| done].
    destruct (Nat.eqb_spec (length (args (objectAt g a))) (length (args (objectAt g b)))); [| done].
    rewrite En. f_equal. by apply Hargs.
  - destruct (same_aggregate_modifiers _ _ _) eqn:Em; [| done].
    case_bool_decide as En; cbn [negb] in Hsame; [| done].
    destruct (Nat.eqb_spec (length (args (objectAt g a))) (length (args (objectAt g b)))); [| done].
    unfold same_aggregate_modifiers in Em. apply andb_true_iff in Em as [Ed Ec].
    apply bool_decide_eq_true in Ed. rewrite En, Ed. f_equal; [| by apply Hargs].
    apply orb_true_iff in Ec as [Ec|Ec]; [apply bool_decide_eq_true in Ec; by rewrite Ec |].
    destruct (condition (objectAt g a)), (condition (objectAt g b)); try done. cbn.
    f_equal. by apply IH.
Qed.
End Evaluation.

Lemma sameOrEqual_sound_witness :
  let g := example_graph_ab in
  let value c := if c =? 2 then 7 else 5 in
  sameOrEqual 1 g 0 1 = true /\
  eval 0 value (fun _ => 0) (fun _ _ => 0) (fun _ _ _ _ => 0) 1 g 0 =
  eval 0 value (fun _ => 0) (fun _ _ => 0) (fun _ _ _ _ => 0) 1 g 1.
Proof.
  cbn zeta. split; [reflexivity |]. apply (sameOrEqual_sound _ _ _ _ _ _ 1); [| reflexivity].
  intros a b [->|(e & Ha & Hb)]; [done |].
  assert (Hval : forall c, column_equivalence example_graph_ab c = Some e -> (c =? 2) = false).
  { intros c Hc. destruct (N.eqb_spec c 2) as [->|]; [discriminate Hc | done]. }
  by rewrite (Hval a Ha), (Hval b Hb).
Defined.

(** [sameOrEqual] does not look at the result type of a call: two calls of
    one name over the same arguments are declared the same although their types
    differ, as [CAST(x AS t)] does for every [t] (the call's name is "__cast"
    whatever the target).  No meaning of calls that depends on the result type
    is preserved. *)
Theorem sameOrEqual_ignores_result_type (x : ColumnCP) (t1 t2 : TypeCP) (Hx : x <> 10 /\ x <> 11) :
  let cast t := mkPlanObject kCallExpr (PlanObjectSet.single (VB := BitSet.Velox.primitives) x)
                  t false "__cast" None [x] false None [] in
  let g := mkQueryGraph {[ 10 := cast t1; 11 := cast t2 ]} ∅ 0 in
  sameOrEqual 2 g 10 11 = true /\
  valueType (objectAt g 10) = t1 /\ valueType (objectAt g 11) = t2.
Proof.
  cbn zeta. split_conj; [| done | done]. cbn [sameOrEqual N.eqb Pos.eqb]. unfold objectAt. cbn [objects].
  rewrite lookup_insert_eq, lookup_insert_ne, lookup_singleton_eq by done. cbn.
  by rewrite N.eqb_refl.
Qed.

Lemma sameOrEqual_ignores_result_type_witness :
  (0 <> 10 /\ 0 <> 11) /\
  exists g, sameOrEqual 2 g 10 11 = true /\ valueType (objectAt g 10) <> valueType (objectAt g 11).
Proof.
  split; [done |]. eexists. split.
  - apply (sameOrEqual_ignores_result_type 0 1 2). done.
  - vm_compute. discriminate.
Defined.
