(* ===== verification/Joins.v ===== *)
(** * Join types: what each join emits, and the properties planning derives from it

    Models the static functions of [v2::Join] ([axiom/optimizer/v2/Node.{h,cpp}])
    that classify a join type: which inputs it preserves, which inputs' unique
    keys its output keeps, how its inputs may be exchanged or replicated, and
    when it is known to be empty.  [join_rows] is the specification they are
    judged against: the rows a join of each type emits, following the
    descriptions of [JoinType] in [logical_plan/LogicalPlanNode.h] and of the
    semi, anti and counting forms in [Node.h].  Matching is two-valued here: the
    null-aware forms differ only in the predicate that says which rows match. *)

From S2P Require Import Prelude Word64 BitSets QueryGraph.
From Stdlib Require Import Lia.
Set Warnings "-clear-no-such-hyp".
Open Scope nat_scope.

(** ** Join types *)

(** [velox::core::JoinType] *)
Inductive JoinType :=
  | kInner | kLeft | kRight | kFull
  | kLeftSemiFilter | kCountingLeftSemiFilter | kRightSemiFilter
  | kLeftSemiProject | kRightSemiProject
  | kAnti | kCountingAnti | kRightAnti
  | kNumJoinTypes.

#[export] Instance JoinType_eq_dec : EqDecision JoinType.
Proof. solve_decision. Defined.

(** A flag for each of a join's inputs. *)
Record Sides := mkSides { left_ : bool; right_ : bool }.

Definition preservedSides (joinType : JoinType) : Result Sides :=
  match joinType with
  | kInner => Ok (mkSides true true)
  | kLeft | kLeftSemiFilter | kCountingLeftSemiFilter | kLeftSemiProject | kAnti
  | kCountingAnti => Ok (mkSides true false)
  | kRight | kRightSemiFilter | kRightSemiProject | kRightAnti => Ok (mkSides false true)
  | kFull => Ok (mkSides false false)
  | kNumJoinTypes => Throw (VeloxUnreachable "")
  end.

Definition projectsMark (joinType : JoinType) : bool :=
  bool_decide (joinType = kLeftSemiProject) || bool_decide (joinType = kRightSemiProject).

Definition nullKeysMatch (nullAware nullAsValue : bool) : bool := nullAware || nullAsValue.

Definition canSwapInputs (joinType : JoinType) : bool :=
  bool_decide (joinType = kInner) || bool_decide (joinType = kLeft) ||
  bool_decide (joinType = kRight) || bool_decide (joinType = kFull).

Definition swapType (joinType : JoinType) : Result JoinType :=
  match joinType with
  | kInner | kFull | kCountingLeftSemiFilter => Ok joinType
  | kLeft => Ok kRight
  | kRight => Ok kLeft
  | kLeftSemiFilter => Ok kRightSemiFilter
  | kRightSemiFilter => Ok kLeftSemiFilter
  | kLeftSemiProject => Ok kRightSemiProject
  | kRightSemiProject => Ok kLeftSemiProject
  | _ => Throw (VeloxUnreachable "Join type has no swapped representation: {}")
  end.

Definition canBroadcastBuild (joinType : JoinType) : bool :=
  bool_decide (joinType = kInner) || bool_decide (joinType = kLeft) ||
  bool_decide (joinType = kLeftSemiFilter) || bool_decide (joinType = kLeftSemiProject) ||
  bool_decide (joinType = kAnti).

Definition canBroadcastProbe (joinType : JoinType) : bool :=
  bool_decide (joinType = kInner) || bool_decide (joinType = kRight) ||
  bool_decide (joinType = kRightSemiFilter) || bool_decide (joinType = kRightSemiProject) ||
  bool_decide (joinType = kRightAnti).

Definition isKnownEmpty (joinType : JoinType) (leftIsKnownEmpty rightIsKnownEmpty : bool)
    : Result bool :=
  match joinType with
  | kInner | kLeftSemiFilter | kCountingLeftSemiFilter | kRightSemiFilter =>
      Ok (leftIsKnownEmpty || rightIsKnownEmpty)
  | kLeft | kLeftSemiProject | kAnti | kCountingAnti => Ok leftIsKnownEmpty
  | kRight | kRightSemiProject | kRightAnti => Ok rightIsKnownEmpty
  | kFull => Ok (leftIsKnownEmpty && rightIsKnownEmpty)
  | kNumJoinTypes => Throw (VeloxUnreachable "")
  end.

Definition loopInvariantSide (joinType : JoinType) (hasKeys nullAsValue : bool)
    (readsState : Sides) : Sides :=
  if bool_decide (joinType = kInner) && hasKeys && negb nullAsValue &&
     negb (bool_decide (left_ readsState = right_ readsState))
  then mkSides (negb (left_ readsState)) (negb (right_ readsState))
  else mkSides false false.

(** [Join::Key], the members that exchanging the inputs touches and reads. *)
Record JoinKey := mkJoinKey {
  key_left : N;
  key_right : N;
  key_joinType : JoinType;
  key_leftKeys : list ExprCP;
  key_rightKeys : list ExprCP;
  key_filter : list ExprCP;
}.

Definition swapInputs (key : JoinKey) : Result JoinKey :=
  velox_check (canSwapInputs (key_joinType key))
    "Join inputs cannot be exchanged while preserving output: {}" ≫= fun _ =>
  swapType (key_joinType key) ≫= fun swapped =>
  Ok (mkJoinKey (key_right key) (key_left key) swapped (key_rightKeys key) (key_leftKeys key)
        (key_filter key)).

(** ** The rows a join emits *)

(** A row carries a row of each input, or nulls in its place, and the mark of a
    semi-project join. *)
Definition Row (L R : Type) : Type := option L * option R * option bool.
Definition row_left {L R} (row : Row L R) : option L := row.1.1.
Definition row_right {L R} (row : Row L R) : option R := row.1.2.
Definition swap_row {L R} (row : Row L R) : Row R L := (row.1.2, row.1.1, row.2).

Section JoinRows.
Context {L R : Type} (matches : L -> R -> bool).

Definition has_match (rs : list R) (l : L) : bool := existsb (matches l) rs.
Definition pair_row (l : L) (r : R) : Row L R := (Some l, Some r, None).
Definition row_of_left (l : L) : Row L R := (Some l, None, None).
Definition row_of_right (r : R) : Row L R := (None, Some r, None).

Definition pairs_of (rs : list R) (l : L) : list (Row L R) :=
  map (pair_row l) (List.filter (matches l) rs).
Definition pairs (ls : list L) (rs : list R) : list (Row L R) := flat_map (pairs_of rs) ls.
Definition matched (ls : list L) (rs : list R) : list L := List.filter (has_match rs) ls.
Definition unmatched (ls : list L) (rs : list R) : list L :=
  List.filter (fun l => negb (has_match rs l)) ls.

(** The rows of [rs] less the first one that matches [l]. *)
Fixpoint consume (l : L) (rs : list R) : option (list R) :=
  match rs with
  | [] => None
  | r :: rs => if matches l r then Some rs else cons r <$> consume l rs
  end.

(** The counting joins: each right row is consumed by at most one left row;
    [keep] selects the rows that found one (INTERSECT ALL) or those that did not
    (EXCEPT ALL). *)
Fixpoint counting (keep : bool) (ls : list L) (rs : list R) : list L :=
  match ls with
  | [] => []
  | l :: ls =>
      match consume l rs with
      | Some rs' => (if keep then [l] else []) ++ counting keep ls rs'
      | None => (if keep then [] else [l]) ++ counting keep ls rs
      end
  end.
End JoinRows.

Definition marked {L R} (matches : L -> R -> bool) (rs : list R) (l : L) : Row L R :=
  (Some l, None, Some (has_match matches rs l)).

Definition join_rows {L R} (joinType : JoinType) (matches : L -> R -> bool) (ls : list L)
    (rs : list R) : list (Row L R) :=
  let flipped r l := matches l r in
  match joinType with
  | kInner => pairs matches ls rs
  | kLeft => pairs matches ls rs ++ map row_of_left (unmatched matches ls rs)
  | kRight => pairs matches ls rs ++ map row_of_right (unmatched flipped rs ls)
  | kFull => pairs matches ls rs ++ map row_of_left (unmatched matches ls rs) ++
             map row_of_right (unmatched flipped rs ls)
  | kLeftSemiFilter => map row_of_left (matched matches ls rs)
  | kRightSemiFilter => map row_of_right (matched flipped rs ls)
  | kLeftSemiProject => map (marked matches rs) ls
  | kRightSemiProject => map (swap_row ∘ marked flipped ls) rs
  | kAnti => map row_of_left (unmatched matches ls rs)
  | kRightAnti => map row_of_right (unmatched flipped rs ls)
  | kCountingLeftSemiFilter => map row_of_left (counting matches true ls rs)
  | kCountingAnti => map row_of_left (counting matches false ls rs)
  | kNumJoinTypes => []
  end.

(** ** Theory of [join_rows] *)

Section Theory.
Context {L R : Type} (matches : L -> R -> bool).
Implicit Types (ls : list L) (rs : list R).

Lemma pairs_app_l ls1 ls2 rs : pairs matches (ls1 ++ ls2) rs = pairs matches ls1 rs ++ pairs matches ls2 rs.
Proof. apply flat_map_app. Qed.

Lemma pairs_app_r ls rs1 rs2 :
  pairs matches ls (rs1 ++ rs2) ≡ₚ pairs matches ls rs1 ++ pairs matches ls rs2.
Proof.
  unfold pairs, pairs_of. induction ls as [|l ls IH]; cbn [flat_map]; [done |].
  rewrite List.filter_app, map_app, IH. solve_Permutation.
Qed.

Lemma pairs_nil_r ls : pairs matches ls [] = [].
Proof. by induction ls. Qed.

Lemma has_match_app rs1 rs2 l :
  has_match matches (rs1 ++ rs2) l = has_match matches rs1 l || has_match matches rs2 l.
Proof. apply existsb_app. Qed.

Lemma has_match_elem rs l : has_match matches rs l = true <-> exists r, r ∈ rs /\ matches l r = true.
Proof.
  unfold has_match. rewrite existsb_exists. by setoid_rewrite list_elem_of_In.
Qed.

Lemma matched_nil_r ls : matched matches ls [] = [].
Proof. by induction ls. Qed.

Lemma unmatched_nil_r ls : unmatched matches ls [] = ls.
Proof. unfold unmatched. induction ls as [|l ls IH]; cbn in *; [done |]. by rewrite IH. Qed.

Lemma counting_nil_r keep ls : counting matches keep ls [] = if keep then [] else ls.
Proof. by induction ls as [|l ls IH]; destruct keep; cbn in *; rewrite ?IH. Qed.

Lemma counting_submseteq keep ls rs : counting matches keep ls rs ⊆+ ls.
Proof.
  revert rs. induction ls as [|l ls IH]; intros rs; cbn; [done |].
  destruct (consume matches l rs), keep; cbn; auto using submseteq_skip, submseteq_cons.
Qed.

Lemma filter_submseteq {A} (f : A -> bool) (l : list A) : List.filter f l ⊆+ l.
Proof.
  induction l as [|x l IH]; cbn; [done |].
  destruct (f x); auto using submseteq_skip, submseteq_cons.
Qed.
End Theory.

Lemma pairs_cons_r {L R} (matches : L -> R -> bool) ls r rs :
  pairs matches ls (r :: rs) ≡ₚ
  map (fun l => pair_row l r) (List.filter (fun l => matches l r) ls) ++ pairs matches ls rs.
Proof.
  change (r :: rs) with ([r] ++ rs). rewrite pairs_app_r. apply Permutation_app; [| done].
  unfold pairs, pairs_of. induction ls as [|l ls IH]; cbn in *; [done |].
  destruct (matches l r); cbn; by rewrite IH.
Qed.

Lemma pairs_swap {L R} (matches : L -> R -> bool) ls rs :
  pairs (fun r l => matches l r) rs ls ≡ₚ map swap_row (pairs matches ls rs).
Proof.
  induction rs as [|r rs IH]; [by rewrite pairs_nil_r |].
  rewrite pairs_cons_r, map_app. change (r :: rs) with ([r] ++ rs).
  rewrite pairs_app_l. apply Permutation_app; [| done].
  unfold pairs, pairs_of. cbn. rewrite app_nil_r, map_map. done.
Qed.

(** Exchanging the operands of a multiset intersection. *)
Section MultisetIntersection.
Context {A : Type} `{EqDecision A}.
Definition same_value (a b : A) : bool := bool_decide (a = b).

Lemma consume_Some (l : A) rs rs' : consume same_value l rs = Some rs' -> rs ≡ₚ l :: rs'.
Proof.
  revert rs'. induction rs as [|r rs IH]; intros rs'; cbn; [done |]. unfold same_value at 1.
  case_bool_decide as E; [intros [= <-]; by subst |].
  destruct (consume same_value l rs) as [rs''|]; [| done]. intros [= <-].
  rewrite (IH rs'') by done. apply Permutation_swap.
Qed.

Lemma consume_None (l : A) rs : consume same_value l rs = None <-> l ∉ rs.
Proof.
  induction rs as [|r rs IH]; cbn; [set_solver |]. unfold same_value at 1.
  case_bool_decide as E; [set_solver |].
  destruct (consume same_value l rs) eqn:Ec; cbn.
  - split; [done |]. intros Hn. enough (Some l0 = None) by done. apply IH. set_solver.
  - split; [| done]. intros _. apply not_elem_of_cons. split; [done |]. by apply IH.
Qed.

Fixpoint count (x : A) (l : list A) : nat :=
  match l with [] => 0 | y :: l => (if decide (x = y) then 1 else 0) + count x l end.

Lemma count_Permutation l l' : l ≡ₚ l' <-> forall x, count x l = count x l'.
Proof.
  split.
  - intros H x. induction H; cbn; try lia.
  - revert l'. induction l as [|a l IH]; intros l' H.
    + destruct l' as [|b l']; [done |]. specialize (H b). cbn in H.
      rewrite decide_True in H by done. lia.
    + assert (Ha : a ∈ l').
      { specialize (H a). cbn in H. rewrite decide_True in H by done.
        clear -H. induction l' as [|b l' IH]; cbn in H; [lia |].
        destruct (decide (a = b)) as [->|]; [left | right; auto]. }
      apply elem_of_Permutation in Ha as [l'' Hp]. rewrite Hp.
      constructor. apply IH. intros x. specialize (H x).
      assert (Hc : count x l' = count x (a :: l'')).
      { clear -Hp. induction Hp; cbn; try lia. }
      rewrite Hc in H. cbn in H. lia.
Qed.

(** The counting semi join keeps [min] and the counting anti join drops it. *)
Lemma count_counting keep ls rs x :
  count x (counting same_value keep ls rs) =
  if keep then Nat.min (count x ls) (count x rs) else count x ls - count x rs.
Proof.
  revert rs. induction ls as [|l ls IH]; intros rs; [by destruct keep |].
  cbn [counting]. destruct (consume same_value l rs) as [rs'|] eqn:E.
  - apply consume_Some in E. rewrite count_Permutation in E. specialize (E x).
    cbn [count] in E. destruct keep; cbn [app count]; rewrite IH, E; destruct (decide (x = l)); lia.
  - apply consume_None in E.
    assert (Hx : x = l -> count x rs = 0).
    { intros ->. clear -E. induction rs as [|r rs IH]; [done |]. cbn.
      rewrite not_elem_of_cons in E. rewrite decide_False by tauto. rewrite IH; tauto. }
    destruct keep; cbn [app count]; rewrite IH; destruct (decide (x = l)); try lia;
      rewrite Hx by done; lia.
Qed.
End MultisetIntersection.

(** ** Exchanging a join's inputs *)

Lemma swap_left_map {L R} (ls : list L) :
  map swap_row (map (row_of_left (R := R)) ls) = map row_of_right ls.
Proof. by rewrite map_map. Qed.
Lemma swap_right_map {L R} (rs : list R) :
  map swap_row (map (row_of_right (L := L)) rs) = map row_of_left rs.
Proof. by rewrite map_map. Qed.

Lemma join_rows_swap t t' : swapType t = Ok t' -> t <> kCountingLeftSemiFilter ->
  forall L R (matches : L -> R -> bool) ls rs,
    join_rows t' (fun r l => matches l r) rs ls ≡ₚ map swap_row (join_rows t matches ls rs).
Proof.
  intros Hswap Hc L R matches ls rs.
  destruct t; simplify_eq/=; rewrite ?map_app, ?swap_left_map, ?swap_right_map;
    try (rewrite (pairs_swap matches)); try done.
  all: first [solve_Permutation | by rewrite map_map].
Qed.

(** Where [Join::swapType] has an answer, the join of that type over the
    exchanged inputs emits the rows of the original with their two sides
    exchanged; the counting semi join, which it leaves as it is, emits the same
    multiset of values when matching is equality of rows.  It is an
    involution, defined on every type [canSwapInputs] admits. *)
Theorem swapType_exchanges_inputs (t t' : JoinType) (Hswap : swapType t = Ok t') :
  swapType t' = Ok t /\
  (t <> kCountingLeftSemiFilter -> forall L R (matches : L -> R -> bool) ls rs,
     join_rows t' (fun r l => matches l r) rs ls ≡ₚ map swap_row (join_rows t matches ls rs)) /\
  (t = kCountingLeftSemiFilter -> forall A (dec : EqDecision A) (ls rs : list A),
     map row_left (join_rows t' same_value rs ls) ≡ₚ map row_left (join_rows t same_value ls rs)).
Proof.
  split; [destruct t; simplify_eq/=; done |]. split.
  - intros Hc. by apply join_rows_swap.
  - intros -> A dec ls rs. simplify_eq/=. rewrite !map_map.
    apply Permutation_map, count_Permutation. intros x. rewrite !count_counting. apply Nat.min_comm.
Qed.

Lemma swapType_exchanges_inputs_witness :
  swapType kRight = Ok kLeft /\
  join_rows kRight (fun r l => l =? r)%nat [2; 4] [1; 2] ≡ₚ
  map swap_row (join_rows kLeft (fun l r => l =? r)%nat [1; 2] [2; 4]).
Proof.
  destruct (swapType_exchanges_inputs kLeft kRight eq_refl) as (H & Hrows & _).
  split; [exact H | by apply (Hrows ltac:(done) nat nat (fun l r => l =? r))].
Defined.

(** ** Replicating one input *)

Lemma join_rows_length_refute {L R} t (matches : L -> R -> bool) ls1 ls2 rs :
  length (join_rows t matches (ls1 ++ ls2) rs) <>
  length (join_rows t matches ls1 rs ++ join_rows t matches ls2 rs) ->
  ~ (join_rows t matches (ls1 ++ ls2) rs ≡ₚ join_rows t matches ls1 rs ++ join_rows t matches ls2 rs).
Proof. intros Hn Hp. by apply Hn, Permutation_length. Qed.

(** C33: [Join::canBroadcastBuild] accepts exactly the join types for which
    splitting the left rows over workers and giving each worker all the right
    rows emits, over all workers together, the rows of the undivided join. *)
Theorem canBroadcastBuild_exact (t : JoinType) (Ht : t <> kNumJoinTypes) :
  canBroadcastBuild t = true <->
  forall L R (matches : L -> R -> bool) ls1 ls2 rs,
    join_rows t matches (ls1 ++ ls2) rs ≡ₚ
    join_rows t matches ls1 rs ++ join_rows t matches ls2 rs.
Proof.
  split.
  - intros Hb L R matches ls1 ls2 rs. destruct t; try discriminate Hb; cbn [join_rows];
      unfold matched, unmatched;
      rewrite ?pairs_app_l, ?List.filter_app, ?map_app; solve_Permutation.
  - intros H. destruct t; try done; exfalso; try (apply Ht; reflexivity).
    all: pose proof (H unit unit (fun _ _ => true) [] [] [()]) as H1.
    all: pose proof (H unit unit (fun _ _ => true) [()] [()] [()]) as H2.
    all: apply Permutation_length in H1, H2; cbn in H1, H2; lia.
Qed.

Lemma canBroadcastBuild_exact_witness :
  kRightSemiFilter <> kNumJoinTypes /\
  ~ (forall L R (matches : L -> R -> bool) ls1 ls2 rs,
       join_rows kRightSemiFilter matches (ls1 ++ ls2) rs ≡ₚ
       join_rows kRightSemiFilter matches ls1 rs ++ join_rows kRightSemiFilter matches ls2 rs).
Proof.
  split; [done |]. intros H.
  pose proof (proj2 (canBroadcastBuild_exact kRightSemiFilter ltac:(done)) H) as E. discriminate E.
Defined.

(** [Join::canBroadcastProbe] is the mirror: it accepts exactly the join
    types for which splitting the right rows and replicating the left ones
    preserves the result. *)
Theorem canBroadcastProbe_exact (t : JoinType) (Ht : t <> kNumJoinTypes) :
  canBroadcastProbe t = true <->
  forall L R (matches : L -> R -> bool) ls rs1 rs2,
    join_rows t matches ls (rs1 ++ rs2) ≡ₚ
    join_rows t matches ls rs1 ++ join_rows t matches ls rs2.
Proof.
  split.
  - intros Hb L R matches ls rs1 rs2. destruct t; try discriminate Hb; cbn [join_rows];
      unfold matched, unmatched;
      rewrite ?pairs_app_r, ?List.filter_app, ?map_app; solve_Permutation.
  - intros H. destruct t; try done; exfalso; try (apply Ht; reflexivity).
    all: pose proof (H unit unit (fun _ _ => true) [()] [] []) as H1.
    all: pose proof (H unit unit (fun _ _ => true) [()] [()] [()]) as H2.
    all: pose proof (H unit unit (fun _ _ => true) [(); ()] [()] [()]) as H3.
    all: apply Permutation_length in H1, H2, H3; cbn in H1, H2, H3; lia.
Qed.

Lemma canBroadcastProbe_exact_witness :
  kRight <> kNumJoinTypes /\
  join_rows kRight (fun l r => l =? r)%nat [1; 2] ([2] ++ [3]) ≡ₚ
  join_rows kRight (fun l r => l =? r)%nat [1; 2] [2] ++
  join_rows kRight (fun l r => l =? r)%nat [1; 2] [3].
Proof.
  split; [done |].
  apply (proj1 (canBroadcastProbe_exact kRight ltac:(done)) eq_refl nat nat (fun l r => l =? r)).
Defined.

(** ** Preserved and empty inputs *)

(** [Join::preservedSides] names exactly the inputs whose rows reach the
    output unchanged: a side is set if and only if every row the join can ever
    emit carries a row of that input (none null-extended, none invented). *)
Theorem preservedSides_exact (t : JoinType) (s : Sides) (Hs : preservedSides t = Ok s) :
  (left_ s = true <->
     forall L R (matches : L -> R -> bool) ls rs row, row ∈ join_rows t matches ls rs ->
       exists l, row_left row = Some l /\ l ∈ ls) /\
  (right_ s = true <->
     forall L R (matches : L -> R -> bool) ls rs row, row ∈ join_rows t matches ls rs ->
       exists r, row_right row = Some r /\ r ∈ rs).
Proof.
  assert (Hpairs : forall L R (matches : L -> R -> bool) ls rs row, row ∈ pairs matches ls rs ->
    exists l r, row = pair_row l r /\ l ∈ ls /\ r ∈ rs).
  { intros L R matches ls rs row. unfold pairs, pairs_of.
    rewrite list_elem_of_In, in_flat_map. intros (l & Hl & Hrow).
    apply in_map_iff in Hrow as (r & <- & Hr). apply filter_In in Hr as [Hr _].
    exists l, r. by rewrite !list_elem_of_In. }
  split; (split; [intros Hside L R matches ls rs row Hrow
    | intros H; pose proof (H unit unit (fun _ _ => false) [()] [()]) as H1;
      pose proof (H unit unit (fun _ _ => true) [()] [()]) as H2;
      destruct t; simplify_eq/=; try done; exfalso;
      first [ destruct (H1 (row_of_left ()) ltac:(set_solver)) as (x & Hx & _); discriminate Hx
            | destruct (H1 (row_of_right ()) ltac:(set_solver)) as (x & Hx & _); discriminate Hx
            | destruct (H2 (row_of_left ()) ltac:(set_solver)) as (x & Hx & _); discriminate Hx
            | destruct (H2 (row_of_right ()) ltac:(set_solver)) as (x & Hx & _); discriminate Hx
            | idtac ] ]).
  all: try (destruct t; simplify_eq/=; rewrite ?elem_of_app in Hrow;
    repeat match goal with H : _ \/ _ |- _ => destruct H as [Hrow|Hrow] end;
    try (apply Hpairs in Hrow as (l & r & -> & Hl & Hr); eauto; fail);
    apply list_elem_of_In, in_map_iff in Hrow as (x & <- & Hx); exists x; split; try done;
    rewrite list_elem_of_In;
    first [apply filter_In in Hx; tauto | done
          | by eapply list_elem_of_In, elem_of_submseteq, counting_submseteq; apply list_elem_of_In]).
Qed.

Lemma preservedSides_exact_witness :
  preservedSides kLeft = Ok (mkSides true false) /\
  exists l, row_left (pair_row 3 4) = Some l /\ l ∈ [3].
Proof.
  split; [done |].
  refine (proj1 (proj1 (preservedSides_exact kLeft _ eq_refl)) eq_refl nat nat
            (fun _ _ => true) [3] [4] (pair_row 3 4) _).
  vm_compute. left.
Defined.

(** [Join::isKnownEmpty] is exact: given which inputs are known to be
    empty, it answers true if and only if the join emits no row whatever the
    other rows and the predicate are. *)
Theorem isKnownEmpty_exact (t : JoinType) (leftEmpty rightEmpty b : bool)
    (Hb : isKnownEmpty t leftEmpty rightEmpty = Ok b) :
  b = true <->
  forall L R (matches : L -> R -> bool) ls rs,
    (leftEmpty = true -> ls = []) -> (rightEmpty = true -> rs = []) ->
    join_rows t matches ls rs = [].
Proof.
  split.
  - intros -> L R matches ls rs Hl Hr.
    destruct t, leftEmpty, rightEmpty; simplify_eq/=;
      rewrite ?(Hl eq_refl), ?(Hr eq_refl); cbn;
      rewrite ?pairs_nil_r, ?matched_nil_r, ?counting_nil_r; done.
  - intros H.
    pose (ls := if leftEmpty then [] else [()]). pose (rs := if rightEmpty then [] else [()]).
    pose proof (fun m => H unit unit m ls rs ltac:(unfold ls; intros ->; done)
                           ltac:(unfold rs; intros ->; done)) as H1.
    pose proof (H1 (fun _ _ => true)) as Ht. pose proof (H1 (fun _ _ => false)) as Hf.
    destruct t, leftEmpty, rightEmpty; simplify_eq/=; done.
Qed.

Lemma isKnownEmpty_exact_witness :
  isKnownEmpty kAnti true false = Ok true /\
  join_rows kAnti Nat.eqb [] [1; 2] = [].
Proof.
  split; [done |].
  exact (proj1 (isKnownEmpty_exact kAnti true false true eq_refl) eq_refl nat nat Nat.eqb [] [1; 2]
           ltac:(done) ltac:(done)).
Defined.

(** A join exchanged by [Join::Key::swapInputs] emits the same rows; the
    exchange never fails on a type [canSwapInputs] admits, and undoing it gives
    the key back. *)
Theorem swapInputs_preserves_output (key : JoinKey) :
  (canSwapInputs (key_joinType key) = true <-> exists key', swapInputs key = Ok key') /\
  forall key', swapInputs key = Ok key' ->
    swapInputs key' = Ok key /\
    (key_left key', key_right key', key_leftKeys key', key_rightKeys key', key_filter key') =
      (key_right key, key_left key, key_rightKeys key, key_leftKeys key, key_filter key) /\
    forall L R (matches : L -> R -> bool) ls rs,
      join_rows (key_joinType key') (fun r l => matches l r) rs ls ≡ₚ
      map swap_row (join_rows (key_joinType key) matches ls rs).
Proof.
  destruct key as [l r t lk rk f]. unfold swapInputs; cbn. split.
  - destruct t; cbn; split; intros H; try done; try (by eexists); by destruct H.
  - intros key' H. assert (Hswap : swapType t = Ok (key_joinType key')).
    { destruct t; try discriminate H; by injection H as <-. }
    destruct t; try discriminate H; injection H as <-; (split_conj; [done | done |]);
      by apply join_rows_swap.
Qed.

(** [Join::preservesSource] *)
Definition preservesSource {VB : VeloxBits} (joinType : JoinType) (source : ColumnCP)
    (leftColumns rightColumns : BitSet) : Result bool :=
  preservedSides joinType ≫= fun preserved =>
  Ok ((left_ preserved && BitSet.contains leftColumns source) ||
      (right_ preserved && BitSet.contains rightColumns source)).

(** At most one input is loop-invariant; it is the one that reads no loop
    state while the other does, and the join is then an inner join with keys
    under which NULL keys do not match. *)
Theorem loopInvariantSide_spec (t : JoinType) (hasKeys nullAsValue : bool) (readsState : Sides) :
  let side := loopInvariantSide t hasKeys nullAsValue readsState in
  (left_ side = true <-> t = kInner /\ hasKeys = true /\ nullAsValue = false /\
     left_ readsState = false /\ right_ readsState = true) /\
  (right_ side = true <-> t = kInner /\ hasKeys = true /\ nullAsValue = false /\
     left_ readsState = true /\ right_ readsState = false).
Proof.
  destruct readsState as [l r].
  destruct t, hasKeys, nullAsValue, l, r; vm_compute; intuition congruence.
Qed.

(** ** Joining by parts *)

(** When matching rows lie in corresponding parts, a join of any type is the
    union of the joins of the parts. *)
Section Parts.
Context {L R : Type} (matches : L -> R -> bool) (p : L -> bool) (q : R -> bool).
Context (Hparts : forall l r, matches l r = true -> p l = q r).
Let np l := negb (p l).
Let nq r := negb (q r).

Lemma filter_split {A} (f : A -> bool) (l : list A) :
  List.filter f l ++ List.filter (fun x => negb (f x)) l ≡ₚ l.
Proof.
  induction l as [|x l IH]; cbn; [done |]. destruct (f x); cbn; [by rewrite IH |].
  rewrite <- Permutation_middle. by rewrite IH.
Qed.

Lemma filter_filter {A} (f h : A -> bool) (l : list A) :
  List.filter f (List.filter h l) = List.filter (fun x => f x && h x) l.
Proof.
  induction l as [|x l IH]; cbn; [done |].
  destruct (h x); cbn; destruct (f x); cbn; by rewrite IH.
Qed.

Lemma filter_ext_all {A} (f h : A -> bool) (l : list A) :
  (forall x, f x = h x) -> List.filter f l = List.filter h l.
Proof. intros Hfh. apply List.filter_ext. done. Qed.

Lemma has_match_part (b : bool) rs l : p l = b ->
  has_match matches (List.filter (fun r => Bool.eqb (q r) b) rs) l = has_match matches rs l.
Proof.
  intros Hl. unfold has_match in *. induction rs as [|r rs IH]; cbn; [done |].
  destruct (Bool.eqb (q r) b) eqn:E; cbn; rewrite IH; [done |].
  destruct (matches l r) eqn:Em; [| done]. apply Hparts in Em.
  rewrite <- Em, Hl, eqb_reflx in E. done.
Qed.

Lemma has_match_p rs l : p l = true ->
  has_match matches (List.filter q rs) l = has_match matches rs l.
Proof.
  intros Hl. rewrite <- (has_match_part true rs l Hl).
  apply (f_equal (fun rs => has_match matches rs l)),  filter_ext_all. intros x. by destruct (q x).
Qed.

Lemma has_match_np rs l : p l = false ->
  has_match matches (List.filter nq rs) l = has_match matches rs l.
Proof.
  intros Hl. rewrite <- (has_match_part false rs l Hl).
  apply (f_equal (fun rs => has_match matches rs l)), filter_ext_all.
  intros x. unfold nq. by destruct (q x).
Qed.

Lemma matched_parts (f : bool -> bool) ls rs :
  List.filter (fun l => f (has_match matches (List.filter q rs) l)) (List.filter p ls) ++
  List.filter (fun l => f (has_match matches (List.filter nq rs) l)) (List.filter np ls)
  ≡ₚ List.filter (fun l => f (has_match matches rs l)) ls.
Proof.
  induction ls as [|l ls IH]; cbn [List.filter]; [done |].
  unfold np at 1. destruct (p l) eqn:E; cbn [List.filter negb].
  - rewrite has_match_p by done. by destruct (f _); cbn; rewrite IH.
  - rewrite has_match_np by done. by destruct (f _); cbn; rewrite <- ?Permutation_middle, IH.
Qed.

Lemma matched_split ls rs :
  matched matches (List.filter p ls) (List.filter q rs) ++
  matched matches (List.filter np ls) (List.filter nq rs) ≡ₚ matched matches ls rs.
Proof. exact (matched_parts (fun b => b) ls rs). Qed.

Lemma unmatched_split ls rs :
  unmatched matches (List.filter p ls) (List.filter q rs) ++
  unmatched matches (List.filter np ls) (List.filter nq rs) ≡ₚ unmatched matches ls rs.
Proof. exact (matched_parts negb ls rs). Qed.

Lemma matches_filter_p rs l : p l = true ->
  List.filter (matches l) (List.filter q rs) = List.filter (matches l) rs.
Proof.
  intros Hl. rewrite filter_filter. apply filter_ext_all. intros r.
  destruct (matches l r) eqn:Em; [| done]. apply Hparts in Em. by rewrite <- Em, Hl.
Qed.

Lemma matches_filter_np rs l : p l = false ->
  List.filter (matches l) (List.filter nq rs) = List.filter (matches l) rs.
Proof.
  intros Hl. rewrite filter_filter. apply filter_ext_all. intros r.
  destruct (matches l r) eqn:Em; [| done]. apply Hparts in Em. unfold nq. by rewrite <- Em, Hl.
Qed.

Lemma pairs_split ls rs :
  pairs matches (List.filter p ls) (List.filter q rs) ++
  pairs matches (List.filter np ls) (List.filter nq rs) ≡ₚ pairs matches ls rs.
Proof.
  unfold pairs, pairs_of. induction ls as [|l ls IH]; cbn; [done |].
  unfold np at 1. destruct (p l) eqn:E; cbn.
  - rewrite matches_filter_p by done. by rewrite <- app_assoc, IH.
  - rewrite matches_filter_np by done. rewrite <- IH. solve_Permutation.
Qed.

Lemma consume_part (b : bool) rs l : p l = b ->
  let part := List.filter (fun r => Bool.eqb (q r) b) in
  let rest := List.filter (fun r => negb (Bool.eqb (q r) b)) in
  match consume matches l rs with
  | Some rs' => consume matches l (part rs) = Some (part rs') /\ rest rs = rest rs'
  | None => consume matches l (part rs) = None
  end.
Proof.
  intros Hl part rest.
  assert (Hrest : forall r l', rest (r :: l') = if Bool.eqb (q r) b then rest l' else r :: rest l')
    by (intros r l'; unfold rest; cbn; by destruct (Bool.eqb (q r) b)).
  assert (Hpart : forall r l', part (r :: l') = if Bool.eqb (q r) b then r :: part l' else part l')
    by done.
  assert (Hnil : part [] = []) by done. clearbody part rest.
  induction rs as [|r rs IH]; cbn [consume]; [by rewrite Hnil |].
  rewrite Hpart. destruct (matches l r) eqn:Em.
  - rewrite Hrest. rewrite <- (Hparts _ _ Em), Hl, eqb_reflx. cbn. by rewrite Em.
  - destruct (consume matches l rs) as [rs'|]; cbn.
    + destruct IH as [IH1 IH2]. rewrite !Hrest, Hpart, IH2.
      destruct (Bool.eqb (q r) b); cbn; rewrite ?Em, IH1; done.
    + destruct (Bool.eqb (q r) b); cbn; rewrite ?Em, IH; done.
Qed.

Lemma counting_split keep ls rs :
  counting matches keep (List.filter p ls) (List.filter q rs) ++
  counting matches keep (List.filter np ls) (List.filter nq rs) ≡ₚ counting matches keep ls rs.
Proof.
  assert (Hq : forall l, List.filter (fun r => Bool.eqb (q r) true) l = List.filter q l)
    by (intros l; apply filter_ext_all; intros x; by destruct (q x)).
  assert (Hq' : forall l, List.filter (fun r => Bool.eqb (q r) false) l = List.filter nq l)
    by (intros l; apply filter_ext_all; intros x; unfold nq; by destruct (q x)).
  assert (Hn : forall l, List.filter (fun r => negb (Bool.eqb (q r) true)) l = List.filter nq l)
    by (intros l; apply filter_ext_all; intros x; unfold nq; by destruct (q x)).
  assert (Hn' : forall l, List.filter (fun r => negb (Bool.eqb (q r) false)) l = List.filter q l)
    by (intros l; apply filter_ext_all; intros x; by destruct (q x)).
  revert rs. induction ls as [|l ls IH]; intros rs; cbn [List.filter counting]; [done |].
  unfold np at 1. destruct (p l) eqn:E; cbn [negb counting].
  - pose proof (consume_part true rs l E) as H. cbn zeta in H.
    destruct (consume matches l rs) as [rs'|].
    + rewrite !Hq, !Hn in H. destruct H as [-> ->]. rewrite <- IH. destruct keep; done.
    + rewrite Hq in H. rewrite H, <- IH. destruct keep; done.
  - pose proof (consume_part false rs l E) as H. cbn zeta in H.
    destruct (consume matches l rs) as [rs'|].
    + rewrite !Hq', !Hn' in H. destruct H as [-> ->]. rewrite <- IH. destruct keep; solve_Permutation.
    + rewrite Hq' in H. rewrite H, <- IH. destruct keep; solve_Permutation.
Qed.
End Parts.

Lemma join_rows_split {L R} t (matches : L -> R -> bool) (p : L -> bool) (q : R -> bool) ls rs :
  (forall l r, matches l r = true -> p l = q r) ->
  join_rows t matches (List.filter p ls) (List.filter q rs) ++
  join_rows t matches (List.filter (fun l => negb (p l)) ls) (List.filter (fun r => negb (q r)) rs)
  ≡ₚ join_rows t matches ls rs.
Proof.
  intros H.
  assert (Hf : forall r l, matches l r = true -> q r = p l) by (intros; symmetry; auto).
  pose proof (pairs_split matches p q H ls rs) as Hp.
  pose proof (unmatched_split matches p q H ls rs) as Hu.
  pose proof (matched_split matches p q H ls rs) as Hm.
  pose proof (unmatched_split (fun r l => matches l r) q p Hf rs ls) as Hu'.
  pose proof (matched_split (fun r l => matches l r) q p Hf rs ls) as Hm'.
  pose proof (fun k => counting_split matches p q H k ls rs) as Hc.
  destruct t; cbn [join_rows]; rewrite <- ?Hp, <- ?Hu, <- ?Hm, <- ?Hu', <- ?Hm', <- ?Hc, ?map_app;
    try solve_Permutation.
  - rewrite <- (filter_split p ls) at 3. rewrite map_app. apply Permutation_app; apply Permutation_refl'.
    + apply map_ext_in. intros l [_ Hl]%filter_In. unfold marked. by rewrite has_match_p with (p := p).
    + apply map_ext_in. intros l [_ Hl%negb_true_iff]%filter_In. unfold marked.
      by rewrite (has_match_np matches p q).
  - rewrite <- (filter_split q rs) at 3. rewrite map_app. apply Permutation_app; apply Permutation_refl'.
    + apply map_ext_in. intros r [_ Hr]%filter_In. cbn. unfold marked.
      by rewrite (has_match_p _ q p Hf).
    + apply map_ext_in. intros r [_ Hr%negb_true_iff]%filter_In. cbn. unfold marked.
      by rewrite (has_match_np _ q p Hf).
Qed.

(** The join as [numTasks] tasks run it: task [i] joins the rows placed on it. *)
Definition join_over_tasks {L R} (numTasks : nat) (left_task : L -> nat) (right_task : R -> nat)
    (t : JoinType) (matches : L -> R -> bool) (ls : list L) (rs : list R) : list (Row L R) :=
  flat_map (fun i => join_rows t matches (List.filter (fun l => left_task l =? i) ls)
                       (List.filter (fun r => right_task r =? i) rs)) (seq 0 numTasks).

Lemma filter_all {A} (f : A -> bool) (l : list A) : (forall x, x ∈ l -> f x = true) -> List.filter f l = l.
Proof.
  induction l as [|x l IH]; intros H; cbn; [done |]. rewrite H by left. f_equal. apply IH.
  intros y Hy. apply H. by right.
Qed.

Lemma filter_below {A} (task : A -> nat) n (l : list A) :
  List.filter (fun x => task x <? n) (List.filter (fun x => task x <? S n) l) =
    List.filter (fun x => task x <? n) l /\
  List.filter (fun x => negb (task x <? n)) (List.filter (fun x => task x <? S n) l) =
    List.filter (fun x => task x =? n) l.
Proof.
  rewrite !filter_filter. split; apply filter_ext_all; intros x;
    destruct (Nat.ltb_spec (task x) n), (Nat.ltb_spec (task x) (S n)), (Nat.eqb_spec (task x) n);
    cbn; lia.
Qed.

Lemma join_over_tasks_complete {L R} n (tl : L -> nat) (tr : R -> nat) t matches ls rs :
  (forall l r, matches l r = true -> tl l = tr r) ->
  (forall l, l ∈ ls -> tl l < n) -> (forall r, r ∈ rs -> tr r < n) ->
  join_over_tasks n tl tr t matches ls rs ≡ₚ join_rows t matches ls rs.
Proof.
  intros Hm Hl Hr.
  rewrite <- (filter_all (fun l => tl l <? n) ls) at 2
    by (intros x Hx; apply Nat.ltb_lt; auto).
  rewrite <- (filter_all (fun r => tr r <? n) rs) at 2
    by (intros x Hx; apply Nat.ltb_lt; auto).
  clear Hl Hr. unfold join_over_tasks. induction n as [|n IH].
  - cbn. assert (Hnil : forall A (l : list A), List.filter (fun _ => false) l = []) by (by intros A; induction l).
    rewrite !Hnil. by destruct t.
  - rewrite seq_S, flat_map_app, IH. cbn [flat_map plus]. rewrite app_nil_r.
    destruct (filter_below tl n ls) as [<- Hl], (filter_below tr n rs) as [<- Hr].
    rewrite <- Hl at 1. rewrite <- Hr at 1. apply join_rows_split.
    intros l r E. by rewrite (Hm _ _ E).
Qed.
