(* ===== verification/AlgebraicProperties.v ===== *)
(** * Which joins may be reordered

    [axiom/optimizer/v2/AlgebraicProperties.cpp]: the table of the equivalences between
    trees of two joins.

    An equivalence is judged on rows: both trees, for all inputs and predicates, give the
    same rows, each as often.  Predicates see rows of one operand each side, padded ones
    included, and may accept a padded row.  A projected mark is part of the row.

    The theorems: [derive] gives exactly the equivalences that hold - for the counting
    semijoin, some of them - and throws for exactly the types that are not in left form. *)

From Stdlib Require Import Lia.
From S2P Require Import Prelude Joins.

Local Open Scope nat_scope.

Module AlgebraicProperties.
Record Properties := mk { associative : bool; leftAsscom : bool; rightAsscom : bool }.

(** [kInner], [kLeft], [kFull], semijoin, antijoin, counting semijoin; [VELOX_NYI] for the
    others. *)
Definition kindIndex (type : JoinType) : Result nat :=
  match type with
  | kInner => Ok 0
  | kLeft => Ok 1
  | kFull => Ok 2
  | kLeftSemiFilter | kLeftSemiProject => Ok 3
  | kAnti => Ok 4
  | kCountingLeftSemiFilter => Ok 5
  | _ => Throw (VeloxCheck "Algebraic properties not defined for join type: {}")
  end.

(** Indexed [child][parent]. *)
Definition kTable : list (list Properties) :=
  [ (* child = kInner *)
    [ mk true true true; mk true true false; mk false false false; mk true true false;
      mk true true false; mk false false false ];
    (* child = kLeft *)
    [ mk false true false; mk false true false; mk false false false; mk false true false;
      mk false true false; mk false false false ];
    (* child = kFull *)
    [ mk false false false; mk false false false; mk false false false; mk false false false;
      mk false false false; mk false false false ];
    (* child = semijoin *)
    [ mk false true false; mk false true false; mk false false false; mk false true false;
      mk false true false; mk false false false ];
    (* child = antijoin *)
    [ mk false true false; mk false true false; mk false false false; mk false true false;
      mk false true false; mk false false false ];
    (* child = counting semijoin *)
    [ mk false false false; mk false false false; mk false false false; mk false false false;
      mk false false false; mk false false false ] ].

(** An index past the table does not occur. *)
Definition derive (child parent : JoinType) : Result Properties :=
  i ← kindIndex child;
  j ← kindIndex parent;
  match kTable !! i with
  | Some row => match row !! j with Some props => Ok props | None => Throw (VeloxUnreachable "") end
  | None => Throw (VeloxUnreachable "")
  end.
End AlgebraicProperties.

(** ** The equivalences *)

(** The rows of a tree of two joins: those of the operands, and the marks of the joins. *)
Definition Row3 (A B C : Type) : Type :=
  option A * option B * option C * option bool * option bool.

Section Trees.
Context {A B C : Type}.

(** A row of [(A x1 B) x2 C], of [A x1 (B x2 C)], of [(A x2 C) x1 B], of [B x2 (A x1 C)]. *)
Definition row_ab_c (row : Joins.Row (Joins.Row A B) C) : Row3 A B C :=
  let ab := row_left row in
  (ab ≫= row_left, ab ≫= row_right, row_right row, ab ≫= snd, row.2).
Definition row_a_bc (row : Joins.Row A (Joins.Row B C)) : Row3 A B C :=
  let bc := row_right row in
  (row_left row, bc ≫= row_left, bc ≫= row_right, row.2, bc ≫= snd).
Definition row_ac_b (row : Joins.Row (Joins.Row A C) B) : Row3 A B C :=
  let ac := row_left row in
  (ac ≫= row_left, row_right row, ac ≫= row_right, row.2, ac ≫= snd).
Definition row_b_ac (row : Joins.Row B (Joins.Row A C)) : Row3 A B C :=
  let ac := row_right row in
  (ac ≫= row_left, row_left row, ac ≫= row_right, ac ≫= snd, row.2).

Context (x1 x2 : JoinType).

Definition ab_c (p12 : option A -> option B -> bool) (p23 : option B -> option C -> bool) xs ys zs :
    list (Row3 A B C) :=
  map row_ab_c (join_rows x2 (fun ab c => p23 (row_right ab) (Some c))
    (join_rows x1 (fun a b => p12 (Some a) (Some b)) xs ys) zs).

Definition a_bc (p12 : option A -> option B -> bool) (p23 : option B -> option C -> bool) xs ys zs :
    list (Row3 A B C) :=
  map row_a_bc (join_rows x1 (fun a bc => p12 (Some a) (row_left bc)) xs
    (join_rows x2 (fun b c => p23 (Some b) (Some c)) ys zs)).

Definition ab_c_13 (p12 : option A -> option B -> bool) (p13 : option A -> option C -> bool) xs ys zs :
    list (Row3 A B C) :=
  map row_ab_c (join_rows x2 (fun ab c => p13 (row_left ab) (Some c))
    (join_rows x1 (fun a b => p12 (Some a) (Some b)) xs ys) zs).

Definition ac_b (p12 : option A -> option B -> bool) (p13 : option A -> option C -> bool) xs ys zs :
    list (Row3 A B C) :=
  map row_ac_b (join_rows x1 (fun ac b => p12 (row_left ac) (Some b))
    (join_rows x2 (fun a c => p13 (Some a) (Some c)) xs zs) ys).

Definition a_bc_13 (p13 : option A -> option C -> bool) (p23 : option B -> option C -> bool) xs ys zs :
    list (Row3 A B C) :=
  map row_a_bc (join_rows x1 (fun a bc => p13 (Some a) (row_right bc)) xs
    (join_rows x2 (fun b c => p23 (Some b) (Some c)) ys zs)).

Definition b_ac (p13 : option A -> option C -> bool) (p23 : option B -> option C -> bool) xs ys zs :
    list (Row3 A B C) :=
  map row_b_ac (join_rows x2 (fun b ac => p23 (Some b) (row_right ac)) ys
    (join_rows x1 (fun a c => p13 (Some a) (Some c)) xs zs)).
End Trees.

(** [(A x1 B) x2 C == A x1 (B x2 C)] *)
Definition associates (x1 x2 : JoinType) : Prop :=
  forall A B C p12 p23 (xs : list A) (ys : list B) (zs : list C),
    ab_c x1 x2 p12 p23 xs ys zs ≡ₚ a_bc x1 x2 p12 p23 xs ys zs.

(** [(A x1 B) x2 C == (A x2 C) x1 B] *)
Definition left_asscommutes (x1 x2 : JoinType) : Prop :=
  forall A B C p12 p13 (xs : list A) (ys : list B) (zs : list C),
    ab_c_13 x1 x2 p12 p13 xs ys zs ≡ₚ ac_b x1 x2 p12 p13 xs ys zs.

(** [A x1 (B x2 C) == B x2 (A x1 C)] *)
Definition right_asscommutes (x1 x2 : JoinType) : Prop :=
  forall A B C p13 p23 (xs : list A) (ys : list B) (zs : list C),
    a_bc_13 x1 x2 p13 p23 xs ys zs ≡ₚ b_ac x1 x2 p13 p23 xs ys zs.

(** ** Lists *)


Lemma flat_map_nested {A B C} (f : B -> list C) (g : A -> list B) l :
  flat_map f (flat_map g l) = flat_map (fun x => flat_map f (g x)) l.
Proof. induction l as [|x l IH]; [done|]. simpl. by rewrite flat_map_app, IH. Qed.

Lemma flat_map_of_map {A B C} (f : B -> list C) (g : A -> B) l : flat_map f (map g l) = flat_map (fun x => f (g x)) l.
Proof. induction l as [|x l IH]; [done|]. simpl. by rewrite IH. Qed.

Lemma map_of_flat_map {A B C} (f : B -> C) (g : A -> list B) l : map f (flat_map g l) = flat_map (fun x => map f (g x)) l.
Proof. induction l as [|x l IH]; [done|]. simpl. by rewrite map_app, IH. Qed.

Lemma flat_map_each {A B} (f g : A -> list B) l : (forall x, f x ≡ₚ g x) -> flat_map f l ≡ₚ flat_map g l.
Proof. intros Hfg. induction l as [|x l IH]; [done|]. simpl. by rewrite Hfg, IH. Qed.

Lemma flat_map_split {A B} (f g : A -> list B) l :
  flat_map (fun x => f x ++ g x) l ≡ₚ flat_map f l ++ flat_map g l.
Proof. induction l as [|x l IH]; [done|]. simpl. rewrite IH. solve_Permutation. Qed.

Lemma flat_map_swap {A B C} (f : A -> B -> list C) l k :
  flat_map (fun x => flat_map (f x) k) l ≡ₚ flat_map (fun y => flat_map (fun x => f x y) l) k.
Proof.
  induction l as [|x l IH]; simpl; [by induction k|]. rewrite IH. by rewrite flat_map_split.
Qed.

Lemma filter_of_flat_map {A B} (q : B -> bool) (g : A -> list B) l :
  List.filter q (flat_map g l) = flat_map (fun x => List.filter q (g x)) l.
Proof. induction l as [|x l IH]; [done|]. simpl. by rewrite List.filter_app, IH. Qed.

Lemma filter_of_map {A B} (q : B -> bool) (g : A -> B) l :
  List.filter q (map g l) = map g (List.filter (fun x => q (g x)) l).
Proof. induction l as [|x l IH]; [done|]. simpl. rewrite IH. by destruct (q (g x)). Qed.

(** A filter that sees of each element only where it comes from. *)
Lemma filter_flat_map {A B} (q : B -> bool) (q' : A -> bool) (g : A -> list B) l :
  (forall x y, In y (g x) -> q y = q' x) -> List.filter q (flat_map g l) = flat_map g (List.filter q' l).
Proof.
  intros Hq. induction l as [|x l IH]; [done|]. simpl. rewrite List.filter_app, IH.
  assert (Hx : List.filter q (g x) = if q' x then g x else []).
  { clear IH. pose proof (Hq x) as Hall. clear Hq. induction (g x) as [|y ys IH]; [by destruct (q' x)|]. simpl. rewrite (Hall y) by by left.
    rewrite IH by (intros; apply Hall; by right). by destruct (q' x). }
  rewrite Hx. by destruct (q' x).
Qed.

(** ** Joins driven by the left input *)

Section Driven.
Context {L R : Type}.

(** What a left row with the matches [rs] is extended to. *)
Definition extensions (x : JoinType) (rs : list R) : list (option R * option bool) :=
  match x, rs with
  | kInner, _ => map (fun r => (Some r, None)) rs
  | kLeft, [] => [(None, None)]
  | kLeft, _ => map (fun r => (Some r, None)) rs
  | kLeftSemiFilter, [] => []
  | kLeftSemiFilter, _ => [(None, None)]
  | kLeftSemiProject, [] => [(None, Some false)]
  | kLeftSemiProject, _ => [(None, Some true)]
  | kAnti, [] => [(None, None)]
  | _, _ => []
  end.

Definition attach (l : L) (e : option R * option bool) : Joins.Row L R := (Some l, e.1, e.2).

Definition left_driven (x : JoinType) : bool :=
  match x with kInner | kLeft | kLeftSemiFilter | kLeftSemiProject | kAnti => true | _ => false end.

Lemma has_match_matches (m : L -> R -> bool) rs l :
  has_match m rs l = match List.filter (m l) rs with [] => false | _ => true end.
Proof.
  unfold has_match. induction rs as [|r rs IH]; [done|]. simpl. destruct (m l r); [done|]. apply IH.
Qed.

Lemma join_rows_driven x (m : L -> R -> bool) ls rs :
  left_driven x = true ->
  join_rows x m ls rs ≡ₚ flat_map (fun l => map (attach l) (extensions x (List.filter (m l) rs))) ls.
Proof.
  destruct x; try done; intros _; cbn [join_rows].
  - apply reflexive_eq. unfold pairs, pairs_of. apply flat_map_ext. intros l. cbn [extensions].
    by rewrite map_map.
  - unfold pairs, unmatched, pairs_of. induction ls as [|l ls IH]; [done|]. cbn [flat_map List.filter].
    rewrite <- IH, has_match_matches. destruct (List.filter (m l) rs) as [|r rs'] eqn:Hf; simpl.
    + symmetry. apply Permutation_middle.
    + rewrite !map_map. simpl. by rewrite <- app_assoc.
  - apply reflexive_eq. unfold matched. induction ls as [|l ls IH]; [done|]. cbn [flat_map List.filter].
    rewrite <- IH, has_match_matches. by destruct (List.filter (m l) rs).
  - apply reflexive_eq. induction ls as [|l ls IH]; [done|]. cbn [flat_map map].
    rewrite <- IH. unfold marked at 1. rewrite has_match_matches. by destruct (List.filter (m l) rs).
  - apply reflexive_eq. unfold unmatched. induction ls as [|l ls IH]; [done|]. cbn [flat_map List.filter].
    rewrite <- IH, has_match_matches. by destruct (List.filter (m l) rs).
Qed.
End Driven.

(** ** The equivalences that hold *)

Section Sound.
Context {A B C : Type}.
Implicit Types (xs : list A) (ys : list B) (zs : list C).

(** Both sides are loops over the rows of [A], and for each over its extensions by [B] and
    by [C]. *)
Lemma left_asscommutes_driven x1 x2 p12 p13 xs ys zs :
  left_driven x1 = true -> left_driven x2 = true ->
  ab_c_13 x1 x2 p12 p13 xs ys zs ≡ₚ ac_b x1 x2 p12 p13 xs ys zs.
Proof.
  intros H1 H2. unfold ab_c_13, ac_b.
  rewrite !join_rows_driven, !map_of_flat_map by done.
  rewrite !flat_map_nested. apply flat_map_each. intros a. rewrite !flat_map_of_map. simpl.
  set (bs := extensions x1 (List.filter (fun b => p12 (Some a) (Some b)) ys)).
  set (cs := extensions x2 (List.filter (fun c => p13 (Some a) (Some c)) zs)).
  assert (Hb : flat_map (fun b => map row_ab_c (map (attach (attach a b)) cs)) bs =
    flat_map (fun b => flat_map (fun c => [(Some a, b.1, c.1, b.2, c.2)]) cs) bs).
  { apply flat_map_ext. intros b. by induction cs as [|c cs IH]; [|simpl; rewrite <- IH]. }
  assert (Hc : flat_map (fun c => map row_ac_b (map (attach (attach a c)) bs)) cs =
    flat_map (fun c => flat_map (fun b => [(Some a, b.1, c.1, b.2, c.2)]) bs) cs).
  { apply flat_map_ext. intros c. clear Hb. by induction bs as [|b bs IH]; [|simpl; rewrite <- IH]. }
  etransitivity; [apply reflexive_eq; exact Hb|].
  etransitivity; [apply flat_map_swap|apply reflexive_eq; symmetry; exact Hc].
Qed.

(** Matching [A] against the rows of [B x2 C] is matching it against [B] first. *)
Lemma associates_driven x2 p12 p23 xs ys zs :
  left_driven x2 = true -> ab_c kInner x2 p12 p23 xs ys zs ≡ₚ a_bc kInner x2 p12 p23 xs ys zs.
Proof.
  intros H2. unfold ab_c, a_bc. rewrite !join_rows_driven, !map_of_flat_map by done.
  rewrite flat_map_nested. apply flat_map_each. intros a. cbn [extensions].
  rewrite (filter_perm _ _ _ (join_rows_driven x2 _ ys zs H2)), !map_map, flat_map_of_map.
  rewrite (filter_flat_map _ (fun b => p12 (Some a) (Some b))).
  - rewrite map_of_flat_map. apply reflexive_eq. apply flat_map_ext. intros b. by rewrite !map_map.
  - intros b row Hin. by apply in_map_iff in Hin as (e & <- & _).
Qed.

Lemma right_asscommutes_inner p13 p23 xs ys zs :
  a_bc_13 kInner kInner p13 p23 xs ys zs ≡ₚ b_ac kInner kInner p13 p23 xs ys zs.
Proof.
  set (rows a b := map (fun c => (Some a, Some b, Some c, None, None) : Row3 A B C)
    (List.filter (fun c => p13 (Some a) (Some c) && p23 (Some b) (Some c)) zs)).
  transitivity (flat_map (fun a => flat_map (rows a) ys) xs).
  - unfold a_bc_13, join_rows, pairs, pairs_of. rewrite map_of_flat_map. apply reflexive_eq.
    apply flat_map_ext. intros a. rewrite map_map, filter_of_flat_map, map_of_flat_map.
    apply flat_map_ext. intros b. rewrite filter_of_map, Joins.filter_filter, map_map. done.
  - rewrite flat_map_swap. unfold b_ac, join_rows, pairs, pairs_of. rewrite map_of_flat_map.
    apply reflexive_eq. apply flat_map_ext. intros b. rewrite map_map, filter_of_flat_map, map_of_flat_map.
    apply flat_map_ext. intros a. rewrite filter_of_map, Joins.filter_filter, map_map.
    unfold rows. erewrite filter_ext; [done|]. intros c. apply andb_comm.
Qed.
End Sound.

(** ** The equivalences that fail *)

(** Inputs of at most two rows without columns, and predicates by the operands that are
    there. *)
Section Refutation.
Abbreviation Pred := (option unit -> option unit -> bool).
Abbreviation Tree := (Pred -> Pred -> list unit -> list unit -> list unit -> list (Row3 unit unit unit)).

Definition predicate (t : bool * bool * bool) : Pred := fun x y =>
  match x, y with
  | Some _, Some _ => t.1.1
  | None, Some _ => t.1.2
  | Some _, None => t.2
  | None, None => false
  end.

Definition tables : list (bool * bool * bool) :=
  list_prod (list_prod [true; false] [true; false]) [true; false].
Definition inputs : list (list unit) := [[]; [()]; [(); ()]].

Definition occurrences (row : Row3 unit unit unit) (rows : list (Row3 unit unit unit)) : nat :=
  length (List.filter (fun row' => bool_decide (row = row')) rows).

(** A row is on both sides equally often. *)
Definition same_bag (l k : list (Row3 unit unit unit)) : bool :=
  forallb (fun row => occurrences row l =? occurrences row k) (l ++ k).

Definition refuted (left right : Tree) : bool :=
  existsb (fun p => existsb (fun q => existsb (fun xs => existsb (fun ys => existsb (fun zs =>
    negb (same_bag (left (predicate p) (predicate q) xs ys zs) (right (predicate p) (predicate q) xs ys zs)))
    inputs) inputs) inputs) tables) tables.

Lemma same_bag_perm l k : l ≡ₚ k -> same_bag l k = true.
Proof.
  intros Hlk. unfold same_bag, occurrences. apply forallb_forall. intros row _. apply Nat.eqb_eq.
  apply Permutation_length. by apply filter_perm.
Qed.

Lemma refuted_spec (left right : Tree) :
  refuted left right = true -> (forall p q xs ys zs, left p q xs ys zs ≡ₚ right p q xs ys zs) -> False.
Proof.
  unfold refuted. rewrite existsb_exists. setoid_rewrite existsb_exists. setoid_rewrite existsb_exists.
  setoid_rewrite existsb_exists. setoid_rewrite existsb_exists.
  intros (p & _ & q & _ & xs & _ & ys & _ & zs & _ & Hn%negb_true_iff) Hall.
  by rewrite (same_bag_perm _ _ (Hall _ _ _ _ _)) in Hn.
Qed.
End Refutation.

(** The types whose row and column of the table are exact. *)
Definition exact_type (t : JoinType) : bool :=
  match t with
  | kInner | kLeft | kFull | kLeftSemiFilter | kLeftSemiProject | kAnti => true
  | _ => false
  end.

(** Each equivalence [derive] allows holds. *)
Lemma derive_sound child parent props :
  AlgebraicProperties.derive child parent = Ok props ->
  (AlgebraicProperties.associative props = true -> associates child parent) /\
  (AlgebraicProperties.leftAsscom props = true -> left_asscommutes child parent) /\
  (AlgebraicProperties.rightAsscom props = true -> right_asscommutes child parent).
Proof.
  intros Hd. split; [|split].
  - destruct child, parent; try discriminate Hd; injection Hd as <-; try done;
      intros _ A B C p q xs ys zs; by apply associates_driven.
  - destruct child, parent; try discriminate Hd; injection Hd as <-; try done;
      intros _ A B C p q xs ys zs; by apply left_asscommutes_driven.
  - destruct child, parent; try discriminate Hd; injection Hd as <-; try done;
      intros _ A B C p q xs ys zs; apply right_asscommutes_inner.
Qed.

(** Each equivalence [derive] does not allow fails for some input. *)
Lemma derive_complete child parent props :
  AlgebraicProperties.derive child parent = Ok props ->
  exact_type child = true -> exact_type parent = true ->
  (associates child parent -> AlgebraicProperties.associative props = true) /\
  (left_asscommutes child parent -> AlgebraicProperties.leftAsscom props = true) /\
  (right_asscommutes child parent -> AlgebraicProperties.rightAsscom props = true).
Proof.
  intros Hd Hc Hp. split; [|split];
    (destruct child, parent; try discriminate; injection Hd as <-; try done;
     intros Ha; exfalso; refine (refuted_spec _ _ _ (Ha unit unit unit)); vm_compute; reflexivity).
Qed.

(** C5: [derive] is sound: each equivalence it allows holds for all inputs and predicates -
    and, the counting semijoin apart, exact: each equivalence it does not allow fails for
    some. *)
Theorem derive_exact child parent props :
  AlgebraicProperties.derive child parent = Ok props ->
  (AlgebraicProperties.associative props = true -> associates child parent) /\
  (AlgebraicProperties.leftAsscom props = true -> left_asscommutes child parent) /\
  (AlgebraicProperties.rightAsscom props = true -> right_asscommutes child parent) /\
  (exact_type child = true -> exact_type parent = true ->
    (associates child parent -> AlgebraicProperties.associative props = true) /\
    (left_asscommutes child parent -> AlgebraicProperties.leftAsscom props = true) /\
    (right_asscommutes child parent -> AlgebraicProperties.rightAsscom props = true)).
Proof.
  intros Hd. destruct (derive_sound child parent props Hd) as (Ha & Hl & Hr).
  split; [done|]. split; [done|]. split; [done|]. intros Hc Hp.
  exact (derive_complete child parent props Hd Hc Hp).
Qed.

(** [derive] throws exactly for the types that have no left form in the table. *)
Theorem derive_defined child parent :
  (exists props, AlgebraicProperties.derive child parent = Ok props) <->
  Forall (fun t => exact_type t = true \/ t = kCountingLeftSemiFilter) [child; parent].
Proof.
  rewrite !Forall_cons, Forall_nil. split.
  - intros [props Hd]. destruct child, parent; try discriminate Hd; simpl; auto 6.
  - intros [Hc [Hp _]]. destruct child, parent; simpl in *;
      try (by destruct Hc); try (by destruct Hp); by eexists.
Qed.

Lemma derive_exact_witness :
  AlgebraicProperties.derive kInner kLeft = Ok (AlgebraicProperties.mk true true false) /\
  associates kInner kLeft /\ left_asscommutes kInner kLeft /\ ~ right_asscommutes kInner kLeft.
Proof.
  assert (Hd : AlgebraicProperties.derive kInner kLeft = Ok (AlgebraicProperties.mk true true false))
    by (vm_compute; reflexivity).
  destruct (derive_exact kInner kLeft _ Hd) as (Ha & Hl & _ & Hexact).
  destruct (Hexact eq_refl eq_refl) as (_ & _ & Hr).
  split; [exact Hd|]. split; [exact (Ha eq_refl)|]. split; [exact (Hl eq_refl)|].
  intros Hall. specialize (Hr Hall). discriminate Hr.
Defined.
