(* ===== verification/Partitionings.v ===== *)
(** * Partitioning of rows over tasks and drivers

    Models [axiom/optimizer/v2/PhysicalProperties.{h,cpp}] (kinds and classes of
    partitioning, the co-location tests, the invariant a node's properties obey)
    and [v2/JoinPartitioning.{h,cpp}] (when the partitionings of two join inputs
    put matching rows on one task).  Connector partition functions
    ([connector::PartitionType]) are code of the connectors: the class
    [Connector] holds what planning asks of them, and [PartitionFunctions] what
    they compute at run time. *)

From S2P Require Import Prelude Word64 BitSets QueryGraph Joins.
From Stdlib Require Import Lia.
Set Warnings "-clear-no-such-hyp".
Open Scope nat_scope.

(** ** Data *)

Inductive PropertyScope := kGlobal | kDriver.

Inductive PartitionKind := kUnspecified | kPartitioned | kGather | kBroadcast | kArbitrary.

Inductive OrderType := kAscNullsFirst | kAscNullsLast | kDescNullsFirst | kDescNullsLast.

#[export] Instance PropertyScope_eq_dec : EqDecision PropertyScope.
Proof. solve_decision. Defined.
#[export] Instance PartitionKind_eq_dec : EqDecision PartitionKind.
Proof. solve_decision. Defined.
#[export] Instance OrderType_eq_dec : EqDecision OrderType.
Proof. solve_decision. Defined.

(** [connector::PartitionType] by address; [None] is the null pointer, which
    stands for standard hash partitioning. *)
Abbreviation PartitionTypeP := N (only parsing).

Record Partitioning := mkPartitioning {
  kind : PartitionKind;
  partitionType : option PartitionTypeP;
  keys : list ExprCP;
  orderKeys : list ExprCP;
  orderTypes : list OrderType;
  scope : PropertyScope;
  replicateNullsAndAny : bool;
}.

#[export] Instance Partitioning_eq_dec : EqDecision Partitioning.
Proof. solve_decision. Defined.

(** What planning asks of connector partition types: their width, and
    [QueryGraphContext::copartitionedType], the (cached) answer of
    [left->copartition( *right)]. *)
Class Connector := {
  numPartitions : PartitionTypeP -> Z;
  copartitionedType : PartitionTypeP -> PartitionTypeP -> option PartitionTypeP;
}.

(** ** Operations of [Partitioning] *)

Module Partitioning.

Definition is_ (p : Partitioning) (other : PartitionKind) : bool := bool_decide (kind p = other).
Definition isGlobal (p : Partitioning) : bool := bool_decide (scope p = kGlobal).
Definition isDriver (p : Partitioning) : bool := bool_decide (scope p = kDriver).

Definition unspecified (scope : PropertyScope) : Partitioning :=
  mkPartitioning kUnspecified None [] [] [] scope false.

Definition dropOrder (p : Partitioning) : Partitioning :=
  mkPartitioning (kind p) (partitionType p) (keys p) [] [] (scope p) (replicateNullsAndAny p).

Definition hash (scope : PropertyScope) (keys : list ExprCP) (replicateNullsAndAny : bool)
    : Result Partitioning :=
  velox_check (negb replicateNullsAndAny || bool_decide (scope = kGlobal))
    "Replicating nulls and any row requires global partitioning" ≫= fun _ =>
  Ok (mkPartitioning kPartitioned None keys [] [] scope replicateNullsAndAny).

(** [Partitioning::hash(scope, keys)]: with the default flag the check holds. *)
Definition hash_keys (scope : PropertyScope) (keys : list ExprCP) : Partitioning :=
  mkPartitioning kPartitioned None keys [] [] scope false.

Definition connectorHash (scope : PropertyScope) (keys : list ExprCP) (t : PartitionTypeP)
    : Partitioning :=
  mkPartitioning kPartitioned (Some t) keys [] [] scope false.

Definition gather (scope : PropertyScope) : Partitioning :=
  mkPartitioning kGather None [] [] [] scope false.
Definition gatherMerge (scope : PropertyScope) (orderKeys : list ExprCP)
    (orderTypes : list OrderType) : Partitioning :=
  mkPartitioning kGather None [] orderKeys orderTypes scope false.
Definition globalBroadcast : Partitioning := mkPartitioning kBroadcast None [] [] [] kGlobal false.
Definition globalReplicatedTo (consumer : Partitioning) : Partitioning :=
  if is_ consumer kGather then gather kGlobal else globalBroadcast.
Definition arbitrary (scope : PropertyScope) : Partitioning :=
  mkPartitioning kArbitrary None [] [] [] scope false.

Definition sameClassAs (p other : Partitioning) : bool :=
  bool_decide (kind p = kind other) && bool_decide (partitionType p = partitionType other) &&
  bool_decide (replicateNullsAndAny p = replicateNullsAndAny other) &&
  bool_decide (keys p = keys other).

Section Operations.
Context {VB : VeloxBits} {C : Connector}.

Definition numStageTasks (p : Partitioning) (numWorkers hashStageTasks : Z) : Z :=
  match kind p with
  | kPartitioned =>
      match partitionType p with Some t => numPartitions t | None => hashStageTasks end
  | kGather => 1
  | kUnspecified | kBroadcast | kArbitrary => numWorkers
  end.

(** The outer option is [std::optional<CommonType>], the inner one the
    [connectorType] pointer. *)
Definition commonPartitionType (left right : option PartitionTypeP)
    : option (option PartitionTypeP) :=
  match left, right with
  | Some l, Some r =>
      match copartitionedType l r with None => None | Some common => Some (Some common) end
  | _, _ => if decide (left = right) then Some None else None
  end.

Definition commonUnionPartitionType := commonPartitionType.

Definition commonJoinPartitionType (left right : option PartitionTypeP)
    : option (option PartitionTypeP) :=
  match commonPartitionType left right with
  | Some (Some common) =>
      match left, right with
      | Some l, Some r =>
          if Z.eqb (numPartitions common) (numPartitions l) &&
             Z.eqb (numPartitions common) (numPartitions r)
          then Some (Some common) else None
      | _, _ => None
      end
  | other => other
  end.

Definition coLocates (p : Partitioning) (columns : list ExprCP) : bool :=
  if negb (is_ p kPartitioned) || bool_decide (keys p = []) then false
  else
    let columnSet := PlanObjectSet.fromObjects columns in
    forallb (BitSet.contains columnSet) (keys p).

(** [sameOrEqual] on corresponding elements, with [fuel] for the expressions. *)
Definition same_exprs (fuel : nat) (g : QueryGraph) (l l' : list ExprCP) : bool :=
  forallb (fun '(a, b) => sameOrEqual fuel g a b) (zip l l').

Definition isBucketedOn (fuel : nat) (g : QueryGraph) (p : Partitioning) (otherKeys : list ExprCP)
    : bool :=
  if bool_decide (otherKeys = []) || negb (is_ p kPartitioned) ||
     bool_decide (partitionType p = None) || negb (length (keys p) =? length otherKeys)
  then false
  else same_exprs fuel g (keys p) otherKeys.

Definition satisfiesWritePartitioning (fuel : nat) (g : QueryGraph) (p : Partitioning)
    (otherKeys : list ExprCP) (targetType : PartitionTypeP) : bool :=
  if negb (isBucketedOn fuel g p otherKeys) then false
  else match commonPartitionType (partitionType p) (Some targetType), partitionType p with
       | Some (Some common), Some t => Z.eqb (numPartitions common) (numPartitions t)
       | _, _ => false
       end.
End Operations.
End Partitioning.

(** ** [PhysicalProperties] *)

Inductive DriverOrderKind := kGrouped | kSorted.

Record DriverOrder := mkDriverOrder {
  order_kind : DriverOrderKind;
  order_columns : list ColumnCP;
  orders : list OrderType;
}.

Record PhysicalProperties := mkPhysicalProperties {
  globalPartition : Partitioning;
  driverPartition : Partitioning;
  driverOrder : list DriverOrder;
  globalUnique : list BitSet;
  driverUnique : list BitSet;
}.

Module PhysicalProperties.
Section Operations.
Context {VB : VeloxBits}.

Definition coLocates (props : PhysicalProperties) (scope : PropertyScope) (keys : list ExprCP)
    : bool :=
  let partition := match scope with
                   | kGlobal => globalPartition props
                   | kDriver => driverPartition props
                   end in
  if Partitioning.is_ partition kGather then true
  else if negb (bool_decide (keys = [])) && Partitioning.coLocates partition keys then true
  else if bool_decide (scope = kGlobal) && Partitioning.is_ (globalPartition props) kBroadcast
  then false
  else
    let keySet := PlanObjectSet.fromObjects keys in
    existsb (fun key => BitSet.isSubset key keySet) (globalUnique props).

Definition checkPartition (g : QueryGraph) (outputColumns : BitSet) (p : Partitioning)
    : Result unit :=
  velox_check (PlanObjectSet.containsColumns g outputColumns (keys p) &&
               PlanObjectSet.containsColumns g outputColumns (orderKeys p))
    "Partitioning depends on a column that is not in the node's output".

Fixpoint check_all {A} (test : A -> bool) (what : string) (l : list A) : Result unit :=
  match l with
  | [] => Ok tt
  | x :: l => velox_check (test x) what ≫= fun _ => check_all test what l
  end.

Definition checkReferencesColumns (g : QueryGraph) (props : PhysicalProperties)
    (outputColumns : BitSet) : Result unit :=
  velox_check (bool_decide (scope (globalPartition props) = kGlobal))
    "globalPartition must have global scope" ≫= fun _ =>
  velox_check (bool_decide (scope (driverPartition props) = kDriver))
    "driverPartition must have driver scope" ≫= fun _ =>
  checkPartition g outputColumns (globalPartition props) ≫= fun _ =>
  checkPartition g outputColumns (driverPartition props) ≫= fun _ =>
  check_all (fun property => PlanObjectSet.containsAll outputColumns (order_columns property))
    "Driver order references a column that is not in the node's output" (driverOrder props)
    ≫= fun _ =>
  check_all (fun key => BitSet.isSubset key outputColumns)
    "Unique key references a column that is not in the node's output" (globalUnique props)
    ≫= fun _ =>
  check_all (fun key => BitSet.isSubset key outputColumns)
    "Unique key references a column that is not in the node's output" (driverUnique props).
End Operations.
End PhysicalProperties.

(** ** [JoinPartitioning] *)

Record JoinPartitioning := mkJoinPartitioning {
  keyPositions : list nat;
  jp_partitionType : option PartitionTypeP;
}.

Module JoinPartitioning.
Section Operations.
Context {C : Connector} (fuel : nat) (g : QueryGraph).

(** [std::find_if]: the position of the first element that passes. *)
Fixpoint find_if {A} (test : A -> bool) (l : list A) : option nat :=
  match l with
  | [] => None
  | x :: l => if test x then Some 0 else S <$> find_if test l
  end.

Fixpoint positions_of (joinKeys partitionKeys : list ExprCP) : option (list nat) :=
  match partitionKeys with
  | [] => Some []
  | partitionKey :: rest =>
      match find_if (fun joinKey => sameOrEqual fuel g joinKey partitionKey) joinKeys with
      | None => None
      | Some position => cons position <$> positions_of joinKeys rest
      end
  end.

Definition from (partitioning : Partitioning) (joinKeys : list ExprCP)
    : option JoinPartitioning :=
  if negb (Partitioning.is_ partitioning kPartitioned) || bool_decide (keys partitioning = []) ||
     replicateNullsAndAny partitioning
  then None
  else positions ← positions_of joinKeys (keys partitioning);
       Some (mkJoinPartitioning positions (partitionType partitioning)).

Definition coPartitionsWith (this other : JoinPartitioning) : bool :=
  bool_decide (keyPositions this = keyPositions other) &&
  match Partitioning.commonJoinPartitionType (jp_partitionType this) (jp_partitionType other) with
  | Some _ => true
  | None => false
  end.

(** [joinKeys[position]]; an index out of range is undefined in the source. *)
Definition correspondingKeys (this : JoinPartitioning) (joinKeys : list ExprCP) : list ExprCP :=
  map (fun position => nth position joinKeys 0%N) (keyPositions this).
End Operations.
End JoinPartitioning.

(** ** Where a partitioning places a row *)

(** What partition functions compute: the task of a row from the values of its
    partition keys.  [copartitioned_function] is the contract of
    [PartitionType::copartition]: compatible types of one width, and the common
    type [copartition] returns at that width, share their function. *)
Class PartitionFunctions (V : Type) `{C : Connector} := {
  connector_task : PartitionTypeP -> list V -> nat;
  hash_task : list V -> nat;
  copartitioned_function : forall l r c,
    copartitionedType l r = Some c -> numPartitions c = numPartitions l ->
    numPartitions c = numPartitions r ->
    forall vs, connector_task c vs = connector_task l vs /\ connector_task c vs = connector_task r vs;
}.

Definition function_task {V} `{PartitionFunctions V} (t : option PartitionTypeP) (vs : list V)
    : nat :=
  match t with Some t => connector_task t vs | None => hash_task vs end.

(** The task a [kPartitioned] partitioning sends a row with expression values
    [value] to. *)
Definition task_of {V} `{PartitionFunctions V} (p : Partitioning) (value : ExprCP -> V) : nat :=
  function_task (partitionType p) (map value (keys p)).

(** Values no partition function tells apart.  Values that compare equal need not be: -0.0
    and 0.0 hash differently, and so may two values a custom comparison equates. *)
Definition hash_alike {V} `{PartitionFunctions V} (u v : V) : Prop :=
  forall t before after, function_task t (before ++ u :: after) = function_task t (before ++ v :: after).

#[export] Instance hash_alike_equivalence {V} `{PartitionFunctions V} : Equivalence (hash_alike (V:=V)).
Proof.
  split; [by intros u t | by intros u v Huv t before after | intros u v w Huv Hvw t before after].
  by rewrite Huv.
Qed.

Lemma tasks_alike {V} `{PartitionFunctions V} t (us vs : list V) :
  Forall2 hash_alike us vs -> function_task t us = function_task t vs.
Proof.
  intros Hall. cut (forall before, function_task t (before ++ us) = function_task t (before ++ vs)); [by intros Hc; apply (Hc []) |].
  induction Hall as [|u v us vs Huv _ IH]; intros before; [done |].
  rewrite (Huv t before us). specialize (IH (before ++ [v])). by rewrite <- !app_assoc in IH.
Qed.

Section JoinPartitioningTheory.
Context {V : Type} `{PF : PartitionFunctions V} (fuel : nat) (g : QueryGraph).

Lemma common_join_function tl tr common :
  Partitioning.commonJoinPartitionType tl tr = Some common ->
  forall vs, function_task common vs = function_task tl vs /\
    function_task common vs = function_task tr vs.
Proof.
  unfold Partitioning.commonJoinPartitionType, Partitioning.commonPartitionType.
  destruct tl as [l|], tr as [r|]; cbn; try done; try (by intros [= <-]).
  destruct (copartitionedType l r) as [c|] eqn:Ec; [| done].
  destruct (Z.eqb_spec (numPartitions c) (numPartitions l)); [| done].
  destruct (Z.eqb_spec (numPartitions c) (numPartitions r)); [| done]. cbn.
  intros [= <-] vs. by eapply copartitioned_function.
Qed.

Lemma find_if_Some {A} (test : A -> bool) l i :
  JoinPartitioning.find_if test l = Some i -> exists x, l !! i = Some x /\ test x = true.
Proof.
  revert i. induction l as [|x l IH]; intros i; cbn; [done |].
  destruct (test x) eqn:E; [intros [= <-]; by exists x |].
  intros (j & Hj & ->)%fmap_Some. by apply IH.
Qed.

(** The positions [from] records pick, in order, join keys that are the same
    expressions as the partition keys. *)
Lemma positions_of_spec joinKeys partitionKeys positions :
  JoinPartitioning.positions_of fuel g joinKeys partitionKeys = Some positions ->
  Forall2 (fun position partitionKey => exists joinKey,
    joinKeys !! position = Some joinKey /\ sameOrEqual fuel g joinKey partitionKey = true)
    positions partitionKeys.
Proof.
  revert positions. induction partitionKeys as [|k ks IH]; intros positions; cbn.
  - intros [= <-]. constructor.
  - destruct (JoinPartitioning.find_if _ joinKeys) as [i|] eqn:E; [| done].
    intros (rest & Hrest & ->)%fmap_Some. constructor; [| by apply IH].
    by apply find_if_Some in E.
Qed.

Lemma from_spec p joinKeys jp :
  JoinPartitioning.from fuel g p joinKeys = Some jp ->
  kind p = kPartitioned /\ keys p <> [] /\ replicateNullsAndAny p = false /\
  jp_partitionType jp = partitionType p /\
  Forall2 (fun position partitionKey => exists joinKey,
    joinKeys !! position = Some joinKey /\ sameOrEqual fuel g joinKey partitionKey = true)
    (keyPositions jp) (keys p).
Proof.
  unfold JoinPartitioning.from, Partitioning.is_.
  case_bool_decide as Ek; [| done]. case_bool_decide as En; [done |].
  destruct (replicateNullsAndAny p); [done |]. cbn.
  destruct (JoinPartitioning.positions_of _ _ _ _) as [ps|] eqn:E; [| done].
  cbn. intros [= <-]. split_conj; try done. by apply positions_of_spec.
Qed.

(** Expressions the optimizer takes for one, a join key and a partition key, have values
    that hash alike. *)
Definition same_hash_alike (value : ExprCP -> V) (joinKeys partitionKeys : list ExprCP) : Prop :=
  forall a k, a ∈ joinKeys -> k ∈ partitionKeys -> sameOrEqual fuel g a k = true -> hash_alike (value a) (value k).

(** A row's task under [p], computed from its join keys. *)
Lemma task_of_positions (value : ExprCP -> V) p joinKeys jp :
  same_hash_alike value joinKeys (keys p) ->
  JoinPartitioning.from fuel g p joinKeys = Some jp ->
  task_of p value =
  function_task (jp_partitionType jp) (map value (JoinPartitioning.correspondingKeys jp joinKeys)).
Proof.
  intros Hsame (_ & _ & _ & Ht & H)%from_spec. unfold task_of. rewrite Ht. apply tasks_alike.
  unfold JoinPartitioning.correspondingKeys. rewrite map_map. revert Hsame.
  induction H as [|i k ps ks (jk & Hi & Hk) _ IH]; cbn; intros Hsame; constructor.
  - rewrite (nth_lookup_Some _ _ _ _ Hi). symmetry. apply Hsame; [by eapply list_elem_of_lookup_2 | by left | done].
  - apply IH. intros a k' Ha Hk'. apply Hsame; [done | by right].
Qed.
End JoinPartitioningTheory.

(** Key values agree position by position on rows that match. *)
Definition keys_agree {V} (leftKeys rightKeys : list ExprCP) (lv rv : ExprCP -> V) : Prop :=
  Forall2 (fun lk rk => lv lk = rv rk) leftKeys rightKeys.

(** Keys of rows that match hash alike. *)
Definition keys_alike {V} `{PartitionFunctions V} (leftKeys rightKeys : list ExprCP) (lv rv : ExprCP -> V) : Prop :=
  Forall2 (fun lk rk => hash_alike (lv lk) (rv rk)) leftKeys rightKeys.

Lemma correspondingKeys_alike {V} `{PartitionFunctions V} jp leftKeys rightKeys (lv rv : ExprCP -> V) :
  keys_alike leftKeys rightKeys lv rv ->
  Forall (fun i => i < length leftKeys) (keyPositions jp) ->
  Forall2 hash_alike (map lv (JoinPartitioning.correspondingKeys jp leftKeys))
    (map rv (JoinPartitioning.correspondingKeys jp rightKeys)).
Proof.
  intros Hk Hi. unfold JoinPartitioning.correspondingKeys. rewrite !map_map.
  induction Hi as [|i ps Hi _ IH]; cbn; constructor; [| done].
  apply lookup_lt_is_Some_2 in Hi as [x Hx].
  destruct (Forall2_lookup_l _ _ _ _ _ Hk Hx) as (y & Hy & E).
  by rewrite (nth_lookup_Some _ _ _ _ Hx), (nth_lookup_Some _ _ _ _ Hy).
Qed.

Lemma from_positions_bounded fuel g p joinKeys jp :
  JoinPartitioning.from fuel g p joinKeys = Some jp ->
  Forall (fun i => i < length joinKeys) (keyPositions jp).
Proof.
  intros (_ & _ & _ & _ & H)%from_spec. eapply Forall2_Forall_l; [exact H |].
  apply Forall_forall. intros k _ i (jk & Hi & _). by eapply lookup_lt_Some.
Qed.

Section CoPartitionedJoin.
Context {V : Type} `{PF : PartitionFunctions V} (fuel : nat) (g : QueryGraph).
Context {L R : Type} (left_value : L -> ExprCP -> V) (right_value : R -> ExprCP -> V).
Context (matches : L -> R -> bool) (leftKeys rightKeys : list ExprCP).
Context (Hmatches : forall l r, matches l r = true ->
  keys_alike leftKeys rightKeys (left_value l) (right_value r)).

(** C29: two inputs whose partitionings [JoinPartitioning::from] describes by the
    join keys and [coPartitionsWith] accepts need no exchange: task by task,
    joining the rows each input has placed there emits exactly the rows of the
    whole join, for a join of any type (outer, semi, anti and counting joins
    included).  It takes what the code does not check: that the keys of rows which match
    hash alike - so no [REAL] or [DOUBLE] key, and none of a type with a custom comparison,
    see [equal_keys_on_two_tasks] - and that a join key and the partition key it is found to
    equal hash alike on every row of the input. *)
Theorem co_partitioned_inputs_join_in_place (t : JoinType) (lp rp : Partitioning)
    (jl jr : JoinPartitioning) (numTasks : nat) (ls : list L) (rs : list R)
    (Hleft : forall l, same_hash_alike fuel g (left_value l) leftKeys (keys lp))
    (Hright : forall r, same_hash_alike fuel g (right_value r) rightKeys (keys rp))
    (Hl : JoinPartitioning.from fuel g lp leftKeys = Some jl)
    (Hr : JoinPartitioning.from fuel g rp rightKeys = Some jr)
    (Hco : JoinPartitioning.coPartitionsWith jl jr = true)
    (Hltasks : forall l, l ∈ ls -> task_of lp (left_value l) < numTasks)
    (Hrtasks : forall r, r ∈ rs -> task_of rp (right_value r) < numTasks) :
  join_over_tasks numTasks (fun l => task_of lp (left_value l)) (fun r => task_of rp (right_value r))
    t matches ls rs ≡ₚ join_rows t matches ls rs.
Proof.
  apply join_over_tasks_complete; [| done | done]. intros l r Hm%Hmatches.
  rewrite (task_of_positions _ _ _ _ _ _ (Hleft l) Hl), (task_of_positions _ _ _ _ _ _ (Hright r) Hr).
  unfold JoinPartitioning.coPartitionsWith in Hco. apply andb_true_iff in Hco as [Hpos Ht].
  apply bool_decide_eq_true in Hpos.
  destruct (Partitioning.commonJoinPartitionType _ _) as [common|] eqn:Ec; [| done].
  rewrite <- (proj1 (common_join_function _ _ _ Ec _)), <- (proj2 (common_join_function _ _ _ Ec _)).
  apply tasks_alike. unfold JoinPartitioning.correspondingKeys at 2. rewrite <- Hpos.
  apply (correspondingKeys_alike jl); [done |]. by eapply from_positions_bounded.
Qed.

(** When only one input's partitioning is reusable, moving the other input
    by the same function of [correspondingKeys] co-locates the join. *)
Theorem corresponding_keys_co_locate (t : JoinType) (lp moved : Partitioning)
    (jl : JoinPartitioning) (numTasks : nat) (ls : list L) (rs : list R)
    (Hleft : forall l, same_hash_alike fuel g (left_value l) leftKeys (keys lp))
    (Hl : JoinPartitioning.from fuel g lp leftKeys = Some jl)
    (Hkeys : keys moved = JoinPartitioning.correspondingKeys jl rightKeys)
    (Htype : partitionType moved = jp_partitionType jl)
    (Hltasks : forall l, l ∈ ls -> task_of lp (left_value l) < numTasks)
    (Hrtasks : forall r, r ∈ rs -> task_of moved (right_value r) < numTasks) :
  join_over_tasks numTasks (fun l => task_of lp (left_value l))
    (fun r => task_of moved (right_value r)) t matches ls rs ≡ₚ join_rows t matches ls rs.
Proof.
  apply join_over_tasks_complete; [| done | done]. intros l r Hm%Hmatches.
  rewrite (task_of_positions _ _ _ _ _ _ (Hleft l) Hl). unfold task_of. rewrite Htype, Hkeys.
  apply tasks_alike, correspondingKeys_alike; [done |]. by eapply from_positions_bounded.
Qed.
End CoPartitionedJoin.

(** A connector with 4-way hashing of the key values; its types are all
    compatible when of one width. *)
#[local] Instance example_connector : Connector := {
  numPartitions _ := 4%Z;
  copartitionedType l r := Some l;
}.
#[local, refine] Instance example_functions : PartitionFunctions nat := {
  connector_task _ vs := list_sum vs mod 4;
  hash_task vs := list_sum vs mod 3;
}.
Proof. done. Defined.

Definition example_left_partitioning : Partitioning := Partitioning.connectorHash kGlobal [1%N] 7%N.
Definition example_right_partitioning : Partitioning := Partitioning.connectorHash kGlobal [2%N] 8%N.

Lemma example_same_alike (f : ExprCP -> nat) joinKeys partitionKeys :
  same_hash_alike 0 (mkQueryGraph ∅ ∅ 0) f joinKeys partitionKeys.
Proof. intros a k _ _. cbn. by destruct (N.eqb_spec a k) as [->|]. Qed.

Lemma co_partitioned_inputs_join_in_place_witness :
  join_over_tasks 4 (fun l => task_of example_left_partitioning (fun _ => l))
    (fun r => task_of example_right_partitioning (fun _ => r)) kFull Nat.eqb [1; 5; 6] [5; 7]
  ≡ₚ join_rows kFull Nat.eqb [1; 5; 6] [5; 7].
Proof.
  apply (co_partitioned_inputs_join_in_place 0 (mkQueryGraph ∅ ∅ 0) (fun l _ => l) (fun r _ => r)
    Nat.eqb [1%N] [2%N] ltac:(intros l r ->%Nat.eqb_eq; by repeat constructor) kFull
    example_left_partitioning example_right_partitioning
    (mkJoinPartitioning [0] (Some 7%N)) (mkJoinPartitioning [0] (Some 8%N)) 4 [1; 5; 6] [5; 7]);
    try reflexivity.
  - intros l. apply example_same_alike.
  - intros r. apply example_same_alike.
  - intros l _. apply Nat.mod_upper_bound. done.
  - intros r _. apply Nat.mod_upper_bound. done.
Defined.

Lemma corresponding_keys_co_locate_witness :
  join_over_tasks 4 (fun l => task_of example_left_partitioning (fun _ => l))
    (fun r => task_of (Partitioning.connectorHash kGlobal [2%N] 7%N) (fun _ => r))
    kAnti Nat.eqb [1; 5; 6] [5; 7]
  ≡ₚ join_rows kAnti Nat.eqb [1; 5; 6] [5; 7].
Proof.
  apply (corresponding_keys_co_locate 0 (mkQueryGraph ∅ ∅ 0) (fun l _ => l) (fun r _ => r)
    Nat.eqb [1%N] [2%N] ltac:(intros l r ->%Nat.eqb_eq; by repeat constructor) kAnti
    example_left_partitioning (Partitioning.connectorHash kGlobal [2%N] 7%N)
    (mkJoinPartitioning [0] (Some 7%N)) 4 [1; 5; 6] [5; 7]);
    try reflexivity.
  - intros l. apply example_same_alike.
  - intros l _. apply Nat.mod_upper_bound. done.
  - intros r _. apply Nat.mod_upper_bound. done.
Defined.

(** Keys that compare equal and hash differently, as 0.0 and -0.0 do - here 0 and 8 under a
    comparison modulo 8: inputs hashed on the join keys are found co-partitioned, and the
    join task by task misses the match. *)
Example equal_keys_on_two_tasks :
  let equal l r := l mod 8 =? r mod 8 in
  let hashed key := Partitioning.hash_keys kGlobal [key] in
  let jp := mkJoinPartitioning [0] None in
  JoinPartitioning.from 0 (mkQueryGraph ∅ ∅ 0) (hashed 1%N) [1%N] = Some jp /\
  JoinPartitioning.from 0 (mkQueryGraph ∅ ∅ 0) (hashed 2%N) [2%N] = Some jp /\
  JoinPartitioning.coPartitionsWith jp jp = true /\
  length (join_rows kInner equal [0] [8]) = 1 /\
  join_over_tasks 3 (fun l => task_of (hashed 1%N) (fun _ => l)) (fun r => task_of (hashed 2%N) (fun _ => r))
    kInner equal [0] [8] = [].
Proof. cbn zeta. split_conj; vm_compute; reflexivity. Qed.

(** ** Co-location by physical properties *)

Section CoLocation.
Context {VB : VeloxBits} {V Row : Type} (value : Row -> ExprCP -> V).

(** Rows agree on a set of expressions. *)
Definition agree_on (es : list ExprCP) (r1 r2 : Row) : Prop :=
  forall e, e ∈ es -> value r1 e = value r2 e.

(** [place] puts each row of one scope where the partitioning says. *)
Definition honours (p : Partitioning) (place : Row -> nat) : Prop :=
  match kind p with
  | kGather => forall r1 r2, place r1 = place r2
  | kPartitioned => forall r1 r2, agree_on (keys p) r1 r2 -> place r1 = place r2
  | _ => True
  end.

(** A unique key determines the row. *)
Definition unique_key (key : BitSet) : Prop :=
  forall r1 r2 : Row, (forall c, c ∈ key -> value r1 c = value r2 c) -> r1 = r2.

Lemma partition_coLocates_spec p columns :
  Partitioning.coLocates p columns = true <->
  kind p = kPartitioned /\ keys p <> [] /\ forall k, k ∈ keys p -> k ∈ columns.
Proof.
  unfold Partitioning.coLocates, Partitioning.is_.
  case_bool_decide as Ek; [| naive_solver]. case_bool_decide as En; [naive_solver |]. cbn.
  rewrite forallb_forall. setoid_rewrite <- list_elem_of_In.
  setoid_rewrite BitSet.bitset_contains_spec. setoid_rewrite PlanObjectSet.elem_of_fromObjects.
  naive_solver.
Qed.

(** [PhysicalProperties::coLocates] is sound at both scopes: when it
    answers true, rows that agree on [keys] are on one task (one driver), given
    that rows are placed as the partitioning says and the unique keys hold. *)
Theorem coLocates_sound (props : PhysicalProperties) (scope : PropertyScope)
    (keys : list ExprCP) (place : Row -> nat) (r1 r2 : Row)
    (Hplace : honours (match scope with kGlobal => globalPartition props
                       | kDriver => driverPartition props end) place)
    (Hunique : Forall unique_key (globalUnique props))
    (Hco : PhysicalProperties.coLocates props scope keys = true)
    (Hagree : agree_on keys r1 r2) :
  place r1 = place r2.
Proof.
  revert Hco. unfold PhysicalProperties.coLocates.
  set (partition := match scope with kGlobal => _ | kDriver => _ end) in *.
  unfold Partitioning.is_ at 1. case_bool_decide as Eg.
  { intros _. unfold honours in Hplace. rewrite Eg in Hplace. apply Hplace. }
  destruct (negb _ && Partitioning.coLocates partition keys) eqn:Ep.
  { intros _. apply andb_true_iff in Ep as [_ (Ek & _ & Hkeys)%partition_coLocates_spec].
    unfold honours in Hplace. rewrite Ek in Hplace. apply Hplace. intros e He. auto. }
  destruct (bool_decide _ && _); [done |].
  intros (key & Hin & Hsub)%existsb_exists. apply BitSet.bitset_isSubset_spec in Hsub.
  rewrite Forall_forall in Hunique. f_equal. apply (Hunique key); [by apply list_elem_of_In |].
  intros c Hc. apply Hagree. by apply PlanObjectSet.elem_of_fromObjects, Hsub.
Qed.

Lemma check_all_ok {A} (test : A -> bool) what l :
  PhysicalProperties.check_all test what l = Ok tt <-> forall x, x ∈ l -> test x = true.
Proof.
  induction l as [|x l IH]; cbn; [set_solver |]. destruct (test x) eqn:E; cbn.
  - rewrite IH. set_solver.
  - split; [done |]. intros H. rewrite H in E by left. done.
Qed.

(** [checkReferencesColumns] passes exactly when each partitioning is at its
    scope, every expression of the partitionings and their merge orders can be
    evaluated on the output columns, and the driver order and the unique keys
    are made of output columns. *)
Theorem checkReferencesColumns_exact (g : QueryGraph) (props : PhysicalProperties)
    (outputColumns : BitSet) :
  PhysicalProperties.checkReferencesColumns g props outputColumns = Ok tt <->
  scope (globalPartition props) = kGlobal /\ scope (driverPartition props) = kDriver /\
  (forall p e, p = globalPartition props \/ p = driverPartition props ->
     e ∈ keys p ++ orderKeys p -> columns (objectAt g e) ⊆ outputColumns) /\
  (forall o c, o ∈ driverOrder props -> c ∈ order_columns o -> c ∈ outputColumns) /\
  (forall key, key ∈ globalUnique props ++ driverUnique props -> key ⊆ outputColumns).
Proof.
  unfold PhysicalProperties.checkReferencesColumns, PhysicalProperties.checkPartition, velox_check.
  destruct (decide (scope (globalPartition props) = kGlobal)) as [Hg|Hg];
    [rewrite (bool_decide_true _ Hg) | rewrite (bool_decide_false _ Hg); cbn; split; [done | tauto]].
  destruct (decide (scope (driverPartition props) = kDriver)) as [Hd|Hd];
    [rewrite (bool_decide_true _ Hd) | rewrite (bool_decide_false _ Hd); cbn; split; [done | tauto]].
  cbn.
  assert (Hpart : forall p, PlanObjectSet.containsColumns g outputColumns (keys p) &&
    PlanObjectSet.containsColumns g outputColumns (orderKeys p) = true <->
    forall e, e ∈ keys p ++ orderKeys p -> columns (objectAt g e) ⊆ outputColumns).
  { intros p. rewrite andb_true_iff, !PlanObjectSet.containsColumns_spec.
    setoid_rewrite elem_of_app. naive_solver. }
  assert (Hall : forall (A : Type) (test : A -> bool) what l (k : Result unit),
    (match PhysicalProperties.check_all test what l with Ok _ => k | Throw e => Throw e end) = Ok tt <->
    (forall x, x ∈ l -> test x = true) /\ k = Ok tt).
  { intros A test what l k. rewrite <- (check_all_ok test what).
    destruct (PhysicalProperties.check_all test what l) as [[]|]; [tauto |]. split; [done | by intros []]. }
  assert (Hcheck : forall (b : bool) what (k : Result unit),
    (match (if b then Ok tt else Throw (VeloxCheck what)) with Ok _ => k | Throw e => Throw e end) = Ok tt
    <-> b = true /\ k = Ok tt).
  { intros [] what k; [tauto | split; [done | by intros []]]. }
  unfold mbind, Result_bind. rewrite !Hcheck, !Hall, !Hpart, check_all_ok.
  setoid_rewrite PlanObjectSet.containsAll_spec. setoid_rewrite BitSet.bitset_isSubset_spec.
  split.
  - intros (H1 & H2 & H3 & H4 & H5). split_conj; [done | done | | by eauto |].
    + intros p e [->| ->]; auto.
    + intros key [Hk|Hk]%elem_of_app; auto.
  - intros (_ & _ & H1 & H2 & H3). split_conj; intros; eauto;
      apply H3, elem_of_app; by (left + right).
Qed.
End CoLocation.

Section CoLocationWitness.
#[local] Existing Instance BitSet.Velox.primitives.
Definition example_properties : PhysicalProperties :=
  mkPhysicalProperties (Partitioning.hash_keys kGlobal [1%N]) (Partitioning.unspecified kDriver)
    [] [] [].

Lemma coLocates_sound_witness :
  PhysicalProperties.coLocates example_properties kGlobal [1%N; 2%N] = true /\
  (fun r : nat * nat => r.1 mod 3) (4, 5) = (fun r : nat * nat => r.1 mod 3) (4, 6).
Proof.
  split; [reflexivity |].
  apply (coLocates_sound (fun (r : nat * nat) e => if N.eqb e 1 then r.1 else 0) example_properties
           kGlobal [1%N; 2%N] (fun r => r.1 mod 3)).
  - intros r1 r2 H. pose proof (H 1%N ltac:(left)) as E. cbn in E. by rewrite E.
  - constructor.
  - reflexivity.
  - intros e _. cbn. by destruct (N.eqb e 1).
Defined.
End CoLocationWitness.
