(* ===== verification/Nodes.v ===== *)
(** * Plan nodes as join planning sees them, and the partitioning of a join's output

    Models the parts of [axiom/optimizer/v2/Node.cpp] that join planning calls:
    what a [Join] inherits from its inputs' partitionings
    ([Join::outputPartitioning], [fullJoinPartitioning], [survivingEquiKey]),
    which inputs' unique keys its output keeps ([Join::emittedOnceSides]), and
    [Join::canBuildLoopInvariant].  A [Node] record holds the members these
    functions read.  [Builder] (expression interning) is seen through the class
    [ExprBuilder]; the arena of [QueryGraph] is the one the builder fills, so an
    interning call is a function from what it builds to its id. *)

From S2P Require Import Prelude Word64 BitSets QueryGraph Joins Partitionings.
From Stdlib Require Import Lia.
Set Warnings "-clear-no-such-hyp".
Open Scope nat_scope.

(** ** Nodes *)

Inductive NodeType :=
  | kScan | kFilter | kProject | kLimit | kSort | kTopN | kAggregate | kGroupId | kMarkDistinct
  | kValues | kUnnest | kUnionAll | kJoin | kIndexLookupJoin | kWindow | kInference | kRowNumber
  | kTopNRowNumber | kApply | kEnforceSingleRow | kAssignUniqueId | kEnforceDistinct
  | kNodeExchange | kTableWrite | kFixedPoint | kWorkingTable | kRepeat.

#[export] Instance NodeType_eq_dec : EqDecision NodeType.
Proof. solve_decision. Defined.

Record Node := mkNode {
  nodeType : NodeType;
  placed : bool;                              (* carries physical properties *)
  physicalProperties : PhysicalProperties;
  unique : list BitSet;                       (* relationalProperties().unique *)
  requiredStates : list N;                    (* names of the loop states read *)
  outputColumns : list ColumnCP;
  inputs : list N;
  unnestExpressions : list ExprCP;            (* Unnest only *)
}.

Abbreviation NodeCP := Node (only parsing).

(** ** Unique keys *)

Section UniqueKeys.
Context {VB : VeloxBits} (g : QueryGraph).

Definition anyUniqueKey (node : NodeCP) (test : BitSet -> bool) : bool :=
  if placed node then existsb test (globalUnique (physicalProperties node))
  else existsb test (unique node).

Definition atMostOneRow (node : NodeCP) : bool := anyUniqueKey node BitSet.empty.

(** The keys that are columns, as a set. *)
Definition key_columns (keys : list ExprCP) : BitSet :=
  foldl (fun columns key => if isColumn g key then BitSet.add columns key else columns)
    BitSet.new keys.

Definition uniqueOn (node : NodeCP) (keys : list ExprCP) : Result bool :=
  velox_check (0 <? length keys) "Unique key check must have keys" ≫= fun _ =>
  Ok (anyUniqueKey node (fun unique => BitSet.isSubset unique (key_columns keys))).

Definition matchesAtMostOne (side : NodeCP) (keys : list ExprCP) : Result bool :=
  match keys with [] => Ok (atMostOneRow side) | _ => uniqueOn side keys end.

Definition emittedOnceSides (joinType : JoinType) (left right : NodeCP)
    (leftKeys rightKeys : list ExprCP) : Result Sides :=
  match joinType with
  | kInner =>
      matchesAtMostOne right rightKeys ≫= fun l =>
      matchesAtMostOne left leftKeys ≫= fun r => Ok (mkSides l r)
  | kLeft => matchesAtMostOne right rightKeys ≫= fun l => Ok (mkSides l false)
  | kRight => matchesAtMostOne left leftKeys ≫= fun r => Ok (mkSides false r)
  | kLeftSemiFilter | kLeftSemiProject | kAnti => Ok (mkSides true false)
  | kRightSemiFilter | kRightSemiProject | kRightAnti => Ok (mkSides false true)
  | kFull | kCountingLeftSemiFilter | kCountingAnti => Ok (mkSides false false)
  | kNumJoinTypes => Throw (VeloxUnreachable "")
  end.

(** [distinct.insert(key).second] along the keys: columns, none repeated. *)
Fixpoint distinct_columns (seen keys : list ExprCP) : bool :=
  match keys with
  | [] => true
  | key :: keys =>
      isColumn g key && negb (bool_decide (key ∈ seen)) && distinct_columns (key :: seen) keys
  end.

Definition canBuildLoopInvariant (joinType : JoinType) (rightKeys : list ExprCP)
    (nullAsValue : bool) (left right : NodeCP) : bool :=
  if negb (right_ (loopInvariantSide joinType (negb (bool_decide (rightKeys = []))) nullAsValue
             (mkSides (negb (bool_decide (requiredStates left = [])))
                (negb (bool_decide (requiredStates right = []))))))
  then false
  else distinct_columns [] rightKeys.
End UniqueKeys.

(** ** The partitioning of a join's output *)

(** [velox::Type], as far as [supportsCoalesceKey] looks into it. *)
#[warnings="-register-all"]
Inductive VeloxType := mkType (isReal isDouble providesCustomComparison : bool)
                              (children : list VeloxType).

Fixpoint supportsCoalesceKey (type : VeloxType) : bool :=
  match type with
  | mkType isReal isDouble providesCustomComparison children =>
      if isReal || isDouble || providesCustomComparison then false
      else forallb supportsCoalesceKey children
  end.

(** Interning of expressions, and the types behind type addresses.
    [substitute] is [ExprFactory::substitute]; [makeCoalesce] is
    [ExprFactory::makeCoalesce]. *)
Class ExprBuilder := {
  typeAt : TypeCP -> VeloxType;
  substitute : ExprCP -> list ColumnCP -> list ExprCP -> Result ExprCP;
  makeCoalesce : ExprCP -> ExprCP -> ExprCP;
}.

Section OutputPartitioning.
Context {VB : VeloxBits} {C : Connector} {EB : ExprBuilder} (fuel : nat) (g : QueryGraph).

(** [Builder]'s canonical operand order. *)
Definition shouldInvert (left right : ExprCP) : bool :=
  if negb (N.eqb (valueType (objectAt g left)) (valueType (objectAt g right))) then false
  else
    let leftIsLiteral := bool_decide (type (objectAt g left) = kLiteralExpr) in
    let rightIsLiteral := bool_decide (type (objectAt g right) = kLiteralExpr) in
    if leftIsLiteral && negb rightIsLiteral then true
    else if negb leftIsLiteral && negb rightIsLiteral && N.ltb right left then true
    else false.

Definition canonicalizeCoalesce (a b : ExprCP) : ExprCP :=
  if shouldInvert a b then makeCoalesce b a else makeCoalesce a b.

Definition survivingEquiKey (key : ExprCP) (outputColumns : BitSet) : option ExprCP :=
  if negb (isColumn g key) then None
  else match column_equivalence g key with
       | Some e => find (BitSet.contains outputColumns) (equivalence_columns g e)
       | None => None
       end.

(** The first equi-key pair that is the pair of co-partitioned keys. *)
Fixpoint join_key_index (leftKey rightKey : ExprCP) (leftKeys rightKeys : list ExprCP)
    : option nat :=
  match leftKeys, rightKeys with
  | l :: leftKeys, r :: rightKeys =>
      if sameOrEqual fuel g leftKey l && sameOrEqual fuel g rightKey r then Some 0
      else S <$> join_key_index leftKey rightKey leftKeys rightKeys
  | _, _ => None
  end.

(** One key of a full join's partitioning, or [None] to give up. *)
Definition full_join_key (leftPartKey rightPartKey : ExprCP) (leftKeys rightKeys : list ExprCP)
    (outputColumns : BitSet) (joinOutputColumns joinSourceColumns : list ColumnCP)
    : Result (option ExprCP) :=
  match join_key_index leftPartKey rightPartKey leftKeys rightKeys with
  | None => Ok None
  | Some j =>
      substitute (nth j leftKeys 0%N) joinSourceColumns joinOutputColumns ≫= fun leftKey =>
      substitute (nth j rightKeys 0%N) joinSourceColumns joinOutputColumns ≫= fun rightKey =>
      let l := objectAt g leftKey in
      let r := objectAt g rightKey in
      if nonDefaultNullBehavior l || nonDefaultNullBehavior r ||
         negb (N.eqb (valueType l) (valueType r)) ||
         negb (supportsCoalesceKey (typeAt (valueType l)))
      then Ok None
      else
        let key := canonicalizeCoalesce leftKey rightKey in
        if negb (PlanObjectSet.containsColumns1 g outputColumns key) then Ok None
        else Ok (Some key)
  end.

Fixpoint full_join_keys (partKeys : list (ExprCP * ExprCP)) (leftKeys rightKeys : list ExprCP)
    (outputColumns : BitSet) (joinOutputColumns joinSourceColumns : list ColumnCP)
    : Result (option (list ExprCP)) :=
  match partKeys with
  | [] => Ok (Some [])
  | (l, r) :: rest =>
      full_join_key l r leftKeys rightKeys outputColumns joinOutputColumns joinSourceColumns
        ≫= fun key =>
      match key with
      | None => Ok None
      | Some key =>
          option_map (cons key) <$>
            full_join_keys rest leftKeys rightKeys outputColumns joinOutputColumns joinSourceColumns
      end
  end.

Definition fullJoinPartitioning (leftPartitioning rightPartitioning : Partitioning)
    (leftKeys rightKeys : list ExprCP) (outputColumns : BitSet)
    (joinOutputColumns joinSourceColumns : list ColumnCP) : Result Partitioning :=
  let none := Partitioning.unspecified (scope leftPartitioning) in
  if bool_decide (leftKeys = []) then Ok none
  else if negb (bool_decide (kind leftPartitioning = kPartitioned)) ||
          negb (bool_decide (kind rightPartitioning = kPartitioned)) ||
          replicateNullsAndAny leftPartitioning || replicateNullsAndAny rightPartitioning ||
          negb (length (keys leftPartitioning) =? length (keys rightPartitioning))
  then Ok none
  else match Partitioning.commonJoinPartitionType (partitionType leftPartitioning)
               (partitionType rightPartitioning) with
       | None => Ok none
       | Some connectorType =>
           full_join_keys (zip (keys leftPartitioning) (keys rightPartitioning)) leftKeys rightKeys
             outputColumns joinOutputColumns joinSourceColumns ≫= fun keys =>
           match keys with
           | None => Ok none
           | Some keys =>
               Ok (match connectorType with
                   | None => Partitioning.hash_keys (scope leftPartitioning) keys
                   | Some t => Partitioning.connectorHash (scope leftPartitioning) keys t
                   end)
           end
       end.

(** The re-expressed keys of an inner join's partitioning. *)
Fixpoint surviving_keys (keys : list ExprCP) (outputColumns : BitSet) : option (list ExprCP) :=
  match keys with
  | [] => Some []
  | key :: keys =>
      if PlanObjectSet.containsColumns1 g outputColumns key
      then cons key <$> surviving_keys keys outputColumns
      else match survivingEquiKey key outputColumns with
           | None => None
           | Some survivingKey => cons survivingKey <$> surviving_keys keys outputColumns
           end
  end.

Definition set_partitionType (p : Partitioning) (t : option PartitionTypeP) : Partitioning :=
  mkPartitioning (kind p) t (keys p) (orderKeys p) (orderTypes p) (scope p) (replicateNullsAndAny p).
Definition set_keys (p : Partitioning) (ks : list ExprCP) : Partitioning :=
  mkPartitioning (kind p) (partitionType p) ks (orderKeys p) (orderTypes p) (scope p)
    (replicateNullsAndAny p).

(** The side whose partitioning the output follows. *)
Definition fromLeft (preserved : Sides) (leftPartitioning : Partitioning) : bool :=
  left_ preserved && negb (right_ preserved && Partitioning.is_ leftPartitioning kBroadcast).

(** The bucket function [source] and [other] share; null stays as it is. *)
Definition fold_partition_type (source other : Partitioning) : option Partitioning :=
  match partitionType source, partitionType other with
  | Some _, Some _ =>
      set_partitionType source <$>
        Partitioning.commonJoinPartitionType (partitionType source) (partitionType other)
  | _, _ => Some source
  end.

Definition inherit_partitioning (joinType : JoinType) (source other : Partitioning)
    (outputColumns : BitSet) : Partitioning :=
  let none := Partitioning.unspecified (scope source) in
  let output := Partitioning.dropOrder source in
  if negb (bool_decide (kind output = kPartitioned)) then output
  else match fold_partition_type output other with
       | None => none
       | Some output =>
           if PlanObjectSet.containsAll outputColumns (keys output) then output
           else if negb (bool_decide (joinType = kInner)) then none
           else match surviving_keys (keys output) outputColumns with
                | None => none
                | Some outputKeys => set_keys output outputKeys
                end
       end.

Definition outputPartitioning (joinType : JoinType) (leftPartitioning rightPartitioning : Partitioning)
    (leftKeys rightKeys : list ExprCP) (outputColumns : BitSet)
    (joinOutputColumns joinSourceColumns : list ColumnCP) : Result Partitioning :=
  velox_check (length leftKeys =? length rightKeys) "leftKeys.size(), rightKeys.size()" ≫= fun _ =>
  if Partitioning.is_ leftPartitioning kGather && Partitioning.is_ rightPartitioning kGather
  then Ok (Partitioning.gather (scope leftPartitioning))
  else if Partitioning.is_ leftPartitioning kBroadcast &&
          Partitioning.is_ rightPartitioning kBroadcast
  then Ok (Partitioning.dropOrder leftPartitioning)
  else match joinType with
       | kFull => fullJoinPartitioning leftPartitioning rightPartitioning leftKeys rightKeys
                    outputColumns joinOutputColumns joinSourceColumns
       | _ =>
           preservedSides joinType ≫= fun preserved =>
           if negb (left_ preserved) && negb (right_ preserved)
           then Ok (Partitioning.unspecified (scope leftPartitioning))
           else if fromLeft preserved leftPartitioning
           then Ok (inherit_partitioning joinType leftPartitioning rightPartitioning outputColumns)
           else Ok (inherit_partitioning joinType rightPartitioning leftPartitioning outputColumns)
       end.
End OutputPartitioning.

(** ** Theory of output partitionings *)

(** Keys are the keys of a [kPartitioned] partitioning. *)
Definition partitioning_ok (p : Partitioning) : Prop := kind p <> kPartitioned -> keys p = [].

Section OutputTheory.
Context {VB : VeloxBits} {C : Connector} {EB : ExprBuilder} (fuel : nat) (g : QueryGraph).

(** An expression that is an output column or is computed from output columns. *)
Definition evaluable (outputColumns : BitSet) (e : ExprCP) : Prop :=
  e ∈ outputColumns \/ columns (objectAt g e) ⊆ outputColumns.

Lemma survivingEquiKey_spec key outputColumns c :
  survivingEquiKey g key outputColumns = Some c ->
  c ∈ outputColumns /\ exists e, column_equivalence g key = Some e /\ c ∈ equivalence_columns g e.
Proof.
  unfold survivingEquiKey. destruct (isColumn g key); [| done]. cbn.
  destruct (column_equivalence g key) as [e|]; [| done].
  intros [Hin Hc]%find_some. apply BitSet.bitset_contains_spec in Hc.
  split; [done |]. exists e. by rewrite list_elem_of_In.
Qed.

Lemma surviving_keys_spec ks outputColumns ks' :
  surviving_keys g ks outputColumns = Some ks' ->
  Forall2 (fun k k' => (k' = k /\ columns (objectAt g k) ⊆ outputColumns) \/
                       survivingEquiKey g k outputColumns = Some k') ks ks'.
Proof.
  revert ks'. induction ks as [|k ks IH]; intros ks'; cbn; [by intros [= <-] |].
  destruct (PlanObjectSet.containsColumns1 g outputColumns k) eqn:E.
  - apply PlanObjectSet.containsColumns1_spec in E.
    intros (rest & Hrest & ->)%fmap_Some. constructor; auto.
  - destruct (survivingEquiKey g k outputColumns) as [k'|] eqn:Ek; [| done].
    intros (rest & Hrest & ->)%fmap_Some. constructor; auto.
Qed.

(** What [inherit_partitioning] keeps of a [kPartitioned] source. *)
Lemma inherit_partitioning_spec t source other outputColumns out :
  inherit_partitioning g t source other outputColumns = out -> kind out = kPartitioned ->
  kind source = kPartitioned /\ orderKeys out = [] /\ scope out = scope source /\
  replicateNullsAndAny out = replicateNullsAndAny source /\
  (partitionType out = partitionType source \/
   exists ts to, partitionType source = Some ts /\ partitionType other = Some to /\
     Partitioning.commonJoinPartitionType (Some ts) (Some to) = Some (partitionType out)) /\
  Forall2 (fun k k' => (k' = k /\ evaluable outputColumns k) \/
     (t = kInner /\ survivingEquiKey g k outputColumns = Some k')) (keys source) (keys out).
Proof.
  unfold inherit_partitioning. cbn [kind Partitioning.dropOrder].
  case_bool_decide as Ek; cbn [negb]; [| by intros <-].
  unfold fold_partition_type. cbn [partitionType Partitioning.dropOrder].
  set (folded := match partitionType source with Some _ => _ | None => _ end).
  assert (Hf : forall o, folded = Some o ->
    kind o = kPartitioned /\ keys o = keys source /\ orderKeys o = [] /\ scope o = scope source /\
    replicateNullsAndAny o = replicateNullsAndAny source /\
    (partitionType o = partitionType source \/
     exists ts to, partitionType source = Some ts /\ partitionType other = Some to /\
       Partitioning.commonJoinPartitionType (Some ts) (Some to) = Some (partitionType o))).
  { intros o. unfold folded. destruct (partitionType source) as [ts|] eqn:Es.
    - destruct (partitionType other) as [to|] eqn:Eo; [| by intros [= <-]; cbn; auto 10].
      intros (c & Hc & ->)%fmap_Some. cbn. split_conj; auto. right. eauto 6.
    - intros [= <-]. cbn. auto 10. }
  destruct folded as [o|]; [| by intros <-].
  destruct (Hf o eq_refl) as (Hk & Hkeys & Hord & Hs & Hr & Ht).
  destruct (PlanObjectSet.containsAll outputColumns (keys o)) eqn:Ea.
  - intros <- _. split_conj; try done. rewrite Hkeys.
    pose proof (proj1 (PlanObjectSet.containsAll_spec _ _) Ea) as Hall. rewrite Hkeys in Hall.
    apply Forall_Forall2_diag, Forall_forall. intros k Hin. left. split; [done |]. left. auto.
  - case_bool_decide as Et; cbn [negb]; [| by intros <-].
    destruct (surviving_keys g (keys o) outputColumns) as [ks|] eqn:Esk; [| by intros <-].
    intros <- _. cbn. split_conj; try done. apply surviving_keys_spec in Esk. rewrite Hkeys in Esk.
    eapply Forall2_impl; [exact Esk |]. intros k k' [[-> Hc]|Hk']; [left | right]; [| done].
    split; [done |]. by right.
Qed.

Lemma inherit_partitioning_other t source other outputColumns out :
  inherit_partitioning g t source other outputColumns = out -> kind out <> kPartitioned ->
  partitioning_ok source -> keys out = [] /\ orderKeys out = [] /\ scope out = scope source.
Proof.
  unfold inherit_partitioning. cbn [kind Partitioning.dropOrder].
  case_bool_decide as Ek; cbn [negb]; [| intros <- _ H; cbn; auto].
  unfold fold_partition_type. cbn [partitionType Partitioning.dropOrder].
  destruct (match partitionType source with Some _ => _ | None => _ end) as [o|] eqn:Eo;
    [| by intros <-].
  assert (Hko : kind o = kPartitioned).
  { destruct (partitionType source), (partitionType other);
      [apply fmap_Some in Eo as (c & _ & ->) | injection Eo as <- ..]; done. }
  repeat case_match; intros <- Hk _; done.
Qed.

Lemma full_join_keys_spec lks rks leftKeys rightKeys outputColumns jout jsrc ks :
  length lks = length rks ->
  full_join_keys fuel g (zip lks rks) leftKeys rightKeys outputColumns jout jsrc = Ok (Some ks) ->
  length ks = length lks /\
  forall i lk rk k, lks !! i = Some lk -> rks !! i = Some rk -> ks !! i = Some k ->
    full_join_key fuel g lk rk leftKeys rightKeys outputColumns jout jsrc = Ok (Some k).
Proof.
  revert rks ks. induction lks as [|lk lks IH]; intros [|rk rks] ks Hlen; cbn in *; try done.
  { intros [= <-]. done. }
  destruct (full_join_key fuel g lk rk leftKeys rightKeys outputColumns jout jsrc)
    as [[key|]|] eqn:Ek; cbn; try done.
  destruct (full_join_keys _ _ _ _ _ _ _ _) as [rest|] eqn:Er; cbn; [| done].
  intros [= Hks]. apply fmap_Some in Hks as (rest' & -> & ->).
  destruct (IH rks rest' ltac:(lia) Er) as [Hl Hi]. split; [cbn; lia |].
  intros [|i] lk' rk' k; cbn; [by intros [= <-] [= <-] [= <-] | apply Hi].
Qed.

Lemma full_join_key_evaluable lk rk leftKeys rightKeys outputColumns jout jsrc k :
  full_join_key fuel g lk rk leftKeys rightKeys outputColumns jout jsrc = Ok (Some k) ->
  columns (objectAt g k) ⊆ outputColumns.
Proof.
  unfold full_join_key. destruct (join_key_index _ _ _ _ _ _) as [j|]; [| done].
  destruct (substitute (nth j leftKeys _) _ _) as [l|]; cbn; [| done].
  destruct (substitute (nth j rightKeys _) _ _) as [r|]; cbn; [| done].
  destruct (nonDefaultNullBehavior _ || _ || _ || _); [done |].
  destruct (PlanObjectSet.containsColumns1 _ _ _) eqn:E; cbn; [| done].
  intros [= <-]. by apply PlanObjectSet.containsColumns1_spec.
Qed.

(** What [fullJoinPartitioning] found when it kept a partitioning. *)
Lemma full_join_spec lp rp leftKeys rightKeys outputColumns jout jsrc out :
  fullJoinPartitioning fuel g lp rp leftKeys rightKeys outputColumns jout jsrc = Ok out ->
  orderKeys out = [] /\ scope out = scope lp /\
  ((kind out = kUnspecified /\ keys out = []) \/
   (kind out = kPartitioned /\ length (keys lp) = length (keys rp) /\
    Partitioning.commonJoinPartitionType (partitionType lp) (partitionType rp) =
      Some (partitionType out) /\
    full_join_keys fuel g (zip (keys lp) (keys rp)) leftKeys rightKeys outputColumns jout jsrc =
      Ok (Some (keys out)))).
Proof.
  unfold fullJoinPartitioning. case_bool_decide; [intros [= <-]; cbn; auto |].
  destruct (_ || _ || _ || _ || negb (_ =? _)) eqn:Eg; [intros [= <-]; cbn; auto |].
  rewrite !orb_false_iff, !negb_false_iff in Eg. destruct Eg as (_ & Hlen%Nat.eqb_eq).
  destruct (Partitioning.commonJoinPartitionType _ _) as [ct|]; [| intros [= <-]; cbn; auto].
  destruct (full_join_keys _ _ _ _ _ _ _ _) as [[ks|]|]; cbn; [| intros [= <-]; cbn; auto | done].
  intros [= <-]. destruct ct; cbn; auto 10.
Qed.

(** C31: whatever partitioning [Join::outputPartitioning] derives can be
    evaluated on the join's output: every column a key depends on is an output
    column, the merge order of an input is dropped, and only a [kPartitioned]
    result has keys - so the node it is given to passes
    [checkReferencesColumns]. *)
Theorem output_partitioning_is_evaluable (t : JoinType) (lp rp : Partitioning)
    (leftKeys rightKeys : list ExprCP) (outputColumns : BitSet) (jout jsrc : list ColumnCP)
    (out : Partitioning)
    (Hcolumns : forall c, c ∈ outputColumns -> columns (objectAt g c) ⊆ outputColumns)
    (Hl : partitioning_ok lp) (Hr : partitioning_ok rp)
    (Hout : outputPartitioning fuel g t lp rp leftKeys rightKeys outputColumns jout jsrc = Ok out) :
  (forall k, k ∈ keys out -> columns (objectAt g k) ⊆ outputColumns) /\
  orderKeys out = [] /\ partitioning_ok out /\ (scope out = scope lp \/ scope out = scope rp).
Proof.
  revert Hout. unfold outputPartitioning.
  destruct (velox_check _ _); cbn [mbind Result_bind]; [| done].
  assert (Hinherit : forall source other, partitioning_ok source ->
    inherit_partitioning g t source other outputColumns = out ->
    (forall k, k ∈ keys out -> columns (objectAt g k) ⊆ outputColumns) /\
    orderKeys out = [] /\ partitioning_ok out /\ scope out = scope source).
  { intros source other Hs Hi. destruct (decide (kind out = kPartitioned)) as [Hk|Hk].
    - destruct (inherit_partitioning_spec _ _ _ _ _ Hi Hk) as (_ & Ho & Hsc & _ & _ & Hkeys).
      split_conj; [| done | by intros ? | done]. intros k Hin.
      apply list_elem_of_lookup in Hin as [i Hin].
      destruct (Forall2_lookup_r _ _ _ _ _ Hkeys Hin) as (k0 & _ & [(-> & [Hc|Hc])|[_ Hc]]); auto.
      apply survivingEquiKey_spec in Hc as [Hc _]. auto.
    - destruct (inherit_partitioning_other _ _ _ _ _ Hi Hk Hs) as (Hkeys & Ho & Hsc).
      split_conj; [rewrite Hkeys; set_solver | done | by intros _ | done]. }
  assert (Hnone : keys out = [] -> orderKeys out = [] -> scope out = scope lp ->
    (forall k, k ∈ keys out -> columns (objectAt g k) ⊆ outputColumns) /\
    orderKeys out = [] /\ partitioning_ok out /\ (scope out = scope lp \/ scope out = scope rp)).
  { intros Hk Ho Hs. split_conj; [by rewrite Hk; intros k ?%not_elem_of_nil | done | by intros _ | auto]. }
  destruct (Partitioning.is_ lp kGather && _); [by intros [= <-]; apply Hnone |].
  destruct (Partitioning.is_ lp kBroadcast && _) eqn:Eb.
  { intros [= <-]. apply andb_true_iff in Eb as [Eb%bool_decide_eq_true _].
    apply Hnone; [apply Hl; by rewrite Eb | done | done]. }
  assert (Hfollow : preservedSides t ≫= (fun preserved =>
      if negb (left_ preserved) && negb (right_ preserved)
      then Ok (Partitioning.unspecified (scope lp))
      else if fromLeft preserved lp
      then Ok (inherit_partitioning g t lp rp outputColumns)
      else Ok (inherit_partitioning g t rp lp outputColumns)) = Ok out ->
    (forall k, k ∈ keys out -> columns (objectAt g k) ⊆ outputColumns) /\
    orderKeys out = [] /\ partitioning_ok out /\ (scope out = scope lp \/ scope out = scope rp)).
  { destruct (preservedSides t) as [preserved|]; cbn [mbind Result_bind]; [| done].
    destruct (negb _ && negb _); [by intros [= <-]; apply Hnone |].
    destruct (fromLeft preserved lp); intros [= Hi];
      [destruct (Hinherit lp rp Hl Hi) as (? & ? & ? & ?)
      | destruct (Hinherit rp lp Hr Hi) as (? & ? & ? & ?)]; auto. }
  destruct t; try exact Hfollow. clear Hfollow Hinherit. intros Hf.
  apply full_join_spec in Hf as (Ho & Hs & [[Hk Hkeys]|(Hk & Hlen & _ & Hkeys)]).
  - by apply Hnone.
  - apply full_join_keys_spec in Hkeys as [Hl' Hi]; [| done].
    split_conj; [| done | by intros ? | auto].
    intros k [i Hin]%list_elem_of_lookup.
    pose proof (lookup_lt_Some _ _ _ Hin) as Hlt.
    destruct (lookup_lt_is_Some_2 (keys lp) i ltac:(lia)) as [lk Hlk].
    destruct (lookup_lt_is_Some_2 (keys rp) i ltac:(lia)) as [rk Hrk].
    eapply full_join_key_evaluable, (Hi i); eauto.
Qed.
End OutputTheory.

(** ** Where the output partitioning says the rows are *)

Section Placement.
Context {VB : VeloxBits} {EB : ExprBuilder} {V : Type} `{PF : PartitionFunctions V}.
Context (fuel : nat) (g : QueryGraph).
(** The values of expressions on a row of each input and on the output row. *)
Context (lv rv ov : ExprCP -> V).

(** The output carries the values of the preserved side's expressions. *)
Definition carries (side : bool) (p : Partitioning) (sv : ExprCP -> V) (outputColumns : BitSet)
    : Prop :=
  side = true -> forall k, k ∈ keys p -> evaluable g outputColumns k -> ov k = sv k.

(** In an inner join's output, the members of a key's class hold values that hash like its
    value. *)
Definition classes_hold (p : Partitioning) (sv : ExprCP -> V) (outputColumns : BitSet) : Prop :=
  forall k c, k ∈ keys p -> same_class g k c -> c ∈ outputColumns -> hash_alike (ov c) (sv k).

Lemma inherit_partitioning_task t source other outputColumns out sv :
  classes_ok g -> inherit_partitioning g t source other outputColumns = out ->
  kind out = kPartitioned -> carries true source sv outputColumns ->
  (t = kInner -> classes_hold source sv outputColumns) ->
  task_of out ov = task_of source sv.
Proof.
  intros Hok Hi Hk Hcarry Hclass.
  destruct (inherit_partitioning_spec g t source other outputColumns out Hi Hk)
    as (_ & _ & _ & _ & Ht & Hkeys).
  unfold task_of. transitivity (function_task (partitionType out) (map sv (keys source))).
  - apply tasks_alike.
    assert (Hgen : forall ks ks', Forall2 (fun k k' => (k' = k /\ evaluable g outputColumns k) \/
        (t = kInner /\ survivingEquiKey g k outputColumns = Some k')) ks ks' ->
      (forall k, k ∈ ks -> k ∈ keys source) -> Forall2 hash_alike (map ov ks') (map sv ks)); [| by apply Hgen].
    induction 1 as [|k k' ks ks' Hkey _ IH]; cbn; intros Hin; constructor; [| apply IH; set_solver].
    destruct Hkey as [[-> He]|[Et Hs]]; [rewrite Hcarry; [done | done | set_solver | done] |].
    apply survivingEquiKey_spec in Hs as (Hc & e & He & Hin'). apply (Hclass Et); [set_solver | | done].
    right. exists e. split; [done |]. by eapply class_points.
  - destruct Ht as [->|(ts & to & Es & _ & Hc)]; [done |]. rewrite Es.
    apply (common_join_function _ _ _ Hc (map sv (keys source))).
Qed.

(** C30: except for a full join, an output row sits on the task where the side
    the partitioning was taken from placed its row: hashing the derived keys of
    the output row gives the task of the source row.  It takes that the columns of a
    preserved side reach the output unchanged and, for a key an inner join substitutes by
    another column of its class, that the two hold values on the row that hash alike - so no
    [REAL] or [DOUBLE] key, and none of a type with a custom comparison, which the code
    excludes for full joins only. *)
Theorem output_partitioning_follows_source (t : JoinType) (lp rp : Partitioning)
    (leftKeys rightKeys : list ExprCP) (outputColumns : BitSet) (jout jsrc : list ColumnCP)
    (out : Partitioning) (preserved : Sides)
    (Hok : classes_ok g) (Ht : t <> kFull) (Hs : preservedSides t = Ok preserved)
    (Hl : carries (left_ preserved) lp lv outputColumns)
    (Hr : carries (right_ preserved) rp rv outputColumns)
    (Hclass : t = kInner ->
       classes_hold lp lv outputColumns /\ classes_hold rp rv outputColumns)
    (Hout : outputPartitioning fuel g t lp rp leftKeys rightKeys outputColumns jout jsrc = Ok out)
    (Hk : kind out = kPartitioned) :
  task_of out ov = if fromLeft preserved lp then task_of lp lv else task_of rp rv.
Proof.
  revert Hout. unfold outputPartitioning.
  destruct (velox_check _ _); cbn [mbind Result_bind]; [| done].
  destruct (Partitioning.is_ lp kGather && _); [by intros [= <-] |].
  destruct (Partitioning.is_ lp kBroadcast && _) eqn:Eb.
  { intros [= <-]. apply andb_true_iff in Eb as [Eb%bool_decide_eq_true _]. cbn in Hk. congruence. }
  replace (match t with kFull => fullJoinPartitioning fuel g lp rp leftKeys rightKeys
                                   outputColumns jout jsrc
           | _ => preservedSides t ≫= _ end) with
    (if negb (left_ preserved) && negb (right_ preserved)
     then Ok (Partitioning.unspecified (scope lp))
     else if fromLeft preserved lp then Ok (inherit_partitioning g t lp rp outputColumns)
     else Ok (inherit_partitioning g t rp lp outputColumns))
    by (destruct t; simplify_eq/=; done).
  destruct (negb (left_ preserved) && negb (right_ preserved)) eqn:En; [by intros [= <-] |].
  destruct (fromLeft preserved lp) eqn:Ef; intros [= Hi].
  - eapply inherit_partitioning_task; eauto; [| intros; by apply Hclass].
    intros _. apply Hl. unfold fromLeft in Ef. by destruct (left_ preserved).
  - eapply inherit_partitioning_task; eauto; [| intros; by apply Hclass].
    intros _. apply Hr. unfold fromLeft in Ef. destruct (left_ preserved), (right_ preserved); done.
Qed.

(** The values a full join pads an absent side with. *)
Context (null : V) `{EqDecision V}.
Definition coalesce (a b : V) : V := if decide (a = null) then b else a.

Lemma join_key_index_spec lk rk leftKeys rightKeys j :
  join_key_index fuel g lk rk leftKeys rightKeys = Some j ->
  exists l r, leftKeys !! j = Some l /\ rightKeys !! j = Some r /\
    sameOrEqual fuel g lk l = true /\ sameOrEqual fuel g rk r = true.
Proof.
  revert rightKeys j. induction leftKeys as [|l ls IH]; intros [|r rs] j; cbn; try done.
  destruct (sameOrEqual fuel g lk l && sameOrEqual fuel g rk r) eqn:E.
  - apply andb_true_iff in E as [? ?]. intros [= <-]. by exists l, r.
  - intros (j' & Hj' & ->)%fmap_Some. destruct (IH _ _ Hj') as (a & b & H). by exists a, b.
Qed.

Section FullJoin.
Context (leftKeys rightKeys : list ExprCP) (jout jsrc : list ColumnCP).
Context (leftPresent rightPresent : bool).
Context (Hsame : forall a b, sameOrEqual fuel g a b = true -> lv a = lv b /\ rv a = rv b).
Context (Hcoalesce : forall a b, ov (makeCoalesce a b) = coalesce (ov a) (ov b)).
Context (Hleft : forall e e', e ∈ leftKeys -> substitute e jsrc jout = Ok e' ->
  nonDefaultNullBehavior (objectAt g e') = false -> ov e' = if leftPresent then lv e else null).
Context (Hright : forall e e', e ∈ rightKeys -> substitute e jsrc jout = Ok e' ->
  nonDefaultNullBehavior (objectAt g e') = false -> ov e' = if rightPresent then rv e else null).
Context (Hmatched : leftPresent = true -> rightPresent = true ->
  forall i l r, leftKeys !! i = Some l -> rightKeys !! i = Some r -> lv l = rv r).

Lemma full_join_key_value outputColumns lk rk k :
  full_join_key fuel g lk rk leftKeys rightKeys outputColumns jout jsrc = Ok (Some k) ->
  (leftPresent = true -> ov k = lv lk) /\ (rightPresent = true -> ov k = rv rk).
Proof.
  unfold full_join_key.
  destruct (join_key_index fuel g lk rk leftKeys rightKeys) as [j|] eqn:Ej; [| done].
  destruct (join_key_index_spec _ _ _ _ _ Ej) as (l & r & Hl & Hr & Esl & Esr).
  rewrite (nth_lookup_Some _ _ _ _ Hl), (nth_lookup_Some _ _ _ _ Hr).
  destruct (substitute l jsrc jout) as [l'|] eqn:El; cbn; [| done].
  destruct (substitute r jsrc jout) as [r'|] eqn:Er; cbn; [| done].
  destruct (_ || _ || _ || _) eqn:Eg; [done |]. rewrite !orb_false_iff in Eg.
  destruct Eg as [[[Enl Enr] _] _]. destruct (negb _); [done |]. intros [= <-].
  pose proof (Hleft l l' ltac:(by eapply list_elem_of_lookup_2) El Enl) as Ol.
  pose proof (Hright r r' ltac:(by eapply list_elem_of_lookup_2) Er Enr) as Or.
  rewrite (proj1 (Hsame _ _ Esl)), (proj2 (Hsame _ _ Esr)).
  unfold canonicalizeCoalesce. pose proof (fun Hp Hq => Hmatched Hp Hq j l r Hl Hr) as Hm.
  destruct (shouldInvert g l' r'); rewrite Hcoalesce, Ol, Or; unfold coalesce;
    destruct leftPresent, rightPresent; repeat case_decide; intuition congruence.
Qed.

(** Keys that hold the same values position by position have the same task. *)
Lemma task_of_pointwise (p out : Partitioning) (sv : ExprCP -> V) :
  length (keys out) = length (keys p) ->
  (forall i k k', keys p !! i = Some k -> keys out !! i = Some k' -> ov k' = sv k) ->
  map ov (keys out) = map sv (keys p).
Proof.
  intros Hlen H. apply list_eq. intros i. rewrite !list_lookup_fmap.
  destruct (keys out !! i) as [k'|] eqn:Ek'; cbn.
  - destruct (lookup_lt_is_Some_2 (keys p) i) as [k Ek];
      [rewrite <- Hlen; by eapply lookup_lt_Some |].
    rewrite Ek. cbn. f_equal. by apply (H i).
  - apply lookup_ge_None in Ek'. by rewrite lookup_ge_None_2 by lia.
Qed.

(** An output row of a full join over co-partitioned inputs sits where
    either side placed its row: the coalesce of each key pair holds the value
    that placed it, whichever side is absent and whatever the canonical operand
    order.  Present sides agree on the equi-keys, an absent side's keys read as
    NULL (they have default null behaviour), and [substitute] renames an input's
    key to the output's columns. *)
Theorem full_join_partitioning_places_rows (lp rp : Partitioning) (outputColumns : BitSet)
    (out : Partitioning)
    (Hout : outputPartitioning fuel g kFull lp rp leftKeys rightKeys outputColumns jout jsrc = Ok out)
    (Hk : kind out = kPartitioned) :
  (leftPresent = true -> task_of out ov = task_of lp lv) /\
  (rightPresent = true -> task_of out ov = task_of rp rv).
Proof.
  revert Hout. unfold outputPartitioning.
  destruct (velox_check _ _); cbn [mbind Result_bind]; [| done].
  destruct (Partitioning.is_ lp kGather && _); [by intros [= <-] |].
  destruct (Partitioning.is_ lp kBroadcast && _) eqn:Eb.
  { intros [= <-]. apply andb_true_iff in Eb as [Eb%bool_decide_eq_true _]. cbn in Hk. congruence. }
  intros Hf. apply full_join_spec in Hf as (_ & _ & [[Hk' _]|(_ & Hpl & Hct & Hkeys)]); [congruence |].
  apply full_join_keys_spec in Hkeys as [Hlk Hi]; [| done].
  unfold task_of. destruct (common_join_function _ _ _ Hct (map ov (keys out))) as [E1 E2].
  split; intros Hp; [rewrite E1 | rewrite E2]; f_equal; apply task_of_pointwise; try lia;
    intros i k k' Ek Ek'.
  - destruct (lookup_lt_is_Some_2 (keys rp) i) as [rk Erk];
      [rewrite <- Hpl; by eapply lookup_lt_Some |].
    by apply (full_join_key_value outputColumns k rk k' (Hi i k rk k' Ek Erk Ek')).
  - destruct (lookup_lt_is_Some_2 (keys lp) i) as [lk Elk];
      [rewrite Hpl; by eapply lookup_lt_Some |].
    by apply (full_join_key_value outputColumns lk k k' (Hi i lk k k' Elk Ek Ek')).
Qed.
End FullJoin.
End Placement.

(** ** Concrete joins of the columns [a], [b] (one class) and [c] *)

Section Witnesses.
#[local] Existing Instance BitSet.Velox.primitives.
#[local] Instance example_builder : ExprBuilder := {
  typeAt _ := mkType false false false [];
  substitute e _ _ := Ok e;
  makeCoalesce a b := if N.eqb a 2 then b else a;
}.
#[local] Instance one_connector : Connector := {
  numPartitions _ := 4%Z; copartitionedType l r := Some l;
}.
#[local, refine] Instance one_function : PartitionFunctions N := {
  connector_task _ vs := N.to_nat (foldr N.add 0%N vs) mod 4;
  hash_task vs := N.to_nat (foldr N.add 0%N vs) mod 3;
}.
Proof. done. Defined.

Lemma example_columns c :
  c ∈ PlanObjectSet.fromObjects [0%N] ->
  columns (objectAt example_graph_ab c) ⊆ PlanObjectSet.fromObjects [0%N].
Proof.
  intros ->%PlanObjectSet.elem_of_fromObjects%list_elem_of_singleton.
  replace (columns (objectAt example_graph_ab 0)) with BitSet.new by reflexivity.
  by intros x ?%BitSet.not_elem_of_new.
Qed.

Lemma output_partitioning_is_evaluable_witness :
  let out := Partitioning.hash_keys kGlobal [0%N] in
  outputPartitioning 1 example_graph_ab kInner (Partitioning.hash_keys kGlobal [0%N])
    (Partitioning.hash_keys kGlobal [2%N]) [0%N] [2%N] (PlanObjectSet.fromObjects [0%N]) [] [] = Ok out /\
  orderKeys out = [].
Proof.
  split; [vm_compute; reflexivity |].
  refine (proj1 (proj2 (output_partitioning_is_evaluable 1 example_graph_ab kInner
    (Partitioning.hash_keys kGlobal [0%N]) (Partitioning.hash_keys kGlobal [2%N]) [0%N] [2%N]
    (PlanObjectSet.fromObjects [0%N]) [] [] _ _ _ _ _))).
  - apply example_columns.
  - by intros [].
  - by intros [].
  - vm_compute. reflexivity.
Defined.

(** A graph of two columns that read themselves, in one class. *)
Definition joined_column (id : N) : PlanObject :=
  mkPlanObject kColumnExpr (PlanObjectSet.fromObjects [id]) 1 false "key" None [] false None [].
Definition joined_columns : QueryGraph := mkQueryGraph {[ 0%N := joined_column 0; 2%N := joined_column 2 ]} ∅ 0.
Definition joined_graph : QueryGraph := snd (equals joined_columns 0 2).

Lemma joined_graph_ok : classes_ok joined_graph.
Proof.
  refine (proj1 (new_class_spec joined_columns 0 2 _ eq_refl eq_refl
    ltac:(eexists; reflexivity) ltac:(eexists; reflexivity))).
  apply fresh_graph_ok, (bool_decide_unpack _). vm_compute. exact I.
Qed.

(** The left key [0] is not an output column; the right key [2] of its class takes its place. *)
Lemma output_partitioning_follows_source_witness :
  let ov (e : N) := if (e =? 2)%N then 5%N else 7%N in
  let source := Partitioning.hash_keys kGlobal [0%N] in
  let out := Partitioning.hash_keys kGlobal [2%N] in
  outputPartitioning 1 joined_graph kInner source Partitioning.globalBroadcast [0%N] [2%N]
    (PlanObjectSet.fromObjects [2%N]) [] [] = Ok out /\
  task_of out ov = task_of source (fun _ => 5%N).
Proof.
  intros ov source out.
  assert (Hout : outputPartitioning 1 joined_graph kInner source Partitioning.globalBroadcast [0%N] [2%N]
    (PlanObjectSet.fromObjects [2%N]) [] [] = Ok out) by (vm_compute; reflexivity).
  split; [exact Hout |].
  assert (Hcolumn : forall c, c ∈ PlanObjectSet.fromObjects [2%N] -> c = 2%N).
  { by intros c ->%PlanObjectSet.elem_of_fromObjects%list_elem_of_singleton. }
  refine (output_partitioning_follows_source 1 joined_graph (fun _ => 5%N) (fun _ => 5%N) ov kInner
    source Partitioning.globalBroadcast [0%N] [2%N] (PlanObjectSet.fromObjects [2%N]) [] [] out (mkSides true true)
    joined_graph_ok _ eq_refl _ _ _ Hout eq_refl); [done | | | split].
  - intros _ k Hk He. apply list_elem_of_singleton in Hk as ->.
    assert (H0 : (0%N : N) ∈ PlanObjectSet.fromObjects [2%N]); [| by apply Hcolumn in H0].
    destruct He as [He|He]; [exact He |]. apply He.
    change (columns (objectAt joined_graph 0)) with (PlanObjectSet.fromObjects [0%N]).
    apply PlanObjectSet.elem_of_fromObjects. by left.
  - by intros _ k Hk%not_elem_of_nil.
  - intros k c _ _ ->%Hcolumn. reflexivity.
  - by intros k c Hk%not_elem_of_nil.
Defined.

Lemma full_join_partitioning_places_rows_witness :
  let ov (e : N) := if (e =? 2)%N then 0%N else 5%N in
  task_of (Partitioning.hash_keys kGlobal [0%N]) ov =
  task_of (Partitioning.hash_keys kGlobal [0%N]) (fun _ => 5%N).
Proof.
  intros ov.
  refine (proj1 (full_join_partitioning_places_rows 0 example_graph_ab (fun _ => 5%N) (fun _ => 5%N)
    ov 0%N [0%N] [2%N] [] [] true false _ _ _ _ _ (Partitioning.hash_keys kGlobal [0%N])
    (Partitioning.hash_keys kGlobal [2%N]) (PlanObjectSet.fromObjects [0%N; 2%N])
    (Partitioning.hash_keys kGlobal [0%N]) _ eq_refl) eq_refl).
  - done.
  - intros a b. unfold coalesce, ov. cbn. destruct (N.eqb_spec a 2) as [->|]; [done |].
    apply N.eqb_neq in n. by rewrite n.
  - intros e e' He%list_elem_of_singleton [= <-] _. by subst.
  - intros e e' He%list_elem_of_singleton [= <-] _. by subst.
  - done.
  - vm_compute. reflexivity.
Defined.
End Witnesses.

(** ** Which inputs' unique keys a join keeps *)

Section EmittedOnce.
Context {VB : VeloxBits} (g : QueryGraph) {V : Type}.

(** The columns of a unique key tell the rows of the relation apart. *)
Definition unique_holds {Row} (value : Row -> ExprCP -> V) (rows : list Row) (key : BitSet) : Prop :=
  forall i j r1 r2, rows !! i = Some r1 -> rows !! j = Some r2 ->
    (forall c, c ∈ key -> value r1 c = value r2 c) -> i = j.

(** The unique keys a node states hold of its rows. *)
Definition node_unique_holds {Row} (value : Row -> ExprCP -> V) (rows : list Row) (node : NodeCP)
    : Prop :=
  Forall (unique_holds value rows)
    (if placed node then globalUnique (physicalProperties node) else unique node).

Lemma elem_of_key_columns ks c :
  c ∈ key_columns g ks <-> c ∈ ks /\ isColumn g c = true.
Proof.
  unfold key_columns.
  assert (H : forall s, c ∈ foldl (fun columns key => if isColumn g key then BitSet.add columns key
      else columns) s ks <-> c ∈ s \/ (c ∈ ks /\ isColumn g c = true)).
  { induction ks as [|k ks IH]; intros s; cbn; [set_solver |]. rewrite IH.
    destruct (isColumn g k) eqn:E; rewrite ?BitSet.bitset_elem_of_add, elem_of_cons; [naive_solver |].
    split; [naive_solver |]. intros [?|[[->|?] ?]]; [auto | congruence | auto]. }
  rewrite H. split; [intros [[]%BitSet.not_elem_of_new|]; done | auto].
Qed.

Lemma filter_at_most_one {A} (f : A -> bool) (l : list A) :
  (forall i j x y, l !! i = Some x -> l !! j = Some y -> f x = true -> f y = true -> i = j) ->
  length (List.filter f l) <= 1.
Proof.
  induction l as [|x l IH]; intros H; cbn; [lia |].
  assert (Hl : length (List.filter f l) <= 1).
  { apply IH. intros i j a b Hi Hj Ha Hb. specialize (H (S i) (S j) a b Hi Hj Ha Hb). lia. }
  destruct (f x) eqn:E; [| done]. destruct (List.filter f l) as [|y l'] eqn:El; [done |].
  assert (Hy : y ∈ List.filter f l) by (rewrite El; left).
  apply list_elem_of_In, filter_In in Hy as [Hy Hf].
  apply list_elem_of_In, list_elem_of_lookup in Hy as [j Hj].
  specialize (H 0 (S j) x y eq_refl Hj E Hf). lia.
Qed.

Lemma matchesAtMostOne_spec {Row} (value : Row -> ExprCP -> V) rows side keys f :
  node_unique_holds value rows side -> matchesAtMostOne g side keys = Ok true ->
  (forall r1 r2 k, f r1 = true -> f r2 = true -> k ∈ keys -> value r1 k = value r2 k) ->
  length (List.filter f rows) <= 1.
Proof.
  intros Hu Hm Hf. apply filter_at_most_one. intros i j r1 r2 Hi Hj H1 H2.
  assert (Hkey : exists key, unique_holds value rows key /\
    forall c, c ∈ key -> c ∈ keys).
  { unfold node_unique_holds in Hu. rewrite Forall_forall in Hu.
    unfold matchesAtMostOne, uniqueOn, atMostOneRow, anyUniqueKey in Hm.
    destruct keys as [|k ks].
    - assert (He : existsb BitSet.empty
        (if placed side then globalUnique (physicalProperties side) else unique side) = true)
        by (destruct (placed side); by injection Hm).
      apply existsb_exists in He as (key & Hin & He).
      exists key. split; [by apply Hu, list_elem_of_In |].
      intros c Hc. by apply BitSet.bitset_empty_spec with (i := c) in He.
    - cbn [length Nat.ltb Nat.leb velox_check mbind Result_bind] in Hm.
      assert (He : existsb (fun u => BitSet.isSubset u (key_columns g (k :: ks)))
        (if placed side then globalUnique (physicalProperties side) else unique side) = true)
        by (destruct (placed side); by injection Hm).
      apply existsb_exists in He as (key & Hin & He).
      exists key. split; [by apply Hu, list_elem_of_In |].
      intros c Hc. apply BitSet.bitset_isSubset_spec in He.
      by apply He, elem_of_key_columns in Hc as [? _]. }
  destruct Hkey as (key & Hkey & Hsub). apply (Hkey i j r1 r2 Hi Hj). auto.
Qed.

Context {L R : Type} (lv : L -> ExprCP -> V) (rv : R -> ExprCP -> V) (matches : L -> R -> bool).

(** Each row of [ls] at most once on this side of the output, and nothing else. *)
Definition emitted_once {Row A} (side : Row -> option A) (out : list Row) (rows : list A) : Prop :=
  exists rows', map side out = map Some rows' /\ rows' ⊆+ rows.

Lemma pairs_left_once ls rs :
  (forall l, length (List.filter (matches l) rs) <= 1) ->
  map row_left (pairs matches ls rs) = map Some (matched matches ls rs).
Proof.
  intros H. unfold pairs, pairs_of, matched, has_match. induction ls as [|l ls IH]; cbn; [done |].
  rewrite map_app, IH, map_map. specialize (H l).
  assert (Hex : existsb (matches l) rs = match List.filter (matches l) rs with [] => false | _ => true end).
  { clear. induction rs as [|r rs IHr]; cbn; [done |]. by destruct (matches l r). }
  rewrite Hex. destruct (List.filter (matches l) rs) as [|r [|r' rest]]; cbn in *; try done. lia.
Qed.

Lemma map_row_of_left (ls : list L) : map row_left (map (row_of_left (R := R)) ls) = map Some ls.
Proof. by rewrite map_map. Qed.

Lemma left_once t ls rs :
  (t = kInner \/ t = kLeft -> forall l, length (List.filter (matches l) rs) <= 1) ->
  t ∈ [kInner; kLeft; kLeftSemiFilter; kLeftSemiProject; kAnti] ->
  emitted_once row_left (join_rows t matches ls rs) ls.
Proof.
  intros H Ht. unfold emitted_once. rewrite !elem_of_cons, elem_of_nil in Ht.
  destruct Ht as [->|[->|[->|[->|[->|[]]]]]]; cbn [join_rows].
  - exists (matched matches ls rs). split; [apply pairs_left_once; auto | apply filter_submseteq].
  - exists (matched matches ls rs ++ unmatched matches ls rs).
    rewrite !map_app, map_row_of_left, pairs_left_once by auto. split; [done |].
    unfold matched, unmatched. by rewrite filter_split.
  - exists (matched matches ls rs). split; [apply map_row_of_left | apply filter_submseteq].
  - exists ls. split; [by rewrite map_map | done].
  - exists (unmatched matches ls rs). split; [apply map_row_of_left | apply filter_submseteq].
Qed.
End EmittedOnce.

Lemma right_once {L R} (matches : L -> R -> bool) t t' ls rs :
  swapType t = Ok t' \/ (t, t') = (kRightAnti, kAnti) -> t <> kCountingLeftSemiFilter ->
  emitted_once row_left (join_rows t' (fun r l => matches l r) rs ls) rs ->
  emitted_once row_right (join_rows t matches ls rs) rs.
Proof.
  intros Hs Hc (rows' & Hmap & Hsub).
  assert (Hp : join_rows t' (fun r l => matches l r) rs ls ≡ₚ map swap_row (join_rows t matches ls rs)).
  { destruct Hs as [Hs|[= -> ->]]; [by apply join_rows_swap |]. cbn. by rewrite map_map. }
  assert (Hside : map row_right (join_rows t matches ls rs) ≡ₚ map Some rows').
  { rewrite <- Hmap. rewrite Hp, map_map. done. }
  apply Permutation_map_inv in Hside as (rows'' & Heq & Hp').
  exists rows''. split; [done |]. by rewrite <- Hp'.
Qed.

Section EmittedOnceTheorem.
Context {VB : VeloxBits} (g : QueryGraph) {V L R : Type}.
Context (lv : L -> ExprCP -> V) (rv : R -> ExprCP -> V) (matches : L -> R -> bool).

(** [Join::emittedOnceSides] is sound: on a side it sets, every output row
    carries a row of that input and no input row is carried twice, so the
    input's unique keys hold of the output.  It relies on the unique keys the
    two nodes state and on rows matching only when their equi-keys agree. *)
Theorem emittedOnceSides_sound (t : JoinType) (left right : NodeCP)
    (leftKeys rightKeys : list ExprCP) (s : Sides) (ls : list L) (rs : list R)
    (Hs : emittedOnceSides g t left right leftKeys rightKeys = Ok s)
    (Hleft : node_unique_holds lv ls left) (Hright : node_unique_holds rv rs right)
    (Hmatches : forall l r, matches l r = true -> keys_agree leftKeys rightKeys (lv l) (rv r)) :
  (left_ s = true -> emitted_once row_left (join_rows t matches ls rs) ls) /\
  (right_ s = true -> emitted_once row_right (join_rows t matches ls rs) rs).
Proof.
  assert (Hl : matchesAtMostOne g right rightKeys = Ok true ->
    forall l, length (List.filter (matches l) rs) <= 1).
  { intros Hm l. eapply matchesAtMostOne_spec; [exact Hright | exact Hm |].
    intros r1 r2 k H1%Hmatches H2%Hmatches [i Hi]%list_elem_of_lookup.
    destruct (Forall2_lookup_r _ _ _ _ _ H1 Hi) as (x & Hx & E1).
    destruct (Forall2_lookup_r _ _ _ _ _ H2 Hi) as (y & Hy & E2). congruence. }
  assert (Hr : matchesAtMostOne g left leftKeys = Ok true ->
    forall r, length (List.filter (fun l => matches l r) ls) <= 1).
  { intros Hm r. eapply matchesAtMostOne_spec; [exact Hleft | exact Hm |].
    intros l1 l2 k H1%Hmatches H2%Hmatches [i Hi]%list_elem_of_lookup.
    destruct (Forall2_lookup_l _ _ _ _ _ H1 Hi) as (x & Hx & E1).
    destruct (Forall2_lookup_l _ _ _ _ _ H2 Hi) as (y & Hy & E2). congruence. }
  split; intros Hset.
  - apply left_once.
    + intros [-> | ->]; apply Hl; cbn in Hs;
        destruct (matchesAtMostOne g right rightKeys) as [[]|]; cbn in Hs; try done;
        try (destruct (matchesAtMostOne g left leftKeys); cbn in Hs; try done);
        injection Hs as <-; done.
    + destruct t; cbn in Hs; try (rewrite !elem_of_cons; tauto); simplify_eq; try done;
        destruct (matchesAtMostOne g left leftKeys); cbn in Hs; simplify_eq; done.
  - assert (Hone : t = kInner \/ t = kRight -> forall r, length (List.filter (fun l => matches l r) ls) <= 1).
    { intros [-> | ->]; apply Hr; cbn in Hs;
        try (destruct (matchesAtMostOne g right rightKeys); cbn in Hs; try done);
        destruct (matchesAtMostOne g left leftKeys) as [[]|]; cbn in Hs; try done;
        injection Hs as <-; done. }
    assert (Hcase : exists t', (swapType t = Ok t' \/ (t, t') = (kRightAnti, kAnti)) /\
      t <> kCountingLeftSemiFilter /\ (t' = kInner \/ t' = kLeft -> t = kInner \/ t = kRight) /\
      t' ∈ [kInner; kLeft; kLeftSemiFilter; kLeftSemiProject; kAnti]).
    { exists (match t with kInner => kInner | kRight => kLeft | kRightSemiFilter => kLeftSemiFilter
              | kRightSemiProject => kLeftSemiProject | _ => kAnti end).
      destruct t; cbn in Hs; simplify_eq; try done;
        try (by split_conj; [auto | done | intros []; auto | rewrite !elem_of_cons; tauto]);
        destruct (matchesAtMostOne g right rightKeys); cbn in Hs; simplify_eq; done. }
    destruct Hcase as (t' & Hsw & Hc & Himp & Hin).
    eapply right_once; [exact Hsw | exact Hc |]. apply left_once; auto.
Qed.
End EmittedOnceTheorem.

Section EmittedOnceWitness.
#[local] Existing Instance BitSet.Velox.primitives.

Definition example_node (unique : list BitSet) : Node :=
  mkNode kScan false (mkPhysicalProperties (Partitioning.unspecified kGlobal)
    (Partitioning.unspecified kDriver) [] [] []) unique [] [] [] [].

Lemma emittedOnceSides_sound_witness :
  emittedOnceSides example_graph kInner (example_node []) (example_node [PlanObjectSet.single 2])
    [0%N] [2%N] = Ok (mkSides true false) /\
  emitted_once row_left (join_rows kInner Nat.eqb [1; 1; 3] [1; 2]) [1; 1; 3].
Proof.
  split; [vm_compute; reflexivity |].
  refine (proj1 (emittedOnceSides_sound example_graph (fun l _ => l) (fun r _ => r) Nat.eqb kInner
    (example_node []) (example_node [PlanObjectSet.single 2]) [0%N] [2%N] (mkSides true false)
    [1; 1; 3] [1; 2] _ _ _ _) eq_refl).
  - vm_compute. reflexivity.
  - constructor.
  - constructor; [| constructor]. intros i j r1 r2 Hi Hj H.
    specialize (H 2%N ltac:(apply BitSet.bitset_elem_of_add; by left)). subst r2.
    destruct i as [|[|i]], j as [|[|j]]; cbn in *; simplify_eq; done.
  - intros l r ->%Nat.eqb_eq. by repeat constructor.
Defined.
End EmittedOnceWitness.
