(* ===== verification/Closures.v ===== *)
(** * Equality closure: union-find with path compression

    Models [EquivalenceClosure<T>] of [axiom/optimizer/v2/JoinHypergraph.cpp]:
    a parent map in which [find] registers its argument and compresses the path
    it walked, and [merge] joins two classes, letting a comparator choose the
    surviving representative.  The theory shows the map always encodes an
    equivalence (no cycles, so the walks terminate within the fuel) and that
    [merge] adds exactly the merged pair. *)

From S2P Require Import Prelude.
From Stdlib Require Import Lia.
Set Warnings "-clear-no-such-hyp".
Open Scope N_scope.

Module EquivalenceClosure.

(** [parents_] *)
Abbreviation t := (gmap N N) (only parsing).

Definition new : t := ∅.

(** [parents_.try_emplace(value, value)] *)
Definition add (m : t) (value : N) : t :=
  match m !! value with Some _ => m | None => <[value := value]> m end.

(** The first loop of [find]: walk to the root. *)
Fixpoint root_loop (fuel : nat) (m : t) (root : N) : N :=
  match fuel with
  | O => root
  | S fuel =>
      match m !! root with
      | Some parent => if parent =? root then root else root_loop fuel m parent
      | None => root
      end
  end.

(** The second loop: point the walked path at the root. *)
Fixpoint compress_loop (fuel : nat) (m : t) (value root : N) : t :=
  match fuel with
  | O => m
  | S fuel =>
      if value =? root then m
      else match m !! value with
           | Some next => compress_loop fuel (<[value := root]> m) next root
           | None => m
           end
  end.

(** A path has at most as many nodes as the map. *)
Definition fuel_of (m : t) : nat := S (size m).

Definition find (m : t) (value : N) : N * t :=
  let m := add m value in
  let root := root_loop (fuel_of m) m value in
  (root, compress_loop (fuel_of m) m value root).

Definition merge_by (better : N -> N -> bool) (m : t) (left right : N) : t :=
  let '(l, m) := find m left in
  let '(r, m) := find m right in
  if l =? r then m
  else if better r l then <[l := r]> m
  else <[r := l]> m.

Definition merge (m : t) (left right : N) : t := merge_by (fun _ _ => false) m left right.

(** ** Theory *)

(** Parents are registered, and a rank strictly decreases along the edges. *)
Record ok (m : t) : Prop := {
  ok_parent : forall x p, m !! x = Some p -> is_Some (m !! p);
  ok_rank : exists rank : N -> nat, forall x p, m !! x = Some p -> p <> x -> (rank p < rank x)%nat;
}.

(** [x] reaches the root [r] in [n] steps. *)
Inductive reach (m : t) : nat -> N -> N -> Prop :=
  | reach_root x : m !! x = Some x -> reach m 0 x x
  | reach_step n x p r : m !! x = Some p -> p <> x -> reach m n p r -> reach m (S n) x r.

Lemma reach_det m n n' x r r' : reach m n x r -> reach m n' x r' -> n = n' /\ r = r'.
Proof.
  intros H. revert n' r'. induction H as [x Hx|n x p r Hx Hne H IH]; intros n' r' H';
    destruct H' as [x' Hx'|n'' x' p' r'' Hx' Hne' H'']; simplify_eq; try done.
  destruct (IH _ _ H''). by subst.
Qed.

Lemma reach_root_spec m n x r : reach m n x r -> m !! r = Some r.
Proof. by induction 1. Qed.

Lemma reach_rank m n x r (rank : N -> nat) :
  (forall x p, m !! x = Some p -> p <> x -> (rank p < rank x)%nat) ->
  reach m n x r -> x <> r -> (rank r < rank x)%nat.
Proof.
  intros Hrank. induction 1 as [|n x p r Hx Hne H IH]; [done |]. intros Hxr.
  pose proof (Hrank _ _ Hx Hne). destruct (decide (p = r)) as [->|]; [done |].
  specialize (IH n0). lia.
Qed.

Lemma ok_reach m x : ok m -> is_Some (m !! x) -> exists n r, reach m n x r.
Proof.
  intros [Hp [rank Hrank]]. remember (rank x) as k eqn:Ek. revert x Ek.
  induction (Nat.lt_wf_0 k) as [k _ IH]. intros x -> [p Hx].
  destruct (decide (p = x)) as [->|Hne]; [exists 0%nat, x; by constructor |].
  destruct (IH (rank p)) with (x := p) as (n & r & Hr); [by apply Hrank | done | by eapply Hp |].
  exists (S n), r. by econstructor.
Qed.

(** The nodes of a path are distinct, so its length is bounded by the map's. *)
Lemma reach_path m n x r :
  reach m n x r ->
  exists path, length path = S n /\ NoDup path /\ (forall y, y ∈ path -> is_Some (m !! y)) /\
    (forall y, y ∈ path -> exists k, (k <= n)%nat /\ reach m k y r).
Proof.
  induction 1 as [x Hx|n x p r Hx Hne H (path & Hlen & Hnd & Hdom & Hk)].
  - exists [x]. split_conj; [done | apply NoDup_singleton | |]; intros y ->%list_elem_of_singleton.
    + by eexists.
    + exists 0%nat. split; [done | by constructor].
  - assert (Hx' : reach m (S n) x r) by (by econstructor).
    exists (x :: path). split_conj; [cbn; lia | | |].
    + constructor; [| done]. intros Hin. destruct (Hk _ Hin) as (k & Hle & Hr).
      destruct (reach_det _ _ _ _ _ _ Hx' Hr). lia.
    + intros y [->|Hy]%elem_of_cons; [by eexists | auto].
    + intros y [->|Hy]%elem_of_cons; [by exists (S n) |].
      destruct (Hk _ Hy) as (k & ? & ?). exists k. split; [lia | done].
Qed.

Lemma NoDup_map_size (m : t) (l : list N) :
  NoDup l -> (forall y, y ∈ l -> is_Some (m !! y)) -> (length l <= size m)%nat.
Proof.
  intros Hnd Hdom. rewrite <- (size_dom (D := gset N) m).
  rewrite <- (size_list_to_set (C := gset N) l Hnd). apply subseteq_size.
  intros y Hy%elem_of_list_to_set. by apply elem_of_dom, Hdom.
Qed.

Lemma reach_length m n x r : reach m n x r -> (n < fuel_of m)%nat.
Proof.
  intros (path & Hlen & Hnd & Hdom & _)%reach_path.
  pose proof (NoDup_map_size m path Hnd Hdom). unfold fuel_of. lia.
Qed.

Lemma root_loop_spec m n x r fuel : reach m n x r -> (n < fuel)%nat -> root_loop fuel m x = r.
Proof.
  intros H. revert fuel. induction H as [x Hx|n x p r Hx Hne H IH]; intros [|fuel] Hf; cbn;
    try lia; rewrite Hx.
  - by rewrite N.eqb_refl.
  - rewrite (proj2 (N.eqb_neq _ _)) by done. apply IH. lia.
Qed.

(** The class of a value: its root, or itself when it is not registered. *)
Definition class_of (m : t) (x : N) : N :=
  match m !! x with Some _ => root_loop (fuel_of m) m x | None => x end.

Lemma class_of_reach m n x r : reach m n x r -> class_of m x = r.
Proof.
  intros H. unfold class_of. assert (is_Some (m !! x)) as [p ->] by (by destruct H; eexists).
  by eapply root_loop_spec, reach_length.
Qed.

Lemma class_of_registered m x : ok m -> is_Some (m !! x) -> exists n, reach m n x (class_of m x).
Proof. intros Hok Hx. destruct (ok_reach m x Hok Hx) as (n & r & H). by rewrite (class_of_reach _ _ _ _ H); exists n. Qed.

Lemma class_of_root m x : ok m -> is_Some (m !! x) -> m !! class_of m x = Some (class_of m x).
Proof. intros Hok Hx. destruct (class_of_registered m x Hok Hx) as [n H]. by eapply reach_root_spec. Qed.

Lemma class_of_absent m x : m !! x = None -> class_of m x = x.
Proof. unfold class_of. by intros ->. Qed.

Lemma new_ok : ok new.
Proof. constructor; [| exists (fun _ => 0%nat)]; intros x p H; discriminate H. Qed.

Lemma class_of_new x : class_of new x = x.
Proof. apply class_of_absent. apply lookup_empty. Qed.

(** Two maps that have the same roots. *)
Definition same_classes (m m' : t) : Prop :=
  ok m' /\ (forall x, class_of m' x = class_of m x) /\
  (forall x, is_Some (m !! x) -> is_Some (m' !! x)).

Lemma add_spec m value : ok m -> same_classes m (add m value) /\ is_Some (add m value !! value).
Proof.
  intros Hok. unfold add. destruct (m !! value) as [p|] eqn:E; [by split; [unfold same_classes; split_conj | eexists] |].
  destruct Hok as [Hp [rank Hrank]].
  assert (Hok' : ok (<[value:=value]> m)).
  { constructor.
    - intros x p. rewrite lookup_insert_Some. intros [[<- <-]|[Hne Hx]].
      + rewrite lookup_insert_eq. by eexists.
      + destruct (decide (value = p)) as [->|]; [rewrite lookup_insert_eq; by eexists |].
        rewrite lookup_insert_ne by done. by eapply Hp.
    - exists rank. intros x p. rewrite lookup_insert_Some. intros [[<- <-]|[Hne Hx]]; [done | auto]. }
  split; [unfold same_classes; split_conj; [done | |] |].
  - intros x. destruct (decide (x = value)) as [->|Hne].
    + rewrite (class_of_absent m) by done. eapply class_of_reach, reach_root, lookup_insert_eq.
    + destruct (m !! x) as [p|] eqn:Ex.
      * destruct (ok_reach m x) as (n & r & H); [by constructor; eauto | by eexists |].
        rewrite (class_of_reach _ _ _ _ H). apply class_of_reach with (n := n).
        clear -H E. induction H as [y Hy|n y p r Hy Hnep H IH].
        -- constructor. rewrite lookup_insert_ne; [done | congruence].
        -- apply reach_step with (p := p); [rewrite lookup_insert_ne; [done | congruence] | done | done].
      * rewrite !class_of_absent; [done | done | by rewrite lookup_insert_ne].
  - intros x [p Hx]. destruct (decide (value = x)) as [->|]; [by rewrite lookup_insert_eq; eexists |].
    rewrite lookup_insert_ne by done. by eexists.
  - rewrite lookup_insert_eq. by eexists.
Qed.

(** Pointing a node at its root changes no class. *)
Lemma shortcut_spec m n v r : ok m -> reach m n v r -> v <> r -> same_classes m (<[v := r]> m).
Proof.
  intros Hok Hr Hne. destruct Hok as [Hp [rank Hrank]].
  assert (Hroot : m !! r = Some r) by (by eapply reach_root_spec).
  assert (Hv : is_Some (m !! v)) by (by destruct Hr; eexists).
  assert (Hdom : forall x, is_Some (m !! x) -> is_Some (<[v:=r]> m !! x)).
  { intros x Hx. destruct (decide (v = x)) as [->|]; [by rewrite lookup_insert_eq; eexists |].
    by rewrite lookup_insert_ne. }
  assert (Hok' : ok (<[v:=r]> m)).
  { constructor.
    - intros x p. rewrite lookup_insert_Some. intros [[<- <-]|[_ Hx]]; apply Hdom;
        [by eexists | by eapply Hp].
    - exists rank. intros x p. rewrite lookup_insert_Some. intros [[<- <-]|[_ Hx]]; [| auto].
      intros _. by eapply reach_rank. }
  unfold same_classes. split_conj; [done | | done]. intros x. destruct (m !! x) as [p|] eqn:Ex.
  - destruct (ok_reach m x) as (k & rx & H); [by constructor; eauto | by eexists |].
    rewrite (class_of_reach _ _ _ _ H).
    enough (exists k', reach (<[v:=r]> m) k' x rx) as [k' Hk'] by (by eapply class_of_reach).
    clear Ex p. induction H as [y Hy|k y p ry Hy Hnep H [k' IH]].
    + exists 0%nat. constructor. rewrite lookup_insert_ne; [done |]. intros ->.
      destruct (reach_det _ _ _ _ _ _ Hr (reach_root _ _ Hy)). congruence.
    + destruct (decide (y = v)) as [->|].
      * assert (r = ry) as ->.
        { assert (reach m (S k) v ry) as Hv' by (by econstructor).
          by destruct (reach_det _ _ _ _ _ _ Hr Hv'). }
        exists 1%nat. apply reach_step with (p := ry); [apply lookup_insert_eq | done |].
        constructor. by rewrite lookup_insert_ne.
      * exists (S k'). apply reach_step with (p := p); [by rewrite lookup_insert_ne | done | done].
  - rewrite !class_of_absent; [done | done |]. rewrite lookup_insert_ne; [done |].
    intros ->. destruct Hv. congruence.
Qed.

Lemma same_classes_refl m : ok m -> same_classes m m.
Proof. by unfold same_classes; split_conj. Qed.

Lemma same_classes_trans m1 m2 m3 : same_classes m1 m2 -> same_classes m2 m3 -> same_classes m1 m3.
Proof. intros (H1 & H2 & H3) (H4 & H5 & H6). unfold same_classes. split_conj; [done | | auto]. intros x. by rewrite H5. Qed.

Lemma compress_spec m n v r fuel : ok m -> reach m n v r -> same_classes m (compress_loop fuel m v r).
Proof.
  revert m n v. induction fuel as [|fuel IH]; intros m n v Hok H; cbn; [by apply same_classes_refl |].
  destruct (N.eqb_spec v r) as [->|Hne]; [by apply same_classes_refl |].
  destruct (m !! v) as [next|] eqn:Ev; [| by apply same_classes_refl].
  pose proof (shortcut_spec m n v r Hok H Hne) as Hs. eapply same_classes_trans; [exact Hs |].
  destruct H as [x Hx|n x p r Hx Hnep H]; [done |]. simplify_eq.
  destruct Hs as (Hok' & Hcl & Hdom).
  assert (Hp : is_Some (m !! p)) by (by eapply (ok_parent m Hok)).
  destruct (class_of_registered _ p Hok' (Hdom _ Hp)) as [k Hk].
  rewrite Hcl, (class_of_reach _ _ _ _ H) in Hk. by eapply IH.
Qed.

(** [find] answers the class and changes none. *)
Lemma find_spec m x : ok m ->
  let '(r, m') := find m x in r = class_of m x /\ same_classes m m' /\ m' !! r = Some r.
Proof.
  intros Hok. unfold find. destruct (add_spec m x Hok) as [Hs Hx].
  set (m1 := add m x) in *. destruct (class_of_registered m1 x (proj1 Hs) Hx) as [n H].
  assert (E : root_loop (fuel_of m1) m1 x = class_of m1 x).
  { eapply root_loop_spec; [exact H | by eapply reach_length]. }
  rewrite E. pose proof (compress_spec m1 n x _ (fuel_of m1) (proj1 Hs) H) as Hc.
  split_conj; [by destruct Hs as (_ & -> & _) | by eapply same_classes_trans |].
  destruct Hc as (Hok2 & Hcl & Hdom).
  pose proof (class_of_root _ x Hok2 (Hdom _ Hx)) as Hr. by rewrite Hcl in Hr.
Qed.

(** Linking one root under another. *)
Lemma link_spec m l r : ok m -> m !! l = Some l -> m !! r = Some r -> l <> r ->
  ok (<[r := l]> m) /\
  (forall x, class_of (<[r := l]> m) x = if decide (class_of m x = r) then l else class_of m x).
Proof.
  intros Hok Hl Hr Hne. pose proof Hok as [Hp [rank Hrank]].
  assert (Hcr : class_of m r = r) by (by eapply class_of_reach, reach_root).
  assert (Hcl : class_of m l = l) by (by eapply class_of_reach, reach_root).
  assert (Hdom : forall x, is_Some (<[r:=l]> m !! x) <-> is_Some (m !! x)).
  { intros x. destruct (decide (r = x)) as [->|]; [| by rewrite lookup_insert_ne].
    rewrite lookup_insert_eq, Hr. split; by eexists. }
  assert (Hstep : forall x p, m !! x = Some p -> class_of m p = class_of m x).
  { intros x p Hx. destruct (decide (p = x)) as [->|Hnp]; [done |].
    destruct (class_of_registered m p Hok ltac:(by eapply Hp)) as [n H].
    symmetry. eapply class_of_reach, reach_step; eauto. }
  assert (Hok' : ok (<[r:=l]> m)).
  { constructor.
    - intros x p. rewrite lookup_insert_Some. intros [[<- <-]|[_ Hx]]; apply Hdom;
        [by eexists | by eapply Hp].
    - exists (fun x => if decide (class_of m x = r) then S (rank x + rank l) else rank x)%nat.
      intros x p. rewrite lookup_insert_Some. intros [[<- <-]|[_ Hx]] Hpx.
      + rewrite (decide_True _ _ Hcr), decide_False by congruence. lia.
      + rewrite (Hstep _ _ Hx). specialize (Hrank _ _ Hx Hpx). destruct (decide _); lia. }
  split; [done |]. intros x. destruct (m !! x) as [p|] eqn:Ex.
  - destruct (ok_reach m x Hok ltac:(by eexists)) as (n & c & H).
    rewrite (class_of_reach _ _ _ _ H).
    enough (exists k, reach (<[r:=l]> m) k x (if decide (c = r) then l else c)) as [k Hk]
      by (by eapply class_of_reach).
    assert (Hlr : reach (<[r:=l]> m) 0 l l) by (constructor; by rewrite lookup_insert_ne).
    clear Ex p. induction H as [y Hy|n y p c Hy Hnep H [k IH]].
    + destruct (decide (y = r)) as [->|].
      * exists 1%nat. apply reach_step with (p := l); [apply lookup_insert_eq | done | done].
      * exists 0%nat. constructor. by rewrite lookup_insert_ne.
    + exists (S k). apply reach_step with (p := p); [| done | done].
      rewrite lookup_insert_ne; [done |]. intros ->. congruence.
  - assert (r <> x) by congruence.
    rewrite !class_of_absent; [| done | by rewrite lookup_insert_ne]. by rewrite decide_False.
Qed.

Definition same (m : t) (x y : N) : Prop := class_of m x = class_of m y.

(** [merge] keeps the map well formed and gives both classes one
    representative, the old one [better] prefers. *)
Lemma merge_by_spec better m l r : ok m ->
  let m' := merge_by better m l r in
  let cl := class_of m l in
  let cr := class_of m r in
  ok m' /\
  (forall x, class_of m' x =
     if decide (class_of m x = cl \/ class_of m x = cr)
     then if decide (cl = cr) then cl else if better cr cl then cr else cl
     else class_of m x).
Proof.
  intros Hok. cbn zeta. unfold merge_by.
  pose proof (find_spec m l Hok) as Hl. destruct (find m l) as [cl m1].
  destruct Hl as (-> & (Hok1 & Hc1 & _) & Hrl).
  pose proof (find_spec m1 r Hok1) as Hr. destruct (find m1 r) as [cr m2].
  destruct Hr as (-> & (Hok2 & Hc2 & Hd2) & Hrr). rewrite Hc1 in Hrr |- *.
  assert (Hc : forall x, class_of m2 x = class_of m x) by (intros x; by rewrite Hc2, Hc1).
  assert (Hrl2 : m2 !! class_of m l = Some (class_of m l)).
  { pose proof (class_of_root m2 (class_of m l) Hok2 (Hd2 _ ltac:(by eexists))) as H.
    by rewrite Hc2, (class_of_reach m1 0 _ _ (reach_root _ _ Hrl)) in H. }
  destruct (N.eqb_spec (class_of m l) (class_of m r)) as [E|Hne].
  - split; [done |]. intros x. rewrite Hc, E. repeat case_decide; intuition congruence.
  - destruct (better (class_of m r) (class_of m l)).
    + destruct (link_spec m2 (class_of m r) (class_of m l) Hok2 Hrr Hrl2 ltac:(done)) as [Hok3 H].
      split; [done |]. intros x. rewrite H, !Hc. repeat case_decide; intuition congruence.
    + destruct (link_spec m2 (class_of m l) (class_of m r) Hok2 Hrl2 Hrr Hne) as [Hok3 H].
      split; [done |]. intros x. rewrite H, !Hc. repeat case_decide; intuition congruence.
Qed.

Lemma merge_by_ok better m l r : ok m -> ok (merge_by better m l r).
Proof. intros Hok. by apply merge_by_spec. Qed.

(** Exactly the merged pair is added to the equivalence. *)
Lemma merge_by_same better m l r x y : ok m ->
  same (merge_by better m l r) x y <->
  same m x y \/ (same m x l /\ same m y r) \/ (same m x r /\ same m y l).
Proof.
  intros Hok. destruct (merge_by_spec better m l r Hok) as [_ H]. unfold same. rewrite !H.
  destruct (better _ _); repeat case_decide; intuition congruence.
Qed.

Lemma same_new x y : same new x y <-> x = y.
Proof. unfold same. by rewrite !class_of_new. Qed.

Lemma find_same m x y : ok m -> (find m x).1 = (find m y).1 <-> same m x y.
Proof.
  intros Hok. pose proof (find_spec m x Hok). pose proof (find_spec m y Hok).
  destruct (find m x), (find m y). cbn. unfold same. intuition congruence.
Qed.

Lemma add_same m v x y : ok m -> same (add m v) x y <-> same m x y.
Proof. intros Hok. destruct (add_spec m v Hok) as [(_ & H & _) _]. unfold same. by rewrite !H. Qed.

(** ** Merging a list of pairs *)

Definition merge_all (better : N -> N -> bool) (m : t) (pairs : list (N * N)) : t :=
  foldl (fun m '(l, r) => merge_by better m l r) m pairs.

(** The least equivalence that contains the pairs. *)
Inductive closure (pairs : list (N * N)) : N -> N -> Prop :=
  | closure_pair x y : (x, y) ∈ pairs -> closure pairs x y
  | closure_refl x : closure pairs x x
  | closure_sym x y : closure pairs x y -> closure pairs y x
  | closure_trans x y z : closure pairs x y -> closure pairs y z -> closure pairs x z.

Lemma closure_mono pairs pairs' x y :
  (forall p, p ∈ pairs -> p ∈ pairs') -> closure pairs x y -> closure pairs' x y.
Proof. intros H. induction 1; eauto using closure. Qed.

(** A closure that holds [same m] grows by exactly the pairs merged. *)
Lemma merge_all_same better m pairs0 pairs : ok m ->
  (forall x y, same m x y <-> closure pairs0 x y) ->
  ok (merge_all better m pairs) /\
  forall x y, same (merge_all better m pairs) x y <-> closure (pairs0 ++ pairs) x y.
Proof.
  revert m pairs0. induction pairs as [|[l r] pairs IH]; intros m pairs0 Hok Hm; cbn.
  { by rewrite app_nil_r. }
  replace (pairs0 ++ (l, r) :: pairs) with ((pairs0 ++ [(l, r)]) ++ pairs) by by rewrite <- app_assoc.
  apply IH; [by apply merge_by_ok |]. intros x y. rewrite (merge_by_same better m l r x y Hok). split.
  - assert (Hmono : forall a b, same m a b -> closure (pairs0 ++ [(l, r)]) a b).
    { intros a b Hab%Hm. eapply closure_mono; [| exact Hab]. intros p ?. apply elem_of_app; auto. }
    assert (Hlr : closure (pairs0 ++ [(l, r)]) l r) by (apply closure_pair, elem_of_app; right; left).
    intros [H|[[H1 H2]|[H1 H2]]]; eauto 7 using closure.
  - induction 1 as [x y Hin|x|x y _ IHc|x y z _ IH1 _ IH2].
    + apply elem_of_app in Hin as [Hin|[= -> ->]%list_elem_of_singleton].
      * left. by apply Hm, closure_pair.
      * right; left. done.
    + by left.
    + unfold same in *. intuition congruence.
    + unfold same in *. intuition congruence.
Qed.

(** C37: [EquivalenceClosure] computes equality closure: started empty, after
    merging any pairs in any order and with any comparator, [find] gives two
    values one representative if and only if the pairs make them equal
    (reflexively, symmetrically and transitively); both of its loops terminate
    within the number of registered values. *)
Theorem union_find_computes_closure (better : N -> N -> bool) (pairs : list (N * N)) (x y : N) :
  (find (merge_all better new pairs) x).1 = (find (merge_all better new pairs) y).1 <->
  closure pairs x y.
Proof.
  assert (Hnew : forall x y, same new x y <-> closure [] x y).
  { intros a b. rewrite same_new. split; [intros ->; apply closure_refl |].
    induction 1 as [a b []%not_elem_of_nil | | |]; congruence. }
  destruct (merge_all_same better new [] pairs new_ok Hnew) as [Hok H].
  rewrite find_same by done. by rewrite H.
Qed.

(** Values equal along the pairs are equal along the closure. *)
Lemma closure_valued {V} (value : N -> V) pairs x y :
  (forall a b, (a, b) ∈ pairs -> value a = value b) -> closure pairs x y -> value x = value y.
Proof. intros H. induction 1; eauto using eq_trans. Qed.

End EquivalenceClosure.
