(* ===== verification/Hypergraphs.v ===== *)
(** * The join hypergraph

    Models [axiom/optimizer/v2/{JoinEdge.h,Relation.h}] and
    [v2/JoinHypergraph.{h,cpp}]: the relations, hyperedges and filter conjuncts
    of a join cluster; the questions enumeration asks (which edges cross a
    partition, which key edges are redundant, which component a relation is in);
    the columns a cover exposes, with its memo cache; and the final check that a
    plan enforces every equality of the query.  Indices into [relations()] and
    [edges()] that the source leaves unchecked read a default here; the
    invariant [graph_ok] bounds them. *)

From S2P Require Import Prelude Word64 RelationSets BitSets EstimateMath QueryGraph Joins.
From S2P Require Import Partitionings Nodes Closures.
From Stdlib Require Import Lia.
Set Warnings "-clear-no-such-hyp".
Open Scope N_scope.

(** ** [JoinEdge] *)

Module JoinEdge.

Record t := mk {
  leftEndpoints : RelationSet;
  rightEndpoints : RelationSet;
  leftEligibility : RelationSet;
  rightEligibility : RelationSet;
  leftKeys : list ExprCP;
  rightKeys : list ExprCP;
  filter : list ExprCP;
  joinType : JoinType;
  nullAware : bool;
  nullAsValue : bool;
  markColumn : option ColumnCP;
  outputColumns : list ColumnCP;
  sourceColumns : list ColumnCP;
  isUnnest : bool;
}.

(** The constructor of a join edge, with its checks in order. *)
Definition new (leftEndpoints rightEndpoints leftEligibility rightEligibility : RelationSet)
    (leftKeys rightKeys filter : list ExprCP) (joinType : JoinType) (nullAware nullAsValue : bool)
    (markColumn : option ColumnCP) (outputColumns sourceColumns : list ColumnCP) : Result t :=
  velox_check (negb (RelationSet.empty leftEndpoints)) "!leftEndpoints_.empty()" ≫= fun _ =>
  velox_check (negb (RelationSet.empty rightEndpoints)) "!rightEndpoints_.empty()" ≫= fun _ =>
  velox_check (negb (RelationSet.hasIntersection leftEndpoints rightEndpoints))
    "!leftEndpoints_.hasIntersection(rightEndpoints_)" ≫= fun _ =>
  velox_check (negb (RelationSet.empty leftEligibility)) "!leftEligibility_.empty()" ≫= fun _ =>
  velox_check (negb (RelationSet.empty rightEligibility)) "!rightEligibility_.empty()" ≫= fun _ =>
  velox_check (negb (RelationSet.hasIntersection leftEligibility rightEligibility))
    "!leftEligibility_.hasIntersection(rightEligibility_)" ≫= fun _ =>
  velox_check (RelationSet.isSubset leftEndpoints leftEligibility)
    "leftEndpoints_.isSubset(leftEligibility_)" ≫= fun _ =>
  velox_check (RelationSet.isSubset rightEndpoints rightEligibility)
    "rightEndpoints_.isSubset(rightEligibility_)" ≫= fun _ =>
  velox_check (length leftKeys =? length rightKeys)%nat "leftKeys_.size(), rightKeys_.size()"
    ≫= fun _ =>
  velox_check (length outputColumns =? length sourceColumns)%nat
    "outputColumns_.size(), sourceColumns_.size()" ≫= fun _ =>
  velox_check (negb (bool_decide (leftKeys = [])))
    "Equi-join edge must carry at least one key pair" ≫= fun _ =>
  velox_check (bool_decide (filter = []) || negb (bool_decide (joinType = kInner)))
    "Inner-join edges must have empty filter" ≫= fun _ =>
  velox_check ((negb nullAware && negb nullAsValue) || negb (bool_decide (joinType = kInner)))
    "Inner-join edges must not carry nullAware or nullAsValue" ≫= fun _ =>
  Ok (mk leftEndpoints rightEndpoints leftEligibility rightEligibility leftKeys rightKeys filter
        joinType nullAware nullAsValue markColumn outputColumns sourceColumns false).

(** The [unnest] factory. *)
Definition unnest (left right : RelationSet) : Result t :=
  velox_check (negb (RelationSet.empty left)) "!leftEndpoints_.empty()" ≫= fun _ =>
  velox_check (negb (RelationSet.empty right)) "!rightEndpoints_.empty()" ≫= fun _ =>
  velox_check (negb (RelationSet.hasIntersection left right))
    "!leftEndpoints_.hasIntersection(rightEndpoints_)" ≫= fun _ =>
  Ok (mk left right left right [] [] [] kInner false false None [] [] true).

Definition totalEligibility (edge : t) : RelationSet :=
  RelationSet.unionSet (leftEligibility edge) (rightEligibility edge).

End JoinEdge.
Abbreviation JoinEdge := JoinEdge.t.

(** ** [Relation], [FilterConjunct] *)

Module Relation.
Record t := mk {
  id : N;
  node : NodeCP;
  cardinality : option float;
  columns : BitSet;
}.

(** The node pointer's null check has no counterpart: a [Node] is given. *)
Definition new (id : N) (node : NodeCP) (cardinality : option float) (columns : BitSet)
    : Result t :=
  velox_check (id <? RelationSet.kMaxRelations) "id_, RelationSet::kMaxRelations" ≫= fun _ =>
  Ok (mk id node cardinality columns).
End Relation.
Abbreviation Relation := Relation.t.

Record FilterConjunct := mkFilterConjunct {
  expr : option ExprCP;
  conjunct_relations : RelationSet;
}.

(** ** [JoinHypergraph] *)

Module JoinHypergraph.

Record t := mk {
  relations : list Relation;
  edges : list JoinEdge;
  filterConjuncts : list FilterConjunct;
  relationIds : RelationSet;
  unnestRelationIds : RelationSet;
  expandedRelationIds : RelationSet;
  targetColumns : BitSet;
  coverOutputColumnsCache : gmap RelationSet BitSet;
}.

Definition new : t :=
  mk [] [] [] RelationSet.rsEmpty RelationSet.rsEmpty RelationSet.rsEmpty BitSet.new ∅.

Definition no_node : Node :=
  mkNode kWorkingTable false (mkPhysicalProperties (Partitioning.unspecified kGlobal)
    (Partitioning.unspecified kDriver) [] [] []) [] [] [] [] [].
Definition no_relation : Relation := Relation.mk 0 no_node None BitSet.new.
Definition no_edge : JoinEdge :=
  JoinEdge.mk RelationSet.rsEmpty RelationSet.rsEmpty RelationSet.rsEmpty RelationSet.rsEmpty
    [] [] [] kNumJoinTypes false false None [] [] false.

(** [relations_[id]], [edges()[index]] *)
Definition relation (graph : t) (id : N) : Relation := nth (N.to_nat id) (relations graph) no_relation.
Definition edge (graph : t) (index : nat) : JoinEdge := nth index (edges graph) no_edge.

Definition invalidateCoverCaches (graph : t) : t :=
  mk (relations graph) (edges graph) (filterConjuncts graph) (relationIds graph)
    (unnestRelationIds graph) (expandedRelationIds graph) (targetColumns graph) ∅.

(** ** Building *)

Definition addRelation (graph : t) (node : NodeCP) (cardinality : option float) (columns : BitSet)
    : Result (N * t) :=
  velox_check (N.of_nat (length (relations graph)) <? RelationSet.kMaxRelations)
    "Hypergraph cluster exceeds the per-hypergraph relation cap" ≫= fun _ =>
  let id := N.of_nat (length (relations graph)) in
  Relation.new id node cardinality columns ≫= fun relation =>
  Ok (id, invalidateCoverCaches
            (mk (relations graph ++ [relation]) (edges graph) (filterConjuncts graph)
               (RelationSet.add (relationIds graph) id) (unnestRelationIds graph)
               (expandedRelationIds graph) (targetColumns graph) (coverOutputColumnsCache graph))).

Definition addUnnestRelation (graph : t) (node : NodeCP) (cardinality : option float)
    (columns : BitSet) : Result (N * t) :=
  velox_check (bool_decide (nodeType node = kUnnest)) "addUnnestRelation requires an Unnest node"
    ≫= fun _ =>
  addRelation graph node cardinality columns ≫= fun '(id, graph) =>
  Ok (id, mk (relations graph) (edges graph) (filterConjuncts graph) (relationIds graph)
            (RelationSet.add (unnestRelationIds graph) id) (expandedRelationIds graph)
            (targetColumns graph) (coverOutputColumnsCache graph)).

Definition setTargetColumns (graph : t) (targetColumns : BitSet) : t :=
  invalidateCoverCaches
    (mk (relations graph) (edges graph) (filterConjuncts graph) (relationIds graph)
       (unnestRelationIds graph) (expandedRelationIds graph) targetColumns
       (coverOutputColumnsCache graph)).

Definition addFilterConjunct (graph : t) (conjunct : FilterConjunct) : Result t :=
  velox_check (negb (bool_decide (expr conjunct = None))) "conjunct.expr" ≫= fun _ =>
  velox_check (RelationSet.isSubset (conjunct_relations conjunct) (relationIds graph))
    "Filter conjunct references unknown relations" ≫= fun _ =>
  Ok (invalidateCoverCaches
        (mk (relations graph) (edges graph) (filterConjuncts graph ++ [conjunct])
           (relationIds graph) (unnestRelationIds graph) (expandedRelationIds graph)
           (targetColumns graph) (coverOutputColumnsCache graph))).

Definition addEdge (graph : t) (edge : JoinEdge) : Result t :=
  velox_check (RelationSet.isSubset (JoinEdge.totalEligibility edge) (relationIds graph))
    "Edge eligibility must reference only relations already added" ≫= fun _ =>
  velox_check (negb (JoinEdge.isUnnest edge) ||
               (RelationSet.min (JoinEdge.leftEndpoints edge) <?
                RelationSet.min (JoinEdge.rightEndpoints edge)))
    "edge.leftEndpoints().min(), edge.rightEndpoints().min()" ≫= fun _ =>
  let expanded := if JoinEdge.isUnnest edge
                  then RelationSet.unionSet (expandedRelationIds graph) (JoinEdge.rightEndpoints edge)
                  else expandedRelationIds graph in
  Ok (invalidateCoverCaches
        (mk (relations graph) (edges graph ++ [edge]) (filterConjuncts graph) (relationIds graph)
           (unnestRelationIds graph) expanded (targetColumns graph)
           (coverOutputColumnsCache graph))).

(** ** Crossing edges *)

(** An edge that crosses a partition, and whether its left operand is [left]. *)
Record CrossingEdge := mkCrossingEdge { index : nat; leftToRight : bool }.
Record CrossingEdges := mkCrossingEdges {
  joinEdges : list CrossingEdge;
  filterEdges : list nat;
}.

Definition plain_inner (edge : JoinEdge) : bool :=
  negb (JoinEdge.isUnnest edge) && bool_decide (JoinEdge.joinType edge = kInner).

(** The loop over the edges from position [edgeIndex] on. *)
Fixpoint crossing_loop (left right combined : RelationSet) (edges : list JoinEdge)
    (edgeIndex : nat) (result : CrossingEdges) : option CrossingEdges :=
  match edges with
  | [] => Some result
  | edge :: edges =>
      let edgeRelations := JoinEdge.totalEligibility edge in
      if RelationSet.isSubset edgeRelations left || RelationSet.isSubset edgeRelations right ||
         negb (RelationSet.isSubset edgeRelations combined)
      then crossing_loop left right combined edges (S edgeIndex) result
      else
        let forward := RelationSet.isSubset (JoinEdge.leftEligibility edge) left &&
                       RelationSet.isSubset (JoinEdge.rightEligibility edge) right in
        let reverse := RelationSet.isSubset (JoinEdge.leftEligibility edge) right &&
                       RelationSet.isSubset (JoinEdge.rightEligibility edge) left in
        if forward || reverse
        then crossing_loop left right combined edges (S edgeIndex)
               (mkCrossingEdges (joinEdges result ++ [mkCrossingEdge edgeIndex forward])
                  (filterEdges result))
        else if plain_inner edge
        then crossing_loop left right combined edges (S edgeIndex)
               (mkCrossingEdges (joinEdges result) (filterEdges result ++ [edgeIndex]))
        else None
  end.

Definition crossingEdges (graph : t) (left right : RelationSet) : option CrossingEdges :=
  crossing_loop left right (RelationSet.unionSet left right) (edges graph) 0
    (mkCrossingEdges [] []).

(** ** Canonical key edges *)

Section WithObjects.
Context {VB : VeloxBits} (g : QueryGraph).

(** The equivalence class both keys of a pair belong to, if any. *)
Definition pairClass (edge : JoinEdge) (keyIndex : nat) : option EquivalenceP :=
  let left := nth keyIndex (JoinEdge.leftKeys edge) 0 in
  let right := nth keyIndex (JoinEdge.rightKeys edge) 0 in
  if negb (isColumn g left) || negb (isColumn g right) then None
  else if decide (column_equivalence g left = column_equivalence g right)
       then column_equivalence g left else None.

(** [redundant]: it has keys and each pair's class has been seen. *)
Definition redundant_edge (seenClasses : gset N) (edge : JoinEdge) : bool :=
  negb (bool_decide (JoinEdge.leftKeys edge = [])) &&
  forallb (fun i => match pairClass edge i with
                    | Some e => bool_decide (e ∈ seenClasses)
                    | None => false
                    end) (seq 0 (length (JoinEdge.leftKeys edge))).

Definition insert_classes (seenClasses : gset N) (edge : JoinEdge) : gset N :=
  foldl (fun seen i => match pairClass edge i with Some e => {[e]} ∪ seen | None => seen end)
    seenClasses (seq 0 (length (JoinEdge.leftKeys edge))).

Fixpoint canonical_loop (graph : t) (edgeIndices : list nat) (seenClasses : gset N)
    : Result (list nat) :=
  match edgeIndices with
  | [] => Ok []
  | edgeIndex :: edgeIndices =>
      let edge := edge graph edgeIndex in
      velox_check (bool_decide (JoinEdge.joinType edge = kInner) && negb (JoinEdge.isUnnest edge))
        "Canonical key edge is not a plain inner join: {}" ≫= fun _ =>
      if redundant_edge seenClasses edge then canonical_loop graph edgeIndices seenClasses
      else cons edgeIndex <$> canonical_loop graph edgeIndices (insert_classes seenClasses edge)
  end.

Definition canonicalKeyEdges (graph : t) (edgeIndices : list nat) : Result (list nat) :=
  canonical_loop graph (merge_sort le edgeIndices) ∅.

(** ** Connectivity *)

(** One pass over the edges of [connectedComponent]'s loop. *)
Definition component_pass (graph : t) (bound reached : RelationSet) : RelationSet * bool :=
  foldl (fun '(reached, changed) edge =>
           let edgeTes := JoinEdge.totalEligibility edge in
           if negb (RelationSet.isSubset edgeTes bound) then (reached, changed)
           else if RelationSet.hasIntersection edgeTes reached &&
                   negb (RelationSet.isSubset edgeTes reached)
           then (RelationSet.unionSet reached edgeTes, true)
           else (reached, changed))
    (reached, false) (edges graph).

Fixpoint component_loop (fuel : nat) (graph : t) (bound reached : RelationSet)
    : Result RelationSet :=
  match fuel with
  | O => Throw OutOfFuel
  | S fuel =>
      let '(reached, changed) := component_pass graph bound reached in
      if changed then component_loop fuel graph bound reached else Ok reached
  end.

(** A pass that changes anything adds a relation, and there are at most 64. *)
Definition connectedComponent (graph : t) (seed bound : RelationSet) : Result RelationSet :=
  component_loop 66 graph bound seed.

(** [onlyInput()->outputColumns().empty()]: nodes are found by [nodeAt]. *)
Definition reads_constant (nodeAt : N -> Node) (node : Node) : Result bool :=
  match inputs node with
  | [input] => Ok (bool_decide (Nodes.outputColumns (nodeAt input) = []))
  | _ => Throw (VeloxCheck "1, nodeInputs.size()")
  end.

Fixpoint check_unnests (nodeAt : N -> Node) (graph : t) (ids : list N) : Result unit :=
  match ids with
  | [] => Ok tt
  | id :: ids =>
      reads_constant nodeAt (Relation.node (relation graph id)) ≫= fun constant =>
      (if constant : bool then Ok tt
       else velox_check (existsb (fun edge => JoinEdge.isUnnest edge &&
              RelationSet.contains (JoinEdge.rightEndpoints edge) id) (edges graph))
              "Unnest relation has no unnest edge: {}") ≫= fun _ =>
      check_unnests nodeAt graph ids
  end.

Definition checkConsistency (nodeAt : N -> Node) (graph : t) : Result unit :=
  if bool_decide (length (relations graph) = 0%nat) then Ok tt
  else
    connectedComponent graph (RelationSet.singleton 0) (relationIds graph) ≫= fun reached =>
    velox_check (RelationSet.size reached =? N.of_nat (length (relations graph)))
      "Hypergraph is not connected" ≫= fun _ =>
    check_unnests nodeAt graph (RelationSet.ids (unnestRelationIds graph)).

(** ** Columns of a cover *)

(** [relation(id).columns()] of the cover's relations, and the columns its
    edges produce under a new identity. *)
Definition coverColumns (graph : t) (cover : RelationSet) : BitSet :=
  let columns := foldl (fun columns id =>
    BitSet.unionSet columns (Relation.columns (relation graph id))) BitSet.new
    (RelationSet.ids cover) in
  foldl (fun columns edge =>
    if negb (RelationSet.isSubset (JoinEdge.totalEligibility edge) cover) then columns
    else foldl (fun columns '(output, source) =>
           if negb (output =? source) then BitSet.add columns output else columns)
         columns (zip (JoinEdge.outputColumns edge) (JoinEdge.sourceColumns edge)))
    columns (edges graph).

(** Whether a join proves its equi-key columns equal on every row it emits. *)
Definition provesKeyEquality (joinType : JoinType) : bool :=
  bool_decide (joinType = kInner) || bool_decide (joinType = kCountingLeftSemiFilter).

(** The preferred representative: a target column, then by name, then by id. *)
Definition betterRep (graph : t) (a b : ColumnCP) : bool :=
  let aTarget := BitSet.contains (targetColumns graph) a in
  let bTarget := BitSet.contains (targetColumns graph) b in
  if negb (Bool.eqb aTarget bTarget) then aTarget
  else
    let aName := name (objectAt g a) in
    let bName := name (objectAt g b) in
    if negb (String.eqb aName bName) then String.ltb aName bName
    else a <? b.

(** The key pairs of the edges inside [cover] that [coverColumnReps] merges. *)
Definition cover_pairs (columns : BitSet) (edge : JoinEdge) : list (N * N) :=
  List.filter (fun '(l, r) =>
      isColumn g l && isColumn g r && BitSet.contains columns l && BitSet.contains columns r)
    (zip (JoinEdge.leftKeys edge) (JoinEdge.rightKeys edge)).

Definition cover_closure (graph : t) (cover : RelationSet) (columns : BitSet)
    : EquivalenceClosure.t :=
  let closure := foldl EquivalenceClosure.add EquivalenceClosure.new (BitSet.ids columns) in
  foldl (fun closure edge =>
    if negb (provesKeyEquality (JoinEdge.joinType edge)) then closure
    else if negb (RelationSet.isSubset (JoinEdge.totalEligibility edge) cover) then closure
    else EquivalenceClosure.merge_all (betterRep graph) closure (cover_pairs columns edge))
    closure (edges graph).

(** The map from each column of the cover to its representative; each [find]
    compresses the closure the next one searches. *)
Definition coverColumnReps (graph : t) (cover : RelationSet) : gmap ColumnCP ColumnCP :=
  let columns := coverColumns graph cover in
  fst (foldl (fun '(reps, closure) column =>
         let '(rep, closure) := EquivalenceClosure.find closure column in
         (<[column := rep]> reps, closure))
       (∅, cover_closure graph cover columns) (BitSet.ids columns)).

(** The columns consumed by edges not inside [cover]. *)
Definition needed_by_edges (graph : t) (cover : RelationSet) (neededAbove : BitSet) : BitSet :=
  foldl (fun needed edge =>
    if RelationSet.isSubset (JoinEdge.totalEligibility edge) cover then needed
    else
      let needed := PlanObjectSet.unionColumns g needed (JoinEdge.leftKeys edge) in
      let needed := PlanObjectSet.unionColumns g needed (JoinEdge.rightKeys edge) in
      let needed := PlanObjectSet.unionColumns g needed (JoinEdge.filter edge) in
      let needed := PlanObjectSet.unionObjects needed (JoinEdge.sourceColumns edge) in
      if JoinEdge.isUnnest edge
      then PlanObjectSet.unionColumns g needed
             (unnestExpressions (Relation.node
                (relation graph (RelationSet.min (JoinEdge.rightEndpoints edge)))))
      else needed)
    neededAbove (edges graph).

(** One pass of the [do]-[while]: the sources of demanded outputs. *)
Definition demand_pass (graph : t) (neededAbove : BitSet) : BitSet :=
  foldl (fun needed edge =>
    foldl (fun needed '(output, source) =>
      if BitSet.contains needed output then BitSet.add needed source else needed)
      needed (zip (JoinEdge.outputColumns edge) (JoinEdge.sourceColumns edge)))
    neededAbove (edges graph).

Fixpoint demand_loop (fuel : nat) (graph : t) (neededAbove : BitSet) : Result BitSet :=
  match fuel with
  | O => Throw OutOfFuel
  | S fuel =>
      let next := demand_pass graph neededAbove in
      if negb (BitSet.size next =? BitSet.size neededAbove) then demand_loop fuel graph next
      else Ok next
  end.

(** A pass that grows the set adds a source column of some edge. *)
Definition demand_fuel (graph : t) : nat :=
  S (S (length (concat (map JoinEdge.sourceColumns (edges graph))))).

Definition needed_by_conjuncts (graph : t) (cover : RelationSet) (neededAbove : BitSet) : BitSet :=
  foldl (fun needed conjunct =>
    if RelationSet.isSubset (conjunct_relations conjunct) cover then needed
    else match expr conjunct with
         | Some e => PlanObjectSet.unionColumns1 g needed e
         | None => needed
         end)
    neededAbove (filterConjuncts graph).

(** The body of [coverOutputColumns] past the cache lookup. *)
Definition computeOutputColumns (graph : t) (cover : RelationSet) : Result BitSet :=
  demand_loop (demand_fuel graph) graph (needed_by_edges graph cover (targetColumns graph))
    ≫= fun neededAbove =>
  let neededAbove := needed_by_conjuncts graph cover neededAbove in
  let demand := BitSet.intersect (coverColumns graph cover) neededAbove in
  let reps := coverColumnReps graph cover in
  Ok (foldl (fun columns column =>
        BitSet.add columns (match reps !! column with Some rep => rep | None => column end))
      BitSet.new (BitSet.ids demand)).

Definition coverOutputColumns (graph : t) (cover : RelationSet) : Result (BitSet * t) :=
  match coverOutputColumnsCache graph !! cover with
  | Some columns => Ok (columns, graph)
  | None =>
      computeOutputColumns graph cover ≫= fun columns =>
      Ok (columns, mk (relations graph) (edges graph) (filterConjuncts graph) (relationIds graph)
            (unnestRelationIds graph) (expandedRelationIds graph) (targetColumns graph)
            (<[cover := columns]> (coverOutputColumnsCache graph)))
  end.

(** ** [checkEdgesEnforced] *)

(** The columns of one relation that share a class: each merged with the first. *)
Definition relation_pairs (columns : list ColumnCP) : list (N * N) :=
  snd (foldl (fun '(representatives, pairs) column =>
         match column_equivalence g column with
         | None => (representatives, pairs)
         | Some e =>
             match representatives !! e with
             | Some rep => (representatives, pairs ++ [(rep, column)])
             | None => (<[e := column]> representatives, pairs)
             end
         end)
       (∅ : gmap EquivalenceP ColumnCP, []) columns).

Definition key_pairs (edge : JoinEdge) : list (N * N) :=
  zip (JoinEdge.leftKeys edge) (JoinEdge.rightKeys edge).

(** The edges whose equalities are checked; the others must be applied. *)
Definition equality_edge (edge : JoinEdge) : bool :=
  negb (JoinEdge.isUnnest edge) && provesKeyEquality (JoinEdge.joinType edge).

Definition enforced_closure (graph : t) (appliedEdges : gset nat) : EquivalenceClosure.t :=
  let never_better := fun _ _ : N => false in
  let closure := foldl (fun closure relation =>
    EquivalenceClosure.merge_all never_better closure
      (relation_pairs (BitSet.ids (Relation.columns relation))))
    EquivalenceClosure.new (relations graph) in
  foldl (fun closure index =>
    let edge := edge graph index in
    if negb (equality_edge edge) then closure
    else EquivalenceClosure.merge_all never_better closure (key_pairs edge))
    closure (elements appliedEdges).

Fixpoint check_pairs (closure : EquivalenceClosure.t) (pairs : list (N * N))
    : Result EquivalenceClosure.t :=
  match pairs with
  | [] => Ok closure
  | (leftKey, rightKey) :: pairs =>
      let '(l, closure) := EquivalenceClosure.find closure leftKey in
      let '(r, closure) := EquivalenceClosure.find closure rightKey in
      velox_check (l =? r) "Plan does not enforce a join equality: {} = {}" ≫= fun _ =>
      check_pairs closure pairs
  end.

Fixpoint check_edges (appliedEdges : gset nat) (closure : EquivalenceClosure.t)
    (edges : list JoinEdge) (index : nat) : Result unit :=
  match edges with
  | [] => Ok tt
  | edge :: edges =>
      if negb (equality_edge edge)
      then velox_check (bool_decide (index ∈ appliedEdges))
             "Plan does not apply a join edge: {} {}" ≫= fun _ =>
           check_edges appliedEdges closure edges (S index)
      else check_pairs closure (key_pairs edge) ≫= fun closure =>
           check_edges appliedEdges closure edges (S index)
  end.

Definition checkEdgesEnforced (graph : t) (appliedEdges : gset nat) : Result unit :=
  check_edges appliedEdges (enforced_closure graph appliedEdges) (edges graph) 0.

End WithObjects.
End JoinHypergraph.
Abbreviation JoinHypergraph := JoinHypergraph.t.
