(* ===== verification/HypergraphFacts.v ===== *)
(** * Join hypergraph: invariants and correctness

    The representation invariant every builder operation of
    [Hypergraphs.JoinHypergraph] preserves, the meaning of the questions
    enumeration asks, the coherence of the memo cache of [coverOutputColumns],
    and the exactness and soundness of [checkEdgesEnforced]. *)

From S2P Require Import Prelude Word64 RelationSets BitSets EstimateMath QueryGraph Joins.
From S2P Require Import Partitionings Nodes Closures Hypergraphs.
From Stdlib Require Import Lia.
Set Warnings "-clear-no-such-hyp".
Open Scope N_scope.
Import JoinHypergraph.

(** ** Well-formed edges *)

Record edge_ok (e : JoinEdge) : Prop := {
  eok_left : exists i, i ∈ JoinEdge.leftEndpoints e;
  eok_right : exists i, i ∈ JoinEdge.rightEndpoints e;
  eok_left_sub : JoinEdge.leftEndpoints e ⊆ JoinEdge.leftEligibility e;
  eok_right_sub : JoinEdge.rightEndpoints e ⊆ JoinEdge.rightEligibility e;
  eok_disjoint : forall i, i ∈ JoinEdge.leftEligibility e -> i ∈ JoinEdge.rightEligibility e -> False;
  eok_keys : length (JoinEdge.leftKeys e) = length (JoinEdge.rightKeys e);
  eok_columns : length (JoinEdge.outputColumns e) = length (JoinEdge.sourceColumns e);
  eok_kind : if JoinEdge.isUnnest e
             then JoinEdge.leftKeys e = [] /\ JoinEdge.filter e = [] /\ JoinEdge.joinType e = kInner /\
                  JoinEdge.leftEligibility e = JoinEdge.leftEndpoints e /\
                  JoinEdge.rightEligibility e = JoinEdge.rightEndpoints e
             else JoinEdge.leftKeys e <> [];
  eok_inner : JoinEdge.joinType e = kInner ->
    JoinEdge.filter e = [] /\ JoinEdge.nullAware e = false /\ JoinEdge.nullAsValue e = false;
}.

Lemma velox_check_bind {A} (b : bool) what (k : unit -> Result A) a :
  (velox_check b what ≫= k) = Ok a <-> b = true /\ k tt = Ok a.
Proof. destruct b; cbn; [tauto |]. split; [done | by intros []]. Qed.

Lemma disjoint_sets a b : RelationSet.hasIntersection a b = false ->
  forall i, i ∈ a -> i ∈ b -> False.
Proof. intros H%RelationSet.hasIntersection_false i Ha Hb. by apply (H i). Qed.

Lemma JoinEdge_new_ok le re lel rel lk rk f t na nv mark out src e :
  JoinEdge.new le re lel rel lk rk f t na nv mark out src = Ok e -> edge_ok e.
Proof.
  unfold JoinEdge.new. rewrite !velox_check_bind, !negb_true_iff, !RelationSet.empty_false,
    !RelationSet.isSubset_spec, !Nat.eqb_eq.
  intros (Hl & Hr & _ & _ & _ & Hd & Hsl & Hsr & Hk & Hc & Hne & Hf & Hn & [= <-]).
  apply bool_decide_eq_false in Hne. constructor; cbn; try done.
  - by apply disjoint_sets.
  - intros ->. cbn in Hf, Hn. rewrite orb_false_r in Hf, Hn.
    apply bool_decide_eq_true in Hf. rewrite andb_true_iff, !negb_true_iff in Hn. tauto.
Qed.

Lemma JoinEdge_unnest_ok l r e : JoinEdge.unnest l r = Ok e -> edge_ok e.
Proof.
  unfold JoinEdge.unnest. rewrite !velox_check_bind, !negb_true_iff, !RelationSet.empty_false.
  intros (Hl & Hr & Hd & [= <-]). constructor; cbn; try done; try (by intros i). by apply disjoint_sets.
Qed.

(** An edge built by one of the two constructors. *)
Inductive edge_built : JoinEdge -> Prop :=
  | built_join le re lel rel lk rk f t na nv mark out src e :
      JoinEdge.new le re lel rel lk rk f t na nv mark out src = Ok e -> edge_built e
  | built_unnest l r e : JoinEdge.unnest l r = Ok e -> edge_built e.

Lemma edge_built_ok e : edge_built e -> edge_ok e.
Proof. destruct 1; eauto using JoinEdge_new_ok, JoinEdge_unnest_ok. Qed.

Lemma elem_of_totalEligibility e i :
  i ∈ JoinEdge.totalEligibility e <-> i ∈ JoinEdge.leftEligibility e \/ i ∈ JoinEdge.rightEligibility e.
Proof. apply RelationSet.elem_of_unionSet. Qed.

(** ** Well-formed hypergraphs *)

Record graph_ok (graph : JoinHypergraph) : Prop := {
  gok_ids : forall i r, relations graph !! i = Some r -> Relation.id r = N.of_nat i;
  gok_cap : (length (relations graph) <= 64)%nat;
  gok_relationIds : forall i, i ∈ relationIds graph <-> (N.to_nat i < length (relations graph))%nat;
  gok_unnest : forall i, i ∈ unnestRelationIds graph ->
    (N.to_nat i < length (relations graph))%nat /\
    nodeType (Relation.node (relation graph i)) = kUnnest;
  gok_edges : Forall edge_ok (edges graph);
  gok_edge_ids : forall e, e ∈ edges graph -> JoinEdge.totalEligibility e ⊆ relationIds graph;
  gok_expanded : forall i, i ∈ expandedRelationIds graph <->
    exists e, e ∈ edges graph /\ JoinEdge.isUnnest e = true /\ i ∈ JoinEdge.rightEndpoints e;
  gok_unnest_order : forall e, e ∈ edges graph -> JoinEdge.isUnnest e = true ->
    RelationSet.min (JoinEdge.leftEndpoints e) < RelationSet.min (JoinEdge.rightEndpoints e);
  gok_conjuncts : forall c, c ∈ filterConjuncts graph ->
    expr c <> None /\ conjunct_relations c ⊆ relationIds graph;
}.

Lemma new_graph_ok : graph_ok new.
Proof.
  constructor; cbn; try done; try lia; try (by intros ? ?%not_elem_of_nil);
    intros i; rewrite RelationSet.elem_of_empty_rs; [lia |].
  split; [done |]. by intros (e & ?%not_elem_of_nil & _).
Qed.

(** The invariant does not mention the cache. *)
Lemma graph_ok_cache graph graph' :
  graph_ok graph -> relations graph' = relations graph -> edges graph' = edges graph ->
  filterConjuncts graph' = filterConjuncts graph -> relationIds graph' = relationIds graph ->
  unnestRelationIds graph' = unnestRelationIds graph ->
  expandedRelationIds graph' = expandedRelationIds graph -> graph_ok graph'.
Proof.
  intros [] Hr He Hf Hi Hu Hx. constructor; unfold relation in *; rewrite ?Hr, ?He, ?Hf, ?Hi, ?Hu, ?Hx;
    done.
Qed.

Lemma relation_app graph rel i :
  (N.to_nat i < length (relations graph))%nat ->
  nth (N.to_nat i) (relations graph ++ [rel]) no_relation = relation graph i.
Proof. intros H. by apply app_nth1. Qed.

Lemma addRelation_ok graph node card columns id graph' :
  graph_ok graph -> addRelation graph node card columns = Ok (id, graph') ->
  graph_ok graph' /\ id = N.of_nat (length (relations graph)) /\
  relations graph' = relations graph ++ [Relation.mk id node card columns] /\
  coverOutputColumnsCache graph' = ∅ /\ unnestRelationIds graph' = unnestRelationIds graph.
Proof.
  intros [] Ha. unfold addRelation, Relation.new in Ha.
  rewrite !velox_check_bind in Ha. destruct Ha as [Hcap Ha].
  rewrite Hcap in Ha. cbn in Ha. injection Ha as <- <-. apply N.ltb_lt in Hcap.
  unfold RelationSet.kMaxRelations in Hcap. split; [| done].
  constructor; cbn; try done.
  - intros i r Hi. apply lookup_app_Some in Hi as [Hi|[Hle Hi]]; [auto |].
    apply list_lookup_singleton_Some in Hi as [Hz <-]. cbn. lia.
  - rewrite length_app. cbn. lia.
  - intros i. rewrite RelationSet.elem_of_add, gok_relationIds0, length_app. cbn.
    unfold width. lia.
  - intros i Hi. destruct (gok_unnest0 i Hi) as [Hlt Ht].
    rewrite length_app. split; [cbn; lia |]. unfold relation; cbn. by rewrite relation_app.
  - intros e He i Hi. apply RelationSet.elem_of_add. right. by apply (gok_edge_ids0 e).
  - intros c Hc. destruct (gok_conjuncts0 c Hc) as [H1 H2]. split; [done |].
    intros i Hi. apply RelationSet.elem_of_add. right. by apply H2.
Qed.

Lemma addUnnestRelation_ok graph node card columns id graph' :
  graph_ok graph -> addUnnestRelation graph node card columns = Ok (id, graph') ->
  graph_ok graph' /\ coverOutputColumnsCache graph' = ∅.
Proof.
  intros Hok Ha. unfold addUnnestRelation in Ha. rewrite velox_check_bind in Ha.
  destruct Ha as [Ht%bool_decide_eq_true Ha].
  destruct (addRelation graph node card columns) as [[id1 graph1]|] eqn:E; [| done].
  cbn in Ha. injection Ha as -> <-.
  destruct (addRelation_ok _ _ _ _ _ _ Hok E) as (Hok1 & -> & Hrel & Hcache & _).
  split; [| done]. destruct Hok1. constructor; cbn; try done.
  intros i [[-> _]|Hi]%RelationSet.elem_of_add; [| by apply gok_unnest0].
  unfold relation. cbn. rewrite Hrel, length_app. split; [cbn; lia |].
  by rewrite app_nth2, Nat2N.id, Nat.sub_diag by lia.
Qed.

Lemma addEdge_ok graph e graph' :
  graph_ok graph -> edge_ok e -> addEdge graph e = Ok graph' ->
  graph_ok graph' /\ coverOutputColumnsCache graph' = ∅ /\ edges graph' = edges graph ++ [e].
Proof.
  intros [] He Ha. unfold addEdge in Ha. rewrite !velox_check_bind in Ha.
  destruct Ha as (Hsub%RelationSet.isSubset_spec & Hord & [= <-]). split; [| done].
  constructor; cbn; try done.
  - apply Forall_app. split; [done | by constructor].
  - intros e' [He'| ->%list_elem_of_singleton]%elem_of_app; auto.
  - intros i. destruct (JoinEdge.isUnnest e) eqn:Eu.
    + rewrite RelationSet.elem_of_unionSet, gok_expanded0. split.
      * intros [(e' & ? & ? & ?)|Hi]; [exists e' | exists e]; rewrite elem_of_app, list_elem_of_singleton; auto.
      * intros (e' & [?| ->%list_elem_of_singleton]%elem_of_app & ? & ?); eauto.
    + rewrite gok_expanded0. split.
      * intros (e' & ? & ? & ?). exists e'. rewrite elem_of_app. auto.
      * intros (e' & [?| ->%list_elem_of_singleton]%elem_of_app & ? & ?); [eauto | congruence].
  - intros e' [He'| ->%list_elem_of_singleton]%elem_of_app Hu; [auto |].
    rewrite Hu in Hord. cbn in Hord. by apply N.ltb_lt.
Qed.

Lemma addFilterConjunct_ok graph c graph' :
  graph_ok graph -> addFilterConjunct graph c = Ok graph' ->
  graph_ok graph' /\ coverOutputColumnsCache graph' = ∅.
Proof.
  intros [] Ha. unfold addFilterConjunct in Ha. rewrite !velox_check_bind in Ha.
  destruct Ha as (Hne & Hsub%RelationSet.isSubset_spec & [= <-]).
  apply negb_true_iff, bool_decide_eq_false in Hne. split; [| done].
  constructor; cbn; try done. intros c' [Hc| ->%list_elem_of_singleton]%elem_of_app; auto.
Qed.

Section Coherence.
Context {VB : VeloxBits} (g : QueryGraph).

(** Every cached answer is the one the body would compute. *)
Definition cache_ok (graph : JoinHypergraph) : Prop :=
  forall cover columns, coverOutputColumnsCache graph !! cover = Some columns ->
    computeOutputColumns g graph cover = Ok columns.

Lemma empty_cache_ok graph : coverOutputColumnsCache graph = ∅ -> cache_ok graph.
Proof. intros E cover columns. rewrite E. by rewrite lookup_empty. Qed.

(** The operations through which a hypergraph is built and queried. *)
Inductive built : JoinHypergraph -> Prop :=
  | built_new : built new
  | built_relation graph node card columns id graph' :
      built graph -> addRelation graph node card columns = Ok (id, graph') -> built graph'
  | built_unnest_relation graph node card columns id graph' :
      built graph -> addUnnestRelation graph node card columns = Ok (id, graph') -> built graph'
  | built_edge graph e graph' :
      built graph -> edge_built e -> addEdge graph e = Ok graph' -> built graph'
  | built_conjunct graph c graph' :
      built graph -> addFilterConjunct graph c = Ok graph' -> built graph'
  | built_target graph columns : built graph -> built (setTargetColumns graph columns)
  | built_query graph cover columns graph' :
      built graph -> coverOutputColumns g graph cover = Ok (columns, graph') -> built graph'.

Definition with_cache (graph : JoinHypergraph) (cache : gmap RelationSet BitSet) : JoinHypergraph :=
  mk (relations graph) (edges graph) (filterConjuncts graph) (relationIds graph)
    (unnestRelationIds graph) (expandedRelationIds graph) (targetColumns graph) cache.

Lemma demand_loop_cache fuel graph cache needed :
  demand_loop fuel (with_cache graph cache) needed = demand_loop fuel graph needed.
Proof.
  revert needed. induction fuel as [|fuel IH]; intros needed; cbn [demand_loop]; [done |].
  change (demand_pass (with_cache graph cache) needed) with (demand_pass graph needed).
  by rewrite IH.
Qed.

Lemma computeOutputColumns_cache graph cache cover :
  computeOutputColumns g (with_cache graph cache) cover = computeOutputColumns g graph cover.
Proof. unfold computeOutputColumns. by rewrite demand_loop_cache. Qed.

(** What [coverOutputColumns] answers is independent of what is cached. *)
Lemma coverOutputColumns_computes graph cover columns graph' :
  cache_ok graph -> coverOutputColumns g graph cover = Ok (columns, graph') ->
  computeOutputColumns g graph cover = Ok columns /\ cache_ok graph'.
Proof.
  intros Hc. unfold coverOutputColumns.
  destruct (coverOutputColumnsCache graph !! cover) as [cached|] eqn:E.
  - intros [= <- <-]. auto.
  - destruct (computeOutputColumns g graph cover) as [result|] eqn:Er; cbn; [| done].
    intros [= <- <-]. split; [done |]. intros cover' columns'. cbn [coverOutputColumnsCache].
    rewrite lookup_insert_Some. intros [[<- <-]|[_ H]];
      [rewrite <- Er | rewrite <- (Hc _ _ H)]; apply computeOutputColumns_cache.
Qed.

Lemma built_ok (graph : JoinHypergraph) : built graph -> graph_ok graph /\ cache_ok graph.
Proof.
  intros Hbuilt.
  induction Hbuilt as [| | | | | |graph cover columns graph' _ [Hok Hc] Hq].
  - split; [apply new_graph_ok | by apply empty_cache_ok].
  - destruct IHHbuilt as [Hok _]. eapply addRelation_ok in H as (? & _ & _ & ? & _); [| done].
    auto using empty_cache_ok.
  - destruct IHHbuilt as [Hok _]. eapply addUnnestRelation_ok in H as (? & ?); [| done].
    auto using empty_cache_ok.
  - destruct IHHbuilt as [Hok _]. eapply addEdge_ok in H0 as (? & ? & _); [| done | by apply edge_built_ok].
    auto using empty_cache_ok.
  - destruct IHHbuilt as [Hok _]. eapply addFilterConjunct_ok in H as (? & ?); [| done].
    auto using empty_cache_ok.
  - destruct IHHbuilt as [Hok _]. split; [by eapply graph_ok_cache | by apply empty_cache_ok].
  - split; [| exact (proj2 (coverOutputColumns_computes _ _ _ _ Hc Hq))].
    unfold coverOutputColumns in Hq. destruct (_ !! cover); [by injection Hq as _ <- |].
    destruct (computeOutputColumns g graph cover); [| done]. injection Hq as _ <-.
    by eapply graph_ok_cache.
Qed.

(** C34: every hypergraph the cluster builder can reach is well formed - relation
    ids are positions, at most 64 of them, edges and conjuncts reference
    registered relations only, an edge's sides are non-empty, disjoint and
    aligned, the expanded relations are those of the unnest edges, which point
    from smaller to larger ids - and its memo cache is coherent: any answer
    of [coverOutputColumns] is the one computed from the graph as it stands. *)
Theorem built_hypergraph_is_well_formed (graph : JoinHypergraph) (Hbuilt : built graph) :
  graph_ok graph /\
  forall cover columns graph', coverOutputColumns g graph cover = Ok (columns, graph') ->
    computeOutputColumns g graph cover = Ok columns.
Proof.
  destruct (built_ok graph Hbuilt) as [H Hc]. split; [done |]. intros cover columns graph' E.
  exact (proj1 (coverOutputColumns_computes _ _ _ _ Hc E)).
Qed.
End Coherence.

(** ** Crossing edges *)

Section Crossing.
Context (left right : RelationSet).

Definition forward_edge (e : JoinEdge) : bool :=
  RelationSet.isSubset (JoinEdge.leftEligibility e) left &&
  RelationSet.isSubset (JoinEdge.rightEligibility e) right.
Definition reverse_edge (e : JoinEdge) : bool :=
  RelationSet.isSubset (JoinEdge.leftEligibility e) right &&
  RelationSet.isSubset (JoinEdge.rightEligibility e) left.

(** The edge is inside the two sets together but in neither alone. *)
Definition crosses (e : JoinEdge) : Prop :=
  JoinEdge.totalEligibility e ⊆ RelationSet.unionSet left right /\
  ~ JoinEdge.totalEligibility e ⊆ left /\ ~ JoinEdge.totalEligibility e ⊆ right.

(** Its two operands are on the two sides. *)
Definition splits (e : JoinEdge) : bool := forward_edge e || reverse_edge e.

(** [P] holds of the edge at position [i], the first of [es] being at [k]. *)
Definition at_position (k : nat) (es : list JoinEdge) (P : JoinEdge -> Prop) (i : nat) : Prop :=
  exists j e, i = (k + j)%nat /\ es !! j = Some e /\ P e.

Lemma at_position_nil k P i : at_position k [] P i <-> False.
Proof. split; [intros (j & e & _ & He & _); by destruct j | done]. Qed.

Lemma at_position_cons k e es P i :
  at_position k (e :: es) P i <-> (i = k /\ P e) \/ at_position (S k) es P i.
Proof.
  unfold at_position. split.
  - intros ([|j] & x & -> & Hx & HP); cbn in Hx; [left | right].
    + injection Hx as <-. split; [lia | done].
    + exists j, x. split; [lia | done].
  - intros [[-> HP]|(j & x & -> & Hx & HP)]; [exists 0%nat, e | exists (S j), x];
      (split; [lia | done]).
Qed.

(** The edges the loop takes as join edges, and as filters. *)
Definition taken (b : bool) (e : JoinEdge) : Prop :=
  crosses e /\ splits e = true /\ b = forward_edge e.
Definition filtered (e : JoinEdge) : Prop := crosses e /\ splits e = false.

Definition loop_result (es : list JoinEdge) (k : nat) (acc : CrossingEdges)
    (result : option CrossingEdges) : Prop :=
  match result with
  | Some r =>
      (forall e, e ∈ es -> crosses e -> splits e = true \/ plain_inner e = true) /\
      (forall i b, mkCrossingEdge i b ∈ joinEdges r <->
         mkCrossingEdge i b ∈ joinEdges acc \/ at_position k es (taken b) i) /\
      (forall i, i ∈ filterEdges r <-> i ∈ filterEdges acc \/ at_position k es filtered i)
  | None => exists e, e ∈ es /\ crosses e /\ splits e = false /\ plain_inner e = false
  end.

(** One iteration: the loop's result on the rest of the edges, from an
    accumulator that took [e] as it should. *)
Lemma loop_result_cons e es k acc acc' result :
  (crosses e -> splits e = true \/ plain_inner e = true) ->
  (forall i b, mkCrossingEdge i b ∈ joinEdges acc' <->
     mkCrossingEdge i b ∈ joinEdges acc \/ (i = k /\ taken b e)) ->
  (forall i, i ∈ filterEdges acc' <-> i ∈ filterEdges acc \/ (i = k /\ filtered e)) ->
  loop_result es (S k) acc' result -> loop_result (e :: es) k acc result.
Proof.
  intros He Hj Hf. unfold loop_result. destruct result as [r|].
  - intros (H1 & H2 & H3). split_conj.
    + intros x [-> |Hx]%elem_of_cons; auto.
    + intros i b. rewrite H2, Hj, at_position_cons. tauto.
    + intros i. rewrite H3, Hf, at_position_cons. tauto.
  - intros (x & Hx & Hrest). exists x. split; [by right | done].
Qed.

Lemma crossing_loop_spec es k acc :
  loop_result es k acc
    (crossing_loop left right (RelationSet.unionSet left right) es k acc).
Proof.
  revert k acc. induction es as [|e es IH]; intros k acc; cbn [crossing_loop].
  { unfold loop_result. split_conj; intros; rewrite ?at_position_nil; [by apply not_elem_of_nil in H | tauto | tauto]. }
  set (skip := RelationSet.isSubset _ left || RelationSet.isSubset _ right || negb _).
  assert (Hc : skip = false <-> crosses e).
  { unfold skip, crosses. rewrite !orb_false_iff, negb_false_iff, !RelationSet.isSubset_false,
      RelationSet.isSubset_spec. tauto. }
  fold (forward_edge e) (reverse_edge e). fold (splits e).
  destruct skip eqn:Eskip.
  { assert (Hn : ~ crosses e) by (rewrite <- Hc; congruence).
    apply loop_result_cons with (acc' := acc); unfold taken, filtered; [done | tauto | tauto | apply IH]. }
  assert (Hy : crosses e) by by apply Hc. clear Hc.
  destruct (splits e) eqn:Es; [| destruct (plain_inner e) eqn:Ep].
  - eapply loop_result_cons; [auto | | | apply IH]; unfold taken, filtered; cbn [joinEdges filterEdges].
    + intros i b. rewrite elem_of_app, list_elem_of_singleton.
      split; [intros [?|[= -> ->]]; auto | intros [?|(-> & _ & _ & ->)]; auto].
    + intros i. intuition congruence.
  - eapply loop_result_cons; [auto | | | apply IH]; unfold taken, filtered; cbn [joinEdges filterEdges].
    + intros i b. intuition congruence.
    + intros i. rewrite elem_of_app, list_elem_of_singleton. tauto.
  - exists e. split_conj; auto. left.
Qed.

Definition crossing_indices (r : CrossingEdges) : list nat := map index (joinEdges r) ++ filterEdges r.

(** An edge crosses once: as a join edge or as a filter. *)
Lemma crossing_loop_NoDup combined es k acc r :
  crossing_loop left right combined es k acc = Some r ->
  NoDup (crossing_indices acc) -> (forall i, i ∈ crossing_indices acc -> (i < k)%nat) ->
  NoDup (crossing_indices r).
Proof.
  revert k acc. induction es as [|e es IH]; intros k acc; cbn [crossing_loop]; [by intros [= <-] |].
  destruct (_ || _ || _).
  { intros H Hnd Hlt. eapply IH; [done | done |]. intros i Hi. specialize (Hlt i Hi). lia. }
  assert (Hk : forall acc', crossing_indices acc' ≡ₚ k :: crossing_indices acc ->
    NoDup (crossing_indices acc) -> (forall i, i ∈ crossing_indices acc -> (i < k)%nat) ->
    NoDup (crossing_indices acc') /\ forall i, i ∈ crossing_indices acc' -> (i < S k)%nat).
  { intros acc' Hp Hnd Hlt. rewrite Hp. split.
    - constructor; [| done]. intros Hin%Hlt. lia.
    - intros i. rewrite Hp, elem_of_cons. intros [->|Hi%Hlt]; lia. }
  destruct (_ || _); [| destruct (plain_inner e); [| done]]; intros H Hnd Hlt.
  - destruct (Hk (mkCrossingEdges (joinEdges acc ++ [mkCrossingEdge k
      (RelationSet.isSubset (JoinEdge.leftEligibility e) left &&
       RelationSet.isSubset (JoinEdge.rightEligibility e) right)]) (filterEdges acc)))
      as [Hnd' Hlt']; [| done | done | by eapply IH].
    unfold crossing_indices. cbn. rewrite map_app, <- app_assoc. cbn. by rewrite <- Permutation_middle.
  - destruct (Hk (mkCrossingEdges (joinEdges acc) (filterEdges acc ++ [k])))
      as [Hnd' Hlt']; [| done | done | by eapply IH].
    unfold crossing_indices. cbn. by rewrite app_assoc, <- Permutation_cons_append.
Qed.
End Crossing.

Lemma crossingEdges_NoDup graph left right r :
  crossingEdges graph left right = Some r -> NoDup (crossing_indices r).
Proof.
  intros H. eapply crossing_loop_NoDup; [exact H | constructor |]. by intros i ?%not_elem_of_nil.
Qed.

Lemma crossingEdges_spec (graph : JoinHypergraph) (left right : RelationSet) :
  match crossingEdges graph left right with
  | Some r =>
      (forall i b, mkCrossingEdge i b ∈ joinEdges r <->
         exists e, edges graph !! i = Some e /\ crosses left right e /\
           splits left right e = true /\ b = forward_edge left right e) /\
      (forall i, i ∈ filterEdges r <->
         exists e, edges graph !! i = Some e /\ crosses left right e /\
           splits left right e = false) /\
      (forall i e, i ∈ filterEdges r -> edges graph !! i = Some e -> plain_inner e = true)
  | None => exists e, e ∈ edges graph /\ crosses left right e /\
              splits left right e = false /\ plain_inner e = false
  end.
Proof.
  unfold crossingEdges.
  pose proof (crossing_loop_spec left right (edges graph) 0 (mkCrossingEdges [] [])) as H.
  destruct (crossing_loop _ _ _ _ _ _) as [r|]; [| done].
  destruct H as (H1 & H2 & H3). cbn [joinEdges filterEdges] in H2, H3.
  assert (Hat : forall P i, at_position 0 (edges graph) P i <->
    exists e, edges graph !! i = Some e /\ P e).
  { intros P i. unfold at_position. split; [intros (j & e & -> & H); eauto | intros (e & H); eauto]. }
  split_conj.
  - intros i b. rewrite H2, Hat, elem_of_nil. unfold taken. naive_solver.
  - intros i. rewrite H3, Hat, elem_of_nil. unfold filtered. naive_solver.
  - intros i e [[]%elem_of_nil|(e' & He' & Hc & Hs)%Hat]%H3 He. simplify_eq.
    destruct (H1 _ ltac:(by eapply list_elem_of_lookup_2) Hc); congruence.
Qed.

(** [crossingEdges] classifies every edge of the graph across a partition:
    the edges whose operands fall on the two sides become join edges, with their
    direction; the other crossing edges, all plain inner, become filters; and
    there is an answer exactly when no other edge crosses, so a step that would
    drop a non-inner predicate is never offered. *)
Theorem crossingEdges_exact (graph : JoinHypergraph) (left right : RelationSet) :
  match crossingEdges graph left right with
  | Some r =>
      (forall i b, mkCrossingEdge i b ∈ joinEdges r <->
         exists e, edges graph !! i = Some e /\ crosses left right e /\
           splits left right e = true /\ b = forward_edge left right e) /\
      (forall i, i ∈ filterEdges r <->
         exists e, edges graph !! i = Some e /\ crosses left right e /\
           splits left right e = false) /\
      (forall i e, i ∈ filterEdges r -> edges graph !! i = Some e -> plain_inner e = true)
  | None => exists e, e ∈ edges graph /\ crosses left right e /\
              splits left right e = false /\ plain_inner e = false
  end.
Proof. apply crossingEdges_spec. Qed.

(** ** Canonical key edges *)

Section CanonicalKeys.
Context {VB : VeloxBits} (g : QueryGraph) (graph : JoinHypergraph) {V : Type}.
Context (value : ExprCP -> V) (on_left : ExprCP -> bool).

(** The rows agree on every key pair of an edge. *)
Definition edge_holds (index : nat) : Prop :=
  forall i, (i < length (JoinEdge.leftKeys (edge graph index)))%nat ->
    value (nth i (JoinEdge.leftKeys (edge graph index)) 0) =
    value (nth i (JoinEdge.rightKeys (edge graph index)) 0).

(** Key pairs have a column on each side of the partition. *)
Definition edge_spans (index : nat) : Prop :=
  forall i, (i < length (JoinEdge.leftKeys (edge graph index)))%nat ->
    on_left (nth i (JoinEdge.leftKeys (edge graph index)) 0) <>
    on_left (nth i (JoinEdge.rightKeys (edge graph index)) 0).

(** On one side, the columns of one class are equal. *)
Definition sides_agree : Prop :=
  forall a b e, column_equivalence g a = Some e -> column_equivalence g b = Some e ->
    on_left a = on_left b -> value a = value b.

Lemma pairClass_spec e i c :
  pairClass g e i = Some c ->
  column_equivalence g (nth i (JoinEdge.leftKeys e) 0) = Some c /\
  column_equivalence g (nth i (JoinEdge.rightKeys e) 0) = Some c.
Proof.
  unfold pairClass. destruct (negb _ || negb _); [done |].
  destruct (decide _) as [E|]; [| done]. rewrite <- E. auto.
Qed.

(** A class seen: some kept pair equates a left and a right member of it. *)
Definition class_seen (c : EquivalenceP) : Prop :=
  exists a b, column_equivalence g a = Some c /\ column_equivalence g b = Some c /\
    on_left a <> on_left b /\ value a = value b.

Lemma elem_of_insert_classes seen e c :
  c ∈ insert_classes g seen e ->
  c ∈ seen \/ exists i, (i < length (JoinEdge.leftKeys e))%nat /\ pairClass g e i = Some c.
Proof.
  unfold insert_classes.
  assert (H : forall (l : list nat) (seen : gset N), c ∈ foldl (fun seen i =>
      match pairClass g e i with Some e => {[e]} ∪ seen | None => seen end) seen l ->
    c ∈ seen \/ exists i, i ∈ l /\ pairClass g e i = Some c).
  { induction l as [|i l IH]; intros s; cbn; [auto |]. intros [H|(j & Hj & Hc)]%IH.
    - destruct (pairClass g e i) as [k|] eqn:E; [| auto].
      apply elem_of_union in H as [->%elem_of_singleton|H]; [| auto].
      right. exists i. split; [left | done].
    - right. exists j. split; [by right | done]. }
  intros [?|(i & Hi & Hc)]%H; [auto |]. right. exists i.
  apply elem_of_seq in Hi. split; [lia | done].
Qed.

Lemma canonical_loop_sufficient indices seen result :
  sides_agree -> Forall edge_spans indices ->
  (forall c, c ∈ seen -> class_seen c) ->
  canonical_loop g graph indices seen = Ok result ->
  Forall edge_holds result -> Forall edge_holds indices.
Proof.
  intros Hside. revert seen result.
  induction indices as [|index indices IH]; intros seen result Hspan Hseen Hloop Hres; [done |].
  apply Forall_cons in Hspan as [Hsp Hspan]. cbn [canonical_loop] in Hloop.
  rewrite velox_check_bind in Hloop. destruct Hloop as [_ Hloop].
  destruct (redundant_edge g seen (edge graph index)) eqn:Er.
  - constructor; [| by eapply IH]. unfold redundant_edge in Er.
    apply andb_true_iff in Er as [_ Er]. rewrite forallb_forall in Er.
    intros i Hi. specialize (Er i ltac:(apply in_seq; lia)).
    destruct (pairClass g (edge graph index) i) as [c|] eqn:Ec; [| done].
    apply bool_decide_eq_true in Er. apply pairClass_spec in Ec as [Hl Hr].
    destruct (Hseen c Er) as (a & b & Ha & Hb & Hab & Hv). specialize (Hsp i Hi).
    set (l := nth i (JoinEdge.leftKeys _) _) in *.
    set (r := nth i (JoinEdge.rightKeys _) _) in *. clearbody l r.
    destruct (decide (on_left l = on_left a)) as [E|E].
    + rewrite (Hside l a c), Hv by done. symmetry. apply (Hside r b c); [done | done |].
      destruct (on_left l), (on_left r), (on_left a), (on_left b); congruence.
    + rewrite (Hside l b c), <- Hv; [| done | done | destruct (on_left l), (on_left a), (on_left b); congruence].
      symmetry. apply (Hside r a c); [done | done |].
      destruct (on_left l), (on_left r), (on_left a); congruence.
  - destruct (canonical_loop g graph indices _) as [rest|] eqn:El; cbn in Hloop; [| done].
    injection Hloop as <-. apply Forall_cons in Hres as [Hh Hres]. constructor; [done |].
    eapply IH; [done | | exact El | done].
    intros c [Hc|(i & Hi & Hc)]%elem_of_insert_classes; [auto |].
    apply pairClass_spec in Hc as [Hl Hr]. exists (nth i (JoinEdge.leftKeys (edge graph index)) 0),
      (nth i (JoinEdge.rightKeys (edge graph index)) 0). auto.
Qed.

Lemma canonical_loop_sublist indices seen result :
  canonical_loop g graph indices seen = Ok result -> result `sublist_of` indices.
Proof.
  revert seen result. induction indices as [|index indices IH]; intros seen result; cbn [canonical_loop].
  { intros [= <-]. done. }
  rewrite velox_check_bind. intros [_ H]. destruct (redundant_edge _ _ _).
  - apply sublist_cons. by eapply IH.
  - destruct (canonical_loop _ _ indices _) as [rest|] eqn:E; cbn in H; [| done].
    injection H as <-. apply sublist_skip. by eapply IH.
Qed.

(** The first edge is never redundant: nothing has been seen. *)
Lemma canonical_loop_head index indices result :
  canonical_loop g graph (index :: indices) ∅ = Ok result -> exists rest, result = index :: rest.
Proof using VB.
  cbn [canonical_loop]. rewrite velox_check_bind. intros [_ H].
  replace (redundant_edge g ∅ (edge graph index)) with false in H.
  - destruct (canonical_loop _ _ indices _); cbn in H; [| done]. injection H as <-. eauto.
  - unfold redundant_edge. destruct (JoinEdge.leftKeys (edge graph index)) as [|k ks]; [done |].
    cbn [length seq forallb]. destruct (pairClass g (edge graph index) 0) as [n|]; [| by rewrite andb_false_r].
    rewrite (bool_decide_eq_false_2 (n ∈ (∅ : gset N))) by (apply not_elem_of_empty). by rewrite andb_false_r.
Qed.

(** Every class a key pair of edge [i] has is one a kept edge equates. *)
Definition implied_by (kept : list nat) (i : nat) : Prop :=
  forall k, (k < length (JoinEdge.leftKeys (edge graph i)))%nat ->
    exists c j k', pairClass g (edge graph i) k = Some c /\ j ∈ kept /\
      (k' < length (JoinEdge.leftKeys (edge graph j)))%nat /\ pairClass g (edge graph j) k' = Some c.

Lemma canonical_loop_keeps indices seen result :
  canonical_loop g graph indices seen = Ok result ->
  forall i, i ∈ indices -> i ∈ result \/
    forall k, (k < length (JoinEdge.leftKeys (edge graph i)))%nat ->
      exists c, pairClass g (edge graph i) k = Some c /\ (c ∈ seen \/ exists j k', j ∈ result /\
        (k' < length (JoinEdge.leftKeys (edge graph j)))%nat /\ pairClass g (edge graph j) k' = Some c).
Proof.
  revert seen result. induction indices as [|index indices IH]; intros seen result; cbn [canonical_loop].
  { by intros _ i ?%not_elem_of_nil. }
  rewrite velox_check_bind. intros [_ H] i Hi. destruct (redundant_edge g seen (edge graph index)) eqn:Er.
  - apply elem_of_cons in Hi as [->|Hi]; [| by eapply IH]. right. intros k Hk.
    apply andb_true_iff in Er as [_ Er]. rewrite forallb_forall in Er.
    specialize (Er k ltac:(apply in_seq; lia)).
    destruct (pairClass g (edge graph index) k) as [c|]; [| done].
    apply bool_decide_eq_true in Er. exists c. auto.
  - destruct (canonical_loop g graph indices _) as [rest|] eqn:E; cbn in H; [| done]. injection H as <-.
    apply elem_of_cons in Hi as [->|Hi]; [by left; left |].
    destruct (IH _ _ E i Hi) as [?|Himp]; [by left; right | right]. intros k Hk.
    destruct (Himp k Hk) as (c & Hc & Hin). exists c. split; [done |].
    destruct Hin as [Hs|(j & k' & Hj & Hlt & Hc')]; [| right; exists j, k'; split_conj; [by right | done | done]].
    apply elem_of_insert_classes in Hs as [?|(k' & Hlt & Hc')]; [by left | right].
    exists index, k'. split_conj; [left | done | done].
Qed.

Lemma canonicalKeyEdges_keeps indices result i :
  canonicalKeyEdges g graph indices = Ok result -> i ∈ indices -> i ∈ result \/ implied_by result i.
Proof.
  intros H Hi. assert (Hm : i ∈ merge_sort le indices) by (by rewrite merge_sort_Permutation).
  destruct (canonical_loop_keeps _ _ _ H i Hm) as [?|Himp]; [by left | right]. intros k Hk.
  destruct (Himp k Hk) as (c & Hc & [[]%elem_of_empty|(j & k' & Hj & Hlt & Hc')]). by exists c, j, k'.
Qed.

Lemma canonicalKeyEdges_sublist indices result :
  canonicalKeyEdges g graph indices = Ok result -> result `sublist_of` merge_sort le indices.
Proof. apply canonical_loop_sublist. Qed.

Lemma canonicalKeyEdges_nonempty indices result :
  canonicalKeyEdges g graph indices = Ok result -> indices <> [] -> result <> [].
Proof using VB.
  unfold canonicalKeyEdges. intros H Hne. destruct (merge_sort le indices) as [|index rest] eqn:E.
  - exfalso. apply Hne, Permutation_nil. rewrite <- E. apply merge_sort_Permutation.
  - apply canonical_loop_head in H as [rest' ->]. done.
Qed.

(** The check never fails on plain inner edges. *)
Lemma canonicalKeyEdges_total indices :
  (forall i, i ∈ indices -> plain_inner (edge graph i) = true) ->
  exists result, canonicalKeyEdges g graph indices = Ok result.
Proof.
  intros H. assert (Hm : forall i, i ∈ merge_sort le indices -> plain_inner (edge graph i) = true)
    by (intros i; rewrite merge_sort_Permutation; apply H).
  unfold canonicalKeyEdges. revert Hm. generalize (merge_sort le indices) (∅ : gset N).
  induction l as [|index l IH]; intros seen Hm; cbn [canonical_loop]; [by eexists |].
  assert (Hp := Hm index ltac:(left)). unfold plain_inner in Hp. rewrite andb_comm in Hp. rewrite Hp.
  cbn [velox_check mbind Result_bind]. assert (Hl : forall i, i ∈ l -> plain_inner (edge graph i) = true)
    by (intros i Hi; apply Hm; by right).
  destruct (redundant_edge _ _ _); [by apply IH |].
  destruct (IH (insert_classes g seen (edge graph index)) Hl) as [rest ->]. by eexists.
Qed.

(** The key edges [canonicalKeyEdges] keeps are enough: joining on them
    enforces every edge it was given, provided each edge joins the two sides and
    each side already equates its own columns of one class.  Those kept are
    among those given, in ascending order, and at least one is kept. *)
Theorem canonical_key_edges_suffice (indices result : list nat)
    (Hside : sides_agree) (Hspan : forall i, i ∈ indices -> edge_spans i)
    (Hresult : canonicalKeyEdges g graph indices = Ok result) :
  ((forall i, i ∈ result -> edge_holds i) -> forall i, i ∈ indices -> edge_holds i) /\
  result `sublist_of` merge_sort le indices /\ StronglySorted le result /\
  (indices <> [] -> result <> []).
Proof.
  unfold canonicalKeyEdges in Hresult.
  assert (Hp : merge_sort le indices ≡ₚ indices) by apply merge_sort_Permutation.
  split_conj.
  - intros Hh i Hi. rewrite <- Hp in Hi. revert i Hi. apply Forall_forall.
    eapply canonical_loop_sufficient; [done | | | exact Hresult | by apply Forall_forall].
    + rewrite Hp. by apply Forall_forall.
    + intros c []%elem_of_empty.
  - by eapply canonical_loop_sublist.
  - eapply sublist_sorted; [by eapply canonical_loop_sublist |].
    apply StronglySorted_merge_sort; [apply _ | intros ??; lia].
  - intros Hne. destruct (merge_sort le indices) as [|index rest] eqn:E.
    + exfalso. apply Hne. by apply Permutation_nil.
    + apply canonical_loop_head in Hresult as [rest' ->]. done.
Qed.
End CanonicalKeys.

(** ** Connected components *)

Section Component.
Context (graph : JoinHypergraph) (bound : RelationSet).

(** No edge inside [bound] leads out of [s]. *)
Definition closed (s : RelationSet) : Prop :=
  forall e, e ∈ edges graph -> JoinEdge.totalEligibility e ⊆ bound ->
    (exists i, i ∈ JoinEdge.totalEligibility e /\ i ∈ s) -> JoinEdge.totalEligibility e ⊆ s.

Definition pass_step : RelationSet * bool -> JoinEdge -> RelationSet * bool :=
  fun '(reached, changed) edge =>
    let edgeTes := JoinEdge.totalEligibility edge in
    if negb (RelationSet.isSubset edgeTes bound) then (reached, changed)
    else if RelationSet.hasIntersection edgeTes reached && negb (RelationSet.isSubset edgeTes reached)
    then (RelationSet.unionSet reached edgeTes, true)
    else (reached, changed).

Lemma size_subset_lt (a b : RelationSet) :
  a ⊆ b -> (exists i, i ∈ b /\ i ∉ a) -> RelationSet.size a < RelationSet.size b.
Proof.
  intros Hsub (i & Hb & Ha). rewrite <- !RelationSet.size_to_gset.
  assert (RelationSet.to_gset a ⊂ RelationSet.to_gset b) as H%subset_size; [| lia].
  split; [intros j; rewrite !RelationSet.elem_of_to_gset; apply Hsub |].
  intros H. apply Ha, RelationSet.elem_of_to_gset, H. by apply RelationSet.elem_of_to_gset.
Qed.

Lemma size_le_64 (a : RelationSet) : RelationSet.size a <= 64.
Proof.
  rewrite RelationSet.size_ids.
  assert (length (RelationSet.ids a) <= length (map N.of_nat (seq 0 64)))%nat; [| cbn in *; lia].
  apply NoDup_incl_length; [apply NoDup_ListNoDup, RelationSet.ids_NoDup |].
  intros i Hi%list_elem_of_In%RelationSet.elem_of_ids%RelationSet.elem_of_lt.
  apply in_map_iff. exists (N.to_nat i). unfold width in Hi. rewrite in_seq. lia.
Qed.

(** [e] leads nowhere new from [s]. *)
Definition satisfied (s : RelationSet) (e : JoinEdge) : Prop :=
  JoinEdge.totalEligibility e ⊆ bound ->
  (exists i, i ∈ JoinEdge.totalEligibility e /\ i ∈ s) -> JoinEdge.totalEligibility e ⊆ s.

Lemma not_subset_elem (a b : RelationSet) : ~ a ⊆ b -> exists i, i ∈ a /\ i ∉ b.
Proof.
  intros H. destruct (decide (Exists (fun j => j ∉ b) (RelationSet.ids a)))
    as [(j & Hj & Hn)%Exists_exists|Hn]; [exists j; by rewrite <- RelationSet.elem_of_ids |].
  exfalso. apply H. intros j Hj. destruct (decide (j ∈ b)); [done |].
  exfalso. apply Hn, Exists_exists. exists j. by rewrite RelationSet.elem_of_ids.
Qed.

Lemma pass_step_spec e reached changed :
  let '(reached', changed') := pass_step (reached, changed) e in
  (reached' = reached /\ changed' = changed /\ satisfied reached e) \/
  (changed' = true /\ reached ⊆ reached' /\ (exists i, i ∈ reached' /\ i ∉ reached) /\
   forall s, reached ⊆ s -> satisfied s e -> reached' ⊆ s).
Proof.
  unfold pass_step, satisfied. destruct (RelationSet.isSubset _ bound) eqn:Eb; cbn [negb].
  - apply RelationSet.isSubset_spec in Eb.
    destruct (RelationSet.hasIntersection _ reached) eqn:Ei; cbn [andb];
      [destruct (RelationSet.isSubset _ reached) eqn:Er; cbn [negb] |].
    + left. split_conj; [done | done |]. intros _ _. by apply RelationSet.isSubset_spec.
    + right. apply RelationSet.hasIntersection_spec in Ei as (i & Hi & Hr).
      apply RelationSet.isSubset_false, not_subset_elem in Er as (j & Hj & Hn).
      split_conj; [done | | |].
      * intros k Hk. apply RelationSet.elem_of_unionSet. auto.
      * exists j. rewrite RelationSet.elem_of_unionSet. auto.
      * intros s Hs Hsat k [?|?]%RelationSet.elem_of_unionSet; [auto |].
        apply Hsat; [done | exists i; auto | done].
    + left. split_conj; [done | done |]. intros _ (i & Hi & Hr).
      by destruct (disjoint_sets _ _ Ei i).
  - left. split_conj; [done | done |]. intros Hb. by apply RelationSet.isSubset_false in Eb.
Qed.

(** A pass grows [reached] within any closed set, and reports whether it did. *)
Lemma pass_spec es reached changed :
  let '(reached', changed') := foldl pass_step (reached, changed) es in
  reached ⊆ reached' /\
  (forall s, reached ⊆ s -> Forall (satisfied s) es -> reached' ⊆ s) /\
  (changed' = false -> reached' = reached /\ Forall (satisfied reached) es) /\
  (changed' = true -> changed = true \/ exists i, i ∈ reached' /\ i ∉ reached).
Proof.
  revert reached changed. induction es as [|e es IH]; intros reached changed; cbn [foldl].
  { split_conj; [by intros i | by intros s Hs _ | by intros _ | by left]. }
  pose proof (pass_step_spec e reached changed) as Hstep.
  destruct (pass_step (reached, changed) e) as [r1 c1]. specialize (IH r1 c1).
  assert (Htrue : c1 = true -> (foldl pass_step (r1, c1) es).2 = true).
  { intros ->. clear. revert r1. induction es as [|e es IH]; intros r1; cbn [foldl]; [done |].
    unfold pass_step at 2. destruct (negb _); [done |]. by destruct (_ && _). }
  destruct (foldl pass_step (r1, c1) es) as [r2 c2]. cbn [snd] in Htrue.
  destruct IH as (H1 & H2 & H3 & H4).
  destruct Hstep as [(-> & -> & Hsat)|(-> & Hsub & Hnew & Hmin)]; split_conj.
  - done.
  - intros s Hs [_ Hes]%Forall_cons. auto.
  - intros Hc. destruct (H3 Hc) as [-> Hes]. split; [done | by constructor].
  - done.
  - intros i Hi. auto.
  - intros s Hs [He Hes]%Forall_cons. auto.
  - rewrite Htrue by done. done.
  - intros _. right. destruct Hnew as (i & Hi & Hn). exists i. auto.
Qed.

Lemma component_loop_spec fuel reached :
  (64 - N.to_nat (RelationSet.size reached) < fuel)%nat ->
  exists result, component_loop fuel graph bound reached = Ok result /\
    reached ⊆ result /\ closed result /\ forall s, reached ⊆ s -> closed s -> result ⊆ s.
Proof.
  revert reached. induction fuel as [|fuel IH]; intros reached Hf; [lia |]. cbn [component_loop].
  change (component_pass graph bound reached) with (foldl pass_step (reached, false) (edges graph)).
  pose proof (pass_spec (edges graph) reached false) as H.
  destruct (foldl pass_step (reached, false) (edges graph)) as [r c].
  destruct H as (H1 & H2 & H3 & H4).
  assert (Hclosed : forall s, closed s <-> Forall (satisfied s) (edges graph)).
  { intros s. unfold closed. rewrite Forall_forall. done. }
  destruct c.
  - destruct (H4 eq_refl) as [|Hnew]; [done |].
    pose proof (size_subset_lt _ _ H1 Hnew). pose proof (size_le_64 r).
    destruct (IH r ltac:(lia)) as (result & -> & Hr & Hc & Hmin).
    exists result. split_conj; [done | by etrans | done |].
    intros s Hs Hcs. apply Hmin; [| done]. apply H2; [done | by apply Hclosed].
  - destruct (H3 eq_refl) as [-> Hsat]. exists reached.
    split_conj; [done | done | by apply Hclosed | done].
Qed.
End Component.

(** [connectedComponent] terminates for every graph, and returns the least
    set of relations that contains the seed and that no edge inside [bound]
    leaves: everything reachable from the seed along such edges, nothing else. *)
Theorem connectedComponent_is_least_closed (graph : JoinHypergraph) (seed bound : RelationSet) :
  exists result, connectedComponent graph seed bound = Ok result /\
    seed ⊆ result /\ closed graph bound result /\
    forall s, seed ⊆ s -> closed graph bound s -> result ⊆ s.
Proof. apply component_loop_spec. lia. Qed.

(** ** A concrete hypergraph *)

Section Example.
#[local] Existing Instance BitSet.Velox.primitives.

(** Columns [a], [b] and [c] in one class, each in a relation of its own, and
    the three inner edges that equate them. *)
Definition example_graph_abc : QueryGraph := snd (equals example_graph_ab 0 2).

Definition example_relation (column : N) (graph : Result t) : Result t :=
  graph ≫= fun graph =>
  addRelation graph (example_node []) (Some (Float.of_Z (10 + Z.of_N column)))
    (BitSet.add BitSet.new column) ≫= fun '(_, graph) => Ok graph.

(** The inner edge that equates the columns of relations [l] and [r]. *)
Definition example_edge (l r : N) : Result JoinEdge :=
  JoinEdge.new (RelationSet.singleton l) (RelationSet.singleton r) (RelationSet.singleton l)
    (RelationSet.singleton r) [l] [r] [] kInner false false None [] [].

Definition example_add_edge (l r : N) (graph : Result t) : Result t :=
  graph ≫= fun graph => example_edge l r ≫= addEdge graph.

Definition example_build : Result t :=
  example_add_edge 0 2 (example_add_edge 1 2 (example_add_edge 0 1
    (example_relation 2 (example_relation 1 (example_relation 0 (Ok new)))))).

Definition example_hypergraph : JoinHypergraph :=
  match example_build with Ok graph => graph | Throw _ => new end.

Lemma example_relation_built c (graph : Result t) :
  (forall x, graph = Ok x -> built example_graph_abc x) ->
  forall x, example_relation c graph = Ok x -> built example_graph_abc x.
Proof.
  intros IH x. unfold example_relation. destruct graph as [gr|]; cbn [mbind Result_bind]; [| done].
  destruct (addRelation _ _ _ _) as [[id gr']|] eqn:E; [| done]. intros [= <-].
  eapply built_relation; [by apply IH | exact E].
Qed.

Lemma example_add_edge_built l r (graph : Result t) :
  (forall x, graph = Ok x -> built example_graph_abc x) ->
  forall x, example_add_edge l r graph = Ok x -> built example_graph_abc x.
Proof.
  intros IH x. unfold example_add_edge. destruct graph as [gr|]; cbn [mbind Result_bind]; [| done].
  destruct (example_edge l r) as [e|] eqn:Ee; cbn [mbind Result_bind]; [| done]. intros E.
  eapply built_edge; [by apply IH | by eapply built_join | exact E].
Qed.

Lemma example_hypergraph_built : built example_graph_abc example_hypergraph.
Proof.
  assert (H : forall x, example_build = Ok x -> built example_graph_abc x).
  { do 3 apply example_add_edge_built. do 3 apply example_relation_built.
    intros x [= <-]. constructor. }
  unfold example_hypergraph. destruct example_build; [by apply H | constructor].
Qed.

Lemma built_hypergraph_is_well_formed_witness :
  length (relations example_hypergraph) = 3%nat /\ length (edges example_hypergraph) = 3%nat /\
  graph_ok example_hypergraph.
Proof.
  split; [by vm_compute |]. split; [by vm_compute |].
  exact (proj1 (built_hypergraph_is_well_formed example_graph_abc example_hypergraph
    example_hypergraph_built)).
Defined.

Lemma canonical_key_edges_suffice_witness :
  canonicalKeyEdges example_graph_abc example_hypergraph [2; 1]%nat = Ok [1]%nat /\
  edge_holds example_hypergraph (fun _ => true) 2.
Proof.
  split; [by vm_compute |].
  refine (proj1 (canonical_key_edges_suffice example_graph_abc example_hypergraph (fun _ => true)
    (fun c => c <? 2) [2; 1]%nat [1]%nat _ _ _) _ 2%nat _).
  - by intros a b e.
  - intros i Hi k Hk.
    assert (Hc : i = 2%nat \/ i = 1%nat) by set_solver.
    destruct Hc as [->| ->]; (destruct k as [|k]; [by vm_compute | exfalso; vm_compute in Hk; lia]).
  - by vm_compute.
  - by intros i Hi k Hk.
  - set_solver.
Defined.
End Example.
