(* ===== verification/HypergraphColumns.v ===== *)
(** * Join hypergraph: columns of a cover and enforced equalities

    What [coverColumnReps] and [coverOutputColumns] answer, and what
    [checkEdgesEnforced] guarantees, in terms of the equality closure of the key
    pairs and of the columns needed above a cover. *)

From S2P Require Import Prelude Word64 RelationSets BitSets EstimateMath QueryGraph Joins.
From S2P Require Import Partitionings Nodes Closures Hypergraphs HypergraphFacts.
From Stdlib Require Import Lia.
Set Warnings "-clear-no-such-hyp".
Open Scope N_scope.
Import JoinHypergraph.

(** ** The preference order of representatives *)

Lemma string_ltb_false (a b : string) : String.ltb a b = false <-> String.le b a.
Proof.
  unfold String.le, String.ltb, String.leb. rewrite (String.compare_antisym b a).
  destruct (String.compare a b); cbn; split; done.
Qed.

Section BetterRep.
Context {VB : VeloxBits} (g : QueryGraph) (graph : JoinHypergraph).

(** Names first, ids second. *)
Definition name_less (a b : ColumnCP) : bool :=
  if negb (String.eqb (name (objectAt g a)) (name (objectAt g b)))
  then String.ltb (name (objectAt g a)) (name (objectAt g b)) else a <? b.

Lemma name_less_false a b :
  name_less a b = false <->
  (name (objectAt g a) = name (objectAt g b) /\ b <= a) \/
  (name (objectAt g a) <> name (objectAt g b) /\ String.le (name (objectAt g b)) (name (objectAt g a))).
Proof.
  unfold name_less. destruct (String.eqb_spec (name (objectAt g a)) (name (objectAt g b))); cbn [negb].
  - rewrite N.ltb_ge. tauto.
  - rewrite string_ltb_false. tauto.
Qed.

Lemma name_less_asym a b : name_less a b = true -> name_less b a = false.
Proof.
  intros H. apply not_false_iff_true in H. rewrite name_less_false in H. apply name_less_false.
  destruct (decide (name (objectAt g a) = name (objectAt g b))) as [E|E].
  - left. split; [done |]. destruct (N.le_gt_cases b a); [exfalso; apply H; auto | lia].
  - right. split; [congruence |].
    destruct (total String.le (name (objectAt g a)) (name (objectAt g b))); [done | tauto].
Qed.

Lemma name_less_negtrans a b c :
  name_less a b = false -> name_less b c = false -> name_less a c = false.
Proof.
  rewrite !name_less_false.
  intros [[Hab Ha]|[Hab Ha]] [[Hbc Hb]|[Hbc Hb]].
  - left. split; [congruence | lia].
  - right. rewrite Hab. auto.
  - right. rewrite <- Hbc. auto.
  - right. split; [| by etrans].
    intros E. apply Hab. rewrite <- E in Hb. by apply (anti_symm String.le).
Qed.

Lemma betterRep_asym a b : betterRep g graph a b = true -> betterRep g graph b a = false.
Proof.
  unfold betterRep. fold (name_less a b) (name_less b a).
  destruct (BitSet.contains _ a), (BitSet.contains _ b); cbn; try done; apply name_less_asym.
Qed.

Lemma betterRep_negtrans a b c :
  betterRep g graph a b = false -> betterRep g graph b c = false -> betterRep g graph a c = false.
Proof.
  unfold betterRep. fold (name_less a b) (name_less b c) (name_less a c).
  destruct (BitSet.contains _ a), (BitSet.contains _ b), (BitSet.contains _ c); cbn; try done;
    apply name_less_negtrans.
Qed.

Lemma betterRep_irrefl a : betterRep g graph a a = false.
Proof.
  destruct (betterRep g graph a a) eqn:E; [| done]. pose proof (betterRep_asym _ _ E). congruence.
Qed.

Lemma betterRep_trans a b c :
  betterRep g graph a b = true -> betterRep g graph b c = true -> betterRep g graph a c = true.
Proof.
  intros Hab Hbc. apply not_false_iff_true. intros Hac.
  pose proof (betterRep_negtrans a c b Hac (betterRep_asym _ _ Hbc)). congruence.
Qed.

(** No value is preferred to its representative. *)
Definition best_reps (m : EquivalenceClosure.t) : Prop :=
  forall x, betterRep g graph x (EquivalenceClosure.class_of m x) = false.

Lemma merge_best m l r : EquivalenceClosure.ok m -> best_reps m ->
  best_reps (EquivalenceClosure.merge_by (betterRep g graph) m l r).
Proof.
  intros Hok Hb x. destruct (EquivalenceClosure.merge_by_spec (betterRep g graph) m l r Hok) as [_ ->].
  specialize (Hb x). set (cl := EquivalenceClosure.class_of m l). set (cr := EquivalenceClosure.class_of m r).
  case_decide as Hx; [| done]. case_decide as Elr; [destruct Hx; congruence |].
  destruct (betterRep g graph cr cl) eqn:E.
  - destruct Hx as [Hx|Hx]; rewrite Hx in Hb; [| done].
    eapply betterRep_negtrans; [exact Hb | by apply betterRep_asym].
  - destruct Hx as [Hx|Hx]; rewrite Hx in Hb; [done |]. by eapply betterRep_negtrans.
Qed.

Lemma merge_all_best m pairs : EquivalenceClosure.ok m -> best_reps m ->
  best_reps (EquivalenceClosure.merge_all (betterRep g graph) m pairs).
Proof.
  revert m. induction pairs as [|[l r] pairs IH]; intros m Hok Hb; cbn; [done |].
  apply IH; [by apply EquivalenceClosure.merge_by_ok | by apply merge_best].
Qed.
End BetterRep.

(** ** [coverColumns] *)

Section Columns.
Context {VB : VeloxBits} (g : QueryGraph) (graph : JoinHypergraph) (cover : RelationSet).

(** The edges whose operator is inside the cover. *)
Definition covered (e : JoinEdge) : Prop := JoinEdge.totalEligibility e ⊆ cover.

Lemma elem_of_coverColumns c :
  c ∈ coverColumns graph cover <->
  (exists id, id ∈ cover /\ c ∈ Relation.columns (relation graph id)) \/
  (exists e s, e ∈ edges graph /\ covered e /\
     (c, s) ∈ zip (JoinEdge.outputColumns e) (JoinEdge.sourceColumns e) /\ c <> s).
Proof.
  unfold coverColumns.
  assert (Hids : forall ids s, c ∈ foldl (fun columns id =>
      BitSet.unionSet columns (Relation.columns (relation graph id))) s ids <->
    c ∈ s \/ exists id, id ∈ ids /\ c ∈ Relation.columns (relation graph id)).
  { induction ids as [|id ids IH]; intros s; cbn; [set_solver |]. rewrite IH. set_solver. }
  assert (Hpairs : forall (pairs : list (N * N)) s, c ∈ foldl (fun columns '(output, source) =>
      if negb (output =? source) then BitSet.add columns output else columns) s pairs <->
    c ∈ s \/ exists y, (c, y) ∈ pairs /\ c <> y).
  { induction pairs as [|[o y] pairs IH]; intros s; cbn; [set_solver |]. rewrite IH.
    destruct (N.eqb_spec o y); cbn; set_solver. }
  assert (Hedges : forall es s, c ∈ foldl (fun columns edge =>
      if negb (RelationSet.isSubset (JoinEdge.totalEligibility edge) cover) then columns
      else foldl (fun columns '(output, source) =>
             if negb (output =? source) then BitSet.add columns output else columns)
           columns (zip (JoinEdge.outputColumns edge) (JoinEdge.sourceColumns edge))) s es <->
    c ∈ s \/ exists e y, e ∈ es /\ covered e /\
      (c, y) ∈ zip (JoinEdge.outputColumns e) (JoinEdge.sourceColumns e) /\ c <> y).
  { induction es as [|e es IH]; intros s; cbn [foldl]; [set_solver |]. rewrite IH. unfold covered.
    destruct (RelationSet.isSubset (JoinEdge.totalEligibility e) cover) eqn:E; cbn [negb].
    - apply RelationSet.isSubset_spec in E. rewrite Hpairs. setoid_rewrite elem_of_cons. naive_solver.
    - apply RelationSet.isSubset_false in E. setoid_rewrite elem_of_cons. naive_solver. }
  rewrite Hedges, Hids. rewrite BitSet.not_elem_of_new. setoid_rewrite RelationSet.elem_of_ids. tauto.
Qed.

(** ** [coverColumnReps] *)

(** The key pairs merged: those of covered edges that prove their keys equal. *)
Definition all_cover_pairs : list (N * N) :=
  flat_map (fun e =>
    if negb (provesKeyEquality (JoinEdge.joinType e)) then []
    else if negb (RelationSet.isSubset (JoinEdge.totalEligibility e) cover) then []
    else cover_pairs g (coverColumns graph cover) e) (edges graph).

Definition base_closure : EquivalenceClosure.t :=
  foldl EquivalenceClosure.add EquivalenceClosure.new (BitSet.ids (coverColumns graph cover)).

Lemma cover_closure_merges :
  cover_closure g graph cover (coverColumns graph cover) =
  EquivalenceClosure.merge_all (betterRep g graph) base_closure all_cover_pairs.
Proof.
  unfold cover_closure, all_cover_pairs. fold base_closure. generalize base_closure as m.
  induction (edges graph) as [|e es IH]; intros m; cbn [foldl flat_map]; [done |].
  destruct (provesKeyEquality _); cbn [negb]; [| apply IH].
  destruct (RelationSet.isSubset _ _); cbn [negb]; [| apply IH].
  rewrite IH. unfold EquivalenceClosure.merge_all. by rewrite foldl_app.
Qed.

Lemma base_closure_spec :
  EquivalenceClosure.ok base_closure /\ forall x, EquivalenceClosure.class_of base_closure x = x.
Proof.
  unfold base_closure. generalize (BitSet.ids (coverColumns graph cover)) as l.
  assert (H : forall l m, EquivalenceClosure.ok m /\ (forall x, EquivalenceClosure.class_of m x = x) ->
    EquivalenceClosure.ok (foldl EquivalenceClosure.add m l) /\
    forall x, EquivalenceClosure.class_of (foldl EquivalenceClosure.add m l) x = x).
  { induction l as [|v l IH]; intros m [Hok Hc]; cbn; [done |]. apply IH.
    destruct (EquivalenceClosure.add_spec m v Hok) as [(Hok' & Hc' & _) _].
    split; [done |]. intros x. by rewrite Hc', Hc. }
  intros l. apply H. split; [apply EquivalenceClosure.new_ok | apply EquivalenceClosure.class_of_new].
Qed.

Definition final_closure : EquivalenceClosure.t :=
  cover_closure g graph cover (coverColumns graph cover).

Lemma final_closure_spec :
  EquivalenceClosure.ok final_closure /\
  (forall x y, EquivalenceClosure.same final_closure x y <->
     EquivalenceClosure.closure all_cover_pairs x y) /\
  best_reps g graph final_closure.
Proof.
  unfold final_closure. rewrite cover_closure_merges. destruct base_closure_spec as [Hok Hc].
  destruct (EquivalenceClosure.merge_all_same (betterRep g graph) base_closure [] all_cover_pairs Hok)
    as [Hok' Hs].
  { intros x y. unfold EquivalenceClosure.same. rewrite !Hc.
    split; [intros ->; apply EquivalenceClosure.closure_refl |].
    induction 1 as [a b []%not_elem_of_nil| | |]; congruence. }
  split_conj; [done | done |]. apply merge_all_best; [done |].
  intros x. rewrite Hc. apply betterRep_irrefl.
Qed.

(** The result map: every column of the cover with its class. *)
Lemma coverColumnReps_lookup c :
  coverColumnReps g graph cover !! c =
  if decide (c ∈ coverColumns graph cover)
  then Some (EquivalenceClosure.class_of final_closure c) else None.
Proof.
  unfold coverColumnReps. fold final_closure.
  assert (H : forall l reps m, EquivalenceClosure.ok m ->
    (forall x, EquivalenceClosure.class_of m x = EquivalenceClosure.class_of final_closure x) ->
    (foldl (fun '(reps, closure) column =>
       let '(rep, closure) := EquivalenceClosure.find closure column in
       (<[column := rep]> reps, closure)) (reps : gmap N N, m) l).1 !! c =
    if decide (c ∈ l) then Some (EquivalenceClosure.class_of final_closure c) else reps !! c).
  { induction l as [|v l IH]; intros reps m Hok Hc; cbn [foldl].
    { rewrite decide_False; [done | apply not_elem_of_nil]. }
    pose proof (EquivalenceClosure.find_spec m v Hok) as Hf.
    destruct (EquivalenceClosure.find m v) as [r m']. destruct Hf as (-> & (Hok' & Hc' & _) & _).
    rewrite IH; [| done | intros x; by rewrite Hc', Hc].
    destruct (decide (c ∈ l)) as [Hl|Hl]; [rewrite decide_True; [done | by right] |].
    destruct (decide (c = v)) as [->|Hne].
    - rewrite lookup_insert_eq, decide_True; [by rewrite Hc | left].
    - rewrite lookup_insert_ne by done. rewrite decide_False; [done |].
      by rewrite elem_of_cons; intros [|]. }
  rewrite H; [| apply final_closure_spec | done].
  destruct (decide (c ∈ BitSet.ids _)) as [Hin|Hin]; rewrite BitSet.bitset_elem_of_ids in Hin.
  - by rewrite decide_True.
  - rewrite decide_False by done. apply lookup_empty.
Qed.

Lemma all_cover_pairs_columns l r :
  (l, r) ∈ all_cover_pairs -> l ∈ coverColumns graph cover /\ r ∈ coverColumns graph cover.
Proof.
  unfold all_cover_pairs. rewrite list_elem_of_In, in_flat_map. intros (e & _ & He).
  destruct (negb _); [done |]. destruct (negb _); [done |].
  unfold cover_pairs in He. apply filter_In in He as [_ He].
  rewrite !andb_true_iff, !BitSet.bitset_contains_spec in He. tauto.
Qed.

Lemma closure_columns x y :
  EquivalenceClosure.closure all_cover_pairs x y ->
  (x ∈ coverColumns graph cover <-> y ∈ coverColumns graph cover).
Proof.
  induction 1 as [x y H| | |]; [| tauto..]. apply all_cover_pairs_columns in H. tauto.
Qed.

(** A value is in its representative's class. *)
Lemma class_of_closure c : EquivalenceClosure.closure all_cover_pairs c (EquivalenceClosure.class_of final_closure c).
Proof.
  destruct final_closure_spec as (Hok & Hs & _). apply Hs. unfold EquivalenceClosure.same.
  destruct (final_closure !! c) as [p|] eqn:E.
  - pose proof (EquivalenceClosure.class_of_root _ c Hok ltac:(by eexists)) as Hr.
    symmetry. by apply (EquivalenceClosure.class_of_reach _ 0 _ _ (EquivalenceClosure.reach_root _ _ Hr)).
  - by rewrite !(EquivalenceClosure.class_of_absent _ c E).
Qed.

Lemma coverColumnReps_spec :
  let reps := coverColumnReps g graph cover in
  (forall c, is_Some (reps !! c) <-> c ∈ coverColumns graph cover) /\
  forall c r, reps !! c = Some r ->
    r ∈ coverColumns graph cover /\ EquivalenceClosure.closure all_cover_pairs c r /\
    betterRep g graph c r = false /\
    forall c' r', reps !! c' = Some r' ->
      (r = r' <-> EquivalenceClosure.closure all_cover_pairs c c').
Proof.
  cbn zeta. destruct final_closure_spec as (Hok & Hs & Hbest). split.
  - intros c. rewrite coverColumnReps_lookup.
    case_decide; [by split; [| eexists] | split; [by intros [] | done]].
  - intros c r. rewrite coverColumnReps_lookup. case_decide as Hc; [| done]. intros [= <-].
    split_conj.
    + eapply closure_columns; [| exact Hc]. apply EquivalenceClosure.closure_sym, class_of_closure.
    + apply class_of_closure.
    + apply Hbest.
    + intros c' r'. rewrite coverColumnReps_lookup. case_decide; [| done]. intros [= <-]. apply Hs.
Qed.

(** [coverColumnReps] maps exactly the columns of the cover.  Two columns get
    one representative if and only if the key pairs of the covered joins that
    prove their keys equal (between columns of the cover) make them equal; the
    representative is a column of the cover equal to the column it stands for,
    and no member of the class is preferred to it (a target column first, then
    by name, then by id), so it does not depend on the order of the merges. *)
Theorem coverColumnReps_canonical :
  let reps := coverColumnReps g graph cover in
  (forall c, is_Some (reps !! c) <-> c ∈ coverColumns graph cover) /\
  forall c r, reps !! c = Some r ->
    r ∈ coverColumns graph cover /\ EquivalenceClosure.closure all_cover_pairs c r /\
    betterRep g graph c r = false /\
    forall c' r', reps !! c' = Some r' ->
      (r = r' <-> EquivalenceClosure.closure all_cover_pairs c c').
Proof. exact coverColumnReps_spec. Qed.
End Columns.

(** ** [coverOutputColumns] *)

(** A set that grows in an ordered list of candidates: sizes. *)
Lemma size_lt_of_new {VB : VeloxBits} (a b : BitSet) :
  a ⊆ b -> BitSet.size b = BitSet.size a -> b ⊆ a.
Proof.
  intros Hsub Hsize x Hx. rewrite !BitSet.bitset_size_ids in Hsize. apply Nat2N.inj in Hsize.
  rewrite <- BitSet.bitset_elem_of_ids in Hx |- *.
  assert (Hp : BitSet.ids a ≡ₚ BitSet.ids b).
  { apply submseteq_length_Permutation; [| lia]. apply NoDup_submseteq.
    - apply sorted_lt_NoDup, BitSet.bitset_ids_sorted.
    - intros y. rewrite !BitSet.bitset_elem_of_ids. apply Hsub. }
  by rewrite Hp.
Qed.

Section OutputColumns.
Context {VB : VeloxBits} (g : QueryGraph) (graph : JoinHypergraph) (cover : RelationSet).

(** Columns an edge outside the cover reads. *)
Definition read_by (e : JoinEdge) (c : ColumnCP) : Prop :=
  (exists k, k ∈ JoinEdge.leftKeys e ++ JoinEdge.rightKeys e ++ JoinEdge.filter e /\
     c ∈ columns (objectAt g k)) \/
  c ∈ JoinEdge.sourceColumns e \/
  (JoinEdge.isUnnest e = true /\
   exists k, k ∈ unnestExpressions (Relation.node
                   (relation graph (RelationSet.min (JoinEdge.rightEndpoints e)))) /\
     c ∈ columns (objectAt g k)).

Definition all_sources : list ColumnCP := concat (map JoinEdge.sourceColumns (edges graph)).

(** The columns some consumer above the cover needs: the cluster's targets, what
    the edges outside the cover read, and the sources of needed outputs. *)
Inductive needed : ColumnCP -> Prop :=
  | needed_target c : c ∈ targetColumns graph -> needed c
  | needed_edge e c : e ∈ edges graph -> ~ covered cover e -> read_by e c -> needed c
  | needed_source e o s : e ∈ edges graph ->
      (o, s) ∈ zip (JoinEdge.outputColumns e) (JoinEdge.sourceColumns e) -> needed o -> needed s.

(** Needed, or read by a filter conjunct not yet inside the cover. *)
Definition demanded (c : ColumnCP) : Prop :=
  needed c \/
  exists conjunct e, conjunct ∈ filterConjuncts graph /\ expr conjunct = Some e /\
    ~ conjunct_relations conjunct ⊆ cover /\ c ∈ columns (objectAt g e).

Lemma elem_of_needed_by_edges s c :
  c ∈ needed_by_edges g graph cover s <->
  c ∈ s \/ exists e, e ∈ edges graph /\ ~ covered cover e /\ read_by e c.
Proof.
  unfold needed_by_edges, covered. revert s. induction (edges graph) as [|e es IH]; intros s; cbn [foldl].
  { split; [auto |]. intros [?|(e & ?%not_elem_of_nil & _)]; done. }
  rewrite IH. clear IH. destruct (RelationSet.isSubset _ cover) eqn:E.
  - apply RelationSet.isSubset_spec in E. setoid_rewrite elem_of_cons. naive_solver.
  - apply RelationSet.isSubset_false in E. setoid_rewrite elem_of_cons.
    assert (Hread : c ∈ (if JoinEdge.isUnnest e then
        PlanObjectSet.unionColumns g (PlanObjectSet.unionObjects (PlanObjectSet.unionColumns g
          (PlanObjectSet.unionColumns g (PlanObjectSet.unionColumns g s (JoinEdge.leftKeys e))
             (JoinEdge.rightKeys e)) (JoinEdge.filter e)) (JoinEdge.sourceColumns e))
          (unnestExpressions (Relation.node (relation graph (RelationSet.min (JoinEdge.rightEndpoints e)))))
      else PlanObjectSet.unionObjects (PlanObjectSet.unionColumns g
          (PlanObjectSet.unionColumns g (PlanObjectSet.unionColumns g s (JoinEdge.leftKeys e))
             (JoinEdge.rightKeys e)) (JoinEdge.filter e)) (JoinEdge.sourceColumns e)) <->
      c ∈ s \/ read_by e c).
    { unfold read_by. setoid_rewrite elem_of_app. setoid_rewrite elem_of_app.
      destruct (JoinEdge.isUnnest e);
        rewrite ?PlanObjectSet.elem_of_unionColumns, ?PlanObjectSet.elem_of_unionObjects,
          ?PlanObjectSet.elem_of_unionColumns; naive_solver. }
    rewrite Hread. naive_solver.
Qed.

(** The output-to-source pairs of all edges, in the order of the pass. *)
Definition mapping : list (N * N) :=
  flat_map (fun e => zip (JoinEdge.outputColumns e) (JoinEdge.sourceColumns e)) (edges graph).

Definition demand_step (needed : BitSet) (pair : N * N) : BitSet :=
  let '(output, source) := pair in
  if BitSet.contains needed output then BitSet.add needed source else needed.

Lemma demand_pass_mapping s : demand_pass graph s = foldl demand_step s mapping.
Proof. apply (foldl_flat_map demand_step). Qed.

Lemma elem_of_mapping o x :
  (o, x) ∈ mapping <->
  exists e, e ∈ edges graph /\ (o, x) ∈ zip (JoinEdge.outputColumns e) (JoinEdge.sourceColumns e).
Proof.
  unfold mapping. rewrite list_elem_of_In, in_flat_map. by setoid_rewrite list_elem_of_In.
Qed.

(** A pass adds only sources of outputs it holds, and skips none. *)
Lemma demand_fold_spec pairs s :
  s ⊆ foldl demand_step s pairs /\
  (forall P : ColumnCP -> Prop, (forall c, c ∈ s -> P c) ->
     (forall o x, (o, x) ∈ pairs -> P o -> P x) -> forall c, c ∈ foldl demand_step s pairs -> P c) /\
  (forall o x, (o, x) ∈ pairs -> o ∈ s -> x ∈ foldl demand_step s pairs).
Proof.
  revert s. induction pairs as [|[o x] pairs IH]; intros s; cbn [foldl demand_step].
  { split_conj; [by intros i | auto | by intros o x ?%not_elem_of_nil]. }
  set (t := if BitSet.contains s o then BitSet.add s x else s). destruct (IH t) as (H1 & H2 & H3).
  assert (Ht : forall c, c ∈ t <-> c ∈ s \/ (o ∈ s /\ c = x)).
  { intros c. unfold t. destruct (BitSet.contains s o) eqn:E;
      [apply BitSet.bitset_contains_spec in E; rewrite BitSet.bitset_elem_of_add
      | apply BitSet.contains_false in E]; tauto. }
  split_conj.
  - intros c Hc. apply H1, Ht. auto.
  - intros P Hs HP. apply H2.
    + intros c [Hc|[Ho ->]]%Ht; [auto |]. eapply HP; [left | auto].
    + intros o' x' Hin. apply HP. by right.
  - intros o' x' [[= -> ->]|Hin]%elem_of_cons Ho; [apply H1, Ht; auto |].
    eapply H3; [exact Hin |]. apply Ht. auto.
Qed.

(** Sources not in the set yet: each growing pass uses one up. *)
Definition missing (s : BitSet) : nat :=
  length (List.filter (fun c => negb (BitSet.contains s c)) (map snd mapping)).

Lemma filter_length_lt {A} (p q : A -> bool) (l : list A) x :
  (forall y, q y = true -> p y = true) -> x ∈ l -> p x = true -> q x = false ->
  (length (List.filter q l) < length (List.filter p l))%nat.
Proof.
  intros Hqp Hx Hp Hq.
  assert (Hle : forall l, (length (List.filter q l) <= length (List.filter p l))%nat).
  { clear -Hqp. induction l as [|y l IH]; cbn; [done |].
    destruct (q y) eqn:E; [rewrite (Hqp _ E); cbn; lia |]. destruct (p y); cbn; lia. }
  induction l as [|y l IH]; [by apply not_elem_of_nil in Hx |].
  apply elem_of_cons in Hx as [->|Hx]; cbn.
  - rewrite Hp, Hq. cbn. specialize (Hle l). lia.
  - specialize (IH Hx). destruct (q y) eqn:E; [rewrite (Hqp _ E); cbn; lia |].
    destruct (p y); cbn; lia.
Qed.

Lemma demand_loop_spec fuel s :
  (missing s < fuel)%nat ->
  exists s', demand_loop fuel graph s = Ok s' /\ s ⊆ s' /\
    (forall o x, (o, x) ∈ mapping -> o ∈ s' -> x ∈ s') /\
    (forall P : ColumnCP -> Prop, (forall c, c ∈ s -> P c) ->
       (forall o x, (o, x) ∈ mapping -> P o -> P x) -> forall c, c ∈ s' -> P c).
Proof.
  revert s. induction fuel as [|fuel IH]; intros s Hf; [lia |]. cbn [demand_loop].
  rewrite demand_pass_mapping. destruct (demand_fold_spec mapping s) as (H1 & H2 & H3).
  set (s' := foldl demand_step s mapping) in *.
  destruct (N.eqb_spec (BitSet.size s') (BitSet.size s)) as [E|E]; cbn [negb].
  - exists s'. split_conj; [done | done | | done].
    intros o x Hin Ho. eapply H3; [exact Hin |]. by apply size_lt_of_new in E; [apply E |].
  - assert (Hnew : exists x, x ∈ map snd mapping /\ x ∈ s' /\ x ∉ s).
    { destruct (decide (Exists (fun x => x ∈ s' /\ x ∉ s) (map snd mapping)))
        as [(x & Hx & ?)%Exists_exists|Hn]; [eauto |].
      exfalso. apply E. assert (Hss : s' ⊆ s).
      { intros c Hc. apply (H2 (fun c => c ∈ s)); [done | | exact Hc].
        intros o x Hin Ho. destruct (decide (x ∈ s)) as [|Hx]; [done |]. exfalso.
        apply Hn, Exists_exists. exists x. split; [| by eauto].
        apply list_elem_of_fmap. by exists (o, x). }
      rewrite !BitSet.bitset_size_ids. do 2 f_equal. apply BitSet.ids_proper. split; auto. }
    destruct Hnew as (x & Hx & Hin & Hnot).
    assert (Hm : (missing s' < missing s)%nat).
    { apply filter_length_lt with (x := x); [| done | |].
      - intros y. rewrite !negb_true_iff, !BitSet.contains_false. auto.
      - by rewrite negb_true_iff, BitSet.contains_false.
      - by rewrite negb_false_iff, BitSet.bitset_contains_spec. }
    destruct (IH s' ltac:(lia)) as (r & -> & Hsub & Hcl & Hmin). exists r.
    split_conj; [done | by etrans | done |].
    intros P Hs HP. apply Hmin; [| done]. by apply H2.
Qed.

Lemma missing_fuel s : (missing s < demand_fuel graph)%nat.
Proof.
  unfold missing, demand_fuel, mapping.
  assert (H : forall (f : N -> bool) l, (length (List.filter f l) <= length l)%nat).
  { intros f l. induction l as [|x l IH]; cbn; [done |]. destruct (f x); cbn; lia. }
  etrans; [apply Nat.lt_succ_r, H |]. rewrite length_map. apply -> Nat.succ_lt_mono.
  induction (edges graph) as [|e es IH]; cbn; [lia |].
  rewrite !length_app, length_zip_with. lia.
Qed.

Lemma demanded_spec s c :
  (forall x, x ∈ s <-> needed x) ->
  c ∈ needed_by_conjuncts g graph cover s <-> demanded c.
Proof.
  intros Hs. unfold demanded. rewrite <- Hs. clear Hs. unfold needed_by_conjuncts. revert s.
  induction (filterConjuncts graph) as [|f fs IH]; intros s; cbn [foldl].
  { split; [auto |]. intros [?|(f & e & ?%not_elem_of_nil & _)]; done. }
  rewrite IH. clear IH. setoid_rewrite elem_of_cons.
  destruct (RelationSet.isSubset _ cover) eqn:E.
  - apply RelationSet.isSubset_spec in E. naive_solver.
  - apply RelationSet.isSubset_false in E. destruct (expr f) as [e|] eqn:Ee; [| naive_solver].
    unfold PlanObjectSet.unionColumns1. rewrite BitSet.bitset_elem_of_unionSet. naive_solver.
Qed.

Lemma computeOutputColumns_spec :
  exists result, computeOutputColumns g graph cover = Ok result /\
    (forall r, r ∈ result <-> exists c, c ∈ coverColumns graph cover /\ demanded c /\
       coverColumnReps g graph cover !! c = Some r) /\
    result ⊆ coverColumns graph cover.
Proof.
  unfold computeOutputColumns.
  destruct (demand_loop_spec (demand_fuel graph)
    (needed_by_edges g graph cover (targetColumns graph)) (missing_fuel _))
    as (s & -> & Hsub & Hcl & Hmin). cbn [mbind Result_bind].
  assert (Hneeded : forall c, c ∈ s <-> needed c).
  { intros c. split.
    - revert c. apply Hmin.
      + intros c [Hc|(e & He & Hn & Hr)]%elem_of_needed_by_edges;
          [by apply needed_target | by eapply needed_edge].
      + intros o x (e & He & Hin)%elem_of_mapping Ho. by eapply needed_source.
    - induction 1 as [c Hc|e c He Hn Hr|e o x He Hin Ho IH].
      + apply Hsub, elem_of_needed_by_edges. auto.
      + apply Hsub, elem_of_needed_by_edges. eauto.
      + eapply Hcl; [| exact IH]. apply elem_of_mapping. eauto. }
  set (demand := BitSet.intersect _ _).
  assert (Hdemand : forall c, c ∈ demand <-> c ∈ coverColumns graph cover /\ demanded c).
  { intros c. unfold demand. by rewrite BitSet.bitset_elem_of_intersect, (demanded_spec s c Hneeded). }
  assert (Hfold : forall l t r, r ∈ foldl (fun columns column => BitSet.add columns
      (match coverColumnReps g graph cover !! column with Some rep => rep | None => column end)) t l <->
    r ∈ t \/ exists c, c ∈ l /\
      r = match coverColumnReps g graph cover !! c with Some rep => rep | None => c end).
  { induction l as [|x l IH]; intros t r; cbn [foldl]; [set_solver |].
    rewrite IH, BitSet.bitset_elem_of_add. setoid_rewrite elem_of_cons. naive_solver. }
  destruct (coverColumnReps_spec g graph cover) as [Hdom Hreps].
  assert (Hresult : forall r, r ∈ foldl (fun columns column => BitSet.add columns
      (match coverColumnReps g graph cover !! column with Some rep => rep | None => column end))
      BitSet.new (BitSet.ids demand) <->
    exists c, c ∈ coverColumns graph cover /\ demanded c /\ coverColumnReps g graph cover !! c = Some r).
  { intros r. rewrite Hfold, BitSet.not_elem_of_new. setoid_rewrite BitSet.bitset_elem_of_ids.
    setoid_rewrite Hdemand. split.
    - intros [[]|(c & [Hc Hd] & ->)]. exists c. split_conj; [done | done |].
      apply Hdom in Hc as [rep ->]. done.
    - intros (c & Hc & Hd & Hr). right. exists c. by rewrite Hr. }
  eexists. split_conj; [reflexivity | exact Hresult |].
  intros r (c & _ & _ & Hr)%Hresult. by apply (Hreps c r).
Qed.

(** C35: [coverOutputColumns] always has an answer (its fixpoint terminates), and
    the answer is the representatives of the columns of the cover that are
    demanded above it, one per class and nothing else: a column the targets, an
    edge outside the cover or a pending conjunct reads is available under its
    representative, and every output stands for some demanded column. *)
Theorem coverOutputColumns_exact :
  exists result, computeOutputColumns g graph cover = Ok result /\
    (forall r, r ∈ result <-> exists c, c ∈ coverColumns graph cover /\ demanded c /\
       coverColumnReps g graph cover !! c = Some r) /\
    result ⊆ coverColumns graph cover.
Proof. exact computeOutputColumns_spec. Qed.
End OutputColumns.

(** ** [checkEdgesEnforced] *)

Section Enforced.
Context {VB : VeloxBits} (g : QueryGraph) (graph : JoinHypergraph) (applied : gset nat).

(** Two columns of one relation in one class. *)
Definition related_within (a b : ColumnCP) : Prop :=
  exists r e, r ∈ relations graph /\ a ∈ Relation.columns r /\ b ∈ Relation.columns r /\
    column_equivalence g a = Some e /\ column_equivalence g b = Some e.

(** What is known to be equal: the columns a relation's subplan has equated, and
    the keys of the applied edges that prove them equal. *)
Inductive known_equal : N -> N -> Prop :=
  | known_within a b : related_within a b -> known_equal a b
  | known_applied i a b : i ∈ applied -> equality_edge (edge graph i) = true ->
      (a, b) ∈ key_pairs (edge graph i) -> known_equal a b
  | known_refl a : known_equal a a
  | known_sym a b : known_equal a b -> known_equal b a
  | known_trans a b c : known_equal a b -> known_equal b c -> known_equal a c.

Definition relation_step : gmap N N * list (N * N) -> ColumnCP -> gmap N N * list (N * N) :=
  fun '(representatives, pairs) column =>
    match column_equivalence g column with
    | None => (representatives, pairs)
    | Some e =>
        match representatives !! e with
        | Some rep => (representatives, pairs ++ [(rep, column)])
        | None => (<[e := column]> representatives, pairs)
        end
    end.

(** Representatives are columns seen, of the class they are filed under; every
    column seen is linked to its class's representative. *)
Lemma relation_fold_spec cols seen reps pairs :
  (forall e r, reps !! e = Some r -> r ∈ seen /\ column_equivalence g r = Some e) ->
  (forall a b, (a, b) ∈ pairs -> a ∈ seen /\ b ∈ seen /\
     exists e, column_equivalence g a = Some e /\ column_equivalence g b = Some e) ->
  (forall c e, c ∈ seen -> column_equivalence g c = Some e ->
     exists r, reps !! e = Some r /\ EquivalenceClosure.closure pairs r c) ->
  let '(reps', pairs') := foldl relation_step (reps, pairs) cols in
  (forall a b, (a, b) ∈ pairs' -> a ∈ seen ++ cols /\ b ∈ seen ++ cols /\
     exists e, column_equivalence g a = Some e /\ column_equivalence g b = Some e) /\
  (forall c e, c ∈ seen ++ cols -> column_equivalence g c = Some e ->
     exists r, reps' !! e = Some r /\ EquivalenceClosure.closure pairs' r c).
Proof.
  revert seen reps pairs. induction cols as [|x cols IH]; intros seen reps pairs Hr Hp Hc; cbn [foldl].
  { rewrite app_nil_r. auto. }
  replace (seen ++ x :: cols) with ((seen ++ [x]) ++ cols) by by rewrite <- app_assoc.
  unfold relation_step at 2. destruct (column_equivalence g x) as [ex|] eqn:Ex;
    [destruct (reps !! ex) as [rep|] eqn:Er |]; apply IH.
  - intros e r H%Hr. rewrite elem_of_app. tauto.
  - intros a b [Hab|[= -> ->]%list_elem_of_singleton]%elem_of_app.
    + destruct (Hp a b Hab) as (? & ? & ?). rewrite !elem_of_app. auto.
    + destruct (Hr ex rep Er) as [? ?]. rewrite !elem_of_app, !list_elem_of_singleton.
      split_conj; [auto | auto | exists ex; auto].
  - intros c e [Hin| ->%list_elem_of_singleton]%elem_of_app He.
    + destruct (Hc c e Hin He) as (r & ? & Hcl). exists r. split; [done |].
      eapply EquivalenceClosure.closure_mono; [| exact Hcl]. intros p ?. apply elem_of_app; auto.
    + simplify_eq. exists rep. split; [done |]. apply EquivalenceClosure.closure_pair, elem_of_app.
      right. left.
  - intros e r. rewrite lookup_insert_Some, elem_of_app, list_elem_of_singleton.
    intros [[<- <-]|[_ H%Hr]]; tauto.
  - intros a b Hab. destruct (Hp a b Hab) as (? & ? & ?). rewrite !elem_of_app. auto.
  - intros c e [Hin| ->%list_elem_of_singleton]%elem_of_app He.
    + destruct (Hc c e Hin He) as (r & Hre & Hcl). exists r. split; [| done].
      rewrite lookup_insert_ne; [done | congruence].
    + simplify_eq. exists x. rewrite lookup_insert_eq. split; [done | apply EquivalenceClosure.closure_refl].
  - intros e r H%Hr. rewrite elem_of_app. tauto.
  - intros a b Hab. destruct (Hp a b Hab) as (? & ? & ?). rewrite !elem_of_app. auto.
  - intros c e [Hin| ->%list_elem_of_singleton]%elem_of_app He; [auto | congruence].
Qed.

Lemma relation_pairs_spec cols :
  (forall a b, (a, b) ∈ relation_pairs g cols -> a ∈ cols /\ b ∈ cols /\
     exists e, column_equivalence g a = Some e /\ column_equivalence g b = Some e) /\
  (forall a b e, a ∈ cols -> b ∈ cols -> column_equivalence g a = Some e ->
     column_equivalence g b = Some e -> EquivalenceClosure.closure (relation_pairs g cols) a b).
Proof.
  unfold relation_pairs. fold relation_step.
  pose proof (relation_fold_spec cols [] ∅ []) as H.
  destruct (foldl relation_step (∅, []) cols) as [reps pairs].
  destruct H as [H1 H2]; [intros e r; by rewrite lookup_empty | by intros a b ?%not_elem_of_nil
    | by intros c e ?%not_elem_of_nil |]. cbn [app] in H1, H2. split; [done |].
  intros a b e Ha Hb Ea Eb. destruct (H2 a e Ha Ea) as (r & Er & Hra).
  destruct (H2 b e Hb Eb) as (r' & Er' & Hrb). simplify_eq.
  eapply EquivalenceClosure.closure_trans; [apply EquivalenceClosure.closure_sym; exact Hra | exact Hrb].
Qed.

(** All pairs merged before the check. *)
Definition enforced_pairs : list (N * N) :=
  flat_map (fun r => relation_pairs g (BitSet.ids (Relation.columns r))) (relations graph) ++
  flat_map (fun i => if negb (equality_edge (edge graph i)) then [] else key_pairs (edge graph i))
    (elements applied).

Lemma enforced_closure_merges :
  enforced_closure g graph applied =
  EquivalenceClosure.merge_all (fun _ _ => false) EquivalenceClosure.new enforced_pairs.
Proof.
  assert (H : forall {A} (h : A -> list (N * N)) l m,
    foldl (fun m x => EquivalenceClosure.merge_all (fun _ _ => false) m (h x)) m l =
    EquivalenceClosure.merge_all (fun _ _ => false) m (flat_map h l)).
  { intros A h l m. apply foldl_flat_map. }
  unfold enforced_closure, enforced_pairs. rewrite H. unfold EquivalenceClosure.merge_all at 3.
  rewrite foldl_app. fold (EquivalenceClosure.merge_all (fun _ _ => false) EquivalenceClosure.new
    (flat_map (fun r => relation_pairs g (BitSet.ids (Relation.columns r))) (relations graph))).
  generalize (EquivalenceClosure.merge_all (fun _ _ => false) EquivalenceClosure.new
    (flat_map (fun r => relation_pairs g (BitSet.ids (Relation.columns r))) (relations graph))) as m.
  induction (elements applied) as [|i l IH]; intros m; cbn [foldl flat_map]; [done |].
  destruct (negb _); [apply IH |]. rewrite foldl_app. apply IH.
Qed.

Lemma enforced_closure_known x y :
  EquivalenceClosure.closure enforced_pairs x y <-> known_equal x y.
Proof.
  split.
  - induction 1 as [x y Hin|x|x y _ IH|x y z _ IH1 _ IH2]; eauto using known_equal.
    unfold enforced_pairs in Hin. apply elem_of_app in Hin as [Hin|Hin];
      apply list_elem_of_In, in_flat_map in Hin as (k & Hk & Hin); apply list_elem_of_In in Hk, Hin.
    + destruct (relation_pairs_spec (BitSet.ids (Relation.columns k))) as [H _].
      destruct (H x y Hin) as (Hx%BitSet.bitset_elem_of_ids & Hy%BitSet.bitset_elem_of_ids & e & ? & ?).
      apply known_within. exists k, e. auto.
    + destruct (equality_edge (edge graph k)) eqn:E; cbn in Hin; [| by apply not_elem_of_nil in Hin].
      eapply (known_applied k); [by apply elem_of_elements | done | exact Hin].
  - induction 1 as [a b (r & e & Hr & Ha & Hb & Ea & Eb)|i a b Hi He Hin|a|a b _ IH|a b c _ IH1 _ IH2];
      eauto using EquivalenceClosure.closure.
    + destruct (relation_pairs_spec (BitSet.ids (Relation.columns r))) as [_ H].
      eapply EquivalenceClosure.closure_mono; [| eapply (H a b e); by rewrite ?BitSet.bitset_elem_of_ids].
      intros p Hp. apply elem_of_app. left. apply list_elem_of_In, in_flat_map.
      exists r. by rewrite <- !list_elem_of_In.
    + apply EquivalenceClosure.closure_pair, elem_of_app. right. apply list_elem_of_In, in_flat_map.
      exists i. rewrite <- !list_elem_of_In, He. cbn. by rewrite elem_of_elements.
Qed.

Lemma check_pairs_spec m pairs : EquivalenceClosure.ok m ->
  (exists m', check_pairs m pairs = Ok m') <->
  (forall l r, (l, r) ∈ pairs -> EquivalenceClosure.same m l r).
Proof.
  revert m. induction pairs as [|[l r] pairs IH]; intros m Hok; cbn [check_pairs].
  { split; [by intros _ ?? ?%not_elem_of_nil | by eexists]. }
  pose proof (EquivalenceClosure.find_spec m l Hok) as Hl.
  destruct (EquivalenceClosure.find m l) as [cl m1]. destruct Hl as (-> & (Hok1 & Hc1 & _) & _).
  pose proof (EquivalenceClosure.find_spec m1 r Hok1) as Hr.
  destruct (EquivalenceClosure.find m1 r) as [cr m2]. destruct Hr as (-> & (Hok2 & Hc2 & _) & _).
  rewrite Hc1. assert (Hs : forall a b, EquivalenceClosure.same m2 a b <-> EquivalenceClosure.same m a b).
  { intros a b. unfold EquivalenceClosure.same. by rewrite !Hc2, !Hc1. }
  destruct (N.eqb_spec (EquivalenceClosure.class_of m l) (EquivalenceClosure.class_of m r)) as [E|E]; cbn.
  - rewrite (IH m2 Hok2). split.
    + intros H a b [[= -> ->]|Hin]%elem_of_cons; [done |]. by apply Hs, H.
    + intros H a b Hin. apply Hs, H. by right.
  - split; [by intros [] |]. intros H. exfalso. apply E, (H l r). left.
Qed.

Lemma check_pairs_same m pairs m' : EquivalenceClosure.ok m -> check_pairs m pairs = Ok m' ->
  EquivalenceClosure.ok m' /\
  forall a b, EquivalenceClosure.same m' a b <-> EquivalenceClosure.same m a b.
Proof.
  revert m. induction pairs as [|[l r] pairs IH]; intros m Hok; cbn [check_pairs].
  { by intros [= <-]. }
  pose proof (EquivalenceClosure.find_spec m l Hok) as Hl.
  destruct (EquivalenceClosure.find m l) as [cl m1]. destruct Hl as (-> & (Hok1 & Hc1 & _) & _).
  pose proof (EquivalenceClosure.find_spec m1 r Hok1) as Hr.
  destruct (EquivalenceClosure.find m1 r) as [cr m2]. destruct Hr as (-> & (Hok2 & Hc2 & _) & _).
  rewrite velox_check_bind. intros [_ H]. destruct (IH m2 Hok2 H) as [Hok' Hs]. split; [done |].
  intros a b. rewrite Hs. unfold EquivalenceClosure.same. by rewrite !Hc2, !Hc1.
Qed.

Lemma check_edges_spec es k m : EquivalenceClosure.ok m ->
  check_edges applied m es k = Ok tt <->
  forall j e, es !! j = Some e ->
    if equality_edge e
    then forall l r, (l, r) ∈ key_pairs e -> EquivalenceClosure.same m l r
    else (k + j)%nat ∈ applied.
Proof.
  revert k m. induction es as [|e es IH]; intros k m Hok; cbn [check_edges].
  { split; [by intros _ [] | done]. }
  assert (Hcons : forall (P : nat -> JoinEdge -> Prop),
    (forall j x, (e :: es) !! j = Some x -> P j x) <->
    P 0%nat e /\ forall j x, es !! j = Some x -> P (S j) x).
  { intros P. split; [intros H; split; [by apply H | intros j x Hj; by apply (H (S j))] |].
    intros [H0 HS] [|j] x Hj; [by injection Hj as <- | by apply HS]. }
  rewrite Hcons. rewrite Nat.add_0_r. setoid_rewrite Nat.add_succ_r.
  destruct (equality_edge e); cbn [negb].
  - destruct (check_pairs m (key_pairs e)) as [m'|] eqn:Ec; cbn.
    + destruct (check_pairs_same _ _ _ Hok Ec) as [Hok' Hs]. rewrite (IH (S k) m' Hok').
      pose proof (proj1 (check_pairs_spec m (key_pairs e) Hok) ltac:(by eexists)) as Hp.
      split.
      * intros H. split; [done |]. intros j x Hx. specialize (H j x Hx).
        destruct (equality_edge x); [| done]. intros l r Hin. by apply Hs, H.
      * intros [_ H] j x Hx. specialize (H j x Hx).
        destruct (equality_edge x); [| done]. intros l r Hin. by apply Hs, H.
    + split; [done |]. intros [H _]. apply check_pairs_spec in H as [m' Hm]; [congruence | done].
  - rewrite velox_check_bind, bool_decide_eq_true, (IH (S k) m Hok). done.
Qed.

Lemma enforced_closure_spec :
  EquivalenceClosure.ok (enforced_closure g graph applied) /\
  forall x y, EquivalenceClosure.same (enforced_closure g graph applied) x y <-> known_equal x y.
Proof.
  rewrite enforced_closure_merges.
  assert (Hnew : forall x y, EquivalenceClosure.same EquivalenceClosure.new x y <->
    EquivalenceClosure.closure [] x y).
  { intros x y. rewrite EquivalenceClosure.same_new.
    split; [intros ->; apply EquivalenceClosure.closure_refl |].
    induction 1 as [a b []%not_elem_of_nil| | |]; congruence. }
  destruct (EquivalenceClosure.merge_all_same (fun _ _ => false) EquivalenceClosure.new []
    enforced_pairs EquivalenceClosure.new_ok Hnew) as [Hok Hs].
  split; [done |]. intros x y. by rewrite Hs, <- enforced_closure_known.
Qed.

(** [checkEdgesEnforced] accepts a plan's applied edges exactly when every
    edge that proves no equality (unnest, outer, semi, anti) is applied, and the
    keys of every other edge are equal as far as the relations and the applied
    equalities make them (so a redundant equi-edge need not be applied). *)
Theorem checkEdgesEnforced_exact :
  checkEdgesEnforced g graph applied = Ok tt <->
  forall i e, edges graph !! i = Some e ->
    if equality_edge e
    then forall l r, (l, r) ∈ key_pairs e -> known_equal l r
    else i ∈ applied.
Proof.
  destruct enforced_closure_spec as [Hok Hs].
  unfold checkEdgesEnforced. rewrite check_edges_spec by done.
  split; intros H i e Hi; specialize (H i e Hi); destruct (equality_edge e); try done;
    intros l r Hin; apply Hs, H, Hin.
Qed.

(** C7: soundness for rows: on any row where the columns a relation has equated
    are equal and the applied equality edges hold, a plan that passes the check
    satisfies every equality the query states, applied or not. *)
Theorem checkEdgesEnforced_sound {V} (value : N -> V)
    (Hcheck : checkEdgesEnforced g graph applied = Ok tt)
    (Hwithin : forall a b, related_within a b -> value a = value b)
    (Happlied : forall i a b, i ∈ applied -> equality_edge (edge graph i) = true ->
       (a, b) ∈ key_pairs (edge graph i) -> value a = value b) :
  forall e l r, e ∈ edges graph -> equality_edge e = true -> (l, r) ∈ key_pairs e -> value l = value r.
Proof.
  intros e l r [i Hi]%list_elem_of_lookup He Hin.
  destruct enforced_closure_spec as [Hok Hs].
  unfold checkEdgesEnforced in Hcheck. rewrite check_edges_spec in Hcheck by done.
  specialize (Hcheck i e Hi). rewrite He in Hcheck. specialize (Hcheck l r Hin).
  apply Hs in Hcheck. clear Hin. induction Hcheck; eauto using eq_trans, eq_sym.
Qed.
End Enforced.

(** ** The check on a concrete plan *)

Section Example.
#[local] Existing Instance BitSet.Velox.primitives.

(** Applying the first two edges of the clique of three equates all columns. *)
Lemma checkEdgesEnforced_sound_witness :
  checkEdgesEnforced example_graph_abc example_hypergraph {[0; 1]}%nat = Ok tt /\
  (forall e l r, e ∈ edges example_hypergraph -> equality_edge e = true -> (l, r) ∈ key_pairs e ->
     N.max 2 l = N.max 2 r).
Proof.
  assert (Hcheck : checkEdgesEnforced example_graph_abc example_hypergraph {[0; 1]}%nat = Ok tt)
    by (by vm_compute).
  split; [exact Hcheck |].
  refine (checkEdgesEnforced_sound example_graph_abc example_hypergraph {[0; 1]}%nat (N.max 2) Hcheck _ _).
  - assert (Hc : forallb (fun r => forallb (fun c => c <=? 2) (BitSet.ids (Relation.columns r)))
      (relations example_hypergraph) = true) by (by vm_compute).
    intros a b (r & e & Hr & Ha & Hb & _). rewrite forallb_forall in Hc.
    specialize (Hc r ltac:(by apply list_elem_of_In)). rewrite forallb_forall in Hc.
    pose proof (Hc a ltac:(by apply list_elem_of_In, BitSet.bitset_elem_of_ids)) as Hca%N.leb_le.
    pose proof (Hc b ltac:(by apply list_elem_of_In, BitSet.bitset_elem_of_ids)) as Hcb%N.leb_le. lia.
  - intros i a b Hi _ Hin.
    assert (E0 : key_pairs (edge example_hypergraph 0) = [(0, 1)]) by (by vm_compute).
    assert (E1 : key_pairs (edge example_hypergraph 1) = [(1, 2)]) by (by vm_compute).
    apply elem_of_union in Hi as [->%elem_of_singleton| ->%elem_of_singleton]; [rewrite E0 in Hin | rewrite E1 in Hin];
      apply list_elem_of_singleton in Hin; injection Hin as -> ->; lia.
Defined.
End Example.
