(* ===== verification/HypergraphBuilders.v ===== *)
(** * Building the hypergraph of a join cluster

    [axiom/optimizer/v2/HypergraphBuilder.cpp]: from a cluster of joins, unnests and
    filters over leaves to the hypergraph [DPhyp] enumerates - its relations, the edges of
    the joins with the relations that must be covered before each can run (TES), the edges
    inner equalities imply, and the filter conjuncts.

    Nodes are pointers into the tree of the cluster; [EstimateProvider] is a function.
    Hash maps are finite maps.  A cast to another class of node, and [at] of a key that is
    not there, are errors of their own. *)

From S2P Require Import Prelude Word64 RelationSets BitSets EstimateMath QueryGraph Joins AlgebraicProperties Partitionings Nodes Closures Hypergraphs.
From Stdlib Require Import Lia.
Set Warnings "-clear-no-such-hyp".
Open Scope N_scope.

(** ** Clusters *)

(** The members of [v2::Join] the builder reads. *)
Record JoinNode := mkJoinNode {
  join_type : JoinType;
  join_leftKeys : list ExprCP;
  join_rightKeys : list ExprCP;
  join_filter : list ExprCP;
  join_nullAware : bool;
  join_nullAsValue : bool;
  join_markColumn : option ColumnCP;
  join_outputColumns : list ColumnCP;
  join_sourceColumns : list ColumnCP
}.

(** The nodes below the root of a cluster; an [Unnest] with the columns of its input. *)
Inductive ClusterNode :=
  | JoinTree (pointer : N) (join : JoinNode) (left right : ClusterNode)
  | UnnestNode (pointer : N) (inputColumns : list ColumnCP) (input : ClusterNode)
  | FilterNode (pointer : N) (input : ClusterNode)
  | OtherNode (pointer : N).

Definition pointer_of (node : ClusterNode) : N :=
  match node with
  | JoinTree pointer _ _ _ | UnnestNode pointer _ _ | FilterNode pointer _ | OtherNode pointer => pointer
  end.

(** A join of [cluster.joins], with its inputs; an unnest of [cluster.unnests]; a leaf of
    [rewrittenLeaves]. *)
Record ClusterJoin := mkClusterJoin {
  cjoin_pointer : N;
  cjoin : JoinNode;
  cjoin_left : ClusterNode;
  cjoin_right : ClusterNode
}.
Record ClusterUnnest := mkClusterUnnest {
  unnest_pointer : N;
  unnest_node : Node;
  unnest_input : N;
  unnest_inputColumns : list ColumnCP;
  generatedColumns : BitSet
}.
Record RewrittenLeaf := mkRewrittenLeaf { leaf_pointer : N; leaf_node : Node }.

Record JoinCluster := mkJoinCluster {
  cluster_root : ClusterNode;
  cluster_leaves : list N;
  cluster_joins : list ClusterJoin;
  cluster_unnests : list ClusterUnnest;
  freeUnnestColumns : BitSet;
  filterPredicates : list ExprCP
}.

(** A loop that may throw. *)
Fixpoint fold_result {A S} (body : S -> A -> Result S) (l : list A) (s : S) : Result S :=
  match l with
  | [] => Ok s
  | x :: l => body s x ≫= fold_result body l
  end.

(** [map.at(key)] *)
Definition map_at {A} (m : gmap N A) (key : N) : Result A :=
  match m !! key with Some a => Ok a | None => Throw (VeloxUnreachable "at") end.

(** [map.emplace(key, value)] *)
Definition emplace {A} (m : gmap N A) (key : N) (value : A) : gmap N A :=
  match m !! key with Some _ => m | None => <[key := value]> m end.

Module HypergraphBuilder.

(** ** Operands *)

Record JoinInputs := mkJoinInputs {
  leftLeaves : RelationSet;
  rightLeaves : RelationSet;
  leftRelations : RelationSet;
  rightRelations : RelationSet;
  joinType : JoinType
}.

Record SubtreeRelations := mkSubtreeRelations { leaves : RelationSet; allRelations : RelationSet }.

(** [inputs] and [unnestSubtrees], filled in by the walk. *)
Record Walk := mkWalk {
  walk_inputs : gmap N JoinInputs;
  walk_unnestSubtrees : gmap N RelationSet
}.

(** Right forms as their left forms. *)
Definition normalizedInputs (type : JoinType) (left right : SubtreeRelations) : JoinInputs :=
  match type with
  | kRight => mkJoinInputs (leaves right) (leaves left) (allRelations right) (allRelations left) kLeft
  | kRightSemiFilter =>
      mkJoinInputs (leaves right) (leaves left) (allRelations right) (allRelations left) kLeftSemiFilter
  | kRightSemiProject =>
      mkJoinInputs (leaves right) (leaves left) (allRelations right) (allRelations left) kLeftSemiProject
  | _ => mkJoinInputs (leaves left) (leaves right) (allRelations left) (allRelations right) type
  end.

Definition no_relations : SubtreeRelations :=
  mkSubtreeRelations RelationSet.rsEmpty RelationSet.rsEmpty.

Fixpoint populateJoinInputs (leafIds unnestIds : gmap N N) (node : ClusterNode) (walk : Walk) :
    Result (SubtreeRelations * Walk) :=
  match leafIds !! pointer_of node with
  | Some id => let relation := RelationSet.singleton id in Ok (mkSubtreeRelations relation relation, walk)
  | None =>
      match node with
      | UnnestNode pointer inputColumns input =>
          match unnestIds !! pointer with
          | None =>
              if bool_decide (inputColumns = []) then Ok (no_relations, walk)
              else populateJoinInputs leafIds unnestIds input walk
          | Some unnestId =>
              if bool_decide (inputColumns = []) then
                let relation := RelationSet.singleton unnestId in
                Ok (mkSubtreeRelations relation relation,
                    mkWalk (walk_inputs walk) (<[unnestId := RelationSet.rsEmpty]> (walk_unnestSubtrees walk)))
              else
                '(subtree, walk) ← populateJoinInputs leafIds unnestIds input walk;
                Ok (mkSubtreeRelations (leaves subtree) (RelationSet.add (allRelations subtree) unnestId),
                    mkWalk (walk_inputs walk) (<[unnestId := allRelations subtree]> (walk_unnestSubtrees walk)))
          end
      | FilterNode _ input => populateJoinInputs leafIds unnestIds input walk
      | JoinTree pointer join leftInput rightInput =>
          '(l, walk) ← populateJoinInputs leafIds unnestIds leftInput walk;
          '(r, walk) ← populateJoinInputs leafIds unnestIds rightInput walk;
          Ok (mkSubtreeRelations (RelationSet.unionSet (leaves l) (leaves r))
                (RelationSet.unionSet (allRelations l) (allRelations r)),
              mkWalk (<[pointer := normalizedInputs (join_type join) l r]> (walk_inputs walk))
                (walk_unnestSubtrees walk))
      | OtherNode _ => Throw (VeloxUnreachable "as<Join>")
      end
  end.

(** ** TES *)

Definition splitTes (tes normalizedLeftRelations normalizedRightRelations : RelationSet) :
    Result (RelationSet * RelationSet) :=
  velox_check (negb (RelationSet.hasIntersection normalizedLeftRelations normalizedRightRelations))
    "Normalized join inputs must be disjoint: left={}, right={}" ≫= fun _ =>
  let inputRelations := RelationSet.unionSet normalizedLeftRelations normalizedRightRelations in
  velox_check (RelationSet.isSubset tes inputRelations)
    "TES must be contained in the normalized join inputs: tes={}, inputs={}" ≫= fun _ =>
  Ok (RelationSet.intersect tes normalizedLeftRelations, RelationSet.intersect tes normalizedRightRelations).

(** The properties of a descendant join and the parent, less those the parent's predicate
    forbids. *)
Definition reshapes (child : JoinInputs) (parentType : JoinType) (parentSes : RelationSet)
    (leftSide : bool) : Result AlgebraicProperties.Properties :=
  props ← (if leftSide then AlgebraicProperties.derive (joinType child) parentType
           else AlgebraicProperties.derive parentType (joinType child));
  let involvesOuter := negb (bool_decide (joinType child = kInner)) || negb (bool_decide (parentType = kInner)) in
  let readsLeft := RelationSet.hasIntersection parentSes (leftLeaves child) in
  let readsRight := RelationSet.hasIntersection parentSes (rightLeaves child) in
  Ok (if involvesOuter then
        if leftSide then
          AlgebraicProperties.mk (if readsLeft then false else AlgebraicProperties.associative props)
            (if readsRight then false else AlgebraicProperties.leftAsscom props)
            (AlgebraicProperties.rightAsscom props)
        else
          AlgebraicProperties.mk (if readsRight then false else AlgebraicProperties.associative props)
            (AlgebraicProperties.leftAsscom props)
            (if readsLeft then false else AlgebraicProperties.rightAsscom props)
      else props).

(** What one descendant join adds. *)
Definition child_expansion (child : JoinInputs) (props : AlgebraicProperties.Properties) (leftSide : bool) :
    RelationSet :=
  let unless (allowed : bool) leaves := if allowed then RelationSet.rsEmpty else leaves in
  if leftSide then
    RelationSet.unionSet (unless (AlgebraicProperties.leftAsscom props) (rightLeaves child))
      (unless (AlgebraicProperties.associative props) (leftLeaves child))
  else
    RelationSet.unionSet (unless (AlgebraicProperties.rightAsscom props) (leftLeaves child))
      (unless (AlgebraicProperties.associative props) (rightLeaves child)).

Fixpoint tesExpansion (node : ClusterNode) (parentType : JoinType) (parentSes : RelationSet)
    (leftSide : bool) (leafIds : gmap N N) (inputs : gmap N JoinInputs) : Result RelationSet :=
  match leafIds !! pointer_of node with
  | Some _ => Ok RelationSet.rsEmpty
  | None =>
      match node with
      | UnnestNode _ inputColumns input =>
          if bool_decide (inputColumns = []) then Ok RelationSet.rsEmpty
          else tesExpansion input parentType parentSes leftSide leafIds inputs
      | FilterNode _ input => tesExpansion input parentType parentSes leftSide leafIds inputs
      | JoinTree pointer _ leftInput rightInput =>
          child ← map_at inputs pointer;
          props ← reshapes child parentType parentSes leftSide;
          fromLeft ← tesExpansion leftInput parentType parentSes leftSide leafIds inputs;
          fromRight ← tesExpansion rightInput parentType parentSes leftSide leafIds inputs;
          Ok (RelationSet.unionSet (RelationSet.unionSet (child_expansion child props leftSide) fromLeft) fromRight)
      | OtherNode _ => Throw (VeloxUnreachable "as<Join>")
      end
  end.

Definition expandTes (ses : RelationSet) (left right : ClusterNode) (joinType : JoinType)
    (leafIds : gmap N N) (joinInputs : gmap N JoinInputs) : Result RelationSet :=
  fromLeft ← tesExpansion left joinType ses true leafIds joinInputs;
  fromRight ← tesExpansion right joinType ses false leafIds joinInputs;
  Ok (RelationSet.unionSet (RelationSet.unionSet ses fromLeft) fromRight).

(** Which side of the join pads with nulls, whether its right side determines existence,
    whether both sides determine multiplicity. *)
Definition barrier_sides (inputs : JoinInputs) : option (RelationSet * bool * bool) :=
  match joinType inputs with
  | kLeft => Some (rightRelations inputs, false, false)
  | kFull => Some (RelationSet.unionSet (leftRelations inputs) (rightRelations inputs), false, false)
  | kLeftSemiFilter | kLeftSemiProject | kAnti => Some (RelationSet.rsEmpty, true, false)
  | kCountingLeftSemiFilter => Some (RelationSet.rsEmpty, false, true)
  | _ => None
  end.

Definition addUnnestBarriers (inputs : JoinInputs) (unnestInputRelations unnestSubtrees : gmap N RelationSet)
    (tes : RelationSet) : Result RelationSet :=
  match barrier_sides inputs with
  | None => Ok tes
  | Some (nullPaddedSide, rightSideDeterminesExistence, bothSidesDetermineMultiplicity) =>
      let joinRelations := RelationSet.unionSet (leftRelations inputs) (rightRelations inputs) in
      fold_result (fun tes '(unnestId, inputRelations) =>
        subtree ← map_at unnestSubtrees unnestId;
        if RelationSet.isSubset joinRelations subtree then Ok tes
        else
          let onLeft := RelationSet.contains (leftRelations inputs) unnestId in
          let onRight := RelationSet.contains (rightRelations inputs) unnestId in
          let readsNullPaddedSide := RelationSet.hasIntersection nullPaddedSide inputRelations in
          let determinesExistence := rightSideDeterminesExistence && onRight in
          let determinesMultiplicity := bothSidesDetermineMultiplicity && (onLeft || onRight) in
          if negb readsNullPaddedSide && negb determinesExistence && negb determinesMultiplicity then Ok tes
          else
            velox_check (onLeft || onRight) "Unnest must belong to one normalized join side: {}" ≫= fun _ =>
            Ok (RelationSet.add tes unnestId))
        (map_to_list unnestInputRelations) tes
  end.

(** ** Relations of expressions *)

Section Builder.
Context {VB : VeloxBits} (g : QueryGraph).
(** [estimateProvider.estimate(node).cardinality] *)
Variable estimate : N -> option float.
(** Whether [VELOX_DCHECK]s are checked. *)
Variable debug : bool.

Definition expressionRelations (columnToLeaf : gmap N N) (expression : ExprCP) : Result RelationSet :=
  fold_result (fun result column =>
    match columnToLeaf !! column with
    | Some id => Ok (RelationSet.add result id)
    | None => Throw (VeloxCheck "Expression references a column not produced by any cluster leaf: {}")
    end) (BitSet.ids (columns (objectAt g expression))) RelationSet.rsEmpty.

Definition unionExpressionRelations (columnToLeaf : gmap N N) (expressions : list ExprCP) : Result RelationSet :=
  fold_result (fun result expression =>
    relations ← expressionRelations columnToLeaf expression;
    Ok (RelationSet.unionSet result relations)) expressions RelationSet.rsEmpty.

Definition keyRelationsOrOperand (keys : list ExprCP) (columnToLeaf : gmap N N) (operand : RelationSet) :
    Result RelationSet :=
  fromKeys ← unionExpressionRelations columnToLeaf keys;
  if negb (RelationSet.empty fromKeys) then Ok fromKeys
  else
    velox_check (negb (RelationSet.empty operand))
      "A join edge side must read some relation, but neither its keys nor its operand do" ≫= fun _ =>
    Ok operand.

(** ** Edges of joins *)

(** [std::map] from the bits of two relation sets, ascending, to key pairs. *)
Abbreviation Endpoint := (N * N)%type.
Abbreviation KeyPair := (ExprCP * ExprCP)%type.

Definition endpoint_ltb (a b : Endpoint) : bool :=
  (a.1 <? b.1) || ((a.1 =? b.1) && (a.2 <? b.2)).

Fixpoint push_key (endpoint : Endpoint) (pair : KeyPair) (groups : list (Endpoint * list KeyPair)) :
    list (Endpoint * list KeyPair) :=
  match groups with
  | [] => [(endpoint, [pair])]
  | (e, pairs) :: rest =>
      if bool_decide (endpoint = e) then (e, pairs ++ [pair]) :: rest
      else if endpoint_ltb endpoint e then (endpoint, [pair]) :: groups
      else (e, pairs) :: push_key endpoint pair rest
  end.

Definition keysByEndpoint (columnToLeaf : gmap N N) (pairs : list KeyPair) :
    Result (list (Endpoint * list KeyPair)) :=
  fold_result (fun groups pair =>
    leftKeyRelations ← expressionRelations columnToLeaf pair.1;
    rightKeyRelations ← expressionRelations columnToLeaf pair.2;
    Ok (push_key (RelationSet.bits leftKeyRelations, RelationSet.bits rightKeyRelations) pair groups))
    pairs [].

(** What edge construction resolves against. *)
Record EdgeBuilder := mkEdgeBuilder {
  columnToLeaf : gmap N N;
  leafIds : gmap N N;
  joinInputs : gmap N JoinInputs;
  unnestInputRelations : gmap N RelationSet;
  unnestSubtrees : gmap N RelationSet;
  builder_freeUnnestColumns : BitSet
}.

(** The edge of the keys of one pair of endpoints. *)
Definition addInnerEdge (builder : EdgeBuilder) (join : ClusterJoin) (inputs : JoinInputs)
    (graph : JoinHypergraph) (pairs : list KeyPair) : Result JoinHypergraph :=
  let leftKeys := map fst pairs in
  let rightKeys := map snd pairs in
  leftSet ← keyRelationsOrOperand leftKeys (columnToLeaf builder) (leftLeaves inputs);
  rightSet ← keyRelationsOrOperand rightKeys (columnToLeaf builder) (rightLeaves inputs);
  let ses := RelationSet.unionSet leftSet rightSet in
  tes ← expandTes ses (cjoin_left join) (cjoin_right join) (join_type (cjoin join)) (leafIds builder)
          (joinInputs builder);
  '(leftTes, rightTes) ← splitTes tes (leftRelations inputs) (rightRelations inputs);
  edge ← JoinEdge.new leftSet rightSet leftTes rightTes leftKeys rightKeys [] (join_type (cjoin join))
           false false None [] [];
  JoinHypergraph.addEdge graph edge.

Definition addInner (builder : EdgeBuilder) (join : ClusterJoin) (inputs : JoinInputs) (graph : JoinHypergraph) :
    Result JoinHypergraph :=
  groups ← keysByEndpoint (columnToLeaf builder) (zip (join_leftKeys (cjoin join)) (join_rightKeys (cjoin join)));
  graph ← fold_result (addInnerEdge builder join inputs) (map snd groups) graph;
  fold_result (fun graph conjunct =>
    relations ← expressionRelations (columnToLeaf builder) conjunct;
    JoinHypergraph.addFilterConjunct graph (mkFilterConjunct (Some conjunct) relations))
    (join_filter (cjoin join)) graph.

Definition clusterType (type : JoinType) : bool :=
  bool_decide (type = kLeft) || bool_decide (type = kFull) || bool_decide (type = kLeftSemiFilter) ||
  bool_decide (type = kLeftSemiProject) || bool_decide (type = kAnti) ||
  bool_decide (type = kCountingLeftSemiFilter).

Definition flipped (type : JoinType) : bool :=
  bool_decide (type = kRight) || bool_decide (type = kRightSemiFilter) || bool_decide (type = kRightSemiProject).

Definition addOuter (builder : EdgeBuilder) (join : ClusterJoin) (inputs : JoinInputs) (graph : JoinHypergraph) :
    Result JoinHypergraph :=
  velox_check (clusterType (joinType inputs)) "Unsupported join type in join cluster: {}" ≫= fun _ =>
  let node := cjoin join in
  let flip := flipped (join_type node) in
  let edgeLeftKeys := if flip then join_rightKeys node else join_leftKeys node in
  let edgeRightKeys := if flip then join_leftKeys node else join_rightKeys node in
  let normalizedLeftChild := if flip then cjoin_right join else cjoin_left join in
  let normalizedRightChild := if flip then cjoin_left join else cjoin_right join in
  leftSet ← keyRelationsOrOperand edgeLeftKeys (columnToLeaf builder) (leftLeaves inputs);
  rightSet ← keyRelationsOrOperand edgeRightKeys (columnToLeaf builder) (rightLeaves inputs);
  ses ← fold_result (fun ses conjunct =>
          relations ← expressionRelations (columnToLeaf builder) conjunct;
          Ok (RelationSet.unionSet ses relations)) (join_filter node) (RelationSet.unionSet leftSet rightSet);
  tes ← expandTes ses normalizedLeftChild normalizedRightChild (joinType inputs) (leafIds builder)
          (joinInputs builder);
  tes ← addUnnestBarriers inputs (unnestInputRelations builder) (unnestSubtrees builder) tes;
  '(leftTes, rightTes) ← splitTes tes (leftRelations inputs) (rightRelations inputs);
  let markColumn := if bool_decide (joinType inputs = kLeftSemiProject) then join_markColumn node else None in
  let outputs := List.filter (fun p => negb (BitSet.contains (builder_freeUnnestColumns builder) p.2))
                   (zip (join_outputColumns node) (join_sourceColumns node)) in
  edge ← JoinEdge.new leftSet rightSet leftTes rightTes edgeLeftKeys edgeRightKeys (join_filter node)
           (joinType inputs) (join_nullAware node) (join_nullAsValue node) markColumn
           (map fst outputs) (map snd outputs);
  JoinHypergraph.addEdge graph edge.

(** ** Relations of leaves and unnests *)

Record LeafState := mkLeafState {
  ls_graph : JoinHypergraph;
  ls_columnToLeaf : gmap N N;
  ls_leafIds : gmap N N
}.

Definition addLeafRelation (state : LeafState) (leaf : N * RewrittenLeaf) : Result LeafState :=
  let '(original, rewritten) := leaf in
  let outputs := outputColumns (leaf_node rewritten) in
  '(id, graph) ← JoinHypergraph.addRelation (ls_graph state) (leaf_node rewritten)
                   (estimate (leaf_pointer rewritten)) (PlanObjectSet.fromObjects outputs);
  velox_check (bool_decide (ls_leafIds state !! original = None)) "Duplicate cluster leaf" ≫= fun _ =>
  let leafIds := <[original := id]> (ls_leafIds state) in
  leafIds ← (if negb (leaf_pointer rewritten =? original) then
               velox_check (bool_decide (leafIds !! leaf_pointer rewritten = None))
                 "Duplicate rewritten cluster leaf" ≫= fun _ =>
               Ok (<[leaf_pointer rewritten := id]> leafIds)
             else Ok leafIds);
  Ok (mkLeafState graph
        (foldl (fun columnToLeaf column => emplace columnToLeaf column id) (ls_columnToLeaf state) outputs)
        leafIds).

Definition addLeafRelations (leaves : list N) (rewrittenLeaves : list RewrittenLeaf) (state : LeafState) :
    Result LeafState :=
  fold_result addLeafRelation (zip leaves rewrittenLeaves) state.

(** The graph, [columnToLeaf] and [unnestIds]. *)
Definition addUnnestRelation (state : JoinHypergraph * gmap N N * gmap N N) (unnest : ClusterUnnest) :
    Result (JoinHypergraph * gmap N N * gmap N N) :=
  let '(graph, columnToLeaf, unnestIds) := state in
  let cardinality := mul (estimate (unnest_input unnest)) (Some kDefaultUnnestFanout) in
  '(id, graph) ← JoinHypergraph.addUnnestRelation graph (unnest_node unnest) cardinality (generatedColumns unnest);
  Ok (graph,
      foldl (fun columnToLeaf column => emplace columnToLeaf column id) columnToLeaf
        (BitSet.ids (generatedColumns unnest)),
      emplace unnestIds (unnest_pointer unnest) id).

Definition addUnnestRelations (unnests : list ClusterUnnest) (graph : JoinHypergraph) (columnToLeaf : gmap N N) :
    Result (JoinHypergraph * gmap N N * gmap N N) :=
  fold_result addUnnestRelation unnests (graph, columnToLeaf, ∅).

(** One pass over the outputs of the joins; whether one was resolved. *)
Definition output_pass (outputs : list (ColumnCP * ColumnCP)) (columnToLeaf : gmap N N) : gmap N N * bool :=
  foldl (fun '(columnToLeaf, changed) '(output, source) =>
    match columnToLeaf !! source with
    | None => (columnToLeaf, changed)
    | Some relation =>
        (emplace columnToLeaf output relation, changed || bool_decide (columnToLeaf !! output = None))
    end) (columnToLeaf, false) outputs.

(** The outputs of all joins with their sources, in order. *)
Definition join_outputs (joins : list ClusterJoin) : list (ColumnCP * ColumnCP) :=
  flat_map (fun join => zip (join_outputColumns (cjoin join)) (join_sourceColumns (cjoin join))) joins.

Fixpoint output_loop (fuel : nat) (outputs : list (ColumnCP * ColumnCP)) (columnToLeaf : gmap N N) :
    Result (gmap N N) :=
  match fuel with
  | O => Throw OutOfFuel
  | S fuel =>
      let '(columnToLeaf, changed) := output_pass outputs columnToLeaf in
      if changed then output_loop fuel outputs columnToLeaf else Ok columnToLeaf
  end.

(** Each pass but the last resolves an output. *)
Definition addJoinOutputRelations (joins : list ClusterJoin) (columnToLeaf : gmap N N) : Result (gmap N N) :=
  output_loop (S (length (join_outputs joins))) (join_outputs joins) columnToLeaf.

Definition addUnnestEdge (unnestIds columnToLeaf : gmap N N) (state : JoinHypergraph * gmap N RelationSet)
    (unnest : ClusterUnnest) : Result (JoinHypergraph * gmap N RelationSet) :=
  let '(graph, unnestInputRelations) := state in
  id ← map_at unnestIds (unnest_pointer unnest);
  let inputRelations :=
    foldl (fun relations column =>
      match columnToLeaf !! column with Some id => RelationSet.add relations id | None => relations end)
      RelationSet.rsEmpty (unnest_inputColumns unnest) in
  let unnestInputRelations := emplace unnestInputRelations id inputRelations in
  if bool_decide (unnest_inputColumns unnest = []) then Ok (graph, unnestInputRelations)
  else
    velox_check (negb (RelationSet.empty inputRelations))
      "Unnest input subtree must contribute at least one cluster relation" ≫= fun _ =>
    edge ← JoinEdge.unnest inputRelations (RelationSet.singleton id);
    graph ← JoinHypergraph.addEdge graph edge;
    Ok (graph, unnestInputRelations).

Definition addUnnestEdges (unnests : list ClusterUnnest) (unnestIds columnToLeaf : gmap N N)
    (graph : JoinHypergraph) : Result (JoinHypergraph * gmap N RelationSet) :=
  fold_result (addUnnestEdge unnestIds columnToLeaf) unnests (graph, ∅).

(** ** Edges that inner equalities imply *)

Definition orderedPair (a b : N) : N * N := if a <? b then (a, b) else (b, a).

(** A class of equal columns: one column per relation, ascending by relation
    ([classReps]), and the pairs of relations that written edges cover
    ([coveredRelationPairs]). *)
Record ClassEntry := mkClassEntry {
  class_equivalence : EquivalenceP;
  class_reps : list (N * ColumnCP);
  class_covered : list (N * N)
}.

(** [try_emplace] into a [std::map]. *)
Fixpoint emplace_rep (relation : N) (column : ColumnCP) (reps : list (N * ColumnCP)) : list (N * ColumnCP) :=
  match reps with
  | [] => [(relation, column)]
  | (r, c) :: rest =>
      if relation =? r then reps
      else if relation <? r then (relation, column) :: reps
      else (r, c) :: emplace_rep relation column rest
  end.

(** The classes in the order they are first seen ([classOrder]). *)
Fixpoint update_class (equivalence : EquivalenceP) (update : ClassEntry -> ClassEntry) (classes : list ClassEntry) :
    list ClassEntry :=
  match classes with
  | [] => [update (mkClassEntry equivalence [] [])]
  | entry :: classes =>
      if class_equivalence entry =? equivalence then update entry :: classes
      else entry :: update_class equivalence update classes
  end.

(** The loop over the key pairs of an inner edge. *)
Definition note_pair (columnToLeaf : gmap N N) (classes : list ClassEntry) (pair : KeyPair) :
    Result (list ClassEntry) :=
  let '(leftColumn, rightColumn) := pair in
  if negb (isColumn g leftColumn) || negb (isColumn g rightColumn) then Ok classes
  else
    match column_equivalence g leftColumn with
    | None => Throw (VeloxCheck "Inner equi-join column has no equivalence class: {}")
    | Some equivalence =>
        velox_check (bool_decide (column_equivalence g rightColumn = Some equivalence))
          "Inner equi-join columns have different equivalence classes: {}, {}" ≫= fun _ =>
        match columnToLeaf !! leftColumn, columnToLeaf !! rightColumn with
        | Some leftRelation, Some rightRelation =>
            velox_check (negb debug || negb (leftRelation =? rightRelation))
              "leftRelation->second, rightRelation->second" ≫= fun _ =>
            Ok (update_class equivalence (fun entry =>
                  mkClassEntry (class_equivalence entry)
                    (emplace_rep rightRelation rightColumn (emplace_rep leftRelation leftColumn (class_reps entry)))
                    (class_covered entry ++ [orderedPair leftRelation rightRelation])) classes)
        | _, _ => Ok classes
        end
    end.

Definition note_edge (columnToLeaf : gmap N N) (classes : list ClassEntry) (edge : JoinEdge) :
    Result (list ClassEntry) :=
  if negb (bool_decide (JoinEdge.joinType edge = kInner)) then Ok classes
  else fold_result (note_pair columnToLeaf) (zip (JoinEdge.leftKeys edge) (JoinEdge.rightKeys edge)) classes.

Record DerivedEdgeSpec := mkDerivedEdgeSpec {
  derived_relations : N * N;
  derived_leftKeys : list ExprCP;
  derived_rightKeys : list ExprCP
}.

(** The edge between two relations, created when they are first seen. *)
Fixpoint derive_pair (relationPair : N * N) (leftKey rightKey : ExprCP) (derivedEdges : list DerivedEdgeSpec) :
    list DerivedEdgeSpec :=
  match derivedEdges with
  | [] => [mkDerivedEdgeSpec relationPair [leftKey] [rightKey]]
  | spec :: derivedEdges =>
      if bool_decide (derived_relations spec = relationPair)
      then mkDerivedEdgeSpec relationPair (derived_leftKeys spec ++ [leftKey]) (derived_rightKeys spec ++ [rightKey])
             :: derivedEdges
      else spec :: derive_pair relationPair leftKey rightKey derivedEdges
  end.

(** The pairs of a list, each with all later ones, in order. *)
Fixpoint ordered_pairs {A} (l : list A) : list (A * A) :=
  match l with
  | [] => []
  | x :: l => map (pair x) l ++ ordered_pairs l
  end.

Definition derive_class (derivedEdges : list DerivedEdgeSpec) (entry : ClassEntry) : list DerivedEdgeSpec :=
  foldl (fun derivedEdges '((leftRelation, leftColumn), (rightRelation, rightColumn)) =>
    let relationPair := orderedPair leftRelation rightRelation in
    if bool_decide (relationPair ∈ class_covered entry) then derivedEdges
    else derive_pair relationPair leftColumn rightColumn derivedEdges)
    derivedEdges (ordered_pairs (class_reps entry)).

Definition addDerivedEdge (graph : JoinHypergraph) (spec : DerivedEdgeSpec) : Result JoinHypergraph :=
  let left := RelationSet.singleton (derived_relations spec).1 in
  let right := RelationSet.singleton (derived_relations spec).2 in
  edge ← JoinEdge.new left right left right (derived_leftKeys spec) (derived_rightKeys spec) [] kInner
           false false None [] [];
  JoinHypergraph.addEdge graph edge.

Definition addTransitiveInnerEdges (columnToLeaf : gmap N N) (graph : JoinHypergraph) : Result JoinHypergraph :=
  classes ← fold_result (note_edge columnToLeaf) (JoinHypergraph.edges graph) [];
  fold_result addDerivedEdge (foldl derive_class [] classes) graph.

(** ** Filter conjuncts *)

(** The outputs of joins that are not their sources, with the eligibility of the join. *)
Definition freshOutputs (edges : list JoinEdge) : gmap N (RelationSet * ColumnCP) :=
  foldl (fun fresh edge =>
    foldl (fun fresh '(output, source) =>
      if negb (output =? source) then emplace fresh output (JoinEdge.totalEligibility edge, source) else fresh)
      fresh (zip (JoinEdge.outputColumns edge) (JoinEdge.sourceColumns edge))) ∅ edges.

(** The chain of joins from a column to the relation it starts from. *)
Fixpoint source_chain (fuel : nat) (fresh : gmap N (RelationSet * ColumnCP)) (relations : RelationSet)
    (source : ColumnCP) : Result (RelationSet * ColumnCP) :=
  match fuel with
  | O => Throw OutOfFuel
  | S fuel =>
      match fresh !! source with
      | None => Ok (relations, source)
      | Some (eligibility, source) => source_chain fuel fresh (RelationSet.unionSet relations eligibility) source
      end
  end.

(** A chain that does not come back to a column is no longer than there are outputs. *)
Definition conjunctRelations (fresh : gmap N (RelationSet * ColumnCP)) (columnToLeaf : gmap N N)
    (predicate : ExprCP) : Result RelationSet :=
  fold_result (fun relations column =>
    '(relations, source) ← source_chain (S (size fresh)) fresh relations column;
    own ← expressionRelations columnToLeaf source;
    Ok (RelationSet.unionSet relations own))
    (BitSet.ids (columns (objectAt g predicate))) RelationSet.rsEmpty.

Definition addClusterConjuncts (predicates : list ExprCP) (columnToLeaf : gmap N N) (graph : JoinHypergraph) :
    Result JoinHypergraph :=
  let fresh := freshOutputs (JoinHypergraph.edges graph) in
  fold_result (fun graph predicate =>
    relations ← conjunctRelations fresh columnToLeaf predicate;
    JoinHypergraph.addFilterConjunct graph (mkFilterConjunct (Some predicate) relations)) predicates graph.

(** ** The whole *)

Definition addJoin (builder : EdgeBuilder) (graph : JoinHypergraph) (join : ClusterJoin) : Result JoinHypergraph :=
  inputs ← map_at (joinInputs builder) (cjoin_pointer join);
  if bool_decide (join_type (cjoin join) = kInner) then addInner builder join inputs graph
  else addOuter builder join inputs graph.

Definition build (cluster : JoinCluster) (rewrittenLeaves : list RewrittenLeaf) : Result JoinHypergraph :=
  velox_check (N.of_nat (length (cluster_leaves cluster)) <=? RelationSet.kMaxRelations)
    "Cluster has more leaves than RelationSet can represent" ≫= fun _ =>
  velox_check (length (cluster_leaves cluster) =? length rewrittenLeaves)%nat
    "rewrittenLeaves must align 1:1 with cluster.leaves" ≫= fun _ =>
  state ← addLeafRelations (cluster_leaves cluster) rewrittenLeaves (mkLeafState JoinHypergraph.new ∅ ∅);
  '(graph, columnToLeaf, unnestIds) ←
    addUnnestRelations (cluster_unnests cluster) (ls_graph state) (ls_columnToLeaf state);
  columnToLeaf ← addJoinOutputRelations (cluster_joins cluster) columnToLeaf;
  '(graph, unnestInputRelations) ← addUnnestEdges (cluster_unnests cluster) unnestIds columnToLeaf graph;
  '(_, walk) ← populateJoinInputs (ls_leafIds state) unnestIds (cluster_root cluster) (mkWalk ∅ ∅);
  let builder := mkEdgeBuilder columnToLeaf (ls_leafIds state) (walk_inputs walk) unnestInputRelations
                   (walk_unnestSubtrees walk) (freeUnnestColumns cluster) in
  graph ← fold_result (addJoin builder) (cluster_joins cluster) graph;
  graph ← addTransitiveInnerEdges columnToLeaf graph;
  addClusterConjuncts (filterPredicates cluster) columnToLeaf graph.
End Builder.
End HypergraphBuilder.
