(* ===== verification/HypergraphBuilderFacts.v ===== *)
(** * Building the hypergraph: correctness

    What [HypergraphBuilders.HypergraphBuilder.build] makes of a cluster.

    - The graph keeps the invariants of [HypergraphFacts], every predicate of the cluster is
      in it, once where it is the predicate of an outer join, and nothing else is.
    - The relations that must be covered before a join runs block a reordering around a
      descendant join unless the rows of both trees are the same ([AlgebraicProperties]) and
      the predicate does not read the operand that moves; and they block nothing else. *)

From S2P Require Import Prelude Word64 RelationSets BitSets EstimateMath QueryGraph Joins AlgebraicProperties Partitionings Nodes Closures Hypergraphs HypergraphBuilders HypergraphFacts.
From Stdlib Require Import Lia.
Set Warnings "-clear-no-such-hyp".
Open Scope N_scope.
Import HypergraphBuilder.

Abbreviation KeyPair := (ExprCP * ExprCP)%type.

(** ** Fallible code *)

Lemma bind_Ok {A B} (m : Result A) (k : A -> Result B) b :
  m ≫= k = Ok b <-> exists a, m = Ok a /\ k a = Ok b.
Proof.
  destruct m as [a|e]; cbn.
  - split; [by exists a | by intros (? & [= <-] & ?)].
  - split; [done | by intros (? & ? & ?)].
Qed.

(** Takes apart [H], which says that code returns. *)
Ltac returns H :=
  repeat first
    [ rewrite velox_check_bind in H; destruct H as [? H]
    | apply bind_Ok in H; destruct H as [? [? H]]
    | match type of H with (let '(_, _) := ?p in _) = Ok _ => destruct p end ];
  cbv beta zeta in H.

Lemma fold_result_invariant {A S} (I : S -> Prop) (body : S -> A -> Result S) l s s' :
  (forall x s s', x ∈ l -> I s -> body s x = Ok s' -> I s') ->
  I s -> fold_result body l s = Ok s' -> I s'.
Proof.
  revert s. induction l as [|x l IH]; intros s Hbody Hs H; cbn in H; [by injection H as <- |].
  apply bind_Ok in H as (s1 & H1 & H). apply (IH s1); [| by apply (Hbody x s); [left | ..] | done].
  intros y t t' Hy. apply Hbody. by right.
Qed.

(** What one iteration establishes and all others keep holds at the end. *)
Lemma fold_result_reaches {A S} (P : S -> Prop) (body : S -> A -> Result S) l x s s' :
  x ∈ l -> (forall s s', body s x = Ok s' -> P s') ->
  (forall y s s', y ∈ l -> P s -> body s y = Ok s' -> P s') ->
  fold_result body l s = Ok s' -> P s'.
Proof.
  intros Hx Hone Hkeep. revert s. induction l as [|y l IH]; intros s H; [by apply not_elem_of_nil in Hx |].
  cbn in H. apply bind_Ok in H as (s1 & H1 & H). apply elem_of_cons in Hx as [->|Hx].
  - eapply fold_result_invariant; [| by eapply Hone | exact H].
    intros z t t' Hz. apply Hkeep. by right.
  - eapply IH; [done | | exact H]. intros z t t' Hz. apply Hkeep. by right.
Qed.

(** ** TES *)

(** The joins [tesExpansion] visits below a node. *)
Inductive below (leafIds : gmap N N) : ClusterNode -> N -> Prop :=
  | below_unnest pointer columns input p :
      leafIds !! pointer = None -> columns <> [] -> below leafIds input p ->
      below leafIds (UnnestNode pointer columns input) p
  | below_filter pointer input p :
      leafIds !! pointer = None -> below leafIds input p -> below leafIds (FilterNode pointer input) p
  | below_here pointer join l r :
      leafIds !! pointer = None -> below leafIds (JoinTree pointer join l r) pointer
  | below_left pointer join l r p :
      leafIds !! pointer = None -> below leafIds l p -> below leafIds (JoinTree pointer join l r) p
  | below_right pointer join l r p :
      leafIds !! pointer = None -> below leafIds r p -> below leafIds (JoinTree pointer join l r) p.

Lemma below_not_leaf leafIds node p : below leafIds node p -> leafIds !! pointer_of node = None.
Proof. by destruct 1. Qed.

(** The expansion is what the joins below add. *)
Lemma tesExpansion_spec node parentType ses leftSide leafIds inputs result :
  tesExpansion node parentType ses leftSide leafIds inputs = Ok result ->
  (forall p, below leafIds node p -> exists child props, inputs !! p = Some child /\
     reshapes child parentType ses leftSide = Ok props /\
     forall i, i ∈ child_expansion child props leftSide -> i ∈ result) /\
  (forall i, i ∈ result -> exists p child props, below leafIds node p /\ inputs !! p = Some child /\
     reshapes child parentType ses leftSide = Ok props /\ i ∈ child_expansion child props leftSide).
Proof.
  revert result. induction node as [pointer join l IHl r IHr|pointer columns input IH|pointer input IH|pointer];
    intros result H; cbn [tesExpansion pointer_of] in H;
    destruct (leafIds !! pointer) as [id|] eqn:Eid.
  1, 3, 5, 7: injection H as <-; split;
    [ intros p Hp%below_not_leaf; cbn in Hp; congruence
    | intros i Hi; by apply RelationSet.elem_of_empty_rs in Hi ].
  - apply bind_Ok in H as (child & Hc & H). apply bind_Ok in H as (props & Hp & H).
    apply bind_Ok in H as (fromLeft & Hl & H). apply bind_Ok in H as (fromRight & Hr & [= <-]).
    unfold map_at in Hc. destruct (inputs !! pointer) as [child'|] eqn:Ein; [| done]. injection Hc as ->.
    apply IHl in Hl as [Hl1 Hl2]. apply IHr in Hr as [Hr1 Hr2]. split.
    + intros p Hb. inversion Hb; subst.
      * exists child, props. split; [done|]. split; [done|]. intros i. rewrite !RelationSet.elem_of_unionSet. auto.
      * destruct (Hl1 p) as (c & q & Hc & Hq & Hi); [done|]. exists c, q. split; [done|]. split; [done|].
        intros i. rewrite !RelationSet.elem_of_unionSet. auto.
      * destruct (Hr1 p) as (c & q & Hc & Hq & Hi); [done|]. exists c, q. split; [done|]. split; [done|].
        intros i. rewrite !RelationSet.elem_of_unionSet. auto.
    + intros i. rewrite !RelationSet.elem_of_unionSet. intros [[Hi|Hi]|Hi].
      * exists pointer, child, props. split; [by constructor | done].
      * destruct (Hl2 i Hi) as (p & c & q & Hb & Hrest). exists p, c, q. split; [by apply below_left | done].
      * destruct (Hr2 i Hi) as (p & c & q & Hb & Hrest). exists p, c, q. split; [by apply below_right | done].
  - case_bool_decide as Hcolumns.
    + injection H as <-. split; [intros p Hb; by inversion Hb |].
      intros i Hi. by apply RelationSet.elem_of_empty_rs in Hi.
    + apply IH in H as [H1 H2]. split.
      * intros p Hb. inversion Hb; subst. auto.
      * intros i Hi. destruct (H2 i Hi) as (p & c & q & Hb & Hrest). exists p, c, q. split; [by constructor | done].
  - apply IH in H as [H1 H2]. split.
    + intros p Hb. inversion Hb; subst. auto.
    + intros i Hi. destruct (H2 i Hi) as (p & c & q & Hb & Hrest). exists p, c, q. split; [by constructor | done].
  - done.
Qed.

(** An operand of a descendant join. *)
Definition operand (child : JoinInputs) (isLeft : bool) : RelationSet :=
  if isLeft then leftLeaves child else rightLeaves child.

(** The identity of rows that lets a join of the given type run without that operand of a
    join in its left, or right, input. *)
Definition runs_without (type : JoinType) (leftSide : bool) (child : JoinInputs) (isLeft : bool) : Prop :=
  match leftSide, isLeft with
  | true, true => associates (joinType child) type
  | true, false => left_asscommutes (joinType child) type
  | false, true => right_asscommutes type (joinType child)
  | false, false => associates type (joinType child)
  end.

(** The identities are of trees whose predicates do not read the operand; inner joins
    commute with their predicates. *)
Definition predicate_allows (type : JoinType) (ses : RelationSet) (child : JoinInputs) (isLeft : bool) : Prop :=
  (joinType child = kInner /\ type = kInner) \/ forall k, k ∈ ses -> k ∉ operand child isLeft.

Definition allowed (props : AlgebraicProperties.Properties) (leftSide isLeft : bool) : bool :=
  match leftSide, isLeft with
  | true, true | false, false => AlgebraicProperties.associative props
  | true, false => AlgebraicProperties.leftAsscom props
  | false, true => AlgebraicProperties.rightAsscom props
  end.

Lemma elem_of_child_expansion child props leftSide i :
  i ∈ child_expansion child props leftSide <->
  exists isLeft, i ∈ operand child isLeft /\ allowed props leftSide isLeft = false.
Proof.
  transitivity ((i ∈ operand child true /\ allowed props leftSide true = false) \/
                (i ∈ operand child false /\ allowed props leftSide false = false)).
  - unfold child_expansion, operand, allowed. destruct props as [[] [] []], leftSide; cbn;
      rewrite RelationSet.elem_of_unionSet, ?RelationSet.elem_of_empty_rs; naive_solver.
  - split; [intros [H|H]; eauto | intros ([] & H); auto].
Qed.

(** The table's answer for one operand. *)
Lemma derived_allowed type (leftSide : bool) child props isLeft :
  (if leftSide then AlgebraicProperties.derive (joinType child) type
   else AlgebraicProperties.derive type (joinType child)) = Ok props ->
  (allowed props leftSide isLeft = true -> runs_without type leftSide child isLeft) /\
  (exact_type (joinType child) = true -> exact_type type = true ->
   runs_without type leftSide child isLeft -> allowed props leftSide isLeft = true).
Proof.
  destruct leftSide; intros Hd; destruct (derive_sound _ _ _ Hd) as (? & ? & ?);
    (split; [by destruct isLeft | intros He1 He2]);
    [ destruct (derive_complete _ _ _ Hd He1 He2) as (? & ? & ?)
    | destruct (derive_complete _ _ _ Hd He2 He1) as (? & ? & ?) ]; by destruct isLeft.
Qed.

Lemma reshapes_spec child type ses leftSide props isLeft :
  reshapes child type ses leftSide = Ok props ->
  (allowed props leftSide isLeft = true ->
   runs_without type leftSide child isLeft /\ predicate_allows type ses child isLeft) /\
  (exact_type (joinType child) = true -> exact_type type = true ->
   runs_without type leftSide child isLeft -> predicate_allows type ses child isLeft ->
   allowed props leftSide isLeft = true).
Proof.
  unfold reshapes. intros H. apply bind_Ok in H as (table & Hd & H).
  destruct (derived_allowed type leftSide child table isLeft Hd) as [Hsound Hcomplete].
  assert (Hreads : RelationSet.hasIntersection ses (operand child isLeft) = false <->
                   forall k, k ∈ ses -> k ∉ operand child isLeft).
  { rewrite RelationSet.hasIntersection_false. naive_solver. }
  unfold predicate_allows.
  destruct (negb (bool_decide (joinType child = kInner)) || negb (bool_decide (type = kInner))) eqn:Eo.
  - assert (Hno : ~ (joinType child = kInner /\ type = kInner)).
    { intros [H1 H2]. by rewrite H1, H2 in Eo. }
    assert (Hallowed : allowed props leftSide isLeft =
              if RelationSet.hasIntersection ses (operand child isLeft) then false
              else allowed table leftSide isLeft).
    { destruct leftSide; injection H as <-; destruct isLeft; cbn; done. }
    rewrite Hallowed. destruct (RelationSet.hasIntersection ses (operand child isLeft)) eqn:Eh.
    + split; [done |]. intros _ _ _ [|Hall]; [done |]. apply Hreads in Hall. done.
    + split; [intros Ha; split; [auto | right; by apply Hreads] | auto].
  - injection H as <-. apply orb_false_iff in Eo as [E1 E2].
    apply negb_false_iff, bool_decide_eq_true in E1, E2. split; [auto | auto].
Qed.

(** C6: the eligibility of a join blocks a reordering exactly where it would be unsound.
    It covers what the predicate reads.  If it leaves out a relation of an operand of a join
    below, the rows are the same with that operand outside, and the predicate reads none of
    it - or both joins are inner, whose predicates commute with them, and it may read other
    relations of the operand.  Every further relation it demands belongs to an operand for
    which one of the two fails; this is stated for all types the table is exact for, which
    leaves out the counting semijoin, where it is conservative. *)
Theorem expandTes_exact ses l r type leafIds inputs tes :
  expandTes ses l r type leafIds inputs = Ok tes ->
  (forall i, i ∈ ses -> i ∈ tes) /\
  (forall leftSide p child isLeft i,
     below leafIds (if leftSide : bool then l else r) p -> inputs !! p = Some child ->
     i ∈ operand child isLeft -> i ∉ tes ->
     runs_without type leftSide child isLeft /\ predicate_allows type ses child isLeft) /\
  (forall i, i ∈ tes -> i ∉ ses ->
     exists leftSide p child isLeft,
       below leafIds (if leftSide : bool then l else r) p /\ inputs !! p = Some child /\
       i ∈ operand child isLeft /\
       (exact_type (joinType child) = true -> exact_type type = true ->
        ~ (runs_without type leftSide child isLeft /\ predicate_allows type ses child isLeft))).
Proof.
  unfold expandTes. intros H. apply bind_Ok in H as (fromLeft & Hl & H).
  apply bind_Ok in H as (fromRight & Hr & [= <-]).
  apply tesExpansion_spec in Hl as [Hl1 Hl2], Hr as [Hr1 Hr2].
  split_conj.
  - intros i. rewrite !RelationSet.elem_of_unionSet. auto.
  - intros leftSide p child isLeft i Hb Hc Hi Hn. rewrite !RelationSet.elem_of_unionSet in Hn.
    assert (Hp : exists props, reshapes child type ses leftSide = Ok props /\
              i ∉ child_expansion child props leftSide).
    { destruct leftSide; [destruct (Hl1 p Hb) as (c & props & Hc' & Hp & Hall)
        | destruct (Hr1 p Hb) as (c & props & Hc' & Hp & Hall)];
        assert (c = child) as -> by congruence; exists props; (split; [done |]); intros Hin; apply Hn; auto. }
    destruct Hp as (props & Hp & Hnot). destruct (reshapes_spec _ _ _ _ _ isLeft Hp) as [Hsound _].
    apply Hsound. destruct (allowed props leftSide isLeft) eqn:Ea; [done |].
    exfalso. apply Hnot, elem_of_child_expansion. eauto.
  - intros i Hi Hn. rewrite !RelationSet.elem_of_unionSet in Hi.
    assert (Hp : exists leftSide p child props, below leafIds (if leftSide : bool then l else r) p /\
              inputs !! p = Some child /\ reshapes child type ses leftSide = Ok props /\
              i ∈ child_expansion child props leftSide).
    { destruct Hi as [[Hi|Hi]|Hi]; [done | exists true; auto | exists false; auto]. }
    destruct Hp as (leftSide & p & child & props & Hb & Hc & Hp & Hin).
    apply elem_of_child_expansion in Hin as (isLeft & Hop & Ha).
    destruct (reshapes_spec _ _ _ _ _ isLeft Hp) as [_ Hcomplete].
    exists leftSide, p, child, isLeft. split_conj; [done | done | done |].
    intros He1 He2 [H1 H2]. specialize (Hcomplete He1 He2 H1 H2). congruence.
Qed.

(** ** Barriers *)

(** The unnest, which reads the given relations, must run before the join: the join is not
    below it, and it reads a side the join pads, or its rows decide the matches of a semijoin
    or antijoin, or it multiplies the rows a counting semijoin counts. *)
Definition runs_before (inputs : JoinInputs) (unnestId : N) (inputRelations subtree : RelationSet) : Prop :=
  ~ (forall i, i ∈ leftRelations inputs \/ i ∈ rightRelations inputs -> i ∈ subtree) /\
  match joinType inputs with
  | kLeft => exists i, i ∈ rightRelations inputs /\ i ∈ inputRelations
  | kFull => exists i, (i ∈ leftRelations inputs \/ i ∈ rightRelations inputs) /\ i ∈ inputRelations
  | kLeftSemiFilter | kLeftSemiProject | kAnti => unnestId ∈ rightRelations inputs
  | kCountingLeftSemiFilter => unnestId ∈ leftRelations inputs \/ unnestId ∈ rightRelations inputs
  | _ => False
  end.

Lemma contains_elem s id : id < 64 -> RelationSet.contains s id = bool_decide (id ∈ s).
Proof.
  intros Hid. apply eq_true_iff_eq. rewrite RelationSet.contains_spec by done. by rewrite bool_decide_eq_true.
Qed.

(** Whether the type of the join needs the unnest below it. *)
Lemma barrier_sides_spec inputs padded existence multiplicity id relations :
  barrier_sides inputs = Some (padded, existence, multiplicity) ->
  (negb (RelationSet.hasIntersection padded relations) &&
   negb (existence && bool_decide (id ∈ rightRelations inputs)) &&
   negb (multiplicity && (bool_decide (id ∈ leftRelations inputs) || bool_decide (id ∈ rightRelations inputs)))
   = false <->
   match joinType inputs with
   | kLeft => exists i, i ∈ rightRelations inputs /\ i ∈ relations
   | kFull => exists i, (i ∈ leftRelations inputs \/ i ∈ rightRelations inputs) /\ i ∈ relations
   | kLeftSemiFilter | kLeftSemiProject | kAnti => id ∈ rightRelations inputs
   | kCountingLeftSemiFilter => id ∈ leftRelations inputs \/ id ∈ rightRelations inputs
   | _ => False
   end).
Proof.
  assert (Hnone : RelationSet.hasIntersection RelationSet.rsEmpty relations = false).
  { apply RelationSet.hasIntersection_false. by intros k ?%RelationSet.elem_of_empty_rs. }
  intros Hb. unfold barrier_sides in Hb.
  destruct (joinType inputs); try discriminate Hb; injection Hb as <- <- <-; cbn [andb negb];
    rewrite ?Hnone, ?andb_true_r; cbn [andb negb]; rewrite negb_false_iff.
  - apply RelationSet.hasIntersection_spec.
  - rewrite RelationSet.hasIntersection_spec. by setoid_rewrite RelationSet.elem_of_unionSet.
  - apply bool_decide_eq_true.
  - by rewrite orb_true_iff, !bool_decide_eq_true.
  - apply bool_decide_eq_true.
  - apply bool_decide_eq_true.
Qed.

(** The eligibility gains exactly the unnests that must run first. *)
Theorem addUnnestBarriers_exact inputs unnestInputs subtrees tes tes'
    (Hids : forall id relations, unnestInputs !! id = Some relations -> id < 64) :
  addUnnestBarriers inputs unnestInputs subtrees tes = Ok tes' ->
  forall i, i ∈ tes' <-> i ∈ tes \/ exists relations subtree,
    unnestInputs !! i = Some relations /\ subtrees !! i = Some subtree /\ runs_before inputs i relations subtree.
Proof.
  unfold addUnnestBarriers.
  destruct (barrier_sides inputs) as [[[padded existence] multiplicity]|] eqn:Eb.
  2: { intros [= <-] i. unfold barrier_sides in Eb. split; [auto |]. intros [|(? & ? & _ & _ & _ & Hf)]; [done |].
       by destruct (joinType inputs). }
  intros H i. setoid_rewrite <- elem_of_map_to_list.
  assert (Hl : forall p, p ∈ map_to_list unnestInputs -> p.1 < 64).
  { intros [id r] Hin. apply elem_of_map_to_list in Hin. by eapply Hids. }
  revert tes H Hl. generalize (map_to_list unnestInputs).
  intros l. induction l as [|[id relations] l IH]; intros tes H Hl; cbn [fold_result] in H.
  { injection H as <-. split; [auto |]. intros [|(? & ? & Hin & _)]; [done | by apply not_elem_of_nil in Hin]. }
  apply bind_Ok in H as (mid & H1 & H). rewrite (IH _ H) by (intros p Hp; apply Hl; by right).
  apply bind_Ok in H1 as (subtree & Hs & H1). unfold map_at in Hs.
  destruct (subtrees !! id) as [subtree'|] eqn:Es; [| done]. injection Hs as ->.
  assert (Hid : id < 64) by (apply (Hl (id, relations)); by left).
  assert (Hone : i ∈ mid <-> i ∈ tes \/ (i = id /\ runs_before inputs id relations subtree)).
  { clear IH H Hl. cbv zeta in H1. rewrite !contains_elem in H1 by done.
    pose proof (barrier_sides_spec inputs _ _ _ id relations Eb) as Hsides. unfold runs_before.
    destruct (RelationSet.isSubset _ subtree) eqn:Esub.
    - injection H1 as <-. apply RelationSet.isSubset_spec in Esub. split; [auto |].
      intros [|(_ & Hn & _)]; [done |]. destruct Hn. intros k Hk. apply Esub.
      by apply RelationSet.elem_of_unionSet.
    - apply RelationSet.isSubset_false in Esub.
      assert (Hnot : ~ forall i, i ∈ leftRelations inputs \/ i ∈ rightRelations inputs -> i ∈ subtree).
      { intros Hall. apply Esub. intros k Hk%RelationSet.elem_of_unionSet. auto. }
      rewrite <- Hsides. destruct (_ && _ && _) eqn:Eguard.
      + injection H1 as <-. split; [auto |]. intros [Hi|(_ & _ & Hf)]; [exact Hi | discriminate Hf].
      + rewrite velox_check_bind in H1. destruct H1 as [_ [= <-]]. rewrite RelationSet.elem_of_add.
        change width with 64. tauto. }
  rewrite Hone. clear Hone H1 H IH Hl. split.
  - intros [[Hi|[-> Hr]]|(r & s & Hin & Hrest)]; [by left | right | right].
    + exists relations, subtree. split; [by left |]. split; [by apply elem_of_map_to_list | exact Hr].
    + exists r, s. split; [by right | done].
  - intros [Hi|(r & s & [[= -> ->]|Hin]%elem_of_cons & Hs & Hr)]; [auto | | right; by exists r, s].
    apply elem_of_map_to_list in Hs. left. right. split; [done |]. congruence.
Qed.

(** ** What an operation adds to the graph *)

Lemma JoinEdge_new_is le re lel rel lk rk f t na nv mark out src e :
  JoinEdge.new le re lel rel lk rk f t na nv mark out src = Ok e ->
  e = JoinEdge.mk le re lel rel lk rk f t na nv mark out src false.
Proof.
  unfold JoinEdge.new. rewrite !velox_check_bind.
  by intros (_ & _ & _ & _ & _ & _ & _ & _ & _ & _ & _ & _ & _ & [= <-]).
Qed.

Section Growth.
Context {VB : VeloxBits} (g : QueryGraph).
Abbreviation built := (built g).

(** The graph is built further by edges with [E] and conjuncts with [C]. *)
Record grown (E : JoinEdge -> Prop) (C : FilterConjunct -> Prop) (graph graph' : JoinHypergraph) : Prop := {
  grown_built : built graph -> built graph';
  grown_edges : exists es, JoinHypergraph.edges graph' = JoinHypergraph.edges graph ++ es /\ Forall E es;
  grown_conjuncts : exists cs,
    JoinHypergraph.filterConjuncts graph' = JoinHypergraph.filterConjuncts graph ++ cs /\ Forall C cs
}.

Lemma grown_refl E C graph : grown E C graph graph.
Proof. split; [done | exists [] | exists []]; by rewrite app_nil_r. Qed.

Lemma grown_trans E C a b c : grown E C a b -> grown E C b c -> grown E C a c.
Proof.
  intros [B1 (e1 & He1 & E1) (c1 & Hc1 & C1)] [B2 (e2 & He2 & E2) (c2 & Hc2 & C2)].
  split; [auto | exists (e1 ++ e2) | exists (c1 ++ c2)].
  - rewrite He2, He1, app_assoc. split; [done | by apply Forall_app].
  - rewrite Hc2, Hc1, app_assoc. split; [done | by apply Forall_app].
Qed.

Lemma grown_weaken (E E' : JoinEdge -> Prop) (C C' : FilterConjunct -> Prop) a b :
  grown E C a b -> (forall e, E e -> E' e) -> (forall c, C c -> C' c) -> grown E' C' a b.
Proof.
  intros [B (e & He & HE) (c & Hc & HC)] H1 H2. split; [done | exists e | exists c];
    (split; [done | eapply Forall_impl; eauto]).
Qed.

Lemma grown_elem_edges E C a b e :
  grown E C a b ->
  e ∈ JoinHypergraph.edges b -> e ∈ JoinHypergraph.edges a \/ E e.
Proof.
  intros [_ (es & He & HE) _]. rewrite He, elem_of_app. intros [|Hin]; [by left | right].
  rewrite Forall_forall in HE. auto.
Qed.

Lemma grown_elem_conjuncts E C a b c :
  grown E C a b ->
  c ∈ JoinHypergraph.filterConjuncts b -> c ∈ JoinHypergraph.filterConjuncts a \/ C c.
Proof.
  intros [_ _ (cs & Hc & HC)]. rewrite Hc, elem_of_app. intros [|Hin]; [by left | right].
  rewrite Forall_forall in HC. auto.
Qed.

Lemma grown_keeps_edge E C a b e :
  grown E C a b -> e ∈ JoinHypergraph.edges a -> e ∈ JoinHypergraph.edges b.
Proof. intros [_ (es & -> & _) _]. rewrite elem_of_app. auto. Qed.

Lemma grown_keeps_conjunct E C a b c :
  grown E C a b -> c ∈ JoinHypergraph.filterConjuncts a -> c ∈ JoinHypergraph.filterConjuncts b.
Proof. intros [_ _ (cs & -> & _)]. rewrite elem_of_app. auto. Qed.

Lemma grown_addEdge (E : JoinEdge -> Prop) C graph e graph' :
  edge_built e -> E e -> JoinHypergraph.addEdge graph e = Ok graph' ->
  grown E C graph graph' /\ e ∈ JoinHypergraph.edges graph'.
Proof.
  intros Hb He H. assert (Hbuilt : built graph -> built graph') by (intros; by eapply built_edge).
  unfold JoinHypergraph.addEdge in H. returns H. injection H as <-. split.
  - split; [done | exists [e] | exists []; cbn; by rewrite app_nil_r]. by rewrite Forall_singleton.
  - cbn. rewrite elem_of_app, list_elem_of_singleton. auto.
Qed.

Lemma grown_addFilterConjunct E (C : FilterConjunct -> Prop) graph c graph' :
  C c -> JoinHypergraph.addFilterConjunct graph c = Ok graph' ->
  grown E C graph graph' /\ c ∈ JoinHypergraph.filterConjuncts graph'.
Proof.
  intros Hc H. assert (Hbuilt : built graph -> built graph') by (intros; by eapply built_conjunct).
  unfold JoinHypergraph.addFilterConjunct in H. returns H. injection H as <-. split.
  - split; [done | exists []; cbn; by rewrite app_nil_r | exists [c]]. by rewrite Forall_singleton.
  - cbn. rewrite elem_of_app, list_elem_of_singleton. auto.
Qed.

Lemma grown_addRelation E C graph node card columns id graph' :
  JoinHypergraph.addRelation graph node card columns = Ok (id, graph') -> grown E C graph graph'.
Proof.
  intros H. assert (Hbuilt : built graph -> built graph') by (intros; by eapply built_relation).
  unfold JoinHypergraph.addRelation in H. returns H. injection H as _ <-.
  split; [done | |]; exists []; cbn; by rewrite app_nil_r.
Qed.

Lemma grown_addUnnestRelation E C graph node card columns id graph' :
  JoinHypergraph.addUnnestRelation graph node card columns = Ok (id, graph') -> grown E C graph graph'.
Proof.
  intros H. assert (Hbuilt : built graph -> built graph') by (intros; by eapply built_unnest_relation).
  unfold JoinHypergraph.addUnnestRelation in H. rewrite velox_check_bind in H. destruct H as [_ H].
  apply bind_Ok in H as ([i mid] & Hadd & H). injection H as _ <-.
  destruct (grown_addRelation E C _ _ _ _ _ _ Hadd) as [_ He Hc]. by split.
Qed.

Lemma grown_fold {A} E C (body : JoinHypergraph -> A -> Result JoinHypergraph) l graph graph' :
  (forall x a b, x ∈ l -> body a x = Ok b -> grown E C a b) ->
  fold_result body l graph = Ok graph' -> grown E C graph graph'.
Proof.
  intros Hbody. apply (fold_result_invariant (grown E C graph)); [| apply grown_refl].
  intros x a b Hx Ha H. eapply grown_trans; eauto.
Qed.

(** Every iteration leaves in the graph what it establishes. *)
Lemma fold_keeps {A} E C (P : A -> JoinHypergraph -> Prop) (body : JoinHypergraph -> A -> Result JoinHypergraph) l
    graph graph' :
  (forall x a b, x ∈ l -> body a x = Ok b -> grown E C a b /\ P x b) ->
  (forall x a b, P x a -> grown E C a b -> P x b) ->
  fold_result body l graph = Ok graph' -> grown E C graph graph' /\ forall x, x ∈ l -> P x graph'.
Proof.
  intros Hbody Hkeep H. split.
  - eapply grown_fold; [| exact H]. intros x a b Hx Hb. by apply Hbody in Hb as [? _].
  - intros x Hx. revert H Hx Hbody. revert graph. induction l as [|y l IH]; intros a H Hx Hbody;
      [by apply not_elem_of_nil in Hx |].
    cbn in H. apply bind_Ok in H as (b & H1 & H). apply elem_of_cons in Hx as [->|Hx].
    + destruct (Hbody y a b) as [_ HP]; [by left | done |]. eapply Hkeep; [exact HP |].
      eapply grown_fold; [| exact H]. intros z u v Hz Hv. apply (Hbody z); [by right | done].
    + apply (IH b); [done | done |]. intros z u v Hz. apply Hbody. by right.
Qed.

(** ** The predicates of a cluster *)

(** The left form of a join type. *)
Definition normalizedType (type : JoinType) : JoinType :=
  match type with
  | kRight => kLeft
  | kRightSemiFilter => kLeftSemiFilter
  | kRightSemiProject => kLeftSemiProject
  | _ => type
  end.

(** The key pairs of a join and of an edge. *)
Definition join_pairs (join : JoinNode) : list KeyPair := zip (join_leftKeys join) (join_rightKeys join).
Definition edge_pairs (e : JoinEdge) : list KeyPair := zip (JoinEdge.leftKeys e) (JoinEdge.rightKeys e).

(** The edge of a join that is not inner, in left form. *)
Record outer_edge_of (join : JoinNode) (e : JoinEdge) : Prop := {
  oe_type : JoinEdge.joinType e = normalizedType (join_type join);
  oe_left : JoinEdge.leftKeys e = if flipped (join_type join) then join_rightKeys join else join_leftKeys join;
  oe_right : JoinEdge.rightKeys e = if flipped (join_type join) then join_leftKeys join else join_rightKeys join;
  oe_filter : JoinEdge.filter e = join_filter join;
  oe_nullAware : JoinEdge.nullAware e = join_nullAware join;
  oe_nullAsValue : JoinEdge.nullAsValue e = join_nullAsValue join;
  oe_mark : JoinEdge.markColumn e =
    if bool_decide (normalizedType (join_type join) = kLeftSemiProject) then join_markColumn join else None;
  oe_unnest : JoinEdge.isUnnest e = false
}.

(** An inner edge without a filter whose key pairs are in [P]. *)
Record inner_edge (P : KeyPair -> Prop) (e : JoinEdge) : Prop := {
  ie_type : JoinEdge.joinType e = kInner;
  ie_filter : JoinEdge.filter e = [];
  ie_unnest : JoinEdge.isUnnest e = false;
  ie_pairs : Forall P (edge_pairs e)
}.

(** Two columns of one class. *)
Definition equated (pair : KeyPair) : Prop :=
  isColumn g pair.1 = true /\ isColumn g pair.2 = true /\
  exists equivalence, column_equivalence g pair.1 = Some equivalence /\ column_equivalence g pair.2 = Some equivalence.

(** The relations an unnest reads, and the edge from them to its own. *)
Definition unnest_relations (columnToLeaf : gmap N N) (unnest : ClusterUnnest) : RelationSet :=
  foldl (fun relations column =>
    match columnToLeaf !! column with Some id => RelationSet.add relations id | None => relations end)
    RelationSet.rsEmpty (unnest_inputColumns unnest).

Record unnest_edge_of (unnestIds columnToLeaf : gmap N N) (unnest : ClusterUnnest) (e : JoinEdge) : Prop := {
  ue_columns : unnest_inputColumns unnest <> [];
  ue_edge : exists id, unnestIds !! unnest_pointer unnest = Some id /\
    JoinEdge.unnest (unnest_relations columnToLeaf unnest) (RelationSet.singleton id) = Ok e
}.

(** Where an edge comes from: an unnest, an inner join, another join, or the classes. *)
Inductive edge_origin (unnestIds columnToLeaf : gmap N N) (unnests : list ClusterUnnest) (joins : list ClusterJoin)
    (e : JoinEdge) : Prop :=
  | from_unnest unnest : unnest ∈ unnests -> unnest_edge_of unnestIds columnToLeaf unnest e ->
      edge_origin unnestIds columnToLeaf unnests joins e
  | from_inner join : join ∈ joins -> join_type (cjoin join) = kInner ->
      inner_edge (fun pair => pair ∈ join_pairs (cjoin join)) e ->
      edge_origin unnestIds columnToLeaf unnests joins e
  | from_outer join : join ∈ joins -> join_type (cjoin join) <> kInner -> outer_edge_of (cjoin join) e ->
      edge_origin unnestIds columnToLeaf unnests joins e
  | from_classes : inner_edge equated e -> edge_origin unnestIds columnToLeaf unnests joins e.

Definition conjunct_of (predicates : list ExprCP) (c : FilterConjunct) : Prop :=
  exists p, p ∈ predicates /\ expr c = Some p.

(** The predicates of a join are in the graph. *)
Definition join_represented (graph : JoinHypergraph) (join : JoinNode) : Prop :=
  if bool_decide (join_type join = kInner) then
    (forall pair, pair ∈ join_pairs join -> exists e, e ∈ JoinHypergraph.edges graph /\
       JoinEdge.joinType e = kInner /\ pair ∈ edge_pairs e) /\
    (forall p, p ∈ join_filter join -> exists c, c ∈ JoinHypergraph.filterConjuncts graph /\ expr c = Some p)
  else exists e, e ∈ JoinHypergraph.edges graph /\ outer_edge_of join e.

Lemma join_represented_grown E C a b join :
  join_represented a join -> grown E C a b -> join_represented b join.
Proof.
  unfold join_represented. intros H Hg. case_bool_decide.
  - destruct H as [H1 H2]. split.
    + intros pair Hp. destruct (H1 pair Hp) as (e & He & Hrest). exists e. eauto using grown_keeps_edge.
    + intros p Hp. destruct (H2 p Hp) as (c & Hc & Hrest). exists c. eauto using grown_keeps_conjunct.
  - destruct H as (e & He & Hrest). exists e. eauto using grown_keeps_edge.
Qed.

(** *** Keys by endpoint *)

(** Grouping keeps the pairs. *)
Lemma push_key_perm endpoint pair groups :
  concat (push_key endpoint pair groups).*2 ≡ₚ pair :: concat groups.*2.
Proof.
  induction groups as [|[e pairs] groups IH]; cbn; [done |].
  case_bool_decide; [| destruct (endpoint_ltb endpoint e)]; cbn; [| done |].
  - rewrite <- (assoc_L app). cbn. by rewrite <- Permutation_middle.
  - rewrite IH. by rewrite <- Permutation_middle.
Qed.

Lemma keysByEndpoint_perm columnToLeaf pairs groups :
  keysByEndpoint g columnToLeaf pairs = Ok groups -> concat groups.*2 ≡ₚ pairs.
Proof.
  unfold keysByEndpoint. intros H.
  enough (Hall : forall l acc, fold_result (fun groups pair =>
              leftKeyRelations ← expressionRelations g columnToLeaf pair.1;
              rightKeyRelations ← expressionRelations g columnToLeaf pair.2;
              Ok (push_key (RelationSet.bits leftKeyRelations, RelationSet.bits rightKeyRelations) pair groups))
              l acc = Ok groups -> concat groups.*2 ≡ₚ l ++ concat acc.*2)
    by (apply Hall in H; by rewrite app_nil_r in H).
  intros l. induction l as [|pair l IH]; intros acc Hf; cbn in Hf; [by injection Hf as -> |].
  apply bind_Ok in Hf as (acc' & H1 & Hf). apply bind_Ok in H1 as (lr & _ & H1).
  apply bind_Ok in H1 as (rr & _ & [= <-]). rewrite (IH _ Hf), push_key_perm. cbn.
  by rewrite Permutation_middle.
Qed.

Lemma zip_fst_snd {A B} (l : list (A * B)) : zip (map fst l) (map snd l) = l.
Proof. induction l as [|[a b] l IH]; cbn; [done | by rewrite IH]. Qed.

(** *** Inner joins *)

Lemma addInnerEdge_grown builder join inputs graph pairs graph' C :
  join_type (cjoin join) = kInner ->
  addInnerEdge g builder join inputs graph pairs = Ok graph' ->
  grown (inner_edge (fun pair => pair ∈ pairs)) C graph graph' /\
  exists e, e ∈ JoinHypergraph.edges graph' /\ JoinEdge.joinType e = kInner /\ edge_pairs e = pairs.
Proof.
  intros Hinner. unfold addInnerEdge. cbv zeta. rewrite Hinner. intros H.
  apply bind_Ok in H as (leftSet & _ & H). apply bind_Ok in H as (rightSet & _ & H).
  apply bind_Ok in H as (tes & _ & H). apply bind_Ok in H as ([leftTes rightTes] & _ & H).
  apply bind_Ok in H as (e & Hnew & H).
  pose proof (JoinEdge_new_is _ _ _ _ _ _ _ _ _ _ _ _ _ _ Hnew) as He.
  destruct (grown_addEdge (inner_edge (fun pair => pair ∈ pairs)) C graph e graph') as [Hg Hin];
    [by eapply built_join | | done |].
  - subst e. split; [done | done | done |]. unfold edge_pairs. cbn. rewrite zip_fst_snd.
    by apply Forall_forall.
  - split; [done |]. exists e. subst e. split; [done |]. split; [done |].
    unfold edge_pairs. cbn. by rewrite zip_fst_snd.
Qed.

Lemma addInner_grown builder join inputs graph graph' :
  join_type (cjoin join) = kInner ->
  addInner g builder join inputs graph = Ok graph' ->
  grown (inner_edge (fun pair => pair ∈ join_pairs (cjoin join))) (conjunct_of (join_filter (cjoin join)))
    graph graph' /\ join_represented graph' (cjoin join).
Proof.
  intros Hinner H. unfold addInner in H. apply bind_Ok in H as (groups & Hgroups & H).
  apply bind_Ok in H as (mid & Hedges & Hconjuncts).
  apply keysByEndpoint_perm in Hgroups.
  set (E := inner_edge (fun pair => pair ∈ join_pairs (cjoin join))).
  set (C := conjunct_of (join_filter (cjoin join))).
  edestruct (fold_keeps E C (fun pairs graph => exists e, e ∈ JoinHypergraph.edges graph /\
               JoinEdge.joinType e = kInner /\ edge_pairs e = pairs)) as [Hg1 Hpairs]; [| | exact Hedges |].
  { intros pairs a b Hin Hb. destruct (addInnerEdge_grown _ _ _ _ _ _ C Hinner Hb) as [Hg He].
    split; [| done]. eapply grown_weaken; [exact Hg | | done].
    intros e [Ht Hf Hu Hp]. split; [done | done | done |]. eapply Forall_impl; [exact Hp |].
    cbn. intros pair Hpair. unfold join_pairs. rewrite <- Hgroups.
    apply list_elem_of_In, in_concat. exists pairs. by rewrite <- !list_elem_of_In. }
  { intros pairs a b (e & He & Hrest) Hg. exists e. eauto using grown_keeps_edge. }
  edestruct (fold_keeps E C (fun p graph => exists c, c ∈ JoinHypergraph.filterConjuncts graph /\
               expr c = Some p)) as [Hg2 Hps]; [| | exact Hconjuncts |].
  { intros p a b Hin Hb. apply bind_Ok in Hb as (relations & _ & Hb).
    destruct (grown_addFilterConjunct E C a (mkFilterConjunct (Some p) relations) b) as [Hg Hc];
      [by exists p | done |]. split; [done | by eexists]. }
  { intros p a b (c & Hc & Hrest) Hg. exists c. eauto using grown_keeps_conjunct. }
  split; [by eapply grown_trans |]. unfold join_represented. rewrite bool_decide_eq_true_2 by done.
  split; [| done]. intros pair Hpair. unfold join_pairs in Hpair. rewrite <- Hgroups in Hpair.
  apply list_elem_of_In, in_concat in Hpair as (pairs & Hps' & Hpair). rewrite <- !list_elem_of_In in *.
  destruct (Hpairs pairs Hps') as (e & He & Ht & Hep). exists e.
  split; [by eapply grown_keeps_edge |]. split; [done | by rewrite Hep].
Qed.

(** *** Other joins *)

Lemma addOuter_grown builder join inputs graph graph' C :
  joinType inputs = normalizedType (join_type (cjoin join)) ->
  addOuter g builder join inputs graph = Ok graph' ->
  grown (outer_edge_of (cjoin join)) C graph graph' /\
  exists e, e ∈ JoinHypergraph.edges graph' /\ outer_edge_of (cjoin join) e.
Proof.
  intros Htype H. unfold addOuter in H. cbv zeta in H. rewrite velox_check_bind in H. destruct H as [_ H].
  apply bind_Ok in H as (leftSet & _ & H). apply bind_Ok in H as (rightSet & _ & H).
  apply bind_Ok in H as (ses & _ & H). apply bind_Ok in H as (tes & _ & H).
  apply bind_Ok in H as (tes' & _ & H). apply bind_Ok in H as ([leftTes rightTes] & _ & H).
  apply bind_Ok in H as (e & Hnew & H).
  pose proof (JoinEdge_new_is _ _ _ _ _ _ _ _ _ _ _ _ _ _ Hnew) as He.
  assert (Hof : outer_edge_of (cjoin join) e) by (subst e; split; cbn; rewrite ?Htype; done).
  destruct (grown_addEdge (outer_edge_of (cjoin join)) C graph e graph') as [Hg Hin];
    [by eapply built_join | done | done |]. eauto.
Qed.

(** *** Implied edges *)

(** Every column of a class is of the class. *)
Definition class_sound (entry : ClassEntry) : Prop :=
  Forall (fun rep => isColumn g rep.2 = true /\ column_equivalence g rep.2 = Some (class_equivalence entry))
    (class_reps entry).

Lemma emplace_rep_Forall (P : N * ColumnCP -> Prop) relation column reps :
  P (relation, column) -> Forall P reps -> Forall P (emplace_rep relation column reps).
Proof.
  intros Hp. induction 1 as [|[r c] reps Hr Hreps IH]; cbn; [by repeat constructor |].
  destruct (relation =? r); [by constructor |]. destruct (relation <? r); by repeat constructor.
Qed.

Lemma update_class_Forall (P : ClassEntry -> Prop) equivalence update classes :
  (forall entry, class_equivalence entry = equivalence -> P entry -> P (update entry)) ->
  P (mkClassEntry equivalence [] []) -> Forall P classes -> Forall P (update_class equivalence update classes).
Proof.
  intros Hu H0. induction 1 as [|entry classes He Hc IH]; cbn; [constructor; [by apply Hu | done] |].
  destruct (N.eqb_spec (class_equivalence entry) equivalence); constructor; auto.
Qed.

Lemma note_pair_sound debug columnToLeaf classes pair classes' :
  Forall class_sound classes -> note_pair g debug columnToLeaf classes pair = Ok classes' ->
  Forall class_sound classes'.
Proof.
  intros Hs. unfold note_pair. destruct pair as [l r].
  destruct (negb (isColumn g l) || negb (isColumn g r)) eqn:Ecol; [by intros [= <-] |].
  apply orb_false_iff in Ecol as [El%negb_false_iff Er%negb_false_iff].
  destruct (column_equivalence g l) as [equivalence|] eqn:Eq; [| done].
  rewrite velox_check_bind. intros [Hr%bool_decide_eq_true H].
  destruct (columnToLeaf !! l) as [lr|]; [| by injection H as <-].
  destruct (columnToLeaf !! r) as [rr|]; [| by injection H as <-].
  rewrite velox_check_bind in H. destruct H as [_ [= <-]].
  apply update_class_Forall; [| by constructor | done]. intros entry He Hent. unfold class_sound. cbn.
  apply emplace_rep_Forall; [by rewrite He |]. apply emplace_rep_Forall; [by rewrite He | done].
Qed.

(** A derived edge with keys of one class each. *)
Definition spec_sound (spec : DerivedEdgeSpec) : Prop :=
  Forall equated (zip (derived_leftKeys spec) (derived_rightKeys spec)) /\
  length (derived_leftKeys spec) = length (derived_rightKeys spec).

Lemma derive_pair_sound relationPair l r specs :
  equated (l, r) -> Forall spec_sound specs -> Forall spec_sound (derive_pair relationPair l r specs).
Proof.
  intros Hc. induction 1 as [|spec specs [Hs Hl] Hspecs IH]; cbn.
  - apply Forall_singleton. split; [by apply Forall_singleton | done].
  - case_bool_decide; constructor; try done. split; cbn.
    + rewrite zip_with_app by done. apply Forall_app. split; [done | by apply Forall_singleton].
    + by rewrite !length_app, Hl.
Qed.

Lemma ordered_pairs_Forall {A} (P : A -> Prop) (l : list A) :
  Forall P l -> Forall (fun p => P p.1 /\ P p.2) (ordered_pairs l).
Proof.
  induction 1 as [|x l Hx Hl IH]; cbn; [done |]. apply Forall_app. split; [| done].
  apply Forall_forall. intros p (y & -> & Hy)%list_elem_of_fmap. cbn.
  split; [done | by rewrite Forall_forall in Hl; apply Hl].
Qed.

Lemma derive_class_sound specs entry :
  class_sound entry -> Forall spec_sound specs -> Forall spec_sound (derive_class specs entry).
Proof.
  intros He. unfold derive_class. apply ordered_pairs_Forall in He. revert specs.
  induction He as [|[[lr l] [rr r]] ps [[Hl1 Hl2] [Hr1 Hr2]] Hps IH]; intros specs Hs; cbn; [done |].
  apply IH. case_bool_decide; [done |]. apply derive_pair_sound; [| done].
  cbn in *. split; [done |]. split; [done |]. by exists (class_equivalence entry).
Qed.

Lemma classes_sound debug columnToLeaf (edges : list JoinEdge) classes classes' :
  Forall class_sound classes ->
  fold_result (note_edge g debug columnToLeaf) edges classes = Ok classes' -> Forall class_sound classes'.
Proof.
  apply (fold_result_invariant (Forall class_sound)). intros e cs cs' _ Hcs H. unfold note_edge in H.
  destruct (negb _); [by injection H as <- |].
  eapply (fold_result_invariant (Forall class_sound)); [| exact Hcs | exact H].
  intros pair a b _ Ha Hb. by eapply note_pair_sound.
Qed.

Lemma addTransitiveInnerEdges_grown debug columnToLeaf graph graph' C :
  addTransitiveInnerEdges g debug columnToLeaf graph = Ok graph' ->
  grown (inner_edge equated) C graph graph'.
Proof.
  intros H. unfold addTransitiveInnerEdges in H. apply bind_Ok in H as (classes & Hclasses & H).
  apply classes_sound in Hclasses; [| done].
  assert (Hspecs : Forall spec_sound (foldl derive_class [] classes)).
  { clear H. assert (Hacc : Forall spec_sound []) by done. revert Hacc. generalize (@nil DerivedEdgeSpec).
    induction Hclasses as [|entry classes He Hc IH]; intros specs Hs; cbn; [done |].
    by apply IH, derive_class_sound. }
  rewrite Forall_forall in Hspecs. eapply grown_fold; [| exact H]. intros spec a b Hin Hb.
  destruct (Hspecs spec Hin) as [Hc Hl]. unfold addDerivedEdge in Hb. cbv zeta in Hb.
  apply bind_Ok in Hb as (e & Hnew & Hb).
  pose proof (JoinEdge_new_is _ _ _ _ _ _ _ _ _ _ _ _ _ _ Hnew) as He.
  eapply grown_addEdge; [by eapply built_join | | exact Hb]. by subst e.
Qed.

(** *** The rest of the construction *)

Lemma addClusterConjuncts_grown predicates columnToLeaf graph graph' E :
  addClusterConjuncts g predicates columnToLeaf graph = Ok graph' ->
  grown E (conjunct_of predicates) graph graph' /\
  forall p, p ∈ predicates -> exists c, c ∈ JoinHypergraph.filterConjuncts graph' /\ expr c = Some p.
Proof.
  unfold addClusterConjuncts. cbv zeta. intros H.
  edestruct (fold_keeps E (conjunct_of predicates) (fun p graph => exists c,
    c ∈ JoinHypergraph.filterConjuncts graph /\ expr c = Some p)) as [Hg Hps]; [| | exact H | done].
  - intros p a b Hin Hb. apply bind_Ok in Hb as (relations & _ & Hb).
    destruct (grown_addFilterConjunct E (conjunct_of predicates) a (mkFilterConjunct (Some p) relations) b)
      as [Hg Hc]; [by exists p | done |]. split; [done | by eexists].
  - intros p a b (c & Hc & Hrest) Hg. exists c. eauto using grown_keeps_conjunct.
Qed.

Lemma addUnnestEdge_grown unnestIds columnToLeaf state unnest state' C :
  addUnnestEdge unnestIds columnToLeaf state unnest = Ok state' ->
  grown (unnest_edge_of unnestIds columnToLeaf unnest) C state.1 state'.1 /\
  (unnest_inputColumns unnest <> [] ->
   exists e, e ∈ JoinHypergraph.edges state'.1 /\ unnest_edge_of unnestIds columnToLeaf unnest e).
Proof.
  destruct state as [a ma], state' as [b mb]. unfold addUnnestEdge. intros Hb.
  apply bind_Ok in Hb as (id & Hid & Hb). cbv zeta in Hb.
  case_bool_decide as Hnone; [injection Hb as <- _; split; [apply grown_refl | done] |].
  rewrite velox_check_bind in Hb. destruct Hb as [_ Hb].
  apply bind_Ok in Hb as (e & He & Hb). apply bind_Ok in Hb as (mid & Hadd & [= <- _]).
  assert (Hof : unnest_edge_of unnestIds columnToLeaf unnest e).
  { split; [done |]. exists id. split; [| exact He]. unfold map_at in Hid.
    destruct (unnestIds !! unnest_pointer unnest); [| done]. by injection Hid as ->. }
  cbn [fst]. destruct (grown_addEdge (unnest_edge_of unnestIds columnToLeaf unnest) C a e mid) as [Hg Hin];
    [by eapply built_unnest | done | exact Hadd |]. eauto.
Qed.

Lemma addUnnestEdges_grown unnests unnestIds columnToLeaf graph graph' m C :
  addUnnestEdges unnests unnestIds columnToLeaf graph = Ok (graph', m) ->
  grown (fun e => exists unnest, unnest ∈ unnests /\ unnest_edge_of unnestIds columnToLeaf unnest e) C graph graph' /\
  forall unnest, unnest ∈ unnests -> unnest_inputColumns unnest <> [] ->
    exists e, e ∈ JoinHypergraph.edges graph' /\ unnest_edge_of unnestIds columnToLeaf unnest e.
Proof.
  unfold addUnnestEdges. generalize (∅ : gmap N RelationSet) as m0. revert graph.
  induction unnests as [|unnest unnests IH]; intros graph m0 H; cbn [fold_result] in H.
  { injection H as <- _. split; [apply grown_refl | by intros u Hu%not_elem_of_nil]. }
  apply bind_Ok in H as ([b mb] & Hone & H). apply (addUnnestEdge_grown _ _ _ _ _ C) in Hone as [Hg Hin].
  apply IH in H as [Hrest Hall]. cbn [fst] in *. split.
  - eapply grown_trans; (eapply grown_weaken; [eassumption | | done]).
    + intros e He. exists unnest. split; [by left | done].
    + intros e (u & Hu & He). exists u. split; [by right | done].
  - intros u [->|Hu]%elem_of_cons Hcols; [| by apply Hall].
    destruct (Hin Hcols) as (e & He & Hof). exists e. split; [by eapply grown_keeps_edge | done].
Qed.

Lemma addLeafRelations_grown estimate leaves rewritten state state' E C :
  addLeafRelations estimate leaves rewritten state = Ok state' ->
  grown E C (ls_graph state) (ls_graph state').
Proof.
  intros H. eapply (fold_result_invariant (fun s => grown E C (ls_graph state) (ls_graph s)));
    [| apply grown_refl | exact H].
  intros [original leaf] a b _ Ha Hb. unfold addLeafRelation in Hb. cbv zeta in Hb.
  apply bind_Ok in Hb as ([id mid] & Hadd & Hb). rewrite velox_check_bind in Hb. destruct Hb as [_ Hb].
  apply bind_Ok in Hb as (ids & _ & [= <-]). cbn.
  eapply grown_trans; [exact Ha | by eapply grown_addRelation].
Qed.

Lemma addUnnestRelations_grown estimate unnests graph columnToLeaf graph' m ids E C :
  addUnnestRelations estimate unnests graph columnToLeaf = Ok (graph', m, ids) -> grown E C graph graph'.
Proof.
  intros H.
  refine (fold_result_invariant (fun s => grown E C graph s.1.1) _ _ (graph, columnToLeaf, ∅)
            (graph', m, ids) _ (grown_refl _ _ _) H).
  intros unnest [[a ma] ia] [[b mb] ib] _ Ha Hb. unfold addUnnestRelation in Hb. cbv zeta in Hb.
  apply bind_Ok in Hb as ([id mid] & Hadd & [= <- _ _]). cbn in *.
  eapply grown_trans; [exact Ha | by eapply grown_addUnnestRelation].
Qed.

(** The nodes of the tree of the cluster. *)
Inductive subnode : ClusterNode -> ClusterNode -> Prop :=
  | subnode_self node : subnode node node
  | subnode_unnest pointer columns input node :
      subnode input node -> subnode (UnnestNode pointer columns input) node
  | subnode_filter pointer input node : subnode input node -> subnode (FilterNode pointer input) node
  | subnode_left pointer join l r node : subnode l node -> subnode (JoinTree pointer join l r) node
  | subnode_right pointer join l r node : subnode r node -> subnode (JoinTree pointer join l r) node.

(** [cluster.joins] lists joins of the tree: a pointer names one node. *)
Definition coherent (root : ClusterNode) (joins : list ClusterJoin) : Prop :=
  forall join, join ∈ joins -> forall node l r,
  subnode root (JoinTree (cjoin_pointer join) node l r) -> node = cjoin join.

(** Each entry of [inputs] is of a join of the tree, in left form. *)
Definition typed_inputs (root : ClusterNode) (inputs : gmap N JoinInputs) : Prop :=
  forall p entry, inputs !! p = Some entry -> exists node l r,
    subnode root (JoinTree p node l r) /\ joinType entry = normalizedType (join_type node).

Lemma typed_inputs_up root root' inputs :
  (forall node, subnode root' node -> subnode root node) -> typed_inputs root' inputs -> typed_inputs root inputs.
Proof. intros Hsub H p entry He. destruct (H p entry He) as (node & l & r & Hn & Ht). eauto 10. Qed.

Lemma populateJoinInputs_typed root leafIds unnestIds node walk subtree walk' :
  (forall n, subnode node n -> subnode root n) ->
  typed_inputs root (walk_inputs walk) ->
  populateJoinInputs leafIds unnestIds node walk = Ok (subtree, walk') ->
  typed_inputs root (walk_inputs walk').
Proof.
  revert walk subtree walk'.
  induction node as [pointer join l IHl r IHr|pointer columns input IH|pointer input IH|pointer];
    intros walk subtree walk' Hsub Hw H; cbn [populateJoinInputs pointer_of] in H;
    (destruct (leafIds !! pointer) as [id|]; [by injection H as _ <- |]).
  - apply bind_Ok in H as ([sl wl] & Hl & H). apply bind_Ok in H as ([sr wr] & Hr & [= _ <-]). cbn.
    apply IHl in Hl; [| intros n Hn; by apply Hsub, subnode_left | done].
    apply IHr in Hr; [| intros n Hn; by apply Hsub, subnode_right | done].
    intros p entry [[<- <-]|[_ He]]%lookup_insert_Some; [| by apply Hr].
    exists join, l, r. split; [by apply Hsub, subnode_self | by destruct (join_type join)].
  - assert (Hsub' : forall n, subnode input n -> subnode root n) by (intros n Hn; by apply Hsub, subnode_unnest).
    destruct (unnestIds !! pointer) as [unnestId|]; case_bool_decide.
    + by injection H as _ <-.
    + apply bind_Ok in H as ([s w] & Hi & [= _ <-]). by apply IH in Hi.
    + by injection H as _ <-.
    + by apply IH in H.
  - apply IH in H; [done | | done]. intros n Hn. by apply Hsub, subnode_filter.
  - done.
Qed.

(** An entry of [inputs] is read for the join it is of. *)
Lemma inputs_of_join cluster inputs join entry :
  coherent (cluster_root cluster) (cluster_joins cluster) ->
  typed_inputs (cluster_root cluster) inputs -> join ∈ cluster_joins cluster ->
  map_at inputs (cjoin_pointer join) = Ok entry ->
  joinType entry = normalizedType (join_type (cjoin join)).
Proof.
  intros Hcoherent Htyped Hin. unfold map_at.
  destruct (inputs !! cjoin_pointer join) as [entry'|] eqn:E; [| done]. intros [= ->].
  destruct (Htyped _ _ E) as (node & l & r & Hsub & ->). by rewrite (Hcoherent join Hin node l r Hsub).
Qed.

(** The edges and conjuncts a cluster's join adds are its own. *)
Lemma addJoin_grown unnestIds columnToLeaf cluster builder join graph graph' :
  coherent (cluster_root cluster) (cluster_joins cluster) ->
  typed_inputs (cluster_root cluster) (joinInputs builder) -> join ∈ cluster_joins cluster ->
  addJoin g builder graph join = Ok graph' ->
  grown (edge_origin unnestIds columnToLeaf (cluster_unnests cluster) (cluster_joins cluster))
    (fun c => exists p, expr c = Some p /\
      (p ∈ filterPredicates cluster \/ exists join, join ∈ cluster_joins cluster /\
         join_type (cjoin join) = kInner /\ p ∈ join_filter (cjoin join))) graph graph' /\
  join_represented graph' (cjoin join).
Proof.
  intros Hcoherent Htyped Hin H. unfold addJoin in H. apply bind_Ok in H as (entry & Hentry & H).
  eapply inputs_of_join in Hentry; [| done ..]. case_bool_decide as Hinner.
  - apply addInner_grown in H as [Hg Hr]; [| done]. split; [| done].
    eapply grown_weaken; [exact Hg | intros e He; by eapply from_inner |].
    intros c (p & Hp & Hc). exists p. split; [done |]. right. by exists join.
  - eapply addOuter_grown in H as [Hg (e & He & Hof)]; [| done]. split.
    + eapply grown_weaken; [exact Hg | intros e' He'; by eapply from_outer | intros c Hc; exact Hc].
    + unfold join_represented. rewrite bool_decide_eq_false_2 by done. by exists e.
Qed.

(** The relation of each unnest, and of each column: of the leaves, the unnests and the joins'
    outputs. *)
Definition relation_maps estimate (cluster : JoinCluster) (rewrittenLeaves : list RewrittenLeaf)
    (unnestIds columnToLeaf : gmap N N) : Prop :=
  exists state graph ownColumns,
    addLeafRelations estimate (cluster_leaves cluster) rewrittenLeaves (mkLeafState JoinHypergraph.new ∅ ∅) = Ok state /\
    addUnnestRelations estimate (cluster_unnests cluster) (ls_graph state) (ls_columnToLeaf state) =
      Ok (graph, ownColumns, unnestIds) /\
    addJoinOutputRelations (cluster_joins cluster) ownColumns = Ok columnToLeaf.

(** C4: the hypergraph says exactly what the cluster says.  It is built by the graph's own
    operations, so it keeps their invariants.  Each key pair of an inner join is on an inner
    edge, its filter and the predicates of the cluster are filter conjuncts; each other join
    is an edge in left form, with its filter, its flags and its mark; and each unnest that
    reads columns is an edge to its relation from those of the columns.  Conversely each edge
    is of such an unnest, of the keys of an inner join, of another join, or equates columns of
    one class; each conjunct is a predicate of the cluster or of an inner join. *)
Theorem build_keeps_every_predicate estimate debug cluster rewrittenLeaves graph :
  coherent (cluster_root cluster) (cluster_joins cluster) ->
  build g estimate debug cluster rewrittenLeaves = Ok graph ->
  graph_ok graph /\
  (forall join, join ∈ cluster_joins cluster -> join_represented graph (cjoin join)) /\
  (forall p, p ∈ filterPredicates cluster ->
     exists c, c ∈ JoinHypergraph.filterConjuncts graph /\ expr c = Some p) /\
  (exists unnestIds columnToLeaf, relation_maps estimate cluster rewrittenLeaves unnestIds columnToLeaf /\
     (forall unnest, unnest ∈ cluster_unnests cluster -> unnest_inputColumns unnest <> [] ->
        exists e, e ∈ JoinHypergraph.edges graph /\ unnest_edge_of unnestIds columnToLeaf unnest e) /\
     (forall e, e ∈ JoinHypergraph.edges graph ->
        edge_origin unnestIds columnToLeaf (cluster_unnests cluster) (cluster_joins cluster) e)) /\
  (forall c, c ∈ JoinHypergraph.filterConjuncts graph -> exists p, expr c = Some p /\
     (p ∈ filterPredicates cluster \/ exists join, join ∈ cluster_joins cluster /\
        join_type (cjoin join) = kInner /\ p ∈ join_filter (cjoin join))).
Proof.
  intros Hcoherent H. unfold build in H. rewrite !velox_check_bind in H. destruct H as (_ & _ & H).
  apply bind_Ok in H as (leaves & Hleaves & H).
  apply bind_Ok in H as ([[g1 c1] unnestIds] & Hunnests & H).
  apply bind_Ok in H as (columnToLeaf & Hcolumns & H).
  assert (Hmaps : relation_maps estimate cluster rewrittenLeaves unnestIds columnToLeaf) by (by exists leaves, g1, c1).
  apply bind_Ok in H as ([g2 unnestInputs] & Hedges & H).
  apply bind_Ok in H as ([subtree walk] & Hwalk & H). cbv zeta in H.
  apply bind_Ok in H as (g3 & Hjoins & H). apply bind_Ok in H as (g4 & Htransitive & Hconjuncts).
  set (E := edge_origin unnestIds columnToLeaf (cluster_unnests cluster) (cluster_joins cluster)).
  set (C := fun c : FilterConjunct => exists p, expr c = Some p /\
     (p ∈ filterPredicates cluster \/ exists join, join ∈ cluster_joins cluster /\
        join_type (cjoin join) = kInner /\ p ∈ join_filter (cjoin join))).
  apply (addLeafRelations_grown _ _ _ _ _ E C) in Hleaves. cbn [ls_graph] in Hleaves.
  apply (addUnnestRelations_grown _ _ _ _ _ _ _ E C) in Hunnests.
  apply (addUnnestEdges_grown _ _ _ _ _ _ C) in Hedges as [Hedges Hunnest].
  assert (Htyped : typed_inputs (cluster_root cluster) (walk_inputs walk)).
  { eapply populateJoinInputs_typed; [| | exact Hwalk]; [by intros n Hn |].
    intros p entry He. cbn in He. by rewrite lookup_empty in He. }
  eapply (fold_keeps E C (fun join graph => join_represented graph (cjoin join))) in Hjoins
    as [Hjoins Hrepresented].
  2: { intros join a b Hin Hb. exact (addJoin_grown unnestIds columnToLeaf _ (mkEdgeBuilder _ _ _ _ _ _) _ _ _ Hcoherent Htyped Hin Hb). }
  2: { intros join a b Ha Hg. by eapply join_represented_grown. }
  apply (addTransitiveInnerEdges_grown _ _ _ _ C) in Htransitive.
  destruct (addClusterConjuncts_grown _ _ _ _ E Hconjuncts) as [Hfinal Hpredicates].
  assert (Hlate : grown E C g3 graph).
  { eapply grown_trans.
    - eapply grown_weaken; [exact Htransitive | intros e He; by apply from_classes | done].
    - eapply grown_weaken; [exact Hfinal | done |]. intros c (p & Hp & Hc). exists p. auto. }
  assert (Hall : grown E C JoinHypergraph.new graph).
  { eapply grown_trans; [exact Hleaves |]. eapply grown_trans; [exact Hunnests |].
    eapply grown_trans; [| eapply grown_trans; [exact Hjoins | exact Hlate]].
    eapply grown_weaken; [exact Hedges | intros e (u & Hu & He); by apply (from_unnest _ _ _ _ _ u) | done]. }
  split_conj.
  - apply (built_ok g). apply (grown_built _ _ _ _ Hall). constructor.
  - intros join Hin. eapply join_represented_grown; [by apply Hrepresented | exact Hlate].
  - done.
  - exists unnestIds, columnToLeaf. split_conj; [done | |].
    + intros u Hu Hcols. destruct (Hunnest u Hu Hcols) as (e & He & Hof). exists e. split; [| done].
      eapply grown_keeps_edge; [| exact He]. by eapply grown_trans.
    + intros e He. destruct (grown_elem_edges _ _ _ _ _ Hall He) as [Hnone|]; [| done].
      by apply not_elem_of_nil in Hnone.
  - intros c Hc. destruct (grown_elem_conjuncts _ _ _ _ _ Hall Hc) as [Hnone|]; [| done].
    by apply not_elem_of_nil in Hnone.
Qed.
End Growth.
