(* ===== verification/HypergraphBuilderColumns.v ===== *)
(** * Building the hypergraph: outputs, classes and conjuncts

    The parts of [HypergraphBuilders.HypergraphBuilder.build] that trace columns to
    relations.

    - Resolving the outputs of joins ends with every output whose source is known.
    - The implied edges link all relations of a class of equal columns, with keys of the
      class only, where no written edge does.
    - A filter conjunct waits for the relations its columns come from, through the joins
      that make them. *)

From S2P Require Import Prelude Word64 RelationSets BitSets EstimateMath QueryGraph Joins AlgebraicProperties Partitionings Nodes Closures Hypergraphs HypergraphBuilders HypergraphFacts HypergraphBuilderFacts.
From Stdlib Require Import Lia.
Set Warnings "-clear-no-such-hyp".
Open Scope N_scope.
Import HypergraphBuilder.

(** ** The relations of join outputs *)

(** A column that comes from the relation: directly, or as the output of joins. *)
Inductive supplied (columnToLeaf : gmap N N) (outputs : list (ColumnCP * ColumnCP)) : ColumnCP -> N -> Prop :=
  | supplied_directly column relation :
      columnToLeaf !! column = Some relation -> supplied columnToLeaf outputs column relation
  | supplied_output output source relation :
      (output, source) ∈ outputs -> supplied columnToLeaf outputs source relation ->
      supplied columnToLeaf outputs output relation.

Lemma emplace_lookup (m : gmap N N) k v c r :
  emplace m k v !! c = Some r <-> m !! c = Some r \/ (m !! c = None /\ c = k /\ r = v).
Proof.
  unfold emplace. destruct (m !! k) as [v'|] eqn:E.
  - split; [auto |]. intros [|(? & -> & _)]; congruence.
  - rewrite lookup_insert_Some. split.
    + intros [[<- <-]|[? ?]]; auto.
    + intros [H|(H & -> & ->)]; [| auto]. right. split; [congruence | done].
Qed.

Definition unresolved (outputs : list (ColumnCP * ColumnCP)) (m : gmap N N) : list (ColumnCP * ColumnCP) :=
  List.filter (fun p => bool_decide (m !! p.1 = None)) outputs.

Lemma unresolved_mono outputs (m m' : gmap N N) :
  m ⊆ m' -> (length (unresolved outputs m') <= length (unresolved outputs m))%nat.
Proof.
  intros Hsub. unfold unresolved. induction outputs as [|[o s] outputs IH]; cbn; [lia |].
  repeat case_bool_decide; cbn; try lia. exfalso. destruct (m !! o) as [r|] eqn:E; [| done].
  pose proof (lookup_weaken _ _ _ _ E Hsub). congruence.
Qed.

Lemma unresolved_less outputs (m m' : gmap N N) o s :
  m ⊆ m' -> (o, s) ∈ outputs -> m !! o = None -> is_Some (m' !! o) ->
  (length (unresolved outputs m') < length (unresolved outputs m))%nat.
Proof.
  intros Hsub Hin Hn [r Hr]. induction outputs as [|[o' s'] outputs IH]; [by apply not_elem_of_nil in Hin |].
  pose proof (unresolved_mono outputs m m' Hsub) as Hmono. unfold unresolved in *. cbn.
  apply elem_of_cons in Hin as [[= <- <-]|Hin].
  - rewrite (bool_decide_eq_true_2 (m !! o = None)), (bool_decide_eq_false_2 (m' !! o = None)) by congruence.
    cbn. lia.
  - specialize (IH Hin). repeat case_bool_decide; cbn; try lia.
    exfalso. destruct (m !! o') as [q|] eqn:E; [| done].
    pose proof (lookup_weaken _ _ _ _ E Hsub). congruence.
Qed.

(** One pass: what it keeps and adds; whether it has closed the map, or resolved an output. *)
Lemma output_pass_spec (all outputs : list (ColumnCP * ColumnCP)) m0 m changed m' changed' :
  outputs ⊆ all ->
  foldl (fun '(columnToLeaf, changed) '(output, source) =>
    match columnToLeaf !! source with
    | None => (columnToLeaf, changed)
    | Some relation =>
        (emplace columnToLeaf output relation, changed || bool_decide (columnToLeaf !! output = None))
    end) (m, changed) outputs = (m', changed') ->
  (forall c r, m !! c = Some r -> supplied m0 all c r) ->
  m ⊆ m' /\ (forall c r, m' !! c = Some r -> supplied m0 all c r) /\
  (changed' = true -> changed = true \/
     exists o s, (o, s) ∈ outputs /\ m !! o = None /\ is_Some (m' !! o)) /\
  (changed' = false -> changed = false /\ m' = m /\
     forall o s, (o, s) ∈ outputs -> is_Some (m !! s) -> is_Some (m !! o)).
Proof.
  revert m changed. induction outputs as [|[o s] outputs IH]; intros m changed Hall H Hm; cbn in H.
  - injection H as -> ->. split_conj; [done | done | auto |].
    intros ->. split_conj; [done | done |]. by intros o s Hin%not_elem_of_nil.
  - assert (Hos : (o, s) ∈ all) by (apply Hall; by left).
    assert (Hall' : outputs ⊆ all) by (intros p Hp; apply Hall; by right).
    destruct (m !! s) as [relation|] eqn:Es.
    + assert (Hsub1 : m ⊆ emplace m o relation).
      { apply map_subseteq_spec. intros c r Hc. apply emplace_lookup. by left. }
      apply IH in H as (Hsub & Hsup & Ht & Hf); [| done |].
      2: { intros c r [Hc|(_ & -> & ->)]%emplace_lookup; [by apply Hm |].
           eapply supplied_output; [exact Hos | by apply Hm]. }
      split_conj; [by transitivity (emplace m o relation) | done | |].
      * intros Hc. destruct (Ht Hc) as [Hor|(o' & s' & Hin & Hn & Hs)].
        -- apply orb_true_iff in Hor as [|Hn%bool_decide_eq_true]; [by left | right].
           exists o, s. split_conj; [by left | done |].
           exists relation. eapply lookup_weaken; [| exact Hsub]. apply emplace_lookup. auto.
        -- right. exists o', s'. split_conj; [by right | | done].
           destruct (m !! o') as [r|] eqn:Eo; [| done]. pose proof (lookup_weaken _ _ _ _ Eo Hsub1). congruence.
      * intros Hc. destruct (Hf Hc) as ([-> Hn]%orb_false_iff & -> & Hclosed).
        apply bool_decide_eq_false in Hn. unfold emplace in *.
        destruct (m !! o) as [r|] eqn:Eo; [| done]. split_conj; [done | done |].
        intros o' s' [[= -> ->]|Hin]%elem_of_cons; [by rewrite Eo | by apply Hclosed].
    + apply IH in H as (Hsub & Hsup & Ht & Hf); [| done | done]. split_conj; [done | done | |].
      * intros Hc. destruct (Ht Hc) as [|(o' & s' & Hin & Hrest)]; [by left |].
        right. exists o', s'. split; [by right | done].
      * intros Hc. destruct (Hf Hc) as (-> & -> & Hclosed). split_conj; [done | done |].
        intros o' s' [[= -> ->]|Hin]%elem_of_cons; [rewrite Es; by intros [] | by apply Hclosed].
Qed.

Lemma output_loop_spec fuel outputs m0 m :
  (length (unresolved outputs m) < fuel)%nat ->
  (forall c r, m !! c = Some r -> supplied m0 outputs c r) ->
  exists m', output_loop fuel outputs m = Ok m' /\ m ⊆ m' /\
    (forall c r, m' !! c = Some r -> supplied m0 outputs c r) /\
    (forall o s, (o, s) ∈ outputs -> is_Some (m' !! s) -> is_Some (m' !! o)).
Proof.
  revert m. induction fuel as [|fuel IH]; intros m Hfuel Hm; [lia |]. cbn.
  unfold output_pass. destruct (foldl _ (m, false) outputs) as [m1 changed] eqn:Ep.
  apply (output_pass_spec outputs outputs m0) in Ep as (Hsub & Hsup & Ht & Hf); [| done | done].
  destruct changed.
  - destruct (Ht eq_refl) as [|(o & s & Hin & Hn & Hs)]; [done |].
    pose proof (unresolved_less outputs m m1 o s Hsub Hin Hn Hs).
    destruct (IH m1) as (m' & Hl & Hsub' & Hrest); [lia | done |].
    exists m'. split; [done |]. split; [by transitivity m1 | done].
  - destruct (Hf eq_refl) as (_ & -> & Hclosed). by exists m.
Qed.

(** C28: resolving the outputs of joins ends, whatever the order of the joins, and resolves
    exactly what has a source: known columns keep their relation, an output whose source is
    known becomes known, and every relation is that of a source the chain of joins starts
    from. *)
Theorem addJoinOutputRelations_resolves joins (columnToLeaf : gmap N N) :
  exists result, addJoinOutputRelations joins columnToLeaf = Ok result /\
    columnToLeaf ⊆ result /\
    (forall column, is_Some (result !! column) <->
       exists relation, supplied columnToLeaf (join_outputs joins) column relation) /\
    (forall column relation, result !! column = Some relation ->
       supplied columnToLeaf (join_outputs joins) column relation).
Proof.
  unfold addJoinOutputRelations.
  destruct (output_loop_spec (S (length (join_outputs joins))) (join_outputs joins) columnToLeaf columnToLeaf)
    as (result & Hr & Hsub & Hsup & Hclosed).
  - unfold unresolved. pose proof (List.filter_length_le (fun p => bool_decide (columnToLeaf !! p.1 = None))
      (join_outputs joins)). lia.
  - intros c r Hc. by apply supplied_directly.
  - exists result. split_conj; [done | done | | done]. intros column. split.
    + intros [r Hc]. eauto.
    + intros [r Hc]. induction Hc as [c r Hc|o s r Hin _ IH].
      * exists r. by eapply lookup_weaken.
      * by eapply Hclosed.
Qed.

(** ** Implied edges link a class *)

Section Classes.
Context {VB : VeloxBits} (g : QueryGraph) (debug : bool) (columnToLeaf : gmap N N).

(** A key pair of two columns of a class, with their relations. *)
Record class_pair (equivalence : EquivalenceP) (pair : KeyPair) (l r : N) : Prop := {
  cp_columns : equated g pair;
  cp_class : column_equivalence g pair.1 = Some equivalence;
  cp_left : columnToLeaf !! pair.1 = Some l;
  cp_right : columnToLeaf !! pair.2 = Some r
}.

(** An inner edge of the graph equates the class between the relations. *)
Definition linked (edges : list JoinEdge) (equivalence : EquivalenceP) (l r : N) : Prop :=
  exists e pair, e ∈ edges /\ JoinEdge.joinType e = kInner /\ pair ∈ edge_pairs e /\
    class_pair equivalence pair l r.

(** The entry of a class, empty if it was not seen. *)
Fixpoint class_at (classes : list ClassEntry) (equivalence : EquivalenceP) : ClassEntry :=
  match classes with
  | [] => mkClassEntry equivalence [] []
  | entry :: classes =>
      if class_equivalence entry =? equivalence then entry else class_at classes equivalence
  end.

Lemma class_at_update q update classes q' :
  (forall entry, class_equivalence (update entry) = class_equivalence entry) ->
  class_at (update_class q update classes) q' =
  if q =? q' then update (class_at classes q) else class_at classes q'.
Proof.
  intros Hu. induction classes as [|entry classes IH]; cbn.
  - rewrite Hu. cbn. by destruct (N.eqb_spec q q') as [->|].
  - destruct (N.eqb_spec (class_equivalence entry) q) as [<-|Hne]; cbn; rewrite ?Hu.
    + by destruct (N.eqb_spec (class_equivalence entry) q').
    + rewrite IH. destruct (N.eqb_spec (class_equivalence entry) q') as [<-|]; [| done].
      destruct (N.eqb_spec q (class_equivalence entry)); [congruence | done].
Qed.

Lemma class_at_in classes q : class_reps (class_at classes q) <> [] -> class_at classes q ∈ classes.
Proof.
  induction classes as [|entry classes IH]; cbn; [done |].
  destruct (class_equivalence entry =? q); [by left | right; auto].
Qed.

Lemma class_at_equivalence classes q : class_equivalence (class_at classes q) = q.
Proof.
  induction classes as [|entry classes IH]; cbn; [done |].
  by destruct (N.eqb_spec (class_equivalence entry) q).
Qed.

Lemma emplace_rep_keys relation column reps r :
  r ∈ (emplace_rep relation column reps).*1 <-> r = relation \/ r ∈ reps.*1.
Proof.
  induction reps as [|[r' c'] reps IH]; cbn; [rewrite elem_of_cons; done |].
  destruct (N.eqb_spec relation r') as [->|]; cbn; [rewrite elem_of_cons; naive_solver |].
  destruct (relation <? r'); cbn; rewrite !elem_of_cons; [done |]. rewrite IH. naive_solver.
Qed.

(** What a noted pair does to the classes. *)
Definition note (l r : N) (pair : KeyPair) (entry : ClassEntry) : ClassEntry :=
  mkClassEntry (class_equivalence entry)
    (emplace_rep r pair.2 (emplace_rep l pair.1 (class_reps entry)))
    (class_covered entry ++ [orderedPair l r]).

Lemma note_pair_spec classes pair classes' :
  note_pair g debug columnToLeaf classes pair = Ok classes' ->
  (classes' = classes /\ forall q l r, ~ class_pair q pair l r) \/
  exists q l r, class_pair q pair l r /\ classes' = update_class q (note l r pair) classes.
Proof.
  unfold note_pair. destruct pair as [a b].
  destruct (negb (isColumn g a) || negb (isColumn g b)) eqn:Ecol.
  - intros [= <-]. left. split; [done |]. intros q l r [(Ha & Hb & _) _ _ _]. cbn in Ha, Hb.
    by rewrite Ha, Hb in Ecol.
  - apply orb_false_iff in Ecol as [Ea%negb_false_iff Eb%negb_false_iff].
    destruct (column_equivalence g a) as [q|] eqn:Eq; [| done].
    rewrite velox_check_bind. intros [Hq%bool_decide_eq_true H].
    destruct (columnToLeaf !! a) as [l|] eqn:El.
    2: { injection H as <-. left. split; [done |]. intros ? ? ? [_ _ Hl _]. cbn in Hl. congruence. }
    destruct (columnToLeaf !! b) as [r|] eqn:Er.
    2: { injection H as <-. left. split; [done |]. intros ? ? ? [_ _ _ Hr]. cbn in Hr. congruence. }
    rewrite velox_check_bind in H. destruct H as [_ [= <-]].
    right. exists q, l, r. split; [| done]. split; [| done | done | done].
    split; [done |]. split; [done |]. by exists q.
Qed.

(** *** What the classes record *)

Definition reps_in_class (entry : ClassEntry) : Prop :=
  Forall (fun rep => columnToLeaf !! rep.2 = Some rep.1) (class_reps entry).

Definition covered_linked (edges : list JoinEdge) (entry : ClassEntry) : Prop :=
  Forall (fun p => exists l r, p = orderedPair l r /\ linked edges (class_equivalence entry) l r)
    (class_covered entry).

Definition recorded (edges : list JoinEdge) (entry : ClassEntry) : Prop :=
  class_sound g entry /\ reps_in_class entry /\ covered_linked edges entry.

Lemma note_recorded edges q l r pair entry :
  class_pair q pair l r -> class_equivalence entry = q -> linked edges q l r ->
  recorded edges entry -> recorded edges (note l r pair entry).
Proof.
  intros [(Hc1 & Hc2 & q' & Hq1 & Hq2) Hq Hl Hr] He Hlink (Hsound & Hreps & Hcov).
  assert (q' = q) as -> by congruence.
  unfold recorded, class_sound, reps_in_class, covered_linked, note. cbn. rewrite He. split_conj.
  - apply emplace_rep_Forall; [done |]. apply emplace_rep_Forall; [done |]. by rewrite <- He.
  - apply emplace_rep_Forall; [done |]. by apply emplace_rep_Forall.
  - apply Forall_app. split; [by rewrite <- He |]. apply Forall_singleton. eauto.
Qed.

Lemma note_pair_recorded edges e classes pair classes' :
  e ∈ edges -> JoinEdge.joinType e = kInner -> pair ∈ edge_pairs e ->
  Forall (recorded edges) classes -> note_pair g debug columnToLeaf classes pair = Ok classes' ->
  Forall (recorded edges) classes'.
Proof.
  intros He Ht Hp Hs [[-> _]|(q & l & r & Hc & ->)]%note_pair_spec; [done |].
  apply update_class_Forall; [| by repeat constructor | done].
  intros entry Hq Hent. eapply note_recorded; [done | done | by exists e, pair | done].
Qed.

Lemma classes_recorded edges classes :
  fold_result (note_edge g debug columnToLeaf) edges [] = Ok classes -> Forall (recorded edges) classes.
Proof.
  apply (fold_result_invariant (Forall (recorded edges))); [| done]. intros e cs cs' He Hcs H.
  unfold note_edge in H. case_bool_decide as Ht; cbn in H; [| by injection H as <-].
  eapply (fold_result_invariant (Forall (recorded edges))); [| exact Hcs | exact H].
  intros pair a b Hp Ha Hb. by eapply note_pair_recorded.
Qed.

(** The relation is in the class. *)
Definition represents (q : EquivalenceP) (relation : N) (classes : list ClassEntry) : Prop :=
  relation ∈ (class_reps (class_at classes q)).*1.

Lemma note_pair_represents q relation classes pair classes' :
  note_pair g debug columnToLeaf classes pair = Ok classes' ->
  (represents q relation classes \/ exists l r, class_pair q pair l r /\ (relation = l \/ relation = r)) ->
  represents q relation classes'.
Proof.
  unfold represents. intros H%note_pair_spec Hrep. destruct H as [[-> Hno]|(q' & l & r & Hc & ->)].
  - destruct Hrep as [|(l & r & Hc & _)]; [done | by apply Hno in Hc].
  - rewrite class_at_update by done. destruct (N.eqb_spec q' q) as [->|Hne].
    + unfold note. cbn. rewrite !emplace_rep_keys.
      destruct Hrep as [|(l' & r' & [_ _ Hl' Hr'] & Hor)]; [auto |]. destruct Hc as [_ _ Hl Hr].
      assert (l' = l) as -> by congruence. assert (r' = r) as -> by congruence. naive_solver.
    + destruct Hrep as [|(l' & r' & [_ Hq' _ _] & Hor)]; [done |]. destruct Hc as [_ Hq _ _]. congruence.
Qed.

Lemma classes_represent edges classes q l r :
  fold_result (note_edge g debug columnToLeaf) edges [] = Ok classes -> linked edges q l r ->
  represents q l classes /\ represents q r classes.
Proof.
  intros H (e & pair & He & Ht & Hp & Hc).
  assert (Hone : forall relation, relation = l \/ relation = r -> represents q relation classes);
    [| split; apply Hone; auto].
  intros relation Hor.
  assert (Hkeep : forall e' cs cs', represents q relation cs ->
            note_edge g debug columnToLeaf cs e' = Ok cs' -> represents q relation cs').
  { intros e' cs cs' Hcs Hn. unfold note_edge in Hn. case_bool_decide; cbn in Hn; [| by injection Hn as <-].
    eapply (fold_result_invariant (represents q relation)); [| exact Hcs | exact Hn].
    intros pair' a b _ Ha Hb. eapply note_pair_represents; [exact Hb | by left]. }
  eapply (fold_result_reaches (represents q relation)); [exact He | | | exact H].
  - intros cs cs' Hn. unfold note_edge in Hn. rewrite bool_decide_eq_true_2 in Hn by done. cbn in Hn.
    eapply (fold_result_reaches (represents q relation)); [exact Hp | | | exact Hn].
    + intros a b Hb. eapply note_pair_represents; [exact Hb |]. right. eauto.
    + intros pair' a b _ Ha Hb. eapply note_pair_represents; [exact Hb | by left].
  - intros e' a b _ Ha Hb. by eapply Hkeep.
Qed.

(** *** Order and coverage of the classes *)

Lemma emplace_rep_sorted relation column reps :
  StronglySorted N.lt reps.*1 -> StronglySorted N.lt (emplace_rep relation column reps).*1.
Proof.
  induction reps as [|[r c] reps IH]; cbn; intros H; [by repeat constructor |].
  apply StronglySorted_inv in H as [Hs Hr]. destruct (N.eqb_spec relation r) as [->|Hne]; cbn; [by constructor |].
  destruct (N.ltb_spec relation r); cbn.
  - constructor; [by constructor |]. constructor; [done |]. eapply Forall_impl; [exact Hr |]. cbn. lia.
  - constructor; [by apply IH |]. apply Forall_forall. intros x [->|Hx]%emplace_rep_keys; [lia |].
    rewrite Forall_forall in Hr. auto.
Qed.

(** One entry per class, each in the order of relations. *)
Definition ordered (classes : list ClassEntry) : Prop :=
  NoDup (map class_equivalence classes) /\
  Forall (fun entry => StronglySorted N.lt (class_reps entry).*1) classes.

Lemma update_class_keys q update classes :
  (forall entry, class_equivalence (update entry) = class_equivalence entry) ->
  map class_equivalence (update_class q update classes) =
  if bool_decide (q ∈ map class_equivalence classes) then map class_equivalence classes
  else map class_equivalence classes ++ [q].
Proof.
  intros Hu. induction classes as [|entry classes IH]; cbn; [by rewrite Hu |].
  destruct (N.eqb_spec (class_equivalence entry) q) as [<-|Hne]; cbn; rewrite ?Hu, ?IH.
  - rewrite bool_decide_eq_true_2; [done | by left].
  - rewrite (bool_decide_ext (q ∈ class_equivalence entry :: map class_equivalence classes)
               (q ∈ map class_equivalence classes)); [by case_bool_decide |].
    rewrite elem_of_cons. naive_solver.
Qed.

Lemma note_pair_ordered classes pair classes' :
  ordered classes -> note_pair g debug columnToLeaf classes pair = Ok classes' -> ordered classes'.
Proof.
  intros [Hn Hs] [[-> _]|(q & l & r & Hc & ->)]%note_pair_spec; [done |]. split.
  - rewrite update_class_keys by done. case_bool_decide as Hq; [done |].
    apply NoDup_app. split; [done |]. split; [| apply NoDup_singleton].
    intros x Hx ->%list_elem_of_singleton. done.
  - apply update_class_Forall; [| by repeat constructor | done].
    intros entry _ He. cbn. by apply emplace_rep_sorted, emplace_rep_sorted.
Qed.

(** The classes are built by noting pairs. *)
Lemma classes_invariant (I : list ClassEntry -> Prop) edges classes :
  I [] -> (forall cs pair cs', I cs -> note_pair g debug columnToLeaf cs pair = Ok cs' -> I cs') ->
  fold_result (note_edge g debug columnToLeaf) edges [] = Ok classes -> I classes.
Proof.
  intros H0 Hstep. apply (fold_result_invariant I); [| done]. intros e cs cs' _ Hcs H.
  unfold note_edge in H. case_bool_decide; cbn in H; [| by injection H as <-].
  eapply (fold_result_invariant I); [| exact Hcs | exact H]. intros pair a b _. apply Hstep.
Qed.

Lemma class_at_unique classes entry :
  NoDup (map class_equivalence classes) -> entry ∈ classes -> class_at classes (class_equivalence entry) = entry.
Proof.
  induction classes as [|entry' classes IH]; cbn; intros Hn Hin; [by apply not_elem_of_nil in Hin |].
  apply NoDup_cons in Hn as [Hnot Hn]. apply elem_of_cons in Hin as [->|Hin]; [by rewrite N.eqb_refl |].
  destruct (N.eqb_spec (class_equivalence entry') (class_equivalence entry)) as [E|]; [| auto].
  exfalso. apply Hnot. rewrite E. by apply list_elem_of_fmap_2.
Qed.

Lemma note_pair_covers q p classes pair classes' :
  note_pair g debug columnToLeaf classes pair = Ok classes' ->
  (p ∈ class_covered (class_at classes q) \/ exists l r, class_pair q pair l r /\ p = orderedPair l r) ->
  p ∈ class_covered (class_at classes' q).
Proof.
  intros H%note_pair_spec Hrep. destruct H as [[-> Hno]|(q' & l & r & Hc & ->)].
  - destruct Hrep as [|(l & r & Hc & _)]; [done | by apply Hno in Hc].
  - rewrite class_at_update by done. destruct (N.eqb_spec q' q) as [->|Hne].
    + unfold note. cbn. rewrite elem_of_app, list_elem_of_singleton.
      destruct Hrep as [|(l' & r' & [_ _ Hl' Hr'] & ->)]; [auto |]. destruct Hc as [_ _ Hl Hr].
      assert (l' = l) as -> by congruence. assert (r' = r) as -> by congruence. auto.
    + destruct Hrep as [|(l' & r' & [_ Hq' _ _] & _)]; [done |]. destruct Hc as [_ Hq _ _]. congruence.
Qed.

Lemma classes_cover edges classes q l r :
  fold_result (note_edge g debug columnToLeaf) edges [] = Ok classes -> linked edges q l r ->
  orderedPair l r ∈ class_covered (class_at classes q).
Proof.
  intros H (e & pair & He & Ht & Hp & Hc).
  eapply (fold_result_reaches (fun cs => orderedPair l r ∈ class_covered (class_at cs q)));
    [exact He | | | exact H].
  - intros cs cs' Hn. unfold note_edge in Hn. rewrite bool_decide_eq_true_2 in Hn by done. cbn in Hn.
    eapply (fold_result_reaches (fun cs => orderedPair l r ∈ class_covered (class_at cs q)));
      [exact Hp | | | exact Hn].
    + intros a b Hb. eapply note_pair_covers; [exact Hb |]. right. eauto.
    + intros pair' a b _ Ha Hb. eapply note_pair_covers; [exact Hb | by left].
  - intros e' cs cs' _ Hcs Hn. unfold note_edge in Hn. case_bool_decide; cbn in Hn; [| by injection Hn as <-].
    eapply (fold_result_invariant (fun cs => orderedPair l r ∈ class_covered (class_at cs q)));
      [| exact Hcs | exact Hn].
    intros pair' a b _ Ha Hb. eapply note_pair_covers; [exact Hb | by left].
Qed.

(** *** The derived edges *)

(** A spec for the relations holds the key pair. *)
Definition derives (specs : list DerivedEdgeSpec) (a b : N) (pair : KeyPair) : Prop :=
  exists spec, spec ∈ specs /\ derived_relations spec = (a, b) /\
    pair ∈ zip (derived_leftKeys spec) (derived_rightKeys spec).

(** The keys of a spec equate columns of its two relations that no written edge equates. *)
Definition new_pair (edges : list JoinEdge) (a b : N) (pair : KeyPair) : Prop :=
  exists q, class_pair q pair a b /\ ~ linked edges q a b /\ ~ linked edges q b a.

Definition spec_ok (edges : list JoinEdge) (spec : DerivedEdgeSpec) : Prop :=
  (derived_relations spec).1 < (derived_relations spec).2 /\
  length (derived_leftKeys spec) = length (derived_rightKeys spec) /\
  Forall (new_pair edges (derived_relations spec).1 (derived_relations spec).2)
    (zip (derived_leftKeys spec) (derived_rightKeys spec)).

Lemma derive_pair_ok edges a b l r specs :
  a < b -> new_pair edges a b (l, r) -> Forall (spec_ok edges) specs ->
  Forall (spec_ok edges) (derive_pair (a, b) l r specs) /\
  derives (derive_pair (a, b) l r specs) a b (l, r) /\
  forall a' b' pair, derives specs a' b' pair -> derives (derive_pair (a, b) l r specs) a' b' pair.
Proof.
  intros Hab Hnew. induction 1 as [|spec specs (Hlt & Hl & Hs) Hspecs (IH1 & IH2 & IH3)]; cbn.
  - split_conj; [by repeat constructor | |].
    + eexists. split; [by left |]. split; [done | by left].
    + intros a' b' pair (spec & Hin & _). by apply not_elem_of_nil in Hin.
  - assert (Hzip : zip (derived_leftKeys spec ++ [l]) (derived_rightKeys spec ++ [r]) =
              zip (derived_leftKeys spec) (derived_rightKeys spec) ++ [(l, r)]) by (by rewrite zip_with_app).
    case_bool_decide as Hrel.
    + split_conj.
      * constructor; [| done]. rewrite Hrel in Hs. split; [done |]. cbn. rewrite !length_app, Hl. split; [done |].
        rewrite Hzip. apply Forall_app. split; [done | by apply Forall_singleton].
      * eexists. split; [by left |]. split; [done |]. cbn. rewrite Hzip. apply elem_of_app. right. by left.
      * intros a' b' pair (spec' & [->|Hin]%elem_of_cons & Hr & Hp).
        -- eexists. split; [by left |]. cbn. split; [congruence |]. rewrite Hzip. apply elem_of_app. by left.
        -- exists spec'. split; [by right | done].
    + split_conj.
      * by constructor.
      * destruct IH2 as (spec' & Hin & Hrest). exists spec'. split; [by right | done].
      * intros a' b' pair (spec' & [->|Hin]%elem_of_cons & Hr & Hp); [exists spec; split; [by left | done] |].
        destruct (IH3 a' b' pair) as (spec'' & Hin' & Hrest); [by exists spec' |].
        exists spec''. split; [by right | done].
Qed.

Lemma ordered_pairs_sorted (l : list (N * ColumnCP)) :
  StronglySorted N.lt l.*1 -> Forall (fun p => p.1.1 < p.2.1) (ordered_pairs l).
Proof.
  induction l as [|x l IH]; cbn; intros H; [done |]. apply StronglySorted_inv in H as [Hs Hx].
  apply Forall_app. split; [| by apply IH]. apply Forall_forall. intros p (y & -> & Hy)%list_elem_of_fmap. cbn.
  rewrite Forall_forall in Hx. by apply Hx, list_elem_of_fmap_2.
Qed.

Lemma elem_of_ordered_pairs {A} (l : list A) x y :
  x ∈ l -> y ∈ l -> x <> y -> (x, y) ∈ ordered_pairs l \/ (y, x) ∈ ordered_pairs l.
Proof.
  induction l as [|z l IH]; cbn; [by intros ?%not_elem_of_nil |]. rewrite !elem_of_cons, !elem_of_app.
  intros [->|Hx] [->|Hy] Hne; [done | | |].
  - left. left. by apply list_elem_of_fmap_2.
  - right. left. by apply list_elem_of_fmap_2.
  - destruct (IH Hx Hy Hne); auto.
Qed.

Lemma derive_class_ok edges entry specs :
  recorded edges entry -> StronglySorted N.lt (class_reps entry).*1 ->
  (forall l r, linked edges (class_equivalence entry) l r -> orderedPair l r ∈ class_covered entry) ->
  Forall (spec_ok edges) specs ->
  Forall (spec_ok edges) (derive_class specs entry) /\
  (forall a b pair, derives specs a b pair -> derives (derive_class specs entry) a b pair) /\
  (forall a x b y, ((a, x), (b, y)) ∈ ordered_pairs (class_reps entry) -> (a, b) ∉ class_covered entry ->
     derives (derive_class specs entry) a b (x, y)).
Proof.
  intros (Hsound & Hreps & _) Hsorted Hcover. unfold derive_class.
  assert (Hall : Forall (fun p => p.1.1 < p.2.1 /\ forall q, q = class_equivalence entry ->
            class_pair q (p.1.2, p.2.2) p.1.1 p.2.1) (ordered_pairs (class_reps entry))).
  { apply Forall_forall. intros [[a x] [b y]] Hin. cbn.
    apply ordered_pairs_sorted in Hsorted. rewrite Forall_forall in Hsorted. split; [by apply (Hsorted _ Hin) |].
    intros q ->. unfold class_sound, reps_in_class in *.
    apply ordered_pairs_Forall in Hsound, Hreps. rewrite Forall_forall in Hsound. rewrite Forall_forall in Hreps.
    destruct (Hsound _ Hin) as [[Hx1 Hx2] [Hy1 Hy2]]. destruct (Hreps _ Hin) as [Hx Hy]. cbn in *.
    split; [| done | done | done]. split; [done |]. split; [done | eauto]. }
  clear Hsorted Hsound Hreps. revert specs.
  induction Hall as [|[[a x] [b y]] ps [Hab Hpair] Hps IH]; intros specs Hspecs; cbn.
  - split_conj; [done | done |]. by intros a x b y Hin%not_elem_of_nil.
  - cbn in Hab, Hpair. assert (Hord : orderedPair a b = (a, b)).
    { unfold orderedPair. by rewrite (proj2 (N.ltb_lt a b)). }
    rewrite Hord. case_bool_decide as Hcov.
    + destruct (IH specs Hspecs) as (H1 & H2 & H3). split_conj; [done | done |].
      intros a' x' b' y' [[= -> -> -> ->]|Hin]%elem_of_cons Hn; [done | by apply H3].
    + assert (Hnew : new_pair edges a b (x, y)).
      { exists (class_equivalence entry). split_conj; [by apply Hpair | |]; intros Hl%Hcover; apply Hcov;
          [by rewrite Hord in Hl |]. unfold orderedPair in Hl. by rewrite (proj2 (N.ltb_ge b a)) in Hl by lia. }
      destruct (derive_pair_ok edges a b x y specs Hab Hnew Hspecs) as (G1 & G2 & G3).
      destruct (IH _ G1) as (H1 & H2 & H3). split_conj; [done | intros ? ? ? Hd; by apply H2, G3 |].
      intros a' x' b' y' [[= -> -> -> ->]|Hin]%elem_of_cons Hn; [by apply H2 | by apply H3].
Qed.

Lemma derive_classes_ok edges classes specs :
  Forall (fun entry => recorded edges entry /\ StronglySorted N.lt (class_reps entry).*1 /\
    forall l r, linked edges (class_equivalence entry) l r -> orderedPair l r ∈ class_covered entry) classes ->
  Forall (spec_ok edges) specs ->
  Forall (spec_ok edges) (foldl derive_class specs classes) /\
  (forall a b pair, derives specs a b pair -> derives (foldl derive_class specs classes) a b pair) /\
  (forall entry a x b y, entry ∈ classes -> ((a, x), (b, y)) ∈ ordered_pairs (class_reps entry) ->
     (a, b) ∉ class_covered entry -> derives (foldl derive_class specs classes) a b (x, y)).
Proof.
  intros Hall. revert specs. induction Hall as [|entry classes (Hr & Hs & Hc) Hcs IH]; intros specs Hspecs; cbn.
  - split_conj; [done | done |]. by intros ? ? ? ? ? ?%not_elem_of_nil.
  - destruct (derive_class_ok edges entry specs Hr Hs Hc Hspecs) as (G1 & G2 & G3).
    destruct (IH _ G1) as (H1 & H2 & H3). split_conj; [done | auto |].
    intros entry' a x b y [->|Hin]%elem_of_cons Hp Hn; [by apply H2, G3 | by eapply H3].
Qed.

(** The edge of a spec. *)
Definition derived_edge (spec : DerivedEdgeSpec) : JoinEdge :=
  let left := RelationSet.singleton (derived_relations spec).1 in
  let right := RelationSet.singleton (derived_relations spec).2 in
  JoinEdge.mk left right left right (derived_leftKeys spec) (derived_rightKeys spec) [] kInner
    false false None [] [] false.

Lemma addDerivedEdges_edges specs graph graph' :
  fold_result addDerivedEdge specs graph = Ok graph' ->
  JoinHypergraph.edges graph' = JoinHypergraph.edges graph ++ map derived_edge specs.
Proof.
  revert graph. induction specs as [|spec specs IH]; intros graph H; cbn in H.
  - injection H as <-. cbn. by rewrite app_nil_r.
  - apply bind_Ok in H as (mid & Hadd & H). apply IH in H as ->. unfold addDerivedEdge in Hadd. cbv zeta in Hadd.
    apply bind_Ok in Hadd as (e & Hnew & Hadd). apply JoinEdge_new_is in Hnew as ->.
    unfold JoinHypergraph.addEdge in Hadd. returns Hadd. injection Hadd as <-. cbn.
    by rewrite <- (assoc_L app).
Qed.

Lemma linked_app edges edges' q a b : linked edges q a b -> linked (edges ++ edges') q a b.
Proof. intros (e & pair & He & Hrest). exists e, pair. rewrite elem_of_app. auto. Qed.

(** Two relations of a class are linked, by a written edge or by a derived one. *)
Lemma classes_link edges classes q a b :
  Forall (recorded edges) classes ->
  (forall entry a x b y, entry ∈ classes -> ((a, x), (b, y)) ∈ ordered_pairs (class_reps entry) ->
     (a, b) ∉ class_covered entry -> derives (foldl derive_class [] classes) a b (x, y)) ->
  represents q a classes -> represents q b classes -> a <> b ->
  linked (edges ++ map derived_edge (foldl derive_class [] classes)) q a b \/
  linked (edges ++ map derived_edge (foldl derive_class [] classes)) q b a.
Proof.
  intros Hrec Hall Ha Hb Hne. unfold represents in Ha, Hb.
  apply list_elem_of_fmap in Ha as ([a' x] & -> & Ha), Hb as ([b' y] & -> & Hb). cbn in Hne |- *.
  pose proof (class_at_equivalence classes q) as Hq. set (entry := class_at classes q) in *.
  assert (Hin : entry ∈ classes).
  { apply class_at_in. fold entry. intros Hnil. rewrite Hnil in Ha. by apply not_elem_of_nil in Ha. }
  rewrite Forall_forall in Hrec. destruct (Hrec entry Hin) as (Hsound & Hreps & Hcov).
  unfold class_sound, reps_in_class, covered_linked in *. rewrite Hq in *.
  rewrite Forall_forall in Hsound. rewrite Forall_forall in Hreps. rewrite Forall_forall in Hcov.
  assert (Hone : forall c d u v, (c, u) ∈ class_reps entry -> (d, v) ∈ class_reps entry ->
            ((c, u), (d, v)) ∈ ordered_pairs (class_reps entry) ->
            linked (edges ++ map derived_edge (foldl derive_class [] classes)) q c d \/
            linked (edges ++ map derived_edge (foldl derive_class [] classes)) q d c).
  { intros c d u v Hc Hd Hpair. destruct (decide ((c, d) ∈ class_covered entry)) as [Hcd|Hcd].
    - destruct (Hcov _ Hcd) as (l & r & Heq & Hl). unfold orderedPair in Heq.
      destruct (l <? r); injection Heq as -> ->; [left | right]; by apply linked_app.
    - left. destruct (Hall entry c u d v Hin Hpair Hcd) as (spec & Hspec & Hrel & Hz).
      exists (derived_edge spec), (u, v). split.
      { apply elem_of_app. right. by apply list_elem_of_fmap_2. }
      split; [done |]. split; [done |].
      destruct (Hsound _ Hc) as [Hu1 Hu2], (Hsound _ Hd) as [Hv1 Hv2].
      split; [| done | by apply (Hreps _ Hc) | by apply (Hreps _ Hd)].
      split; [done |]. split; [done | eauto]. }
  destruct (elem_of_ordered_pairs (class_reps entry) (a', x) (b', y) Ha Hb) as [Hp|Hp];
    [intros [= ? _]; done | by eapply Hone |].
  destruct (Hone b' a' y x Hb Ha Hp); auto.
Qed.

(** The edges written in the graph equate a column of the relation to another of the class. *)
Definition in_class (edges : list JoinEdge) (q : EquivalenceP) (relation : N) : Prop :=
  exists other, linked edges q relation other \/ linked edges q other relation.

(** C26: the implied edges close the classes of inner equalities over the relations, and say
    nothing twice.  The written edges stay; in the result any two relations with columns of a
    class are linked by an edge of the class; and each added edge is a plain inner edge
    between two single relations, whose keys, one column of each, are of a class that no
    written edge equates between them. *)
Theorem addTransitiveInnerEdges_closes_classes graph graph' :
  addTransitiveInnerEdges g debug columnToLeaf graph = Ok graph' ->
  exists derived, JoinHypergraph.edges graph' = JoinHypergraph.edges graph ++ derived /\
    (forall q a b, in_class (JoinHypergraph.edges graph) q a -> in_class (JoinHypergraph.edges graph) q b ->
       a <> b -> linked (JoinHypergraph.edges graph') q a b \/ linked (JoinHypergraph.edges graph') q b a) /\
    (forall e, e ∈ derived -> exists a b,
       a <> b /\ JoinEdge.joinType e = kInner /\ JoinEdge.filter e = [] /\
       JoinEdge.leftEndpoints e = RelationSet.singleton a /\ JoinEdge.rightEndpoints e = RelationSet.singleton b /\
       JoinEdge.leftEligibility e = RelationSet.singleton a /\ JoinEdge.rightEligibility e = RelationSet.singleton b /\
       forall pair, pair ∈ edge_pairs e -> exists q, class_pair q pair a b /\
         ~ linked (JoinHypergraph.edges graph) q a b /\ ~ linked (JoinHypergraph.edges graph) q b a).
Proof.
  unfold addTransitiveInnerEdges. intros H. apply bind_Ok in H as (classes & Hclasses & H).
  apply addDerivedEdges_edges in H as Hedges. set (es := JoinHypergraph.edges graph) in *.
  assert (Hord : ordered classes).
  { eapply (classes_invariant ordered); [| | exact Hclasses].
    - by split; [apply NoDup_nil_2 |].
    - intros cs pair cs'. apply note_pair_ordered. }
  pose proof (classes_recorded es classes Hclasses) as Hrec. destruct Hord as [Hnodup Hsorted].
  destruct (derive_classes_ok es classes []) as (Hok & _ & Hall); [| done |].
  { apply Forall_forall. intros entry Hin. rewrite Forall_forall in Hrec. rewrite Forall_forall in Hsorted.
    split; [auto |]. split; [auto |]. intros l r Hl. rewrite <- (class_at_unique classes entry Hnodup Hin).
    by eapply classes_cover. }
  exists (map derived_edge (foldl derive_class [] classes)). split; [done |]. split.
  - intros q a b Ha Hb Hne. rewrite Hedges.
    assert (Hin : forall c, in_class es q c -> represents q c classes).
    { intros c (d & [Hl|Hl]); by apply (classes_represent es classes) in Hl as [? ?]. }
    apply classes_link; auto.
  - intros e (spec & -> & Hin)%list_elem_of_fmap. rewrite Forall_forall in Hok.
    destruct (Hok spec Hin) as (Hlt & _ & Hpairs). exists (derived_relations spec).1, (derived_relations spec).2.
    split; [lia |]. split_conj; try done. intros pair Hp. rewrite Forall_forall in Hpairs. by apply Hpairs.
Qed.
End Classes.

(** ** Conjuncts over the outputs of joins *)

Section Conjuncts.
Context {VB : VeloxBits} (g : QueryGraph).
Abbreviation Fresh := (gmap N (RelationSet * ColumnCP)).

(** The column a chain of joins starts from, and its length. *)
Inductive chain (fresh : Fresh) : ColumnCP -> ColumnCP -> nat -> Prop :=
  | chain_end column : fresh !! column = None -> chain fresh column column 0
  | chain_step column eligibility source root n :
      fresh !! column = Some (eligibility, source) -> chain fresh source root n -> chain fresh column root (S n).

(** A relation the joins of the chain must have covered. *)
Inductive chain_needs (fresh : Fresh) : ColumnCP -> N -> Prop :=
  | needs_here column eligibility source i :
      fresh !! column = Some (eligibility, source) -> i ∈ eligibility -> chain_needs fresh column i
  | needs_below column eligibility source i :
      fresh !! column = Some (eligibility, source) -> chain_needs fresh source i -> chain_needs fresh column i.

Lemma chain_deterministic fresh c r n r' n' : chain fresh c r n -> chain fresh c r' n' -> r = r' /\ n = n'.
Proof.
  intros H. revert r' n'. induction H as [c Hc|c e s r n Hc H IH]; intros r' n' H'; inversion H'; subst;
    try congruence; [done |]. assert (source = s) as -> by congruence.
  edestruct IH as [-> ->]; eauto.
Qed.

(** A chain that ends does not come back, so it is no longer than there are outputs. *)
Lemma chain_length fresh c r n : chain fresh c r n -> (n <= size fresh)%nat.
Proof.
  intros H. enough (Hall : forall visited : gset N, visited ⊆ dom fresh ->
    (forall v, v ∈ visited -> exists r' m, chain fresh v r' m /\ (n < m)%nat) ->
    (size visited + n <= size (dom fresh))%nat).
  { rewrite <- size_dom. specialize (Hall ∅). rewrite size_empty in Hall. apply Hall; set_solver. }
  induction H as [c Hc|c e s r n Hc H IH]; intros visited Hsub Hlong.
  - pose proof (subseteq_size visited (dom fresh) Hsub). lia.
  - assert (Hnot : c ∉ visited).
    { intros Hv. destruct (Hlong c Hv) as (r' & m & Hm & Hlt).
      assert (Hself : chain fresh c r (S n)) by (by econstructor).
      destruct (chain_deterministic _ _ _ _ _ _ Hm Hself). lia. }
    assert (Hsize : size ({[c]} ∪ visited) = S (size visited)).
    { rewrite size_union by set_solver. by rewrite size_singleton. }
    enough (size ({[c]} ∪ visited) + n <= size (dom fresh))%nat by lia. apply IH.
    + apply union_subseteq. split; [| done]. apply singleton_subseteq_l, elem_of_dom. eauto.
    + intros v [->%elem_of_singleton|Hv]%elem_of_union.
      * exists r, (S n). split; [by econstructor | lia].
      * destruct (Hlong v Hv) as (r' & m & Hm & Hlt). exists r', m. split; [done | lia].
Qed.

Lemma source_chain_spec fuel fresh relations c result root :
  source_chain fuel fresh relations c = Ok (result, root) ->
  exists n, (n < fuel)%nat /\ chain fresh c root n /\
    forall i, i ∈ result <-> i ∈ relations \/ chain_needs fresh c i.
Proof.
  revert relations c. induction fuel as [|fuel IH]; intros relations c H; cbn in H; [done |].
  destruct (fresh !! c) as [[e s]|] eqn:Ec.
  - apply IH in H as (n & Hn & Hc & Hr). exists (S n). split; [lia |]. split; [by econstructor |].
    intros i. rewrite Hr, RelationSet.elem_of_unionSet. split.
    + intros [[Hi|Hi]|Hi]; [by left | right; by eapply needs_here | right; by eapply needs_below].
    + intros [Hi|Hi]; [auto |]. inversion Hi; subst; rewrite Ec in *; simplify_eq; auto.
  - injection H as <- <-. exists 0%nat. split; [lia |]. split; [by constructor |].
    intros i. split; [auto |]. intros [Hi|Hi]; [done |]. inversion Hi; congruence.
Qed.

Lemma source_chain_returns fuel fresh relations c root n :
  chain fresh c root n -> (n < fuel)%nat -> exists result, source_chain fuel fresh relations c = Ok (result, root).
Proof.
  intros H. revert fuel relations. induction H as [c Hc|c e s r n Hc H IH]; intros fuel relations Hn;
    (destruct fuel as [|fuel]; [lia |]); cbn; rewrite Hc; [eauto |]. apply IH. lia.
Qed.

(** The fuel: a loop that ends at all ends within it. *)
Lemma source_chain_fuel fuel fresh relations c result :
  source_chain fuel fresh relations c = Ok result -> source_chain (S (size fresh)) fresh relations c = Ok result.
Proof.
  destruct result as [result root]. intros H. apply source_chain_spec in H as H'. destruct H' as (n & Hn & Hc & Hr).
  destruct (source_chain_returns (S (size fresh)) fresh relations c root n Hc) as (result' & H').
  { apply chain_length in Hc. lia. }
  rewrite H'. apply source_chain_spec in H' as (n' & _ & _ & Hr'). do 2 f_equal.
  apply RelationSet.rs_ext. intros i. by rewrite Hr, Hr'.
Qed.

(** *** Which outputs are fresh *)

Definition fresh_output (edges : list JoinEdge) (output : ColumnCP) (eligibility : RelationSet) (source : ColumnCP) : Prop :=
  exists e, e ∈ edges /\ (output, source) ∈ zip (JoinEdge.outputColumns e) (JoinEdge.sourceColumns e) /\
    output <> source /\ eligibility = JoinEdge.totalEligibility e.

Lemma freshOutputs_sound edges output eligibility source :
  freshOutputs edges !! output = Some (eligibility, source) -> fresh_output edges output eligibility source.
Proof.
  unfold freshOutputs, fresh_output.
  enough (Hall : forall l acc, foldl (fun fresh edge =>
            foldl (fun fresh '(output, source) =>
              if negb (output =? source) then emplace fresh output (JoinEdge.totalEligibility edge, source)
              else fresh) fresh (zip (JoinEdge.outputColumns edge) (JoinEdge.sourceColumns edge))) acc l
            !! output = Some (eligibility, source) ->
          acc !! output = Some (eligibility, source) \/ exists e, e ∈ l /\
            (output, source) ∈ zip (JoinEdge.outputColumns e) (JoinEdge.sourceColumns e) /\
            output <> source /\ eligibility = JoinEdge.totalEligibility e).
  { intros H. destruct (Hall edges ∅ H) as [Hnone|]; [by rewrite lookup_empty in Hnone | done]. }
  clear edges. intros l. induction l as [|e l IH]; intros acc; cbn; [auto |]. intros H.
  destruct (IH _ H) as [Hacc|(e' & He' & Hrest)]; [| right; exists e'; split; [by right | done]].
  clear IH H. revert acc Hacc.
  enough (Hin : forall ps acc, ps ⊆ zip (JoinEdge.outputColumns e) (JoinEdge.sourceColumns e) ->
    foldl (fun fresh '(output, source) =>
      if negb (output =? source) then emplace fresh output (JoinEdge.totalEligibility e, source) else fresh)
      acc ps !! output = Some (eligibility, source) ->
    acc !! output = Some (eligibility, source) \/ (output, source) ∈ ps /\ output <> source /\
      eligibility = JoinEdge.totalEligibility e).
  { intros acc H. destruct (Hin _ acc ltac:(done) H) as [|(? & ? & ?)]; [by left | right].
    exists e. split; [by left | done]. }
  intros ps. induction ps as [|[o s] ps IH]; intros acc Hps; cbn; [auto |]. intros H.
  apply IH in H as [H|(Hin & Hrest)]; [| right; split; [by right | done] | intros p Hp; apply Hps; by right].
  destruct (N.eqb_spec o s) as [|Hne]; cbn in H; [by left |]. unfold emplace in H.
  destruct (acc !! o) as [v|] eqn:Eo; [by left |].
  apply lookup_insert_Some in H as [[-> [= <- <-]]|[_ H]]; [| by left]. right.
  split; [by left | done].
Qed.

Lemma foldl_keeps {A S} (P : S -> Prop) (f : S -> A -> S) l s :
  (forall a s, P s -> P (f s a)) -> P s -> P (foldl f s l).
Proof. intros Hf. revert s. induction l as [|a l IH]; intros s Hs; cbn; auto. Qed.

Lemma emplace_is_Some {A} (m : gmap N A) k v c : is_Some (emplace m k v !! c) <-> is_Some (m !! c) \/ c = k.
Proof.
  unfold emplace. destruct (m !! k) as [v'|] eqn:E.
  - split; [auto |]. intros [| ->]; [done | by rewrite E].
  - destruct (decide (c = k)) as [->|Hne]; [rewrite lookup_insert_eq | rewrite lookup_insert_ne by done];
      naive_solver.
Qed.

Lemma freshOutputs_complete edges e output source :
  e ∈ edges -> (output, source) ∈ zip (JoinEdge.outputColumns e) (JoinEdge.sourceColumns e) -> output <> source ->
  is_Some (freshOutputs edges !! output).
Proof.
  unfold freshOutputs. generalize (∅ : Fresh). induction edges as [|e' edges IH]; intros acc He Hp Hne;
    [by apply not_elem_of_nil in He |]. cbn.
  assert (Hinner : forall e ps (a : Fresh), is_Some (a !! output) ->
    is_Some (foldl (fun fresh '(output, source) =>
      if negb (output =? source) then emplace fresh output (JoinEdge.totalEligibility e, source) else fresh)
      a ps !! output)).
  { intros e0 ps a. apply (foldl_keeps (fun a => is_Some (a !! output))). intros [o s] a' Ha.
    destruct (negb _); [| done]. apply emplace_is_Some. by left. }
  apply elem_of_cons in He as [->|He]; [| by apply IH].
  apply (foldl_keeps (fun a => is_Some (a !! output))); [intros e0 a; apply Hinner |].
  clear IH. revert acc Hp. generalize (zip (JoinEdge.outputColumns e') (JoinEdge.sourceColumns e')).
  intros ps. induction ps as [|[o s] ps IH]; intros acc Hp; [by apply not_elem_of_nil in Hp |]. cbn.
  apply elem_of_cons in Hp as [[= <- <-]|Hp]; [| by apply IH].
  apply Hinner. destruct (N.eqb_spec output source); [done |]. cbn. apply emplace_is_Some. by right.
Qed.

(** *** What a conjunct waits for *)

(** A relation that supplies a column of the expression. *)
Definition reads (columnToLeaf : gmap N N) (expression : ExprCP) (i : N) : Prop :=
  exists column, column ∈ BitSet.ids (columns (objectAt g expression)) /\ columnToLeaf !! column = Some i /\ i < 64.

Lemma expressionRelations_spec columnToLeaf expression result :
  expressionRelations g columnToLeaf expression = Ok result ->
  forall i, i ∈ result <-> reads columnToLeaf expression i.
Proof.
  unfold expressionRelations, reads.
  enough (Hall : forall l acc, fold_result (fun result column =>
      match columnToLeaf !! column with
      | Some id => Ok (RelationSet.add result id)
      | None => Throw (VeloxCheck "Expression references a column not produced by any cluster leaf: {}")
      end) l acc = Ok result ->
    forall i, i ∈ result <-> i ∈ acc \/ exists column, column ∈ l /\ columnToLeaf !! column = Some i /\ i < 64).
  { intros H i. rewrite (Hall _ _ H i), RelationSet.elem_of_empty_rs. naive_solver. }
  intros l. induction l as [|c l IH]; intros acc H i; cbn in H.
  - injection H as ->. split; [auto |]. intros [|(c & Hc & _)]; [done | by apply not_elem_of_nil in Hc].
  - destruct (columnToLeaf !! c) as [id|] eqn:Ec; [| done]. cbn in H. rewrite (IH _ H), RelationSet.elem_of_add.
    change width with 64. setoid_rewrite elem_of_cons. naive_solver.
Qed.

Lemma conjunct_loop_spec fresh columnToLeaf l acc relations :
  fold_result (fun relations column =>
    '(relations, source) ← source_chain (S (size fresh)) fresh relations column;
    own ← expressionRelations g columnToLeaf source;
    Ok (RelationSet.unionSet relations own)) l acc = Ok relations ->
  (forall i, i ∈ relations <-> i ∈ acc \/ exists column root n, column ∈ l /\ chain fresh column root n /\
     (chain_needs fresh column i \/ reads columnToLeaf root i)) /\
  forall column, column ∈ l -> exists root n, chain fresh column root n.
Proof.
  revert acc. induction l as [|c l IH]; intros acc H; cbn [fold_result] in H.
  - injection H as ->. split; [| by intros c Hc%not_elem_of_nil].
    intros i. split; [auto |]. intros [|(c & ? & ? & Hc & _)]; [done | by apply not_elem_of_nil in Hc].
  - apply bind_Ok in H as (mid & H1 & H). apply bind_Ok in H1 as ([r root] & Hs & H1).
    apply bind_Ok in H1 as (own & Hown & [= <-]).
    apply source_chain_spec in Hs as (n & _ & Hchain & Hr). destruct (IH _ H) as [Hi Hc]. split.
    + intros i. rewrite Hi, RelationSet.elem_of_unionSet, Hr, (expressionRelations_spec _ _ _ Hown). split.
      * intros [[[Ha|Hn]|Ho]|(c' & root' & n' & Hin & Hrest)].
        -- by left.
        -- right. exists c, root, n. split; [by left | auto].
        -- right. exists c, root, n. split; [by left | auto].
        -- right. exists c', root', n'. split; [by right | done].
      * intros [Ha|(c' & root' & n' & Hin & Hchain' & Hor)]; [auto |].
        apply elem_of_cons in Hin as [->|Hin]; [| right; by exists c', root', n'].
        destruct (chain_deterministic _ _ _ _ _ _ Hchain Hchain') as [-> _]. left. tauto.
    + intros c' [->|Hin]%elem_of_cons; [by exists root, n | by apply Hc].
Qed.

(** C27: a filter conjunct waits for exactly the relations its columns come from: every
    relation the joins on the chain of outputs to its source must have covered, and the
    relation of that source.  In particular it waits for a join that makes each output it
    reads. *)
Theorem conjuncts_wait_for_their_joins edges columnToLeaf predicate relations :
  conjunctRelations g (freshOutputs edges) columnToLeaf predicate = Ok relations ->
  (forall i : N, i ∈ relations <->
     exists (column root : ColumnCP) (n : nat), column ∈ BitSet.ids (columns (objectAt g predicate)) /\
       chain (freshOutputs edges) column root n /\
       (chain_needs (freshOutputs edges) column i \/ reads columnToLeaf root i)) /\
  (forall e output source,
     output ∈ BitSet.ids (columns (objectAt g predicate)) -> e ∈ edges ->
     (output, source) ∈ zip (JoinEdge.outputColumns e) (JoinEdge.sourceColumns e) -> output <> source ->
     exists join source', fresh_output edges output (JoinEdge.totalEligibility join) source' /\
       forall i, i ∈ JoinEdge.totalEligibility join -> i ∈ relations).
Proof.
  set (fresh := freshOutputs edges). intros H.
  assert (Hexact : (forall i : N, i ∈ relations <->
     exists (column root : ColumnCP) (n : nat), column ∈ BitSet.ids (columns (objectAt g predicate)) /\
       chain fresh column root n /\ (chain_needs fresh column i \/ reads columnToLeaf root i)) /\
     forall column : ColumnCP, column ∈ BitSet.ids (columns (objectAt g predicate)) -> exists root n, chain fresh column root n).
  { unfold conjunctRelations in H. apply conjunct_loop_spec in H as [Hi Hc]. split; [| done].
    intros i. rewrite Hi, RelationSet.elem_of_empty_rs. naive_solver. }
  destruct Hexact as [Hexact Hchains]. split; [done |].
  intros e output source Hout He Hp Hne.
  destruct (freshOutputs_complete edges e output source He Hp Hne) as [[elig source'] Hf].
  destruct (freshOutputs_sound _ _ _ _ Hf) as (join & Hj & Hz & Hne' & Helig).
  exists join, source'. split; [by exists join |]. intros i Hi. apply Hexact.
  destruct (Hchains output Hout) as (root & n & Hc). exists output, root, n. split; [done |]. split; [done |].
  left. eapply needs_here; [exact Hf | by rewrite Helig].
Qed.
End Conjuncts.
