(* ===== verification/HypergraphBuilderExamples.v ===== *)
(** * Clusters to build

    A cluster [((a JOIN b) JOIN c) RIGHT JOIN], written the other way round, under an inner
    join on the padded column: the witnesses of [HypergraphBuilderFacts] and
    [HypergraphBuilderColumns] run on it. *)

From S2P Require Import Prelude Word64 RelationSets BitSets EstimateMath QueryGraph Joins AlgebraicProperties Partitionings Nodes Closures Hypergraphs HypergraphBuilders HypergraphFacts HypergraphBuilderFacts HypergraphBuilderColumns.
From Stdlib Require Import Lia.
Open Scope N_scope.
Import HypergraphBuilder.
#[local] Existing Instance BitSet.Velox.primitives.

Module ClusterExample.

(** Columns [a.k], [b.k], [c.k] of one class, [d.k], [e.k]; the padded [d.k] the right join
    outputs, of one class with [e.k]; predicates on [a.k] and on the padded column. *)
Definition column (id : N) (class : option EquivalenceP) : PlanObject :=
  mkPlanObject kColumnExpr (PlanObjectSet.single id) 1 false "column" class [] false None [].
Definition predicate (read : N) : PlanObject :=
  mkPlanObject kCallExpr (PlanObjectSet.single read) 1 false "isnotnull" None [read] false None [].
Definition objects : QueryGraph :=
  mkQueryGraph
    {[ 0 := column 0 (Some 0); 1 := column 1 (Some 0); 2 := column 2 (Some 0); 3 := column 3 None;
       4 := column 4 (Some 1); 5 := column 5 (Some 1); 6 := predicate 0; 7 := predicate 5 ]}
    {[ 0 := [0; 1; 2]; 1 := [4; 5] ]} 2.

Definition scan (column : N) : Node :=
  mkNode kScan false (mkPhysicalProperties (Partitioning.unspecified kGlobal)
    (Partitioning.unspecified kDriver) [] [] []) [] [] [column] [] [].

Definition keys_join (type : JoinType) (l r : N) (outputs : list (N * N)) : JoinNode :=
  mkJoinNode type [l] [r] [] false false None (map fst outputs) (map snd outputs).

Definition leaf (column : N) : ClusterNode := OtherNode (100 + column).
Definition ab : JoinNode := keys_join kInner 0 1 [(0, 0); (1, 1)].
Definition abc : JoinNode := keys_join kInner 1 2 [(0, 0); (1, 1); (2, 2)].
Definition dabc : JoinNode := keys_join kRight 3 2 [(5, 3); (0, 0); (1, 1); (2, 2)].
Definition all : JoinNode := keys_join kInner 5 4 [(5, 5); (0, 0); (4, 4)].
Definition node_ab : ClusterNode := JoinTree 200 ab (leaf 0) (leaf 1).
Definition node_abc : ClusterNode := JoinTree 201 abc (FilterNode 300 node_ab) (leaf 2).
Definition node_dabc : ClusterNode := JoinTree 202 dabc (leaf 3) node_abc.
Definition root : ClusterNode := JoinTree 203 all node_dabc (leaf 4).

Definition cluster : JoinCluster :=
  mkJoinCluster root [100; 101; 102; 103; 104]
    [mkClusterJoin 200 ab (leaf 0) (leaf 1); mkClusterJoin 201 abc (FilterNode 300 node_ab) (leaf 2);
     mkClusterJoin 202 dabc (leaf 3) node_abc; mkClusterJoin 203 all node_dabc (leaf 4)]
    [] BitSet.new [6; 7].

Definition rewritten : list RewrittenLeaf := map (fun c => mkRewrittenLeaf (100 + c) (scan c)) [0; 1; 2; 3; 4].

Definition graph : JoinHypergraph :=
  match build objects (fun _ => Some (Float.of_Z 10)) true cluster rewritten with
  | Ok graph => graph
  | Throw _ => JoinHypergraph.new
  end.

Definition edge_view (e : JoinEdge) : JoinType * list N * list N * list N * list N :=
  (JoinEdge.joinType e, RelationSet.ids (JoinEdge.leftEndpoints e), RelationSet.ids (JoinEdge.rightEndpoints e),
   RelationSet.ids (JoinEdge.leftEligibility e), RelationSet.ids (JoinEdge.rightEligibility e)).

(** The right join is a left join of [c] and [d]; the join with [e] on the padded column
    waits for the whole left join; [a] and [c] are linked by the class; the predicate on the
    padded column waits for the left join. *)
Example graph_edges :
  map edge_view (JoinHypergraph.edges graph) =
  [ (kInner, [0], [1], [0], [1]); (kInner, [1], [2], [1], [2]); (kLeft, [2], [3], [2], [3]);
    (kInner, [3], [4], [0; 1; 2; 3], [4]); (kInner, [0], [2], [0], [2]) ].
Proof. vm_compute. reflexivity. Qed.

Example graph_conjuncts :
  map (fun c => (expr c, RelationSet.ids (conjunct_relations c))) (JoinHypergraph.filterConjuncts graph) =
  [ (Some 6, [0]); (Some 7, [2; 3]) ].
Proof. vm_compute. reflexivity. Qed.

Lemma root_coherent : coherent (cluster_root cluster) (cluster_joins cluster).
Proof.
  intros join Hin node l r Hs. cbn in Hs.
  repeat match goal with
  | H : subnode _ _ |- _ => inversion H; clear H; subst
  end; cbn in Hin; repeat (apply elem_of_cons in Hin as [->|Hin]; [done |]); by apply not_elem_of_nil in Hin.
Qed.

Lemma build_keeps_every_predicate_witness :
  build objects (fun _ => Some (Float.of_Z 10)) true cluster rewritten = Ok graph /\
  graph_ok graph /\ exists e, e ∈ JoinHypergraph.edges graph /\ outer_edge_of dabc e.
Proof.
  assert (Hb : build objects (fun _ => Some (Float.of_Z 10)) true cluster rewritten = Ok graph)
    by (vm_compute; reflexivity).
  destruct (build_keeps_every_predicate objects (fun _ => Some (Float.of_Z 10)) true cluster rewritten graph
              root_coherent Hb) as (Hok & Hjoins & _).
  split; [exact Hb |]. split; [exact Hok |].
  assert (Hin : mkClusterJoin 202 dabc (leaf 3) node_abc ∈ cluster_joins cluster)
    by (cbn; do 2 right; left).
  exact (Hjoins _ Hin).
Defined.

(** The ids of the leaves, and the inputs of the joins. *)
Definition ids : gmap N N := {[ 100 := 0; 101 := 1; 102 := 2; 103 := 3; 104 := 4 ]}.
Definition inputs : gmap N JoinInputs :=
  match populateJoinInputs ids ∅ root (mkWalk ∅ ∅) with Ok (_, walk) => walk_inputs walk | Throw _ => ∅ end.

(** The left join of [c] and [d] leaves [a] and [b] free: the inner join may run above it. *)
Lemma expandTes_exact_witness :
  expandTes (RelationSet.ofBits 12) node_abc (leaf 3) kLeft ids inputs = Ok (RelationSet.ofBits 12) /\
  left_asscommutes kInner kLeft /\ associates kInner kLeft.
Proof.
  assert (H : expandTes (RelationSet.ofBits 12) node_abc (leaf 3) kLeft ids inputs = Ok (RelationSet.ofBits 12))
    by (vm_compute; reflexivity).
  destruct (expandTes_exact (RelationSet.ofBits 12) node_abc (leaf 3) kLeft ids inputs _ H) as (_ & Hfree & _).
  set (child := mkJoinInputs (RelationSet.ofBits 1) (RelationSet.ofBits 2) (RelationSet.ofBits 1)
                  (RelationSet.ofBits 2) kInner).
  assert (Hc : inputs !! 200 = Some child) by (vm_compute; reflexivity).
  assert (Hbelow : below ids node_abc 200).
  { apply below_left; [vm_compute; reflexivity |]. apply below_filter; [vm_compute; reflexivity |].
    apply below_here. vm_compute. reflexivity. }
  assert (H0 : (0 ∈ operand child true) /\ (0 ∉ RelationSet.ofBits 12)) by (split; vm_compute; [reflexivity | discriminate]).
  assert (H1 : (1 ∈ operand child false) /\ (1 ∉ RelationSet.ofBits 12)) by (split; vm_compute; [reflexivity | discriminate]).
  split; [exact H |]. split.
  - exact (proj1 (Hfree true 200 child false 1 Hbelow Hc (proj1 H1) (proj2 H1))).
  - exact (proj1 (Hfree true 200 child true 0 Hbelow Hc (proj1 H0) (proj2 H0))).
Defined.

(** The relations of the columns; the edges of [a JOIN b] and [b JOIN c]. *)
Definition columnToLeaf : gmap N N := {[ 0 := 0; 1 := 1; 2 := 2; 3 := 3; 4 := 4; 5 := 3 ]}.
Definition written : JoinHypergraph :=
  match example_add_edge 1 2 (example_add_edge 0 1
          (example_relation 2 (example_relation 1 (example_relation 0 (Ok JoinHypergraph.new))))) with
  | Ok graph => graph
  | Throw _ => JoinHypergraph.new
  end.
Definition closed : JoinHypergraph :=
  match addTransitiveInnerEdges objects true columnToLeaf written with
  | Ok graph => graph
  | Throw _ => JoinHypergraph.new
  end.

Lemma written_links (e : JoinEdge) l r :
  example_edge l r = Ok e -> e ∈ JoinHypergraph.edges written -> (l <? 3) = true -> (r <? 3) = true ->
  linked objects columnToLeaf (JoinHypergraph.edges written) 0 l r.
Proof.
  intros He Hin Hl Hr. apply JoinEdge_new_is in He as ->. eexists _, (l, r).
  split; [exact Hin |]. split; [done |]. split; [by left |].
  apply N.ltb_lt in Hl, Hr.
  assert (Hls : l = 0 \/ l = 1 \/ l = 2) by lia. assert (Hrs : r = 0 \/ r = 1 \/ r = 2) by lia.
  destruct Hls as [->|[->| ->]], Hrs as [->|[->| ->]];
    (split; [split; [done |]; split; [done |]; by exists 0 | done | done | done]).
Qed.

Lemma addTransitiveInnerEdges_closes_classes_witness :
  addTransitiveInnerEdges objects true columnToLeaf written = Ok closed /\
  length (JoinHypergraph.edges written) = 2%nat /\
  (linked objects columnToLeaf (JoinHypergraph.edges closed) 0 0 2 \/
   linked objects columnToLeaf (JoinHypergraph.edges closed) 0 2 0).
Proof.
  assert (H : addTransitiveInnerEdges objects true columnToLeaf written = Ok closed) by (vm_compute; reflexivity).
  destruct (addTransitiveInnerEdges_closes_classes objects true columnToLeaf written closed H)
    as (derived & _ & Hclosed & _).
  split; [exact H |]. split; [vm_compute; reflexivity |]. apply Hclosed; [| | discriminate].
  - exists 1. left. eapply (written_links _ 0 1); [vm_compute; reflexivity | | reflexivity | reflexivity].
    vm_compute. left.
  - exists 1. right. eapply (written_links _ 1 2); [vm_compute; reflexivity | | reflexivity | reflexivity].
    vm_compute. right. left.
Defined.

Lemma conjuncts_wait_for_their_joins_witness :
  conjunctRelations objects (freshOutputs (JoinHypergraph.edges graph)) columnToLeaf 7 = Ok (RelationSet.ofBits 12) /\
  exists join source, fresh_output (JoinHypergraph.edges graph) 5 (JoinEdge.totalEligibility join) source.
Proof.
  assert (H : conjunctRelations objects (freshOutputs (JoinHypergraph.edges graph)) columnToLeaf 7 =
              Ok (RelationSet.ofBits 12)) by (vm_compute; reflexivity).
  destruct (conjuncts_wait_for_their_joins objects (JoinHypergraph.edges graph) columnToLeaf 7 _ H) as [_ Hwaits].
  split; [exact H |].
  destruct (nth_error (JoinHypergraph.edges graph) 2) as [e|] eqn:E; [| vm_compute in E; discriminate].
  destruct (Hwaits e 5 3) as (join & source & Hj & _).
  - vm_compute. left.
  - apply nth_error_In in E. by apply list_elem_of_In.
  - vm_compute in E. injection E as <-. vm_compute. left.
  - discriminate.
  - exists join, source. exact Hj.
Defined.
End ClusterExample.
