(* ===== verification/Memo.v ===== *)
(** * The memo: subplans and the non-dominated sets kept per cover

    Models [axiom/optimizer/v2/MemoOp.{h,cpp}] (the choices recorded for one
    subplan) and [v2/PlanSet.{h,cpp}] (the plans kept for a set of relations,
    non-dominated on global partitioning).  Memo entries are immutable once
    costed, so a [MemoOpCP] is the tree it points to.  [CostModel] is the
    abstract interface of [v2/CostModel.h] for the one hypergraph being planned;
    the enumeration is proved correct against the interface. *)

From S2P Require Import Prelude Word64 RelationSets BitSets EstimateMath FloatSums QueryGraph Joins.
From S2P Require Import Partitionings.
From Stdlib Require Import Lia.
Set Warnings "-clear-no-such-hyp".
Open Scope N_scope.

(** ** [MemoOp] *)

Inductive MemoOpKind := kLeafOp | kJoinOp | kUnnestOp | kExchangeOp.

Inductive MemoOp :=
  | LeafOp (cost : Cost) (relationId : N) (partitioning : Partitioning)
  | JoinOp (cost : Cost) (left right : MemoOp) (edgeIndex : nat) (joinType : JoinType)
      (reversedAnti : bool) (keyEdges filterEdges : list nat) (partitioning : Partitioning)
  | UnnestOp (cost : Cost) (input : MemoOp) (edgeIndex : nat) (unnestRelation : RelationSet)
      (filterEdges : list nat)
  | ExchangeOp (cost : Cost) (input : MemoOp) (partitioning : Partitioning).

Abbreviation MemoOpCP := MemoOp (only parsing).

Module MemoOp.

Definition kind (op : MemoOp) : MemoOpKind :=
  match op with
  | LeafOp _ _ _ => kLeafOp
  | JoinOp _ _ _ _ _ _ _ _ _ => kJoinOp
  | UnnestOp _ _ _ _ _ => kUnnestOp
  | ExchangeOp _ _ _ => kExchangeOp
  end.

Definition cost (op : MemoOp) : Cost :=
  match op with
  | LeafOp c _ _ | JoinOp c _ _ _ _ _ _ _ _ | UnnestOp c _ _ _ _ | ExchangeOp c _ _ => c
  end.

(** [op->cost = c] *)
Definition set_cost (op : MemoOp) (c : Cost) : MemoOp :=
  match op with
  | LeafOp _ id p => LeafOp c id p
  | JoinOp _ l r e t ra ks fs p => JoinOp c l r e t ra ks fs p
  | UnnestOp _ i e u fs => UnnestOp c i e u fs
  | ExchangeOp _ i p => ExchangeOp c i p
  end.

(** [cover()]: [combinedCover], [expandedCover] of the constructors. *)
Fixpoint cover (op : MemoOp) : RelationSet :=
  match op with
  | LeafOp _ id _ => RelationSet.singleton id
  | JoinOp _ l r _ _ _ _ _ _ => RelationSet.unionSet (cover l) (cover r)
  | UnnestOp _ input _ unnestRelation _ => RelationSet.unionSet (cover input) unnestRelation
  | ExchangeOp _ input _ => cover input
  end.

(** An Unnest expands rows within a task: its input's partitioning survives. *)
Fixpoint outputPartitioning (op : MemoOp) : Partitioning :=
  match op with
  | LeafOp _ _ p | JoinOp _ _ _ _ _ _ _ _ p | ExchangeOp _ _ p => p
  | UnnestOp _ input _ _ _ => outputPartitioning input
  end.

Definition emittedJoinType (joinType : JoinType) (reversedAnti : bool) : Result JoinType :=
  if negb reversedAnti then Ok joinType
  else velox_check (bool_decide (joinType = kAnti)) "joinType, velox::core::JoinType::kAnti"
         ≫= fun _ => Ok kRightSemiProject.

End MemoOp.

(** ** Cost models *)

(** [CostModel]: the virtual methods, and [coveredRowBytes] of [CostModel.cpp],
    each for the hypergraph being planned. *)
Class CostModel := {
  cost_of : MemoOp -> Cost;                       (* cost *)
  shuffleCost : MemoOp -> option float;
  broadcastCost : MemoOp -> Z -> option float;    (* by number of tasks *)
  coveredRowBytes : RelationSet -> float;
}.

(** [broadcastSizeIfFits(cardinality, rowBytes, limitBytes)] *)
Definition broadcastSizeIfFits (cardinality : option float) (rowBytes : float) (limitBytes : Z)
    : option float :=
  match cardinality with
  | None => None
  | Some cardinality =>
      if Z.leb limitBytes 0 then None
      else
        let size := Float.mul cardinality (std_max (Float.of_Z 1) rowBytes) in
        if Float.ltb (Float.of_Z limitBytes) size then None else Some size
  end.

(** [broadcastSizeIfFits(op, graph, limitBytes)] *)
Definition broadcastSizeIfFits_op {CM : CostModel} (op : MemoOp) (limitBytes : Z) : option float :=
  broadcastSizeIfFits (EstimateMath.cardinality (MemoOp.cost op)) (coveredRowBytes (MemoOp.cover op)) limitBytes.

(** The shuffle prices of [DefaultCostModel], from the row widths of the covers. *)
Module DefaultCostModel.
Section DefaultCostModel.
Context (coveredRowBytes : RelationSet -> float).

(** [Costs::kByteShuffleCost], 0.3. *)
Definition kByteShuffleCost : float := SpecFloat.S754_finite false 10066330 (-25).

Definition shuffleCost (op : MemoOp) : option float :=
  EstimateMath.mul (EstimateMath.cardinality (MemoOp.cost op))
    (Some (Float.mul (coveredRowBytes (MemoOp.cover op)) kByteShuffleCost)).

Definition broadcastCost (op : MemoOp) (numWorkers : Z) : option float :=
  EstimateMath.mul (shuffleCost op) (Some (Float.of_Z numWorkers)).
End DefaultCostModel.
End DefaultCostModel.

(** The numbers of the enumerators of [velox::core::JoinType]. *)
Class VeloxEnums := {
  joinType_int : JoinType -> N;
}.

(** ** Tie keys *)

Definition TieKey : Type := N * N * N * N * N.

Definition tie_ltb (a b : TieKey) : bool :=
  let '(a1, a2, a3, a4, a5) := a in
  let '(b1, b2, b3, b4, b5) := b in
  (a1 <? b1) || ((a1 =? b1) && ((a2 <? b2) || ((a2 =? b2) && ((a3 <? b3) || ((a3 =? b3) &&
  ((a4 <? b4) || ((a4 =? b4) && (a5 <? b5)))))))).

(** [a <= b] on tuples is [!(b < a)]. *)
Definition tie_leb (a b : TieKey) : bool := negb (tie_ltb b a).

Definition kind_int (k : PartitionKind) : N :=
  match k with kUnspecified => 0 | kPartitioned => 1 | kGather => 2 | kBroadcast => 3 | kArbitrary => 4 end.

Definition bool_int (b : bool) : N := if b then 1 else 0.

Definition tieKey {VE : VeloxEnums} (op : MemoOp) : TieKey :=
  match op with
  | JoinOp _ l r edgeIndex joinType reversedAnti _ _ _ =>
      (RelationSet.bits (MemoOp.cover l), RelationSet.bits (MemoOp.cover r),
       N.of_nat edgeIndex, joinType_int joinType, bool_int reversedAnti)
  | UnnestOp _ input edgeIndex _ _ =>
      (RelationSet.bits (MemoOp.cover input), 0, N.of_nat edgeIndex, 0, 2)
  | ExchangeOp _ input partitioning =>
      (RelationSet.bits (MemoOp.cover input), 0, N.of_nat (length (keys partitioning)),
       kind_int (kind partitioning), 1)
  | LeafOp _ relationId _ => (relationId, 0, 0, 0, 0)
  end.

(** ** [PlanSet] *)

(** [RequiredProperties]: [None] accepts any partitioning. *)
Record RequiredProperties := mkRequired { required_partition : option Partitioning }.

Definition PlanSet : Type := list MemoOp.

Module PlanSet.

Record Selection := mkSelection { plan : option MemoOp; selection_cost : Cost }.
Record PartitioningAlternatives := mkAlternatives {
  connectorBucketed : list MemoOp;
  standardHash : list MemoOp;
}.

Section Operations.
Context {VB : VeloxBits} {CM : CostModel} {VE : VeloxEnums}.

(** [*op->cost.cost]: read only where it has a value. *)
Definition known_cost (op : MemoOp) : float := default Float.zero (EstimateMath.cost (MemoOp.cost op)).

Definition costAsPartitioning (op : MemoOp) (target : Partitioning) : option float :=
  let base := known_cost op in
  if Partitioning.sameClassAs (MemoOp.outputPartitioning op) target then Some base
  else match shuffleCost op with
       | None => None
       | Some shuffle => Some (Float.add base shuffle)
       end.

(** [existing] makes [candidate] redundant. *)
Definition drops_candidate (candidate existing : MemoOp) : bool :=
  match costAsPartitioning existing (MemoOp.outputPartitioning candidate) with
  | None => false
  | Some asCandidate =>
      Float.ltb asCandidate (known_cost candidate) ||
      (Float.eqb asCandidate (known_cost candidate) && tie_leb (tieKey existing) (tieKey candidate))
  end.

(** [candidate] makes [existing] redundant. *)
Definition drops_existing (candidate existing : MemoOp) : bool :=
  match costAsPartitioning candidate (MemoOp.outputPartitioning existing) with
  | None => false
  | Some asExisting =>
      Float.ltb asExisting (known_cost existing) ||
      (Float.eqb asExisting (known_cost existing) && tie_ltb (tieKey candidate) (tieKey existing))
  end.

Definition addPlan (candidate : MemoOp) (plans : PlanSet) : PlanSet :=
  match EstimateMath.cost (MemoOp.cost candidate) with
  | None => plans ++ [candidate]
  | Some _ =>
      if existsb (drops_candidate candidate) plans then plans
      else List.filter (fun existing => negb (drops_existing candidate existing)) plans ++ [candidate]
  end.

(** The effective cost of a plan under a requirement. *)
Definition effective (required : RequiredProperties) (plan : MemoOp) : option float :=
  let with_shuffle :=
    match EstimateMath.cost (MemoOp.cost plan), shuffleCost plan with
    | Some c, Some shuffle => Some (Float.add c shuffle)
    | _, _ => None
    end in
  match required_partition required with
  | None => EstimateMath.cost (MemoOp.cost plan)
  | Some target =>
      if Partitioning.sameClassAs (MemoOp.outputPartitioning plan) target
      then EstimateMath.cost (MemoOp.cost plan) else with_shuffle
  end.

(** The scan [best] and [cheapest] share: the least effective cost, ties by key. *)
Definition select_step (value : MemoOp -> option float) (best : option (MemoOp * float))
    (plan : MemoOp) : option (MemoOp * float) :=
  match value plan with
  | None => best
  | Some cost =>
      match best with
      | None => Some (plan, cost)
      | Some (bestPlan, bestCost) =>
          if Float.ltb cost bestCost ||
             (Float.eqb cost bestCost && tie_ltb (tieKey plan) (tieKey bestPlan))
          then Some (plan, cost) else best
      end
  end.
Definition select (value : MemoOp -> option float) (plans : PlanSet) : option (MemoOp * float) :=
  foldl (select_step value) None plans.

Definition best (required : RequiredProperties) (plans : PlanSet) : Selection :=
  match select (effective required) plans with
  | None => mkSelection None no_cost
  | Some (plan, cost) => mkSelection (Some plan) (mkCost (Some cost) (EstimateMath.cardinality (MemoOp.cost plan)))
  end.

Definition cheapest (plans : PlanSet) : option MemoOp :=
  match plans with
  | [plan] => Some plan
  | _ =>
      match select (fun plan => EstimateMath.cost (MemoOp.cost plan)) plans with
      | Some (plan, _) => Some plan
      | None => head plans
      end
  end.

Definition reusable (keys : list ExprCP) (plan : MemoOp) : bool :=
  let partitioning := MemoOp.outputPartitioning plan in
  negb (bool_decide (EstimateMath.cost (MemoOp.cost plan) = None) ||
        negb (Partitioning.is_ partitioning kPartitioned) ||
        replicateNullsAndAny partitioning || negb (Partitioning.coLocates partitioning keys)).

Definition partitioningsOnSubsets (keys : list ExprCP) (plans : PlanSet) : PartitioningAlternatives :=
  foldl (fun result plan =>
      if negb (reusable keys plan) then result
      else match partitionType (MemoOp.outputPartitioning plan) with
           | Some _ => mkAlternatives (connectorBucketed result ++ [plan]) (standardHash result)
           | None => mkAlternatives (connectorBucketed result) (standardHash result ++ [plan])
           end)
    (mkAlternatives [] []) plans.

Definition cardinality (plans : PlanSet) : option float :=
  match plans with
  | [] => None
  | plan :: _ => EstimateMath.cardinality (MemoOp.cost plan)
  end.
End Operations.
End PlanSet.

(** ** Ranking: cost first, tie key second *)

Lemma tie_ltb_irrefl a : tie_ltb a a = false.
Proof.
  destruct a as [[[[a1 a2] a3] a4] a5]. unfold tie_ltb. by rewrite !N.ltb_irrefl, !N.eqb_refl.
Qed.

Lemma tie_ltb_spec a b :
  tie_ltb a b = true <->
  let '(a1, a2, a3, a4, a5) := a in
  let '(b1, b2, b3, b4, b5) := b in
  a1 < b1 \/ (a1 = b1 /\ (a2 < b2 \/ (a2 = b2 /\ (a3 < b3 \/ (a3 = b3 /\
    (a4 < b4 \/ (a4 = b4 /\ a5 < b5))))))).
Proof.
  destruct a as [[[[a1 a2] a3] a4] a5], b as [[[[b1 b2] b3] b4] b5]. unfold tie_ltb.
  by rewrite !orb_true_iff, !andb_true_iff, !orb_true_iff, !andb_true_iff, !orb_true_iff,
    !andb_true_iff, !orb_true_iff, !andb_true_iff, !N.ltb_lt, !N.eqb_eq.
Qed.

Lemma tie_ltb_trans a b c : tie_ltb a b = true -> tie_ltb b c = true -> tie_ltb a c = true.
Proof.
  rewrite !tie_ltb_spec. destruct a as [[[[a1 a2] a3] a4] a5], b as [[[[b1 b2] b3] b4] b5],
    c as [[[[c1 c2] c3] c4] c5]. lia.
Qed.

Lemma tie_ltb_total a b : tie_ltb a b = true \/ a = b \/ tie_ltb b a = true.
Proof.
  rewrite !tie_ltb_spec. destruct a as [[[[a1 a2] a3] a4] a5], b as [[[[b1 b2] b3] b4] b5]. cbn beta iota.
  destruct (N.lt_trichotomy a1 b1) as [?|[->|?]]; [left; lia |  | right; right; lia].
  destruct (N.lt_trichotomy a2 b2) as [?|[->|?]]; [left; lia |  | right; right; lia].
  destruct (N.lt_trichotomy a3 b3) as [?|[->|?]]; [left; lia |  | right; right; lia].
  destruct (N.lt_trichotomy a4 b4) as [?|[->|?]]; [left; lia |  | right; right; lia].
  destruct (N.lt_trichotomy a5 b5) as [?|[->|?]]; [left; lia | by right; left | right; right; lia].
Qed.

Section Ranking.
Implicit Types (a b c : float) (k : TieKey).

Definition number (a : float) : Prop := Float.is_nan a = false.

(** [a <= b] *)
Definition le_cost (a b : float) : Prop := Float.ltb b a = false.

Lemma le_cost_key a b : number a -> number b -> le_cost a b <-> ~ Float.key_lt (Float.key b) (Float.key a).
Proof. intros Ha Hb. by apply Float.ltb_false_key. Qed.

Lemma le_cost_refl a : number a -> le_cost a a.
Proof. intros Ha. apply le_cost_key; [done | done |]. apply Float.key_lt_irrefl. Qed.

Lemma le_cost_trans a b c : number a -> number b -> number c ->
  le_cost a b -> le_cost b c -> le_cost a c.
Proof.
  intros Ha Hb Hc. rewrite !le_cost_key by done. intros H1 H2 H3.
  destruct (Float.key_lt_total (Float.key b) (Float.key c)) as [H|[H|H]].
  - apply H1. by eapply Float.key_lt_trans.
  - apply H1. by rewrite H.
  - done.
Qed.

(** The comparison of [best], [cheapest] and [addPlan]. *)
Definition beats (a : float) (ka : TieKey) (b : float) (kb : TieKey) : bool :=
  Float.ltb a b || (Float.eqb a b && tie_ltb ka kb).

Lemma beats_spec a ka b kb : number a -> number b ->
  beats a ka b kb = true <->
  Float.key_lt (Float.key a) (Float.key b) \/ (Float.key a = Float.key b /\ tie_ltb ka kb = true).
Proof.
  intros Ha Hb. unfold beats.
  by rewrite orb_true_iff, andb_true_iff, Float.ltb_key, Float.eqb_key.
Qed.

Lemma beats_irrefl a k : number a -> beats a k a k = false.
Proof.
  intros Ha. apply not_true_iff_false. rewrite beats_spec by done.
  intros [H|[_ H]]; [by eapply Float.key_lt_irrefl | by rewrite tie_ltb_irrefl in H].
Qed.

(** Not being beaten is transitive. *)
Lemma beats_negtrans a ka b kb c kc : number a -> number b -> number c ->
  beats a ka b kb = false -> beats b kb c kc = false -> beats a ka c kc = false.
Proof.
  intros Ha Hb Hc. rewrite <- !not_true_iff_false, !beats_spec by done. intros H1 H2 H3.
  destruct (Float.key_lt_total (Float.key a) (Float.key b)) as [H|[H|H]]; [tauto | |].
  - destruct (tie_ltb_total ka kb) as [Hk|[->|Hk]]; [tauto | |].
    + rewrite H in H3. tauto.
    + rewrite H in H3. destruct H3 as [?|[? H3]]; [tauto |].
      pose proof (tie_ltb_trans _ _ _ Hk H3). tauto.
  - apply H2. left. destruct H3 as [H3|[H3 _]]; [by eapply Float.key_lt_trans | by rewrite <- H3].
Qed.

Lemma beats_total a ka b kb : number a -> number b -> ka <> kb ->
  beats a ka b kb = true \/ beats b kb a ka = true.
Proof.
  intros Ha Hb Hk. rewrite !beats_spec by done.
  destruct (Float.key_lt_total (Float.key a) (Float.key b)) as [H|[H|H]]; [auto | | auto].
  destruct (tie_ltb_total ka kb) as [Ht|[Ht|Ht]]; [auto | done | auto].
Qed.

Lemma beats_asym a ka b kb : number a -> number b -> beats a ka b kb = true -> beats b kb a ka = false.
Proof.
  intros Ha Hb H. apply not_true_iff_false. rewrite beats_spec in H |- * by done. intros H'.
  destruct H as [H|[E H]], H' as [H'|[E' H']].
  - eapply Float.key_lt_irrefl, Float.key_lt_trans; eauto.
  - rewrite E' in H. by eapply Float.key_lt_irrefl.
  - rewrite E in H'. by eapply Float.key_lt_irrefl.
  - pose proof (tie_ltb_trans _ _ _ H H') as Ht. by rewrite tie_ltb_irrefl in Ht.
Qed.
End Ranking.

Lemma sameClassAs_spec p q :
  Partitioning.sameClassAs p q = true <->
  kind p = kind q /\ partitionType p = partitionType q /\
  replicateNullsAndAny p = replicateNullsAndAny q /\ keys p = keys q.
Proof.
  unfold Partitioning.sameClassAs. rewrite !andb_true_iff, !bool_decide_eq_true. tauto.
Qed.

Lemma sameClassAs_refl p : Partitioning.sameClassAs p p = true.
Proof. by apply sameClassAs_spec. Qed.

(** [sameClassAs] is an equivalence, so a class is as good as any of its members. *)
Lemma sameClassAs_trans p q r : Partitioning.sameClassAs p q = true ->
  Partitioning.sameClassAs p r = Partitioning.sameClassAs q r.
Proof.
  rewrite sameClassAs_spec. intros (Hk & Ht & Hr & Hks). apply eq_true_iff_eq.
  rewrite !sameClassAs_spec. by rewrite Hk, Ht, Hr, Hks.
Qed.

(** ** Selection *)

Section PlanSetTheory.
Context {VB : VeloxBits} {CM : CostModel} {VE : VeloxEnums}.

(** The value of a plan, when known, is a number. *)
Definition values_ok (value : MemoOp -> option float) (plans : PlanSet) : Prop :=
  forall p c, p ∈ plans -> value p = Some c -> number c.

(** [best] is as good as every plan that has a value. *)
Definition selected (value : MemoOp -> option float) (plans : PlanSet)
    (best : option (MemoOp * float)) : Prop :=
  match best with
  | Some (p, c) => p ∈ plans /\ value p = Some c /\
      forall q c', q ∈ plans -> value q = Some c' -> beats c' (tieKey q) c (tieKey p) = false
  | None => forall q, q ∈ plans -> value q = None
  end.

Lemma select_fold value seen plans acc :
  values_ok value (seen ++ plans) -> selected value seen acc ->
  selected value (seen ++ plans) (foldl (PlanSet.select_step value) acc plans).
Proof.
  revert seen acc. induction plans as [|p plans IH]; intros seen acc Hok Hacc; cbn [foldl].
  { by rewrite app_nil_r. }
  replace (seen ++ p :: plans) with ((seen ++ [p]) ++ plans) in * by by rewrite <- app_assoc.
  apply IH; [done |].
  assert (Hp : p ∈ (seen ++ [p]) ++ plans) by set_solver.
  assert (Hseen : forall q, q ∈ seen -> q ∈ (seen ++ [p]) ++ plans) by set_solver.
  unfold PlanSet.select_step, selected in *. destruct (value p) as [c|] eqn:Ec.
  - pose proof (Hok p c Hp Ec) as Hc. destruct acc as [[b cb]|].
    + destruct Hacc as (Hb & Eb & Hmin). pose proof (Hok b cb (Hseen _ Hb) Eb) as Hcb.
      fold (beats c (tieKey p) cb (tieKey b)). destruct (beats c (tieKey p) cb (tieKey b)) eqn:E.
      * split_conj; [set_solver | done |].
        intros q c' [Hq| ->%list_elem_of_singleton]%elem_of_app Eq.
        -- eapply beats_negtrans; [by eapply Hok; [apply Hseen |] | exact Hcb | done | by apply Hmin |].
           by apply beats_asym.
        -- simplify_eq. by apply beats_irrefl.
      * split_conj; [set_solver | done |].
        intros q c' [Hq| ->%list_elem_of_singleton]%elem_of_app Eq; [by apply Hmin | by simplify_eq].
    + split_conj; [set_solver | done |].
      intros q c' [Hq| ->%list_elem_of_singleton]%elem_of_app Eq; [by rewrite Hacc in Eq |].
      simplify_eq. by apply beats_irrefl.
  - destruct acc as [[b cb]|].
    + destruct Hacc as (Hb & Eb & Hmin). split_conj; [set_solver | done |].
      intros q c' [Hq| ->%list_elem_of_singleton]%elem_of_app Eq; [by apply Hmin | congruence].
    + intros q [Hq| ->%list_elem_of_singleton]%elem_of_app; auto.
Qed.

Lemma select_spec value plans :
  values_ok value plans -> selected value plans (PlanSet.select value plans).
Proof.
  intros H. apply (select_fold value [] plans None); [done |]. by intros q ?%not_elem_of_nil.
Qed.

Lemma select_fold_elem value plans acc p c :
  foldl (PlanSet.select_step value) acc plans = Some (p, c) -> acc = Some (p, c) \/ p ∈ plans.
Proof.
  revert acc. induction plans as [|q plans IH]; intros acc; cbn [foldl]; [auto |].
  intros [H|H]%IH; [| right; by right]. unfold PlanSet.select_step in H.
  destruct (value q) as [x|]; [| auto]. destruct acc as [[b cb]|].
  - destruct (_ || _); [| auto]. injection H as -> ->. right. left.
  - injection H as -> ->. right. left.
Qed.

(** The plans the set hands out are its own. *)
Lemma best_elem required plans p : PlanSet.plan (PlanSet.best required plans) = Some p -> p ∈ plans.
Proof.
  unfold PlanSet.best, PlanSet.select.
  destruct (foldl _ _ plans) as [[q c]|] eqn:E; cbn; [| done]. intros [= <-].
  by apply select_fold_elem in E as [?|?].
Qed.

Lemma cheapest_elem plans p : PlanSet.cheapest plans = Some p -> p ∈ plans.
Proof.
  unfold PlanSet.cheapest, PlanSet.select. destruct plans as [|q [|q' plans]]; [done | |].
  - intros [= ->]. left.
  - destruct (foldl _ _ (q :: q' :: plans)) as [[r c]|] eqn:E.
    + intros [= <-]. by apply select_fold_elem in E as [?|?].
    + intros [= ->]. left.
Qed.

Lemma elem_of_addPlan c plans p : p ∈ PlanSet.addPlan c plans -> p ∈ plans \/ p = c.
Proof.
  unfold PlanSet.addPlan. destruct (EstimateMath.cost _); [destruct (existsb _ _); [auto |] |];
    rewrite elem_of_app, list_elem_of_singleton; [| auto].
  rewrite list_elem_of_In, filter_In, <- list_elem_of_In. tauto.
Qed.

Lemma addPlan_nonempty c plans : PlanSet.addPlan c plans <> [].
Proof.
  unfold PlanSet.addPlan. destruct (EstimateMath.cost _); [destruct (existsb _ plans) eqn:E |];
    [by intros -> | by intros [_ ?]%app_nil | by intros [_ ?]%app_nil].
Qed.

Lemma partitioningsOnSubsets_elem keys plans p :
  p ∈ PlanSet.connectorBucketed (PlanSet.partitioningsOnSubsets keys plans) \/
  p ∈ PlanSet.standardHash (PlanSet.partitioningsOnSubsets keys plans) ->
  p ∈ plans /\ PlanSet.reusable keys p = true.
Proof.
  unfold PlanSet.partitioningsOnSubsets.
  enough (H : forall acc, p ∈ PlanSet.connectorBucketed (foldl (fun result plan =>
      if negb (PlanSet.reusable keys plan) then result
      else match partitionType (MemoOp.outputPartitioning plan) with
           | Some _ => PlanSet.mkAlternatives (PlanSet.connectorBucketed result ++ [plan]) (PlanSet.standardHash result)
           | None => PlanSet.mkAlternatives (PlanSet.connectorBucketed result) (PlanSet.standardHash result ++ [plan])
           end) acc plans) \/ p ∈ PlanSet.standardHash (foldl (fun result plan =>
      if negb (PlanSet.reusable keys plan) then result
      else match partitionType (MemoOp.outputPartitioning plan) with
           | Some _ => PlanSet.mkAlternatives (PlanSet.connectorBucketed result ++ [plan]) (PlanSet.standardHash result)
           | None => PlanSet.mkAlternatives (PlanSet.connectorBucketed result) (PlanSet.standardHash result ++ [plan])
           end) acc plans) ->
    (p ∈ PlanSet.connectorBucketed acc \/ p ∈ PlanSet.standardHash acc) \/
    (p ∈ plans /\ PlanSet.reusable keys p = true)).
  { intros [[?%not_elem_of_nil|?%not_elem_of_nil]|?]%H; done. }
  induction plans as [|q plans IH]; intros acc; cbn [foldl]; [auto |].
  intros [H|[H ?]]%IH; [| right; split; [by right | done]].
  destruct (PlanSet.reusable keys q) eqn:Er; cbn [negb] in H; [| auto].
  destruct (partitionType _); cbn in H; rewrite elem_of_app, list_elem_of_singleton in H;
    (destruct H as [H|H]; try destruct H as [H| ->]); auto; right; (split; [left | done]).
Qed.

(** [PlanSet::best] selects a plan of the set whose cost, with the shuffle to
    meet the requirement folded in, no other plan undercuts, equal costs going
    to the smaller tie key; it has no plan only when no plan of the set can be
    ranked, and the cost it reports is that effective cost. *)
Theorem best_minimises_effective_cost (required : RequiredProperties) (plans : PlanSet)
    (Hok : values_ok (PlanSet.effective required) plans) :
  let selection := PlanSet.best required plans in
  match PlanSet.plan selection with
  | Some p =>
      p ∈ plans /\
      exists c, PlanSet.effective required p = Some c /\
        PlanSet.selection_cost selection = mkCost (Some c) (EstimateMath.cardinality (MemoOp.cost p)) /\
        forall q c', q ∈ plans -> PlanSet.effective required q = Some c' ->
          le_cost c c' /\ (Float.eqb c' c = true -> tie_ltb (tieKey q) (tieKey p) = false)
  | None => forall q, q ∈ plans -> PlanSet.effective required q = None
  end.
Proof.
  cbn zeta. unfold PlanSet.best. pose proof (select_spec _ plans Hok) as H.
  destruct (PlanSet.select _ plans) as [[p c]|]; cbn; [| done].
  destruct H as (Hp & Ec & Hmin). split; [done |]. exists c. split_conj; [done | done |].
  intros q c' Hq Eq. specialize (Hmin q c' Hq Eq). unfold beats in Hmin.
  apply orb_false_iff in Hmin as [Hlt Hk]. split; [done |]. intros Heq. by rewrite Heq in Hk.
Qed.

(** ** Non-domination *)

Definition plan_ok (p : MemoOp) : Prop :=
  exists c, EstimateMath.cost (MemoOp.cost p) = Some c /\ number c.

Lemma known_cost_ok p : plan_ok p -> number (PlanSet.known_cost p).
Proof. intros (c & Ec & Hc). unfold PlanSet.known_cost. by rewrite Ec. Qed.

(** A plan with an estimate of its rows, if any, that is a number and not negative. *)
Definition rows_ok (p : MemoOp) : Prop :=
  forall n, EstimateMath.cardinality (MemoOp.cost p) = Some n -> nonneg_finite n.

(** A plan whose cost is known, too, and not negative. *)
Definition plan_priced (p : MemoOp) : Prop :=
  (exists c, EstimateMath.cost (MemoOp.cost p) = Some c /\ nonneg c) /\ rows_ok p.

Lemma priced_ok p : plan_priced p -> plan_ok p.
Proof. intros [(c & Ec & Hc) _]. exists c. split; [done | by apply nonneg_number]. Qed.

Lemma known_cost_priced p : plan_priced p -> nonneg (PlanSet.known_cost p).
Proof. intros [(c & Ec & Hc) _]. unfold PlanSet.known_cost. by rewrite Ec. Qed.

(** What planning relies on from a cost model: the shuffle of a plan has a price by what it
    ships, the rows of its cover, and the price is not negative. *)
Class ShuffleLaws := {
  shuffle_of_rows : forall p q, MemoOp.cover p = MemoOp.cover q ->
    EstimateMath.cardinality (MemoOp.cost p) = EstimateMath.cardinality (MemoOp.cost q) -> shuffleCost p = shuffleCost q;
  shuffle_nonneg : forall p s, rows_ok p -> shuffleCost p = Some s -> nonneg s;
}.

(** No plan of the set makes another one redundant. *)
Definition non_dominated (plans : PlanSet) : Prop :=
  forall i j p q, i <> j -> plans !! i = Some p -> plans !! j = Some q ->
    PlanSet.drops_existing p q = false.

Lemma drops_existing_candidate p q :
  PlanSet.drops_existing p q = true -> PlanSet.drops_candidate q p = true.
Proof.
  unfold PlanSet.drops_existing, PlanSet.drops_candidate.
  destruct (PlanSet.costAsPartitioning p _) as [c|]; [| done].
  rewrite !orb_true_iff, !andb_true_iff. intros [?|[? Hk]]; [auto | right].
  split; [done |]. unfold tie_leb. apply negb_true_iff.
  destruct (tie_ltb (tieKey q) (tieKey p)) eqn:E; [| done].
  pose proof (tie_ltb_trans _ _ _ Hk E) as Hkk. by rewrite tie_ltb_irrefl in Hkk.
Qed.

Lemma addPlan_spec c plans : plan_ok c ->
  PlanSet.addPlan c plans =
    if existsb (PlanSet.drops_candidate c) plans then plans
    else List.filter (fun e => negb (PlanSet.drops_existing c e)) plans ++ [c].
Proof. intros (x & Ec & _). unfold PlanSet.addPlan. by rewrite Ec. Qed.

Lemma filter_lookup_pair {A} (f : A -> bool) (l : list A) i j x y :
  i <> j -> List.filter f l !! i = Some x -> List.filter f l !! j = Some y ->
  exists i' j', i' <> j' /\ l !! i' = Some x /\ l !! j' = Some y /\ f x = true /\ f y = true.
Proof.
  revert i j. induction l as [|z l IH]; intros i j Hij Hx Hy; cbn in *; [done |].
  destruct (f z) eqn:Ez.
  - destruct i as [|i], j as [|j]; cbn in *; try done.
    + injection Hx as <-. assert (Hf : y ∈ List.filter f l) by (by eapply list_elem_of_lookup_2).
      apply list_elem_of_In, filter_In in Hf as [Hin Hf].
      apply list_elem_of_In, list_elem_of_lookup in Hin as [j' Hj'].
      exists 0%nat, (S j'). auto.
    + injection Hy as <-. assert (Hf : x ∈ List.filter f l) by (by eapply list_elem_of_lookup_2).
      apply list_elem_of_In, filter_In in Hf as [Hin Hf].
      apply list_elem_of_In, list_elem_of_lookup in Hin as [i' Hi'].
      exists (S i'), 0%nat. auto.
    + destruct (IH i j ltac:(congruence) Hx Hy) as (i' & j' & ? & ? & ? & ? & ?).
      exists (S i'), (S j'). auto.
  - destruct (IH i j Hij Hx Hy) as (i' & j' & ? & ? & ? & ? & ?). exists (S i'), (S j'). auto.
Qed.

(** [PlanSet::addPlan] keeps the set non-dominated: if no plan of the set was
    redundant given another, none is after inserting a costed candidate, and the
    plans of the new set are old plans or the candidate. *)
Theorem addPlan_keeps_non_dominated (candidate : MemoOp) (plans : PlanSet)
    (Hc : plan_ok candidate) (Hnd : non_dominated plans) :
  non_dominated (PlanSet.addPlan candidate plans) /\
  forall p, p ∈ PlanSet.addPlan candidate plans -> p ∈ plans \/ p = candidate.
Proof.
  rewrite addPlan_spec by done.
  destruct (existsb (PlanSet.drops_candidate candidate) plans) eqn:Ex; [auto |].
  assert (Hex : forall p, p ∈ plans -> PlanSet.drops_candidate candidate p = false).
  { intros p Hp. apply not_true_iff_false. intros H. rewrite <- not_true_iff_false in Ex.
    apply Ex, existsb_exists. exists p. by rewrite <- list_elem_of_In. }
  set (kept := List.filter _ plans). split.
  - intros i j p q Hij Hp Hq. apply lookup_app_Some in Hp as [Hp|[Hi Hp]], Hq as [Hq|[Hj Hq]].
    + destruct (filter_lookup_pair _ _ _ _ _ _ Hij Hp Hq) as (i' & j' & ? & ? & ? & _ & _).
      by eapply (Hnd i' j').
    + apply list_lookup_singleton_Some in Hq as [Hz <-].
      apply not_true_iff_false. intros H%drops_existing_candidate.
      rewrite Hex in H; [done |]. apply list_elem_of_lookup_2, list_elem_of_In, filter_In in Hp as [Hp _].
      by apply list_elem_of_In.
    + apply list_lookup_singleton_Some in Hp as [Hz <-].
      apply list_elem_of_lookup_2, list_elem_of_In, filter_In in Hq as [_ Hq]. by apply negb_true_iff.
    + apply list_lookup_singleton_Some in Hp as [? _], Hq as [? _]. lia.
  - intros p [Hp| ->%list_elem_of_singleton]%elem_of_app; [| auto].
    left. apply list_elem_of_In, filter_In in Hp as [Hp _]. by apply list_elem_of_In.
Qed.

(** ** Pruning loses nothing *)

Section Lossless.
Context {SL : ShuffleLaws}.

(** Plans for the same rows. *)
Definition same_rows (p q : MemoOp) : Prop :=
  MemoOp.cover p = MemoOp.cover q /\
  EstimateMath.cardinality (MemoOp.cost p) = EstimateMath.cardinality (MemoOp.cost q).

(** Whatever is required, [p] meets it at no greater cost than [q]. *)
Definition as_good (p q : MemoOp) : Prop :=
  forall required c, PlanSet.effective required q = Some c ->
    exists c', PlanSet.effective required p = Some c' /\ nonneg c' /\ nonneg c /\ le_cost c' c.

Lemma effective_plan required p : plan_ok p ->
  PlanSet.effective required p =
    match required_partition required with
    | None => Some (PlanSet.known_cost p)
    | Some target => PlanSet.costAsPartitioning p target
    end.
Proof.
  intros (c & Ec & _). unfold PlanSet.effective, PlanSet.costAsPartitioning, PlanSet.known_cost.
  rewrite Ec. cbn. destruct (required_partition required); [| done].
  destruct (Partitioning.sameClassAs _ _); [done |]. by destruct (shuffleCost p).
Qed.

Lemma conversion_nonneg p target c : plan_priced p -> PlanSet.costAsPartitioning p target = Some c -> nonneg c.
Proof.
  intros Hp. pose proof (known_cost_priced p Hp) as Hk. unfold PlanSet.costAsPartitioning.
  destruct (Partitioning.sameClassAs _ _); [by intros [= <-] |].
  destruct (shuffleCost p) as [s|] eqn:Es; [| done]. intros [= <-]. apply add_units; [done |].
  by eapply shuffle_nonneg; [apply Hp |].
Qed.

Lemma effective_nonneg required p c : plan_priced p -> PlanSet.effective required p = Some c -> nonneg c.
Proof.
  intros Hp. rewrite effective_plan by by apply priced_ok.
  destruct (required_partition required); [by apply conversion_nonneg | intros [= <-]; by apply known_cost_priced].
Qed.

Lemma le_cost_nonneg a b c : nonneg a -> nonneg b -> nonneg c -> le_cost a b -> le_cost b c -> le_cost a c.
Proof. intros Ha Hb Hc. apply le_cost_trans; by apply nonneg_number. Qed.

Lemma as_good_refl p : plan_priced p -> as_good p p.
Proof.
  intros Hp required c E. exists c. pose proof (effective_nonneg _ _ _ Hp E).
  split_conj; [done | done | done | by apply le_cost_refl, nonneg_number].
Qed.

Lemma as_good_trans p q r : as_good p q -> as_good q r -> as_good p r.
Proof.
  intros H1 H2 required c E. destruct (H2 required c E) as (c1 & E1 & Hc1 & Hc & Hle1).
  destruct (H1 required c1 E1) as (c2 & E2 & Hc2 & _ & Hle2).
  exists c2. split_conj; try done. by apply (le_cost_nonneg c2 c1 c).
Qed.

(** A plan that reaches [q]'s partitioning at no greater cost is as good as [q]. *)
Lemma as_good_of_conversion p q c : plan_priced p -> plan_priced q -> same_rows p q ->
  PlanSet.costAsPartitioning p (MemoOp.outputPartitioning q) = Some c ->
  le_cost c (PlanSet.known_cost q) -> as_good p q.
Proof.
  intros Hp Hq [Hcover Hcard] Hconv Hle required cq Eq.
  pose proof (known_cost_priced p Hp) as Np. pose proof (known_cost_priced q Hq) as Nq.
  pose proof (conversion_nonneg _ _ _ Hp Hconv) as Nc.
  pose proof (effective_nonneg _ _ _ Hq Eq) as Ncq.
  rewrite effective_plan in Eq by by apply priced_ok. rewrite effective_plan by by apply priced_ok.
  assert (Hbase : le_cost (PlanSet.known_cost p) (PlanSet.known_cost q)).
  { unfold PlanSet.costAsPartitioning in Hconv. destruct (Partitioning.sameClassAs _ _); [by simplify_eq |].
    destruct (shuffleCost p) as [s|] eqn:Es; [| done]. injection Hconv as <-.
    apply (le_cost_nonneg _ (Float.add (PlanSet.known_cost p) s)); [done | done | done | | done].
    apply add_grows; [done |]. by eapply shuffle_nonneg; [apply Hp |]. }
  destruct (required_partition required) as [target|]; [| simplify_eq; by eexists].
  unfold PlanSet.costAsPartitioning in Eq |- *.
  destruct (Partitioning.sameClassAs (MemoOp.outputPartitioning q) target) eqn:Eqt.
  - simplify_eq. unfold PlanSet.costAsPartitioning in Hconv.
    destruct (Partitioning.sameClassAs (MemoOp.outputPartitioning p) (MemoOp.outputPartitioning q)) eqn:Epq.
    + rewrite (sameClassAs_trans _ _ target Epq), Eqt. by eexists.
    + destruct (Partitioning.sameClassAs (MemoOp.outputPartitioning p) target); [by eexists |].
      destruct (shuffleCost p) as [s|]; [| done]. simplify_eq. by eexists.
  - destruct (shuffleCost q) as [s|] eqn:Es; [| done]. injection Eq as <-. pose proof (shuffle_nonneg q s (proj2 Hq) Es) as Ns.
    destruct (Partitioning.sameClassAs (MemoOp.outputPartitioning p) target).
    + eexists. split_conj; [done | done | done |].
      apply (le_cost_nonneg _ (PlanSet.known_cost q)); [done | done | done | done |]. by apply add_grows.
    + rewrite (shuffle_of_rows p q Hcover Hcard), Es. eexists.
      split_conj; [done | by apply add_units | done |]. by apply add_monotone.
Qed.

Lemma beats_le a ka b kb : number a -> number b ->
  beats a ka b kb = true \/ (Float.eqb a b = true) -> le_cost a b.
Proof.
  intros Ha Hb H. rewrite le_cost_key by done. intros Hlt.
  destruct H as [[H|[H _]]%beats_spec|H%Float.eqb_key]; try done.
  - eapply Float.key_lt_irrefl, Float.key_lt_trans; eauto.
  - rewrite H in Hlt. by eapply Float.key_lt_irrefl.
  - rewrite H in Hlt. by eapply Float.key_lt_irrefl.
Qed.

Lemma drops_as_good p q : plan_priced p -> plan_priced q -> same_rows p q ->
  PlanSet.drops_candidate q p = true -> as_good p q.
Proof.
  intros Hp Hq Hrows. unfold PlanSet.drops_candidate.
  destruct (PlanSet.costAsPartitioning p _) as [c|] eqn:Ec; [| done].
  pose proof (nonneg_number _ (conversion_nonneg _ _ _ Hp Ec)) as Nc. intros H.
  pose proof (known_cost_ok q (priced_ok q Hq)) as Nq.
  eapply as_good_of_conversion; [done | done | done | exact Ec |].
  apply orb_true_iff in H as [H|[H _]%andb_true_iff].
  - apply (beats_le _ (tieKey p) _ (tieKey q)); [done | done |]. left. unfold beats. by rewrite H.
  - apply (beats_le _ (tieKey p) _ (tieKey q)); auto.
Qed.

(** The candidates offered to a set, in order. *)
Definition addPlans (candidates : list MemoOp) : PlanSet :=
  foldl (fun plans candidate => PlanSet.addPlan candidate plans) [] candidates.

(** A costed plan for the rows of a cover. *)
Definition plan_for (cover : RelationSet) (cardinality : option float) (p : MemoOp) : Prop :=
  plan_priced p /\ MemoOp.cover p = cover /\ EstimateMath.cardinality (MemoOp.cost p) = cardinality.

Lemma plans_for_same cover cardinality p q : plan_for cover cardinality p -> plan_for cover cardinality q ->
  plan_priced p /\ plan_priced q /\ same_rows p q.
Proof. intros (Hp & Hcp & Hkp) (Hq & Hcq & Hkq). split_conj; [done | done |]. split; congruence. Qed.

Lemma addPlans_covering cover cardinality candidates :
  Forall (plan_for cover cardinality) candidates ->
  Forall (plan_for cover cardinality) (addPlans candidates) /\
  forall q, q ∈ candidates -> exists p, p ∈ addPlans candidates /\ as_good p q.
Proof.
  unfold addPlans. induction candidates as [|c cs IH] using rev_ind.
  { intros _. split; [constructor |]. by intros q ?%not_elem_of_nil. }
  intros [Hcs Hc]%Forall_app. rewrite Forall_singleton in Hc.
  destruct (IH Hcs) as [Hplans Hgood]. rewrite foldl_app. cbn [foldl].
  set (plans := foldl _ _ cs) in *. clearbody plans. rewrite addPlan_spec by apply priced_ok, Hc.
  rewrite Forall_forall in Hplans.
  destruct (existsb (PlanSet.drops_candidate c) plans) eqn:Ex.
  - split; [by apply Forall_forall |].
    intros q [Hq| ->%list_elem_of_singleton]%elem_of_app; [auto |].
    apply existsb_exists in Ex as (p & Hp & Hd). apply list_elem_of_In in Hp. exists p. split; [done |].
    destruct (plans_for_same _ _ p c (Hplans p Hp) Hc) as (Hpp & Hcp & Hrows). by apply drops_as_good.
  - split.
    + apply Forall_app. split; [| by apply Forall_singleton]. apply Forall_forall.
      intros p Hp. apply list_elem_of_In, filter_In in Hp as [Hp _]. by apply Hplans, list_elem_of_In.
    + assert (Hcin : c ∈ List.filter (fun e => negb (PlanSet.drops_existing c e)) plans ++ [c]) by set_solver.
      intros q [Hq| ->%list_elem_of_singleton]%elem_of_app; [| exists c; split; [done | by apply as_good_refl, Hc]].
      destruct (Hgood q Hq) as (p & Hp & Hpq). destruct (PlanSet.drops_existing c p) eqn:Ed.
      * exists c. split; [done |]. eapply as_good_trans; [| exact Hpq].
        destruct (plans_for_same _ _ c p Hc (Hplans p Hp)) as (Hcp & Hpp & Hrows).
        apply drops_as_good; [done | done | done | by apply drops_existing_candidate].
      * exists p. split; [| done]. apply elem_of_app. left.
        apply list_elem_of_In, filter_In. by rewrite Ed, <- list_elem_of_In.
Qed.

(** C8: pruning is lossless: after any sequence of insertions of costed plans for one cover
    and cardinality - which [PlanSet] takes to be a fact of the cover - whatever partitioning
    is then required, [best] has a plan that costs no more than any candidate ever offered
    would have, dropped ones included.  The costs are binary32 numbers that are not negative,
    summed with rounding; the price of a shuffle is not negative and the same for plans of
    one cover and cardinality, as [DefaultCostModel]'s is ([default_shuffle_laws]). *)
Theorem pruning_keeps_the_best (cover : RelationSet) (cardinality : option float) (candidates : list MemoOp)
    (required : RequiredProperties) (q : MemoOp) (c : float)
    (Hcandidates : Forall (plan_for cover cardinality) candidates)
    (Hq : q ∈ candidates) (Hc : PlanSet.effective required q = Some c) :
  exists p c', PlanSet.plan (PlanSet.best required (addPlans candidates)) = Some p /\
    EstimateMath.cost (PlanSet.selection_cost (PlanSet.best required (addPlans candidates))) = Some c' /\
    PlanSet.effective required p = Some c' /\ le_cost c' c.
Proof.
  destruct (addPlans_covering cover cardinality candidates Hcandidates) as [Hplans Hgood].
  destruct (Hgood q Hq) as (p0 & Hp0 & Hpq). destruct (Hpq required c Hc) as (c0 & E0 & N0 & Nc & Hle).
  rewrite Forall_forall in Hplans.
  assert (Hok : values_ok (PlanSet.effective required) (addPlans candidates)).
  { intros p x Hp E. apply nonneg_number. eapply effective_nonneg; [| exact E]. by apply Hplans. }
  pose proof (select_spec _ _ Hok) as H. unfold PlanSet.best.
  destruct (PlanSet.select _ (addPlans candidates)) as [[p cp]|]; cbn in *.
  - destruct H as (Hp & Ep & Hmin). exists p, cp. split_conj; [done | done | done |].
    specialize (Hmin p0 c0 Hp0 E0). unfold beats in Hmin. apply orb_false_iff in Hmin as [Hlt _].
    eapply le_cost_trans; [by eapply Hok | by apply nonneg_number, N0 | by apply nonneg_number | done | done].
  - rewrite (H p0 Hp0) in E0. done.
Qed.
End Lossless.
End PlanSetTheory.

(** ** Concrete instances *)

Definition example_joinType_int (t : JoinType) : N :=
  match t with kInner => 0 | kLeft => 1 | kRight => 2 | kFull => 3 | _ => 4 end.
#[local] Instance example_enums : VeloxEnums := { joinType_int := example_joinType_int }.

(** The prices of [DefaultCostModel]: by the cover and the cardinality, finite and not
    negative if the widths of the rows are. *)
Lemma default_shuffle_laws {CM : CostModel} rowBytes :
  (forall p, shuffleCost p = DefaultCostModel.shuffleCost rowBytes p) ->
  (forall cover, nonneg_finite (Float.mul (rowBytes cover) DefaultCostModel.kByteShuffleCost)) -> ShuffleLaws.
Proof.
  intros Hprice Hbytes. split.
  - intros p q Hcover Hcard. rewrite !Hprice. unfold DefaultCostModel.shuffleCost. by rewrite Hcover, Hcard.
  - intros p s Hrows. rewrite Hprice. unfold DefaultCostModel.shuffleCost, EstimateMath.mul.
    destruct (EstimateMath.cardinality _) as [n|] eqn:En; [| done]. intros [= <-].
    apply saturate_nonneg, mul_nonneg; [by apply Hrows | apply Hbytes].
Qed.

(** Rows of 8 bytes. *)
Definition example_row_bytes (cover : RelationSet) : float := Float.of_Z 8.
#[local] Instance example_model : CostModel := {
  cost_of := MemoOp.cost;
  shuffleCost := DefaultCostModel.shuffleCost example_row_bytes;
  broadcastCost := DefaultCostModel.broadcastCost example_row_bytes;
  coveredRowBytes := example_row_bytes;
}.

#[local] Instance example_shuffle_laws : ShuffleLaws.
Proof. by apply (default_shuffle_laws example_row_bytes). Qed.

Definition example_leaf (c : Z) (p : Partitioning) : MemoOp :=
  LeafOp (mkCost (Some (Float.of_Z c)) (Some (Float.of_Z 10))) 0 p.
Definition example_gather (c : Z) : MemoOp := example_leaf c (Partitioning.gather kGlobal).
Definition example_hash (c : Z) : MemoOp := example_leaf c (Partitioning.hash_keys kGlobal [1]).

Lemma best_minimises_effective_cost_witness :
  PlanSet.plan (PlanSet.best (mkRequired None) [example_gather 5; example_hash 3]) = Some (example_hash 3) /\
  exists c, PlanSet.effective (mkRequired None) (example_hash 3) = Some c /\ le_cost c (Float.of_Z 5).
Proof.
  assert (Hok : values_ok (PlanSet.effective (mkRequired None)) [example_gather 5; example_hash 3]).
  { intros p c Hp E. apply elem_of_cons in Hp as [->|Hp%list_elem_of_singleton]; [| subst p];
      by vm_compute in E; injection E as <-. }
  pose proof (best_minimises_effective_cost (mkRequired None) [example_gather 5; example_hash 3] Hok) as H.
  cbn zeta in H.
  assert (Hp : PlanSet.plan (PlanSet.best (mkRequired None) [example_gather 5; example_hash 3])
    = Some (example_hash 3)) by (vm_compute; reflexivity).
  split; [exact Hp |]. rewrite Hp in H. destruct H as (_ & c & Ec & _ & Hmin). exists c. split; [exact Ec |].
  refine (proj1 (Hmin (example_gather 5) (Float.of_Z 5) _ _)); [by constructor | by vm_compute].
Defined.

Lemma addPlan_keeps_non_dominated_witness :
  PlanSet.addPlan (example_hash 3) [example_gather 50] = [example_hash 3] /\
  non_dominated (PlanSet.addPlan (example_hash 3) [example_gather 50]).
Proof.
  split; [by vm_compute |].
  refine (proj1 (addPlan_keeps_non_dominated (example_hash 3) [example_gather 50] _ _)).
  - exists (Float.of_Z 3). by vm_compute.
  - intros [|i] [|j] p q Hij Hp Hq; by cbn in *.
Defined.

(** Shuffling 10 rows of 8 bytes costs 24: the hashed plan for 9 can be gathered for 33, and
    the gathered plan for 40 is dropped. *)
Lemma pruning_keeps_the_best_witness :
  addPlans [example_gather 40; example_hash 9] = [example_hash 9] /\
  exists p c', PlanSet.plan (PlanSet.best (mkRequired (Some (Partitioning.gather kGlobal)))
      (addPlans [example_gather 40; example_hash 9])) = Some p /\
    PlanSet.effective (mkRequired (Some (Partitioning.gather kGlobal))) p = Some c' /\
    le_cost c' (Float.of_Z 40).
Proof.
  split; [vm_compute; reflexivity |].
  assert (Hpriced : forall c p, c ∈ [40; 9]%Z -> plan_for (RelationSet.singleton 0) (Some (Float.of_Z 10)) (example_leaf c p)).
  { intros c p Hc. split; [split; [| by intros n [= <-]] | done].
    exists (Float.of_Z c). split; [done |]. rewrite !elem_of_cons in Hc. by destruct Hc as [->|[->|?%not_elem_of_nil]]. }
  destruct (pruning_keeps_the_best (RelationSet.singleton 0) (Some (Float.of_Z 10)) [example_gather 40; example_hash 9]
    (mkRequired (Some (Partitioning.gather kGlobal))) (example_gather 40) (Float.of_Z 40))
    as (p & c' & Hp & _ & Hc & Hle).
  - apply Forall_cons_2; [apply Hpriced; by left | apply Forall_singleton, Hpriced; right; by left].
  - constructor.
  - by vm_compute.
  - exists p, c'. auto.
Defined.

(** Tie keys leave the partitioning of a join out: of two joins of equal cost that
    differ only there, whichever was inserted first is the cheapest. *)
Lemma equal_keys_keep_insertion_order :
  let join p := JoinOp (mkCost (Some (Float.of_Z 9)) None) (example_gather 1)
    (LeafOp no_cost 1 (Partitioning.unspecified kGlobal)) 0 kInner false [] [] p in
  let p := join (Partitioning.gather kGlobal) in
  let q := join (Partitioning.hash_keys kGlobal [1]) in
  PlanSet.cheapest [p; q] = Some p /\ PlanSet.cheapest [q; p] = Some q /\ p <> q /\
  addPlans [p; q] = [p; q] /\ addPlans [q; p] = [q; p].
Proof. cbn zeta. split_conj; first [by vm_compute | discriminate]. Qed.
