(* ===== verification/DPhyp.v ===== *)
(** * DPhyp: enumeration of join orders

    Models [axiom/optimizer/v2/DPhyp.{h,cpp}]: the enumeration of connected
    subgraph / complement pairs, the budget that caps it, the greedy ordering it
    falls back to, the distribution strategies considered for each pair, and the
    final check that no predicate was lost.  The enumerator's mutable members are
    the fields of [State]; a call is a [StateM State] computation.  [VELOX_DCHECK]
    is checked when [debug] is set, as in a build without [NDEBUG]. *)

From S2P Require Import Prelude Word64 RelationSets BitSets EstimateMath QueryGraph Joins.
From S2P Require Import Partitionings Nodes Closures Hypergraphs HypergraphFacts Memo.
From Stdlib Require Import Lia.
Set Warnings "-clear-no-such-hyp".
Open Scope N_scope.

(** [keepsBothInputs(joinType)] *)
Definition keepsBothInputs (joinType : JoinType) : bool :=
  bool_decide (joinType = kInner) || bool_decide (joinType = kLeft) ||
  bool_decide (joinType = kRight) || bool_decide (joinType = kFull).

(** The side of [edge] opposite [set], when [set] covers exactly one side. *)
Definition oppositeSide (edge : JoinEdge) (set : RelationSet) : option RelationSet :=
  if RelationSet.isSubset (JoinEdge.leftEligibility edge) set &&
     negb (RelationSet.hasIntersection (JoinEdge.rightEligibility edge) set)
  then Some (JoinEdge.rightEligibility edge)
  else if RelationSet.isSubset (JoinEdge.rightEligibility edge) set &&
          negb (RelationSet.hasIntersection (JoinEdge.leftEligibility edge) set)
  then Some (JoinEdge.leftEligibility edge)
  else None.

Definition neighborhood (graph : JoinHypergraph) (set forbidden : RelationSet) : RelationSet :=
  foldl (fun result edge =>
      match oppositeSide edge set with
      | None => result
      | Some other =>
          if RelationSet.hasIntersection other forbidden then result
          else RelationSet.add result (RelationSet.min other)
      end)
    RelationSet.rsEmpty (JoinHypergraph.edges graph).

Definition hasRightProjectVariant (edge : JoinEdge) : bool :=
  negb (JoinEdge.nullAware edge && negb (bool_decide (JoinEdge.filter edge = []))).

(** ** [EnumerationBudget] *)

Module EnumerationBudget.

Record t := mk { cap : Z; count : Z; exceeded : bool; enforced : bool }.

Definition new (cap : Z) : t := mk cap 0 false (Z.ltb 0 cap).

(** [if (!exceeded_ && ++count_ > cap_)]: the count moves only while not exceeded. *)
Definition consume (b : t) : bool * t :=
  if negb (enforced b) then (false, b)
  else if exceeded b then (true, b)
  else
    let count := (count b + 1)%Z in
    let exceeded := Z.ltb (cap b) count in
    (exceeded, mk (cap b) count exceeded (enforced b)).

Definition reset (b : t) : t := mk (cap b) 0 false (Z.ltb 0 (cap b)).
Definition disable (b : t) : t := mk (cap b) (count b) (exceeded b) false.

End EnumerationBudget.
Abbreviation EnumerationBudget := EnumerationBudget.t.

(** ** Subsets of a neighborhood *)

(** [for (subset = bits; subset > 0; subset = (subset - 1) & bits)] *)
Fixpoint submask_loop (fuel : nat) (neighborBits subset : N) : Result (list N) :=
  match fuel with
  | O => Throw OutOfFuel
  | S fuel =>
      if subset =? 0 then Ok []
      else cons subset <$> submask_loop fuel neighborBits (N.land (N.pred subset) neighborBits)
  end.

(** [tie(popcount(a), a) <= tie(popcount(b), b)] *)
Definition by_size (a b : N) : Prop :=
  popcount a < popcount b \/ (popcount a = popcount b /\ a <= b).
#[export] Instance by_size_dec : RelDecision by_size.
Proof. intros a b. unfold by_size. apply _. Defined.

(** A word with [k] bits set has [2 ^ k] submasks, the empty one ends the loop. *)
Definition subsetsBySize (neighborBits : N) : Result (list N) :=
  merge_sort by_size <$>
    submask_loop (S (Nat.pow 2 (N.to_nat (popcount neighborBits)))) neighborBits neighborBits.

(** ** [Enumerator] *)

(** [GroupedRead::partitioning(node, numWorkers, builder)] *)
Class GroupedRead := { grouped_partitioning : Node -> Z -> Partitioning }.

Record State := mkState {
  memo : gmap RelationSet PlanSet;
  budget : EnumerationBudget;
  enforcementOps : list MemoOp;
  groupedPartitions : gmap N Partitioning;
  coverCache : gmap RelationSet BitSet;     (* JoinHypergraph::coverOutputColumnsCache_ *)
}.

Definition set_memo (m : gmap RelationSet PlanSet) (s : State) : State :=
  mkState m (budget s) (enforcementOps s) (groupedPartitions s) (coverCache s).
Definition set_budget (b : EnumerationBudget) (s : State) : State :=
  mkState (memo s) b (enforcementOps s) (groupedPartitions s) (coverCache s).
Definition set_enforcementOps (ops : list MemoOp) (s : State) : State :=
  mkState (memo s) (budget s) ops (groupedPartitions s) (coverCache s).
Definition set_groupedPartitions (m : gmap N Partitioning) (s : State) : State :=
  mkState (memo s) (budget s) (enforcementOps s) m (coverCache s).
Definition set_coverCache (c : gmap RelationSet BitSet) (s : State) : State :=
  mkState (memo s) (budget s) (enforcementOps s) (groupedPartitions s) c.

Record MemoPartitioningOffer := mkOffer { offer_plan : MemoOp; offer_partitioning : JoinPartitioning }.
Record MemoPartitioningOffers := mkOffers {
  hash_offers : list MemoPartitioningOffer;
  connector_offers : list MemoPartitioningOffer;
}.

(** The arguments of [addJoinCandidate] that all strategies of one
    [considerCandidate] call share. *)
Record JoinStep := mkJoinStep {
  step_edge : nat;
  step_type : JoinType;
  step_combined : RelationSet;
  step_reversedAnti : bool;
  step_keyEdges : list nat;
  step_filterEdges : list nat;
}.

Section Enumerator.
Context {VB : VeloxBits} {C : Connector} {EB : ExprBuilder} {CM : CostModel} {VE : VeloxEnums}
  {GR : GroupedRead}.
Context (debug : bool) (fuel : nat) (g : QueryGraph) (graph : JoinHypergraph).
Context (numWorkers hashStageTasks broadcastSizeLimit : Z).

Abbreviation E := (StateM State) (only parsing).
Abbreviation edges := (JoinHypergraph.edges graph) (only parsing).
Abbreviation edge := (JoinHypergraph.edge graph) (only parsing).
Abbreviation expandedRelationIds := (JoinHypergraph.expandedRelationIds graph) (only parsing).

Definition dcheck (cond : bool) (what : string) : E unit :=
  lift (if debug then velox_check cond what else Ok tt).

(** [budget_.consume()] *)
Definition consume : E bool := fun s =>
  let '(stop, b) := EnumerationBudget.consume (budget s) in Ok (stop, set_budget b s).
Definition budget_exceeded : E bool := gets (fun s => EnumerationBudget.exceeded (budget s)).

(** [memo_.find(set)] *)
Definition find (set : RelationSet) : E (option PlanSet) := gets (fun s => memo s !! set).

(** [memo_[set].addPlan(candidate)] *)
Definition memo_addPlan (set : RelationSet) (candidate : MemoOp) : E unit :=
  modify (fun s => set_memo (<[set := PlanSet.addPlan candidate (default [] (memo s !! set))]> (memo s)) s).

Definition cheapestPlan (set : RelationSet) : E (option MemoOp) :=
  plans ← find set;
  mret (plans ≫= PlanSet.cheapest).

Definition with_model_cost (op : MemoOp) : MemoOp := MemoOp.set_cost op (cost_of op).

Definition initLeaves (relations : RelationSet) : E unit :=
  RelationSet.forEach relations (fun id =>
    if RelationSet.contains expandedRelationIds id then mret tt
    else
      let singleton := RelationSet.singleton id in
      entry ← find singleton;
      match entry with
      | Some _ => mret tt
      | None =>
          memo_addPlan singleton (with_model_cost (LeafOp no_cost id
            (globalPartition (physicalProperties (Relation.node (JoinHypergraph.relation graph id))))))
      end).

(** ** Adding candidates *)

Definition makeExchange (child : MemoOp) (partitioning : Partitioning) (cost : Cost) : E MemoOp :=
  let op := ExchangeOp cost child partitioning in
  modify (fun s => set_enforcementOps (enforcementOps s ++ [op]) s);; mret op.

Definition bestOnPartitioning (cover : RelationSet) (required : Partitioning) : E (option MemoOp) :=
  entry ← find cover;
  match entry with
  | None => mret None
  | Some plans =>
      let selection := PlanSet.best (mkRequired (Some required)) plans in
      match PlanSet.plan selection with
      | None => mret None
      | Some plan =>
          if Partitioning.sameClassAs (MemoOp.outputPartitioning plan) required then mret (Some plan)
          else if Partitioning.is_ (MemoOp.outputPartitioning plan) kBroadcast then mret None
          else op ← makeExchange plan required (PlanSet.selection_cost selection); mret (Some op)
      end
  end.

Definition gatheredSmall (input : MemoOp) : E (option MemoOp) :=
  match broadcastSizeIfFits_op input broadcastSizeLimit with
  | None => mret None
  | Some _ => bestOnPartitioning (MemoOp.cover input) (Partitioning.gather kGlobal)
  end.

(** Each column key replaced by the representative of its group within [cover]. *)
Definition keysInCoverSchema (keys : list ExprCP) (cover : RelationSet) : list ExprCP :=
  let reps := JoinHypergraph.coverColumnReps g graph cover in
  map (fun key =>
         if isColumn g key
         then match reps !! key with Some rep => rep | None => key end
         else key) keys.

Definition repartitioned (cover : RelationSet) (keys : list ExprCP) (replicateNullsAndAny : bool)
    : E (option MemoOp) :=
  required ← lift (Partitioning.hash kGlobal (keysInCoverSchema keys cover) replicateNullsAndAny);
  bestOnPartitioning cover required.

Definition repartitionedTo (cover : RelationSet) (keys : list ExprCP) (targetType : PartitionTypeP)
    : E (option MemoOp) :=
  bestOnPartitioning cover (Partitioning.connectorHash kGlobal (keysInCoverSchema keys cover) targetType).

Definition groupedRelationPartition (relationId : N) : E Partitioning :=
  cached ← gets (fun s => groupedPartitions s !! relationId);
  match cached with
  | Some p => mret p
  | None =>
      let p := grouped_partitioning (Relation.node (JoinHypergraph.relation graph relationId)) numWorkers in
      modify (fun s => set_groupedPartitions (<[relationId := p]> (groupedPartitions s)) s);; mret p
  end.

Definition no_alternatives : PlanSet.PartitioningAlternatives := PlanSet.mkAlternatives [] [].

Definition partitioningsOn (cover : RelationSet) (keys : list ExprCP)
    : E PlanSet.PartitioningAlternatives :=
  entry ← find cover;
  match entry with
  | None => mret no_alternatives
  | Some plans =>
      let coverKeys := keysInCoverSchema keys cover in
      let alternatives := PlanSet.partitioningsOnSubsets coverKeys plans in
      if negb (bool_decide (PlanSet.connectorBucketed alternatives = [])) then mret alternatives
      else
        dcheck (Z.ltb 1 numWorkers) "numWorkers_, 1";;
        if negb (RelationSet.size cover =? 1) then mret alternatives
        else
          let relationId := RelationSet.min cover in
          groupedPartition ← groupedRelationPartition relationId;
          if negb (Partitioning.coLocates groupedPartition coverKeys) then mret alternatives
          else
            memo_addPlan cover (with_model_cost (LeafOp no_cost relationId groupedPartition));;
            plans ← find cover;
            mret (PlanSet.partitioningsOnSubsets coverKeys (default [] plans))
  end.

Definition replicatedChild (cover : RelationSet) (probePartitioning : Partitioning)
    : E (option MemoOp) :=
  base ← cheapestPlan cover;
  match base with
  | None => mret None
  | Some base =>
      match broadcastSizeIfFits_op base broadcastSizeLimit with
      | None => mret None
      | Some _ =>
          if Partitioning.is_ (MemoOp.outputPartitioning base) kBroadcast &&
             negb (Partitioning.is_ probePartitioning kGather)
          then mret (Some base)
          else
            let replicated := Partitioning.globalReplicatedTo probePartitioning in
            if Partitioning.is_ replicated kGather then bestOnPartitioning cover replicated
            else
              let cost := mkCost
                (EstimateMath.add (EstimateMath.cost (MemoOp.cost base))
                   (broadcastCost base (Partitioning.numStageTasks probePartitioning numWorkers hashStageTasks)))
                (EstimateMath.cardinality (MemoOp.cost base)) in
              op ← makeExchange base Partitioning.globalBroadcast cost; mret (Some op)
      end
  end.

(** The keys of one edge as seen from the physical left child. *)
Definition collect_keys (left : MemoOp) (e : JoinEdge) : list ExprCP * list ExprCP :=
  if RelationSet.isSubset (JoinEdge.leftEligibility e) (MemoOp.cover left)
  then (JoinEdge.leftKeys e, JoinEdge.rightKeys e)
  else (JoinEdge.rightKeys e, JoinEdge.leftKeys e).

Definition orientedKeys (left : MemoOp) (edgeIndex : nat) (keyEdges : list nat)
    : list ExprCP * list ExprCP :=
  foldl (fun '(leftKeys, rightKeys) index =>
           let '(l, r) := collect_keys left (edge index) in (leftKeys ++ l, rightKeys ++ r))
    ([], []) (edgeIndex :: keyEdges).

(** [graph_.coverOutputColumns(cover)], through the hypergraph's cache. *)
Definition coverOutputColumns (cover : RelationSet) : E BitSet := fun s =>
  match JoinHypergraph.coverOutputColumns g (with_cache graph (coverCache s)) cover with
  | Ok (columns, graph') => Ok (columns, set_coverCache (JoinHypergraph.coverOutputColumnsCache graph') s)
  | Throw e => Throw e
  end.

Definition candidateOutputPartitioning (left right : MemoOp) (step : JoinStep)
    (leftKeys rightKeys : list ExprCP) : E Partitioning :=
  let leftCoverKeys := keysInCoverSchema leftKeys (MemoOp.cover left) in
  let rightCoverKeys := keysInCoverSchema rightKeys (MemoOp.cover right) in
  let edge := edge (step_edge step) in
  joinType ← lift (MemoOp.emittedJoinType (step_type step) (step_reversedAnti step));
  columns ← coverOutputColumns (step_combined step);
  lift (Nodes.outputPartitioning fuel g joinType
          (MemoOp.outputPartitioning left) (MemoOp.outputPartitioning right)
          leftCoverKeys rightCoverKeys columns (JoinEdge.outputColumns edge) (JoinEdge.sourceColumns edge)).

Definition addJoinCandidate (left right : MemoOp) (step : JoinStep) (partitioning : Partitioning)
    : E unit :=
  consume;;
  let candidate := with_model_cost (JoinOp no_cost left right (step_edge step) (step_type step)
    (step_reversedAnti step) (step_keyEdges step) (step_filterEdges step) partitioning) in
  match EstimateMath.cost (MemoOp.cost candidate) with
  | None => mret tt
  | Some _ => memo_addPlan (step_combined step) candidate
  end.

Definition addDistributedJoinCandidate (left right : MemoOp) (step : JoinStep)
    (leftKeys rightKeys : list ExprCP) : E unit :=
  partitioning ← candidateOutputPartitioning left right step leftKeys rightKeys;
  addJoinCandidate left right step partitioning.

(** ** Retained partitionings *)

(** [std::find_if] for the same partitioning, then append or replace. *)
Fixpoint add_offer (candidate : MemoOp) (partitioning : JoinPartitioning)
    (result : list MemoPartitioningOffer) : list MemoPartitioningOffer :=
  match result with
  | [] => [mkOffer candidate partitioning]
  | offer :: rest =>
      if bool_decide (keyPositions (offer_partitioning offer) = keyPositions partitioning) &&
         bool_decide (jp_partitionType (offer_partitioning offer) = jp_partitionType partitioning)
      then if Float.ltb (PlanSet.known_cost candidate) (PlanSet.known_cost (offer_plan offer))
           then mkOffer candidate partitioning :: rest else offer :: rest
      else offer :: add_offer candidate partitioning rest
  end.

Fixpoint makeOffers (coverKeys : list ExprCP) (plans : list MemoOp)
    (result : list MemoPartitioningOffer) : Result (list MemoPartitioningOffer) :=
  match plans with
  | [] => Ok result
  | candidate :: plans =>
      match JoinPartitioning.from fuel g (MemoOp.outputPartitioning candidate) coverKeys with
      | None => Throw (VeloxCheck "A reusable partitioning must map to the join keys")
      | Some partitioning => makeOffers coverKeys plans (add_offer candidate partitioning result)
      end
  end.

Definition partitioningOffers (plan : MemoOp) (keys : list ExprCP) : E MemoPartitioningOffers :=
  alternatives ← partitioningsOn (MemoOp.cover plan) keys;
  let coverKeys := keysInCoverSchema keys (MemoOp.cover plan) in
  hash ← lift (makeOffers coverKeys (PlanSet.standardHash alternatives) []);
  connector ← lift (makeOffers coverKeys (PlanSet.connectorBucketed alternatives) []);
  mret (mkOffers hash connector).

(** [addAligned(keepLeft, keptOffer)] *)
Definition addAligned (left right : MemoOp) (leftKeys rightKeys : list ExprCP) (step : JoinStep)
    (keepLeft : bool) (keptOffer : MemoPartitioningOffer) : E unit :=
  let movedKeys := if keepLeft then rightKeys else leftKeys in
  let alignedKeys := JoinPartitioning.correspondingKeys (offer_partitioning keptOffer) movedKeys in
  let movedCover := if keepLeft then MemoOp.cover right else MemoOp.cover left in
  aligned ← match partitionType (MemoOp.outputPartitioning (offer_plan keptOffer)) with
            | None => repartitioned movedCover alignedKeys false
            | Some t => repartitionedTo movedCover alignedKeys t
            end;
  match aligned with
  | None => mret tt
  | Some aligned =>
      addDistributedJoinCandidate (if keepLeft then offer_plan keptOffer else aligned)
        (if keepLeft then aligned else offer_plan keptOffer) step leftKeys rightKeys
  end.

Definition addCoPartitionedCandidate (left right : MemoOp) (leftKeys rightKeys : list ExprCP)
    (step : JoinStep) (leftOffers rightOffers : list MemoPartitioningOffer) : E unit :=
  for_each leftOffers (fun leftOffer =>
    for_each rightOffers (fun rightOffer =>
      when_ (JoinPartitioning.coPartitionsWith (offer_partitioning leftOffer) (offer_partitioning rightOffer))
        (addDistributedJoinCandidate (offer_plan leftOffer) (offer_plan rightOffer) step leftKeys rightKeys)));;
  for_each leftOffers (addAligned left right leftKeys rightKeys step true);;
  for_each rightOffers (addAligned left right leftKeys rightKeys step false).

(** ** Strategies for one pair of children *)

(** Adds the join of two children that are both there. *)
Definition addEnforced (left right : option MemoOp) (step : JoinStep) (leftKeys rightKeys : list ExprCP)
    : E unit :=
  match left, right with
  | Some leftPart, Some rightPart => addDistributedJoinCandidate leftPart rightPart step leftKeys rightKeys
  | _, _ => mret tt
  end.

(** One input already sits on one task. *)
Definition gatherStrategy (left right : MemoOp) (step : JoinStep) (leftKeys rightKeys : list ExprCP)
    : E unit :=
  let leftGathered := Partitioning.is_ (MemoOp.outputPartitioning left) kGather in
  let rightGathered := Partitioning.is_ (MemoOp.outputPartitioning right) kGather in
  when_ (leftGathered || rightGathered)
    (gatheredLeft ← (if leftGathered then mret (Some left) else gatheredSmall left);
     gatheredRight ← (if rightGathered then mret (Some right) else gatheredSmall right);
     addEnforced gatheredLeft gatheredRight step leftKeys rightKeys).

(** One input is replicated on every worker. *)
Definition replicateStrategy (left right : MemoOp) (step : JoinStep) (leftKeys rightKeys : list ExprCP)
    : E unit :=
  let leftReplicated := Partitioning.is_ (MemoOp.outputPartitioning left) kBroadcast in
  let rightReplicated := Partitioning.is_ (MemoOp.outputPartitioning right) kBroadcast in
  when_ (leftReplicated || rightReplicated)
    (let broadcast := Partitioning.globalBroadcast in
     replicatedLeft ← (if leftReplicated then mret (Some left)
                       else replicatedChild (MemoOp.cover left) broadcast);
     replicatedRight ← (if rightReplicated then mret (Some right)
                        else replicatedChild (MemoOp.cover right) broadcast);
     addEnforced replicatedLeft replicatedRight step leftKeys rightKeys;;
     when_ (leftReplicated && negb rightReplicated && canBroadcastProbe (step_type step) &&
            negb (step_reversedAnti step))
       (addDistributedJoinCandidate left right step leftKeys rightKeys)).

(** Co-partition both inputs on the join keys. *)
Definition partitionStrategy (left right : MemoOp) (step : JoinStep) (leftKeys rightKeys : list ExprCP)
    : E unit :=
  let edge := edge (step_edge step) in
  when_ (negb (bool_decide (leftKeys = [])))
    (if JoinEdge.nullAware edge
     then
       let existenceOnLeft := RelationSet.isSubset (JoinEdge.rightEligibility edge) (MemoOp.cover left) in
       let existenceOnRight := RelationSet.isSubset (JoinEdge.rightEligibility edge) (MemoOp.cover right) in
       leftPart ← repartitioned (MemoOp.cover left) leftKeys existenceOnLeft;
       rightPart ← repartitioned (MemoOp.cover right) rightKeys existenceOnRight;
       addEnforced leftPart rightPart step leftKeys rightKeys
     else
       leftOffers ← partitioningOffers left leftKeys;
       rightOffers ← partitioningOffers right rightKeys;
       addCoPartitionedCandidate left right leftKeys rightKeys step
         (hash_offers leftOffers) (hash_offers rightOffers);;
       addCoPartitionedCandidate left right leftKeys rightKeys step
         (connector_offers leftOffers) (connector_offers rightOffers);;
       match hash_offers leftOffers, connector_offers leftOffers,
             hash_offers rightOffers, connector_offers rightOffers with
       | [], [], [], [] =>
           leftPart ← repartitioned (MemoOp.cover left) leftKeys false;
           rightPart ← repartitioned (MemoOp.cover right) rightKeys false;
           addEnforced leftPart rightPart step leftKeys rightKeys
       | _, _, _, _ => mret tt
       end).

(** Replicate the build side. *)
Definition broadcastStrategy (left right : MemoOp) (step : JoinStep) (leftKeys rightKeys : list ExprCP)
    : E unit :=
  when_ (canBroadcastBuild (step_type step) && negb (step_reversedAnti step))
    (replicatedBuild ← replicatedChild (MemoOp.cover right) (MemoOp.outputPartitioning left);
     match replicatedBuild with
     | None => mret tt
     | Some replicatedBuild => addDistributedJoinCandidate left replicatedBuild step leftKeys rightKeys
     end).

(** [Partitioning{}] *)
Definition default_partitioning : Partitioning := Partitioning.unspecified kGlobal.

Definition considerCandidate (left right : MemoOp) (step : JoinStep) : E unit :=
  if Z.eqb numWorkers 1 then addJoinCandidate left right step default_partitioning
  else
    let '(leftKeys, rightKeys) := orientedKeys left (step_edge step) (step_keyEdges step) in
    gatherStrategy left right step leftKeys rightKeys;;
    replicateStrategy left right step leftKeys rightKeys;;
    partitionStrategy left right step leftKeys rightKeys;;
    broadcastStrategy left right step leftKeys rightKeys.

(** ** Orientations *)

Definition readsState (cover : RelationSet) : bool :=
  RelationSet.anyOf cover (fun id =>
    negb (bool_decide (requiredStates (Relation.node (JoinHypergraph.relation graph id)) = []))).

Definition considerOrientations (leftPlan rightPlan : MemoOp) (edgeIndex : nat)
    (leftJoinType : JoinType) (combined : RelationSet) (keyEdges filterEdges : list nat) : E unit :=
  let edge := edge edgeIndex in
  let loopInvariant := loopInvariantSide leftJoinType
    (negb (bool_decide (JoinEdge.leftKeys edge = []))) (JoinEdge.nullAsValue edge)
    (mkSides (readsState (MemoOp.cover leftPlan)) (readsState (MemoOp.cover rightPlan))) in
  when_ (negb (left_ loopInvariant))
    (considerCandidate leftPlan rightPlan
       (mkJoinStep edgeIndex leftJoinType combined false keyEdges filterEdges));;
  when_ (negb (right_ loopInvariant))
    (swapped ← lift (swapType leftJoinType);
     considerCandidate rightPlan leftPlan
       (mkJoinStep edgeIndex swapped combined false keyEdges filterEdges)).

Definition emitUnnest (inputSet : RelationSet) (edgeIndex : nat) (combined : RelationSet)
    (filterEdges : list nat) : E unit :=
  input ← cheapestPlan inputSet;
  match input with
  | None => mret tt
  | Some input =>
      consume;;
      let candidate := with_model_cost (UnnestOp no_cost input edgeIndex
        (JoinEdge.rightEndpoints (edge edgeIndex)) filterEdges) in
      dcheck (RelationSet.bits (MemoOp.cover candidate) =? RelationSet.bits combined)
        "candidate->cover().bits(), combined.bits()";;
      match EstimateMath.cost (MemoOp.cost candidate) with
      | None => mret tt
      | Some _ => memo_addPlan combined candidate
      end
  end.

Definition emitSingleEdge (edgeIndex : nat) (forward : bool) (leftPlan rightPlan : MemoOp)
    (combined : RelationSet) (keyEdges filterEdges : list nat) : E unit :=
  let edge := edge edgeIndex in
  let joinType := JoinEdge.joinType edge in
  lift (velox_check (bool_decide (keyEdges = []) || bool_decide (joinType = kInner))
    "An additional join-key edge alongside a {} edge is not supported");;
  lift (velox_check (bool_decide (filterEdges = []) || keepsBothInputs joinType)
    "A filter edge alongside a {} edge is not supported");;
  let probeOnLeft := if forward then leftPlan else rightPlan in
  let probeOnRight := if forward then rightPlan else leftPlan in
  let nativeOnly := bool_decide (joinType = kAnti) ||
    (bool_decide (joinType = kLeftSemiProject) && negb (hasRightProjectVariant edge)) in
  if nativeOnly
  then
    considerCandidate probeOnLeft probeOnRight
      (mkJoinStep edgeIndex joinType combined false keyEdges filterEdges);;
    when_ (bool_decide (joinType = kAnti) && hasRightProjectVariant edge)
      (considerCandidate probeOnRight probeOnLeft (mkJoinStep edgeIndex joinType combined true [] []))
  else
    leftTypeForSubgraph ← lift (if forward then Ok joinType else swapType joinType);
    considerOrientations leftPlan rightPlan edgeIndex leftTypeForSubgraph combined keyEdges filterEdges.

Definition applyCrossingEdge (edgeIndex : nat) (forward : bool)
    (subgraph complement combined : RelationSet) (keyEdges filterEdges : list nat) : E unit :=
  let edge := edge edgeIndex in
  if JoinEdge.isUnnest edge
  then
    if negb (bool_decide (complement = JoinEdge.rightEligibility edge)) then mret tt
    else dcheck (bool_decide (keyEdges = [])) "keyEdges.empty()";;
         emitUnnest subgraph edgeIndex combined filterEdges
  else
    leftPlan ← cheapestPlan subgraph;
    rightPlan ← cheapestPlan complement;
    match leftPlan, rightPlan with
    | Some leftPlan, Some rightPlan =>
        emitSingleEdge edgeIndex forward leftPlan rightPlan combined keyEdges filterEdges
    | _, _ => mret tt
    end.

(** ** One csg/cmp pair *)

(** The scan for the one crossing edge that is not a plain inner edge. *)
Fixpoint special_position (joinEdges : list JoinHypergraph.CrossingEdge) (i : nat) (specialPosition : option nat)
    : option nat :=
  match joinEdges with
  | [] => specialPosition
  | crossingEdge :: joinEdges =>
      if JoinHypergraph.plain_inner (edge (JoinHypergraph.index crossingEdge)) then special_position joinEdges (S i) specialPosition
      else match specialPosition with
           | Some _ => None
           | None => special_position joinEdges (S i) (Some i)
           end
  end.

Definition canApplyFilterEdges (filterEdges : list nat) (edgeIndex : nat) : bool :=
  let edge := edge edgeIndex in
  bool_decide (filterEdges = []) || JoinEdge.isUnnest edge || keepsBothInputs (JoinEdge.joinType edge).

(** The indices at the positions other than [position]. *)
Definition other_indices (joinEdges : list JoinHypergraph.CrossingEdge) (position : nat) : list nat :=
  map JoinHypergraph.index (take position joinEdges ++ drop (S position) joinEdges).

Fixpoint check_plain_inner (joinEdges : list JoinHypergraph.CrossingEdge) : Result unit :=
  match joinEdges with
  | [] => Ok tt
  | crossingEdge :: joinEdges =>
      let edge := edge (JoinHypergraph.index crossingEdge) in
      velox_check (bool_decide (JoinEdge.joinType edge = kInner) && negb (JoinEdge.isUnnest edge))
        "Two or more edges crossing one join partition are not plain inner joins: {}, unnest: {}";;
      check_plain_inner joinEdges
  end.

Definition emitInnerEdges (subgraph complement combined : RelationSet) (joinEdges : list JoinHypergraph.CrossingEdge)
    (filterEdges : list nat) : E unit :=
  lift (check_plain_inner joinEdges);;
  leftPlan ← cheapestPlan subgraph;
  rightPlan ← cheapestPlan complement;
  match leftPlan, rightPlan with
  | Some leftPlan, Some rightPlan =>
      edgeIndices ← lift (JoinHypergraph.canonicalKeyEdges g graph (map JoinHypergraph.index joinEdges));
      considerOrientations leftPlan rightPlan (hd 0%nat edgeIndices) kInner combined
        (tail edgeIndices) filterEdges
  | _, _ => mret tt
  end.

Definition emitCsgCmp (subgraph complement : RelationSet) : E unit :=
  stop ← consume;
  if stop : bool then mret tt
  else match JoinHypergraph.crossingEdges graph subgraph complement with
  | None => mret tt
  | Some crossing =>
      let combined := RelationSet.unionSet subgraph complement in
      let filterEdges := JoinHypergraph.filterEdges crossing in
      match JoinHypergraph.joinEdges crossing with
      | [] => mret tt
      | [crossingEdge] =>
          if negb (canApplyFilterEdges filterEdges (JoinHypergraph.index crossingEdge)) then mret tt
          else applyCrossingEdge (JoinHypergraph.index crossingEdge) (JoinHypergraph.leftToRight crossingEdge)
                 subgraph complement combined [] filterEdges
      | joinEdges =>
          match special_position joinEdges 0 None with
          | Some specialPosition =>
              let special := nth specialPosition joinEdges (JoinHypergraph.mkCrossingEdge 0 false) in
              let filterEdges := filterEdges ++ other_indices joinEdges specialPosition in
              if negb (canApplyFilterEdges filterEdges (JoinHypergraph.index special)) then mret tt
              else applyCrossingEdge (JoinHypergraph.index special) (JoinHypergraph.leftToRight special)
                     subgraph complement combined [] filterEdges
          | None => emitInnerEdges subgraph complement combined joinEdges filterEdges
          end
      end
  end.

(** ** The csg/cmp recursion *)

(** [for (uint64_t subset : subsets) body(set | subset)] *)
Definition for_subsets (set : RelationSet) (subsets : list N) (body : RelationSet -> E unit) : E unit :=
  for_each subsets (fun subset => body (RelationSet.ofBits (N.lor (RelationSet.bits set) subset))).

(** Each level forbids at least one relation more, and there are 64. *)
Definition recursion_fuel : nat := 65.

Fixpoint enumerateCmpRec (depth : nat) (subgraph complement forbidden : RelationSet) : E unit :=
  match depth with
  | O => throw OutOfFuel
  | S depth =>
      stop ← budget_exceeded;
      if stop : bool then mret tt
      else
        let neighbors := neighborhood graph complement forbidden in
        if RelationSet.empty neighbors then mret tt
        else
          subsets ← lift (subsetsBySize (RelationSet.bits neighbors));
          for_subsets complement subsets (fun grown =>
            entry ← find grown;
            match entry with Some _ => emitCsgCmp subgraph grown | None => mret tt end);;
          let newForbidden := RelationSet.unionSet forbidden neighbors in
          for_subsets complement subsets (fun grown => enumerateCmpRec depth subgraph grown newForbidden)
  end.

Definition emitCsg (subgraph : RelationSet) : E unit :=
  stop ← budget_exceeded;
  if stop : bool then mret tt
  else
    let forbidden := RelationSet.prefixThrough (RelationSet.min subgraph) in
    let neighbors := neighborhood graph subgraph forbidden in
    for_each (reverse (merge_sort N.le (RelationSet.ids neighbors))) (fun vertexId =>
      let complement := RelationSet.singleton vertexId in
      emitCsgCmp subgraph complement;;
      let cmpForbidden := RelationSet.unionSet forbidden subgraph in
      let vertexTail := RelationSet.intersect (RelationSet.prefixThrough vertexId) neighbors in
      enumerateCmpRec recursion_fuel subgraph complement (RelationSet.unionSet cmpForbidden vertexTail)).

Fixpoint enumerateCsgRec (depth : nat) (subgraph forbidden : RelationSet) : E unit :=
  match depth with
  | O => throw OutOfFuel
  | S depth =>
      stop ← budget_exceeded;
      if stop : bool then mret tt
      else
        let neighbors := neighborhood graph subgraph forbidden in
        if RelationSet.empty neighbors then mret tt
        else
          subsets ← lift (subsetsBySize (RelationSet.bits neighbors));
          for_subsets subgraph subsets (fun combined =>
            entry ← find combined;
            match entry with Some _ => emitCsg combined | None => mret tt end);;
          let newForbidden := RelationSet.unionSet forbidden neighbors in
          for_subsets subgraph subsets (fun combined => enumerateCsgRec depth combined newForbidden)
  end.

Definition solveComponent (component : RelationSet) : E bool :=
  modify (fun s => set_budget (EnumerationBudget.reset (budget s)) s);;
  initLeaves component;;
  for_each (reverse (RelationSet.ids component)) (fun id =>
    if RelationSet.contains expandedRelationIds id then mret tt
    else
      let subgraph := RelationSet.singleton id in
      emitCsg subgraph;;
      enumerateCsgRec recursion_fuel subgraph (RelationSet.prefixThrough id));;
  budget_exceeded.

(** [graph_.relations().back().id()] *)
Definition last_relation_id : N :=
  match last (JoinHypergraph.relations graph) with Some r => Relation.id r | None => 0 end.

Definition solve : E bool := solveComponent (RelationSet.prefixThrough last_relation_id).

(** ** Greedy operator ordering *)

(** One pass of [expandableRelations]' loop over the edges. *)
Definition expandable_pass (set gained : RelationSet) : RelationSet * bool :=
  foldl (fun '(gained, grown) edge =>
      let reached := RelationSet.unionSet set gained in
      if negb (JoinEdge.isUnnest edge) ||
         negb (RelationSet.isSubset (JoinEdge.leftEligibility edge) reached) ||
         RelationSet.isSubset (JoinEdge.rightEligibility edge) reached
      then (gained, grown)
      else (RelationSet.unionSet gained (JoinEdge.rightEligibility edge), true))
    (gained, false) edges.

Fixpoint expandable_loop (fuel : nat) (set gained : RelationSet) : Result RelationSet :=
  match fuel with
  | O => Throw OutOfFuel
  | S fuel =>
      let '(gained, grown) := expandable_pass set gained in
      if grown : bool then expandable_loop fuel set gained else Ok gained
  end.

(** A pass that grows the set gains one of 64 relations. *)
Definition expandableRelations (set : RelationSet) : Result RelationSet :=
  expandable_loop 66 set RelationSet.rsEmpty.

(** One pass of [expandThroughUnnests]' loop, from edge [edgeIndex] on. *)
Fixpoint expand_pass (es : list JoinEdge) (edgeIndex : nat) (set : RelationSet) (grown : bool)
    : E (RelationSet * bool) :=
  match es with
  | [] => mret (set, grown)
  | edge :: es =>
      if negb (JoinEdge.isUnnest edge) ||
         negb (RelationSet.isSubset (JoinEdge.leftEligibility edge) set) ||
         RelationSet.isSubset (JoinEdge.rightEligibility edge) set
      then expand_pass es (S edgeIndex) set grown
      else
        let expanded := RelationSet.unionSet set (JoinEdge.rightEligibility edge) in
        emitUnnest set edgeIndex expanded [];;
        plan ← cheapestPlan expanded;
        match plan with
        | None => expand_pass es (S edgeIndex) set grown
        | Some _ => expand_pass es (S edgeIndex) expanded true
        end
  end.

Fixpoint expand_loop (fuel : nat) (set : RelationSet) : E RelationSet :=
  match fuel with
  | O => throw OutOfFuel
  | S fuel =>
      result ← expand_pass edges 0 set false;
      let '(set, grown) := result in
      if grown : bool then expand_loop fuel set else mret set
  end.

(** The set [expandThroughUnnests] grows its argument to. *)
Definition expandThroughUnnests (set : RelationSet) : E RelationSet := expand_loop 66 set.

(** An edge that reads gained relations and reaches outside the expanded fragment. *)
Definition awaits (reached gained : RelationSet) (edge : JoinEdge) : bool :=
  negb (JoinEdge.isUnnest edge) &&
  RelationSet.hasIntersection (JoinEdge.totalEligibility edge) gained &&
  negb (RelationSet.isSubset (JoinEdge.totalEligibility edge) reached).

(** The loop over fragments; the fragments already visited are in [before]. *)
Fixpoint expandOneFragment_loop (before fragments : list RelationSet) : E (bool * list RelationSet) :=
  match fragments with
  | [] => mret (false, before)
  | fragment :: rest =>
      gained ← lift (expandableRelations fragment);
      if RelationSet.empty gained then expandOneFragment_loop (before ++ [fragment]) rest
      else
        let reached := RelationSet.unionSet fragment gained in
        if negb (existsb (awaits reached gained) edges)
        then expandOneFragment_loop (before ++ [fragment]) rest
        else
          expanded ← expandThroughUnnests fragment;
          if negb (bool_decide (expanded = fragment)) then mret (true, before ++ expanded :: rest)
          else expandOneFragment_loop (before ++ [expanded]) rest
  end.
Definition expandOneFragment (fragments : list RelationSet) : E (bool * list RelationSet) :=
  expandOneFragment_loop [] fragments.

(** The pair of least cardinality so far: its cardinality and its positions. *)
Record BestPair := mkBestPair {
  bestCardinality : float;
  bestLeft : nat;
  bestRight : nat;
  bestCombined : RelationSet;
}.

Definition pair_cardinality (plans : PlanSet) : float :=
  default Float.zero (PlanSet.cardinality plans).

Fixpoint best_pair_loop (fragments : list RelationSet) (pairs : list (nat * nat))
    (best : option BestPair) : E (option BestPair) :=
  match pairs with
  | [] => mret best
  | (i, j) :: pairs =>
      let fragmentLeft := nth i fragments RelationSet.rsEmpty in
      let fragmentRight := nth j fragments RelationSet.rsEmpty in
      let combined := RelationSet.unionSet fragmentLeft fragmentRight in
      emitCsgCmp fragmentLeft fragmentRight;;
      entry ← find combined;
      match entry with
      | None => best_pair_loop fragments pairs best
      | Some plans =>
          let cardinality := pair_cardinality plans in
          let better := match best with
                        | None => true
                        | Some b => Float.ltb cardinality (bestCardinality b)
                        end in
          best_pair_loop fragments pairs
            (if better then Some (mkBestPair cardinality i j combined) else best)
      end
  end.

(** [for i in [0, n)] [for j in [i + 1, n)] *)
Definition all_pairs (n : nat) : list (nat * nat) :=
  flat_map (fun i => map (pair i) (seq (S i) (n - S i))) (seq 0 n).

Fixpoint greedy_loop (fuel : nat) (fragments : list RelationSet) : E (option (list RelationSet)) :=
  match fuel with
  | O => throw OutOfFuel
  | S fuel =>
      if (length fragments <=? 1)%nat then mret (Some fragments)
      else
        best ← best_pair_loop fragments (all_pairs (length fragments)) None;
        match best with
        | None =>
            result ← expandOneFragment fragments;
            let '(grown, fragments) := result in
            if grown : bool then greedy_loop fuel fragments else mret None
        | Some best =>
            greedy_loop fuel
              (delete (bestRight best) (<[bestLeft best := bestCombined best]> fragments))
        end
  end.

(** A round merges two of at most 64 fragments or grows one of them: either
    lowers [65 * count - total size]. *)
Definition greedy_fuel : nat := 4161.

(** The relations that start as fragments of their own. *)
Definition fragment_ids (component : RelationSet) : list N :=
  List.filter (fun id => negb (RelationSet.contains expandedRelationIds id)) (RelationSet.ids component).

Definition greedy (component : RelationSet) : E (option MemoOp) :=
  modify (fun s => set_budget (EnumerationBudget.disable (budget s)) s);;
  initLeaves component;;
  leaves ← gets memo;
  let allCardinalitiesKnown := forallb (fun id =>
    RelationSet.contains expandedRelationIds id ||
    match leaves !! RelationSet.singleton id with
    | None => false
    | Some plans => negb (bool_decide (PlanSet.cardinality plans = None))
    end) (RelationSet.ids component) in
  if negb allCardinalitiesKnown then mret None
  else
    result ← greedy_loop greedy_fuel (map RelationSet.singleton (fragment_ids component));
    match result with
    | None => mret None
    | Some fragments =>
        dcheck (length fragments =? 1)%nat "fragments.size(), 1";;
        expandThroughUnnests (hd RelationSet.rsEmpty fragments);;
        cheapestPlan component
    end.

End Enumerator.

(** ** Checking the result *)

(** The edges a plan applies, in the order they are inserted into the set. *)
Fixpoint applied_edges (plan : MemoOp) : list nat :=
  match plan with
  | LeafOp _ _ _ => []
  | JoinOp _ l r edgeIndex _ _ keyEdges filterEdges _ =>
      edgeIndex :: keyEdges ++ filterEdges ++ applied_edges l ++ applied_edges r
  | UnnestOp _ input edgeIndex _ filterEdges => edgeIndex :: filterEdges ++ applied_edges input
  | ExchangeOp _ input _ => applied_edges input
  end.

Definition collectAppliedEdges (plan : MemoOp) (applied : gset nat) : gset nat :=
  list_to_set (applied_edges plan) ∪ applied.

(** ** [DPhyp] *)

Module DPhyp.
Section Enumerate.
Context {VB : VeloxBits} {C : Connector} {EB : ExprBuilder} {CM : CostModel} {VE : VeloxEnums}
  {GR : GroupedRead}.
Context (debug : bool) (fuel : nat) (g : QueryGraph) (nodeAt : N -> Node) (graph : JoinHypergraph).
Context (enumerationBudget numWorkers hashStageTasks broadcastSizeLimit : Z).

Abbreviation E := (StateM State) (only parsing).
Abbreviation solveComponent :=
  (solveComponent debug fuel g graph numWorkers hashStageTasks broadcastSizeLimit) (only parsing).
Abbreviation greedy :=
  (greedy debug fuel g graph numWorkers hashStageTasks broadcastSizeLimit) (only parsing).

(** The constructor's check. *)
Definition new : Result unit :=
  velox_check (2 <=? length (JoinHypergraph.relations graph))%nat
    "DPhyp requires at least two relations to enumerate join orders".

Definition checkEdgesEnforced (plan : option MemoOp) : Result unit :=
  match plan with
  | None => Ok tt
  | Some plan => JoinHypergraph.checkEdgesEnforced g graph (collectAppliedEdges plan ∅)
  end.

(** [memo_.clear()] and the construction of the [Enumerator]. *)
Definition start : E unit :=
  modify (fun s => mkState ∅ (EnumerationBudget.new enumerationBudget) (enforcementOps s) ∅ (coverCache s)).

Definition allRelations : RelationSet :=
  foldl (fun all relation => RelationSet.add all (Relation.id relation)) RelationSet.rsEmpty
    (JoinHypergraph.relations graph).

(** [enumerate()] *)
Definition enumerate : E (option MemoOp) :=
  lift (if debug then JoinHypergraph.checkConsistency nodeAt graph else Ok tt);;
  start;;
  budgetExceeded ← solve debug fuel g graph numWorkers hashStageTasks broadcastSizeLimit;
  if budgetExceeded : bool
  then
    modify (set_memo ∅);;
    greedyRoot ← greedy allRelations;
    lift (checkEdgesEnforced greedyRoot);;
    mret greedyRoot
  else
    entry ← find allRelations;
    match entry with
    | None => mret None
    | Some plans =>
        let root := PlanSet.cheapest plans in
        lift (checkEdgesEnforced root);;
        mret root
    end.

(** The loop over components of [enumerate(components)]; [None] is the early
    return of an empty vector. *)
Fixpoint enumerate_loop (components : list RelationSet) (roots : list MemoOp)
    : E (option (list MemoOp)) :=
  match components with
  | [] => mret (Some roots)
  | component :: components =>
      overflow ← solveComponent component;
      root ← (if overflow : bool then greedy component else cheapestPlan component);
      match root with
      | None => mret None
      | Some root => enumerate_loop components (roots ++ [root])
      end
  end.

(** [enumerate(components)] *)
Definition enumerate_components (components : list RelationSet) : E (list MemoOp) :=
  start;;
  roots ← enumerate_loop components [];
  match roots with
  | None => mret []
  | Some roots =>
      let applied := foldl (fun applied root => collectAppliedEdges root applied) ∅ roots in
      lift (JoinHypergraph.checkEdgesEnforced g graph applied);;
      mret roots
  end.

End Enumerate.
End DPhyp.
