(* ===== verification/Enumerations.v ===== *)
(** * What the enumeration walks: subsets, neighborhoods, the budget

    Correctness of the pure parts of [DPhyp]: [subsetsBySize] lists every
    non-empty subset of a neighborhood once, by size; [neighborhood] finds the
    canonical seeds a set can grow by; [EnumerationBudget] trips after exactly
    [cap] units and stays tripped. *)

From S2P Require Import Prelude Word64 RelationSets BitSets EstimateMath QueryGraph Joins.
From S2P Require Import Partitionings Nodes Closures Hypergraphs HypergraphFacts Memo DPhyp.
From Stdlib Require Import Lia.
Set Warnings "-clear-no-such-hyp".
Open Scope N_scope.

(** ** Submasks *)

(** [s] has only bits of [mask]. *)
Definition submask (s mask : N) : Prop := N.land s mask = s.

(** The rank of a submask: its bits at the positions of [mask], compressed. *)
Fixpoint pos_rank (mask : positive) (s : N) : N :=
  match mask with
  | xH => s
  | xO mask => pos_rank mask (N.div2 s)
  | xI mask => 2 * pos_rank mask (N.div2 s) + N.b2n (N.odd s)
  end.
Definition rank (mask s : N) : N := match mask with 0 => 0 | Npos mask => pos_rank mask s end.

Lemma div2_odd_split (s : N) : s = 2 * N.div2 s + N.b2n (N.odd s).
Proof. apply N.div2_odd. Qed.

Lemma div2_split (a : N) (c : bool) : N.div2 (2 * a + N.b2n c) = a.
Proof. rewrite N.div2_div, N.add_comm. apply N.add_b2n_double_div2. Qed.
Lemma odd_split (a : N) (c : bool) : N.odd (2 * a + N.b2n c) = c.
Proof. rewrite <- N.bit0_odd. apply N.testbit_0_r. Qed.

Lemma land_double (a b : N) (c d : bool) :
  N.land (2 * a + N.b2n c) (2 * b + N.b2n d) = 2 * N.land a b + N.b2n (c && d).
Proof.
  apply N.bits_inj. intros i. rewrite N.land_spec.
  destruct i as [|i _] using N.peano_ind; [by rewrite !N.testbit_0_r |].
  by rewrite !N.testbit_succ_r, N.land_spec.
Qed.

Lemma double_inj (a b : N) (c d : bool) : 2 * a + N.b2n c = 2 * b + N.b2n d -> a = b /\ c = d.
Proof. destruct c, d; cbn; intros H; (split; [lia | first [done | exfalso; lia]]). Qed.

Lemma submask_step (s : N) (mask : N) (d : bool) :
  submask s (2 * mask + N.b2n d) <->
  submask (N.div2 s) mask /\ (N.odd s = true -> d = true).
Proof.
  unfold submask.
  assert (E : N.land s (2 * mask + N.b2n d) = 2 * N.land (N.div2 s) mask + N.b2n (N.odd s && d))
    by (rewrite (div2_odd_split s) at 1; apply land_double).
  rewrite E. clear E. pose proof (div2_odd_split s) as Es. split.
  - intros H. rewrite <- H in Es at 1. apply double_inj in Es as [H1 H2].
    split; [done |]. intros Eo. rewrite Eo in H2. by destruct d.
  - intros [-> H]. rewrite Es at 3. f_equal. f_equal.
    destruct (N.odd s), d; try done. by discriminate H.
Qed.

Lemma mask_xI (p : positive) : Npos p~1 = 2 * Npos p + N.b2n true.
Proof. cbn. lia. Qed.
Lemma mask_xO (p : positive) : Npos p~0 = 2 * Npos p + N.b2n false.
Proof. cbn. lia. Qed.

Lemma submask_one (s : N) : submask s 1 <-> s = 0 \/ s = 1.
Proof.
  unfold submask. split.
  - intros H. pose proof (N.land_ones s 1) as E. change (N.ones 1) with 1 in E. rewrite H in E.
    pose proof (N.mod_upper_bound s 2). change (2 ^ 1) with 2 in E. lia.
  - by intros [->| ->].
Qed.

Lemma pred_double (d : N) : d <> 0 -> N.pred (2 * d + N.b2n false) = 2 * N.pred d + N.b2n true.
Proof. cbn [N.b2n]. lia. Qed.

Lemma pred_odd (d : N) : N.pred (2 * d + N.b2n true) = 2 * d + N.b2n false.
Proof. cbn [N.b2n]. lia. Qed.

(** Below [s], [(s - 1) & mask] has the rank just below. *)
Lemma pos_rank_pred (mask : positive) (s : N) :
  submask s (Npos mask) -> s <> 0 ->
  submask (N.land (N.pred s) (Npos mask)) (Npos mask) /\
  N.succ (pos_rank mask (N.land (N.pred s) (Npos mask))) = pos_rank mask s.
Proof.
  intros Hs Hnz. split.
  { unfold submask. by rewrite <- N.land_assoc, N.land_diag. }
  revert s Hs Hnz. induction mask as [mask IH|mask IH|]; intros s Hs Hnz.
  - rewrite mask_xI in Hs |- *. apply submask_step in Hs as [Hs _].
    rewrite (div2_odd_split s) at 1. destruct (N.odd s) eqn:Eo.
    + rewrite pred_odd.
      rewrite land_double. cbn [pos_rank]. rewrite Hs, Eo.
      rewrite !div2_split, odd_split. cbn [N.b2n N.odd andb]. lia.
    + assert (Hd : N.div2 s <> 0) by (intros E; apply Hnz; rewrite (div2_odd_split s), E, Eo; done).
      rewrite pred_double by done.
      rewrite land_double. cbn [pos_rank]. rewrite div2_split, odd_split, Eo.
      rewrite <- (IH (N.div2 s)) by done. cbn [N.b2n N.odd andb]. lia.
  - rewrite mask_xO in Hs |- *. apply submask_step in Hs as [Hs Ho].
    assert (Eo : N.odd s = false) by (destruct (N.odd s); [by discriminate Ho | done]).
    assert (Hd : N.div2 s <> 0) by (intros E; apply Hnz; rewrite (div2_odd_split s), E, Eo; done).
    rewrite (div2_odd_split s) at 1. rewrite Eo.
    rewrite pred_double by done.
    rewrite land_double. cbn [pos_rank]. rewrite div2_split. by apply IH.
  - apply submask_one in Hs as [->| ->]; done.
Qed.

Lemma rank_pred (mask s : N) : submask s mask -> s <> 0 ->
  submask (N.land (N.pred s) mask) mask /\ N.succ (rank mask (N.land (N.pred s) mask)) = rank mask s.
Proof.
  destruct mask as [|mask]; [| apply pos_rank_pred].
  intros Hs. unfold submask in Hs. rewrite N.land_0_r in Hs. congruence.
Qed.

Lemma pos_rank_inj (mask : positive) (s t : N) :
  submask s (Npos mask) -> submask t (Npos mask) -> pos_rank mask s = pos_rank mask t -> s = t.
Proof.
  revert s t. induction mask as [mask IH|mask IH|]; intros s t; cbn [pos_rank]; [| | done].
  - rewrite mask_xI, !submask_step. intros [Hs _] [Ht _] [H1 H2]%double_inj.
    rewrite (div2_odd_split s), (div2_odd_split t), H2. f_equal. f_equal. by apply IH.
  - rewrite mask_xO, !submask_step. intros [Hs Hos] [Ht Hot] H.
    rewrite (div2_odd_split s), (div2_odd_split t), (IH _ _ Hs Ht H).
    by destruct (N.odd s), (N.odd t); try done; [discriminate Hos | discriminate Hot].
Qed.

Lemma rank_inj (mask s t : N) : submask s mask -> submask t mask -> rank mask s = rank mask t -> s = t.
Proof.
  destruct mask as [|mask]; [| apply pos_rank_inj].
  unfold submask. rewrite !N.land_0_r. congruence.
Qed.

Lemma pos_rank_full (mask : positive) : N.succ (pos_rank mask (Npos mask)) = 2 ^ pos_popcount mask.
Proof.
  induction mask as [mask IH|mask IH|]; cbn [pos_rank pos_popcount]; [| | done].
  - rewrite N.pow_succ_r', <- IH. rewrite mask_xI, div2_split, odd_split. cbn [N.b2n]. lia.
  - by rewrite mask_xO, div2_split.
Qed.

Lemma rank_full (mask : N) : N.succ (rank mask mask) = 2 ^ popcount mask.
Proof. destruct mask; [done |]. apply pos_rank_full. Qed.

Lemma rank_zero (mask : N) : rank mask 0 = 0.
Proof.
  destruct mask as [|mask]; [done |]. cbn [rank].
  induction mask as [mask IH|mask IH|]; cbn [pos_rank]; change (N.div2 0) with 0; by rewrite ?IH.
Qed.

Lemma submask_loop_spec (mask s : N) (fuel : nat) :
  submask s mask -> rank mask s < N.of_nat fuel ->
  exists l, submask_loop fuel mask s = Ok l /\ NoDup l /\ N.of_nat (length l) = rank mask s /\
    forall t, t ∈ l <-> t <> 0 /\ submask t mask /\ rank mask t <= rank mask s.
Proof.
  revert s. induction fuel as [|fuel IH]; intros s Hs Hf; [lia |]. cbn [submask_loop].
  destruct (N.eqb_spec s 0) as [->|Hnz].
  { exists []. rewrite rank_zero. split_conj; [done | constructor | done |]. intros t.
    rewrite elem_of_nil. split; [done |]. intros (Hz & Ht & Hle). apply Hz.
    apply (rank_inj mask); [done | done |]. rewrite rank_zero. lia. }
  destruct (rank_pred mask s Hs Hnz) as [Hs' Hr].
  destruct (IH (N.land (N.pred s) mask) Hs' ltac:(lia)) as (l & El & Hnd & Hlen & Hl).
  rewrite El. exists (s :: l). split_conj; [done | | cbn [length]; lia |].
  - constructor; [| done]. rewrite Hl. intros (_ & _ & H). lia.
  - intros t. rewrite elem_of_cons, Hl. split.
    + intros [->|(? & ? & ?)]; split_conj; try done; lia.
    + intros (Hz & Ht & Hle). destruct (decide (rank mask t = rank mask s)) as [E|E].
      * left. by apply (rank_inj mask).
      * right. split_conj; [done | done | lia].
Qed.

Lemma rank_monotone_bound (mask t : N) : submask t mask -> rank mask t <= rank mask mask.
Proof.
  destruct mask as [|mask]; [done |]. cbn [rank]. revert t.
  induction mask as [mask IH|mask IH|]; intros t; cbn [pos_rank].
  - rewrite mask_xI, submask_step, div2_split, odd_split. intros [Ht _]. specialize (IH _ Ht).
    destruct (N.odd t); cbn [N.b2n]; lia.
  - rewrite mask_xO, submask_step, div2_split. intros [Ht _]. auto.
  - intros [->| ->]%submask_one; lia.
Qed.

#[export] Instance by_size_total : Total by_size.
Proof. intros a b. unfold by_size. lia. Qed.
#[export] Instance by_size_trans : Transitive by_size.
Proof. intros a b c. unfold by_size. lia. Qed.

(** What the recursion uses of [subsetsBySize]. *)
Lemma subsetsBySize_ok (bits : N) :
  exists l, subsetsBySize bits = Ok l /\ NoDup l /\ StronglySorted by_size l /\
    N.succ (N.of_nat (length l)) = 2 ^ popcount bits /\
    forall s, s ∈ l <-> s <> 0 /\ submask s bits.
Proof.
  assert (Hself : submask bits bits) by apply N.land_diag.
  assert (Hfuel : rank bits bits < N.of_nat (S (Nat.pow 2 (N.to_nat (popcount bits))))).
  { pose proof (rank_full bits) as H. rewrite Nat2N.inj_succ, Nat2N.inj_pow, N2Nat.id. cbn in *. lia. }
  destruct (submask_loop_spec bits bits _ Hself Hfuel) as (l & El & Hnd & Hlen & Hl).
  unfold subsetsBySize. rewrite El. exists (merge_sort by_size l).
  assert (Hp : merge_sort by_size l ≡ₚ l) by apply merge_sort_Permutation.
  split_conj; [done | by rewrite Hp | apply StronglySorted_merge_sort; apply _ | |].
  - rewrite Hp, Hlen. apply rank_full.
  - intros s. rewrite Hp, Hl. split; [tauto |]. intros [? ?]. split_conj; [done | done |].
    by apply rank_monotone_bound.
Qed.

(** [subsetsBySize] terminates with every non-empty subset of the
    neighborhood exactly once - all [2^n - 1] of them - smaller subsets first
    and equal sizes by bit value, so sets are grown before the sets that
    contain them. *)
Theorem subsetsBySize_enumerates_subsets (neighbors : RelationSet) :
  exists l, subsetsBySize (RelationSet.bits neighbors) = Ok l /\ NoDup l /\
    N.succ (N.of_nat (length l)) = 2 ^ RelationSet.size neighbors /\
    (forall s, s ∈ l <-> RelationSet.ofBits s ⊆ neighbors /\ s <> 0 /\ s < 2 ^ width) /\
    (forall i j a b, (i < j)%nat -> l !! i = Some a -> l !! j = Some b ->
       RelationSet.size (RelationSet.ofBits a) < RelationSet.size (RelationSet.ofBits b) \/
       (RelationSet.size (RelationSet.ofBits a) = RelationSet.size (RelationSet.ofBits b) /\ a < b)).
Proof.
  destruct (subsetsBySize_ok (RelationSet.bits neighbors)) as (l & El & Hnd & Hsort & Hlen & Hl).
  assert (Hlt : forall s, submask s (RelationSet.bits neighbors) -> s < 2 ^ width).
  { intros s Hs. rewrite <- Hs. pose proof (RelationSet.bits_lt neighbors) as Hb.
    destruct (decide (N.land s (RelationSet.bits neighbors) = 0)) as [->|Hz]; [done |].
    apply N.log2_lt_pow2; [lia |]. eapply N.le_lt_trans; [apply N.log2_land |].
    assert (RelationSet.bits neighbors <> 0) by (intros E; by rewrite E, N.land_0_r in Hz).
    assert (N.log2 (RelationSet.bits neighbors) < width) by (apply N.log2_lt_pow2; lia). lia. }
  assert (Hsub : forall s, s < 2 ^ width ->
    (RelationSet.ofBits s ⊆ neighbors <-> submask s (RelationSet.bits neighbors))).
  { intros s Hs. split.
    - intros H. unfold submask. apply N.bits_inj. intros i. rewrite N.land_spec.
      destruct (N.testbit s i) eqn:E; [| done]. cbn. apply RelationSet.elem_of_bits, H.
      apply RelationSet.elem_of_ofBits. split; [done |].
      destruct (N.lt_ge_cases i width); [done |]. by rewrite testbit_above in E.
    - intros H i [Hi _]%RelationSet.elem_of_ofBits. rewrite <- H, N.land_spec in Hi.
      by apply andb_true_iff in Hi as [_ Hi]. }
  exists l. split_conj; [done | done | done | |].
  - intros s. rewrite Hl. split.
    + intros [Hz Hs]. pose proof (Hlt s Hs). rewrite Hsub by done. auto.
    + intros (H & Hz & Hs). rewrite Hsub in H by done. auto.
  - intros i j a b Hij Ha Hb.
    assert (Hlta : a < 2 ^ width) by (eapply Hlt, Hl; by eapply list_elem_of_lookup_2).
    assert (Hltb : b < 2 ^ width) by (eapply Hlt, Hl; by eapply list_elem_of_lookup_2).
    unfold RelationSet.size. change (RelationSet.bits (RelationSet.ofBits a)) with (wrap64 a).
    change (RelationSet.bits (RelationSet.ofBits b)) with (wrap64 b). rewrite !wrap64_small by done.
    assert (Hs : by_size a b) by (eapply sorted_lookup_lt; eauto).
    assert (a <> b) by (intros ->; pose proof (NoDup_lookup _ _ _ _ Hnd Ha Hb); lia).
    destruct Hs as [?|[? ?]]; [by left | right; split; [done | lia]].
Qed.

(** ** Neighborhoods *)

Lemma side_test (a b set : RelationSet) :
  RelationSet.isSubset a set && negb (RelationSet.hasIntersection b set) = true <->
  a ⊆ set /\ forall i, i ∈ b -> i ∉ set.
Proof.
  by rewrite andb_true_iff, negb_true_iff, RelationSet.isSubset_spec, RelationSet.hasIntersection_false.
Qed.

(** [other] is the side of edge [e] a set can reach: the whole opposite side,
    when the set covers one side and touches nothing of the other. *)
Lemma oppositeSide_spec (e : JoinEdge) (set other : RelationSet) :
  edge_ok e ->
  oppositeSide e set = Some other <->
  (JoinEdge.leftEligibility e ⊆ set /\ (forall i, i ∈ JoinEdge.rightEligibility e -> i ∉ set) /\
   other = JoinEdge.rightEligibility e) \/
  (JoinEdge.rightEligibility e ⊆ set /\ (forall i, i ∈ JoinEdge.leftEligibility e -> i ∉ set) /\
   other = JoinEdge.leftEligibility e).
Proof.
  intros He. unfold oppositeSide.
  destruct (eok_right e He) as [r Hr]. apply (eok_right_sub e He) in Hr.
  destruct (RelationSet.isSubset (JoinEdge.leftEligibility e) set && _) eqn:E1;
    [| destruct (RelationSet.isSubset (JoinEdge.rightEligibility e) set && _) eqn:E2].
  - apply side_test in E1 as [H1 H2]. split; [intros [= <-]; by left |].
    intros [(_ & _ & ->)|(H & _)]; [done |]. by destruct (H2 r Hr (H r Hr)).
  - apply side_test in E2 as [H1 H2]. rewrite <- not_true_iff_false, side_test in E1.
    split; [intros [= <-]; by right |]. intros [(? & ? & ->)|(_ & _ & ->)]; [by destruct E1 | done].
  - rewrite <- not_true_iff_false, side_test in E1, E2. split; [done |].
    intros [(? & ? & _)|(? & ? & _)]; [by destruct E1 | by destruct E2].
Qed.

Lemma oppositeSide_nonempty (e : JoinEdge) (set other : RelationSet) :
  edge_ok e -> oppositeSide e set = Some other -> exists i, i ∈ other.
Proof.
  intros He [(_ & _ & ->)|(_ & _ & ->)]%oppositeSide_spec; [| | done].
  - destruct (eok_right e He) as [r Hr]. exists r. by apply (eok_right_sub e He).
  - destruct (eok_left e He) as [r Hr]. exists r. by apply (eok_left_sub e He).
Qed.

(** [other] is reachable from [set] through an edge of the graph. *)
Definition reachable_side (graph : JoinHypergraph) (set other : RelationSet) : Prop :=
  exists e, e ∈ JoinHypergraph.edges graph /\ oppositeSide e set = Some other.

Lemma elem_of_neighborhood (graph : JoinHypergraph) (set forbidden : RelationSet) (i : N) :
  graph_ok graph ->
  i ∈ neighborhood graph set forbidden <->
  exists other, reachable_side graph set other /\
    RelationSet.hasIntersection other forbidden = false /\ i = RelationSet.min other.
Proof.
  intros Hok. unfold neighborhood, reachable_side.
  assert (Hedges : Forall edge_ok (JoinHypergraph.edges graph)) by apply Hok.
  revert Hedges. generalize (JoinHypergraph.edges graph). clear Hok; intros es Hes.
  assert (H : forall acc, i ∈ foldl (fun result edge =>
      match oppositeSide edge set with
      | None => result
      | Some other =>
          if RelationSet.hasIntersection other forbidden then result
          else RelationSet.add result (RelationSet.min other)
      end) acc es <->
    i ∈ acc \/ exists other, (exists e, e ∈ es /\ oppositeSide e set = Some other) /\
      RelationSet.hasIntersection other forbidden = false /\ i = RelationSet.min other).
  { induction Hes as [|e es He Hes IH]; intros acc; cbn [foldl].
    { split; [auto |]. intros [?|(other & (e & ?%not_elem_of_nil & _) & _)]; done. }
    rewrite IH. clear IH. destruct (oppositeSide e set) as [other|] eqn:Eo.
    - destruct (oppositeSide_nonempty e set other He Eo) as [j Hj].
      assert (Hm : RelationSet.min other < width).
      { apply (RelationSet.elem_of_lt other), RelationSet.min_elem, RelationSet.empty_false. by exists j. }
      destruct (RelationSet.hasIntersection other forbidden) eqn:Ei;
        rewrite ?RelationSet.elem_of_add; set_solver by (eauto || congruence).
    - set_solver by congruence. }
  rewrite H, RelationSet.elem_of_empty_rs. naive_solver.
Qed.

(** Neighbors lie outside the set and outside what is forbidden. *)
Lemma neighborhood_outside (graph : JoinHypergraph) (set forbidden : RelationSet) (i : N) :
  graph_ok graph -> i ∈ neighborhood graph set forbidden -> (i ∉ set) /\ (i ∉ forbidden).
Proof.
  intros Hok (other & (e & He & Eo) & Hf & ->)%elem_of_neighborhood; [| done].
  assert (Hek : edge_ok e) by (eapply Forall_forall; [apply Hok | done]).
  destruct (oppositeSide_nonempty e set other Hek Eo) as [j Hj].
  assert (Hm : RelationSet.min other ∈ other) by (apply RelationSet.min_elem, RelationSet.empty_false; by exists j).
  rewrite RelationSet.hasIntersection_false in Hf. split; [| intros Hmf; exact (Hf _ Hm Hmf)].
  apply oppositeSide_spec in Eo as [(_ & Hn & ->)|(_ & Hn & ->)]; auto.
Qed.

(** The neighborhood of a set holds exactly the smallest relation of each
    whole hyperedge side the set reaches without touching a forbidden relation;
    so it is disjoint from both, and it is empty only when every reachable side
    is blocked. *)
Theorem neighborhood_exact (graph : JoinHypergraph) (set forbidden : RelationSet)
    (Hok : graph_ok graph) :
  (forall i, i ∈ neighborhood graph set forbidden <->
     exists other, reachable_side graph set other /\ (forall j, j ∈ other -> j ∉ forbidden) /\
       i ∈ other /\ forall j, j ∈ other -> i <= j) /\
  (forall i, i ∈ neighborhood graph set forbidden -> (i ∉ set) /\ (i ∉ forbidden)) /\
  (RelationSet.empty (neighborhood graph set forbidden) = true <->
     forall other, reachable_side graph set other -> exists j, j ∈ other /\ j ∈ forbidden).
Proof.
  assert (Hne : forall other, reachable_side graph set other -> RelationSet.min other ∈ other).
  { intros other (e & He & Eo). apply RelationSet.min_elem, RelationSet.empty_false.
    eapply oppositeSide_nonempty; [| done]. eapply Forall_forall; [apply Hok | done]. }
  split_conj.
  - intros i. rewrite elem_of_neighborhood by done. split.
    + intros (other & Hr & Hf & ->). rewrite RelationSet.hasIntersection_false in Hf.
      exists other. split_conj; auto using RelationSet.min_le.
    + intros (other & Hr & Hf & Hi & Hmin). exists other. split_conj; [done | |].
      * by apply RelationSet.hasIntersection_false.
      * apply N.le_antisymm; [by apply Hmin, Hne | by apply RelationSet.min_le].
  - intros i. by apply neighborhood_outside.
  - rewrite <- not_false_iff_true, RelationSet.empty_false. split.
    + intros Hn other Hr. destruct (RelationSet.hasIntersection other forbidden) eqn:E;
        [by apply RelationSet.hasIntersection_spec |].
      destruct Hn. exists (RelationSet.min other). apply elem_of_neighborhood; eauto.
    + intros Hb [i (other & Hr & Hf & _)%elem_of_neighborhood]; [| done].
      destruct (Hb other Hr) as (j & Hj & Hjf). rewrite RelationSet.hasIntersection_false in Hf.
      by apply (Hf j).
Qed.

(** ** The budget *)

(** Comparisons of budget counts, case by case. *)
Ltac budget_cases :=
  repeat match goal with
         | |- context [Z.ltb ?a ?b] => destruct (Z.ltb_spec a b)
         | |- context [Z.leb ?a ?b] => destruct (Z.leb_spec a b)
         end; cbn [andb]; first [done | lia].

(** A budget of [cap > 0] units lets exactly [cap] calls of [consume] pass and
    stops every later one; a cap of zero or less never stops one.  The count
    never passes [cap + 1], [reset] starts afresh and [disable] lets everything
    pass without counting. *)
Theorem budget_trips_after_cap (cap : Z) (calls : nat) :
  let b := Nat.iter calls (fun b => snd (EnumerationBudget.consume b)) (EnumerationBudget.new cap) in
  fst (EnumerationBudget.consume b) = (Z.ltb 0 cap && Z.leb cap (Z.of_nat calls)) /\
  EnumerationBudget.exceeded b = (Z.ltb 0 cap && Z.ltb cap (Z.of_nat calls)) /\
  EnumerationBudget.count b = (if Z.ltb 0 cap then Z.min (Z.of_nat calls) (cap + 1) else 0%Z) /\
  EnumerationBudget.reset b = EnumerationBudget.new cap /\
  EnumerationBudget.consume (EnumerationBudget.disable b) = (false, EnumerationBudget.disable b).
Proof.
  cbn zeta. set (b := Nat.iter _ _ _).
  assert (H : EnumerationBudget.cap b = cap /\ EnumerationBudget.enforced b = Z.ltb 0 cap /\
    EnumerationBudget.exceeded b = (Z.ltb 0 cap && Z.ltb cap (Z.of_nat calls)) /\
    EnumerationBudget.count b = (if Z.ltb 0 cap then Z.min (Z.of_nat calls) (cap + 1) else 0%Z)).
  { subst b. induction calls as [|calls IH].
    - cbn [Nat.iter nat_rect EnumerationBudget.new EnumerationBudget.cap EnumerationBudget.enforced
        EnumerationBudget.exceeded EnumerationBudget.count].
      split_conj; [done | done | |]; budget_cases.
    - rewrite Nat.iter_succ. set (b := Nat.iter calls _ _) in *. clearbody b. destruct IH as (Hcap & Henf & Hexc & Hcnt).
      unfold EnumerationBudget.consume. rewrite Henf.
      destruct (Z.ltb_spec 0 cap) as [Hpos|Hneg]; cbn [negb snd andb] in *; [| done].
      rewrite Hexc, Hcap, Hcnt. destruct (Z.ltb_spec cap (Z.of_nat calls)) as [Hlt|Hge];
        cbn [snd EnumerationBudget.cap EnumerationBudget.enforced EnumerationBudget.exceeded
             EnumerationBudget.count]; split_conj; try done; rewrite ?Hexc, ?Hcnt; budget_cases. }
  destruct H as (Hcap & Henf & Hexc & Hcnt). split_conj; [| done | done | |].
  - unfold EnumerationBudget.consume. rewrite Henf.
    destruct (Z.ltb_spec 0 cap) as [Hpos|Hneg]; cbn [negb andb] in *; [| done].
    rewrite Hexc, Hcap, Hcnt. destruct (Z.ltb_spec cap (Z.of_nat calls)); cbn [fst]; budget_cases.
  - unfold EnumerationBudget.reset, EnumerationBudget.new. by rewrite Hcap.
  - done.
Qed.
