(* ===== verification/PlanSoundness.v ===== *)
(** * What the plans DPhyp records are

    The abstract specification of an enumerated plan, [sound]: every join step
    applies the hypergraph's edges between its inputs - each once, in a legal
    orientation - on inputs that hold disjoint relations and sit where the join
    can run; and what follows for a whole plan: it reads every relation it covers
    once, applies every edge inside its cover, and none twice. *)

From S2P Require Import Prelude Word64 RelationSets BitSets EstimateMath QueryGraph Joins.
From S2P Require Import Partitionings Nodes Closures Hypergraphs HypergraphFacts Memo DPhyp.
From S2P Require Import Enumerations.
From Stdlib Require Import Lia.
Set Warnings "-clear-no-such-hyp".
Open Scope N_scope.

Section Plans.
Context {VB : VeloxBits} {C : Connector} {EB : ExprBuilder} {CM : CostModel} {VE : VeloxEnums}
  {GR : GroupedRead}.
Context (fuel : nat) (g : QueryGraph) (graph : JoinHypergraph) (numWorkers : Z).

(** Whether every edge between an Unnest's input and the relation it expands must
    be applied by the expansion.  The greedy fallback's expansions do not. *)
Context (strict : bool).

Abbreviation edges := (JoinHypergraph.edges graph) (only parsing).
Abbreviation edge := (JoinHypergraph.edge graph) (only parsing).

(** ** One step *)

Definition disjoint_rels (L R : RelationSet) : Prop := forall i, i ∈ L -> i ∈ R -> False.

(** The physical join [t] of inputs [L] and [R] that realizes edge [e]. *)
Inductive oriented (e : JoinEdge) (L R : RelationSet) : JoinType -> bool -> Prop :=
  | oriented_as_is :
      JoinEdge.leftEligibility e ⊆ L -> JoinEdge.rightEligibility e ⊆ R ->
      oriented e L R (JoinEdge.joinType e) false
  | oriented_swapped t :
      JoinEdge.leftEligibility e ⊆ R -> JoinEdge.rightEligibility e ⊆ L ->
      swapType (JoinEdge.joinType e) = Ok t ->
      (JoinEdge.joinType e = kLeftSemiProject -> hasRightProjectVariant e = true) ->
      oriented e L R t false
  | oriented_reversed_anti :
      JoinEdge.leftEligibility e ⊆ R -> JoinEdge.rightEligibility e ⊆ L ->
      JoinEdge.joinType e = kAnti -> hasRightProjectVariant e = true ->
      oriented e L R kAnti true.

(** The step applies each edge between [L] and [R] once, as a key of the join or
    as a filter above it; what it leaves out is implied by its keys. *)
Record accounts (L R : RelationSet) (keyed filters : list nat) : Prop := {
  acc_once : NoDup (keyed ++ filters);
  acc_crossing : forall i, i ∈ keyed ++ filters -> exists e, edges !! i = Some e /\ crosses L R e;
  acc_all : forall i e, edges !! i = Some e -> crosses L R e ->
    i ∈ keyed ++ filters \/ (JoinHypergraph.plain_inner e = true /\ implied_by g graph keyed i);
}.

(** A join step between sets [L] and [R]. *)
Record step_ok (L R : RelationSet) (step : JoinStep) : Prop := {
  step_cover : step_combined step = RelationSet.unionSet L R;
  step_disjoint : disjoint_rels L R;
  step_oriented : exists e, edges !! step_edge step = Some e /\ JoinEdge.isUnnest e = false /\
    oriented e L R (step_type step) (step_reversedAnti step) /\
    (step_filterEdges step = [] \/ keepsBothInputs (JoinEdge.joinType e) = true) /\
    (step_keyEdges step = [] \/ JoinEdge.joinType e = kInner);
  step_keys_inner : forall k, k ∈ step_keyEdges step ->
    JoinHypergraph.plain_inner (edge k) = true /\ splits L R (edge k) = true;
  step_filters_inner : forall k, k ∈ step_filterEdges step -> JoinHypergraph.plain_inner (edge k) = true;
  step_accounts : accounts L R (step_edge step :: step_keyEdges step) (step_filterEdges step);
}.

(** ** Where the inputs of a join sit *)

(** [lks] and [rks] are the join keys in the schemas of the two inputs. *)
Inductive placed (e : JoinEdge) (L R : RelationSet) (t : JoinType) (reversed : bool)
    (lks rks : list ExprCP) (lp rp : Partitioning) : Prop :=
  | placed_gathered : kind lp = kGather -> kind rp = kGather -> placed e L R t reversed lks rks lp rp
  | placed_replicated :
      kind lp = kBroadcast -> kind rp = kBroadcast -> placed e L R t reversed lks rks lp rp
  | placed_probe_copied :
      kind lp = kBroadcast -> canBroadcastProbe t = true -> reversed = false ->
      placed e L R t reversed lks rks lp rp
  | placed_build_copied :
      kind rp = kBroadcast -> canBroadcastBuild t = true -> reversed = false ->
      placed e L R t reversed lks rks lp rp
  | placed_both_kept jl jr :
      JoinEdge.nullAware e = false ->
      JoinPartitioning.from fuel g lp lks = Some jl -> JoinPartitioning.from fuel g rp rks = Some jr ->
      JoinPartitioning.coPartitionsWith jl jr = true -> placed e L R t reversed lks rks lp rp
  | placed_left_kept jl :
      JoinEdge.nullAware e = false -> JoinPartitioning.from fuel g lp lks = Some jl ->
      kind rp = kPartitioned -> replicateNullsAndAny rp = false ->
      partitionType rp = jp_partitionType jl ->
      keys rp = JoinPartitioning.correspondingKeys jl rks -> placed e L R t reversed lks rks lp rp
  | placed_right_kept jr :
      JoinEdge.nullAware e = false -> JoinPartitioning.from fuel g rp rks = Some jr ->
      kind lp = kPartitioned -> replicateNullsAndAny lp = false ->
      partitionType lp = jp_partitionType jr ->
      keys lp = JoinPartitioning.correspondingKeys jr lks -> placed e L R t reversed lks rks lp rp
  | placed_hashed :
      kind lp = kPartitioned -> kind rp = kPartitioned ->
      partitionType lp = None -> partitionType rp = None -> keys lp = lks -> keys rp = rks ->
      replicateNullsAndAny lp =
        (JoinEdge.nullAware e && RelationSet.isSubset (JoinEdge.rightEligibility e) L) ->
      replicateNullsAndAny rp =
        (JoinEdge.nullAware e && RelationSet.isSubset (JoinEdge.rightEligibility e) R) ->
      placed e L R t reversed lks rks lp rp.

(** The keys of a step, from the left input's side, in the inputs' schemas. *)
Definition step_left_keys (left right : MemoOp) (step : JoinStep) : list ExprCP :=
  keysInCoverSchema g graph (fst (orientedKeys graph left (step_edge step) (step_keyEdges step)))
    (MemoOp.cover left).
Definition step_right_keys (left right : MemoOp) (step : JoinStep) : list ExprCP :=
  keysInCoverSchema g graph (snd (orientedKeys graph left (step_edge step) (step_keyEdges step)))
    (MemoOp.cover right).

(** With one worker nothing is distributed; otherwise the inputs are placed and
    the output partitioning is the one [Join::outputPartitioning] derives. *)
Definition distributed (left right : MemoOp) (step : JoinStep) (out : Partitioning) : Prop :=
  if Z.eqb numWorkers 1 then out = default_partitioning
  else
    let lks := step_left_keys left right step in
    let rks := step_right_keys left right step in
    let e := edge (step_edge step) in
    placed e (MemoOp.cover left) (MemoOp.cover right) (step_type step) (step_reversedAnti step)
      lks rks (MemoOp.outputPartitioning left) (MemoOp.outputPartitioning right) /\
    exists t columns,
      MemoOp.emittedJoinType (step_type step) (step_reversedAnti step) = Ok t /\
      JoinHypergraph.computeOutputColumns g graph (step_combined step) = Ok columns /\
      Nodes.outputPartitioning fuel g t (MemoOp.outputPartitioning left)
        (MemoOp.outputPartitioning right) lks rks columns (JoinEdge.outputColumns e)
        (JoinEdge.sourceColumns e) = Ok out.

(** ** Sound plans *)

Definition step_of (e : nat) (t : JoinType) (ra : bool) (ks fs : list nat) (l r : MemoOp) : JoinStep :=
  mkJoinStep e t (RelationSet.unionSet (MemoOp.cover l) (MemoOp.cover r)) ra ks fs.

Inductive sound : MemoOp -> Prop :=
  | sound_leaf id p :
      id ∈ JoinHypergraph.relationIds graph -> id ∉ JoinHypergraph.expandedRelationIds graph ->
      let node := Relation.node (JoinHypergraph.relation graph id) in
      p = globalPartition (physicalProperties node) \/ p = grouped_partitioning node numWorkers ->
      sound (LeafOp (cost_of (LeafOp no_cost id p)) id p)
  | sound_join l r e t ra ks fs p :
      sound l -> sound r -> step_ok (MemoOp.cover l) (MemoOp.cover r) (step_of e t ra ks fs l r) ->
      distributed l r (step_of e t ra ks fs l r) p ->
      EstimateMath.cost (cost_of (JoinOp no_cost l r e t ra ks fs p)) <> None ->
      sound (JoinOp (cost_of (JoinOp no_cost l r e t ra ks fs p)) l r e t ra ks fs p)
  | sound_unnest input i e fs :
      sound input -> edges !! i = Some e -> JoinEdge.isUnnest e = true ->
      JoinEdge.leftEligibility e ⊆ MemoOp.cover input ->
      ~ JoinEdge.rightEndpoints e ⊆ MemoOp.cover input ->
      NoDup (i :: fs) ->
      (forall f, f ∈ i :: fs -> exists e', edges !! f = Some e' /\
         crosses (MemoOp.cover input) (JoinEdge.rightEndpoints e) e') ->
      (forall f, f ∈ fs -> JoinHypergraph.plain_inner (edge f) = true) ->
      (strict = true -> forall f e', edges !! f = Some e' ->
         crosses (MemoOp.cover input) (JoinEdge.rightEndpoints e) e' -> f ∈ i :: fs) ->
      EstimateMath.cost (cost_of (UnnestOp no_cost input i (JoinEdge.rightEndpoints e) fs)) <> None ->
      sound (UnnestOp (cost_of (UnnestOp no_cost input i (JoinEdge.rightEndpoints e) fs))
               input i (JoinEdge.rightEndpoints e) fs)
  | sound_exchange c input p :
      sound input -> kind (MemoOp.outputPartitioning input) <> kBroadcast ->
      kind p = kPartitioned \/ kind p = kGather \/ kind p = kBroadcast ->
      sound (ExchangeOp c input p).

(** A plan recorded for the set [S]. *)
Definition plan_for (S : RelationSet) (p : MemoOp) : Prop := sound p /\ MemoOp.cover p = S.

(** ** Whole plans *)

(** The relations a plan reads or expands, in plan order. *)
Fixpoint plan_relations (p : MemoOp) : list N :=
  match p with
  | LeafOp _ id _ => [id]
  | JoinOp _ l r _ _ _ _ _ _ => plan_relations l ++ plan_relations r
  | UnnestOp _ input _ u _ => plan_relations input ++ RelationSet.ids u
  | ExchangeOp _ input _ => plan_relations input
  end.

(** An unnest edge expands one relation, which no other edge expands. *)
Definition unnests_distinct : Prop :=
  (forall i e, edges !! i = Some e -> JoinEdge.isUnnest e = true ->
     exists id, JoinEdge.rightEndpoints e = RelationSet.singleton id /\ id < width) /\
  (forall i j e f, edges !! i = Some e -> edges !! j = Some f -> JoinEdge.isUnnest e = true ->
     JoinEdge.isUnnest f = true -> JoinEdge.rightEndpoints e = JoinEdge.rightEndpoints f -> i = j).

Context (Hok : graph_ok graph) (Hunnests : unnests_distinct).

Lemma edge_at_ok i e : edges !! i = Some e -> edge_ok e.
Proof. intros H. eapply Forall_lookup_1; [apply Hok | exact H]. Qed.

Lemma edge_at i e : edges !! i = Some e -> edge i = e.
Proof. intros H. unfold JoinHypergraph.edge. by apply nth_lookup_Some. Qed.

(** Both sides of an edge hold some relation. *)
Lemma edge_sides i e : edges !! i = Some e ->
  (exists l, l ∈ JoinEdge.leftEligibility e) /\ exists r, r ∈ JoinEdge.rightEligibility e.
Proof.
  intros He%edge_at_ok. split.
  - destruct (eok_left e He) as [l Hl]. exists l. by apply (eok_left_sub e He).
  - destruct (eok_right e He) as [r Hr]. exists r. by apply (eok_right_sub e He).
Qed.

Lemma unnest_disjoint i e S : edges !! i = Some e -> JoinEdge.isUnnest e = true ->
  ~ JoinEdge.rightEndpoints e ⊆ S -> disjoint_rels S (JoinEdge.rightEndpoints e).
Proof.
  intros He Hu Hn. destruct (proj1 Hunnests i e He Hu) as (id & Eid & Hlt).
  rewrite Eid in Hn |- *. intros j Hj [-> _]%RelationSet.elem_of_singleton_rs. apply Hn.
  by intros k [-> _]%RelationSet.elem_of_singleton_rs.
Qed.

Lemma sound_nonempty p : sound p -> exists i, i ∈ MemoOp.cover p.
Proof.
  induction 1 as [id p Hid Hx node _|l r e t ra ks fs p Hl [i Hi] Hr IHr _ _ _
    |input i e fs Hin [j Hj] He Hu Hsub Hn _ _ _ _ _|c input p Hin IH _ _]; cbn [MemoOp.cover].
  - exists id. apply RelationSet.elem_of_singleton_rs. split; [done |]. by eapply RelationSet.elem_of_lt.
  - exists i. apply RelationSet.elem_of_unionSet. auto.
  - exists j. apply RelationSet.elem_of_unionSet. auto.
  - done.
Qed.

(** A plan reads each relation it covers exactly once. *)
Lemma sound_relations p : sound p ->
  NoDup (plan_relations p) /\ forall i, i ∈ plan_relations p <-> i ∈ MemoOp.cover p.
Proof.
  induction 1 as [id p Hid Hx node _|l r e t ra ks fs p Hl [IHl Hcl] Hr [IHr Hcr] Hs _ _
    |input i e fs Hin [IH Hc] He Hu Hsub Hn _ _ _ _ _|c input p Hin IH _ _];
    cbn [MemoOp.cover plan_relations].
  - split; [apply NoDup_singleton |]. intros i.
    rewrite list_elem_of_singleton, RelationSet.elem_of_singleton_rs.
    apply RelationSet.elem_of_lt in Hid. naive_solver.
  - split.
    + apply NoDup_app. split_conj; [done | | done]. intros i Hi%Hcl Hi'%Hcr.
      exact (step_disjoint _ _ _ Hs i Hi Hi').
    + intros i. by rewrite elem_of_app, RelationSet.elem_of_unionSet, Hcl, Hcr.
  - split.
    + apply NoDup_app. split_conj; [done | | apply RelationSet.ids_NoDup].
      intros j Hj%Hc Hj'%RelationSet.elem_of_ids. exact (unnest_disjoint i e _ He Hu Hn j Hj Hj').
    + intros j. by rewrite elem_of_app, RelationSet.elem_of_unionSet, Hc, RelationSet.elem_of_ids.
  - done.
Qed.

(** ** The edges a plan applies *)

(** The edges of a step are new: none lies inside an input. *)
Lemma step_edges_new L R (own below : list nat) :
  (forall i, i ∈ own -> exists e, edges !! i = Some e /\ crosses L R e) ->
  (forall i, i ∈ below -> exists e, edges !! i = Some e /\
     (JoinEdge.totalEligibility e ⊆ L \/ JoinEdge.totalEligibility e ⊆ R)) ->
  forall i, i ∈ own -> i ∉ below.
Proof.
  intros Hown Hbelow i Hi Hb. destruct (Hown i Hi) as (e & He & _ & HnL & HnR).
  destruct (Hbelow i Hb) as (e' & He' & Hin). simplify_eq. tauto.
Qed.

Lemma sub_union_l (a L R : RelationSet) : a ⊆ L -> a ⊆ RelationSet.unionSet L R.
Proof. intros H i Hi. apply RelationSet.elem_of_unionSet. auto. Qed.
Lemma sub_union_r (a L R : RelationSet) : a ⊆ R -> a ⊆ RelationSet.unionSet L R.
Proof. intros H i Hi. apply RelationSet.elem_of_unionSet. auto. Qed.

Lemma sound_applied p : sound p ->
  NoDup (applied_edges p) /\
  forall i, i ∈ applied_edges p -> exists e, edges !! i = Some e /\ JoinEdge.totalEligibility e ⊆ MemoOp.cover p.
Proof.
  induction 1 as [id p Hid Hx node _|l r e t ra ks fs p Hl [IHl Hcl] Hr [IHr Hcr] Hs _ _
    |input i e fs Hin [IH Hc] He Hu Hsub Hn Hnd Hcross _ _ _|c input p Hin IH _ _];
    cbn [MemoOp.cover applied_edges].
  - split; [constructor |]. by intros i ?%not_elem_of_nil.
  - pose proof (step_accounts _ _ _ Hs) as Hacc.
    assert (Hown := acc_crossing _ _ _ _ Hacc). assert (Hnd := acc_once _ _ _ _ Hacc).
    cbn [step_of step_edge step_keyEdges step_filterEdges app] in Hown, Hnd.
    change (e :: ks ++ fs ++ applied_edges l ++ applied_edges r)
      with ((e :: ks) ++ fs ++ applied_edges l ++ applied_edges r).
    rewrite app_assoc. set (own := (e :: ks) ++ fs) in *.
    assert (Hbelow : forall i, i ∈ applied_edges l ++ applied_edges r -> exists e, edges !! i = Some e /\
      (JoinEdge.totalEligibility e ⊆ MemoOp.cover l \/ JoinEdge.totalEligibility e ⊆ MemoOp.cover r)).
    { intros i [(e' & ? & ?)%Hcl|(e' & ? & ?)%Hcr]%elem_of_app; exists e'; auto. }
    split.
    + apply NoDup_app. split_conj; [done | by apply (step_edges_new _ _ _ _ Hown Hbelow) |].
      apply NoDup_app. split_conj; [done | | done]. intros i (e1 & He1 & Hs1)%Hcl (e2 & He2 & Hs2)%Hcr.
      simplify_eq. destruct (edge_sides i e1 He1) as [[j Hj] _].
      assert (Hj' : j ∈ JoinEdge.totalEligibility e1) by (apply elem_of_totalEligibility; auto).
      exact (step_disjoint _ _ _ Hs j (Hs1 j Hj') (Hs2 j Hj')).
    + intros i [(e' & He' & Hx & _)%Hown|(e' & He' & [?|?])%Hbelow]%elem_of_app; exists e';
        split; auto using sub_union_l, sub_union_r.
  - change (i :: fs ++ applied_edges input) with ((i :: fs) ++ applied_edges input).
    assert (Hbelow : forall k, k ∈ applied_edges input -> exists e', edges !! k = Some e' /\
      (JoinEdge.totalEligibility e' ⊆ MemoOp.cover input \/
       JoinEdge.totalEligibility e' ⊆ JoinEdge.rightEndpoints e)).
    { intros k (e' & ? & ?)%Hc. exists e'. auto. }
    split.
    + apply NoDup_app. split_conj; [done | by apply (step_edges_new _ _ _ _ Hcross Hbelow) | done].
    + intros k [(e' & He' & Hx & _)%Hcross|(e' & He' & [?|?])%Hbelow]%elem_of_app; exists e';
        split; auto using sub_union_l, sub_union_r.
  - done.
Qed.

(** An edge inside the union of two sets lies inside one of them or crosses. *)
Lemma inside_union L R e :
  JoinEdge.totalEligibility e ⊆ RelationSet.unionSet L R ->
  JoinEdge.totalEligibility e ⊆ L \/ JoinEdge.totalEligibility e ⊆ R \/ crosses L R e.
Proof.
  intros H. destruct (RelationSet.isSubset (JoinEdge.totalEligibility e) L) eqn:EL;
    [left; by apply RelationSet.isSubset_spec |].
  destruct (RelationSet.isSubset (JoinEdge.totalEligibility e) R) eqn:ER;
    [right; left; by apply RelationSet.isSubset_spec |].
  right; right. rewrite RelationSet.isSubset_false in EL, ER. done.
Qed.

(** No side of an edge fits in one relation. *)
Lemma edge_not_singleton i e id : edges !! i = Some e ->
  ~ JoinEdge.totalEligibility e ⊆ RelationSet.singleton id.
Proof.
  intros He Hsub. destruct (edge_sides i e He) as [[l Hl] [r Hr]].
  assert (Hl' : l ∈ RelationSet.singleton id) by (apply Hsub, elem_of_totalEligibility; auto).
  assert (Hr' : r ∈ RelationSet.singleton id) by (apply Hsub, elem_of_totalEligibility; auto).
  apply RelationSet.elem_of_singleton_rs in Hl' as [-> _], Hr' as [-> _].
  exact (eok_disjoint e (edge_at_ok i e He) id Hl Hr).
Qed.

Lemma implied_by_mono kept kept' i :
  (forall j, j ∈ kept -> j ∈ kept') -> implied_by g graph kept i -> implied_by g graph kept' i.
Proof.
  intros Hsub H k Hk. destruct (H k Hk) as (c & j & k' & Hc & Hj & Hlt & Hc').
  exists c, j, k'. auto.
Qed.

Lemma sound_complete p : strict = true -> sound p ->
  forall i e, edges !! i = Some e -> JoinEdge.totalEligibility e ⊆ MemoOp.cover p ->
    i ∈ applied_edges p \/
    (JoinHypergraph.plain_inner e = true /\ implied_by g graph (applied_edges p) i).
Proof.
  intros Hstrict Hp. assert (Hwiden : forall (kept kept' : list nat) i (e : JoinEdge),
    (forall j, j ∈ kept -> j ∈ kept') ->
    i ∈ kept \/ (JoinHypergraph.plain_inner e = true /\ implied_by g graph kept i) ->
    i ∈ kept' \/ (JoinHypergraph.plain_inner e = true /\ implied_by g graph kept' i)).
  { intros kept kept' i e Hsub [?|[? ?]]; [auto |]. right. eauto using implied_by_mono. }
  induction Hp as [id p Hid Hx node _|l r e t ra ks fs p Hl IHl Hr IHr Hs _ _
    |input i e fs Hin IH He Hu Hsub Hn Hnd Hcross _ Hall _|c input p Hin IH _ _];
    cbn [MemoOp.cover applied_edges]; intros j e' He' Hcov.
  - by destruct (edge_not_singleton j e' id He').
  - apply inside_union in Hcov as [Hcov|[Hcov|Hcov]].
    + eapply Hwiden; [| by apply IHl]. intros k Hk. right. rewrite !elem_of_app. auto.
    + eapply Hwiden; [| by apply IHr]. intros k Hk. right. rewrite !elem_of_app. auto.
    + destruct (acc_all _ _ _ _ (step_accounts _ _ _ Hs) j e' He' Hcov) as [H|[Hpl Himp]].
      * left. cbn in H. apply elem_of_cons in H as [->|H]; [left | right].
        apply elem_of_app in H as [H|H]; rewrite !elem_of_app; auto.
      * right. split; [done |]. eapply implied_by_mono; [| exact Himp].
        intros k [->|Hk]%elem_of_cons; [left | right]. apply elem_of_app. auto.
  - apply inside_union in Hcov as [Hcov|[Hcov|Hcov]].
    + eapply Hwiden; [| by apply IH]. intros k Hk. right. apply elem_of_app. auto.
    + destruct (proj1 Hunnests i e He Hu) as (id & Eid & _). rewrite Eid in Hcov.
      by destruct (edge_not_singleton j e' id He').
    + left. specialize (Hall Hstrict j e' He' Hcov).
      apply elem_of_cons in Hall as [->|Hj]; [left | right]. apply elem_of_app. auto.
  - by apply IH.
Qed.

(** Only a leaf covers one relation, and no Unnest expands a leaf. *)
Lemma sound_single p id : sound p -> MemoOp.cover p = RelationSet.singleton id ->
  id ∈ JoinHypergraph.relationIds graph /\ id ∉ JoinHypergraph.expandedRelationIds graph.
Proof.
  assert (Hsame : forall L i, i ∈ L -> L ⊆ RelationSet.singleton id -> L = RelationSet.singleton id).
  { intros L i Hi Hsub. apply RelationSet.rs_ext. intros j. split; [apply Hsub |].
    intros [-> _]%RelationSet.elem_of_singleton_rs. by apply Hsub in Hi as Hj; 
      apply RelationSet.elem_of_singleton_rs in Hj as [-> _]. }
  induction 1 as [id' p Hid Hx node _|l r e t ra ks fs p Hl IHl Hr IHr Hs _ _
    |input i e fs Hin IH He Hu Hsub Hn _ _ _ _ _|c input p Hin IH _ _]; cbn [MemoOp.cover]; intros Hc.
  - assert (Hin : id' ∈ RelationSet.singleton id).
    { rewrite <- Hc. apply RelationSet.elem_of_singleton_rs. split; [done |]. by eapply RelationSet.elem_of_lt. }
    by apply RelationSet.elem_of_singleton_rs in Hin as [-> _].
  - destruct (sound_nonempty l Hl) as [i Hi], (sound_nonempty r Hr) as [j Hj].
    assert (Hi' : i ∈ RelationSet.singleton id) by (rewrite <- Hc; apply RelationSet.elem_of_unionSet; auto).
    assert (Hj' : j ∈ RelationSet.singleton id) by (rewrite <- Hc; apply RelationSet.elem_of_unionSet; auto).
    apply RelationSet.elem_of_singleton_rs in Hi' as [-> _], Hj' as [-> _].
    by destruct (step_disjoint _ _ _ Hs id Hi Hj).
  - destruct (sound_nonempty input Hin) as [j Hj]. apply IH, (Hsame _ j Hj). rewrite <- Hc.
    by apply sub_union_l.
  - auto.
Qed.
End Plans.
