(* ===== verification/Candidates.v ===== *)
(** * Candidates: every plan the enumerator records is sound

    The enumerator's state invariant, and for each operation that considers a
    candidate - the leaves, the distribution strategies, the orientations - that
    it keeps the invariant, records only sound plans under the set they cover,
    and fails only where the program means to. *)

From S2P Require Import Prelude Word64 RelationSets BitSets EstimateMath QueryGraph Joins.
From S2P Require Import Partitionings Nodes Closures Hypergraphs HypergraphFacts HypergraphColumns.
From S2P Require Import Memo DPhyp Enumerations PlanSoundness.
From Stdlib Require Import Lia.
Set Warnings "-clear-no-such-hyp".
Open Scope N_scope.

(** The join types a cluster's edges may have. *)
Definition cluster_type (t : JoinType) : bool :=
  match t with
  | kInner | kLeft | kFull | kLeftSemiFilter | kLeftSemiProject | kAnti | kCountingLeftSemiFilter => true
  | _ => false
  end.

(** What planning needs of the hypergraph and of the configuration. *)
Record cluster_ok (graph : JoinHypergraph) (numWorkers : Z) : Prop := {
  cok_graph : graph_ok graph;
  cok_unnests : unnests_distinct graph;
  cok_types : forall i e, JoinHypergraph.edges graph !! i = Some e -> JoinEdge.isUnnest e = false ->
    cluster_type (JoinEdge.joinType e) = true;
  cok_workers : (1 <= numWorkers)%Z;
}.

Section Candidates.
Context {VB : VeloxBits} {C : Connector} {EB : ExprBuilder} {CM : CostModel} {VE : VeloxEnums}
  {GR : GroupedRead}.
Context (debug : bool) (fuel : nat) (g : QueryGraph) (graph : JoinHypergraph).
Context (numWorkers hashStageTasks broadcastSizeLimit enumerationBudget : Z) (strict : bool).
Context (Hcluster : cluster_ok graph numWorkers).

(** The errors planning may report: those of expression interning, and the
    refusal of a step two non-inner edges cross. *)
Definition two_special_edges : Error := VeloxCheck
  "Two or more edges crossing one join partition are not plain inner joins: {}, unnest: {}".
Definition planning_error (e : Error) : Prop :=
  e = two_special_edges \/ exists key sources outputs, substitute key sources outputs = Throw e.

Abbreviation sound := (sound fuel g graph numWorkers strict).
Abbreviation plan_for := (plan_for fuel g graph numWorkers strict).
Abbreviation edges := (JoinHypergraph.edges graph) (only parsing).
Abbreviation edge := (JoinHypergraph.edge graph) (only parsing).

(** The budget has its cap, and without one it never trips. *)
Definition budget_ok (b : EnumerationBudget) : Prop :=
  EnumerationBudget.cap b = enumerationBudget /\
  ((enumerationBudget <= 0)%Z -> EnumerationBudget.exceeded b = false /\ EnumerationBudget.enforced b = false).

Record state_ok (s : State) : Prop := {
  sok_memo : forall S plans, memo s !! S = Some plans -> plans <> [] /\ forall p, p ∈ plans -> plan_for S p;
  sok_ops : Forall sound (enforcementOps s);
  sok_grouped : forall id p, groupedPartitions s !! id = Some p ->
    p = grouped_partitioning (Relation.node (JoinHypergraph.relation graph id)) numWorkers;
  sok_cache : cache_ok g (with_cache graph (coverCache s));
  sok_budget : budget_ok (budget s);
}.

Abbreviation spec := (spec state_ok planning_error).

(** ** State accesses *)

Lemma dcheck_spec (b : bool) what : b = true -> spec (dcheck debug b what) (fun _ => True).
Proof. intros ->. apply spec_lift. by destruct debug. Qed.

Lemma budget_new_ok : budget_ok (EnumerationBudget.new enumerationBudget).
Proof. split; [done |]. intros H. split; [done |]. by apply Z.ltb_ge. Qed.

Lemma budget_reset_ok b : budget_ok b -> budget_ok (EnumerationBudget.reset b).
Proof. intros [H1 H2]. split; [done |]. intros H. split; [done |]. cbn. rewrite H1. by apply Z.ltb_ge. Qed.

Lemma budget_disable_ok b : budget_ok b -> budget_ok (EnumerationBudget.disable b).
Proof. intros [H1 H2]. split; [done |]. intros H. by destruct (H2 H). Qed.

Lemma budget_consume_ok b : budget_ok b -> budget_ok (snd (EnumerationBudget.consume b)).
Proof.
  intros Hb. pose proof Hb as [H1 H2]. unfold EnumerationBudget.consume.
  destruct (negb (EnumerationBudget.enforced b)) eqn:E; [done |].
  destruct (EnumerationBudget.exceeded b) eqn:Ee; [done |]. split; [done |]. intros H.
  destruct (H2 H) as [_ H3]. by rewrite H3 in E.
Qed.

Lemma set_budget_ok f s : (forall b, budget_ok b -> budget_ok (f b)) -> state_ok s ->
  state_ok (set_budget (f (budget s)) s).
Proof. intros Hf [H1 H2 H3 H4 H5]. constructor; try done. by apply Hf. Qed.

Lemma consume_spec : spec consume (fun _ => True).
Proof.
  intros s Hs. unfold consume.
  pose proof (set_budget_ok (fun b => snd (EnumerationBudget.consume b)) s budget_consume_ok Hs) as H.
  cbn in H. destruct (EnumerationBudget.consume (budget s)) as [stop b]. done.
Qed.

Lemma budget_exceeded_spec : spec budget_exceeded (fun stop => (enumerationBudget <= 0)%Z -> stop = false).
Proof. apply spec_gets. intros s Hs H. by apply (sok_budget s Hs). Qed.

Definition entry_ok (S : RelationSet) (entry : option PlanSet) : Prop :=
  forall plans, entry = Some plans -> plans <> [] /\ forall p, p ∈ plans -> plan_for S p.

Lemma memo_find_spec S : spec (find S) (entry_ok S).
Proof. apply spec_gets. intros s Hs plans E. by apply (sok_memo s Hs). Qed.

Definition found (S : RelationSet) (plan : option MemoOp) : Prop :=
  forall p, plan = Some p -> plan_for S p.

Lemma cheapestPlan_spec S : spec (cheapestPlan S) (found S).
Proof.
  eapply spec_bind; [apply memo_find_spec |]. intros entry He. apply spec_ret.
  intros p Hp. destruct entry as [plans|]; [| done]. destruct (He plans eq_refl) as [_ H].
  apply H. by apply cheapest_elem.
Qed.

Lemma memo_addPlan_spec S op : plan_for S op -> spec (memo_addPlan S op) (fun _ => True).
Proof.
  intros Hop. apply spec_modify. intros s [H1 H2 H3 H4 H5]. constructor; [| done | done | done | done].
  intros S' plans. cbn [memo set_memo]. rewrite lookup_insert_Some.
  intros [[<- <-]|[_ H]]; [| by apply H1]. split; [apply addPlan_nonempty |].
  intros p [Hp| ->]%elem_of_addPlan; [| done].
  destruct (memo s !! S) as [old|] eqn:E; cbn in Hp; [by apply (H1 S old) | by apply not_elem_of_nil in Hp].
Qed.

(** ** Leaves *)

Lemma leaf_for id p :
  id ∈ JoinHypergraph.relationIds graph -> id ∉ JoinHypergraph.expandedRelationIds graph ->
  (let node := Relation.node (JoinHypergraph.relation graph id) in
   p = globalPartition (physicalProperties node) \/ p = grouped_partitioning node numWorkers) ->
  plan_for (RelationSet.singleton id) (with_model_cost (LeafOp no_cost id p)).
Proof. intros Hid Hx Hp. split; [by constructor | done]. Qed.

Lemma initLeaves_spec relations :
  relations ⊆ JoinHypergraph.relationIds graph -> spec (initLeaves graph relations) (fun _ => True).
Proof.
  intros Hsub. apply spec_for_each. intros id Hid%RelationSet.elem_of_ids.
  destruct (RelationSet.contains _ id) eqn:Ex; [by eauto with spec |].
  eapply spec_bind; [apply memo_find_spec |]. intros [plans|] _; [by eauto with spec |].
  apply memo_addPlan_spec, leaf_for; [by apply Hsub | | by left].
  intros Hin. apply RelationSet.contains_spec in Hin; [congruence |].
  by eapply RelationSet.elem_of_lt.
Qed.

(** ** Enforced children *)

Lemma sameClassAs_fields p q : Partitioning.sameClassAs p q = true ->
  kind p = kind q /\ partitionType p = partitionType q /\
  replicateNullsAndAny p = replicateNullsAndAny q /\ keys p = keys q.
Proof. apply sameClassAs_spec. Qed.

(** A child for [S] whose partitioning is of the class of [required]. *)
Definition enforced (S : RelationSet) (required : Partitioning) (plan : option MemoOp) : Prop :=
  forall p, plan = Some p ->
    plan_for S p /\ Partitioning.sameClassAs (MemoOp.outputPartitioning p) required = true.

Lemma makeExchange_spec S child p c :
  plan_for S child -> kind (MemoOp.outputPartitioning child) <> kBroadcast ->
  kind p = kPartitioned \/ kind p = kGather \/ kind p = kBroadcast ->
  spec (makeExchange child p c) (fun op => plan_for S op /\ MemoOp.outputPartitioning op = p).
Proof.
  intros [Hs Hc] Hb Hk. assert (Hx : sound (ExchangeOp c child p)) by by constructor.
  eapply spec_bind; [apply spec_modify |].
  - intros s [H1 H2 H3 H4 H5]. constructor; [done | | done | done | done].
    apply Forall_app. split; [done | by constructor].
  - intros _ _. by apply spec_ret.
Qed.

Lemma bestOnPartitioning_spec S required :
  kind required = kPartitioned \/ kind required = kGather ->
  spec (bestOnPartitioning S required) (enforced S required).
Proof.
  intros Hk. eapply spec_bind; [apply memo_find_spec |]. intros [plans|] He; [| by eauto with spec].
  cbn zeta. destruct (PlanSet.plan (PlanSet.best (mkRequired (Some required)) plans)) as [p|] eqn:Ep; [| by eauto with spec].
  assert (Hp : plan_for S p) by (apply (He plans eq_refl); by eapply best_elem).
  destruct (Partitioning.sameClassAs _ required) eqn:Esame.
  { apply spec_ret. by intros q [= <-]. }
  destruct (Partitioning.is_ _ kBroadcast) eqn:Eb; [by eauto with spec |].
  apply bool_decide_eq_false in Eb.
  eapply spec_bind; [apply (makeExchange_spec S); [done | done | tauto] |].
  intros op [Hop Eop]. apply spec_ret. intros q [= <-]. rewrite Eop. split; [done | apply sameClassAs_refl].
Qed.

Lemma gatheredSmall_spec input : spec (gatheredSmall broadcastSizeLimit input)
  (fun plan => forall p, plan = Some p ->
     plan_for (MemoOp.cover input) p /\ kind (MemoOp.outputPartitioning p) = kGather).
Proof.
  unfold gatheredSmall. destruct (broadcastSizeIfFits_op _ _); [| by eauto with spec].
  eapply spec_weaken; [apply bestOnPartitioning_spec; by right |].
  intros plan H p Ep. destruct (H p Ep) as [Hp (Hk & _)%sameClassAs_fields]. done.
Qed.

(** A child for [S] hash partitioned as given. *)
Definition hashed (S : RelationSet) (t : option PartitionTypeP) (ks : list ExprCP) (replicate : bool)
    (plan : option MemoOp) : Prop :=
  forall p, plan = Some p -> plan_for S p /\ kind (MemoOp.outputPartitioning p) = kPartitioned /\
    partitionType (MemoOp.outputPartitioning p) = t /\ keys (MemoOp.outputPartitioning p) = ks /\
    replicateNullsAndAny (MemoOp.outputPartitioning p) = replicate.

Lemma repartitioned_spec S ks replicate :
  spec (repartitioned g graph S ks replicate) (hashed S None (keysInCoverSchema g graph ks S) replicate).
Proof.
  unfold repartitioned, Partitioning.hash. rewrite orb_true_r by done. cbn [velox_check].
  eapply spec_bind with (Q := eq _); [by apply spec_lift |]. intros required <-.
  eapply spec_weaken; [apply bestOnPartitioning_spec; by left |].
  intros plan H p Ep. destruct (H p Ep) as [Hp (Hk & Ht & Hr & Hks)%sameClassAs_fields]. done.
Qed.

Lemma repartitionedTo_spec S ks t :
  spec (repartitionedTo g graph S ks t) (hashed S (Some t) (keysInCoverSchema g graph ks S) false).
Proof.
  eapply spec_weaken; [apply bestOnPartitioning_spec; by left |].
  intros plan H p Ep. destruct (H p Ep) as [Hp (Hk & Ht & Hr & Hks)%sameClassAs_fields]. done.
Qed.

(** A copy of [S] on every task of the probe's stage. *)
Definition copied (S : RelationSet) (probe : Partitioning) (plan : option MemoOp) : Prop :=
  forall p, plan = Some p -> plan_for S p /\
    kind (MemoOp.outputPartitioning p) = if Partitioning.is_ probe kGather then kGather else kBroadcast.

Lemma replicatedChild_spec S probe :
  spec (replicatedChild numWorkers hashStageTasks broadcastSizeLimit S probe) (copied S probe).
Proof.
  eapply spec_bind; [apply cheapestPlan_spec |]. intros [base|] Hb; [| by eauto with spec].
  specialize (Hb base eq_refl). destruct (broadcastSizeIfFits_op _ _); [| by eauto with spec].
  unfold copied. destruct (Partitioning.is_ probe kGather) eqn:Eg; cbn [negb];
    rewrite ?andb_false_r, ?andb_true_r.
  - unfold Partitioning.globalReplicatedTo. rewrite Eg. cbn.
    eapply spec_weaken; [apply bestOnPartitioning_spec; by right |].
    intros plan H p Ep. destruct (H p Ep) as [Hp (Hk & _)%sameClassAs_fields]. done.
  - destruct (Partitioning.is_ (MemoOp.outputPartitioning base) kBroadcast) eqn:Ebr.
    { apply bool_decide_eq_true in Ebr. apply spec_ret. by intros p [= <-]. }
    apply bool_decide_eq_false in Ebr. unfold Partitioning.globalReplicatedTo. rewrite Eg.
    cbn [Partitioning.is_ Partitioning.globalBroadcast kind bool_decide].
    eapply spec_bind; [apply (makeExchange_spec S); [done | done | by right; right] |].
    intros op [Hop Eop]. apply spec_ret. intros p [= <-]. by rewrite Eop.
Qed.

(** ** Join keys *)

Lemma orientedKeys_cover l l' i ks : MemoOp.cover l = MemoOp.cover l' ->
  orientedKeys graph l i ks = orientedKeys graph l' i ks.
Proof.
  intros H. unfold orientedKeys. generalize (([], []) : list ExprCP * list ExprCP).
  induction (i :: ks) as [|k rest IH]; intros [a b]; cbn [foldl]; [done |].
  replace (collect_keys l (edge k)) with (collect_keys l' (edge k)) by (unfold collect_keys; by rewrite H).
  apply IH.
Qed.

Lemma edge_keys_length i : length (JoinEdge.leftKeys (edge i)) = length (JoinEdge.rightKeys (edge i)).
Proof.
  unfold JoinHypergraph.edge. destruct (edges !! i) as [e|] eqn:E.
  - rewrite (nth_lookup_Some _ _ _ _ E). eapply eok_keys, edge_at_ok; [apply Hcluster | exact E].
  - by rewrite nth_lookup, E.
Qed.

Lemma orientedKeys_length l i ks :
  length (fst (orientedKeys graph l i ks)) = length (snd (orientedKeys graph l i ks)).
Proof.
  unfold orientedKeys.
  enough (H : forall rest acc, length (fst acc) = length (snd acc) ->
    length (fst (foldl (fun '(leftKeys, rightKeys) index =>
      let '(lk, rk) := collect_keys l (edge index) in (leftKeys ++ lk, rightKeys ++ rk)) acc rest)) =
    length (snd (foldl (fun '(leftKeys, rightKeys) index =>
      let '(lk, rk) := collect_keys l (edge index) in (leftKeys ++ lk, rightKeys ++ rk)) acc rest)))
    by (by apply H).
  induction rest as [|k rest IH]; intros [a b] Hab; cbn [foldl]; [done |].
  apply IH. unfold collect_keys. pose proof (edge_keys_length k).
  destruct (RelationSet.isSubset _ _); cbn in *; rewrite !length_app; lia.
Qed.

Lemma keysInCoverSchema_length ks S : length (keysInCoverSchema g graph ks S) = length ks.
Proof. apply length_map. Qed.

(** Rewriting keys commutes with picking some of them. *)
Lemma keysInCoverSchema_corresponding jp ks S :
  Forall (fun i => i < length ks)%nat (keyPositions jp) ->
  keysInCoverSchema g graph (JoinPartitioning.correspondingKeys jp ks) S =
  JoinPartitioning.correspondingKeys jp (keysInCoverSchema g graph ks S).
Proof.
  unfold keysInCoverSchema, JoinPartitioning.correspondingKeys. rewrite map_map.
  induction 1 as [|i ps Hi _ IH]; [done |]. cbn [map]. f_equal; [| exact IH].
  apply lookup_lt_is_Some_2 in Hi as [k Hk]. rewrite (nth_lookup_Some _ _ _ _ Hk).
  symmetry. apply nth_lookup_Some. by rewrite list_lookup_fmap, Hk.
Qed.

(** ** Output partitionings *)

Lemma full_join_keys_errors parts lks rks columns jout jsrc :
  match full_join_keys fuel g parts lks rks columns jout jsrc with
  | Ok _ => True
  | Throw e => planning_error e
  end.
Proof.
  assert (Hone : forall l r, match full_join_key fuel g l r lks rks columns jout jsrc with
    | Ok _ => True | Throw e => planning_error e end).
  { intros l r. unfold full_join_key. destruct (join_key_index _ _ _ _ _ _) as [j|]; [| done].
    destruct (substitute (nth j lks 0) jsrc jout) as [lk|e] eqn:El; cbn [mbind Result_bind];
      [| right; eauto].
    destruct (substitute (nth j rks 0) jsrc jout) as [rk|e] eqn:Er; cbn [mbind Result_bind];
      [| right; eauto].
    destruct (_ || _ || _ || _); [done |]. by destruct (negb _). }
  induction parts as [|[l r] parts IH]; cbn [full_join_keys]; [done |].
  specialize (Hone l r). destruct (full_join_key _ _ _ _ _ _ _ _ _) as [[k|]|e]; cbn; try done.
  destruct (full_join_keys _ _ parts _ _ _ _ _); done.
Qed.

Lemma outputPartitioning_errors t lp rp lks rks columns jout jsrc :
  length lks = length rks -> t <> kNumJoinTypes ->
  match Nodes.outputPartitioning fuel g t lp rp lks rks columns jout jsrc with
  | Ok _ => True
  | Throw e => planning_error e
  end.
Proof.
  intros Hlen Ht. unfold Nodes.outputPartitioning. rewrite Hlen, Nat.eqb_refl. cbn [velox_check mbind Result_bind].
  destruct (_ && _); [done |]. destruct (_ && _); [done |].
  assert (Hfollow : forall (A : Type) (k : Sides -> Result A), (forall x, exists a, k x = Ok a) ->
    match preservedSides t ≫= k with Ok _ => True | Throw e => planning_error e end).
  { intros A k Hk. destruct t; cbn; try (by destruct (Hk (mkSides true true)) as [? ->]);
      try (by destruct (Hk (mkSides true false)) as [? ->]);
      try (by destruct (Hk (mkSides false true)) as [? ->]);
      by try destruct (Hk (mkSides false false)) as [? ->]. }
  assert (Hk : forall x, exists a, (fun preserved =>
      if negb (left_ preserved) && negb (right_ preserved) then Ok (Partitioning.unspecified (scope lp))
      else if fromLeft preserved lp then Ok (inherit_partitioning g t lp rp columns)
      else Ok (inherit_partitioning g t rp lp columns)) x = Ok a).
  { intros x. destruct (_ && _); [by eexists |]. destruct (fromLeft x lp); by eexists. }
  destruct t; try exact (Hfollow _ _ Hk). unfold fullJoinPartitioning.
  destruct (bool_decide _); [done |]. destruct (_ || _ || _ || _ || _); [done |].
  destruct (Partitioning.commonJoinPartitionType _ _) as [ct|]; [| done].
  pose proof (full_join_keys_errors (zip (keys lp) (keys rp)) lks rks columns jout jsrc) as He.
  destruct (full_join_keys _ _ _ _ _ _ _ _) as [[ks|]|e]; done.
Qed.

Lemma coverOutputColumns_spec S : spec (coverOutputColumns g graph S)
  (fun columns => JoinHypergraph.computeOutputColumns g graph S = Ok columns).
Proof.
  intros s Hs. unfold coverOutputColumns.
  destruct (computeOutputColumns_spec g graph S) as (result & Er & _).
  destruct (JoinHypergraph.coverOutputColumns g (with_cache graph (coverCache s)) S) as [[columns graph']|e] eqn:E.
  - apply coverOutputColumns_computes in E as Hc; [| apply Hs]. destruct Hc as [Hc Hcache].
    rewrite computeOutputColumns_cache in Hc. split; [| done].
    destruct Hs as [H1 H2 H3 H4 H5]. constructor; [done | done | done | | done].
    intros cover cols Hl. cbn [coverCache set_coverCache] in Hl |- *.
    specialize (Hcache cover cols). cbn in Hl, Hcache. rewrite computeOutputColumns_cache.
    rewrite <- (Hcache Hl). symmetry.
    unfold JoinHypergraph.coverOutputColumns in E. destruct (_ !! S); [injection E as _ <- |].
    + apply computeOutputColumns_cache.
    + rewrite computeOutputColumns_cache, Er in E. cbn in E. injection E as _ <-.
      apply (computeOutputColumns_cache g graph).
  - exfalso. unfold JoinHypergraph.coverOutputColumns in E. destruct (_ !! S); [done |].
    by rewrite computeOutputColumns_cache, Er in E.
Qed.

Lemma oriented_emitted e i L R t ra : edges !! i = Some e -> JoinEdge.isUnnest e = false ->
  oriented e L R t ra -> exists t', MemoOp.emittedJoinType t ra = Ok t' /\ t' <> kNumJoinTypes.
Proof.
  intros He Hu Ho. pose proof (cok_types _ _ Hcluster i e He Hu) as Ht.
  destruct Ho as [_ _|t _ _ Hsw _|]; cbn; [| | by eexists].
  - eexists. split; [done |]. by destruct (JoinEdge.joinType e).
  - eexists. split; [done |]. destruct (JoinEdge.joinType e); try done; by injection Hsw as <-.
Qed.

(** ** Recording a join *)

Lemma addJoinCandidate_spec l r step p :
  sound l -> sound r -> step_ok g graph (MemoOp.cover l) (MemoOp.cover r) step ->
  distributed fuel g graph numWorkers l r step p ->
  spec (addJoinCandidate l r step p) (fun _ => True).
Proof.
  intros Hl Hr Hs Hd. unfold addJoinCandidate.
  eapply spec_bind; [apply consume_spec |]. intros _ _. cbn zeta.
  destruct (EstimateMath.cost (MemoOp.cost (with_model_cost _))) as [c|] eqn:Ec; [| by eauto with spec].
  pose proof (step_cover _ _ _ _ _ Hs) as Ecover. destruct step as [e t combined ra ks fs].
  cbn [step_edge step_type step_combined step_reversedAnti step_keyEdges step_filterEdges] in *.
  subst combined. apply memo_addPlan_spec. split; [| done]. constructor; [done | done | exact Hs | exact Hd |].
  unfold with_model_cost in Ec. cbn in Ec. by rewrite Ec.
Qed.

(** The precondition of the strategies: children for [L] and [R], a legal step and
    the keys [considerCandidate] computed. *)
Record pair_ok (L R : RelationSet) (l r : MemoOp) (step : JoinStep) (lks rks : list ExprCP) : Prop := {
  pair_workers : Z.eqb numWorkers 1 = false;
  pair_left : plan_for L l;
  pair_right : plan_for R r;
  pair_step : step_ok g graph L R step;
  pair_keys : (lks, rks) = orientedKeys graph l (step_edge step) (step_keyEdges step);
}.

Lemma pair_keys_length L R l r step lks rks : pair_ok L R l r step lks rks -> length lks = length rks.
Proof.
  intros H. pose proof (orientedKeys_length l (step_edge step) (step_keyEdges step)) as E.
  by rewrite <- (pair_keys _ _ _ _ _ _ _ H) in E.
Qed.

(** Other children for the same sets keep the precondition. *)
Lemma pair_ok_children L R l r l' r' step lks rks :
  pair_ok L R l r step lks rks -> plan_for L l' -> plan_for R r' -> pair_ok L R l' r' step lks rks.
Proof.
  intros [H1 [_ H2] H3 H4 H5] [Hl' El'] Hr'. constructor; try done.
  rewrite H5. apply orientedKeys_cover. congruence.
Qed.

Definition pair_placed (L R : RelationSet) (l r : MemoOp) (step : JoinStep) (lks rks : list ExprCP) : Prop :=
  placed fuel g (edge (step_edge step)) L R (step_type step) (step_reversedAnti step)
    (keysInCoverSchema g graph lks L) (keysInCoverSchema g graph rks R)
    (MemoOp.outputPartitioning l) (MemoOp.outputPartitioning r).

Lemma addDistributedJoinCandidate_spec L R l r step lks rks :
  pair_ok L R l r step lks rks -> pair_placed L R l r step lks rks ->
  spec (addDistributedJoinCandidate fuel g graph l r step lks rks) (fun _ => True).
Proof.
  intros Hp Hplaced. pose proof (pair_keys_length _ _ _ _ _ _ _ Hp) as Hlen.
  destruct Hp as [Hw [Hl El] [Hr Er] Hs Hk]. unfold addDistributedJoinCandidate, candidateOutputPartitioning.
  destruct (step_oriented _ _ _ _ _ Hs) as (e & He & Hu & Ho & _).
  destruct (oriented_emitted e _ _ _ _ _ He Hu Ho) as (t & Et & Ht).
  eapply (spec_bind _ _ _ _ (fun p => distributed fuel g graph numWorkers l r step p)).
  - cbn zeta. rewrite Et. eapply (spec_bind _ _ _ _ (eq t)); [by apply spec_lift |]. intros _ <-.
    eapply spec_bind; [apply coverOutputColumns_spec |]. intros columns Hcolumns. apply spec_lift.
    pose proof (outputPartitioning_errors t (MemoOp.outputPartitioning l) (MemoOp.outputPartitioning r)
      (keysInCoverSchema g graph lks (MemoOp.cover l)) (keysInCoverSchema g graph rks (MemoOp.cover r))
      columns (JoinEdge.outputColumns (edge (step_edge step))) (JoinEdge.sourceColumns (edge (step_edge step))))
      as Herr.
    destruct (Nodes.outputPartitioning _ _ _ _ _ _ _ _ _ _) as [p|err] eqn:Ep;
      [| apply Herr; [by rewrite !keysInCoverSchema_length | done]].
    unfold distributed, step_left_keys, step_right_keys. rewrite Hw, <- Hk. cbn [fst snd].
    split; [by rewrite El, Er |]. exists t, columns. auto.
  - intros p Hd. apply addJoinCandidate_spec; [done | done | by rewrite El, Er | done].
Qed.

(** ** Retained partitionings *)

Lemma find_if_found {A} (test : A -> bool) (l : list A) x :
  x ∈ l -> test x = true -> exists i, JoinPartitioning.find_if test l = Some i.
Proof.
  induction 1 as [x l|x y l _ IH]; intros Hx; cbn.
  - rewrite Hx. by eexists.
  - destruct (test y); [by eexists |]. destruct (IH Hx) as [i ->]. by eexists.
Qed.

Lemma sameOrEqual_refl n e : sameOrEqual n g e e = true.
Proof. destruct n; cbn; by rewrite N.eqb_refl. Qed.

(** A reusable plan's partitioning maps to the keys it was asked for. *)
Lemma reusable_from ks p : PlanSet.reusable ks p = true ->
  exists jp, JoinPartitioning.from fuel g (MemoOp.outputPartitioning p) ks = Some jp.
Proof.
  unfold PlanSet.reusable. rewrite negb_true_iff, !orb_false_iff.
  intros [[[_ Hk] Hr] Hc]. unfold Partitioning.coLocates in Hc. rewrite negb_false_iff in Hk, Hc.
  rewrite Hk in Hc. cbn [negb orb] in Hc. destruct (bool_decide (keys _ = [])) eqn:Ene; [done |].
  unfold JoinPartitioning.from. rewrite Hk, Ene, Hr. cbn [negb orb].
  assert (Hall : forall k, k ∈ keys (MemoOp.outputPartitioning p) -> k ∈ ks).
  { intros k Hin. rewrite forallb_forall in Hc. apply PlanObjectSet.elem_of_fromObjects, BitSet.bitset_contains_spec.
    by apply Hc, list_elem_of_In. }
  revert Hall. clear Ene Hc. induction (keys _) as [|k rest IH]; intros Hall; cbn.
  { by eexists. }
  destruct (find_if_found (fun joinKey => sameOrEqual fuel g joinKey k) ks k) as [i ->];
    [apply Hall; left | apply sameOrEqual_refl |].
  destruct IH as [jp Hjp]; [intros k' Hk'; apply Hall; by right |].
  destruct (JoinPartitioning.positions_of fuel g ks rest); [| done]. by eexists.
Qed.

Definition offer_ok (S : RelationSet) (ks : list ExprCP) (o : MemoPartitioningOffer) : Prop :=
  plan_for S (offer_plan o) /\
  JoinPartitioning.from fuel g (MemoOp.outputPartitioning (offer_plan o)) (keysInCoverSchema g graph ks S)
    = Some (offer_partitioning o).

Lemma add_offer_ok S ks p jp result :
  offer_ok S ks (mkOffer p jp) -> Forall (offer_ok S ks) result ->
  Forall (offer_ok S ks) (add_offer p jp result).
Proof.
  intros Hp. induction 1 as [|o rest Ho Hrest IH]; cbn [add_offer]; [constructor; [done | constructor] |].
  destruct (_ && _); [destruct (Float.ltb _ _) |]; by constructor.
Qed.

Lemma makeOffers_ok S ks plans result :
  (forall p, p ∈ plans -> plan_for S p /\ PlanSet.reusable (keysInCoverSchema g graph ks S) p = true) ->
  Forall (offer_ok S ks) result ->
  exists offers, makeOffers fuel g (keysInCoverSchema g graph ks S) plans result = Ok offers /\
    Forall (offer_ok S ks) offers.
Proof.
  revert result. induction plans as [|p plans IH]; intros result Hplans Hres; cbn [makeOffers]; [eauto |].
  destruct (Hplans p ltac:(left)) as [Hp Hreuse]. destruct (reusable_from _ _ Hreuse) as [jp Ejp].
  rewrite Ejp. apply IH; [intros q Hq; apply Hplans; by right |]. by apply add_offer_ok.
Qed.

(** Alternatives of [S] that are reusable on [ks]. *)
Definition alternatives_ok (S : RelationSet) (ks : list ExprCP) (a : PlanSet.PartitioningAlternatives) : Prop :=
  forall p, p ∈ PlanSet.connectorBucketed a \/ p ∈ PlanSet.standardHash a ->
    plan_for S p /\ PlanSet.reusable ks p = true.

Lemma partitioningsOnSubsets_ok S ks plans :
  (forall p, p ∈ plans -> plan_for S p) -> alternatives_ok S ks (PlanSet.partitioningsOnSubsets ks plans).
Proof. intros H p [Hp Hr]%partitioningsOnSubsets_elem. auto. Qed.

Lemma groupedRelationPartition_spec id : spec (groupedRelationPartition graph numWorkers id)
  (fun p => p = grouped_partitioning (Relation.node (JoinHypergraph.relation graph id)) numWorkers).
Proof.
  eapply spec_bind.
  - apply (spec_gets _ _ _ (fun cached => forall p, cached = Some p ->
      p = grouped_partitioning (Relation.node (JoinHypergraph.relation graph id)) numWorkers)).
    intros s Hs p E. by apply (sok_grouped s Hs).
  - intros [p|] H; [by apply spec_ret, H |]. cbn zeta.
    eapply spec_bind; [apply spec_modify | intros _ _; by apply spec_ret].
    intros s [H1 H2 H3 H4 H5]. constructor; [done | done | | done | done].
    intros id' p. cbn [groupedPartitions set_groupedPartitions]. rewrite lookup_insert_Some.
    intros [[<- <-]|[_ Hl]]; [done | by apply H3].
Qed.

Lemma singleton_of_size S : (RelationSet.size S =? 1) = true -> S = RelationSet.singleton (RelationSet.min S).
Proof.
  rewrite N.eqb_eq, RelationSet.size_ids. intros Hlen.
  destruct (RelationSet.ids S) as [|i [|j rest]] eqn:E; [done | | cbn in Hlen; lia].
  assert (Hmin : RelationSet.min S = i) by (apply RelationSet.head_ids; by rewrite E).
  apply RelationSet.rs_ext. intros k.
  rewrite <- RelationSet.elem_of_ids, E, list_elem_of_singleton, RelationSet.elem_of_singleton_rs, Hmin.
  assert (Hi : i ∈ S) by (rewrite <- RelationSet.elem_of_ids, E; left).
  apply RelationSet.elem_of_lt in Hi. naive_solver.
Qed.

Lemma partitioningsOn_spec S ks : Z.eqb numWorkers 1 = false ->
  spec (partitioningsOn debug g graph numWorkers S ks) (alternatives_ok S (keysInCoverSchema g graph ks S)).
Proof.
  intros Hw. assert (Hnone : alternatives_ok S (keysInCoverSchema g graph ks S) no_alternatives)
    by (by intros p [?%not_elem_of_nil|?%not_elem_of_nil]).
  eapply spec_bind; [apply memo_find_spec |]. intros [plans|] He; [| by eauto with spec].
  destruct (He plans eq_refl) as [Hne Hplans]. cbn zeta.
  pose proof (partitioningsOnSubsets_ok S (keysInCoverSchema g graph ks S) plans Hplans) as Halt.
  destruct (negb _); [by eauto with spec |].
  eapply spec_bind; [apply dcheck_spec |].
  { apply Z.ltb_lt. apply Z.eqb_neq in Hw. pose proof (cok_workers _ _ Hcluster). lia. }
  intros _ _. destruct (RelationSet.size S =? 1) eqn:Esize; cbn [negb]; [| by eauto with spec].
  apply singleton_of_size in Esize.
  eapply spec_bind; [apply groupedRelationPartition_spec |]. intros p ->.
  destruct (negb _); [by eauto with spec |].
  eapply spec_bind.
  - apply memo_addPlan_spec. destruct plans as [|q plans]; [done |].
    destruct (Hplans q ltac:(left)) as [Hq Ecover]. rewrite Esize in Ecover.
    destruct (sound_single fuel g graph numWorkers strict q _ Hq Ecover) as [Hid Hx].
    rewrite Esize at 1. apply leaf_for; [done | done | by right].
  - intros _ _. eapply spec_bind; [apply memo_find_spec |]. intros entry Hentry. apply spec_ret.
    apply partitioningsOnSubsets_ok. intros q Hq. destruct entry as [plans'|]; [| by apply not_elem_of_nil in Hq].
    by apply (Hentry plans' eq_refl).
Qed.

Definition offers_ok (S : RelationSet) (ks : list ExprCP) (offers : MemoPartitioningOffers) : Prop :=
  Forall (offer_ok S ks) (hash_offers offers) /\ Forall (offer_ok S ks) (connector_offers offers).

Lemma partitioningOffers_spec S plan ks : Z.eqb numWorkers 1 = false -> MemoOp.cover plan = S ->
  spec (partitioningOffers debug fuel g graph numWorkers plan ks) (offers_ok S ks).
Proof.
  intros Hw <-. eapply spec_bind; [by apply partitioningsOn_spec |]. intros a Ha. cbn zeta.
  destruct (makeOffers_ok (MemoOp.cover plan) ks (PlanSet.standardHash a) []) as (hash & -> & Hhash);
    [auto | constructor |].
  destruct (makeOffers_ok (MemoOp.cover plan) ks (PlanSet.connectorBucketed a) []) as (conn & -> & Hconn);
    [auto | constructor |].
  eapply (spec_bind _ _ _ _ (eq hash)); [by apply spec_lift |]. intros _ <-.
  eapply (spec_bind _ _ _ _ (eq conn)); [by apply spec_lift |]. intros _ <-. by apply spec_ret.
Qed.

(** ** Strategies *)

Section Strategies.
Context (L R : RelationSet) (l r : MemoOp) (step : JoinStep) (lks rks : list ExprCP).
Context (Hpair : pair_ok L R l r step lks rks).

Lemma pair_covers : MemoOp.cover l = L /\ MemoOp.cover r = R.
Proof. split; [apply (pair_left _ _ _ _ _ _ _ Hpair) | apply (pair_right _ _ _ _ _ _ _ Hpair)]. Qed.

(** Joining enforced children that sit where the join can run. *)
Lemma add_children_spec l' r' : plan_for L l' -> plan_for R r' ->
  pair_placed L R l' r' step lks rks ->
  spec (addDistributedJoinCandidate fuel g graph l' r' step lks rks) (fun _ => True).
Proof.
  intros Hl Hr. apply addDistributedJoinCandidate_spec. by eapply pair_ok_children.
Qed.

Lemma addEnforced_spec lo ro :
  (forall l' r', lo = Some l' -> ro = Some r' ->
     plan_for L l' /\ plan_for R r' /\ pair_placed L R l' r' step lks rks) ->
  spec (addEnforced fuel g graph lo ro step lks rks) (fun _ => True).
Proof.
  intros H. unfold addEnforced. destruct lo as [l'|], ro as [r'|]; try by apply spec_ret.
  destruct (H l' r' eq_refl eq_refl) as (Hl & Hr & Hp). by apply add_children_spec.
Qed.

Lemma gatherStrategy_spec : spec (gatherStrategy fuel g graph broadcastSizeLimit l r step lks rks) (fun _ => True).
Proof.
  destruct pair_covers as [El Er]. unfold gatherStrategy. cbn zeta. apply spec_when. intros _.
  assert (Hside : forall S p, plan_for S p ->
    spec (if Partitioning.is_ (MemoOp.outputPartitioning p) kGather then mret (Some p)
          else gatheredSmall broadcastSizeLimit p)
      (fun o => forall q, o = Some q -> plan_for S q /\ kind (MemoOp.outputPartitioning q) = kGather)).
  { intros S p [Hp <-]. destruct (Partitioning.is_ _ kGather) eqn:E; [| apply gatheredSmall_spec].
    apply bool_decide_eq_true in E. apply spec_ret. by intros q [= <-]. }
  eapply spec_bind; [apply (Hside L), Hpair |]. intros lo Hlo.
  eapply spec_bind; [apply (Hside R), Hpair |]. intros ro Hro.
  apply addEnforced_spec. intros l' r' -> ->.
  destruct (Hlo l' eq_refl) as [? ?], (Hro r' eq_refl) as [? ?].
  split_conj; [done | done |]. by apply placed_gathered.
Qed.

Lemma replicateStrategy_spec :
  spec (replicateStrategy fuel g graph numWorkers hashStageTasks broadcastSizeLimit l r step lks rks)
    (fun _ => True).
Proof.
  destruct pair_covers as [El Er]. unfold replicateStrategy. cbn zeta. apply spec_when. intros _.
  assert (Hside : forall S p, plan_for S p ->
    spec (if Partitioning.is_ (MemoOp.outputPartitioning p) kBroadcast then mret (Some p)
          else replicatedChild numWorkers hashStageTasks broadcastSizeLimit (MemoOp.cover p)
                 Partitioning.globalBroadcast)
      (fun o => forall q, o = Some q -> plan_for S q /\ kind (MemoOp.outputPartitioning q) = kBroadcast)).
  { intros S p [Hp <-]. destruct (Partitioning.is_ _ kBroadcast) eqn:E; [| apply replicatedChild_spec].
    apply bool_decide_eq_true in E. apply spec_ret. by intros q [= <-]. }
  eapply spec_bind; [apply (Hside L), Hpair |]. intros lo Hlo.
  eapply spec_bind; [apply (Hside R), Hpair |]. intros ro Hro.
  eapply spec_bind; [apply addEnforced_spec |].
  { intros l' r' -> ->. destruct (Hlo l' eq_refl) as [? ?], (Hro r' eq_refl) as [? ?].
    split_conj; [done | done |]. by apply placed_replicated. }
  intros _ _. apply spec_when. rewrite !andb_true_iff, negb_true_iff. intros [[[Hl _] Ht] Hra].
  apply bool_decide_eq_true in Hl. apply addDistributedJoinCandidate_spec with (L := L) (R := R); [done |].
  apply placed_probe_copied; [done | done | by apply negb_true_iff].
Qed.

Lemma broadcastStrategy_spec :
  spec (broadcastStrategy fuel g graph numWorkers hashStageTasks broadcastSizeLimit l r step lks rks)
    (fun _ => True).
Proof.
  destruct pair_covers as [El Er]. unfold broadcastStrategy. apply spec_when.
  rewrite andb_true_iff, negb_true_iff. intros [Ht Hra].
  eapply spec_bind; [apply replicatedChild_spec |]. intros [r'|] Hr'; [| by eauto with spec].
  destruct (Hr' r' eq_refl) as [Hfor Hk]. rewrite Er in Hfor.
  apply add_children_spec; [apply Hpair | done |].
  destruct (Partitioning.is_ (MemoOp.outputPartitioning l) kGather) eqn:E.
  - apply bool_decide_eq_true in E. by apply placed_gathered.
  - by apply placed_build_copied.
Qed.

(** [from] records positions among the keys and the partition type. *)
Lemma offer_fields S ks o : offer_ok S ks o ->
  Forall (fun i => i < length ks)%nat (keyPositions (offer_partitioning o)) /\
  jp_partitionType (offer_partitioning o) = partitionType (MemoOp.outputPartitioning (offer_plan o)).
Proof.
  intros [_ H]. split.
  - apply from_positions_bounded in H. by rewrite keysInCoverSchema_length in H.
  - by apply from_spec in H as (_ & _ & _ & ? & _).
Qed.

(** Moving one side to the partitioning the other keeps. *)
Lemma moved_spec moved ks o : offer_ok L lks o \/ offer_ok R rks o ->
  (length ks = length lks) ->
  spec (match partitionType (MemoOp.outputPartitioning (offer_plan o)) with
        | None => repartitioned g graph moved (JoinPartitioning.correspondingKeys (offer_partitioning o) ks) false
        | Some t => repartitionedTo g graph moved (JoinPartitioning.correspondingKeys (offer_partitioning o) ks) t
        end)
    (hashed moved (jp_partitionType (offer_partitioning o))
       (JoinPartitioning.correspondingKeys (offer_partitioning o) (keysInCoverSchema g graph ks moved)) false).
Proof.
  intros Ho Hlen. pose proof (pair_keys_length _ _ _ _ _ _ _ Hpair) as Hlr.
  assert (Hf : Forall (fun i => i < length ks)%nat (keyPositions (offer_partitioning o)) /\
    jp_partitionType (offer_partitioning o) = partitionType (MemoOp.outputPartitioning (offer_plan o))).
  { destruct Ho as [Ho|Ho]; apply offer_fields in Ho as [H ->]; (split; [| done]); rewrite Hlen; [done | by rewrite Hlr]. }
  destruct Hf as [Hpos Ht]. rewrite Ht, <- keysInCoverSchema_corresponding by done.
  destruct (partitionType _); [apply repartitionedTo_spec | apply repartitioned_spec].
Qed.

Lemma addCoPartitionedCandidate_spec los ros :
  JoinEdge.nullAware (edge (step_edge step)) = false ->
  Forall (offer_ok L lks) los -> Forall (offer_ok R rks) ros ->
  spec (addCoPartitionedCandidate fuel g graph l r lks rks step los ros) (fun _ => True).
Proof.
  intros Hna Hlos Hros. destruct pair_covers as [El Er].
  pose proof (pair_keys_length _ _ _ _ _ _ _ Hpair) as Hlen. rewrite Forall_forall in Hlos, Hros.
  unfold addCoPartitionedCandidate. eapply spec_bind; [apply spec_for_each |].
  { intros lo Hlo. apply spec_for_each. intros ro Hro. apply spec_when. intros Hco.
    destruct (Hlos lo Hlo) as [Hl Hlf], (Hros ro Hro) as [Hr Hrf].
    apply add_children_spec; [done | done |]. by eapply placed_both_kept. }
  intros _ _. eapply spec_bind; [apply spec_for_each |].
  - intros o Ho. specialize (Hlos o Ho). unfold addAligned. cbn zeta. rewrite Er.
    eapply spec_bind; [apply moved_spec; [by left | by rewrite Hlen] |]. intros [p|] Hp; [| by eauto with spec].
    destruct (Hp p eq_refl) as (Hfor & Hk & Ht & Hks & Hrep), Hlos as [Hl Hlf].
    apply add_children_spec; [done | done |]. by eapply placed_left_kept.
  - intros _ _. apply spec_for_each. intros o Ho. specialize (Hros o Ho). unfold addAligned. cbn zeta. rewrite El.
    eapply spec_bind; [apply moved_spec; [by right | done] |]. intros [p|] Hp; [| by eauto with spec].
    destruct (Hp p eq_refl) as (Hfor & Hk & Ht & Hks & Hrep), Hros as [Hr Hrf].
    apply add_children_spec; [done | done |]. by eapply placed_right_kept.
Qed.

(** Hashing both sides on the full join keys. *)
Lemma hash_both_spec leftReplicate rightReplicate :
  leftReplicate = JoinEdge.nullAware (edge (step_edge step)) &&
    RelationSet.isSubset (JoinEdge.rightEligibility (edge (step_edge step))) L ->
  rightReplicate = JoinEdge.nullAware (edge (step_edge step)) &&
    RelationSet.isSubset (JoinEdge.rightEligibility (edge (step_edge step))) R ->
  spec (leftPart ← repartitioned g graph (MemoOp.cover l) lks leftReplicate;
        rightPart ← repartitioned g graph (MemoOp.cover r) rks rightReplicate;
        addEnforced fuel g graph leftPart rightPart step lks rks) (fun _ => True).
Proof.
  intros Hlrep Hrrep. destruct pair_covers as [El Er].
  eapply spec_bind; [apply repartitioned_spec |]. intros lo Hlo.
  eapply spec_bind; [apply repartitioned_spec |]. intros ro Hro. rewrite El in Hlo. rewrite Er in Hro.
  apply addEnforced_spec. intros l' r' -> ->.
  destruct (Hlo l' eq_refl) as (Hfl & Hkl & Htl & Hksl & Hrl), (Hro r' eq_refl) as (Hfr & Hkr & Htr & Hksr & Hrr).
  split_conj; [done | done |]. apply placed_hashed; try done; by (rewrite Hrl || rewrite Hrr).
Qed.

Lemma partitionStrategy_spec :
  spec (partitionStrategy debug fuel g graph numWorkers l r step lks rks) (fun _ => True).
Proof.
  destruct pair_covers as [El Er]. unfold partitionStrategy. cbn zeta. apply spec_when. intros _.
  destruct (JoinEdge.nullAware (edge (step_edge step))) eqn:Ena.
  { apply hash_both_spec; by rewrite Ena, ?El, ?Er. }
  pose proof (pair_workers _ _ _ _ _ _ _ Hpair) as Hw.
  eapply spec_bind; [by apply (partitioningOffers_spec L) |]. intros los [Hlh Hlc].
  eapply spec_bind; [by apply (partitioningOffers_spec R) |]. intros ros [Hrh Hrc].
  eapply spec_bind; [by apply addCoPartitionedCandidate_spec |]. intros _ _.
  eapply spec_bind; [by apply addCoPartitionedCandidate_spec |]. intros _ _.
  destruct (hash_offers los), (connector_offers los), (hash_offers ros), (connector_offers ros);
    try by apply spec_ret.
  apply hash_both_spec; by rewrite Ena.
Qed.
End Strategies.

Lemma considerCandidate_spec l r step :
  sound l -> sound r -> step_ok g graph (MemoOp.cover l) (MemoOp.cover r) step ->
  spec (considerCandidate debug fuel g graph numWorkers hashStageTasks broadcastSizeLimit l r step)
    (fun _ => True).
Proof.
  intros Hl Hr Hs. unfold considerCandidate. destruct (Z.eqb numWorkers 1) eqn:Ew.
  { apply addJoinCandidate_spec; [done | done | done |]. unfold distributed. by rewrite Ew. }
  destruct (orientedKeys graph l (step_edge step) (step_keyEdges step)) as [lks rks] eqn:Ek.
  assert (Hpair : pair_ok (MemoOp.cover l) (MemoOp.cover r) l r step lks rks) by by constructor.
  eapply spec_bind; [by eapply gatherStrategy_spec |]. intros _ _.
  eapply spec_bind; [by eapply replicateStrategy_spec |]. intros _ _.
  eapply spec_bind; [by eapply partitionStrategy_spec |]. intros _ _.
  by eapply broadcastStrategy_spec.
Qed.
End Candidates.
