(* ===== verification/Emission.v ===== *)
(** * Emission: csg/cmp pairs, the recursion and the greedy fallback

    For every operation of the enumerator above a single candidate, that it
    keeps the state invariant, fails only where the program means to, and never
    runs out of fuel: the edges of a pair become a legal step that accounts for
    all of them, the recursion forbids more relations at each level, and every
    greedy round merges or grows a fragment. *)

From S2P Require Import Prelude Word64 RelationSets BitSets EstimateMath QueryGraph Joins.
From S2P Require Import Partitionings Nodes Closures Hypergraphs HypergraphFacts HypergraphColumns.
From S2P Require Import Memo DPhyp Enumerations PlanSoundness Candidates.
From Stdlib Require Import Lia.
Set Warnings "-clear-no-such-hyp".
Open Scope N_scope.

Section Emission.
Context {VB : VeloxBits} {C : Connector} {EB : ExprBuilder} {CM : CostModel} {VE : VeloxEnums}
  {GR : GroupedRead}.
Context (debug : bool) (fuel : nat) (g : QueryGraph) (graph : JoinHypergraph).
Context (numWorkers hashStageTasks broadcastSizeLimit enumerationBudget : Z) (strict : bool).
Context (Hcluster : cluster_ok graph numWorkers).

Abbreviation sound := (sound fuel g graph numWorkers strict).
Abbreviation plan_for := (plan_for fuel g graph numWorkers strict).
Abbreviation state_ok := (state_ok fuel g graph numWorkers enumerationBudget strict).
Abbreviation spec := (spec state_ok planning_error).
Abbreviation edges := (JoinHypergraph.edges graph) (only parsing).
Abbreviation edge := (JoinHypergraph.edge graph) (only parsing).
Abbreviation plain_inner := JoinHypergraph.plain_inner.
Abbreviation joins e := (JoinEdge.leftEligibility e, JoinEdge.rightEligibility e) (only parsing).

(** ** Symmetry of a pair *)

Lemma crosses_sym L R e : crosses L R e -> crosses R L e.
Proof.
  intros (H & HL & HR). unfold crosses. split_conj; [| done | done]. intros i Hi%H.
  rewrite RelationSet.elem_of_unionSet in *. tauto.
Qed.

Lemma splits_sym L R e : splits L R e = splits R L e.
Proof. apply orb_comm. Qed.

Lemma union_sym L R : RelationSet.unionSet L R = RelationSet.unionSet R L.
Proof. apply RelationSet.rs_ext. intros i. rewrite !RelationSet.elem_of_unionSet. tauto. Qed.

Lemma disjoint_sym L R : disjoint_rels L R -> disjoint_rels R L.
Proof. intros H i Hi Hj. exact (H i Hj Hi). Qed.

Lemma accounts_sym L R ks fs : accounts g graph L R ks fs -> accounts g graph R L ks fs.
Proof.
  intros [H1 H2 H3]. constructor; [done | |].
  - intros i (e & He & Hx)%H2. exists e. auto using crosses_sym.
  - intros i e He Hx%crosses_sym. by apply H3.
Qed.

Lemma splits_cases L R e : splits L R e = true ->
  (forward_edge L R e = true /\ JoinEdge.leftEligibility e ⊆ L /\ JoinEdge.rightEligibility e ⊆ R) \/
  (forward_edge L R e = false /\ JoinEdge.leftEligibility e ⊆ R /\ JoinEdge.rightEligibility e ⊆ L).
Proof.
  unfold splits. destruct (forward_edge L R e) eqn:Ef.
  - intros _. left. unfold forward_edge in Ef. rewrite andb_true_iff, !RelationSet.isSubset_spec in Ef. tauto.
  - unfold reverse_edge. cbn [orb]. rewrite andb_true_iff, !RelationSet.isSubset_spec. tauto.
Qed.

(** ** The edges of a pair *)

(** Edge [e] at [i] joins [L] and [R]; [fs] are the other edges between them. *)
Record crossing_ok (L R : RelationSet) (i : nat) (e : JoinEdge) (fs : list nat) : Prop := {
  co_edge : edges !! i = Some e;
  co_disjoint : disjoint_rels L R;
  co_splits : splits L R e = true;
  co_once : NoDup (i :: fs);
  co_exact : forall j, j ∈ i :: fs <-> exists e', edges !! j = Some e' /\ crosses L R e';
  co_inner : forall f, f ∈ fs -> plain_inner (edge f) = true;
  co_filters : canApplyFilterEdges graph fs i = true;
}.

Lemma crossing_ok_sym L R i e fs : crossing_ok L R i e fs -> crossing_ok R L i e fs.
Proof.
  intros [H1 H2 H3 H4 H5 H6 H7]. constructor; try done; [by apply disjoint_sym | by rewrite splits_sym |].
  intros j. rewrite H5. split; intros (e' & ? & ?%crosses_sym); eauto.
Qed.

Lemma co_accounts L R i e fs : crossing_ok L R i e fs -> accounts g graph L R [i] fs.
Proof.
  intros [H1 H2 H3 H4 H5 H6 H7]. constructor; [done | by intros j ?%H5 |].
  intros j e' He Hx. left. apply H5. eauto.
Qed.

Lemma co_keeps L R i e fs : crossing_ok L R i e fs -> JoinEdge.isUnnest e = false ->
  fs = [] \/ keepsBothInputs (JoinEdge.joinType e) = true.
Proof.
  intros [H1 H2 H3 H4 H5 H6 H7] Hu. unfold canApplyFilterEdges in H7. rewrite (edge_at graph _ _ H1) in H7.
  cbn zeta in H7. rewrite Hu, orb_false_r, orb_true_iff in H7.
  destruct H7 as [H7%bool_decide_eq_true|]; auto.
Qed.

Lemma single_step_ok L R i e fs t ra : crossing_ok L R i e fs -> JoinEdge.isUnnest e = false ->
  oriented e L R t ra ->
  step_ok g graph L R (mkJoinStep i t (RelationSet.unionSet L R) ra [] fs).
Proof.
  intros Hco Hu Ho. constructor; cbn [step_edge step_type step_combined step_reversedAnti step_keyEdges
    step_filterEdges]; [done | apply Hco | | by intros k ?%not_elem_of_nil | apply Hco | by eapply co_accounts].
  exists e. split_conj; [apply Hco | done | done | by eapply co_keeps | by left].
Qed.

Lemma considerOrientations_spec l r i t t' combined ks fs :
  sound l -> sound r -> swapType t = Ok t' ->
  step_ok g graph (MemoOp.cover l) (MemoOp.cover r) (mkJoinStep i t combined false ks fs) ->
  step_ok g graph (MemoOp.cover r) (MemoOp.cover l) (mkJoinStep i t' combined false ks fs) ->
  spec (considerOrientations debug fuel g graph numWorkers hashStageTasks broadcastSizeLimit
    l r i t combined ks fs) (fun _ => True).
Proof.
  intros Hl Hr Hsw H1 H2. unfold considerOrientations. cbn zeta.
  eapply spec_bind; [apply spec_when; intros _; by apply considerCandidate_spec |].
  intros _ _. apply spec_when. intros _. rewrite Hsw.
  eapply (spec_bind _ _ _ _ (eq t')); [by apply spec_lift |]. intros _ <-. by apply considerCandidate_spec.
Qed.

Lemma swapType_involutive t t' : swapType t = Ok t' -> swapType t' = Ok t.
Proof. by destruct t; cbn; intros [= <-]. Qed.

Lemma emitSingleEdge_spec l r i e fs :
  sound l -> sound r -> crossing_ok (MemoOp.cover l) (MemoOp.cover r) i e fs ->
  JoinEdge.isUnnest e = false ->
  spec (emitSingleEdge debug fuel g graph numWorkers hashStageTasks broadcastSizeLimit i
    (forward_edge (MemoOp.cover l) (MemoOp.cover r) e) l r
    (RelationSet.unionSet (MemoOp.cover l) (MemoOp.cover r)) [] fs) (fun _ => True).
Proof.
  intros Hl Hr Hco Hu. pose proof (crossing_ok_sym _ _ _ _ _ Hco) as Hco'.
  pose proof (co_edge _ _ _ _ _ Hco) as He. pose proof (co_keeps _ _ _ _ _ Hco Hu) as Hkeep.
  pose proof (cok_types _ _ Hcluster i e He Hu) as Htype.
  unfold emitSingleEdge. cbn zeta. rewrite (edge_at graph _ _ He).
  eapply (spec_bind _ _ _ _ (fun _ => True)); [apply spec_lift; by rewrite bool_decide_true |]. intros _ _.
  eapply (spec_bind _ _ _ _ (fun _ => True)); [apply spec_lift |].
  { destruct Hkeep as [-> | ->]; [by rewrite bool_decide_true | by rewrite orb_true_r]. }
  intros _ _.
  assert (Hflip : RelationSet.unionSet (MemoOp.cover l) (MemoOp.cover r) =
    RelationSet.unionSet (MemoOp.cover r) (MemoOp.cover l)) by apply union_sym.
  destruct (bool_decide (JoinEdge.joinType e = kAnti) || _) eqn:Enative.
  - assert (Hnil : JoinEdge.joinType e = kAnti -> fs = [])
      by (intros E; rewrite E in Hkeep; by destruct Hkeep).
    destruct (splits_cases _ _ _ (co_splits _ _ _ _ _ Hco)) as [(-> & H1 & H2)|(-> & H1 & H2)].
    + eapply spec_bind; [apply considerCandidate_spec; [done | done | done |] |].
      { apply (single_step_ok _ _ _ e); [done | done | by constructor]. }
      intros _ _. apply spec_when. rewrite andb_true_iff. intros [Ea%bool_decide_eq_true Hv].
      rewrite Ea, Hflip. rewrite (Hnil Ea) in Hco'. apply considerCandidate_spec; [done | done | done |].
      apply (single_step_ok _ _ _ e); [done | done | by constructor].
    + eapply spec_bind; [apply considerCandidate_spec; [done | done | done |] |].
      { rewrite Hflip. apply (single_step_ok _ _ _ e); [done | done | by constructor]. }
      intros _ _. apply spec_when. rewrite andb_true_iff. intros [Ea%bool_decide_eq_true Hv].
      rewrite Ea. rewrite (Hnil Ea) in Hco. apply considerCandidate_spec; [done | done | done |].
      apply (single_step_ok _ _ _ e); [done | done | by constructor].
  - apply orb_false_iff in Enative as [Ea%bool_decide_eq_false Ep].
    assert (Hv : JoinEdge.joinType e = kLeftSemiProject -> hasRightProjectVariant e = true).
    { intros E. rewrite bool_decide_true in Ep by done. by apply negb_false_iff. }
    assert (Hsw : exists t, swapType (JoinEdge.joinType e) = Ok t).
    { destruct (JoinEdge.joinType e); try done; by eexists. }
    destruct Hsw as [t Hsw]. pose proof (swapType_involutive _ _ Hsw) as Hsw'.
    destruct (splits_cases _ _ _ (co_splits _ _ _ _ _ Hco)) as [(-> & H1 & H2)|(-> & H1 & H2)].
    + eapply (spec_bind _ _ _ _ (eq (JoinEdge.joinType e))); [by apply spec_lift |]. intros _ <-.
      eapply considerOrientations_spec; [done | done | exact Hsw | |].
      * apply (single_step_ok _ _ _ e); [done | done | by constructor].
      * rewrite Hflip. apply (single_step_ok _ _ _ e); [done | done | by apply oriented_swapped].
    + rewrite Hsw. eapply (spec_bind _ _ _ _ (eq t)); [by apply spec_lift |]. intros _ <-.
      eapply considerOrientations_spec; [done | done | exact Hsw' | |].
      * apply (single_step_ok _ _ _ e); [done | done | by apply oriented_swapped].
      * rewrite Hflip. apply (single_step_ok _ _ _ e); [done | done | by constructor].
Qed.

(** ** Expansions *)

Lemma unnest_endpoints i e : edges !! i = Some e -> JoinEdge.isUnnest e = true ->
  JoinEdge.rightEndpoints e = JoinEdge.rightEligibility e.
Proof.
  intros He Hu. pose proof (edge_at_ok graph (cok_graph _ _ Hcluster) i e He) as Hok.
  pose proof (eok_kind e Hok) as Hk. rewrite Hu in Hk. by destruct Hk as (_ & _ & _ & _ & ->).
Qed.

(** What [emitUnnest] relies on. *)
Record expansion_ok (S : RelationSet) (i : nat) (e : JoinEdge) (fs : list nat) : Prop := {
  xo_edge : edges !! i = Some e;
  xo_unnest : JoinEdge.isUnnest e = true;
  xo_input : JoinEdge.leftEligibility e ⊆ S;
  xo_new : ~ JoinEdge.rightEligibility e ⊆ S;
  xo_once : NoDup (i :: fs);
  xo_crossing : forall f, f ∈ i :: fs -> exists e', edges !! f = Some e' /\
    crosses S (JoinEdge.rightEligibility e) e';
  xo_inner : forall f, f ∈ fs -> plain_inner (edge f) = true;
  xo_all : strict = true -> forall f e', edges !! f = Some e' ->
    crosses S (JoinEdge.rightEligibility e) e' -> f ∈ i :: fs;
}.

Lemma emitUnnest_spec S i e fs : expansion_ok S i e fs ->
  spec (emitUnnest debug graph S i (RelationSet.unionSet S (JoinEdge.rightEligibility e)) fs)
    (fun _ => True).
Proof.
  intros Hx. pose proof (xo_edge _ _ _ _ Hx) as He.
  pose proof (unnest_endpoints i e He (xo_unnest _ _ _ _ Hx)) as Eend.
  eapply spec_bind; [apply cheapestPlan_spec |]. intros [input|] Hin; [| by eauto with spec].
  destruct (Hin input eq_refl) as [Hs Hc].
  eapply spec_bind; [apply consume_spec |]. intros _ _. cbn zeta. rewrite (edge_at graph _ _ He), Eend.
  eapply spec_bind; [apply dcheck_spec |].
  { cbn. by rewrite Hc, N.eqb_refl. }
  intros _ _. destruct (EstimateMath.cost _) as [c|] eqn:Ec; [| by eauto with spec].
  apply memo_addPlan_spec. split; [| cbn; by rewrite Hc].
  rewrite <- Eend in Ec |- *. destruct Hx as [_ H1 H2 H3 H4 H5 H6 H7]. rewrite <- Eend in H3, H5, H7.
  constructor; try done; rewrite ?Hc; try done. unfold with_model_cost in Ec. cbn in Ec. by rewrite Ec.
Qed.

(** An Unnest edge crosses from its input to the relation it expands. *)
Lemma unnest_crosses S i e : edges !! i = Some e -> JoinEdge.leftEligibility e ⊆ S ->
  ~ JoinEdge.rightEligibility e ⊆ S -> crosses S (JoinEdge.rightEligibility e) e.
Proof.
  intros He Hl Hr. pose proof (edge_at_ok graph (cok_graph _ _ Hcluster) i e He) as Hok.
  destruct (edge_sides graph (cok_graph _ _ Hcluster) i e He) as [[l Hl'] _]. unfold crosses. split_conj.
  - intros j [Hj|Hj]%elem_of_totalEligibility; apply RelationSet.elem_of_unionSet; auto.
  - intros H. apply Hr. intros j Hj. apply H, elem_of_totalEligibility. auto.
  - intros H. apply (eok_disjoint e Hok l Hl'). apply H, elem_of_totalEligibility. auto.
Qed.

(** The edge of a pair, applied. *)
Lemma applyCrossingEdge_spec L R i e fs : crossing_ok L R i e fs ->
  spec (applyCrossingEdge debug fuel g graph numWorkers hashStageTasks broadcastSizeLimit i
    (forward_edge L R e) L R (RelationSet.unionSet L R) [] fs) (fun _ => True).
Proof.
  intros Hco. pose proof (co_edge _ _ _ _ _ Hco) as He.
  unfold applyCrossingEdge. cbn zeta. rewrite (edge_at graph _ _ He).
  destruct (JoinEdge.isUnnest e) eqn:Eu.
  - destruct (bool_decide (R = _)) eqn:ER; cbn [negb]; [| by eauto with spec].
    apply bool_decide_eq_true in ER.
    eapply spec_bind; [apply dcheck_spec; by rewrite bool_decide_true |]. intros _ _. rewrite ER.
    assert (Hsides : JoinEdge.leftEligibility e ⊆ L /\ ~ JoinEdge.rightEligibility e ⊆ L).
    { destruct (edge_sides graph (cok_graph _ _ Hcluster) i e He) as [[l Hl] [r Hr]].
      destruct (splits_cases _ _ _ (co_splits _ _ _ _ _ Hco)) as [(_ & H1 & H2)|(_ & H1 & H2)].
      - split; [done |]. intros H. apply (co_disjoint _ _ _ _ _ Hco r); [by apply H | by rewrite ER].
      - exfalso. rewrite ER in H1.
        exact (eok_disjoint e (edge_at_ok graph (cok_graph _ _ Hcluster) i e He) l Hl (H1 l Hl)). }
    apply emitUnnest_spec. destruct Hsides as [Hl Hr]. destruct Hco as [H1 H2 H3 H4 H5 H6 H7].
    rewrite ER in H5. constructor; try done; [by intros f ?%H5 |]. intros _ f e' Hf Hc. apply H5. eauto.
  - eapply spec_bind; [apply cheapestPlan_spec |]. intros lo Hlo.
    eapply spec_bind; [apply cheapestPlan_spec |]. intros ro Hro.
    destruct lo as [l|], ro as [r|]; try by apply spec_ret.
    destruct (Hlo l eq_refl) as [Hl <-], (Hro r eq_refl) as [Hr <-]. by apply emitSingleEdge_spec.
Qed.

(** ** Several edges *)

Lemma check_plain_inner_spec js : spec (lift (check_plain_inner graph js))
  (fun _ => forall ce, ce ∈ js -> plain_inner (edge (JoinHypergraph.index ce)) = true).
Proof.
  apply spec_lift. induction js as [|ce js IH]; cbn [check_plain_inner]; [by intros ce ?%not_elem_of_nil |].
  destruct (bool_decide _ && _) eqn:E; cbn [velox_check mbind Result_bind]; [| by left].
  destruct (check_plain_inner graph js); [| done]. intros ce' [->|Hce]%elem_of_cons; [| by apply IH].
  unfold plain_inner. by rewrite andb_comm.
Qed.

(** The edges between [L] and [R], those that split it first. *)
Record crossing_all (L R : RelationSet) (js : list JoinHypergraph.CrossingEdge) (fs : list nat) : Prop := {
  ca_once : NoDup (map JoinHypergraph.index js ++ fs);
  ca_exact : forall j, j ∈ map JoinHypergraph.index js ++ fs <->
    exists e, edges !! j = Some e /\ crosses L R e;
  ca_split : forall ce, ce ∈ js -> exists e, edges !! JoinHypergraph.index ce = Some e /\
    splits L R e = true /\ JoinHypergraph.leftToRight ce = forward_edge L R e;
  ca_inner : forall f, f ∈ fs -> plain_inner (edge f) = true;
}.

Lemma crossingEdges_all L R r : JoinHypergraph.crossingEdges graph L R = Some r ->
  crossing_all L R (JoinHypergraph.joinEdges r) (JoinHypergraph.filterEdges r).
Proof.
  intros Er. pose proof (crossingEdges_spec graph L R) as H. rewrite Er in H.
  destruct H as (Hj & Hf & Hp). constructor.
  - by apply crossingEdges_NoDup in Er.
  - intros j. rewrite elem_of_app, list_elem_of_fmap, Hf. split.
    + intros [([i b] & -> & Hin)|(e & He & Hc & _)]; [apply Hj in Hin as (e & He & Hc & _) |]; eauto.
    + intros (e & He & Hc). destruct (splits L R e) eqn:Es; [left | right; eauto].
      exists (JoinHypergraph.mkCrossingEdge j (forward_edge L R e)). split; [done |]. apply Hj. eauto.
  - intros [i b] (e & He & Hc & Hs & ->)%Hj. eauto.
  - intros f Hin. apply Hf in Hin as Hex. destruct Hex as (e & He & _).
    rewrite (edge_at graph _ _ He). by eapply Hp.
Qed.

(** Plain inner edges join [L] and [R] either way round, on the keys that imply the others. *)
Lemma inner_step_ok L R js fs primary keys :
  disjoint_rels L R -> crossing_all L R js fs ->
  (forall ce, ce ∈ js -> plain_inner (edge (JoinHypergraph.index ce)) = true) ->
  JoinHypergraph.canonicalKeyEdges g graph (map JoinHypergraph.index js) = Ok (primary :: keys) ->
  step_ok g graph L R (mkJoinStep primary kInner (RelationSet.unionSet L R) false keys fs) /\
  step_ok g graph R L (mkJoinStep primary kInner (RelationSet.unionSet R L) false keys fs).
Proof.
  intros Hdis Hca Hplain Eresult.
  assert (Hindex : forall i, i ∈ map JoinHypergraph.index js -> exists e, edges !! i = Some e /\
    splits L R e = true /\ plain_inner (edge i) = true).
  { intros i (ce & -> & Hin)%list_elem_of_fmap.
    destruct (ca_split _ _ _ _ Hca ce Hin) as (e & He & Hs & _). eauto. }
  pose proof (canonicalKeyEdges_sublist g graph _ _ Eresult) as Hsub.
  assert (Hkeep := fun i => canonicalKeyEdges_keeps g graph _ _ i Eresult).
  assert (Hin : forall i, i ∈ primary :: keys -> i ∈ map JoinHypergraph.index js).
  { intros i Hi. rewrite <- (merge_sort_Permutation le). by eapply elem_of_sublist. }
  assert (Hacc : accounts g graph L R (primary :: keys) fs).
  { constructor.
    - apply (sublist_NoDup _ (merge_sort le (map JoinHypergraph.index js) ++ fs)).
      + rewrite merge_sort_Permutation. apply Hca.
      + by apply sublist_app.
    - intros i [Hi|Hi]%elem_of_app; apply (ca_exact _ _ _ _ Hca), elem_of_app; auto.
    - intros i e He Hx.
      assert (Hi : i ∈ map JoinHypergraph.index js ++ fs) by (apply (ca_exact _ _ _ _ Hca); eauto).
      apply elem_of_app in Hi as [Hi|Hi]; [| left; apply elem_of_app; auto].
      destruct (Hkeep i Hi) as [Hk|Hk]; [left; apply elem_of_app; auto | right].
      destruct (Hindex i Hi) as (e' & He' & _ & Hp). by rewrite (edge_at graph _ _ He) in Hp. }
  destruct (Hindex primary (Hin primary ltac:(left))) as (e & He & Hsplit & Hp).
  rewrite (edge_at graph _ _ He) in Hp. unfold plain_inner in Hp.
  apply andb_true_iff in Hp as [Hu%negb_true_iff Ht%bool_decide_eq_true].
  assert (Has : forall A B, JoinEdge.leftEligibility e ⊆ A -> JoinEdge.rightEligibility e ⊆ B ->
    oriented e A B kInner false /\ oriented e B A kInner false).
  { intros A B H1 H2. split; [rewrite <- Ht; by constructor |]. apply oriented_swapped; rewrite ?Ht; done. }
  assert (Hstep : forall L R, oriented e L R kInner false -> disjoint_rels L R ->
    accounts g graph L R (primary :: keys) fs ->
    (forall k, k ∈ keys -> splits L R (edge k) = true) ->
    step_ok g graph L R (mkJoinStep primary kInner (RelationSet.unionSet L R) false keys fs)).
  { intros L' R' Ho Hd Ha Hs. constructor; cbn [step_edge step_type step_combined step_reversedAnti
      step_keyEdges step_filterEdges]; [done | done | | | apply Hca | done].
    - exists e. split_conj; [done | done | done | right; by rewrite Ht | by right].
    - intros k Hk. split; [| by apply Hs].
      by destruct (Hindex k (Hin k ltac:(by right))) as (e' & _ & _ & ?). }
  assert (Hks : forall k, k ∈ keys -> splits L R (edge k) = true).
  { intros k Hk. destruct (Hindex k (Hin k ltac:(by right))) as (e' & He' & Hs' & _).
    by rewrite (edge_at graph _ _ He'). }
  split; (apply Hstep; [| by (apply disjoint_sym + idtac) | by (apply accounts_sym + idtac) |]).
  1, 3: destruct (splits_cases _ _ _ Hsplit) as [(_ & H1 & H2)|(_ & H1 & H2)]; by apply (Has _ _ H1 H2).
  - done.
  - intros k Hk. rewrite splits_sym. by apply Hks.
Qed.

Lemma emitInnerEdges_spec L R ce js fs :
  disjoint_rels L R -> crossing_all L R (ce :: js) fs ->
  spec (emitInnerEdges debug fuel g graph numWorkers hashStageTasks broadcastSizeLimit L R
    (RelationSet.unionSet L R) (ce :: js) fs) (fun _ => True).
Proof.
  intros Hdis Hca. set (all := ce :: js) in *.
  eapply spec_bind; [apply check_plain_inner_spec |]. intros [] Hplain.
  eapply spec_bind; [apply cheapestPlan_spec |]. intros lo Hlo.
  eapply spec_bind; [apply cheapestPlan_spec |]. intros ro Hro.
  destruct lo as [l|], ro as [r|]; try by apply spec_ret.
  destruct (Hlo l eq_refl) as [Hl <-], (Hro r eq_refl) as [Hr <-]. clear Hlo Hro.
  destruct (canonicalKeyEdges_total g graph (map JoinHypergraph.index all)) as [result Eresult].
  { intros i (ce' & -> & Hin)%list_elem_of_fmap. by apply Hplain. }
  rewrite Eresult. eapply (spec_bind _ _ _ _ (eq result)); [by apply spec_lift |]. intros _ <-.
  pose proof (canonicalKeyEdges_nonempty g graph _ _ Eresult ltac:(subst all; discriminate)) as Hne.
  destruct result as [|primary keys]; [done |]. cbn [hd tail].
  destruct (inner_step_ok _ _ _ _ _ _ Hdis Hca Hplain Eresult) as [Hlr Hrl].
  apply considerOrientations_spec with (t' := kInner); [done | done | done | exact Hlr |].
  rewrite union_sym. exact Hrl.
Qed.

(** ** A csg/cmp pair *)

Lemma special_position_after js k q p :
  special_position graph js k (Some q) = Some p ->
  p = q /\ forall ce, ce ∈ js -> plain_inner (edge (JoinHypergraph.index ce)) = true.
Proof.
  revert k. induction js as [|ce js IH]; intros k; cbn [special_position].
  { intros [= <-]. split; [done |]. by intros ce ?%not_elem_of_nil. }
  destruct (plain_inner _) eqn:Ep; [| done]. intros [-> H]%IH. split; [done |].
  intros ce' [->|Hce]%elem_of_cons; auto.
Qed.

(** The special position is that of the only edge that is not a plain inner one. *)
Lemma special_position_spec js k p : special_position graph js k None = Some p ->
  exists before ce after, js = before ++ ce :: after /\ p = (k + length before)%nat /\
    forall ce', ce' ∈ before ++ after -> plain_inner (edge (JoinHypergraph.index ce')) = true.
Proof.
  revert k. induction js as [|ce js IH]; intros k; cbn [special_position]; [done |].
  destruct (plain_inner _) eqn:Ep.
  - intros (before & ce' & after & -> & -> & H)%IH. exists (ce :: before), ce', after.
    split_conj; [done | cbn; lia |]. intros x [->|Hx]%elem_of_cons; auto.
  - intros [-> H]%special_position_after. exists [], ce, js. split_conj; [done | cbn; lia | done].
Qed.

Lemma other_indices_split before ce after :
  other_indices (before ++ ce :: after) (length before) = map JoinHypergraph.index (before ++ after).
Proof.
  unfold other_indices. rewrite take_app_length. f_equal. f_equal.
  change (ce :: after) with ([ce] ++ after). rewrite app_assoc.
  apply drop_app_length'. rewrite length_app. cbn. lia.
Qed.

Lemma emitCsgCmp_spec L R : disjoint_rels L R ->
  spec (emitCsgCmp debug fuel g graph numWorkers hashStageTasks broadcastSizeLimit L R) (fun _ => True).
Proof.
  intros Hdis. eapply spec_bind; [apply consume_spec |]. intros [] _; [by eauto with spec |].
  destruct (JoinHypergraph.crossingEdges graph L R) as [r|] eqn:Er; [| by eauto with spec].
  apply crossingEdges_all in Er. cbn zeta. destruct r as [js fs]. cbn [JoinHypergraph.joinEdges
    JoinHypergraph.filterEdges] in *.
  (* one edge, the others filtering above it *)
  assert (Hone : forall ce rest, map JoinHypergraph.index js ++ fs ≡ₚ JoinHypergraph.index ce :: rest ->
    ce ∈ js -> (forall f, f ∈ rest -> plain_inner (edge f) = true) ->
    canApplyFilterEdges graph rest (JoinHypergraph.index ce) = true ->
    spec (applyCrossingEdge debug fuel g graph numWorkers hashStageTasks broadcastSizeLimit
      (JoinHypergraph.index ce) (JoinHypergraph.leftToRight ce) L R (RelationSet.unionSet L R) [] rest)
      (fun _ => True)).
  { intros ce rest Hp Hce Hrest Hcan. destruct (ca_split _ _ _ _ Er ce Hce) as (e & He & Hs & ->).
    apply applyCrossingEdge_spec. constructor; try done.
    - rewrite <- Hp. apply Er.
    - intros j. rewrite <- Hp. apply Er. }
  destruct js as [|ce js]; [by eauto with spec |]. destruct js as [|ce2 js].
  - destruct (canApplyFilterEdges _ _ _) eqn:Ecan; cbn [negb]; [| by eauto with spec].
    apply Hone; [done | left | apply Er | done].
  - set (all := ce :: ce2 :: js) in *.
    destruct (special_position graph all 0 None) as [p|] eqn:Ep; [| by apply emitInnerEdges_spec].
    apply special_position_spec in Ep as (before & special & after & Eall & -> & Hplain).
    rewrite Eall, Nat.add_0_l. rewrite nth_middle, other_indices_split.
    destruct (canApplyFilterEdges _ _ _) eqn:Ecan; cbn [negb]; [| by eauto with spec].
    apply Hone; [| rewrite Eall; set_solver | | done].
    + rewrite Eall, !map_app. cbn [map]. rewrite <- Permutation_middle, <- app_comm_cons.
      apply Permutation_skip, Permutation_app_comm.
    + intros f [Hf|(ce' & -> & Hce')%list_elem_of_fmap]%elem_of_app; [by apply Er | by apply Hplain].
Qed.

(** ** The recursion *)

Lemma grown_sub set subset neighbors :
  submask subset (RelationSet.bits neighbors) ->
  forall i, i ∈ RelationSet.ofBits (N.lor (RelationSet.bits set) subset) -> i ∈ set \/ i ∈ neighbors.
Proof.
  intros Hs i [Hi _]%RelationSet.elem_of_ofBits. rewrite N.lor_spec, orb_true_iff in Hi.
  destruct Hi as [Hi|Hi]; [by left | right]. rewrite <- Hs, N.land_spec, andb_true_iff in Hi. tauto.
Qed.

Lemma for_subsets_spec set neighbors body :
  (forall grown, (forall i, i ∈ grown -> i ∈ set \/ i ∈ neighbors) -> spec (body grown) (fun _ => True)) ->
  forall subsets, (forall s, s ∈ subsets -> submask s (RelationSet.bits neighbors)) ->
  spec (for_subsets set subsets body) (fun _ => True).
Proof.
  intros Hbody subsets Hsub. apply spec_for_each. intros s Hs. apply Hbody.
  intros i Hi. by eapply grown_sub; [apply Hsub |].
Qed.

(** Forbidding the neighbors forbids more. *)
Lemma forbidden_grows set forbidden :
  RelationSet.empty (neighborhood graph set forbidden) = false ->
  (N.to_nat (RelationSet.size forbidden) <
   N.to_nat (RelationSet.size (RelationSet.unionSet forbidden (neighborhood graph set forbidden))) <= 64)%nat.
Proof.
  intros [i Hi]%RelationSet.empty_false. pose proof (size_le_64 (RelationSet.unionSet forbidden
    (neighborhood graph set forbidden))).
  assert (RelationSet.size forbidden < RelationSet.size (RelationSet.unionSet forbidden
    (neighborhood graph set forbidden))); [| lia].
  apply size_subset_lt.
  - intros j Hj. apply RelationSet.elem_of_unionSet. auto.
  - exists i. split; [apply RelationSet.elem_of_unionSet; auto |].
    by apply (neighborhood_outside graph set forbidden i (cok_graph _ _ Hcluster)).
Qed.

Lemma lift_subsets_spec neighbors : spec (lift (subsetsBySize (RelationSet.bits neighbors)))
  (fun l => forall s, s ∈ l -> submask s (RelationSet.bits neighbors)).
Proof.
  destruct (subsetsBySize_ok (RelationSet.bits neighbors)) as (l & El & _ & _ & _ & Hl).
  rewrite El. apply spec_lift. by intros s [_ ?]%Hl.
Qed.

Lemma enumerateCmpRec_spec depth L R forbidden :
  (64 - N.to_nat (RelationSet.size forbidden) < depth)%nat ->
  disjoint_rels L R -> L ⊆ forbidden ->
  spec (enumerateCmpRec debug fuel g graph numWorkers hashStageTasks broadcastSizeLimit depth L R forbidden)
    (fun _ => True).
Proof.
  revert R forbidden. induction depth as [|depth IH]; intros R forbidden Hd Hdis Hsub; [lia |].
  cbn [enumerateCmpRec]. eapply spec_bind; [apply budget_exceeded_spec |].
  intros [] _; [by eauto with spec |]. cbn zeta.
  destruct (RelationSet.empty (neighborhood graph R forbidden)) eqn:Ee; [by eauto with spec |].
  pose proof (forbidden_grows R forbidden Ee) as Hgrow.
  assert (Hgrown : forall grown,
    (forall i, i ∈ grown -> i ∈ R \/ i ∈ neighborhood graph R forbidden) -> disjoint_rels L grown).
  { intros grown Hg i Hi [Hr|Hn]%Hg; [exact (Hdis i Hi Hr) |].
    apply (neighborhood_outside graph R forbidden i (cok_graph _ _ Hcluster)) in Hn as [_ Hn]. auto. }
  eapply spec_bind; [apply lift_subsets_spec |]. intros subsets Hsubsets.
  eapply spec_bind.
  - apply (for_subsets_spec R (neighborhood graph R forbidden)); [| done]. intros grown Hg.
    eapply spec_bind; [apply memo_find_spec |]. intros [plans|] _; [| by eauto with spec].
    by apply emitCsgCmp_spec, Hgrown.
  - intros _ _. apply (for_subsets_spec R (neighborhood graph R forbidden)); [| done]. intros grown Hg.
    apply IH; [lia | by apply Hgrown |]. intros i Hi. apply RelationSet.elem_of_unionSet. auto.
Qed.

Lemma recursion_fuel_enough forbidden : (64 - N.to_nat (RelationSet.size forbidden) < recursion_fuel)%nat.
Proof. unfold recursion_fuel. lia. Qed.

Lemma emitCsg_spec L :
  spec (emitCsg debug fuel g graph numWorkers hashStageTasks broadcastSizeLimit L) (fun _ => True).
Proof.
  eapply spec_bind; [apply budget_exceeded_spec |]. intros [] _; [by eauto with spec |]. cbn zeta.
  set (forbidden := RelationSet.prefixThrough _).
  apply spec_for_each. intros v Hv.
  assert (Hn : v ∈ neighborhood graph L forbidden).
  { apply RelationSet.elem_of_ids. by rewrite reverse_Permutation, merge_sort_Permutation in Hv. }
  apply (neighborhood_outside graph L forbidden v (cok_graph _ _ Hcluster)) in Hn as [Hn _].
  assert (Hdis : disjoint_rels L (RelationSet.singleton v)).
  { intros i Hi [-> _]%RelationSet.elem_of_singleton_rs. done. }
  eapply spec_bind; [by apply emitCsgCmp_spec |]. intros _ _.
  apply enumerateCmpRec_spec; [apply recursion_fuel_enough | done |].
  intros i Hi. apply RelationSet.elem_of_unionSet. left. apply RelationSet.elem_of_unionSet. auto.
Qed.

Lemma enumerateCsgRec_spec depth L forbidden :
  (64 - N.to_nat (RelationSet.size forbidden) < depth)%nat ->
  spec (enumerateCsgRec debug fuel g graph numWorkers hashStageTasks broadcastSizeLimit depth L forbidden)
    (fun _ => True).
Proof.
  revert L forbidden. induction depth as [|depth IH]; intros L forbidden Hd; [lia |].
  cbn [enumerateCsgRec]. eapply spec_bind; [apply budget_exceeded_spec |].
  intros [] _; [by eauto with spec |]. cbn zeta.
  destruct (RelationSet.empty (neighborhood graph L forbidden)) eqn:Ee; [by eauto with spec |].
  pose proof (forbidden_grows L forbidden Ee) as Hgrow.
  eapply spec_bind; [apply lift_subsets_spec |]. intros subsets Hsubsets.
  eapply spec_bind.
  - apply (for_subsets_spec L (neighborhood graph L forbidden)); [| done]. intros grown Hg.
    eapply spec_bind; [apply memo_find_spec |]. intros [plans|] _; [| by eauto with spec]. apply emitCsg_spec.
  - intros _ _. apply (for_subsets_spec L (neighborhood graph L forbidden)); [| done]. intros grown Hg.
    apply IH. lia.
Qed.

Lemma solveComponent_spec component : component ⊆ JoinHypergraph.relationIds graph ->
  spec (solveComponent debug fuel g graph numWorkers hashStageTasks broadcastSizeLimit component)
    (fun exceeded => (enumerationBudget <= 0)%Z -> exceeded = false).
Proof.
  intros Hsub. eapply spec_bind; [apply spec_modify; intros s Hs; apply set_budget_ok; [| done]; apply budget_reset_ok |]. intros _ _.
  eapply spec_bind; [by apply initLeaves_spec |]. intros _ _.
  eapply spec_bind; [| intros _ _; apply budget_exceeded_spec].
  apply spec_for_each. intros id _. destruct (RelationSet.contains _ id); [by eauto with spec |]. cbn zeta.
  eapply spec_bind; [apply emitCsg_spec |]. intros _ _.
  apply enumerateCsgRec_spec, recursion_fuel_enough.
Qed.
End Emission.
