(* ===== verification/Greedy.v ===== *)
(** * The greedy fallback: it stays sound and it terminates

    Greedy operator ordering keeps the enumerator's invariant, fails only where
    the program means to, and ends: fragments stay disjoint, a round either
    merges two of them or expands one, and a finished run leaves one fragment. *)

From S2P Require Import Prelude Word64 RelationSets BitSets EstimateMath QueryGraph Joins.
From S2P Require Import Partitionings Nodes Closures Hypergraphs HypergraphFacts HypergraphColumns.
From S2P Require Import Memo DPhyp Enumerations PlanSoundness Candidates Emission.
From Stdlib Require Import Lia.
Set Warnings "-clear-no-such-hyp".
Open Scope N_scope.

(** ** Fragments *)

Definition size_of (s : RelationSet) : nat := N.to_nat (RelationSet.size s).
Definition total_size (fragments : list RelationSet) : nat := sum_list (map size_of fragments).

(** Fragments that hold a relation. *)
Definition holders (x : N) (fragments : list RelationSet) : nat :=
  length (filter (fun F : RelationSet => x ∈ F) fragments).

Definition fragments_disjoint (fragments : list RelationSet) : Prop :=
  forall x, (holders x fragments <= 1)%nat.

#[export] Instance holders_proper x : Proper (Permutation ==> eq) (holders x).
Proof. intros l l' H. unfold holders. by rewrite H. Qed.
#[export] Instance fragments_disjoint_proper : Proper (Permutation ==> iff) fragments_disjoint.
Proof. intros l l' H. unfold fragments_disjoint. by setoid_rewrite H. Qed.
#[export] Instance total_size_proper : Proper (Permutation ==> eq) total_size.
Proof. intros l l' H. unfold total_size. by rewrite H. Qed.

Lemma holders_cons x F l : holders x (F :: l) = ((if decide (x ∈ F) then 1 else 0) + holders x l)%nat.
Proof. unfold holders. rewrite filter_cons. by destruct (decide (x ∈ F)). Qed.

Lemma holders_elem x F l : F ∈ l -> x ∈ F -> (1 <= holders x l)%nat.
Proof.
  intros Hl Hx. unfold holders. assert (H : F ∈ filter (fun F : RelationSet => x ∈ F) l)
    by (by apply list_elem_of_filter). destruct (filter _ l); [by apply not_elem_of_nil in H | cbn; lia].
Qed.

Lemma fragments_disjoint_pair A B rest :
  fragments_disjoint (A :: B :: rest) -> disjoint_rels A B.
Proof.
  intros H x Ha Hb. specialize (H x). rewrite !holders_cons, !decide_True in H by done. lia.
Qed.

Lemma fragments_disjoint_merge A B rest :
  fragments_disjoint (A :: B :: rest) -> fragments_disjoint (RelationSet.unionSet A B :: rest).
Proof.
  intros H x. specialize (H x). rewrite !holders_cons in *.
  destruct (decide (x ∈ RelationSet.unionSet A B)) as [Hx|_]; [| repeat case_decide; lia].
  apply RelationSet.elem_of_unionSet in Hx. repeat case_decide; lia || tauto.
Qed.

Lemma size_of_le A : (size_of A <= 64)%nat.
Proof. unfold size_of. pose proof (size_le_64 A). lia. Qed.

Lemma size_of_subset A B : A ⊆ B -> (size_of A <= size_of B)%nat.
Proof.
  intros H. unfold size_of. rewrite !RelationSet.size_ids, !Nat2N.id.
  apply submseteq_length, NoDup_submseteq; [apply RelationSet.ids_NoDup |].
  intros x. rewrite !RelationSet.elem_of_ids. apply H.
Qed.

Lemma size_of_grows A B : A ⊆ B -> B <> A -> (size_of A < size_of B)%nat.
Proof.
  intros H Hne. unfold size_of. pose proof (size_subset_lt A B H) as Hlt.
  assert (exists i, i ∈ B /\ i ∉ A); [| specialize (Hlt ltac:(done)); lia].
  apply not_subset_elem. intros Hsub. apply Hne, RelationSet.rs_ext. intros i. split; auto.
Qed.

Lemma total_size_cons A l : total_size (A :: l) = (size_of A + total_size l)%nat.
Proof. done. Qed.

(** Two positions of a list, and what is left when they are merged. *)
Lemma merge_positions (l : list RelationSet) i j a b c :
  (i < j)%nat -> l !! i = Some a -> l !! j = Some b ->
  exists rest, l ≡ₚ a :: b :: rest /\ delete j (<[i:=c]> l) ≡ₚ c :: rest.
Proof.
  intros Hij Hi Hj. apply list_elem_of_split_length in Hi as (l1 & l2 & -> & ->).
  rewrite lookup_app_r in Hj by lia.
  destruct (j - length l1)%nat as [|k] eqn:Ek; [lia |]. cbn in Hj.
  apply list_elem_of_split_length in Hj as (l3 & l4 & -> & ->).
  exists (l1 ++ l3 ++ l4). split.
  - rewrite <- Permutation_middle. apply Permutation_skip.
    by rewrite (app_assoc l1), <- Permutation_middle, <- app_assoc.
  - rewrite insert_app_r_alt, Nat.sub_diag by done. cbn [insert list_insert]. replace j with (length (l1 ++ c :: l3)) by (rewrite length_app; cbn; lia).
    replace (l1 ++ c :: l3 ++ b :: l4) with ((l1 ++ c :: l3) ++ b :: l4) by (by rewrite <- app_assoc).
    rewrite delete_middle, <- app_assoc. cbn. by rewrite <- Permutation_middle.
Qed.

Section Greedy.
Context {VB : VeloxBits} {C : Connector} {EB : ExprBuilder} {CM : CostModel} {VE : VeloxEnums}
  {GR : GroupedRead}.
Context (debug : bool) (fuel : nat) (g : QueryGraph) (graph : JoinHypergraph).
Context (numWorkers hashStageTasks broadcastSizeLimit enumerationBudget : Z).
Context (Hcluster : cluster_ok graph numWorkers).

Abbreviation state_ok := (state_ok fuel g graph numWorkers enumerationBudget false).
Abbreviation spec := (spec state_ok planning_error).
Abbreviation edges := (JoinHypergraph.edges graph) (only parsing).

(** ** Expansions *)

(** [F'] is [F] after some expansions whose inputs were covered. *)
Inductive expands : RelationSet -> RelationSet -> Prop :=
  | expands_refl F : expands F F
  | expands_step F F' i e : edges !! i = Some e -> JoinEdge.isUnnest e = true ->
      JoinEdge.leftEligibility e ⊆ F ->
      expands (RelationSet.unionSet F (JoinEdge.rightEligibility e)) F' -> expands F F'.

Lemma expands_trans F F' F'' : expands F F' -> expands F' F'' -> expands F F''.
Proof. induction 1; [done |]. intros H'. eapply expands_step; eauto. Qed.

Lemma expands_sub F F' : expands F F' -> F ⊆ F'.
Proof.
  induction 1 as [F|F F' i e He Hu Hl _ IH]; [done |]. intros x Hx. apply IH, RelationSet.elem_of_unionSet. auto.
Qed.

(** A fragment with an expanded relation has what it was expanded from. *)
Definition fragment_closed (F : RelationSet) : Prop :=
  forall i e x, edges !! i = Some e -> JoinEdge.isUnnest e = true ->
    x ∈ JoinEdge.rightEligibility e -> x ∈ F -> JoinEdge.leftEligibility e ⊆ F.

Lemma expanded_once i j e f x : edges !! i = Some e -> edges !! j = Some f ->
  JoinEdge.isUnnest e = true -> JoinEdge.isUnnest f = true ->
  x ∈ JoinEdge.rightEligibility e -> x ∈ JoinEdge.rightEligibility f -> e = f.
Proof.
  intros He Hf Hue Huf. rewrite <- (unnest_endpoints graph numWorkers Hcluster i e),
    <- (unnest_endpoints graph numWorkers Hcluster j f) by done.
  destruct (cok_unnests _ _ Hcluster) as [Hone Hdistinct].
  destruct (Hone i e He Hue) as (a & Ea & _), (Hone j f Hf Huf) as (b & Eb & _).
  intros Hxe Hxf. assert (i = j); [| by simplify_eq].
  apply (Hdistinct i j e f); try done. rewrite Ea, Eb in *.
  apply RelationSet.elem_of_singleton_rs in Hxe as [-> _], Hxf as [-> _]. done.
Qed.

Lemma expands_closed F F' : expands F F' -> fragment_closed F -> fragment_closed F'.
Proof.
  induction 1 as [F|F F' i e He Hu Hl _ IH]; [done |]. intros Hc. apply IH.
  intros j f x Hf Huf Hx [Hin|Hin]%RelationSet.elem_of_unionSet.
  - intros y Hy. apply RelationSet.elem_of_unionSet. left. by apply (Hc j f x).
  - assert (e = f) as <- by by eapply expanded_once.
    intros y Hy. apply RelationSet.elem_of_unionSet. auto.
Qed.

(** An expansion adds no relation another fragment holds. *)
Lemma expands_holders F F' rest x : expands F F' ->
  Forall fragment_closed rest -> fragments_disjoint (F :: rest) -> x ∈ F' -> x ∉ F -> holders x rest = 0%nat.
Proof.
  intros Hexp Hrest. revert x. induction Hexp as [F|F F' i e He Hu Hl _ IH]; intros x Hd Hx Hn; [done |].
  set (F1 := RelationSet.unionSet F (JoinEdge.rightEligibility e)) in *.
  assert (Hright : forall y, y ∈ JoinEdge.rightEligibility e -> y ∉ F -> holders y rest = 0%nat).
  { intros y Hy _. destruct (holders y rest) as [|n] eqn:En; [done | exfalso].
    assert (Hg : exists G, G ∈ rest /\ y ∈ G).
    { unfold holders in En. destruct (filter _ rest) as [|G l] eqn:Ef; [done |].
      exists G. assert (HG : G ∈ filter (fun F : RelationSet => y ∈ F) rest) by (rewrite Ef; left).
      by apply list_elem_of_filter in HG as [? ?]. }
    destruct Hg as (G & HG & HyG). rewrite Forall_forall in Hrest.
    pose proof (Hrest G HG i e y He Hu Hy HyG) as HlG.
    destruct (edge_sides graph (cok_graph _ _ Hcluster) i e He) as [[l Hl'] _].
    specialize (Hd l). rewrite holders_cons, decide_True in Hd by by apply Hl.
    pose proof (holders_elem l G rest HG (HlG l Hl')). lia. }
  destruct (decide (x ∈ F1)) as [H1|H1].
  - apply RelationSet.elem_of_unionSet in H1 as [?|?]; [done | auto].
  - apply IH; [| done | done]. intros y. specialize (Hd y). rewrite holders_cons in *.
    destruct (decide (y ∈ F1)) as [Hy|_]; [| case_decide; lia].
    destruct (decide (y ∈ F)) as [|HnF]; [done |].
    apply RelationSet.elem_of_unionSet in Hy as [?|Hy]; [done |]. rewrite Hright by done. lia.
Qed.

Lemma expand_pass_spec es k set grown :
  (forall j e, es !! j = Some e -> edges !! (k + j)%nat = Some e) ->
  spec (expand_pass debug graph es k set grown)
    (fun '(set', grown') => expands set set' /\ (grown' = true -> grown = true \/ set' <> set) /\
       (grown = true -> grown' = true)).
Proof.
  revert k set grown. induction es as [|e es IH]; intros k set grown Hes; cbn [expand_pass].
  { apply spec_ret. split_conj; [constructor | auto | done]. }
  assert (He : edges !! k = Some e) by (rewrite <- (Nat.add_0_r k); by apply Hes).
  assert (Hrest : forall j e, es !! j = Some e -> edges !! (S k + j)%nat = Some e).
  { intros j e' Hj. rewrite Nat.add_succ_comm. by apply (Hes (S j)). }
  destruct (negb (JoinEdge.isUnnest e) || _ || _) eqn:Eskip; [by apply IH |].
  rewrite !orb_false_iff, !negb_false_iff, RelationSet.isSubset_spec, RelationSet.isSubset_false in Eskip.
  destruct Eskip as [[Hu Hl] Hr]. cbn zeta.
  eapply spec_bind.
  - apply (emitUnnest_spec _ fuel g graph numWorkers enumerationBudget false Hcluster set k e []). constructor; try done.
    + apply NoDup_singleton.
    + intros f ->%list_elem_of_singleton. exists e. split; [done |].
      by apply (unnest_crosses graph numWorkers Hcluster set k e).
    + by intros f ?%not_elem_of_nil.
  - intros _ _. eapply spec_bind; [apply cheapestPlan_spec |]. intros [p|] _; [| by apply IH].
    set (expanded := RelationSet.unionSet set (JoinEdge.rightEligibility e)).
    eapply spec_weaken; [by apply (IH (S k) expanded true) |].
    intros [set' grown'] (Hexp & _ & Hyes).
    assert (Hexp' : expands set set') by by eapply expands_step.
    assert (Hne : set' <> set).
    { intros ->. apply Hr. intros x Hx. apply (expands_sub _ _ Hexp), RelationSet.elem_of_unionSet. auto. }
    split_conj; [done | auto | by intros _; apply Hyes].
Qed.

Lemma expand_loop_spec n set : (64 - size_of set < n)%nat ->
  spec (expand_loop debug graph n set) (expands set).
Proof.
  revert set. induction n as [|n IH]; intros set Hn; [lia |]. cbn [expand_loop].
  eapply spec_bind; [apply (expand_pass_spec _ 0 set false); by intros j e |].
  intros [set' [|]] (Hexp & Hgrow & _); [| by eauto with spec].
  destruct (Hgrow eq_refl) as [|Hne]; [done |].
  pose proof (size_of_grows set set' (expands_sub _ _ Hexp) Hne). pose proof (size_of_le set').
  eapply spec_weaken; [apply IH; lia |]. intros set''. by apply expands_trans.
Qed.

Lemma expandThroughUnnests_spec set : spec (expandThroughUnnests debug graph set) (expands set).
Proof. apply expand_loop_spec. lia. Qed.

(** ** What could be expanded *)

Lemma expandable_pass_spec set gained :
  let '(gained', grown) := expandable_pass graph set gained in
  gained ⊆ gained' /\
  (grown = true -> RelationSet.unionSet set gained' <> RelationSet.unionSet set gained).
Proof.
  unfold expandable_pass.
  enough (H : forall es gained1 grown1, gained ⊆ gained1 ->
    (grown1 = true -> RelationSet.unionSet set gained1 <> RelationSet.unionSet set gained) ->
    let '(gained', grown) := foldl (fun '(gained, grown) edge =>
      let reached := RelationSet.unionSet set gained in
      if negb (JoinEdge.isUnnest edge) ||
         negb (RelationSet.isSubset (JoinEdge.leftEligibility edge) reached) ||
         RelationSet.isSubset (JoinEdge.rightEligibility edge) reached
      then (gained, grown)
      else (RelationSet.unionSet gained (JoinEdge.rightEligibility edge), true)) (gained1, grown1) es in
    gained ⊆ gained' /\
    (grown = true -> RelationSet.unionSet set gained' <> RelationSet.unionSet set gained))
    by (by apply H).
  induction es as [|e es IH]; intros gained1 grown1 Hsub Hg; cbn [foldl]; [done |].
  destruct (negb _ || _ || _) eqn:E; [by apply IH |].
  rewrite !orb_false_iff, !negb_false_iff, RelationSet.isSubset_false in E. destruct E as [_ Hr].
  apply IH.
  - intros x Hx. apply RelationSet.elem_of_unionSet. auto.
  - intros _ Eq. apply Hr. intros x Hx.
    assert (Hin : x ∈ RelationSet.unionSet set gained).
    { rewrite <- Eq, !RelationSet.elem_of_unionSet. auto. }
    apply RelationSet.elem_of_unionSet in Hin as [?|?]; apply RelationSet.elem_of_unionSet; auto.
Qed.

Lemma expandable_loop_total n set gained :
  (64 - size_of (RelationSet.unionSet set gained) < n)%nat ->
  exists result, expandable_loop graph n set gained = Ok result.
Proof.
  revert gained. induction n as [|n IH]; intros gained Hn; [lia |]. cbn [expandable_loop].
  pose proof (expandable_pass_spec set gained) as H.
  destruct (expandable_pass graph set gained) as [gained' [|]]; [| by eexists].
  destruct H as [Hsub Hne]. apply IH.
  assert (Hsub' : RelationSet.unionSet set gained ⊆ RelationSet.unionSet set gained').
  { intros x [?|?]%RelationSet.elem_of_unionSet; apply RelationSet.elem_of_unionSet; auto. }
  pose proof (size_of_grows _ _ Hsub' (Hne eq_refl)). pose proof (size_of_le (RelationSet.unionSet set gained')).
  lia.
Qed.

(** One fragment expanded, or none. *)
Definition one_expanded (fragments : list RelationSet) (result : bool * list RelationSet) : Prop :=
  if fst result
  then exists before F F' rest, fragments = before ++ F :: rest /\ snd result = before ++ F' :: rest /\
    expands F F' /\ F' <> F
  else snd result = fragments.

Lemma expandOneFragment_loop_spec before fragments :
  spec (expandOneFragment_loop debug graph before fragments) (one_expanded (before ++ fragments)).
Proof.
  revert before. induction fragments as [|F rest IH]; intros before; cbn [expandOneFragment_loop].
  { apply spec_ret. unfold one_expanded. cbn. by rewrite app_nil_r. }
  assert (Hnext : spec (expandOneFragment_loop debug graph (before ++ [F]) rest)
    (one_expanded (before ++ F :: rest))).
  { specialize (IH (before ++ [F])). by rewrite <- app_assoc in IH. }
  destruct (expandable_loop_total 66 F RelationSet.rsEmpty) as [gained Eg]; [lia |].
  unfold expandableRelations. rewrite Eg.
  eapply (spec_bind _ _ _ _ (eq gained)); [by apply spec_lift |]. intros _ <-. cbn zeta.
  destruct (RelationSet.empty gained); [done |]. destruct (existsb _ _); cbn [negb]; [| done].
  eapply spec_bind; [apply expandThroughUnnests_spec |]. intros F' Hexp.
  destruct (bool_decide (F' = F)) eqn:E; cbn [negb].
  - apply bool_decide_eq_true in E as ->. done.
  - apply bool_decide_eq_false in E. apply spec_ret. exists before, F, F', rest. auto.
Qed.

(** ** Rounds *)

(** The invariant of the fragments. *)
Definition fragments_ok (l : list RelationSet) : Prop :=
  fragments_disjoint l /\ Forall fragment_closed l.

(** Every round lowers this. *)
Definition greedy_measure (l : list RelationSet) : Z :=
  (65 * Z.of_nat (length l) - Z.of_nat (total_size l))%Z.

Lemma total_size_le l : (total_size l <= 64 * length l)%nat.
Proof.
  induction l as [|F l IH]; [done |]. rewrite total_size_cons. cbn [length]. pose proof (size_of_le F). lia.
Qed.

Lemma fragments_ok_expanded before F F' rest :
  fragments_ok (before ++ F :: rest) -> expands F F' -> F' <> F ->
  fragments_ok (before ++ F' :: rest) /\
  (greedy_measure (before ++ F' :: rest) < greedy_measure (before ++ F :: rest))%Z.
Proof.
  intros [Hd Hc] Hexp Hne.
  assert (Hp : forall G, before ++ G :: rest ≡ₚ G :: before ++ rest)
    by (intros G; by rewrite Permutation_middle).
  rewrite Hp in Hd, Hc. apply Forall_cons in Hc as [HcF Hc]. split; [split |].
  - intros x. rewrite Hp. pose proof (Hd x) as Hx. rewrite holders_cons in Hx |- *.
    destruct (decide (x ∈ F')) as [H'|_]; [| case_decide; lia].
    destruct (decide (x ∈ F)) as [|Hn]; [done |].
    by rewrite (expands_holders F F' (before ++ rest) x Hexp Hc Hd H' Hn).
  - rewrite Hp. apply Forall_cons. split; [by apply (expands_closed F) | done].
  - unfold greedy_measure. rewrite !Hp, !total_size_cons. cbn [length].
    pose proof (size_of_grows F F' (expands_sub _ _ Hexp) Hne). lia.
Qed.

Lemma fragments_ok_merged l i j A B :
  fragments_ok l -> (i < j)%nat -> l !! i = Some A -> l !! j = Some B ->
  let merged := delete j (<[i := RelationSet.unionSet A B]> l) in
  fragments_ok merged /\ (greedy_measure merged < greedy_measure l)%Z /\ merged <> [].
Proof.
  intros [Hd Hc] Hij Hi Hj. cbn zeta.
  destruct (merge_positions l i j A B (RelationSet.unionSet A B) Hij Hi Hj) as (rest & Hl & Hm).
  rewrite Hl in Hd, Hc. apply Forall_cons in Hc as [HcA Hc]. apply Forall_cons in Hc as [HcB Hc].
  split; [split |].
  - rewrite Hm. by apply fragments_disjoint_merge.
  - rewrite Hm. apply Forall_cons. split; [| done].
    intros k e x He Hu Hx [Hin|Hin]%RelationSet.elem_of_unionSet y Hy; apply RelationSet.elem_of_unionSet;
      [left; by apply (HcA k e x) | right; by apply (HcB k e x)].
  - split.
    + unfold greedy_measure. rewrite Hm, Hl, !total_size_cons. cbn [length].
      pose proof (size_of_subset A (RelationSet.unionSet A B) ltac:(by apply sub_union_l)).
      pose proof (size_of_le B). lia.
    + intros E. rewrite E in Hm. by apply Permutation_nil in Hm.
Qed.

Lemma elem_of_all_pairs n i j : (i, j) ∈ all_pairs n -> (i < j < n)%nat.
Proof.
  unfold all_pairs. rewrite list_elem_of_In, in_flat_map. intros (k & Hk%in_seq & Hin).
  apply in_map_iff in Hin as (m & [= -> ->] & Hm%in_seq). lia.
Qed.

(** The best pair is one of the fragments' pairs. *)
Definition best_ok (l : list RelationSet) (best : option BestPair) : Prop :=
  forall b, best = Some b -> exists A B, (bestLeft b < bestRight b)%nat /\
    l !! bestLeft b = Some A /\ l !! bestRight b = Some B /\ bestCombined b = RelationSet.unionSet A B.

Lemma best_pair_loop_spec l pairs best : fragments_ok l ->
  (forall i j, (i, j) ∈ pairs -> (i < j < length l)%nat) -> best_ok l best ->
  spec (best_pair_loop debug fuel g graph numWorkers hashStageTasks broadcastSizeLimit l pairs best) (best_ok l).
Proof.
  intros Hl. revert best. induction pairs as [|[i j] pairs IH]; intros best Hpairs Hbest;
    cbn [best_pair_loop]; [by eauto with spec |].
  destruct (Hpairs i j ltac:(left)) as [Hij Hj]. cbn zeta.
  destruct (lookup_lt_is_Some_2 l i ltac:(lia)) as [A HA], (lookup_lt_is_Some_2 l j Hj) as [B HB].
  rewrite (nth_lookup_Some _ _ _ _ HA), (nth_lookup_Some _ _ _ _ HB).
  assert (Hdis : disjoint_rels A B).
  { destruct (merge_positions l i j A B A Hij HA HB) as (rest & Hp & _).
    destruct Hl as [Hd _]. rewrite Hp in Hd. by eapply fragments_disjoint_pair. }
  assert (Hrest : forall i j, (i, j) ∈ pairs -> (i < j < length l)%nat)
    by (intros i' j' Hin; apply Hpairs; by right).
  eapply spec_bind; [by apply emitCsgCmp_spec |]. intros _ _.
  eapply spec_bind; [apply memo_find_spec |]. intros [plans|] _; [| by apply IH].
  apply IH; [done |]. destruct (match best with None => true | Some b => _ end); [| done].
  intros b [= <-]. by exists A, B.
Qed.

Lemma greedy_loop_spec n l : fragments_ok l -> (greedy_measure l < Z.of_nat n)%Z ->
  spec (greedy_loop debug fuel g graph numWorkers hashStageTasks broadcastSizeLimit n l)
    (fun result => forall l', result = Some l' -> (length l' <= 1)%nat /\ (l <> [] -> l' <> [])).
Proof.
  revert l. induction n as [|n IH]; intros l Hl Hn.
  { exfalso. unfold greedy_measure in Hn. pose proof (total_size_le l). lia. }
  cbn [greedy_loop]. destruct (length l <=? 1)%nat eqn:Elen.
  { apply Nat.leb_le in Elen. apply spec_ret. by intros l' [= <-]. }
  eapply spec_bind; [apply (best_pair_loop_spec l); [done | | by intros b] |].
  { by intros i j ?%elem_of_all_pairs. }
  intros [b|] Hb.
  - destruct (Hb b eq_refl) as (A & B & Hij & HA & HB & ->).
    destruct (fragments_ok_merged l _ _ A B Hl Hij HA HB) as (Hok & Hm & Hne).
    eapply spec_weaken; [apply IH; [done | lia] |]. intros result H l' E.
    destruct (H l' E) as [? ?]. auto.
  - eapply spec_bind; [apply (expandOneFragment_loop_spec [] l) |]. intros [[|] l1]; cbn [one_expanded fst snd app].
    + intros (before & F & F' & rest & -> & -> & Hexp & Hne).
      destruct (fragments_ok_expanded before F F' rest Hl Hexp Hne) as [Hok Hm].
      eapply spec_weaken; [apply IH; [done | lia] |]. intros result H l' E.
      destruct (H l' E) as [? Hn']. split; [done |]. intros _. apply Hn'. by destruct before.
    + intros _. by apply spec_ret.
Qed.

Lemma elem_of_fragment_ids component id : id ∈ fragment_ids graph component <->
  id ∈ component /\ id ∉ JoinHypergraph.expandedRelationIds graph.
Proof.
  unfold fragment_ids. rewrite list_elem_of_In, filter_In, <- list_elem_of_In, RelationSet.elem_of_ids, negb_true_iff.
  split; intros [Hid H]; (split; [done |]); pose proof (RelationSet.elem_of_lt _ _ Hid) as Hlt.
  - intros Hx. apply RelationSet.contains_spec in Hx; [congruence | done].
  - apply not_true_iff_false. by rewrite RelationSet.contains_spec.
Qed.

Lemma holders_singletons x ids :
  (holders x (map RelationSet.singleton ids) <= length (filter (fun i => i = x) ids))%nat.
Proof.
  induction ids as [|id ids IH]; [done |]. cbn [map]. rewrite holders_cons, filter_cons.
  destruct (decide (x ∈ RelationSet.singleton id)) as [Hx|_].
  - apply RelationSet.elem_of_singleton_rs in Hx as [-> _]. rewrite decide_True by done. cbn [length]. lia.
  - case_decide; cbn [length]; lia.
Qed.

Lemma NoDup_count (x : N) ids : NoDup ids -> (length (filter (fun i => i = x) ids) <= 1)%nat.
Proof.
  induction 1 as [|id ids Hn _ IH]; [cbn; lia |]. rewrite filter_cons. case_decide as E; [| done].
  subst id. cbn [length]. destruct (filter _ ids) as [|y l] eqn:Ef; [done | exfalso].
  assert (Hy : y ∈ filter (fun i => i = x) ids) by (rewrite Ef; left).
  by apply list_elem_of_filter in Hy as [-> Hy].
Qed.

Lemma fragment_ids_NoDup component : NoDup (fragment_ids graph component).
Proof. apply NoDup_ListNoDup, List.NoDup_filter, NoDup_ListNoDup, RelationSet.ids_NoDup. Qed.

Lemma start_fragments_ok component : fragments_ok (map RelationSet.singleton (fragment_ids graph component)).
Proof.
  split.
  - intros x. etrans; [apply holders_singletons | apply NoDup_count, fragment_ids_NoDup].
  - apply List.Forall_forall. intros F Hin. apply in_map_iff in Hin as (id & <- & Hid).
    apply list_elem_of_In, elem_of_fragment_ids in Hid as [_ Hx]. intros i e x He Hu Hxe [-> _]%RelationSet.elem_of_singleton_rs.
    exfalso. apply Hx, (gok_expanded graph (cok_graph _ _ Hcluster)). exists e.
    split_conj; [by eapply list_elem_of_lookup_2 | done |].
    by rewrite (unnest_endpoints graph numWorkers Hcluster i e He Hu).
Qed.

(** What [greedy] is given: known relations, one of which nothing expands. *)
Record component_ok (component : RelationSet) : Prop := {
  comp_known : component ⊆ JoinHypergraph.relationIds graph;
  comp_start : exists id, id ∈ component /\ id ∉ JoinHypergraph.expandedRelationIds graph;
}.

Lemma greedy_spec component : component_ok component ->
  spec (greedy debug fuel g graph numWorkers hashStageTasks broadcastSizeLimit component)
    (found fuel g graph numWorkers false component).
Proof.
  intros [Hsub (id & Hid & Hx)].
  eapply spec_bind; [apply spec_modify; intros s Hs; apply set_budget_ok; [| done]; apply budget_disable_ok |]. intros _ _.
  eapply spec_bind; [by apply initLeaves_spec |]. intros _ _.
  eapply (spec_bind _ _ _ _ (fun _ => True)); [by apply spec_gets |]. intros leaves _. cbn zeta.
  destruct (negb _); [by eauto with spec |].
  pose proof (start_fragments_ok component) as Hok.
  eapply spec_bind; [apply greedy_loop_spec; [done |] |].
  { unfold greedy_measure. rewrite length_map.
    assert (Hlen : (length (fragment_ids graph component) <= 64)%nat).
    { unfold fragment_ids. etrans; [apply List.filter_length_le |].
      pose proof (size_le_64 component). rewrite RelationSet.size_ids in H. lia. }
    pose proof (total_size_le (map RelationSet.singleton (fragment_ids graph component))). unfold greedy_fuel. lia. }
  intros [l|] Hl; [| by eauto with spec]. destruct (Hl l eq_refl) as [Hlen Hne].
  eapply spec_bind; [apply dcheck_spec |].
  { apply Nat.eqb_eq. destruct l as [|F [|F' l]]; cbn in *; [| done | lia].
    exfalso. apply Hne; [| done]. intros E. apply map_eq_nil in E.
    assert (Hin : id ∈ fragment_ids graph component) by by apply elem_of_fragment_ids. rewrite E in Hin. by apply not_elem_of_nil in Hin. }
  intros _ _. eapply spec_bind; [apply expandThroughUnnests_spec |]. intros F _. apply cheapestPlan_spec.
Qed.
End Greedy.
