(* ===== verification/Examples.v ===== *)
(** * Concrete clusters to enumerate

    Executable instances of everything the enumeration takes from outside, the
    three-relation clique of [HypergraphFacts] and a cluster with an [Unnest]:
    the witnesses and counterexamples of [EnumerationResults] run on them. *)

From S2P Require Import Prelude Word64 RelationSets BitSets EstimateMath QueryGraph Joins.
From S2P Require Import Partitionings Nodes Closures Hypergraphs HypergraphFacts HypergraphColumns.
From S2P Require Import Memo DPhyp Enumerations PlanSoundness Candidates Emission Greedy.
From Stdlib Require Import Lia.
Open Scope N_scope.
#[export] Existing Instance BitSet.Velox.primitives.

(** ** What the enumeration calls *)

(** Leaves cost by their id, a join charges its build side twice. *)
Definition run_cost (op : MemoOp) : Cost :=
  let c x := EstimateMath.cost (MemoOp.cost x) in
  match op with
  | LeafOp _ id _ => mkCost (Some (Float.of_Z (10 + Z.of_N id))) (Some (Float.of_Z (10 + Z.of_N id)))
  | JoinOp _ l r _ _ _ _ _ _ =>
      mkCost (EstimateMath.add (c l) (EstimateMath.add (c r) (c r))) (Some (Float.of_Z 7))
  | UnnestOp _ i _ _ _ | ExchangeOp _ i _ => MemoOp.cost i
  end.

#[export] Instance run_model : CostModel := {
  cost_of := run_cost;
  shuffleCost := fun _ => Some (Float.of_Z 5);
  broadcastCost := fun _ n => Some (Float.of_Z n);
  coveredRowBytes := fun _ => Float.of_Z 8;
}.
#[export] Instance run_enums : VeloxEnums := {
  joinType_int := fun t => match t with kInner => 0 | _ => 1 end;
}.
#[export] Instance run_grouped : GroupedRead := {
  grouped_partitioning := fun _ _ => Partitioning.unspecified kGlobal;
}.
#[export] Instance run_builder : ExprBuilder := {
  typeAt := fun _ => mkType false false false [];
  substitute := fun e _ _ => Ok e;
  makeCoalesce := fun a b => a;
}.
#[export] Instance run_connector : Connector := {
  numPartitions := fun _ => 4%Z;
  copartitionedType := fun _ _ => None;
}.

(** ** Clusters *)

(** A node that produces [column]. *)
Definition run_node (_ : N) : Node :=
  mkNode kScan false (mkPhysicalProperties (Partitioning.unspecified kGlobal)
    (Partitioning.unspecified kDriver) [] [] []) [] [] [0] [] [].

(** [t.k], [u.k], [u.v] and the unnested [w.e]. *)
Definition unnest_query : QueryGraph :=
  mkQueryGraph {[ 0 := example_column "t.k"; 1 := example_column "u.k";
                  2 := example_column "u.v"; 3 := example_column "w.e" ]} ∅ 0.

Definition unnest_node : Node :=
  mkNode kUnnest false (mkPhysicalProperties (Partitioning.unspecified kGlobal)
    (Partitioning.unspecified kDriver) [] [] []) [] [] [] [0] [].

Definition columns_of (l : list N) : BitSet := foldl BitSet.add BitSet.new l.

Definition add_read (columns : list N) (graph : Result JoinHypergraph) : Result JoinHypergraph :=
  graph ≫= fun graph =>
  JoinHypergraph.addRelation graph (example_node []) (Some (Float.of_Z 10)) (columns_of columns)
    ≫= fun r => Ok (snd r).
Definition add_unnest (columns : list N) (graph : Result JoinHypergraph) : Result JoinHypergraph :=
  graph ≫= fun graph =>
  JoinHypergraph.addUnnestRelation graph unnest_node (Some (Float.of_Z 100)) (columns_of columns)
    ≫= fun r => Ok (snd r).
Definition add_edge (e : Result JoinEdge) (graph : Result JoinHypergraph) : Result JoinHypergraph :=
  graph ≫= fun graph => e ≫= JoinHypergraph.addEdge graph.

(** The inner edge that equates column [lk] of [l] with column [rk] of [r]. *)
Definition inner_edge (l r lk rk : N) : Result JoinEdge :=
  JoinEdge.new (RelationSet.singleton l) (RelationSet.singleton r) (RelationSet.singleton l)
    (RelationSet.singleton r) [lk] [rk] [] kInner false false None [] [].

(** [SELECT ... FROM t, UNNEST(t.a) w(e), u WHERE t.k = u.k AND w.e = u.v] *)
Definition unnest_build : Result JoinHypergraph :=
  add_edge (inner_edge 2 1 3 2) (add_edge (inner_edge 0 1 0 1)
    (add_edge (JoinEdge.unnest (RelationSet.singleton 0) (RelationSet.singleton 2))
      (add_unnest [3] (add_read [1; 2] (add_read [0] (Ok JoinHypergraph.new)))))).

Definition unnest_hypergraph : JoinHypergraph :=
  match unnest_build with Ok graph => graph | Throw _ => JoinHypergraph.new end.

Definition good (g : QueryGraph) (graph : Result JoinHypergraph) : Prop :=
  forall x, graph = Ok x -> built g x.

Lemma add_read_good g columns graph : good g graph -> good g (add_read columns graph).
Proof.
  intros IH x. unfold add_read. destruct graph as [gr|]; cbn [mbind Result_bind]; [| done].
  destruct (JoinHypergraph.addRelation _ _ _ _) as [[id gr']|] eqn:E; [| done]. intros [= <-].
  eapply built_relation; [by apply IH | exact E].
Qed.

Lemma add_unnest_good g columns graph : good g graph -> good g (add_unnest columns graph).
Proof.
  intros IH x. unfold add_unnest. destruct graph as [gr|]; cbn [mbind Result_bind]; [| done].
  destruct (JoinHypergraph.addUnnestRelation _ _ _ _) as [[id gr']|] eqn:E; [| done]. intros [= <-].
  eapply built_unnest_relation; [by apply IH | exact E].
Qed.

Lemma add_edge_good g e graph :
  (forall x, e = Ok x -> edge_built x) -> good g graph -> good g (add_edge e graph).
Proof.
  intros He IH x. unfold add_edge. destruct graph as [gr|]; cbn [mbind Result_bind]; [| done].
  destruct e as [e|]; cbn [mbind Result_bind]; [| done]. intros E.
  eapply built_edge; [by apply IH | by apply He | exact E].
Qed.

Lemma unnest_hypergraph_built : built unnest_query unnest_hypergraph.
Proof.
  assert (H : good unnest_query unnest_build).
  { do 2 (apply add_edge_good; [intros x E; by eapply built_join |]).
    apply add_edge_good; [intros x E; by eapply built_unnest |].
    apply add_unnest_good. do 2 apply add_read_good. intros x [= <-]. constructor. }
  unfold unnest_hypergraph. destruct unnest_build; [by apply H | constructor].
Qed.

(** ** Both are clusters of the enumeration *)

(** The conditions on edges, as a check. *)
Definition cluster_check (graph : JoinHypergraph) : bool :=
  let edges := JoinHypergraph.edges graph in
  forallb (fun e => JoinEdge.isUnnest e || cluster_type (JoinEdge.joinType e)) edges &&
  forallb (fun e => negb (JoinEdge.isUnnest e) ||
    (bool_decide (JoinEdge.rightEndpoints e = RelationSet.singleton (RelationSet.min (JoinEdge.rightEndpoints e))) &&
     (RelationSet.min (JoinEdge.rightEndpoints e) <? width))) edges &&
  bool_decide (NoDup (map JoinEdge.rightEndpoints (List.filter JoinEdge.isUnnest edges))).

Lemma NoDup_filter_inj {A B} (f : A -> B) (p : A -> bool) (l : list A) i j x y :
  NoDup (map f (List.filter p l)) -> l !! i = Some x -> l !! j = Some y ->
  p x = true -> p y = true -> f x = f y -> i = j.
Proof.
  intros Hnd Hi Hj Hx Hy Hf. revert i j Hi Hj. induction l as [|z l IH]; intros i j Hi Hj; [done |].
  cbn [List.filter] in Hnd.
  assert (Hmem : forall k w, l !! k = Some w -> p w = true -> f w ∈ map f (List.filter p l)).
  { intros k w Hk Hw. apply list_elem_of_In, in_map, filter_In. split; [| done].
    apply list_elem_of_In. by eapply list_elem_of_lookup_2. }
  destruct i as [|i], j as [|j]; cbn in Hi, Hj.
  - done.
  - injection Hi as ->. rewrite Hx in Hnd. cbn in Hnd. apply NoDup_cons in Hnd as [Hn _].
    destruct Hn. rewrite Hf. by eapply Hmem.
  - injection Hj as ->. rewrite Hy in Hnd. cbn in Hnd. apply NoDup_cons in Hnd as [Hn _].
    destruct Hn. rewrite <- Hf. by eapply Hmem.
  - f_equal. apply IH; [| done..]. destruct (p z); [| done]. by apply NoDup_cons in Hnd as [_ ?].
Qed.

Lemma cluster_check_ok g graph numWorkers :
  built g graph -> cluster_check graph = true -> (1 <= numWorkers)%Z -> cluster_ok graph numWorkers.
Proof.
  intros Hb Hc Hn. unfold cluster_check in Hc. apply andb_true_iff in Hc as [[Ht Hr]%andb_true_iff Hd].
  apply bool_decide_eq_true in Hd. rewrite forallb_forall in Ht, Hr.
  assert (Hin : forall i e, JoinHypergraph.edges graph !! i = Some e -> In e (JoinHypergraph.edges graph))
    by (intros i e He; apply list_elem_of_In; by eapply list_elem_of_lookup_2).
  constructor; [apply (built_ok g graph Hb) | | | done].
  - split.
    + intros i e He Hu. specialize (Hr e (Hin i e He)). rewrite Hu in Hr. cbn [negb orb] in Hr.
      apply andb_true_iff in Hr as [E%bool_decide_eq_true W%N.ltb_lt]. by eauto.
    + intros i j e f He Hf Hue Huf E. by eapply NoDup_filter_inj.
  - intros i e He Hu. specialize (Ht e (Hin i e He)). by rewrite Hu in Ht.
Qed.

Lemma example_cluster : cluster_ok example_hypergraph 4.
Proof. by apply (cluster_check_ok _ _ _ example_hypergraph_built). Qed.

Lemma unnest_cluster : cluster_ok unnest_hypergraph 1.
Proof. by apply (cluster_check_ok _ _ _ unnest_hypergraph_built). Qed.

Lemma example_component : component_ok example_hypergraph (RelationSet.prefixThrough 2).
Proof.
  constructor.
  - replace (RelationSet.prefixThrough 2) with (JoinHypergraph.relationIds example_hypergraph) by by vm_compute.
    by intros i.
  - exists 0. split; by vm_compute.
Qed.
