(* ===== verification/EnumerationResults.v ===== *)
(** * What [DPhyp::enumerate] promises

    The contract of the whole enumeration: the plan it returns is sound and
    covers the cluster, it ends, the errors it can raise are the ones it means
    to, and - without a budget to overflow - no predicate is lost.  Ends with the
    hypergraph on which the greedy fallback loses a predicate. *)

From S2P Require Import Prelude Word64 RelationSets BitSets EstimateMath QueryGraph Joins.
From S2P Require Import Partitionings Nodes Closures Hypergraphs HypergraphFacts HypergraphColumns.
From S2P Require Import Memo DPhyp Enumerations PlanSoundness Candidates Emission Greedy Examples.
From Stdlib Require Import Lia.
Set Warnings "-clear-no-such-hyp".
Open Scope N_scope.

Section Results.
Context {VB : VeloxBits} {C : Connector} {EB : ExprBuilder} {CM : CostModel} {VE : VeloxEnums}
  {GR : GroupedRead}.
Context (debug : bool) (fuel : nat) (g : QueryGraph) (nodeAt : N -> Node) (graph : JoinHypergraph).
Context (enumerationBudget numWorkers hashStageTasks broadcastSizeLimit : Z).
Context (Hcluster : cluster_ok graph numWorkers) (Hcache : cache_ok g graph)
  (Hsize : DPhyp.new graph = Ok tt).

Abbreviation edges := (JoinHypergraph.edges graph) (only parsing).
Abbreviation state_ok := (state_ok fuel g graph numWorkers enumerationBudget).
Abbreviation found := (found fuel g graph numWorkers).
Abbreviation run := (DPhyp.enumerate debug fuel g nodeAt graph enumerationBudget numWorkers hashStageTasks
  broadcastSizeLimit).
Abbreviation run_components := (DPhyp.enumerate_components debug fuel g graph enumerationBudget numWorkers
  hashStageTasks broadcastSizeLimit).

(** ** The errors of the checks *)

Definition enforcement_error (e : Error) : Prop :=
  e = VeloxCheck "Plan does not enforce a join equality: {} = {}" \/
  e = VeloxCheck "Plan does not apply a join edge: {} {}".

Definition consistency_error (e : Error) : Prop :=
  e = VeloxCheck "Hypergraph is not connected" \/
  e = VeloxCheck "Unnest relation has no unnest edge: {}" \/
  e = VeloxCheck "1, nodeInputs.size()".

Definition final_error (e : Error) : Prop := planning_error e \/ enforcement_error e.

Lemma check_edges_errors applied closure es k :
  match JoinHypergraph.check_edges applied closure es k with
  | Ok _ => True
  | Throw e => enforcement_error e
  end.
Proof.
  revert closure k. induction es as [|e es IH]; intros closure k; cbn [JoinHypergraph.check_edges]; [done |].
  destruct (negb _).
  - destruct (bool_decide _); cbn [velox_check mbind Result_bind]; [apply IH | by right].
  - assert (Hp : forall pairs closure, match JoinHypergraph.check_pairs closure pairs with
      | Ok _ => True | Throw e => enforcement_error e end).
    { induction pairs as [|[l r] pairs IHp]; intros c; cbn [JoinHypergraph.check_pairs]; [done |].
      destruct (EquivalenceClosure.find c l) as [x c1]. destruct (EquivalenceClosure.find c1 r) as [y c2].
      destruct (x =? y); cbn [velox_check mbind Result_bind]; [apply IHp | by left]. }
    specialize (Hp (JoinHypergraph.key_pairs e) closure).
    destruct (JoinHypergraph.check_pairs closure _) as [c|err]; cbn [mbind Result_bind]; [apply IH | done].
Qed.

Lemma check_consistency_errors :
  match JoinHypergraph.checkConsistency nodeAt graph with
  | Ok _ => True
  | Throw e => consistency_error e
  end.
Proof.
  unfold JoinHypergraph.checkConsistency. destruct (bool_decide _); [done |].
  destruct (component_loop_spec graph (JoinHypergraph.relationIds graph) 66 (RelationSet.singleton 0))
    as (reached & Er & _); [lia |].
  unfold JoinHypergraph.connectedComponent. rewrite Er. cbn [mbind Result_bind].
  destruct (_ =? _); cbn [velox_check mbind Result_bind]; [| by left].
  induction (RelationSet.ids _) as [|id ids IH]; cbn [JoinHypergraph.check_unnests]; [done |].
  unfold JoinHypergraph.reads_constant. destruct (inputs _) as [|i [|j rest]]; cbn [mbind Result_bind];
    [by right; right | | by right; right].
  destruct (bool_decide _); cbn [mbind Result_bind]; [apply IH |].
  destruct (existsb _ _); cbn [velox_check mbind Result_bind]; [apply IH | by right; left].
Qed.

(** ** The sets planned *)

Lemma relations_nonempty : (2 <= length (JoinHypergraph.relations graph))%nat.
Proof.
  unfold DPhyp.new in Hsize. destruct (2 <=? _)%nat eqn:E; [by apply Nat.leb_le in E | done].
Qed.

Lemma elem_of_allRelations i :
  i ∈ DPhyp.allRelations graph <-> (N.to_nat i < length (JoinHypergraph.relations graph))%nat.
Proof.
  unfold DPhyp.allRelations. destruct Hcluster as [Hok _ _ _].
  assert (H : forall rels acc, i ∈ foldl (fun all relation => RelationSet.add all (Relation.id relation)) acc rels <->
    i ∈ acc \/ exists r, r ∈ rels /\ i = Relation.id r /\ Relation.id r < width).
  { induction rels as [|r rels IH]; intros acc; cbn [foldl].
    - split; [auto |]. by intros [?|(r & ?%not_elem_of_nil & _)].
    - rewrite IH, RelationSet.elem_of_add. setoid_rewrite elem_of_cons. naive_solver. }
  rewrite H, RelationSet.elem_of_empty_rs. split.
  - intros [[]|(r & [k Hk]%list_elem_of_lookup & -> & _)]. rewrite (gok_ids graph Hok k r Hk), Nat2N.id.
    by eapply lookup_lt_Some.
  - intros Hi. right. destruct (lookup_lt_is_Some_2 _ _ Hi) as [r Hr]. exists r.
    pose proof (gok_ids graph Hok _ _ Hr) as Eid. rewrite N2Nat.id in Eid. pose proof (gok_cap graph Hok).
    split_conj; [by eapply list_elem_of_lookup_2 | done | unfold width; lia].
Qed.

Lemma allRelations_known : DPhyp.allRelations graph ⊆ JoinHypergraph.relationIds graph.
Proof.
  intros i Hi%elem_of_allRelations. by apply (gok_relationIds graph (cok_graph _ _ Hcluster)).
Qed.

(** Relation 0 is never expanded: an unnest edge points to larger ids. *)
Lemma zero_not_expanded : 0 ∉ JoinHypergraph.expandedRelationIds graph.
Proof.
  intros (e & He & Hu & Hz)%(gok_expanded graph (cok_graph _ _ Hcluster)).
  pose proof (gok_unnest_order graph (cok_graph _ _ Hcluster) e He Hu) as Hlt.
  apply RelationSet.min_le in Hz. lia.
Qed.

Lemma allRelations_ok : component_ok graph (DPhyp.allRelations graph).
Proof.
  constructor; [apply allRelations_known |]. exists 0. split; [| apply zero_not_expanded].
  apply elem_of_allRelations. pose proof relations_nonempty. cbn. lia.
Qed.

Lemma solved_set_known :
  RelationSet.prefixThrough (last_relation_id graph) ⊆ JoinHypergraph.relationIds graph.
Proof.
  pose proof relations_nonempty as Hn. pose proof (cok_graph _ _ Hcluster) as Hok.
  unfold last_relation_id. destruct (last (JoinHypergraph.relations graph)) as [r|] eqn:El.
  - rewrite last_lookup in El. pose proof (gok_ids graph Hok _ _ El) as Eid.
    intros i Hi. apply (gok_relationIds graph Hok). rewrite Eid in Hi.
    pose proof (gok_cap graph Hok). apply RelationSet.elem_of_prefixThrough in Hi; [| unfold width; lia]. lia.
  - apply last_None in El. rewrite El in Hn. cbn in Hn. lia.
Qed.

(** ** Starting *)

(** The object after construction. *)
Definition fresh : State :=
  mkState ∅ (EnumerationBudget.new enumerationBudget) [] ∅ (JoinHypergraph.coverOutputColumnsCache graph).

Lemma fresh_ok strict : state_ok strict fresh.
Proof.
  constructor; cbn; [by intros S plans ?%lookup_empty_Some | constructor | by intros id p ?%lookup_empty_Some | |
    apply budget_new_ok].
  assert (E : with_cache graph (JoinHypergraph.coverOutputColumnsCache graph) = graph) by by destruct graph.
  by rewrite E.
Qed.

Lemma start_spec strict : spec (state_ok strict) final_error (DPhyp.start enumerationBudget) (fun _ => True).
Proof.
  apply spec_modify. intros s [H1 H2 H3 H4 H5].
  constructor; cbn; [by intros S plans ?%lookup_empty_Some | done | by intros id p ?%lookup_empty_Some | done |
    apply budget_new_ok].
Qed.

(** A plan, when there is one, passes the final check. *)
Definition checked (plan : option MemoOp) : Prop :=
  forall p, plan = Some p ->
    JoinHypergraph.checkEdgesEnforced g graph (list_to_set (applied_edges p)) = Ok tt.

Lemma check_spec strict plan :
  spec (state_ok strict) final_error (lift (DPhyp.checkEdgesEnforced g graph plan)) (fun _ => checked plan).
Proof.
  apply spec_lift. destruct plan as [p|]; cbn [DPhyp.checkEdgesEnforced]; [| done].
  unfold collectAppliedEdges. rewrite (right_id_L ∅ (∪)).
  pose proof (check_edges_errors (list_to_set (applied_edges p))
    (JoinHypergraph.enforced_closure g graph (list_to_set (applied_edges p))) edges 0) as H.
  unfold checked, JoinHypergraph.checkEdgesEnforced.
  destruct (JoinHypergraph.check_edges _ _ _ _) as [[]|e] eqn:E; [| by right].
  intros q [= <-]. exact E.
Qed.

Lemma spec_final {A} strict (m : StateM State A) Q :
  spec (state_ok strict) planning_error m Q -> spec (state_ok strict) final_error m Q.
Proof.
  intros H s Hs. specialize (H s Hs). destruct (m s) as [[a s']|e]; [done | by left].
Qed.

(** ** [enumerate()] *)

(** Past the consistency check; [strict] needs the exhaustive path. *)
Lemma enumerate_spec strict : strict = false \/ (enumerationBudget <= 0)%Z ->
  spec (state_ok strict) final_error
    (DPhyp.start enumerationBudget;;
     budgetExceeded ← solve debug fuel g graph numWorkers hashStageTasks broadcastSizeLimit;
     if budgetExceeded : bool
     then modify (set_memo ∅);;
          greedyRoot ← greedy debug fuel g graph numWorkers hashStageTasks broadcastSizeLimit
            (DPhyp.allRelations graph);
          lift (DPhyp.checkEdgesEnforced g graph greedyRoot);; mret greedyRoot
     else entry ← find (DPhyp.allRelations graph);
          match entry with
          | None => mret None
          | Some plans => let root := PlanSet.cheapest plans in
              lift (DPhyp.checkEdgesEnforced g graph root);; mret root
          end)
    (fun root => found strict (DPhyp.allRelations graph) root /\ checked root).
Proof.
  intros Hstrict. eapply spec_bind; [apply start_spec |]. intros _ _.
  eapply spec_bind; [apply spec_final, solveComponent_spec; [done | apply solved_set_known] |].
  intros [|] Hexceeded.
  - destruct Hstrict as [-> |Hb]; [| by specialize (Hexceeded Hb)].
    eapply spec_bind; [apply spec_modify |].
    { intros s [H1 H2 H3 H4 H5]. constructor; cbn; [by intros S plans ?%lookup_empty_Some | done..]. }
    intros _ _. eapply spec_bind; [apply spec_final, greedy_spec; [done | apply allRelations_ok] |].
    intros root Hroot. eapply spec_bind; [apply check_spec |]. intros [] Hc. by apply spec_ret.
  - eapply spec_bind; [apply spec_final, memo_find_spec |]. intros [plans|] He; [| by eauto with spec].
    cbn zeta. eapply spec_bind; [apply check_spec |]. intros [] Hc. apply spec_ret. split; [| done].
    intros p Hp. apply (He plans eq_refl). by apply cheapest_elem.
Qed.

Lemma run_spec strict : strict = false \/ (enumerationBudget <= 0)%Z ->
  match run fresh with
  | Ok (root, s) => state_ok strict s /\ found strict (DPhyp.allRelations graph) root /\ checked root
  | Throw e => final_error e \/ (debug = true /\ consistency_error e)
  end.
Proof.
  intros Hstrict. unfold DPhyp.enumerate. pose proof check_consistency_errors as Hcons.
  pose proof (enumerate_spec strict Hstrict fresh (fresh_ok strict)) as H.
  set (rest := (DPhyp.start enumerationBudget ;; _)) in H |- *.
  assert (E : forall r : Result unit, (lift r;; rest) fresh =
    match r with Ok _ => rest fresh | Throw e => Throw e end) by (by intros []).
  rewrite E. destruct debug; cbn iota.
  - destruct (JoinHypergraph.checkConsistency nodeAt graph) as [u|e]; [| by right].
    destruct (rest fresh) as [[root s]|e]; [done | by left].
  - destruct (rest fresh) as [[root s]|e]; [done | by left].
Qed.

(** C1: a plan [enumerate()] returns is sound, covers the whole cluster - every
    relation is read or expanded exactly once - applies no edge twice, and
    enforces every equality of the query; and every plan left in the memo is
    sound for the set it is filed under. *)
Theorem enumerate_returns_sound_plan :
  match run fresh with
  | Ok (Some p, s) =>
      sound fuel g graph numWorkers false p /\
      NoDup (plan_relations p) /\
      (forall i, i ∈ plan_relations p <-> (N.to_nat i < length (JoinHypergraph.relations graph))%nat) /\
      NoDup (applied_edges p) /\
      JoinHypergraph.checkEdgesEnforced g graph (list_to_set (applied_edges p)) = Ok tt /\
      forall S plans q, memo s !! S = Some plans -> q ∈ plans ->
        sound fuel g graph numWorkers false q /\ MemoOp.cover q = S
  | _ => True
  end.
Proof.
  pose proof (run_spec false (or_introl eq_refl)) as H. destruct (run fresh) as [[[p|] s]|e]; [| done | done].
  destruct H as (Hs & Hfound & Hchecked). destruct (Hfound p eq_refl) as [Hp Hcover].
  destruct (sound_relations fuel g graph numWorkers false (cok_unnests _ _ Hcluster) p Hp) as [Hnd Hrel].
  destruct (sound_applied fuel g graph numWorkers false (cok_graph _ _ Hcluster) p Hp) as [Happ _].
  split_conj; [done | done | | done | by apply Hchecked |].
  - intros i. by rewrite Hrel, Hcover, elem_of_allRelations.
  - intros S plans q HS Hq. by apply (proj2 (sok_memo _ _ _ _ _ _ _ Hs S plans HS)).
Qed.

(** C2: without a budget to overflow, no predicate is lost: the returned plan
    applies every edge of the cluster itself, or - for a plain inner edge only -
    the edges it applies equate, pair by pair, the classes of its keys.  So every
    edge that is not a plain inner join is applied, by construction and not
    only by the final check. *)
Theorem exhaustive_enumeration_applies_every_edge (Hbudget : (enumerationBudget <= 0)%Z) :
  match run fresh with
  | Ok (Some p, _) =>
      sound fuel g graph numWorkers true p /\
      forall i e, edges !! i = Some e ->
        i ∈ applied_edges p \/
        (JoinHypergraph.plain_inner e = true /\ implied_by g graph (applied_edges p) i)
  | _ => True
  end.
Proof.
  pose proof (run_spec true (or_intror Hbudget)) as H. destruct (run fresh) as [[[p|] s]|e]; [| done | done].
  destruct H as (_ & Hfound & _). destruct (Hfound p eq_refl) as [Hp Hcover]. split; [done |].
  intros i e He. apply (sound_complete fuel g graph numWorkers true (cok_graph _ _ Hcluster)
    (cok_unnests _ _ Hcluster) p eq_refl Hp i e He).
  rewrite Hcover. intros x Hx.
  apply elem_of_allRelations, (gok_relationIds graph (cok_graph _ _ Hcluster)).
  eapply (gok_edge_ids graph (cok_graph _ _ Hcluster)); [by eapply list_elem_of_lookup_2 | done].
Qed.

(** C3: enumeration ends and fails only as it means to: no loop or recursion runs
    out of the bound on its rounds, and the only errors are the refusal of a
    step that two special edges cross, the final check's, in a debug build the
    consistency check's, and those of expression interning.  In particular no
    other internal check fires, [VELOX_DCHECK]s included. *)
Theorem enumerate_ends_and_fails_cleanly (e : Error)
    (Hthrow : run fresh = Throw e) :
  (e = two_special_edges \/ enforcement_error e \/ (debug = true /\ consistency_error e) \/
   exists key sources outputs, substitute key sources outputs = Throw e) /\
  (e = OutOfFuel -> exists key sources outputs, substitute key sources outputs = Throw OutOfFuel).
Proof.
  pose proof (run_spec false (or_introl eq_refl)) as H. rewrite Hthrow in H.
  assert (Hcases : e = two_special_edges \/ enforcement_error e \/ (debug = true /\ consistency_error e) \/
    exists key sources outputs, substitute key sources outputs = Throw e).
  { destruct H as [[[?|?]|?]|?]; auto. }
  split; [done |]. intros ->.
  destruct Hcases as [|[[|]|[(_ & [|[|]])|]]]; done.
Qed.

(** ** [enumerate(components)] *)

Lemma enumerate_loop_spec components roots done_ :
  Forall (component_ok graph) components -> Forall2 (plan_for fuel g graph numWorkers false) done_ roots ->
  spec (state_ok false) planning_error
    (DPhyp.enumerate_loop debug fuel g graph numWorkers hashStageTasks broadcastSizeLimit components roots)
    (fun result => forall roots', result = Some roots' ->
       Forall2 (plan_for fuel g graph numWorkers false) (done_ ++ components) roots').
Proof.
  revert roots done_. induction components as [|c components IH]; intros roots done_ Hc Hroots;
    cbn [DPhyp.enumerate_loop].
  { apply spec_ret. intros roots' [= <-]. by rewrite app_nil_r. }
  apply Forall_cons in Hc as [Hc Hcs].
  eapply spec_bind; [apply solveComponent_spec; [done | apply Hc] |]. intros overflow _.
  eapply (spec_bind _ _ _ _ (found false c)).
  { destruct overflow; [by apply greedy_spec | apply cheapestPlan_spec]. }
  intros [root|] Hroot; [| by eauto with spec].
  replace (done_ ++ c :: components) with ((done_ ++ [c]) ++ components) by (by rewrite <- app_assoc).
  apply IH; [done |]. apply Forall2_app; [done |]. constructor; [by apply Hroot | constructor].
Qed.

(** [enumerate(components)] returns either nothing or one sound plan per
    component, each covering exactly its component, and together they enforce
    every equality of the query. *)
Theorem enumerate_components_plans_each (components : list RelationSet)
    (Hcomponents : Forall (component_ok graph) components) :
  match run_components components fresh with
  | Ok (roots, _) =>
      roots = [] \/
      (Forall2 (fun c p => sound fuel g graph numWorkers false p /\ MemoOp.cover p = c) components roots /\
       JoinHypergraph.checkEdgesEnforced g graph (list_to_set (concat (map applied_edges roots))) = Ok tt)
  | Throw e => e = two_special_edges \/ enforcement_error e \/
      exists key sources outputs, substitute key sources outputs = Throw e
  end.
Proof.
  assert (H : spec (state_ok false) final_error (run_components components) (fun roots =>
    roots = [] \/
    (Forall2 (plan_for fuel g graph numWorkers false) components roots /\
     JoinHypergraph.checkEdgesEnforced g graph (list_to_set (concat (map applied_edges roots))) = Ok tt))).
  { eapply spec_bind; [apply start_spec |]. intros _ _.
    eapply spec_bind; [apply spec_final, (enumerate_loop_spec components [] []); [done | constructor] |].
    intros [roots|] Hroots; [| by apply spec_ret; left]. cbn zeta.
    assert (Eset : forall l (acc : gset nat),
      foldl (fun applied root => collectAppliedEdges root applied) acc l =
      list_to_set (concat (map applied_edges l)) ∪ acc).
    { induction l as [|p l IHl]; intros acc; cbn [foldl map concat]; [set_solver |].
      rewrite IHl. unfold collectAppliedEdges. rewrite list_to_set_app_L. set_solver. }
    rewrite Eset, (right_id_L ∅ (∪)).
    eapply (spec_bind _ _ _ _ (fun _ => JoinHypergraph.checkEdgesEnforced g graph
      (list_to_set (concat (map applied_edges roots))) = Ok tt)).
    - apply spec_lift. unfold JoinHypergraph.checkEdgesEnforced.
      pose proof (check_edges_errors (list_to_set (concat (map applied_edges roots)))
        (JoinHypergraph.enforced_closure g graph (list_to_set (concat (map applied_edges roots)))) edges 0) as He.
      destruct (JoinHypergraph.check_edges _ _ _ _) as [[]|e]; [done | by right].
    - intros [] Hchk. apply spec_ret. right. split; [by apply Hroots | done]. }
  specialize (H fresh (fresh_ok false)). destruct (run_components components fresh) as [[roots s]|e].
  - apply H.
  - destruct H as [[?|?]|?]; auto.
Qed.
End Results.

(** ** Runs *)

(** The clique of [HypergraphFacts] on four workers: exhaustively, and with a
    budget that overflows. *)
Abbreviation example_run enumerationBudget := (DPhyp.enumerate true 10 example_graph_abc run_node
  example_hypergraph enumerationBudget 4 8 1000 (fresh example_hypergraph enumerationBudget)).

(** The cluster with an [Unnest] on one worker. *)
Abbreviation unnest_run enumerationBudget := (DPhyp.enumerate true 10 unnest_query run_node
  unnest_hypergraph enumerationBudget 1 8 1000 (fresh unnest_hypergraph enumerationBudget)).

(** The edges of the returned plan; [None] without a plan. *)
Definition run_edges (result : Result (option MemoOp * State)) : option (list nat) :=
  match result with Ok (Some p, _) => Some (applied_edges p) | _ => None end.

(** The greedy fallback joins the two reads first and then expands the [Unnest]
    over them without applying the edge between it and the second read, so the
    final check refuses a plan the exhaustive enumeration would have found. *)
Lemma greedy_fallback_loses_unnest_edge :
  run_edges (unnest_run 0) = Some [1; 2; 0]%nat /\
  unnest_run 1 = Throw (VeloxCheck "Plan does not enforce a join equality: {} = {}").
Proof. split; by vm_compute. Qed.

Lemma neighborhood_exact_witness :
  neighborhood example_hypergraph (RelationSet.singleton 0) RelationSet.rsEmpty =
    RelationSet.add (RelationSet.singleton 1) 2 /\
  forall i, i ∈ neighborhood example_hypergraph (RelationSet.singleton 0) RelationSet.rsEmpty -> i <> 0.
Proof.
  split; [by vm_compute |]. intros i Hi ->.
  assert (Hok : graph_ok example_hypergraph) by apply (cok_graph _ _ example_cluster).
  pose proof (proj1 (proj2 (neighborhood_exact example_hypergraph (RelationSet.singleton 0)
    RelationSet.rsEmpty Hok)) 0 Hi) as [Hn _].
  apply Hn. by vm_compute.
Defined.

Lemma enumerate_returns_sound_plan_witness :
  match example_run 1 with
  | Ok (Some p, _) => NoDup (plan_relations p) /\ applied_edges p = [1; 0]%nat
  | _ => False
  end.
Proof.
  assert (He : run_edges (example_run 1) = Some [1; 0]%nat) by by vm_compute.
  pose proof (enumerate_returns_sound_plan true 10 example_graph_abc run_node example_hypergraph 1 4 8 1000
    example_cluster (proj2 (built_ok _ _ example_hypergraph_built)) eq_refl) as H.
  destruct (DPhyp.enumerate _ _ _ _ _ _ _ _ _ _) as [[[p|] s]|e]; [| done..].
  destruct H as (_ & Hnd & _). split; [exact Hnd |]. cbn [run_edges] in He. by injection He.
Defined.

Lemma exhaustive_enumeration_applies_every_edge_witness :
  match example_run 0 with
  | Ok (Some p, _) => (1%nat ∉ applied_edges p) /\
      implied_by example_graph_abc example_hypergraph (applied_edges p) 1
  | _ => False
  end.
Proof.
  assert (He : run_edges (example_run 0) = Some [0; 2]%nat) by by vm_compute.
  pose proof (exhaustive_enumeration_applies_every_edge true 10 example_graph_abc run_node
    example_hypergraph 0 4 8 1000 example_cluster (proj2 (built_ok _ _ example_hypergraph_built)) eq_refl
    (Z.le_refl 0)) as H.
  destruct (DPhyp.enumerate _ _ _ _ _ _ _ _ _ _) as [[[p|] s]|e]; [| done..].
  cbn [run_edges] in He. destruct H as [_ H].
  assert (Hn : 1%nat ∉ applied_edges p) by (injection He as ->; set_solver).
  split; [exact Hn |].
  destruct (H 1%nat (JoinHypergraph.edge example_hypergraph 1) eq_refl) as [Hin|[_ Hi]]; [by destruct Hn | exact Hi].
Defined.

Lemma enumerate_ends_and_fails_cleanly_witness :
  enforcement_error (VeloxCheck "Plan does not enforce a join equality: {} = {}") /\
  unnest_run 1 <> Throw OutOfFuel.
Proof.
  pose proof (enumerate_ends_and_fails_cleanly true 10 unnest_query run_node unnest_hypergraph 1 1 8 1000
    unnest_cluster (proj2 (built_ok _ _ unnest_hypergraph_built)) eq_refl) as H.
  split.
  - assert (Hr : unnest_run 1 = Throw (VeloxCheck "Plan does not enforce a join equality: {} = {}"))
      by by vm_compute.
    destruct (H _ Hr) as [[E|[E|[(_ & [E|[E|E]])|(k & o & u & E)]]] _]; first [done | discriminate E].
  - intros E. destruct (proj2 (H _ E) eq_refl) as (k & o & u & Ht). discriminate Ht.
Defined.

Lemma enumerate_components_plans_each_witness :
  match DPhyp.enumerate_components true 10 example_graph_abc example_hypergraph 0 4 8 1000
          [RelationSet.prefixThrough 2] (fresh example_hypergraph 0) with
  | Ok ([p], _) => MemoOp.cover p = RelationSet.prefixThrough 2
  | _ => False
  end.
Proof.
  pose proof (enumerate_components_plans_each true 10 example_graph_abc example_hypergraph 0 4 8 1000
    example_cluster (proj2 (built_ok _ _ example_hypergraph_built)) eq_refl [RelationSet.prefixThrough 2]
    (proj2 (Forall_singleton _ _) example_component)) as H.
  assert (Hl : match DPhyp.enumerate_components true 10 example_graph_abc example_hypergraph 0 4 8 1000
      [RelationSet.prefixThrough 2] (fresh example_hypergraph 0) with
    Ok ([_], _) => True | _ => False end) by by vm_compute.
  destruct (DPhyp.enumerate_components _ _ _ _ _ _ _ _ _ _) as [[roots s]|e]; [| done].
  destruct roots as [|p [|q roots]]; [done | | done].
  destruct H as [H|[H _]]; [discriminate H |]. apply Forall2_cons in H as [[_ H] _]. exact H.
Defined.
