(* ===== verification/Fallbacks.v ===== *)
(** * The fallback join planner

    [axiom/optimizer/v2/FallbackJoinPlanner.*]: the uncosted join order of a graph of inner
    joins that [DPhyp] found no plan for.  It keeps the order of the relations, except that a
    relation an equality joins to those placed comes before one that would need a cross join.

    The theorem: each component that can be ordered gets a left-deep plan of legal joins that
    reads each of its relations once and applies or implies each of its edges, every join
    takes the first relation it can, and there is an answer only if some relation moved. *)

From Stdlib Require Import Lia.
From S2P Require Import Prelude Word64 RelationSets BitSets EstimateMath QueryGraph Joins.
From S2P Require Import Partitionings Nodes Closures Hypergraphs HypergraphFacts HypergraphColumns.
From S2P Require Import Memo DPhyp Enumerations PlanSoundness Candidates Emission Examples EnumerationResults.
Set Warnings "-clear-no-such-hyp".
Open Scope N_scope.

Module FallbackJoinPlanner.
Section FallbackJoinPlanner.
Context {VB : VeloxBits} (g : QueryGraph) (graph : JoinHypergraph).

(** [appliedEdges_] and [reordered_]. *)
Record State := mkState { appliedEdges : gset nat; reordered : bool }.
Abbreviation M := (StateM State).

Definition makeLeaf (relationId : N) : MemoOp := LeafOp no_cost relationId default_partitioning.

(** [firstUnplaced], and [nextId] with [ready]; [None] is -1. *)
Definition scan_step (placed : RelationSet) (s : option N * option (N * JoinHypergraph.CrossingEdges))
    (relationId : N) : option N * option (N * JoinHypergraph.CrossingEdges) :=
  let '(firstUnplaced, next) := s in
  if RelationSet.contains placed relationId then s
  else
    let firstUnplaced := match firstUnplaced with None => Some relationId | _ => firstUnplaced end in
    match next with
    | Some _ => (firstUnplaced, next)
    | None =>
        match JoinHypergraph.crossingEdges graph placed (RelationSet.singleton relationId) with
        | Some candidateEdges =>
            if bool_decide (JoinHypergraph.joinEdges candidateEdges = []) then (firstUnplaced, None)
            else (firstUnplaced, Some (relationId, candidateEdges))
        | None => (firstUnplaced, None)
        end
    end.

Definition scan (component placed : RelationSet) : option N * option (N * JoinHypergraph.CrossingEdges) :=
  foldl (scan_step placed) (None, None) (RelationSet.ids component).

(** The body of the loop past the choice: the join with the chosen relation. *)
Definition place (root : MemoOp) (firstUnplaced : option N) (nextId : N)
    (ready : JoinHypergraph.CrossingEdges) : M MemoOp :=
  modify (fun s => mkState (appliedEdges s) (reordered s || negb (bool_decide (Some nextId = firstUnplaced))));;
  keyEdges ← lift (JoinHypergraph.canonicalKeyEdges g graph
                     (map JoinHypergraph.index (JoinHypergraph.joinEdges ready)));
  match keyEdges with
  | [] => throw (VeloxUnreachable "keyEdges.front()")
  | primary :: rest =>
      modify (fun s => mkState (list_to_set (keyEdges ++ JoinHypergraph.filterEdges ready) ∪ appliedEdges s)
                         (reordered s));;
      mret (JoinOp no_cost root (makeLeaf nextId) primary kInner false rest
              (JoinHypergraph.filterEdges ready) default_partitioning)
  end.

Fixpoint build_loop (fuel : nat) (component placed : RelationSet) (root : MemoOp) : M (option MemoOp) :=
  match fuel with
  | O => throw OutOfFuel
  | S fuel =>
      if RelationSet.bits placed =? RelationSet.bits component then mret (Some root)
      else
        let '(firstUnplaced, next) := scan component placed in
        match next with
        | None => mret None
        | Some (nextId, ready) =>
            root ← place root firstUnplaced nextId ready;
            build_loop fuel component (RelationSet.add placed nextId) root
        end
  end.

(** Every round places one of at most 64 relations. *)
Definition buildComponent (component : RelationSet) : M (option MemoOp) :=
  let first := RelationSet.min component in
  build_loop 65 component (RelationSet.singleton first) (makeLeaf first).

Fixpoint build_roots (components : list RelationSet) : M (option (list MemoOp)) :=
  match components with
  | [] => mret (Some [])
  | component :: components =>
      root ← buildComponent component;
      match root with
      | None => mret None
      | Some root =>
          roots ← build_roots components;
          mret (match roots with Some roots => Some (root :: roots) | None => None end)
      end
  end.

(** Only graphs of inner joins are reordered. *)
Definition all_inner : bool :=
  RelationSet.empty (JoinHypergraph.expandedRelationIds graph) &&
  forallb (fun edge => negb (JoinEdge.isUnnest edge) && bool_decide (JoinEdge.joinType edge = kInner))
    (JoinHypergraph.edges graph).

Definition build (components : list RelationSet) : M (list MemoOp) :=
  if negb all_inner then mret []
  else
    roots ← build_roots components;
    match roots with
    | None => mret []
    | Some roots =>
        s ← gets id;
        if negb (reordered s) then mret []
        else
          lift (JoinHypergraph.checkEdgesEnforced g graph (appliedEdges s));;
          mret roots
    end.

(** The object after construction. *)
Definition new : State := mkState ∅ false.
End FallbackJoinPlanner.
End FallbackJoinPlanner.
Import FallbackJoinPlanner.

(** ** Orders of joins *)

Section Orders.
Context {VB : VeloxBits} (g : QueryGraph) (graph : JoinHypergraph).
Abbreviation edges := (JoinHypergraph.edges graph) (only parsing).

(** Some edge joins the relation to the set. *)
Definition joinable (S : RelationSet) (id : N) : Prop :=
  exists i e, edges !! i = Some e /\ crosses S (RelationSet.singleton id) e /\
    splits S (RelationSet.singleton id) e = true.

(** A left-deep plan of legal inner joins, each with the first relation of the component
    that can be joined. *)
Inductive ordered (component : RelationSet) : MemoOp -> Prop :=
  | ordered_first : RelationSet.empty component = false ->
      ordered component (makeLeaf (RelationSet.min component))
  | ordered_next left id primary keys filters :
      ordered component left -> id ∈ component ->
      step_ok g graph (MemoOp.cover left) (RelationSet.singleton id)
        (step_of primary kInner false keys filters left (makeLeaf id)) ->
      (forall id', id' ∈ component -> id' ∉ MemoOp.cover left -> id' < id -> ~ joinable (MemoOp.cover left) id') ->
      ordered component
        (JoinOp no_cost left (makeLeaf id) primary kInner false keys filters default_partitioning).

(** The order of the relations in a left-deep plan and the edges it applies. *)
Lemma ordered_relations component p : ordered component p ->
  NoDup (plan_relations p) /\ (forall i, i ∈ plan_relations p <-> i ∈ MemoOp.cover p) /\
  MemoOp.cover p ⊆ component /\ (exists i, i ∈ MemoOp.cover p).
Proof.
  induction 1 as [Hne|left id primary keys filters Hleft (IHn & IHc & IHs & _) Hid Hstep Hfirst];
    cbn [plan_relations MemoOp.cover makeLeaf app].
  - pose proof (RelationSet.min_elem component Hne) as Hmin. pose proof (RelationSet.elem_of_lt _ _ Hmin).
    split_conj.
    + apply NoDup_singleton.
    + intros i. rewrite list_elem_of_singleton, RelationSet.elem_of_singleton_rs. naive_solver.
    + by intros i [-> _]%RelationSet.elem_of_singleton_rs.
    + exists (RelationSet.min component). by apply RelationSet.elem_of_singleton_rs.
  - pose proof (RelationSet.elem_of_lt _ _ Hid) as Hlt.
    assert (Hin : id ∈ RelationSet.singleton id) by (by apply RelationSet.elem_of_singleton_rs).
    split_conj.
    + apply NoDup_app. split_conj; [done | | apply NoDup_singleton].
      intros i Hi%IHc ->%list_elem_of_singleton. exact (step_disjoint _ _ _ _ _ Hstep id Hi Hin).
    + intros i. rewrite elem_of_app, RelationSet.elem_of_unionSet, IHc, list_elem_of_singleton,
        RelationSet.elem_of_singleton_rs. naive_solver.
    + by intros i [Hi%IHs|[-> _]%RelationSet.elem_of_singleton_rs]%RelationSet.elem_of_unionSet.
    + exists id. apply RelationSet.elem_of_unionSet. by right.
Qed.

Context (Hok : graph_ok graph).

(** Every edge inside the cover is applied, or implied by the keys of the joins. *)
Lemma ordered_complete component p : ordered component p ->
  forall i e, edges !! i = Some e -> JoinEdge.totalEligibility e ⊆ MemoOp.cover p ->
    i ∈ applied_edges p \/ (JoinHypergraph.plain_inner e = true /\ implied_by g graph (applied_edges p) i).
Proof.
  induction 1 as [Hne|left id primary keys filters Hleft IH Hid Hstep Hfirst];
    cbn [MemoOp.cover makeLeaf applied_edges]; intros i e He Hcov.
  - by destruct (edge_not_singleton graph Hok i e (RelationSet.min component) He).
  - apply inside_union in Hcov as [Hcov|[Hcov|Hcov]].
    + destruct (IH i e He Hcov) as [Hin|[Hp Himp]]; [left | right; split; [done |]].
      * right. rewrite !elem_of_app. auto.
      * eapply implied_by_mono; [| exact Himp]. intros j Hj. right. rewrite !elem_of_app. auto.
    + by destruct (edge_not_singleton graph Hok i e id He).
    + destruct (acc_all _ _ _ _ _ _ (step_accounts _ _ _ _ _ Hstep) i e He Hcov) as [Hin|[Hp Himp]].
      * left. cbn in Hin. apply elem_of_cons in Hin as [->|Hin]; [by left | right].
        apply elem_of_app in Hin as [Hin|Hin]; rewrite !elem_of_app; auto.
      * right. split; [done |]. eapply implied_by_mono; [| exact Himp].
        intros j Hj. cbn in Hj. apply elem_of_cons in Hj as [->|Hj]; [by left | right]. apply elem_of_app. auto.
Qed.

(** ** The choice of the next relation *)

(** A relation with its join edges, when there are any. *)
Definition ready_edges (placed : RelationSet) (id : N) : option JoinHypergraph.CrossingEdges :=
  match JoinHypergraph.crossingEdges graph placed (RelationSet.singleton id) with
  | Some r => if bool_decide (JoinHypergraph.joinEdges r = []) then None else Some r
  | None => None
  end.

Context (Hinner : all_inner graph = true).

Lemma edges_plain i e : edges !! i = Some e -> JoinHypergraph.plain_inner e = true.
Proof.
  apply andb_true_iff in Hinner as [_ Hall]. rewrite forallb_forall in Hall. intros He.
  apply Hall, list_elem_of_In. by eapply list_elem_of_lookup_2.
Qed.

Lemma ready_edges_spec placed id :
  match ready_edges placed id with
  | Some r => JoinHypergraph.crossingEdges graph placed (RelationSet.singleton id) = Some r /\
      JoinHypergraph.joinEdges r <> []
  | None => ~ joinable placed id
  end.
Proof.
  unfold ready_edges. pose proof (crossingEdges_spec graph placed (RelationSet.singleton id)) as Hspec.
  destruct (JoinHypergraph.crossingEdges _ _ _) as [r|].
  - case_bool_decide as Hn; [| done]. destruct Hspec as (Hj & _). intros (i & e & He & Hx & Hs).
    enough (Hin : JoinHypergraph.mkCrossingEdge i (forward_edge placed (RelationSet.singleton id) e)
                    ∈ JoinHypergraph.joinEdges r) by (rewrite Hn in Hin; by apply not_elem_of_nil in Hin).
    apply Hj. eauto.
  - destruct Hspec as (e & [i He]%list_elem_of_lookup & _ & _ & Hp). by rewrite (edges_plain i e He) in Hp.
Qed.

Abbreviation unplaced placed := (List.filter (fun id => negb (RelationSet.contains placed id))).

Fixpoint first_ready (placed : RelationSet) (ids : list N) : option (N * JoinHypergraph.CrossingEdges) :=
  match ids with
  | [] => None
  | id :: ids => match ready_edges placed id with Some r => Some (id, r) | None => first_ready placed ids end
  end.

Lemma scan_foldl placed ids first next :
  foldl (scan_step graph placed) (first, next) ids =
  (match first with None => head (unplaced placed ids) | _ => first end,
   match next with None => first_ready placed (unplaced placed ids) | _ => next end).
Proof.
  revert first next. induction ids as [|id ids IH]; intros first next; cbn [foldl List.filter head first_ready].
  { by destruct first, next. }
  unfold scan_step at 2. destruct (RelationSet.contains placed id) eqn:Ec; cbn [negb]; [apply IH |].
  cbn [head first_ready]. unfold ready_edges.
  destruct next as [n|]; [rewrite IH; by destruct first |].
  destruct (JoinHypergraph.crossingEdges _ _ _) as [r|]; [case_bool_decide |]; rewrite IH; by destruct first.
Qed.

Lemma first_ready_spec placed ids :
  match first_ready placed ids with
  | Some (id, r) => exists before after, ids = before ++ id :: after /\
      Forall (fun id' => ~ joinable placed id') before /\ ready_edges placed id = Some r
  | None => Forall (fun id' => ~ joinable placed id') ids
  end.
Proof.
  induction ids as [|id ids IH]; cbn [first_ready]; [constructor |].
  pose proof (ready_edges_spec placed id) as Hr. destruct (ready_edges placed id) as [r|] eqn:Er.
  - exists [], ids. done.
  - destruct (first_ready placed ids) as [[id' r]|]; [| by constructor].
    destruct IH as (before & after & -> & Hb & Hr'). exists (id :: before), after. split; [done |]. by split; [constructor |].
Qed.

Lemma elem_of_unplaced component placed i :
  i ∈ unplaced placed (RelationSet.ids component) <-> i ∈ component /\ i ∉ placed.
Proof.
  rewrite list_elem_of_In, filter_In, <- list_elem_of_In, RelationSet.elem_of_ids, negb_true_iff.
  split; intros [Hi Hp]; (split; [done |]); pose proof (RelationSet.elem_of_lt _ _ Hi) as Hlt.
  - intros Hin. apply RelationSet.contains_spec in Hin; [congruence | done].
  - destruct (RelationSet.contains placed i) eqn:E; [| done]. by apply RelationSet.contains_spec in E.
Qed.

(** The relations that come first in an ascending list are the smaller ones. *)
Lemma sorted_before (before after : list N) id x :
  StronglySorted N.lt (before ++ id :: after) -> x ∈ before ++ id :: after -> x < id -> x ∈ before.
Proof.
  intros Hs [Hx|[->|Hx]%elem_of_cons]%elem_of_app Hlt; [done | lia |]. exfalso.
  induction before as [|y before IH]; cbn in Hs; apply StronglySorted_inv in Hs as [Hs Hf]; [| by apply IH].
  rewrite Forall_forall in Hf. specialize (Hf x Hx). lia.
Qed.

Lemma scan_spec component placed :
  match scan graph component placed with
  | (first, Some (id, r)) =>
      id ∈ component /\ (id ∉ placed) /\ ready_edges placed id = Some r /\
      (forall id', id' ∈ component -> id' ∉ placed -> id' < id -> ~ joinable placed id') /\
      first = head (unplaced placed (RelationSet.ids component))
  | (_, None) => forall id, id ∈ component -> id ∉ placed -> ~ joinable placed id
  end.
Proof.
  unfold scan. rewrite scan_foldl. set (rest := unplaced placed (RelationSet.ids component)).
  pose proof (first_ready_spec placed rest) as Hspec.
  destruct (first_ready placed rest) as [[id r]|].
  - destruct Hspec as (before & after & Erest & Hb & Hr).
    assert (Hin : id ∈ rest) by (rewrite Erest; apply elem_of_app; right; by left).
    pose proof Hin as [Hc Hp]%elem_of_unplaced. split_conj; try done.
    intros id' Hc' Hp' Hlt. rewrite Forall_forall in Hb. apply Hb.
    apply (sorted_before before after id); [| | done].
    + rewrite <- Erest. apply filter_sorted, RelationSet.ids_sorted.
    + rewrite <- Erest. by apply elem_of_unplaced.
  - rewrite Forall_forall in Hspec. intros id Hc Hp. apply Hspec. by apply elem_of_unplaced.
Qed.

(** *** The order kept *)

(** Taking the first relation not placed keeps to the order; taking another does not. *)
Lemma prefix_next (component placed : RelationSet) rels id :
  (forall i, i ∈ rels <-> i ∈ placed) -> NoDup rels -> id ∈ component -> id ∉ placed ->
  ((rels ++ [id]) `prefix_of` RelationSet.ids component <->
   rels `prefix_of` RelationSet.ids component /\ Some id = head (unplaced placed (RelationSet.ids component))).
Proof.
  intros Hrels Hnd Hc Hp.
  assert (Hrest : forall rest, RelationSet.ids component = rels ++ rest ->
    unplaced placed (RelationSet.ids component) = rest).
  { intros rest E. pose proof (RelationSet.ids_NoDup component) as Hn. rewrite E in Hn |- *.
    apply NoDup_app in Hn as (_ & Hdis & _). rewrite List.filter_app.
    replace (unplaced placed rels) with (@nil N); cbn.
    - apply forallb_filter_id, forallb_forall. intros x Hx%list_elem_of_In. apply negb_true_iff.
      assert (Hx' : x ∈ RelationSet.ids component) by (rewrite E; apply elem_of_app; by right).
      apply RelationSet.elem_of_ids in Hx'. pose proof (RelationSet.elem_of_lt _ _ Hx') as Hlt.
      destruct (RelationSet.contains placed x) eqn:Ex; [| done].
      apply RelationSet.contains_spec in Ex; [| done]. by destruct (Hdis x (proj2 (Hrels x) Ex)).
    - symmetry. clear E Hdis Hnd. assert (Hsub : forall x, x ∈ rels -> x ∈ placed) by (intros x; apply Hrels).
      clear Hrels. induction rels as [|x rels IH]; cbn [List.filter]; [done |].
      assert (Hx : x ∈ placed) by (apply Hsub; by left). pose proof (RelationSet.elem_of_lt _ _ Hx) as Hlt.
      rewrite (proj2 (RelationSet.contains_spec placed x Hlt) Hx). cbn [negb]. apply IH.
      intros y Hy. apply Hsub. by right. }
  split.
  - intros [rest E]. rewrite <- (assoc_L app) in E. split; [by exists ([id] ++ rest) |].
    by rewrite (Hrest ([id] ++ rest) E).
  - intros [[rest E] Hhead]. rewrite (Hrest rest E) in Hhead. destruct rest as [|x rest]; [done |].
    injection Hhead as <-. exists rest. by rewrite <- (assoc_L app).
Qed.
End Orders.

(** ** Building *)

Section Build.
Context {VB : VeloxBits} (g : QueryGraph) (graph : JoinHypergraph).
Context (Hok : graph_ok graph) (Hinner : all_inner graph = true).
Abbreviation ordered := (ordered g graph).

(** The applied edges of the joins made, and whether they leave the order of the ids. *)
Record tracks (component : RelationSet) (root : MemoOp) (before s : State) : Prop := {
  tracks_applied : appliedEdges s = list_to_set (applied_edges root) ∪ appliedEdges before;
  tracks_order : reordered s =
    reordered before || negb (bool_decide (plan_relations root `prefix_of` RelationSet.ids component));
}.

Lemma add_singleton S id : RelationSet.add S id = RelationSet.unionSet S (RelationSet.singleton id).
Proof.
  apply RelationSet.rs_ext. intros i.
  rewrite RelationSet.elem_of_add, RelationSet.elem_of_unionSet, RelationSet.elem_of_singleton_rs. tauto.
Qed.

(** Placing a relation that is ready makes one more join. *)
Lemma place_spec component root id r before s :
  ordered component root -> tracks component root before s -> id ∈ component -> id ∉ MemoOp.cover root ->
  ready_edges graph (MemoOp.cover root) id = Some r ->
  (forall id', id' ∈ component -> id' ∉ MemoOp.cover root -> id' < id -> ~ joinable graph (MemoOp.cover root) id') ->
  let unplaced := List.filter (fun i => negb (RelationSet.contains (MemoOp.cover root) i)) (RelationSet.ids component) in
  exists root' s', place g graph root (head unplaced) id r s = Ok (root', s') /\
    ordered component root' /\ MemoOp.cover root' = RelationSet.add (MemoOp.cover root) id /\
    tracks component root' before s'.
Proof.
  intros Hroot [Happlied Horder] Hid Hnew Hready Hfirst unplaced.
  pose proof (ready_edges_spec graph Hinner (MemoOp.cover root) id) as Hr. rewrite Hready in Hr.
  destruct Hr as [Hr Hne]. set (js := JoinHypergraph.joinEdges r) in *. set (fs := JoinHypergraph.filterEdges r).
  pose proof (crossingEdges_all graph _ _ _ Hr) as Hca.
  assert (Hplain : forall ce, ce ∈ js -> JoinHypergraph.plain_inner (JoinHypergraph.edge graph (JoinHypergraph.index ce)) = true).
  { intros ce Hce. destruct (ca_split _ _ _ _ _ Hca ce Hce) as (e & He & _).
    rewrite (edge_at graph _ _ He). by apply (edges_plain graph Hinner _ _ He). }
  destruct (canonicalKeyEdges_total g graph (map JoinHypergraph.index js)) as [keys Ekeys].
  { intros i (ce & -> & Hce)%list_elem_of_fmap. by apply Hplain. }
  pose proof (canonicalKeyEdges_nonempty g graph _ _ Ekeys) as Hkeys.
  destruct keys as [|primary keys]; [by destruct Hkeys; [destruct js |] |].
  destruct (ordered_relations g graph component root Hroot) as (Hnd & Hcover & Hsub & _).
  assert (Hdis : disjoint_rels (MemoOp.cover root) (RelationSet.singleton id)).
  { intros i Hi [-> _]%RelationSet.elem_of_singleton_rs. done. }
  destruct (inner_step_ok g graph _ _ _ _ _ _ Hdis Hca Hplain Ekeys) as [Hstep _].
  unfold place. cbn. fold js fs. rewrite Ekeys. cbn. do 2 eexists. split; [reflexivity |]. split_conj.
  - apply ordered_next; [done | done | exact Hstep | exact Hfirst].
  - cbn [MemoOp.cover makeLeaf]. by rewrite add_singleton.
  - constructor; cbn [appliedEdges reordered applied_edges plan_relations makeLeaf app].
    + rewrite Happlied. cbn [list_to_set foldr]. set_solver.
    + pose proof (prefix_next component _ (plan_relations root) id Hcover Hnd Hid Hnew) as Hp. fold unplaced in Hp.
      rewrite Horder. destruct (reordered before); [done |]. cbn [orb].
      rewrite <- negb_andb. f_equal. rewrite <- bool_decide_and. apply bool_decide_ext. by rewrite Hp.
Qed.

(** No relation of the component left is joined to those placed by an equality. *)
Definition stuck (component : RelationSet) : Prop :=
  exists left, ordered component left /\ MemoOp.cover left <> component /\
    forall id, id ∈ component -> id ∉ MemoOp.cover left -> ~ joinable graph (MemoOp.cover left) id.

Lemma build_loop_spec fuel component root before s :
  ordered component root -> tracks component root before s ->
  (64 - N.to_nat (RelationSet.size (MemoOp.cover root)) < fuel)%nat ->
  match build_loop g graph fuel component (MemoOp.cover root) root s with
  | Ok (Some p, s') => ordered component p /\ MemoOp.cover p = component /\ tracks component p before s'
  | Ok (None, _) => stuck component
  | Throw _ => False
  end.
Proof.
  revert root s. induction fuel as [|fuel IH]; intros root s Hroot Hs Hfuel; [lia |]. cbn [build_loop].
  destruct (N.eqb_spec (RelationSet.bits (MemoOp.cover root)) (RelationSet.bits component)) as [E|Ne].
  { apply RelationSet.bits_inj in E. cbn. done. }
  pose proof (scan_spec graph Hinner component (MemoOp.cover root)) as Hscan.
  destruct (scan graph component (MemoOp.cover root)) as [first [[id r]|]]; unfold mbind, StateM_bind.
  - destruct Hscan as (Hid & Hnew & Hready & Hfirst & ->).
    destruct (place_spec component root id r before s Hroot Hs Hid Hnew Hready Hfirst)
      as (root' & s' & Eplace & Hroot' & Hcover & Hs').
    rewrite Eplace, <- Hcover. apply IH; [done | done |].
    assert (Hlt : RelationSet.size (MemoOp.cover root) < RelationSet.size (MemoOp.cover root')).
    { apply size_subset_lt; rewrite Hcover.
      - intros i Hi. rewrite RelationSet.elem_of_add. by right.
      - exists id. split; [| done]. rewrite RelationSet.elem_of_add. left. split; [done |]. by eapply RelationSet.elem_of_lt. }
    pose proof (size_le_64 (MemoOp.cover root')). lia.
  - exists root. split_conj; [done | congruence | exact Hscan].
Qed.
Lemma buildComponent_spec component s : RelationSet.empty component = false ->
  match buildComponent g graph component s with
  | Ok (Some p, s') => ordered component p /\ MemoOp.cover p = component /\
      appliedEdges s' = list_to_set (applied_edges p) ∪ appliedEdges s /\
      reordered s' = reordered s || negb (bool_decide (plan_relations p = RelationSet.ids component))
  | Ok (None, _) => stuck component
  | Throw _ => False
  end.
Proof.
  intros Hne. unfold buildComponent. set (first := makeLeaf (RelationSet.min component)).
  assert (Hfirst : ordered component first) by (by apply ordered_first).
  assert (Htracks : tracks component first s s).
  { constructor; cbn; [set_solver |]. rewrite bool_decide_eq_true_2; [by rewrite orb_false_r |].
    destruct (RelationSet.ids component) as [|i ids] eqn:E.
    - pose proof (RelationSet.min_elem component Hne) as Hmin%RelationSet.elem_of_ids. rewrite E in Hmin.
      by apply not_elem_of_nil in Hmin.
    - exists ids. by rewrite (RelationSet.head_ids component i) by (by rewrite E). }
  pose proof (build_loop_spec 65 component first s s Hfirst Htracks ltac:(lia)) as Hspec.
  change (MemoOp.cover first) with (RelationSet.singleton (RelationSet.min component)) in Hspec.
  destruct (build_loop _ _ _ _ _ _ _) as [[[p|] s']|e]; [| done..].
  destruct Hspec as (Hp & Hcover & [Ha Ho]). split_conj; try done. rewrite Ho. do 2 f_equal.
  destruct (ordered_relations g graph component p Hp) as (Hnd & Hc & _).
  apply bool_decide_ext. split; [| by intros ->]. intros [rest E].
  destruct rest as [|x rest]; [by rewrite app_nil_r in E |]. exfalso.
  pose proof (RelationSet.ids_NoDup component) as Hn. rewrite E in Hn.
  apply NoDup_app in Hn as (_ & Hdis & _). apply (Hdis x); [| by left].
  apply Hc. rewrite Hcover. apply RelationSet.elem_of_ids. rewrite E. apply elem_of_app. right. by left.
Qed.

(** A left-deep plan of the whole component. *)
Definition plans_component (component : RelationSet) (p : MemoOp) : Prop :=
  ordered component p /\ MemoOp.cover p = component.

Lemma build_roots_spec components s : Forall (fun c => RelationSet.empty c = false) components ->
  match build_roots g graph components s with
  | Ok (Some roots, s') => Forall2 plans_component components roots /\
      appliedEdges s' = list_to_set (concat (map applied_edges roots)) ∪ appliedEdges s /\
      reordered s' = reordered s ||
        negb (bool_decide (map plan_relations roots = map RelationSet.ids components))
  | Ok (None, _) => exists c, c ∈ components /\ stuck c
  | Throw _ => False
  end.
Proof.
  revert s. induction components as [|c components IH]; intros s Hne; cbn [build_roots].
  { cbn. split_conj; [constructor | set_solver | by rewrite orb_false_r]. }
  apply Forall_cons in Hne as [Hc Hne]. pose proof (buildComponent_spec c s Hc) as Hroot.
  unfold mbind, StateM_bind. destruct (buildComponent g graph c s) as [[[p|] s1]|e]; [| | done].
  - destruct Hroot as (Hp & Hcover & Ha & Ho). specialize (IH s1 Hne).
    destruct (build_roots g graph components s1) as [[[roots|] s2]|e]; [| | done]; cbn.
    + destruct IH as (Hroots & Ha2 & Ho2). split_conj.
      * by constructor.
      * rewrite Ha2, Ha, list_to_set_app_L. set_solver.
      * rewrite Ho2, Ho, <- orb_assoc, <- negb_andb, <- bool_decide_and. do 2 f_equal.
        apply bool_decide_ext. split; [by intros [-> ->] | by intros [= -> ->]].
    + destruct IH as (c' & Hc' & Hs). exists c'. split; [by right | done].
  - exists c. split; [by left | done].
Qed.
End Build.

(** ** The answer *)

Section Answer.
Context {VB : VeloxBits} (g : QueryGraph) (graph : JoinHypergraph) (Hok : graph_ok graph).
Context (components : list RelationSet) (Hne : Forall (fun c => RelationSet.empty c = false) components).

(** C36: [build] ends, and fails only with an error of the check that every predicate is
    enforced.  The plans it returns are left-deep, one for each component and covering
    exactly it: every relation is read once, every join is a legal inner join of the edges
    that cross it and takes the first relation of the component that an equality joins to
    those placed, every edge inside a component is applied or implied by the keys, and in
    some component a relation has moved.  Without an answer the graph has another join, some
    component cannot be ordered by equalities, or the written order stays. *)
Theorem fallback_orders_by_equalities :
  match build g graph components FallbackJoinPlanner.new with
  | Ok ([], _) =>
      all_inner graph = false \/ (exists c, c ∈ components /\ stuck g graph c) \/
      exists roots, Forall2 (plans_component g graph) components roots /\
        map plan_relations roots = map RelationSet.ids components
  | Ok (roots, _) =>
      Forall2 (fun c p => ordered g graph c p /\ MemoOp.cover p = c /\ NoDup (plan_relations p) /\
        (forall i, i ∈ plan_relations p <-> i ∈ c) /\
        forall i e, JoinHypergraph.edges graph !! i = Some e -> JoinEdge.totalEligibility e ⊆ c ->
          i ∈ applied_edges p \/ implied_by g graph (applied_edges p) i) components roots /\
      map plan_relations roots <> map RelationSet.ids components /\
      JoinHypergraph.checkEdgesEnforced g graph (list_to_set (concat (map applied_edges roots))) = Ok tt
  | Throw e => enforcement_error e
  end.
Proof.
  unfold build. destruct (all_inner graph) eqn:Hinner; cbn [negb]; [| by left].
  pose proof (build_roots_spec g graph Hok Hinner components FallbackJoinPlanner.new Hne) as Hspec.
  unfold mbind, StateM_bind, gets. destruct (build_roots _ _ _ _) as [[[roots|] s]|e]; [| by right; left | done].
  destruct Hspec as (Hroots & Ha & Ho). cbn [FallbackJoinPlanner.new appliedEdges reordered orb] in Ha, Ho.
  rewrite (right_id_L ∅ (∪)) in Ha. unfold id. cbn beta iota. rewrite Ho, negb_involutive.
  case_bool_decide as Horder; [by right; right; eauto |].
  assert (Hplans : roots <> []) by (intros ->; inversion Hroots; subst; done).
  unfold lift. rewrite Ha. destruct (JoinHypergraph.checkEdgesEnforced _ _ _) as [[]|e] eqn:Echeck.
  - cbn. destruct roots as [|p roots]; [done |]. split_conj; [| done | done].
    eapply Forall2_impl; [exact Hroots |]. intros c q [Hq Hcover].
    destruct (ordered_relations g graph c q Hq) as (Hnd & Hrel & _). split_conj; try done.
    + intros i. by rewrite Hrel, Hcover.
    + intros i e He Hin. rewrite <- Hcover in Hin.
      destruct (ordered_complete g graph Hok c q Hq i e He Hin) as [|[_ ?]]; auto.
  - pose proof check_edges_errors as Herr. unfold JoinHypergraph.checkEdgesEnforced in Echeck.
    specialize (Herr (list_to_set (concat (map applied_edges roots)))
      (JoinHypergraph.enforced_closure g graph (list_to_set (concat (map applied_edges roots))))
      (JoinHypergraph.edges graph) 0%nat). by rewrite Echeck in Herr.
Qed.
End Answer.

(** ** A chain written out of order *)

(** [t, u, v] with [t.a = v.c] and [v.c = u.b]: [u] has to wait for [v]. *)
Definition chain_build : Result JoinHypergraph :=
  add_edge (inner_edge 1 2 1 3) (add_edge (inner_edge 0 2 0 3)
    (add_read [3] (add_read [1; 2] (add_read [0] (Ok JoinHypergraph.new))))).

Definition chain_hypergraph : JoinHypergraph :=
  match chain_build with Ok graph => graph | Throw _ => JoinHypergraph.new end.

Lemma chain_hypergraph_built : built unnest_query chain_hypergraph.
Proof.
  assert (H : good unnest_query chain_build).
  { do 2 (apply add_edge_good; [intros x E; by eapply built_join |]).
    do 3 apply add_read_good. intros x [= <-]. constructor. }
  unfold chain_hypergraph. destruct chain_build; [by apply H | constructor].
Qed.

Abbreviation chain_answer components :=
  (FallbackJoinPlanner.build unnest_query chain_hypergraph components FallbackJoinPlanner.new).

Definition shown_answer (answer : Result (list MemoOp * FallbackJoinPlanner.State)) :
    option (list (list N * list nat)) :=
  match answer with
  | Ok (roots, _) => Some (map (fun p => (plan_relations p, applied_edges p)) roots)
  | Throw _ => None
  end.

(** Without [v] the component is stuck; a graph whose order stays has no answer. *)
Example chain_answers :
  shown_answer (chain_answer [RelationSet.prefixThrough 2]) = Some [([0; 2; 1], [1; 0]%nat)] /\
  shown_answer (chain_answer [RelationSet.prefixThrough 1]) = Some [] /\
  shown_answer (FallbackJoinPlanner.build example_graph_abc example_hypergraph [RelationSet.prefixThrough 2]
    FallbackJoinPlanner.new) = Some [] /\
  shown_answer (FallbackJoinPlanner.build unnest_query unnest_hypergraph [RelationSet.prefixThrough 2]
    FallbackJoinPlanner.new) = Some [].
Proof. split_conj; vm_compute; reflexivity. Qed.

Lemma fallback_orders_by_equalities_witness :
  match chain_answer [RelationSet.prefixThrough 2] with
  | Ok ([p], _) => plan_relations p = [0; 2; 1] /\ MemoOp.cover p = RelationSet.prefixThrough 2 /\
      forall i e, JoinHypergraph.edges chain_hypergraph !! i = Some e ->
        JoinEdge.totalEligibility e ⊆ RelationSet.prefixThrough 2 ->
        i ∈ applied_edges p \/ implied_by unnest_query chain_hypergraph (applied_edges p) i
  | _ => False
  end.
Proof.
  assert (Hne : Forall (fun c => RelationSet.empty c = false) [RelationSet.prefixThrough 2])
    by (constructor; [vm_compute; reflexivity | constructor]).
  pose proof (fallback_orders_by_equalities unnest_query chain_hypergraph
    (proj1 (built_ok _ _ chain_hypergraph_built)) [RelationSet.prefixThrough 2] Hne) as H.
  assert (Hrun : shown_answer (chain_answer [RelationSet.prefixThrough 2]) = Some [([0; 2; 1], [1; 0]%nat)])
    by (vm_compute; reflexivity).
  destruct (chain_answer [RelationSet.prefixThrough 2]) as [[roots s]|e]; [| discriminate Hrun].
  destruct roots as [|p [|q roots]]; [discriminate Hrun | | discriminate Hrun].
  destruct H as [H _]. apply Forall2_cons in H as [(_ & Hcover & _ & _ & Hedges) _].
  cbn [shown_answer map] in Hrun. injection Hrun as Hrel _. split_conj; assumption.
Defined.
