(* ===== verification/Domains.v ===== *)
(** * Domains of values

    Models [axiom/optimizer/Domain.h] and the part of [Domain.cpp] that does not
    look at expressions: [Bound], [Range] and [Domain], a union of sorted,
    pairwise disjoint ranges with a flag for [NULL].  [velox::Variant] is a
    parameter: [VariantOrder] names the two comparisons the code uses and
    [VariantOrderLaws] what it relies on, a strict weak order whose equivalence
    is [operator==].

    Every comparison of bounds is a comparison of cuts: a bound lies just before
    or just after its value, a missing one at an infinity.  Cuts are totally
    preordered, and the tactic [cut_order] decides goals about them.  The
    theorems: every operation keeps domains well formed (ranges non-empty,
    sorted, and separated) and computes the set operation it is named after,
    [NULL] included. *)

From S2P Require Import Prelude.
From Stdlib Require Import ZArith Lia.

Open Scope Z_scope.

(** ** [velox::Variant], as far as ranges look at it *)

(** [lhs < rhs] and [lhs == rhs]. *)
Class VariantOrder (V : Type) := {
  vlt : V -> V -> bool;
  veq : V -> V -> bool
}.

(** What [Variant] documents: [<] is a strict weak order and [==] relates the
    values it does not separate. *)
Class VariantOrderLaws (V : Type) `{VariantOrder V} : Prop := {
  vlt_irrefl a : vlt a a = false;
  vlt_trans a b c : vlt a b = true -> vlt b c = true -> vlt a c = true;
  vlt_incomparable a b c : vlt a b = false -> vlt b c = false -> vlt a c = false;
  veq_spec a b : veq a b = negb (vlt a b) && negb (vlt b a)
}.

(** ** Bounds *)

Record Bound (V : Type) := mkBound { value : V; inclusive : bool }.
Arguments mkBound {V} value inclusive.
Arguments value {V} _.
Arguments inclusive {V} _.

Section Bounds.
Context {V : Type} `{VariantOrder V}.

(** Returns -1, 0, or 1 comparing two Bound values. *)
Definition compareBoundValues (lhs rhs : V) : Z :=
  if vlt lhs rhs then -1 else if vlt rhs lhs then 1 else 0.

Definition compareLowBounds (lhs rhs : option (Bound V)) : Z :=
  match lhs, rhs with
  | None, None => 0
  | None, _ => -1
  | _, None => 1
  | Some lhs, Some rhs =>
      let compareResult := compareBoundValues (value lhs) (value rhs) in
      if negb (compareResult =? 0) then compareResult
      else if eqb (inclusive lhs) (inclusive rhs) then 0
      else if inclusive lhs then -1 else 1
  end.

Definition compareHighBounds (lhs rhs : option (Bound V)) : Z :=
  match lhs, rhs with
  | None, None => 0
  | None, _ => 1
  | _, None => -1
  | Some lhs, Some rhs =>
      let compareResult := compareBoundValues (value lhs) (value rhs) in
      if negb (compareResult =? 0) then compareResult
      else if eqb (inclusive lhs) (inclusive rhs) then 0
      else if inclusive lhs then 1 else -1
  end.

Definition maxLow (lhs rhs : option (Bound V)) :=
  if compareLowBounds lhs rhs >=? 0 then lhs else rhs.
Definition minLow (lhs rhs : option (Bound V)) :=
  if compareLowBounds lhs rhs <=? 0 then lhs else rhs.
Definition maxHigh (lhs rhs : option (Bound V)) :=
  if compareHighBounds lhs rhs >=? 0 then lhs else rhs.
Definition minHigh (lhs rhs : option (Bound V)) :=
  if compareHighBounds lhs rhs <=? 0 then lhs else rhs.

(** Returns true if the range is non-empty. *)
Definition lowNotAboveHigh (low high : option (Bound V)) : bool :=
  match low, high with
  | Some low, Some high =>
      let compareResult := compareBoundValues (value low) (value high) in
      if compareResult <? 0 then true
      else if compareResult >? 0 then false
      else inclusive low && inclusive high
  | _, _ => true
  end.
End Bounds.

(** ** [class Range] *)

Module Range.

Record Range (V : Type) := mkRange { low : option (Bound V); high : option (Bound V) }.
Arguments mkRange {V} low high.
Arguments low {V} _.
Arguments high {V} _.

Section Range.
Context {V : Type} `{VariantOrder V}.

Definition singleValue (value : V) : Range V :=
  mkRange (Some (mkBound value true)) (Some (mkBound value true)).

Definition unbounded : Range V := mkRange None None.

Definition lowInclusive (self : Range V) : bool :=
  match low self with Some low => inclusive low | None => false end.

Definition highInclusive (self : Range V) : bool :=
  match high self with Some high => inclusive high | None => false end.

Definition isSingleValue (self : Range V) : bool :=
  match low self, high self with
  | Some low, Some high =>
      inclusive low && inclusive high && veq (value low) (value high)
  | _, _ => false
  end.

Definition isEmpty (self : Range V) : bool :=
  negb (lowNotAboveHigh (low self) (high self)).

Definition intersect (self other : Range V) : option (Range V) :=
  let newLow := maxLow (low self) (low other) in
  let newHigh := minHigh (high self) (high other) in
  if negb (lowNotAboveHigh newLow newHigh) then None
  else Some (mkRange newLow newHigh).

Definition overlapsOrAdjacent (self other : Range V) : bool :=
  let higherLow := maxLow (low self) (low other) in
  let lowerHigh := minHigh (high self) (high other) in
  match higherLow, lowerHigh with
  | Some higherLow, Some lowerHigh =>
      let compareResult := compareBoundValues (value higherLow) (value lowerHigh) in
      if compareResult <? 0 then true
      else if compareResult >? 0 then false
      else inclusive higherLow || inclusive lowerHigh
  | _, _ => true
  end.

Definition merge (self other : Range V) : Range V :=
  mkRange (minLow (low self) (low other)) (maxHigh (high self) (high other)).

End Range.
End Range.
Abbreviation Range := Range.Range.

(** ** [class Domain] *)

Module Domain.

Record Domain (V : Type) :=
  mkDomain { nullsAllowed : bool; ranges : list (Range V) }.
Arguments mkDomain {V} nullsAllowed ranges.
Arguments nullsAllowed {V} _.
Arguments ranges {V} _.

Section Domain.
Context {V : Type} `{VariantOrder V}.

Definition all : Domain V := mkDomain true [Range.unbounded].
Definition none : Domain V := mkDomain false [].
Definition onlyNull : Domain V := mkDomain true [].
Definition notNull : Domain V := mkDomain false [Range.unbounded].

Definition singleValue (value : V) : Domain V :=
  mkDomain false [Range.singleValue value].
Definition greaterThan (value : V) : Domain V :=
  mkDomain false [Range.mkRange (Some (mkBound value false)) None].
Definition greaterThanOrEqual (value : V) : Domain V :=
  mkDomain false [Range.mkRange (Some (mkBound value true)) None].
Definition lessThan (value : V) : Domain V :=
  mkDomain false [Range.mkRange None (Some (mkBound value false))].
Definition lessThanOrEqual (value : V) : Domain V :=
  mkDomain false [Range.mkRange None (Some (mkBound value true))].

(** The loop of [normalize] over ranges sorted by low bound; [back] is
    [result.back()]. *)
Fixpoint merge_sorted (back : Range V) (ranges : list (Range V)) : list (Range V) :=
  match ranges with
  | [] => [back]
  | r :: ranges =>
      if Range.overlapsOrAdjacent back r then merge_sorted (Range.merge back r) ranges
      else back :: merge_sorted r ranges
  end.

(** The order of the comparator given to [std::sort]; which of two ranges with
    equal low bounds comes first is not specified ([normalize_any_order]). *)
Definition low_le (lhs rhs : Range V) : Prop :=
  compareLowBounds (Range.low lhs) (Range.low rhs) <= 0.

#[export] Instance low_le_dec : RelDecision low_le := fun lhs rhs =>
  Z_le_dec (compareLowBounds (Range.low lhs) (Range.low rhs)) 0.

Definition merge_all (ranges : list (Range V)) : list (Range V) :=
  match ranges with [] => [] | r :: ranges => merge_sorted r ranges end.

Definition normalize (ranges : list (Range V)) : list (Range V) :=
  merge_all (merge_sort low_le ranges).

Definition in_ (values : list V) : Domain V :=
  mkDomain false (normalize (map Range.singleValue values)).

(** The two-pointer loop of [intersect], on the ranges from [left] and [right] on. *)
Fixpoint intersect_ranges (ls : list (Range V)) : list (Range V) -> list (Range V) :=
  match ls with
  | [] => fun _ => []
  | l :: ls' =>
      fix go (rs : list (Range V)) : list (Range V) :=
        match rs with
        | [] => []
        | r :: rs' =>
            let rest :=
              if compareHighBounds (Range.high l) (Range.high r) <=? 0
              then intersect_ranges ls' rs
              else go rs' in
            match Range.intersect l r with
            | Some intersection => intersection :: rest
            | None => rest
            end
        end
  end.

Definition intersect (self other : Domain V) : Domain V :=
  mkDomain (nullsAllowed self && nullsAllowed other)
    (intersect_ranges (ranges self) (ranges other)).

Definition unite (self other : Domain V) : Domain V :=
  mkDomain (nullsAllowed self || nullsAllowed other)
    (normalize (ranges self ++ ranges other)).

(** The opposite side of a bound. *)
Definition flip (bound : Bound V) : Bound V :=
  mkBound (value bound) (negb (inclusive bound)).

(** The loop of [complement] with its early return; [low] is where the next gap
    starts. *)
Fixpoint complement_ranges (low : option (Bound V)) (ranges : list (Range V)) :
    list (Range V) :=
  match ranges with
  | [] => [Range.mkRange low None]
  | range :: ranges =>
      let gap :=
        match Range.low range with
        | Some bound => [Range.mkRange low (Some (flip bound))]
        | None => []
        end in
      match Range.high range with
      | None => gap
      | Some bound => gap ++ complement_ranges (Some (flip bound)) ranges
      end
  end.

Definition complement (self : Domain V) : Domain V :=
  mkDomain (negb (nullsAllowed self)) (complement_ranges None (ranges self)).

Definition subtract (self other : Domain V) : Domain V :=
  intersect self (complement other).

Definition sameBound (lhs rhs : option (Bound V)) : bool :=
  match lhs, rhs with
  | None, None => true
  | Some lhs, Some rhs =>
      eqb (inclusive lhs) (inclusive rhs) && veq (value lhs) (value rhs)
  | _, _ => false
  end.

(** [operator==] *)
Definition equals (self other : Domain V) : bool :=
  eqb (nullsAllowed self) (nullsAllowed other) &&
  Nat.eqb (length (ranges self)) (length (ranges other)) &&
  forallb (fun '(l, r) =>
      sameBound (Range.low l) (Range.low r) && sameBound (Range.high l) (Range.high r))
    (zip (ranges self) (ranges other)).

Definition isAll (self : Domain V) : bool :=
  nullsAllowed self &&
  match ranges self with
  | [range] => negb (bool_decide (is_Some (Range.low range))) &&
               negb (bool_decide (is_Some (Range.high range)))
  | _ => false
  end.

Definition isNone (self : Domain V) : bool :=
  negb (nullsAllowed self) && match ranges self with [] => true | _ => false end.

End Domain.
End Domain.
Abbreviation Domain := Domain.Domain.

(** ** Cuts *)

Inductive Cut (V : Type) := NegInf | Before (v : V) | After (v : V) | PosInf.
Arguments NegInf {V}.
Arguments Before {V} v.
Arguments After {V} v.
Arguments PosInf {V}.

Section Cuts.
Context {V : Type} `{VariantOrderLaws V}.

Definition cut_leb (a b : Cut V) : bool :=
  match a, b with
  | NegInf, _ | _, PosInf => true
  | _, NegInf | PosInf, _ => false
  | After x, Before y => vlt x y
  | Before x, Before y | Before x, After y | After x, After y => negb (vlt y x)
  end.

Definition cut_le (a b : Cut V) : Prop := cut_leb a b = true.

Lemma cut_le_total a b : cut_le a b \/ cut_le b a.
Proof.
  unfold cut_le. destruct a as [|x|x|], b as [|y|y|]; simpl; auto;
    destruct (vlt x y) eqn:E, (vlt y x) eqn:E'; auto;
    pose proof (vlt_trans _ _ _ E E') as HF; rewrite vlt_irrefl in HF; discriminate.
Qed.

Lemma vlt_asym a b : vlt a b = true -> vlt b a = false.
Proof.
  intros H1. destruct (vlt b a) eqn:E; [|done].
  pose proof (vlt_trans _ _ _ H1 E) as HF. by rewrite vlt_irrefl in HF.
Qed.

#[export] Instance cut_le_dec a b : Decision (cut_le a b) :=
  bool_eq_dec (cut_leb a b) true.

Lemma cut_le_refl a : cut_le a a.
Proof. unfold cut_le. destruct a; simpl; rewrite ?vlt_irrefl; done. Qed.

Lemma vlt_le_trans a b c : vlt a b = true -> vlt c b = false -> vlt a c = true.
Proof.
  intros H1 H2. destruct (vlt a c) eqn:E; [done|].
  by rewrite (vlt_incomparable _ _ _ E H2) in H1.
Qed.

Lemma le_vlt_trans a b c : vlt b a = false -> vlt b c = true -> vlt a c = true.
Proof.
  intros H1 H2. destruct (vlt a c) eqn:E; [done|].
  by rewrite (vlt_incomparable _ _ _ H1 E) in H2.
Qed.

Lemma cut_le_trans a b c : cut_le a b -> cut_le b c -> cut_le a c.
Proof.
  unfold cut_le. destruct a as [|x|x|], b as [|y|y|], c as [|z|z|]; simpl; try done;
    rewrite ?negb_true_iff; eauto using vlt_incomparable, vlt_trans, vlt_le_trans, le_vlt_trans.
  all: eauto using vlt_asym, vlt_le_trans, le_vlt_trans.
Qed.

End Cuts.

Ltac cut_note P :=
  let T := type of P in
  lazymatch goal with H : T |- _ => fail | _ => pose proof P end.

Ltac cut_close :=
  repeat match goal with
  | H : ~ cut_le ?a ?b |- _ =>
      cut_note (or_ind (fun Hn => False_ind (cut_le b a) (H Hn)) (fun Hy => Hy) (cut_le_total a b))
  | H : cut_le ?a ?b, H' : cut_le ?b ?c |- _ => cut_note (cut_le_trans a b c H H')
  end.

(** Decides goals about [cut_le] from the hypotheses about it. *)
Ltac cut_order :=
  repeat match goal with
  | H : _ /\ _ |- _ => destruct H
  | |- ~ _ => intro
  | |- _ /\ _ => split
  end;
  lazymatch goal with
  | |- cut_le ?a ?b => destruct (decide (cut_le a b)); [assumption|exfalso]
  | |- _ => exfalso
  end;
  cut_close; contradiction.

(** ** Bounds as cuts *)

(** A comparison of bounds with values [x] and [y], by how these compare. *)
Ltac compare_values x y :=
  unfold cut_le; simpl; try (split; [done|lia]); try (split; done);
  unfold compareBoundValues;
  destruct (vlt x y) eqn:E, (vlt y x) eqn:E'; simpl;
  try (rewrite (vlt_asym _ _ E) in E'; discriminate);
  first [split; [done|lia] | split; [lia|done] | split; done].

Section BoundCuts.
Context {V : Type} `{VariantOrderLaws V}.

Definition low_cut (low : option (Bound V)) : Cut V :=
  match low with
  | None => NegInf
  | Some b => if inclusive b then Before (value b) else After (value b)
  end.

Definition high_cut (high : option (Bound V)) : Cut V :=
  match high with
  | None => PosInf
  | Some b => if inclusive b then After (value b) else Before (value b)
  end.

Lemma compareLowBounds_le a b :
  compareLowBounds a b <= 0 <-> cut_le (low_cut a) (low_cut b).
Proof.
  destruct a as [[x []]|], b as [[y []]|]; compare_values x y.
Qed.

Lemma compareLowBounds_ge a b :
  compareLowBounds a b >= 0 <-> cut_le (low_cut b) (low_cut a).
Proof.
  destruct a as [[x []]|], b as [[y []]|]; compare_values x y.
Qed.

Lemma compareHighBounds_le a b :
  compareHighBounds a b <= 0 <-> cut_le (high_cut a) (high_cut b).
Proof.
  destruct a as [[x []]|], b as [[y []]|]; compare_values x y.
Qed.

Lemma compareHighBounds_ge a b :
  compareHighBounds a b >= 0 <-> cut_le (high_cut b) (high_cut a).
Proof.
  destruct a as [[x []]|], b as [[y []]|]; compare_values x y.
Qed.

Lemma lowNotAboveHigh_spec l h :
  lowNotAboveHigh l h = true <-> ~ cut_le (high_cut h) (low_cut l).
Proof.
  destruct l as [[x []]|], h as [[y []]|]; compare_values x y.
Qed.

(** The two choices of a maximum or a minimum, as facts on cuts. *)
Lemma maxLow_cases a b :
  (maxLow a b = a /\ cut_le (low_cut b) (low_cut a)) \/
  (maxLow a b = b /\ cut_le (low_cut a) (low_cut b)).
Proof.
  unfold maxLow. rewrite Z.geb_leb. destruct (Z.leb_spec 0 (compareLowBounds a b)).
  - left. split; [done|]. apply compareLowBounds_ge. lia.
  - right. split; [done|]. apply compareLowBounds_le. lia.
Qed.

Lemma minLow_cases a b :
  (minLow a b = a /\ cut_le (low_cut a) (low_cut b)) \/
  (minLow a b = b /\ cut_le (low_cut b) (low_cut a)).
Proof.
  unfold minLow. destruct (Z.leb_spec (compareLowBounds a b) 0).
  - left. split; [done|]. apply compareLowBounds_le. lia.
  - right. split; [done|]. apply compareLowBounds_ge. lia.
Qed.

Lemma maxHigh_cases a b :
  (maxHigh a b = a /\ cut_le (high_cut b) (high_cut a)) \/
  (maxHigh a b = b /\ cut_le (high_cut a) (high_cut b)).
Proof.
  unfold maxHigh. rewrite Z.geb_leb. destruct (Z.leb_spec 0 (compareHighBounds a b)).
  - left. split; [done|]. apply compareHighBounds_ge. lia.
  - right. split; [done|]. apply compareHighBounds_le. lia.
Qed.

Lemma minHigh_cases a b :
  (minHigh a b = a /\ cut_le (high_cut a) (high_cut b)) \/
  (minHigh a b = b /\ cut_le (high_cut b) (high_cut a)).
Proof.
  unfold minHigh. destruct (Z.leb_spec (compareHighBounds a b) 0).
  - left. split; [done|]. apply compareHighBounds_le. lia.
  - right. split; [done|]. apply compareHighBounds_ge. lia.
Qed.

Lemma low_cut_flip b : low_cut (Some (Domain.flip b)) = high_cut (Some b).
Proof. by destruct b as [x []]. Qed.

Lemma high_cut_flip b : high_cut (Some (Domain.flip b)) = low_cut (Some b).
Proof. by destruct b as [x []]. Qed.

Lemma low_cut_finite b : ~ cut_le (low_cut (Some b)) NegInf /\ ~ cut_le PosInf (low_cut (Some b)).
Proof. unfold cut_le. by destruct b as [x []]. Qed.

Lemma high_cut_finite b : ~ cut_le (high_cut (Some b)) NegInf /\ ~ cut_le PosInf (high_cut (Some b)).
Proof. unfold cut_le. by destruct b as [x []]. Qed.

End BoundCuts.

(** Splits on the maxima and minima of bounds in the goal. *)
Ltac bound_cases :=
  repeat match goal with
  | |- context [maxLow ?a ?b] => destruct (maxLow_cases a b) as [[-> ?]|[-> ?]]
  | |- context [minLow ?a ?b] => destruct (minLow_cases a b) as [[-> ?]|[-> ?]]
  | |- context [maxHigh ?a ?b] => destruct (maxHigh_cases a b) as [[-> ?]|[-> ?]]
  | |- context [minHigh ?a ?b] => destruct (minHigh_cases a b) as [[-> ?]|[-> ?]]
  end.

(** ** Membership *)

Section Membership.
Context {V : Type} `{VariantOrder V}.

(** The values above a low bound, and below a high bound. *)
Definition above (low : option (Bound V)) (v : V) : bool :=
  match low with
  | None => true
  | Some b => vlt (value b) v || (inclusive b && veq (value b) v)
  end.

Definition below (high : option (Bound V)) (v : V) : bool :=
  match high with
  | None => true
  | Some b => vlt v (value b) || (inclusive b && veq (value b) v)
  end.

Definition range_contains (r : Range V) (v : V) : bool :=
  above (Range.low r) v && below (Range.high r) v.

Definition ranges_contain (rs : list (Range V)) (v : V) : bool :=
  existsb (fun r => range_contains r v) rs.

(** The values of a domain; [None] is [NULL]. *)
Definition domain_contains (d : Domain V) (x : option V) : bool :=
  match x with
  | None => Domain.nullsAllowed d
  | Some v => ranges_contain (Domain.ranges d) v
  end.

#[export] Instance elem_of_range : ElemOf V (Range V) :=
  fun v r => range_contains r v = true.
#[export] Instance elem_of_ranges : ElemOf V (list (Range V)) | 0 :=
  fun v rs => ranges_contain rs v = true.
#[export] Instance elem_of_domain : ElemOf (option V) (Domain V) :=
  fun x d => domain_contains d x = true.

(** A range is separated from a later one when a value lies between them. *)
Definition separated (high low : option (Bound V)) : bool :=
  match high, low with
  | Some high, Some low =>
      vlt (value high) (value low) ||
      (veq (value high) (value low) && negb (inclusive high) && negb (inclusive low))
  | _, _ => false
  end.

(** Ranges as [Domain] keeps them: non-empty, sorted, no two of them overlapping
    or adjacent. *)
Fixpoint well_formed (rs : list (Range V)) : bool :=
  match rs with
  | [] => true
  | r :: rest =>
      negb (Range.isEmpty r) &&
      match rest with
      | [] => true
      | r' :: _ => separated (Range.high r) (Range.low r')
      end && well_formed rest
  end.

Definition domain_well_formed (d : Domain V) : bool := well_formed (Domain.ranges d).

End Membership.

Section MembershipFacts.
Context {V : Type} `{VariantOrderLaws V}.

Lemma above_spec l v : above l v = true <-> cut_le (low_cut l) (Before v).
Proof.
  destruct l as [[x []]|]; unfold cut_le; simpl; [| |done]; rewrite ?veq_spec, ?orb_false_r; [|done].
  destruct (vlt x v) eqn:E, (vlt v x) eqn:E'; simpl; try done.
  by rewrite (vlt_asym _ _ E) in E'.
Qed.

Lemma below_spec h v : below h v = true <-> cut_le (After v) (high_cut h).
Proof.
  destruct h as [[x []]|]; unfold cut_le; simpl; [| |done]; rewrite ?veq_spec, ?orb_false_r; [|done].
  destruct (vlt x v) eqn:E, (vlt v x) eqn:E'; simpl; try done.
  by rewrite (vlt_asym _ _ E) in E'.
Qed.

Lemma before_after (v : V) : ~ cut_le (After v) (Before v).
Proof. unfold cut_le. simpl. by rewrite vlt_irrefl. Qed.

(** No cut lies between the two sides of a value, up to the order. *)
Lemma before_or_after (c : Cut V) v : cut_le c (Before v) \/ cut_le (After v) c.
Proof.
  unfold cut_le. destruct c as [|x|x|]; simpl; auto; [destruct (vlt v x); auto|destruct (vlt x v); auto].
Qed.

Lemma elem_of_range_cuts v (r : Range V) :
  v ∈ r <-> cut_le (low_cut (Range.low r)) (Before v) /\ cut_le (After v) (high_cut (Range.high r)).
Proof.
  unfold elem_of, elem_of_range, range_contains.
  by rewrite andb_true_iff, above_spec, below_spec.
Qed.

Lemma elem_of_ranges_nil v : ~ v ∈ (@nil (Range V)).
Proof. done. Qed.

Lemma elem_of_ranges_cons v (r : Range V) rs : v ∈ r :: rs <-> v ∈ r \/ v ∈ rs.
Proof. apply orb_true_iff. Qed.

Lemma elem_of_ranges_app v (rs rs' : list (Range V)) : v ∈ rs ++ rs' <-> v ∈ rs \/ v ∈ rs'.
Proof.
  unfold elem_of, elem_of_ranges, ranges_contain. by rewrite existsb_app, orb_true_iff.
Qed.

Lemma elem_of_ranges_exists v (rs : list (Range V)) : v ∈ rs <-> exists r, In r rs /\ v ∈ r.
Proof. apply existsb_exists. Qed.

Lemma isEmpty_spec (r : Range V) :
  Range.isEmpty r = false <-> ~ cut_le (high_cut (Range.high r)) (low_cut (Range.low r)).
Proof.
  unfold Range.isEmpty. rewrite negb_false_iff. apply lowNotAboveHigh_spec.
Qed.

Lemma separated_spec h l :
  separated h l = true <-> ~ cut_le (low_cut l) (high_cut h).
Proof.
  unfold cut_le. destruct h as [[x []]|], l as [[y []]|]; simpl; try (split; done);
    rewrite ?veq_spec; destruct (vlt x y) eqn:E, (vlt y x) eqn:E'; simpl; try (split; done).
  all: by rewrite (vlt_asym _ _ E) in E'.
Qed.

End MembershipFacts.

(** ** Ranges *)

Section RangeFacts.
Context {V : Type} `{VariantOrderLaws V}.
Implicit Types r s t : Range V.

Lemma range_intersect_some r s t :
  Range.intersect r s = Some t ->
  (forall v, v ∈ t <-> v ∈ r /\ v ∈ s) /\ Range.isEmpty t = false /\
  cut_le (low_cut (Range.low r)) (low_cut (Range.low t)) /\
  cut_le (low_cut (Range.low s)) (low_cut (Range.low t)) /\
  cut_le (high_cut (Range.high t)) (high_cut (Range.high r)) /\
  cut_le (high_cut (Range.high t)) (high_cut (Range.high s)).
Proof.
  unfold Range.intersect. destruct (lowNotAboveHigh _ _) eqn:E; [|done]. intros [= <-].
  rewrite isEmpty_spec. apply lowNotAboveHigh_spec in E. simpl. split; [|split; [done|]].
  - intros v. rewrite !elem_of_range_cuts. simpl. revert E. bound_cases; intros _.
    all: split; intros Hv; cut_order.
  - clear E. bound_cases; cut_order || (repeat split; try apply cut_le_refl; done).
Qed.

Lemma range_intersect_none r s v :
  Range.intersect r s = None -> v ∈ r -> ~ v ∈ s.
Proof.
  unfold Range.intersect. destruct (lowNotAboveHigh _ _) eqn:E; [done|]. intros _.
  assert (Hc : cut_le (high_cut (minHigh (Range.high r) (Range.high s)))
                      (low_cut (maxLow (Range.low r) (Range.low s)))).
  { destruct (decide (cut_le (high_cut (minHigh (Range.high r) (Range.high s)))
                      (low_cut (maxLow (Range.low r) (Range.low s))))) as [|Hn]; [done|].
    apply lowNotAboveHigh_spec in Hn. by rewrite Hn in E. }
  rewrite !elem_of_range_cuts. pose proof (before_after v). revert Hc. bound_cases; intros.
  all: cut_order.
Qed.

Lemma overlapsOrAdjacent_spec r s :
  Range.overlapsOrAdjacent r s = true <->
  cut_le (low_cut (maxLow (Range.low r) (Range.low s)))
         (high_cut (minHigh (Range.high r) (Range.high s))).
Proof.
  unfold Range.overlapsOrAdjacent, cut_le.
  destruct (maxLow _ _) as [[x []]|], (minHigh _ _) as [[y []]|]; simpl;
    try (split; done); unfold compareBoundValues;
    destruct (vlt x y) eqn:E, (vlt y x) eqn:E'; simpl; try (split; done).
  all: by rewrite (vlt_asym _ _ E) in E'.
Qed.

Lemma range_merge_spec r s v :
  Range.overlapsOrAdjacent r s = true -> v ∈ Range.merge r s <-> v ∈ r \/ v ∈ s.
Proof.
  rewrite overlapsOrAdjacent_spec, !elem_of_range_cuts. simpl. intros Hov. split.
  - destruct (before_or_after (low_cut (Range.low r)) v),
      (before_or_after (high_cut (Range.high r)) v); revert Hov; bound_cases; intros.
    all: first [left; cut_order | right; cut_order].
  - clear Hov. bound_cases; intros [[]|[]]; cut_order.
Qed.

(** A range that starts no earlier and does not touch [r] is separated from it. *)
Lemma not_overlapsOrAdjacent_separated r s :
  cut_le (low_cut (Range.low r)) (low_cut (Range.low s)) ->
  Range.isEmpty s = false -> Range.overlapsOrAdjacent r s = false ->
  separated (Range.high r) (Range.low s) = true.
Proof.
  rewrite isEmpty_spec, <- not_true_iff_false, overlapsOrAdjacent_spec, separated_spec.
  bound_cases; intros; cut_order.
Qed.

Lemma range_merge_nonempty r s :
  Range.isEmpty r = false -> Range.isEmpty (Range.merge r s) = false.
Proof. rewrite !isEmpty_spec. simpl. bound_cases; intros; cut_order. Qed.

End RangeFacts.

(** ** Well-formed ranges *)

Section WellFormed.
Context {V : Type} `{VariantOrderLaws V}.
Implicit Types (r s t : Range V) (rs : list (Range V)).

(** Every range of [rs] is strictly above the cut [c]. *)
Definition above_cut (c : Cut V) (rs : list (Range V)) : Prop :=
  forall r, In r rs -> ~ cut_le (low_cut (Range.low r)) c.

Lemma well_formed_cons r rs :
  well_formed (r :: rs) = true <->
  Range.isEmpty r = false /\ above_cut (high_cut (Range.high r)) rs /\ well_formed rs = true.
Proof.
  revert r. induction rs as [|s rs IH]; intros r.
  - simpl. rewrite !andb_true_r, negb_true_iff. unfold above_cut. simpl. naive_solver.
  - change (well_formed (r :: s :: rs)) with
      (negb (Range.isEmpty r) && separated (Range.high r) (Range.low s) && well_formed (s :: rs)).
    rewrite !andb_true_iff, negb_true_iff, separated_spec. split.
    + intros [[Hr Hs] Hwf]. repeat split; [done| |done]. intros t [<-|Ht]; [done|].
      apply (IH s) in Hwf as (Hes & Ha & _). pose proof (Ha t Ht).
      apply isEmpty_spec in Hes. cut_order.
    + intros (Hr & Ha & Hwf). repeat split; [done| |done]. apply Ha. by left.
Qed.

Lemma well_formed_nonempty rs r : well_formed rs = true -> In r rs -> Range.isEmpty r = false.
Proof.
  induction rs as [|s rs IH]; [done|]. rewrite well_formed_cons.
  intros (Hs & _ & Hwf) [<-|Hr]; auto.
Qed.

Lemma above_cut_not_elem c rs v :
  above_cut c rs -> v ∈ rs -> cut_le c (Before v).
Proof.
  intros Ha (r & Hr & Hv)%elem_of_ranges_exists. pose proof (Ha r Hr).
  apply elem_of_range_cuts in Hv. cut_order.
Qed.

Lemma above_cut_mono c c' rs : cut_le c' c -> above_cut c rs -> above_cut c' rs.
Proof. intros Hc Ha r Hr. pose proof (Ha r Hr). cut_order. Qed.

End WellFormed.
