(* ===== verification/DomainSets.v ===== *)
(** * Domains are sets of values

    The operations of [class Domain] ([axiom/optimizer/Domain.cpp]) against their
    meaning as sets of values, [NULL] being one of them: each keeps domains well
    formed and computes the intersection, union, difference or complement it is
    named after; [in] holds the listed values; [operator==] implies the same
    values, and on integers is finer than that. *)

From S2P Require Import Prelude Domains.
From Stdlib Require Import ZArith QArith Lia Lqa.

Open Scope Z_scope.

(** ** [normalize] *)

Section Normalize.
Context {V : Type} `{VariantOrderLaws V}.
Implicit Types (r s t : Range V) (rs : list (Range V)).

(** Sorted by low bound, with the comparator of the code. *)
Abbreviation sorted := (StronglySorted Domain.low_le).

Lemma low_le_cuts r s :
  Domain.low_le r s <-> cut_le (low_cut (Range.low r)) (low_cut (Range.low s)).
Proof. apply compareLowBounds_le. Qed.

#[export] Instance low_le_total : Total (@Domain.low_le V _).
Proof. intros r s. rewrite !low_le_cuts. apply cut_le_total. Qed.

#[export] Instance low_le_trans : Transitive (@Domain.low_le V _).
Proof. intros r s t. rewrite !low_le_cuts. apply cut_le_trans. Qed.

Lemma low_le_merge r s t :
  Domain.low_le r s -> Domain.low_le r t -> Domain.low_le (Range.merge r s) t.
Proof. rewrite !low_le_cuts. simpl. bound_cases; intros; cut_order. Qed.

(** The loop keeps the union of the ranges. *)
Lemma elem_of_merge_sorted v r rs :
  v ∈ Domain.merge_sorted r rs <-> v ∈ r \/ v ∈ rs.
Proof.
  revert r. induction rs as [|s rs IH]; intros r; simpl.
  - rewrite elem_of_ranges_cons. pose proof (elem_of_ranges_nil v). tauto.
  - destruct (Range.overlapsOrAdjacent r s) eqn:E.
    + rewrite IH, (range_merge_spec _ _ _ E), elem_of_ranges_cons. tauto.
    + rewrite elem_of_ranges_cons, IH, elem_of_ranges_cons. tauto.
Qed.

(** Every range the loop emits starts at [back] or later. *)
Lemma merge_sorted_lows r rs t :
  sorted (r :: rs) -> In t (Domain.merge_sorted r rs) -> Domain.low_le r t.
Proof.
  revert r. induction rs as [|s rs IH]; intros r Hs; simpl.
  - intros [<-|[]]. rewrite low_le_cuts. apply cut_le_refl.
  - inversion Hs as [|? ? Hs' Hall]; subst. inversion Hall as [|? ? Hrs Hall']; subst.
    destruct (Range.overlapsOrAdjacent r s).
    + intros Ht. assert (Hm : Domain.low_le (Range.merge r s) t).
      { apply IH; [|done]. constructor; [by inversion Hs'|].
        eapply List.Forall_impl; [|exact Hall']. intros u. by apply low_le_merge. }
      rewrite low_le_cuts in *. revert Hm. simpl. bound_cases; intros; cut_order.
    + intros [<-|Ht]; [rewrite low_le_cuts; apply cut_le_refl|].
      transitivity s; [done|]. by apply IH.
Qed.

Lemma merge_sorted_well_formed r rs :
  sorted (r :: rs) -> Range.isEmpty r = false ->
  Forall (fun s => Range.isEmpty s = false) rs ->
  well_formed (Domain.merge_sorted r rs) = true.
Proof.
  revert r. induction rs as [|s rs IH]; intros r Hs Hr Hrs; cbn [Domain.merge_sorted].
  - simpl. by rewrite Hr.
  - inversion Hs as [|? ? Hs' Hall]; subst. inversion Hall as [|? ? Hlow Hall']; subst.
    inversion Hrs as [|? ? Hes Hrs']; subst.
    destruct (Range.overlapsOrAdjacent r s) eqn:E.
    + apply IH; [|by apply range_merge_nonempty|done].
      constructor; [by inversion Hs'|].
      eapply List.Forall_impl; [|exact Hall']. intros u. by apply low_le_merge.
    + apply well_formed_cons. split; [done|]. split; [|by apply IH].
      intros t Ht%(merge_sorted_lows _ _ _ Hs'). rewrite low_le_cuts in *.
      apply not_overlapsOrAdjacent_separated in E; [|done..].
      apply separated_spec in E. cut_order.
Qed.

(** Whatever order [std::sort] leaves ranges of equal low bounds in, the result
    is well formed and holds the values of the input. *)
Lemma merge_all_spec rs rs' :
  rs' ≡ₚ rs -> sorted rs' -> Forall (fun s => Range.isEmpty s = false) rs ->
  well_formed (Domain.merge_all rs') = true /\
  forall v, v ∈ Domain.merge_all rs' <-> v ∈ rs.
Proof.
  intros Hp Hs Hne. rewrite <- Hp in Hne.
  assert (Hv : forall v, v ∈ rs' <-> v ∈ rs).
  { intros v. rewrite !elem_of_ranges_exists.
    split; intros (r & Hr & ?); exists r; split; [|done| |done]; [by rewrite <- Hp|by rewrite Hp]. }
  destruct rs' as [|r rs']; simpl; [done|]. inversion Hne; subst. split.
  - by apply merge_sorted_well_formed.
  - intros v. by rewrite elem_of_merge_sorted, <- elem_of_ranges_cons.
Qed.

Lemma normalize_spec rs :
  Forall (fun s => Range.isEmpty s = false) rs ->
  well_formed (Domain.normalize rs) = true /\
  forall v, v ∈ Domain.normalize rs <-> v ∈ rs.
Proof.
  apply merge_all_spec; [apply merge_sort_Permutation|apply StronglySorted_merge_sort; apply _].
Qed.

End Normalize.

(** ** [intersect] and [complement] on ranges *)

Section Ranges.
Context {V : Type} `{VariantOrderLaws V}.
Implicit Types (r s t : Range V) (rs ls : list (Range V)).

Lemma intersect_ranges_cons l ls r rs :
  Domain.intersect_ranges (l :: ls) (r :: rs) =
  (let rest :=
     if compareHighBounds (Range.high l) (Range.high r) <=? 0
     then Domain.intersect_ranges ls (r :: rs)
     else Domain.intersect_ranges (l :: ls) rs in
   match Range.intersect l r with Some i => i :: rest | None => rest end).
Proof. done. Qed.

(** Induction along the two pointers. *)
Lemma two_pointers (P : list (Range V) -> list (Range V) -> Prop) :
  (forall rs, P [] rs) -> (forall ls, P ls []) ->
  (forall l ls r rs, P ls (r :: rs) -> P (l :: ls) rs -> P (l :: ls) (r :: rs)) ->
  forall ls rs, P ls rs.
Proof.
  intros Hl Hr Hc ls. induction ls as [|l ls IHl]; [done|].
  intros rs. induction rs as [|r rs IHr]; auto.
Qed.

Lemma intersect_ranges_nil ls : Domain.intersect_ranges ls (@nil (Range V)) = [].
Proof. by destruct ls. Qed.

(** Every range of the result lies in a range of each side. *)
Lemma intersect_ranges_from ls rs t :
  In t (Domain.intersect_ranges ls rs) ->
  exists l r, In l ls /\ In r rs /\ Range.intersect l r = Some t.
Proof.
  revert t. pattern ls, rs. apply two_pointers; clear ls rs.
  - done.
  - intros ls t. by rewrite intersect_ranges_nil.
  - intros l ls r rs IH1 IH2 t. rewrite intersect_ranges_cons. cbv zeta. intros Ht.
    assert (Hcases : Range.intersect l r = Some t \/
      In t (Domain.intersect_ranges ls (r :: rs)) \/
      In t (Domain.intersect_ranges (l :: ls) rs)).
    { destruct (Range.intersect l r), (compareHighBounds _ _ <=? 0);
        try (destruct Ht as [->|Ht]); auto. }
    destruct Hcases as [Hlr|[Ht'|Ht']].
    + exists l, r. repeat split; [by left..|done].
    + destruct (IH1 _ Ht') as (l' & r' & ? & ? & ?). exists l', r'. by repeat split; [right|..].
    + destruct (IH2 _ Ht') as (l' & r' & ? & ? & ?). exists l', r'. by repeat split; [|right|].
Qed.

(** The tail of an intersection lies above whatever one side's tail lies above. *)
Lemma intersect_ranges_above c ls rs :
  above_cut c ls \/ above_cut c rs -> above_cut c (Domain.intersect_ranges ls rs).
Proof.
  intros Hc t (l & r & Hl & Hr & Hi)%intersect_ranges_from.
  apply range_intersect_some in Hi as (_ & _ & Hlow1 & Hlow2 & _).
  destruct Hc as [Hc|Hc]; [specialize (Hc _ Hl)|specialize (Hc _ Hr)]; cut_order.
Qed.

Lemma intersect_ranges_well_formed ls rs :
  well_formed ls = true -> well_formed rs = true ->
  well_formed (Domain.intersect_ranges ls rs) = true.
Proof.
  pattern ls, rs. apply two_pointers; clear ls rs.
  - done.
  - intros ls. by rewrite intersect_ranges_nil.
  - intros l ls r rs IH1 IH2 Hl Hr. rewrite intersect_ranges_cons. cbv zeta.
    pose proof Hl as (Hel & Hal & Hl')%well_formed_cons.
    pose proof Hr as (Her & Har & Hr')%well_formed_cons.
    set (rest := if _ <=? 0 then _ else _).
    assert (Hrest : well_formed rest = true).
    { unfold rest. destruct (_ <=? 0); auto. }
    destruct (Range.intersect l r) as [t|] eqn:Ei; [|done].
    apply range_intersect_some in Ei as (_ & Het & _ & _ & Hh1 & Hh2).
    apply well_formed_cons. split; [done|]. split; [|done].
    unfold rest. destruct (_ <=? 0); apply intersect_ranges_above.
    + left. by apply (above_cut_mono (high_cut (Range.high l))).
    + right. by apply (above_cut_mono (high_cut (Range.high r))).
Qed.

Lemma elem_of_intersect_ranges v ls rs :
  well_formed ls = true -> well_formed rs = true ->
  v ∈ Domain.intersect_ranges ls rs <-> v ∈ ls /\ v ∈ rs.
Proof.
  pattern ls, rs. apply two_pointers; clear ls rs.
  - intros rs _ _. pose proof (elem_of_ranges_nil v). tauto.
  - intros ls _ _. rewrite intersect_ranges_nil. pose proof (elem_of_ranges_nil v). tauto.
  - intros l ls r rs IH1 IH2 Hl Hr. rewrite intersect_ranges_cons. cbv zeta.
    pose proof Hl as (Hel & Hal & Hl')%well_formed_cons.
    pose proof Hr as (Her & Har & Hr')%well_formed_cons.
    set (rest := if _ <=? 0 then _ else _).
    assert (Hhead : v ∈ (match Range.intersect l r with Some i => i :: rest | None => rest end)
      <-> (v ∈ l /\ v ∈ r) \/ v ∈ rest).
    { destruct (Range.intersect l r) eqn:Ei.
      - apply range_intersect_some in Ei as [Hi _]. by rewrite elem_of_ranges_cons, Hi.
      - pose proof (range_intersect_none _ _ v Ei). tauto. }
    rewrite Hhead. clear Hhead. rewrite !elem_of_ranges_cons. unfold rest.
    pose proof (before_after v) as Hv.
    destruct (_ <=? 0) eqn:Ec.
    + apply Z.leb_le, compareHighBounds_le in Ec. rewrite IH1, elem_of_ranges_cons by done.
      assert (v ∈ l -> ~ v ∈ rs).
      { intros Hvl%elem_of_range_cuts Hvr%(above_cut_not_elem _ _ _ Har). cut_order. }
      tauto.
    + apply Z.leb_gt in Ec. assert (Hge : cut_le (high_cut (Range.high r)) (high_cut (Range.high l))).
      { apply compareHighBounds_ge. lia. }
      rewrite IH2, elem_of_ranges_cons by done.
      assert (v ∈ r -> ~ v ∈ ls).
      { intros Hvl%elem_of_range_cuts Hvr%(above_cut_not_elem _ _ _ Hal). cut_order. }
      tauto.
Qed.

(** Where a gap may open: at the very start, or strictly below the ranges left. *)
Definition opens (low : option (Bound V)) (rs : list (Range V)) : Prop :=
  low = None \/ above_cut (low_cut low) rs.

Lemma opens_flip r h rs :
  Range.high r = Some h -> above_cut (high_cut (Range.high r)) rs ->
  opens (Some (Domain.flip h)) rs.
Proof. intros -> Ha. right. by rewrite low_cut_flip. Qed.

Lemma opens_low low r rs :
  opens low (r :: rs) -> cut_le (low_cut low) (low_cut (Range.low r)).
Proof.
  intros [->|Ha]; [done|]. pose proof (Ha r (or_introl eq_refl)). cut_order.
Qed.

(** The gap below [r]. *)
Definition gap_below (low : option (Bound V)) r : list (Range V) :=
  match Range.low r with
  | Some bound => [Range.mkRange low (Some (Domain.flip bound))]
  | None => []
  end.

Lemma complement_ranges_cons low r rs :
  Domain.complement_ranges low (r :: rs) =
  match Range.high r with
  | None => gap_below low r
  | Some bound => gap_below low r ++ Domain.complement_ranges (Some (Domain.flip bound)) rs
  end.
Proof. done. Qed.

Lemma elem_of_gap_below v low r :
  v ∈ gap_below low r <->
  cut_le (low_cut low) (Before v) /\ cut_le (After v) (low_cut (Range.low r)).
Proof.
  unfold gap_below. destruct (Range.low r) as [b|].
  - rewrite elem_of_ranges_cons, elem_of_range_cuts. simpl Range.high.
    rewrite high_cut_flip. pose proof (elem_of_ranges_nil v). simpl Range.low. tauto.
  - pose proof (elem_of_ranges_nil v). split; [done|]. intros [_ Hc]. done.
Qed.

Lemma gap_below_well_formed low r rs :
  opens low (r :: rs) -> well_formed (gap_below low r) = true.
Proof.
  unfold gap_below. intros Ho. destruct (Range.low r) as [b|] eqn:Eb; [|done].
  simpl. rewrite !andb_true_r, negb_true_iff, isEmpty_spec. simpl Range.high.
  rewrite high_cut_flip. simpl Range.low. destruct Ho as [->|Ha].
  - apply low_cut_finite.
  - rewrite <- Eb. apply Ha. by left.
Qed.

(** The loop of [complement]: the values above the opening that no range holds. *)
Lemma elem_of_complement_ranges v low rs :
  opens low rs -> well_formed rs = true ->
  v ∈ Domain.complement_ranges low rs <-> cut_le (low_cut low) (Before v) /\ ~ v ∈ rs.
Proof.
  revert low. induction rs as [|r rs IH]; intros low Ho Hwf.
  - simpl. rewrite elem_of_ranges_cons, elem_of_range_cuts. simpl.
    pose proof (elem_of_ranges_nil v). unfold cut_le at 2. simpl. tauto.
  - rewrite complement_ranges_cons. pose proof (opens_low _ _ _ Ho) as Hlow.
    apply well_formed_cons in Hwf as (Her & Har & Hwf). apply isEmpty_spec in Her.
    pose proof (before_after v) as Hv. rewrite elem_of_ranges_cons, elem_of_range_cuts.
    pose proof (above_cut_not_elem _ _ v Har) as Hrest.
    assert (Hl : cut_le (low_cut (Range.low r)) (Before v) -> cut_le (low_cut low) (Before v))
      by (intros; cut_order).
    assert (Hlh : cut_le (high_cut (Range.high r)) (Before v) ->
                  cut_le (low_cut (Range.low r)) (Before v)) by (intros; cut_order).
    assert (Hx1 : cut_le (low_cut (Range.low r)) (Before v) ->
                  ~ cut_le (After v) (low_cut (Range.low r))) by (intros; cut_order).
    assert (Hx2 : cut_le (high_cut (Range.high r)) (Before v) ->
                  ~ cut_le (After v) (high_cut (Range.high r))) by (intros; cut_order).
    pose proof (before_or_after (low_cut (Range.low r)) v).
    pose proof (before_or_after (high_cut (Range.high r)) v).
    destruct (Range.high r) as [h|] eqn:Eh.
    + rewrite elem_of_ranges_app, elem_of_gap_below.
      rewrite IH by (try done; rewrite <- Eh in Har; by apply (opens_flip r)).
      rewrite low_cut_flip. tauto.
    + rewrite elem_of_gap_below. assert (~ cut_le (high_cut None) (Before v)) by done. tauto.
Qed.

(** The loop's ranges start no lower than its opening. *)
Lemma complement_ranges_lows low rs t :
  opens low rs -> well_formed rs = true -> In t (Domain.complement_ranges low rs) ->
  cut_le (low_cut low) (low_cut (Range.low t)).
Proof.
  revert low. induction rs as [|r rs IH]; intros low Ho Hwf.
  - intros [<-|[]]. apply cut_le_refl.
  - rewrite complement_ranges_cons. pose proof (opens_low _ _ _ Ho) as Hlow.
    apply well_formed_cons in Hwf as (Her & Har & Hwf). apply isEmpty_spec in Her.
    assert (Hgap : In t (gap_below low r) -> cut_le (low_cut low) (low_cut (Range.low t))).
    { unfold gap_below. destruct (Range.low r); [|done]. intros [<-|[]]. apply cut_le_refl. }
    destruct (Range.high r) as [h|] eqn:Eh; [|done].
    intros [Ht|Ht]%in_app_or; [by apply Hgap|].
    assert (Hf : opens (Some (Domain.flip h)) rs).
    { rewrite <- Eh in Har. by apply (opens_flip r). }
    pose proof (IH _ Hf Hwf Ht) as Hh. rewrite low_cut_flip in Hh. cut_order.
Qed.

Lemma complement_ranges_well_formed low rs :
  opens low rs -> well_formed rs = true ->
  well_formed (Domain.complement_ranges low rs) = true.
Proof.
  revert low. induction rs as [|r rs IH]; intros low Ho Hwf.
  - destruct low as [[x []]|]; done.
  - rewrite complement_ranges_cons. pose proof (gap_below_well_formed _ _ _ Ho) as Hg.
    apply well_formed_cons in Hwf as (Her & Har & Hwf). apply isEmpty_spec in Her.
    destruct (Range.high r) as [h|] eqn:Eh; [|done].
    assert (Hf : opens (Some (Domain.flip h)) rs).
    { rewrite <- Eh in Har. by apply (opens_flip r). }
    unfold gap_below in *. destruct (Range.low r) as [b|] eqn:Eb; [|by apply IH].
    apply well_formed_cons. apply well_formed_cons in Hg as (He & _ & _).
    repeat split; [done| |by apply IH]. intros t Ht.
    pose proof (complement_ranges_lows _ _ _ Hf Hwf Ht) as Hh.
    rewrite low_cut_flip in Hh. simpl Range.high. rewrite high_cut_flip. cut_order.
Qed.

End Ranges.

(** ** Domains *)

Section Domains.
Context {V : Type} `{VariantOrderLaws V}.
Implicit Types (a b d : Domain V) (x : option V).

Abbreviation wf := domain_well_formed.

Lemma complement_well_formed d : wf d = true -> wf (Domain.complement d) = true.
Proof. apply complement_ranges_well_formed. by left. Qed.

Lemma elem_of_complement x d : wf d = true -> x ∈ Domain.complement d <-> ~ x ∈ d.
Proof.
  destruct x as [v|]; intros Hwf.
  - pose proof (elem_of_complement_ranges v None (Domain.ranges d) (or_introl eq_refl) Hwf) as Hc.
    unfold elem_of, elem_of_domain in *. simpl. unfold elem_of, elem_of_ranges in Hc.
    rewrite Hc. split; [tauto|]. intros Hn. by split.
  - unfold elem_of, elem_of_domain. simpl. destruct (Domain.nullsAllowed d); naive_solver.
Qed.

Lemma intersect_well_formed a b :
  wf a = true -> wf b = true -> wf (Domain.intersect a b) = true.
Proof. apply intersect_ranges_well_formed. Qed.

Lemma elem_of_intersect_domain x a b :
  wf a = true -> wf b = true -> x ∈ Domain.intersect a b <-> x ∈ a /\ x ∈ b.
Proof.
  intros Ha Hb. destruct x as [v|].
  - apply (elem_of_intersect_ranges v _ _ Ha Hb).
  - apply andb_true_iff.
Qed.

Lemma well_formed_Forall (rs : list (Range V)) :
  well_formed rs = true -> Forall (fun r => Range.isEmpty r = false) rs.
Proof.
  intros Hwf. apply List.Forall_forall. intros r. by apply well_formed_nonempty.
Qed.

Lemma unite_spec a b :
  wf a = true -> wf b = true ->
  wf (Domain.unite a b) = true /\ forall x, x ∈ Domain.unite a b <-> x ∈ a \/ x ∈ b.
Proof.
  intros Ha Hb.
  destruct (normalize_spec (Domain.ranges a ++ Domain.ranges b)) as [Hwf Hv].
  { apply Forall_app. split; by apply well_formed_Forall. }
  split; [done|]. intros [v|]; [|apply orb_true_iff].
  etransitivity; [apply Hv|apply elem_of_ranges_app].
Qed.

Lemma singleValue_nonempty (v : V) : Range.isEmpty (Range.singleValue v) = false.
Proof. unfold Range.isEmpty. simpl. unfold compareBoundValues. by rewrite vlt_irrefl. Qed.

Lemma in_spec (values : list V) :
  wf (Domain.in_ values) = true /\
  forall x, x ∈ Domain.in_ values <-> exists v w, x = Some v /\ In w values /\ veq w v = true.
Proof.
  destruct (normalize_spec (map Range.singleValue values)) as [Hwf Hv].
  { apply List.Forall_forall. intros r (v & <- & _)%in_map_iff. apply singleValue_nonempty. }
  split; [done|]. intros [v|].
  - etransitivity; [apply Hv|]. rewrite elem_of_ranges_exists. split.
    + intros (r & (w & <- & Hw)%in_map_iff & Hr). exists v, w. repeat split; [done|].
      revert Hr. unfold elem_of, elem_of_range, range_contains. simpl. rewrite veq_spec.
      destruct (vlt w v) eqn:E, (vlt v w) eqn:E'; simpl; try done.
      by rewrite (vlt_asym _ _ E) in E'.
    + intros (? & w & [= <-] & Hw & He). exists (Range.singleValue w).
      split; [by apply in_map|]. unfold elem_of, elem_of_range, range_contains. simpl.
      by rewrite He, !orb_true_r.
  - split; [done|]. by intros (? & ? & ? & _).
Qed.

End Domains.

(** ** Every domain is a set *)

(** [Domain]'s constructor is private: a domain comes from the factory functions
    and the operations.  Each is paired with the set it stands for. *)
Inductive Denotes {V : Type} `{VariantOrder V} : Domain V -> (option V -> Prop) -> Prop :=
  | denotes_all : Denotes Domain.all (fun _ => True)
  | denotes_none : Denotes Domain.none (fun _ => False)
  | denotes_onlyNull : Denotes Domain.onlyNull (fun x => x = None)
  | denotes_notNull : Denotes Domain.notNull (fun x => x <> None)
  | denotes_singleValue w :
      Denotes (Domain.singleValue w) (fun x => exists v, x = Some v /\ veq w v = true)
  | denotes_greaterThan w :
      Denotes (Domain.greaterThan w) (fun x => exists v, x = Some v /\ vlt w v = true)
  | denotes_greaterThanOrEqual w :
      Denotes (Domain.greaterThanOrEqual w) (fun x => exists v, x = Some v /\ vlt v w = false)
  | denotes_lessThan w :
      Denotes (Domain.lessThan w) (fun x => exists v, x = Some v /\ vlt v w = true)
  | denotes_lessThanOrEqual w :
      Denotes (Domain.lessThanOrEqual w) (fun x => exists v, x = Some v /\ vlt w v = false)
  | denotes_in values :
      Denotes (Domain.in_ values)
        (fun x => exists v w, x = Some v /\ In w values /\ veq w v = true)
  | denotes_intersect a b A B :
      Denotes a A -> Denotes b B -> Denotes (Domain.intersect a b) (fun x => A x /\ B x)
  | denotes_unite a b A B :
      Denotes a A -> Denotes b B -> Denotes (Domain.unite a b) (fun x => A x \/ B x)
  | denotes_subtract a b A B :
      Denotes a A -> Denotes b B -> Denotes (Domain.subtract a b) (fun x => A x /\ ~ B x).

Section Factories.
Context {V : Type} `{VariantOrderLaws V}.

(** A domain of one range with one bound. *)
Lemma elem_of_one_range x (r : Range V) :
  x ∈ Domain.mkDomain false [r] <-> exists v, x = Some v /\ range_contains r v = true.
Proof.
  destruct x as [v|]; unfold elem_of, elem_of_domain; simpl.
  - rewrite orb_false_r. naive_solver.
  - naive_solver.
Qed.

Lemma above_or_equal (w v : V) : vlt w v || veq w v = negb (vlt v w).
Proof.
  rewrite veq_spec. destruct (vlt w v) eqn:E, (vlt v w) eqn:E'; simpl; try done.
  by rewrite (vlt_asym _ _ E) in E'.
Qed.

Lemma below_or_equal (w v : V) : vlt v w || veq w v = negb (vlt w v).
Proof.
  rewrite veq_spec. destruct (vlt w v) eqn:E, (vlt v w) eqn:E'; simpl; try done.
  by rewrite (vlt_asym _ _ E) in E'.
Qed.

Lemma elem_of_singleValue x (w : V) :
  x ∈ Domain.singleValue w <-> exists v, x = Some v /\ veq w v = true.
Proof.
  unfold Domain.singleValue. rewrite elem_of_one_range. unfold range_contains. simpl.
  setoid_rewrite above_or_equal. setoid_rewrite below_or_equal. setoid_rewrite veq_spec.
  by setoid_rewrite andb_comm at 1.
Qed.

(** The sets of the factory functions. *)
Lemma elem_of_factories x (w : V) :
  (x ∈ Domain.greaterThan w <-> exists v, x = Some v /\ vlt w v = true) /\
  (x ∈ Domain.greaterThanOrEqual w <-> exists v, x = Some v /\ vlt v w = false) /\
  (x ∈ Domain.lessThan w <-> exists v, x = Some v /\ vlt v w = true) /\
  (x ∈ Domain.lessThanOrEqual w <-> exists v, x = Some v /\ vlt w v = false).
Proof.
  unfold Domain.greaterThan, Domain.greaterThanOrEqual, Domain.lessThan, Domain.lessThanOrEqual.
  rewrite !elem_of_one_range. unfold range_contains. simpl.
  setoid_rewrite andb_true_r. setoid_rewrite orb_false_r.
  setoid_rewrite above_or_equal. setoid_rewrite below_or_equal.
  by setoid_rewrite negb_true_iff.
Qed.

Lemma elem_of_notNull (x : option V) : x ∈ Domain.notNull <-> x <> None.
Proof. destruct x; unfold elem_of, elem_of_domain; simpl; naive_solver. Qed.

Lemma elem_of_all (x : option V) : x ∈ Domain.all.
Proof. by destruct x. Qed.

Lemma elem_of_onlyNull (x : option V) : x ∈ Domain.onlyNull <-> x = None.
Proof. destruct x; unfold elem_of, elem_of_domain; simpl; naive_solver. Qed.

(** C25: Every domain the code can build is well formed - its ranges non-empty,
    sorted, neither overlapping nor adjacent - and holds exactly the values, [NULL]
    included, of the set its operations describe: [intersect], [unite] and
    [subtract] are intersection, union and difference, [in] the listed values. *)
Theorem domain_operations_are_set_operations (d : Domain V) S :
  Denotes d S ->
  domain_well_formed d = true /\ forall x, domain_contains d x = true <-> S x.
Proof.
  induction 1 as [| | | |w|w|w|w|w|values|a b A B _ [Ha HA] _ [Hb HB]
    |a b A B _ [Ha HA] _ [Hb HB]|a b A B _ [Ha HA] _ [Hb HB]].
  - split; [done|]. intros x. split; [done|]. intros _. apply elem_of_all.
  - split; [done|]. by intros [].
  - split; [done|]. apply elem_of_onlyNull.
  - split; [done|]. apply elem_of_notNull.
  - split; [|intros x; apply elem_of_singleValue].
    unfold domain_well_formed. simpl. by rewrite singleValue_nonempty.
  - split; [done|]. intros x. apply elem_of_factories.
  - split; [done|]. intros x. apply elem_of_factories.
  - split; [done|]. intros x. apply elem_of_factories.
  - split; [done|]. intros x. apply elem_of_factories.
  - apply in_spec.
  - split; [by apply intersect_well_formed|]. intros x. rewrite <- HA, <- HB.
    by apply elem_of_intersect_domain.
  - destruct (unite_spec a b Ha Hb) as [Hwf Hu]. split; [done|]. intros x.
    rewrite <- HA, <- HB. apply Hu.
  - unfold Domain.subtract. pose proof (complement_well_formed b Hb) as Hc.
    split; [by apply intersect_well_formed|]. intros x. rewrite <- HA, <- HB.
    etransitivity; [by apply elem_of_intersect_domain|].
    by rewrite (elem_of_complement x b Hb).
Qed.
End Factories.

(** ** [operator==] *)

(** Between two values of a dense order lies a third, and no value is extreme. *)
Class DenseOrder (V : Type) `{VariantOrder V} : Prop := {
  dense_point : inhabited V;
  dense_between (a b : V) : vlt a b = true -> exists c, vlt a c = true /\ vlt c b = true;
  dense_below (b : V) : exists a, vlt a b = true;
  dense_above (a : V) : exists b, vlt a b = true
}.

Section Equality.
Context {V : Type} `{VariantOrderLaws V}.
Implicit Types (r s : Range V) (rs : list (Range V)) (c : Cut V).

Definition cut_eq c c' : Prop := cut_le c c' /\ cut_le c' c.

(** [==] of ranges, bound by bound. *)
Definition same_range r s : bool :=
  Domain.sameBound (Range.low r) (Range.low s) && Domain.sameBound (Range.high r) (Range.high s).

Lemma sameBound_low l l' : Domain.sameBound l l' = true <-> cut_eq (low_cut l) (low_cut l').
Proof.
  unfold cut_eq, cut_le. destruct l as [[x []]|], l' as [[y []]|]; simpl;
    try (split; done); try (split; [done|by intros []]).
  - by rewrite veq_spec, andb_true_iff, (and_comm (negb (vlt x y) = true)).
  - split; [done|]. intros [Hyx Hxy]. apply negb_true_iff in Hyx. by rewrite Hxy in Hyx.
  - split; [done|]. intros [Hxy Hyx]. apply negb_true_iff in Hyx. by rewrite Hxy in Hyx.
  - by rewrite veq_spec, andb_true_iff, (and_comm (negb (vlt x y) = true)).
Qed.

Lemma sameBound_high l l' : Domain.sameBound l l' = true <-> cut_eq (high_cut l) (high_cut l').
Proof.
  unfold cut_eq, cut_le. destruct l as [[x []]|], l' as [[y []]|]; simpl;
    try (split; done); try (split; [done|by intros []]).
  - by rewrite veq_spec, andb_true_iff, (and_comm (negb (vlt x y) = true)).
  - split; [done|]. intros [Hxy Hyx]. apply negb_true_iff in Hyx. by rewrite Hxy in Hyx.
  - split; [done|]. intros [Hyx Hxy]. apply negb_true_iff in Hyx. by rewrite Hxy in Hyx.
  - by rewrite veq_spec, andb_true_iff, (and_comm (negb (vlt x y) = true)).
Qed.

Lemma same_range_cuts r s :
  same_range r s = true <->
  cut_eq (low_cut (Range.low r)) (low_cut (Range.low s)) /\
  cut_eq (high_cut (Range.high r)) (high_cut (Range.high s)).
Proof. unfold same_range. by rewrite andb_true_iff, sameBound_low, sameBound_high. Qed.

Lemma same_range_elem r s v : same_range r s = true -> v ∈ r -> v ∈ s.
Proof.
  rewrite same_range_cuts, !elem_of_range_cuts. unfold cut_eq.
  intros [[] []] []; split; cut_order.
Qed.

Lemma same_range_sym r s : same_range r s = true -> same_range s r = true.
Proof. rewrite !same_range_cuts. unfold cut_eq. tauto. Qed.

Lemma same_ranges_Forall2 rs ss :
  length rs = length ss /\
  forallb (fun '(l, r) =>
      Domain.sameBound (Range.low l) (Range.low r) &&
      Domain.sameBound (Range.high l) (Range.high r)) (zip rs ss) = true <->
  Forall2 (fun r s => same_range r s = true) rs ss.
Proof.
  revert ss. induction rs as [|r rs IH]; intros [|s ss]; simpl.
  - split; [constructor|done].
  - split; [by intros []|inversion 1].
  - split; [by intros []|inversion 1].
  - rewrite andb_true_iff. split.
    + intros [[= Hl] [Hrs Hf]]. constructor; [done|]. by apply IH.
    + inversion 1 as [|? ? ? ? Hrs Hf]; subst. apply IH in Hf as [Hl Hf].
      split; [congruence|done].
Qed.

(** [equals] relates the ranges one by one. *)
Lemma equals_Forall2 (a b : Domain V) :
  Domain.equals a b = true <->
  Domain.nullsAllowed a = Domain.nullsAllowed b /\
  Forall2 (fun r s => same_range r s = true) (Domain.ranges a) (Domain.ranges b).
Proof.
  unfold Domain.equals. rewrite !andb_true_iff, eqb_true_iff, Nat.eqb_eq.
  rewrite <- same_ranges_Forall2. tauto.
Qed.

Lemma Forall2_same_elem rs ss v :
  Forall2 (fun r s => same_range r s = true) rs ss -> v ∈ rs -> v ∈ ss.
Proof.
  induction 1 as [|r s rs ss Hrs _ IH]; [done|]. rewrite !elem_of_ranges_cons.
  intros [Hv|Hv]; [left; by eapply same_range_elem|right; auto].
Qed.

Lemma equals_same_values (a b : Domain V) x :
  Domain.equals a b = true -> x ∈ a <-> x ∈ b.
Proof.
  intros [Hn Hr]%equals_Forall2. destruct x as [v|].
  - unfold elem_of, elem_of_domain. simpl. split; apply Forall2_same_elem; [done|].
    apply Forall2_flip. eapply Forall2_impl; [done|]. intros ? ?. apply same_range_sym.
  - unfold elem_of, elem_of_domain. simpl. by rewrite Hn.
Qed.

(** *** Dense orders *)

Context `{!DenseOrder V}.

Lemma cut_inhabited c c' :
  ~ cut_le c' c -> exists v, cut_le c (Before v) /\ cut_le (After v) c'.
Proof.
  unfold cut_le. destruct c as [|x|x|], c' as [|y|y|]; simpl; intros Hn; try done.
  - destruct (dense_below y) as [a Ha]. by exists a.
  - exists y. by rewrite vlt_irrefl.
  - destruct dense_point as [a]. by exists a.
  - exists x. rewrite vlt_irrefl. split; [done|]. by destruct (vlt x y).
  - exists x. rewrite vlt_irrefl. split; [done|]. by destruct (vlt y x).
  - exists x. by rewrite vlt_irrefl.
  - destruct (vlt x y) eqn:E; [|done].
    destruct (dense_between _ _ E) as (m & Hx & Hy). by exists m.
  - exists y. rewrite vlt_irrefl. split; [|done]. by destruct (vlt x y).
  - destruct (dense_above x) as [m Hm]. by exists m.
Qed.

(** A value between two cuts, and below a third. *)
Lemma cut_inhabited_below c c1 c2 :
  ~ cut_le c1 c -> ~ cut_le c2 c ->
  exists v, cut_le c (Before v) /\ cut_le (After v) c1 /\ cut_le (After v) c2.
Proof.
  intros H1 H2. destruct (cut_le_total c1 c2).
  - destruct (cut_inhabited _ _ H1) as (v & ? & ?). exists v. repeat split; cut_order.
  - destruct (cut_inhabited _ _ H2) as (v & ? & ?). exists v. repeat split; cut_order.
Qed.

Lemma heads_low r rs s ss :
  well_formed (r :: rs) = true -> well_formed (s :: ss) = true ->
  (forall v, v ∈ r :: rs -> v ∈ s :: ss) ->
  cut_le (low_cut (Range.low s)) (low_cut (Range.low r)).
Proof.
  intros (Hr & _ & _)%well_formed_cons (Hs & Has & _)%well_formed_cons Hsub.
  apply isEmpty_spec in Hr, Hs.
  destruct (decide (cut_le (low_cut (Range.low s)) (low_cut (Range.low r)))) as [|Hn]; [done|].
  destruct (cut_inhabited_below _ _ _ Hn Hr) as (v & ? & ? & ?). pose proof (before_after v).
  destruct (proj1 (elem_of_ranges_cons v s ss)) as [Hv|Hv].
  - apply Hsub, elem_of_ranges_cons. left. by apply elem_of_range_cuts.
  - apply elem_of_range_cuts in Hv. cut_order.
  - pose proof (above_cut_not_elem _ _ _ Has Hv). cut_order.
Qed.

Lemma heads_high r rs s ss :
  well_formed (r :: rs) = true -> well_formed (s :: ss) = true ->
  cut_eq (low_cut (Range.low r)) (low_cut (Range.low s)) ->
  (forall v, v ∈ s :: ss -> v ∈ r :: rs) ->
  cut_le (high_cut (Range.high s)) (high_cut (Range.high r)).
Proof.
  intros (Hr & Har & Hrs)%well_formed_cons (Hs & _ & _)%well_formed_cons [Hl1 Hl2] Hsub.
  apply isEmpty_spec in Hr, Hs.
  destruct (decide (cut_le (high_cut (Range.high s)) (high_cut (Range.high r)))) as [|Hn]; [done|].
  assert (Hgap : exists v, cut_le (high_cut (Range.high r)) (Before v) /\
    cut_le (After v) (high_cut (Range.high s)) /\ ~ v ∈ rs).
  { destruct rs as [|r' rs].
    - destruct (cut_inhabited _ _ Hn) as (v & ? & ?). by exists v.
    - destruct (cut_inhabited_below _ _ _ Hn (Har r' (or_introl eq_refl))) as (v & ? & ? & ?).
      exists v. repeat split; [done..|]. intros Hv. pose proof (before_after v).
      apply well_formed_cons in Hrs as (Hr' & Har' & _). apply isEmpty_spec in Hr'.
      apply elem_of_ranges_cons in Hv as [Hv%elem_of_range_cuts|Hv]; [cut_order|].
      pose proof (above_cut_not_elem _ _ _ Har' Hv). cut_order. }
  destruct Hgap as (v & ? & ? & Hnv). pose proof (before_after v).
  destruct (proj1 (elem_of_ranges_cons v r rs)) as [Hv|Hv].
  - apply Hsub, elem_of_ranges_cons. left. apply elem_of_range_cuts. cut_order.
  - apply elem_of_range_cuts in Hv. cut_order.
  - done.
Qed.

Lemma tails_sub r rs s ss v :
  well_formed (r :: rs) = true -> same_range s r = true ->
  (forall v, v ∈ r :: rs -> v ∈ s :: ss) -> v ∈ rs -> v ∈ ss.
Proof.
  intros (_ & Har & _)%well_formed_cons Hsr Hsub Hv.
  destruct (proj1 (elem_of_ranges_cons v s ss)) as [Hs|Hs]; [| |done].
  - apply Hsub, elem_of_ranges_cons. by right.
  - pose proof (above_cut_not_elem _ _ _ Har Hv). pose proof (before_after v).
    apply (same_range_elem _ _ _ Hsr), elem_of_range_cuts in Hs. cut_order.
Qed.

(** Well-formed ranges of the same values are the same ranges. *)
Lemma well_formed_canonical rs ss :
  well_formed rs = true -> well_formed ss = true -> (forall v, v ∈ rs <-> v ∈ ss) ->
  Forall2 (fun r s => same_range r s = true) rs ss.
Proof.
  revert ss. induction rs as [|r rs IH]; intros ss Hrs Hss Hv.
  - destruct ss as [|s ss]; [constructor|]. exfalso.
    apply well_formed_cons in Hss as (Hs & _ & _). apply isEmpty_spec in Hs.
    destruct (cut_inhabited _ _ Hs) as (v & ? & ?).
    apply (elem_of_ranges_nil v), Hv, elem_of_ranges_cons. left. by apply elem_of_range_cuts.
  - destruct ss as [|s ss].
    { exfalso. apply well_formed_cons in Hrs as (Hs & _ & _). apply isEmpty_spec in Hs.
      destruct (cut_inhabited _ _ Hs) as (v & ? & ?).
      apply (elem_of_ranges_nil v), Hv, elem_of_ranges_cons. left. by apply elem_of_range_cuts. }
    assert (Hlow : cut_eq (low_cut (Range.low r)) (low_cut (Range.low s))).
    { split; eapply heads_low; try done; intros ?; apply Hv. }
    assert (Hrs' : same_range r s = true).
    { apply same_range_cuts. split; [done|].
      split; eapply heads_high; try done; try (intros ?; apply Hv).
      destruct Hlow. by split. }
    constructor; [done|]. apply IH.
    + by apply well_formed_cons in Hrs as (_ & _ & ?).
    + by apply well_formed_cons in Hss as (_ & _ & ?).
    + intros v. split; intros Hin.
      * eapply tails_sub; [exact Hrs|by apply same_range_sym| |done]. intros ?. apply Hv.
      * eapply tails_sub; [exact Hss|done| |done]. intros ?. apply Hv.
Qed.

(** On well-formed domains over a dense order without extremes [operator==] is
    equality of the sets of values, [NULL] included: the representation is
    canonical. *)
Theorem equals_iff_same_values (a b : Domain V) :
  domain_well_formed a = true -> domain_well_formed b = true ->
  Domain.equals a b = true <->
  (forall x, domain_contains a x = domain_contains b x).
Proof.
  intros Ha Hb. split.
  - intros He x. pose proof (equals_same_values a b x He) as Hx.
    unfold elem_of, elem_of_domain in Hx. apply eq_bool_prop_intro. by rewrite !Is_true_true.
  - intros Hx. apply equals_Forall2. split; [apply (Hx None)|].
    apply well_formed_canonical; [done..|]. intros v. pose proof (Hx (Some v)) as Hv.
    unfold elem_of, elem_of_ranges. simpl in Hv. by rewrite Hv.
Qed.
End Equality.

(** ** Instances *)

#[export] Instance Z_order : VariantOrder Z := {| vlt := Z.ltb; veq := Z.eqb |}.

#[export] Instance Z_order_laws : VariantOrderLaws Z.
Proof.
  split; simpl; intros *; rewrite ?Z.ltb_lt, ?Z.ltb_ge; lia.
Qed.

#[export] Instance Q_order : VariantOrder Q :=
  {| vlt a b := negb (Qle_bool b a); veq := Qeq_bool |}.

#[export] Instance Q_order_laws : VariantOrderLaws Q.
Proof.
  assert (Hlt : forall a b, vlt a b = true <-> (a < b)%Q).
  { intros a b. simpl. rewrite negb_true_iff, <- not_true_iff_false, Qle_bool_iff.
    split; [apply Qnot_le_lt|apply Qlt_not_le]. }
  assert (Hge : forall a b, vlt a b = false <-> (b <= a)%Q).
  { intros a b. simpl. by rewrite negb_false_iff, Qle_bool_iff. }
  split; intros *; rewrite ?Hlt, ?Hge.
  - apply Qle_refl.
  - apply Qlt_trans.
  - intros Hba Hcb. by apply (Qle_trans _ b).
  - simpl. rewrite !negb_involutive. apply eq_bool_prop_intro.
    rewrite !Is_true_true, andb_true_iff, Qeq_bool_iff, !Qle_bool_iff. split.
    + intros ->. split; apply Qle_refl.
    + intros []. by apply Qle_antisym.
Qed.

#[export] Instance Q_dense : DenseOrder Q.
Proof.
  assert (Hlt : forall a b : Q, vlt a b = true <-> (a < b)%Q).
  { intros a b. simpl. rewrite negb_true_iff, <- not_true_iff_false, Qle_bool_iff.
    split; [apply Qnot_le_lt|apply Qlt_not_le]. }
  split.
  - exact (inhabits 0%Q).
  - intros a b Hab%Hlt. exists ((a + b) * (1 # 2))%Q. rewrite !Hlt. split; lra.
  - intros b. exists (b - 1)%Q. apply Hlt. lra.
  - intros a. exists (a + 1)%Q. apply Hlt. lra.
Qed.

(** [{1} ∪ [3, 5)] in two ways. *)
Definition q_one : Domain Q := Domain.unite (Domain.singleValue 1%Q)
  (Domain.intersect (Domain.greaterThanOrEqual 3%Q) (Domain.lessThan 5%Q)).
Definition q_other : Domain Q := Domain.subtract
  (Domain.unite (Domain.in_ [1; 4]%Q)
     (Domain.intersect (Domain.greaterThanOrEqual 3%Q) (Domain.lessThanOrEqual 5%Q)))
  (Domain.singleValue 5%Q).

Theorem equals_iff_same_values_witness :
  domain_well_formed q_one = true /\ domain_well_formed q_other = true /\
  forall x, domain_contains q_one x = domain_contains q_other x.
Proof.
  split; [vm_compute; reflexivity|]. split; [vm_compute; reflexivity|].
  apply (equals_iff_same_values q_one q_other); vm_compute; reflexivity.
Defined.

(** The set of a three-operation domain, and its ranges. *)
Theorem domain_operations_are_set_operations_witness :
  let d := Domain.subtract (Domain.unite (Domain.in_ [7; 3; 7]) Domain.onlyNull)
             (Domain.greaterThan 5) in
  domain_well_formed d = true /\
  forall x, domain_contains d x = true <->
    (((exists v w, x = Some v /\ In w [7; 3; 7] /\ veq w v = true) \/ x = None) /\
     ~ (exists v, x = Some v /\ vlt 5 v = true)).
Proof.
  apply domain_operations_are_set_operations.
  apply denotes_subtract; [|apply denotes_greaterThan].
  apply (denotes_unite _ _ (fun x => exists v w, x = Some v /\ In w [7; 3; 7] /\ veq w v = true)
    (fun x => x = None)); [apply denotes_in|apply denotes_onlyNull].
Defined.

#[local] Arguments Z.eqb : simpl never.

(** On integers [operator==] tells apart domains of the same values, though it is
    documented to return true when both contain the same values, and [isNone] misses an
    empty one: the values between consecutive integers are not looked at. *)
Theorem integer_domains_not_canonical :
  (forall x : option Z,
     domain_contains (Domain.greaterThan 1) x = domain_contains (Domain.greaterThanOrEqual 2) x) /\
  Domain.equals (Domain.greaterThan 1) (Domain.greaterThanOrEqual 2) = false /\
  (forall x : option Z,
     domain_contains (Domain.intersect (Domain.greaterThan 1) (Domain.lessThan 2)) x = false) /\
  Domain.isNone (Domain.intersect (Domain.greaterThan 1) (Domain.lessThan 2)) = false.
Proof.
  split; [|split; [vm_compute; reflexivity|split; [|vm_compute; reflexivity]]].
  - intros [v|]; [|reflexivity]. simpl. unfold range_contains. simpl.
    destruct (Z.ltb_spec 1 v), (Z.ltb_spec 2 v), (Z.eqb_spec 2 v); simpl; reflexivity || lia.
  - intros [v|]; [|reflexivity]. simpl. unfold range_contains. simpl.
    destruct (Z.ltb_spec 1 v), (Z.ltb_spec v 2); simpl; reflexivity || lia.
Qed.
