(* ===== verification/Expressions.v ===== *)
(** * Expressions

    The expressions of the query graph ([Expr], [Literal], [Column], [Field], [Call]
    and [Lambda] of [axiom/optimizer/QueryGraph.h]) as trees whose nodes carry the
    id of their [PlanObject]: two pointers are equal when the ids are.  With them
    the function sets of [FunctionRegistry.h], [Call::unionArgFunctions],
    [Call::constantInList] and the names of the special forms.

    [velox::Type] and [velox::Variant] are the classes [TypeOps] and [VariantOps]:
    the methods the optimizer calls. *)

From S2P Require Import Prelude Domains.
From Stdlib Require Import ZArith Lia Ascii.

Open Scope Z_scope.

Set Warnings "-register-all".

(** ** Velox types and variants *)

(** The kinds the code names; [OTHER] numbers the rest. *)
Inductive TypeKind :=
  | BOOLEAN | TINYINT | SMALLINT | INTEGER | BIGINT | VARCHAR | ARRAY | ROW | OTHER (n : nat).

#[export] Instance TypeKind_eq_dec : EqDecision TypeKind.
Proof. solve_decision. Defined.

Definition is_integer_kind (kind : TypeKind) : bool :=
  match kind with TINYINT | SMALLINT | INTEGER | BIGINT => true | _ => false end.

(** [velox::Type]: the methods the code calls.  Types are interned, so pointers to
    them are compared for equality. *)
Class TypeOps (T : Type) := {
  type_eq_dec :: EqDecision T;
  type_kind : T -> TypeKind;
  isPrimitiveType : T -> bool;
  isDate : T -> bool;
  isIntervalDayTime : T -> bool;
  isIntervalYearMonth : T -> bool;
  isDecimal : T -> bool;
  isTime : T -> bool;
  childAt : T -> nat -> T;
  equivalent : T -> T -> bool;
  cppSizeInBytes : T -> Z;
  booleanType : T;
  arrayType : T -> T
}.

(** [velox::Variant]: the methods the code calls.  [integer] is
    [value<int8_t>()] to [value<int64_t>()], by the kind, and [of_integer] the
    constructor from the C++ type of a kind. *)
Class VariantOps (V : Type) `{VariantOrder V} := {
  isNull : V -> bool;
  kind : V -> TypeKind;
  integer : V -> Z;
  varchar : V -> list ascii;
  boolean : V -> bool;
  array : V -> list V;
  row : V -> list V;
  of_integer : TypeKind -> Z -> V;
  of_string : list ascii -> V;
  of_bool : bool -> V;
  of_array : list V -> V;
  null_of : TypeKind -> V
}.

Abbreviation of_int64 := (of_integer BIGINT).

(** ** Function sets *)

(** [FunctionSet]: a [uint64_t] of flags. *)
Abbreviation FunctionSet := N.

Module FunctionSet.
Definition kNonDeterministic : N := 2.
Definition kNonDefaultNullBehavior : N := 16.
Definition kInference : N := 64.
Definition contains (set item : FunctionSet) : bool := negb (N.land set item =? 0)%N.
End FunctionSet.

(** [queryCtx()->functionNames()]: names of a function registry; [None] is
    [nullptr], the name of a function the registry lacks. *)
Record FunctionNames := {
  equality : option string; negation : option string;
  lt : option string; lte : option string; gt : option string; gte : option string;
  isNullName : option string; distinctFrom : option string;
  between : option string; like : option string
}.

(** [SpecialFormCallNames] *)
Definition kAnd : string := "__and".
Definition kOr : string := "__or".
Definition kCast : string := "__cast".
Definition kTryCast : string := "__try_cast".
Definition kTry : string := "__try".
Definition kCoalesce : string := "__coalesce".
Definition kIf : string := "__if".
Definition kSwitch : string := "__switch".
Definition kIn : string := "__in".
Definition kNullIf : string := "__nullif".
Definition kDereference : string := "__dereference".
Definition kRowConstructor : string := "__row_constructor".

(** [SpecialFormCallNames::isSpecialForm] *)
Definition isSpecialForm (name : string) : bool :=
  existsb (String.eqb name)
    [kAnd; kOr; kCast; kTryCast; kTry; kCoalesce; kIf; kSwitch; kIn; kNullIf; kDereference;
     kRowConstructor].

(** [a == b] on interned names. *)
Definition name_is (a b : option string) : bool := bool_decide (a = b).

(** What Velox and the engine's registry say of functions:
    [AsyncRPCFunctionRegistry::find] (deterministic, default null behavior),
    [velox::isDeterministic], [velox::isDefaultNullBehavior], and whether
    [functionMetadata] is set. *)
Class FunctionRegistry := {
  inference : string -> option (bool * bool);
  isDeterministic : string -> option bool;
  isDefaultNullBehavior : string -> option bool;
  functionMetadata : string -> bool
}.

Definition function_flags (deterministic defaultNullBehavior : bool) : FunctionSet :=
  N.lor (if deterministic then 0 else FunctionSet.kNonDeterministic)
        (if defaultNullBehavior then 0 else FunctionSet.kNonDefaultNullBehavior).

Definition functionBits `{FunctionRegistry} (name : string) (specialForm : bool) :
    Result FunctionSet :=
  if specialForm then Ok FunctionSet.kNonDefaultNullBehavior
  else
    match inference name with
    | Some (deterministic, defaultNullBehavior) =>
        Ok (N.lor FunctionSet.kInference (function_flags deterministic defaultNullBehavior))
    | None =>
        match isDeterministic name with
        | None => velox_check (functionMetadata name) "Function not found" ≫= fun _ => Ok 0%N
        | Some deterministic =>
            match isDefaultNullBehavior name with
            | None => Throw (VeloxCheck "Function not found")
            | Some defaultNullBehavior => Ok (function_flags deterministic defaultNullBehavior)
            end
        end
    end.

(** ** Expressions *)

(** A column is its id; its type is [column->value().type]. *)
Record Column (T : Type) := mkColumn { column_id : nat; column_type : T }.
Arguments mkColumn {T} column_id column_type.
Arguments column_id {T} _.
Arguments column_type {T} _.

#[export] Instance Column_eq_dec {T} `{EqDecision T} : EqDecision (Column T).
Proof. solve_decision. Defined.

(** [Expr] by [PlanType], each with its [value().type] and [id()]; a [Field]
    selects by name or by index.  The other kinds (aggregates, windows) are what
    [is] makes of them, with their columns and functions. *)
Inductive Expr (T V : Type) :=
  | ColumnExpr (column : Column T)
  | LiteralExpr (literal : V) (type : T) (id : nat)
  | CallExpr (name : string) (args : list (Expr T V)) (type : T) (functions : FunctionSet)
      (id : nat)
  | FieldExpr (base : Expr T V) (field : string + Z) (type : T) (id : nat)
  | LambdaExpr (args : list (Column T)) (body : Expr T V) (type : T) (id : nat)
  | OtherExpr (columns : list (Column T)) (functions : FunctionSet) (type : T) (id : nat).
Arguments ColumnExpr {T V} column.
Arguments LiteralExpr {T V} literal type id.
Arguments CallExpr {T V} name args type functions id.
Arguments FieldExpr {T V} base field type id.
Arguments LambdaExpr {T V} args body type id.
Arguments OtherExpr {T V} columns functions type id.

Module Expr.
Section Expr.
Context {T V : Type}.

(** [expr->value().type] *)
Definition expr_type (expr : Expr T V) : T :=
  match expr with
  | ColumnExpr column => column_type column
  | LiteralExpr _ type _ | CallExpr _ _ type _ _ | FieldExpr _ _ type _
  | LambdaExpr _ _ type _ | OtherExpr _ _ type _ => type
  end.

(** [expr->id()]; the id of a column is the id of its object. *)
Definition expr_id (expr : Expr T V) : nat :=
  match expr with
  | ColumnExpr column => column_id column
  | LiteralExpr _ _ id | CallExpr _ _ _ _ id | FieldExpr _ _ _ id
  | LambdaExpr _ _ _ id | OtherExpr _ _ _ id => id
  end.

(** [a == b] on pointers. *)
Definition same (a b : Expr T V) : bool := Nat.eqb (expr_id a) (expr_id b).

(** [expr->columns()], as the columns themselves. *)
Fixpoint columns (expr : Expr T V) : list (Column T) :=
  match expr with
  | ColumnExpr column => [column]
  | LiteralExpr _ _ _ => []
  | CallExpr _ args _ _ _ => flat_map columns args
  | FieldExpr base _ _ _ => columns base
  | LambdaExpr args body _ _ =>
      List.filter
        (fun c => negb (existsb (fun arg => Nat.eqb (column_id arg) (column_id c)) args))
        (columns body)
  | OtherExpr columns _ _ _ => columns
  end.

(** [columns.size() == 1] and [columns.onlyObject<Column>()]: the ids are those of
    one column. *)
Definition onlyObject (columns : list (Column T)) : option (Column T) :=
  match columns with
  | [] => None
  | column :: rest =>
      if forallb (fun c => Nat.eqb (column_id c) (column_id column)) rest
      then Some column else None
  end.

Definition onlyColumn (expr : Expr T V) : option (Column T) := onlyObject (columns expr).

(** [expr->functions()] *)
Fixpoint functions (expr : Expr T V) : FunctionSet :=
  match expr with
  | ColumnExpr _ | LiteralExpr _ _ _ => 0%N
  | CallExpr _ _ _ functions _ | OtherExpr _ functions _ _ => functions
  | FieldExpr base _ _ _ => functions base
  | LambdaExpr _ body _ _ => functions body
  end.

Definition containsFunction (expr : Expr T V) (set : FunctionSet) : bool :=
  FunctionSet.contains (functions expr) set.
Definition containsNonDeterministic (expr : Expr T V) : bool :=
  containsFunction expr FunctionSet.kNonDeterministic.
Definition containsNonDefaultNullBehavior (expr : Expr T V) : bool :=
  containsFunction expr FunctionSet.kNonDefaultNullBehavior.

(** [Call::unionArgFunctions] *)
Definition unionArgFunctions (base : FunctionSet) (arguments : list (Expr T V)) : FunctionSet :=
  foldl (fun base argument => N.lor base (functions argument)) base arguments.

(** [is(PlanType::kLiteralExpr)] with [as<Literal>()->literal()] *)
Definition literal_of (expr : Expr T V) : option V :=
  match expr with LiteralExpr literal _ _ => Some literal | _ => None end.

(** The objects an expression points to; of the other kinds, the columns. *)
Definition children (expr : Expr T V) : list (Expr T V) :=
  match expr with
  | ColumnExpr _ | LiteralExpr _ _ _ => []
  | CallExpr _ args _ _ _ => args
  | FieldExpr base _ _ _ => [base]
  | LambdaExpr args body _ _ => map ColumnExpr args ++ [body]
  | OtherExpr columns _ _ _ => map ColumnExpr columns
  end.
End Expr.
End Expr.

(** [Call::constantInList]: the array of a constant [IN] list. *)
Definition constantInList {T V} `{TypeOps T} `{VariantOps V} (name : string)
    (args : list (Expr T V)) : option (list V) :=
  if negb (String.eqb name kIn) then None
  else match args with
       | [value; LiteralExpr literal type _] =>
           if negb (bool_decide (type_kind type = ARRAY)) || isNull literal ||
              negb (equivalent (childAt type 0) (Expr.expr_type value))
           then None else Some (array literal)
       | _ => None
       end.

(** Splits [Forall] of an explicit list. *)
Ltac each := repeat first [apply List.Forall_nil | apply List.Forall_cons].

(** ** Induction on expressions *)

Section Induction.
Context {T V : Type} (P : Expr T V -> Prop).
Hypothesis column_case : forall c, P (ColumnExpr c).
Hypothesis literal_case : forall v t i, P (LiteralExpr v t i).
Hypothesis call_case : forall name args t fs i, Forall P args -> P (CallExpr name args t fs i).
Hypothesis field_case : forall base f t i, P base -> P (FieldExpr base f t i).
Hypothesis lambda_case : forall args body t i, P body -> P (LambdaExpr args body t i).
Hypothesis other_case : forall cs fs t i, P (OtherExpr cs fs t i).

Fixpoint Expr_nested_ind (e : Expr T V) : P e :=
  match e with
  | ColumnExpr c => column_case c
  | LiteralExpr v t i => literal_case v t i
  | CallExpr name args t fs i => call_case name args t fs i
      ((fix go (args : list (Expr T V)) : Forall P args :=
          match args with
          | [] => List.Forall_nil P
          | arg :: args => List.Forall_cons P arg args (Expr_nested_ind arg) (go args)
          end) args)
  | FieldExpr base f t i => field_case base f t i (Expr_nested_ind base)
  | LambdaExpr args body t i => lambda_case args body t i (Expr_nested_ind body)
  | OtherExpr cs fs t i => other_case cs fs t i
  end.
End Induction.

(** Lists by pairs of elements, as the arguments of a conditional are read. *)
Lemma list_pairs_ind {A} (P : list A -> Prop) :
  P [] -> (forall x, P [x]) -> (forall x y l, P l -> P (x :: y :: l)) -> forall l, P l.
Proof.
  intros Hnil Hone Hpair.
  assert (Hl : forall l, P l /\ forall x, P (x :: l)).
  { induction l as [|y l [IH IHx]]; split; auto. }
  intros l. apply Hl.
Qed.
