(* ===== verification/ExprDomains.v ===== *)
(** * Domains of filter expressions

    Models the part of [axiom/optimizer/Domain.cpp] that turns a filter on one
    column into the domain of the values for which it is true (or false):
    [integralTypeDomain], [domainColumn], [normalizeLiteral], [comparisonDomain],
    [prefixUpperBound], [likePatternToDomain] and [exprToDomain], with
    [integerValue] of [PlanUtils.cpp] and [Call::constantInList] of
    [QueryGraph.cpp].

    [velox::Variant] and [velox::Type] are parameters ([VariantOps], [TypeOps],
    with their laws), and so is the evaluation of expressions, whose laws
    ([SqlLaws]) state SQL's three-valued logic.  The theorems: the conversion never
    throws; its domain holds every value that makes the filter true, and no other
    unless the filter uses [LIKE]; the range of a [LIKE] prefix is exact. *)

From Stdlib Require Import ZArith Lia Ascii.
From S2P Require Import Prelude Domains DomainSets Expressions.

Open Scope Z_scope.

Set Warnings "-register-all".

Inductive PredicateResult := kTrue | kFalse.

Definition opposite (result : PredicateResult) : PredicateResult :=
  match result with kTrue => kFalse | kFalse => kTrue end.

#[export] Instance PredicateResult_eq_dec : EqDecision PredicateResult.
Proof. solve_decision. Defined.

(** ** [prefixUpperBound] *)

(** [static_cast<unsigned char>] *)
Definition byte_value (c : ascii) : N := N_of_ascii c.

(** The loop of [prefixUpperBound], on the bytes from the last to the first. *)
Fixpoint prefixUpperBound_loop (reversed : list ascii) : option (list ascii) :=
  match reversed with
  | [] => None
  | back :: rest =>
      if negb (byte_value back =? 255)%N
      then Some (rev (ascii_of_N (byte_value back + 1) :: rest))
      else prefixUpperBound_loop rest
  end.

Definition prefixUpperBound (prefix : list ascii) : option (list ascii) :=
  prefixUpperBound_loop (rev prefix).

(** [text.find_first_of("%_")], as the bytes before it. *)
Definition is_wildcard (c : ascii) : bool := Ascii.eqb c "%" || Ascii.eqb c "_".

Fixpoint before_wildcard (text : list ascii) : list ascii :=
  match text with
  | [] => []
  | c :: text => if is_wildcard c then [] else c :: before_wildcard text
  end.

(** ** The conversion *)

Section Conversion.
Context {T V : Type} `{TypeOps T} `{VariantOps V}.
Variable functionNames : FunctionNames.

(** [std::numeric_limits] of the type's kind. *)
Definition integer_limits (kind : TypeKind) : option (Z * Z) :=
  match kind with
  | TINYINT => Some (- 2 ^ 7, 2 ^ 7 - 1)
  | SMALLINT => Some (- 2 ^ 15, 2 ^ 15 - 1)
  | INTEGER => Some (- 2 ^ 31, 2 ^ 31 - 1)
  | BIGINT => Some (- 2 ^ 63, 2 ^ 63 - 1)
  | _ => None
  end.

Definition integralTypeDomain (type : T) : option (Domain V) :=
  if isDate type || isIntervalDayTime type || isIntervalYearMonth type ||
     isDecimal type || isTime type
  then None
  else match integer_limits (type_kind type) with
       | Some (minimum, maximum) =>
           Some (Domain.intersect (Domain.greaterThanOrEqual (of_int64 minimum))
                   (Domain.lessThanOrEqual (of_int64 maximum)))
       | None => None
       end.

Definition has_value {A} (o : option A) : bool :=
  match o with Some _ => true | None => false end.

Fixpoint domainColumn (expr : Expr T V) : option (Column T) :=
  match expr with
  | ColumnExpr column => Some column
  | CallExpr name [arg] type _ _ =>
      if String.eqb name kCast || String.eqb name kTryCast then
        match domainColumn arg with
        | Some column =>
            if negb (has_value (integralTypeDomain (column_type column))) ||
               negb (has_value (integralTypeDomain type)) ||
               (cppSizeInBytes (column_type column) >? cppSizeInBytes type)
            then None else Some column
        | None => None
        end
      else None
  | _ => None
  end.

(** [domainColumn(expr) == column] *)
Definition is_column (column : Column T) (expr : Expr T V) : bool :=
  match domainColumn expr with
  | Some c => Nat.eqb (column_id c) (column_id column)
  | None => false
  end.

Definition nonNullDomain (column : Column T) : Domain V :=
  default Domain.notNull (integralTypeDomain (column_type column)).

(** [integerValue] of [PlanUtils.cpp] *)
Definition integerValue (variant : V) : Result Z :=
  velox_check (negb (isNull variant)) "Variant must be non-null" ≫= fun _ =>
  if is_integer_kind (kind variant) then Ok (integer variant)
  else Throw (VeloxCheck "integerValue").

Definition normalizeLiteral (column : Column T) (literal : V) : Result (option V) :=
  if isNull literal || negb (has_value (integralTypeDomain (column_type column)))
  then Ok (Some literal)
  else if is_integer_kind (kind literal)
  then integerValue literal ≫= fun n => Ok (Some (of_int64 n))
  else Ok None.

(** The factory of the values that make a comparison true. *)
Definition makeTrueValues (functionName : option string) : option (V -> Domain V) :=
  if name_is functionName (equality functionNames) then Some Domain.singleValue
  else if name_is functionName (lt functionNames) then Some Domain.lessThan
  else if name_is functionName (lte functionNames) then Some Domain.lessThanOrEqual
  else if name_is functionName (gt functionNames) then Some Domain.greaterThan
  else if name_is functionName (gte functionNames) then Some Domain.greaterThanOrEqual
  else None.

Definition comparisonDomain (column : Column T) (functionName : option string)
    (literal : V) (result : PredicateResult) : Result (option (Domain V)) :=
  if name_is functionName (distinctFrom functionNames) then
    value ← normalizeLiteral column literal;
    match value with
    | None => Ok None
    | Some value =>
        let nonNullValues := nonNullDomain column in
        let equalValues :=
          if isNull value then Domain.onlyNull
          else Domain.intersect (Domain.singleValue value) nonNullValues in
        let allValues := Domain.unite nonNullValues Domain.onlyNull in
        Ok (Some (match result with
                  | kTrue => Domain.subtract allValues equalValues
                  | kFalse => equalValues
                  end))
    end
  else
    match makeTrueValues functionName with
    | None => Ok None
    | Some makeTrueValues =>
        value ← normalizeLiteral column literal;
        match value with
        | None => Ok None
        | Some value =>
            if isNull value then Ok (Some Domain.none)
            else
              let validValues := nonNullDomain column in
              let trueValues := Domain.intersect (makeTrueValues value) validValues in
              Ok (Some (match result with
                        | kTrue => trueValues
                        | kFalse => Domain.subtract validValues trueValues
                        end))
        end
    end.

Definition likePatternToDomain (pattern : V) : option (Domain V) :=
  if isNull pattern || negb (bool_decide (kind pattern = VARCHAR)) then None
  else
    let text := varchar pattern in
    let prefix := before_wildcard text in
    if Nat.eqb (length prefix) (length text) then Some (Domain.singleValue pattern)
    else match prefix with
         | [] => None
         | _ =>
             let domain := Domain.greaterThanOrEqual (of_string prefix) in
             Some (match prefixUpperBound prefix with
                   | Some upper => Domain.intersect domain (Domain.lessThan (of_string upper))
                   | None => domain
                   end)
         end.

(** The loop over the elements of an [IN] list: the non-null values, and whether
    there was a null. *)
Fixpoint normalize_elements (column : Column T) (elements : list V) :
    Result (option (list V * bool)) :=
  match elements with
  | [] => Ok (Some ([], false))
  | element :: elements =>
      value ← normalizeLiteral column element;
      match value with
      | None => Ok None
      | Some value =>
          rest ← normalize_elements column elements;
          Ok (match rest with
              | None => None
              | Some (values, hasNull) =>
                  Some (if isNull value then (values, true) else (value :: values, hasNull))
              end)
      end
  end.

(** The branch of a constant [IN] list on the column. *)
Definition inListDomain (column : Column T) (inList : list V) (result : PredicateResult) :
    Result (option (Domain V)) :=
  elements ← normalize_elements column inList;
  Ok (match elements with
      | None => None
      | Some (values, hasNull) =>
          let trueValues := Domain.intersect (Domain.in_ values) (nonNullDomain column) in
          Some (match result with
                | kTrue => trueValues
                | kFalse =>
                    if (hasNull : bool) then Domain.none
                    else Domain.subtract (nonNullDomain column) trueValues
                end)
      end).

(** The comparison with its sides exchanged. *)
Definition reversedName (name : option string) : option string :=
  if name_is name (lt functionNames) then gt functionNames
  else if name_is name (lte functionNames) then gte functionNames
  else if name_is name (gt functionNames) then lt functionNames
  else if name_is name (gte functionNames) then lte functionNames
  else name.

(** [BETWEEN] of the column and two literals. *)
Definition betweenDomain (name : string) (arg0 arg1 arg2 : Expr T V) (column : Column T)
    (result : PredicateResult) : Result (option (Domain V)) :=
  match arg1, arg2 with
  | LiteralExpr low _ _, LiteralExpr high _ _ =>
      if name_is (Some name) (between functionNames) && is_column column arg0 then
        lower ← comparisonDomain column (gte functionNames) low result;
        upper ← comparisonDomain column (lte functionNames) high result;
        Ok (match lower, upper with
            | Some lower, Some upper =>
                Some (match result with
                      | kTrue => Domain.intersect lower upper
                      | kFalse => Domain.unite lower upper
                      end)
            | _, _ => None
            end)
      else Ok None
  | _, _ => Ok None
  end.

(** [IN], [LIKE] and the comparisons: the column and a literal.  An argument that
    is the column is no literal, so at most one of the branches applies. *)
Definition binaryDomain (name : string) (arg0 arg1 : Expr T V) (column : Column T)
    (result : PredicateResult) : Result (option (Domain V)) :=
  match constantInList name [arg0; arg1], is_column column arg0 with
  | Some inList, true => inListDomain column inList result
  | _, _ =>
      match arg0, arg1 with
      | _, LiteralExpr literal _ _ =>
          if is_column column arg0 then
            if name_is (Some name) (like functionNames) && bool_decide (result = kTrue)
            then Ok (likePatternToDomain literal)
            else comparisonDomain column (Some name) literal result
          else Ok None
      | LiteralExpr literal _ _, _ =>
          if is_column column arg1
          then comparisonDomain column (reversedName (Some name)) literal result
          else Ok None
      | _, _ => Ok None
      end
  end.

(** The branches that look at a call without recursing, by the number of
    arguments each requires. *)
Definition callDomain (name : string) (args : list (Expr T V)) (column : Column T)
    (result : PredicateResult) : Result (option (Domain V)) :=
  match args with
  | [arg] =>
      if name_is (Some name) (isNullName functionNames) && is_column column arg
      then Ok (Some (match result with
                     | kTrue => Domain.onlyNull
                     | kFalse => nonNullDomain column
                     end))
      else Ok None
  | [arg0; arg1] => binaryDomain name arg0 arg1 column result
  | [arg0; arg1; arg2] => betweenDomain name arg0 arg1 arg2 column result
  | _ => Ok None
  end.

(** The loop over the further arguments of AND and OR; [convert] is the recursive
    call. *)
Definition combine_args (convert : Expr T V -> Result (option (Domain V)))
    (intersect : bool) : option (Domain V) -> list (Expr T V) -> Result (option (Domain V)) :=
  fix loop domain args :=
    match domain with
    | None => Ok None
    | Some d =>
        match args with
        | [] => Ok (Some d)
        | arg :: args =>
            next ← convert arg;
            loop (match next with
                  | None => None
                  | Some next => Some (if intersect then Domain.intersect d next
                                       else Domain.unite d next)
                  end) args
        end
    end.

(** The values for which [expr], a filter on [column], is true (or false). *)
Fixpoint exprToDomain_column (expr : Expr T V) (column : Column T)
    (result : PredicateResult) : Result (option (Domain V)) :=
  match expr with
  | CallExpr name args type _ _ =>
      if name_is (Some name) (negation functionNames) && Nat.eqb (length args) 1 then
        match args with
        | [arg] => exprToDomain_column arg column (opposite result)
        | _ => Ok None
        end
      else if String.eqb name kAnd || String.eqb name kOr then
        let intersect := Bool.eqb (String.eqb name kAnd) (bool_decide (result = kTrue)) in
        match args with
        | [] => Ok None
        | front :: rest =>
            domain ← exprToDomain_column front column result;
            combine_args (fun arg => exprToDomain_column arg column result) intersect domain rest
        end
      else callDomain name args column result
  | _ => Ok None
  end.

(** [exprToDomain(expr)] *)
Definition exprToDomain (expr : Expr T V) : Result (option (Domain V)) :=
  match Expr.onlyColumn expr with
  | Some column => exprToDomain_column expr column kTrue
  | None => Ok None
  end.
End Conversion.

(** ** Bytes in [VARCHAR] order *)

(** Lexicographic order. *)
Fixpoint lex_lt (a b : list Z) : bool :=
  match a, b with
  | _, [] => false
  | [], _ => true
  | x :: a, y :: b => (x <? y) || ((x =? y) && lex_lt a b)
  end.

Definition bytes (s : list ascii) : list Z := map (fun c => Z.of_N (byte_value c)) s.

(** [lhs < rhs] of [std::string], byte-wise and unsigned. *)
Definition bytes_lt (a b : list ascii) : bool := lex_lt (bytes a) (bytes b).

Fixpoint starts_with (prefix s : list ascii) : bool :=
  match prefix, s with
  | [], _ => true
  | c :: prefix, d :: s => Ascii.eqb c d && starts_with prefix s
  | _, [] => false
  end.

Lemma lex_lt_irrefl a : lex_lt a a = false.
Proof. induction a as [|x a IH]; [done|]. simpl. by rewrite Z.ltb_irrefl, Z.eqb_refl. Qed.

Lemma lex_lt_trans a b c : lex_lt a b = true -> lex_lt b c = true -> lex_lt a c = true.
Proof.
  revert b c. induction a as [|x a IH]; intros [|y b] [|z c]; simpl; try done.
  rewrite !orb_true_iff, !andb_true_iff, !Z.ltb_lt, !Z.eqb_eq.
  intros [?|[-> Hab]] [?|[-> Hbc]]; try (left; lia). right. eauto.
Qed.

Lemma lex_lt_incomparable a b c :
  lex_lt a b = false -> lex_lt b c = false -> lex_lt a c = false.
Proof.
  revert b c. induction a as [|x a IH]; intros [|y b] [|z c]; simpl; try done.
  rewrite !orb_false_iff, !andb_false_iff, !Z.ltb_ge, !Z.eqb_neq.
  intros [? [?|Hab]] [? [?|Hbc]]; split; try lia; try (left; lia).
  destruct (decide (x = z)) as [->|]; [right|by left]. eauto.
Qed.

Lemma byte_value_inj c d : byte_value c = byte_value d -> c = d.
Proof.
  unfold byte_value. intros Hcd. by rewrite <- (ascii_N_embedding c), Hcd, ascii_N_embedding.
Qed.

Lemma byte_value_bounded c : (byte_value c < 256)%N.
Proof. apply N_ascii_bounded. Qed.

(** Comparing strings with a longer one and with its prefix. *)
Lemma bytes_lt_cons c d a b :
  bytes_lt (c :: a) (d :: b) =
  (byte_value c <? byte_value d)%N || (Ascii.eqb c d && bytes_lt a b).
Proof.
  unfold bytes_lt. simpl. f_equal.
  - destruct (Z.ltb_spec (Z.of_N (byte_value c)) (Z.of_N (byte_value d))),
      (N.ltb_spec (byte_value c) (byte_value d)); done || lia.
  - f_equal. destruct (Ascii.eqb_spec c d) as [->|Hn]; [apply Z.eqb_refl|].
    apply Z.eqb_neq. intros Heq%N2Z.inj. by apply Hn, byte_value_inj.
Qed.

(** Strings that start with [prefix] are those from it up to the first string
    above them all. *)
Lemma starts_with_ge prefix s : starts_with prefix s = true -> bytes_lt s prefix = false.
Proof.
  revert s. induction prefix as [|c prefix IH]; intros [|d s]; try done.
  simpl. intros [<-%Ascii.eqb_eq Hs]%andb_true_iff.
  by rewrite bytes_lt_cons, N.ltb_irrefl, Ascii.eqb_refl, IH.
Qed.

(** Strings of the bytes 255 alone bound their extensions from below only. *)
Definition all_ff (s : list ascii) : Prop := Forall (fun c => byte_value c = 255%N) s.

Lemma all_ff_starts_with prefix s :
  all_ff prefix -> starts_with prefix s = true <-> bytes_lt s prefix = false.
Proof.
  intros Hff. split; [apply starts_with_ge|]. revert s.
  induction Hff as [|c prefix Hc _ IH]; intros [|d s]; simpl; try done.
  rewrite bytes_lt_cons, orb_false_iff, andb_false_iff. intros [Hd Hs].
  apply N.ltb_ge in Hd. pose proof (byte_value_bounded d).
  assert (d = c) as -> by (apply byte_value_inj; lia).
  rewrite Ascii.eqb_refl in *. simpl. apply IH. by destruct Hs.
Qed.

(** The bound of a prefix that ends in a byte to increment, then bytes 255. *)
Lemma upper_bound_exact front c c' ffs s :
  byte_value c' = (byte_value c + 1)%N -> all_ff ffs ->
  starts_with (front ++ c :: ffs) s = true <->
  bytes_lt s (front ++ c :: ffs) = false /\ bytes_lt s (front ++ [c']) = true.
Proof.
  intros Hc' Hff. revert s. induction front as [|b front IH]; intros [|d s]; simpl;
    try (split; [done|by intros [? _]]).
  - rewrite !bytes_lt_cons. rewrite andb_true_iff, (all_ff_starts_with _ s Hff).
    destruct (Ascii.eqb_spec d c) as [->|Hdc].
    + rewrite Ascii.eqb_refl, N.ltb_irrefl. simpl. rewrite Hc'.
      destruct (N.ltb_spec (byte_value c) (byte_value c + 1)); [|lia]. simpl. tauto.
    + rewrite (proj2 (Ascii.eqb_neq c d)) by done. simpl. rewrite orb_false_r. split; [by intros []|].
      intros [Hge Hlt]. exfalso. apply N.ltb_ge in Hge.
      assert (bytes_lt s [] = false) as Hs by (by destruct s). rewrite Hs, andb_false_r, orb_false_r in Hlt.
      apply N.ltb_lt in Hlt. apply Hdc, byte_value_inj. lia.
  - rewrite !bytes_lt_cons. destruct (Ascii.eqb_spec b d) as [->|Hbd].
    + rewrite !Ascii.eqb_refl, N.ltb_irrefl. apply IH.
    + rewrite (proj2 (Ascii.eqb_neq d b)) by done. simpl. rewrite orb_false_r. split; [done|].
      intros [Hge Hlt]. by rewrite Hlt in Hge.
Qed.

Lemma prefixUpperBound_loop_spec reversed :
  match prefixUpperBound_loop reversed with
  | Some upper =>
      exists front c c' ffs,
        rev reversed = front ++ c :: ffs /\ upper = front ++ [c'] /\
        byte_value c' = (byte_value c + 1)%N /\ all_ff ffs
  | None => all_ff (rev reversed)
  end.
Proof.
  induction reversed as [|c rest IH]; simpl; [constructor|].
  destruct (N.eqb_spec (byte_value c) 255) as [Hc|Hc]; simpl.
  - destruct (prefixUpperBound_loop rest) as [upper|].
    + destruct IH as (front & b & b' & ffs & -> & -> & Hb & Hff).
      exists front, b, b', (ffs ++ [c]). rewrite <- app_assoc. repeat split; [done|].
      apply Forall_app. split; [done|]. by constructor.
    + apply Forall_app. split; [done|]. by constructor.
  - exists (rev rest), c, (ascii_of_N (byte_value c + 1)), []. repeat split; [|constructor].
    pose proof (byte_value_bounded c). unfold byte_value at 1. apply N_ascii_embedding. lia.
Qed.

Lemma prefix_range prefix s :
  starts_with prefix s = true <->
  bytes_lt s prefix = false /\
  match prefixUpperBound prefix with
  | Some upper => bytes_lt s upper = true
  | None => True
  end.
Proof.
  unfold prefixUpperBound. pose proof (prefixUpperBound_loop_spec (rev prefix)) as Hspec.
  rewrite rev_involutive in Hspec. destruct (prefixUpperBound_loop (rev prefix)).
  - destruct Hspec as (front & c & c' & ffs & -> & -> & Hc & Hff). by apply upper_bound_exact.
  - rewrite (all_ff_starts_with _ s Hspec). tauto.
Qed.

(** The bound [prefixUpperBound] gives a [LIKE] prefix is exact: the strings from
    the prefix (inclusive) to the bound (exclusive), or to the end when every byte
    is 255, are the strings that start with the prefix, no others. *)
Theorem prefixUpperBound_exact prefix s :
  starts_with prefix s = true <->
  bytes_lt s prefix = false /\
  match prefixUpperBound prefix with
  | Some upper => bytes_lt s upper = true
  | None => True
  end.
Proof. apply prefix_range. Qed.

(** ** The conversion never throws *)

Section Totality.
Context {T V : Type} `{TypeOps T} `{VariantOps V} (functionNames : FunctionNames).
Implicit Types (column : Column T) (expr : Expr T V).

Lemma normalizeLiteral_ok column literal : exists v, normalizeLiteral column literal = Ok v.
Proof.
  unfold normalizeLiteral, integerValue. destruct (isNull literal) eqn:En; simpl; [by eexists|].
  destruct (has_value _); simpl; [|by eexists].
  destruct (is_integer_kind (kind literal)) eqn:Ek; by eexists.
Qed.

Lemma comparisonDomain_ok column name literal result :
  exists d, comparisonDomain functionNames column name literal result = Ok d.
Proof.
  unfold comparisonDomain. destruct (normalizeLiteral_ok column literal) as [[v|] ->];
    destruct (name_is _ _), (makeTrueValues (V:=V) functionNames name); simpl; try destruct (isNull _); by eexists.
Qed.

Lemma normalize_elements_ok column elements :
  exists r, normalize_elements column elements = Ok r.
Proof.
  induction elements as [|element elements [r IH]]; simpl; [by eexists|].
  destruct (normalizeLiteral_ok column element) as [[v|] ->]; simpl; [|by eexists].
  rewrite IH. simpl. by eexists.
Qed.

Lemma inListDomain_ok column inList result :
  exists d, inListDomain column inList result = Ok d.
Proof.
  unfold inListDomain. destruct (normalize_elements_ok column inList) as [r ->]. by eexists.
Qed.

Lemma callDomain_ok name args column result :
  exists d, callDomain functionNames name args column result = Ok d.
Proof.
  unfold callDomain, binaryDomain, betweenDomain.
  repeat first
    [ apply comparisonDomain_ok | apply inListDomain_ok | by eexists
    | match goal with
      | |- context [comparisonDomain ?f ?c ?n ?l ?r ≫= _] =>
          destruct (comparisonDomain_ok c n l r) as [? ->]; simpl
      | |- context [match ?x with _ => _ end] => destruct x
      end ].
Qed.

(** [exprToDomain] never throws: [integerValue] is only called on non-null
    literals of an integer kind, and [literalAt] only on literals. *)
Theorem exprToDomain_never_throws expr :
  exists d, exprToDomain functionNames expr = Ok d.
Proof.
  unfold exprToDomain. destruct (Expr.onlyColumn expr) as [column|]; [|by eexists].
  generalize kTrue as result.
  induction expr as [| |name args type fs i IH| | |] using Expr_nested_ind; intros result;
    try by eexists.
  simpl. destruct (name_is _ _ && _).
  { destruct args as [|arg [|]]; try by eexists. inversion IH; subst. eauto. }
  destruct (_ || _); [|apply callDomain_ok].
  destruct args as [|front rest]; [by eexists|]. inversion IH as [|? ? Hfront Hrest]; subst.
  destruct (Hfront result) as [d ->]. simpl. clear IH Hfront. revert d.
  induction Hrest as [|arg rest Harg _ IH]; intros [d|]; try by eexists.
  simpl. destruct (Harg result) as [next ->]. simpl. apply IH.
Qed.
End Totality.

(** ** What Velox documents *)

(** The C++ types of the integer kinds are [int8_t] to [int64_t]. *)
Class TypeLaws (T : Type) `{TypeOps T} : Prop := {
  cppSize_tinyint (t : T) : type_kind t = TINYINT -> cppSizeInBytes t = 1;
  cppSize_smallint (t : T) : type_kind t = SMALLINT -> cppSizeInBytes t = 2;
  cppSize_integer (t : T) : type_kind t = INTEGER -> cppSizeInBytes t = 4;
  cppSize_bigint (t : T) : type_kind t = BIGINT -> cppSizeInBytes t = 8;
  integer_primitive (t : T) : is_integer_kind (type_kind t) = true -> isPrimitiveType t = true;
  booleanType_kind : type_kind (booleanType (T:=T)) = BOOLEAN;
  booleanType_primitive : isPrimitiveType (booleanType (T:=T)) = true;
  arrayType_kind (t : T) : type_kind (arrayType t) = ARRAY;
  arrayType_child (t : T) : childAt (arrayType t) 0 = t;
  equivalent_refl (t : T) : equivalent t t = true;
  equivalent_sym (s t : T) : equivalent s t = true -> equivalent t s = true;
  equivalent_trans (s t u : T) :
    equivalent s t = true -> equivalent t u = true -> equivalent s u = true
}.

Definition in_limits (kind : TypeKind) (n : Z) : Prop :=
  match integer_limits kind with
  | Some (minimum, maximum) => minimum <= n <= maximum
  | None => False
  end.

(** Integers and strings in variants, and how variants of one kind compare. *)
Class VariantLaws (V : Type) `{VariantOps V} : Prop := {
  variant_order :: VariantOrderLaws V;
  integer_in_limits (v : V) :
    isNull v = false -> is_integer_kind (kind v) = true -> in_limits (kind v) (integer v);
  isNull_of_integer k n : is_integer_kind k = true -> isNull (of_integer k n : V) = false;
  kind_of_integer k n : is_integer_kind k = true -> kind (of_integer k n : V) = k;
  integer_of_integer k n : in_limits k n -> integer (of_integer k n : V) = n;
  vlt_bigint (u v : V) :
    isNull u = false -> isNull v = false -> kind u = BIGINT -> kind v = BIGINT ->
    vlt u v = (integer u <? integer v);
  isNull_of_string s : isNull (of_string s : V) = false;
  kind_of_string s : kind (of_string s : V) = VARCHAR;
  varchar_of_string s : varchar (of_string s : V) = s;
  vlt_varchar (u v : V) :
    isNull u = false -> isNull v = false -> kind u = VARCHAR -> kind v = VARCHAR ->
    vlt u v = bytes_lt (varchar u) (varchar v);
  isNull_of_bool b : isNull (of_bool b : V) = false;
  kind_of_bool b : kind (of_bool b : V) = BOOLEAN;
  boolean_of_bool b : boolean (of_bool b : V) = b;
  isNull_of_array vs : isNull (of_array vs : V) = false;
  kind_of_array vs : kind (of_array vs : V) = ARRAY;
  array_of_array vs : array (of_array vs : V) = vs;
  isNull_null_of k : isNull (null_of k : V) = true;
  kind_null_of k : kind (null_of k : V) = k
}.

Lemma isNull_of_int64 {V} `{VariantLaws V} n : isNull (of_int64 n : V) = false.
Proof. by apply isNull_of_integer. Qed.
Lemma kind_of_int64 {V} `{VariantLaws V} n : kind (of_int64 n : V) = BIGINT.
Proof. by apply kind_of_integer. Qed.
Lemma integer_of_int64 {V} `{VariantLaws V} n :
  in_limits BIGINT n -> integer (of_int64 n : V) = n.
Proof. apply integer_of_integer. Qed.


(** *** SQL's three truth values; [None] is [NULL]. *)

Definition not3 (a : option bool) : option bool := negb <$> a.

Definition and3 (a b : option bool) : option bool :=
  match a, b with
  | Some false, _ | _, Some false => Some false
  | Some true, Some true => Some true
  | _, _ => None
  end.

Definition or3 (a b : option bool) : option bool :=
  match a, b with
  | Some true, _ | _, Some true => Some true
  | Some false, Some false => Some false
  | _, _ => None
  end.

(** A function of non-null values that is [NULL] on [NULL]. *)
Definition strict {V} (f : V -> V -> bool) (a b : option V) : option bool :=
  match a, b with Some u, Some v => Some (f u v) | _, _ => None end.

Inductive Comparison := Equal | Less | LessEqual | Greater | GreaterEqual.

Section Sql.
Context {T V : Type} `{TypeOps T} `{VariantOps V} (functionNames : FunctionNames).

Definition comparison_name (op : Comparison) : option string :=
  match op with
  | Equal => equality functionNames
  | Less => lt functionNames
  | LessEqual => lte functionNames
  | Greater => gt functionNames
  | GreaterEqual => gte functionNames
  end.

(** A comparison in terms of an order. *)
Definition comparison_holds (less : V -> V -> bool) (op : Comparison) (u v : V) : bool :=
  match op with
  | Equal => negb (less u v) && negb (less v u)
  | Less => less u v
  | LessEqual => negb (less v u)
  | Greater => less v u
  | GreaterEqual => negb (less u v)
  end.

Definition literal_value (v : V) : option V := if isNull v then None else Some v.

(** [u IN (elements)]. *)
Fixpoint in3 (less : V -> V -> bool) (u : V) (elements : list V) : option bool :=
  match elements with
  | [] => Some false
  | e :: elements =>
      or3 (strict (comparison_holds less Equal) (Some u) (literal_value e))
          (in3 less u elements)
  end.

(** Comparing values of complex types can be [NULL] because of an element that is. *)
Definition primitive (expr : Expr T V) : bool := isPrimitiveType (Expr.expr_type expr).

(** The value [val e x] and, for a boolean expression, the truth [truth e x] of an
    expression on a row whose [column] holds [x] ([None] for [NULL]); [less] is
    the engine's order of values.  Each law is the SQL meaning of one function.
    The value of BETWEEN with a [NULL] bound differs between dialects: no law. *)
Record SqlLaws (column : Column T) (val : Expr T V -> option V -> option V)
    (truth : Expr T V -> option V -> option bool) (less : V -> V -> bool) : Prop := {
  less_integers u v :
    isNull u = false -> isNull v = false ->
    is_integer_kind (kind u) = true -> is_integer_kind (kind v) = true ->
    less u v = (integer u <? integer v);
  less_same_kind u v :
    isNull u = false -> isNull v = false -> kind u = kind v -> less u v = vlt u v;
  val_column c x : column_id c = column_id column -> val (ColumnExpr c) x = x;
  val_literal v t i x : val (LiteralExpr v t i) x = literal_value v;
  val_cast_null name arg t fs i x :
    name = kCast \/ name = kTryCast -> val arg x = None ->
    val (CallExpr name [arg] t fs i) x = None;
  val_cast_integer name arg t fs i x u :
    name = kCast \/ name = kTryCast -> val arg x = Some u ->
    isNull u = false -> is_integer_kind (kind u) = true ->
    has_value (integralTypeDomain (V:=V) t) = true -> in_limits (type_kind t) (integer u) ->
    exists u', val (CallExpr name [arg] t fs i) x = Some u' /\
      isNull u' = false /\ kind u' = type_kind t /\ integer u' = integer u;
  truth_not arg name t fs i x :
    negation functionNames = Some name ->
    truth (CallExpr name [arg] t fs i) x = not3 (truth arg x);
  truth_and args t fs i x :
    truth (CallExpr kAnd args t fs i) x =
      fold_right and3 (Some true) (map (fun e => truth e x) args);
  truth_or args t fs i x :
    truth (CallExpr kOr args t fs i) x =
      fold_right or3 (Some false) (map (fun e => truth e x) args);
  truth_isNull arg name t fs i x :
    isNullName functionNames = Some name ->
    truth (CallExpr name [arg] t fs i) x = Some (negb (has_value (val arg x)));
  truth_compare op a b name t fs i x :
    comparison_name op = Some name -> primitive a = true -> primitive b = true ->
    truth (CallExpr name [a; b] t fs i) x =
      strict (comparison_holds less op) (val a x) (val b x);
  truth_distinctFrom a b name t fs i x :
    distinctFrom functionNames = Some name -> primitive a = true -> primitive b = true ->
    truth (CallExpr name [a; b] t fs i) x =
      Some (match val a x, val b x with
            | None, None => false
            | Some u, Some v => negb (comparison_holds less Equal u v)
            | _, _ => true
            end);
  truth_between a b c name t fs i x :
    between functionNames = Some name ->
    primitive a = true -> primitive b = true -> primitive c = true ->
    val b x <> None -> val c x <> None ->
    truth (CallExpr name [a; b; c] t fs i) x =
      and3 (strict (comparison_holds less GreaterEqual) (val a x) (val b x))
           (strict (comparison_holds less LessEqual) (val a x) (val c x));
  truth_in a b t fs i elements x :
    constantInList kIn [a; b] = Some elements -> primitive a = true ->
    truth (CallExpr kIn [a; b] t fs i) x =
      match val a x with Some u => in3 less u elements | None => None end;
  truth_like a p tp ip name t fs i x :
    like functionNames = Some name ->
    isNull p = false -> kind p = VARCHAR ->
    truth (CallExpr name [a; LiteralExpr p tp ip] t fs i) x = Some true ->
    exists u, val a x = Some u /\ isNull u = false /\ kind u = VARCHAR /\
      starts_with (before_wildcard (varchar p)) (varchar u) = true /\
      (before_wildcard (varchar p) = varchar p -> varchar u = varchar p)
}.

(** A registry with all comparisons, under names of their own. *)
Record CompleteRegistry : Prop := {
  has_comparison op : comparison_name op <> None;
  comparisons_distinct : NoDup (map comparison_name [Equal; Less; LessEqual; Greater; GreaterEqual]);
  comparison_not_distinctFrom op : comparison_name op <> distinctFrom functionNames
}.

(** A row of the column: values have the column's kind. *)
Definition row_typed (column : Column T) (x : option V) : Prop :=
  match x with
  | None => True
  | Some u => isNull u = false /\ kind u = type_kind (column_type column)
  end.

(** Type checking: what the column is compared with has its kind, unless the
    column's type is an integral one. *)
Definition literal_typed (column : Column T) (v : V) : bool :=
  has_value (integralTypeDomain (V:=V) (column_type column)) || isNull v ||
  bool_decide (kind v = type_kind (column_type column)).

Definition argument_typed (column : Column T) (arg : Expr T V) : bool :=
  match arg with
  | LiteralExpr v t _ => literal_typed column v && isPrimitiveType t
  | _ => true
  end.

(** BETWEEN has bounds. *)
Definition bounds_given (name : string) (args : list (Expr T V)) : bool :=
  negb (name_is (Some name) (between functionNames)) ||
  forallb (fun arg => match Expr.literal_of arg with Some v => negb (isNull v) | None => true end)
    args.

(** The functions that compare their arguments. *)
Definition compares (name : string) : bool :=
  existsb (name_is (Some name))
    [equality functionNames; lt functionNames; lte functionNames; gt functionNames;
     gte functionNames; distinctFrom functionNames; between functionNames].

(** What the column is compared with is of its type. *)
Definition call_typed (column : Column T) (name : string) (args : list (Expr T V)) : bool :=
  match constantInList name args with
  | Some elements =>
      negb (existsb (is_column (V:=V) column) args) || forallb (literal_typed column) elements
  | None =>
      negb (compares name && existsb (is_column (V:=V) column) args) ||
      (forallb (argument_typed column) args && bounds_given name args)
  end.

Fixpoint well_typed (column : Column T) (expr : Expr T V) : bool :=
  match expr with
  | CallExpr name args _ _ _ =>
      call_typed column name args && forallb (well_typed column) args
  | _ => true
  end.

(** Ids identify columns. *)
Definition ids_identify (column : Column T) (expr : Expr T V) : Prop :=
  Forall (fun c => column_id c = column_id column -> c = column) (Expr.columns expr).

(** A [LIKE] of the column. *)
Fixpoint uses_like (column : Column T) (expr : Expr T V) : bool :=
  match expr with
  | CallExpr name args _ _ _ =>
      (name_is (Some name) (like functionNames) &&
       match args with arg :: _ => is_column (V:=V) column arg | [] => false end) ||
      existsb (uses_like column) args
  | _ => false
  end.

(** A row's value as it appears in the domain: integral values as [int64]. *)
Definition domain_value (column : Column T) (u : V) : V :=
  if has_value (integralTypeDomain (V:=V) (column_type column))
  then of_int64 (integer u) else u.
End Sql.

(** ** Soundness *)

Section Soundness.
Context {T V : Type} `{TypeLaws T} `{VariantLaws V} (functionNames : FunctionNames).
Context (column : Column T) (val : Expr T V -> option V -> option V)
  (truth : Expr T V -> option V -> option bool) (less : V -> V -> bool).
Context (Hsql : SqlLaws functionNames column val truth less)
  (Hregistry : CompleteRegistry functionNames)
  (Hprimitive : isPrimitiveType (column_type column) = true).
Implicit Types (x : option V) (d : Domain V).

Abbreviation integral t := (has_value (integralTypeDomain (V:=V) t)).
Abbreviation wf := domain_well_formed.
Abbreviation row_value x := (domain_value column <$> x).

Lemma intersect_sound a b x :
  wf a = true -> wf b = true ->
  wf (Domain.intersect a b) = true /\ (x ∈ Domain.intersect a b <-> x ∈ a /\ x ∈ b).
Proof. intros. split; [by apply intersect_well_formed|by apply elem_of_intersect_domain]. Qed.

Lemma subtract_sound a b x :
  wf a = true -> wf b = true ->
  wf (Domain.subtract a b) = true /\ (x ∈ Domain.subtract a b <-> x ∈ a /\ ~ x ∈ b).
Proof.
  intros Ha Hb. pose proof (complement_well_formed b Hb) as Hc. unfold Domain.subtract.
  rewrite <- (elem_of_complement x b Hb). by apply intersect_sound.
Qed.

Lemma in_limits_bigint k n : in_limits k n -> in_limits BIGINT n.
Proof. unfold in_limits. destruct k; simpl; lia. Qed.

(** [integralTypeDomain] is the range of the type. *)
Lemma integralTypeDomain_spec t d :
  integralTypeDomain t = Some d ->
  is_integer_kind (type_kind t) = true /\ wf d = true /\ ~ None ∈ d /\
  forall n, in_limits (type_kind t) n -> Some (of_int64 n) ∈ d.
Proof.
  unfold integralTypeDomain. destruct (_ || _); [done|].
  destruct (integer_limits (type_kind t)) as [[lo hi]|] eqn:El; [|done].
  intros [= <-].
  assert (Hk : is_integer_kind (type_kind t) = true) by (by destruct (type_kind t)).
  assert (Hlo : in_limits BIGINT lo /\ in_limits BIGINT hi).
  { unfold in_limits. destruct (type_kind t); try done; injection El as <- <-; simpl; lia. }
  destruct Hlo as [Hlo Hhi].
  assert (Hlt : forall a b, in_limits BIGINT a -> in_limits BIGINT b ->
    vlt (of_int64 a : V) (of_int64 b) = (a <? b)).
  { intros a b Ha Hb. rewrite vlt_bigint; rewrite ?isNull_of_int64, ?kind_of_int64; try done.
    by rewrite !integer_of_int64. }
  destruct (intersect_sound (Domain.greaterThanOrEqual (of_int64 lo))
    (Domain.lessThanOrEqual (of_int64 hi)) None) as [Hwf _]; [done..|].
  repeat split; [done..|]. intros n Hn.
  pose proof (in_limits_bigint _ _ Hn) as Hn'.
  unfold in_limits in Hn. rewrite El in Hn.
  apply (elem_of_intersect_domain (Some (of_int64 n))); [done..|]. split.
  - apply elem_of_factories. eexists. split; [done|]. rewrite Hlt by done. apply Z.ltb_ge. lia.
  - apply elem_of_factories. eexists. split; [done|]. rewrite Hlt by done. apply Z.ltb_ge. lia.
Qed.

(** [nonNullDomain] holds the values of rows, but not [NULL]. *)
Lemma nonNullDomain_spec :
  wf (nonNullDomain column) = true /\
  forall x, row_typed column x -> row_value x ∈ nonNullDomain column <-> x <> None.
Proof.
  unfold nonNullDomain, domain_value.
  destruct (integralTypeDomain (column_type column)) as [d|] eqn:Ed; simpl.
  - destruct (integralTypeDomain_spec _ _ Ed) as (Hk & Hwf & Hn & Hin). split; [done|].
    intros [u|] Hx; simpl in *; [|tauto]. split; [done|]. intros _.
    destruct Hx as [Hu Hku]. apply Hin. rewrite <- Hku. apply integer_in_limits; [done|by rewrite Hku].
  - split; [done|]. intros x Hx. rewrite elem_of_notNull. by destruct x.
Qed.

Lemma integral_kind t : integral t = true -> is_integer_kind (type_kind t) = true.
Proof.
  destruct (integralTypeDomain t) as [d|] eqn:E; [|done]. intros _.
  by apply integralTypeDomain_spec in E as [? _].
Qed.

(** A wider C++ type has wider limits. *)
Lemma limits_widen (s t : T) n :
  is_integer_kind (type_kind s) = true -> is_integer_kind (type_kind t) = true ->
  cppSizeInBytes s <= cppSizeInBytes t ->
  in_limits (type_kind s) n -> in_limits (type_kind t) n.
Proof.
  intros Hs Ht. unfold in_limits.
  destruct (type_kind s) eqn:Es; try done; destruct (type_kind t) eqn:Et; try done; simpl; try lia;
    repeat match goal with
    | H : type_kind ?u = TINYINT |- _ => apply cppSize_tinyint in H
    | H : type_kind ?u = SMALLINT |- _ => apply cppSize_smallint in H
    | H : type_kind ?u = INTEGER |- _ => apply cppSize_integer in H
    | H : type_kind ?u = BIGINT |- _ => apply cppSize_bigint in H
    end; lia.
Qed.

(** What an expression that stands for the column evaluates to. *)
Definition carries (x v : option V) : Prop :=
  match x with
  | None => v = None
  | Some u => exists u', v = Some u' /\ isNull u' = false /\
      (u' = u \/ integral (column_type column) = true /\
                 is_integer_kind (kind u') = true /\ integer u' = integer u)
  end.

Lemma domainColumn_in (e : Expr T V) c : domainColumn e = Some c -> In c (Expr.columns e).
Proof.
  revert c. induction e as [c'| |name args t fs i IH| | |] using Expr_nested_ind; intros c; simpl; try done.
  - intros [= ->]. by left.
  - destruct args as [|arg [|]]; try done. destruct (_ || _); [|done].
    destruct (domainColumn arg) as [c'|] eqn:E; [|done]. destruct (_ || _); [done|].
    intros [= ->]. simpl. rewrite app_nil_r. inversion IH; subst. auto.
Qed.

Lemma domainColumn_carries (e : Expr T V) x :
  row_typed column x -> domainColumn e = Some column -> carries x (val e x).
Proof.
  intros Hx. induction e as [c| |name args t fs i IH| | |] using Expr_nested_ind; simpl; try done.
  - intros [= ->]. rewrite (val_column _ _ _ _ _ Hsql) by done.
    destruct x as [u|]; [|done]. exists u. destruct Hx. auto.
  - destruct args as [|arg [|]]; try done.
    destruct (String.eqb name kCast || String.eqb name kTryCast) eqn:En; [|done].
    assert (Hn : name = kCast \/ name = kTryCast).
    { by rewrite orb_true_iff, !String.eqb_eq in En. }
    destruct (domainColumn arg) as [c|] eqn:Ec; [|done].
    destruct (negb _ || negb _ || (_ >? _)) eqn:Ecast; [by intros [=]|]. intros [= ->].
    apply orb_false_iff in Ecast as [[Hc%negb_false_iff Ht%negb_false_iff]%orb_false_iff Hsize].
    inversion IH as [|? ? Harg _]; subst. specialize (Harg Ec).
    rewrite Z.gtb_ltb, Z.ltb_ge in Hsize.
    pose proof (integral_kind _ Hc) as Hck. pose proof (integral_kind _ Ht) as Htk.
    destruct x as [u|]; simpl in *.
    + destruct Hx as [Hu Hku]. destruct Harg as (u' & Hv & Hu' & Heq).
      assert (Hint : is_integer_kind (kind u') = true /\ integer u' = integer u).
      { destruct Heq as [->|(_ & ? & ?)]; [|done]. by rewrite Hku. }
      destruct Hint as [Hk' Hi'].
      assert (Hlim : in_limits (type_kind t) (integer u')).
      { rewrite Hi'. apply (limits_widen (column_type column)); [done..|].
        rewrite <- Hku. apply integer_in_limits; [done|by rewrite Hku]. }
      destruct (val_cast_integer _ _ _ _ _ Hsql name arg t fs i _ u' Hn Hv Hu' Hk' Ht Hlim)
        as (u'' & -> & Hn'' & Hk'' & Hi''). exists u''. repeat split; [done|].
      right. split; [done|]. split; [by rewrite Hk''|congruence].
    + by apply (val_cast_null _ _ _ _ _ Hsql).
Qed.

Lemma is_column_carries (e : Expr T V) x :
  row_typed column x -> ids_identify column e -> is_column column e = true ->
  carries x (val e x).
Proof.
  unfold is_column. intros Hx Hids. destruct (domainColumn e) as [c|] eqn:E; [|done].
  intros Hc%Nat.eqb_eq. apply domainColumn_carries; [done|]. rewrite E. f_equal.
  unfold ids_identify in Hids. rewrite List.Forall_forall in Hids.
  apply Hids; [by apply domainColumn_in|done].
Qed.

Lemma is_column_primitive (e : Expr T V) :
  ids_identify column e -> is_column column e = true -> primitive e = true.
Proof.
  unfold is_column, primitive. intros Hids. destruct (domainColumn e) as [c|] eqn:E; [|done].
  intros Hc%Nat.eqb_eq.
  assert (Hin : c = column).
  { unfold ids_identify in Hids. rewrite List.Forall_forall in Hids.
    apply Hids; [by apply domainColumn_in|done]. }
  destruct e as [c'| |name args t fs i| | |]; simpl in E; try done; [by simplify_eq|].
  destruct args as [|arg [|]]; try done. destruct (_ || _); [|done].
  destruct (domainColumn arg) as [c'|]; [|done].
  destruct (negb _ || _ || _) eqn:Ec; [done|].
  apply orb_false_iff in Ec as [[_ Ht%negb_false_iff]%orb_false_iff _].
  simpl. by apply integer_primitive, integral_kind.
Qed.

(** *** Comparisons with a literal *)

(** The normalized literal compares with the row's value as the literal does. *)
Lemma normalizeLiteral_spec v w :
  normalizeLiteral column v = Ok (Some w) -> literal_typed column v = true ->
  if isNull v then w = v
  else isNull w = false /\
    forall u u', row_typed column (Some u) -> carries (Some u) (Some u') ->
      less u' v = vlt (domain_value column u) w /\ less v u' = vlt w (domain_value column u).
Proof.
  unfold normalizeLiteral, literal_typed, domain_value, row_typed, carries.
  destruct (isNull v) eqn:En; simpl; [by intros [= ->]|].
  destruct (integral (column_type column)) eqn:Ei; simpl.
  - destruct (is_integer_kind (kind v)) eqn:Ek; [|done].
    unfold integerValue. rewrite En, Ek. simpl. intros [= <-] _.
    split; [apply isNull_of_int64|]. intros u u' [Hu Hku] (? & [= <-] & Hu' & Heq).
    pose proof (integral_kind _ Ei) as Hck.
    assert (Hint : is_integer_kind (kind u') = true /\ integer u' = integer u).
    { destruct Heq as [->|(_ & ? & ?)]; [|done]. by rewrite Hku. }
    destruct Hint as [Hk' Hi'].
    assert (Hlu : in_limits BIGINT (integer u)).
    { eapply in_limits_bigint, integer_in_limits; [done|by rewrite Hku]. }
    assert (Hlv : in_limits BIGINT (integer v)).
    { eapply in_limits_bigint, integer_in_limits; done. }
    rewrite !(less_integers _ _ _ _ _ Hsql), Hi' by done.
    by rewrite !vlt_bigint, !integer_of_int64 by (rewrite ?isNull_of_int64, ?kind_of_int64; done).
  - intros [= <-] Hk%bool_decide_eq_true. split; [done|].
    intros u u' [Hu Hku] (? & [= <-] & Hu' & [->|[HF _]]); [|done].
    by rewrite !(less_same_kind _ _ _ _ _ Hsql) by (done || congruence).
Qed.

Lemma comparison_holds_congr (f g : V -> V -> bool) op u v u' v' :
  f u v = g u' v' -> f v u = g v' u' -> comparison_holds f op u v = comparison_holds g op u' v'.
Proof. intros Hf Hg. destruct op; simpl; congruence. Qed.

Definition factory (op : Comparison) : V -> Domain V :=
  match op with
  | Equal => Domain.singleValue
  | Less => Domain.lessThan
  | LessEqual => Domain.lessThanOrEqual
  | Greater => Domain.greaterThan
  | GreaterEqual => Domain.greaterThanOrEqual
  end.

Lemma factory_spec op w :
  wf (factory op w) = true /\
  forall x, x ∈ factory op w <-> exists v, x = Some v /\ comparison_holds vlt op v w = true.
Proof.
  split.
  - destruct op; try done. unfold wf. simpl. by rewrite singleValue_nonempty.
  - intros x. destruct op; simpl.
    + rewrite elem_of_singleValue. setoid_rewrite veq_spec. by setoid_rewrite andb_comm at 1.
    + apply elem_of_factories.
    + setoid_rewrite negb_true_iff. apply elem_of_factories.
    + apply elem_of_factories.
    + setoid_rewrite negb_true_iff. apply elem_of_factories.
Qed.

(** The chain of name tests picks the comparison of that name. *)
Lemma makeTrueValues_some name f :
  makeTrueValues functionNames name = Some f ->
  exists op, name = comparison_name functionNames op /\ f = factory op.
Proof.
  unfold makeTrueValues, name_is. intros Hf.
  repeat case_bool_decide; simplify_eq.
  - by exists Equal.
  - by exists Less.
  - by exists LessEqual.
  - by exists Greater.
  - by exists GreaterEqual.
Qed.

Lemma makeTrueValues_comparison op :
  makeTrueValues functionNames (comparison_name functionNames op) = Some (factory op).
Proof.
  pose proof (comparisons_distinct _ Hregistry) as Hd. simpl in Hd.
  rewrite !NoDup_cons, !not_elem_of_cons in Hd.
  unfold makeTrueValues, name_is. destruct op; simpl; repeat case_bool_decide; naive_solver.
Qed.

Definition outcome (result : PredicateResult) : bool :=
  match result with kTrue => true | kFalse => false end.

(** [d] holds exactly the rows on which a condition has the outcome. *)
Definition exact_for (d : Domain V) (result : PredicateResult)
    (condition : option V -> option bool) : Prop :=
  wf d = true /\
  forall x v, row_typed column x -> carries x v ->
    row_value x ∈ d <-> condition v = Some (outcome result).

(** The normalized literal of a comparison that is converted. *)
Lemma comparison_value v w x u' op :
  normalizeLiteral column v = Ok (Some w) -> literal_typed column v = true ->
  isNull v = false -> row_typed column x -> carries x u' ->
  strict (comparison_holds less op) u' (literal_value v) =
  strict (comparison_holds vlt op) (row_value x) (Some w).
Proof.
  intros Hw Ht Hv Hx Hc. pose proof (normalizeLiteral_spec v w Hw Ht) as Hs.
  rewrite Hv in Hs. destruct Hs as [_ Hs]. unfold literal_value. rewrite Hv.
  destruct x as [u|]; [|by rewrite Hc]. destruct Hc as (u'' & -> & Hu).
  simpl. f_equal. destruct (Hs u u'' Hx) as [? ?]; [by exists u''|].
  by apply comparison_holds_congr.
Qed.

Lemma normalize_null v w :
  normalizeLiteral column v = Ok (Some w) -> literal_typed column v = true ->
  isNull w = isNull v.
Proof.
  intros Hw Ht. pose proof (normalizeLiteral_spec v w Hw Ht) as Hs.
  destruct (isNull v) eqn:E; [by subst|by destruct Hs].
Qed.

Lemma strict_factory op x w :
  row_value x ∈ factory op w <->
  strict (comparison_holds vlt op) (row_value x) (Some w) = Some true.
Proof.
  rewrite (proj2 (factory_spec op w)). destruct x as [u|]; simpl; [|by split; [intros (? & ? & _)|]].
  split; [by intros (? & [= <-] & ->)|]. intros [= Hc]. by eexists.
Qed.

Lemma comparisonDomain_exact op v result d :
  comparisonDomain functionNames column (comparison_name functionNames op) v result = Ok (Some d) ->
  literal_typed column v = true ->
  exact_for d result (fun u => strict (comparison_holds less op) u (literal_value v)).
Proof.
  unfold comparisonDomain, name_is. intros Hd Ht.
  rewrite bool_decide_eq_false_2 in Hd by apply (comparison_not_distinctFrom _ Hregistry).
  rewrite makeTrueValues_comparison in Hd.
  destruct (normalizeLiteral column v) as [[w|]|] eqn:Hw; simpl in Hd; try done.
  pose proof (normalize_null v w Hw Ht) as Hnull. rewrite Hnull in Hd.
  destruct nonNullDomain_spec as [Hnwf Hnn]. destruct (factory_spec op w) as [Hfwf _].
  destruct (isNull v) eqn:Hv.
  - injection Hd as <-. split; [done|]. intros x u _ _. unfold literal_value. rewrite Hv.
    split; [by destruct x|]. by destruct u.
  - split.
    + destruct result; injection Hd as <-; [by apply (intersect_sound _ _ None)|].
      apply (subtract_sound _ _ None); [done|]. by apply (intersect_sound _ _ None).
    + intros x u' Hx Hc. rewrite (comparison_value v w x u' op) by done.
      pose proof (intersect_sound (factory op w) (nonNullDomain column) (row_value x) Hfwf Hnwf)
        as [Hiwf Hi]. rewrite strict_factory, Hnn in Hi by done.
      destruct result; injection Hd as <-; simpl.
      * rewrite Hi. split; [by intros []|]. intros Hs. split; [done|]. by destruct x.
      * rewrite (proj2 (subtract_sound _ _ (row_value x) Hnwf Hiwf)), Hi, Hnn by done.
        destruct x as [u|]; simpl; [|split; [by intros []|done]].
        destruct (comparison_holds _ _ _ _); split; try done; try (by intros [_ Hn]; destruct Hn).
        intros _. split; [done|]. by intros [[=] _].
Qed.

Lemma onlyNull_wf : wf (@Domain.onlyNull V) = true.
Proof. done. Qed.

Lemma distinctDomain_exact name v result d :
  distinctFrom functionNames = Some name ->
  comparisonDomain functionNames column (Some name) v result = Ok (Some d) ->
  literal_typed column v = true ->
  exact_for d result (fun u =>
    Some (match u, literal_value v with
          | None, None => false
          | Some u, Some v => negb (comparison_holds less Equal u v)
          | _, _ => true
          end)).
Proof.
  unfold comparisonDomain, name_is. intros Hname Hd Ht.
  rewrite bool_decide_eq_true_2 in Hd by done.
  destruct (normalizeLiteral column v) as [[w|]|] eqn:Hw; simpl in Hd; try done.
  pose proof (normalize_null v w Hw Ht) as Hnull. rewrite Hnull in Hd.
  destruct nonNullDomain_spec as [Hnwf Hnn]. destruct (factory_spec Equal w) as [Hfwf _].
  destruct (unite_spec (nonNullDomain column) Domain.onlyNull Hnwf onlyNull_wf) as [Huwf Hu].
  set (equalValues := if isNull v then _ else _) in Hd.
  assert (Heq : wf equalValues = true /\ forall x u, row_typed column x -> carries x u ->
    row_value x ∈ equalValues <->
    match u, literal_value v with
    | None, None => true
    | Some u, Some v => comparison_holds less Equal u v
    | _, _ => false
    end = true).
  { unfold equalValues. destruct (isNull v) eqn:Hv.
    - split; [done|]. intros x u _ Hc. rewrite elem_of_onlyNull. unfold literal_value. rewrite Hv.
      destruct x as [u0|]; [destruct Hc as (? & -> & _)|rewrite Hc]; done.
    - split; [by apply (intersect_sound _ _ None)|]. intros x u Hx Hc.
      rewrite (proj2 (intersect_sound _ _ (row_value x) Hfwf Hnwf)).
      rewrite (strict_factory Equal), Hnn by done.
      rewrite <- (comparison_value v w x u Equal) by done. unfold literal_value. rewrite Hv.
      destruct x as [u0|]; [destruct Hc as (? & -> & _)|rewrite Hc]; simpl; intuition congruence. }
  destruct Heq as [Hewf He]. split.
  - destruct result; injection Hd as <-; [|done]. by apply (subtract_sound _ _ None).
  - intros x u Hx Hc. specialize (He x u Hx Hc).
    destruct result; injection Hd as <-; cbn [outcome].
    + rewrite (proj2 (subtract_sound _ _ (row_value x) Huwf Hewf)), Hu, He, elem_of_onlyNull, Hnn by done.
      destruct x as [u0|]; [destruct Hc as (? & -> & _)|rewrite Hc]; destruct (literal_value v);
        try destruct (comparison_holds _ _ _ _); simpl; intuition congruence.
    + rewrite He. destruct u, (literal_value v);
        try destruct (comparison_holds _ _ _ _); simpl; intuition congruence.
Qed.

(** *** Constant [IN] lists *)

Lemma in3_normalized elements values hasNull u u' :
  normalize_elements column elements = Ok (Some (values, hasNull)) ->
  forallb (literal_typed column) elements = true ->
  row_typed column (Some u) -> carries (Some u) (Some u') ->
  in3 less u' elements =
  if existsb (fun w => veq w (domain_value column u)) values then Some true
  else if hasNull : bool then None else Some false.
Proof.
  intros Hn Ht Hu Hc. revert values hasNull Hn Ht.
  induction elements as [|e elements IH]; intros values hasNull.
  - by intros [= <- <-].
  - cbn [normalize_elements forallb in3]. intros Hn [He Ht]%andb_true_iff.
    destruct (normalizeLiteral column e) as [[w|]|] eqn:Hw; simpl in Hn; try done.
    destruct (normalize_elements column elements) as [[[values' hasNull']|]|]; simpl in Hn; try done.
    rewrite (IH values' hasNull' eq_refl Ht). pose proof (normalize_null e w Hw He) as Hnull.
    rewrite Hnull in Hn. destruct (isNull e) eqn:Hne; injection Hn as <- <-.
    + unfold literal_value. rewrite Hne. simpl.
      destruct (existsb (A:=V) _ _); [done|]. by destruct hasNull'.
    + pose proof (comparison_value e w (Some u) (Some u') Equal Hw He Hne Hu Hc) as Hcmp.
      rewrite Hcmp. simpl.
      rewrite veq_spec, andb_comm. destruct (negb _ && negb _); simpl.
      all: first [done | by destruct (existsb (A:=V) _ values'), hasNull'].
Qed.

Lemma inListDomain_exact inList result d :
  inListDomain column inList result = Ok (Some d) ->
  forallb (literal_typed column) inList = true ->
  exact_for d result (fun u => match u with Some u => in3 less u inList | None => None end).
Proof.
  unfold inListDomain. intros Hd Ht.
  destruct (normalize_elements column inList) as [[[values hasNull]|]|] eqn:Hn; simpl in Hd; try done.
  injection Hd as <-. destruct (in_spec values) as [Hiwf Hi], nonNullDomain_spec as [Hnwf Hnn].
  pose proof (fun x => intersect_sound (Domain.in_ values) (nonNullDomain column) x Hiwf Hnwf) as Hin.
  pose proof (fun x => subtract_sound (nonNullDomain column) _ x Hnwf (proj1 (Hin None))) as Hsub.
  split; [destruct result; [apply (Hin None)|destruct hasNull; [done|apply (Hsub None)]]|].
  intros x v Hx Hc. destruct x as [u|].
  - destruct Hc as (u' & -> & Hu').
    rewrite (in3_normalized inList values hasNull u u') by (done || by exists u').
    assert (Hmem : row_value (Some u) ∈ Domain.in_ values <->
      existsb (fun w => veq w (domain_value column u)) values = true).
    { rewrite Hi, existsb_exists. simpl. split.
      - intros (? & w & [= <-] & ? & ?). by exists w.
      - intros (w & ? & ?). by exists (domain_value column u), w. }
    destruct result; cbn [outcome].
    + rewrite (proj2 (Hin _)), Hmem, Hnn by done.
      destruct (existsb (A:=V) _ _); [|destruct hasNull]; simpl; intuition congruence.
    + destruct hasNull; [destruct (existsb (A:=V) _ _); by split|].
      rewrite (proj2 (Hsub _)), (proj2 (Hin _)), Hmem, Hnn by done.
      destruct (existsb (A:=V) _ _); simpl; intuition congruence.
  - rewrite Hc. assert (Hno : ~ None ∈ nonNullDomain column) by (rewrite (Hnn None); auto).
    split; [|done]. intros HF. exfalso. apply Hno. simpl in HF.
    destruct result; [by apply (proj2 (Hin _)) in HF as [_ ?]|].
    destruct hasNull; [done|]. by apply (proj2 (Hsub _)) in HF as [? _].
Qed.

(** *** [LIKE] *)

Lemma before_wildcard_length text :
  length (before_wildcard text) = length text -> before_wildcard text = text.
Proof.
  induction text as [|c text IH]; [done|]. simpl. destruct (is_wildcard c); [done|].
  intros [= Hl]. f_equal. auto.
Qed.

Lemma likePatternToDomain_sound p d :
  likePatternToDomain p = Some d ->
  isNull p = false /\ kind p = VARCHAR /\ wf d = true /\
  forall u : V, isNull u = false -> kind u = VARCHAR ->
    starts_with (before_wildcard (varchar p)) (varchar u) = true ->
    (before_wildcard (varchar p) = varchar p -> varchar u = varchar p) ->
    Some u ∈ d.
Proof.
  unfold likePatternToDomain.
  destruct (isNull p) eqn:Hnp; [done|]. case_bool_decide as Hk; [|done]. simpl.
  intros Hd. split; [done|]. split; [done|].
  set (prefix := before_wildcard (varchar p)) in *.
  destruct (Nat.eqb_spec (length prefix) (length (varchar p))) as [Hl|_].
  { injection Hd as <-. split; [apply (factory_spec Equal)|]. intros u Hu Hku _ Hp.
    apply before_wildcard_length, Hp in Hl. apply (factory_spec Equal). exists u.
    split; [done|]. simpl. rewrite !vlt_varchar, Hl by done. unfold bytes_lt.
    by rewrite !lex_lt_irrefl. }
  destruct (factory_spec GreaterEqual (of_string prefix)) as [Hgwf Hge].
  assert (Hfrom : forall u : V, isNull u = false -> kind u = VARCHAR ->
    bytes_lt (varchar u) prefix = false -> Some u ∈ Domain.greaterThanOrEqual (of_string prefix)).
  { intros u Hu Hku Hb. apply Hge. exists u. split; [done|]. simpl.
    rewrite vlt_varchar by (rewrite ?isNull_of_string, ?kind_of_string; done).
    by rewrite varchar_of_string, Hb. }
  pose proof (prefix_range prefix) as Hexact.
  destruct prefix as [|c rest] eqn:Ep; [done|]. rewrite <- Ep in *.
  injection Hd as <-. destruct (prefixUpperBound prefix) as [upper|].
  - destruct (factory_spec Less (of_string upper)) as [Hlwf Hlt].
    pose proof (fun x => intersect_sound (Domain.greaterThanOrEqual (of_string prefix))
      (Domain.lessThan (of_string upper)) x Hgwf Hlwf) as Hi.
    split; [apply (Hi None)|]. intros u Hu Hku Hs _. apply Hexact in Hs as [Hs1 Hs2].
    apply Hi. split; [by apply Hfrom|]. apply Hlt. exists u. split; [done|]. simpl.
    rewrite vlt_varchar by (rewrite ?isNull_of_string, ?kind_of_string; done).
    by rewrite varchar_of_string.
  - split; [done|]. intros u Hu Hku Hs _. apply Hexact in Hs as [Hs1 _]. by apply Hfrom.
Qed.

(** *** Calls *)

(** [d] holds every row on which [e] has the outcome, and, without [LIKE], no
    other. *)
Definition describes (d : Domain V) (result : PredicateResult) (e : Expr T V) : Prop :=
  wf d = true /\
  forall x, row_typed column x ->
    (truth e x = Some (outcome result) -> row_value x ∈ d) /\
    (uses_like functionNames column e = false -> row_value x ∈ d -> truth e x = Some (outcome result)).

Lemma exact_describes d result condition e arg :
  exact_for d result condition -> is_column column arg = true -> ids_identify column arg ->
  (forall x, truth e x = condition (val arg x)) -> describes d result e.
Proof.
  intros [Hwf Hd] Ha Hids Ht. split; [done|]. intros x Hx. rewrite Ht.
  rewrite (Hd x (val arg x) Hx (is_column_carries arg x Hx Hids Ha)). auto.
Qed.

Lemma ids_identify_arg name args t fs i (arg : Expr T V) :
  ids_identify column (CallExpr name args t fs i) -> In arg args -> ids_identify column arg.
Proof.
  unfold ids_identify. rewrite !List.Forall_forall. intros Hids Harg c Hc. apply Hids.
  simpl. apply in_flat_map. by exists arg.
Qed.

(** [BETWEEN]: both bounds, or one of them missed. *)
Lemma exact_and3 a b result f g :
  exact_for a result f -> exact_for b result g ->
  exact_for (match result with kTrue => Domain.intersect a b | kFalse => Domain.unite a b end)
    result (fun u => and3 (f u) (g u)).
Proof.
  intros [Hawf Ha] [Hbwf Hb]. pose proof (fun x => intersect_sound a b x Hawf Hbwf) as Hi.
  destruct (unite_spec a b Hawf Hbwf) as [Huwf Hu].
  split; [destruct result; [apply (Hi None)|done]|]. intros x v Hx Hc.
  specialize (Ha x v Hx Hc). specialize (Hb x v Hx Hc).
  destruct result; cbn [outcome] in *; [rewrite (proj2 (Hi _))|rewrite Hu]; rewrite Ha, Hb;
    destruct (f v) as [[]|], (g v) as [[]|]; simpl; intuition congruence.
Qed.

Lemma isNull_describes name (arg : Expr T V) t fs i result :
  isNullName functionNames = Some name ->
  is_column column arg = true -> ids_identify column arg ->
  describes (match result with kTrue => Domain.onlyNull | kFalse => nonNullDomain column end)
    result (CallExpr name [arg] t fs i).
Proof.
  intros Hname Ha Hids. destruct nonNullDomain_spec as [Hnwf Hnn].
  apply (exact_describes _ _ (fun u => Some (negb (has_value u))) _ arg); [|done..|].
  - split; [by destruct result|]. intros x v Hx Hc.
    destruct result; cbn [outcome]; [rewrite elem_of_onlyNull|rewrite Hnn by done].
    all: destruct x as [u|]; [destruct Hc as (? & -> & _)|rewrite Hc]; simpl; intuition congruence.
  - intros x. by apply (truth_isNull _ _ _ _ _ Hsql).
Qed.

Lemma like_describes name (arg : Expr T V) p tp ip t fs i d :
  like functionNames = Some name ->
  is_column column arg = true -> ids_identify column arg ->
  likePatternToDomain p = Some d ->
  describes d kTrue (CallExpr name [arg; LiteralExpr p tp ip] t fs i).
Proof.
  intros Hname Ha Hids Hd.
  destruct (likePatternToDomain_sound p d Hd) as (Hnp & Hkp & Hwf & Hin).
  split; [done|]. intros x Hx. split.
  - intros Ht.
    destruct (truth_like _ _ _ _ _ Hsql arg p tp ip name t fs i x Hname Hnp Hkp Ht)
      as (u' & Hv & Hu' & Hku' & Hs & He).
    pose proof (is_column_carries arg x Hx Hids Ha) as Hc. rewrite Hv in Hc.
    destruct x as [u|]; [|done]. destruct Hc as (? & [= <-] & _ & [->|(_ & HF & _)]);
      [|by rewrite Hku' in HF].
    simpl. unfold domain_value. destruct (integral (column_type column)) eqn:Ei; [|by apply Hin].
    apply integral_kind in Ei. destruct Hx as [_ Hku]. by rewrite <- Hku, Hku' in Ei.
  - simpl. unfold name_is. by rewrite Hname, bool_decide_eq_true_2, Ha.
Qed.

Lemma comparison_compares op name :
  comparison_name functionNames op = Some name -> compares functionNames name = true.
Proof.
  intros Hop. unfold compares, name_is. rewrite <- Hop. apply existsb_exists.
  exists (comparison_name functionNames op). split; [destruct op; simpl; tauto|].
  by apply bool_decide_eq_true_2.
Qed.

(** A comparison with the column is type-checked. *)
Lemma call_typed_compares name args arg :
  call_typed functionNames column name args = true -> constantInList name args = None ->
  compares functionNames name = true -> In arg args -> is_column column arg = true ->
  forallb (argument_typed column) args = true /\ bounds_given functionNames name args = true.
Proof.
  unfold call_typed. intros Ht Hn Hc Hin Ha. rewrite Hn, Hc in Ht. simpl in Ht.
  assert (existsb (is_column (V:=V) column) args = true) as Hex.
  { apply existsb_exists. by exists arg. }
  rewrite Hex in Ht. by apply andb_true_iff in Ht.
Qed.

(** The names whose comparison with a literal has a domain. *)
Lemma comparisonDomain_compares name v result d :
  comparisonDomain functionNames column (Some name) v result = Ok (Some d) ->
  compares functionNames name = true.
Proof.
  unfold comparisonDomain. destruct (name_is _ _) eqn:Hdf.
  - intros _. unfold compares. simpl. rewrite Hdf. by rewrite !orb_true_r.
  - destruct (makeTrueValues functionNames (Some name)) as [f|] eqn:Ef; [|done].
    apply makeTrueValues_some in Ef as (op & Hop & _). intros _. by eapply comparison_compares.
Qed.

(** A comparison or [distinct_from] of the column and a literal, either way round. *)
Lemma named_comparison_describes name arg v tv iv t fs i result d :
  comparisonDomain functionNames column (Some name) v result = Ok (Some d) ->
  argument_typed column (LiteralExpr v tv iv) = true ->
  is_column column arg = true -> ids_identify column arg ->
  describes d result (CallExpr name [arg; LiteralExpr v tv iv] t fs i).
Proof.
  intros Hd [Ht Htv]%andb_true_iff Ha Hids. pose proof (is_column_primitive _ Hids Ha). pose proof (val_literal _ _ _ _ _ Hsql v tv iv) as Hv.
  destruct (decide (distinctFrom functionNames = Some name)) as [Hdf|Hdf].
  - eapply exact_describes; [by eapply distinctDomain_exact|done..|].
    intros x. rewrite (truth_distinctFrom _ _ _ _ _ Hsql) by done. by rewrite Hv.
  - pose proof Hd as Hd'. unfold comparisonDomain, name_is in Hd'.
    rewrite bool_decide_eq_false_2 in Hd' by congruence.
    destruct (makeTrueValues functionNames (Some name)) as [f|] eqn:Ef; [|done].
    apply makeTrueValues_some in Ef as (op & Hop & _). rewrite Hop in Hd.
    eapply exact_describes; [by eapply comparisonDomain_exact|done..|].
    intros x. rewrite (truth_compare _ _ _ _ _ Hsql op) by done. by rewrite Hv.
Qed.

Definition mirror (op : Comparison) : Comparison :=
  match op with
  | Equal => Equal | Less => Greater | LessEqual => GreaterEqual
  | Greater => Less | GreaterEqual => LessEqual
  end.

Lemma mirror_holds op u v : comparison_holds less op u v = comparison_holds less (mirror op) v u.
Proof. destruct op; simpl; [apply andb_comm|done..]. Qed.

Lemma reversedName_comparison op :
  reversedName functionNames (comparison_name functionNames op) =
  comparison_name functionNames (mirror op).
Proof.
  pose proof (comparisons_distinct _ Hregistry) as Hd. simpl in Hd.
  rewrite !NoDup_cons, !not_elem_of_cons in Hd.
  unfold reversedName, name_is. destruct op; simpl; repeat case_bool_decide; naive_solver.
Qed.

Lemma reversedName_other name :
  (forall op, comparison_name functionNames op <> name) -> reversedName functionNames name = name.
Proof.
  intros Hn. unfold reversedName, name_is.
  rewrite !bool_decide_eq_false_2; [done|intros ->..].
  - by apply (Hn GreaterEqual).
  - by apply (Hn Greater).
  - by apply (Hn LessEqual).
  - by apply (Hn Less).
Qed.

Lemma named_comparison name :
  (exists op, name = comparison_name functionNames op) \/
  (forall op, name <> comparison_name functionNames op).
Proof.
  destruct (decide (Exists (fun op => name = comparison_name functionNames op)
    [Equal; Less; LessEqual; Greater; GreaterEqual])) as [Hop|Hno].
  - left. apply List.Exists_exists in Hop as (op & _ & ?). by exists op.
  - right. intros op Hop. apply Hno, List.Exists_exists. exists op. split; [|done].
    destruct op; simpl; tauto.
Qed.

Lemma reversed_domain_compares name v result d :
  comparisonDomain functionNames column (reversedName functionNames (Some name)) v result
    = Ok (Some d) -> compares functionNames name = true.
Proof.
  intros Hd. destruct (named_comparison (Some name)) as [[op Hop]|Hno].
  - by eapply comparison_compares.
  - rewrite (reversedName_other _ (fun op Hop => Hno op (eq_sym Hop))) in Hd.
    by eapply comparisonDomain_compares.
Qed.

Lemma reversed_comparison_describes name arg v tv iv t fs i result d :
  comparisonDomain functionNames column (reversedName functionNames (Some name)) v result
    = Ok (Some d) ->
  argument_typed column (LiteralExpr v tv iv) = true ->
  is_column column arg = true -> ids_identify column arg ->
  describes d result (CallExpr name [LiteralExpr v tv iv; arg] t fs i).
Proof.
  intros Hd [Ht Htv]%andb_true_iff Ha Hids. pose proof (is_column_primitive _ Hids Ha). pose proof (val_literal _ _ _ _ _ Hsql v tv iv) as Hv.
  destruct (named_comparison (Some name)) as [[op Hop]|Hno].
  - rewrite Hop, reversedName_comparison in Hd.
    eapply exact_describes; [by eapply comparisonDomain_exact|done..|].
    intros x. rewrite (truth_compare _ _ _ _ _ Hsql op), Hv by done.
    destruct (literal_value v), (val arg x); try done. simpl. f_equal. apply mirror_holds.
  - rewrite (reversedName_other _ (fun op Hop => Hno op (eq_sym Hop))) in Hd.
    destruct (decide (distinctFrom functionNames = Some name)) as [Hdf|Hdf].
    + eapply exact_describes; [by eapply distinctDomain_exact|done..|].
      intros x. rewrite (truth_distinctFrom _ _ _ _ _ Hsql), Hv by done. f_equal.
      destruct (literal_value v), (val arg x); try done. f_equal. apply mirror_holds.
    + exfalso. unfold comparisonDomain, name_is in Hd.
      rewrite bool_decide_eq_false_2 in Hd by congruence.
      destruct (makeTrueValues functionNames (Some name)) as [f|] eqn:Ef; [|done].
      apply makeTrueValues_some in Ef as (op & Hop & _). by apply (Hno op).
Qed.

Lemma between_describes name arg lo lot ilo hi hit ihi t fs i result lower upper :
  between functionNames = Some name ->
  comparisonDomain functionNames column (gte functionNames) lo result = Ok (Some lower) ->
  comparisonDomain functionNames column (lte functionNames) hi result = Ok (Some upper) ->
  argument_typed column (LiteralExpr lo lot ilo) = true ->
  argument_typed column (LiteralExpr hi hit ihi) = true ->
  isNull lo = false -> isNull hi = false ->
  is_column column arg = true -> ids_identify column arg ->
  describes (match result with
             | kTrue => Domain.intersect lower upper
             | kFalse => Domain.unite lower upper
             end) result (CallExpr name [arg; LiteralExpr lo lot ilo; LiteralExpr hi hit ihi] t fs i).
Proof.
  intros Hname Hl Hu [Htl ?]%andb_true_iff [Htu ?]%andb_true_iff Hnl Hnu Ha Hids.
  pose proof (is_column_primitive _ Hids Ha).
  eapply exact_describes; [|done..|].
  - apply exact_and3; [by apply (comparisonDomain_exact GreaterEqual)|
                       by apply (comparisonDomain_exact LessEqual)].
  - intros x. rewrite (truth_between _ _ _ _ _ Hsql), !(val_literal _ _ _ _ _ Hsql); try done.
    all: rewrite (val_literal _ _ _ _ _ Hsql); unfold literal_value; by rewrite ?Hnl, ?Hnu.
Qed.

Lemma binaryDomain_describes name a0 a1 t fs i result d :
  binaryDomain functionNames name a0 a1 column result = Ok (Some d) ->
  well_typed functionNames column (CallExpr name [a0; a1] t fs i) = true ->
  ids_identify column a0 -> ids_identify column a1 ->
  describes d result (CallExpr name [a0; a1] t fs i).
Proof.
  intros Hd Hty Hid0 Hid1. cbn [well_typed] in Hty. apply andb_true_iff in Hty as [Hty _].
  unfold binaryDomain in Hd.
  destruct (constantInList name [a0; a1]) as [inList|] eqn:Hin.
  - assert (exists v tv iv, a1 = LiteralExpr v tv iv /\ name = kIn) as (v & tv & iv & -> & ->).
    { unfold constantInList in Hin. destruct (String.eqb_spec name kIn); [|done].
      destruct a1; try done. by eexists _, _, _. }
    destruct (is_column column a0) eqn:Ha.
    + unfold call_typed in Hty. rewrite Hin in Hty. simpl in Hty. rewrite Ha in Hty.
      eapply exact_describes; [by eapply inListDomain_exact|done..|].
      intros x. apply (truth_in _ _ _ _ _ Hsql); [done|]. by apply is_column_primitive.
    + destruct a0; discriminate Hd.
  - destruct a1 as [c|v tv iv|name' args' t' fs' i'|base f t' i'|cs body t' i'|cs fs' t' i'].
    2: { destruct (is_column column a0) eqn:Ha; [|by destruct a0].
      assert (Hd' : (if name_is (Some name) (like functionNames) && bool_decide (result = kTrue)
        then Ok (likePatternToDomain v)
        else comparisonDomain functionNames column (Some name) v result) = Ok (Some d))
        by (by destruct a0).
      clear Hd. destruct (name_is _ _ && _) eqn:Hlike.
      - apply andb_true_iff in Hlike as [Hn%bool_decide_eq_true Hr%bool_decide_eq_true].
        subst result. apply like_describes; [done..|congruence].
      - pose proof (comparisonDomain_compares _ _ _ _ Hd') as Hcmp.
        eapply call_typed_compares in Hty as [Hty _]; [|done..|by left|done].
        cbn [forallb] in Hty. rewrite !andb_true_iff in Hty. destruct Hty as (_ & ? & _).
        by apply named_comparison_describes. }
    all: destruct a0 as [c0|v tv iv|name0 args0 t0 fs0 i0|base0 f0 t0 i0|cs0 body0 t0 i0|cs0 fs0 t0 i0];
      try discriminate Hd.
    all: lazymatch type of Hd with
         | context [is_column column ?a] => destruct (is_column column a) eqn:Ha; [|discriminate Hd]
         end.
    all: pose proof (reversed_domain_compares _ _ _ _ Hd) as Hcmp.
    all: eapply call_typed_compares in Hty as [Hty _]; [|done..|by right; left|done].
    all: cbn [forallb] in Hty; rewrite !andb_true_iff in Hty; destruct Hty as [? _].
    all: by apply reversed_comparison_describes.
Qed.

Lemma betweenDomain_describes name a0 a1 a2 t fs i result d :
  betweenDomain functionNames name a0 a1 a2 column result = Ok (Some d) ->
  well_typed functionNames column (CallExpr name [a0; a1; a2] t fs i) = true ->
  ids_identify column a0 ->
  describes d result (CallExpr name [a0; a1; a2] t fs i).
Proof.
  intros Hd Hty Hids. cbn [well_typed] in Hty. apply andb_true_iff in Hty as [Hty _].
  unfold betweenDomain in Hd. destruct a1 as [|lo lot ilo| | | |]; try done.
  destruct a2 as [|hi hit ihi| | | |]; try done.
  destruct (name_is _ _ && _) eqn:Hc; [|done].
  apply andb_true_iff in Hc as [Hn%bool_decide_eq_true Ha].
  destruct (comparisonDomain functionNames column (gte functionNames) lo result)
    as [[lower|]|] eqn:Hl; simpl in Hd; try done;
  destruct (comparisonDomain functionNames column (lte functionNames) hi result)
    as [[upper|]|] eqn:Hu; simpl in Hd; try done.
  injection Hd as <-.
  destruct (constantInList name [a0; LiteralExpr lo lot ilo; LiteralExpr hi hit ihi]) eqn:Hin.
  { unfold constantInList in Hin. by destruct (negb _). }
  assert (Hcmp : compares functionNames name = true).
  { unfold compares, name_is. rewrite Hn. simpl.
    rewrite (bool_decide_eq_true_2 (between functionNames = between functionNames)) by done.
    by rewrite !orb_true_r. }
  eapply call_typed_compares in Hty as [Hargs Hb]; [|done..|by left|done].
  assert (Hb' : isNull lo = false /\ isNull hi = false).
  { unfold bounds_given in Hb. rewrite Hn in Hb. unfold name_is in Hb.
    rewrite bool_decide_eq_true_2 in Hb by done. simpl in Hb.
    rewrite !andb_true_iff, !negb_true_iff in Hb. tauto. }
  cbn [forallb] in Hargs. rewrite !andb_true_iff in Hargs.
  destruct Hargs as (_ & Hlo & Hhi & _), Hb'. by apply between_describes.
Qed.

Lemma callDomain_describes name args t fs i result d :
  callDomain functionNames name args column result = Ok (Some d) ->
  well_typed functionNames column (CallExpr name args t fs i) = true ->
  ids_identify column (CallExpr name args t fs i) ->
  describes d result (CallExpr name args t fs i).
Proof.
  intros Hd Hty Hids.
  assert (Hidarg : forall arg, In arg args -> ids_identify column arg).
  { intros arg. by apply (ids_identify_arg name args t fs i). }
  unfold callDomain in Hd. destruct args as [|a0 [|a1 [|a2 [|a3 rest]]]]; try done.
  - destruct (name_is _ _ && _) eqn:Hc; [|done].
    apply andb_true_iff in Hc as [Hn%bool_decide_eq_true Ha]. injection Hd as <-.
    apply isNull_describes; [done..|]. apply Hidarg. by left.
  - apply binaryDomain_describes; [done..| |]; apply Hidarg; simpl; tauto.
  - apply betweenDomain_describes; [done..|]. apply Hidarg. by left.
Qed.

(** *** Connectives *)

Lemma not_describes name arg t fs i result d :
  negation functionNames = Some name ->
  describes d (opposite result) arg -> describes d result (CallExpr name [arg] t fs i).
Proof.
  intros Hname [Hwf Hd]. split; [done|]. intros x Hx. destruct (Hd x Hx) as [Hs He].
  rewrite (truth_not _ _ _ _ _ Hsql) by done.
  assert (Hnot : forall b, not3 b = Some (outcome result) <-> b = Some (outcome (opposite result))).
  { intros [[]|]; destruct result; simpl; intuition congruence. }
  rewrite Hnot. split; [done|]. intros Hl. apply He. simpl in Hl.
  apply orb_false_iff in Hl as [_ Hl]. by rewrite orb_false_r in Hl.
Qed.

(** [d] covers the rows of [P], and holds no other when [precise]. *)
Definition covers (d : Domain V) (P : option V -> Prop) (precise : bool) : Prop :=
  wf d = true /\
  forall x, row_typed column x ->
    (P x -> row_value x ∈ d) /\ (precise = true -> row_value x ∈ d -> P x).

Lemma describes_covers d result e :
  describes d result e <->
  covers d (fun x => truth e x = Some (outcome result)) (negb (uses_like functionNames column e)).
Proof. unfold describes, covers. by setoid_rewrite negb_true_iff. Qed.

Lemma covers_combine (all : bool) d d' P P' precise precise' :
  covers d P precise -> covers d' P' precise' ->
  covers (if all then Domain.intersect d d' else Domain.unite d d')
    (fun x => if all then P x /\ P' x else P x \/ P' x) (precise && precise').
Proof.
  intros [Hwf Hd] [Hwf' Hd'].
  pose proof (fun x => intersect_sound d d' x Hwf Hwf') as Hi.
  destruct (unite_spec d d' Hwf Hwf') as [Huwf Hu].
  split; [destruct all; [apply (Hi None)|done]|]. intros x Hx.
  destruct (Hd x Hx) as [? ?], (Hd' x Hx) as [? ?].
  rewrite andb_true_iff. destruct all; [rewrite (proj2 (Hi _))|rewrite Hu]; tauto.
Qed.

Lemma covers_iff d P Q precise : (forall x, P x <-> Q x) -> covers d P precise -> covers d Q precise.
Proof.
  intros Hpq [Hwf Hd]. split; [done|]. intros x Hx. rewrite <- Hpq. by apply Hd.
Qed.

(** The outcome of AND or OR needs that outcome of all arguments, or of one. *)
Definition needs_all (name : string) (result : PredicateResult) : bool :=
  Bool.eqb (String.eqb name kAnd) (bool_decide (result = kTrue)).

Definition reach (all : bool) (result : PredicateResult) (args : list (Expr T V)) x : Prop :=
  if all then Forall (fun e => truth e x = Some (outcome result)) args
  else Exists (fun e => truth e x = Some (outcome result)) args.

Lemma connective_outcome name args t fs i result x :
  (String.eqb name kAnd || String.eqb name kOr) = true ->
  truth (CallExpr name args t fs i) x = Some (outcome result) <->
  reach (needs_all name result) result args x.
Proof.
  intros Hname. unfold reach, needs_all. destruct (String.eqb_spec name kAnd) as [->|_].
  - rewrite (truth_and _ _ _ _ _ Hsql). destruct result; simpl;
      induction args as [|e args IH]; simpl; rewrite ?Forall_cons, ?Exists_cons, <- ?IH;
      try destruct (truth e x) as [[]|], (fold_right and3 _ _) as [[]|]; simpl;
      rewrite ?Exists_nil; intuition (congruence || constructor).
  - destruct (String.eqb_spec name kOr) as [->|_]; [|done].
    rewrite (truth_or _ _ _ _ _ Hsql). destruct result; simpl;
      induction args as [|e args IH]; simpl; rewrite ?Forall_cons, ?Exists_cons, <- ?IH;
      try destruct (truth e x) as [[]|], (fold_right or3 _ _) as [[]|]; simpl;
      rewrite ?Exists_nil; intuition (congruence || constructor).
Qed.

(** The loop over the further arguments. *)
Lemma combine_args_covers convert all result args d0 P precise d :
  Forall (fun arg => forall d, convert arg = Ok (Some d) -> describes d result arg) args ->
  covers d0 P precise ->
  combine_args convert all (Some d0) args = Ok (Some d) ->
  covers d (fun x => if all then P x /\ reach all result args x else P x \/ reach all result args x)
    (precise && negb (existsb (uses_like functionNames column) args)).
Proof.
  intros Hargs. revert d0 P precise.
  induction Hargs as [|arg args Harg _ IH]; intros d0 P precise Hd0; simpl.
  - intros [= <-]. rewrite andb_true_r. eapply covers_iff; [|done]. intros x. unfold reach.
    destruct all; rewrite ?Forall_nil, ?Exists_nil; tauto.
  - destruct (convert arg) as [[next|]|] eqn:En; simpl; try done; [|by destruct args].
    intros Hd. specialize (Harg next eq_refl). apply describes_covers in Harg.
    pose proof (covers_combine all _ _ _ _ _ _ Hd0 Harg) as Hstep.
    pose proof (IH _ _ _ Hstep Hd) as Hc.
    rewrite negb_orb, andb_assoc. eapply covers_iff; [|exact Hc]. intros x. unfold reach.
    destruct all; rewrite ?Forall_cons, ?Exists_cons; tauto.
Qed.

Lemma exprToDomain_column_describes e result d :
  well_typed functionNames column e = true -> ids_identify column e ->
  exprToDomain_column functionNames e column result = Ok (Some d) ->
  describes d result e.
Proof.
  revert result d. induction e as [| |name args t fs i IH| | |] using Expr_nested_ind; try done.
  intros result d Hty Hids. cbn [exprToDomain_column].
  assert (Hsub : Forall (fun arg => forall result d,
    exprToDomain_column functionNames arg column result = Ok (Some d) -> describes d result arg) args).
  { rewrite List.Forall_forall in *. intros arg Harg result' d'. apply IH; [done| |].
    - simpl in Hty. apply andb_true_iff in Hty as [_ Hty]. rewrite forallb_forall in Hty. auto.
    - by apply (ids_identify_arg name args t fs i). }
  destruct (name_is _ _ && _) eqn:Hneg.
  { apply andb_true_iff in Hneg as [Hn%bool_decide_eq_true Hl].
    destruct args as [|arg [|]]; try done. intros Hd. inversion Hsub; subst.
    apply not_describes; auto. }
  destruct (String.eqb name kAnd || String.eqb name kOr) eqn:Hc;
    [|intros Hd; by apply callDomain_describes].
  destruct args as [|front rest]; [done|]. inversion Hsub as [|? ? Hfront Hrest]; subst.
  destruct (exprToDomain_column functionNames front column result) as [[d0|]|] eqn:E0;
    simpl; try done; [|by destruct rest].
  intros Hd. specialize (Hfront result d0 E0). apply describes_covers in Hfront.
  assert (Hrest' : Forall (fun arg => forall d,
    exprToDomain_column functionNames arg column result = Ok (Some d) -> describes d result arg) rest).
  { eapply List.Forall_impl; [|exact Hrest]. auto. }
  pose proof (combine_args_covers _ _ _ _ _ _ _ _ Hrest' Hfront Hd) as Hcov.
  destruct Hcov as [Hwf Hcov]. split; [done|]. intros x Hx.
  destruct (Hcov x Hx) as [Hin Hout].
  rewrite (connective_outcome name (front :: rest) t fs i result x Hc).
  assert (Hreach : reach (needs_all name result) result (front :: rest) x <->
    (if needs_all name result
     then truth front x = Some (outcome result) /\ reach (needs_all name result) result rest x
     else truth front x = Some (outcome result) \/ reach (needs_all name result) result rest x)).
  { unfold reach. destruct (needs_all name result); by rewrite ?Forall_cons, ?Exists_cons. }
  rewrite Hreach. split; [exact Hin|]. intros Hl. apply Hout.
  simpl in Hl. apply orb_false_iff in Hl as [_ Hl]. by apply orb_false_iff in Hl as [-> ->].
Qed.

(** The column of a filter and the well-formedness of what it is compared with. *)
Definition filter_ok (e : Expr T V) : Prop :=
  Expr.onlyColumn e = Some column /\ well_typed functionNames column e = true /\
  ids_identify column e.

Lemma exprToDomain_describes e d :
  filter_ok e -> exprToDomain functionNames e = Ok (Some d) -> describes d kTrue e.
Proof.
  intros (Hcol & Hty & Hids). unfold exprToDomain. rewrite Hcol.
  by apply exprToDomain_column_describes.
Qed.

(** C9: The domain of a filter holds every value of the column, [NULL] included, for
    which the filter is true - so pruning by the domain loses no row - and, if the
    filter has no [LIKE] of the column, no other value; and it is well formed.  NOT, AND, OR,
    IN, BETWEEN, IS NULL, DISTINCT FROM and the comparisons follow SQL's
    three-valued logic, through widening casts of integral columns. *)
Theorem exprToDomain_sound e d :
  filter_ok e -> exprToDomain functionNames e = Ok (Some d) ->
  domain_well_formed d = true /\
  forall x, row_typed column x ->
    (truth e x = Some true -> domain_contains d (domain_value column <$> x) = true) /\
    (uses_like functionNames column e = false ->
     domain_contains d (domain_value column <$> x) = true -> truth e x = Some true).
Proof.
  exact (exprToDomain_describes e d).
Qed.
End Soundness.
