(* ===== verification/IntegralDomains.v ===== *)
(** * Domains of integral columns

    Domains whose bounds are [BIGINT] variants within the limits of a type: the
    operations keep them so, and the domains [exprToDomain] finds for filters on an
    integral column are among them. *)

From Stdlib Require Import ZArith Lia.
From S2P Require Import Prelude Domains DomainSets Expressions ExprDomains.

Open Scope Z_scope.
Set Warnings "-register-all".

#[local] Existing Instance Domain.low_le_dec.

Section Integral.
Context {V : Type} `{VariantLaws V}.
Implicit Types (r s t : Range V) (rs ls : list (Range V)) (d : Domain V).

Definition int_value (v : V) : Prop := isNull v = false /\ kind v = BIGINT.

Lemma int_value_of_int64 n : int_value (of_int64 n).
Proof. split; [apply isNull_of_int64|apply kind_of_int64]. Qed.

Lemma vlt_int (u v : V) : int_value u -> int_value v -> vlt u v = (integer u <? integer v).
Proof. intros [] []. by apply vlt_bigint. Qed.

Lemma veq_int (u v : V) : int_value u -> int_value v -> veq u v = (integer u =? integer v).
Proof.
  intros Hu Hv. rewrite veq_spec, !vlt_int by done.
  destruct (Z.ltb_spec (integer u) (integer v)), (Z.ltb_spec (integer v) (integer u)),
    (Z.eqb_spec (integer u) (integer v)); simpl; try done; lia.
Qed.

Definition int_bound (bound : option (Bound V)) : Prop :=
  match bound with Some bound => int_value (value bound) | None => True end.

Definition int_range r : Prop := int_bound (Range.low r) /\ int_bound (Range.high r).

Lemma int_range_intersect r s t :
  int_range r -> int_range s -> Range.intersect r s = Some t -> int_range t.
Proof.
  intros [] []. unfold Range.intersect. destruct (lowNotAboveHigh _ _); [|done].
  intros [= <-]. split; simpl; bound_cases; done.
Qed.

Lemma int_ranges_intersect ls rs :
  Forall int_range ls -> Forall int_range rs -> Forall int_range (Domain.intersect_ranges ls rs).
Proof.
  rewrite !List.Forall_forall. intros Hl Hr t (l & r & Hl' & Hr' & Ht)%intersect_ranges_from.
  by eapply int_range_intersect; [apply Hl|apply Hr|].
Qed.

Lemma int_range_merge r s : int_range r -> int_range s -> int_range (Range.merge r s).
Proof. intros [] []. split; simpl; bound_cases; done. Qed.

(** A property of ranges that merging keeps. *)
Lemma normalize_keeps (P : Range V -> Prop) rs :
  (forall r s, P r -> P s -> P (Range.merge r s)) -> Forall P rs -> Forall P (Domain.normalize rs).
Proof.
  intros Hm Hrs. unfold Domain.normalize.
  assert (Hs : Forall P (merge_sort Domain.low_le rs)).
  { by rewrite (merge_sort_Permutation Domain.low_le rs). }
  destruct Hs as [|r rs' Hr Hs]; [constructor|]. simpl. revert r Hr.
  induction Hs as [|s rs' Hs' _ IH]; intros r Hr; simpl; [by each|].
  destruct (Range.overlapsOrAdjacent r s); [apply IH; auto|]. constructor; auto.
Qed.

Lemma int_complement low rs :
  int_bound low -> Forall int_range rs -> Forall int_range (Domain.complement_ranges low rs).
Proof.
  intros Hlow Hrs. revert low Hlow. induction Hrs as [|r rs [Hl Hh] _ IH]; intros low Hlow; simpl.
  - by each.
  - assert (Hgap : Forall int_range match Range.low r with
      | Some bound => [Range.mkRange low (Some (Domain.flip bound))] | None => [] end).
    { destruct (Range.low r); by each. }
    destruct (Range.high r) as [h|]; [|done]. apply Forall_app. split; [done|]. by apply IH.
Qed.

(** *** Ranges within two bounds *)

Definition within (lo hi : Bound V) r : Prop :=
  cut_le (low_cut (Some lo)) (low_cut (Range.low r)) /\
  cut_le (high_cut (Range.high r)) (high_cut (Some hi)).

Lemma within_intersect lo hi r s t :
  within lo hi r \/ within lo hi s -> Range.intersect r s = Some t -> within lo hi t.
Proof.
  intros Hw (_ & _ & Hl1 & Hl2 & Hh1 & Hh2)%range_intersect_some.
  destruct Hw as [[]|[]]; split; cut_order.
Qed.

Lemma within_ranges_intersect lo hi ls rs :
  Forall (within lo hi) ls \/ Forall (within lo hi) rs ->
  Forall (within lo hi) (Domain.intersect_ranges ls rs).
Proof.
  rewrite !List.Forall_forall. intros Hw t (l & r & Hl' & Hr' & Ht)%intersect_ranges_from.
  eapply within_intersect; [|done]. destruct Hw as [Hw|Hw]; auto.
Qed.

Lemma within_merge lo hi r s : within lo hi r -> within lo hi s -> within lo hi (Range.merge r s).
Proof. intros [] []. split; simpl; bound_cases; done. Qed.

(** The full range keeps a range within it. *)
Lemma intersect_full lo hi r :
  within lo hi r -> Range.isEmpty r = false ->
  exists t, Range.intersect r (Range.mkRange (Some lo) (Some hi)) = Some t.
Proof.
  intros [Hl Hh] He%isEmpty_spec. unfold Range.intersect.
  destruct (lowNotAboveHigh _ _) eqn:E; [by eexists|]. exfalso.
  assert (Hc : lowNotAboveHigh (maxLow (Range.low r) (Some lo)) (minHigh (Range.high r) (Some hi)) = true);
    [|simpl in E; congruence].
  apply lowNotAboveHigh_spec. bound_cases; cut_order.
Qed.

Lemma intersect_unbounded r :
  Range.isEmpty r = false -> exists t, Range.intersect r Range.unbounded = Some t.
Proof.
  intros He%isEmpty_spec. unfold Range.intersect.
  destruct (lowNotAboveHigh _ _) eqn:E; [by eexists|]. exfalso.
  assert (Hc : lowNotAboveHigh (maxLow (Range.low r) None) (minHigh (Range.high r) None) = true);
    [|simpl in E; congruence].
  apply lowNotAboveHigh_spec. pose proof (cut_le_refl (@NegInf V)).
  assert (Hl : cut_le (low_cut None) (low_cut (Range.low r))) by done.
  assert (Hh : cut_le (high_cut (Range.high r)) (high_cut None)).
  { unfold cut_le. simpl. by destruct (high_cut _). }
  bound_cases; cut_order.
Qed.

(** The values of the bounds. *)
Lemma within_values lo hi r :
  int_value (value lo) -> int_value (value hi) -> inclusive lo = true -> inclusive hi = true ->
  within lo hi r -> int_range r -> Range.isEmpty r = false ->
  exists l h, Range.low r = Some l /\ Range.high r = Some h /\
    int_value (value l) /\ int_value (value h) /\
    integer (value lo) <= integer (value l) <= integer (value h) /\
    integer (value h) <= integer (value hi).
Proof.
  intros Hlo Hhi Hli Hhi' [Hl Hh] [Hil Hih] He. destruct r as [l h]. simpl in *.
  rewrite Hli in Hl. rewrite Hhi' in Hh. unfold cut_le in Hl, Hh.
  destruct l as [l|]; [|done]. destruct h as [h|]; [|by destruct hi].
  exists l, h. repeat split; try done; try apply Hil; try apply Hih.
  - simpl in Hl. destruct (inclusive l); simpl in Hl;
      apply negb_true_iff in Hl; rewrite vlt_int in Hl by done; apply Z.ltb_ge in Hl; lia.
  - unfold Range.isEmpty in He. simpl in He. unfold compareBoundValues in He.
    rewrite !vlt_int in He by done.
    destruct (Z.ltb_spec (integer (value l)) (integer (value h))); [lia|].
    destruct (Z.ltb_spec (integer (value h)) (integer (value l))); [done|lia].
  - simpl in Hh. destruct (inclusive h); simpl in Hh;
      apply negb_true_iff in Hh; rewrite vlt_int in Hh by done; apply Z.ltb_ge in Hh; lia.
Qed.
End Integral.

(** ** Domains of a column *)

Section Column.
Context {T V : Type} `{TypeLaws T} `{VariantLaws V} (functionNames : FunctionNames).
Context (column : Column T) (limits : Domain V)
  (Hlimits : integralTypeDomain (column_type column) = Some limits).
Implicit Types d : Domain V.

Definition int_domain d : Prop :=
  domain_well_formed d = true /\ Forall int_range (Domain.ranges d).

(** The least and the greatest value of the type. *)
Definition lowest : Bound V :=
  mkBound (of_int64 (default 0 (fst <$> integer_limits (type_kind (column_type column))))) true.
Definition highest : Bound V :=
  mkBound (of_int64 (default 0 (snd <$> integer_limits (type_kind (column_type column))))) true.

Definition column_domain d : Prop :=
  int_domain d /\ Forall (within lowest highest) (Domain.ranges d).

Lemma limits_range :
  limits = Domain.mkDomain false [Range.mkRange (Some lowest) (Some highest)] /\
  is_integer_kind (type_kind (column_type column)) = true /\
  forall n, in_limits (type_kind (column_type column)) n <->
    integer (value lowest) <= n <= integer (value highest).
Proof.
  pose proof (integralTypeDomain_spec _ _ Hlimits) as (Hk & _).
  unfold integralTypeDomain in Hlimits. destruct (_ || _); [done|].
  unfold lowest, highest. unfold in_limits.
  destruct (integer_limits (type_kind (column_type column))) as [[lo hi]|] eqn:El; [|done].
  assert (Hb : in_limits BIGINT lo /\ in_limits BIGINT hi /\ lo <= hi).
  { unfold in_limits. destruct (type_kind (column_type column)); try done; injection El as <- <-;
      simpl; lia. }
  destruct Hb as (Hlo & Hhi & Hle). injection Hlimits as <-. simpl.
  rewrite !integer_of_int64 by done. split; [|done].
  unfold Domain.intersect. simpl. unfold Range.intersect, lowNotAboveHigh. simpl.
  unfold compareBoundValues. rewrite !vlt_int, !integer_of_int64 by (done || apply int_value_of_int64).
  destruct (Z.ltb_spec lo hi); [done|]. by destruct (Z.ltb_spec hi lo); [lia|].
Qed.

Lemma column_domain_limits : column_domain limits.
Proof.
  pose proof (integralTypeDomain_spec _ _ Hlimits) as (_ & Hwf & _).
  destruct limits_range as [Heq _]. split; [split; [done|]|]; rewrite Heq; each.
  - split; apply int_value_of_int64.
  - split; apply cut_le_refl.
Qed.

Lemma column_domain_intersect a b :
  int_domain a -> int_domain b -> column_domain a \/ column_domain b ->
  column_domain (Domain.intersect a b).
Proof.
  intros [] [] Hab. split; [split|].
  - by apply intersect_well_formed.
  - by apply int_ranges_intersect.
  - apply within_ranges_intersect. destruct Hab as [[_ ?]|[_ ?]]; auto.
Qed.

Lemma column_domain_unite a b :
  column_domain a -> column_domain b -> column_domain (Domain.unite a b).
Proof.
  intros [[Ha Hia] Hwa] [[Hb Hib] Hwb]. split; [split|].
  - by apply unite_spec.
  - apply normalize_keeps; [apply int_range_merge|]. by apply Forall_app.
  - apply normalize_keeps; [intros r s; by apply within_merge|]. by apply Forall_app.
Qed.

Lemma int_domain_complement d : int_domain d -> int_domain (Domain.complement d).
Proof. intros []. split; [by apply complement_well_formed|]. by apply int_complement. Qed.

Lemma column_domain_subtract a b :
  column_domain a -> int_domain b -> column_domain (Domain.subtract a b).
Proof.
  intros Ha Hb. apply column_domain_intersect; [apply Ha|by apply int_domain_complement|by left].
Qed.

Lemma column_domain_no_ranges b : column_domain (Domain.mkDomain b []).
Proof. split; [split|]; [done|by each..]. Qed.

Lemma int_domain_one v r :
  int_value v -> In r [Domain.singleValue v; Domain.greaterThan v; Domain.greaterThanOrEqual v;
    Domain.lessThan v; Domain.lessThanOrEqual v] -> int_domain r.
Proof.
  intros Hv Hr. simpl in Hr.
  destruct Hr as [<-|[<-|[<-|[<-|[<-|[]]]]]]; (split; [|by each]); try done.
  unfold domain_well_formed, Domain.singleValue. simpl. by rewrite singleValue_nonempty.
Qed.

Lemma int_domain_in vs : Forall int_value vs -> int_domain (Domain.in_ vs).
Proof.
  intros Hvs. split; [apply in_spec|]. apply normalize_keeps; [apply int_range_merge|].
  apply List.Forall_forall. intros r (v & <- & Hv)%in_map_iff.
  rewrite List.Forall_forall in Hvs. by split; apply Hvs.
Qed.

(** *** The domains [exprToDomain] finds *)

Lemma nonNullDomain_limits : nonNullDomain column = limits.
Proof. unfold nonNullDomain. by rewrite Hlimits. Qed.

Lemma normalizeLiteral_int v w :
  normalizeLiteral column v = Ok (Some w) -> isNull w = true \/ int_value w.
Proof.
  unfold normalizeLiteral. rewrite Hlimits. simpl. rewrite orb_false_r.
  destruct (isNull v) eqn:Hv; [intros [= <-]; by left|].
  destruct (is_integer_kind (kind v)) eqn:Hk; [|done].
  unfold integerValue. rewrite Hv, Hk. simpl. intros [= <-]. right. apply int_value_of_int64.
Qed.

Lemma makeTrueValues_int name f v :
  makeTrueValues functionNames name = Some f -> int_value v -> int_domain (f v).
Proof.
  unfold makeTrueValues. intros Hf Hv. apply (int_domain_one v); [done|]. revert Hf. simpl.
  repeat (destruct (name_is _ _); [intros [= <-]; tauto|]). done.
Qed.

Lemma comparisonDomain_column name v result d :
  comparisonDomain functionNames column name v result = Ok (Some d) -> column_domain d.
Proof.
  unfold comparisonDomain. rewrite nonNullDomain_limits.
  destruct (name_is name (distinctFrom functionNames)).
  - destruct (normalizeLiteral column v) as [[w|]|] eqn:Hw; simpl; try done.
    apply normalizeLiteral_int in Hw. intros [= <-].
    assert (Heq : column_domain (if isNull w then Domain.onlyNull
      else Domain.intersect (Domain.singleValue w) limits)).
    { destruct (isNull w) eqn:Hn; [apply column_domain_no_ranges|].
      destruct Hw as [Hw|Hw]; [by rewrite Hw in Hn|].
      apply column_domain_intersect; [|apply column_domain_limits|right; apply column_domain_limits].
      eapply int_domain_one; [exact Hw|by left]. }
    destruct result; [|done]. apply column_domain_subtract; [|apply Heq].
    apply column_domain_unite; [apply column_domain_limits|apply column_domain_no_ranges].
  - destruct (makeTrueValues functionNames name) as [f|] eqn:Hf; [|done].
    destruct (normalizeLiteral column v) as [[w|]|] eqn:Hw; simpl; try done.
    apply normalizeLiteral_int in Hw. destruct (isNull w) eqn:Hn.
    { intros [= <-]. apply column_domain_no_ranges. }
    destruct Hw as [Hw|Hw]; [by rewrite Hw in Hn|]. intros [= <-].
    assert (Htrue : column_domain (Domain.intersect (f w) limits)).
    { apply column_domain_intersect; [by eapply makeTrueValues_int|apply column_domain_limits|].
      right. apply column_domain_limits. }
    destruct result; [done|]. apply column_domain_subtract; [apply column_domain_limits|apply Htrue].
Qed.

Lemma normalize_elements_int elements values hasNull :
  normalize_elements column elements = Ok (Some (values, hasNull)) -> Forall int_value values.
Proof.
  revert values hasNull. induction elements as [|v elements IH]; intros values hasNull; simpl.
  { intros [= <- <-]. constructor. }
  destruct (normalizeLiteral column v) as [[w|]|] eqn:Hw; simpl; try done.
  apply normalizeLiteral_int in Hw.
  destruct (normalize_elements column elements) as [[[ws n]|]|]; simpl; try done.
  specialize (IH ws n eq_refl). destruct (isNull w) eqn:Hn; intros [= <- <-]; [done|].
  destruct Hw as [Hw|Hw]; [by rewrite Hw in Hn|]. by constructor.
Qed.

Lemma inListDomain_column elements result d :
  inListDomain column elements result = Ok (Some d) -> column_domain d.
Proof.
  unfold inListDomain. rewrite nonNullDomain_limits.
  destruct (normalize_elements column elements) as [[[values n]|]|] eqn:Hv; simpl; try done.
  apply normalize_elements_int, int_domain_in in Hv. intros [= <-].
  pose proof column_domain_limits as Hl.
  assert (Htrue : column_domain (Domain.intersect (Domain.in_ values) limits)).
  { apply column_domain_intersect; [done|apply Hl|by right]. }
  destruct result; [done|]. destruct n; [apply column_domain_no_ranges|].
  apply column_domain_subtract; [done|apply Htrue].
Qed.

(** No LIKE of the column at this call. *)
Definition no_like (name : string) (args : list (Expr T V)) : Prop :=
  name_is (Some name) (like functionNames) = true ->
  match args with arg :: _ => is_column (V:=V) column arg = false | [] => True end.

Lemma binaryDomain_column name a0 a1 result d :
  no_like name [a0; a1] ->
  binaryDomain functionNames name a0 a1 column result = Ok (Some d) -> column_domain d.
Proof.
  intros Hl Hd.
  assert (Hcases : (exists elements, inListDomain column elements result = Ok (Some d)) \/
    exists name v, comparisonDomain functionNames column name v result = Ok (Some d)).
  { revert Hd. unfold binaryDomain, no_like in *.
    destruct (constantInList name [a0; a1]) as [elements|];
      destruct (is_column column a0); [by eauto|..];
      destruct (name_is (Some name) (like functionNames)); try (by specialize (Hl eq_refl));
      destruct a0, a1; try done;
      repeat match goal with
      | |- context [if is_column ?c ?e then _ else _] => destruct (is_column c e)
      end; try done; simpl; eauto. }
  destruct Hcases as [[? ?]|(? & ? & ?)]; [by eapply inListDomain_column|by eapply comparisonDomain_column].
Qed.

Lemma betweenDomain_column name a0 a1 a2 result d :
  betweenDomain functionNames name a0 a1 a2 column result = Ok (Some d) -> column_domain d.
Proof.
  unfold betweenDomain. destruct a1, a2; try done.
  destruct (_ && _); [|done].
  destruct (comparisonDomain functionNames column (gte functionNames) _ _) as [[lower|]|] eqn:El;
    simpl; try done;
    destruct (comparisonDomain functionNames column (lte functionNames) _ _) as [[upper|]|] eqn:Eu;
    simpl; try done.
  apply comparisonDomain_column in El, Eu. intros [= <-]. destruct result.
  - apply column_domain_intersect; [apply El|apply Eu|by left].
  - by apply column_domain_unite.
Qed.

Lemma callDomain_column name args result d :
  no_like name args ->
  callDomain functionNames name args column result = Ok (Some d) -> column_domain d.
Proof.
  intros Hl. destruct args as [|a0 [|a1 [|a2 [|]]]]; try done; simpl callDomain.
  - destruct (_ && _); [|done]. intros [= <-].
    destruct result; [apply column_domain_no_ranges|].
    rewrite nonNullDomain_limits. apply column_domain_limits.
  - by apply binaryDomain_column.
  - apply betweenDomain_column.
Qed.

Lemma combine_args_column convert all args d0 d :
  Forall (fun arg => forall d, convert arg = Ok (Some d) -> column_domain d) args ->
  column_domain d0 -> combine_args (T:=T) convert all (Some d0) args = Ok (Some d) ->
  column_domain d.
Proof.
  intros Hargs. revert d0. induction Hargs as [|arg args Harg _ IH]; intros d0 Hd0; simpl.
  { by intros [= <-]. }
  destruct (convert arg) as [[next|]|] eqn:Hn; simpl; try done; [|by destruct args].
  apply IH. specialize (Harg next eq_refl). destruct all; [|by apply column_domain_unite].
  apply column_domain_intersect; [apply Hd0|apply Harg|by left].
Qed.

Lemma exprToDomain_column_domain e result d :
  uses_like functionNames column e = false ->
  exprToDomain_column functionNames e column result = Ok (Some d) -> column_domain d.
Proof.
  revert result d. induction e as [| |name args t fs i IH| | |] using Expr_nested_ind; try done.
  intros result d Hlike. cbn [exprToDomain_column].
  apply orb_false_iff in Hlike as [Hno Hlike].
  assert (Hsub : Forall (fun arg => forall result d,
    exprToDomain_column functionNames arg column result = Ok (Some d) -> column_domain d) args).
  { rewrite List.Forall_forall in *. intros arg Harg result' d'. apply IH; [done|].
    destruct (uses_like functionNames column arg) eqn:Hl; [|done]. rewrite <- Hlike. symmetry.
    apply existsb_exists. by exists arg. }
  destruct (name_is (Some name) (negation functionNames) && _).
  { destruct args as [|arg [|]]; try done. inversion Hsub as [|? ? Harg]; subst. apply Harg. }
  destruct (String.eqb name kAnd || String.eqb name kOr).
  - destruct args as [|front rest]; [done|]. inversion Hsub as [|? ? Hfront Hrest]; subst.
    destruct (exprToDomain_column functionNames front column result) as [[d0|]|] eqn:E0;
      simpl; try done; [|by destruct rest].
    apply combine_args_column; [|by apply (Hfront result)].
    eapply List.Forall_impl; [|exact Hrest]. intros arg Harg. apply Harg.
  - apply callDomain_column. intros Hn. rewrite Hn in Hno. simpl in Hno. by destruct args.
Qed.
End Column.
