(* ===== verification/SqlSemantics.v ===== *)
(** * The meaning of expressions on rows

    What the optimizer relies on when it rewrites an expression: rows, a type
    checker ([typed]) for the expressions it understands, and the laws of an
    evaluator ([EvalLaws]) - the documented behaviour of Velox functions and
    special forms, on top of the laws of filters on one column ([SqlLaws]).  The
    evaluator itself is a parameter.  Evaluation is deterministic and raises no
    error: calls of non-deterministic functions and failing evaluations are outside
    the laws. *)

From Stdlib Require Import ZArith Lia.
From S2P Require Import Prelude Domains DomainSets Expressions ExprDomains.

Set Warnings "-register-all".

(** ** Names *)

(** The functions and special forms the optimizer gives a meaning to. *)
Inductive NameClass :=
  | ConnectiveName | NegationName | IsNullName | CompareName | BetweenName | LikeName
  | InName | ConditionalName | CoalesceName | RowName | DereferenceName | PlainName.

#[export] Instance NameClass_eq_dec : EqDecision NameClass.
Proof. solve_decision. Defined.

Section Names.
Variable functionNames : FunctionNames.

Definition classify (name : string) : NameClass :=
  if String.eqb name kAnd || String.eqb name kOr then ConnectiveName
  else if String.eqb name kIn then InName
  else if String.eqb name kIf || String.eqb name kSwitch then ConditionalName
  else if String.eqb name kCoalesce then CoalesceName
  else if String.eqb name kRowConstructor then RowName
  else if String.eqb name kDereference then DereferenceName
  else if isSpecialForm name then PlainName
  else if name_is (Some name) (negation functionNames) then NegationName
  else if name_is (Some name) (isNullName functionNames) then IsNullName
  else if name_is (Some name) (between functionNames) then BetweenName
  else if name_is (Some name) (like functionNames) then LikeName
  else if compares functionNames name then CompareName
  else PlainName.

(** The names of the registry, all registered, under names of their own. *)
Definition registered : list (option string) :=
  [equality functionNames; lt functionNames; lte functionNames; gt functionNames;
   gte functionNames; distinctFrom functionNames; negation functionNames;
   isNullName functionNames; between functionNames; like functionNames].

Definition full_registry : bool :=
  bool_decide (NoDup registered) &&
  forallb (fun n => match n with Some name => negb (isSpecialForm name) | None => false end)
    registered.
End Names.

(** ** Rows and types *)

(** The values of the columns, by id; an absent one is [NULL]. *)
Abbreviation Row V := (gmap nat V).

Definition set_value {V} (c : nat) (x : option V) (r : Row V) : Row V :=
  partial_alter (fun _ => x) c r.

Lemma set_value_same {V} (r : Row V) c : set_value c (r !! c) r = r.
Proof. apply partial_alter_self. Qed.

Lemma set_value_lookup {V} (r : Row V) c x : set_value c x r !! c = x.
Proof. apply lookup_partial_alter_eq. Qed.

(** The values of a type, deeply. *)
Class TypedValues (T V : Type) `{TypeLaws T} `{VariantLaws V} := {
  has_type : T -> V -> bool;
  has_type_kind t v : has_type t v = true -> isNull v = false -> kind v = type_kind t;
  has_type_null t v : isNull v = true -> has_type t v = true;
  has_type_array t v :
    has_type t v = true -> isNull v = false -> type_kind t = ARRAY ->
    forallb (has_type (childAt t 0)) (array v) = true;
  has_type_row t v i w :
    has_type t v = true -> isNull v = false -> row v !! i = Some w ->
    has_type (childAt t i) w = true;
  has_type_bool b : has_type booleanType (of_bool b) = true;
  has_type_integer t n :
    is_integer_kind (type_kind t) = true -> in_limits (type_kind t) n ->
    has_type t (of_integer (type_kind t) n) = true;
  has_type_of_array t vs :
    forallb (has_type t) vs = true -> has_type (arrayType t) (of_array vs) = true;
  equivalent_has_type s t v : equivalent s t = true -> has_type s v = has_type t v;
  equivalent_kind s t : equivalent s t = true -> type_kind s = type_kind t;
  equivalent_childAt s t i : equivalent s t = true -> equivalent (childAt s i) (childAt t i) = true;
  of_bool_boolean v : isNull v = false -> kind v = BOOLEAN -> of_bool (boolean v) = v
}.

Section Typing.
Context {T V : Type} `{TypedValues T V} `{FunctionRegistry} (functionNames : FunctionNames).

(** The types of the columns, by id. *)
Abbreviation typing := (gmap nat T).

(** A value of the type, or [NULL]. *)
Definition value_of_type (t : T) (x : option V) : Prop :=
  match x with
  | None => True
  | Some v => isNull v = false /\ has_type t v = true
  end.

Definition row_ok (types : typing) (r : Row V) : Prop :=
  forall c t, types !! c = Some t -> value_of_type t (r !! c).

Definition same_types (args : list (Expr T V)) : bool :=
  match args with
  | [] => true
  | arg :: rest => forallb (fun e => equivalent (Expr.expr_type e) (Expr.expr_type arg)) rest
  end.

Definition of_type (t : T) (e : Expr T V) : bool := bool_decide (Expr.expr_type e = t).

(** Conditions are boolean, results have the type of the call. *)
Fixpoint conditional_typed (t : T) (args : list (Expr T V)) : bool :=
  match args with
  | [] => true
  | [result] => of_type t result
  | condition :: result :: args =>
      of_type booleanType condition && of_type t result && conditional_typed t args
  end.

(** The argument that selects the field of a dereference. *)
Definition selects (t : T) (base : Expr T V) (selector : Expr T V) : bool :=
  match Expr.literal_of selector with
  | Some v => bool_decide (t = childAt (Expr.expr_type base) (Z.to_nat (integer v)))
  | None => false
  end.

Definition well_formed_call (name : string) (args : list (Expr T V)) (t : T) : bool :=
  match classify functionNames name with
  | ConnectiveName => bool_decide (t = booleanType) && forallb (of_type booleanType) args
  | NegationName =>
      bool_decide (t = booleanType) && (Nat.eqb (length args) 1 && forallb (of_type booleanType) args)
  | IsNullName => bool_decide (t = booleanType) && Nat.eqb (length args) 1
  | CompareName => bool_decide (t = booleanType) && (Nat.eqb (length args) 2 && same_types args)
  | BetweenName => bool_decide (t = booleanType) && same_types args
  | LikeName =>
      bool_decide (t = booleanType) &&
      forallb (fun e => bool_decide (type_kind (Expr.expr_type e) = VARCHAR)) args
  | InName => bool_decide (t = booleanType)
  | ConditionalName => conditional_typed t args
  | CoalesceName => forallb (of_type t) args
  | RowName =>
      bool_decide (type_kind t = ROW) && forallb (fun '(i, e) => of_type (childAt t i) e) (imap pair args)
  | DereferenceName =>
      match args with [base; selector] => selects t base selector | _ => false end
  | PlainName => true
  end.

(** Type checking. *)
Fixpoint typed (types : typing) (e : Expr T V) : bool :=
  match e with
  | ColumnExpr c => bool_decide (types !! column_id c = Some (column_type c))
  | LiteralExpr v t _ => has_type t v
  | CallExpr name args t _ _ => forallb (typed types) args && well_formed_call name args t
  | FieldExpr base _ _ _ => typed types base
  | LambdaExpr args body _ _ =>
      forallb (fun c => bool_decide (types !! column_id c = Some (column_type c))) args &&
      typed types body
  | OtherExpr columns _ _ _ =>
      forallb (fun c => bool_decide (types !! column_id c = Some (column_type c))) columns
  end.

(** ** The evaluator *)

(** The value of a conditional: the first result whose condition is true. *)
Fixpoint selected (truth : Expr T V -> option bool) (val : Expr T V -> option V)
    (args : list (Expr T V)) : option V :=
  match args with
  | [] => None
  | [result] => val result
  | condition :: result :: args =>
      if bool_decide (truth condition = Some true) then val result else selected truth val args
  end.

Fixpoint first_non_null (values : list (option V)) : option V :=
  match values with
  | [] => None
  | Some v :: _ => Some v
  | None :: values => first_non_null values
  end.

(** The truth of a boolean expression. *)
Definition truth_of (eval : Expr T V -> Row V -> option V) (e : Expr T V) (r : Row V) :
    option bool := boolean <$> eval e r.

(** Expressions of one type with one value, each on a row. *)
Definition same_at (eval : Expr T V -> Row V -> option V) (r s : Row V) (a b : Expr T V) : Prop :=
  Expr.expr_type a = Expr.expr_type b /\ eval a r = eval b s.

(** Rows that differ in the arguments of a lambda only. *)
Definition binds_row (args : list (Column T)) (r r' : Row V) : Prop :=
  forall c, ~ In c (map column_id args) -> r' !! c = r !! c.

Record EvalLaws (types : typing) (eval : Expr T V -> Row V -> option V)
    (less : V -> V -> bool)
    (reversed : string -> option string) (constant : Expr T V -> option (V * T)) : Prop := {
  (** Filters on one column. *)
  eval_sql column row :
    SqlLaws functionNames column (fun e x => eval e (set_value (column_id column) x row))
      (fun e x => truth_of eval e (set_value (column_id column) x row)) less;
  (** An expression evaluates to values of its type. *)
  eval_typed e r : typed types e = true -> row_ok types r ->
    value_of_type (Expr.expr_type e) (eval e r);
  (** The value of an expression is a function of its columns, and of the values of
      its parts. *)
  eval_local e r r' :
    (forall c, In c (Expr.columns e) -> r !! column_id c = r' !! column_id c) ->
    eval e r = eval e r';
  eval_call name args args' t fs fs' i i' r s :
    Forall2 (same_at eval r s) args args' -> row_ok types r -> row_ok types s ->
    eval (CallExpr name args t fs i) r = eval (CallExpr name args' t fs' i') s;
  eval_field base base' f t i i' r s :
    same_at eval r s base base' -> row_ok types r -> row_ok types s ->
    eval (FieldExpr base f t i) r = eval (FieldExpr base' f t i') s;
  eval_lambda args body body' t i i' r s :
    (forall r' s', row_ok types r' -> row_ok types s' -> binds_row args r r' -> binds_row args s s' ->
      (forall c, In c (map column_id args) -> r' !! c = s' !! c) -> same_at eval r' s' body body') ->
    row_ok types r -> row_ok types s ->
    eval (LambdaExpr args body t i) r = eval (LambdaExpr args body' t i') s;
  (** Special forms. *)
  eval_conditional name args t fs i r :
    name = kIf \/ name = kSwitch ->
    eval (CallExpr name args t fs i) r =
      selected (fun e => truth_of eval e r) (fun e => eval e r) args;
  eval_coalesce args t fs i r :
    eval (CallExpr kCoalesce args t fs i) r = first_non_null (map (fun e => eval e r) args);
  eval_row_field fields t fs i selector t' i' t'' fs'' i'' n e r :
    isNull selector = false -> integer selector = Z.of_nat n -> fields !! n = Some e ->
    typed types e = true -> row_ok types r ->
    eval (CallExpr kDereference
      [CallExpr kRowConstructor fields t fs i; LiteralExpr selector t' i'] t'' fs'' i'') r =
    eval e r;
  eval_row_equality name fields t fs i v tv iv t' fs' i' r :
    equality functionNames = Some name -> isNull v = false -> kind v = ROW ->
    type_kind t = ROW -> length (row v) = length fields ->
    row_ok types r ->
    Forall (fun e => typed types e = true) fields -> has_type tv v = true ->
    truth_of eval (CallExpr name [CallExpr kRowConstructor fields t fs i; LiteralExpr v tv iv]
      t' fs' i') r =
    fold_right and3 (Some true)
      (imap (fun k '(e, w) =>
               truth_of eval (CallExpr name [e; LiteralExpr w (childAt tv k) 0] booleanType 0 0) r)
         (zip fields (row v)));
  (** IN over literals, in a list of its own or in an array; the elements are a
      set, one element is an equality, and IN is true when it is of one of its
      elements, which is not [NULL]. *)
  eval_in_list value literals elements t fs fs' i i' i'' r :
    mapM Expr.literal_of literals = Some elements -> literals <> [] ->
    Forall (fun e => equivalent (Expr.expr_type e) (Expr.expr_type value) = true) literals ->
    eval (CallExpr kIn (value :: literals) t fs i) r =
    eval (CallExpr kIn [value; LiteralExpr (of_array elements) (arrayType (Expr.expr_type value)) i'']
      t fs' i') r;
  eval_in_set value elements elements' t fs i r k :
    (forall v, In v elements <-> In v elements') ->
    eval (CallExpr kIn [value; LiteralExpr (of_array elements) (arrayType (Expr.expr_type value)) k]
      t fs i) r =
    eval (CallExpr kIn [value; LiteralExpr (of_array elements') (arrayType (Expr.expr_type value)) k]
      t fs i) r;
  eval_in_one name value v t fs fs' i i' k k' r :
    equality functionNames = Some name ->
    eval (CallExpr kIn [value; LiteralExpr (of_array [v]) (arrayType (Expr.expr_type value)) k]
      t fs i) r =
    eval (CallExpr name [value; LiteralExpr v (Expr.expr_type value) k'] t fs' i') r;
  eval_in_member value v tv t fs i k r :
    type_kind tv = ARRAY -> equivalent (childAt tv 0) (Expr.expr_type value) = true ->
    isNull v = false ->
    truth_of eval (CallExpr kIn [value; LiteralExpr v tv k] t fs i) r = Some true <->
    exists w, In w (array v) /\ isNull w = false /\
      truth_of eval (CallExpr kIn
        [value; LiteralExpr (of_array [w]) (arrayType (Expr.expr_type value)) 0] booleanType 0 0) r =
      Some true;
  (** Functions [functionBits] gives default null behavior, and reversible ones. *)
  eval_default_null name bits args arg t fs i r :
    functionBits name (isSpecialForm name) = Ok bits ->
    FunctionSet.contains bits FunctionSet.kNonDefaultNullBehavior = false ->
    In arg args -> eval arg r = None -> eval (CallExpr name args t fs i) r = None;
  eval_reversed name name' a b t fs fs' i i' r :
    reversed name = Some name' ->
    eval (CallExpr name [a; b] t fs i) r = eval (CallExpr name' [b; a] t fs' i') r;
  (** What Velox compiles to a constant. *)
  eval_constant e v t :
    constant e = Some (v, t) -> t = Expr.expr_type e /\ has_type t v = true /\
    forall r, eval e r = literal_value v
}.

(** Lambdas on one row. *)
Lemma eval_lambda_at types eval less reversed constant args body body' t i i' r :
  EvalLaws types eval less reversed constant ->
  (forall r', row_ok types r' -> binds_row args r r' -> same_at eval r' r' body body') ->
  row_ok types r ->
  eval (LambdaExpr args body t i) r = eval (LambdaExpr args body' t i') r.
Proof.
  intros Heval Hbody Hr. apply (eval_lambda _ _ _ _ _ Heval); [|done..].
  intros r' s' Hr' _ Hbr Hbs Hsame. assert (s' = r') as ->; [|by apply Hbody].
  apply map_eq. intros c. destruct (in_dec Nat.eq_dec c (map column_id args)) as [Hc|Hc].
  - symmetry. by apply Hsame.
  - by rewrite (Hbr c Hc), (Hbs c Hc).
Qed.
End Typing.

(** ** Names of a full registry *)

Section FullRegistry.
Context (functionNames : FunctionNames) (Hfull : full_registry functionNames = true).

Lemma not_special name :
  isSpecialForm name = false ->
  String.eqb name kAnd = false /\ String.eqb name kOr = false /\ String.eqb name kIn = false /\
  String.eqb name kIf = false /\ String.eqb name kSwitch = false /\
  String.eqb name kCoalesce = false /\ String.eqb name kRowConstructor = false /\
  String.eqb name kDereference = false.
Proof. unfold isSpecialForm. simpl. rewrite !orb_false_iff. tauto. Qed.

Lemma registered_name n :
  n ∈ registered functionNames -> exists name, n = Some name /\ isSpecialForm name = false.
Proof.
  intros Hn%list_elem_of_In. unfold full_registry in Hfull.
  apply andb_true_iff in Hfull as [_ Hall]. rewrite forallb_forall in Hall.
  specialize (Hall _ Hn). destruct n as [name|]; [|done]. exists name.
  split; [done|]. by apply negb_true_iff.
Qed.

Lemma registered_distinct : NoDup (registered functionNames).
Proof.
  unfold full_registry in Hfull. apply andb_true_iff in Hfull as [Hn _].
  by apply bool_decide_eq_true in Hn.
Qed.

Lemma complete_registry : CompleteRegistry functionNames.
Proof.
  pose proof registered_distinct as Hd. unfold registered in Hd.
  split.
  - intros op. destruct (registered_name (comparison_name functionNames op)) as (name & -> & _);
      [|done]. unfold registered. destruct op; simpl; set_solver.
  - simpl. rewrite !NoDup_cons in *. rewrite !not_elem_of_cons in *. intuition constructor.
  - rewrite !NoDup_cons in Hd. rewrite !not_elem_of_cons in Hd.
    intros op Hop. destruct op; simpl in Hop; intuition congruence.
Qed.

(** What the names of the registry are classified as. *)
Definition name_classes : list (option string * NameClass) :=
  [(equality functionNames, CompareName); (lt functionNames, CompareName);
   (lte functionNames, CompareName); (gt functionNames, CompareName);
   (gte functionNames, CompareName); (distinctFrom functionNames, CompareName);
   (negation functionNames, NegationName); (isNullName functionNames, IsNullName);
   (between functionNames, BetweenName); (like functionNames, LikeName)].

Lemma classify_registered name c :
  (Some name, c) ∈ name_classes -> classify functionNames name = c.
Proof.
  intros Hin.
  assert (Hname : Some name ∈ registered functionNames).
  { change (registered functionNames) with (name_classes.*1).
    apply (list_elem_of_fmap_2 fst _ _ Hin). }
  destruct (registered_name _ Hname) as (? & [= <-] & Hs).
  destruct (not_special _ Hs) as (H1 & H2 & H3 & H4 & H5 & H6 & H7 & H8).
  unfold classify. rewrite H1, H2, H3, H4, H5, H6, H7, H8, Hs. simpl. clear -Hin Hfull.
  pose proof registered_distinct as Hd. unfold registered in Hd.
  rewrite !NoDup_cons, !not_elem_of_cons in Hd. unfold name_classes in Hin.
  rewrite !elem_of_cons in Hin. unfold compares, name_is. simpl.
  destruct Hin as [H|[H|[H|[H|[H|[H|[H|[H|[H|[H|H]]]]]]]]]]; [..|by apply not_elem_of_nil in H];
    injection H as Hn ->; rewrite Hn in *;
    repeat case_bool_decide; try done; simpl; intuition congruence.
Qed.
End FullRegistry.
