(* ===== verification/SqlEngine.v ===== *)
(** * A concrete engine

    An instance of what the models assume of Velox - types, variants, a function
    registry and an evaluator with SQL's three-valued logic - to show that the
    assumptions hold together.  A call computes from the types and values of its
    arguments alone. *)

From Stdlib Require Import ZArith Lia Ascii.
From stdpp Require Import countable.
From S2P Require Import Prelude Domains DomainSets Expressions ExprDomains SqlSemantics.

Open Scope Z_scope.
Set Warnings "-register-all".

(** ** Types *)

Inductive Ty := Prim (k : TypeKind) | Date | ArrayOf (element : Ty) | RowOf (fields : list Ty).

Fixpoint Ty_eq_dec (a b : Ty) {struct a} : {a = b} + {a <> b}.
Proof.
  decide equality; [solve_decision|]. exact (List.list_eq_dec Ty_eq_dec fields fields0).
Defined.

#[export] Instance ty_eq_dec : EqDecision Ty := Ty_eq_dec.

#[export] Instance ty_ops : TypeOps Ty := {|
  type_kind t :=
    match t with
    | Prim ARRAY => OTHER 51 | Prim ROW => OTHER 52 | Prim k => k | Date => INTEGER 
    | ArrayOf _ => ARRAY | RowOf _ => ROW
    end;
  isPrimitiveType t := match t with Prim _ | Date => true | _ => false end;
  isDate t := match t with Date => true | _ => false end;
  isIntervalDayTime _ := false;
  isIntervalYearMonth _ := false;
  isDecimal _ := false;
  isTime _ := false;
  childAt t i := match t with ArrayOf e => e | RowOf fields => nth i fields t | _ => t end;
  equivalent s t := bool_decide (s = t);
  cppSizeInBytes t :=
    match t with
    | Prim TINYINT => 1 | Prim SMALLINT => 2 | Prim INTEGER | Date => 4 | Prim BIGINT => 8
    | _ => 16
    end;
  booleanType := Prim BOOLEAN;
  arrayType := ArrayOf
|}.

#[export] Instance ty_laws : TypeLaws Ty.
Proof.
  split; try done; try (intros [[]| | |]; simpl; done).
  - intros t. by apply bool_decide_eq_true_2.
  - intros s t Hst%bool_decide_eq_true. by apply bool_decide_eq_true_2.
  - intros s t u ->%bool_decide_eq_true Hu. exact Hu.
Qed.

(** ** Variants *)

Inductive Val :=
  | VNull (k : TypeKind) | VBool (b : bool) | VInt (k : TypeKind) (n : Z) | VStr (s : list ascii)
  | VArr (elements : list Val) | VRow (fields : list Val).

Definition in_range (k : TypeKind) (n : Z) : bool :=
  match integer_limits k with Some (lo, hi) => (lo <=? n) && (n <=? hi) | None => false end.

(** An integer outside the limits of its kind is of a kind of its own. *)
Definition val_kind (v : Val) : TypeKind :=
  match v with
  | VNull k => k | VBool _ => BOOLEAN | VInt k n => if in_range k n then k else OTHER 50
  | VStr _ => VARCHAR | VArr _ => ARRAY | VRow _ => ROW
  end.
Definition val_null (v : Val) : bool := match v with VNull _ => true | _ => false end.
Definition val_str (v : Val) : list ascii := match v with VStr s => s | _ => [] end.
Definition val_int (v : Val) : Z := match v with VInt _ n => n | _ => 0 end.

Definition kind_code (k : TypeKind) : Z :=
  match k with
  | TINYINT => 0 | SMALLINT => 1 | INTEGER => 2 | BIGINT => 3 | VARCHAR => 4 | ARRAY => 5
  | BOOLEAN => 6 | ROW => 7 | OTHER n => 8 + Z.of_nat n
  end.

(** An injection into the integers. *)
Fixpoint val_tree (v : Val) : gen_tree (list Z) :=
  match v with
  | VNull k => GenLeaf [0; kind_code k]
  | VBool b => GenLeaf [1; Z.b2z b]
  | VInt k n => GenLeaf [2; kind_code k; n]
  | VStr s => GenLeaf (3 :: bytes s)
  | VArr l => GenNode 0 (map val_tree l)
  | VRow l => GenNode 1 (map val_tree l)
  end.

Definition val_code (v : Val) : Z := Z.pos (encode (val_tree v)).

(** Variants in order: nulls, then by kind, then by value. *)
Definition val_key (v : Val) : list Z :=
  if val_null v then [-1; kind_code (val_kind v)]
  else kind_code (val_kind v) ::
       match val_kind v with
       | TINYINT | SMALLINT | INTEGER | BIGINT => [val_int v]
       | VARCHAR => bytes (val_str v)
       | _ => [val_code v]
       end.

#[export] Instance val_order : VariantOrder Val := {|
  vlt a b := lex_lt (val_key a) (val_key b);
  veq a b := negb (lex_lt (val_key a) (val_key b)) && negb (lex_lt (val_key b) (val_key a))
|}.

(** [static_cast] to the width of a kind. *)
Definition wrap (k : TypeKind) (n : Z) : Z :=
  match integer_limits k with
  | Some (lo, hi) => (n - lo) mod (hi - lo + 1) + lo
  | None => n
  end.

#[export] Instance val_ops : VariantOps Val := {|
  isNull := val_null; kind := val_kind; integer := val_int; varchar := val_str;
  boolean v := match v with VBool b => b | _ => false end;
  array v := match v with VArr l => l | _ => [] end;
  row v := match v with VRow l => l | _ => [] end;
  of_integer k n := VInt k (wrap k n); of_string := VStr; of_bool := VBool; of_array := VArr;
  null_of := VNull
|}.

Lemma wrap_in_range k n : is_integer_kind k = true -> in_range k (wrap k n) = true.
Proof.
  unfold in_range, wrap. destruct (integer_limits k) as [[lo hi]|] eqn:E; [|by destruct k].
  intros _. assert (0 < hi - lo + 1) by (destruct k; try done; injection E as <- <-; done).
  pose proof (Z.mod_pos_bound (n - lo) (hi - lo + 1)).
  rewrite andb_true_iff, !Z.leb_le. lia.
Qed.

Lemma wrap_id k n : in_limits k n -> wrap k n = n.
Proof.
  unfold in_limits, wrap. destruct (integer_limits k) as [[lo hi]|]; [|done].
  intros ?. rewrite Z.mod_small; lia.
Qed.

Lemma in_range_limits k n : in_range k n = true <-> in_limits k n.
Proof.
  unfold in_range, in_limits. destruct (integer_limits k) as [[lo hi]|]; [|done].
  by rewrite andb_true_iff, !Z.leb_le.
Qed.

#[export] Instance val_laws : VariantLaws Val.
Proof.
  split; try done.
  - split; simpl; [intros; apply lex_lt_irrefl|intros * ? ?; by eapply lex_lt_trans|
      intros * ? ?; by eapply lex_lt_incomparable|done].
  - intros [k|b|k n|s|l|l]; simpl; try done. intros _. destruct (in_range k n) eqn:E; [|done].
    intros _. by apply in_range_limits.
  - intros k n Hk. simpl. by rewrite wrap_in_range.
  - intros k n Hk. simpl. by apply wrap_id.
  - intros u v Hu Hv Hku Hkv. simpl in *. unfold val_key. rewrite Hu, Hv, Hku, Hkv. simpl.
    by rewrite andb_false_r, orb_false_r.
  - intros u v Hu Hv Hku Hkv. simpl in *. unfold val_key. by rewrite Hu, Hv, Hku, Hkv.
Qed.

(** Distinct variants are not equal. *)
Lemma lex_lt_total a b : lex_lt a b = false -> lex_lt b a = false -> a = b.
Proof.
  revert b. induction a as [|x a IH]; intros [|y b]; simpl; try done.
  rewrite !orb_false_iff, !andb_false_iff, !Z.ltb_ge, !Z.eqb_neq. intros [? [?|?]] [? [?|?]]; try lia.
  assert (x = y) as -> by lia. f_equal. auto.
Qed.

Lemma kind_code_inj k l : kind_code k = kind_code l -> k = l.
Proof. destruct k, l; simpl; try lia; intros; f_equal; lia. Qed.

Lemma bytes_inj s s' : bytes s = bytes s' -> s = s'.
Proof.
  revert s'. induction s as [|c s IH]; intros [|d s']; simpl; try done. intros [= Hc%N2Z.inj Hs].
  f_equal; [by apply byte_value_inj|auto].
Qed.

Section ValInduction.
Variable P : Val -> Prop.
Hypothesis null_case : forall k, P (VNull k).
Hypothesis bool_case : forall b, P (VBool b).
Hypothesis int_case : forall k n, P (VInt k n).
Hypothesis str_case : forall s, P (VStr s).
Hypothesis arr_case : forall l, Forall P l -> P (VArr l).
Hypothesis row_case : forall l, Forall P l -> P (VRow l).

Fixpoint Val_nested_ind (v : Val) : P v :=
  let all := fix all (l : list Val) : Forall P l :=
    match l with
    | [] => List.Forall_nil P
    | v :: l => List.Forall_cons P v l (Val_nested_ind v) (all l)
    end in
  match v with
  | VNull k => null_case k
  | VBool b => bool_case b
  | VInt k n => int_case k n
  | VStr s => str_case s
  | VArr l => arr_case l (all l)
  | VRow l => row_case l (all l)
  end.
End ValInduction.

Lemma val_tree_inj u v : val_tree u = val_tree v -> u = v.
Proof.
  assert (Hlist : forall l, Forall (fun u => forall v, val_tree u = val_tree v -> u = v) l ->
    forall l', map val_tree l = map val_tree l' -> l = l').
  { induction 1 as [|x l Hx _ IH]; intros [|y l'] [=]; [done|]. f_equal; auto. }
  revert v. induction u as [k|b|k n|s|l IH|l IH] using Val_nested_ind;
    intros [k'|b'|k' n'|s'|l'|l']; simpl; try done; intros [=]; f_equal.
  all: eauto using kind_code_inj, bytes_inj.
  by destruct b, b'.
Qed.

Lemma val_code_inj u v : val_code u = val_code v -> u = v.
Proof. unfold val_code. intros [= Heq]. by apply val_tree_inj, (inj encode). Qed.

(** The constructor of a non-null value, by its kind. *)
Lemma val_kind_integer v :
  val_null v = false -> is_integer_kind (val_kind v) = true -> v = VInt (val_kind v) (val_int v).
Proof. destruct v as [|?|k n| | |]; simpl; try done. by destruct (in_range k n). Qed.

Lemma val_kind_varchar v : val_null v = false -> val_kind v = VARCHAR -> v = VStr (val_str v).
Proof.
  destruct v as [|?|k n| | |]; simpl; try done. intros _.
  destruct (in_range k n) eqn:E; [|done]. by intros ->.
Qed.

Lemma val_key_null v : val_null v = true -> v = VNull (val_kind v).
Proof. by destruct v. Qed.

Lemma veq_eq (u v : Val) : veq u v = true -> u = v.
Proof.
  simpl. rewrite andb_true_iff, !negb_true_iff. intros [Hu Hv].
  pose proof (lex_lt_total _ _ Hu Hv) as Hk. clear Hu Hv. unfold val_key in Hk.
  assert (Hcode : forall k, kind_code k <> -1) by (intros []; simpl; lia).
  destruct (val_null u) eqn:Eu, (val_null v) eqn:Ev.
  - injection Hk as Hk. rewrite (val_key_null u), (val_key_null v) by done. f_equal. by apply kind_code_inj.
  - injection Hk as Hk _. by destruct (Hcode (val_kind v)).
  - injection Hk as Hk _. by destruct (Hcode (val_kind u)).
  - injection Hk as Hk Hr. apply kind_code_inj in Hk. rewrite <- Hk in Hr.
    destruct (is_integer_kind (val_kind u)) eqn:Ei.
    + rewrite (val_kind_integer u), (val_kind_integer v) by (done || by rewrite <- Hk).
      rewrite <- Hk. f_equal. revert Ei Hr. destruct (val_kind u); simpl; congruence.
    + destruct (decide (val_kind u = VARCHAR)) as [Es|Es].
      * rewrite (val_kind_varchar u), (val_kind_varchar v) by (done || congruence).
        rewrite Es in Hr. by apply bytes_inj in Hr as ->.
      * apply val_code_inj. revert Ei Es Hr. destruct (val_kind u); simpl; congruence.
Qed.

(** ** Types of values *)

Fixpoint has_ty (t : Ty) (v : Val) {struct v} : bool :=
  match v with
  | VNull _ => true
  | VArr l => match t with ArrayOf e => forallb (has_ty e) l | _ => false end
  | VRow l =>
      match t with
      | RowOf fields =>
          (fix go (i : nat) (l : list Val) : bool :=
             match l with
             | [] => true
             | v :: l => has_ty (nth i fields t) v && go (S i) l
             end) O l
      | _ => false
      end
  | _ => bool_decide (val_kind v = type_kind t)
  end.

#[export] Instance val_types : TypedValues Ty Val.
Proof.
  refine {| has_type := has_ty |}.
  - intros t [k|b|k n|s|l|l] Ht Hn; try done; try (by apply bool_decide_eq_true in Ht); by destruct t.
  - by intros t [].
  - intros t [k|b|k n|s|l|l] Ht Hn Hk; try done. by destruct t.
  - intros t [k|b|k n|s|l|l] i w Ht Hn Hi; try done. destruct t as [| | |fields]; try done.
    simpl in *. change i with (0 + i)%nat. revert i Ht Hi. generalize O.
    induction l as [|v l IH]; intros n i Ht Hi; [done|].
    apply andb_true_iff in Ht as [Hv Ht].
    destruct i as [|i]; simpl in *; [by rewrite Nat.add_0_r; simplify_eq|].
    rewrite Nat.add_succ_r. by apply (IH (S n)).
  - intros b. by apply bool_decide_eq_true_2.
  - intros t n Hk Hl. simpl. apply bool_decide_eq_true_2.
    by rewrite wrap_in_range.
  - done.
  - intros s t v Hst. simpl in Hst. by apply bool_decide_eq_true in Hst as ->.
  - intros s t Hst. simpl in Hst. by apply bool_decide_eq_true in Hst as ->.
  - intros s t i Hst. simpl in Hst. apply bool_decide_eq_true in Hst as ->. by apply bool_decide_eq_true_2.
  - intros [k|b|k n|s|l|l] Hn Hk; try done. simpl in Hk.
    destruct (in_range k n) eqn:E; [by subst k|done].
Defined.

(** ** The registry *)

Definition presto : FunctionNames := {|
  equality := Some "eq"%string; negation := Some "not"%string; lt := Some "lt"%string;
  lte := Some "lte"%string; gt := Some "gt"%string; gte := Some "gte"%string;
  isNullName := Some "is_null"%string; distinctFrom := Some "distinct_from"%string;
  between := Some "between"%string; like := Some "like"%string
|}.

Lemma presto_full : full_registry presto = true.
Proof. vm_compute. reflexivity. Qed.

(** [reversibleFunctions] *)
Definition presto_reversed (name : string) : option string :=
  if String.eqb name "eq" then Some "eq"%string
  else if String.eqb name "distinct_from" then Some "distinct_from"%string
  else if String.eqb name "lt" then Some "gt"%string
  else if String.eqb name "lte" then Some "gte"%string
  else if String.eqb name "gt" then Some "lt"%string
  else if String.eqb name "gte" then Some "lte"%string
  else None.

(** ** Functions *)

(** [LIKE] without an escape character. *)
Fixpoint like_matches (pattern s : list ascii) : bool :=
  match pattern with
  | [] => match s with [] => true | _ => false end
  | p :: pattern =>
      if Ascii.eqb p "%" then
        (fix any (s : list ascii) : bool :=
           like_matches pattern s || match s with [] => false | _ :: s => any s end) s
      else match s with
           | [] => false
           | c :: s => (Ascii.eqb p "_" || Ascii.eqb p c) && like_matches pattern s
           end
  end.

(** Integers compare across kinds. *)
Definition val_less (u v : Val) : bool :=
  if is_integer_kind (kind u) && is_integer_kind (kind v) && negb (isNull u) && negb (isNull v)
  then integer u <? integer v else vlt u v.

(** Equality; a [NULL] field leaves that of a row open. *)
Fixpoint equal3 (u v : Val) {struct u} : option bool :=
  match u, v with
  | VRow l, VRow l' =>
      (fix go (l l' : list Val) : option bool :=
         match l, l' with
         | [], [] => Some true
         | a :: l, b :: l' => and3 (if val_null a || val_null b then None else equal3 a b) (go l l')
         | _, _ => Some false
         end) l l'
  | _, _ => Some (comparison_holds val_less Equal u v)
  end.

(** [s] and [t] are the types of the two sides. *)
Definition equal_at (s t : Ty) (u v : Val) : option bool :=
  if isPrimitiveType s && isPrimitiveType t
  then Some (comparison_holds val_less Equal u v) else equal3 u v.

Definition as_bool (x : option Val) : option bool := boolean <$> x.
Definition of_truth (b : option bool) : option Val := VBool <$> b.

(** A function of two values that is [NULL] on [NULL]. *)
Definition both (f : Val -> Val -> option bool) (x y : option Val) : option bool :=
  match x, y with Some u, Some v => f u v | _, _ => None end.

Definition compare_name (name : string) : option Comparison :=
  if String.eqb name "lt" then Some Less
  else if String.eqb name "lte" then Some LessEqual
  else if String.eqb name "gt" then Some Greater
  else if String.eqb name "gte" then Some GreaterEqual
  else None.

Definition in_elements (t : Ty) (u : Val) (elements : list (option Val)) : option bool :=
  fold_right or3 (Some false) (map (both (equal_at t t) (Some u)) elements).

Definition in_truth (types : list Ty) (values : list (option Val)) : option bool :=
  match types, values with
  | t :: types, x :: rest =>
      let elements :=
        match types, rest with
        | [ArrayOf e], [y] =>
            if bool_decide (e = t) then
              match y with Some v => Some (map literal_value (array v)) | None => None end
            else Some rest
        | _, _ => Some rest
        end in
      match x, elements with
      | Some u, Some elements => in_elements t u elements
      | _, _ => None
      end
  | _, _ => None
  end.

Definition like_truth (u p : Val) : option bool :=
  if bool_decide (kind u = VARCHAR) && negb (isNull u)
  then Some (like_matches (varchar p) (varchar u)) else None.

(** The truth of the boolean functions. *)
Definition apply_truth (name : string) (types : list Ty) (values : list (option Val)) :
    option bool :=
  if String.eqb name kAnd then fold_right and3 (Some true) (map as_bool values)
  else if String.eqb name kOr then fold_right or3 (Some false) (map as_bool values)
  else if String.eqb name kIn then in_truth types values
  else
    match values with
    | [x] =>
        if String.eqb name "not" then not3 (as_bool x)
        else if String.eqb name "is_null" then Some (negb (has_value x))
        else None
    | [x; y] =>
        if String.eqb name "eq" then
          match types with [s; t] => both (equal_at s t) x y | _ => None end
        else if String.eqb name "distinct_from" then
          Some (match x, y with
                | None, None => false
                | Some u, Some v => negb (comparison_holds val_less Equal u v)
                | _, _ => true
                end)
        else if String.eqb name "like" then
          both like_truth x y
        else match compare_name name with
             | Some op => strict (comparison_holds val_less op) x y
             | None => None
             end
    | [x; y; z] =>
        if String.eqb name "between" then
          match y, z with
          | Some _, Some _ =>
              and3 (strict (comparison_holds val_less GreaterEqual) x y)
                   (strict (comparison_holds val_less LessEqual) x z)
          | _, _ => None
          end
        else None
    | _ => None
    end.

Fixpoint selected_value (values : list (option Val)) : option Val :=
  match values with
  | [] => None
  | [result] => result
  | condition :: result :: values =>
      if bool_decide (as_bool condition = Some true) then result else selected_value values
  end.

Definition cast_value (t : Ty) (values : list (option Val)) : option Val :=
  match values with
  | [Some u] =>
      if is_integer_kind (kind u) && is_integer_kind (type_kind t) && in_range (type_kind t) (integer u)
      then Some (VInt (type_kind t) (integer u))
      else if has_ty t u then Some u else None
  | _ => None
  end.

(** What a call evaluates to, from the types and values of its arguments. *)
Definition apply (name : string) (types : list Ty) (values : list (option Val)) (t : Ty) :
    option Val :=
  if String.eqb name kIf || String.eqb name kSwitch then selected_value values
  else if String.eqb name kCoalesce then first_non_null values
  else if String.eqb name kCast || String.eqb name kTryCast then cast_value t values
  else if String.eqb name kRowConstructor then
    Some (VRow (zip_with (fun t x => default (VNull (type_kind t)) x) types values))
  else if String.eqb name kDereference then
    match values with
    | [Some (VRow fields); Some selector] =>
        fields !! Z.to_nat (integer selector) ≫= literal_value
    | _ => None
    end
  else of_truth (apply_truth name types values).

Abbreviation Filter := (Expr Ty Val).

Fixpoint eval (e : Filter) (r : Row Val) : option Val :=
  match e with
  | ColumnExpr c => r !! column_id c
  | LiteralExpr v _ _ => literal_value v
  | CallExpr name args t _ _ => apply name (map Expr.expr_type args) (map (fun e => eval e r) args) t
  | _ => None
  end.

(** ** The evaluator has the laws of SQL *)

Lemma presto_complete : CompleteRegistry presto.
Proof.
  split; [by intros []| |by intros []].
  apply (bool_decide_unpack _). vm_compute. exact I.
Qed.

(** The functions with default null behavior. *)
Definition default_null_functions : list string :=
  ["eq"; "lt"; "lte"; "gt"; "gte"; "not"; "like"; "between"]%string.

#[export] Instance presto_registry : FunctionRegistry := {|
  inference _ := None;
  isDeterministic name := Some (negb (String.eqb name "rand"));
  isDefaultNullBehavior name :=
    Some (existsb (String.eqb name) default_null_functions);
  functionMetadata _ := true
|}.

(** Folds what reads no columns. *)
Definition presto_constant (e : Filter) : option (Val * Ty) :=
  match Expr.columns e, eval e ∅ with
  | [], x =>
      let v := default (VNull (type_kind (Expr.expr_type e))) x in
      if negb (val_null v && bool_decide (is_Some x)) && has_ty (Expr.expr_type e) v
      then Some (v, Expr.expr_type e) else None
  | _, _ => None
  end.

Lemma literal_value_null (v : Val) : isNull v = false -> literal_value v = Some v.
Proof. unfold literal_value. by intros ->. Qed.

Lemma as_bool_of_truth b : as_bool (of_truth b) = b.
Proof. by destruct b. Qed.

Lemma equal_holds_comm u v :
  comparison_holds val_less Equal u v = comparison_holds val_less Equal v u.
Proof. apply andb_comm. Qed.

Lemma and3_comm a b : and3 a b = and3 b a.
Proof. by destruct a as [[]|], b as [[]|]. Qed.

Lemma equal3_comm u v : equal3 u v = equal3 v u.
Proof.
  revert v. induction u as [k|b|k n|s|l IH|l IH] using Val_nested_ind; intros [k'|b'|k' n'|s'|l'|l'];
    try exact (f_equal Some (equal_holds_comm _ _)).
  simpl. revert l'. induction IH as [|u l Hu _ IH]; intros [|v l']; try done.
  rewrite IH. f_equal. rewrite orb_comm. destruct (_ || _); [done|]. apply Hu.
Qed.

Lemma equal_at_comm s t u v : equal_at s t u v = equal_at t s v u.
Proof.
  unfold equal_at. rewrite andb_comm. destruct (_ && _); [by rewrite equal_holds_comm|].
  apply equal3_comm.
Qed.

Lemma like_matches_prefix pattern s :
  like_matches pattern s = true ->
  starts_with (before_wildcard pattern) s = true /\
  (before_wildcard pattern = pattern -> s = pattern).
Proof.
  revert s. induction pattern as [|p pattern IH]; intros s; simpl; [by destruct s|].
  unfold is_wildcard. destruct (Ascii.eqb p "%"); simpl; [done|].
  destruct s as [|c s]; [done|].
  destruct (Ascii.eqb p "_"); simpl; [done|].
  intros [<-%Ascii.eqb_eq Hm]%andb_true_iff. destruct (IH s Hm) as [Hs He].
  rewrite Ascii.eqb_refl. split; [done|]. intros [= Hp]. f_equal. auto.
Qed.

(** [eval] does not look at ids, at function sets, or at how an argument is written. *)
Lemma eval_same_args (args args' : list Filter) r s :
  Forall2 (same_at eval r s) args args' ->
  map Expr.expr_type args = map Expr.expr_type args' /\
  map (fun e => eval e r) args = map (fun e => eval e s) args'.
Proof.
  induction 1 as [|a b args args' [Ht He] _ [IHt IHe]]; [done|].
  simpl. split; f_equal; auto.
Qed.

(** A value depends on the columns alone. *)
Lemma eval_columns (e : Filter) r r' :
  (forall c, In c (Expr.columns e) -> r !! column_id c = r' !! column_id c) -> eval e r = eval e r'.
Proof.
  induction e as [c| |name args t fs i IH| | |] using Expr_nested_ind; try done.
  - intros Hc. apply Hc. by left.
  - simpl. intros Hc. f_equal. induction IH as [|a args Ha _ IH]; [done|].
    simpl in *. setoid_rewrite in_app_iff in Hc. f_equal; auto.
Qed.

Lemma presto_constant_sound e v t :
  presto_constant e = Some (v, t) ->
  t = Expr.expr_type e /\ has_ty t v = true /\ forall r, eval e r = literal_value v.
Proof.
  unfold presto_constant. destruct (Expr.columns e) eqn:Hc; [|done].
  destruct (_ && _) eqn:Hv; [|done]. intros [= <- <-].
  apply andb_true_iff in Hv as [Hn%negb_true_iff Ht]. split; [done|]. split; [done|].
  intros r. rewrite (eval_columns e r ∅) by (by rewrite Hc). unfold literal_value. simpl.
  destruct (eval e ∅) as [u|]; simpl in *; [|done]. by destruct (val_null u).
Qed.

Lemma truth_apply name args t fs i r :
  existsb (String.eqb name) [kIf; kSwitch; kCoalesce; kCast; kTryCast; kRowConstructor; kDereference]
    = false ->
  truth_of eval (CallExpr name args t fs i) r =
  apply_truth name (map Expr.expr_type args) (map (fun e => eval e r) args).
Proof.
  simpl. rewrite orb_false_r, !orb_false_iff.
  intros (Hn1 & Hn2 & Hn3 & Hn4 & Hn5 & Hn6 & Hn7).
  unfold truth_of. simpl. unfold apply. rewrite Hn1, Hn2, Hn3, Hn4, Hn5, Hn6, Hn7. simpl.
  apply as_bool_of_truth.
Qed.

Lemma eval_cast name arg t fs i r :
  name = kCast \/ name = kTryCast ->
  eval (CallExpr name [arg] t fs i) r = cast_value t [eval arg r].
Proof. by intros [-> | ->]. Qed.

Lemma primitive_pair (a b : Filter) (x y : option Val) :
  primitive a = true -> primitive b = true ->
  both (equal_at (Expr.expr_type a) (Expr.expr_type b)) x y =
  strict (comparison_holds val_less Equal) x y.
Proof.
  unfold primitive, equal_at. intros -> ->. by destruct x, y.
Qed.

Lemma in_elements_primitive (t : Ty) u elements :
  isPrimitiveType t = true ->
  in_elements t u (map literal_value elements) = in3 val_less u elements.
Proof.
  intros Ht. unfold in_elements. induction elements as [|v elements IH]; [done|].
  simpl. rewrite IH. f_equal. unfold equal_at. rewrite Ht. by destruct (literal_value v).
Qed.

(** A list and an array of the values are the same to IN. *)
Lemma in_array (t : Ty) x v :
  in_truth [t; ArrayOf t] [x; Some v] =
  match x with Some u => in_elements t u (map literal_value (array v)) | None => None end.
Proof. unfold in_truth. rewrite bool_decide_eq_true_2 by done. by destruct x. Qed.

Lemma apply_like ts x y : apply_truth "like" ts [x; y] = both like_truth x y.
Proof. reflexivity. Qed.

Lemma presto_sql column row :
  SqlLaws presto column (fun e x => eval e (set_value (column_id column) x row))
    (fun e x => truth_of eval e (set_value (column_id column) x row)) val_less.
Proof.
  split.
  - intros u v Hu Hv Hku Hkv. unfold val_less. by rewrite Hu, Hv, Hku, Hkv.
  - intros u v Hu Hv Hk. unfold val_less.
    destruct (is_integer_kind (kind u)) eqn:Hi; [|done]. rewrite <- Hk, Hi, Hu, Hv. simpl in *.
    unfold val_key. rewrite Hu, Hv, <- Hk.
    destruct (val_kind u); simpl; try done; by rewrite ?Z.ltb_irrefl, ?andb_false_r, ?orb_false_r.
  - intros c x Hc. simpl. rewrite Hc. apply set_value_lookup.
  - done.
  - intros name arg t fs i x Hn Hv. by rewrite eval_cast, Hv.
  - intros name arg t fs i x u Hn Hv Hu Hk Ht Hlim. rewrite eval_cast, Hv by done.
    unfold cast_value. apply in_range_limits in Hlim.
    assert (is_integer_kind (type_kind t) = true) as ->.
    { unfold integralTypeDomain in Ht. destruct (_ || _); [done|]. by destruct (type_kind t). }
    rewrite Hk, Hlim. simpl. eexists. split; [done|]. split; [done|]. simpl.
    simpl in Hlim. by rewrite Hlim.
  - intros arg name t fs i x [= <-]. by rewrite truth_apply.
  - intros args t fs i x. rewrite truth_apply by done.
    exact (f_equal (fold_right and3 (Some true)) (List.map_map _ _ _)).
  - intros args t fs i x. rewrite truth_apply by done.
    exact (f_equal (fold_right or3 (Some false)) (List.map_map _ _ _)).
  - intros arg name t fs i x [= <-]. by rewrite truth_apply.
  - intros op a b name t fs i x Hname Ha Hb.
    destruct op; injection Hname as <-; rewrite truth_apply by done; simpl; [|done..].
    by apply primitive_pair.
  - intros a b name t fs i x [= <-] _ _. by rewrite truth_apply.
  - intros a b c name t fs i x [= <-] _ _ _ Hb Hc. rewrite truth_apply by done.
    simpl. destruct (eval b _), (eval c _); done.
  - intros a b t fs i elements x Hin Hp. rewrite truth_apply by done. simpl.
    unfold constantInList in Hin. simpl in Hin.
    destruct b as [|v tv iv| | | |]; try done. destruct (_ || _ || _) eqn:Hc; [done|].
    injection Hin as <-. rewrite !orb_false_iff, !negb_false_iff in Hc.
    destruct Hc as [[Hk Hn] He]. apply bool_decide_eq_true in Hk, He. simpl in *.
    unfold literal_value. simpl. rewrite Hn.
    destruct tv as [k| |e|fields]; try done.
    + by destruct k.
    + simpl in He. subst e. etransitivity; [apply in_array|].
      destruct (eval a _) as [u|]; [|done]. by apply in_elements_primitive.
  - intros a p tp ip name t fs i x [= <-] Hnp Hkp. rewrite truth_apply by done.
    cbn [map eval]. rewrite apply_like, (literal_value_null p Hnp). destruct (eval a _) as [u|]; [|done].
    cbn [both]. unfold like_truth. simpl. case_bool_decide as Hku; simpl; [|done]. destruct (val_null u) eqn:Hnu; [done|].
    intros [= Hm]. exists u. repeat split; [done..| |]; by apply like_matches_prefix in Hm as [? ?].
Qed.

(** ** Type soundness *)

(** Splits on the first test of a name in the goal. *)
Ltac test_name name :=
  match goal with |- context [String.eqb name ?s] => destruct (String.eqb_spec name s) end.

Ltac compute_classify H :=
  unfold well_formed_call in H;
  match type of H with
  | context [classify presto ?name] =>
      let c := eval vm_compute in (classify presto name) in
      change (classify presto name) with c in H; cbv beta iota in H
  end.

Lemma row_has_ty (fields : list Ty) t i (l : list Val) :
  (forall k v, l !! k = Some v -> has_ty (nth (i + k) fields t) v = true) ->
  (fix go (i : nat) (l : list Val) : bool :=
     match l with
     | [] => true
     | v :: l => has_ty (nth i fields t) v && go (S i) l
     end) i l = true.
Proof.
  revert i. induction l as [|v l IH]; intros i Hl; [done|]. apply andb_true_iff. split.
  - specialize (Hl O v eq_refl). by rewrite Nat.add_0_r in Hl.
  - apply IH. intros k w Hk. rewrite Nat.add_succ_comm. by apply Hl.
Qed.

Lemma apply_truth_boolean name args ts vs t b :
  apply_truth name ts vs = Some b -> well_formed_call presto name args t = true -> t = booleanType.
Proof.
  intros Ha Hw.
  assert (Hname : In name [kAnd; kOr; kIn; "not"; "is_null"; "eq"; "distinct_from"; "like"; "lt";
    "lte"; "gt"; "gte"; "between"]%string).
  { revert Ha. unfold apply_truth, compare_name.
    destruct vs as [|x [|y [|z [|]]]];
      repeat (test_name name; [subst; intros _; repeat first [left; reflexivity|right]|]); done. }
  repeat (destruct Hname as [<-|Hname];
    [compute_classify Hw; rewrite ?andb_true_iff in Hw; decompose [and] Hw;
     by repeat match goal with H : bool_decide _ = true |- _ => apply bool_decide_eq_true in H end|]).
  done.
Qed.

Section TypeSoundness.
Variable (types : gmap nat Ty) (r : Row Val).
Hypothesis Hr : row_ok types r.

Abbreviation sound e := (value_of_type (Expr.expr_type e) (eval e r)).

Lemma literal_sound v t : has_ty t v = true -> value_of_type t (literal_value v).
Proof. unfold literal_value. simpl. intros Ht. by destruct (val_null v) eqn:E. Qed.

Lemma selected_sound t args :
  Forall (fun e => sound e) args -> conditional_typed t args = true ->
  value_of_type t (selected_value (map (fun e => eval e r) args)).
Proof.
  induction args as [|result|condition result args IH] using list_pairs_ind; intros Hs Ht; [done| |].
  - apply bool_decide_eq_true in Ht. inversion Hs. by subst.
  - simpl in Ht. rewrite !andb_true_iff in Ht. destruct Ht as [[_ Ht%bool_decide_eq_true] Hargs].
    inversion Hs as [|? ? _ Hs']; subst. inversion Hs' as [|? ? Hres Hs'']; subst.
    simpl. case_bool_decide; [done|]. by apply IH.
Qed.

Lemma first_non_null_sound t args :
  Forall (fun e => sound e) args -> forallb (of_type t) args = true ->
  value_of_type t (first_non_null (map (fun e => eval e r) args)).
Proof.
  induction 1 as [|e args He _ IH]; [done|]. simpl.
  intros [Ht%bool_decide_eq_true Hargs]%andb_true_iff. subst t.
  destruct (eval e r); [done|]. by apply IH.
Qed.

Lemma cast_sound t arg : sound arg -> value_of_type t (cast_value t [eval arg r]).
Proof.
  unfold cast_value. destruct (eval arg r) as [u|]; [|done]. intros [Hn _]. destruct (_ && _) eqn:E.
  - rewrite !andb_true_iff in E. destruct E as [_ E]. split; [done|].
    simpl in *. rewrite E. by apply bool_decide_eq_true_2.
  - by destruct (has_ty t u) eqn:Eu.
Qed.

Lemma row_sound t args :
  Forall (fun e => sound e) args -> type_kind t = ROW ->
  forallb (fun '(i, e) => of_type (childAt t i) e) (imap pair args) = true ->
  value_of_type t (Some (VRow (zip_with (fun t x => default (VNull (type_kind t)) x)
    (map Expr.expr_type args) (map (fun e => eval e r) args)))).
Proof.
  intros Hs Hk Ht. split; [done|]. destruct t as [[]| | |fields]; try done. simpl.
  apply row_has_ty. intros k v Hk'. simpl in *.
  apply lookup_zip_with_Some in Hk' as (t & x & -> & Ht' & Hx').
  change (map ?f args) with (f <$> args) in Ht'.
  change (map ?f args) with (f <$> args) in Hx'.
  apply list_lookup_fmap_Some in Ht' as (e & -> & He).
  apply list_lookup_fmap_Some in Hx' as (e' & -> & He').
  rewrite He in He'. injection He' as <-. rewrite forallb_forall in Ht.
  assert (Hin : In (k, e) (imap pair args)).
  { apply list_elem_of_In, list_elem_of_lookup. exists k. by rewrite list_lookup_imap, He. }
  apply Ht in Hin. apply bool_decide_eq_true in Hin. simpl in Hin. rewrite <- Hin.
  rewrite Forall_forall in Hs. specialize (Hs e (list_elem_of_lookup_2 _ _ _ He)).
  destruct (eval e r); [by destruct Hs|done].
Qed.

(** A well-typed expression evaluates to values of its type. *)
Lemma eval_sound e : typed presto types e = true -> sound e.
Proof.
  induction e as [c|v t i|name args t fs i IH| | |] using Expr_nested_ind; try done.
  - intros Hc%bool_decide_eq_true. by apply Hr.
  - apply literal_sound.
  - simpl. intros [Hargs Hw]%andb_true_iff.
    assert (Hs : Forall (fun e => sound e) args).
    { rewrite List.Forall_forall in *. rewrite forallb_forall in Hargs. auto. }
    clear IH Hargs. unfold apply.
    repeat (test_name name; [subst; cbn [orb]|cbn [orb]]).
    1-2: by apply selected_sound.
    1: by apply first_non_null_sound.
    1-2: destruct args as [|arg [|]]; [done| |simpl; by destruct (eval arg r)];
      inversion Hs; by apply cast_sound.
    1: { compute_classify Hw. apply andb_true_iff in Hw as [Hk%bool_decide_eq_true Hw].
      by apply row_sound. }
    1: { compute_classify Hw. destruct args as [|base [|selector [|]]]; try done.
      inversion Hs as [|? ? Hb Hs']; subst. unfold selects in Hw.
      destruct selector as [|v tv iv| | | |]; try done. apply bool_decide_eq_true in Hw. subst t.
      simpl. destruct (eval base r) as [[| | | | |fields]|]; try done.
      unfold literal_value. destruct (isNull v); [done|].
      destruct (fields !! _) as [w|] eqn:Hw; [|done]. simpl. destruct Hb as [_ Hb].
      apply (literal_sound w).
      exact (has_type_row (Expr.expr_type base) (VRow fields) _ w Hb eq_refl Hw). }
    destruct (apply_truth _ _ _) as [b|] eqn:Ha; [|done]. simpl. split; [done|].
    apply bool_decide_eq_true_2. by rewrite (apply_truth_boolean _ _ _ _ _ _ Ha Hw).
Qed.
End TypeSoundness.

(** ** All laws together *)

(** The disjunction of a list depends on its set of elements. *)
Lemma or3_set (l l' : list (option bool)) :
  (forall b, b ∈ l <-> b ∈ l') ->
  fold_right or3 (Some false) l = fold_right or3 (Some false) l'.
Proof.
  assert (Hspec : forall l, fold_right or3 (Some false) l =
    if bool_decide (Some true ∈ l) then Some true
    else if bool_decide (None ∈ l) then None else Some false).
  { clear. induction l as [|b l IH]; simpl; [done|]. rewrite IH.
    rewrite !(bool_decide_ext _ _ (elem_of_cons l _ b)).
    destruct b as [[]|]; repeat case_bool_decide; simpl; intuition congruence. }
  intros Hl. rewrite !Hspec. by rewrite !(bool_decide_ext _ _ (Hl _)).
Qed.

Lemma in_elements_set t u vs vs' :
  (forall v, In v vs <-> In v vs') ->
  in_elements t u (map literal_value vs) = in_elements t u (map literal_value vs').
Proof.
  intros Hv. unfold in_elements. apply or3_set. intros b.
  rewrite !list_elem_of_In, !in_map_iff. setoid_rewrite in_map_iff. by setoid_rewrite Hv.
Qed.

Lemma eval_predicate name args t fs i r :
  existsb (String.eqb name) [kIf; kSwitch; kCoalesce; kCast; kTryCast; kRowConstructor; kDereference]
    = false ->
  eval (CallExpr name args t fs i) r =
  of_truth (apply_truth name (map Expr.expr_type args) (map (fun e => eval e r) args)).
Proof.
  simpl. rewrite orb_false_r, !orb_false_iff.
  intros (Hn1 & Hn2 & Hn3 & Hn4 & Hn5 & Hn6 & Hn7). unfold apply.
  by rewrite Hn1, Hn2, Hn3, Hn4, Hn5, Hn6, Hn7.
Qed.

Lemma eval_in_array (value : Filter) vs t fs i k r :
  eval (CallExpr kIn [value; LiteralExpr (VArr vs) (ArrayOf (Expr.expr_type value)) k] t fs i) r =
  of_truth (match eval value r with
            | Some u => in_elements (Expr.expr_type value) u (map literal_value vs)
            | None => None
            end).
Proof. rewrite eval_predicate by done. exact (f_equal of_truth (in_array _ _ (VArr vs))). Qed.

Lemma or3_exists (l : list (option bool)) :
  fold_right or3 (Some false) l = Some true <-> Some true ∈ l.
Proof.
  induction l as [|b l IH]; simpl.
  - split; [done|by intros ?%not_elem_of_nil].
  - rewrite elem_of_cons, <- IH. destruct b as [[]|], (fold_right _ _ l) as [[]|]; naive_solver.
Qed.

(** IN is true when it is of one of its elements. *)
Lemma presto_in_member (value : Filter) v tv t fs i k r :
  type_kind tv = ARRAY -> equivalent (childAt tv 0) (Expr.expr_type value) = true ->
  isNull v = false ->
  truth_of eval (CallExpr kIn [value; LiteralExpr v tv k] t fs i) r = Some true <->
  exists w, In w (array v) /\ isNull w = false /\
    truth_of eval (CallExpr kIn
      [value; LiteralExpr (of_array [w]) (arrayType (Expr.expr_type value)) 0] booleanType 0 0) r =
    Some true.
Proof.
  intros Hk He%bool_decide_eq_true Hn. destruct tv as [[]| |s|]; try done. simpl in He. subst s.
  rewrite truth_apply by done.
  transitivity (match eval value r with
    | Some u => in_elements (Expr.expr_type value) u (map literal_value (array v)) = Some true
    | None => False end).
  { change (apply_truth kIn ?ts ?vs) with (in_truth ts vs). cbn [map eval].
    rewrite (literal_value_null v Hn), in_array. by destruct (eval value r). }
  assert (Hone : forall w, truth_of eval (CallExpr kIn
      [value; LiteralExpr (of_array [w]) (arrayType (Expr.expr_type value)) 0] booleanType 0 0) r =
    match eval value r with
    | Some u => in_elements (Expr.expr_type value) u [literal_value w] | None => None end).
  { intros w. rewrite truth_apply by done.
    change (apply_truth kIn ?ts ?vs) with (in_truth ts vs). cbn [map eval].
    change (literal_value (of_array [w])) with (Some (VArr [w])).
    change (arrayType ?t) with (ArrayOf t). by rewrite in_array. }
  setoid_rewrite Hone. destruct (eval value r) as [u|]; [|naive_solver].
  unfold in_elements. setoid_rewrite or3_exists. rewrite list_elem_of_In, in_map_iff.
  setoid_rewrite in_map_iff. split.
  - intros (x & Hx & w & <- & Hw). exists w. split; [done|]. unfold literal_value in *.
    destruct (isNull w); [done|]. split; [done|]. by apply list_elem_of_singleton.
  - intros (w & Hw & Hnw & Hx). simpl in Hx. apply list_elem_of_singleton in Hx.
    exists (literal_value w). split; [done|]. by exists w.
Qed.

(** A list of literals of the value's type is no array of them. *)
Lemma in_truth_list t x ts vs :
  Forall (eq t) ts -> ts <> [] -> length ts = length vs ->
  in_truth (t :: ts) (x :: vs) =
  match x with Some u => in_elements t u vs | None => None end.
Proof.
  intros Ht Hn Hl. unfold in_truth. destruct ts as [|s [|]]; [done| |];
    destruct vs as [|y vs]; try done; inversion Ht; subst.
  - destruct s as [| |e|]; try (destruct vs; [by destruct x|done]).
    destruct vs; [|done]. rewrite bool_decide_eq_false_2; [by destruct x|].
    intros He. assert (Hs : forall t, t <> ArrayOf t).
    { clear. fix IH 1. intros [| |e|] He; try done. injection He as He. by apply (IH e). }
    by apply (Hs e).
  - destruct s as [| |e|]; by destruct x.
Qed.

Lemma equal_row_fields l l' :
  length l = length l' ->
  equal3 (VRow l) (VRow l') =
  fold_right and3 (Some true)
    (zip_with (fun a b => if val_null a || val_null b then None else equal3 a b) l l').
Proof.
  revert l'. induction l as [|a l IH]; intros [|b l'] Hl; try done. injection Hl as Hl.
  specialize (IH l' Hl). simpl in *. by rewrite IH.
Qed.

Lemma selected_values (args : list Filter) r :
  selected_value (map (fun e => eval e r) args) =
  selected (fun e => truth_of eval e r) (fun e => eval e r) args.
Proof.
  induction args as [|result|condition result args IH] using list_pairs_ind; [done..|].
  cbn [map selected_value selected]. by rewrite IH.
Qed.

Lemma eval_row_constructor fields t fs i r :
  eval (CallExpr kRowConstructor fields t fs i) r =
  Some (VRow (zip_with (fun t x => default (VNull (type_kind t)) x)
    (map Expr.expr_type fields) (map (fun e => eval e r) fields))).
Proof. reflexivity. Qed.

Lemma truth_equality (a b : Filter) t fs i r :
  truth_of eval (CallExpr "eq" [a; b] t fs i) r =
  both (equal_at (Expr.expr_type a) (Expr.expr_type b)) (eval a r) (eval b r).
Proof. by rewrite truth_apply. Qed.

(** A field against an element of the literal. *)
Lemma field_equality types r e w s :
  row_ok types r -> typed presto types e = true -> has_ty s w = true ->
  (let a := default (VNull (type_kind (Expr.expr_type e))) (eval e r) in
   if val_null a || val_null w then None else equal3 a w) =
  truth_of eval (CallExpr "eq" [e; LiteralExpr w s 0] booleanType 0 0) r.
Proof.
  intros Hr He Hw. rewrite truth_equality. cbn [eval]. unfold literal_value. simpl.
  pose proof (eval_sound types r Hr e He) as Hs.
  destruct (eval e r) as [u|]; simpl; [|done]. destruct Hs as [Hn Hu]. simpl in Hn, Hu. rewrite Hn. simpl.
  destruct (val_null w) eqn:Hwn; [done|]. simpl. unfold equal_at. destruct (_ && _) eqn:Hp; [|done].
  apply andb_true_iff in Hp as [Hp _]. destruct u; try done. by destruct (Expr.expr_type e).
Qed.

(** Field by field. *)
Lemma presto_row_equality types fields t fs i v tv iv t' fs' i' r :
  isNull v = false -> kind v = ROW -> type_kind t = ROW -> length (row v) = length fields ->
  row_ok types r -> Forall (fun e => typed presto types e = true) fields -> has_type tv v = true ->
  truth_of eval (CallExpr "eq" [CallExpr kRowConstructor fields t fs i; LiteralExpr v tv iv]
    t' fs' i') r =
  fold_right and3 (Some true)
    (imap (fun k '(e, w) =>
             truth_of eval (CallExpr "eq" [e; LiteralExpr w (childAt tv k) 0] booleanType 0 0) r)
       (zip fields (row v))).
Proof.
  intros Hn Hk Htk Hl Hr Hf Htv.
  destruct v as [|?|k n|?|?|ws]; try done; [simpl in Hk; destruct (in_range k n) eqn:E; by subst|].
  pose proof (fun i w => has_type_row tv (VRow ws) i w Htv eq_refl) as Hws. simpl row in *.
  rewrite truth_equality, eval_row_constructor.
  change (eval (LiteralExpr (VRow ws) tv iv) r) with (Some (VRow ws)). cbn [both].
  transitivity (equal3 (VRow (zip_with (fun t x => default (VNull (type_kind t)) x)
    (map Expr.expr_type fields) (map (fun e => eval e r) fields))) (VRow ws)).
  { unfold equal_at. by destruct t as [[]| | |]. }
  rewrite equal_row_fields by (rewrite length_zip_with, !length_map; lia).
  f_equal. clear -Hr Hf Hl Hws.
  assert (Hgen : forall n, (forall i w, ws !! i = Some w -> has_type (childAt tv (n + i)) w = true) ->
    zip_with (fun a b => if val_null a || val_null b then None else equal3 a b)
      (zip_with (fun t x => default (VNull (type_kind t)) x) (map Expr.expr_type fields)
         (map (fun e => eval e r) fields)) ws =
    imap (fun k '(e, w) =>
      truth_of eval (CallExpr "eq" [e; LiteralExpr w (childAt tv (n + k)) 0] booleanType 0 0) r)
      (zip fields ws)).
  { clear Hws. revert ws Hl. induction Hf as [|e fields He _ IH]; intros [|w ws] Hl n Hws; try done.
    injection Hl as Hl. cbn [map zip_with imap]. f_equal.
    - apply (field_equality types); [done..|]. by apply (Hws O).
    - rewrite (IH ws Hl (S n)).
      + apply imap_ext. intros k [e' w'] _. simpl. by rewrite Nat.add_succ_r.
      + intros i w' Hi. rewrite Nat.add_succ_comm. by apply Hws. }
  apply (Hgen O Hws).
Qed.

(** A function of the registry without [kNonDefaultNullBehavior]. *)
Lemma presto_default_null name bits args arg t fs i r :
  functionBits name (isSpecialForm name) = Ok bits ->
  FunctionSet.contains bits FunctionSet.kNonDefaultNullBehavior = false ->
  In arg args -> eval arg r = None -> eval (CallExpr name args t fs i) r = None.
Proof.
  unfold functionBits. destruct (isSpecialForm name); [by intros [= <-]|].
  change (inference name) with (@None (bool * bool)).
  change (isDeterministic name) with (Some (negb (String.eqb name "rand"))).
  change (isDefaultNullBehavior name) with (Some (existsb (String.eqb name) default_null_functions)).
  cbv beta iota.
  destruct (existsb (String.eqb name) default_null_functions) eqn:Hname; intros [= <-] Hbits Harg Hnull.
  2: { exfalso. revert Hbits. unfold FunctionSet.contains, function_flags.
    by destruct (String.eqb name "rand"). }
  clear Hbits. apply existsb_exists in Hname as (name' & Hin & <-%String.eqb_eq).
  unfold default_null_functions in Hin. cbn [In] in Hin.
  assert (Hp : existsb (String.eqb name) [kIf; kSwitch; kCoalesce; kCast; kTryCast;
    kRowConstructor; kDereference] = false).
  { repeat (destruct Hin as [<-|Hin]; [done|]). done. }
  rewrite eval_predicate by done.
  assert (Hv : In None (map (fun e => eval e r) args)).
  { apply in_map_iff. by exists arg. }
  generalize dependent (map (fun e => eval e r) args). generalize (map Expr.expr_type args).
  clear Harg Hnull Hp. intros ts vs Hv.
  destruct vs as [|x [|y [|z [|w vs]]]]; [done| | | |].
  all: repeat (destruct Hin as [<-|Hin]; [try done|]); try done; simpl in Hv.
  all: repeat (destruct Hv as [Hv|Hv]; [subst|]); try done.
  all: try by destruct x.
  all: try first [by destruct y, z | by destruct x, z | by destruct x, y].
  all: destruct ts as [|s [|s' [|]]]; try done; by destruct x.
Qed.

Lemma mapM_literals (literals : list Filter) elements r :
  mapM Expr.literal_of literals = Some elements ->
  map (fun e => eval e r) literals = map literal_value elements.
Proof.
  intros Hm%mapM_Some. induction Hm as [|e v literals elements He _ IH]; [done|].
  simpl. f_equal; [|done]. destruct e; try done. by injection He as ->.
Qed.

Theorem presto_laws types :
  EvalLaws presto types eval val_less presto_reversed presto_constant.
Proof.
  split.
  - apply presto_sql.
  - intros e r He Hr. by apply (eval_sound types).
  - apply eval_columns.
  - intros name args args' t fs fs' i i' r s Hs _ _. simpl.
    by destruct (eval_same_args args args' r s Hs) as [-> ->].
  - done.
  - done.
  - intros name args t fs i r [-> | ->]; exact (selected_values args r).
  - done.
  - intros fields t fs i selector t' i' t'' fs'' i'' n e r Hsel Hi Hf He Hr.
    transitivity (zip_with (fun t x => default (VNull (type_kind t)) x)
      (map Expr.expr_type fields) (map (fun e => eval e r) fields) !! n ≫= literal_value).
    { rewrite <- (Nat2Z.id n), <- Hi.
      change (eval (CallExpr kDereference ?args _ _ _) r) with
        (match literal_value selector with
         | Some selector => zip_with (fun t x => default (VNull (type_kind t)) x)
             (map Expr.expr_type fields) (map (fun e => eval e r) fields)
             !! Z.to_nat (integer selector) ≫= literal_value
         | None => None
         end).
      by rewrite (literal_value_null selector Hsel). }
    rewrite lookup_zip_with.
    change (map Expr.expr_type fields) with (Expr.expr_type <$> fields).
    change (map (fun e => eval e r) fields) with ((fun e => eval e r) <$> fields).
    rewrite !list_lookup_fmap, Hf. simpl.
    pose proof (eval_sound types r Hr e He) as Hs. destruct (eval e r) as [u|]; [|done].
    simpl. destruct Hs as [Hs _]. by apply literal_value_null.
  - intros name fields t fs i v tv iv t' fs' i' r [= <-]. apply presto_row_equality.
  - intros value literals elements t fs fs' i i' i'' r Hm Hn Ht.
    change (of_array elements) with (VArr elements).
    change (arrayType ?t) with (ArrayOf t).
    rewrite eval_in_array, eval_predicate by done. f_equal.
    change (apply_truth kIn ?ts ?vs) with (in_truth ts vs). cbn [map].
    rewrite in_truth_list; [by rewrite (mapM_literals _ _ _ Hm)| |by destruct literals|by rewrite !length_map].
    apply List.Forall_map. eapply List.Forall_impl; [|exact Ht].
    intros e He. by apply bool_decide_eq_true in He.
  - intros value vs vs' t fs i r k Hv.
    change (of_array ?vs) with (VArr vs). change (arrayType ?t) with (ArrayOf t).
    rewrite !eval_in_array. f_equal. destruct (eval value r); [|done]. by apply in_elements_set.
  - intros name value v t fs fs' i i' k k' r [= <-].
    change (of_array ?vs) with (VArr vs). change (arrayType ?t) with (ArrayOf t).
    rewrite eval_in_array, eval_predicate by done. f_equal.
    transitivity (both (equal_at (Expr.expr_type value) (Expr.expr_type value))
      (eval value r) (literal_value v)); [|done].
    destruct (eval value r) as [u|]; [|done]. simpl.
    unfold in_elements. simpl. destruct (literal_value v); [|done].
    by destruct (equal_at _ _ _ _) as [[]|].
  - intros value v tv t fs i k r. apply presto_in_member.
  - intros name bits args arg t fs i r. apply presto_default_null.
  - intros name name' a b t fs fs' i i' r Hname. unfold presto_reversed in Hname.
    repeat (revert Hname; test_name name; intros Hname; [injection Hname as <-; subst|]); [..|done].
    all: rewrite !eval_predicate by done; f_equal.
    all: destruct (eval a r) as [u|] eqn:Ha, (eval b r) as [w|] eqn:Hb; cbn; rewrite ?Ha, ?Hb; try done.
    + apply equal_at_comm.
    + do 2 f_equal. apply andb_comm.
  - apply presto_constant_sound.
Qed.
