(* ===== verification/DomainExamples.v ===== *)
(** * Filters to convert

    The domain of a filter of the engine of [SqlEngine], and what the conversion
    does with a registry that lacks functions. *)

From Stdlib Require Import ZArith Lia Ascii.
From S2P Require Import Prelude Domains DomainSets Expressions ExprDomains SqlSemantics SqlEngine.

Open Scope Z_scope.
Set Warnings "-register-all".

(** ** Filters *)

Definition a_column : Column Ty := mkColumn 7 (Prim SMALLINT).
Definition a_ref : Filter := ColumnExpr a_column.
(** Nothing looks at the ids of the calls and literals. *)
Definition call (name : string) (args : list Filter) : Filter :=
  CallExpr name args booleanType 0 0.
Definition literal (k : TypeKind) (n : Z) : Filter := LiteralExpr (VInt k n) (Prim k) 0.

(** Rows of the one column. *)
Definition row_of (x : option Val) : Row Val := set_value (column_id a_column) x ∅.
Definition val_of (e : Filter) (x : option Val) : option Val := eval e (row_of x).
Definition truth_on (e : Filter) (x : option Val) : option bool := truth_of eval e (row_of x).

Lemma a_column_laws : SqlLaws presto a_column val_of truth_on val_less.
Proof. apply (presto_sql a_column ∅). Qed.

(** [CAST(a AS BIGINT) > 10 AND NOT a IN (20, 30) AND (100 >= a OR a IS NULL)] *)
Definition a_filter : Filter :=
  call kAnd
    [ call "gt" [CallExpr kCast [a_ref] (Prim BIGINT) 0 0; literal BIGINT 10];
      call "not" [call kIn [a_ref; LiteralExpr (VArr [VInt SMALLINT 20; VInt SMALLINT 30])
                                     (ArrayOf (Prim SMALLINT)) 0]];
      call kOr [call "gte" [literal SMALLINT 100; a_ref]; call "is_null" [a_ref]] ].

Definition a_domain : Domain Val :=
  match exprToDomain presto a_filter with Ok (Some d) => d | _ => Domain.none end.

(** (10, 20), (20, 30) and (30, 100]. *)
Lemma a_domain_ranges :
  map (fun r => (value <$> Range.low r, value <$> Range.high r)) (Domain.ranges a_domain) =
  [(Some (VInt BIGINT 10), Some (VInt BIGINT 20)); (Some (VInt BIGINT 20), Some (VInt BIGINT 30));
   (Some (VInt BIGINT 30), Some (VInt BIGINT 100))].
Proof. vm_compute. reflexivity. Qed.

Lemma a_filter_ok : filter_ok presto a_column a_filter.
Proof. split; [vm_compute; reflexivity|]. split; [vm_compute; reflexivity|]. repeat constructor. Qed.

Theorem exprToDomain_sound_witness :
  exprToDomain presto a_filter = Ok (Some a_domain) /\
  domain_well_formed a_domain = true /\
  forall x, row_typed a_column x ->
    (truth_on a_filter x = Some true ->
     domain_contains a_domain (domain_value a_column <$> x) = true) /\
    (uses_like presto a_column a_filter = false ->
     domain_contains a_domain (domain_value a_column <$> x) = true ->
     truth_on a_filter x = Some true).
Proof.
  split; [vm_compute; reflexivity|].
  apply (exprToDomain_sound presto a_column val_of truth_on val_less
    a_column_laws presto_complete eq_refl a_filter a_domain a_filter_ok).
  vm_compute. reflexivity.
Defined.

(** ** A registry without all comparisons *)

(** BETWEEN is registered, [gte] and [distinct_from] are not. *)
Definition partial_registry : FunctionNames := {|
  equality := Some "eq"%string; negation := Some "not"%string; lt := Some "lt"%string;
  lte := Some "lte"%string; gt := Some "gt"%string; gte := None;
  isNullName := Some "is_null"%string; distinctFrom := None;
  between := Some "between"%string; like := None
|}.

(** [gte] and [distinctFrom] are then both [nullptr], and [comparisonDomain] takes
    the lower bound of BETWEEN for DISTINCT FROM: the domain of [a BETWEEN 5 AND 10]
    misses 5, on which the filter is true. *)
Theorem partial_registry_loses_values :
  let e := call "between" [a_ref; literal SMALLINT 5; literal SMALLINT 10] in
  let five := Some (VInt SMALLINT 5) in
  truth_on e five = Some true /\
  exists d, exprToDomain partial_registry e = Ok (Some d) /\
    domain_contains d (domain_value a_column <$> five) = false.
Proof.
  split; [vm_compute; reflexivity|]. eexists. split; vm_compute; reflexivity.
Qed.
