(* ===== verification/Builders.v ===== *)
(** * Interned expressions

    The part of [axiom/optimizer/v2/Builder.{h,cpp}] that creates expressions:
    [makeLiteral] and [makeCall] with their dedup sets and the canonical order of
    reversible calls, on an explicit state (the objects of the query context by
    id, and the two sets); and the normalization of filter predicates and of join
    key pairs that drops repetitions.

    The theorems: pointers identify expressions; a deterministic call is one object
    however often it is made, and whichever way round it is written; what the
    builder returns means what was asked for. *)

From Stdlib Require Import ZArith Lia.
From S2P Require Import Prelude Domains DomainSets Expressions ExprDomains SqlSemantics.

Local Open Scope nat_scope.
Set Warnings "-register-all".

Record Builder (T V : Type) := mkBuilder {
  objects : gmap nat (Expr T V);   (* the expressions of QueryGraphContext::objects_ *)
  next_id : nat;                   (* objects_.size() *)
  literals : list (Expr T V);      (* literals_ *)
  calls : list (Expr T V)          (* calls_ *)
}.
Arguments mkBuilder {T V} objects next_id literals calls.
Arguments objects {T V} _.
Arguments next_id {T V} _.
Arguments literals {T V} _.
Arguments calls {T V} _.

Module Builder.
Section Builder.
Context {T V : Type} `{TypeOps T} `{VariantOps V}.

(** The limit of [QueryGraphContext], and [reversibleFunctions_]. *)
Variable maxPlanObjects : nat.
Variable reversibleFunctions : string -> option string.

Abbreviation Expr := (Expr T V).
Abbreviation M := (StateM (Builder T V)).

(** [make<...>(...)]: [newId] and the object, by its id. *)
Definition make (object : nat -> Expr) : M Expr := fun b =>
  if next_id b <? maxPlanObjects then
    let e := object (next_id b) in
    Ok (e, mkBuilder (<[next_id b := e]> (objects b)) (S (next_id b)) (literals b) (calls b))
  else Throw (VeloxCheck "Query is too complex to plan").

Definition insert_literal (e : Expr) : M unit :=
  modify (fun b => mkBuilder (objects b) (next_id b) (literals b ++ [e]) (calls b)).
Definition insert_call (e : Expr) : M unit :=
  modify (fun b => mkBuilder (objects b) (next_id b) (literals b) (calls b ++ [e])).

(** [Literal::KeyEq] *)
Definition is_literal (variant : V) (type : T) (e : Expr) : bool :=
  match e with
  | LiteralExpr variant' type' _ => bool_decide (type = type') && veq variant variant'
  | _ => false
  end.

Definition makeLiteral (variant : V) (type : T) : M Expr :=
  found ← gets (fun b => List.find (is_literal variant type) (literals b));
  match found with
  | Some e => mret e
  | None =>
      literal ← make (LiteralExpr variant type);
      insert_literal literal ≫= fun _ => mret literal
  end.

(** [std::ranges::equal] on vectors of pointers *)
Fixpoint same_args (args args' : list Expr) : bool :=
  match args, args' with
  | [], [] => true
  | a :: args, a' :: args' => Expr.same a a' && same_args args args'
  | _, _ => false
  end.

(** [Call::KeyEq] *)
Definition is_call (name : string) (type : T) (args : list Expr) (e : Expr) : bool :=
  match e with
  | CallExpr name' args' type' _ _ =>
      String.eqb name name' && bool_decide (type = type') && same_args args args'
  | _ => false
  end.

Definition is_literal_expr (e : Expr) : bool :=
  match e with LiteralExpr _ _ _ => true | _ => false end.

Definition shouldInvert (left right : Expr) : bool :=
  if negb (bool_decide (Expr.expr_type left = Expr.expr_type right)) then false
  else if is_literal_expr left && negb (is_literal_expr right) then true
  else if negb (is_literal_expr left) && negb (is_literal_expr right) &&
          (Expr.expr_id right <? Expr.expr_id left)
  then true
  else false.

Definition canonicalizeCall (name : string) (args : list Expr) : string * list Expr :=
  match args with
  | [a; b] =>
      match reversibleFunctions name with
      | Some reverseName => if shouldInvert a b then (reverseName, [b; a]) else (name, args)
      | None => (name, args)
      end
  | _ => (name, args)
  end.

Definition makeCall (name : string) (type : T) (args : list Expr) (functions : FunctionSet) :
    M Expr :=
  if FunctionSet.contains functions FunctionSet.kNonDeterministic
  then make (CallExpr name args type functions)
  else
    let '(name, args) := canonicalizeCall name args in
    found ← gets (fun b => List.find (is_call name type args) (calls b));
    match found with
    | Some e => mret e
    | None =>
        call ← make (CallExpr name args type functions);
        insert_call call ≫= fun _ => mret call
    end.

Definition makeBoolean (value : bool) : M Expr := makeLiteral (of_bool value) booleanType.
Definition makeNull (type : T) : M Expr := makeLiteral (null_of (type_kind type)) type.
Definition makeEmptyArray (type : T) : M Expr := makeLiteral (of_array []) type.

(** [dropRepeatedPredicates]: the loop, with the ids seen. *)
Fixpoint drop_repeated (seen : list nat) (predicates : list Expr) : list Expr :=
  match predicates with
  | [] => []
  | predicate :: rest =>
      if Expr.containsNonDeterministic predicate then predicate :: drop_repeated seen rest
      else if existsb (Nat.eqb (Expr.expr_id predicate)) seen then drop_repeated seen rest
      else predicate :: drop_repeated (Expr.expr_id predicate :: seen) rest
  end.

Definition dropRepeatedPredicates (predicates : list Expr) : list Expr :=
  drop_repeated [] predicates.

(** [dropRepeatedKeyPairs], on the pairs of left and right keys. *)
Definition same_pair (p q : Expr * Expr) : bool :=
  Expr.same p.1 q.1 && Expr.same p.2 q.2.

Fixpoint drop_repeated_pairs (earlier pairs : list (Expr * Expr)) : list (Expr * Expr) :=
  match pairs with
  | [] => []
  | keys :: rest =>
      let kept := drop_repeated_pairs (earlier ++ [keys]) rest in
      if existsb (same_pair keys) earlier then kept else keys :: kept
  end.

Definition dropRepeatedKeyPairs (leftKeys rightKeys : list Expr) : list Expr * list Expr :=
  List.split (drop_repeated_pairs [] (zip leftKeys rightKeys)).
End Builder.
End Builder.

(** ** Reasoning about code that creates objects

    [builds b0 m Q]: from a state that extends [b0], [m] ends in one that extends
    it further, with a result in [Q] - or throws, but never for lack of fuel. *)

#[export] Instance StateM_fmap {S} : FMap (StateM S) := fun A B f m =>
  m ≫= fun a => mret (f a).

Class World (S : Type) := {
  world_ok : S -> Prop;
  extends : S -> S -> Prop;
  extends_preorder :: PreOrder extends
}.

Section Logic.
Context {S : Type} `{World S}.

Definition builds {A} (b0 : S) (m : StateM S A) (Q : S -> A -> Prop) : Prop :=
  forall b, world_ok b -> extends b0 b ->
  match m b with
  | Ok (a, b') => world_ok b' /\ extends b b' /\ Q b' a
  | Throw e => e <> OutOfFuel
  end.

Lemma builds_ret {A} b0 (a : A) (Q : S -> A -> Prop) :
  (forall b, world_ok b -> extends b0 b -> Q b a) -> builds b0 (mret a) Q.
Proof. intros HQ b Hb Hext. simpl. split; [done|]. split; [reflexivity|auto]. Qed.

Lemma builds_bind {A B} b0 (m : StateM S A) (f : A -> StateM S B)
    (Q : S -> A -> Prop) (R : S -> B -> Prop) :
  builds b0 m Q ->
  (forall b a, world_ok b -> extends b0 b -> Q b a -> builds b (f a) R) ->
  builds b0 (m ≫= f) R.
Proof.
  intros Hm Hf b Hb Hext. specialize (Hm b Hb Hext). unfold mbind, StateM_bind.
  destruct (m b) as [[a b']|e]; [|done]. destruct Hm as (Hb' & Hext' & HQ).
  assert (extends b0 b') as H0 by (by etransitivity).
  specialize (Hf b' a Hb' H0 HQ b' Hb' (PreOrder_Reflexive b')).
  destruct (f a b') as [[c b'']|e]; [|done]. destruct Hf as (? & ? & ?).
  repeat split; [done|by etransitivity|done].
Qed.

Lemma builds_fmap {A B} b0 (m : StateM S A) (f : A -> B) (Q : S -> B -> Prop) :
  builds b0 m (fun b a => Q b (f a)) -> builds b0 (f <$> m) Q.
Proof.
  intros Hm b Hb Hext. specialize (Hm b Hb Hext). unfold fmap, StateM_fmap, mbind, StateM_bind.
  by destruct (m b) as [[a b']|e].
Qed.

Lemma builds_lift {A} b0 (r : Result A) (Q : S -> A -> Prop) :
  (forall e, r = Throw e -> e <> OutOfFuel) ->
  (forall b a, world_ok b -> extends b0 b -> r = Ok a -> Q b a) -> builds b0 (lift r) Q.
Proof.
  intros He HQ b Hb Hext. unfold lift. destruct r as [a|e]; [|by apply He].
  split; [done|]. split; [reflexivity|]. by apply HQ.
Qed.

Lemma builds_throw {A} b0 what (Q : S -> A -> Prop) : builds b0 (throw (VeloxCheck what)) Q.
Proof. by intros b Hb Hext. Qed.

Lemma builds_from {A} b0 b1 (m : StateM S A) (Q : S -> A -> Prop) :
  extends b0 b1 -> builds b0 m Q -> builds b1 m Q.
Proof. intros Hext Hm b Hb Hext'. apply Hm; [done|]. by etransitivity. Qed.

Lemma builds_weaken {A} b0 (m : StateM S A) (Q R : S -> A -> Prop) :
  builds b0 m Q -> (forall b a, world_ok b -> extends b0 b -> Q b a -> R b a) -> builds b0 m R.
Proof.
  intros Hm HQ b Hb Hext. specialize (Hm b Hb Hext).
  destruct (m b) as [[a b']|e]; [|done]. destruct Hm as (? & ? & ?).
  repeat split; [done..|]. apply HQ; [done| |done]. by etransitivity.
Qed.

Lemma builds_and {A} b0 (m : StateM S A) (Q R : S -> A -> Prop) :
  builds b0 m Q -> builds b0 m R -> builds b0 m (fun b a => Q b a /\ R b a).
Proof.
  intros HQ HR b Hb Hext. specialize (HQ b Hb Hext). specialize (HR b Hb Hext).
  destruct (m b) as [[a b']|e]; [|done]. naive_solver.
Qed.

(** A result that was asked for: what [builds] says of one run. *)
Lemma builds_run {A} b0 (m : StateM S A) (Q : S -> A -> Prop) a b :
  builds b0 m Q -> world_ok b0 -> m b0 = Ok (a, b) -> world_ok b /\ extends b0 b /\ Q b a.
Proof. intros Hm Hb Ha. specialize (Hm b0 Hb (PreOrder_Reflexive b0)). by rewrite Ha in Hm. Qed.
End Logic.

(** ** The invariant *)

Section Invariant.
Context {T V : Type} `{TypeOps T} `{VariantOps V}.
Abbreviation Expr := (Expr T V).

(** A pointer into the arena. *)
Definition valid (b : Builder T V) (e : Expr) : Prop := objects b !! Expr.expr_id e = Some e.

Record arena_ok (b : Builder T V) : Prop := {
  objects_ok i e : objects b !! i = Some e ->
    Expr.expr_id e = i /\ i < next_id b /\ Forall (valid b) (Expr.children e);
  literals_ok e : In e (literals b) -> valid b e /\ Builder.is_literal_expr e = true;
  calls_ok e : In e (calls b) ->
    valid b e /\ Expr.containsNonDeterministic e = false /\
    exists name args t fs i, e = CallExpr name args t fs i
}.

Record arena_extends (b b' : Builder T V) : Prop := {
  more_objects : objects b ⊆ objects b';
  more_literals : literals b `prefix_of` literals b';
  more_calls : calls b `prefix_of` calls b'
}.

#[export] Instance arena_extends_preorder : PreOrder arena_extends.
Proof.
  split.
  - by intros b.
  - intros b1 b2 b3 [] []. split; by etransitivity.
Qed.

#[export] Instance builder_world : World (Builder T V) := {|
  world_ok := arena_ok; extends := arena_extends
|}.

Lemma valid_extends b b' e : extends b b' -> valid b e -> valid b' e.
Proof. intros Hext He. unfold valid in *. by eapply lookup_weaken, more_objects. Qed.

Lemma valids_extends b b' es : extends b b' -> Forall (valid b) es -> Forall (valid b') es.
Proof. intros Hext Hes. eapply Forall_impl; [done|]. intros e. by apply valid_extends. Qed.

Lemma valid_children b e : arena_ok b -> valid b e -> Forall (valid b) (Expr.children e).
Proof. intros Hb He. by apply (objects_ok b Hb) in He as (_ & _ & ?). Qed.

(** Equal pointers are pointers to one expression. *)
Lemma same_eq b e e' : valid b e -> valid b e' -> Expr.same e e' = true -> e = e'.
Proof.
  unfold valid, Expr.same. intros He He' Hs%Nat.eqb_eq. rewrite Hs in He. congruence.
Qed.

Lemma same_args_eq b es es' :
  Forall (valid b) es -> Forall (valid b) es' -> Builder.same_args es es' = true -> es = es'.
Proof.
  intros Hes. revert es'. induction Hes as [|e es He _ IH]; intros [|e' es'] Hes'; try done.
  simpl. intros [Hs Hss]%andb_true_iff. inversion Hes'; subst.
  f_equal; [by eapply same_eq|by apply IH].
Qed.

Lemma same_refl (e : Expr) : Expr.same e e = true.
Proof. apply Nat.eqb_refl. Qed.

Lemma same_args_refl (es : list Expr) : Builder.same_args es es = true.
Proof. induction es as [|e es IH]; [done|]. simpl. by rewrite same_refl. Qed.
End Invariant.

(** Equal variants are the same variant.  It leaves out literals that compare equal and can
    be told apart, -0.0 and 0.0 (see [supportsCoalesceKey] in [v2/Node.cpp]). *)
Class VariantEq (V : Type) `{VariantOrder V} : Prop :=
  veq_eq (u v : V) : veq u v = true -> u = v.

Section Specs.
Context {T V : Type} `{TypeOps T} `{VariantOps V} `{!VariantEq V}.
Context (maxPlanObjects : nat) (reversibleFunctions : string -> option string).
Abbreviation Expr := (Expr T V).
Abbreviation make := (Builder.make maxPlanObjects).
Abbreviation makeLiteral := (Builder.makeLiteral maxPlanObjects).
Abbreviation makeCall := (Builder.makeCall maxPlanObjects reversibleFunctions).

(** A new object over children that exist. *)
Lemma make_spec b0 (object : nat -> Expr) :
  (forall i, Expr.expr_id (object i) = i) ->
  (forall i, Expr.children (object i) = Expr.children (object 0)) ->
  Forall (valid b0) (Expr.children (object 0)) ->
  builds b0 (make object) (fun b e => valid b e /\ exists i, e = object i).
Proof.
  intros Hid Hch Hargs b Hb Hext. unfold make. destruct (_ <? _); [|done].
  assert (Hfresh : objects b !! next_id b = None).
  { destruct (objects b !! next_id b) eqn:E; [|done].
    apply (objects_ok b Hb) in E as (_ & ? & _). lia. }
  assert (Hsub : objects b ⊆ <[next_id b := object (next_id b)]> (objects b)).
  { by apply insert_subseteq. }
  assert (Hkeep : forall e, valid b e ->
    <[next_id b := object (next_id b)]> (objects b) !! Expr.expr_id e = Some e).
  { intros e He. by eapply lookup_weaken. }
  split; [|split; [by split|]].
  - split; simpl.
    + intros i e [[<- <-]|[Hne Hi]]%lookup_insert_Some.
      * split; [apply Hid|]. split; [lia|]. rewrite Hch.
        eapply Forall_impl; [exact (valids_extends _ _ _ Hext Hargs)|]. exact Hkeep.
      * apply (objects_ok b Hb) in Hi as (? & ? & Hc). split; [done|]. split; [lia|].
        eapply Forall_impl; [exact Hc|]. exact Hkeep.
    + intros e He. destruct (literals_ok b Hb e He). split; [by apply Hkeep|done].
    + intros e He. destruct (calls_ok b Hb e He) as (? & ?). split; [by apply Hkeep|done].
  - split; [|by eexists]. unfold valid. simpl. rewrite Hid. apply lookup_insert_eq.
Qed.

Lemma find_app {A} (f : A -> bool) (l l' : list A) x :
  List.find f l = Some x -> List.find f (l ++ l') = Some x.
Proof. induction l as [|y l IH]; [done|]. simpl. destruct (f y); auto. Qed.

Lemma is_literal_key v t (e : Expr) :
  Builder.is_literal v t e = true -> exists i, e = LiteralExpr v t i.
Proof.
  destruct e as [|v' t' i| | | |]; simpl; try done.
  intros [->%bool_decide_eq_true ->%veq_eq]%andb_true_iff. by eexists.
Qed.

Lemma is_call_key b name t args (e : Expr) :
  arena_ok b -> valid b e -> Forall (valid b) args ->
  Builder.is_call name t args e = true -> exists fs i, e = CallExpr name args t fs i.
Proof.
  intros Hb He Hargs. destruct e as [| |name' args' t' fs i| | |]; simpl; try done.
  rewrite !andb_true_iff. intros [[->%String.eqb_eq ->%bool_decide_eq_true] Hs].
  pose proof (valid_children b _ Hb He) as Hargs'. simpl in Hargs'.
  rewrite (same_args_eq b args args') by done. by eexists _, _.
Qed.

Lemma insert_literal_spec b0 (e : Expr) :
  valid b0 e -> Builder.is_literal_expr e = true ->
  builds b0 (Builder.insert_literal e) (fun _ _ => True).
Proof.
  intros He Hl b Hb Hext. simpl. split; [|split; [split; simpl|done]].
  - split; simpl; [apply Hb| |apply Hb].
    intros e' [Hin|[<-|[]]]%in_app_iff; [exact (literals_ok b Hb e' Hin)|].
    split; [exact (valid_extends _ _ _ Hext He)|done].
  - done.
  - by eexists.
  - done.
Qed.

Lemma insert_call_spec b0 name (args : list Expr) t fs i :
  valid b0 (CallExpr name args t fs i) ->
  Expr.containsNonDeterministic (CallExpr name args t fs i : Expr) = false ->
  builds b0 (Builder.insert_call (CallExpr name args t fs i)) (fun _ _ => True).
Proof.
  intros He Hl b Hb Hext. simpl. split; [|split; [split; simpl|done]].
  - split; simpl; [apply Hb|apply Hb|].
    intros e' [Hin|[<-|[]]]%in_app_iff; [exact (calls_ok b Hb e' Hin)|].
    split; [exact (valid_extends _ _ _ Hext He)|]. split; [done|]. by eexists _, _, _, _, _.
  - done.
  - done.
  - by eexists.
Qed.

Lemma makeLiteral_spec (b0 : Builder T V) v t :
  builds b0 (makeLiteral v t) (fun b e => valid b e /\ exists i, e = LiteralExpr v t i).
Proof.
  unfold makeLiteral.
  eapply (builds_bind _ _ _ (fun b found => match found with
    | Some e => valid b e /\ exists i, e = LiteralExpr v t i | None => True end)).
  - intros b Hb Hext. simpl. split; [done|]. split; [reflexivity|].
    destruct (List.find _ _) as [e|] eqn:Hf; [|done]. apply List.find_some in Hf as [Hin Hk].
    split; [by apply (literals_ok b Hb)|by apply is_literal_key].
  - intros b [e|] Hb Hext Hf.
    + apply builds_ret. intros b' Hb' Hext'. destruct Hf. split; [by eapply valid_extends|done].
    + eapply builds_bind; [by apply make_spec|]. cbn beta. intros b' e Hb' Hext' [He [i ->]].
      eapply builds_bind; [by apply insert_literal_spec|].
      intros b'' _ Hb'' Hext'' _. apply builds_ret. intros b3 Hb3 Hext3.
      split; [|by eexists]. eapply valid_extends; [exact Hext3|]. by eapply valid_extends.
Qed.

(** What [makeCall] makes of its arguments. *)
Definition canonical_call (name : string) (args : list Expr) (functions : FunctionSet) :
    string * list Expr :=
  if FunctionSet.contains functions FunctionSet.kNonDeterministic then (name, args)
  else Builder.canonicalizeCall reversibleFunctions name args.

Lemma canonicalizeCall_args name args (P : Expr -> Prop) :
  Forall P args -> Forall P (Builder.canonicalizeCall reversibleFunctions name args).2.
Proof.
  intros Hargs. destruct args as [|a [|b [|]]]; try done. simpl.
  destruct (reversibleFunctions name); [|done]. destruct (Builder.shouldInvert a b); [|done].
  inversion Hargs as [|? ? Ha Hb]; subst. inversion Hb; subst. by repeat constructor.
Qed.

Lemma makeCall_spec (b0 : Builder T V) name t args functions :
  Forall (valid b0) args ->
  builds b0 (makeCall name t args functions) (fun b e => valid b e /\
    exists fs i, e = CallExpr (canonical_call name args functions).1
                       (canonical_call name args functions).2 t fs i).
Proof.
  intros Hargs. unfold makeCall, canonical_call.
  destruct (FunctionSet.contains functions _) eqn:Hnd.
  { eapply builds_weaken; [by apply make_spec|].
    intros b e _ _ (? & i & ->). split; [done|]. by eexists _, _. }
  pose proof (canonicalizeCall_args name args _ Hargs) as Hargs'.
  destruct (Builder.canonicalizeCall _ _ _) as [name' args']. simpl in *. clear Hargs.
  eapply (builds_bind _ _ _ (fun b found => match found with
    | Some e => valid b e /\ exists fs i, e = CallExpr name' args' t fs i | None => True end)).
  - intros b Hb Hext. simpl. split; [done|]. split; [reflexivity|].
    destruct (List.find _ _) as [e|] eqn:Hf; [|done]. apply List.find_some in Hf as [Hin Hk].
    destruct (calls_ok b Hb e Hin) as [He _]. split; [done|].
    eapply is_call_key; [done..| |done]. by eapply valids_extends.
  - intros b [e|] Hb Hext Hf.
    + apply builds_ret. intros b' Hb' Hext'. destruct Hf. split; [by eapply valid_extends|done].
    + eapply builds_bind; [apply make_spec; [done..|]; by eapply valids_extends|]. cbn beta.
      intros b' e Hb' Hext' [He [i ->]].
      eapply builds_bind; [by apply insert_call_spec|].
      intros b'' _ Hb'' Hext'' _. apply builds_ret. intros b3 Hb3 Hext3.
      split; [|by eexists _, _]. eapply valid_extends; [exact Hext3|]. by eapply valid_extends.
Qed.
End Specs.

(** ** One object per call *)

Section Interning.
Context {T V : Type} `{TypeOps T} `{VariantOps V} `{!VariantEq V}.
Context (maxPlanObjects : nat) (reversibleFunctions : string -> option string).
Abbreviation Expr := (Expr T V).
Abbreviation makeCall := (Builder.makeCall maxPlanObjects reversibleFunctions).
Abbreviation canonicalizeCall := (Builder.canonicalizeCall reversibleFunctions).

Lemma find_none_app {A} (f : A -> bool) (l l' : list A) :
  List.find f l = None -> List.find f (l ++ l') = List.find f l'.
Proof. induction l as [|y l IH]; [done|]. simpl. by destruct (f y). Qed.

(** After [makeCall] the set finds the call. *)
Lemma makeCall_finds b b1 name t (args : list Expr) fs e :
  FunctionSet.contains fs FunctionSet.kNonDeterministic = false ->
  makeCall name t args fs b = Ok (e, b1) ->
  List.find (Builder.is_call (canonicalizeCall name args).1 t (canonicalizeCall name args).2)
    (calls b1) = Some e.
Proof.
  intros Hfs. unfold makeCall. rewrite Hfs. destruct (canonicalizeCall name args) as [name' args'].
  unfold mbind, StateM_bind, gets. destruct (List.find _ (calls b)) as [e'|] eqn:Hf; simpl.
  - by intros [= -> ->].
  - unfold Builder.make. destruct (_ <? _); [|done]. simpl. intros [= <- <-]. simpl.
    rewrite find_none_app by done. simpl.
    by rewrite String.eqb_refl, bool_decide_eq_true_2, same_args_refl.
Qed.

(** The two ways to write a call of a reversible function. *)
Lemma canonicalizeCall_reversed name name' (a b : Expr) :
  reversibleFunctions name = Some name' -> reversibleFunctions name' = Some name ->
  Expr.expr_type a = Expr.expr_type b ->
  Builder.is_literal_expr a && Builder.is_literal_expr b = false ->
  (Expr.expr_id a = Expr.expr_id b -> a = b /\ name = name') ->
  canonicalizeCall name [a; b] = canonicalizeCall name' [b; a].
Proof.
  intros Hn Hn' Ht Hl Hid. simpl. rewrite Hn, Hn'. unfold Builder.shouldInvert.
  rewrite Ht, bool_decide_eq_true_2 by done. simpl.
  destruct (Builder.is_literal_expr a), (Builder.is_literal_expr b); simpl in *; try done.
  destruct (Nat.ltb_spec (Expr.expr_id b) (Expr.expr_id a)),
    (Nat.ltb_spec (Expr.expr_id a) (Expr.expr_id b)); try done; try lia.
  destruct Hid as [-> ->]; [lia|done].
Qed.

(** Two ways to write one call: the same, or with the operands of a reversible function
    swapped.  The operands are of one type and not both literals, which keep their order. *)
Inductive same_call (name : string) (args : list Expr) : string -> list Expr -> Prop :=
  | same_written : same_call name args name args
  | same_reversed x y name' :
      args = [x; y] -> reversibleFunctions name = Some name' -> x <> y ->
      Expr.expr_type x = Expr.expr_type y -> Builder.is_literal_expr x && Builder.is_literal_expr y = false ->
      same_call name args name' [y; x].

(** What [Builder::Builder] fills the map with: both directions of each pair. *)
Definition both_directions : Prop :=
  forall name name', reversibleFunctions name = Some name' -> reversibleFunctions name' = Some name.

(** A call keeps its form, or is swapped. *)
Lemma canonicalizeCall_cases name (args : list Expr) :
  canonicalizeCall name args = (name, args) \/
  exists x y name', args = [x; y] /\ reversibleFunctions name = Some name' /\
    Builder.shouldInvert x y = true /\ canonicalizeCall name args = (name', [y; x]).
Proof.
  unfold Builder.canonicalizeCall. destruct args as [|x [|y [|]]]; auto.
  destruct (reversibleFunctions name) as [name'|]; [| auto]. destruct (Builder.shouldInvert x y) eqn:Hs; [| auto].
  right. by exists x, y, name'.
Qed.

Lemma shouldInvert_spec (x y : Expr) : Builder.shouldInvert x y = true ->
  x <> y /\ Expr.expr_type x = Expr.expr_type y /\ Builder.is_literal_expr x && Builder.is_literal_expr y = false.
Proof.
  unfold Builder.shouldInvert. destruct (bool_decide _) eqn:Ht; [| done]. apply bool_decide_eq_true in Ht. cbn [negb].
  destruct (Builder.is_literal_expr x) eqn:Hx, (Builder.is_literal_expr y) eqn:Hy; cbn [negb andb]; try done.
  - intros _. split_conj; [intros ->; congruence | done | done].
  - destruct (Nat.ltb_spec (Expr.expr_id y) (Expr.expr_id x)); [| done]. intros _. split_conj; [| done | done].
    intros ->. lia.
Qed.

Lemma canonical_same (b : Builder T V) name (args : list Expr) name' (args' : list Expr) :
  both_directions -> Forall (valid b) args ->
  canonicalizeCall name args = canonicalizeCall name' args' <-> same_call name args name' args'.
Proof.
  intros Hboth Hv. split.
  - destruct (canonicalizeCall_cases name args) as [->|(x & y & n & -> & Hn & Hs & ->)],
      (canonicalizeCall_cases name' args') as [->|(x' & y' & n' & -> & Hn' & Hs' & ->)].
    + intros [= <- <-]. constructor.
    + intros [= -> ->]. apply shouldInvert_spec in Hs' as (Hne & Ht & Hl).
      apply (same_reversed n' [y'; x'] y' x'); [done | by apply Hboth | by apply not_eq_sym | done | by rewrite andb_comm].
    + intros [= <- <-]. apply shouldInvert_spec in Hs as (Hne & Ht & Hl). by apply (same_reversed name [x; y] x y).
    + intros [= <- <- <-]. apply Hboth in Hn, Hn'. rewrite Hn in Hn'. injection Hn' as <-. constructor.
  - intros [|x y n -> Hn Hne Ht Hl]; [done |]. rewrite !Forall_cons in Hv. destruct Hv as (Hx & Hy & _).
    apply canonicalizeCall_reversed; [done | by apply Hboth | done | done |]. intros Hid. exfalso. apply Hne.
    by apply (same_eq b); [.. | apply Nat.eqb_eq].
Qed.

(** C14: Deterministic calls are interned.  Once a call has been made, a call made in any
    later state of the builder and under any function set returns the same object - and
    creates none - exactly if it is the same call: of the same function on the same
    arguments, or written the other way round ([2 > a] for [a < 2]), with two different
    operands of one type that are not both literals.  The map of reversible functions has
    both directions of each pair, as the constructor of [Builder] fills it. *)
Theorem makeCall_interns b b1 b2 name name' t (args args' : list Expr) fs fs' e :
  both_directions -> arena_ok b -> Forall (valid b) args -> Forall (valid b2) args' ->
  FunctionSet.contains fs FunctionSet.kNonDeterministic = false ->
  FunctionSet.contains fs' FunctionSet.kNonDeterministic = false ->
  makeCall name t args fs b = Ok (e, b1) -> arena_ok b2 -> extends b1 b2 ->
  (same_call name args name' args' -> makeCall name' t args' fs' b2 = Ok (e, b2)) /\
  (forall e' b3, makeCall name' t args' fs' b2 = Ok (e', b3) -> Expr.same e e' = true ->
   same_call name args name' args').
Proof.
  intros Hboth Hb Hargs Hargs' Hfs Hfs' He Hb2 Hext. split.
  - intros Hc. apply (canonical_same b) in Hc; [| done..].
    pose proof (makeCall_finds _ _ _ _ _ _ _ Hfs He) as Hf. unfold Builder.makeCall. rewrite Hfs', <- Hc.
    destruct (canonicalizeCall name args) as [n a]. unfold mbind, StateM_bind, gets. simpl in Hf.
    destruct (more_calls _ _ Hext) as [more ->]. by rewrite (find_app _ _ more _ Hf).
  - intros e' b3 He' Hs. apply (canonical_same b); [done..|].
    destruct (builds_run _ _ _ _ _ (makeCall_spec maxPlanObjects reversibleFunctions b name t args fs Hargs)
      Hb He) as (_ & Hext1 & Hv & f & i & Heq).
    destruct (builds_run _ _ _ _ _ (makeCall_spec maxPlanObjects reversibleFunctions b2 name' t args' fs' Hargs')
      Hb2 He') as (Hb3 & Hext3 & Hv' & f' & i' & Heq').
    assert (e = e') as <-.
    { apply (same_eq b3); [|done..]. eapply valid_extends; [exact Hext3|]. by eapply valid_extends. }
    rewrite Heq in Heq'. injection Heq' as Hn Ha _ _. unfold canonical_call in Hn, Ha. rewrite Hfs, Hfs' in Hn, Ha.
    destruct (canonicalizeCall name args), (canonicalizeCall name' args'). simpl in *. congruence.
Qed.
End Interning.

(** ** Repetitions *)

Section Repetitions.
Context {T V : Type} `{TypeOps T} `{VariantOps V}.
Abbreviation Expr := (Expr T V).

Lemma drop_repeated_spec b seen (ps : list Expr) :
  Forall (valid b) ps ->
  (Builder.drop_repeated seen ps) `sublist_of` ps /\
  (forall p, p ∈ ps -> p ∈ Builder.drop_repeated seen ps \/ Expr.expr_id p ∈ seen) /\
  NoDup (map Expr.expr_id
    (List.filter (fun p => negb (Expr.containsNonDeterministic p)) (Builder.drop_repeated seen ps))) /\
  (forall p, p ∈ Builder.drop_repeated seen ps -> Expr.containsNonDeterministic p = false ->
   Expr.expr_id p ∉ seen).
Proof.
  intros Hps. revert seen. induction Hps as [|p ps Hp Hps IH]; intros seen.
  { split; [constructor|]. split; [by intros p ?%not_elem_of_nil|]. split; [constructor|].
    by intros p ?%not_elem_of_nil. }
  simpl. destruct (Expr.containsNonDeterministic p) eqn:Hnd.
  - destruct (IH seen) as (Hsub & Hin & Hdup & Hnew). simpl. rewrite Hnd. simpl.
    split; [by constructor|]. split; [|split; [done|]].
    + intros q [->|Hq]%elem_of_cons; [left; by left|]. destruct (Hin q Hq); [left; by right|by right].
    + intros q [->|Hq]%elem_of_cons Hq'; [congruence|by apply Hnew].
  - destruct (existsb _ seen) eqn:Hs.
    + apply existsb_exists in Hs as (i & Hi & Heq%Nat.eqb_eq).
      destruct (IH seen) as (Hsub & Hin & Hdup & Hnew). split; [by constructor|].
      split; [|done]. intros q [->|Hq]%elem_of_cons; [|by apply Hin].
      right. rewrite Heq. by apply list_elem_of_In.
    + destruct (IH (Expr.expr_id p :: seen)) as (Hsub & Hin & Hdup & Hnew). simpl. rewrite Hnd. simpl.
      split; [by constructor|]. split; [|split].
      * intros q [->|Hq]%elem_of_cons; [left; by left|].
        destruct (Hin q Hq) as [Hk|[Hk|Hk]%elem_of_cons]; [left; by right| |by right].
        left. assert (q = p) as ->; [|by left].
        rewrite Forall_forall in Hps. apply (same_eq b); [by apply Hps|done|by apply Nat.eqb_eq].
      * constructor; [|done]. intros Hk%list_elem_of_In%in_map_iff.
        destruct Hk as (q & Heq & [Hq Hqd]%filter_In).
        apply (Hnew q); [by apply list_elem_of_In|by apply negb_true_iff|]. rewrite Heq. by left.
      * intros q [->|Hq]%elem_of_cons Hq'.
        -- intros Hk%list_elem_of_In. assert (existsb (Nat.eqb (Expr.expr_id p)) seen = true); [|congruence].
           apply existsb_exists. exists (Expr.expr_id p). split; [done|apply Nat.eqb_refl].
        -- intros Hk. apply (Hnew q Hq Hq'). by right.
Qed.

(** A filter without its repeated predicates accepts the same rows, whatever the
    predicates mean; it keeps their order and every non-deterministic one, and has
    each deterministic predicate once. *)
Theorem dropRepeatedPredicates_keeps_filter b (ps : list Expr) {R} (accepts : Expr -> R -> Prop) :
  Forall (valid b) ps ->
  let kept := Builder.dropRepeatedPredicates ps in
  kept `sublist_of` ps /\
  (forall r, Forall (fun p => accepts p r) kept <-> Forall (fun p => accepts p r) ps) /\
  NoDup (map Expr.expr_id
    (List.filter (fun p => negb (Expr.containsNonDeterministic p)) kept)).
Proof.
  intros Hps kept. destruct (drop_repeated_spec b [] ps Hps) as (Hsub & Hin & Hdup & _).
  split; [done|]. split; [|done]. intros r. rewrite !Forall_forall. split; intros Ha p Hp.
  - destruct (Hin p Hp) as [Hk|Hk]; [by apply Ha|by apply not_elem_of_nil in Hk].
  - apply Ha. by eapply elem_of_sublist.
Qed.
End Repetitions.
