(* ===== verification/ExprFactories.v ===== *)
(** * Building expressions

    [axiom/optimizer/v2/ExprFactory.{h,cpp}]: the constructors of calls, the AND and
    OR of a list, the flattening of connectives and the rebuilding of calls, on the
    [Builder].  What a constructor returns is specified by an expression tree it
    stands for ([implements]): same type, same value on every row, no other
    columns, and no larger. *)

From Stdlib Require Import ZArith Lia.
From S2P Require Import Prelude Domains DomainSets Expressions ExprDomains SqlSemantics Builders.

Local Open Scope nat_scope.
Set Warnings "-register-all".

Module ExprFactory.
Section ExprFactory.
Context {T V : Type} `{TypeOps T} `{VariantOps V} `{FunctionRegistry}.
Variable maxPlanObjects : nat.
Variable reversibleFunctions : string -> option string.
Variable functionNames : FunctionNames.

Abbreviation Expr := (Expr T V).
Abbreviation M := (StateM (Builder T V)).

(** A name of the registry; [nullptr] throws. *)
Definition registered_name (name : option string) : M string :=
  match name with
  | Some name => mret name
  | None => throw (VeloxCheck "function is not registered")
  end.

Definition makeCall (name : string) (type : T) (arguments : list Expr) (specialForm : bool) :
    M Expr :=
  bits ← lift (functionBits name specialForm);
  Builder.makeCall maxPlanObjects reversibleFunctions name type arguments
    (Expr.unionArgFunctions bits arguments).

Definition makeBooleanCall (name : string) (arguments : list Expr) (specialForm : bool) : M Expr :=
  makeCall name booleanType arguments specialForm.

Definition makeFunction (name : option string) (arguments : list Expr) : M Expr :=
  registered_name name ≫= fun name => makeBooleanCall name arguments false.

Definition makeAnd (lhs rhs : Expr) : M Expr :=
  if Expr.same lhs rhs && negb (Expr.containsNonDeterministic lhs) then mret lhs
  else makeBooleanCall kAnd [lhs; rhs] true.

Definition makeOr (lhs rhs : Expr) : M Expr := makeBooleanCall kOr [lhs; rhs] true.

Definition makeNot (arg : Expr) : M Expr := makeFunction (negation functionNames) [arg].
Definition makeEq (lhs rhs : Expr) : M Expr := makeFunction (equality functionNames) [lhs; rhs].
Definition makeLessThan (lhs rhs : Expr) : M Expr := makeFunction (lt functionNames) [lhs; rhs].
Definition makeLessThanOrEqual (lhs rhs : Expr) : M Expr :=
  makeFunction (lte functionNames) [lhs; rhs].
Definition makeGreaterThan (lhs rhs : Expr) : M Expr := makeFunction (gt functionNames) [lhs; rhs].
Definition makeGreaterThanOrEqual (lhs rhs : Expr) : M Expr :=
  makeFunction (gte functionNames) [lhs; rhs].
Definition makeBetween (value lower upper : Expr) : M Expr :=
  makeFunction (between functionNames) [value; lower; upper].
Definition makeIsNull (arg : Expr) : M Expr := makeFunction (isNullName functionNames) [arg].

Definition makeNotDistinctFrom (lhs rhs : Expr) : M Expr :=
  makeFunction (distinctFrom functionNames) [lhs; rhs] ≫= makeNot.

Definition makeCoalesce (value fallback : Expr) : M Expr :=
  makeCall kCoalesce (Expr.expr_type value) [value; fallback] true.

Definition makeIf (condition thenExpr elseExpr : Expr) : M Expr :=
  makeCall kIf (Expr.expr_type thenExpr) [condition; thenExpr; elseExpr] true.

Definition makeRowConstructor (arguments : list Expr) (rowType : T) : M Expr :=
  makeCall kRowConstructor rowType arguments true.

Definition makeLiteral (value : V) (type : T) : M Expr :=
  Builder.makeLiteral maxPlanObjects value type.

(** The loop of [makeIn] over the values, with those seen. *)
Fixpoint distinct_values (seen values : list V) : list V :=
  match values with
  | [] => []
  | v :: values =>
      if existsb (veq v) seen then distinct_values seen values
      else v :: distinct_values (v :: seen) values
  end.

Definition makeIn (value : Expr) (values : list V) : M Expr :=
  match distinct_values [] values with
  | [] => throw (VeloxCheck "!values.empty()")
  | [v] => makeLiteral v (Expr.expr_type value) ≫= makeEq value
  | values =>
      list ← makeLiteral (of_array values) (arrayType (Expr.expr_type value));
      makeBooleanCall kIn [value; list] true
  end.

Fixpoint flattenInto (targetName : string) (expr : Expr) : list Expr :=
  match expr with
  | CallExpr name args _ _ _ =>
      if String.eqb name targetName then flat_map (flattenInto targetName) args else [expr]
  | _ => [expr]
  end.

Definition flattenAnd (expr : Expr) : list Expr := flattenInto kAnd expr.
Definition flattenOr (expr : Expr) : list Expr := flattenInto kOr expr.

(** The left fold of a non-empty sequence. *)
Fixpoint fold_calls (make : Expr -> Expr -> M Expr) (result : Expr) (predicates : list Expr) :
    M Expr :=
  match predicates with
  | [] => mret result
  | predicate :: predicates =>
      make result predicate ≫= fun result => fold_calls make result predicates
  end.

Definition andAll (predicates : list Expr) : M Expr :=
  match predicates with
  | [] => throw (VeloxCheck "andAll requires a non-empty sequence")
  | predicate :: predicates => fold_calls makeAnd predicate predicates
  end.

Definition orAll (predicates : list Expr) : M Expr :=
  match predicates with
  | [] => throw (VeloxCheck "orAll requires a non-empty sequence")
  | predicate :: predicates => fold_calls makeOr predicate predicates
  end.

(** [rebuildCall] of a call of the name, type and functions. *)
Definition rebuildCall (name : string) (type : T) (functions : FunctionSet) (args : list Expr) :
    M Expr :=
  Builder.makeCall maxPlanObjects reversibleFunctions name type args
    (Expr.unionArgFunctions functions args).

Definition rebuildLambda (args : list (Column T)) (type : T) (body : Expr) : M Expr :=
  Builder.make maxPlanObjects (LambdaExpr args body type).

Definition rebuildField (field : string + Z) (type : T) (base : Expr) : M Expr :=
  Builder.make maxPlanObjects (FieldExpr base field type).

(** [literalEquality]: the sides of a canonical equality with a literal. *)
Definition literalEquality (expr : Expr) : option (Expr * Expr) :=
  match expr with
  | CallExpr name (a :: b :: _) _ _ _ =>
      if negb (name_is (Some name) (equality functionNames)) || negb (Builder.is_literal_expr b)
      then None else Some (a, b)
  | _ => None
  end.
End ExprFactory.
End ExprFactory.

(** ** What stands for an expression *)

Section Implements.
Context {T V : Type} `{TypedValues T V} `{FunctionRegistry} (functionNames : FunctionNames).
Context (types : gmap nat T) (eval : Expr T V -> Row V -> option V).
Abbreviation Expr := (Expr T V).
Abbreviation typed := (typed functionNames types).
Abbreviation truth := (truth_of eval).

(** A size that no rewrite increases: a row constructor weighs what comparing its
    fields one by one does, a conditional the [NULL] it may get. *)
Definition call_weight (name : string) (args : list Expr) : nat :=
  match classify functionNames name with
  | RowName => 1 + 3 * length args
  | ConditionalName => if Nat.even (length args) then 2 else 1
  | _ => 1
  end.

Fixpoint weight (e : Expr) : nat :=
  match e with
  | CallExpr name args _ _ _ => call_weight name args + list_sum (map weight args)
  | FieldExpr base _ _ _ => S (weight base)
  | LambdaExpr _ body _ _ => S (weight body)
  | _ => 1
  end.

(** [e'] can stand for [e]. *)
Record refines (e e' : Expr) : Prop := {
  refines_type : Expr.expr_type e' = Expr.expr_type e;
  refines_eval r : row_ok types r -> eval e' r = eval e r;
  refines_columns : Expr.columns e' ⊆ Expr.columns e;
  refines_weight : weight e' <= weight e
}.

#[export] Instance refines_preorder : PreOrder refines.
Proof.
  split.
  - by intros e.
  - intros e1 e2 e3 [] []. split; [congruence| |by etransitivity|lia].
    intros r Hr. by transitivity (eval e2 r); auto.
Qed.

Record implements (b : Builder T V) (e e' : Expr) : Prop := {
  implements_valid : valid b e';
  implements_typed : typed e' = true;
  implements_refines : refines e e'
}.

Lemma implements_refl b e : valid b e -> typed e = true -> implements b e e.
Proof. by split. Qed.

Lemma implements_trans b e1 e2 e3 : refines e1 e2 -> implements b e2 e3 -> implements b e1 e3.
Proof. intros H12 []. split; [done..|]. by transitivity e2. Qed.

Lemma implements_extends b b' e e' : extends b b' -> implements b e e' -> implements b' e e'.
Proof. intros Hext []. split; [by eapply valid_extends|done..]. Qed.

Lemma refines_truth e e' r : refines e e' -> row_ok types r -> truth e' r = truth e r.
Proof. intros Href Hr. unfold truth_of. by rewrite (refines_eval _ _ Href r Hr). Qed.

Context (less : V -> V -> bool) (reversed : string -> option string)
  (constant : Expr -> option (V * T))
  (Heval : EvalLaws functionNames types eval less reversed constant).

Lemma flat_map_columns (args args' : list Expr) :
  Forall2 refines args args' ->
  flat_map Expr.columns args' ⊆ flat_map Expr.columns args.
Proof.
  induction 1 as [|e e' args args' He _ IH]; [done|]. simpl.
  pose proof (refines_columns _ _ He). set_solver.
Qed.

Lemma list_sum_weight (args args' : list Expr) :
  Forall2 refines args args' -> list_sum (map weight args') <= list_sum (map weight args).
Proof.
  induction 1 as [|e e' args args' He _ IH]; [done|]. simpl.
  pose proof (refines_weight _ _ He). lia.
Qed.

Lemma refines_at e e' r : refines e e' -> row_ok types r -> same_at eval r r e e'.
Proof. intros He Hr. split; [symmetry; apply He|]. symmetry. by apply He. Qed.

Lemma same_values (args args' : list Expr) r :
  Forall2 refines args args' -> row_ok types r -> Forall2 (same_at eval r r) args args'.
Proof. intros Hargs Hr. eapply Forall2_impl; [exact Hargs|]. intros e e' He. by apply refines_at. Qed.

(** Calls over arguments that stand for others. *)
Lemma refines_call name (args args' : list Expr) t fs fs' i i' :
  Forall2 refines args args' ->
  refines (CallExpr name args t fs i) (CallExpr name args' t fs' i').
Proof.
  intros Hargs. split; [done| | |].
  - intros r Hr. symmetry. apply (eval_call _ _ _ _ _ _ Heval); [by apply same_values|done..].
  - by apply flat_map_columns.
  - simpl. pose proof (list_sum_weight _ _ Hargs).
    unfold call_weight. rewrite <- (Forall2_length _ _ _ Hargs). lia.
Qed.

Lemma refines_field base base' f t i i' :
  refines base base' -> refines (FieldExpr base f t i) (FieldExpr base' f t i').
Proof.
  intros Hb. split; [done| |apply Hb|].
  - intros r Hr. symmetry. apply (eval_field _ _ _ _ _ _ Heval); [|done..].
    by apply refines_at.
  - simpl. pose proof (refines_weight _ _ Hb). lia.
Qed.

Lemma refines_lambda args body body' t i i' :
  refines body body' -> refines (LambdaExpr args body t i) (LambdaExpr args body' t i').
Proof.
  intros Hb. split; [done| | |].
  - intros r Hr. symmetry. apply (eval_lambda_at _ _ _ _ _ _ _ _ _ _ _ _ _ Heval); [|done].
    intros r' Hr' _. by apply refines_at.
  - simpl. intros c. rewrite !list_elem_of_In, !filter_In, <- !list_elem_of_In.
    intros [Hc ?]. split; [by apply Hb|done].
  - simpl. pose proof (refines_weight _ _ Hb). lia.
Qed.

(** A boolean expression is its truth. *)
Lemma eval_truth e r :
  typed e = true -> Expr.expr_type e = booleanType -> row_ok types r ->
  eval e r = of_bool <$> truth e r.
Proof.
  intros He Ht Hr. pose proof (eval_typed _ _ _ _ _ _ Heval e r He Hr) as Hv. unfold truth_of.
  destruct (eval e r) as [v|]; [|done]. destruct Hv as [Hn Hv]. simpl. f_equal. symmetry.
  apply of_bool_boolean; [done|]. rewrite (has_type_kind _ _ Hv Hn), Ht. apply booleanType_kind.
Qed.

Lemma refines_by_truth e e' :
  typed e = true -> typed e' = true ->
  Expr.expr_type e = booleanType -> Expr.expr_type e' = booleanType ->
  (forall r, row_ok types r -> truth e' r = truth e r) ->
  Expr.columns e' ⊆ Expr.columns e -> weight e' <= weight e -> refines e e'.
Proof.
  intros He He' Ht Ht' Htr Hc Hw. split; [congruence| |done..].
  intros r Hr. rewrite !eval_truth by done. by rewrite Htr.
Qed.
End Implements.

(** ** The constructors *)

(** Reversible functions are comparisons, or functions without rules of their own. *)
Definition reversible_ok (functionNames : FunctionNames) (reversed : string -> option string) : Prop :=
  forall name name', reversed name = Some name' ->
    classify functionNames name' = classify functionNames name /\
    (classify functionNames name = CompareName \/ classify functionNames name = PlainName).

Section Constructors.
Context {T V : Type} `{TypedValues T V} `{FunctionRegistry} `{!VariantEq V}.
Context (functionNames : FunctionNames) (types : gmap nat T)
  (eval : Expr T V -> Row V -> option V)
  (less : V -> V -> bool) (reversed : string -> option string)
  (constant : Expr T V -> option (V * T)) (maxPlanObjects : nat).
Context (Heval : EvalLaws functionNames types eval less reversed constant)
  (Hreversed : reversible_ok functionNames reversed).
Abbreviation Expr := (Expr T V).
Abbreviation typed := (typed functionNames types).
Abbreviation truth := (truth_of eval).
Abbreviation implements := (implements functionNames types eval).
Abbreviation refines := (refines functionNames types eval).

Lemma flat_map_perm (a b : Expr) : flat_map Expr.columns [b; a] ⊆ flat_map Expr.columns [a; b].
Proof. simpl. set_solver. Qed.

(** The canonical form of a call means the same. *)
Lemma canonical_refines name t (args : list Expr) functions fs i fs' i' :
  let c := canonical_call reversed name args functions in
  typed (CallExpr name args t fs i) = true ->
  typed (CallExpr c.1 c.2 t fs' i') = true /\
  refines (CallExpr name args t fs i) (CallExpr c.1 c.2 t fs' i').
Proof.
  assert (Hsame : typed (CallExpr name args t fs i) = true ->
    typed (CallExpr name args t fs' i') = true /\
    refines (CallExpr name args t fs i) (CallExpr name args t fs' i')).
  { intros Ht. split; [done|]. apply (refines_call _ _ _ _ _ _ Heval).
    induction args; constructor; [reflexivity|done]. }
  unfold canonical_call. destruct (FunctionSet.contains functions _); [done|].
  destruct args as [|a [|b [|]]]; try done. simpl. simpl in Hsame.
  destruct (reversed name) as [name'|] eqn:Hr; [|done].
  destruct (Builder.shouldInvert a b) eqn:Hi; [|done]. simpl. clear Hsame. intros Ht.
  destruct (Hreversed _ _ Hr) as [Hc Hk]. split.
  - apply andb_true_iff in Ht as [Hargs Hw]. rewrite andb_true_r in Hargs.
    apply andb_true_iff in Hargs as [Ha Hb]. rewrite Ha, Hb. simpl.
    unfold well_formed_call in *. rewrite Hc. destruct Hk as [Hk|Hk]; rewrite Hk in *; [|done].
    apply andb_true_iff in Hw as [-> Hw]. simpl. unfold Builder.shouldInvert in Hi.
    destruct (bool_decide_reflect (Expr.expr_type a = Expr.expr_type b)) as [->|]; [|done].
    by rewrite equivalent_refl.
  - split; [done| | |].
    + intros r Hrow. symmetry. by apply (eval_reversed _ _ _ _ _ _ Heval).
    + apply flat_map_perm.
    + simpl. unfold call_weight. rewrite Hc. destruct Hk as [Hk|Hk]; rewrite Hk; lia.
Qed.

Abbreviation makeCall := (Builder.makeCall maxPlanObjects reversed).

Lemma makeCall_implements (b0 : Builder T V) name t args functions fs i :
  Forall (valid b0) args -> typed (CallExpr name args t fs i) = true ->
  builds b0 (makeCall name t args functions) (fun b e => implements b (CallExpr name args t fs i) e).
Proof.
  intros Hargs Ht. eapply builds_weaken; [by apply makeCall_spec|].
  intros b e _ _ (Hv & fs' & i' & ->).
  destruct (canonical_refines name t args functions fs i fs' i' Ht). by split.
Qed.

Lemma makeLiteral_implements (b0 : Builder T V) v t i :
  has_type t v = true ->
  builds b0 (Builder.makeLiteral maxPlanObjects v t)
    (fun b e => implements b (LiteralExpr v t i) e /\ exists i', e = LiteralExpr v t i').
Proof.
  intros Ht. eapply builds_weaken; [apply makeLiteral_spec|]. intros b e _ _ [Hv [i' ->]].
  split; [|by eexists]. split; [done..|]. split; [done| |done|done]. intros r Hr.
  destruct (eval_sql _ _ _ _ _ _ Heval (mkColumn 0 t) r). 
  pose proof (val_literal v t i (r !! 0)) as Hv1.
  pose proof (val_literal v t i' (r !! 0)) as Hv2. simpl in Hv1, Hv2.
  rewrite set_value_same in Hv1, Hv2. congruence.
Qed.

Lemma functionBits_fuel name special e :
  functionBits name special = Throw e -> e <> OutOfFuel.
Proof.
  unfold functionBits. destruct special; [done|]. destruct (inference name) as [[]|]; [done|].
  destruct (isDeterministic name).
  - destruct (isDefaultNullBehavior name); [done|]. by intros [= <-].
  - destruct (functionMetadata name); [done|]. by intros [= <-].
Qed.

Abbreviation F f := (f maxPlanObjects reversed).

Lemma factory_makeCall_implements (b0 : Builder T V) name t args special fs i :
  Forall (valid b0) args -> typed (CallExpr name args t fs i) = true ->
  builds b0 (F ExprFactory.makeCall name t args special)
    (fun b e => implements b (CallExpr name args t fs i) e).
Proof.
  intros Hargs Ht. eapply builds_bind.
  - apply (builds_lift b0 _ (fun _ _ => True)); [by apply functionBits_fuel|done].
  - intros b bits Hb Hext _. apply makeCall_implements; [by eapply valids_extends|done].
Qed.

Lemma makeFunction_implements (b0 : Builder T V) name n args fs i :
  name = Some n ->
  Forall (valid b0) args -> typed (CallExpr n args booleanType fs i) = true ->
  builds b0 (F ExprFactory.makeFunction name args)
    (fun b e => implements b (CallExpr n args booleanType fs i) e).
Proof.
  intros -> Hargs Ht. eapply (builds_bind _ _ _ (fun _ a => a = n)); [by apply builds_ret|].
  intros b ? Hb Hext ->. apply factory_makeCall_implements; [by eapply valids_extends|done].
Qed.

(** *** Connectives *)

(** The laws of SQL on a whole row. *)
Lemma truth_and_at args t fs i r :
  truth (CallExpr kAnd args t fs i) r =
  fold_right and3 (Some true) (map (fun e => truth e r) args).
Proof.
  pose proof (truth_and _ _ _ _ _ (eval_sql _ _ _ _ _ _ Heval (mkColumn 0 booleanType) r)
    args t fs i (r !! 0)) as Ht. simpl in Ht. by rewrite set_value_same in Ht.
Qed.

Lemma truth_or_at args t fs i r :
  truth (CallExpr kOr args t fs i) r =
  fold_right or3 (Some false) (map (fun e => truth e r) args).
Proof.
  pose proof (truth_or _ _ _ _ _ (eval_sql _ _ _ _ _ _ Heval (mkColumn 0 booleanType) r)
    args t fs i (r !! 0)) as Ht. simpl in Ht. by rewrite set_value_same in Ht.
Qed.

Lemma truth_not_at name arg t fs i r :
  negation functionNames = Some name ->
  truth (CallExpr name [arg] t fs i) r = not3 (truth arg r).
Proof.
  intros Hn.
  pose proof (truth_not _ _ _ _ _ (eval_sql _ _ _ _ _ _ Heval (mkColumn 0 booleanType) r)
    arg name t fs i (r !! 0) Hn) as Ht. simpl in Ht. by rewrite set_value_same in Ht.
Qed.

Lemma truth_isNull_at name arg t fs i r :
  isNullName functionNames = Some name ->
  truth (CallExpr name [arg] t fs i) r = Some (negb (has_value (eval arg r))).
Proof.
  intros Hn.
  pose proof (truth_isNull _ _ _ _ _ (eval_sql _ _ _ _ _ _ Heval (mkColumn 0 booleanType) r)
    arg name t fs i (r !! 0) Hn) as Ht. simpl in Ht. by rewrite set_value_same in Ht.
Qed.

Lemma eval_column_at c r : eval (ColumnExpr c) r = r !! column_id c.
Proof.
  pose proof (val_column _ _ _ _ _ (eval_sql _ _ _ _ _ _ Heval c r) c (r !! column_id c) eq_refl) as Hc.
  simpl in Hc. by rewrite set_value_same in Hc.
Qed.

Lemma eval_literal_at v t i r : eval (LiteralExpr v t i) r = literal_value v.
Proof.
  pose proof (val_literal _ _ _ _ _ (eval_sql _ _ _ _ _ _ Heval (mkColumn 0 t) r) v t i (r !! 0))
    as Hv. simpl in Hv. by rewrite set_value_same in Hv.
Qed.

(** AND and OR, by name. *)
Definition connective (isAnd : bool) : string := if isAnd then kAnd else kOr.
Definition connect (isAnd : bool) : option bool -> option bool -> option bool :=
  if isAnd then and3 else or3.
Definition neutral (isAnd : bool) : option bool := Some isAnd.

Lemma truth_connective isAnd args t fs i r :
  truth (CallExpr (connective isAnd) args t fs i) r =
  fold_right (connect isAnd) (neutral isAnd) (map (fun e => truth e r) args).
Proof. destruct isAnd; [apply truth_and_at|apply truth_or_at]. Qed.

Lemma connect_assoc isAnd x y z :
  connect isAnd x (connect isAnd y z) = connect isAnd (connect isAnd x y) z.
Proof. by destruct isAnd, x as [[]|], y as [[]|], z as [[]|]. Qed.

Lemma connect_neutral isAnd x : connect isAnd x (neutral isAnd) = x.
Proof. by destruct isAnd, x as [[]|]. Qed.

Lemma connect_neutral_l isAnd x : connect isAnd (neutral isAnd) x = x.
Proof. by destruct isAnd, x as [[]|]. Qed.

Lemma connect_same isAnd x : connect isAnd x x = x.
Proof. by destruct isAnd, x as [[]|]. Qed.

Lemma classify_connective isAnd : classify functionNames (connective isAnd) = ConnectiveName.
Proof. by destruct isAnd. Qed.

Definition boolean_expr (e : Expr) : Prop := typed e = true /\ Expr.expr_type e = booleanType.

Lemma connective_typed isAnd args fs i :
  Forall boolean_expr args ->
  typed (CallExpr (connective isAnd) args booleanType fs i) = true.
Proof.
  intros Hargs. simpl. unfold well_formed_call. rewrite classify_connective.
  rewrite bool_decide_eq_true_2 by done. simpl. apply andb_true_iff.
  rewrite !forallb_forall. rewrite List.Forall_forall in Hargs.
  split; intros e He; destruct (Hargs e He); [done|]. by apply bool_decide_eq_true_2.
Qed.

Lemma connective_args isAnd args t fs i :
  typed (CallExpr (connective isAnd) args t fs i) = true ->
  t = booleanType /\ Forall boolean_expr args.
Proof.
  simpl. unfold well_formed_call. rewrite classify_connective.
  rewrite !andb_true_iff, !forallb_forall. intros (Hargs & Ht%bool_decide_eq_true & Hty).
  split; [done|]. apply List.Forall_forall. intros e He. split; [by apply Hargs|].
  specialize (Hty e He). by apply bool_decide_eq_true in Hty.
Qed.

(** The left fold of a connective, as a tree. *)
Definition nested (isAnd : bool) (p : Expr) (ps : list Expr) : Expr :=
  foldl (fun acc p => CallExpr (connective isAnd) [acc; p] booleanType 0%N 0) p ps.

Definition makeConnective (isAnd : bool) : Expr -> Expr -> StateM (Builder T V) Expr :=
  if isAnd then F ExprFactory.makeAnd else F ExprFactory.makeOr.

Lemma implements_boolean b e e' : implements b e e' -> Expr.expr_type e = booleanType -> boolean_expr e'.
Proof. intros [_ He' Href] Ht. split; [done|]. rewrite <- Ht. apply Href. Qed.

Lemma makeConnective_implements isAnd (b0 : Builder T V) l r fs i :
  valid b0 l -> valid b0 r -> boolean_expr l -> boolean_expr r ->
  builds b0 (makeConnective isAnd l r)
    (fun b e => implements b (CallExpr (connective isAnd) [l; r] booleanType fs i) e).
Proof.
  intros Hl Hr Hbl Hbr.
  assert (Htyped : typed (CallExpr (connective isAnd) [l; r] booleanType fs i) = true).
  { apply connective_typed. by each. }
  assert (Hcall : builds b0 (F ExprFactory.makeCall (connective isAnd) booleanType [l; r] true)
    (fun b e => implements b (CallExpr (connective isAnd) [l; r] booleanType fs i) e)).
  { apply factory_makeCall_implements; [by each|done]. }
  destruct isAnd; [|exact Hcall]. unfold makeConnective, ExprFactory.makeAnd.
  destruct (Expr.same l r && _) eqn:Hs; [|exact Hcall].
  apply andb_true_iff in Hs as [Hs _]. rewrite <- (same_eq b0 l r Hl Hr Hs) in *. clear Hcall.
  apply builds_ret. intros b Hb Hext. split; [by eapply valid_extends|apply Hbl|].
  apply (refines_by_truth _ _ _ _ _ _ Heval); [done|apply Hbl|done|apply Hbl| | |].
  - intros row Hrow. change kAnd with (connective true). rewrite truth_connective. simpl.
    by destruct (truth l row) as [[]|].
  - simpl. set_solver.
  - simpl. lia.
Qed.

Lemma nested_typed isAnd p ps :
  boolean_expr p -> Forall boolean_expr ps -> boolean_expr (nested isAnd p ps).
Proof.
  intros Hp Hps. revert p Hp. induction Hps as [|q ps Hq _ IH]; intros p Hp; [done|].
  simpl. apply IH. split; [|done]. apply connective_typed. by each.
Qed.

Lemma nested_truth isAnd p ps r :
  truth (nested isAnd p ps) r =
  fold_right (connect isAnd) (neutral isAnd) (map (fun e => truth e r) (p :: ps)).
Proof.
  revert p. induction ps as [|q ps IH]; intros p; simpl.
  - by rewrite connect_neutral.
  - rewrite IH. simpl. rewrite truth_connective. simpl.
    by rewrite connect_neutral, connect_assoc.
Qed.

Lemma nested_columns isAnd p ps :
  Expr.columns (nested isAnd p ps) ⊆ flat_map Expr.columns (p :: ps).
Proof.
  revert p. induction ps as [|q ps IH]; intros p; simpl; [clear; set_solver|].
  specialize (IH (CallExpr (connective isAnd) [p; q] booleanType 0%N 0)). simpl in IH. clear -IH. set_solver.
Qed.

Abbreviation weight := (weight functionNames).

Lemma nested_weight isAnd p ps :
  weight (nested isAnd p ps) = weight p + list_sum (map weight ps) + length ps.
Proof.
  revert p. induction ps as [|q ps IH]; intros p; [simpl; lia|].
  change (nested isAnd p (q :: ps)) with
    (nested isAnd (CallExpr (connective isAnd) [p; q] booleanType 0%N 0) ps).
  rewrite IH. simpl. unfold call_weight. rewrite classify_connective. lia.
Qed.

Lemma refines_nested isAnd p p' ps :
  refines p p' -> refines (nested isAnd p ps) (nested isAnd p' ps).
Proof.
  revert p p'. induction ps as [|q ps IH]; intros p p' Hp; [done|]. simpl. apply IH.
  apply (refines_call _ _ _ _ _ _ Heval). constructor; [done|]. constructor; [reflexivity|constructor].
Qed.

Lemma fold_calls_implements isAnd (b0 : Builder T V) p ps :
  valid b0 p -> Forall (valid b0) ps -> boolean_expr p -> Forall boolean_expr ps ->
  builds b0 (ExprFactory.fold_calls (makeConnective isAnd) p ps)
    (fun b e => implements b (nested isAnd p ps) e).
Proof.
  intros Hp Hps Hbp Hbps. revert b0 p Hp Hps Hbp.
  induction Hbps as [|q ps Hq Hbps IH]; intros b0 p Hp Hps Hbp; simpl.
  - apply builds_ret. intros b Hb Hext. apply implements_refl; [by eapply valid_extends|apply Hbp].
  - inversion Hps; subst.
    eapply builds_bind; [by apply (makeConnective_implements isAnd b0 p q 0%N 0)|].
    cbn beta. intros b e Hb Hext He.
    eapply builds_weaken.
    + apply IH; [apply He|by eapply valids_extends|by eapply implements_boolean].
    + cbn beta. intros b' e' Hb' Hext' He'. eapply implements_trans; [|exact He'].
      apply refines_nested, He.
Qed.

Definition makeAll (isAnd : bool) : list Expr -> StateM (Builder T V) Expr :=
  if isAnd then F ExprFactory.andAll else F ExprFactory.orAll.

Lemma makeAll_implements isAnd (b0 : Builder T V) p ps :
  Forall (valid b0) (p :: ps) -> Forall boolean_expr (p :: ps) ->
  builds b0 (makeAll isAnd (p :: ps)) (fun b e => implements b (nested isAnd p ps) e).
Proof.
  intros Hv Hb. inversion Hv; inversion Hb; subst.
  destruct isAnd.
  - by apply (fold_calls_implements true b0 p ps).
  - by apply (fold_calls_implements false b0 p ps).
Qed.

(** *** Flattening *)

Definition flatten (isAnd : bool) : Expr -> list Expr :=
  ExprFactory.flattenInto (connective isAnd).

Lemma fold_connect_app isAnd l l' :
  fold_right (connect isAnd) (neutral isAnd) (l ++ l') =
  connect isAnd (fold_right (connect isAnd) (neutral isAnd) l)
                (fold_right (connect isAnd) (neutral isAnd) l').
Proof.
  induction l as [|x l IH]; simpl; [by rewrite connect_neutral_l|].
  by rewrite IH, connect_assoc.
Qed.

Lemma flatten_call isAnd name args t fs i :
  flatten isAnd (CallExpr name args t fs i) =
  if String.eqb name (connective isAnd) then flat_map (flatten isAnd) args
  else [CallExpr name args t fs i].
Proof. done. Qed.

(** What [flatten] returns together means the expression. *)
Lemma flatten_truth isAnd e r :
  fold_right (connect isAnd) (neutral isAnd) (map (fun e => truth e r) (flatten isAnd e)) = truth e r.
Proof.
  induction e as [| |name args t fs i IH| | |] using Expr_nested_ind; try apply connect_neutral.
  rewrite flatten_call. destruct (String.eqb_spec name (connective isAnd)) as [->|];
    [|apply connect_neutral].
  rewrite truth_connective. induction IH as [|e args He _ IH]; [done|].
  simpl. rewrite map_app, fold_connect_app, IH. by rewrite He.
Qed.

Lemma flatten_parts isAnd b e :
  arena_ok b -> valid b e -> boolean_expr e ->
  Forall (fun p => valid b p /\ boolean_expr p /\ Expr.columns p ⊆ Expr.columns e) (flatten isAnd e).
Proof.
  intros Hb.
  assert (Hself : forall e, valid b e -> boolean_expr e ->
    Forall (fun p => valid b p /\ boolean_expr p /\ Expr.columns p ⊆ Expr.columns e) [e]).
  { intros e' ? ?. by each. }
  induction e as [| |name args t fs i IH| | |] using Expr_nested_ind; try apply Hself.
  intros Hv Hbool. rewrite flatten_call.
  destruct (String.eqb_spec name (connective isAnd)) as [->|]; [|by apply Hself].
  destruct Hbool as [Ht _]. apply connective_args in Ht as [_ Hargs].
  pose proof (valid_children b _ Hb Hv) as Hch. simpl in Hch.
  rewrite List.Forall_forall in *. intros p Hp. apply in_flat_map in Hp as (e & He & Hp).
  specialize (IH e He (Hch e He) (Hargs e He)). rewrite List.Forall_forall in IH.
  destruct (IH p Hp) as (? & ? & Hc). split; [done|]. split; [done|]. etransitivity; [exact Hc|].
  intros c Hcol. apply list_elem_of_In, in_flat_map. exists e. split; [done|by apply list_elem_of_In].
Qed.

(** *** Functions of the registry *)

Context (Hfull : full_registry functionNames = true).

(** A boolean call of a registered function. *)
Lemma registered_typed name c args fs i :
  (Some name, c) ∈ name_classes functionNames ->
  Forall (fun e => typed e = true) args ->
  match c with
  | CompareName => Nat.eqb (length args) 2 && same_types args
  | BetweenName => same_types args
  | NegationName => Nat.eqb (length args) 1 && forallb (of_type booleanType) args
  | IsNullName => Nat.eqb (length args) 1
  | _ => false
  end = true ->
  boolean_expr (CallExpr name args booleanType fs i).
Proof.
  intros Hc Hargs Hw. split; [|done]. simpl. apply andb_true_iff. split.
  - by apply forallb_forall, List.Forall_forall.
  - unfold well_formed_call. rewrite (classify_registered _ Hfull _ _ Hc).
    destruct c; try done; by rewrite bool_decide_eq_true_2.
Qed.

Lemma literal_at v t i r : isNull v = false -> eval (LiteralExpr v t i) r = Some v.
Proof. intros Hv. rewrite eval_literal_at. unfold literal_value. by rewrite Hv. Qed.

Lemma truth_compare_at op a b name t fs i r :
  comparison_name functionNames op = Some name ->
  primitive a = true -> primitive b = true ->
  truth (CallExpr name [a; b] t fs i) r =
  strict (comparison_holds less op) (eval a r) (eval b r).
Proof.
  intros Hn Ha Hb.
  pose proof (truth_compare _ _ _ _ _ (eval_sql _ _ _ _ _ _ Heval (mkColumn 0 booleanType) r)
    op a b name t fs i (r !! 0) Hn Ha Hb) as Ht. simpl in Ht. by rewrite set_value_same in Ht.
Qed.

Lemma truth_between_at a b c name t fs i r :
  between functionNames = Some name ->
  primitive a = true -> primitive b = true -> primitive c = true ->
  eval b r <> None -> eval c r <> None ->
  truth (CallExpr name [a; b; c] t fs i) r =
  and3 (strict (comparison_holds less GreaterEqual) (eval a r) (eval b r))
       (strict (comparison_holds less LessEqual) (eval a r) (eval c r)).
Proof.
  intros Hn Ha Hb Hc Hb' Hc'.
  pose proof (truth_between _ _ _ _ _ (eval_sql _ _ _ _ _ _ Heval (mkColumn 0 booleanType) r)
    a b c name t fs i (r !! 0) Hn Ha Hb Hc) as Ht.
  simpl in Ht. rewrite set_value_same in Ht. auto.
Qed.

Lemma truth_in_at a b t fs i elements r :
  constantInList kIn [a; b] = Some elements -> primitive a = true ->
  truth (CallExpr kIn [a; b] t fs i) r =
  match eval a r with Some u => in3 less u elements | None => None end.
Proof.
  intros Hn Ha.
  pose proof (truth_in _ _ _ _ _ (eval_sql _ _ _ _ _ _ Heval (mkColumn 0 booleanType) r)
    a b t fs i elements (r !! 0) Hn Ha) as Ht. simpl in Ht. by rewrite set_value_same in Ht.
Qed.

(** *** IN *)

Lemma veq_refl (v : V) : veq v v = true.
Proof. by rewrite veq_spec, vlt_irrefl. Qed.

Lemma distinct_values_same seen values (v : V) :
  In v (ExprFactory.distinct_values seen values) \/ In v seen <-> In v values \/ In v seen.
Proof.
  revert seen. induction values as [|w values IH]; intros seen; [done|]. simpl.
  destruct (existsb (veq w) seen) eqn:Hs.
  - apply existsb_exists in Hs as (u & Hu & ->%veq_eq). rewrite IH. intuition (subst; auto).
  - specialize (IH (w :: seen)). simpl in *. tauto.
Qed.

(** An IN over a constant list. *)
Definition in_array (value : Expr) (values : list V) fs i k : Expr :=
  CallExpr kIn [value; LiteralExpr (of_array values) (arrayType (Expr.expr_type value)) k]
    booleanType fs i.

Lemma in_array_typed value values fs i k :
  typed value = true -> forallb (has_type (Expr.expr_type value)) values = true ->
  boolean_expr (in_array value values fs i k).
Proof.
  intros Hv Hvs. split; [|done]. simpl. rewrite Hv, has_type_of_array by done. simpl.
  unfold well_formed_call. by apply bool_decide_eq_true_2.
Qed.

Lemma in_array_refines value values values' fs i k :
  typed value = true -> (forall v, In v values <-> In v values') ->
  refines (in_array value values fs i k) (in_array value values' fs i k).
Proof.
  intros Hv Hsame. split; [done| |done|done]. intros r Hr.
  apply (eval_in_set _ _ _ _ _ _ Heval). intros v. by rewrite Hsame.
Qed.

Lemma in_one_refines name value v fs i k fs' i' k' :
  equality functionNames = Some name ->
  refines (in_array value [v] fs i k)
    (CallExpr name [value; LiteralExpr v (Expr.expr_type value) k'] booleanType fs' i').
Proof.
  intros Hn. split; [done| | |].
  - intros r Hr. symmetry. by apply (eval_in_one _ _ _ _ _ _ Heval).
  - done.
  - simpl. unfold call_weight. rewrite (classify_registered _ Hfull name CompareName); [simpl; lia|].
    unfold name_classes. rewrite <- Hn. set_solver.
Qed.

Lemma makeIn_implements (b0 : Builder T V) value values fs i k :
  valid b0 value -> typed value = true ->
  forallb (has_type (Expr.expr_type value)) values = true ->
  builds b0 (F ExprFactory.makeIn functionNames value values)
    (fun b e => implements b (in_array value values fs i k) e).
Proof.
  intros Hval Ht Hvs. unfold ExprFactory.makeIn.
  assert (Hsame : forall v, In v values <-> In v (ExprFactory.distinct_values [] values)).
  { intros v. pose proof (distinct_values_same [] values v). simpl in *. tauto. }
  assert (Hvs' : forallb (has_type (Expr.expr_type value)) (ExprFactory.distinct_values [] values) = true).
  { rewrite forallb_forall in *. intros v Hv. by apply Hvs, Hsame. }
  eapply builds_weaken; [|intros b e _ _; apply (implements_trans _ _ _ _ _ _ _
    (in_array_refines value _ _ fs i k Ht Hsame))].
  destruct (ExprFactory.distinct_values [] values) as [|v [|w rest]]; [apply builds_throw| |].
  - eapply builds_bind; [apply (makeLiteral_implements _ _ _ 0)|].
    { simpl in Hvs'. by rewrite andb_true_r in Hvs'. }
    cbn beta. intros b e Hb Hext [He [j ->]].
    unfold ExprFactory.makeEq. destruct (equality functionNames) as [name|] eqn:Hn;
      [|apply builds_throw].
    eapply builds_weaken.
    + apply (makeFunction_implements _ (Some name) name _ 0%N 0); [done| |].
      * each; [by eapply valid_extends|apply He].
      * apply (registered_typed name CompareName).
        -- unfold name_classes. rewrite <- Hn. set_solver.
        -- each; [done|apply He].
        -- simpl. by rewrite equivalent_refl.
    + cbn beta. intros b' e' _ _. apply implements_trans. by apply in_one_refines.
  - eapply builds_bind; [apply (makeLiteral_implements _ _ _ 0)|].
    { by apply has_type_of_array. }
    cbn beta. intros b e Hb Hext [He [j ->]].
    eapply builds_weaken.
    + apply (factory_makeCall_implements _ _ _ _ _ 0%N 0).
      * each; [by eapply valid_extends|apply He].
      * apply in_array_typed; done.
    + cbn beta. intros b' e' _ _. apply implements_trans.
      apply (refines_call _ _ _ _ _ _ Heval). constructor; [reflexivity|].
      constructor; [|constructor]. split; [done| |done|done].
      intros r _. by rewrite !eval_literal_at.
Qed.
End Constructors.
