(* ===== verification/DomainFilters.v ===== *)
(** * Filters from domains

    [domainToFilter] of [axiom/optimizer/v2/ExprSimplifier.cpp] and its helpers: a
    filter on an integral column that holds exactly on a domain - an [IN] list, a
    disjunction of ranges, or the negation of the complement if that has fewer
    ranges.  A bound is a [BIGINT]; the literals have the type of the column. *)

From Stdlib Require Import ZArith Lia.
From S2P Require Import Prelude Domains DomainSets Expressions ExprDomains IntegralDomains SqlSemantics Builders ExprFactories.

Open Scope Z_scope.
Set Warnings "-register-all".

Module DomainFilter.
Section DomainFilter.
Context {T V : Type} `{TypeOps T} `{VariantOps V} `{FunctionRegistry}.
Variable maxPlanObjects : nat.
Variable reversibleFunctions : string -> option string.
Variable functionNames : FunctionNames.

Abbreviation Expr := (Expr T V).
Abbreviation M := (StateM (Builder T V)).
Abbreviation F f := (f maxPlanObjects reversibleFunctions).

(** [variant.value<int64_t>()] *)
Definition int64_value (variant : V) : Result Z :=
  if bool_decide (kind variant = BIGINT) && negb (isNull variant) then Ok (integer variant)
  else Throw (VeloxCheck "value<int64_t>").

Definition typedIntegralValue (type : T) (value : Z) : Result V :=
  if is_integer_kind (type_kind type) then Ok (of_integer (type_kind type) value)
  else Throw (VeloxUnreachable "typedIntegralValue").

Definition makeIntegralLiteral (column : Column T) (value : Z) : M Expr :=
  variant ← lift (typedIntegralValue (column_type column) value);
  Builder.makeLiteral maxPlanObjects variant (column_type column).

Definition rangeBoundToFilter (column : Column T) (bound : Bound V) (isLower : bool)
    (typeLimit : Z) : M (option Expr) :=
  value ← lift (int64_value (value bound));
  if inclusive bound && (value =? typeLimit) then mret None
  else
    literal ← makeIntegralLiteral column value;
    (if isLower then
       if inclusive bound
       then F ExprFactory.makeGreaterThanOrEqual functionNames (ColumnExpr column) literal
       else F ExprFactory.makeGreaterThan functionNames (ColumnExpr column) literal
     else
       if inclusive bound
       then F ExprFactory.makeLessThanOrEqual functionNames (ColumnExpr column) literal
       else F ExprFactory.makeLessThan functionNames (ColumnExpr column) literal)
    ≫= fun filter => mret (Some filter).

(** The values of ranges that are all single values. *)
Fixpoint single_values (column : Column T) (ranges : list (Range V)) : Result (list V) :=
  match ranges with
  | [] => Ok []
  | range :: ranges =>
      match Range.low range with
      | None => Throw (VeloxUnreachable "range.low()")
      | Some low =>
          n ← int64_value (value low);
          v ← typedIntegralValue (column_type column) n;
          vs ← single_values column ranges;
          Ok (v :: vs)
      end
  end.

(** The filter of one bound of a range, if it has one. *)
Definition boundToFilter (column : Column T) (bound : option (Bound V)) (isLower : bool)
    (typeLimit : Z) : M (list Expr) :=
  match bound with
  | None => mret []
  | Some bound => option_list <$> rangeBoundToFilter column bound isLower typeLimit
  end.

(** [range.low()->value != minimum] and [range.high()->value != maximum] of a closed
    range: the values, if the range is a [BETWEEN]. *)
Definition between_values (minimum maximum : Z) (range : Range V) : Result (option (Z * Z)) :=
  match Range.low range, Range.high range with
  | Some low, Some high =>
      if inclusive low && inclusive high then
        lower ← int64_value (value low);
        if lower =? minimum then Ok None
        else
          upper ← int64_value (value high);
          Ok (if upper =? maximum then None else Some (lower, upper))
      else Ok None
  | _, _ => Ok None
  end.

(** The body of the loop over the ranges. *)
Definition rangeToFilter (column : Column T) (minimum maximum : Z) (range : Range V) : M Expr :=
  between ← lift (between_values minimum maximum range);
  match between with
  | Some (low, high) =>
      lower ← makeIntegralLiteral column low;
      upper ← makeIntegralLiteral column high;
      F ExprFactory.makeBetween functionNames (ColumnExpr column) lower upper
  | None =>
      lower ← boundToFilter column (Range.low range) true minimum;
      upper ← boundToFilter column (Range.high range) false maximum;
      match lower ++ upper with
      | [] => throw (VeloxCheck "!bounds.empty()")
      | bounds => F ExprFactory.andAll bounds
      end
  end.

Fixpoint rangesToFilters (column : Column T) (minimum maximum : Z) (ranges : list (Range V)) :
    M (list Expr) :=
  match ranges with
  | [] => mret []
  | range :: ranges =>
      filter ← rangeToFilter column minimum maximum range;
      filters ← rangesToFilters column minimum maximum ranges;
      mret (filter :: filters)
  end.

(** The limits of a type, as its domain has them. *)
Definition limit (bound : option (Bound V)) : Result Z :=
  match bound with
  | Some bound => int64_value (value bound)
  | None => Throw (VeloxUnreachable "bad optional access")
  end.

Definition nonNullDomainToFilter (column : Column T) (domain nonNullValues : Domain V) :
    M Expr :=
  let ranges := Domain.ranges domain in
  if forallb Range.isSingleValue ranges then
    values ← lift (single_values column ranges);
    F ExprFactory.makeIn functionNames (ColumnExpr column) values
  else
    match Domain.ranges nonNullValues with
    | [] => throw (VeloxUnreachable "front() of an empty vector")
    | front :: _ =>
        minimum ← lift (limit (Range.low front));
        maximum ← lift (limit (Range.high front));
        disjuncts ← rangesToFilters column minimum maximum ranges;
        F ExprFactory.orAll disjuncts
    end.

(** The filter of the values that are not [NULL]; [None] if there is none. *)
Definition nonNullFilter (column : Column T) (nonNullResult nonNullValues : Domain V) :
    M (option Expr) :=
  if Domain.equals nonNullResult nonNullValues then
    Some <$> (F ExprFactory.makeIsNull functionNames (ColumnExpr column) ≫=
              F ExprFactory.makeNot functionNames)
  else if negb (Domain.isNone nonNullResult) then
    let excluded := Domain.subtract nonNullValues nonNullResult in
    Some <$>
    (if (length (Domain.ranges excluded) <? length (Domain.ranges nonNullResult))%nat
     then nonNullDomainToFilter column excluded nonNullValues ≫=
          F ExprFactory.makeNot functionNames
     else nonNullDomainToFilter column nonNullResult nonNullValues)
  else mret None.

Definition domainToFilter (column : Column T) (domain : Domain V) : M (option Expr) :=
  match integralTypeDomain (column_type column) with
  | None => throw (VeloxUnreachable "bad optional access")
  | Some nonNullValues =>
      let allValues := Domain.unite nonNullValues Domain.onlyNull in
      let domain := Domain.intersect domain allValues in
      if Domain.equals domain allValues then mret None
      else
        let nonNullResult := Domain.intersect domain Domain.notNull in
        filter ← nonNullFilter column nonNullResult nonNullValues;
        if negb (Domain.nullsAllowed domain) then mret filter
        else
          nullFilter ← F ExprFactory.makeIsNull functionNames (ColumnExpr column);
          match filter with
          | None => mret (Some nullFilter)
          | Some filter => Some <$> F ExprFactory.makeOr nullFilter filter
          end
  end.
End DomainFilter.
End DomainFilter.

(** ** The filter of a domain holds on the domain *)

Section Exact.
Context {T V : Type} `{TypedValues T V} `{FunctionRegistry} `{!VariantEq V}.
Context (functionNames : FunctionNames) (types : gmap nat T)
  (eval : Expr T V -> Row V -> option V)
  (less : V -> V -> bool) (reversed : string -> option string)
  (constant : Expr T V -> option (V * T)) (maxPlanObjects : nat).
Context (Heval : EvalLaws functionNames types eval less reversed constant)
  (Hreversed : reversible_ok functionNames reversed)
  (Hfull : full_registry functionNames = true).
Context (column : Column T) (limits : Domain V)
  (Hlimits : integralTypeDomain (column_type column) = Some limits)
  (Htyped : types !! column_id column = Some (column_type column)).
Abbreviation Expr := (Expr T V).
Abbreviation typed := (typed functionNames types).
Abbreviation truth := (truth_of eval).
Abbreviation boolean_expr := (boolean_expr functionNames types).
Abbreviation implements := (implements functionNames types eval).
Abbreviation F f := (f maxPlanObjects reversed).
Abbreviation kind := (type_kind (column_type column)).
Abbreviation in_type n := (in_limits kind n).
Abbreviation row_value r := (r !! column_id column).

(** A filter that is [NULL] on [NULL] and [P] on the other values. *)
Record column_filter (b : Builder T V) (P : Z -> bool) (e : Expr) : Prop := {
  filter_valid : valid b e;
  filter_boolean : boolean_expr e;
  filter_columns : Expr.columns e ⊆ [column];
  filter_truth r : row_ok types r -> truth e r = (fun u => P (integer u)) <$> row_value r
}.

Lemma column_integer : is_integer_kind kind = true.
Proof. by apply (limits_range column limits Hlimits). Qed.

Lemma row_value_ok r u :
  row_ok types r -> row_value r = Some u -> isNull u = false /\ Expressions.kind u = kind /\ in_type (integer u).
Proof.
  intros Hr Hu. specialize (Hr _ _ Htyped). rewrite Hu in Hr. destruct Hr as [Hn Ht].
  pose proof (has_type_kind _ _ Ht Hn) as Hk. split; [done|]. split; [done|].
  rewrite <- Hk. apply integer_in_limits; [done|]. rewrite Hk. apply column_integer.
Qed.

Lemma column_filter_ext b P Q e :
  (forall n, in_type n -> P n = Q n) -> column_filter b P e -> column_filter b Q e.
Proof.
  intros Hext [Hv Hb Hc Ht]. split; [done..|]. intros r Hr. rewrite Ht by done.
  destruct (row_value r) as [u|] eqn:Hu; [|done]. simpl. f_equal. apply Hext.
  by eapply row_value_ok.
Qed.

Lemma column_filter_extends b b' P e :
  extends b b' -> column_filter b P e -> column_filter b' P e.
Proof. intros Hext []. split; [by eapply valid_extends|done..]. Qed.

Lemma column_filters_extend b b' Ps es :
  extends b b' -> Forall2 (column_filter b) Ps es -> Forall2 (column_filter b') Ps es.
Proof. intros Hext Hes. eapply Forall2_impl; [done|]. intros ? ?. by apply column_filter_extends. Qed.

(** What stands for a filter is one. *)
Lemma implements_filter b P e e' :
  implements b e e' -> boolean_expr e -> Expr.columns e ⊆ [column] ->
  (forall r, row_ok types r -> truth e r = (fun u => P (integer u)) <$> row_value r) ->
  column_filter b P e'.
Proof.
  intros Himp [_ Ht] Hc Htr. split.
  - apply Himp.
  - by eapply implements_boolean.
  - etransitivity; [apply Himp|done].
  - intros r Hr. rewrite <- Htr by done. by eapply refines_truth; [apply Himp|].
Qed.

Lemma eval_column r : eval (ColumnExpr column) r = row_value r.
Proof.
  pose proof (val_column _ _ _ _ _ (eval_sql _ _ _ _ _ _ Heval column r) column (row_value r)
    eq_refl) as Hc. simpl in Hc. by rewrite set_value_same in Hc.
Qed.

Lemma less_integers_at u v :
  isNull u = false -> isNull v = false ->
  is_integer_kind (Expressions.kind u) = true -> is_integer_kind (Expressions.kind v) = true ->
  less u v = (integer u <? integer v).
Proof. apply (less_integers _ _ _ _ _ (eval_sql _ _ _ _ _ _ Heval column ∅)). Qed.

(** *** Connectives of filters *)

Lemma filters_parts b Ps es :
  Forall2 (column_filter b) Ps es ->
  Forall (valid b) es /\ Forall boolean_expr es /\ flat_map Expr.columns es ⊆ [column].
Proof.
  induction 1 as [|P e Ps es [] _ (? & ? & ?)].
  { split; [constructor|]. split; [constructor|]. set_solver. }
  split; [by constructor|]. split; [by constructor|]. simpl. set_solver.
Qed.

Lemma connect_filters isAnd b Ps es r :
  Forall2 (column_filter b) Ps es -> es <> [] -> row_ok types r ->
  fold_right (connect isAnd) (neutral isAnd) (map (fun e => truth e r) es) =
  (fun u => (if isAnd then forallb (fun P => P (integer u)) Ps
             else existsb (fun P => P (integer u)) Ps)) <$> row_value r.
Proof.
  intros Hes Hne Hr. induction Hes as [|P e Ps es He Hes IH]; [done|].
  simpl. rewrite (filter_truth _ _ _ He r Hr).
  destruct Hes as [|Q e' Qs es' He' Hes].
  - simpl. destruct (row_value r) as [u|]; simpl; [|by destruct isAnd].
    by destruct isAnd, (P (integer u)).
  - rewrite IH by done. destruct (row_value r) as [u|]; simpl; [|by destruct isAnd].
    destruct isAnd; [by destruct (P (integer u)), (Q (integer u)), (forallb _ Qs)|].
    by destruct (P (integer u)), (Q (integer u)), (existsb _ Qs).
Qed.

Lemma makeAll_filter isAnd (b0 : Builder T V) Ps es :
  Forall2 (column_filter b0) Ps es -> es <> [] ->
  builds b0 (makeAll reversed maxPlanObjects isAnd es)
    (fun b e => column_filter b (fun n =>
       if isAnd then forallb (fun P => P n) Ps else existsb (fun P => P n) Ps) e).
Proof.
  intros Hes Hne. destruct (filters_parts _ _ _ Hes) as (Hv & Hb & Hc).
  destruct es as [|e es]; [done|].
  eapply builds_weaken.
  - apply (makeAll_implements _ _ _ _ _ _ _ Heval Hreversed isAnd b0 e es Hv Hb).
  - intros b e' _ _ He'. eapply implements_filter; [exact He'| | |].
    + inversion Hb; subst. by apply nested_typed.
    + etransitivity; [apply nested_columns|done].
    + intros r Hr. rewrite (nested_truth _ _ _ _ _ _ Heval). by eapply connect_filters.
Qed.

(** *** Filters of literals *)

Lemma makeIntegralLiteral_spec (b0 : Builder T V) n :
  in_type n ->
  builds b0 (DomainFilter.makeIntegralLiteral maxPlanObjects column n)
    (fun b e => valid b e /\ typed e = true /\
       exists i, e = LiteralExpr (of_integer kind n) (column_type column) i).
Proof.
  intros Hn. unfold DomainFilter.makeIntegralLiteral, DomainFilter.typedIntegralValue.
  rewrite column_integer. simpl.
  eapply (builds_bind _ _ _ (fun _ v => v = of_integer kind n)).
  { apply builds_lift; [done|]. by intros b v _ _ [= ->]. }
  intros b v _ _ ->. eapply builds_weaken; [apply (makeLiteral_implements _ _ _ _ _ _ _ Heval _ _ _ 0)|].
  { apply has_type_integer; [apply column_integer|done]. }
  intros b' e _ _ [He ?]. split; [apply He|]. split; [apply He|done].
Qed.

(** A literal of the column's type. *)
Abbreviation literal n i := (LiteralExpr (of_integer kind n) (column_type column) i).

Lemma literal_value_at n i r :
  eval (literal n i) r = Some (of_integer kind n).
Proof. apply (literal_at _ _ _ _ _ _ Heval). apply isNull_of_integer, column_integer. Qed.

Definition holds (op : Comparison) (m n : Z) : bool :=
  match op with
  | Equal => m =? n | Less => m <? n | LessEqual => m <=? n | Greater => n <? m
  | GreaterEqual => n <=? m
  end.

Lemma comparison_holds_at op r u n :
  row_ok types r -> row_value r = Some u -> in_type n ->
  comparison_holds less op u (of_integer kind n) = holds op (integer u) n.
Proof.
  intros Hr Hu Hn. destruct (row_value_ok _ _ Hr Hu) as (Hnull & Hk & _).
  pose proof column_integer as Hint.
  assert (Hl : less u (of_integer kind n) = (integer u <? n)).
  { rewrite less_integers_at; [by rewrite integer_of_integer|done|by apply isNull_of_integer|by rewrite Hk|].
    by rewrite kind_of_integer. }
  assert (Hg : less (of_integer kind n) u = (n <? integer u)).
  { rewrite less_integers_at; [by rewrite integer_of_integer|by apply isNull_of_integer|done| |by rewrite Hk].
    by rewrite kind_of_integer. }
  destruct op; simpl; rewrite ?Hl, ?Hg; lia.
Qed.

Lemma column_primitive : isPrimitiveType (column_type column) = true.
Proof. apply integer_primitive, column_integer. Qed.

Lemma column_typed : typed (ColumnExpr column) = true.
Proof. by apply bool_decide_eq_true_2. Qed.

Context (b0 : Builder T V) (Hcolumn : valid b0 (ColumnExpr column)).

Lemma makeCompare_filter b op n i :
  extends b0 b -> valid b (literal n i) -> in_type n ->
  builds b (F ExprFactory.makeFunction (comparison_name functionNames op) [ColumnExpr column; literal n i])
    (fun b e => column_filter b (fun m => holds op m n) e).
Proof.
  intros Hext Hl Hn. destruct (comparison_name functionNames op) as [name|] eqn:Hname;
    [|apply builds_throw].
  assert (Hb : boolean_expr (CallExpr name [ColumnExpr column; literal n i] booleanType 0%N 0)).
  { apply (registered_typed _ _ Hfull name CompareName).
    - unfold name_classes. rewrite <- Hname. destruct op; simpl; set_solver.
    - each; [apply column_typed|]. apply has_type_integer; [apply column_integer|done].
    - simpl. by rewrite equivalent_refl. }
  eapply builds_weaken.
  - apply (makeFunction_implements _ _ _ _ _ _ _ Heval Hreversed b (Some name) name _ 0%N 0);
      [done|each; [by eapply valid_extends|done]|apply Hb].
  - intros b' e _ _ He. eapply implements_filter; [exact He|done|simpl; set_solver|].
    intros r Hr. rewrite (truth_compare_at _ _ _ _ _ _ Heval op) by (done || apply column_primitive).
    rewrite eval_column, literal_value_at. destruct (row_value r) as [u|] eqn:Hu; [|done].
    simpl. f_equal. by apply (comparison_holds_at _ r).
Qed.

(** *** Bounds *)

Lemma above_int l n :
  int_value (value l) -> in_type n ->
  above (Some l) (of_int64 n) = if inclusive l then integer (value l) <=? n else integer (value l) <? n.
Proof.
  intros Hl Hn. pose proof (int_value_of_int64 (V:=V) n) as Hv.
  pose proof (in_limits_bigint _ _ Hn) as Hn'.
  simpl. rewrite vlt_int, veq_int, integer_of_int64 by done.
  destruct (inclusive l), (Z.ltb_spec (integer (value l)) n), (Z.eqb_spec (integer (value l)) n),
    (Z.leb_spec (integer (value l)) n); simpl; try done; lia.
Qed.

Lemma below_int h n :
  int_value (value h) -> in_type n ->
  below (Some h) (of_int64 n) = if inclusive h then n <=? integer (value h) else n <? integer (value h).
Proof.
  intros Hl Hn. pose proof (int_value_of_int64 (V:=V) n) as Hv.
  pose proof (in_limits_bigint _ _ Hn) as Hn'.
  simpl. rewrite vlt_int, veq_int, integer_of_int64 by done.
  destruct (inclusive h), (Z.ltb_spec n (integer (value h))), (Z.eqb_spec (integer (value h)) n),
    (Z.leb_spec n (integer (value h))); simpl; try done; lia.
Qed.

Definition side (isLower : bool) (bound : option (Bound V)) (n : Z) : bool :=
  if isLower then above bound (of_int64 n) else below bound (of_int64 n).

Abbreviation minimum := (integer (value (lowest column))).
Abbreviation maximum := (integer (value (highest column))).

Lemma int64_value_spec b (v : V) (Q : Builder T V -> Z -> Prop) :
  int_value v -> (forall b', Q b' (integer v)) -> builds b (lift (DomainFilter.int64_value v)) Q.
Proof.
  intros [Hn Hk] HQ. unfold DomainFilter.int64_value.
  rewrite Hn, bool_decide_eq_true_2 by done. apply builds_lift; [done|]. by intros ? ? _ _ [= <-].
Qed.

Lemma in_type_limits n : in_type n <-> minimum <= n <= maximum.
Proof. apply (limits_range column limits Hlimits). Qed.

Lemma rangeBoundToFilter_spec b bound isLower :
  extends b0 b -> int_value (value bound) -> in_type (integer (value bound)) ->
  builds b (F DomainFilter.rangeBoundToFilter functionNames column bound isLower
             (if isLower then minimum else maximum))
    (fun b o => match o with
       | None => forall n, in_type n -> side isLower (Some bound) n = true
       | Some e => column_filter b (side isLower (Some bound)) e
       end).
Proof.
  intros Hext Hint Hn. unfold DomainFilter.rangeBoundToFilter.
  eapply (builds_bind _ _ _ (fun _ n => n = integer (value bound))).
  { by apply int64_value_spec. }
  intros b1 ? Hb1 Hext1 ->. destruct (inclusive bound && _) eqn:Hlim.
  - apply builds_ret. intros _ _ _ n Hn'. apply andb_true_iff in Hlim as [Hi Heq%Z.eqb_eq].
    pose proof (proj1 (in_type_limits n) Hn').
    unfold side. destruct isLower; [rewrite above_int|rewrite below_int]; try done; rewrite Hi; lia.
  - clear Hlim. eapply builds_bind; [by apply makeIntegralLiteral_spec|]. cbn beta.
    intros b2 e Hb2 Hext2 (Hv & _ & i & ->).
    assert (Hext' : extends b0 b2) by (transitivity b; [done|]; by transitivity b1).
    eapply (builds_bind _ _ _ (fun b e => column_filter b (side isLower (Some bound)) e)).
    2:{ intros b3 e3 Hb3 Hext3 He. apply builds_ret. intros b4 _ Hext4.
        by eapply column_filter_extends. }
    assert (Hop : forall op, (forall n, in_type n ->
        holds op n (integer (value bound)) = side isLower (Some bound) n) ->
      builds b2 (F ExprFactory.makeFunction (comparison_name functionNames op)
        [ColumnExpr column; literal (integer (value bound)) i])
        (fun b e => column_filter b (side isLower (Some bound)) e)).
    { intros op Hs. eapply builds_weaken; [by apply makeCompare_filter|].
      intros b3 e3 _ _. by apply column_filter_ext. }
    unfold side in *.
    destruct isLower, (inclusive bound) eqn:Hi;
      [apply (Hop GreaterEqual)|apply (Hop Greater)|apply (Hop LessEqual)|apply (Hop Less)];
      intros n Hn'; [rewrite above_int|rewrite above_int|rewrite below_int|rewrite below_int];
      try done; by rewrite Hi.
Qed.

(** Filters that hold together where [P] does. *)
Definition together (b : Builder T V) (P : Z -> bool) (es : list Expr) : Prop :=
  exists Ps, Forall2 (column_filter b) Ps es /\
    forall n, in_type n -> forallb (fun P => P n) Ps = P n.

Lemma boundToFilter_spec b bound isLower :
  extends b0 b ->
  (forall l, bound = Some l -> int_value (value l) /\ in_type (integer (value l))) ->
  builds b (F DomainFilter.boundToFilter functionNames column bound isLower
             (if isLower then minimum else maximum))
    (fun b es => together b (side isLower bound) es).
Proof.
  intros Hext Hb. unfold DomainFilter.boundToFilter. destruct bound as [bound|].
  - destruct (Hb bound eq_refl). apply builds_fmap.
    eapply builds_weaken; [by apply rangeBoundToFilter_spec|].
    intros b' [e|] _ _ He; simpl.
    + exists [side isLower (Some bound)]. split; [by constructor|]. intros n _. simpl. by rewrite andb_true_r.
    + exists []. split; [constructor|]. intros n Hn. simpl. symmetry. by apply He.
  - apply builds_ret. intros b' _ _. exists []. split; [constructor|]. by destruct isLower.
Qed.

(** *** Ranges *)

Lemma together_app b P Q es es' :
  together b P es -> together b Q es' -> together b (fun n => P n && Q n) (es ++ es').
Proof.
  intros (Ps & Hes & HP) (Qs & Hes' & HQ). exists (Ps ++ Qs). split; [by apply Forall2_app|].
  intros n Hn. by rewrite forallb_app, HP, HQ.
Qed.

Lemma together_extends b b' P es : extends b b' -> together b P es -> together b' P es.
Proof. intros Hext (Ps & Hes & HP). exists Ps. split; [by eapply column_filters_extend|done]. Qed.

Lemma andAll_filter b P es :
  together b P es -> es <> [] ->
  builds b (F ExprFactory.andAll es) (fun b e => column_filter b P e).
Proof.
  intros (Ps & Hes & HP) Hne. eapply builds_weaken; [by apply (makeAll_filter true b Ps)|].
  intros b' e _ _. by apply column_filter_ext.
Qed.

Abbreviation full r := (within (lowest column) (highest column) r /\ int_range r /\ Range.isEmpty r = false).

Lemma full_values r :
  full r -> exists l h, Range.low r = Some l /\ Range.high r = Some h /\
    int_value (value l) /\ int_value (value h) /\
    in_type (integer (value l)) /\ in_type (integer (value h)).
Proof.
  intros (Hw & Hi & He).
  destruct (within_values (lowest column) (highest column) r (int_value_of_int64 _) (int_value_of_int64 _) eq_refl eq_refl Hw Hi He)
    as (l & h & ? & ? & ? & ? & ? & ?).
  exists l, h. rewrite !in_type_limits. repeat (split; [done|]). lia.
Qed.

Lemma column_domain_full d : column_domain column d -> Forall (fun r => full r) (Domain.ranges d).
Proof.
  intros [[Hwf Hi] Hw]. apply well_formed_Forall in Hwf.
  rewrite List.Forall_forall in *. intros r Hr. auto.
Qed.

Definition in_range (r : Range V) (n : Z) : bool := range_contains r (of_int64 n).

(** The loop body, on a [BETWEEN]. *)
Lemma makeBetween_filter b l h lo i hi j :
  extends b0 b -> valid b (literal lo i) -> valid b (literal hi j) -> in_type lo -> in_type hi ->
  int_value (value l) -> int_value (value h) -> inclusive l = true -> inclusive h = true ->
  integer (value l) = lo -> integer (value h) = hi ->
  builds b (F ExprFactory.makeBetween functionNames (ColumnExpr column) (literal lo i) (literal hi j))
    (fun b e => column_filter b (in_range (Range.mkRange (Some l) (Some h))) e).
Proof.
  intros Hext Hl Hh Hlo Hhi Hil Hih Hinl Hinh Hlv Hhv.
  unfold ExprFactory.makeBetween. destruct (between functionNames) as [name|] eqn:Hname; [|apply builds_throw].
  assert (Hb : boolean_expr (CallExpr name [ColumnExpr column; literal lo i; literal hi j] booleanType 0%N 0)).
  { apply (registered_typed _ _ Hfull name BetweenName).
    - unfold name_classes. rewrite <- Hname. clear. set_solver.
    - each; [apply column_typed|..]; apply has_type_integer; try done; apply column_integer.
    - simpl. by rewrite !equivalent_refl. }
  eapply builds_weaken.
  - apply (makeFunction_implements _ _ _ _ _ _ _ Heval Hreversed b (Some name) name _ 0%N 0);
      [done|each; [by eapply valid_extends|done..]|apply Hb].
  - intros b' e _ _ He. eapply implements_filter; [exact He|done|simpl; clear; set_solver|].
    intros r Hr. rewrite (truth_between_at _ _ _ _ _ _ Heval)
      by (try apply column_primitive; rewrite ?literal_value_at; done).
    rewrite eval_column, !literal_value_at. destruct (row_value r) as [u|] eqn:Hu; [|done].
    cbn [strict]. rewrite (comparison_holds_at GreaterEqual r), (comparison_holds_at LessEqual r) by done.
    destruct (row_value_ok _ _ Hr Hu) as (_ & _ & Hin).
    unfold in_range, range_contains. cbn [fmap option_fmap option_map Range.low Range.high].
    rewrite above_int, below_int, Hinl, Hinh, Hlv, Hhv by done. simpl.
    by destruct (lo <=? integer u), (integer u <=? hi).
Qed.

Lemma between_values_spec l h :
  int_value (value l) -> int_value (value h) ->
  exists o, DomainFilter.between_values minimum maximum (Range.mkRange (Some l) (Some h)) = Ok o /\
    forall lo hi, o = Some (lo, hi) ->
      inclusive l = true /\ inclusive h = true /\ integer (value l) = lo /\ integer (value h) = hi.
Proof.
  intros [Hln Hlk] [Hhn Hhk]. unfold DomainFilter.between_values, DomainFilter.int64_value. simpl.
  rewrite Hln, Hhn, !bool_decide_eq_true_2 by done. simpl.
  destruct (inclusive l), (inclusive h); simpl; try (by eexists).
  destruct (_ =? _); [by eexists|]. simpl. eexists. split; [done|]. intros lo hi.
  destruct (_ =? _); [done|]. by intros [= <- <-].
Qed.

Lemma rangeToFilter_spec b r :
  extends b0 b -> full r ->
  builds b (F DomainFilter.rangeToFilter functionNames column minimum maximum r)
    (fun b e => column_filter b (in_range r) e).
Proof.
  intros Hext Hr. destruct (full_values r Hr) as (l & h & Hl & Hh & Hil & Hih & Htl & Hth).
  destruct r as [? ?]. simpl in Hl, Hh. subst. clear Hr.
  destruct (between_values_spec l h Hil Hih) as (o & Ho & Hvals).
  unfold DomainFilter.rangeToFilter. rewrite Ho. eapply (builds_bind _ _ _ (fun _ o' => o' = o)).
  { apply builds_lift; [done|]. by intros ? ? _ _ [= <-]. }
  intros b1 ? Hb1 Hext1 ->. assert (Hext01 : extends b0 b1) by (by transitivity b).
  destruct o as [[lo hi]|].
  - destruct (Hvals lo hi eq_refl) as (Hinl & Hinh & <- & <-).
    eapply builds_bind; [by apply makeIntegralLiteral_spec|]. intros b2 e Hb2 Hext2 (Hv & _ & i & ->).
    eapply builds_bind; [by apply makeIntegralLiteral_spec|]. intros b3 e Hb3 Hext3 (Hv' & _ & j & ->).
    apply makeBetween_filter; try done.
    + transitivity b2; [|done]. by transitivity b1.
    + by eapply valid_extends.
  - eapply builds_bind.
    { apply (boundToFilter_spec b1 (Some l) true); [done|]. by intros ? [= <-]. }
    intros b2 lower Hb2 Hext2 Hlower. assert (Hext02 : extends b0 b2) by (by transitivity b1).
    eapply builds_bind.
    { apply (boundToFilter_spec b2 (Some h) false); [done|]. by intros ? [= <-]. }
    intros b3 upper Hb3 Hext3 Hupper.
    pose proof (together_app _ _ _ _ _ (together_extends _ _ _ _ Hext3 Hlower) Hupper) as Hboth.
    destruct (lower ++ upper); [apply builds_throw|]. by apply andAll_filter.
Qed.

Lemma rangesToFilters_spec b rs :
  extends b0 b -> Forall (fun r => full r) rs ->
  builds b (F DomainFilter.rangesToFilters functionNames column minimum maximum rs)
    (fun b es => Forall2 (column_filter b) (map in_range rs) es).
Proof.
  intros Hext Hrs. revert b Hext. induction Hrs as [|r rs Hr _ IH]; intros b Hext; simpl.
  { apply builds_ret. constructor. }
  eapply builds_bind; [by apply rangeToFilter_spec|]. intros b1 e Hb1 Hext1 He.
  assert (Hext01 : extends b0 b1) by (by transitivity b).
  eapply builds_bind; [by apply IH|]. intros b2 es Hb2 Hext2 Hes.
  apply builds_ret. intros b3 _ Hext3. constructor.
  - eapply column_filter_extends; [exact Hext3|]. by eapply column_filter_extends.
  - by eapply column_filters_extend.
Qed.

(** *** Single values *)

Lemma single_values_spec rs :
  Forall (fun r => full r) rs -> forallb Range.isSingleValue rs = true ->
  exists ns, DomainFilter.single_values column rs = Ok (map (of_integer kind) ns) /\
    Forall (fun n => in_type n) ns /\
    forall n, in_type n -> existsb (Z.eqb n) ns = ranges_contain rs (of_int64 n).
Proof.
  induction 1 as [|r rs Hr _ IH]; [by exists []|]. simpl. intros [Hs Hss]%andb_true_iff.
  destruct (IH Hss) as (ns & -> & Hns & Hin). clear IH.
  destruct (full_values r Hr) as (l & h & Hl & Hh & Hil & Hih & Htl & Hth).
  rewrite Hl. unfold DomainFilter.int64_value, DomainFilter.typedIntegralValue.
  destruct Hil as [Hln Hlk] eqn:E. rewrite Hln, bool_decide_eq_true_2, column_integer by done. simpl.
  exists (integer (value l) :: ns). split; [done|]. split; [by constructor|].
  intros n Hn. simpl. rewrite Hin by done. f_equal. unfold range_contains. rewrite Hl, Hh.
  unfold Range.isSingleValue in Hs. rewrite Hl, Hh in Hs.
  apply andb_true_iff in Hs as [[Hinl Hinh]%andb_true_iff Heq].
  rewrite above_int, below_int, Hinl, Hinh by done.
  rewrite veq_int in Heq by done. apply Z.eqb_eq in Heq. rewrite <- Heq. lia.
Qed.

Lemma in3_integers r u ns :
  row_ok types r -> row_value r = Some u -> Forall (fun n => in_type n) ns ->
  in3 less u (map (of_integer kind) ns) = Some (existsb (Z.eqb (integer u)) ns).
Proof.
  intros Hr Hu. induction 1 as [|n ns Hn _ IH]; [done|]. cbn [map in3]. rewrite IH.
  unfold literal_value. rewrite isNull_of_integer by apply column_integer. cbn [strict].
  rewrite (comparison_holds_at Equal r) by done. simpl.
  by destruct (integer u =? n), (existsb _ ns).
Qed.

Lemma makeIn_filter b ns :
  extends b0 b -> Forall (fun n => in_type n) ns ->
  builds b (F ExprFactory.makeIn functionNames (ColumnExpr column) (map (of_integer kind) ns))
    (fun b e => column_filter b (fun n => existsb (Z.eqb n) ns) e).
Proof.
  intros Hext Hns.
  assert (Hty : forallb (has_type (column_type column)) (map (of_integer kind) ns) = true).
  { apply forallb_forall. intros v (n & <- & Hn)%in_map_iff. rewrite List.Forall_forall in Hns.
    apply has_type_integer; [apply column_integer|by apply Hns]. }
  eapply builds_weaken.
  - apply (makeIn_implements _ _ _ _ _ _ _ Heval Hreversed Hfull b _ _ 0%N 0 0);
      [by eapply valid_extends|apply column_typed|done].
  - intros b' e _ _ He. eapply implements_filter; [exact He| |simpl; clear; set_solver|].
    + by apply in_array_typed; [apply column_typed|].
    + intros r Hr. unfold in_array. rewrite (truth_in_at _ _ _ _ _ _ Heval _ _ _ _ _ (map (of_integer kind) ns)).
      * rewrite eval_column. destruct (row_value r) as [u|] eqn:Hu; [|done]. simpl.
        by apply (in3_integers r).
      * unfold constantInList. simpl Expr.expr_type. cbv zeta.
        rewrite arrayType_kind, arrayType_child, equivalent_refl, isNull_of_array, array_of_array.
        by rewrite bool_decide_eq_true_2.
      * apply column_primitive.
Qed.

(** *** Domains *)

Abbreviation in_ranges d := (fun n => ranges_contain (Domain.ranges d) (of_int64 n)).

Lemma nonNullDomainToFilter_spec b d :
  extends b0 b -> column_domain column d ->
  builds b (F DomainFilter.nonNullDomainToFilter functionNames column d limits)
    (fun b e => column_filter b (in_ranges d) e).
Proof.
  intros Hext Hd. pose proof (column_domain_full d Hd) as Hrs.
  unfold DomainFilter.nonNullDomainToFilter. destruct (forallb _ _) eqn:Hs.
  - destruct (single_values_spec _ Hrs Hs) as (ns & -> & Hns & Hin).
    eapply (builds_bind _ _ _ (fun _ vs => vs = map (of_integer kind) ns)).
    { apply builds_lift; [done|]. by intros ? ? _ _ [= <-]. }
    intros b1 ? Hb1 Hext1 ->. eapply builds_weaken.
    + apply makeIn_filter; [by transitivity b|done].
    + intros b2 e _ _. by apply column_filter_ext.
  - pose proof (limits_range column limits Hlimits) as [Hlim _]. rewrite Hlim. clear Hlim. cbn [Domain.ranges].
    unfold DomainFilter.limit. cbn [Range.low Range.high].
    eapply (builds_bind _ _ _ (fun _ n => n = minimum)).
    { apply int64_value_spec; [apply int_value_of_int64|done]. }
    intros b1 ? Hb1 Hext1 ->. eapply (builds_bind _ _ _ (fun _ n => n = maximum)).
    { apply int64_value_spec; [apply int_value_of_int64|done]. }
    intros b2 ? Hb2 Hext2 ->. eapply builds_bind.
    { apply (rangesToFilters_spec b2); [|exact Hrs]. transitivity b1; [by transitivity b|done]. }
    intros b3 es Hb3 Hext3 Hes. destruct es as [|e es]; [apply builds_throw|].
    eapply builds_weaken; [by apply (makeAll_filter false b3 _ (e :: es) Hes)|].
    intros b4 e4 _ _. apply column_filter_ext. intros n _. unfold ranges_contain.
    generalize (Domain.ranges d). intros rs. clear. induction rs as [|r rs IH]; [done|]. simpl. by rewrite IH.
Qed.

Lemma makeNot_implements b arg :
  valid b arg -> boolean_expr arg ->
  builds b (F ExprFactory.makeNot functionNames arg)
    (fun b e => valid b e /\ boolean_expr e /\ Expr.columns e ⊆ Expr.columns arg /\
       forall r, row_ok types r -> truth e r = not3 (truth arg r)).
Proof.
  intros Hv Harg. unfold ExprFactory.makeNot.
  destruct (negation functionNames) as [name|] eqn:Hname; [|apply builds_throw].
  assert (Hb : boolean_expr (CallExpr name [arg] booleanType 0%N 0)).
  { apply (registered_typed _ _ Hfull name NegationName).
    - unfold name_classes. rewrite <- Hname. clear. set_solver.
    - each. apply Harg.
    - destruct Harg as [_ Ht]. simpl. unfold of_type. by rewrite bool_decide_eq_true_2. }
  eapply builds_weaken.
  - apply (makeFunction_implements _ _ _ _ _ _ _ Heval Hreversed b (Some name) name _ 0%N 0);
      [done|by each|apply Hb].
  - intros b' e _ _ He. split; [apply He|]. split; [eapply implements_boolean; [exact He|done]|]. split.
    + etransitivity; [apply He|]. simpl. rewrite app_nil_r. done.
    + intros r Hr. rewrite (refines_truth _ _ _ _ _ _ (implements_refines _ _ _ _ _ _ He)) by done.
      by apply (truth_not_at _ _ _ _ _ _ Heval).
Qed.

Lemma makeIsNull_implements b :
  extends b0 b ->
  builds b (F ExprFactory.makeIsNull functionNames (ColumnExpr column))
    (fun b e => valid b e /\ boolean_expr e /\ Expr.columns e ⊆ [column] /\
       forall r, row_ok types r -> truth e r = Some (negb (has_value (row_value r)))).
Proof.
  intros Hext. unfold ExprFactory.makeIsNull.
  destruct (isNullName functionNames) as [name|] eqn:Hname; [|apply builds_throw].
  assert (Hb : boolean_expr (CallExpr name [ColumnExpr column] booleanType 0%N 0)).
  { apply (registered_typed _ _ Hfull name IsNullName).
    - unfold name_classes. rewrite <- Hname. clear. set_solver.
    - each. apply column_typed.
    - done. }
  eapply builds_weaken.
  - apply (makeFunction_implements _ _ _ _ _ _ _ Heval Hreversed b (Some name) name _ 0%N 0);
      [done|each; by eapply valid_extends|apply Hb].
  - intros b' e _ _ He. split; [apply He|]. split; [eapply implements_boolean; [exact He|done]|]. split.
    + etransitivity; [apply He|]. simpl. done.
    + intros r Hr. rewrite (refines_truth _ _ _ _ _ _ (implements_refines _ _ _ _ _ _ He)) by done.
      rewrite (truth_isNull_at _ _ _ _ _ _ Heval) by done. by rewrite eval_column.
Qed.

(** A filter by the rows it lets through. *)
Record accepts (b : Builder T V) (A : option Z -> bool) (e : Expr) : Prop := {
  accepts_valid : valid b e;
  accepts_boolean : boolean_expr e;
  accepts_columns : Expr.columns e ⊆ [column];
  accepts_truth r : row_ok types r ->
    truth e r = Some true <-> A (integer <$> row_value r) = true
}.

Lemma accepts_extends b b' A e : extends b b' -> accepts b A e -> accepts b' A e.
Proof. intros Hext []. split; [by eapply valid_extends|done..]. Qed.

Definition on_values (P : Z -> bool) (x : option Z) : bool :=
  match x with Some n => P n | None => false end.

Lemma column_filter_accepts b P e : column_filter b P e -> accepts b (on_values P) e.
Proof.
  intros []. split; [done..|]. intros r Hr. rewrite filter_truth0 by done.
  destruct (row_value r) as [u|]; simpl; [|done]. split; [by intros [= ->]|by intros ->].
Qed.

Lemma in_ranges_elem d n : in_ranges d n = true <-> Some (of_int64 n) ∈ d.
Proof. done. Qed.

Lemma nonNullFilter_spec b d :
  extends b0 b -> column_domain column d ->
  builds b (F DomainFilter.nonNullFilter functionNames column d limits)
    (fun b o => match o with
       | None => Domain.ranges d = []
       | Some e => accepts b (on_values (in_ranges d)) e
       end).
Proof.
  intros Hext Hd. pose proof (column_domain_limits column limits Hlimits) as Hlim.
  assert (Hall : forall n, in_type n -> Some (of_int64 n) ∈ limits).
  { intros n. by apply (integralTypeDomain_spec _ _ Hlimits). }
  unfold DomainFilter.nonNullFilter. destruct (Domain.equals d limits) eqn:Heq.
  - apply builds_fmap. eapply builds_bind; [by apply makeIsNull_implements|].
    intros b1 e Hb1 Hext1 (Hv & Hbool & Hc & Htr).
    eapply builds_weaken; [by apply makeNot_implements|].
    intros b2 e2 Hb2 Hext2 (Hv2 & Hbool2 & Hc2 & Htr2). split; [done|done|by etransitivity|].
    intros r Hr. rewrite Htr2, Htr by done. destruct (row_value r) as [u|] eqn:Hu; [|done]. simpl.
    split; [intros _|done]. apply in_ranges_elem. apply (equals_same_values _ _ _ Heq), Hall.
    by eapply row_value_ok.
  - destruct (Domain.isNone d) eqn:Hnone.
    { apply builds_ret. intros _ _ _. unfold Domain.isNone in Hnone.
      by destruct (Domain.nullsAllowed d), (Domain.ranges d). }
    simpl. apply builds_fmap. destruct (_ <? _)%nat.
    + pose proof (column_domain_subtract column limits d Hlim (proj1 Hd)) as Hex.
      eapply builds_bind; [by apply nonNullDomainToFilter_spec|].
      intros b1 e Hb1 Hext1 [Hv Hbool Hc Htr].
      eapply builds_weaken; [by apply makeNot_implements|].
      intros b2 e2 Hb2 Hext2 (Hv2 & Hbool2 & Hc2 & Htr2). apply column_filter_accepts.
      apply (column_filter_ext _ (fun n => negb (in_ranges (Domain.subtract limits d) n))).
      * intros n Hn. apply eq_true_iff_eq. rewrite negb_true_iff, <- not_true_iff_false.
        rewrite !in_ranges_elem.
        destruct (subtract_sound limits d (Some (of_int64 n))) as [_ ->]; [apply Hlim|apply Hd|].
        specialize (Hall n Hn). unfold elem_of, elem_of_domain.
        destruct (domain_contains d (Some (of_int64 n))); naive_solver.
      * split; [done|done|by etransitivity|]. intros r Hr. rewrite Htr2, Htr by done.
        by destruct (row_value r).
    + eapply builds_weaken; [by apply nonNullDomainToFilter_spec|].
      intros b1 e _ _. apply column_filter_accepts.
Qed.

(** A range of the column meets the range of the type, and so does every domain. *)
Lemma intersect_nonempty d other :
  (forall r, full r -> exists t, Range.intersect r other = Some t) ->
  column_domain column d -> Domain.ranges d <> [] ->
  Domain.intersect_ranges (Domain.ranges d) [other] <> [].
Proof.
  intros Hmeet Hd%column_domain_full Hne. destruct (Domain.ranges d) as [|r rs]; [done|].
  rewrite intersect_ranges_cons. cbv zeta. inversion Hd as [|? ? Hr _]; subst.
  by destruct (Hmeet r Hr) as [t ->].
Qed.

(** The rows whose value of the column is in the domain. *)
Definition on_domain (d : Domain V) (x : option Z) : bool := domain_contains d (of_int64 <$> x).

Lemma all_values_spec :
  let allValues := Domain.unite limits Domain.onlyNull in
  Domain.nullsAllowed allValues = true /\
  Domain.ranges allValues = Domain.ranges limits /\
  column_domain column allValues /\
  forall r, row_ok types r -> (of_int64 <$> (integer <$> row_value r)) ∈ allValues.
Proof.
  pose proof (column_domain_limits column limits Hlimits) as Hlim.
  pose proof (column_domain_no_ranges column true) as Hnull.
  cbv zeta. split; [apply orb_true_r|]. split.
  { destruct (limits_range column limits Hlimits) as [Heq _]. by rewrite Heq. }
  split; [by apply column_domain_unite|]. intros r Hr.
  destruct (unite_spec limits Domain.onlyNull) as [_ Hin]; [apply Hlim|done|]. apply Hin.
  destruct (row_value r) as [u|] eqn:Hu; simpl; [left|by right].
  apply (integralTypeDomain_spec _ _ Hlimits). by eapply row_value_ok.
Qed.

Lemma domainToFilter_spec b d :
  extends b0 b -> column_domain column d -> Domain.isNone d = false ->
  builds b (F DomainFilter.domainToFilter functionNames column d)
    (fun b o => match o with
       | None => forall r, row_ok types r -> on_domain d (integer <$> row_value r) = true
       | Some e => accepts b (on_domain d) e
       end).
Proof.
  intros Hext Hd Hnone. unfold DomainFilter.domainToFilter. rewrite Hlimits. cbv zeta.
  destruct all_values_spec as (Hnulls & Hranges & Hall & Hvalues).
  set (allValues := Domain.unite limits Domain.onlyNull) in *.
  set (d' := Domain.intersect d allValues).
  assert (Hd' : column_domain column d').
  { apply column_domain_intersect; [apply Hd|apply Hall|by left]. }
  assert (Hin : forall r, row_ok types r ->
    on_domain d' (integer <$> row_value r) = on_domain d (integer <$> row_value r)).
  { intros r Hr. apply eq_true_iff_eq. destruct (intersect_sound d allValues
      (of_int64 <$> (integer <$> row_value r))) as [_ Hi]; [apply Hd|apply Hall|].
    etransitivity; [exact Hi|]. specialize (Hvalues r Hr). unfold on_domain. tauto. }
  destruct (Domain.equals d' allValues) eqn:Heq.
  { apply builds_ret. intros _ _ _ r Hr. rewrite <- Hin by done.
    apply (equals_same_values _ _ _ Heq). by apply Hvalues. }
  assert (Hext' : forall e b, accepts b (on_domain d') e -> accepts b (on_domain d) e).
  { intros e b' [Hv Hbool Hc Htr]. split; [done..|]. intros r Hr. rewrite <- Hin by done. by apply Htr. }
  assert (Hnull : on_domain d' None = Domain.nullsAllowed d') by done.
  set (nonNull := Domain.intersect d' Domain.notNull).
  assert (Hnn : column_domain column nonNull).
  { apply column_domain_intersect; [apply Hd'|split; [done|by each]|by left]. }
  assert (Hnn_in : forall n, in_ranges nonNull n = on_domain d' (Some n)).
  { intros n. apply eq_true_iff_eq. destruct (intersect_sound d' Domain.notNull
      (Some (of_int64 n))) as [_ Hi]; [apply Hd'|done|].
    etransitivity; [exact Hi|]. rewrite elem_of_notNull. unfold on_domain. naive_solver. }
  eapply builds_bind; [by apply nonNullFilter_spec|]. intros b1 filter Hb1 Hext1 Hfilter.
  assert (Hext01 : extends b0 b1) by (by transitivity b).
  destruct (Domain.nullsAllowed d') eqn:Hn; simpl negb.
  - eapply builds_bind; [by apply makeIsNull_implements|].
    intros b2 nullFilter Hb2 Hext2 (Hv & Hbool & Hc & Htr). destruct filter as [e|].
    + apply builds_fmap. apply (accepts_extends _ b2) in Hfilter as [Hv1 Hbool1 Hc1 Htr1]; [|done].
      assert (Hor : boolean_expr (CallExpr kOr [nullFilter; e] booleanType 0%N 0)).
      { split; [|done]. apply (connective_typed _ _ false). by each. }
      eapply builds_weaken.
      * by apply (makeConnective_implements _ _ _ _ _ _ _ Heval Hreversed false b2 nullFilter e 0%N 0).
      * intros b3 e3 _ _ He. apply Hext'. split.
        -- apply He.
        -- eapply implements_boolean; [exact He|done].
        -- etransitivity; [apply He|]. simpl. rewrite app_nil_r. revert Hc Hc1. clear. set_solver.
        -- intros r Hr. rewrite (refines_truth _ _ _ _ _ _ (implements_refines _ _ _ _ _ _ He)) by done.
           rewrite (truth_connective _ _ _ _ _ _ Heval false). simpl. rewrite Htr by done.
           specialize (Htr1 r Hr). destruct (row_value r) as [u|]; simpl in Htr1 |- *.
           ++ rewrite Hnn_in in Htr1. by destruct (truth e r) as [[]|].
           ++ by rewrite Hnull.
    + apply builds_ret. intros b3 _ Hext3. apply Hext', (accepts_extends _ _ _ _ Hext3).
      split; [done..|]. intros r Hr. rewrite Htr by done.
      destruct (row_value r) as [u|]; simpl; [|by rewrite Hnull].
      rewrite <- Hnn_in, Hfilter. done.
  - apply builds_ret. intros b2 _ Hext2. destruct filter as [e|].
    + apply Hext', (accepts_extends _ _ _ _ Hext2). destruct Hfilter as [? ? ? Htr1]. split; [done..|].
      intros r Hr. rewrite Htr1 by done. destruct (row_value r) as [u|]; simpl; [by rewrite Hnn_in|].
      by rewrite Hnull.
    + exfalso. assert (Hne : Domain.ranges d' <> []).
      { unfold d', Domain.intersect. cbn [Domain.ranges]. rewrite Hranges.
        pose proof (limits_range column limits Hlimits) as [Hlim _]. rewrite Hlim. cbn [Domain.ranges].
        apply intersect_nonempty; [|done|].
        - intros r (Hw & _ & He). by apply intersect_full.
        - intros Hnil. unfold Domain.isNone in Hnone. rewrite Hnil in Hnone.
          unfold d', Domain.intersect in Hn. cbn [Domain.nullsAllowed] in Hn.
          rewrite Hnulls, andb_true_r in Hn. by rewrite Hn in Hnone. }
      revert Hfilter. unfold nonNull, Domain.intersect. cbn [Domain.ranges].
      apply intersect_nonempty; [|done|done]. intros r (_ & _ & He). by apply intersect_unbounded.
Qed.

(** The empty domain has no filter either. *)
Lemma domainToFilter_none d :
  Domain.isNone d = true -> F DomainFilter.domainToFilter functionNames column d b0 = Ok (None, b0).
Proof.
  unfold Domain.isNone. intros [Hn Hr]%andb_true_iff. apply negb_true_iff in Hn.
  destruct d as [nulls ranges]. cbn in Hn, Hr. subst nulls. destruct ranges; [| done].
  unfold DomainFilter.domainToFilter. rewrite Hlimits. cbv zeta.
  change (Domain.intersect (Domain.mkDomain false []) _) with (Domain.mkDomain (V:=V) false []).
  replace (Domain.equals (Domain.mkDomain false []) (Domain.unite limits Domain.onlyNull)) with false
    by (unfold Domain.equals, Domain.unite; cbn; by rewrite orb_true_r).
  change (Domain.intersect (Domain.mkDomain false []) _) with (Domain.mkDomain (V:=V) false []).
  unfold DomainFilter.nonNullFilter. replace (Domain.equals (Domain.mkDomain false []) limits) with false; [done |].
  unfold Domain.equals. destruct (limits_range column limits Hlimits) as [-> _]. by rewrite andb_false_r.
Qed.

(** C13: A domain of an integral column is turned into a filter that is exact: a row
    makes the filter true if and only if its value of the column, [NULL] included,
    is in the domain.  There is no filter if every value of the column is in the domain -
    or if none is: the empty domain, which the caller has to tell apart.  The filter is a
    boolean expression that reads the column only, and the function throws for reasons of
    its own only. *)
Theorem domainToFilter_exact d :
  arena_ok b0 -> column_domain column d ->
  match F DomainFilter.domainToFilter functionNames column d b0 with
  | Ok (filter, b') =>
      arena_ok b' /\
      Forall (fun e => valid b' e /\ typed e = true /\ Expr.expr_type e = booleanType /\
        Expr.columns e ⊆ [column]) (option_list filter) /\
      if Domain.isNone d then filter = None
      else forall r, row_ok types r ->
        Forall (fun e => truth e r = Some true) (option_list filter) <->
        on_domain d (integer <$> r !! column_id column) = true
  | Throw err => err <> OutOfFuel
  end.
Proof.
  intros Hb Hd. destruct (Domain.isNone d) eqn:Hnone.
  { rewrite (domainToFilter_none d Hnone). by split_conj. }
  assert (Hext : extends b0 b0) by reflexivity.
  pose proof (domainToFilter_spec b0 d Hext Hd Hnone b0 Hb Hext) as Hs.
  destruct (DomainFilter.domainToFilter _ _ _ _ _ b0) as [[[e|] b']|]; [| |done].
  - destruct Hs as (Hb' & _ & [Hve [Hte Hbe] Hce Htr]). split; [done|]. split; [by each|].
    intros r Hr. simpl. rewrite Forall_singleton. by apply Htr.
  - destruct Hs as (Hb' & _ & Hall). split; [done|]. split; [constructor|].
    intros r Hr. simpl. rewrite Forall_nil. rewrite Hall by done. done.
Qed.
End Exact.
