(* ===== verification/ExprSimplifiers.v ===== *)
(** * Simplifying expressions

    [axiom/optimizer/v2/ExprSimplifier.{h,cpp}]: [simplify] with its memo, and
    [simplify] under columns known to be non-null.  The state is that of the
    builder with the member [simplified_]; Velox's constant evaluation
    ([evaluator_]) is a parameter.

    The theorems: a simplified expression means what the expression meant, on every
    row; and the recursion, which re-simplifies what it expands, ends: no rewrite
    increases a weight, and the expansion of a row equality decreases it.

    Where C++ reads past the arguments of a call, the model throws. *)

From Stdlib Require Import ZArith Lia.
From S2P Require Import Prelude Domains DomainSets Expressions ExprDomains SqlSemantics Builders ExprFactories.

Local Open Scope nat_scope.
Set Warnings "-register-all".

Record Simplifier (T V : Type) := mkSimplifier {
  builder : Builder T V;                (* builder_ *)
  simplified : gmap nat (Expr T V)      (* simplified_, by the id of the key *)
}.
Arguments mkSimplifier {T V} builder simplified.
Arguments builder {T V} _.
Arguments simplified {T V} _.

(** A step of the builder. *)
Definition on_builder {T V A} (m : StateM (Builder T V) A) : StateM (Simplifier T V) A := fun s =>
  match m (builder s) with
  | Ok (a, b) => Ok (a, mkSimplifier b (simplified s))
  | Throw e => Throw e
  end.

Module ExprSimplifier.
Section ExprSimplifier.
Context {T V : Type} `{TypeOps T} `{VariantOps V} `{FunctionRegistry}.
Variable maxPlanObjects : nat.
Variable reversibleFunctions : string -> option string.
Variable functionNames : FunctionNames.

(** What Velox compiles an expression without columns to, if that is a constant. *)
Variable constant : Expr T V -> option (V * T).

Abbreviation Expr := (Expr T V).
Abbreviation B := (StateM (Builder T V)).
Abbreviation M := (StateM (Simplifier T V)).
Abbreviation F f := (f maxPlanObjects reversibleFunctions).

(** [isConstantNull] of [PlanUtils.h] *)
Definition isConstantNull (expr : Expr) : bool :=
  match expr with LiteralExpr literal _ _ => isNull literal | _ => false end.

(** The literals of [literalInValues], if they have a type equivalent to [type]. *)
Fixpoint literals_of_type (type : T) (args : list Expr) : option (list V) :=
  match args with
  | [] => Some []
  | LiteralExpr literal t _ :: args =>
      if equivalent t type then cons literal <$> literals_of_type type args else None
  | _ => None
  end.

Definition literalInValues (args : list Expr) : option (list V) :=
  match args with
  | value :: ((_ :: _) as args) => literals_of_type (Expr.expr_type value) args
  | _ => None
  end.

(** [constantBoolean] *)
Definition constantBoolean (expr : Expr) : option bool :=
  match expr with
  | LiteralExpr literal _ _ =>
      if isNull literal || negb (bool_decide (kind literal = BOOLEAN)) then None
      else Some (boolean literal)
  | _ => None
  end.

(** The loop of [tryFoldConjunct]: the argument that decides, or those that
    remain. *)
Fixpoint undecided (isAnd : bool) (args : list Expr) : Expr + list Expr :=
  match args with
  | [] => inr []
  | arg :: args =>
      match constantBoolean arg with
      | None =>
          match undecided isAnd args with
          | inl decides => inl decides
          | inr remaining => inr (arg :: remaining)
          end
      | Some value => if Bool.eqb value isAnd then undecided isAnd args else inl arg
      end
  end.

Definition tryFoldConjunct (expr : Expr) : B Expr :=
  match expr with
  | CallExpr name args type functions _ =>
      let isAnd := String.eqb name kAnd in
      if negb isAnd && negb (String.eqb name kOr) then mret expr
      else
        match undecided isAnd args with
        | inl decides => mret decides
        | inr remaining =>
            if Nat.eqb (length remaining) (length args) then mret expr
            else
              match remaining with
              | [] => Builder.makeLiteral maxPlanObjects (of_bool isAnd) booleanType
              | [front] => mret front
              | _ => F ExprFactory.rebuildCall name type functions remaining
              end
        end
  | _ => mret expr
  end.

(** [isRowConstructor] *)
Definition isRowConstructor (name : string) : bool := String.eqb name kRowConstructor.

Definition tryFoldRowField (expr : Expr) : Result (option Expr) :=
  match expr with
  | CallExpr name args _ _ _ =>
      if negb (String.eqb name kDereference) then Ok None
      else
        match args with
        | [] => Throw (VeloxUnreachable "args()[0]")
        | CallExpr row fields _ _ _ :: rest =>
            if negb (isRowConstructor row) then Ok None
            else
              match rest with
              | LiteralExpr literal _ _ :: _ =>
                  index ← integerValue literal;
                  if (index <? 0)%Z then Throw (VeloxUnreachable "args()[index]")
                  else match fields !! Z.to_nat index with
                       | Some field => Ok (Some field)
                       | None => Throw (VeloxUnreachable "args()[index]")
                       end
              | _ => Throw (VeloxCheck "literalAt")
              end
        | _ => Ok None
        end
  | _ => Ok None
  end.

(** The loop of [tryExpandRowEquality], from field [i] on. *)
Fixpoint field_equalities (type : T) (i : nat) (fields : list Expr) (values : list V) :
    B (list Expr) :=
  match fields, values with
  | field :: fields, value :: values =>
      literal ← Builder.makeLiteral maxPlanObjects value (childAt type i);
      equality ← F ExprFactory.makeEq functionNames field literal;
      equalities ← field_equalities type (S i) fields values;
      mret (equality :: equalities)
  | _, _ => mret []
  end.

Definition expandRowEquality (fields : list Expr) (literal : V) (type : T) : B Expr :=
  lift (velox_check (bool_decide (kind literal = ROW)) "literal.row()") ≫= fun _ =>
  lift (velox_check (Nat.eqb (length fields) (length (row literal))) "fields.size() == values.size()")
    ≫= fun _ =>
  equalities ← field_equalities type 0 fields (row literal);
  F ExprFactory.andAll equalities.

Definition tryExpandRowEquality (expr : Expr) : B (option Expr) :=
  match expr with
  | CallExpr name args _ _ _ =>
      if negb (name_is (Some name) (equality functionNames)) then mret None
      else
        match args with
        | CallExpr row fields _ _ _ :: LiteralExpr literal type _ :: _ =>
            if negb (isRowConstructor row) || isNull literal then mret None
            else Some <$> expandRowEquality fields literal type
        | _ :: _ :: _ => mret None
        | _ => throw (VeloxUnreachable "args()[1]")
        end
  | _ => mret None
  end.

(** A call with default null behavior and a [NULL] literal argument. *)
Definition is_null_call (expr : Expr) : Result bool :=
  match expr with
  | CallExpr name args _ _ _ =>
      ownFunctions ← functionBits name (isSpecialForm name);
      Ok (negb (FunctionSet.contains ownFunctions FunctionSet.kNonDefaultNullBehavior) &&
          existsb isConstantNull args)
  | _ => Ok false
  end.

Definition has_columns (expr : Expr) : bool :=
  match Expr.columns expr with [] => false | _ => true end.

Definition tryFoldConstant (expr : Expr) : B Expr :=
  match expr with
  | LiteralExpr _ _ _ => mret expr
  | _ =>
      nullCall ← lift (is_null_call expr);
      if nullCall : bool then Builder.makeNull maxPlanObjects (Expr.expr_type expr)
      else if has_columns expr then mret expr
      else match constant expr with
           | Some (variant, type) => Builder.makeLiteral maxPlanObjects variant type
           | None => mret expr
           end
  end.

Definition fold (expr : Expr) : B Expr := tryFoldConstant expr ≫= tryFoldConjunct.

(** The loop over the arguments of a call: the simplified ones, and whether they
    differ. *)
Fixpoint simplify_args (simplify : Expr -> M Expr) (isCoalesce : bool) (args : list Expr) :
    M (list Expr * bool) :=
  match args with
  | [] => mret ([], false)
  | arg :: args =>
      simplified ← simplify arg;
      rest ← simplify_args simplify isCoalesce args;
      mret (if isCoalesce && isConstantNull simplified then (rest.1, true)
            else (simplified :: rest.1, negb (Expr.same simplified arg) || rest.2))
  end.

(** The call over its simplified arguments. *)
Definition simplify_call (simplify : Expr -> M Expr) (expr : Expr) (name : string)
    (args : list Expr) (type : T) (functions : FunctionSet) : M Expr :=
  let isCoalesce := String.eqb name kCoalesce in
  simplifiedArgs ← simplify_args simplify isCoalesce args;
  on_builder
    (if isCoalesce && (length simplifiedArgs.1 <=? 1) then
       match simplifiedArgs.1 with
       | [] => Builder.makeNull maxPlanObjects type
       | front :: _ => mret front
       end
     else
       match (if String.eqb name kIn then literalInValues simplifiedArgs.1 else None),
             simplifiedArgs.1 with
       | Some values, value :: _ => F ExprFactory.makeIn functionNames value values
       | _, _ =>
           if simplifiedArgs.2 : bool
           then F ExprFactory.rebuildCall name type functions simplifiedArgs.1
           else mret expr
       end).

(** The loop of [simplifyConditional]: the arguments kept, and the result that is
    always selected if one is reached. *)
Fixpoint simplify_branches (simplify : Expr -> M Expr) (args : list Expr) :
    M (list Expr * option Expr) :=
  match args with
  | condition :: result :: args =>
      condition ← simplify condition;
      match condition with
      | LiteralExpr value _ _ =>
          lift (velox_check (bool_decide (kind value = BOOLEAN)) "value.kind() == BOOLEAN") ≫= fun _ =>
          if isNull value || negb (boolean value) then simplify_branches simplify args
          else
            elseResult ← simplify result;
            mret ([], Some elseResult)
      | _ =>
          result ← simplify result;
          rest ← simplify_branches simplify args;
          mret (condition :: result :: rest.1, rest.2)
      end
  | [elseResult] =>
      elseResult ← simplify elseResult;
      mret ([], Some elseResult)
  | [] => mret ([], None)
  end.

Definition simplifyConditional (simplify : Expr -> M Expr) (name : string) (args : list Expr)
    (type : T) (functions : FunctionSet) : M Expr :=
  branches ← simplify_branches simplify args;
  elseResult ← match branches.2 with
               | Some elseResult => mret elseResult
               | None => on_builder (Builder.makeNull maxPlanObjects type)
               end;
  match branches.1 with
  | [] => mret elseResult
  | args => on_builder (F ExprFactory.rebuildCall name type functions (args ++ [elseResult]))
  end.

(** [simplified_.emplace(original, expr)] *)
Definition emplace (original expr : Expr) : M unit :=
  modify (fun s =>
    match simplified s !! Expr.expr_id original with
    | Some _ => s
    | None => mkSimplifier (builder s) (<[Expr.expr_id original := expr]> (simplified s))
    end).

(** The rules that look at the whole expression. *)
Definition finish (simplify : Expr -> M Expr) (expr : Expr) : M Expr :=
  field ← lift (tryFoldRowField expr);
  match field with
  | Some field => mret field
  | None =>
      fieldEqualities ← on_builder (tryExpandRowEquality expr);
      match fieldEqualities with
      | Some fieldEqualities => simplify fieldEqualities
      | None => on_builder (fold expr)
      end
  end.

(** One level of [simplify], past the memo. *)
Definition simplify_step (simplify : Expr -> M Expr) (expr : Expr) : M Expr :=
  match expr with
  | CallExpr name args type functions _ =>
      if String.eqb name kIf || String.eqb name kSwitch then
        simplifyConditional simplify name args type functions ≫= fun expr => on_builder (fold expr)
      else simplify_call simplify expr name args type functions ≫= finish simplify
  | LambdaExpr args body type _ =>
      simplifiedBody ← simplify body;
      (if Expr.same simplifiedBody body then mret expr
       else on_builder (ExprFactory.rebuildLambda maxPlanObjects args type simplifiedBody)) ≫= finish simplify
  | _ => finish simplify expr
  end.

(** [simplify(expr)] *)
Fixpoint simplify (fuel : nat) (expr : Expr) : M Expr :=
  match fuel with
  | O => throw OutOfFuel
  | S fuel =>
      found ← gets (fun s => simplified s !! Expr.expr_id expr);
      match found with
      | Some result => mret result
      | None =>
          result ← simplify_step (simplify fuel) expr;
          emplace expr result ≫= fun _ => mret result
      end
  end.
End ExprSimplifier.
End ExprSimplifier.

(** ** Bounds of BETWEEN *)

Section Bounds.
Context {T V : Type} `{TypeOps T} `{VariantOps V} (functionNames : FunctionNames).
Abbreviation Expr := (Expr T V).

(** No BETWEEN compares with a [NULL] literal, as after folding. *)
Fixpoint bounds_ok (e : Expr) : bool :=
  match e with
  | CallExpr name args _ _ _ => bounds_given functionNames name args && forallb bounds_ok args
  | _ => true
  end.

Definition args_ok (e : Expr) : bool :=
  match e with CallExpr _ args _ _ _ => forallb bounds_ok args | _ => true end.

Lemma bounds_args_ok e : bounds_ok e = true -> args_ok e = true.
Proof. destruct e; try done. simpl. by intros [_ ?]%andb_true_iff. Qed.

Lemma bounds_given_other name args :
  name_is (Some name) (between functionNames) = false -> bounds_given (V:=V) (T:=T) functionNames name args = true.
Proof. unfold bounds_given. by intros ->. Qed.
End Bounds.

(** A call over arguments of the same types, with the same selector. *)
Section Replace.
Context {T V : Type} `{TypedValues T V} (functionNames : FunctionNames) (types : gmap nat T).
Abbreviation Expr := (Expr T V).

Definition same_shape (e e' : Expr) : Prop :=
  Expr.expr_type e' = Expr.expr_type e /\ (Builder.is_literal_expr e = true -> e' = e).

Lemma same_shape_all (P : T -> bool) (args args' : list Expr) :
  Forall2 same_shape args args' ->
  forallb (fun e => P (Expr.expr_type e)) args' = forallb (fun e => P (Expr.expr_type e)) args.
Proof. induction 1 as [|e e' args args' [Ht _] _ IH]; [done|]. cbn [forallb]. by rewrite Ht, IH. Qed.

Lemma same_shape_types args args' :
  Forall2 same_shape args args' -> same_types args' = same_types args.
Proof.
  intros [|e e' args1 args1' [Ht _] Hargs]; [done|]. cbn [same_types]. rewrite Ht.
  by apply (same_shape_all (fun t => equivalent t (Expr.expr_type e))).
Qed.

Lemma same_shape_conditional t args args' :
  Forall2 same_shape args args' -> conditional_typed t args' = conditional_typed t args.
Proof.
  revert args'. induction args as [|x|x y args IH] using list_pairs_ind; intros args' Hargs.
  - by inversion Hargs.
  - inversion Hargs as [|? ? ? ? [Hx _] Hrest]; subst. inversion Hrest; subst. simpl. unfold of_type. by rewrite Hx.
  - inversion Hargs as [|? ? ? ? [Hx _] Hrest]; subst.
    inversion Hrest as [|? ? ? ? [Hy _] Hrest']; subst. simpl. unfold of_type. rewrite Hx, Hy.
    by rewrite (IH _ Hrest').
Qed.

Lemma same_shape_fields (P : nat -> T -> bool) args args' :
  Forall2 same_shape args args' ->
  forallb (fun '(i, e) => P i (Expr.expr_type e)) (imap pair args') =
  forallb (fun '(i, e) => P i (Expr.expr_type e)) (imap pair args).
Proof.
  intros Hargs.
  assert (Hoff : forall n, forallb (fun '(i, e) => P i (Expr.expr_type e)) (imap (fun k => pair (n + k)) args') =
    forallb (fun '(i, e) => P i (Expr.expr_type e)) (imap (fun k => pair (n + k)) args)).
  { assert (Hshift : forall n (l : list Expr),
      imap ((fun k => pair (n + k)) ∘ S) l = imap (fun k => pair (S n + k)) l).
    { intros n l. apply imap_ext. intros k x _. simpl. f_equal. lia. }
    induction Hargs as [|e e' args args' [Ht _] _ IH]; intros n; [done|].
    rewrite !imap_cons, !Hshift. cbn [forallb]. by rewrite Ht, IH. }
  apply (Hoff 0).
Qed.

Definition is_type (t u : T) : bool := bool_decide (u = t).
Definition is_varchar (u : T) : bool := bool_decide (type_kind u = VARCHAR).

Lemma same_shape_well_formed name args args' t :
  Forall2 same_shape args args' ->
  well_formed_call functionNames name args t = true ->
  well_formed_call functionNames name args' t = true.
Proof.
  intros Hargs. pose proof (Forall2_length _ _ _ Hargs) as Hlen.
  pose proof (fun P => same_shape_all P _ _ Hargs) as Hall.
  assert (Heq : forall a b : bool, a = b -> b = true -> a = true) by congruence.
  unfold well_formed_call. destruct (classify functionNames name).
  - apply Heq. f_equal. apply (Hall (is_type booleanType)).
  - apply Heq. rewrite Hlen. do 2 f_equal. apply (Hall (is_type booleanType)).
  - apply Heq. by rewrite Hlen.
  - apply Heq. rewrite Hlen. do 2 f_equal. by apply same_shape_types.
  - apply Heq. f_equal. by apply same_shape_types.
  - apply Heq. f_equal. apply (Hall is_varchar).
  - done.
  - apply Heq. by apply same_shape_conditional.
  - apply Heq. apply (Hall (is_type t)).
  - apply Heq. f_equal. apply (same_shape_fields (fun i => is_type (childAt t i)) _ _ Hargs).
  - destruct Hargs as [|base base' rest rest' [Hb _] Hrest]; [done|].
    destruct Hrest as [|sel sel' rest rest' [_ Hs] Hrest]; [done|].
    destruct Hrest; [|done]. unfold selects. rewrite Hb.
    destruct sel; try done. by rewrite Hs.
  - done.
Qed.

Lemma typed_replace name args args' t fs fs' i i' :
  typed functionNames types (CallExpr name args t fs i) = true ->
  Forall2 same_shape args args' -> Forall (fun e => typed functionNames types e = true) args' ->
  typed functionNames types (CallExpr name args' t fs' i') = true.
Proof.
  intros [_ Hw]%andb_true_iff Hargs Ht. simpl. apply andb_true_iff. split.
  - apply forallb_forall. by apply List.Forall_forall.
  - by apply (same_shape_well_formed _ _ _ _ Hargs).
Qed.
End Replace.

(** ** The rules *)

Section Rules.
Context {T V : Type} `{TypedValues T V} `{FunctionRegistry} `{!VariantEq V}.
Context (functionNames : FunctionNames) (types : gmap nat T)
  (eval : Expr T V -> Row V -> option V)
  (less : V -> V -> bool) (reversed : string -> option string)
  (constant : Expr T V -> option (V * T)) (maxPlanObjects : nat).
Context (Heval : EvalLaws functionNames types eval less reversed constant)
  (Hreversed : reversible_ok functionNames reversed)
  (Hfull : full_registry functionNames = true).

(** BETWEEN has default null behavior. *)
Context (Hbetween : forall name bits, between functionNames = Some name ->
  functionBits name false = Ok bits ->
  FunctionSet.contains bits FunctionSet.kNonDefaultNullBehavior = false).
Abbreviation Expr := (Expr T V).
Abbreviation typed := (typed functionNames types).
Abbreviation truth := (truth_of eval).
Abbreviation boolean_expr := (boolean_expr functionNames types).
Abbreviation implements := (implements functionNames types eval).
Abbreviation refines := (refines functionNames types eval).
Abbreviation weight := (weight functionNames).
Abbreviation bounds_ok := (bounds_ok functionNames).
Abbreviation args_ok := (args_ok functionNames).
Abbreviation F f := (f maxPlanObjects reversed).

Lemma between_class name :
  name_is (Some name) (between functionNames) = true ->
  classify functionNames name = BetweenName /\ isSpecialForm name = false.
Proof.
  intros Hn%bool_decide_eq_true. split.
  - apply (classify_registered _ Hfull). unfold name_classes. rewrite <- Hn. set_solver.
  - destruct (registered_name _ Hfull (Some name)) as (? & [= <-] & ?); [|done].
    unfold registered. rewrite <- Hn. set_solver.
Qed.

Lemma not_between name :
  classify functionNames name <> BetweenName -> name_is (Some name) (between functionNames) = false.
Proof.
  intros Hc. destruct (name_is _ _) eqn:Hn; [|done]. by apply between_class in Hn as [? _].
Qed.

(** Calls keep their bounds in canonical form. *)
Lemma canonical_bounds name (args : list Expr) functions t fs i :
  let c := canonical_call reversed name args functions in
  bounds_ok (CallExpr c.1 c.2 t fs i) = bounds_ok (CallExpr name args t fs i) /\
  forallb bounds_ok c.2 = forallb bounds_ok args.
Proof.
  unfold canonical_call. destruct (FunctionSet.contains functions _); [done|].
  destruct args as [|a [|b [|]]]; try done. simpl.
  destruct (reversed name) as [name'|] eqn:Hr; [|done].
  destruct (Builder.shouldInvert a b); [|done].
  destruct (Hreversed _ _ Hr) as [Hc Hk].
  assert (Hn : forall n, classify functionNames n = classify functionNames name ->
    name_is (Some n) (between functionNames) = false).
  { intros n Hn. apply not_between. rewrite Hn. by destruct Hk as [->| ->]. }
  simpl. rewrite !bounds_given_other by (by apply Hn). simpl. rewrite !andb_true_r.
  by rewrite (andb_comm (ExprSimplifiers.bounds_ok _ b)).
Qed.

Lemma makeCall_simplifies (b0 : Builder T V) name t args functions fs i :
  Forall (valid b0) args -> typed (CallExpr name args t fs i) = true ->
  builds b0 (Builder.makeCall maxPlanObjects reversed name t args functions)
    (fun b e => implements b (CallExpr name args t fs i) e /\
       (bounds_ok e = bounds_ok (CallExpr name args t fs i) /\ args_ok e = forallb bounds_ok args)).
Proof.
  intros Hargs Ht. apply builds_and.
  - apply (makeCall_implements _ _ _ _ _ _ _ Heval Hreversed); done.
  - eapply builds_weaken; [by apply makeCall_spec|]. intros b e _ _ (_ & fs' & i' & ->).
    exact (canonical_bounds name args functions t fs' i').
Qed.

Lemma factory_makeCall_bounds (b0 : Builder T V) name t args special :
  Forall (valid b0) args ->
  builds b0 (F ExprFactory.makeCall name t args special)
    (fun _ e => bounds_ok e = bounds_ok (CallExpr name args t 0%N 0)).
Proof.
  intros Hargs. eapply builds_bind.
  - apply (builds_lift b0 _ (fun _ _ => True)); [by apply functionBits_fuel|done].
  - intros b bits Hb Hext _. eapply builds_weaken; [apply makeCall_spec; by eapply valids_extends|].
    intros b1 e _ _ (_ & fs & i & ->). apply (canonical_bounds name args _ t fs i).
Qed.

Lemma makeIn_bounds (b0 : Builder T V) value values :
  valid b0 value -> bounds_ok value = true ->
  builds b0 (F ExprFactory.makeIn functionNames value values) (fun _ e => bounds_ok e = true).
Proof.
  intros Hv Hb.
  assert (Hcall : forall b v t i name t' special,
    extends b0 b -> valid b (LiteralExpr v t i) -> classify functionNames name <> BetweenName ->
    builds b (F ExprFactory.makeCall name t' [value; LiteralExpr v t i] special)
      (fun _ e => bounds_ok e = true)).
  { intros b v t i name t' special Hext Hl Hc.
    eapply builds_weaken; [apply factory_makeCall_bounds; each; [by eapply valid_extends|done]|].
    intros b1 e _ _ ->. simpl. rewrite bounds_given_other by (by apply not_between). by rewrite Hb. }
  unfold ExprFactory.makeIn. destruct (ExprFactory.distinct_values [] values) as [|v [|w rest]].
  - apply builds_throw.
  - eapply builds_bind; [apply makeLiteral_spec|]. intros b e _ Hext [Hl [i ->]].
    unfold ExprFactory.makeEq. destruct (equality functionNames) as [name|] eqn:Hn; [|apply builds_throw].
    eapply (builds_bind _ _ _ (fun _ a => a = name)); [by apply builds_ret|].
    intros b1 ? _ Hext1 ->. apply Hcall; [by transitivity b|by eapply valid_extends|].
    rewrite (classify_registered _ Hfull name CompareName); [done|].
    unfold name_classes. rewrite <- Hn. set_solver.
  - eapply builds_bind; [apply makeLiteral_spec|]. intros b e _ Hext [Hl [i ->]].
    apply Hcall; [done|done|]. done.
Qed.

Lemma weight_pos (e : Expr) : 1 <= weight e.
Proof.
  destruct e; simpl; try lia. unfold call_weight. destruct (classify _ _); try lia.
  destruct (Nat.even _); lia.
Qed.

(** *** Folding constants *)

Lemma literal_refines b e v t i e' :
  typed e = true -> t = Expr.expr_type e -> has_type t v = true ->
  (forall r, row_ok types r -> eval e r = literal_value v) ->
  implements b (LiteralExpr v t i) e' -> implements b e e'.
Proof.
  intros He -> Hv Hval. apply implements_trans. split; [done| |simpl; clear; set_solver|apply weight_pos].
  intros r Hr. rewrite (eval_literal_at _ _ _ _ _ _ Heval), Hval; done.
Qed.

Lemma null_refines (b0 : Builder T V) e :
  typed e = true -> (forall r, row_ok types r -> eval e r = None) ->
  builds b0 (Builder.makeNull maxPlanObjects (Expr.expr_type e))
    (fun b e' => implements b e e' /\ bounds_ok e' = true).
Proof.
  intros He Hnull. eapply builds_weaken.
  - apply (makeLiteral_implements _ _ _ _ _ _ _ Heval _ _ _ 0).
    apply has_type_null, isNull_null_of.
  - intros b e' _ _ [He' [i ->]]. split; [|done]. eapply literal_refines; [done|done| | |exact He'].
    + apply has_type_null, isNull_null_of.
    + intros r Hr. rewrite Hnull by done. unfold literal_value. by rewrite isNull_null_of.
Qed.

Lemma isConstantNull_eval e r : ExprSimplifier.isConstantNull e = true -> eval e r = None.
Proof.
  destruct e as [|v t i| | | |]; try done. simpl. intros Hn.
  rewrite (eval_literal_at _ _ _ _ _ _ Heval). unfold literal_value. by rewrite Hn.
Qed.

Lemma is_null_call_spec e nullCall :
  ExprSimplifier.is_null_call e = Ok nullCall ->
  if nullCall then forall r, eval e r = None else args_ok e = true -> bounds_ok e = true.
Proof.
  destruct e as [| |name args t fs i| | |]; simpl; try (by intros [= <-]).
  destruct (functionBits name (isSpecialForm name)) as [own|] eqn:Hb; [|done]. simpl. intros [= <-].
  destruct (FunctionSet.contains own _) eqn:Hd; simpl.
  - intros ->. rewrite andb_true_r. unfold bounds_given.
    destruct (name_is (Some name) (between functionNames)) eqn:Hn; [|done].
    apply between_class in Hn as Hs. destruct Hs as [_ Hs]. rewrite Hs in Hb.
    apply bool_decide_eq_true in Hn. by rewrite (Hbetween name own) in Hd.
  - destruct (existsb _ args) eqn:He.
    + apply existsb_exists in He as (arg & Hin & Hnull). intros r.
      by apply (eval_default_null _ _ _ _ _ _ Heval name own args arg t fs i r);
        [..|apply isConstantNull_eval].
    + intros ->. rewrite andb_true_r. unfold bounds_given.
      destruct (name_is _ _); [|done]. simpl. apply forallb_forall. intros arg Hin.
      destruct arg as [|v t' i'| | | |]; try done. simpl. apply negb_true_iff.
      destruct (isNull v) eqn:Hv; [|done]. rewrite <- He. symmetry. apply existsb_exists.
      by exists (LiteralExpr v t' i').
Qed.

Lemma tryFoldConstant_spec (b0 : Builder T V) e :
  valid b0 e -> typed e = true -> args_ok e = true ->
  builds b0 (ExprSimplifier.tryFoldConstant maxPlanObjects constant e)
    (fun b e' => implements b e e' /\ bounds_ok e' = true).
Proof.
  intros Hv Ht Ha.
  assert (Hsame : forall b, bounds_ok e = true -> extends b0 b ->
    builds b (mret e) (fun b e' => implements b e e' /\ bounds_ok e' = true)).
  { intros b Hb Hext. apply builds_ret. intros b1 _ Hext1. split; [|done].
    apply implements_refl; [|done]. eapply valid_extends; [exact Hext1|]. by eapply valid_extends. }
  unfold ExprSimplifier.tryFoldConstant.
  assert (Hother : builds b0 (lift (ExprSimplifier.is_null_call e) ≫= fun nullCall : bool =>
      if nullCall then Builder.makeNull maxPlanObjects (Expr.expr_type e)
      else if ExprSimplifier.has_columns e then mret e
      else match constant e with
           | Some (variant, type) => Builder.makeLiteral maxPlanObjects variant type
           | None => mret e
           end) (fun b e' => implements b e e' /\ bounds_ok e' = true)).
  { eapply (builds_bind _ _ _ (fun _ nc => ExprSimplifier.is_null_call e = Ok nc)).
    - apply builds_lift; [|done]. intros err. destruct e; simpl; try done.
      destruct (functionBits _ _) eqn:Hb; [done|]. intros [= <-]. by eapply functionBits_fuel.
    - intros b nc Hb Hext Hnc. apply is_null_call_spec in Hnc. destruct nc; [by apply null_refines|].
      specialize (Hnc Ha). destruct (ExprSimplifier.has_columns e); [by apply Hsame|].
      destruct (constant e) as [[v t]|] eqn:Hc; [|by apply Hsame].
      destruct (eval_constant _ _ _ _ _ _ Heval e v t Hc) as (-> & Hty & Hval).
      eapply builds_weaken; [by apply (makeLiteral_implements _ _ _ _ _ _ _ Heval _ _ _ 0)|].
      intros b1 e1 _ _ [He1 [i ->]]. split; [|done]. by eapply literal_refines. }
  destruct e; try exact Hother. by apply Hsame.
Qed.

(** *** Folding connectives *)

Lemma constantBoolean_truth e v r :
  ExprSimplifier.constantBoolean e = Some v -> truth e r = Some v.
Proof.
  destruct e as [|l t i| | | |]; try done. simpl. destruct (isNull l) eqn:Hn; [done|].
  destruct (bool_decide _); [|done]. intros [= <-]. unfold truth_of.
  rewrite (eval_literal_at _ _ _ _ _ _ Heval). unfold literal_value. by rewrite Hn.
Qed.

Lemma connect_absorb isAnd l :
  In (Some (negb isAnd)) l -> fold_right (connect isAnd) (neutral isAnd) l = Some (negb isAnd).
Proof.
  induction l as [|x l IH]; [done|]. intros [->|Hin]; simpl.
  - by destruct isAnd, (fold_right _ _ l) as [[]|].
  - rewrite IH by done. by destruct isAnd, x as [[]|].
Qed.

Lemma undecided_spec isAnd (args : list Expr) :
  match ExprSimplifier.undecided isAnd args with
  | inl decides => In decides args /\ ExprSimplifier.constantBoolean decides = Some (negb isAnd)
  | inr remaining => remaining `sublist_of` args /\
      forall r, fold_right (connect isAnd) (neutral isAnd) (map (fun e => truth e r) remaining) =
                fold_right (connect isAnd) (neutral isAnd) (map (fun e => truth e r) args)
  end.
Proof.
  induction args as [|arg args IH]; simpl; [done|].
  destruct (ExprSimplifier.constantBoolean arg) as [v|] eqn:Hc.
  - destruct (Bool.eqb v isAnd) eqn:Hv.
    + apply eqb_prop in Hv as ->. destruct (ExprSimplifier.undecided isAnd args) as [d|rem].
      * destruct IH. split; [by right|done].
      * destruct IH as [Hsub Htr]. split; [by constructor|]. intros r. rewrite Htr.
        rewrite (constantBoolean_truth _ _ r Hc). by rewrite (connect_neutral_l isAnd).
    + split; [by left|]. rewrite Hc. f_equal. by destruct v, isAnd.
  - destruct (ExprSimplifier.undecided isAnd args) as [d|rem].
    + destruct IH. split; [by right|done].
    + destruct IH as [Hsub Htr]. split; [by constructor|]. intros r. simpl. by rewrite Htr.
Qed.

Lemma sublist_Forall (P : Expr -> Prop) (l l' : list Expr) :
  l `sublist_of` l' -> Forall P l' -> Forall P l.
Proof.
  rewrite !Forall_forall. intros Hsub Hl x Hx. apply Hl. by eapply elem_of_sublist.
Qed.

Lemma sublist_weight (l l' : list Expr) :
  l `sublist_of` l' -> list_sum (map weight l) <= list_sum (map weight l').
Proof. induction 1; simpl; lia. Qed.

Lemma sublist_columns (l l' : list Expr) :
  l `sublist_of` l' -> flat_map Expr.columns l ⊆ flat_map Expr.columns l'.
Proof. clear. induction 1; simpl; set_solver. Qed.

Lemma args_columns (e : Expr) (args : list Expr) : In e args -> Expr.columns e ⊆ flat_map Expr.columns args.
Proof.
  intros He c Hc. apply list_elem_of_In, in_flat_map. exists e. split; [done|]. by apply list_elem_of_In.
Qed.

Lemma args_weight (e : Expr) (args : list Expr) : In e args -> weight e <= list_sum (map weight args).
Proof. induction args as [|a args IH]; [done|]. intros [->|He]; simpl; [lia|]. specialize (IH He). lia. Qed.

(** An argument that has the truth of its connective. *)
Lemma connective_arg b isAnd args t fs i e :
  typed (CallExpr (connective isAnd) args t fs i) = true -> In e args -> valid b e ->
  (forall r, row_ok types r ->
    truth e r = fold_right (connect isAnd) (neutral isAnd) (map (fun e => truth e r) args)) ->
  implements b (CallExpr (connective isAnd) args t fs i) e.
Proof.
  intros Ht Hin Hv Htr.
  apply connective_args in Ht as Hargs. destruct Hargs as [-> Hargs].
  rewrite List.Forall_forall in Hargs. destruct (Hargs e Hin) as [He Hte]. split; [done..|].
  apply (refines_by_truth _ _ _ _ _ _ Heval); [done..| | |].
  - intros r Hr. rewrite (truth_connective _ _ _ _ _ _ Heval). by apply Htr.
  - by apply args_columns.
  - simpl. pose proof (args_weight _ _ Hin). lia.
Qed.

Lemma tryFoldConjunct_connective isAnd (b0 : Builder T V) args t fs i :
  let e := CallExpr (connective isAnd) args t fs i in
  arena_ok b0 -> valid b0 e -> typed e = true -> bounds_ok e = true ->
  builds b0 (ExprSimplifier.tryFoldConjunct maxPlanObjects reversed e)
    (fun b e' => implements b e e' /\ bounds_ok e' = true).
Proof.
  intros e Hb0 Hv Ht Hb.
  assert (Hname : (negb (String.eqb (connective isAnd) kAnd) &&
    negb (String.eqb (connective isAnd) kOr)) = false) by (by destruct isAnd).
  assert (HisAnd : String.eqb (connective isAnd) kAnd = isAnd) by (by destruct isAnd).
  pose proof (valid_children b0 _ Hb0 Hv) as Hch. simpl in Hch.
  apply connective_args in Ht as Hargs. destruct Hargs as [Htb Hargs].
  apply andb_true_iff in Hb as Hb'. destruct Hb' as [_ Hbs]. rewrite forallb_forall in Hbs.
  assert (Hself : builds b0 (mret e : StateM (Builder T V) Expr) (fun b e' => implements b e e' /\ bounds_ok e' = true)).
  { apply builds_ret. intros b _ Hext. split; [|done]. apply implements_refl; [by eapply valid_extends|done]. }
  assert (Harg : forall a, In a args -> (forall r, row_ok types r ->
      truth a r = fold_right (connect isAnd) (neutral isAnd) (map (fun e => truth e r) args)) ->
    builds b0 (mret a : StateM (Builder T V) Expr) (fun b e' => implements b e e' /\ bounds_ok e' = true)).
  { intros a Hin Htr. apply builds_ret. intros b _ Hext. split; [|by apply Hbs].
    apply connective_arg; [done|done| |done]. eapply valid_extends; [done|].
    rewrite List.Forall_forall in Hch. by apply Hch. }
  unfold ExprSimplifier.tryFoldConjunct, e. rewrite Hname, HisAnd.
  pose proof (undecided_spec isAnd args) as Hu.
  destruct (ExprSimplifier.undecided isAnd args) as [d|rem].
  - destruct Hu as [Hin Hc]. apply Harg; [done|]. intros r Hr.
    rewrite (constantBoolean_truth _ _ _ Hc). symmetry. apply connect_absorb.
    apply in_map_iff. exists d. split; [by apply constantBoolean_truth|done].
  - destruct Hu as [Hsub Htr]. destruct (Nat.eqb (length rem) (length args)); [exact Hself|].
    destruct rem as [|a [|a' rem]].
    + eapply builds_weaken.
      * apply (makeLiteral_implements _ _ _ _ _ _ _ Heval _ _ _ 0). apply has_type_bool.
      * intros b e' _ _ [He' [j ->]]. split; [|done].
        apply (literal_refines b e (of_bool isAnd) booleanType 0); [done|done|apply has_type_bool| |done].
        intros r Hr. rewrite (eval_truth _ _ _ _ _ _ Heval) by done.
        unfold e. rewrite (truth_connective _ _ _ _ _ _ Heval), <- Htr. simpl.
        unfold literal_value. by rewrite isNull_of_bool.
    + apply Harg.
      * apply list_elem_of_In. eapply elem_of_sublist; [|exact Hsub]. by left.
      * intros r _. rewrite <- Htr. simpl. symmetry. apply connect_neutral.
    + assert (Hrem : typed (CallExpr (connective isAnd) (a :: a' :: rem) t fs i) = true).
      { subst t. apply connective_typed. by eapply sublist_Forall. }
      eapply builds_weaken.
      * apply (makeCall_simplifies b0 (connective isAnd) t (a :: a' :: rem) _ fs i); [by eapply sublist_Forall|done].
      * intros b e' _ _ (He' & Hbe' & _). split.
        -- eapply implements_trans; [|exact He'].
           apply (refines_by_truth _ _ _ _ _ _ Heval); [done..| | |].
           ++ intros r Hr. unfold e. rewrite !(truth_connective _ _ _ _ _ _ Heval). by rewrite Htr.
           ++ by apply (sublist_columns (a :: a' :: rem)).
           ++ pose proof (sublist_weight _ _ Hsub). simpl in *. unfold call_weight.
              rewrite classify_connective. lia.
        -- rewrite Hbe'. simpl. rewrite bounds_given_other.
           ++ apply (proj2 (forallb_forall bounds_ok (a :: a' :: rem))). intros x Hx. apply Hbs.
              apply list_elem_of_In. eapply elem_of_sublist; [by apply list_elem_of_In|exact Hsub].
           ++ apply not_between. by rewrite classify_connective.
Qed.

Lemma tryFoldConjunct_spec (b0 : Builder T V) e :
  arena_ok b0 -> valid b0 e -> typed e = true -> bounds_ok e = true ->
  builds b0 (ExprSimplifier.tryFoldConjunct maxPlanObjects reversed e)
    (fun b e' => implements b e e' /\ bounds_ok e' = true).
Proof.
  intros Hb0 Hv Ht Hb.
  assert (Hself : builds b0 (mret e : StateM (Builder T V) Expr) (fun b e' => implements b e e' /\ bounds_ok e' = true)).
  { apply builds_ret. intros b _ Hext. split; [|done]. apply implements_refl; [by eapply valid_extends|done]. }
  destruct e as [| |name args t fs i| | |]; try exact Hself.
  destruct (String.eqb_spec name kAnd) as [->|Ha]; [by apply (tryFoldConjunct_connective true)|].
  destruct (String.eqb_spec name kOr) as [->|Ho]; [by apply (tryFoldConjunct_connective false)|].
  unfold ExprSimplifier.tryFoldConjunct.
  apply String.eqb_neq in Ha, Ho. rewrite Ha, Ho. exact Hself.
Qed.

Lemma fold_spec (b0 : Builder T V) e :
  valid b0 e -> typed e = true -> args_ok e = true ->
  builds b0 (ExprSimplifier.fold maxPlanObjects reversed constant e)
    (fun b e' => implements b e e' /\ bounds_ok e' = true).
Proof.
  intros Hv Ht Ha. eapply builds_bind; [by apply tryFoldConstant_spec|].
  intros b e1 Hb Hext [He1 Hb1]. eapply builds_weaken.
  - apply tryFoldConjunct_spec; [done|apply He1|apply He1|done].
  - intros b2 e2 _ _ [He2 Hb2]. split; [|done]. eapply implements_trans; [apply He1|done].
Qed.

(** *** Rows *)

Lemma typed_call name args t fs i :
  typed (CallExpr name args t fs i) = true <->
  Forall (fun e => typed e = true) args /\ well_formed_call functionNames name args t = true.
Proof.
  simpl. rewrite andb_true_iff, forallb_forall, List.Forall_forall. done.
Qed.

Lemma row_typed_fields fields t fs i :
  typed (CallExpr kRowConstructor fields t fs i) = true ->
  Forall (fun e => typed e = true) fields /\ type_kind t = ROW /\
  forall n e, fields !! n = Some e -> Expr.expr_type e = childAt t n.
Proof.
  intros [Hf Hw]%typed_call. unfold well_formed_call in Hw.
  change (classify functionNames kRowConstructor) with RowName in Hw. cbv iota in Hw.
  apply andb_true_iff in Hw as [Hk%bool_decide_eq_true Hw]. rewrite forallb_forall in Hw.
  split; [done|]. split; [done|]. intros n e Hn.
  assert (Hin : In (n, e) (imap pair fields)).
  { apply list_elem_of_In, list_elem_of_lookup. exists n. rewrite list_lookup_imap.
    apply fmap_Some. by exists e. }
  specialize (Hw _ Hin). by apply bool_decide_eq_true in Hw.
Qed.

Lemma tryFoldRowField_spec b e field :
  arena_ok b -> valid b e -> typed e = true ->
  ExprSimplifier.tryFoldRowField e = Ok (Some field) ->
  implements b e field /\ (args_ok e = true -> bounds_ok field = true).
Proof.
  intros Hb Hv Ht. destruct e as [| |name args t fs i| | |]; try done. simpl.
  destruct (String.eqb_spec name kDereference) as [->|]; [|done]. simpl.
  destruct args as [|base rest]; [done|].
  destruct base as [| |row fields tr fr ir| | |]; try done.
  unfold ExprSimplifier.isRowConstructor. destruct (String.eqb_spec row kRowConstructor) as [->|]; [|done].
  simpl. destruct rest as [|selector rest]; [done|]. destruct selector as [|l tl il| | | |]; try done.
  unfold integerValue. destruct (isNull l) eqn:Hnull; [done|]. simpl.
  destruct (is_integer_kind (kind l)); [|done]. simpl.
  destruct (integer l <? 0)%Z eqn:Hneg; [done|]. apply Z.ltb_ge in Hneg.
  destruct (fields !! Z.to_nat (integer l)) as [f|] eqn:Hf; [|done]. intros [= <-].
  apply typed_call in Ht as [Hargs Hw]. unfold well_formed_call in Hw.
  change (classify functionNames kDereference) with DereferenceName in Hw. cbv iota in Hw.
  destruct rest; [|done]. unfold selects in Hw. simpl Expr.literal_of in Hw. cbv iota in Hw.
  apply bool_decide_eq_true in Hw. simpl Expr.expr_type in Hw.
  inversion Hargs as [|? ? Hrow _]; subst.
  destruct (row_typed_fields _ _ _ _ Hrow) as (Hfields & _ & Htypes).
  assert (Hin : In f fields) by (apply list_elem_of_In; by eapply list_elem_of_lookup_2).
  rewrite List.Forall_forall in Hfields.
  pose proof (valid_children b _ Hb Hv) as Hch. simpl in Hch. inversion Hch as [|? ? Hvr _]; subst.
  apply (valid_children b _ Hb) in Hvr. simpl in Hvr. rewrite List.Forall_forall in Hvr.
  split; [split; [by apply Hvr|by apply Hfields|split]|].
  - simpl. by rewrite (Htypes _ _ Hf).
  - intros r Hr. symmetry. apply (eval_row_field _ _ _ _ _ _ Heval) with (n := Z.to_nat (integer l));
      [done|lia|done|by apply Hfields|done].
  - simpl. rewrite app_nil_r. by apply args_columns.
  - simpl. pose proof (args_weight _ _ Hin). lia.
  - simpl. rewrite andb_true_r. intros [_ Hbs]%andb_true_iff. rewrite forallb_forall in Hbs. by apply Hbs.
Qed.

(** The equality of a field and a value, as a call. *)
Definition field_equality (name : string) (t : T) (k : nat) (p : Expr * V) : Expr :=
  CallExpr name [p.1; LiteralExpr p.2 (childAt t k) 0] booleanType 0%N 0.

Lemma field_equality_typed name t k e w i :
  equality functionNames = Some name -> typed e = true -> has_type (childAt t k) w = true ->
  equivalent (childAt t k) (Expr.expr_type e) = true ->
  boolean_expr (CallExpr name [e; LiteralExpr w (childAt t k) i] booleanType 0%N 0).
Proof.
  intros Hn He Hw Heq. apply (registered_typed _ _ Hfull name CompareName).
  - unfold name_classes. rewrite <- Hn. set_solver.
  - each; [done|]. done.
  - simpl. by rewrite Heq.
Qed.

Lemma equality_class name : equality functionNames = Some name -> classify functionNames name = CompareName.
Proof.
  intros Hn. apply (classify_registered _ Hfull). unfold name_classes. rewrite <- Hn. clear. set_solver.
Qed.

Lemma field_equalities_spec name t n (b0 : Builder T V) fields values :
  equality functionNames = Some name ->
  Forall (valid b0) fields -> Forall (fun e => typed e = true) fields ->
  (forall k e w, fields !! k = Some e -> values !! k = Some w ->
     has_type (childAt t (n + k)) w = true /\
     equivalent (childAt t (n + k)) (Expr.expr_type e) = true) ->
  builds b0 (F ExprSimplifier.field_equalities functionNames t n fields values)
    (fun b es => Forall2 (implements b)
       (imap (fun k => field_equality name t (n + k)) (zip fields values)) es).
Proof.
  intros Hn. revert n b0 values. induction fields as [|e fields IH]; intros n b0 values Hv Ht Hval.
  { apply builds_ret. constructor. }
  destruct values as [|w values]; [apply builds_ret; constructor|].
  inversion Hv as [|? ? Hve Hv']; inversion Ht as [|? ? Hte Ht']; subst.
  destruct (Hval 0 e w eq_refl eq_refl) as [Hw Heq]. rewrite Nat.add_0_r in Hw, Heq.
  simpl. eapply builds_bind; [by apply (makeLiteral_implements _ _ _ _ _ _ _ Heval _ _ _ 0)|].
  cbn beta. intros b1 lit Hb1 Hext1 [Hlit [i ->]].
  pose proof (field_equality_typed name t n e w i Hn Hte Hw Heq) as Heqt.
  eapply builds_bind.
  { unfold ExprFactory.makeEq. rewrite Hn.
    apply (makeFunction_implements _ _ _ _ _ _ _ Heval Hreversed b1 (Some name) name _ 0%N 0);
      [done|each; [by eapply valid_extends|apply Hlit]|apply Heqt]. }
  cbn beta. intros b2 eq2 Hb2 Hext2 Heq2.
  assert (Hext02 : extends b0 b2) by (by transitivity b1).
  eapply builds_bind.
  { apply (IH (S n) b2 values); [by eapply valids_extends|done|].
    intros k e' w' He' Hw'. rewrite Nat.add_succ_comm. by apply (Hval (S k)). }
  cbn beta. intros b3 es Hb3 Hext3 Hes. apply builds_ret. intros b4 _ Hext4.
  constructor.
  - rewrite Nat.add_0_r. eapply implements_extends; [exact Hext4|].
    eapply implements_extends; [exact Hext3|]. eapply implements_trans; [|exact Heq2].
    apply (refines_call _ _ _ _ _ _ Heval). constructor; [reflexivity|].
    constructor; [|constructor]. split; [done| |done|done]. intros r _.
    by rewrite !(eval_literal_at _ _ _ _ _ _ Heval).
  - assert (Hsame : imap ((fun k => field_equality name t (n + k)) ∘ S) (zip fields values) =
      imap (fun k => field_equality name t (S n + k)) (zip fields values)).
    { apply imap_ext. intros k x _. simpl. f_equal. lia. }
    rewrite Hsame. eapply Forall2_impl; [exact Hes|]. intros ? ?. by apply implements_extends.
Qed.

Lemma implements_list b (es es' : list Expr) :
  Forall2 (implements b) es es' ->
  Forall (valid b) es' /\ Forall (fun e => typed e = true) es' /\ Forall2 refines es es'.
Proof.
  induction 1 as [|e e' es es' [] _ (? & ? & ?)]; [by repeat split; constructor|].
  by repeat split; constructor.
Qed.

Lemma refines_truths es es' r :
  Forall2 refines es es' -> row_ok types r ->
  map (fun e => truth e r) es' = map (fun e => truth e r) es.
Proof.
  intros Hes Hr. induction Hes as [|e e' es es' He _ IH]; [done|]. cbn [map]. rewrite IH. f_equal.
  by apply (refines_truth _ _ _ _ _ _ He).
Qed.

(** The size of the equalities of a row. *)
Lemma field_equalities_weight name t n fields values :
  classify functionNames name = CompareName -> length fields = length values ->
  list_sum (map weight (imap (fun k => field_equality name t (n + k)) (zip fields values))) =
  2 * length fields + list_sum (map weight fields).
Proof.
  intros Hc. revert n values. induction fields as [|e fields IH]; intros n [|w values]; try done.
  intros [= Hlen]. change (zip (e :: fields) (w :: values)) with ((e, w) :: zip fields values).
  rewrite imap_cons. cbn [map list_sum fold_right].
  assert (Hsame : imap ((fun k => field_equality name t (n + k)) ∘ S) (zip fields values) =
    imap (fun k => field_equality name t (S n + k)) (zip fields values)).
  { apply imap_ext. intros k x _. simpl. f_equal. lia. }
  rewrite Hsame. specialize (IH (S n) values Hlen).
  assert (Hw : weight (field_equality name t (n + 0) (e, w)) = weight e + 2).
  { unfold field_equality. simpl. unfold call_weight. rewrite Hc. lia. }
  rewrite Hw. change (fold_right plus 0) with list_sum. rewrite IH. simpl length. lia.
Qed.

Lemma field_equalities_columns name t n fields values :
  flat_map Expr.columns (imap (fun k => field_equality name t (n + k)) (zip fields values)) ⊆
  flat_map Expr.columns fields.
Proof.
  revert n values. induction fields as [|e fields IH]; intros n [|w values]; try (simpl; set_solver).
  change (zip (e :: fields) (w :: values)) with ((e, w) :: zip fields values).
  rewrite imap_cons.
  assert (Hsame : imap ((fun k => field_equality name t (n + k)) ∘ S) (zip fields values) =
    imap (fun k => field_equality name t (S n + k)) (zip fields values)).
  { apply imap_ext. intros k x _. simpl. f_equal. lia. }
  rewrite Hsame. specialize (IH (S n) values). simpl. rewrite app_nil_r. clear -IH. set_solver.
Qed.

(** The equality of a row constructor and a row literal, field by field. *)
Lemma expandRowEquality_spec (b0 : Builder T V) name fields tr fr ir v tv iv t fs i :
  let e := CallExpr name [CallExpr kRowConstructor fields tr fr ir; LiteralExpr v tv iv] t fs i in
  arena_ok b0 -> valid b0 e -> typed e = true ->
  equality functionNames = Some name -> isNull v = false ->
  builds b0 (F ExprSimplifier.expandRowEquality functionNames fields v tv)
    (fun b e' => implements b e e' /\ weight e' < weight e).
Proof.
  intros e Hb0 Hv Ht Hn Hnull.
  pose proof (equality_class name Hn) as Hclass.
  apply typed_call in Ht as Hty. destruct Hty as [Hargs Hw].
  unfold well_formed_call in Hw. rewrite Hclass in Hw.
  apply andb_true_iff in Hw as [->%bool_decide_eq_true Hw]. simpl in Hw. rewrite andb_true_r in Hw.
  inversion Hargs as [|? ? Hrow Hlit]; subst. inversion Hlit as [|? ? Hhas _]; subst. simpl in Hhas.
  destruct (row_typed_fields _ _ _ _ Hrow) as (Hfields & Hkind & Htypes).
  pose proof (valid_children b0 _ Hb0 Hv) as Hch. simpl in Hch.
  inversion Hch as [|? ? Hvr _]; subst. apply (valid_children b0 _ Hb0) in Hvr. simpl in Hvr.
  unfold ExprSimplifier.expandRowEquality.
  eapply (builds_bind _ _ _ (fun _ _ => kind v = ROW)).
  { apply builds_lift; unfold velox_check; destruct (bool_decide_reflect (kind v = ROW)); try done.
    by intros err [= <-]. }
  intros b1 _ Hb1 Hext1 Hkv. eapply (builds_bind _ _ _ (fun _ _ => length fields = length (row v))).
  { apply builds_lift; unfold velox_check; destruct (Nat.eqb_spec (length fields) (length (row v))); try done.
    by intros err [= <-]. }
  intros b2 _ Hb2 Hext2 Hlen. assert (Hext02 : extends b0 b2) by (by transitivity b1).
  eapply builds_bind.
  { apply (field_equalities_spec name tv 0 b2 fields (row v)); [done|by eapply valids_extends|done|].
    intros k ek w Hk Hwk. split; [by apply (has_type_row tv v)|].
    rewrite (Htypes _ _ Hk). by apply equivalent_childAt. }
  cbn beta. intros b3 es Hb3 Hext3 Hes.
  destruct (implements_list _ _ _ Hes) as (Hves & Htes & Hres).
  set (eqs := imap (fun k => field_equality name tv (0 + k)) (zip fields (row v))) in *.
  assert (Hbes : Forall boolean_expr es).
  { apply Forall2_length in Hes as Hl. rewrite List.Forall_forall in *. intros x Hx. split; [by apply Htes|].
    apply list_elem_of_In, list_elem_of_lookup in Hx as [k Hk].
    destruct (Forall2_lookup_r _ _ _ _ _ Hres Hk) as (y & Hy & Href).
    rewrite (refines_type _ _ _ _ _ Href). unfold eqs in Hy. rewrite list_lookup_imap in Hy.
    apply fmap_Some in Hy as (p & _ & ->). done. }
  destruct es as [|p ps]; [apply builds_throw|].
  eapply builds_weaken; [by apply (makeAll_implements _ _ _ _ _ _ _ Heval Hreversed true b3 p ps)|].
  intros b4 e' _ _ He'.
  assert (Hwn : weight (nested true p ps) < weight e).
  { rewrite nested_weight. pose proof (list_sum_weight _ _ _ _ _ Hres) as Hsum.
    unfold eqs in Hsum. rewrite field_equalities_weight in Hsum by done.
    apply Forall2_length in Hres as Hl. unfold eqs in Hl. rewrite length_imap, length_zip_with in Hl.
    simpl in Hsum, Hl. unfold e. simpl. unfold call_weight. rewrite Hclass.
    change (classify functionNames kRowConstructor) with RowName. cbv iota. lia. }
  split; [|pose proof (refines_weight _ _ _ _ _ (implements_refines _ _ _ _ _ _ He')); lia].
  eapply implements_trans; [|exact He'].
  inversion Hbes as [|? ? Hbp Hbps]; subst. destruct (nested_typed _ _ true p ps Hbp Hbps) as [Htn Hbn].
  apply (refines_by_truth _ _ _ _ _ _ Heval); [done..| | |lia].
  - intros r Hr. rewrite (nested_truth _ _ _ _ _ _ Heval).
    change (fold_right (connect true) (neutral true)) with (fold_right and3 (Some true)).
    rewrite (refines_truths _ _ _ Hres Hr). unfold e.
    rewrite (eval_row_equality _ _ _ _ _ _ Heval) by done.
    f_equal. unfold eqs. change (map ?f ?l) with (f <$> l). rewrite fmap_imap.
    apply imap_ext. intros k [x w] _. done.
  - etransitivity; [apply nested_columns|].
    etransitivity; [exact (flat_map_columns _ _ _ _ _ _ Heval _ _ Hres)|].
    etransitivity; [apply field_equalities_columns|]. simpl. clear. set_solver.
Qed.

(** ** The memo *)

Abbreviation M := (StateM (Simplifier T V)).

(** What [simplify] returns for an expression. *)
Record simplifies (b : Builder T V) (e e' : Expr) : Prop := {
  simplifies_implements : implements b e e';
  simplifies_bounds : bounds_ok e' = true;
  simplifies_literal : Builder.is_literal_expr e = true -> e' = e
}.

Definition memo_ok (s : Simplifier T V) : Prop :=
  forall i e', simplified s !! i = Some e' ->
  exists e, objects (builder s) !! i = Some e /\ (typed e = true -> simplifies (builder s) e e').

#[local] Instance simplifier_world : World (Simplifier T V).
Proof.
  refine {| world_ok s := arena_ok (builder s) /\ memo_ok s;
            extends s s' := arena_extends (builder s) (builder s') |}.
  split; [by intros s|]. intros s1 s2 s3 ? ?. by transitivity (builder s2).
Defined.

Lemma simplifies_extends b b' e e' : extends b b' -> simplifies b e e' -> simplifies b' e e'.
Proof. intros Hext []. split; [by eapply implements_extends|done..]. Qed.

(** Later states have more objects. *)
Lemma valid_state (s s' : Simplifier T V) e : extends s s' -> valid (builder s) e -> valid (builder s') e.
Proof. exact (valid_extends (builder s) (builder s') e). Qed.

Lemma valids_state (s s' : Simplifier T V) es :
  extends s s' -> Forall (valid (builder s)) es -> Forall (valid (builder s')) es.
Proof. exact (valids_extends (builder s) (builder s') es). Qed.

Lemma implements_state (s s' : Simplifier T V) e e' :
  extends s s' -> implements (builder s) e e' -> implements (builder s') e e'.
Proof. exact (implements_extends _ _ _ (builder s) (builder s') e e'). Qed.

Lemma simplifies_state (s s' : Simplifier T V) e e' :
  extends s s' -> simplifies (builder s) e e' -> simplifies (builder s') e e'.
Proof. exact (simplifies_extends (builder s) (builder s') e e'). Qed.

Lemma simplifies_shape b e e' : simplifies b e e' -> same_shape e e'.
Proof. intros []. split; [by apply simplifies_implements0|done]. Qed.

Lemma builds_on {A} (s0 : Simplifier T V) (m : StateM (Builder T V) A) Q :
  builds (builder s0) m Q -> builds s0 (on_builder m) (fun s a => Q (builder s) a).
Proof.
  intros Hm s [Hb Hmemo] Hext. specialize (Hm (builder s) Hb Hext). unfold on_builder.
  destruct (m (builder s)) as [[a b']|err]; [|done]. destruct Hm as (Hb' & Hext' & HQ).
  split; [split; [done|]|done]. intros i e' He'.
  destruct (Hmemo i e' He') as (e & He & Hs). exists e. simpl. split.
  - eapply lookup_weaken; [exact He|apply Hext'].
  - intros Ht. eapply simplifies_extends; [exact Hext'|auto].
Qed.

Lemma builds_state {A} (s0 : Simplifier T V) (m : M A) Q :
  (forall s, arena_ok (builder s) -> extends s0 s -> builds s m Q) -> builds s0 m Q.
Proof.
  intros Hm s Hs Hext. apply (Hm s); [apply Hs|done|done|]. by apply PreOrder_Reflexive.
Qed.

Lemma emplace_spec (s0 : Simplifier T V) e e' :
  valid (builder s0) e -> (typed e = true -> simplifies (builder s0) e e') ->
  builds s0 (ExprSimplifier.emplace e e') (fun _ _ => True).
Proof.
  intros Hv Hs s [Hb Hmemo] Hext. unfold ExprSimplifier.emplace, modify.
  destruct (simplified s !! Expr.expr_id e) eqn:Hk; (split; [split; [done|]|split; [|done]]);
    try apply (PreOrder_Reflexive (builder s)); try done.
  intros i e1. simpl. intros [[<- <-]|[Hne Hi]]%lookup_insert_Some; [|by apply Hmemo].
  exists e. split; [by apply (valid_state s0)|]. intros Ht. apply (simplifies_state s0); auto.
Qed.

(** What the recursive calls promise. *)
Definition simplifies_up_to (n : nat) (simplify : Expr -> M Expr) : Prop :=
  forall s0 e, weight e <= n -> valid (builder s0) e -> typed e = true ->
  builds s0 (simplify e) (fun s e' => simplifies (builder s) e e').

(** *** Arguments *)

Definition kept (isCoalesce : bool) (full : list Expr) : list Expr :=
  List.filter (fun e => negb (isCoalesce && ExprSimplifier.isConstantNull e)) full.

Lemma simplify_args_spec n simplify isCoalesce (s0 : Simplifier T V) args :
  simplifies_up_to n simplify ->
  Forall (fun e => weight e <= n) args -> Forall (valid (builder s0)) args ->
  Forall (fun e => typed e = true) args ->
  builds s0 (ExprSimplifier.simplify_args simplify isCoalesce args) (fun s p =>
    exists full, Forall2 (simplifies (builder s)) args full /\ p.1 = kept isCoalesce full /\
      (p.2 = false -> p.1 = args)).
Proof.
  intros Hsimp. revert s0. induction args as [|arg args IH]; intros s0 Hw Hv Ht; simpl.
  { apply builds_ret. intros s _ _. by exists []. }
  inversion Hw; inversion Hv; inversion Ht; subst.
  eapply builds_bind; [by apply Hsimp|]. cbn beta. intros s1 e1 Hs1 Hext1 He1.
  eapply builds_bind; [apply (IH s1); [done|by apply (valids_state s0)|done]|].
  cbn beta. intros s2 [rest changed] Hs2 Hext2 (full & Hargs & Hrest & Hsame).
  apply builds_ret. intros s3 _ Hext3. exists (e1 :: full).
  assert (Hext23 : extends s1 s3) by (by transitivity s2).
  split; [|split].
  - constructor; [by apply (simplifies_state s1)|].
    eapply Forall2_impl; [exact Hargs|]. intros ? ?. by apply simplifies_state.
  - unfold kept. simpl in *. rewrite Hrest. by destruct (isCoalesce && _).
  - simpl in *. destruct (isCoalesce && _); [done|]. simpl.
    intros [Hsm Hch]%orb_false_iff. rewrite (Hsame Hch). f_equal. apply negb_false_iff in Hsm.
    apply (same_eq (builder s1)); [apply He1|by apply (valid_state s0)|done].
Qed.

Lemma first_non_null_kept full r :
  first_non_null (map (fun e => eval e r) (kept true full)) =
  first_non_null (map (fun e => eval e r) full).
Proof.
  induction full as [|e full IH]; [done|]. unfold kept. simpl.
  destruct (ExprSimplifier.isConstantNull e) eqn:Hn; simpl.
  - by rewrite (isConstantNull_eval _ r Hn).
  - destruct (eval e r); [done|]. apply IH.
Qed.

Lemma kept_all full : kept false full = full.
Proof. apply forallb_filter_id. by apply forallb_forall. Qed.

Lemma kept_sublist isCoalesce full : kept isCoalesce full `sublist_of` full.
Proof.
  unfold kept. induction full as [|e full IH]; simpl; [done|]. destruct (negb _); by constructor.
Qed.

Lemma simplifies_list b args full :
  Forall2 (simplifies b) args full ->
  Forall2 refines args full /\ Forall2 same_shape args full /\ Forall (valid b) full /\
  Forall (fun e => typed e = true) full /\ Forall (fun e => bounds_ok e = true) full.
Proof.
  induction 1 as [|e e' args full He _ (? & ? & ? & ? & ?)]; [by repeat split; constructor|].
  pose proof (simplifies_shape _ _ _ He). destruct He as [[]]. by repeat split; constructor.
Qed.

(** The call over the arguments that are kept. *)
Lemma kept_refines b name args full t fs i :
  let args' := kept (String.eqb name kCoalesce) full in
  typed (CallExpr name args t fs i) = true -> Forall2 (simplifies b) args full ->
  typed (CallExpr name args' t fs i) = true /\
  refines (CallExpr name args t fs i) (CallExpr name args' t fs i).
Proof.
  intros args' Ht Hargs. destruct (simplifies_list _ _ _ Hargs) as (Href & Hshape & _ & Htyped & _).
  assert (Ht' : typed (CallExpr name full t fs i) = true) by (by eapply typed_replace).
  assert (Href' : refines (CallExpr name args t fs i) (CallExpr name full t fs i)).
  { by apply (refines_call _ _ _ _ _ _ Heval). }
  unfold args'. destruct (String.eqb_spec name kCoalesce) as [->|]; [|by rewrite kept_all].
  pose proof (kept_sublist true full) as Hsub. split.
  - apply typed_call in Ht' as [_ Hw]. apply typed_call. split; [by eapply sublist_Forall|].
    unfold well_formed_call in *. change (classify functionNames kCoalesce) with CoalesceName in *.
    cbv iota in *. rewrite forallb_forall in *. intros e He. apply Hw. apply list_elem_of_In.
    eapply elem_of_sublist; [by apply list_elem_of_In|done].
  - etransitivity; [exact Href'|]. split; [done| | |].
    + intros r Hr. rewrite !(eval_coalesce _ _ _ _ _ _ Heval). apply first_non_null_kept.
    + by apply sublist_columns.
    + simpl. unfold call_weight. change (classify functionNames kCoalesce) with CoalesceName. cbv iota.
      pose proof (sublist_weight _ _ Hsub). lia.
Qed.

Lemma forallb_bounds (l : list Expr) : Forall (fun e => bounds_ok e = true) l -> forallb bounds_ok l = true.
Proof. intros Hl. by apply forallb_forall, List.Forall_forall. Qed.

(** What stands for a call before the rules that look at the whole of it. *)
Definition prepared (b : Builder T V) (e e' : Expr) : Prop := implements b e e' /\ args_ok e' = true.

Lemma prepared_self b e : valid b e -> typed e = true -> args_ok e = true -> prepared b e e.
Proof. intros. split; [by apply implements_refl|done]. Qed.

Lemma rebuildCall_prepared (b0 : Builder T V) e name args t functions fs i :
  Forall (valid b0) args -> typed (CallExpr name args t fs i) = true ->
  forallb bounds_ok args = true -> refines e (CallExpr name args t fs i) ->
  builds b0 (F ExprFactory.rebuildCall name t functions args) (fun b e' => prepared b e e').
Proof.
  intros Hv Ht Hb Href. eapply builds_weaken; [by apply (makeCall_simplifies b0 name t args _ fs i)|].
  intros b e' _ _ (He' & _ & Ha). split; [by eapply implements_trans|by rewrite Ha].
Qed.

(** The literals of an IN. *)
Lemma literals_of_type_spec t (lits : list Expr) values :
  Forall (fun e => typed e = true) lits ->
  ExprSimplifier.literals_of_type t lits = Some values ->
  mapM Expr.literal_of lits = Some values /\
  Forall (fun e => equivalent (Expr.expr_type e) t = true) lits /\
  forallb (has_type t) values = true.
Proof.
  intros Hlits. revert values. induction Hlits as [|e lits He _ IH]; intros values; simpl.
  { intros [= <-]. by repeat split. }
  destruct e as [|v tv i| | | |]; try done. destruct (equivalent tv t) eqn:Heq; [|done].
  destruct (ExprSimplifier.literals_of_type t lits) as [vs|]; [|done]. simpl. intros [= <-].
  destruct (IH vs eq_refl) as (-> & ? & Hvs). split; [done|]. split; [by constructor|].
  simpl in *. by rewrite <- (equivalent_has_type tv), He, Hvs.
Qed.

Lemma makeIn_prepared (b0 : Builder T V) e value lits values t fs i :
  Forall (valid b0) (value :: lits) -> typed (CallExpr kIn (value :: lits) t fs i) = true ->
  bounds_ok value = true -> refines e (CallExpr kIn (value :: lits) t fs i) ->
  ExprSimplifier.literalInValues (value :: lits) = Some values ->
  builds b0 (F ExprFactory.makeIn functionNames value values) (fun b e' => prepared b e e').
Proof.
  intros Hv Ht Hb Href Hvals. apply typed_call in Ht as [Hargs Hw]. unfold well_formed_call in Hw.
  change (classify functionNames kIn) with InName in Hw. cbv iota in Hw.
  apply bool_decide_eq_true in Hw as ->.
  inversion Hargs as [|? ? Htv Htl]; inversion Hv as [|? ? Hvv _]; subst.
  unfold ExprSimplifier.literalInValues in Hvals. destruct lits as [|lit lits]; [done|].
  destruct (literals_of_type_spec _ _ _ Htl Hvals) as (Hlits & Hequiv & Hty).
  eapply builds_weaken.
  - apply builds_and; [|by apply makeIn_bounds].
    apply (makeIn_implements _ _ _ _ _ _ _ Heval Hreversed Hfull b0 value values fs i 0); done.
  - intros b e' _ _ [He' Hb']. split; [|by apply bounds_args_ok].
    eapply implements_trans; [exact Href|]. eapply implements_trans; [|exact He'].
    split; [done| | |].
    + intros r Hr. symmetry. by apply (eval_in_list _ _ _ _ _ _ Heval).
    + simpl. clear. set_solver.
    + pose proof (weight_pos lit). simpl. unfold call_weight.
      change (classify functionNames kIn) with InName. cbv iota. lia.
Qed.

Lemma simplify_call_spec n simplify (s0 : Simplifier T V) name args t fs i :
  let e := CallExpr name args t fs i in
  simplifies_up_to n simplify -> Forall (fun e => weight e <= n) args ->
  arena_ok (builder s0) -> valid (builder s0) e -> typed e = true ->
  builds s0 (ExprSimplifier.simplify_call maxPlanObjects reversed functionNames simplify e name args t fs)
    (fun s e' => prepared (builder s) e e').
Proof.
  intros e Hsimp Hw Hb0 Hv Ht. unfold ExprSimplifier.simplify_call.
  pose proof (valid_children _ _ Hb0 Hv) as Hch. simpl in Hch.
  apply typed_call in Ht as Ht'. destruct Ht' as [Hta _].
  eapply builds_bind; [by apply (simplify_args_spec n)|].
  intros s1 [args' changed] Hs1 Hext1 (full & Hargs & Hkept & Hsame). simpl in Hkept, Hsame.
  destruct (kept_refines _ name args full t fs i Ht Hargs) as [Ht' Href].
  destruct (simplifies_list _ _ _ Hargs) as (_ & _ & Hvf & _ & Hbf).
  pose proof (kept_sublist (String.eqb name kCoalesce) full) as Hsub. rewrite <- Hkept in *.
  pose proof (sublist_Forall _ _ _ Hsub Hvf) as Hv'. pose proof (sublist_Forall _ _ _ Hsub Hbf) as Hb'.
  apply (builds_on s1 _ (fun b e' => prepared b e e')). cbn [fst snd].
  destruct (String.eqb name kCoalesce && (length args' <=? 1)) eqn:Hone.
  - apply andb_true_iff in Hone as [->%String.eqb_eq Hlen%Nat.leb_le].
    destruct args' as [|front [|]]; [| |simpl in Hlen; lia].
    + eapply builds_weaken; [apply (null_refines (builder s1) e Ht)|].
      * intros r Hr. etransitivity; [symmetry; apply (refines_eval _ _ _ _ _ Href r Hr)|].
        by rewrite (eval_coalesce _ _ _ _ _ _ Heval).
      * intros b e' _ _ [He' Hbe]. split; [done|by apply bounds_args_ok].
    + apply builds_ret. intros b _ Hext. inversion Hv' as [|? ? Hvfr _]; inversion Hb' as [|? ? Hbfr _]; subst.
      apply typed_call in Ht' as [Htf Hw']. inversion Htf as [|? ? Htfr _]; subst.
      unfold well_formed_call in Hw'. change (classify functionNames kCoalesce) with CoalesceName in Hw'.
      cbv iota in Hw'. simpl in Hw'. rewrite andb_true_r in Hw'. apply bool_decide_eq_true in Hw'.
      split; [|by apply bounds_args_ok]. split; [by eapply valid_extends|done|].
      etransitivity; [exact Href|]. split; [done| |simpl; clear; set_solver|].
      * intros r Hr. rewrite (eval_coalesce _ _ _ _ _ _ Heval). simpl. by destruct (eval front r).
      * simpl. lia.
  - assert (Hrest : builds (builder s1) (if changed : bool
        then F ExprFactory.rebuildCall name t fs args' else mret e)
        (fun b e' => prepared b e e')).
    { destruct changed.
      - by apply (rebuildCall_prepared _ _ _ _ _ _ fs i); [..|apply forallb_bounds|].
      - apply builds_ret. intros b _ Hext. apply prepared_self; [|done|].
        + eapply valid_extends; [exact Hext|]. by apply (valid_state s0).
        + simpl. rewrite <- (Hsame eq_refl). by apply forallb_bounds. }
    destruct (String.eqb_spec name kIn) as [->|]; [|exact Hrest].
    destruct (ExprSimplifier.literalInValues args') as [values|] eqn:Hvals; [|exact Hrest].
    destruct args' as [|value lits]; [done|]. inversion Hb'; subst.
    by apply (makeIn_prepared _ _ _ lits _ t fs i).
Qed.

(** *** Conditionals *)

Abbreviation select args r := (selected (T:=T) (V:=V) (fun e => truth e r) (fun e => eval e r) args).

(** The branches kept, and the result that ends them. *)
Record branches_ok (b : Builder T V) (t : T) (args kept : list Expr) (final : option Expr) : Prop := {
  branches_valid : Forall (valid b) (kept ++ option_list final);
  branches_typed : Forall (fun e => typed e = true) (kept ++ option_list final);
  branches_bounds : Forall (fun e => bounds_ok e = true) (kept ++ option_list final);
  branches_even : Nat.even (length kept) = true;
  branches_final : match final with
    | Some d => Expr.expr_type d = t
    | None => Nat.even (length args) = true
    end;
  branches_columns : flat_map Expr.columns (kept ++ option_list final) ⊆ flat_map Expr.columns args;
  branches_weight : list_sum (map weight (kept ++ option_list final)) <= list_sum (map weight args);
  branches_select d :
    Expr.expr_type d = t -> match final with
      | Some d' => d = d'
      | None => forall r, row_ok types r -> eval d r = None
      end ->
    conditional_typed t (kept ++ [d]) = true /\
    forall r, row_ok types r -> select (kept ++ [d]) r = select args r
}.

Lemma conditional_typed_cons t (c x : Expr) (args : list Expr) :
  conditional_typed t (c :: x :: args) = true <->
  Expr.expr_type c = booleanType /\ Expr.expr_type x = t /\ conditional_typed t args = true.
Proof. simpl. unfold of_type. rewrite !andb_true_iff, !bool_decide_eq_true. tauto. Qed.

(** A condition that is no literal keeps its branch. *)
Lemma branches_keep b t c c' x x' args kept final :
  Expr.expr_type c = booleanType -> Expr.expr_type x = t ->
  simplifies b c c' -> simplifies b x x' -> branches_ok b t args kept final ->
  branches_ok b t (c :: x :: args) (c' :: x' :: kept) final.
Proof.
  intros Htc Htx [[Hvc Htc' Hc] Hbc _] [[Hvx Htx' Hx] Hbx _] Hok. destruct Hok.
  pose proof (refines_columns _ _ _ _ _ Hc) as Hcc. pose proof (refines_columns _ _ _ _ _ Hx) as Hcx.
  pose proof (refines_weight _ _ _ _ _ Hc). pose proof (refines_weight _ _ _ _ _ Hx).
  split; [by repeat constructor..|done|done| | |].
  - simpl. clear -branches_columns0 Hcc Hcx. set_solver.
  - simpl. simpl in branches_weight0. lia.
  - intros d Hd Hfinal. destruct (branches_select0 d Hd Hfinal) as [Hct Hsel]. split.
    + apply conditional_typed_cons. rewrite (refines_type _ _ _ _ _ Hc), (refines_type _ _ _ _ _ Hx). done.
    + intros r Hr. simpl. rewrite (refines_truth _ _ _ _ _ r Hc Hr), (refines_eval _ _ _ _ _ Hx r Hr).
      by rewrite Hsel.
Qed.

(** A literal condition that is not true drops its branch. *)
Lemma branches_skip b t c x args kept final :
  (forall r, row_ok types r -> truth c r <> Some true) ->
  branches_ok b t args kept final -> branches_ok b t (c :: x :: args) kept final.
Proof.
  intros Hc Hok. destruct Hok. split; [done..| | |].
  - simpl. clear -branches_columns0. set_solver.
  - simpl. simpl in branches_weight0. lia.
  - intros d Hd Hfinal. destruct (branches_select0 d Hd Hfinal) as [Hct Hsel]. split; [done|].
    intros r Hr. rewrite Hsel by done. simpl. by rewrite bool_decide_eq_false_2 by (by apply Hc).
Qed.

(** A literal condition that is true ends the branches. *)
Lemma branches_stop b t c x x' args :
  (forall r, row_ok types r -> truth c r = Some true) -> Expr.expr_type x = t -> simplifies b x x' ->
  branches_ok b t (c :: x :: args) [] (Some x').
Proof.
  intros Hc Ht [[Hv Hty Hx] Hb _].
  pose proof (refines_columns _ _ _ _ _ Hx) as Hcx. pose proof (refines_weight _ _ _ _ _ Hx).
  split; simpl; [by each..|done| | | |].
  - by rewrite (refines_type _ _ _ _ _ Hx).
  - clear -Hcx. set_solver.
  - lia.
  - intros d Hd ->. split; [unfold of_type; by apply bool_decide_eq_true_2|].
    intros r Hr. rewrite Hc by done. rewrite bool_decide_eq_true_2 by done. by apply Hx.
Qed.

Lemma branches_last b t x x' :
  Expr.expr_type x = t -> simplifies b x x' -> branches_ok b t [x] [] (Some x').
Proof.
  intros Ht [[Hv Hty Hx] Hb _].
  pose proof (refines_columns _ _ _ _ _ Hx) as Hcx. pose proof (refines_weight _ _ _ _ _ Hx).
  split; simpl; [by each..|done| | | |].
  - by rewrite (refines_type _ _ _ _ _ Hx).
  - clear -Hcx. set_solver.
  - lia.
  - intros d Hd ->. split; [unfold of_type; by apply bool_decide_eq_true_2|].
    intros r Hr. by apply Hx.
Qed.

Lemma branches_none b t : branches_ok b t [] [] None.
Proof.
  split; simpl; [by each..|done|done|done|lia|].
  intros d Hd Hnull. split; [unfold of_type; by apply bool_decide_eq_true_2|]. by apply Hnull.
Qed.

(** A literal condition. *)
Lemma literal_condition v t i r :
  truth (LiteralExpr v t i) r = if isNull v then None else Some (boolean v).
Proof.
  unfold truth_of. rewrite (eval_literal_at _ _ _ _ _ _ Heval). unfold literal_value. by destruct (isNull v).
Qed.

Lemma simplify_branches_spec n simplify t (s0 : Simplifier T V) args :
  simplifies_up_to n simplify -> Forall (fun e => weight e <= n) args ->
  Forall (valid (builder s0)) args -> Forall (fun e => typed e = true) args ->
  conditional_typed t args = true ->
  builds s0 (ExprSimplifier.simplify_branches simplify args)
    (fun s p => branches_ok (builder s) t args p.1 p.2).
Proof.
  intros Hsimp. revert s0. induction args as [|x|c x args IH] using list_pairs_ind; intros s0 Hw Hv Ht Hct.
  - apply builds_ret. intros s _ _. apply branches_none.
  - inversion Hw; inversion Hv; inversion Ht; subst. simpl in Hct. apply bool_decide_eq_true in Hct.
    eapply builds_bind; [by apply Hsimp|]. cbn beta. intros s1 x' _ _ Hx'.
    apply builds_ret. intros s2 _ Hext2. apply branches_last; [done|]. by apply (simplifies_state s1).
  - inversion Hw as [|? ? Hwc Hw']; inversion Hv as [|? ? Hvc Hv']; inversion Ht as [|? ? Htc Ht']; subst.
    inversion Hw' as [|? ? Hwx Hw'']; inversion Hv' as [|? ? Hvx Hv'']; inversion Ht' as [|? ? Htx Ht'']; subst.
    apply conditional_typed_cons in Hct as (Hc & Hx & Hct).
    cbn [ExprSimplifier.simplify_branches].
    eapply builds_bind; [by apply Hsimp|]. cbn beta. intros s1 c' Hs1 Hext1 Hc'.
    pose proof (valids_state _ _ _ Hext1 Hv'') as Hv1. pose proof (valid_state _ _ _ Hext1 Hvx) as Hvx1.
    assert (Hkeep : builds s1 (
        result ← simplify x;
        rest ← ExprSimplifier.simplify_branches simplify args;
        mret (c' :: result :: rest.1, rest.2)) (fun s p => branches_ok (builder s) t (c :: x :: args) p.1 p.2)).
    { eapply builds_bind; [by apply Hsimp|]. cbn beta. intros s2 x' Hs2 Hext2 Hx'.
      eapply builds_bind; [apply (IH s2); [done|by apply (valids_state s1)|done|done]|].
      cbn beta. intros s3 [kept final] Hs3 Hext3 Hok. apply builds_ret. intros s4 _ Hext4.
      assert (Hext34 : branches_ok (builder s4) t args kept final).
      { destruct Hok. split; try done. by apply (valids_state s3). }
      apply branches_keep; [done|done| | |done].
      - apply (simplifies_state s1); [|done]. transitivity s2; [done|]. by transitivity s3.
      - apply (simplifies_state s2); [|done]. by transitivity s3. }
    destruct c' as [|v tv iv| | | |]; try exact Hkeep. clear Hkeep.
    eapply (builds_bind _ _ _ (fun _ _ => True)).
    { apply builds_lift; [|done]. intros err. unfold velox_check. destruct (bool_decide _); [done|].
      by intros [= <-]. }
    intros s2 _ Hs2 Hext2 _.
    assert (Htr : forall r, row_ok types r -> truth c r = if isNull v then None else Some (boolean v)).
    { intros r Hr. rewrite <- (literal_condition v tv iv r). symmetry.
      by apply (refines_truth _ _ _ _ _ _ (implements_refines _ _ _ _ _ _ (simplifies_implements _ _ _ Hc'))). }
    destruct (isNull v || negb (boolean v)) eqn:Hlit.
    + eapply builds_weaken; [apply (IH s2); [done|by apply (valids_state s1)|done|done]|].
      cbn beta. intros s3 p _ _ Hok. apply branches_skip; [|done].
      intros r Hr. rewrite Htr by done. by destruct (isNull v), (boolean v).
    + eapply builds_bind; [apply Hsimp; [done|by apply (valid_state s1)|done]|]. cbn beta.
      intros s3 x' Hs3 Hext3 Hx'. apply builds_ret. intros s4 _ Hext4.
      apply branches_stop; [|done|by apply (simplifies_state s3)].
      intros r Hr. rewrite Htr by done. by destruct (isNull v), (boolean v).
Qed.

Lemma conditional_class name :
  String.eqb name kIf || String.eqb name kSwitch = true ->
  classify functionNames name = ConditionalName /\ (name = kIf \/ name = kSwitch).
Proof. intros [->%String.eqb_eq| ->%String.eqb_eq]%orb_true_iff; auto. Qed.

Lemma simplifyConditional_spec n simplify (s0 : Simplifier T V) name args t fs i :
  let e := CallExpr name args t fs i in
  String.eqb name kIf || String.eqb name kSwitch = true ->
  simplifies_up_to n simplify -> Forall (fun e => weight e <= n) args ->
  arena_ok (builder s0) -> valid (builder s0) e -> typed e = true ->
  builds s0 (ExprSimplifier.simplifyConditional maxPlanObjects reversed simplify name args t fs)
    (fun s e' => prepared (builder s) e e').
Proof.
  intros e Hname Hsimp Hw Hb0 Hv Ht. destruct (conditional_class _ Hname) as [Hclass Hif].
  pose proof (valid_children _ _ Hb0 Hv) as Hch. simpl in Hch.
  apply typed_call in Ht as Ht'. destruct Ht' as [Hta Hct].
  unfold well_formed_call in Hct. rewrite Hclass in Hct.
  eapply builds_bind; [by apply (simplify_branches_spec n)|].
  intros s1 [kept final] Hs1 Hext1 Hok. cbn [fst snd] in *.
  pose proof (branches_valid _ _ _ _ _ Hok) as Hbv. apply Forall_app in Hbv as [Hkv Hfv].
  pose proof (branches_typed _ _ _ _ _ Hok) as Hbt. apply Forall_app in Hbt as [Hkt Hft].
  pose proof (branches_bounds _ _ _ _ _ Hok) as Hbb. apply Forall_app in Hbb as [Hkb Hfb].
  pose proof (branches_columns _ _ _ _ _ Hok) as Hcols. pose proof (branches_weight _ _ _ _ _ Hok) as Hbw.
  rewrite flat_map_app in Hcols. rewrite map_app, list_sum_app in Hbw.
  (* The result of the ELSE branch. *)
  eapply (builds_bind _ _ _ (fun s d => valid (builder s) d /\ typed d = true /\ bounds_ok d = true /\
    Expr.expr_type d = t /\ Expr.columns d ⊆ flat_map Expr.columns (option_list final) /\
    weight d <= list_sum (map weight (option_list final)) + (if Nat.even (length args) then 1 else 0) /\
    match final with Some d' => d = d' | None => forall r, row_ok types r -> eval d r = None end)).
  { pose proof (branches_final _ _ _ _ _ Hok) as Hfinal. destruct final as [d|]; simpl in *.
    - apply builds_ret. intros s _ Hext. inversion Hfv; inversion Hft; inversion Hfb; subst.
      repeat split; try done; [by apply (valid_state s1)|rewrite app_nil_r; done|lia].
    - rewrite Hfinal. apply (builds_on s1 _ (fun b d => valid b d /\ typed d = true /\ bounds_ok d = true /\
        Expr.expr_type d = t /\ Expr.columns d ⊆ [] /\ weight d <= 1 /\
        forall r, row_ok types r -> eval d r = None)).
      eapply builds_weaken; [apply (makeLiteral_spec maxPlanObjects (builder s1) (null_of (type_kind t)) t)|].
      intros b d _ _ [Hd [j ->]]. repeat split; try done; [by apply has_type_null, isNull_null_of|].
      intros r _. rewrite (eval_literal_at _ _ _ _ _ _ Heval). unfold literal_value. by rewrite isNull_null_of. }
  intros s2 d Hs2 Hext2 (Hdv & Hdt & Hdb & Hdty & Hdc & Hdw & Hd).
  destruct (branches_select _ _ _ _ _ Hok d Hdty Hd) as [Hct' Hsel].
  assert (Heq : forall r, row_ok types r -> eval e r = select (kept ++ [d]) r).
  { intros r Hr. unfold e. rewrite (eval_conditional _ _ _ _ _ _ Heval) by done. symmetry. by apply Hsel. }
  assert (Hcall : 1 + (if Nat.even (length args) then 1 else 0) = call_weight functionNames name args).
  { unfold call_weight. rewrite Hclass. by destruct (Nat.even _). }
  assert (Hcw : call_weight functionNames name (kept ++ [d]) = 1).
  { unfold call_weight. rewrite Hclass, length_app, Nat.even_add, (branches_even _ _ _ _ _ Hok). done. }
  pose proof (branches_even _ _ _ _ _ Hok) as Heven.
  destruct kept as [|c [|x kept]]; [|done|].
  - apply builds_ret. intros s _ Hext. split; [|by apply bounds_args_ok].
    split; [by apply (valid_state s2)|done|]. split; [done| | |].
    + intros r Hr. rewrite Heq by done. done.
    + simpl in Hcols. by etransitivity.
    + change (weight e) with (call_weight functionNames name args + list_sum (map weight args)).
      rewrite <- Hcall. simpl in Hbw. lia.
  - set (all := c :: x :: kept) in *.
    apply (builds_on s2 _ (fun b e' => prepared b e e')).
    assert (Hv2 : Forall (valid (builder s2)) (all ++ [d])).
    { apply Forall_app. split; [by apply (valids_state s1)|by each]. }
    assert (Ht2 : typed (CallExpr name (all ++ [d]) t fs i) = true).
    { apply typed_call. split; [apply Forall_app; split; [done|by each]|].
      unfold well_formed_call. by rewrite Hclass. }
    apply (rebuildCall_prepared _ _ _ _ _ _ fs i Hv2 Ht2).
    + apply forallb_bounds, Forall_app. split; [done|by each].
    + split; [done| | |].
      * intros r Hr. rewrite Heq, (eval_conditional _ _ _ _ _ _ Heval) by done. done.
      * simpl. change (c :: x :: kept ++ [d]) with (all ++ [d]).
        change (Expr.columns c ++ Expr.columns x ++ flat_map Expr.columns (kept ++ [d])) with
          (flat_map Expr.columns (all ++ [d])). rewrite flat_map_app. simpl. clear -Hcols Hdc. set_solver.
      * change (weight (CallExpr name (all ++ [d]) t fs i)) with
          (call_weight functionNames name (all ++ [d]) + list_sum (map weight (all ++ [d]))).
        rewrite Hcw, map_app, list_sum_app. unfold e.
        change (weight (CallExpr name args t fs i)) with
          (call_weight functionNames name args + list_sum (map weight args)).
        rewrite <- Hcall. change (list_sum (map weight [d])) with (weight d + 0). clear -Hbw Hdw. lia.
Qed.

(** *** The whole expression *)

Lemma tryFoldRowField_fuel (e : Expr) err : ExprSimplifier.tryFoldRowField e = Throw err -> err <> OutOfFuel.
Proof.
  destruct e as [| |name args t fs i| | |]; try done. simpl.
  destruct (negb _); [done|]. destruct args as [|base rest]; [by intros [= <-]|].
  destruct base as [| |row fields tr fr ir| | |]; try done. destruct (negb _); [done|].
  destruct rest as [|[|l tl il| | | |] rest]; try (by intros [= <-]).
  unfold integerValue, velox_check. destruct (negb (isNull l)); [|by intros [= <-]]. simpl.
  destruct (is_integer_kind _); [|by intros [= <-]]. simpl. destruct (_ <? 0)%Z; [by intros [= <-]|].
  destruct (fields !! _); [done|]. by intros [= <-].
Qed.

Lemma tryExpandRowEquality_spec (b0 : Builder T V) e :
  arena_ok b0 -> valid b0 e -> typed e = true ->
  builds b0 (F ExprSimplifier.tryExpandRowEquality functionNames e)
    (fun b o => match o with Some e' => implements b e e' /\ weight e' < weight e | None => True end).
Proof.
  intros Hb0 Hv Ht.
  assert (Hnone : builds b0 (mret None : StateM (Builder T V) (option Expr))
    (fun b o => match o with Some e' => implements b e e' /\ weight e' < weight e | None => True end)).
  { by apply builds_ret. }
  destruct e as [| |name args t fs i| | |]; try exact Hnone.
  unfold ExprSimplifier.tryExpandRowEquality.
  destruct (name_is (Some name) (equality functionNames)) eqn:Hn; [|exact Hnone]. simpl negb.
  apply bool_decide_eq_true in Hn. symmetry in Hn.
  assert (Hthrow : builds b0 (throw (VeloxUnreachable "args()[1]") : StateM (Builder T V) (option Expr))
    (fun b o => match o with Some e' => implements b (CallExpr name args t fs i) e' /\
       weight e' < weight (CallExpr name args t fs i) | None => True end)).
  { by intros b Hb Hext. }
  destruct args as [|a [|b rest]]; [exact Hthrow|destruct a; exact Hthrow|].
  destruct a as [| |row fields tr fr ir| | |]; try exact Hnone.
  destruct b as [|v tv iv| | | |]; try exact Hnone.
  unfold ExprSimplifier.isRowConstructor.
  destruct (String.eqb_spec row kRowConstructor) as [->|]; [|exact Hnone]. simpl.
  destruct (isNull v) eqn:Hnull; [exact Hnone|].
  assert (rest = []) as ->.
  { apply typed_call in Ht as [_ Hw]. unfold well_formed_call in Hw. rewrite (equality_class _ Hn) in Hw.
    apply andb_true_iff in Hw as [_ [Hlen%Nat.eqb_eq _]%andb_true_iff]. by destruct rest. }
  apply builds_fmap. by apply (expandRowEquality_spec b0 name fields tr fr ir v tv iv t fs i).
Qed.

(** The result of the rules that look at the whole expression. *)
Definition finished (e : Expr) (s : Simplifier T V) (e' : Expr) : Prop :=
  implements (builder s) e e' /\ bounds_ok e' = true.

Lemma fold_prepared (s0 : Simplifier T V) e e1 :
  prepared (builder s0) e e1 ->
  builds s0 (on_builder (ExprSimplifier.fold maxPlanObjects reversed constant e1)) (finished e).
Proof.
  intros [[Hv Ht Href] Ha]. apply (builds_on s0 _ (fun b e' => implements b e e' /\ bounds_ok e' = true)).
  eapply builds_weaken; [by apply fold_spec|]. intros b e' _ _ [He' ?].
  split; [by eapply implements_trans|done].
Qed.

Lemma finish_spec n simplify (s0 : Simplifier T V) e e1 :
  simplifies_up_to n simplify -> weight e <= S n -> arena_ok (builder s0) ->
  prepared (builder s0) e e1 ->
  builds s0 (ExprSimplifier.finish maxPlanObjects reversed functionNames constant simplify e1)
    (finished e).
Proof.
  intros Hsimp Hw Hb0 Hprep. pose proof Hprep as [[Hv Ht Href] Ha].
  eapply (builds_bind _ _ _ (fun _ field => ExprSimplifier.tryFoldRowField e1 = Ok field)).
  { apply builds_lift; [|done]. apply tryFoldRowField_fuel. }
  intros s1 [field|] Hs1 Hext1 Hfield.
  - destruct (tryFoldRowField_spec (builder s0) e1 field Hb0 Hv Ht Hfield) as [Hf Hb].
    apply builds_ret. intros s _ Hext. split; [|by apply Hb].
    eapply implements_trans; [exact Href|]. apply (implements_state s0); [|done]. by transitivity s1.
  - assert (Hv1 : valid (builder s1) e1) by (by apply (valid_state s0)).
    eapply builds_bind.
    { apply (builds_on s1 _ (fun b o => match o with
        | Some e' => implements b e1 e' /\ weight e' < weight e1 | None => True end)).
      apply tryExpandRowEquality_spec; [apply Hs1|done..]. }
    intros s2 [fieldEqualities|] Hs2 Hext2 Hfe; cbn beta iota in Hfe.
    + destruct Hfe as [[Hv2 Ht2 Href2] Hlt]. pose proof (refines_weight _ _ _ _ _ Href).
      eapply builds_weaken; [apply Hsimp; [lia|done..]|].
      cbn beta. intros s3 e' _ _ [He' Hb' _]. split; [|done].
      eapply implements_trans; [exact Href|]. by eapply implements_trans.
    + apply fold_prepared. split; [|done]. split; [by apply (valid_state s1)|done..].
Qed.

Lemma simplify_step_spec n simplify (s0 : Simplifier T V) e :
  simplifies_up_to n simplify -> weight e <= S n -> arena_ok (builder s0) ->
  valid (builder s0) e -> typed e = true ->
  builds s0 (ExprSimplifier.simplify_step maxPlanObjects reversed functionNames constant simplify e)
    (finished e).
Proof.
  intros Hsimp Hw Hb0 Hv Ht.
  assert (Hself : args_ok e = true ->
    builds s0 (ExprSimplifier.finish maxPlanObjects reversed functionNames constant simplify e) (finished e)).
  { intros Ha. apply (finish_spec n); [done..|]. by apply prepared_self. }
  destruct e as [c|v t i|name args t fs i|base f t i|args body t i|columns fs t i]; try (by apply Hself).
  - assert (Hargs : Forall (fun e => weight e <= n) args).
    { rewrite List.Forall_forall. intros a Ha. pose proof (args_weight _ _ Ha) as Hle.
      change (weight (CallExpr name args t fs i)) with
        (call_weight functionNames name args + list_sum (map weight args)) in Hw.
      assert (1 <= call_weight functionNames name args).
      { clear. unfold call_weight. destruct (classify _ _); try lia. destruct (Nat.even _); lia. }
      lia. }
    unfold ExprSimplifier.simplify_step.
    destruct (String.eqb name kIf || String.eqb name kSwitch) eqn:Hif.
    + eapply builds_bind; [by apply (simplifyConditional_spec n _ s0 name args t fs i)|].
      intros s1 e1 _ _ He1. by apply fold_prepared.
    + eapply builds_bind; [by apply (simplify_call_spec n _ s0 name args t fs i)|].
      intros s1 e1 Hs1 _ He1. by apply (finish_spec n); [..|apply Hs1|].
  - unfold ExprSimplifier.simplify_step.
    pose proof (valid_children _ _ Hb0 Hv) as Hch. simpl in Hch.
    apply Forall_app in Hch as [Hcols Hbody]. inversion Hbody as [|? ? Hvb _]; subst.
    apply andb_true_iff in Ht as Ht'. destruct Ht' as [Htc Htb].
    eapply builds_bind; [apply Hsimp; [simpl in Hw; lia|done..]|].
    cbn beta. intros s1 body' Hs1 Hext1 [[Hvb' Htb' Hrefb] _ _].
    eapply builds_bind; [|intros s2 e1 Hs2 _ He1; by apply (finish_spec n); [..|apply Hs2|exact He1]].
    destruct (Expr.same body' body).
    + apply builds_ret. intros s _ Hext. apply prepared_self; [|done..].
      apply (valid_state s1); [done|]. by apply (valid_state s0).
    + apply (builds_on s1 _ (fun b e' => prepared b (LambdaExpr args body t i) e')).
      unfold ExprFactory.rebuildLambda. eapply builds_weaken.
      * apply make_spec; [done|done|]. simpl. apply Forall_app. split; [by apply (valids_state s0)|by each].
      * cbn beta. intros b e' _ _ [He' [j ->]]. split; [|done].
        split; [done| |by apply (refines_lambda _ _ _ _ _ _ Heval)].
        simpl. apply andb_true_iff. by split.
Qed.

(** A literal is its own simplification. *)
Lemma simplify_step_literal simplify v t i (s : Simplifier T V) :
  ExprSimplifier.simplify_step maxPlanObjects reversed functionNames constant simplify
    (LiteralExpr v t i) s = Ok (LiteralExpr v t i, s).
Proof. by destruct s. Qed.

Lemma simplify_spec n : simplifies_up_to n
  (ExprSimplifier.simplify maxPlanObjects reversed functionNames constant n).
Proof.
  induction n as [|n IH]; intros s0 e Hw Hv Ht.
  { pose proof (weight_pos e). lia. }
  simpl. apply builds_state. intros s Hb Hext.
  assert (Hvs : valid (builder s) e) by (by apply (valid_state s0)).
  clear s0 Hext Hv. rename s into s0.
  eapply (builds_bind _ _ _ (fun s found => found = simplified s !! Expr.expr_id e)).
  { intros s Hs Hext. split; [done|]. split; [reflexivity|done]. }
  intros s1 found Hs1 Hext1 Hfound.
  destruct found as [result|].
  - apply builds_ret. intros s _ Hext.
    destruct (proj2 Hs1 _ _ (eq_sym Hfound)) as (e0 & He0 & Hres).
    apply (valid_state s0 s1) in Hvs; [|done]. unfold valid in Hvs. rewrite Hvs in He0.
    injection He0 as <-. apply (simplifies_state s1); auto.
  - assert (Hstep : builds s1 (ExprSimplifier.simplify_step maxPlanObjects reversed functionNames
        constant (ExprSimplifier.simplify maxPlanObjects reversed functionNames constant n) e)
      (fun s e' => simplifies (builder s) e e')).
    { apply (valid_state s0 s1) in Hvs; [|done].
      pose proof (simplify_step_spec n _ s1 e IH Hw (proj1 Hs1) Hvs Ht) as Hfin.
      intros s Hs Hext. specialize (Hfin s Hs Hext).
      destruct (ExprSimplifier.simplify_step _ _ _ _ _ e s) as [[e' s']|] eqn:Hrun; [|done].
      destruct Hfin as (? & ? & ? & ?). split; [done|]. split; [done|]. split; [done..|].
      intros Hlit. destruct e; try done. rewrite simplify_step_literal in Hrun. congruence. }
    eapply builds_bind; [exact Hstep|]. cbn beta. intros s2 e' Hs2 Hext2 He'.
    eapply builds_bind; [apply emplace_spec; [|done]|].
    { apply (valid_state s1); [done|]. by apply (valid_state s0). }
    intros s3 _ _ Hext3 _. apply builds_ret. intros s _ Hext.
    apply (simplifies_state s2); [|done]. by transitivity s3.
Qed.

(** C11: [simplify] ends - an expansion that is simplified again is smaller than what
    it expands - and its result has the type of the expression and its value on
    every row, reads no column the expression does not, and is not larger.  It
    throws for reasons of its own only, never for lack of fuel. *)
Theorem simplify_preserves (s : Simplifier T V) e fuel :
  arena_ok (builder s) -> memo_ok s -> valid (builder s) e -> typed e = true -> weight e <= fuel ->
  match ExprSimplifier.simplify maxPlanObjects reversed functionNames constant fuel e s with
  | Ok (e', s') =>
      arena_ok (builder s') /\ memo_ok s' /\ valid (builder s') e' /\ typed e' = true /\
      Expr.expr_type e' = Expr.expr_type e /\
      (forall r, row_ok types r -> eval e' r = eval e r) /\
      Expr.columns e' ⊆ Expr.columns e /\ weight e' <= weight e
  | Throw err => err <> OutOfFuel
  end.
Proof.
  intros Hb Hm Hv Ht Hw.
  pose proof (simplify_spec fuel s e Hw Hv Ht s (conj Hb Hm) (PreOrder_Reflexive (builder s))) as Hs.
  destruct (ExprSimplifier.simplify _ _ _ _ fuel e s) as [[e' s']|]; [|done].
  destruct Hs as ([Hb' Hm'] & _ & [[Hv' Ht' []] _ _]). done.
Qed.
End Rules.
