(* ===== verification/NonNullSimplifiers.v ===== *)
(** * Simplifying under non-null columns

    [isKnownNonNull] and [simplify(expr, nonNullColumns)] of
    [axiom/optimizer/v2/ExprSimplifier.cpp].

    The theorem: on the rows in which the columns are not null the result has the
    value of the expression. *)

From Stdlib Require Import ZArith Lia.
From S2P Require Import Prelude Domains DomainSets Expressions ExprDomains SqlSemantics Builders ExprFactories ExprSimplifiers.

Local Open Scope nat_scope.
Set Warnings "-register-all".

Module NonNullSimplifier.
Section NonNullSimplifier.
Context {T V : Type} `{TypeOps T} `{VariantOps V} `{FunctionRegistry}.
Variable maxPlanObjects : nat.
Variable reversibleFunctions : string -> option string.
Variable functionNames : FunctionNames.
Variable nonNullColumns : gset nat.

Abbreviation Expr := (Expr T V).
Abbreviation B := (StateM (Builder T V)).
Abbreviation F f := (f maxPlanObjects reversibleFunctions).

Fixpoint isKnownNonNull (expr : Expr) : bool :=
  match expr with
  | ColumnExpr column => bool_decide (column_id column ∈ nonNullColumns)
  | LiteralExpr literal _ _ => negb (isNull literal)
  | CallExpr name args _ _ _ => String.eqb name kCoalesce && existsb isKnownNonNull args
  | _ => false
  end.

(** The loop over the arguments, at [args()[i]]: an argument to return, or whether
    the arguments change and, if so, to what. *)
Definition simplify_args (simplify : Expr -> B Expr) (isCoalesce : bool) (all : list Expr) :
    nat -> bool -> list Expr -> list Expr -> B (Expr + bool * list Expr) :=
  fix loop i changed rewrittenArgs args :=
    match args with
    | [] => mret (inr (changed, rewrittenArgs))
    | argument :: args =>
        simplified ← simplify argument;
        let rewrittenArgs :=
          if negb (Expr.same simplified argument) && negb changed then take i all else rewrittenArgs in
        let changed := negb (Expr.same simplified argument) || changed in
        if isCoalesce && ExprSimplifier.isConstantNull simplified then
          loop (S i) true (if changed then rewrittenArgs else take i all) args
        else
          let rewrittenArgs := if changed then rewrittenArgs ++ [simplified] else rewrittenArgs in
          if isCoalesce && isKnownNonNull simplified then
            mret (if Nat.eqb i 0 then inl simplified
                  else if (i + 1 <? length all) && negb changed then inr (true, take (i + 1) all)
                  else inr (changed, rewrittenArgs))
          else loop (S i) changed rewrittenArgs args
    end.

(** [IS NULL] of a known non-null value, and the equality of one with itself. *)
Definition known_result (name : string) (args : list Expr) : Result (option bool) :=
  if name_is (Some name) (isNullName functionNames) then
    match args with
    | argument :: _ =>
        if isKnownNonNull argument then Ok (Some false) else Ok None
    | [] => Throw (VeloxUnreachable "args()[0]")
    end
  else if name_is (Some name) (equality functionNames) then
    match args with
    | lhs :: rhs :: _ =>
        Ok (if Expr.same lhs rhs && isPrimitiveType (Expr.expr_type lhs) &&
               negb (Expr.containsNonDeterministic lhs) && isKnownNonNull lhs
            then Some true else None)
    | _ => Throw (VeloxUnreachable "args()[1]")
    end
  else Ok None.

(** The call, after the loop. *)
Definition simplified_call (expr : Expr) (name : string) (args : list Expr) (type : T)
    (functions : FunctionSet) (changed : bool) (rewrittenArgs : list Expr) : B Expr :=
  known ← lift (known_result name (if changed then rewrittenArgs else args));
  match known with
  | Some value => Builder.makeBoolean maxPlanObjects value
  | None =>
      if negb changed then mret expr
      else if String.eqb name kCoalesce && (length rewrittenArgs <=? 1) then
        match rewrittenArgs with
        | [] => Builder.makeNull maxPlanObjects type
        | front :: _ => mret front
        end
      else F ExprFactory.rebuildCall name type functions rewrittenArgs
  end.

Fixpoint simplify (expr : Expr) : B Expr :=
  match expr with
  | FieldExpr base field type _ =>
      base' ← simplify base;
      if Expr.same base' base then mret expr
      else ExprFactory.rebuildField maxPlanObjects field type base'
  | LambdaExpr args body type _ =>
      body' ← simplify body;
      if Expr.same body' body then mret expr
      else ExprFactory.rebuildLambda maxPlanObjects args type body'
  | CallExpr name args type functions _ =>
      rewritten ← simplify_args (fun arg => simplify arg) (String.eqb name kCoalesce) args 0 false [] args;
      match rewritten with
      | inl simplified => mret simplified
      | inr (changed, rewrittenArgs) =>
          simplified_call expr name args type functions changed rewrittenArgs
      end
  | _ => mret expr
  end.
End NonNullSimplifier.
End NonNullSimplifier.

(** No lambda of the expression binds one of the columns. *)
Fixpoint binds_none {T V} (columns : gset nat) (e : Expr T V) : bool :=
  match e with
  | CallExpr _ args _ _ _ => forallb (binds_none columns) args
  | FieldExpr base _ _ _ => binds_none columns base
  | LambdaExpr args body _ _ =>
      forallb (fun c => negb (bool_decide (column_id c ∈ columns))) args && binds_none columns body
  | _ => true
  end.

Section NonNull.
Context {T V : Type} `{TypedValues T V} `{FunctionRegistry} `{!VariantEq V}.
Context (functionNames : FunctionNames) (types : gmap nat T)
  (eval : Expr T V -> Row V -> option V)
  (less : V -> V -> bool) (reversed : string -> option string)
  (constant : Expr T V -> option (V * T)) (maxPlanObjects : nat).
Context (Heval : EvalLaws functionNames types eval less reversed constant)
  (Hreversed : reversible_ok functionNames reversed)
  (Hfull : full_registry functionNames = true).
Context (nonNullColumns : gset nat).
Abbreviation Expr := (Expr T V).
Abbreviation typed := (typed functionNames types).
Abbreviation truth := (truth_of eval).
Abbreviation implements := (implements functionNames types eval).
Abbreviation isKnownNonNull := (NonNullSimplifier.isKnownNonNull nonNullColumns).

(** A row in which the columns are not null. *)
Definition non_null_row (r : Row V) : Prop :=
  row_ok types r /\ forall c, c ∈ nonNullColumns -> r !! c <> None.

(** [e'] stands for [e] on such rows. *)
Record rewrites (b : Builder T V) (e e' : Expr) : Prop := {
  rewrites_valid : valid b e';
  rewrites_typed : typed e' = true;
  rewrites_type : Expr.expr_type e' = Expr.expr_type e;
  rewrites_eval r : non_null_row r -> eval e' r = eval e r;
  rewrites_columns : Expr.columns e' ⊆ Expr.columns e;
  rewrites_literal : Builder.is_literal_expr e = true -> e' = e
}.

Lemma rewrites_refl b e : valid b e -> typed e = true -> rewrites b e e.
Proof. by split. Qed.

Lemma rewrites_extends b b' e e' : extends b b' -> rewrites b e e' -> rewrites b' e e'.
Proof. intros Hext []. split; [by eapply valid_extends|done..]. Qed.

Lemma all_rewrites_extend b b' es es' :
  extends b b' -> Forall2 (rewrites b) es es' -> Forall2 (rewrites b') es es'.
Proof. intros Hext Hes. eapply Forall2_impl; [exact Hes|]. intros ? ?. by apply rewrites_extends. Qed.

Lemma rewrites_trans_implements b e e1 e' :
  Builder.is_literal_expr e = false -> Expr.expr_type e1 = Expr.expr_type e ->
  (forall r, non_null_row r -> eval e1 r = eval e r) -> Expr.columns e1 ⊆ Expr.columns e ->
  implements b e1 e' -> rewrites b e e'.
Proof.
  intros Hl Ht He Hc [Hv Hty []]. split; [done|done|congruence| |by etransitivity|congruence].
  intros r Hr. rewrite refines_eval, He by apply Hr || done. done.
Qed.

(** *** Known non-null *)

Lemma first_non_null_some (l l' : list (option V)) :
  Exists (fun x => x <> None) l -> first_non_null (l ++ l') = first_non_null l /\ first_non_null l <> None.
Proof.
  induction 1 as [x l Hx|x l _ IH]; simpl; [by destruct x|]. by destruct x.
Qed.

Lemma known_non_null_eval e r :
  (forall c, c ∈ nonNullColumns -> r !! c <> None) -> isKnownNonNull e = true -> eval e r <> None.
Proof.
  intros Hr. induction e as [c|v t i|name args t fs i IH| | |] using Expr_nested_ind; try done; simpl.
  - intros Hc%bool_decide_eq_true. rewrite (eval_column_at _ _ _ _ _ _ Heval). by apply Hr.
  - intros Hv%negb_true_iff. rewrite (eval_literal_at _ _ _ _ _ _ Heval). unfold literal_value. by rewrite Hv.
  - intros [->%String.eqb_eq Hany]%andb_true_iff. rewrite (eval_coalesce _ _ _ _ _ _ Heval).
    apply existsb_exists in Hany as (e & He & Hk).
    apply (first_non_null_some _ []). apply list.Exists_exists. exists (eval e r).
    split; [|rewrite List.Forall_forall in IH; by apply IH].
    apply list_elem_of_In, in_map_iff. by exists e.
Qed.

Lemma isKnownNonNull_eval e r : non_null_row r -> isKnownNonNull e = true -> eval e r <> None.
Proof. intros [_ Hr]. by apply known_non_null_eval. Qed.

(** *** The loop over the arguments *)

Lemma rewrites_lists b args full :
  Forall2 (rewrites b) args full ->
  Forall (valid b) full /\ Forall (fun e => typed e = true) full /\ Forall2 same_shape args full /\
  flat_map Expr.columns full ⊆ flat_map Expr.columns args /\
  forall r, non_null_row r -> Forall2 (same_at eval r r) full args.
Proof.
  induction 1 as [|e e' args full [] _ (? & ? & ? & ? & ?)].
  { repeat split; constructor || done. }
  repeat split; try by constructor.
  - simpl. set_solver.
  - constructor; [by split; [|apply rewrites_eval0]|auto].
Qed.

Lemma rewrites_map b args full r :
  Forall2 (rewrites b) args full -> non_null_row r ->
  map (fun e => eval e r) full = map (fun e => eval e r) args.
Proof.
  intros Hargs Hr. induction Hargs as [|e e' args full He _ IH]; [done|]. simpl.
  by rewrite IH, (rewrites_eval _ _ _ He r Hr).
Qed.

(** The arguments after the loop stand for those before it. *)
Record args_stand (b : Builder T V) (isCoalesce : bool) (all final : list Expr) : Prop := {
  args_prefix : exists prefix suffix full, all = prefix ++ suffix /\
    Forall2 (rewrites b) prefix full /\ final = kept isCoalesce full /\
    (suffix = [] \/ isCoalesce = true /\ Exists (fun e => isKnownNonNull e = true) full)
}.

Definition loop_result (b : Builder T V) (isCoalesce : bool) (all : list Expr)
    (result : Expr + bool * list Expr) : Prop :=
  match result with
  | inl e' => isCoalesce = true /\ isKnownNonNull e' = true /\
      exists front rest, all = front :: rest /\ rewrites b front e'
  | inr (changed, rewrittenArgs) => args_stand b isCoalesce all (if changed then rewrittenArgs else all)
  end.

Lemma kept_app isCoalesce (l l' : list Expr) :
  kept isCoalesce (l ++ l') = kept isCoalesce l ++ kept isCoalesce l'.
Proof. apply List.filter_app. Qed.

(** An argument that is kept. *)
Lemma kept_one isCoalesce (e : Expr) :
  isCoalesce && ExprSimplifier.isConstantNull e = false -> kept isCoalesce [e] = [e].
Proof. unfold kept. simpl. by intros ->. Qed.

Lemma take_length_app (l l' : list Expr) : take (length l) (l ++ l') = l.
Proof. by rewrite take_app_length. Qed.

Lemma simplify_args_loop simplify isCoalesce (before args : list Expr) :
  Forall (fun e => forall b, arena_ok b -> valid b e -> typed e = true -> builds b (simplify e) (fun b' e' => rewrites b' e e')) args ->
  forall b0 full changed rewrittenArgs, arena_ok b0 ->
  Forall (valid b0) args -> Forall (fun e => typed e = true) args ->
  Forall2 (rewrites b0) before full ->
  (if changed : bool then rewrittenArgs = kept isCoalesce full
   else full = before /\ kept isCoalesce full = full) ->
  builds b0 (NonNullSimplifier.simplify_args nonNullColumns simplify isCoalesce (before ++ args)
               (length before) changed rewrittenArgs args)
    (fun b result => loop_result b isCoalesce (before ++ args) result).
Proof.
  intros Hsimp. revert before. induction Hsimp as [|e args He _ IH];
    intros before b0 full changed rewrittenArgs Hb0 Hv Ht Hdone Hinv.
  { apply builds_ret. intros b _ Hext. simpl. rewrite app_nil_r. split.
    exists before, [], full. rewrite app_nil_r. split; [done|]. split; [by apply (all_rewrites_extend b0)|].
    split; [|by left]. destruct changed; [done|]. destruct Hinv as [-> ->]. done. }
  inversion Hv as [|? ? Hve Hvs]; inversion Ht as [|? ? Hte Hts]; subst.
  cbn [NonNullSimplifier.simplify_args].
  eapply builds_bind; [by apply He|]. cbn beta. intros b1 e' Hb1 Hext1 He'.
  assert (Hvs1 : Forall (valid b1) args) by (by eapply valids_extends).
  assert (Hdone1 : Forall2 (rewrites b1) before full) by (by apply (all_rewrites_extend b0)).
  assert (Hstep : Forall2 (rewrites b1) (before ++ [e]) (full ++ [e'])).
  { apply Forall2_app; [done|]. by constructor. }
  rewrite take_length_app. cbv zeta.
  set (changed' := negb (Expr.same e' e) || changed).
  set (rewritten' := if negb (Expr.same e' e) && negb changed then before else rewrittenArgs).
  assert (Hinv' : if changed' then rewritten' = kept isCoalesce full
                  else e' = e /\ full = before /\ kept isCoalesce full = full /\ changed = false).
  { subst changed' rewritten'. destruct (Expr.same e' e) eqn:Hs; simpl.
    - destruct changed; [done|]. destruct Hinv. repeat split; try done.
      apply (same_eq b1); [apply He'|by eapply valid_extends|done].
    - destruct changed; [done|]. by destruct Hinv as [-> ->]. }
  clearbody changed' rewritten'.
  replace (S (length before)) with (length (before ++ [e])) by (rewrite length_app; simpl; lia).
  replace (before ++ e :: args) with ((before ++ [e]) ++ args) by (by rewrite <- app_assoc).
  destruct (isCoalesce && ExprSimplifier.isConstantNull e') eqn:Hnull.
  - apply (IH (before ++ [e]) b1 (full ++ [e'])); [done..|].
    rewrite kept_app. unfold kept at 2. simpl. rewrite Hnull. simpl. rewrite app_nil_r.
    destruct changed'; [done|]. by destruct Hinv' as (_ & -> & -> & _).
  - pose proof (kept_one isCoalesce e' Hnull) as Hone.
    assert (Hnext : if changed' then rewritten' ++ [e'] = kept isCoalesce (full ++ [e'])
      else full ++ [e'] = before ++ [e] /\ kept isCoalesce (full ++ [e']) = full ++ [e']).
    { rewrite kept_app, Hone. destruct changed'; [by rewrite Hinv'|].
      by destruct Hinv' as (-> & -> & -> & _). }
    destruct (isCoalesce && isKnownNonNull e') eqn:Hknown.
    2: { apply (IH (before ++ [e]) b1 (full ++ [e'])); [done..|]. by destruct changed'. }
    apply andb_true_iff in Hknown as [-> Hknown].
    apply builds_ret. intros b Hb Hext.
    assert (Hstep' : Forall2 (rewrites b) (before ++ [e]) (full ++ [e'])).
    { by apply (all_rewrites_extend b1). }
    destruct (Nat.eqb_spec (length before) 0) as [Hz|_].
    { destruct before; [|done]. split; [done|]. split; [done|]. exists e, args. split; [done|].
      by apply (rewrites_extends b1). }
    assert (Hfinal : forall final, final = kept true (full ++ [e']) ->
      args_stand b true ((before ++ [e]) ++ args) final).
    { intros final ->. split. exists (before ++ [e]), args, (full ++ [e']).
      repeat split; try done. right. split; [done|]. apply Exists_app. right. by constructor. }
    assert (Htake : take (length before + 1) ((before ++ [e]) ++ args) = before ++ [e]).
    { replace (length before + 1) with (length (before ++ [e])) by (rewrite length_app; simpl; lia).
      apply take_length_app. }
    rewrite Htake. destruct changed'; rewrite ?andb_false_r, ?andb_true_r; simpl.
    + by apply Hfinal.
    + destruct Hnext as [Hn1 Hn2]. destruct (Nat.ltb_spec (length before + 1) (length ((before ++ [e]) ++ args))) as [_|Hlen].
      * apply Hfinal. by rewrite Hn2.
      * apply Hfinal. rewrite !length_app in Hlen. destruct args; [|simpl in Hlen; lia].
        by rewrite app_nil_r, Hn2.
Qed.

(** *** Calls *)

(** A call over arguments that stand for its own. *)
Record call_stands (b : Builder T V) (name : string) (all : list Expr) (t : T) (final : list Expr) : Prop := {
  stands_valid : Forall (valid b) final;
  stands_typed fs i : typed (CallExpr name final t fs i) = true;
  stands_columns : flat_map Expr.columns final ⊆ flat_map Expr.columns all;
  stands_eval fs i fs' i' r : non_null_row r ->
    eval (CallExpr name final t fs i) r = eval (CallExpr name all t fs' i') r
}.

Lemma args_call_stands b name all t fs i final :
  typed (CallExpr name all t fs i) = true ->
  args_stand b (String.eqb name kCoalesce) all final -> call_stands b name all t final.
Proof.
  intros Ht [(prefix & suffix & full & -> & Hfull' & -> & Hsuffix)].
  destruct (rewrites_lists _ _ _ Hfull') as (Hv & Hty & Hshape & Hc & Hsame).
  destruct (String.eqb_spec name kCoalesce) as [->|Hname].
  - pose proof (kept_sublist true full) as Hsub.
    assert (Htyped : forall fs i, typed (CallExpr kCoalesce (kept true full) t fs i) = true).
    { intros fs' i'. apply typed_call. split; [by eapply sublist_Forall|].
      apply typed_call in Ht as [_ Hw]. unfold well_formed_call in *.
      change (classify functionNames kCoalesce) with CoalesceName in *. cbv iota in *.
      rewrite forallb_app in Hw. apply andb_true_iff in Hw as [Hw _].
      assert (Hwf : forallb (of_type t) full = true).
      { rewrite <- Hw. exact (same_shape_all (is_type t) _ _ Hshape). }
      clear Hw. rename Hwf into Hw. rewrite forallb_forall in *.
      intros e He. apply Hw, list_elem_of_In. eapply elem_of_sublist; [by apply list_elem_of_In|done]. }
    split; [by eapply sublist_Forall|done| |].
    + etransitivity; [apply (sublist_columns _ _ Hsub)|]. rewrite flat_map_app. clear -Hc. set_solver.
    + intros fs' i' fs'' i'' r Hr. rewrite !(eval_coalesce _ _ _ _ _ _ Heval).
      rewrite (first_non_null_kept _ _ _ _ _ _ Heval), (rewrites_map _ _ _ _ Hfull' Hr).
      destruct Hsuffix as [->|[_ Hknown]]; [by rewrite app_nil_r|].
      rewrite map_app. symmetry. apply first_non_null_some. rewrite <- (rewrites_map _ _ _ _ Hfull' Hr).
      apply list.Exists_exists in Hknown as (e & He & Hk). apply list.Exists_exists.
      exists (eval e r). split; [apply list_elem_of_In, in_map_iff; exists e; by rewrite <- list_elem_of_In|].
      by apply isKnownNonNull_eval.
  - assert (suffix = []) as -> by (by destruct Hsuffix as [|[? _]]). rewrite app_nil_r in *. rewrite kept_all.
    split; [done| |done|].
    + intros fs' i'. by eapply (typed_replace functionNames types).
    + intros fs' i' fs'' i'' r Hr. apply (eval_call _ _ _ _ _ _ Heval); [by apply Hsame|apply Hr..].
Qed.

Lemma stands_implements b b' name all t fs i final fs' i' e' :
  extends b b' -> call_stands b name all t final ->
  implements b' (CallExpr name final t fs' i') e' -> rewrites b' (CallExpr name all t fs i) e'.
Proof.
  intros Hext [] He'. apply (rewrites_trans_implements _ _ (CallExpr name final t fs' i')); [done|done| |done|done].
  intros r Hr. by apply stands_eval0.
Qed.

(** The results that are known. *)
Lemma known_result_spec b name all t fs i final value :
  typed (CallExpr name all t fs i) = true -> call_stands b name all t final ->
  NonNullSimplifier.known_result functionNames nonNullColumns name final = Ok (Some value) ->
  t = booleanType /\ forall r, non_null_row r -> truth (CallExpr name all t fs i) r = Some value.
Proof.
  intros Ht Hst. unfold NonNullSimplifier.known_result.
  assert (Htruth : forall r, non_null_row r ->
    truth (CallExpr name all t fs i) r = truth (CallExpr name final t fs i) r).
  { intros r Hr. unfold truth_of. by rewrite <- (stands_eval _ _ _ _ _ Hst fs i fs i r Hr). }
  apply typed_call in Ht as [_ Hw]. pose proof (stands_typed _ _ _ _ _ Hst fs i) as Htf.
  apply typed_call in Htf as [Htf Hwf].
  destruct (name_is (Some name) (isNullName functionNames)) eqn:Hn.
  - apply bool_decide_eq_true in Hn. destruct final as [|arg final]; [done|].
    destruct (isKnownNonNull arg) eqn:Hk; [|done]. intros [= <-].
    assert (Hclass : classify functionNames name = IsNullName).
    { apply (classify_registered _ Hfull). unfold name_classes. rewrite <- Hn. clear. set_solver. }
    unfold well_formed_call in Hwf. rewrite Hclass in Hwf.
    apply andb_true_iff in Hwf as [->%bool_decide_eq_true Hlen%Nat.eqb_eq]. split; [done|].
    destruct final; [|done]. intros r Hr. rewrite Htruth by done.
    rewrite (truth_isNull_at _ _ _ _ _ _ Heval) by done.
    pose proof (isKnownNonNull_eval arg r Hr Hk) as Hne. by destruct (eval arg r).
  - destruct (name_is (Some name) (equality functionNames)) eqn:Heq; [|done].
    apply bool_decide_eq_true in Heq. destruct final as [|lhs [|rhs final]]; try done.
    destruct (_ && isKnownNonNull lhs) eqn:Hk; [|done]. intros [= <-].
    rewrite !andb_true_iff in Hk. destruct Hk as [[[Hs Hp] _] Hk].
    unfold well_formed_call in Hwf. rewrite (equality_class _ Hfull _ (eq_sym Heq)) in Hwf.
    apply andb_true_iff in Hwf as [->%bool_decide_eq_true [Hlen%Nat.eqb_eq _]%andb_true_iff]. split; [done|].
    destruct final; [|done]. intros r Hr. rewrite Htruth by done.
    pose proof (stands_valid _ _ _ _ _ Hst) as Hv. inversion Hv as [|? ? Hvl Hvs]; inversion Hvs; subst.
    assert (lhs = rhs) as <- by (by apply (same_eq b)).
    rewrite (truth_compare_at _ _ _ _ _ _ Heval Equal) by done.
    inversion Htf as [|? ? Htl _]; subst. pose proof (eval_typed _ _ _ _ _ _ Heval lhs r Htl (proj1 Hr)) as Hty.
    pose proof (isKnownNonNull_eval lhs r Hr Hk) as Hne. destruct (eval lhs r) as [u|]; [|done].
    destruct Hty as [Hnull _]. simpl.
    rewrite (less_same_kind _ _ _ _ _ (eval_sql _ _ _ _ _ _ Heval (mkColumn 0 booleanType) ∅)) by done.
    by rewrite vlt_irrefl.
Qed.

Lemma known_rewrites (b0 : Builder T V) name all t fs i value :
  (t = booleanType /\ forall r, non_null_row r -> truth (CallExpr name all t fs i) r = Some value) ->
  typed (CallExpr name all t fs i) = true ->
  builds b0 (Builder.makeBoolean maxPlanObjects value)
    (fun b e' => rewrites b (CallExpr name all t fs i) e').
Proof.
  intros [-> Htr] Ht. eapply builds_weaken.
  - apply (makeLiteral_implements _ _ _ _ _ _ _ Heval _ _ _ 0), has_type_bool.
  - intros b e' _ _ [He' [j ->]].
    apply (rewrites_trans_implements _ _ (LiteralExpr (of_bool value) booleanType 0)); [done|done| | |done].
    + intros r Hr. rewrite (eval_literal_at _ _ _ _ _ _ Heval), (eval_truth _ _ _ _ _ _ Heval) by apply Hr || done.
      rewrite Htr by done. unfold literal_value. by rewrite isNull_of_bool.
    + simpl. clear. set_solver.
Qed.

Lemma simplified_call_spec (b0 : Builder T V) name all t fs i (changed : bool) rewrittenArgs :
  let e := CallExpr name all t fs i in
  valid b0 e -> typed e = true ->
  args_stand b0 (String.eqb name kCoalesce) all (if changed then rewrittenArgs else all) ->
  builds b0 (NonNullSimplifier.simplified_call maxPlanObjects reversed functionNames nonNullColumns
               e name all t fs changed rewrittenArgs)
    (fun b e' => rewrites b e e').
Proof.
  intros e Hv Ht Hargs. pose proof (args_call_stands _ _ _ _ _ _ _ Ht Hargs) as Hst.
  unfold NonNullSimplifier.simplified_call.
  set (final := if changed then rewrittenArgs else all) in *.
  eapply (builds_bind _ _ _ (fun _ known =>
    NonNullSimplifier.known_result functionNames nonNullColumns name final = Ok known)).
  { apply builds_lift; [|done]. intros err. unfold NonNullSimplifier.known_result.
    destruct (name_is _ _); [destruct final; [by intros [= <-]|by destruct (isKnownNonNull _)]|].
    destruct (name_is _ _); [|done]. by destruct final as [|? [|]]; [intros [= <-]..|]. }
  intros b1 [value|] Hb1 Hext1 Hknown.
  { apply known_rewrites; [by eapply known_result_spec|done]. }
  destruct changed; simpl negb; cbv iota.
  2: { apply builds_ret. intros b _ Hext. apply rewrites_refl; [|done].
    eapply valid_extends; [exact Hext|]. by eapply valid_extends. }
  assert (Hrebuild : builds b1 (ExprFactory.rebuildCall maxPlanObjects reversed name t fs rewrittenArgs)
    (fun b e' => rewrites b e e')).
  { eapply builds_weaken.
    - apply (makeCall_implements _ _ _ _ _ _ _ Heval Hreversed b1 name t rewrittenArgs _ fs i); [|apply Hst].
      eapply valids_extends; [exact Hext1|]. apply Hst.
    - cbn beta. intros b e' _ Hext He'. eapply stands_implements; [|exact Hst|exact He'].
      by transitivity b1. }
  destruct (String.eqb_spec name kCoalesce) as [->|]; [|exact Hrebuild]. simpl andb.
  destruct Hst as [Hvf Htf Hcf Hef]. subst final. simpl in Hcf.
  destruct rewrittenArgs as [|front [|]]; [| |exact Hrebuild].
  - simpl. eapply builds_weaken.
    + apply (makeLiteral_implements _ _ _ _ _ _ _ Heval _ _ _ 0). apply has_type_null, isNull_null_of.
    + intros b e' _ _ [He' [j ->]].
      apply (rewrites_trans_implements _ _ (LiteralExpr (null_of (type_kind t)) t 0)); [done|done| | |done].
      * intros r Hr. unfold e. rewrite <- (Hef fs i fs i r Hr), (eval_coalesce _ _ _ _ _ _ Heval).
        rewrite (eval_literal_at _ _ _ _ _ _ Heval). unfold literal_value. by rewrite isNull_null_of.
      * simpl. clear. set_solver.
  - simpl. apply builds_ret. intros b _ Hext. specialize (Htf fs i). apply typed_call in Htf as [Htf Hw].
    inversion Hvf as [|? ? Hvfr _]; inversion Htf as [|? ? Htfr _]; subst.
    unfold well_formed_call in Hw. change (classify functionNames kCoalesce) with CoalesceName in Hw.
    cbv iota in Hw. simpl in Hw. rewrite andb_true_r in Hw. apply bool_decide_eq_true in Hw.
    split; [|done|done| | |done].
    + eapply valid_extends; [exact Hext|]. by eapply valid_extends.
    + intros r Hr. unfold e. rewrite <- (Hef fs i fs i r Hr), (eval_coalesce _ _ _ _ _ _ Heval).
      simpl. by destruct (eval front r).
    + simpl. simpl in Hcf. by rewrite app_nil_r in Hcf.
Qed.

(** *** The whole expression *)

Lemma simplify_under_spec e (b0 : Builder T V) :
  arena_ok b0 -> valid b0 e -> typed e = true -> binds_none nonNullColumns e = true ->
  builds b0 (NonNullSimplifier.simplify maxPlanObjects reversed functionNames nonNullColumns e)
    (fun b e' => rewrites b e e').
Proof.
  assert (Hself : forall e (b0 : Builder T V), valid b0 e -> typed e = true ->
    builds b0 (mret e : StateM (Builder T V) Expr) (fun b e' => rewrites b e e')).
  { intros e1 b1 Hv Ht. apply builds_ret. intros b _ Hext. apply rewrites_refl; [by eapply valid_extends|done]. }
  revert b0. induction e as [c|v t i|name args t fs i IH|base f t i IH|args body t i IH|cs fs t i]
    using Expr_nested_ind; intros b0 Hb0 Hv Ht Hbinds; try (by apply Hself);
    pose proof (valid_children b0 _ Hb0 Hv) as Hch; simpl in Hch.
  - apply typed_call in Ht as Ht'. destruct Ht' as [Hta _].
    simpl in Hbinds. rewrite forallb_forall in Hbinds. simpl.
    eapply builds_bind.
    { apply (simplify_args_loop _ _ [] args) with (full := []); [|done|done|done|constructor|done].
      rewrite List.Forall_forall in *. intros e He b Hb Hve Hte. by apply IH; [..|apply Hbinds]. }
    cbn beta. intros b1 [e'|[changed rewrittenArgs]] Hb1 Hext1 Hres; simpl app in *.
    + destruct Hres as (Hname%String.eqb_eq & Hk & front & rest & -> & [Hv' Ht' Hty Hev Hc _]).
      apply builds_ret. intros b _ Hext. subst name.
      apply typed_call in Ht as [_ Hw]. unfold well_formed_call in Hw.
      change (classify functionNames kCoalesce) with CoalesceName in Hw. cbv iota in Hw.
      simpl in Hw. apply andb_true_iff in Hw as [Hw%bool_decide_eq_true _].
      split; [by eapply valid_extends|done|by rewrite Hty| |simpl; clear -Hc; set_solver|done].
      intros r Hr. rewrite (eval_coalesce _ _ _ _ _ _ Heval). simpl. rewrite <- Hev by done.
      pose proof (isKnownNonNull_eval e' r Hr Hk) as Hne. by destruct (eval e' r).
    + apply simplified_call_spec; [by eapply valid_extends|done|done].
  - simpl. inversion Hch as [|? ? Hvb _]; subst.
    eapply builds_bind; [by apply IH|]. cbn beta. intros b1 base' Hb1 Hext1 [Hvb' Htb Hty Hev Hc _].
    destruct (Expr.same base' base).
    { apply Hself; [by eapply valid_extends|done]. }
    eapply builds_weaken; [apply make_spec; [done|done|by each]|].
    cbn beta. intros b e' _ _ [He' [j ->]]. split; [done|done|done| |done|done].
    intros r Hr. apply (eval_field _ _ _ _ _ _ Heval); [|apply Hr..]. split; [done|by apply Hev].
  - simpl. apply Forall_app in Hch as [Hcols Hbody]. inversion Hbody as [|? ? Hvb _]; subst.
    apply andb_true_iff in Ht as Ht'. destruct Ht' as [Htc Htb].
    simpl in Hbinds. apply andb_true_iff in Hbinds as [Hnone Hbinds].
    eapply builds_bind; [by apply IH|]. cbn beta. intros b1 body' Hb1 Hext1 [Hvb' Htb' Hty Hev Hc _].
    destruct (Expr.same body' body).
    { apply Hself; [by eapply valid_extends|done]. }
    eapply builds_weaken.
    { apply make_spec; [done|done|]. simpl. apply Forall_app. split; [by eapply valids_extends|by each]. }
    cbn beta. intros b e' _ _ [He' [j ->]]. split; [done| |done| | |done].
    + simpl. apply andb_true_iff. by split.
    + intros r Hr. apply (eval_lambda_at _ _ _ _ _ _ _ _ _ _ _ _ _ Heval); [|apply Hr].
      intros r' Hr' Hrow. split; [done|]. apply Hev. split; [done|]. intros c Hcol.
      rewrite Hrow; [by apply Hr|]. intros (c' & <- & Hin)%in_map_iff.
      rewrite forallb_forall in Hnone. specialize (Hnone c' Hin). apply negb_true_iff in Hnone.
      by apply bool_decide_eq_false in Hnone.
    + simpl. intros c. rewrite !list_elem_of_In, !filter_In, <- !list_elem_of_In.
      intros [Hin ?]. split; [by apply Hc|done].
Qed.

(** C12: Under columns that are not null - which no lambda binds - [simplify] returns,
    or throws for reasons of its own; what it returns has the type of the expression,
    on every row in which these columns are not null its value, and no other
    columns: COALESCE may stop at its first argument that is not null, IS NULL of
    such an argument is false, and such an argument of a primitive type equals
    itself. *)
Theorem simplify_under_non_null (b : Builder T V) e :
  arena_ok b -> valid b e -> typed e = true -> binds_none nonNullColumns e = true ->
  match NonNullSimplifier.simplify maxPlanObjects reversed functionNames nonNullColumns e b with
  | Ok (e', b') =>
      arena_ok b' /\ valid b' e' /\ typed e' = true /\ Expr.expr_type e' = Expr.expr_type e /\
      Expr.columns e' ⊆ Expr.columns e /\
      forall r, row_ok types r -> (forall c, c ∈ nonNullColumns -> r !! c <> None) ->
        eval e' r = eval e r
  | Throw err => err <> OutOfFuel
  end.
Proof.
  intros Hb Hv Ht Hbinds.
  pose proof (simplify_under_spec e b Hb Hv Ht Hbinds b Hb (PreOrder_Reflexive b)) as Hs.
  destruct (NonNullSimplifier.simplify _ _ _ _ e b) as [[e' b']|]; [|done].
  destruct Hs as (Hb' & _ & [? ? ? Hev ? _]). do 5 (split; [done|]).
  intros r Hr Hn. by apply Hev.
Qed.
End NonNull.
