(* ===== verification/FilterSimplifiers.v ===== *)
(** * Simplifying filters

    [ExprSimplifier::simplifyFilter] of [axiom/optimizer/v2/ExprSimplifier.cpp],
    with [tryFactorOr]: the conjuncts of a filter are simplified, the conjuncts the
    disjuncts of an OR share are taken out of it, and the conjuncts on one integral
    column become a single filter of the intersection of their domains.

    The theorem: the filter is reported never to pass only if it never does, and
    otherwise the conjuncts it leaves accept the rows it accepts.

    A [folly::F14FastSet] of expressions is the set of their ids; the order in
    which a [folly::F14FastMap] is traversed is a parameter. *)

From Stdlib Require Import ZArith Lia.
From S2P Require Import Prelude Domains DomainSets Expressions ExprDomains IntegralDomains SqlSemantics Builders ExprFactories DomainFilters ExprSimplifiers.

Local Open Scope nat_scope.
Set Warnings "-register-all".

Module FilterSimplifier.
Section FilterSimplifier.
Context {T V : Type} `{TypeOps T} `{VariantOps V} `{FunctionRegistry}.
Variable maxPlanObjects : nat.
Variable reversibleFunctions : string -> option string.
Variable functionNames : FunctionNames.
Variable constant : Expr T V -> option (V * T).

Abbreviation Expr := (Expr T V).
Abbreviation B := (StateM (Builder T V)).
Abbreviation M := (StateM (Simplifier T V)).
Abbreviation F f := (f maxPlanObjects reversibleFunctions).

(** A set of pointers. *)
Definition ids (es : list Expr) : gset nat := list_to_set (map Expr.expr_id es).
Definition contains (set : gset nat) (e : Expr) : bool := bool_decide (Expr.expr_id e ∈ set).

(** The disjuncts, each once. *)
Fixpoint unique (seen : gset nat) (disjuncts : list Expr) : list Expr :=
  match disjuncts with
  | [] => []
  | disjunct :: disjuncts =>
      if contains seen disjunct then unique seen disjuncts
      else disjunct :: unique ({[Expr.expr_id disjunct]} ∪ seen) disjuncts
  end.

(** The conjuncts all disjuncts share. *)
Definition common_set (perDisjunctConjuncts : list (list Expr)) : gset nat :=
  match perDisjunctConjuncts with
  | [] => ∅
  | front :: rest => fold_left (fun commonSet conjuncts => commonSet ∩ ids conjuncts) rest (ids front)
  end.

(** The residual of each disjunct; [None] if one is subsumed. *)
Fixpoint residuals (commonSet : gset nat) (perDisjunctConjuncts : list (list Expr)) :
    B (option (list Expr)) :=
  match perDisjunctConjuncts with
  | [] => mret (Some [])
  | conjuncts :: rest =>
      let remaining := List.filter (fun conjunct => negb (contains commonSet conjunct)) conjuncts in
      match remaining with
      | [] => mret None
      | _ =>
          residual ← F ExprFactory.andAll remaining;
          residualDisjuncts ← residuals commonSet rest;
          mret (cons residual <$> residualDisjuncts)
      end
  end.

(** [tryFactorOr]: the common conjuncts and the residual, if any factoring was
    done. *)
Definition tryFactorOr (orExpr : Expr) : B (option (list Expr * option Expr)) :=
  match orExpr with
  | CallExpr name _ _ _ _ =>
      if negb (String.eqb name kOr) then mret None
      else
        let uniqueDisjuncts := unique ∅ (ExprFactory.flattenOr orExpr) in
        if length uniqueDisjuncts <? 2 then mret None
        else
          let perDisjunctConjuncts := map ExprFactory.flattenAnd uniqueDisjuncts in
          let commonSet := common_set perDisjunctConjuncts in
          if bool_decide (commonSet = ∅) then mret None
          else
            residualDisjuncts ← residuals commonSet perDisjunctConjuncts;
            let common := List.filter (contains commonSet) (hd [] perDisjunctConjuncts) in
            match residualDisjuncts with
            | None => mret (Some (common, None))
            | Some residualDisjuncts =>
                residual ← F ExprFactory.orAll residualDisjuncts;
                mret (Some (common, Some residual))
            end
  | _ => mret None
  end.

(** The first loop: the candidates, or [None] if a conjunct never passes. *)
Fixpoint simplify_conjuncts (simplify : Expr -> M Expr) (candidates conjuncts : list Expr) :
    M (option (list Expr)) :=
  match conjuncts with
  | [] => mret (Some candidates)
  | conjunct :: conjuncts =>
      simplified ← simplify conjunct;
      match simplified with
      | LiteralExpr variant _ _ =>
          lift (velox_check (bool_decide (kind variant = BOOLEAN))
                  "Conjunct simplified to a non-boolean literal") ≫= fun _ =>
          if isNull variant || negb (boolean variant) then mret None
          else simplify_conjuncts simplify candidates conjuncts
      | _ =>
          factored ← on_builder (tryFactorOr simplified);
          simplify_conjuncts simplify
            (candidates ++ match factored with
                           | Some (common, residual) => common ++ option_list residual
                           | None => [simplified]
                           end) conjuncts
      end
  end.

Record ColumnDomain := mkColumnDomain {
  values : Domain V;
  outputIndex : nat
}.

(** [domains], in the order of insertion, and [surviving]. *)
Record Survivors := mkSurvivors {
  domains : list (Column T * ColumnDomain);
  surviving : list (option Expr)
}.

(** [domains.find(column)], with the update of what it finds. *)
Fixpoint narrow (column : Column T) (domain : Domain V) (domains : list (Column T * ColumnDomain)) :
    option (list (Column T * ColumnDomain)) :=
  match domains with
  | [] => None
  | (column', d) :: domains =>
      if Nat.eqb (column_id column) (column_id column')
      then Some ((column', mkColumnDomain (Domain.intersect (values d) domain) (outputIndex d)) :: domains)
      else cons (column', d) <$> narrow column domain domains
  end.

(** The body of the second loop. *)
Definition add_candidate (s : Survivors) (candidate : Expr) : Result Survivors :=
  let kept := mkSurvivors (domains s) (surviving s ++ [Some candidate]) in
  match Expr.onlyColumn candidate with
  | None => Ok kept
  | Some column =>
      match integralTypeDomain (V:=V) (column_type column) with
      | None => Ok kept
      | Some _ =>
          domain ← exprToDomain functionNames candidate;
          match domain with
          | None => Ok kept
          | Some domain =>
              Ok (match narrow column domain (domains s) with
                  | Some domains => mkSurvivors domains (surviving s)
                  | None =>
                      mkSurvivors
                        (domains s ++ [(column, mkColumnDomain domain (length (surviving s)))])
                        (surviving s ++ [None])
                  end)
          end
      end
  end.

Fixpoint add_candidates (s : Survivors) (candidates : list Expr) : Result Survivors :=
  match candidates with
  | [] => Ok s
  | candidate :: candidates => s ← add_candidate s candidate; add_candidates s candidates
  end.

(** The last loop: [None] if a column has no values. *)
Fixpoint emit_domains (surviving : list (option Expr)) (domains : list (Column T * ColumnDomain)) :
    B (option (list (option Expr))) :=
  match domains with
  | [] => mret (Some surviving)
  | (column, domain) :: domains =>
      if Domain.isNone (values domain) then mret None
      else
        filter ← F DomainFilter.domainToFilter functionNames column (values domain);
        emit_domains (<[outputIndex domain := filter]> surviving) domains
  end.

(** The order in which [domains] is traversed. *)
Variable traversal : list (Column T * ColumnDomain) -> list (Column T * ColumnDomain).

(** [simplifyFilter]: what it returns, and [into]. *)
Definition simplifyFilter (fuel : nat) (predicate : Expr) (into : list Expr) :
    M (bool * list Expr) :=
  candidates ← simplify_conjuncts
    (F ExprSimplifier.simplify functionNames constant fuel) [] (ExprFactory.flattenAnd predicate);
  match candidates with
  | None => mret (true, into)
  | Some candidates =>
      survivors ← lift (add_candidates (mkSurvivors [] []) candidates);
      filters ← on_builder (emit_domains (surviving survivors) (traversal (domains survivors)));
      match filters with
      | None => mret (true, into)
      | Some filters => mret (false, into ++ flat_map option_list filters)
      end
  end.
End FilterSimplifier.
End FilterSimplifier.

(** ** What the simplified conjuncts accept *)

Section Filters.
Context {T V : Type} `{TypedValues T V} `{FunctionRegistry} `{!VariantEq V}.
Context (functionNames : FunctionNames) (types : gmap nat T)
  (eval : Expr T V -> Row V -> option V)
  (less : V -> V -> bool) (reversed : string -> option string)
  (constant : Expr T V -> option (V * T)) (maxPlanObjects : nat).
Context (Heval : EvalLaws functionNames types eval less reversed constant)
  (Hreversed : reversible_ok functionNames reversed)
  (Hfull : full_registry functionNames = true)
  (Hbetween : forall name bits, between functionNames = Some name ->
    functionBits name false = Ok bits ->
    FunctionSet.contains bits FunctionSet.kNonDefaultNullBehavior = false).
Abbreviation Expr := (Expr T V).
Abbreviation typed := (typed functionNames types).
Abbreviation truth := (truth_of eval).
Abbreviation boolean_expr := (boolean_expr functionNames types).
Abbreviation implements := (implements functionNames types eval).
Abbreviation refines := (refines functionNames types eval).
Abbreviation bounds_ok := (bounds_ok functionNames).
Abbreviation F f := (f maxPlanObjects reversed).
#[local] Existing Instance simplifier_world.

Definition passes (r : Row V) (e : Expr) : Prop := truth e r = Some true.

(** A conjunct: a filter on some of the columns. *)
Record part (cols : list (Column T)) (b : Builder T V) (e : Expr) : Prop := {
  part_valid : valid b e;
  part_boolean : boolean_expr e;
  part_bounds : bounds_ok e = true;
  part_columns : Expr.columns e ⊆ cols
}.

Lemma part_extends cols b b' e : extends b b' -> part cols b e -> part cols b' e.
Proof. intros Hext []. split; [by eapply valid_extends|done..]. Qed.

Lemma parts_extend cols b b' es :
  extends b b' -> Forall (part cols b) es -> Forall (part cols b') es.
Proof. intros Hext Hes. eapply Forall_impl; [exact Hes|]. intros e. by apply part_extends. Qed.

(** *** Connectives *)

Lemma connect_true isAnd l :
  fold_right (connect isAnd) (neutral isAnd) l = Some true <->
  if isAnd then Forall (eq (Some true)) l else Exists (eq (Some true)) l.
Proof.
  induction l as [|x l IH].
  - destruct isAnd; simpl; [by rewrite Forall_nil|by rewrite Exists_nil].
  - simpl. destruct isAnd; simpl in *; rewrite ?Forall_cons, ?Exists_cons, <- IH;
      destruct x as [[]|], (fold_right _ _ l) as [[]|]; simpl; naive_solver.
Qed.

Lemma passes_all isAnd r (es : list Expr) :
  fold_right (connect isAnd) (neutral isAnd) (map (fun e => truth e r) es) = Some true <->
  if isAnd then Forall (passes r) es else Exists (passes r) es.
Proof.
  rewrite connect_true. destruct isAnd.
  - rewrite List.Forall_map. split; intros Hes; (eapply Forall_impl; [exact Hes|]); intros e; apply eq_sym.
  - rewrite List.Exists_map. split; intros Hes; (eapply List.Exists_impl; [|exact Hes]); intros e; apply eq_sym.
Qed.

Lemma passes_flatten (isAnd : bool) r (e : Expr) :
  passes r e <-> if isAnd then Forall (passes r) (flatten isAnd e) else Exists (passes r) (flatten isAnd e).
Proof.
  rewrite <- passes_all. unfold passes. by rewrite (flatten_truth _ _ _ _ _ _ Heval).
Qed.

Lemma flatten_bounds (isAnd : bool) (e : Expr) :
  bounds_ok e = true -> Forall (fun p => bounds_ok p = true) (flatten isAnd e).
Proof.
  induction e as [| |name args t fs i IH| | |] using Expr_nested_ind; try (intros; by each).
  intros Hb. rewrite flatten_call. destruct (String.eqb name _); [|by each].
  simpl in Hb. apply andb_true_iff in Hb as [_ Hb]. rewrite forallb_forall in Hb.
  rewrite List.Forall_forall in *. intros p (e & He & Hp)%in_flat_map.
  specialize (IH e He (Hb e He)). rewrite List.Forall_forall in IH. by apply IH.
Qed.

Lemma flatten_part cols isAnd b e :
  arena_ok b -> part cols b e -> Forall (part cols b) (flatten isAnd e).
Proof.
  intros Hb [Hv Hbool Hbd Hc].
  pose proof (flatten_parts functionNames types isAnd b e Hb Hv Hbool) as Hparts.
  pose proof (flatten_bounds isAnd e Hbd) as Hbs. rewrite List.Forall_forall in *.
  intros p Hp. destruct (Hparts p Hp) as (? & ? & ?). split; [done|done|by apply Hbs|].
  by etransitivity.
Qed.

(** The connective of several conjuncts. *)
Lemma fold_calls_bounds isAnd (b0 : Builder T V) p ps :
  Forall (valid b0) (p :: ps) -> Forall boolean_expr (p :: ps) ->
  Forall (fun e => bounds_ok e = true) (p :: ps) ->
  builds b0 (ExprFactory.fold_calls (makeConnective reversed maxPlanObjects isAnd) p ps)
    (fun _ e => bounds_ok e = true).
Proof.
  revert b0 p. induction ps as [|q ps IH]; intros b0 p Hv Hbool Hbd;
    inversion Hv as [|? ? Hvp Hvs]; inversion Hbool as [|? ? Hbp Hbs]; inversion Hbd as [|? ? Hdp Hds]; subst.
  { by apply builds_ret. }
  inversion Hvs; inversion Hbs; inversion Hds; subst. simpl.
  eapply builds_bind.
  - apply builds_and.
    + by apply (makeConnective_implements _ _ _ _ _ _ _ Heval Hreversed isAnd b0 p q 0%N 0).
    + assert (Hcall : builds b0 (F ExprFactory.makeCall (connective isAnd) booleanType [p; q] true)
        (fun _ e => bounds_ok e = true)).
      { eapply builds_weaken; [by eapply factory_makeCall_bounds; [..|each]|].
        intros b e _ _ ->. simpl. rewrite bounds_given_other.
        - simpl. by repeat (apply andb_true_iff; split).
        - eapply not_between; [done..|]. by rewrite classify_connective. }
      destruct isAnd; [|exact Hcall]. unfold makeConnective, ExprFactory.makeAnd.
      destruct (Expr.same p q && _); [by apply builds_ret|exact Hcall].
  - cbn beta. intros b e _ Hext [He Hde]. apply IH.
    + constructor; [apply He|by eapply valids_extends].
    + constructor; [|done]. by eapply implements_boolean; [exact He|].
    + by constructor.
Qed.

Lemma makeAll_part cols isAnd (b0 : Builder T V) es :
  es <> [] -> Forall (part cols b0) es ->
  builds b0 (makeAll reversed maxPlanObjects isAnd es) (fun b e => part cols b e /\
    forall r, row_ok types r ->
      passes r e <-> if isAnd then Forall (passes r) es else Exists (passes r) es).
Proof.
  intros Hne Hes. destruct es as [|p ps]; [done|].
  assert (Hparts : Forall (valid b0) (p :: ps) /\ Forall boolean_expr (p :: ps) /\
    Forall (fun e => bounds_ok e = true) (p :: ps) /\ flat_map Expr.columns (p :: ps) ⊆ cols).
  { clear Hne. induction Hes as [|e es [] _ (? & ? & ? & ?)]; [|by repeat split; try constructor; [..|simpl; set_solver]].
    repeat split; try constructor. simpl. set_solver. }
  destruct Hparts as (Hv & Hbool & Hbd & Hc).
  inversion Hbool as [|? ? Hbp Hbs]; subst.
  destruct (nested_typed functionNames types isAnd p ps Hbp Hbs) as [Htn Hbn].
  assert (Hbounds : builds b0 (makeAll reversed maxPlanObjects isAnd (p :: ps))
    (fun _ e => bounds_ok e = true)).
  { destruct isAnd; [by apply (fold_calls_bounds true b0 p ps)|by apply (fold_calls_bounds false b0 p ps)]. }
  eapply builds_weaken.
  - apply builds_and; [by apply (makeAll_implements _ _ _ _ _ _ _ Heval Hreversed isAnd b0 p ps)|].
    exact Hbounds.
  - cbn beta. intros b e _ _ [He Hde]. split; [split|].
    + apply He.
    + by eapply implements_boolean; [exact He|].
    + done.
    + etransitivity; [apply He|]. etransitivity; [apply nested_columns|done].
    + intros r Hr. rewrite <- passes_all. unfold passes.
      rewrite (refines_truth _ _ _ _ _ _ (implements_refines _ _ _ _ _ _ He) Hr).
      by rewrite (nested_truth _ _ _ _ _ _ Heval).
Qed.

(** *** Common conjuncts *)

Lemma contains_ids b (es : list Expr) e :
  Forall (valid b) es -> valid b e -> FilterSimplifier.contains (FilterSimplifier.ids es) e = true -> e ∈ es.
Proof.
  unfold FilterSimplifier.contains, FilterSimplifier.ids.
  rewrite bool_decide_eq_true, elem_of_list_to_set, list_elem_of_In, in_map_iff.
  intros Hes He (e' & Hid & Hin). rewrite List.Forall_forall in Hes.
  assert (e' = e) as <-; [|by apply list_elem_of_In].
  apply (same_eq b); [by apply Hes|done|]. by apply Nat.eqb_eq.
Qed.

Lemma unique_spec b seen (ds : list Expr) :
  Forall (valid b) ds ->
  FilterSimplifier.unique seen ds ⊆ ds /\
  forall d, d ∈ ds -> d ∈ FilterSimplifier.unique seen ds \/ Expr.expr_id d ∈ seen.
Proof.
  intros Hds. revert seen. induction Hds as [|d ds Hd Hds IH]; intros seen.
  { split; [done|]. by intros d ?%not_elem_of_nil. }
  simpl. unfold FilterSimplifier.contains. case_bool_decide as Hs.
  - destruct (IH seen) as [Hsub Hin]. split; [set_solver|].
    intros d' [->|Hd']%elem_of_cons; [by right|by apply Hin].
  - destruct (IH ({[Expr.expr_id d]} ∪ seen)) as [Hsub Hin]. split; [set_solver|].
    intros d' [->|Hd']%elem_of_cons; [left; by left|].
    destruct (Hin d' Hd') as [Hk|[Hk%elem_of_singleton|Hk]%elem_of_union]; [left; by right| |by right].
    left. assert (d' = d) as ->; [|by left]. rewrite Forall_forall in Hds.
    apply (same_eq b); [by apply Hds|done|by apply Nat.eqb_eq].
Qed.

Lemma exists_elem (P : Expr -> Prop) (l : list Expr) : Exists P l <-> exists e, e ∈ l /\ P e.
Proof. apply list.Exists_exists. Qed.

Lemma unique_exists (P : Expr -> Prop) b (ds : list Expr) :
  Forall (valid b) ds -> Exists P (FilterSimplifier.unique ∅ ds) <-> Exists P ds.
Proof.
  intros Hds. destruct (unique_spec b ∅ ds Hds) as [Hsub Hin]. rewrite !exists_elem.
  split; intros (d & Hd & HP); exists d; (split; [|done]); [by apply Hsub|].
  destruct (Hin d Hd) as [?|?%not_elem_of_empty]; done.
Qed.

Lemma common_in_each (css : list (list Expr)) cs b e :
  Forall (Forall (valid b)) css -> cs ∈ css -> valid b e ->
  FilterSimplifier.contains (FilterSimplifier.common_set css) e = true -> e ∈ cs.
Proof.
  intros Hcss Hin He. destruct css as [|front rest]; [by apply not_elem_of_nil in Hin|].
  unfold FilterSimplifier.contains. rewrite bool_decide_eq_true. simpl. intros Hc.
  assert (Hall : forall set, Expr.expr_id e ∈
      fold_left (fun commonSet conjuncts => commonSet ∩ FilterSimplifier.ids conjuncts) rest set ->
    Expr.expr_id e ∈ set /\ Forall (fun cs => Expr.expr_id e ∈ FilterSimplifier.ids cs) rest).
  { clear. induction rest as [|cs rest IH]; intros set; [done|]. simpl. intros Hc.
    destruct (IH _ Hc) as [[? ?]%elem_of_intersection ?]. split; [done|]. by constructor. }
  destruct (Hall _ Hc) as [Hfront Hrest].
  assert (Hcs : Expr.expr_id e ∈ FilterSimplifier.ids cs).
  { apply elem_of_cons in Hin as [->|Hin]; [done|]. rewrite Forall_forall in Hrest. by apply Hrest. }
  rewrite Forall_forall in Hcss. apply (contains_ids b); [by apply Hcss|done|].
  by apply bool_decide_eq_true.
Qed.

(** A disjunct without the common conjuncts. *)
Definition remaining (commonSet : gset nat) (conjuncts : list Expr) : list Expr :=
  List.filter (fun conjunct => negb (FilterSimplifier.contains commonSet conjunct)) conjuncts.

Lemma split_common (P : Expr -> Prop) commonSet conjuncts :
  Forall P conjuncts <->
  Forall P (List.filter (FilterSimplifier.contains commonSet) conjuncts) /\
  Forall P (remaining commonSet conjuncts).
Proof.
  unfold remaining. induction conjuncts as [|e es IH]; simpl; [by rewrite !Forall_nil|].
  destruct (FilterSimplifier.contains commonSet e); simpl; rewrite !Forall_cons, IH; tauto.
Qed.

(** What is common of one disjunct is common of another. *)
Lemma common_shared (P : Expr -> Prop) b css cs cs' :
  let commonSet := FilterSimplifier.common_set css in
  Forall (Forall (valid b)) css -> cs ∈ css -> cs' ∈ css ->
  Forall P (List.filter (FilterSimplifier.contains commonSet) cs) ->
  Forall P (List.filter (FilterSimplifier.contains commonSet) cs').
Proof.
  intros commonSet Hv Hcs Hcs'. rewrite !List.Forall_forall. intros HP e [He Hc]%filter_In.
  apply HP, filter_In. split; [|done]. apply list_elem_of_In.
  apply (common_in_each css _ b); [done|done| |done].
  rewrite Forall_forall in Hv. specialize (Hv cs' Hcs'). rewrite List.Forall_forall in Hv. by apply Hv.
Qed.

(** The disjunction of conjunctions is the common part and the residuals. *)
Lemma factor (P : Expr -> Prop) b css front :
  let commonSet := FilterSimplifier.common_set css in
  Forall (Forall (valid b)) css -> front ∈ css ->
  Exists (Forall P) css <->
  Forall P (List.filter (FilterSimplifier.contains commonSet) front) /\
  Exists (fun cs => Forall P (remaining commonSet cs)) css.
Proof.
  intros commonSet Hv Hfront. rewrite !list.Exists_exists. split.
  - intros (cs & Hcs & [Hc Hr]%(split_common P commonSet)). split; [|by exists cs].
    by apply (common_shared P b css cs front).
  - intros (Hc & cs & Hcs & Hr). exists cs. split; [done|]. apply (split_common P commonSet).
    split; [|done]. by apply (common_shared P b css front cs).
Qed.

Lemma residuals_spec cols commonSet (b0 : Builder T V) css :
  Forall (Forall (part cols b0)) css ->
  builds b0 (F FilterSimplifier.residuals commonSet css) (fun b o =>
    match o with
    | None => exists cs, cs ∈ css /\ remaining commonSet cs = []
    | Some es => Forall2 (fun cs e => part cols b e /\ forall r, row_ok types r ->
        passes r e <-> Forall (passes r) (remaining commonSet cs)) css es
    end).
Proof.
  revert b0. induction css as [|cs css IH]; intros b0 Hcss; simpl; [by apply builds_ret|].
  inversion Hcss as [|? ? Hcs Hrest]; subst. fold (remaining commonSet cs).
  assert (Hrem : Forall (part cols b0) (remaining commonSet cs)).
  { rewrite List.Forall_forall in *. intros e [He _]%filter_In. by apply Hcs. }
  destruct (remaining commonSet cs) as [|p ps] eqn:Er.
  { apply builds_ret. intros _ _ _. exists cs. split; [by left|done]. }
  eapply builds_bind; [by apply (makeAll_part cols true b0 (p :: ps))|].
  cbn beta. intros b1 e Hb1 Hext1 He. eapply builds_bind.
  { apply (IH b1). eapply Forall_impl; [exact Hrest|]. intros cs'. by apply parts_extend. }
  cbn beta. intros b2 [es|] Hb2 Hext2 Hes; apply builds_ret; intros b3 _ Hext3; simpl.
  - constructor.
    + rewrite Er. destruct He. split; [|done]. apply (part_extends _ b1); [by transitivity b2|done].
    + eapply Forall2_impl; [exact Hes|]. intros cs' e' [? ?]. split; [by eapply part_extends|done].
  - destruct Hes as (cs' & Hin & ?). exists cs'. split; [by right|done].
Qed.

Lemma tryFactorOr_spec cols (b0 : Builder T V) e :
  arena_ok b0 -> part cols b0 e ->
  builds b0 (F FilterSimplifier.tryFactorOr e) (fun b o =>
    match o with
    | None => True
    | Some (common, residual) =>
        Forall (part cols b) (common ++ option_list residual) /\
        forall r, row_ok types r -> passes r e <-> Forall (passes r) (common ++ option_list residual)
    end).
Proof.
  intros Hb0 He. unfold FilterSimplifier.tryFactorOr.
  destruct e as [| |name args t fs i| | |]; try by apply builds_ret.
  destruct (negb _) eqn:Hor; [by apply builds_ret|].
  set (e := CallExpr name args t fs i) in *. cbv zeta.
  set (ds := FilterSimplifier.unique ∅ (ExprFactory.flattenOr e)).
  set (css := map ExprFactory.flattenAnd ds).
  pose proof (flatten_part cols false b0 e Hb0 He) as Hflat.
  assert (Hflatv : Forall (valid b0) (ExprFactory.flattenOr e)).
  { eapply Forall_impl; [exact Hflat|]. by intros d []. }
  assert (Hds : Forall (part cols b0) ds).
  { destruct (unique_spec b0 ∅ (ExprFactory.flattenOr e) Hflatv) as [Hsub _].
    rewrite !Forall_forall in *. intros d Hd. by apply Hflat, Hsub. }
  assert (Hcss : Forall (Forall (part cols b0)) css).
  { unfold css. rewrite List.Forall_map. eapply Forall_impl; [exact Hds|].
    intros d. by apply (flatten_part cols true). }
  assert (Hcssv : Forall (Forall (valid b0)) css).
  { eapply Forall_impl; [exact Hcss|]. intros cs Hcs. eapply Forall_impl; [exact Hcs|]. by intros x []. }
  assert (Hpass : forall r, passes r e <-> Exists (Forall (passes r)) css).
  { intros r. rewrite (passes_flatten false). etransitivity; [symmetry; by apply (unique_exists _ b0)|].
    unfold css. rewrite List.Exists_map. split; intros Hx; (eapply List.Exists_impl; [|exact Hx]);
      intros d; apply (passes_flatten true). }
  destruct (length ds <? 2) eqn:Hlen; [by apply builds_ret|].
  case_bool_decide; [by apply builds_ret|].
  assert (Hfront : hd [] css ∈ css).
  { apply Nat.ltb_ge in Hlen. unfold css. destruct ds; [simpl in Hlen; lia|]. by left. }
  set (common := List.filter _ (hd [] css)).
  assert (Hcommon : Forall (part cols b0) common).
  { rewrite Forall_forall in Hcss. specialize (Hcss _ Hfront). rewrite List.Forall_forall in *.
    intros x [Hx _]%filter_In. by apply Hcss. }
  eapply builds_bind; [by apply residuals_spec|]. cbn beta. intros b1 [es|] Hb1 Hext1 Hes.
  - pose proof (Forall2_length _ _ _ Hes) as Hn.
    assert (Hparts : Forall (part cols b1) es).
    { clear -Hes. induction Hes as [|cs x css' es' [] _ IH]; by constructor. }
    eapply builds_bind; [apply (makeAll_part cols false b1 es); [|done]|].
    { intros ->. by destruct css; [apply not_elem_of_nil in Hfront|]. }
    cbn beta. intros b2 residual Hb2 Hext2 [Hres Hrest].
    apply builds_ret. intros b3 _ Hext3. split.
    + apply Forall_app. split; [|by each; eapply part_extends].
      apply (parts_extend _ b0); [|done]. transitivity b1; [done|]. by transitivity b2.
    + intros r Hr. rewrite Hpass, (factor (passes r) b0 css (hd [] css)) by done.
      rewrite Forall_app. apply and_iff_compat_l. simpl. rewrite Forall_singleton, Hrest by done.
      generalize dependent (FilterSimplifier.common_set css). intros commonSet. intros. clear -Hes Hr. induction Hes as [|cs x css' es' [_ Hx] _ IH]; [by rewrite !Exists_nil|].
      rewrite !Exists_cons, IH, Hx by done. done.
  - apply builds_ret. intros b2 _ Hext2. simpl. rewrite app_nil_r. split.
    + apply (parts_extend _ b0); [by transitivity b1|done].
    + intros r Hr. rewrite Hpass, (factor (passes r) b0 css (hd [] css)) by done. split; [by intros []|].
      intros Hc. split; [done|]. destruct Hes as (cs & Hin & Hnil). apply list.Exists_exists.
      exists cs. split; [done|]. by rewrite Hnil.
Qed.

(** *** The loop over the conjuncts *)

(** A conjunct as it is before it is simplified. *)
Record conjunct (cols : list (Column T)) (n : nat) (b : Builder T V) (e : Expr) : Prop := {
  conjunct_valid : valid b e;
  conjunct_boolean : boolean_expr e;
  conjunct_columns : Expr.columns e ⊆ cols;
  conjunct_weight : weight functionNames e <= n
}.

Lemma conjuncts_extend cols n b b' es :
  extends b b' -> Forall (conjunct cols n b) es -> Forall (conjunct cols n b') es.
Proof.
  intros Hext Hes. eapply Forall_impl; [exact Hes|]. intros e []. split; [by eapply valid_extends|done..].
Qed.

Abbreviation simplifies_up_to := (simplifies_up_to functionNames types eval).
#[local] Instance filter_world : World (Simplifier T V) := simplifier_world functionNames types eval.

Lemma builds_on_world {A} (s0 : Simplifier T V) (m : StateM (Builder T V) A) Q :
  builds (builder s0) m Q -> builds s0 (on_builder m) (fun s a => Q (builder s) a).
Proof. apply builds_on. Qed.

Lemma parts_state cols (s s' : Simplifier T V) es :
  extends s s' -> Forall (part cols (builder s)) es -> Forall (part cols (builder s')) es.
Proof. exact (parts_extend cols (builder s) (builder s') es). Qed.

Lemma simplify_conjuncts_spec cols n simplify (s0 : Simplifier T V) acc es :
  simplifies_up_to n simplify ->
  Forall (part cols (builder s0)) acc -> Forall (conjunct cols n (builder s0)) es ->
  builds s0 (F FilterSimplifier.simplify_conjuncts simplify acc es) (fun s o =>
    match o with
    | None => forall r, row_ok types r -> ~ Forall (passes r) es
    | Some out => Forall (part cols (builder s)) out /\
        forall r, row_ok types r ->
          Forall (passes r) out <-> Forall (passes r) acc /\ Forall (passes r) es
    end).
Proof.
  intros Hsimp. revert s0 acc. induction es as [|e es IH]; intros s0 acc Hacc Hes.
  { apply builds_ret. intros s _ Hext. split; [by apply (parts_state cols s0)|].
    intros r _. rewrite Forall_nil. tauto. }
  inversion Hes as [|? ? [Hv Hbool Hc Hw] Hrest]; subst. simpl.
  eapply builds_bind; [apply (Hsimp s0 e Hw Hv); apply Hbool|]. cbn beta.
  intros s1 e' Hs1 Hext1 [He' Hbd _].
  assert (Hacc1 : Forall (part cols (builder s1)) acc) by (by apply (parts_state cols s0)).
  assert (Hrest1 : Forall (conjunct cols n (builder s1)) es) by (by apply (conjuncts_extend cols n (builder s0))).
  assert (Hpass : forall r, row_ok types r -> passes r e' <-> passes r e).
  { intros r Hr. unfold passes.
    by rewrite (refines_truth _ _ _ _ _ _ (implements_refines _ _ _ _ _ _ He') Hr). }
  assert (Hpart : part cols (builder s1) e').
  { split; [apply He'|by eapply implements_boolean; [exact He'|apply Hbool]|done|].
    etransitivity; [apply He'|done]. }
  assert (Hother : builds s1 (
      factored ← on_builder (F FilterSimplifier.tryFactorOr e');
      F FilterSimplifier.simplify_conjuncts simplify
        (acc ++ match factored with
                | Some (common, residual) => common ++ option_list residual
                | None => [e']
                end) es) (fun s o =>
    match o with
    | None => forall r, row_ok types r -> ~ Forall (passes r) (e :: es)
    | Some out => Forall (part cols (builder s)) out /\
        forall r, row_ok types r ->
          Forall (passes r) out <-> Forall (passes r) acc /\ Forall (passes r) (e :: es)
    end)).
  { eapply builds_bind.
    { apply builds_on_world. by apply (tryFactorOr_spec cols); [apply Hs1|]. }
    cbn beta. intros s2 factored Hs2 Hext2 Hfac.
    set (added := match factored with Some (common, residual) => common ++ option_list residual
                  | None => [e'] end).
    assert (Hadded : Forall (part cols (builder s2)) added /\
      forall r, row_ok types r -> Forall (passes r) added <-> passes r e).
    { subst added. destruct factored as [[common residual]|].
      - destruct Hfac as [? Hf]. split; [done|]. intros r Hr. by rewrite <- Hf, Hpass.
      - split; [by each; apply (part_extends _ (builder s1))|]. intros r Hr.
        by rewrite Forall_singleton, Hpass. }
    destruct Hadded as [Hap Hadd].
    eapply builds_weaken.
    - apply (IH s2 (acc ++ added)); [|by apply (conjuncts_extend cols n (builder s1))].
      apply Forall_app. split; [by apply (parts_state cols s1)|done].
    - cbn beta. intros s3 [out|] _ _ Hout.
      + destruct Hout as [? Ho]. split; [done|]. intros r Hr.
        rewrite Ho, Forall_app, Hadd, Forall_cons by done. tauto.
      + intros r Hr [_ Hf]%Forall_cons. by apply (Hout r Hr). }
  destruct e' as [|v t i| | | |]; try exact Hother. clear Hother.
  eapply (builds_bind _ _ _ (fun _ _ => True)).
  { apply builds_lift; [|done]. intros err. unfold velox_check. destruct (bool_decide _); [done|].
    by intros [= <-]. }
  intros s2 _ Hs2 Hext2 _.
  assert (Htr : forall r, row_ok types r -> passes r e <-> isNull v || negb (boolean v) = false).
  { intros r Hr. rewrite <- Hpass by done. unfold passes.
    rewrite (literal_condition _ _ _ _ _ _ Heval). destruct (isNull v), (boolean v); naive_solver. }
  destruct (isNull v || negb (boolean v)).
  - apply builds_ret. intros s3 _ _ r Hr [He%Htr _]%Forall_cons; done.
  - eapply builds_weaken.
    + apply (IH s2 acc); [by apply (parts_state cols s1)|by apply (conjuncts_extend cols n (builder s1))].
    + cbn beta. intros s3 [out|] _ _ Hout.
      * destruct Hout as [? Ho]. split; [done|]. intros r Hr. rewrite Ho, Forall_cons, Htr by done. tauto.
      * intros r Hr [_ Hf]%Forall_cons. by apply (Hout r Hr).
Qed.

(** *** Filters on one integral column *)

Lemma typed_columns e c :
  typed e = true -> c ∈ Expr.columns e -> types !! column_id c = Some (column_type c).
Proof.
  revert c. induction e as [c'|v t i|name args t fs i IH|base f t i IH|args body t i IH|cs fs t i]
    using Expr_nested_ind; intros c Ht Hc; simpl in Hc.
  - apply bool_decide_eq_true in Ht. by apply list_elem_of_singleton in Hc as ->.
  - by apply not_elem_of_nil in Hc.
  - apply typed_call in Ht as [Hargs _].
    apply list_elem_of_In, in_flat_map in Hc as (e & He & Hc%list_elem_of_In).
    rewrite List.Forall_forall in IH, Hargs. by apply (IH e He c); [apply Hargs|].
  - by apply IH.
  - apply andb_true_iff in Ht as [_ Ht]. apply IH; [done|].
    by apply list_elem_of_In, filter_In in Hc as [?%list_elem_of_In _].
  - simpl in Ht. rewrite forallb_forall in Ht. apply list_elem_of_In in Hc.
    by apply Ht, bool_decide_eq_true in Hc.
Qed.

Context (column : Column T) (limits : Domain V)
  (Hlimits : integralTypeDomain (column_type column) = Some limits)
  (Htyped : types !! column_id column = Some (column_type column)).

Lemma column_of_id c : types !! column_id c = Some (column_type c) ->
  column_id c = column_id column -> c = column.
Proof.
  intros Hc Hid. rewrite Hid, Htyped in Hc. injection Hc as Ht. destruct c, column. by f_equal.
Qed.

Lemma ids_identify_typed e : typed e = true -> ids_identify column e.
Proof.
  intros Ht. apply Forall_forall. intros c Hc. apply column_of_id. by apply (typed_columns e).
Qed.

(** What counts as the column has an integral type. *)
Lemma is_column_integer e :
  typed e = true -> is_column (V:=V) column e = true ->
  is_integer_kind (type_kind (Expr.expr_type e)) = true.
Proof.
  unfold is_column. destruct e as [c| |name args t fs i| | |]; try done; simpl.
  - intros Ht%bool_decide_eq_true Hid%Nat.eqb_eq. rewrite (column_of_id c Ht Hid).
    by apply (integralTypeDomain_spec _ _ Hlimits).
  - destruct args as [|arg [|]]; try done. destruct (_ || _); [|done].
    destruct (domainColumn arg) as [c|]; [|done].
    destruct (integralTypeDomain t) as [d|] eqn:Hd; [|by rewrite orb_true_r].
    intros _ _. by apply (integralTypeDomain_spec _ _ Hd).
Qed.

Lemma literal_typed_integral v : literal_typed (V:=V) column v = true.
Proof. unfold literal_typed. by rewrite Hlimits. Qed.

Lemma compares_same_types name args t fs i :
  compares functionNames name = true -> typed (CallExpr name args t fs i) = true ->
  same_types args = true.
Proof.
  unfold compares. intros Hc [_ Hw]%typed_call.
  assert (Hclass : classify functionNames name = CompareName \/ classify functionNames name = BetweenName).
  { apply existsb_exists in Hc as (n & Hn & Heq). apply bool_decide_eq_true in Heq as <-.
    assert (Hin : (Some name, CompareName) ∈ name_classes functionNames \/
      (Some name, BetweenName) ∈ name_classes functionNames).
    { simpl in Hn. destruct Hn as [Hn|[Hn|[Hn|[Hn|[Hn|[Hn|[Hn|[]]]]]]]];
        unfold name_classes; rewrite <- Hn; clear; [left..|right]; set_solver. }
    destruct Hin as [Hin|Hin]; apply (classify_registered _ Hfull) in Hin; auto. }
  unfold well_formed_call in Hw. destruct Hclass as [Hk|Hk]; rewrite Hk in Hw.
  - by apply andb_true_iff in Hw as [_ [_ ?]%andb_true_iff].
  - by apply andb_true_iff in Hw as [_ ?].
Qed.

(** Comparisons of the column are with literals of a primitive type. *)
Lemma argument_typed_column name args t fs i :
  typed (CallExpr name args t fs i) = true -> compares functionNames name = true ->
  existsb (is_column (V:=V) column) args = true -> forallb (argument_typed column) args = true.
Proof.
  intros Ht Hcmp (c & Hc & Hcol)%existsb_exists.
  pose proof (compares_same_types _ _ _ _ _ Hcmp Ht) as Hsame.
  apply typed_call in Ht as [Hargs _]. rewrite List.Forall_forall in Hargs.
  pose proof (is_column_integer c (Hargs c Hc) Hcol) as Hint.
  assert (Hkinds : forall e, In e args -> type_kind (Expr.expr_type e) = type_kind (Expr.expr_type c)).
  { destruct args as [|a args]; [done|]. cbn [same_types] in Hsame. rewrite forallb_forall in Hsame.
    assert (Ha : forall e, In e (a :: args) -> type_kind (Expr.expr_type e) = type_kind (Expr.expr_type a)).
    { intros e [<-|He]; [done|]. by apply equivalent_kind, Hsame. }
    intros e He. by rewrite (Ha e He), (Ha c Hc). }
  apply forallb_forall. intros e He. unfold argument_typed. destruct e as [|v tv iv| | | |]; try done.
  rewrite literal_typed_integral. simpl. apply integer_primitive.
  specialize (Hkinds _ He). simpl in Hkinds. by rewrite Hkinds.
Qed.

Lemma well_typed_integral e :
  typed e = true -> bounds_ok e = true -> well_typed functionNames column e = true.
Proof.
  induction e as [| |name args t fs i IH| | |] using Expr_nested_ind; try done.
  intros Ht Hb. simpl in Hb. apply andb_true_iff in Hb as [Hb Hbs]. rewrite forallb_forall in Hbs.
  cbn [well_typed]. apply andb_true_iff. split.
  - unfold call_typed. destruct (constantInList name args) as [elements|].
    + apply orb_true_iff. right. apply forallb_forall. intros v _. apply literal_typed_integral.
    + destruct (compares functionNames name) eqn:Hcmp; [|done].
      destruct (existsb (is_column column) args) eqn:Hcol; [|done]. simpl.
      rewrite Hb, andb_true_r. by apply (argument_typed_column name args t fs i).
  - apply typed_call in Ht as [Hargs _]. rewrite List.Forall_forall in Hargs, IH.
    apply forallb_forall. intros e He. by apply IH; [|apply Hargs|apply Hbs].
Qed.

Lemma no_like_integral e : typed e = true -> uses_like functionNames column e = false.
Proof.
  induction e as [| |name args t fs i IH| | |] using Expr_nested_ind; try done.
  intros Ht. cbn [uses_like]. apply typed_call in Ht as [Hargs Hw].
  rewrite List.Forall_forall in Hargs, IH. apply orb_false_iff. split.
  - apply andb_false_iff. destruct (name_is (Some name) (like functionNames)) eqn:Hn; [right|by left].
    apply bool_decide_eq_true in Hn.
    assert (Hclass : classify functionNames name = LikeName).
    { apply (classify_registered _ Hfull). unfold name_classes. rewrite <- Hn. clear. set_solver. }
    unfold well_formed_call in Hw. rewrite Hclass in Hw. apply andb_true_iff in Hw as [_ Hw].
    rewrite forallb_forall in Hw. destruct args as [|arg args]; [done|].
    destruct (is_column column arg) eqn:Hcol; [|done].
    specialize (Hw arg (or_introl eq_refl)). apply bool_decide_eq_true in Hw.
    pose proof (is_column_integer arg (Hargs _ (or_introl eq_refl)) Hcol) as Hint.
    by rewrite Hw in Hint.
  - destruct (existsb _ args) eqn:He; [|done]. apply existsb_exists in He as (e & Hin & Hl).
    by rewrite IH in Hl; [|done|apply Hargs].
Qed.

(** The domain of a filter on the column. *)
Lemma exprToDomain_integral e d :
  typed e = true -> bounds_ok e = true -> Expr.onlyColumn e = Some column ->
  exprToDomain functionNames e = Ok (Some d) ->
  column_domain column d /\
  forall r, row_ok types r ->
    passes r e <-> on_domain d (integer <$> r !! column_id column) = true.
Proof.
  intros Ht Hb Hcol Hd. pose proof (no_like_integral e Ht) as Hlike. split.
  { unfold exprToDomain in Hd. rewrite Hcol in Hd.
    by apply (exprToDomain_column_domain functionNames column limits Hlimits e kTrue). }
  intros r Hr.
  assert (Hok : filter_ok functionNames column e).
  { split; [done|]. split; [by apply well_typed_integral|by apply ids_identify_typed]. }
  pose proof (integralTypeDomain_spec _ _ Hlimits) as (Hkind & _).
  destruct (exprToDomain_describes functionNames column _ _ less
    (eval_sql _ _ _ _ _ _ Heval column r) (complete_registry _ Hfull)
    (integer_primitive _ Hkind) e d Hok Hd) as [_ Hin].
  assert (Hrow : row_typed column (r !! column_id column)).
  { specialize (Hr _ _ Htyped). unfold row_typed. destruct (r !! column_id column) as [u|]; [|done].
    destruct Hr as [Hn Hu]. split; [done|]. by apply has_type_kind. }
  specialize (Hin _ Hrow) as [Hto Hfrom]. rewrite set_value_same in Hto, Hfrom.
  assert (Hval : (domain_value column <$> r !! column_id column) =
    of_int64 <$> (integer <$> r !! column_id column)).
  { unfold domain_value. rewrite Hlimits. by destruct (r !! column_id column). }
  unfold on_domain. rewrite <- Hval. split; [exact Hto|]. by apply Hfrom.
Qed.
End Filters.

(** ** The domains of the columns *)

Section Survivors.
Context {T V : Type} `{TypedValues T V} `{FunctionRegistry} `{!VariantEq V}.
Context (functionNames : FunctionNames) (types : gmap nat T)
  (eval : Expr T V -> Row V -> option V)
  (less : V -> V -> bool) (reversed : string -> option string)
  (constant : Expr T V -> option (V * T)) (maxPlanObjects : nat).
Context (Heval : EvalLaws functionNames types eval less reversed constant)
  (Hreversed : reversible_ok functionNames reversed)
  (Hfull : full_registry functionNames = true)
  (Hbetween : forall name bits, between functionNames = Some name ->
    functionBits name false = Ok bits ->
    FunctionSet.contains bits FunctionSet.kNonDefaultNullBehavior = false).
Context (cols : list (Column T)).
Abbreviation Expr := (Expr T V).
Abbreviation ColumnDomain := (FilterSimplifier.ColumnDomain (V:=V)).
Abbreviation typed := (typed functionNames types).
Abbreviation boolean_expr := (boolean_expr functionNames types).
Abbreviation part := (part functionNames types cols).
Abbreviation passes := (passes eval).
Abbreviation F f := (f maxPlanObjects reversed).
Implicit Types (entry : Column T * ColumnDomain) (entries : list (Column T * ColumnDomain))
  (filters : list (option Expr)).

Lemma columns_valid (b : Builder T V) e c :
  arena_ok b -> valid b e -> c ∈ Expr.columns e -> valid b (ColumnExpr c).
Proof.
  intros Hb. revert c. induction e as [c'|v t i|name args t fs i IH|base f t i IH|args body t i IH|cs fs t i]
    using Expr_nested_ind; intros c Hv Hc; simpl in Hc;
    pose proof (valid_children b _ Hb Hv) as Hch; simpl in Hch.
  - by apply list_elem_of_singleton in Hc as ->.
  - by apply not_elem_of_nil in Hc.
  - apply list_elem_of_In, in_flat_map in Hc as (e & He & Hc%list_elem_of_In).
    rewrite List.Forall_forall in IH, Hch. by apply (IH e He c); [apply Hch|].
  - inversion Hch; subst. by apply IH.
  - apply list_elem_of_In, filter_In in Hc as [Hc%list_elem_of_In _].
    apply Forall_app in Hch as [_ Hch]. inversion Hch; subst. by apply IH.
  - rewrite List.Forall_forall in Hch. apply Hch, in_map. by apply list_elem_of_In.
Qed.

(** A filter that is left. *)
Record survivor (b : Builder T V) (e : Expr) : Prop := {
  survivor_valid : valid b e;
  survivor_boolean : boolean_expr e;
  survivor_columns : Expr.columns e ⊆ cols
}.

Lemma survivors_extend b b' es :
  extends b b' -> Forall (survivor b) es -> Forall (survivor b') es.
Proof.
  intros Hext Hes. eapply Forall_impl; [exact Hes|]. intros e []. split; [by eapply valid_extends|done..].
Qed.

(** A column with its domain and the place of its filter. *)
Record entry_ok (b : Builder T V) filters entry : Prop := {
  entry_column : entry.1 ∈ cols;
  entry_valid : valid b (ColumnExpr entry.1);
  entry_typed : types !! column_id entry.1 = Some (column_type entry.1);
  entry_integral : exists limits : Domain V, integralTypeDomain (column_type entry.1) = Some limits;
  entry_domain : column_domain entry.1 (FilterSimplifier.values entry.2);
  entry_place : filters !! FilterSimplifier.outputIndex entry.2 = Some None
}.

Definition in_domain (r : Row V) entry : Prop :=
  on_domain (FilterSimplifier.values entry.2) (integer <$> r !! column_id entry.1) = true.

Definition present filters : list Expr := flat_map option_list filters.

Lemma present_app filters filters' : present (filters ++ filters') = present filters ++ present filters'.
Proof. apply flat_map_app. Qed.

Lemma entry_ok_app b filters x entry : entry_ok b filters entry -> entry_ok b (filters ++ [x]) entry.
Proof. intros []. split; [done..|]. by apply lookup_app_l_Some. Qed.

Definition places (entries : list (Column T * ColumnDomain)) : list nat :=
  map (fun entry => FilterSimplifier.outputIndex entry.2) entries.

Record survivors_ok (b : Builder T V) (seen : list Expr) (s : FilterSimplifier.Survivors) : Prop := {
  survivors_present : Forall (survivor b) (present (FilterSimplifier.surviving s));
  survivors_entries : Forall (entry_ok b (FilterSimplifier.surviving s)) (FilterSimplifier.domains s);
  survivors_places : NoDup (places (FilterSimplifier.domains s));
  survivors_pass r : row_ok types r ->
    Forall (passes r) (present (FilterSimplifier.surviving s)) /\
    Forall (in_domain r) (FilterSimplifier.domains s) <-> Forall (passes r) seen
}.

Lemma narrow_spec (column : Column T) (domain : Domain V) entries entries' :
  FilterSimplifier.narrow column domain entries = Some entries' ->
  exists entries1 column' d entries2,
    entries = entries1 ++ (column', d) :: entries2 /\ column_id column = column_id column' /\
    entries' = entries1 ++ (column', FilterSimplifier.mkColumnDomain
      (Domain.intersect (FilterSimplifier.values d) domain) (FilterSimplifier.outputIndex d)) :: entries2.
Proof.
  revert entries'. induction entries as [|[c d] entries IH]; intros entries'; simpl; [done|].
  destruct (Nat.eqb_spec (column_id column) (column_id c)) as [Hid|_].
  - intros [= <-]. by exists [], c, d, entries.
  - destruct (FilterSimplifier.narrow column domain entries) as [es|]; [|done]. simpl. intros [= <-].
    destruct (IH es eq_refl) as (es1 & c' & d' & es2 & -> & Hid & ->).
    by exists ((c, d) :: es1), c', d', es2.
Qed.

Lemma on_domain_intersect (column : Column T) (d d' : Domain V) x :
  column_domain column d -> column_domain column d' ->
  on_domain (Domain.intersect d d') x = true <-> on_domain d x = true /\ on_domain d' x = true.
Proof.
  intros Hd Hd'. destruct (intersect_sound d d' (of_int64 <$> x)) as [_ Hi]; [apply Hd|apply Hd'|].
  exact Hi.
Qed.

(** A candidate that is kept. *)
Lemma keep_candidate b seen s e :
  survivors_ok b seen s -> part b e ->
  survivors_ok b (seen ++ [e]) (FilterSimplifier.mkSurvivors (FilterSimplifier.domains s)
    (FilterSimplifier.surviving s ++ [Some e])).
Proof.
  intros [Hp He Hn Hr] [Hv Hb _ Hc]. split; simpl; [| |done|].
  - rewrite present_app. apply Forall_app. split; [done|]. by each.
  - eapply Forall_impl; [exact He|]. intros entry. apply entry_ok_app.
  - intros r Hrow. rewrite present_app, !Forall_app, <- Hr by done. simpl. tauto.
Qed.

Lemma add_candidate_spec b seen s e :
  arena_ok b -> survivors_ok b seen s -> part b e ->
  exists s', FilterSimplifier.add_candidate functionNames s e = Ok s' /\ survivors_ok b (seen ++ [e]) s'.
Proof.
  intros Hb Hs He. pose proof (keep_candidate _ _ _ _ Hs He) as Hkeep.
  unfold FilterSimplifier.add_candidate.
  destruct (Expr.onlyColumn e) as [column|] eqn:Hcol; [|by eexists].
  destruct (integralTypeDomain (column_type column)) as [limits|] eqn:Hlimits; [|by eexists].
  destruct (exprToDomain_never_throws functionNames e) as [[d|] Hd]; rewrite Hd; simpl; [|by eexists].
  destruct He as [Hv [Ht Hty] Hbd Hc].
  assert (Hin : column ∈ Expr.columns e).
  { unfold Expr.onlyColumn, Expr.onlyObject in Hcol. destruct (Expr.columns e); [done|]. destruct (forallb _ _); [|done].
    injection Hcol as ->. by left. }
  pose proof (typed_columns functionNames types e column Ht Hin) as Htyped.
  destruct (exprToDomain_integral functionNames types eval less reversed constant Heval Hfull
    column limits Hlimits Htyped e d Ht Hbd Hcol Hd) as [Hdom Hpass].
  eexists. split; [reflexivity|]. destruct Hs as [Hp Hes Hn Hr].
  destruct (FilterSimplifier.narrow _ _ _) as [entries'|] eqn:Hnarrow.
  - apply narrow_spec in Hnarrow as (es1 & c & cd & es2 & Heq & Hid & ->).
    rewrite Heq in Hes, Hn, Hr. apply Forall_app in Hes as [Hes1 Hes2].
    inversion Hes2 as [|? ? [] Hes2']; subst. simpl in *.
    assert (c = column) as ->.
    { rewrite Hid in Htyped. rewrite entry_typed0 in Htyped. injection Htyped as Htt.
      destruct c, column. simpl in *. by f_equal. }
    split; simpl; [done| | |].
    + apply Forall_app. split; [done|]. constructor; [|done]. split; simpl; try done.
      apply column_domain_intersect; [apply entry_domain0|apply Hdom|by left].
    + unfold places in *. rewrite map_app in *. exact Hn.
    + intros r Hrow. rewrite !Forall_app, <- Hr, !Forall_app, !Forall_cons, Forall_nil, Hpass by done.
      unfold in_domain at 2. simpl.
      rewrite (on_domain_intersect column) by done. unfold in_domain at 4. simpl. tauto.
  - split; simpl.
    + rewrite present_app. simpl. by rewrite app_nil_r.
    + apply Forall_app. split; [eapply Forall_impl; [exact Hes|]; intros entry; apply entry_ok_app|].
      constructor; [|constructor]. split; simpl; [by apply Hc|by apply (columns_valid b e)|done|by eexists|done|].
      by rewrite lookup_app_r, Nat.sub_diag.
    + unfold places. rewrite map_app. apply NoDup_app. split; [done|]. split; [|by apply NoDup_singleton].
      intros i Hi Hi'. apply list_elem_of_singleton in Hi' as ->.
      apply list_elem_of_In, in_map_iff in Hi as (entry & Hplace & Hentry).
      rewrite List.Forall_forall in Hes. destruct (Hes _ Hentry).
      apply lookup_lt_Some in entry_place0. rewrite Hplace in entry_place0. simpl in entry_place0. lia.
    + intros r Hrow. rewrite present_app, app_nil_r, !Forall_app, <- Hr, !Forall_singleton, Hpass by done.
      unfold in_domain at 2. simpl. tauto.
Qed.

Lemma add_candidates_spec b seen s es :
  arena_ok b -> survivors_ok b seen s -> Forall (part b) es ->
  exists s', FilterSimplifier.add_candidates functionNames s es = Ok s' /\ survivors_ok b (seen ++ es) s'.
Proof.
  intros Hb. revert seen s. induction es as [|e es IH]; intros seen s Hs Hes.
  { exists s. by rewrite app_nil_r. }
  inversion Hes; subst. destruct (add_candidate_spec b seen s e) as (s' & Hs' & Hok); [done..|].
  simpl. rewrite Hs'. simpl. destruct (IH _ _ Hok) as (s'' & Hs'' & Hok'); [done|].
  exists s''. split; [done|]. by rewrite <- app_assoc in Hok'.
Qed.

(** *** The filters of the domains *)

Lemma isNone_spec (d : Domain V) x : Domain.isNone d = true -> on_domain d x = false.
Proof.
  unfold Domain.isNone, on_domain, domain_contains. intros [Hn Hr]%andb_true_iff.
  destruct d as [nulls [|]]; try done. simpl in *. apply negb_true_iff in Hn as ->.
  by destruct x.
Qed.

(** A place is filled. *)
Lemma fill filters i x :
  filters !! i = Some None -> exists l1 l2, filters = l1 ++ None :: l2 /\ <[i := x]> filters = l1 ++ x :: l2.
Proof.
  intros Hi. exists (take i filters), (drop (S i) filters). split.
  - by rewrite take_drop_middle.
  - apply insert_take_drop. by eapply lookup_lt_Some.
Qed.

Lemma present_fill l1 x l2 P :
  Forall P (present (l1 ++ x :: l2)) <-> Forall P (present (l1 ++ None :: l2)) /\ Forall P (option_list x).
Proof.
  rewrite !present_app, !Forall_app. change (present (x :: l2)) with (option_list x ++ present l2).
  change (present (None :: l2)) with (present l2). rewrite Forall_app. tauto.
Qed.

Lemma entries_extend b b' filters entries :
  extends b b' -> Forall (entry_ok b filters) entries -> Forall (entry_ok b' filters) entries.
Proof.
  intros Hext He. eapply Forall_impl; [exact He|]. intros entry []. split; try done. by eapply valid_extends.
Qed.

Lemma entry_ok_other b filters i x entry :
  i <> FilterSimplifier.outputIndex entry.2 -> entry_ok b filters entry -> entry_ok b (<[i := x]> filters) entry.
Proof. intros Hi []. split; try done. by rewrite list_lookup_insert_ne. Qed.

(** The filter of one entry. *)
Lemma entry_filter b0 filters entry :
  entry_ok b0 filters entry -> Domain.isNone (FilterSimplifier.values entry.2) = false ->
  builds b0 (F DomainFilter.domainToFilter functionNames entry.1 (FilterSimplifier.values entry.2))
    (fun b filter => Forall (survivor b) (option_list filter) /\
       forall r, row_ok types r -> Forall (passes r) (option_list filter) <-> in_domain r entry).
Proof.
  intros [Hc Hv Ht [limits Hlimits] Hd _] Hnone.
  eapply builds_weaken.
  - apply (domainToFilter_spec functionNames types eval less reversed constant maxPlanObjects
      Heval Hreversed Hfull entry.1 limits Hlimits Ht b0 Hv); [reflexivity|done|done].
  - cbn beta. intros b [e|] _ _ Ho; simpl.
    + destruct Ho as [Hv' Hb' Hc' Ht']. split.
      * each. split; [done..|]. intros c Hin%Hc'. by apply list_elem_of_singleton in Hin as ->.
      * intros r Hr. rewrite Forall_singleton. by apply Ht'.
    + split; [constructor|]. intros r Hr. unfold in_domain. rewrite Ho by done. by rewrite Forall_nil.
Qed.

Lemma emit_domains_spec b0 filters entries :
  Forall (survivor b0) (present filters) -> Forall (entry_ok b0 filters) entries -> NoDup (places entries) ->
  builds b0 (F FilterSimplifier.emit_domains functionNames filters entries) (fun b o =>
    match o with
    | None => forall r, row_ok types r -> ~ Forall (in_domain r) entries
    | Some out => Forall (survivor b) (present out) /\
        forall r, row_ok types r -> Forall (passes r) (present out) <->
          Forall (passes r) (present filters) /\ Forall (in_domain r) entries
    end).
Proof.
  revert b0 filters. induction entries as [|[column d] entries IH]; intros b0 filters Hp He Hn.
  { apply builds_ret. intros b _ Hext. split; [by apply (survivors_extend b0)|].
    intros r _. rewrite Forall_nil. tauto. }
  inversion He as [|? ? Hentry Hrest]; subst. simpl in Hn. apply NoDup_cons in Hn as [Hfresh Hn].
  simpl. destruct (Domain.isNone (FilterSimplifier.values d)) eqn:Hnone.
  { apply builds_ret. intros b _ _ r Hr [Hin _]%Forall_cons. unfold in_domain in Hin.
    rewrite (isNone_spec _ _ Hnone) in Hin. done. }
  eapply builds_bind; [by apply (entry_filter b0 filters (column, d))|].
  cbn beta. intros b1 filter Hb1 Hext1 [Hsf Hpf].
  destruct (fill filters _ filter (entry_place _ _ _ Hentry)) as (l1 & l2 & Heq & Hfill).
  simpl in Hfill. rewrite Hfill. eapply builds_weaken.
  - apply (IH b1); [| |done].
    + apply present_fill. rewrite <- Heq. split; [by apply (survivors_extend b0)|done].
    + rewrite <- Hfill. apply (entries_extend b0); [done|].
      rewrite List.Forall_forall in *. intros entry Hin. apply entry_ok_other; [|by apply Hrest].
      intros Hi. apply Hfresh. rewrite Hi. apply list_elem_of_In, in_map_iff. by exists entry.
  - cbn beta. intros b2 [out|] _ _ Hout.
    + destruct Hout as [? Hout]. split; [done|]. intros r Hr.
      rewrite Hout, present_fill, <- Heq, Forall_cons, Hpf by done. tauto.
    + intros r Hr [_ Hin]%Forall_cons. by apply (Hout r Hr).
Qed.

(** *** The whole filter *)

Context (traversal : list (Column T * ColumnDomain) -> list (Column T * ColumnDomain))
  (Htraversal : forall entries, traversal entries ≡ₚ entries).
#[local] Instance survivors_world : World (Simplifier T V) := simplifier_world functionNames types eval.

Lemma flatten_weight target (e : Expr) :
  Forall (fun p => weight functionNames p <= weight functionNames e) (ExprFactory.flattenInto target e).
Proof.
  induction e as [| |name args t fs i IH| | |] using Expr_nested_ind; try by each.
  simpl. destruct (String.eqb name target); [|by each].
  rewrite List.Forall_forall in *. intros p (e & He & Hp)%in_flat_map.
  specialize (IH e He). rewrite List.Forall_forall in IH. specialize (IH p Hp).
  pose proof (args_weight functionNames e args He). lia.
Qed.

Lemma permuted_entries b filters entries :
  Forall (entry_ok b filters) entries -> NoDup (places entries) ->
  Forall (entry_ok b filters) (traversal entries) /\ NoDup (places (traversal entries)) /\
  forall r, Forall (in_domain r) (traversal entries) <-> Forall (in_domain r) entries.
Proof.
  intros He Hn. pose proof (Htraversal entries) as Hperm. split; [by rewrite Hperm|]. split.
  - unfold places. by rewrite (Permutation_map _ Hperm).
  - intros r. by rewrite Hperm.
Qed.

Context (predicate : Expr) (Hcols : cols = Expr.columns predicate).

Lemma predicate_conjuncts b n :
  arena_ok b -> valid b predicate -> boolean_expr predicate -> weight functionNames predicate <= n ->
  Forall (conjunct functionNames types cols n b) (ExprFactory.flattenAnd predicate).
Proof.
  intros Hb Hv Hbool Hw.
  pose proof (flatten_parts functionNames types true b predicate Hb Hv Hbool) as Hparts.
  pose proof (flatten_weight kAnd predicate) as Hws. change (flatten true predicate) with (ExprFactory.flattenAnd predicate) in Hparts.
  rewrite List.Forall_forall in *. intros e He. destruct (Hparts e He) as (? & ? & ?).
  specialize (Hws e He). split; [done|done|by rewrite Hcols|lia].
Qed.

(** What [simplifyFilter] returns, and has appended to [into]. *)
Definition filtered (b : Builder T V) (into : list Expr) (result : bool * list Expr) : Prop :=
  if result.1 then
    result.2 = into /\ forall r, row_ok types r -> ~ passes r predicate
  else
    exists conjuncts, result.2 = into ++ conjuncts /\ Forall (survivor b) conjuncts /\
      forall r, row_ok types r -> Forall (passes r) conjuncts <-> passes r predicate.

Lemma passes_conjuncts r : passes r predicate <-> Forall (passes r) (ExprFactory.flattenAnd predicate).
Proof. exact (passes_flatten functionNames types eval less reversed constant Heval true r predicate). Qed.

Lemma simplifyFilter_spec (s0 : Simplifier T V) fuel into :
  arena_ok (builder s0) -> valid (builder s0) predicate -> boolean_expr predicate ->
  weight functionNames predicate <= fuel ->
  builds s0 (F FilterSimplifier.simplifyFilter functionNames constant traversal fuel predicate into)
    (fun s result => filtered (builder s) into result).
Proof.
  intros Hb0 Hv Hbool Hw. unfold FilterSimplifier.simplifyFilter.
  eapply builds_bind.
  { apply (simplify_conjuncts_spec functionNames types eval less reversed constant maxPlanObjects
      Heval Hreversed Hfull Hbetween cols fuel); [|constructor|by apply predicate_conjuncts].
    by apply (simplify_spec functionNames types eval less). }
  cbn beta. intros s1 [candidates|] Hs1 Hext1 Hcand.
  2: { apply builds_ret. intros s _ _. split; [done|]. intros r Hr Hp%passes_conjuncts. by apply (Hcand r Hr). }
  destruct Hcand as [Hparts Hcand].
  assert (Hempty : survivors_ok (builder s1) [] (FilterSimplifier.mkSurvivors [] [])).
  { split; simpl; [constructor..|]. intros r _. by rewrite !Forall_nil. }
  destruct (add_candidates_spec (builder s1) [] _ candidates (proj1 Hs1) Hempty Hparts)
    as (survivors & Hsur & [Hp He Hn Hr]).
  eapply (builds_bind _ _ _ (fun _ a => a = survivors)).
  { apply builds_lift; [by rewrite Hsur|]. intros s a _ _. rewrite Hsur. by intros [= ->]. }
  intros s2 ? Hs2 Hext2 ->.
  destruct (permuted_entries _ _ _ He Hn) as (He' & Hn' & Hin).
  eapply builds_bind.
  { apply (builds_on functionNames types eval s2).
    apply emit_domains_spec; [by apply (survivors_extend (builder s1))|by apply (entries_extend (builder s1))|done]. }
  cbn beta. intros s3 [filters|] Hs3 Hext3 Hout; apply builds_ret; intros s4 _ Hext4.
  - destruct Hout as [Hsv Hout]. exists (present filters). split; [done|].
    split; [by apply (survivors_extend (builder s3))|].
    intros r Hrow. rewrite Hout, Hin, Hr, passes_conjuncts by done. simpl app.
    rewrite Hcand by done. rewrite Forall_nil. tauto.
  - split; [done|]. intros r Hrow Hpass%passes_conjuncts. apply (Hout r Hrow), Hin.
    apply (Hr r Hrow). simpl. apply Hcand; [done|]. split; [constructor|done].
Qed.
End Survivors.

Section Filter.
Context {T V : Type} `{TypedValues T V} `{FunctionRegistry} `{!VariantEq V}.
Context (functionNames : FunctionNames) (types : gmap nat T)
  (eval : Expr T V -> Row V -> option V)
  (less : V -> V -> bool) (reversed : string -> option string)
  (constant : Expr T V -> option (V * T)) (maxPlanObjects : nat).

(** C10: Simplifying a filter keeps what it accepts.  [simplifyFilter] ends; if it
    returns [true], [into] is as it was and no row makes the filter true; if it
    returns [false], it has appended boolean expressions over columns of the filter,
    and a row makes the filter true if and only if it makes each of them true - the
    conjuncts of AND, what the disjuncts of OR have in common, and the intersections
    of the domains of integral columns included, in whatever order the map of
    domains is traversed. *)
Theorem simplifyFilter_keeps_rows
  (traversal : list (Column T * FilterSimplifier.ColumnDomain (V:=V)) -> _)
  (s : Simplifier T V) predicate fuel into :
  EvalLaws functionNames types eval less reversed constant -> reversible_ok functionNames reversed ->
  full_registry functionNames = true ->
  (forall name bits, between functionNames = Some name -> functionBits name false = Ok bits ->
    FunctionSet.contains bits FunctionSet.kNonDefaultNullBehavior = false) ->
  (forall entries, traversal entries ≡ₚ entries) ->
  arena_ok (builder s) -> memo_ok functionNames types eval s -> valid (builder s) predicate ->
  typed functionNames types predicate = true -> Expr.expr_type predicate = booleanType ->
  weight functionNames predicate <= fuel ->
  match FilterSimplifier.simplifyFilter maxPlanObjects reversed functionNames constant traversal
          fuel predicate into s with
  | Ok (true, into', _) =>
      into' = into /\ forall r, row_ok types r -> truth_of eval predicate r <> Some true
  | Ok (false, into', s') =>
      exists conjuncts, into' = into ++ conjuncts /\
        Forall (fun e => valid (builder s') e /\ typed functionNames types e = true /\
          Expr.expr_type e = booleanType /\ Expr.columns e ⊆ Expr.columns predicate) conjuncts /\
        forall r, row_ok types r ->
          Forall (fun e => truth_of eval e r = Some true) conjuncts <->
          truth_of eval predicate r = Some true
  | Throw err => err <> OutOfFuel
  end.
Proof.
  intros Heval Hreversed Hfull Hbetween Htraversal Hb Hm Hv Ht Hbool Hw.
  pose proof (simplifyFilter_spec functionNames types eval less reversed constant maxPlanObjects
    Heval Hreversed Hfull Hbetween (Expr.columns predicate) traversal Htraversal predicate eq_refl
    s fuel into Hb Hv (conj Ht Hbool) Hw s (conj Hb Hm) (PreOrder_Reflexive (builder s))) as Hs.
  destruct (FilterSimplifier.simplifyFilter _ _ _ _ _ _ _ _ s) as [[[never into'] s']|]; [|done].
  destruct never.
  - by destruct Hs as (_ & _ & Hs).
  - destruct Hs as (_ & _ & conjuncts & Hinto & Hc & Hpass). simpl in Hinto. subst into'. exists conjuncts. split; [done|].
    split; [|exact Hpass]. eapply Forall_impl; [exact Hc|]. by intros e [? [] ?].
Qed.
End Filter.
