(* ===== verification/SimplifierExamples.v ===== *)
(** * Simplification on the Presto registry

    The theorems on interned expressions and on the simplifier at concrete
    expressions, with the evaluator of [SqlEngine]. *)

From Stdlib Require Import ZArith Lia.
From S2P Require Import Prelude Domains DomainSets Expressions ExprDomains IntegralDomains SqlSemantics SqlEngine Builders ExprFactories DomainFilters ExprSimplifiers NonNullSimplifiers FilterSimplifiers.

Local Open Scope nat_scope.
Set Warnings "-register-all".

#[export] Instance val_variant_eq : VariantEq Val.
Proof. exact SqlEngine.veq_eq. Qed.

Definition max_objects : nat := 100.
Abbreviation P f := (f max_objects presto_reversed).
Abbreviation M := (StateM (Builder Ty Val)).

Lemma presto_reversible : reversible_ok presto presto_reversed.
Proof.
  intros name name'. unfold presto_reversed.
  repeat match goal with
  | |- context [if String.eqb name ?s then _ else _] =>
      destruct (String.eqb_spec name s) as [->|_]; [by intros [= <-]; split; [|auto]|]
  end.
  done.
Qed.

(** BETWEEN has default null behavior. *)
Lemma presto_between name bits :
  between presto = Some name -> functionBits name false = Ok bits ->
  FunctionSet.contains bits FunctionSet.kNonDefaultNullBehavior = false.
Proof. intros [= <-] [= <-]. vm_compute. reflexivity. Qed.

(** ** A builder with expressions *)

Definition no_objects : Builder Ty Val := mkBuilder ∅ 0 [] [].

Lemma no_objects_ok : arena_ok no_objects.
Proof. by split. Qed.

(** [a] and [b] are the first objects. *)
Definition a_col : Column Ty := mkColumn 0 (Prim SMALLINT).
Definition b_col : Column Ty := mkColumn 1 (Prim SMALLINT).
Definition types : gmap nat Ty := {[ 0 := Prim SMALLINT; 1 := Prim SMALLINT ]}.

(** An expression, built from its leaves up. *)
Fixpoint build (e : Filter) : M Filter :=
  match e with
  | LiteralExpr v t _ => Builder.makeLiteral max_objects v t
  | CallExpr name args t _ _ =>
      args ← (fix build_all (args : list Filter) : M (list Filter) :=
                match args with
                | [] => mret []
                | arg :: args => arg ← build arg; args ← build_all args; mret (arg :: args)
                end) args;
      P ExprFactory.makeCall name t args (isSpecialForm name)
  | e => found ← gets (fun b => objects b !! Expr.expr_id e);
         match found with Some e => mret e | None => throw (VeloxUnreachable "") end
  end.

Definition build_with_columns (e : Filter) : M Filter :=
  Builder.make max_objects (fun i => ColumnExpr (mkColumn i (Prim SMALLINT))) ≫= fun _ =>
  Builder.make max_objects (fun i => ColumnExpr (mkColumn i (Prim SMALLINT))) ≫= fun _ =>
  build e.

Lemma factory_makeCall_valid (b0 : Builder Ty Val) name t args special :
  Forall (valid b0) args -> builds b0 (P ExprFactory.makeCall name t args special) valid.
Proof.
  intros Hargs. eapply builds_bind.
  - apply (builds_lift b0 _ (fun _ _ => True)); [by apply functionBits_fuel|done].
  - intros b bits _ Hext _. eapply builds_weaken; [apply makeCall_spec; by eapply valids_extends|].
    by intros b1 e _ _ [? _].
Qed.

Lemma build_valid e (b0 : Builder Ty Val) : builds b0 (build e) valid.
Proof.
  assert (Hfound : forall i b0, builds b0
    (found ← gets (fun b => objects b !! i);
     match found with Some e => mret e | None => throw (VeloxUnreachable "") end : M Filter) valid).
  { intros i b1. eapply (builds_bind _ _ _ (fun b found => objects b !! i = found)).
    - intros b Hb _. split; [done|]. split; [reflexivity|done].
    - intros b [e1|] Hb _ Hf; [|by intros b2 _ _]. apply builds_ret. intros b2 _ Hext.
      apply (objects_ok b Hb) in Hf as Hid. destruct Hid as [<- _].
      by apply (valid_extends b). }
  revert b0. induction e as [c|v t i|name args t fs i IH|base f t i IH|args body t i IH|cs fs t i]
    using Expr_nested_ind; intros b0; try apply Hfound.
  - eapply builds_weaken; [apply makeLiteral_spec|]. by intros b e _ _ [? _].
  - eapply (builds_bind _ _ _ (fun b args => Forall (valid b) args)).
    + clear Hfound. revert b0. induction IH as [|arg args Harg _ IH]; intros b0.
      { by apply builds_ret. }
      eapply builds_bind; [apply Harg|]. intros b1 e1 _ _ He1.
      eapply builds_bind; [apply IH|]. cbn beta. intros b2 es _ Hext2 Hes.
      apply builds_ret. intros b3 _ Hext3. constructor.
      * apply (valid_extends b1); [by transitivity b2|done].
      * by apply (valids_extends b2).
    + intros b args' _ _ Hargs. by apply factory_makeCall_valid.
Qed.

Lemma build_with_columns_valid e : builds no_objects (build_with_columns e) valid.
Proof.
  eapply builds_bind; [by apply make_spec|]. intros b1 _ _ _ _.
  eapply builds_bind; [by apply make_spec|]. intros b2 _ _ _ _. apply build_valid.
Qed.

(** The result, and the builder after it. *)
Definition built (e : Filter) : Filter * Builder Ty Val :=
  match build_with_columns e no_objects with
  | Ok built => built
  | Throw _ => (e, no_objects)
  end.

Definition is_ok {A} (r : Result A) : bool := match r with Ok _ => true | Throw _ => false end.

Lemma built_valid e :
  is_ok (build_with_columns e no_objects) = true ->
  arena_ok (built e).2 /\ valid (built e).2 (built e).1.
Proof.
  unfold built. destruct (build_with_columns e no_objects) as [[e' b]|] eqn:Hrun; [|done].
  by destruct (builds_run _ _ _ _ _ (build_with_columns_valid e) no_objects_ok Hrun) as (? & _ & ?).
Qed.

(** ** Expressions *)

Definition lit (n : Z) : Filter := LiteralExpr (VInt SMALLINT n) (Prim SMALLINT) 0.
Definition bool_lit (b : bool) : Filter := LiteralExpr (VBool b) (Prim BOOLEAN) 0.
Definition call (name : string) (args : list Filter) : Filter :=
  CallExpr name args (Prim BOOLEAN) 0 0.
Definition a : Filter := ColumnExpr a_col.
Definition b : Filter := ColumnExpr b_col.
Definition pair_type : Ty := RowOf [Prim SMALLINT; Prim SMALLINT].

(** [ROW(a, 1) = ROW(2, 1) AND IF(true, a > 0, b < 0) AND coalesce(NULL, a) < 5] *)
Definition a_filter : Filter :=
  call kAnd
    [ call "eq" [CallExpr kRowConstructor [a; lit 1] pair_type 0 0;
                 LiteralExpr (VRow [VInt SMALLINT 2; VInt SMALLINT 1]) pair_type 0];
      call kIf [bool_lit true; call "gt" [a; lit 0]; call "lt" [b; lit 0]];
      call "lt" [CallExpr kCoalesce [LiteralExpr (VNull SMALLINT) (Prim SMALLINT) 0; a] (Prim SMALLINT) 0 0;
                 lit 5] ].

(** [a = 2 AND a > 0 AND a < 5] *)
Definition simpler_filter : Filter :=
  call kAnd [call "eq" [a; lit 2]; call "gt" [a; lit 0]; call "lt" [a; lit 5]].

(** Expressions that differ in function sets and ids. *)
Fixpoint erase (e : Filter) : Filter :=
  match e with
  | CallExpr name args t _ _ => CallExpr name (map erase args) t 0 0
  | LiteralExpr v t _ => LiteralExpr v t 0
  | e => e
  end.

(** [simplify] on a builder that has just the expression. *)
Definition simplifier_of (e : Filter) : Simplifier Ty Val := mkSimplifier (built e).2 ∅.
Definition run_simplify (e : Filter) : Result (Filter * Simplifier Ty Val) :=
  P ExprSimplifier.simplify presto presto_constant (weight presto (built e).1) (built e).1 (simplifier_of e).

Lemma no_memo e : memo_ok presto types eval (simplifier_of e).
Proof. intros i e'. simpl. by rewrite lookup_empty. Qed.

Definition simplified_filter : Filter :=
  match run_simplify a_filter with Ok (e, _) => e | Throw _ => a end.

Lemma simplify_preserves_witness :
  erase simplified_filter = simpler_filter /\
  forall r, row_ok types r -> eval simplified_filter r = eval (built a_filter).1 r.
Proof.
  split; [vm_compute; reflexivity|].
  assert (Hbuilt : is_ok (build_with_columns a_filter no_objects) = true) by (vm_compute; reflexivity).
  assert (Htyped : typed presto types (built a_filter).1 = true) by (vm_compute; reflexivity).
  destruct (built_valid a_filter Hbuilt) as [Hok Hv].
  pose proof (simplify_preserves presto types eval val_less presto_reversed presto_constant max_objects
    (presto_laws types) presto_reversible presto_full presto_between (simplifier_of a_filter)
    (built a_filter).1 (weight presto (built a_filter).1) Hok (no_memo a_filter) Hv Htyped (le_n _)) as Hs.
  assert (Hrun : is_ok (run_simplify a_filter) = true) by (vm_compute; reflexivity).
  unfold simplified_filter, run_simplify in *.
  destruct (ExprSimplifier.simplify _ _ _ _ _ _ _) as [[e s]|]; [|discriminate Hrun].
  apply Hs.
Defined.

(** ** Filters *)

(** [((a > 0 AND b = 1) OR (b = 2 AND a > 0)) AND a < 10 AND NOT a = 5 AND true] *)
Definition an_or_filter : Filter :=
  call kAnd
    [ call kOr [call kAnd [call "gt" [a; lit 0]; call "eq" [b; lit 1]];
                call kAnd [call "eq" [b; lit 2]; call "gt" [a; lit 0]]];
      call "lt" [a; lit 10]; call "not" [call "eq" [a; lit 5]]; bool_lit true ].

Definition run_simplifyFilter (e : Filter) : Result (bool * list Filter * Simplifier Ty Val) :=
  P FilterSimplifier.simplifyFilter presto presto_constant (@rev _)
    (weight presto (built e).1) (built e).1 [] (simplifier_of e).

Definition left_over (e : Filter) : list Filter :=
  match run_simplifyFilter e with Ok (false, es, _) => es | _ => [] end.

(** [(a > 0 AND a < 5) OR (a > 5 AND a < 10)] and [b IN (1, 2)]. *)
Definition a_and_b : list Filter :=
  [ call kOr [call kAnd [call "gt" [a; lit 0]; call "lt" [a; lit 5]];
              call kAnd [call "gt" [a; lit 5]; call "lt" [a; lit 10]]];
    call kIn [b; LiteralExpr (VArr [VInt SMALLINT 1; VInt SMALLINT 2]) (ArrayOf (Prim SMALLINT)) 0] ].

Lemma simplifyFilter_keeps_rows_witness :
  map erase (left_over an_or_filter) = a_and_b /\
  forall r, row_ok types r ->
    Forall (fun e => truth_of eval e r = Some true) (left_over an_or_filter) <->
    truth_of eval (built an_or_filter).1 r = Some true.
Proof.
  split; [vm_compute; reflexivity|].
  assert (Hbuilt : is_ok (build_with_columns an_or_filter no_objects) = true) by (vm_compute; reflexivity).
  assert (Htyped : typed presto types (built an_or_filter).1 = true) by (vm_compute; reflexivity).
  assert (Hbool : Expr.expr_type (built an_or_filter).1 = booleanType) by (vm_compute; reflexivity).
  destruct (built_valid an_or_filter Hbuilt) as [Hok Hv].
  pose proof (simplifyFilter_keeps_rows presto types eval val_less presto_reversed presto_constant max_objects
    (@rev _) (simplifier_of an_or_filter) (built an_or_filter).1 (weight presto (built an_or_filter).1) []
    (presto_laws types) presto_reversible presto_full presto_between
    (fun entries => symmetry (Permutation_rev entries)) Hok (no_memo an_or_filter) Hv Htyped Hbool (le_n _)) as Hs.
  assert (Hrun : match run_simplifyFilter an_or_filter with Ok (false, _, _) => true | _ => false end = true)
    by (vm_compute; reflexivity).
  unfold left_over, run_simplifyFilter in *.
  destruct (FilterSimplifier.simplifyFilter _ _ _ _ _ _ _ _ _) as [[[[] es] s]|]; try discriminate Hrun.
  destruct Hs as (conjuncts & -> & _ & Hpass). exact Hpass.
Defined.

(** A filter no row passes: [a > 3 AND (a < 2 OR a = 1)]. *)
Definition empty_filter : Filter :=
  call kAnd [call "gt" [a; lit 3];
             call kOr [call "lt" [a; lit 2];
                       call "eq" [a; lit 1]]].

Example empty_filter_never_passes :
  match run_simplifyFilter empty_filter with Ok (never, _, _) => never | _ => false end = true.
Proof. vm_compute. reflexivity. Qed.

(** ** The filter of a domain *)

Definition outside : Filter := call "not" [call "between" [a; lit 3; lit 7]].
Definition outside_domain : Domain Val :=
  match exprToDomain presto outside with Ok (Some d) => d | _ => Domain.none end.
Definition smallints : Domain Val :=
  match integralTypeDomain (Prim SMALLINT) with Some d => d | None => Domain.none end.

Definition run_domainToFilter : Result (option Filter * Builder Ty Val) :=
  P DomainFilter.domainToFilter presto a_col outside_domain (built a).2.

Lemma domainToFilter_exact_witness :
  match run_domainToFilter with
  | Ok (Some e, _) =>
      erase e = call "not" [call "between" [a; lit 3; lit 7]] /\
      forall r, row_ok types r ->
        truth_of eval e r = Some true <-> on_domain outside_domain (integer <$> r !! 0) = true
  | _ => False
  end.
Proof.
  assert (Hbuilt : is_ok (build_with_columns a no_objects) = true) by (vm_compute; reflexivity).
  destruct (built_valid a Hbuilt) as [Hok _].
  assert (Hcolumn : valid (built a).2 (ColumnExpr a_col)) by (vm_compute; reflexivity).
  assert (Hlimits : integralTypeDomain (column_type a_col) = Some smallints) by (vm_compute; reflexivity).
  assert (Hd : column_domain a_col outside_domain).
  { apply (exprToDomain_column_domain presto a_col smallints Hlimits outside kTrue); vm_compute; reflexivity. }
  pose proof (domainToFilter_exact presto types eval val_less presto_reversed presto_constant max_objects
    (presto_laws types) presto_reversible presto_full a_col smallints Hlimits eq_refl (built a).2 Hcolumn
    outside_domain Hok Hd) as Hs.
  assert (Hsome : Domain.isNone outside_domain = false) by (vm_compute; reflexivity). rewrite Hsome in Hs.
  assert (Hrun : match run_domainToFilter with Ok (Some e, _) => erase e | _ => a end =
    call "not" [call "between" [a; lit 3; lit 7]]) by (vm_compute; reflexivity).
  unfold run_domainToFilter in *.
  destruct (DomainFilter.domainToFilter _ _ _ _ _ _) as [[[e|] b']|]; try discriminate Hrun.
  split; [exact Hrun|].
  destruct Hs as (_ & _ & Hs). intros r Hr. etransitivity; [|exact (Hs r Hr)].
  simpl. by rewrite Forall_singleton.
Defined.

(** ** Columns that are not null *)

(** [coalesce(b, a, 3) = 1 AND NOT a IS NULL AND a = a] *)
Definition null_checks : Filter :=
  call kAnd
    [ call "eq" [CallExpr kCoalesce [b; a; lit 3] (Prim SMALLINT) 0 0; lit 1];
      call "not" [call "is_null" [a]]; call "eq" [a; a] ].

(** [coalesce(b, a) = 1 AND NOT false AND true] *)
Definition no_null_checks : Filter :=
  call kAnd
    [ call "eq" [CallExpr kCoalesce [b; a] (Prim SMALLINT) 0 0; lit 1];
      call "not" [bool_lit false]; bool_lit true ].

Definition run_under_non_null : Result (Filter * Builder Ty Val) :=
  P NonNullSimplifier.simplify presto {[ 0 ]} (built null_checks).1 (built null_checks).2.
Definition under_non_null : Filter :=
  match run_under_non_null with Ok (e, _) => e | Throw _ => a end.

Lemma simplify_under_non_null_witness :
  erase under_non_null = no_null_checks /\
  forall r, row_ok types r -> r !! 0 <> None ->
    eval under_non_null r = eval (built null_checks).1 r.
Proof.
  split; [vm_compute; reflexivity|].
  assert (Hbuilt : is_ok (build_with_columns null_checks no_objects) = true) by (vm_compute; reflexivity).
  assert (Htyped : typed presto types (built null_checks).1 = true) by (vm_compute; reflexivity).
  assert (Hbinds : binds_none {[ 0 ]} (built null_checks).1 = true) by (vm_compute; reflexivity).
  destruct (built_valid null_checks Hbuilt) as [Hok Hv].
  pose proof (simplify_under_non_null presto types eval val_less presto_reversed presto_constant max_objects
    (presto_laws types) presto_reversible presto_full {[ 0 ]} (built null_checks).2 (built null_checks).1
    Hok Hv Htyped Hbinds) as Hs.
  assert (Hrun : is_ok run_under_non_null = true) by (vm_compute; reflexivity).
  unfold under_non_null, run_under_non_null in *.
  destruct (NonNullSimplifier.simplify _ _ _ _ _ _) as [[e s]|]; [|discriminate Hrun].
  destruct Hs as (_ & _ & _ & _ & _ & Hs). intros r Hr Hn. apply Hs; [done|].
  by intros c ->%elem_of_singleton.
Defined.

(** ** Interning *)

Definition two_columns : Builder Ty Val := (built a).2.
Definition made_call (name : string) (args : list Filter) : Result (Filter * Builder Ty Val) :=
  Builder.makeCall max_objects presto_reversed name (Prim BOOLEAN) args 0%N two_columns.

(** [b < a], and again as [a > b]. *)
Definition less_call : Filter := match made_call "lt" [b; a] with Ok (e, _) => e | Throw _ => a end.
Definition less_state : Builder Ty Val := match made_call "lt" [b; a] with Ok (_, s) => s | Throw _ => two_columns end.

Lemma presto_both_directions : both_directions presto_reversed.
Proof.
  intros name name'. unfold presto_reversed.
  repeat match goal with
  | |- context [if String.eqb name ?s then _ else _] =>
      destruct (String.eqb_spec name s) as [->|_]; [by intros [= <-] |]
  end.
  done.
Qed.

Lemma makeCall_interns_witness :
  made_call "lt" [b; a] = Ok (less_call, less_state) /\
  Builder.makeCall max_objects presto_reversed "gt" (Prim BOOLEAN) [a; b] 0%N less_state =
    Ok (less_call, less_state).
Proof.
  assert (Hrun : made_call "lt" [b; a] = Ok (less_call, less_state)) by (vm_compute; reflexivity).
  split; [exact Hrun|].
  assert (Hbuilt : is_ok (build_with_columns a no_objects) = true) by (vm_compute; reflexivity).
  destruct (built_valid a Hbuilt) as [Hok _].
  assert (Hargs : Forall (valid two_columns) [b; a]) by (repeat constructor).
  assert (Hargs' : Forall (valid less_state) [a; b]) by (repeat constructor).
  destruct (builds_run _ _ _ _ _ (makeCall_spec max_objects presto_reversed two_columns "lt"
    (Prim BOOLEAN) [b; a] 0%N Hargs) Hok Hrun) as [Hok' _].
  refine (proj1 (makeCall_interns max_objects presto_reversed two_columns less_state less_state "lt" "gt"
    (Prim BOOLEAN) [b; a] [a; b] 0%N 0%N less_call presto_both_directions _ _ _ _ _ _ _ _) _); try done.
  by apply (same_reversed presto_reversed "lt" [b; a] b a).
Defined.
