(* ===== verification/ImpliedFilters.v ===== *)
(** * Implied filters

    [axiom/optimizer/v2/ImpliedFilters.cpp]: the filters on one side of a join, and
    on single columns, that the filters over several imply, and the key equalities
    of a join that others imply.

    The theorems: the derived filters hold on every row the filters pass, each on
    columns of its group, so an inner join filters its inputs first and returns the
    same rows; the key equalities that are kept, with those derived for the inputs,
    are as strong as all of them.

    A [PlanObjectSet] of columns is the list of them; a group is what [groupFor]
    makes of one. *)

From Stdlib Require Import ZArith Lia.
From S2P Require Import Prelude Domains DomainSets Expressions ExprDomains SqlSemantics Builders ExprFactories ExprSimplifiers FilterSimplifiers.

Local Open Scope nat_scope.
Set Warnings "-register-all".

Module ImpliedFilters.
Section ImpliedFilters.
Context {T V : Type} `{TypeOps T} `{VariantOps V} `{FunctionRegistry}.
Variable maxPlanObjects : nat.
Variable reversibleFunctions : string -> option string.
Variable functionNames : FunctionNames.

Abbreviation Expr := (Expr T V).
Abbreviation M := (StateM (Builder T V)).
Abbreviation F f := (f maxPlanObjects reversibleFunctions).

(** One pass of [combineBalanced]. *)
Fixpoint combine_pairs (combine : Expr -> Expr -> M Expr) (expressions : list Expr) :
    M (list Expr) :=
  match expressions with
  | a :: b :: expressions =>
      ab ← combine a b;
      rest ← combine_pairs combine expressions;
      mret (ab :: rest)
  | _ => mret expressions
  end.

(** The loop, for as many passes as there are expressions. *)
Fixpoint combine_loop (fuel : nat) (combine : Expr -> Expr -> M Expr) (expressions : list Expr) :
    M Expr :=
  match expressions with
  | [] => throw (VeloxCheck "!expressions.empty()")
  | [e] => mret e
  | _ =>
      match fuel with
      | O => throw OutOfFuel
      | S fuel => combine_pairs combine expressions ≫= combine_loop fuel combine
      end
  end.

Definition combineBalanced (expressions : list Expr) (combine : Expr -> Expr -> M Expr) : M Expr :=
  combine_loop (length expressions) combine expressions.

Section Groups.
Context {Group : Type} `{EqDecision Group}.

Record GroupedProjection := mkProjection {
  group : Group;
  filter : Expr;
  matchesSource : bool
}.

Record Accumulator := mkAccumulator {
  acc_group : Group;
  filters : list Expr;
  numMatchedOperands : nat;
  childrenMatchSource : bool
}.

(** The body of the inner loop, on the accumulator of the projection's group; a
    [new] one if there is none, unless [isOr] and the operand is not the first. *)
Fixpoint accumulate (new : bool) (accumulators : list Accumulator) (p : GroupedProjection) :
    list Accumulator :=
  match accumulators with
  | [] => if new then [mkAccumulator (group p) [filter p] 1 (matchesSource p)] else []
  | acc :: accumulators =>
      if decide (acc_group acc = group p)
      then mkAccumulator (acc_group acc) (filters acc ++ [filter p]) (S (numMatchedOperands acc))
             (childrenMatchSource acc && matchesSource p) :: accumulators
      else acc :: accumulate new accumulators p
  end.

(** The outer loop, from [operandIndex]. *)
Fixpoint project_operands (project : Expr -> M (list GroupedProjection)) (isOr : bool)
    (operandIndex : nat) (accumulators : list Accumulator) (operands : list Expr) :
    M (list Accumulator) :=
  match operands with
  | [] => mret accumulators
  | operand :: operands =>
      projections ← project operand;
      project_operands project isOr (S operandIndex)
        (foldl (accumulate (negb (isOr && (0 <? operandIndex)))) accumulators projections) operands
  end.

(** The last loop. *)
Fixpoint combine_accumulators (isAnd : bool) (numOperands : nat) (accumulators : list Accumulator) :
    M (list GroupedProjection) :=
  match accumulators with
  | [] => mret []
  | acc :: accumulators =>
      if negb isAnd && negb (numMatchedOperands acc =? numOperands)
      then combine_accumulators isAnd numOperands accumulators
      else
        filter ← combineBalanced (filters acc)
                   (if isAnd then F ExprFactory.makeAnd else F ExprFactory.makeOr);
        rest ← combine_accumulators isAnd numOperands accumulators;
        mret (mkProjection (acc_group acc) filter
                ((numMatchedOperands acc =? numOperands) && childrenMatchSource acc) :: rest)
  end.

Variable groupFor : list (Column T) -> option Group.

Definition is_call_of (name : string) (e : Expr) : bool :=
  match e with CallExpr name' _ _ _ _ => String.eqb name' name | _ => false end.

Fixpoint projectLogicalExpression (fuel : nat) (expression : Expr) : M (list GroupedProjection) :=
  match fuel with
  | O => throw OutOfFuel
  | S fuel =>
      let isAnd := is_call_of kAnd expression in
      let isOr := is_call_of kOr expression in
      if negb isAnd && negb isOr then
        match groupFor (Expr.columns expression) with
        | None => mret []
        | Some group => mret [mkProjection group expression true]
        end
      else
        let operands := if isAnd then ExprFactory.flattenAnd expression
                        else ExprFactory.flattenOr expression in
        accumulators ← project_operands (projectLogicalExpression fuel) isOr 0 [] operands;
        combine_accumulators isAnd (length operands) accumulators
  end.

Definition deriveGroupedFiltersFromOr (orExpr : Expr) : M (list (Group * Expr)) :=
  if negb (is_call_of kOr orExpr) || Expr.containsNonDeterministic orExpr then mret []
  else
    projections ← projectLogicalExpression (weight functionNames orExpr) orExpr;
    mret (map (fun p => (group p, if matchesSource p then orExpr else filter p)) projections).
End Groups.

(** The values of the fields of the rows, [NULL]s left out. *)
Fixpoint field_values (numFields : nat) (rows : list V) : Result (list (list V)) :=
  match rows with
  | [] => Ok (replicate numFields [])
  | r :: rows =>
      if isNull r then field_values numFields rows
      else
        velox_check (bool_decide (kind r = ROW)) "row.kind(), velox::TypeKind::ROW" ≫= fun _ =>
        velox_check (length (row r) =? numFields) "fields.size(), numFields" ≫= fun _ =>
        values ← field_values numFields rows;
        Ok (zip_with (fun v vs => if isNull v then vs else v :: vs) (row r) values)
  end.

(** The loop over the fields. *)
Fixpoint field_filters (fields : list Expr) (values : list (list V)) :
    M (list (Column T * Expr)) :=
  match fields, values with
  | field :: fields, vs :: values =>
      match Expr.containsNonDeterministic field, Expr.onlyColumn field, vs with
      | false, Some column, _ :: _ =>
          filter ← F ExprFactory.makeIn functionNames field vs;
          rest ← field_filters fields values;
          mret ((column, filter) :: rest)
      | _, _, _ => field_filters fields values
      end
  | _, _ => mret []
  end.

Definition deriveColumnFiltersFromRowIn (expression : Expr) : M (list (Column T * Expr)) :=
  match expression with
  | CallExpr name args _ _ _ =>
      match constantInList name args, args with
      | Some inList, CallExpr rowName fields _ _ _ :: _ =>
          if negb (String.eqb rowName kRowConstructor) || (length fields <? 2) then mret []
          else values ← lift (field_values (length fields) inList); field_filters fields values
      | _, _ => mret []
      end
  | _ => mret []
  end.

Inductive InputSide := kLeft | kRight.

#[export] Instance InputSide_eq_dec : EqDecision InputSide.
Proof. solve_decision. Defined.

(** [PlanObjectSet::isSubset] *)
Definition isSubset (columns : list (Column T)) (set : gset nat) : bool :=
  forallb (fun c => bool_decide (column_id c ∈ set)) columns.

Definition sideOf (leftColumns rightColumns : gset nat) (columns : list (Column T)) :
    option InputSide :=
  match columns with
  | [] => None
  | _ => if isSubset columns leftColumns then Some kLeft
         else if isSubset columns rightColumns then Some kRight else None
  end.

Definition on_side (side : InputSide) (derived : list (InputSide * Expr)) : list Expr :=
  map snd (List.filter (fun p => bool_decide (p.1 = side)) derived).

Fixpoint deriveForJoinInputs (filters : list Expr) (leftColumns rightColumns : gset nat) :
    M (list Expr * list Expr) :=
  match filters with
  | [] => mret ([], [])
  | conjunct :: filters =>
      derived ← deriveGroupedFiltersFromOr (sideOf leftColumns rightColumns) conjunct;
      rest ← deriveForJoinInputs filters leftColumns rightColumns;
      mret (on_side kLeft derived ++ rest.1, on_side kRight derived ++ rest.2)
  end.

(** [std::ranges::equal], with a predicate that can throw. *)
Fixpoint ranges_equal (equal : Expr -> Expr -> Result bool) (lhs rhs : list Expr) : Result bool :=
  match lhs, rhs with
  | l :: lhs, r :: rhs =>
      same ← equal l r;
      if same : bool then ranges_equal equal lhs rhs else Ok false
  | _, _ => Ok true
  end.

Fixpoint equivalentModuloLogicalAssociativity (fuel : nat) (lhs rhs : Expr) : Result bool :=
  match fuel with
  | O => Throw OutOfFuel
  | S fuel =>
      if Expr.same lhs rhs then Ok true
      else
        match lhs, rhs with
        | CallExpr name _ _ _ _, CallExpr name' _ _ _ _ =>
            if negb (String.eqb name name') then Ok false
            else if String.eqb name kAnd || String.eqb name kOr then
              let lhsOperands := ExprFactory.flattenInto name lhs in
              let rhsOperands := ExprFactory.flattenInto name rhs in
              if length lhsOperands =? length rhsOperands
              then ranges_equal (equivalentModuloLogicalAssociativity fuel) lhsOperands rhsOperands
              else Ok false
            else Ok false
        | _, _ => Ok false
        end
  end.

(** [std::ranges::none_of] over the original filters on the column. *)
Fixpoint none_equivalent (filter : Expr) (originals : list Expr) : Result bool :=
  match originals with
  | [] => Ok true
  | original :: originals =>
      equivalent ← equivalentModuloLogicalAssociativity (weight functionNames original) original filter;
      if equivalent : bool then Ok false else none_equivalent filter originals
  end.

(** [originalFiltersByColumn] *)
Definition originalFilters (filters : list Expr) (column : Column T) : list Expr :=
  List.filter (fun filter =>
    match Expr.onlyColumn filter with
    | Some column' => column_id column' =? column_id column
    | None => false
    end) filters.

(** The inner loop, on [uniqueFilters] and [result]. *)
Fixpoint add_derived (filters : list Expr) (state : gset nat * list Expr)
    (derived : list (Column T * Expr)) : Result (gset nat * list Expr) :=
  match derived with
  | [] => Ok state
  | (column, filter) :: derived =>
      let '(uniqueFilters, result) := state in
      if bool_decide (Expr.expr_id filter ∈ uniqueFilters) then add_derived filters state derived
      else
        new ← none_equivalent filter (originalFilters filters column);
        add_derived filters
          ({[Expr.expr_id filter]} ∪ uniqueFilters, if new : bool then result ++ [filter] else result)
          derived
  end.

Fixpoint derive_columns (filters : list Expr) (state : gset nat * list Expr)
    (originals : list Expr) : M (list Expr) :=
  match originals with
  | [] => mret state.2
  | original :: originals =>
      derived ← deriveGroupedFiltersFromOr Expr.onlyObject original;
      rowIn ← deriveColumnFiltersFromRowIn original;
      state ← lift (add_derived filters state (derived ++ rowIn));
      derive_columns filters state originals
  end.

Definition deriveForColumns (filters : list Expr) : M (list Expr) :=
  derive_columns filters (list_to_set (map Expr.expr_id filters), []) filters.

(** *** Key equalities *)

Record KeyEqualities := mkKeyEqualities {
  left : list Expr;
  right : list Expr;
  redundant : list bool
}.

Definition addOnce (equalities : list Expr) (equality : Expr) : list Expr :=
  if existsb (fun e => Expr.same e equality) equalities then equalities
  else equalities ++ [equality].

(** The body of the loop, on the key pairs [kept] so far. *)
Definition derive_key (kept : list (Expr * Expr)) (result : KeyEqualities) (keys : Expr * Expr) :
    M (list (Expr * Expr) * KeyEqualities) :=
  let '(mkKeyEqualities left right redundant) := result in
  if Expr.containsNonDeterministic keys.1 || Expr.containsNonDeterministic keys.2
  then mret (kept, mkKeyEqualities left right (redundant ++ [false]))
  else
    match List.find (fun earlier => Expr.same earlier.1 keys.1 || Expr.same earlier.2 keys.2) kept with
    | None => mret (kept ++ [keys], mkKeyEqualities left right (redundant ++ [false]))
    | Some earlier =>
        if negb (Expr.same earlier.1 keys.1) then
          equality ← F ExprFactory.makeEq functionNames earlier.1 keys.1;
          mret (kept, mkKeyEqualities (addOnce left equality) right (redundant ++ [true]))
        else if negb (Expr.same earlier.2 keys.2) then
          equality ← F ExprFactory.makeEq functionNames earlier.2 keys.2;
          mret (kept, mkKeyEqualities left (addOnce right equality) (redundant ++ [true]))
        else mret (kept, mkKeyEqualities left right (redundant ++ [true]))
    end.

Fixpoint derive_keys (kept : list (Expr * Expr)) (result : KeyEqualities)
    (pairs : list (Expr * Expr)) : M KeyEqualities :=
  match pairs with
  | [] => mret result
  | keys :: pairs =>
      state ← derive_key kept result keys;
      derive_keys state.1 state.2 pairs
  end.

Definition deriveForJoinKeys (leftKeys rightKeys : list Expr) : M KeyEqualities :=
  lift (velox_check (length leftKeys =? length rightKeys) "leftKeys.size(), rightKeys.size()") ≫= fun _ =>
  derive_keys [] (mkKeyEqualities [] [] []) (zip leftKeys rightKeys).
End ImpliedFilters.
End ImpliedFilters.

(** ** Conditions *)

Section Conditions.
Context {T V : Type} `{TypedValues T V} `{FunctionRegistry} `{!VariantEq V}.
Context (functionNames : FunctionNames) (types : gmap nat T)
  (eval : Expr T V -> Row V -> option V)
  (less : V -> V -> bool) (reversed : string -> option string)
  (constant : Expr T V -> option (V * T)) (maxPlanObjects : nat).
Context (Heval : EvalLaws functionNames types eval less reversed constant)
  (Hreversed : reversible_ok functionNames reversed).
Abbreviation Expr := (Expr T V).
Abbreviation typed := (typed functionNames types).
Abbreviation truth := (truth_of eval).
Abbreviation boolean_expr := (boolean_expr functionNames types).
Abbreviation passes := (passes eval).
Abbreviation F f := (f maxPlanObjects reversed).
Abbreviation makeConnective := (makeConnective reversed maxPlanObjects).

(** A boolean expression over some of the columns. *)
Record condition (cols : list (Column T)) (b : Builder T V) (e : Expr) : Prop := {
  condition_valid : valid b e;
  condition_boolean : boolean_expr e;
  condition_columns : Expr.columns e ⊆ cols
}.

Lemma condition_extends cols b b' e : extends b b' -> condition cols b e -> condition cols b' e.
Proof. intros Hext []. split; [by eapply valid_extends|done..]. Qed.

Lemma conditions_extend cols b b' es :
  extends b b' -> Forall (condition cols b) es -> Forall (condition cols b') es.
Proof. intros Hext Hes. eapply Forall_impl; [exact Hes|]. intros e. by apply condition_extends. Qed.

(** All conditions of an AND, or one of an OR. *)
Definition pass (isAnd : bool) (r : Row V) (es : list Expr) : Prop :=
  if isAnd then Forall (passes r) es else Exists (passes r) es.

Lemma makeConnective_condition cols isAnd (b0 : Builder T V) e e' :
  condition cols b0 e -> condition cols b0 e' ->
  builds b0 (makeConnective isAnd e e') (fun b c => condition cols b c /\
    forall r, row_ok types r -> passes r c <-> pass isAnd r [e; e']).
Proof.
  intros [Hv Hb Hc] [Hv' Hb' Hc']. eapply builds_weaken.
  - by apply (makeConnective_implements _ _ _ _ _ _ _ Heval Hreversed isAnd b0 e e' 0%N 0).
  - cbn beta. intros b c _ _ Hi. split; [split|].
    + apply Hi.
    + by eapply implements_boolean.
    + etransitivity; [apply Hi|]. simpl. clear -Hc Hc'. set_solver.
    + intros r Hr. unfold pass. rewrite <- (passes_all eval isAnd). unfold FilterSimplifiers.passes.
      rewrite (refines_truth _ _ _ _ _ _ (implements_refines _ _ _ _ _ _ Hi) Hr).
      by rewrite (truth_connective _ _ _ _ _ _ Heval).
Qed.

Lemma combine_pairs_spec cols isAnd (b0 : Builder T V) es :
  Forall (condition cols b0) es ->
  builds b0 (ImpliedFilters.combine_pairs (makeConnective isAnd) es) (fun b es' =>
    Forall (condition cols b) es' /\ length es <= 2 * length es' <= S (length es) /\
    forall r, row_ok types r -> pass isAnd r es' <-> pass isAnd r es).
Proof.
  revert b0. induction es as [|e|e e' es IH] using list_pairs_ind; intros b0 Hes.
  - apply builds_ret. intros b _ _. split; [done|]. simpl. split; [lia|done].
  - apply builds_ret. intros b _ Hext. split; [by eapply conditions_extend|]. simpl. split; [lia|done].
  - inversion Hes as [|? ? He Hes1]; subst. inversion Hes1 as [|? ? He' Hes']; subst. simpl.
    eapply builds_bind; [by apply makeConnective_condition|]. cbn beta.
    intros b1 c Hb1 Hext1 [Hc Hpass]. eapply builds_bind.
    { apply (IH b1). by eapply conditions_extend. }
    cbn beta. intros b2 es' _ Hext2 (Hes2 & Hlen & Hpass2). apply builds_ret. intros b3 _ Hext3.
    split; [|split].
    + constructor; [|by eapply conditions_extend].
      apply (condition_extends _ b1); [by transitivity b2|done].
    + simpl. lia.
    + intros r Hr. specialize (Hpass r Hr). specialize (Hpass2 r Hr). clear -Hpass Hpass2.
      unfold pass in *.
      destruct isAnd; rewrite ?Forall_cons, ?Exists_cons, ?Forall_nil, ?Exists_nil in *; tauto.
Qed.

Lemma combineBalanced_spec cols isAnd (b0 : Builder T V) es :
  es <> [] -> Forall (condition cols b0) es ->
  builds b0 (ImpliedFilters.combineBalanced es (makeConnective isAnd)) (fun b e =>
    condition cols b e /\ forall r, row_ok types r -> passes r e <-> pass isAnd r es).
Proof.
  unfold ImpliedFilters.combineBalanced.
  assert (Hloop : forall fuel b0 es, length es <= fuel -> es <> [] -> Forall (condition cols b0) es ->
    builds b0 (ImpliedFilters.combine_loop fuel (makeConnective isAnd) es) (fun b e =>
      condition cols b e /\ forall r, row_ok types r -> passes r e <-> pass isAnd r es)).
  2: { intros ? ?. by apply Hloop. }
  clear b0 es. induction fuel as [|fuel IH]; intros b0 es Hlen Hne Hes.
  { destruct es; [done|simpl in Hlen; lia]. }
  destruct es as [|e [|e' es]]; [done| |].
  - apply builds_ret. intros b _ Hext. inversion Hes; subst. split; [by eapply condition_extends|].
    intros r _. unfold pass. destruct isAnd; rewrite ?Forall_singleton, ?Exists_cons, ?Exists_nil; tauto.
  - change (ImpliedFilters.combine_loop (S fuel) (makeConnective isAnd) (e :: e' :: es)) with
      (ImpliedFilters.combine_pairs (makeConnective isAnd) (e :: e' :: es) ≫=
       ImpliedFilters.combine_loop fuel (makeConnective isAnd)).
    eapply builds_bind; [by apply combine_pairs_spec|]. cbn beta.
    intros b1 es1 Hb1 Hext1 (Hes1 & Hlen1 & Hpass1).
    assert (Hhalf : length es1 <= S (length es) /\ 1 <= length es1).
    { simpl in Hlen1. lia. }
    eapply builds_weaken; [apply (IH b1 es1)|].
    + simpl in Hlen. lia.
    + intros ->. simpl in Hhalf. lia.
    + done.
    + cbn beta. intros b2 c _ _ [Hc Hpass]. split; [done|]. intros r Hr.
      by rewrite (Hpass r Hr), (Hpass1 r Hr).
Qed.

(** *** Projections *)

Section Projections.
Context {Group : Type} `{EqDecision Group} (groupFor : list (Column T) -> option Group)
  (covers : Group -> Column T -> Prop).
Hypothesis HgroupFor : forall cols g, groupFor cols = Some g -> forall c, c ∈ cols -> covers g c.

Abbreviation Projection := (ImpliedFilters.GroupedProjection (T:=T) (V:=V) (Group:=Group)).
Abbreviation Accumulator := (ImpliedFilters.Accumulator (T:=T) (V:=V) (Group:=Group)).
Abbreviation group := ImpliedFilters.group.
Abbreviation filter := ImpliedFilters.filter.
Abbreviation matchesSource := ImpliedFilters.matchesSource.
Abbreviation acc_group := ImpliedFilters.acc_group.
Abbreviation filters := ImpliedFilters.filters.
Abbreviation matched := ImpliedFilters.numMatchedOperands.
Abbreviation childrenMatch := ImpliedFilters.childrenMatchSource.

(** What a condition implies on the columns of a group. *)
Record projects (b : Builder T V) (e : Expr) (p : Projection) : Prop := {
  projects_condition : condition (Expr.columns e) b (filter p);
  projects_group c : c ∈ Expr.columns (filter p) -> covers (group p) c;
  projects_implied r : row_ok types r -> passes r e -> passes r (filter p);
  projects_source : matchesSource p = true -> forall c, c ∈ Expr.columns e -> covers (group p) c
}.

Definition projections_ok (b : Builder T V) (e : Expr) (ps : list Projection) : Prop :=
  NoDup (map group ps) /\ Forall (projects b e) ps.

(** What an accumulator holds after some operands of an expression over [cols]. *)
Record accumulates (cols : list (Column T)) (b : Builder T V) (operands : list Expr)
    (acc : Accumulator) : Prop := {
  accumulates_some : filters acc <> [];
  accumulates_conditions : Forall (condition cols b) (filters acc);
  accumulates_group e c : e ∈ filters acc -> c ∈ Expr.columns e -> covers (acc_group acc) c;
  accumulates_matched : matched acc <= length operands;
  accumulates_and r : row_ok types r ->
    Forall (passes r) operands -> Forall (passes r) (filters acc);
  accumulates_or r : row_ok types r -> matched acc = length operands ->
    Exists (passes r) operands -> Exists (passes r) (filters acc);
  accumulates_source : matched acc = length operands -> childrenMatch acc = true ->
    forall e c, e ∈ operands -> c ∈ Expr.columns e -> covers (acc_group acc) c
}.

Definition extend (acc : Accumulator) (p : Projection) : Accumulator :=
  ImpliedFilters.mkAccumulator (acc_group acc) (filters acc ++ [filter p]) (S (matched acc))
    (childrenMatch acc && matchesSource p).

Definition fresh (p : Projection) : Accumulator :=
  ImpliedFilters.mkAccumulator (group p) [filter p] 1 (matchesSource p).

Lemma accumulate_cases new (accs : list Accumulator) (p : Projection) acc :
  acc ∈ ImpliedFilters.accumulate new accs p ->
  acc ∈ accs \/ (exists acc', acc' ∈ accs /\ acc_group acc' = group p /\ acc = extend acc' p) \/
  (new = true /\ acc = fresh p).
Proof.
  induction accs as [|acc' accs IH]; simpl.
  - destruct new; [|by intros ?%not_elem_of_nil].
    intros Hacc%list_elem_of_singleton. right. by right.
  - destruct (decide _) as [Hg|Hg].
    + intros [->|Hacc]%elem_of_cons; [|by left; right].
      right. left. exists acc'. split; [by left|done].
    + intros [->|Hacc]%elem_of_cons; [by left; left|].
      destruct (IH Hacc) as [Hin|[(a & Ha & ?)|?]]; [by left; right| |by right; right].
      right. left. exists a. split; [by right|done].
Qed.

Lemma accumulate_groups new (accs : list Accumulator) (p : Projection) :
  NoDup (map acc_group accs) -> NoDup (map acc_group (ImpliedFilters.accumulate new accs p)).
Proof.
  intros Hnd.
  assert (Hgroups : map acc_group (ImpliedFilters.accumulate new accs p) = map acc_group accs \/
    map acc_group (ImpliedFilters.accumulate new accs p) = map acc_group accs ++ [group p] /\
    group p ∉ map acc_group accs).
  { clear Hnd. induction accs as [|acc accs IH]; simpl.
    - destruct new; [right|by left]. split; [done|apply not_elem_of_nil].
    - destruct (decide _) as [Hg|Hg]; [by left|]. simpl.
      destruct IH as [->|[-> Hn]]; [by left|]. right. split; [done|].
      rewrite not_elem_of_cons. by split; [apply not_eq_sym|]. }
  destruct Hgroups as [->|[-> Hn]]; [done|]. apply NoDup_app. split; [done|]. split.
  - intros g Hg ->%list_elem_of_singleton. done.
  - by apply NoDup_singleton.
Qed.

Lemma accumulate_all_cases new (accs : list Accumulator) (ps : list Projection) acc :
  NoDup (map group ps) -> acc ∈ foldl (ImpliedFilters.accumulate new) accs ps ->
  acc ∈ accs \/ (exists acc' p, acc' ∈ accs /\ p ∈ ps /\ acc_group acc' = group p /\ acc = extend acc' p) \/
  (exists p, p ∈ ps /\ new = true /\ acc = fresh p).
Proof.
  revert accs. induction ps as [|p ps IH]; intros accs Hnd Hacc; [by left|].
  simpl in Hnd. apply NoDup_cons in Hnd as [Hp Hnd]. simpl in Hacc.
  assert (Hother : forall q, q ∈ ps -> group p <> group q).
  { intros q Hq Heq. apply Hp. rewrite Heq. by apply list_elem_of_fmap_2. }
  destruct (IH _ Hnd Hacc) as [Hin|[(acc' & q & Hin & Hq & Hg & ->)|(q & Hq & ? & ->)]].
  - apply accumulate_cases in Hin as [Hin|[(acc' & Hin & Hg & ->)|[? ->]]]; [by left| |].
    + right. left. exists acc', p. split; [done|]. split; [by left|done].
    + right. right. exists p. split; [by left|done].
  - right. left. exists acc', q. apply accumulate_cases in Hin as [Hin|[(acc & _ & Hg' & ->)|[_ ->]]].
    + split; [done|]. split; [by right|done].
    + destruct (Hother q Hq). by rewrite <- Hg, <- Hg'.
    + by destruct (Hother q Hq).
  - right. right. exists q. split; [by right|done].
Qed.

(** The rest of the operands does not change. *)
Lemma accumulates_more cols b operands e acc :
  accumulates cols b operands acc -> accumulates cols b (operands ++ [e]) acc.
Proof.
  intros []. split; [done..| | | |]; rewrite ?length_app; simpl; [lia| | |].
  - intros r Hr [Hops _]%Forall_app. auto.
  - intros r Hr Hm. lia.
  - lia.
Qed.

Lemma accumulates_extend cols b operands e acc p :
  Expr.columns e ⊆ cols -> accumulates cols b operands acc -> projects b e p ->
  acc_group acc = group p -> accumulates cols b (operands ++ [e]) (extend acc p).
Proof.
  intros Hc [Hsome Hconds Hgroup Hm Hand Hor Hsrc] [[] Hpg Himp Hps] Hg.
  split; cbn [extend filters matched childrenMatch acc_group]; rewrite ?length_app; simpl.
  - by destruct (filters acc).
  - apply Forall_app. split; [done|]. each. split; [done..|]. by etransitivity.
  - intros x c [Hx| ->%list_elem_of_singleton]%elem_of_app Hcx; [by apply (Hgroup x)|].
    rewrite Hg. by apply Hpg.
  - lia.
  - intros r Hr. rewrite !Forall_app, !Forall_singleton. intros [Hops He]. auto.
  - intros r Hr Heq. rewrite !Exists_app, !Exists_cons, !Exists_nil.
    assert (matched acc = length operands) by lia. specialize (Hor r Hr). specialize (Himp r Hr). tauto.
  - intros Heq [Hcm Hms]%andb_true_iff x c [Hx| ->%list_elem_of_singleton]%elem_of_app Hcx.
    + apply (Hsrc ltac:(lia) Hcm x); done.
    + rewrite Hg. by apply Hps.
Qed.

Lemma accumulates_fresh cols b operands e p :
  Expr.columns e ⊆ cols -> projects b e p -> accumulates cols b (operands ++ [e]) (fresh p).
Proof.
  intros Hc [[] Hpg Himp Hps]. split; cbn [fresh filters matched childrenMatch acc_group];
    rewrite ?length_app; simpl.
  - done.
  - each. split; [done..|]. by etransitivity.
  - intros x c ->%list_elem_of_singleton. apply Hpg.
  - lia.
  - intros r Hr. rewrite Forall_app, !Forall_singleton. intros [_ He]. auto.
  - intros r Hr Heq. destruct operands; [|simpl in Heq; lia]. simpl.
    rewrite !Exists_cons, !Exists_nil. specialize (Himp r Hr). tauto.
  - intros Heq Hm x c. destruct operands; [|simpl in Heq; lia].
    intros ->%list_elem_of_singleton. by apply Hps.
Qed.

Definition accumulators_ok cols b operands (accs : list Accumulator) : Prop :=
  NoDup (map acc_group accs) /\ Forall (accumulates cols b operands) accs.

Lemma accumulators_step cols b operands e new (accs : list Accumulator) (ps : list Projection) :
  Expr.columns e ⊆ cols -> accumulators_ok cols b operands accs -> projections_ok b e ps ->
  accumulators_ok cols b (operands ++ [e]) (foldl (ImpliedFilters.accumulate new) accs ps).
Proof.
  intros Hc [Hnd Haccs] [Hndp Hps]. split.
  - clear -Hnd. revert accs Hnd. induction ps as [|p ps IH]; intros accs Hnd; [done|].
    by apply IH, accumulate_groups.
  - rewrite Forall_forall in Haccs. rewrite Forall_forall in Hps.
    apply Forall_forall. intros acc Hacc.
    apply accumulate_all_cases in Hacc as [Hin|[(acc' & p & Hin & Hp & Hg & ->)|(p & Hp & _ & ->)]]; [..|done].
    + by apply accumulates_more, Haccs.
    + apply accumulates_extend; [done|by apply Haccs|by apply Hps|done].
    + apply accumulates_fresh; [done|by apply Hps].
Qed.

Lemma accumulators_extend cols b b' operands accs :
  extends b b' -> accumulators_ok cols b operands accs -> accumulators_ok cols b' operands accs.
Proof.
  intros Hext [? Haccs]. split; [done|]. eapply Forall_impl; [exact Haccs|]. intros acc [].
  split; [done|by eapply conditions_extend|done..].
Qed.

(** The operands of a connective, each once. *)
Lemma project_operands_spec cols isOr project (done operands : list Expr) (accs : list Accumulator) b0 :
  (forall b e, e ∈ operands -> arena_ok b -> condition cols b e ->
    builds b (project e) (fun b ps => projections_ok b e ps)) ->
  Forall (condition cols b0) operands -> accumulators_ok cols b0 done accs ->
  builds b0 (ImpliedFilters.project_operands project isOr (length done) accs operands)
    (fun b accs => accumulators_ok cols b (done ++ operands) accs).
Proof.
  intros Hproject. revert b0 done accs. induction operands as [|e operands IH];
    intros b0 done accs Hops Haccs; simpl.
  - apply builds_ret. intros b _ Hext. rewrite app_nil_r. by eapply accumulators_extend.
  - inversion Hops as [|? ? He Hrest]; subst.
    intros b Hb Hext. eapply (builds_bind b).
    + apply Hproject; [by left|done|by eapply condition_extends].
    + cbn beta. intros b1 ps Hb1 Hext1 Hps.
      replace (S (length done)) with (length (done ++ [e])) by (rewrite length_app; simpl; lia).
      replace (done ++ e :: operands) with ((done ++ [e]) ++ operands) by by rewrite <- app_assoc.
      apply IH.
      * intros b2 e' He'. apply Hproject. by right.
      * apply (conditions_extend _ b0); [by transitivity b|done].
      * apply accumulators_step; [apply He| |done].
        apply (accumulators_extend _ b0); [by transitivity b|done].
    + done.
    + reflexivity.
Qed.

(** *** Projecting a logical expression *)

Lemma flatten_columns isAnd (e : Expr) c :
  c ∈ Expr.columns e -> exists p, p ∈ flatten isAnd e /\ c ∈ Expr.columns p.
Proof.
  assert (Hself : forall e : Expr, c ∈ Expr.columns e -> exists p, p ∈ [e] /\ c ∈ Expr.columns p).
  { intros x Hx. exists x. by split; [apply list_elem_of_singleton|]. }
  induction e as [| |name args t fs i IH| | |] using Expr_nested_ind; try apply Hself.
  intros Hc. rewrite flatten_call. destruct (String.eqb name _); [|by apply Hself].
  simpl in Hc. apply list_elem_of_In, in_flat_map in Hc as (arg & Harg & Hc%list_elem_of_In).
  rewrite List.Forall_forall in IH. destruct (IH arg Harg Hc) as (p & Hp%list_elem_of_In & Hcp).
  exists p. split; [|done]. apply list_elem_of_In, in_flat_map. by exists arg.
Qed.

Lemma combine_accumulators_spec isAnd (b0 : Builder T V) e (accs : list Accumulator) :
  accumulators_ok (Expr.columns e) b0 (flatten isAnd e) accs ->
  builds b0 (F ImpliedFilters.combine_accumulators isAnd (length (flatten isAnd e)) accs)
    (fun b ps => projections_ok b e ps /\ map group ps ⊆ map acc_group accs).
Proof.
  revert b0. induction accs as [|acc accs IH]; intros b0 [Hnd Haccs]; simpl.
  { apply builds_ret. intros b _ _. split; [|done]. split; [constructor|done]. }
  simpl in Hnd. apply NoDup_cons in Hnd as [Hg Hnd]. inversion Haccs as [|? ? Hacc Hrest]; subst.
  destruct (negb isAnd && _) eqn:Hskip.
  { eapply builds_weaken; [by apply (IH b0)|]. cbn beta. intros b ps _ _ [? Hsub].
    split; [done|]. set_solver. }
  destruct Hacc as [Hsome Hconds Hgroup Hm Hand Hor Hsrc].
  set (own := flat_map Expr.columns (filters acc)).
  assert (Hown : forall c, c ∈ own <-> exists f, f ∈ filters acc /\ c ∈ Expr.columns f).
  { intros c. unfold own. rewrite list_elem_of_In, in_flat_map. by setoid_rewrite list_elem_of_In. }
  assert (Hconds' : Forall (condition own b0) (filters acc)).
  { rewrite Forall_forall in *. intros f Hf. destruct (Hconds f Hf). split; [done..|].
    intros c Hc. apply Hown. by exists f. }
  eapply builds_bind; [by apply (combineBalanced_spec own isAnd)|]. cbn beta.
  intros b1 x Hb1 Hext1 [[Hxv Hxb Hxc] Hpass]. eapply builds_bind.
  { apply (IH b1), (accumulators_extend _ b0); [done|]. done. }
  cbn beta. intros b2 ps _ Hext2 [[Hndp Hps] Hsub]. apply builds_ret. intros b3 _ Hext3. simpl.
  split; [split|].
  - apply NoDup_cons. split; [|done]. intros Hin. apply Hg. by apply Hsub.
  - constructor.
    + split; cbn [group filter matchesSource].
      * split; [|done|].
        -- apply (valid_extends b1); [by transitivity b2|done].
        -- intros c [f [Hf Hcf]]%Hxc%Hown. rewrite Forall_forall in Hconds.
           by apply (condition_columns _ _ _ (Hconds f Hf)).
      * intros c [f [Hf Hcf]]%Hxc%Hown. by apply (Hgroup f).
      * intros r Hr He. apply (Hpass r Hr).
        apply (passes_flatten _ _ _ _ _ _ Heval isAnd) in He. unfold pass. destruct isAnd; [by apply Hand|].
        apply Hor; [done| |done]. simpl in Hskip. apply negb_false_iff in Hskip. by apply Nat.eqb_eq.
      * intros [Heq%Nat.eqb_eq Hcm]%andb_true_iff c Hc.
        destruct (flatten_columns isAnd e c Hc) as (p & Hp & Hcp). by apply (Hsrc Heq Hcm p).
    + eapply Forall_impl; [exact Hps|]. intros p []. split; [|done..].
      by eapply condition_extends.
  - clear -Hsub. set_solver.
Qed.

Lemma is_call_of_connective (isAnd : bool) (e : Expr) :
  ImpliedFilters.is_call_of (connective isAnd) e = true ->
  exists args t fs i, e = CallExpr (connective isAnd) args t fs i.
Proof.
  destruct e as [| |name args t fs i| | |]; try done.
  intros ->%String.eqb_eq. by eexists _, _, _, _.
Qed.

(** The operands are smaller. *)
Lemma operands_weight (isAnd : bool) (e p : Expr) :
  ImpliedFilters.is_call_of (connective isAnd) e = true -> p ∈ flatten isAnd e ->
  weight functionNames p < weight functionNames e.
Proof.
  intros (args & t & fs & i & ->)%is_call_of_connective. rewrite flatten_call, String.eqb_refl.
  intros (arg & Harg & Hp)%list_elem_of_In%in_flat_map.
  pose proof (flatten_weight functionNames (connective isAnd) arg) as Hw.
  rewrite List.Forall_forall in Hw. specialize (Hw p Hp).
  pose proof (args_weight functionNames arg args Harg). simpl. unfold call_weight.
  rewrite classify_connective. lia.
Qed.

Lemma projectLogicalExpression_spec fuel (b0 : Builder T V) e :
  weight functionNames e <= fuel -> arena_ok b0 -> condition (Expr.columns e) b0 e ->
  builds b0 (F ImpliedFilters.projectLogicalExpression groupFor fuel e)
    (fun b ps => projections_ok b e ps).
Proof.
  revert b0 e. induction fuel as [|fuel IH]; intros b0 e Hw Hb0 He.
  { pose proof (weight_pos functionNames e). lia. }
  simpl.
  assert (Hoperands : forall isAnd, ImpliedFilters.is_call_of (connective isAnd) e = true ->
    builds b0 (accs ← ImpliedFilters.project_operands
                 (F ImpliedFilters.projectLogicalExpression groupFor fuel) (negb isAnd) 0 [] (flatten isAnd e);
               F ImpliedFilters.combine_accumulators isAnd (length (flatten isAnd e)) accs)
      (fun b ps => projections_ok b e ps)).
  { intros isAnd Hcall.
    assert (Hparts : Forall (condition (Expr.columns e) b0) (flatten isAnd e)).
    { eapply Forall_impl; [by apply (flatten_parts functionNames types isAnd b0 e Hb0); apply He|].
      intros p (? & ? & ?). by split. }
    eapply builds_bind.
    - apply (project_operands_spec (Expr.columns e) (negb isAnd) _ [] (flatten isAnd e) [] b0); [|done|].
      + intros b p Hp Hb [Hvp Hbp _]. apply IH; [|done|by split].
        pose proof (operands_weight isAnd e p Hcall Hp). lia.
      + split; [constructor|done].
    - cbn beta. simpl. intros b accs _ _ Haccs.
      eapply builds_weaken; [by apply combine_accumulators_spec|]. by intros b1 ps _ _ [? _]. }
  change kAnd with (connective true). change kOr with (connective false).
  destruct (ImpliedFilters.is_call_of (connective true) e) eqn:Hand.
  { assert (ImpliedFilters.is_call_of (connective false) e = false) as ->.
    { apply (is_call_of_connective true) in Hand as (? & ? & ? & ? & ->). done. }
    exact (Hoperands true Hand). }
  destruct (ImpliedFilters.is_call_of (connective false) e) eqn:Hor.
  { exact (Hoperands false Hor). }
  simpl. destruct (groupFor _) as [g|] eqn:Hg.
  - apply builds_ret. intros b _ Hext. split; [apply NoDup_singleton|]. each.
    pose proof (HgroupFor _ _ Hg). split; [by eapply condition_extends|done..].
  - apply builds_ret. intros b _ _. split; [constructor|done].
Qed.

(** What the derived filters of an OR are. *)
Record derived (b : Builder T V) (e : Expr) (p : Group * Expr) : Prop := {
  derived_condition : condition (Expr.columns e) b p.2;
  derived_group c : c ∈ Expr.columns p.2 -> covers p.1 c;
  derived_implied r : row_ok types r -> passes r e -> passes r p.2
}.

Lemma derived_extends b b' e p : extends b b' -> derived b e p -> derived b' e p.
Proof. intros Hext []. split; [by eapply condition_extends|done..]. Qed.

Lemma deriveGroupedFiltersFromOr_spec (b0 : Builder T V) e :
  condition (Expr.columns e) b0 e ->
  builds b0 (F ImpliedFilters.deriveGroupedFiltersFromOr functionNames groupFor e)
    (fun b ps => Forall (derived b e) ps).
Proof.
  intros He b Hb Hext. revert b Hb Hext. unfold ImpliedFilters.deriveGroupedFiltersFromOr.
  destruct (_ || _); [by apply builds_ret|]. intros b Hb Hext.
  apply (condition_extends _ _ _ _ Hext) in He.
  eapply (builds_bind b); [by apply projectLogicalExpression_spec| |done|reflexivity].
  cbn beta. intros b1 ps _ Hext1 [_ Hps]. apply builds_ret. intros b2 _ Hext2.
  apply List.Forall_map. eapply Forall_impl; [exact Hps|]. intros p [Hc Hg Himp Hsrc].
  destruct (matchesSource p) eqn:Hm; split; cbn [fst snd].
  - apply (condition_extends _ b); [by transitivity b1|done].
  - by apply Hsrc.
  - done.
  - by apply (condition_extends _ b1).
  - done.
  - done.
Qed.
End Projections.

(** ** The inputs of a join *)

Section JoinInputs.
Context (leftColumns rightColumns : gset nat).

Definition side_columns (side : ImpliedFilters.InputSide) : gset nat :=
  match side with ImpliedFilters.kLeft => leftColumns | ImpliedFilters.kRight => rightColumns end.

Definition on_columns (set : gset nat) (e : Expr) : Prop :=
  forall c, c ∈ Expr.columns e -> column_id c ∈ set.

(** A filter the conditions imply, on the columns of an input. *)
Record pushed (set : gset nat) (conditions : list Expr) (b : Builder T V) (e : Expr) : Prop := {
  pushed_valid : valid b e;
  pushed_boolean : boolean_expr e;
  pushed_columns : on_columns set e;
  pushed_implied r : row_ok types r -> Forall (passes r) conditions -> passes r e
}.

Lemma pushed_extends set conditions b b' es :
  extends b b' -> Forall (pushed set conditions b) es -> Forall (pushed set conditions b') es.
Proof.
  intros Hext Hes. eapply Forall_impl; [exact Hes|]. intros e [].
  split; [by eapply valid_extends|done..].
Qed.

Lemma sideOf_columns (cols : list (Column T)) side :
  ImpliedFilters.sideOf leftColumns rightColumns cols = Some side ->
  forall c, c ∈ cols -> column_id c ∈ side_columns side.
Proof.
  unfold ImpliedFilters.sideOf. intros Hside c Hc.
  assert (Hsub : forall set, ImpliedFilters.isSubset cols set = true -> column_id c ∈ set).
  { unfold ImpliedFilters.isSubset. intros set Hs. rewrite forallb_forall in Hs.
    specialize (Hs c (proj1 (list_elem_of_In _ _) Hc)). by apply bool_decide_eq_true in Hs. }
  destruct cols as [|c0 cols]; [done|].
  destruct (ImpliedFilters.isSubset _ leftColumns) eqn:Hl.
  - injection Hside as <-. by apply Hsub.
  - destruct (ImpliedFilters.isSubset _ rightColumns) eqn:Hr; [|done].
    injection Hside as <-. by apply Hsub.
Qed.

Abbreviation on_side_ok b e :=
  (Forall (derived (fun side c => column_id c ∈ side_columns side) b e)).

Lemma on_side_pushed side b e conditions ps :
  on_side_ok b e ps -> e ∈ conditions ->
  Forall (pushed (side_columns side) conditions b) (ImpliedFilters.on_side side ps).
Proof.
  intros Hps He. unfold ImpliedFilters.on_side. apply List.Forall_map, List.Forall_forall.
  intros p [Hp Hside%bool_decide_eq_true]%filter_In. subst side.
  rewrite List.Forall_forall in Hps. destruct (Hps p Hp) as [[] Hg Himp].
  split; [done..|]. intros r Hr Hall. apply Himp; [done|].
  rewrite Forall_forall in Hall. by apply Hall.
Qed.

Lemma deriveForJoinInputs_spec (b0 : Builder T V) conditions filters :
  filters ⊆ conditions ->
  Forall (fun e => valid b0 e /\ boolean_expr e) filters ->
  builds b0 (F ImpliedFilters.deriveForJoinInputs functionNames filters leftColumns rightColumns)
    (fun b derived =>
       Forall (pushed leftColumns conditions b) derived.1 /\
       Forall (pushed rightColumns conditions b) derived.2).
Proof.
  revert b0. induction filters as [|e filters IH]; intros b0 Hsub Hfs; simpl.
  { by apply builds_ret. }
  inversion Hfs as [|? ? [Hv Hb] Hrest]; subst.
  assert (He : e ∈ conditions) by (apply Hsub; by left).
  eapply builds_bind.
  - apply (deriveGroupedFiltersFromOr_spec _ _ sideOf_columns b0 e). by split.
  - cbn beta. intros b1 ps Hb1 Hext1 Hps. eapply builds_bind; [apply (IH b1)|].
    + intros x Hx. apply Hsub. by right.
    + eapply Forall_impl; [exact Hrest|]. intros x [? ?]. split; [by eapply valid_extends|done].
    + cbn beta. intros b2 [ls rs] _ Hext2 [Hls Hrs]. apply builds_ret. intros b3 _ Hext3.
      cbn [fst snd] in *.
      split; (apply Forall_app; split; [|by apply (pushed_extends _ _ b2)]);
        (apply (pushed_extends _ _ b1); [by transitivity b2|]).
      * by apply (on_side_pushed ImpliedFilters.kLeft _ e).
      * by apply (on_side_pushed ImpliedFilters.kRight _ e).
Qed.

(** *** Rows *)

Definition accepts (r : Row V) (e : Expr) : bool := bool_decide (truth e r = Some true).

(** [Filter] on some rows. *)
Definition filtered_rows (conditions : list Expr) (rows : list (Row V)) : list (Row V) :=
  List.filter (fun r => forallb (accepts r) conditions) rows.

(** The inner join of two inputs. *)
Definition inner_join (conditions : list Expr) (lefts rights : list (Row V)) : list (Row V) :=
  flat_map (fun x => filtered_rows conditions (map (fun y => x ∪ y) rights)) lefts.

(** A row of an input. *)
Definition row_of (set : gset nat) (r : Row V) : Prop := dom r ⊆ set /\ row_ok types r.

Lemma row_of_union x y :
  row_of leftColumns x -> row_of rightColumns y -> row_ok types (x ∪ y).
Proof.
  intros [_ Hx] [_ Hy] c t Hc. specialize (Hx c t Hc). specialize (Hy c t Hc).
  rewrite lookup_union. by destruct (x !! c), (y !! c).
Qed.

Lemma passes_columns (e : Expr) r r' :
  (forall c, c ∈ Expr.columns e -> r !! column_id c = r' !! column_id c) -> passes r e <-> passes r' e.
Proof.
  intros Hc. unfold FilterSimplifiers.passes, truth_of. rewrite (eval_local _ _ _ _ _ _ Heval e r r'); [done|].
  intros c Hin. by apply Hc, list_elem_of_In.
Qed.

Hypothesis Hdisjoint : leftColumns ## rightColumns.

Lemma passes_left e x y :
  on_columns leftColumns e -> row_of rightColumns y -> passes (x ∪ y) e <-> passes x e.
Proof.
  intros He [Hy _]. apply passes_columns. intros c Hc. specialize (He c Hc).
  rewrite lookup_union. assert (y !! column_id c = None) as ->; [|by destruct (x !! _)].
  apply not_elem_of_dom. clear -He Hy Hdisjoint. set_solver.
Qed.

Lemma passes_right e x y :
  on_columns rightColumns e -> row_of leftColumns x -> passes (x ∪ y) e <-> passes y e.
Proof.
  intros He [Hx _]. apply passes_columns. intros c Hc. specialize (He c Hc).
  rewrite lookup_union. assert (x !! column_id c = None) as ->; [|by destruct (y !! _)].
  apply not_elem_of_dom. clear -He Hx Hdisjoint. set_solver.
Qed.

Lemma accepts_all r es : forallb (accepts r) es = true <-> Forall (passes r) es.
Proof.
  rewrite forallb_forall, List.Forall_forall. unfold accepts, FilterSimplifiers.passes.
  by setoid_rewrite bool_decide_eq_true.
Qed.

(** Inputs that lose only rows without a match. *)
Lemma inner_join_filtered conditions ls rs b xs ys :
  Forall (pushed leftColumns conditions b) ls -> Forall (pushed rightColumns conditions b) rs ->
  Forall (row_of leftColumns) xs -> Forall (row_of rightColumns) ys ->
  inner_join conditions (filtered_rows ls xs) (filtered_rows rs ys) = inner_join conditions xs ys.
Proof.
  intros Hls Hrs Hxs Hys.
  assert (Hmatch : forall x y, row_of leftColumns x -> row_of rightColumns y ->
    forallb (accepts (x ∪ y)) conditions = true ->
    forallb (accepts x) ls = true /\ forallb (accepts y) rs = true).
  { intros x y Hx Hy. rewrite !accepts_all. intros Hall.
    pose proof (row_of_union x y Hx Hy) as Hr. split; apply Forall_forall; intros e He.
    - rewrite Forall_forall in Hls. destruct (Hls e He) as [_ _ Hc Himp].
      apply (passes_left e x y); auto.
    - rewrite Forall_forall in Hrs. destruct (Hrs e He) as [_ _ Hc Himp].
      apply (passes_right e x y); auto. }
  assert (Hright : forall x, row_of leftColumns x ->
    filtered_rows conditions (map (fun y => x ∪ y) (filtered_rows rs ys)) =
    filtered_rows conditions (map (fun y => x ∪ y) ys)).
  { intros x Hx. clear Hxs. induction Hys as [|y ys Hy _ IH]; [done|]. simpl.
    destruct (forallb (accepts (x ∪ y)) conditions) eqn:Ha.
    - destruct (Hmatch x y Hx Hy Ha) as [_ ->]. simpl. by rewrite Ha, IH.
    - destruct (forallb (accepts y) rs); simpl; [by rewrite Ha|done]. }
  unfold inner_join. induction Hxs as [|x xs Hx _ IH]; [done|]. simpl.
  destruct (forallb (accepts x) ls) eqn:Hl; simpl; rewrite IH; [by rewrite Hright|].
  assert (filtered_rows conditions (map (fun y => x ∪ y) ys) = []) as ->; [|done].
  clear Hright IH. induction Hys as [|y ys Hy _ IH]; [done|]. simpl.
  destruct (forallb (accepts (x ∪ y)) conditions) eqn:Ha; [|done].
  destruct (Hmatch x y Hx Hy Ha) as [? _]. congruence.
Qed.
End JoinInputs.

(** ** Rows in a list of rows *)

Context (Hfull : full_registry functionNames = true).

Lemma onlyObject_spec (cols : list (Column T)) column :
  Expr.onlyObject cols = Some column -> forall c, c ∈ cols -> column_id c = column_id column.
Proof.
  destruct cols as [|c0 cols]; [done|]. simpl. destruct (forallb _ _) eqn:Hall; [|done].
  intros [= <-] c [->|Hc]%elem_of_cons; [done|]. rewrite forallb_forall in Hall.
  by apply Nat.eqb_eq, Hall, list_elem_of_In.
Qed.

Lemma field_values_spec n (rows : list V) values :
  ImpliedFilters.field_values n rows = Ok values ->
  length values = n /\
  (forall w, In w rows -> isNull w = false -> kind w = ROW /\ length (row w) = n) /\
  (forall k vs, values !! k = Some vs -> forall u, In u vs <->
     exists w, In w rows /\ isNull w = false /\ row w !! k = Some u /\ isNull u = false).
Proof.
  revert values. induction rows as [|w rows IH]; intros values; simpl.
  { intros [= <-]. rewrite length_replicate. split; [done|]. split; [done|].
    intros k vs [-> _]%lookup_replicate u. split; [done|]. by intros (? & [] & _). }
  destruct (isNull w) eqn:Hw.
  { intros Hv. destruct (IH _ Hv) as (? & Hrows & Hvals). split; [done|]. split.
    - intros w' [<-|Hin] Hn; [congruence|by apply Hrows].
    - intros k vs Hk u. rewrite (Hvals k vs Hk u). split; intros (w' & Hw' & ? & ?); exists w';
        [by split; [right|]|]. destruct Hw' as [<-|?]; [congruence|done]. }
  unfold velox_check. case_bool_decide as Hk; [|done]. simpl.
  destruct (Nat.eqb_spec (length (row w)) n) as [Hl|]; [|done]. simpl.
  destruct (ImpliedFilters.field_values n rows) as [values'|]; [|done].
  intros [= <-]. destruct (IH _ eq_refl) as (Hlen & Hrows & Hvals). split; [|split].
  - rewrite length_zip_with. lia.
  - intros w' [<-|Hin] Hn; [done|by apply Hrows].
  - intros k vs (x & vs' & -> & Hx & Hvs')%lookup_zip_with_Some u.
    specialize (Hvals k vs' Hvs' u). clear IH Hlen Hrows. destruct (isNull x) eqn:Hxn; simpl; rewrite Hvals.
    + split; intros (w' & Hw' & ? & ? & ?); exists w'; [by split; [right|]|].
      destruct Hw' as [<-|?]; [congruence|done].
    + split.
      * intros [<-|(w' & ? & ?)]; [exists w; split; [by left|done]|exists w'; split; [by right|done]].
      * intros (w' & [<-|?] & ? & ? & ?); [left; congruence|right; by exists w'].
Qed.

(** IN over the single elements. *)
Lemma in_array_member value vs fs i k r :
  passes r (in_array value vs fs i k) <->
  exists w, In w vs /\ isNull w = false /\ passes r (in_array value [w] 0%N 0 0).
Proof.
  etransitivity.
  - apply (eval_in_member _ _ _ _ _ _ Heval);
      [apply arrayType_kind|rewrite arrayType_child; apply equivalent_refl|apply isNull_of_array].
  - by rewrite array_of_array.
Qed.

(** The equality of a value with an element. *)
Lemma in_array_one name value w t i k fs r :
  equality functionNames = Some name -> t = Expr.expr_type value ->
  passes r (in_array value [w] 0%N 0 0) <->
  passes r (CallExpr name [value; LiteralExpr w t k] booleanType fs i).
Proof.
  intros Hn ->. unfold FilterSimplifiers.passes, truth_of, in_array.
  by rewrite (eval_in_one _ _ _ _ _ _ Heval name value w booleanType 0%N fs 0 i 0 k r Hn).
Qed.

(** A row that is in the list has each of its fields among those of the rows. *)
Lemma row_in_fields fields t fs i v tv iv t' fs' i' values r k e vs :
  let rowConstructor := CallExpr kRowConstructor fields t fs i in
  let inCall := CallExpr kIn [rowConstructor; LiteralExpr v tv iv] t' fs' i' in
  typed inCall = true -> constantInList kIn [rowConstructor; LiteralExpr v tv iv] = Some (array v) ->
  ImpliedFilters.field_values (length fields) (array v) = Ok values ->
  fields !! k = Some e -> values !! k = Some vs ->
  forallb (has_type (Expr.expr_type e)) vs = true /\
  (row_ok types r -> passes r inCall -> passes r (in_array e vs 0%N 0 0)).
Proof.
  intros rowConstructor inCall Ht Hin Hvalues He Hvs.
  destruct (field_values_spec _ _ _ Hvalues) as (_ & Hrows & Hvals).
  unfold constantInList in Hin. simpl in Hin.
  destruct (negb _ || _ || _) eqn:Hguard in Hin; [done|]. clear Hin.
  rewrite !orb_false_iff, !negb_false_iff in Hguard. destruct Hguard as [[Hk%bool_decide_eq_true Hn] Heq].
  simpl in Ht. rewrite !andb_true_iff in Ht. destruct Ht as [[[Hfields Hrow] [Hv _]] _].
  assert (Htw : forall w, In w (array v) -> has_type t w = true).
  { intros w Hw. pose proof (has_type_array tv v Hv Hn Hk) as Hall. rewrite forallb_forall in Hall.
    rewrite <- (equivalent_has_type _ _ w Heq). by apply Hall. }
  unfold well_formed_call in Hrow. change (classify functionNames kRowConstructor) with RowName in Hrow.
  apply andb_true_iff in Hrow as [Hkt%bool_decide_eq_true Hchild].
  assert (Hte : childAt t k = Expr.expr_type e).
  { rewrite forallb_forall in Hchild. symmetry.
    apply (bool_decide_eq_true_1 (Expr.expr_type e = childAt t k)), (Hchild (k, e)).
    apply list_elem_of_In, list_elem_of_lookup. exists k.
    by rewrite list_lookup_imap, He. }
  split.
  { apply forallb_forall. intros u Hu. apply (Hvals k vs Hvs u) in Hu as (w & Hw & Hwn & Hu & _).
    rewrite <- Hte. by apply (has_type_row t w k u (Htw w Hw)). }
  intros Hr Hpass.
  apply (eval_in_member _ _ _ _ _ _ Heval) in Hpass as (w & Hw & Hwn & Hpass); [|done..].
  destruct (Hrows w Hw Hwn) as [Hkw Hlw].
  destruct (equality functionNames) as [name|] eqn:Hname.
  2: { destruct (registered_name functionNames Hfull None) as (? & ? & _); [|done].
       unfold registered. rewrite Hname. by left. }
  apply (in_array_one name rowConstructor w t 0 0 0%N r Hname eq_refl) in Hpass.
  unfold FilterSimplifiers.passes, rowConstructor in Hpass.
  rewrite (eval_row_equality _ _ _ _ _ _ Heval) in Hpass; [|done..| |by apply Htw].
  2: { by apply List.Forall_forall; rewrite forallb_forall in Hfields. }
  apply (connect_true true) in Hpass. rewrite Forall_forall in Hpass.
  destruct (row w !! k) as [u|] eqn:Hu.
  2: { apply lookup_ge_None in Hu. apply lookup_lt_Some in He. lia. }
  assert (Hfield : passes r (CallExpr name [e; LiteralExpr u (childAt t k) 0] booleanType 0%N 0)).
  { unfold FilterSimplifiers.passes. symmetry. apply Hpass, list_elem_of_lookup. exists k.
    by rewrite list_lookup_imap, lookup_zip_with, He, Hu. }
  rewrite Hte in Hfield.
  apply (in_array_one name e u (Expr.expr_type e) 0 0 0%N r Hname eq_refl) in Hfield.
  apply in_array_member. exists u.
  assert (Hun : isNull u = false).
  { apply in_array_member in Hfield as (u' & [<-|[]] & ? & _). done. }
  split; [|done]. apply (Hvals k vs Hvs). by exists w.
Qed.

Definition in_group (column c : Column T) : Prop := column_id c = column_id column.

(** The IN lists of the fields. *)
Lemma field_filters_spec (b0 : Builder T V) fields values :
  Forall (fun '(e, vs) => valid b0 e /\ typed e = true /\ forallb (has_type (Expr.expr_type e)) vs = true)
    (zip fields values) ->
  builds b0 (F ImpliedFilters.field_filters functionNames fields values) (fun b ps =>
    Forall (fun p => exists e vs, (e, vs) ∈ zip fields values /\ Expr.onlyColumn e = Some p.1 /\
      implements functionNames types eval b (in_array e vs 0%N 0 0) p.2) ps).
Proof.
  revert b0 values. induction fields as [|e fields IH]; intros b0 values Hall; [by apply builds_ret|].
  destruct values as [|vs values]; [by apply builds_ret|].
  change (zip (e :: fields) (vs :: values)) with ((e, vs) :: zip fields values) in Hall.
  inversion Hall as [|? ? He Hrest]; subst. cbn beta iota in He. destruct He as (Hv & Ht & Hvs).
  assert (Hskip : forall b1, extends b0 b1 ->
    builds b1 (F ImpliedFilters.field_filters functionNames fields values) (fun b ps =>
      Forall (fun p => exists e' vs', (e', vs') ∈ (e, vs) :: zip fields values /\
        Expr.onlyColumn e' = Some p.1 /\
        implements functionNames types eval b (in_array e' vs' 0%N 0 0) p.2) ps)).
  { intros b1 Hext. eapply builds_weaken; [apply (IH b1 values)|].
    - eapply Forall_impl; [exact Hrest|]. intros [e' vs'] (? & ? & ?). split; [by eapply valid_extends|done].
    - cbn beta. intros b2 ps _ _ Hps. eapply Forall_impl; [exact Hps|].
      intros p (e' & vs' & Hin & ?). exists e', vs'. split; [by right|done]. }
  change (zip (e :: fields) (vs :: values)) with ((e, vs) :: zip fields values).
  cbn [ImpliedFilters.field_filters].
  destruct (Expr.containsNonDeterministic e); [by apply Hskip|].
  destruct (Expr.onlyColumn e) as [column|] eqn:Hcol; [|by apply Hskip].
  destruct vs as [|v vs]; [by apply Hskip|].
  eapply builds_bind; [by apply (makeIn_implements _ _ _ _ _ _ _ Heval Hreversed Hfull b0 e (v :: vs) 0%N 0 0)|].
  cbn beta. intros b1 x _ Hext1 Hx. eapply builds_bind; [by apply Hskip|].
  cbn beta. intros b2 ps _ Hext2 Hps. apply builds_ret. intros b3 _ Hext3. constructor.
  - exists e, (v :: vs). split; [by left|]. split; [done|]. simpl.
    apply (implements_extends _ _ _ b1); [by transitivity b2|done].
  - eapply Forall_impl; [exact Hps|]. intros p (e' & vs' & ? & ? & ?). exists e', vs'.
    split; [done|]. split; [done|]. by apply (implements_extends _ _ _ b2).
Qed.

Lemma field_values_fuel n (rows : list V) e :
  ImpliedFilters.field_values n rows = Throw e -> e <> OutOfFuel.
Proof.
  induction rows as [|w rows IH]; simpl; [done|]. destruct (isNull w); [done|].
  unfold velox_check. case_bool_decide; simpl; [|by intros [= <-]].
  destruct (_ =? _); simpl; [|by intros [= <-]].
  destruct (ImpliedFilters.field_values n rows); [done|]. by intros [= <-]; apply IH.
Qed.

Lemma deriveColumnFiltersFromRowIn_spec (b0 : Builder T V) e :
  arena_ok b0 -> condition (Expr.columns e) b0 e ->
  builds b0 (F ImpliedFilters.deriveColumnFiltersFromRowIn functionNames e)
    (fun b ps => Forall (derived in_group b e) ps).
Proof.
  intros Hb0 He. unfold ImpliedFilters.deriveColumnFiltersFromRowIn.
  destruct e as [| |name args t' fs' i'| | |]; try by apply builds_ret.
  destruct (constantInList name args) as [inList|] eqn:Hin; [|by apply builds_ret].
  assert (Hargs : exists value v tv iv, name = kIn /\ args = [value; LiteralExpr v tv iv] /\ inList = array v).
  { unfold constantInList in Hin. destruct (String.eqb_spec name kIn) as [->|]; [|done]. simpl in Hin.
    destruct args as [|value [|[|v tv iv| | | |] [|]]]; try done. destruct (_ || _); [done|].
    injection Hin as <-. by eexists _, _, _, _. }
  destruct Hargs as (value & v & tv & iv & -> & -> & ->).
  destruct value as [| |rowName fields t fs i| | |]; try by apply builds_ret.
  destruct (String.eqb_spec rowName kRowConstructor) as [->|]; [|by apply builds_ret]. simpl negb.
  destruct (length fields <? 2); [by apply builds_ret|]. simpl orb. cbv iota.
  destruct He as [Hv [Ht _] _].
  assert (Hfields : Forall (valid b0) fields /\ Forall (fun e => typed e = true) fields).
  { pose proof (valid_children _ _ Hb0 Hv) as Hch. simpl in Hch.
    inversion Hch as [|? ? Hrow _]; subst. apply (valid_children _ _ Hb0) in Hrow. split; [done|].
    simpl in Ht. rewrite !andb_true_iff in Ht. destruct Ht as [[[Hf _] _] _].
    by apply List.Forall_forall; rewrite forallb_forall in Hf. }
  destruct Hfields as [Hfv Hft]. rewrite Forall_forall in Hfv. rewrite Forall_forall in Hft.
  eapply (builds_bind _ _ _ (fun _ values => ImpliedFilters.field_values (length fields) (array v) = Ok values)).
  { apply builds_lift; [by apply field_values_fuel|done]. }
  cbn beta. intros b1 values _ Hext1 Hvalues.
  assert (Hzip : forall e vs, (e, vs) ∈ zip fields values ->
    valid b0 e /\ typed e = true /\ e ∈ fields /\ forallb (has_type (Expr.expr_type e)) vs = true /\
    forall r, row_ok types r ->
      passes r (CallExpr kIn [CallExpr kRowConstructor fields t fs i; LiteralExpr v tv iv] t' fs' i') ->
      passes r (in_array e vs 0%N 0 0)).
  { intros e vs (k & Hk)%list_elem_of_lookup. apply lookup_zip_with_Some in Hk as (? & ? & [= <- <-] & He & Hvs).
    pose proof (list_elem_of_lookup_2 _ _ _ He) as Hinf.
    split; [by apply Hfv|]. split; [by apply Hft|]. split; [done|].
    split; [by apply (row_in_fields fields t fs i v tv iv t' fs' i' values ∅ k e vs)|].
    intros r. by apply (row_in_fields fields t fs i v tv iv t' fs' i' values r k e vs). }
  eapply builds_weaken; [apply field_filters_spec|].
  - apply Forall_forall. intros [e vs] Hin'. destruct (Hzip e vs Hin') as (? & ? & _ & ? & _).
    split; [by eapply valid_extends|done].
  - cbn beta. intros b2 ps _ _ Hps. eapply Forall_impl; [exact Hps|].
    intros [column x] (e & vs & Hin' & Hcol & Hx). destruct (Hzip e vs Hin') as (_ & Hte & Hinf & Hty & Himp).
    cbn [fst snd] in *.
    assert (Hxc : Expr.columns x ⊆ Expr.columns e).
    { etransitivity; [apply Hx|]. simpl. rewrite !app_nil_r. done. }
    split; cbn [fst snd].
    + split; [apply Hx|by eapply implements_boolean|]. etransitivity; [exact Hxc|]. simpl.
      rewrite app_nil_r. by apply args_columns, list_elem_of_In.
    + intros c Hc. unfold in_group. eapply onlyObject_spec; [exact Hcol|]. by apply Hxc.
    + intros r Hr Hpass. unfold FilterSimplifiers.passes.
      rewrite (refines_truth _ _ _ _ _ _ (implements_refines _ _ _ _ _ _ Hx) Hr). by apply Himp.
Qed.

(** ** Filters on single columns *)

(** The answer of a comparison of expressions, which means the same truth. *)
Definition decides (result : Result bool) (lhs rhs : Expr) : Prop :=
  exists same, result = Ok same /\ (same = true -> forall r, truth lhs r = truth rhs r).

Lemma ranges_equal_spec equal (lhs rhs : list Expr) :
  (forall l r, l ∈ lhs -> r ∈ rhs -> decides (equal l r) l r) -> length lhs = length rhs ->
  exists same, ImpliedFilters.ranges_equal equal lhs rhs = Ok same /\
    (same = true -> forall r, map (fun e => truth e r) lhs = map (fun e => truth e r) rhs).
Proof.
  revert rhs. induction lhs as [|l lhs IH]; intros [|r rhs] Heq Hlen; try done; [by exists true|].
  simpl. destruct (Heq l r) as (same & -> & Hsame); [by left..|]. simpl.
  destruct same; [|by exists false].
  destruct (IH rhs) as (same & -> & Hrest).
  - intros l' r' Hl Hr. apply Heq; by right.
  - by injection Hlen.
  - exists same. split; [done|]. intros Hs row. rewrite Hsame by done. f_equal. by apply Hrest.
Qed.

(** Expressions that are equivalent modulo associativity have the same truth. *)
Lemma equivalentModuloLogicalAssociativity_spec b fuel lhs rhs :
  arena_ok b -> valid b lhs -> valid b rhs -> boolean_expr lhs -> boolean_expr rhs ->
  weight functionNames lhs <= fuel ->
  decides (ImpliedFilters.equivalentModuloLogicalAssociativity fuel lhs rhs) lhs rhs.
Proof.
  intros Hb. revert lhs rhs. induction fuel as [|fuel IH]; intros lhs rhs Hl Hr Hbl Hbr Hw.
  { pose proof (weight_pos functionNames lhs). lia. }
  simpl. destruct (Expr.same lhs rhs) eqn:Hsame.
  { rewrite (same_eq b lhs rhs Hl Hr Hsame). by exists true. }
  destruct lhs as [| |name args t fs i| | |]; try by exists false.
  destruct rhs as [| |name' args' t' fs' i'| | |]; try by exists false.
  destruct (String.eqb_spec name name') as [<-|]; [|by exists false]. simpl negb. cbv iota.
  destruct (_ || _) eqn:Hname; [|by exists false].
  assert (Hc : exists isAnd, name = connective isAnd).
  { apply orb_true_iff in Hname as [ ->%String.eqb_eq| ->%String.eqb_eq]; [by exists true|by exists false]. }
  destruct Hc as [isAnd ->]. clear Hname.
  set (lhs := CallExpr (connective isAnd) args t fs i) in *.
  set (rhs := CallExpr (connective isAnd) args' t' fs' i') in *.
  change (ExprFactory.flattenInto (connective isAnd) ?e) with (flatten isAnd e).
  destruct (Nat.eqb_spec (length (flatten isAnd lhs)) (length (flatten isAnd rhs))) as [Hlen|]; [|by exists false].
  pose proof (flatten_parts functionNames types isAnd b lhs Hb Hl Hbl) as Hpl.
  pose proof (flatten_parts functionNames types isAnd b rhs Hb Hr Hbr) as Hpr.
  rewrite Forall_forall in Hpl. rewrite Forall_forall in Hpr.
  destruct (ranges_equal_spec (ImpliedFilters.equivalentModuloLogicalAssociativity fuel)
    (flatten isAnd lhs) (flatten isAnd rhs)) as (same & -> & Htruth); [|done|].
  - intros l r Hin Hin'. destruct (Hpl l Hin) as (? & ? & _). destruct (Hpr r Hin') as (? & ? & _).
    apply IH; try done.
    assert (weight functionNames l < weight functionNames lhs); [|lia].
    apply (operands_weight isAnd); [apply String.eqb_refl|done].
  - exists same. split; [done|]. intros Hs r.
    rewrite <- (flatten_truth _ _ _ _ _ _ Heval isAnd lhs r), <- (flatten_truth _ _ _ _ _ _ Heval isAnd rhs r).
    by rewrite Htruth.
Qed.

(** A filter on one column that the conditions imply. *)
Record implied (conditions : list Expr) (b : Builder T V) (e : Expr) : Prop := {
  implied_valid : valid b e;
  implied_boolean : boolean_expr e;
  implied_column : exists column : Column T, forall c, c ∈ Expr.columns e -> column_id c = column_id column;
  implied_holds r : row_ok types r -> Forall (passes r) conditions -> passes r e
}.

Lemma implied_extends conditions b b' es :
  extends b b' -> Forall (implied conditions b) es -> Forall (implied conditions b') es.
Proof.
  intros Hext Hes. eapply Forall_impl; [exact Hes|]. intros e [].
  split; [by eapply valid_extends|done..].
Qed.

Lemma none_equivalent_spec b filter originals :
  arena_ok b -> valid b filter -> boolean_expr filter ->
  Forall (fun e => valid b e /\ boolean_expr e) originals ->
  exists new, ImpliedFilters.none_equivalent functionNames filter originals = Ok new.
Proof.
  intros Hb Hv Hbool. induction 1 as [|e originals [He Hbe] _ IH]; [by exists true|]. simpl.
  destruct (equivalentModuloLogicalAssociativity_spec b (weight functionNames e) e filter)
    as (same & -> & _); [done..|]. simpl. destruct same; [by exists false|done].
Qed.

(** The filters found so far, and the ids that are taken. *)
Record found (conditions : list Expr) (b : Builder T V) (state : gset nat * list Expr) : Prop := {
  found_implied : Forall (implied conditions b) state.2;
  found_once : NoDup (map Expr.expr_id state.2);
  found_ids e : e ∈ state.2 -> Expr.expr_id e ∈ state.1;
  found_conditions e : e ∈ conditions -> Expr.expr_id e ∈ state.1;
  found_new e e' : e ∈ state.2 -> e' ∈ conditions -> Expr.expr_id e <> Expr.expr_id e'
}.

Lemma add_derived_spec conditions b state ps :
  arena_ok b -> Forall (fun e => valid b e /\ boolean_expr e) conditions ->
  Forall (fun p => implied conditions b p.2) ps -> found conditions b state ->
  exists state', ImpliedFilters.add_derived functionNames conditions state ps = Ok state' /\
    found conditions b state'.
Proof.
  intros Hb Hconds Hps. revert state. induction Hps as [|[column e] ps He _ IH]; intros [ids result] Hf.
  { by eexists. }
  simpl in He |- *. case_bool_decide as Hin; [by apply IH|].
  destruct (none_equivalent_spec b e (ImpliedFilters.originalFilters conditions column)) as [new ->];
    [done|apply He..| |].
  { rewrite List.Forall_forall in *. intros x [Hx _]%filter_In. by apply Hconds. }
  simpl. apply IH. destruct Hf as [Himp Hnd Hids Hcids Hnew]. cbn [fst snd] in *.
  assert (Hcids' : forall x, x ∈ conditions -> Expr.expr_id x ∈ {[Expr.expr_id e]} ∪ ids).
  { intros x Hx. apply elem_of_union. right. by apply Hcids. }
  destruct new; split; cbn [fst snd]; try done.
  - apply Forall_app. split; [done|]. by each.
  - rewrite map_app. simpl. apply NoDup_app. split; [done|]. split; [|apply NoDup_singleton].
    intros i Hi ->%list_elem_of_singleton. apply Hin.
    apply list_elem_of_In, in_map_iff in Hi as (x & <- & Hx%list_elem_of_In). by apply Hids.
  - intros x [Hx| ->%list_elem_of_singleton]%elem_of_app; apply elem_of_union;
      [right; by apply Hids|left; by apply elem_of_singleton].
  - intros x y [Hx| ->%list_elem_of_singleton]%elem_of_app Hy; [by apply Hnew|].
    intros Heq. apply Hin. rewrite Heq. by apply Hcids.
  - intros x Hx. apply elem_of_union. right. by apply Hids.
Qed.

Lemma derived_implied_column {Group} (covers : Group -> Column T -> Prop) conditions b e p :
  (forall g, exists column : Column T, forall c, covers g c -> column_id c = column_id column) ->
  e ∈ conditions -> derived covers b e p -> implied conditions b p.2.
Proof.
  intros Hcol He [[] Hg Himp]. split; [done..| |].
  - destruct (Hcol p.1) as [column Hc]. exists column. intros c Hin. by apply Hc, Hg.
  - intros r Hr Hall. apply Himp; [done|]. rewrite Forall_forall in Hall. by apply Hall.
Qed.

Lemma derive_columns_spec (b0 : Builder T V) conditions originals state :
  originals ⊆ conditions -> Forall (fun e => valid b0 e /\ boolean_expr e) conditions ->
  found conditions b0 state ->
  builds b0 (F ImpliedFilters.derive_columns functionNames conditions state originals)
    (fun b result => exists ids, found conditions b (ids, result)).
Proof.
  revert b0 state. induction originals as [|e originals IH]; intros b0 state Hsub Hconds Hf; simpl.
  { apply builds_ret. intros b _ Hext. exists state.1. destruct Hf. split; [by eapply implied_extends|done..]. }
  assert (He : e ∈ conditions) by (apply Hsub; by left).
  assert (Hcond : condition (Expr.columns e) b0 e).
  { rewrite Forall_forall in Hconds. destruct (Hconds e He). by split. }
  assert (Hgroup : forall column : Column T, exists column' : Column T, forall c, in_group column c -> column_id c = column_id column').
  { intros column. by exists column. }
  eapply builds_bind; [by apply (deriveGroupedFiltersFromOr_spec _ in_group onlyObject_spec b0 e)|].
  cbn beta. intros b1 ps Hb1 Hext1 Hps.
  eapply builds_bind; [apply (deriveColumnFiltersFromRowIn_spec b1 e Hb1); by eapply condition_extends|].
  cbn beta. intros b2 ps' Hb2 Hext2 Hps'.
  assert (Hext : extends b0 b2) by by transitivity b1.
  assert (Hconds2 : Forall (fun e => valid b2 e /\ boolean_expr e) conditions).
  { eapply Forall_impl; [exact Hconds|]. intros x [? ?]. split; [by eapply valid_extends|done]. }
  destruct (add_derived_spec conditions b2 state (ps ++ ps')) as (state' & -> & Hf'); [done..| | |].
  - apply Forall_app. split.
    + eapply Forall_impl; [exact Hps|]. intros p Hp.
      eapply derived_implied_column; [exact Hgroup|exact He|]. eapply derived_extends; [exact Hext2|exact Hp].
    + eapply Forall_impl; [exact Hps'|]. intros p Hp.
      eapply derived_implied_column; [exact Hgroup|exact He|done].
  - destruct Hf. split; [by eapply implied_extends|done..].
  - eapply (builds_bind _ _ _ (fun _ s => s = state')); [by apply builds_ret|].
    intros b3 s Hb3 Hext3 ->. apply IH.
    + intros x Hx. apply Hsub. by right.
    + eapply Forall_impl; [exact Hconds2|]. intros x [? ?]. split; [by eapply valid_extends|done].
    + destruct Hf'. split; [by eapply implied_extends|done..].
Qed.

(** ** The keys of a join *)

Abbreviation Keys := (Expr * Expr)%type.

(** A pair of keys that can be compared. *)
Record key_pair (b : Builder T V) (p : Keys) : Prop := {
  key_valid : valid b p.1 /\ valid b p.2;
  key_typed : typed p.1 = true /\ typed p.2 = true;
  key_primitive : primitive p.1 = true /\ primitive p.2 = true;
  key_types : equivalent (Expr.expr_type p.1) (Expr.expr_type p.2) = true
}.

Lemma key_pairs_extend b b' ps :
  extends b b' -> Forall (key_pair b) ps -> Forall (key_pair b') ps.
Proof.
  intros Hext Hps. eapply Forall_impl; [exact Hps|]. intros p [[] ? ? ?].
  split; [|done..]. by split; eapply valid_extends.
Qed.

(** The two keys are equal. *)
Definition keys_equal (r : Row V) (p : Keys) : Prop :=
  exists u, eval p.1 r = Some u /\ eval p.2 r = Some u.

(** Comparable expressions are equal when their values are the same. *)
Lemma passes_equality name (a b : Expr) t fs i r :
  equality functionNames = Some name -> typed a = true -> typed b = true ->
  primitive a = true -> primitive b = true ->
  equivalent (Expr.expr_type a) (Expr.expr_type b) = true -> row_ok types r ->
  passes r (CallExpr name [a; b] t fs i) <-> keys_equal r (a, b).
Proof.
  intros Hn Ha Hb Hpa Hpb Heq Hr. unfold FilterSimplifiers.passes, keys_equal. cbn [fst snd].
  rewrite (truth_compare_at _ _ _ _ _ _ Heval Equal a b name t fs i r Hn Hpa Hpb).
  pose proof (eval_typed _ _ _ _ _ _ Heval a r Ha Hr) as Hva.
  pose proof (eval_typed _ _ _ _ _ _ Heval b r Hb Hr) as Hvb.
  destruct (eval a r) as [u|], (eval b r) as [v|]; simpl;
    [|split; [done|by intros (? & ? & ?)]..].
  destruct Hva as [Hun Hu], Hvb as [Hvn Hv].
  assert (Hk : kind u = kind v).
  { rewrite (has_type_kind _ _ Hu Hun), (has_type_kind _ _ Hv Hvn). by apply equivalent_kind. }
  pose proof (less_same_kind _ _ _ _ _ (eval_sql _ _ _ _ _ _ Heval (mkColumn 0 booleanType) r)) as Hless.
  rewrite (Hless u v), (Hless v u) by done. rewrite <- (veq_spec u v). split.
  - intros [= Huv%veq_eq]. subst v. by exists u.
  - intros (w & [= ->] & [= ->]). by rewrite veq_refl.
Qed.

(** The pairs that are not redundant. *)
Fixpoint kept_pairs (pairs : list Keys) (redundant : list bool) : list Keys :=
  match pairs, redundant with
  | p :: pairs, flag :: redundant =>
      if flag : bool then kept_pairs pairs redundant else p :: kept_pairs pairs redundant
  | _, _ => []
  end.

Lemma kept_pairs_app ps flags p flag :
  length ps = length flags ->
  kept_pairs (ps ++ [p]) (flags ++ [flag]) = kept_pairs ps flags ++ (if flag : bool then [] else [p]).
Proof.
  revert flags. induction ps as [|q ps IH]; intros [|f flags] Hlen; try done.
  injection Hlen as Hlen. simpl. rewrite IH by done. by destruct f.
Qed.

Lemma addOnce_spec cols b es e :
  Forall (condition cols b) es -> condition cols b e ->
  Forall (condition cols b) (ImpliedFilters.addOnce es e) /\
  forall r, Forall (passes r) (ImpliedFilters.addOnce es e) <-> Forall (passes r) es /\ passes r e.
Proof.
  intros Hes He. unfold ImpliedFilters.addOnce. destruct (existsb _ es) eqn:Hex.
  - split; [done|]. intros r. apply existsb_exists in Hex as (x & Hx%list_elem_of_In & Hs).
    rewrite Forall_forall in Hes. rewrite <- (same_eq b x e); [|apply Hes, Hx|apply He|done].
    rewrite Forall_forall. naive_solver.
  - split; [by apply Forall_app; split; [|each]|]. intros r. by rewrite Forall_app, Forall_singleton.
Qed.

(** The equality of two keys on one side. *)
Lemma makeEq_spec cols (b0 : Builder T V) e e' :
  key_pair b0 (e, e') -> Expr.columns e ⊆ cols -> Expr.columns e' ⊆ cols ->
  builds b0 (F ExprFactory.makeEq functionNames e e') (fun b x => condition cols b x /\
    forall r, row_ok types r -> passes r x <-> keys_equal r (e, e')).
Proof.
  intros [[Hv Hv'] [Ht Ht'] [Hp Hp'] Heq] Hc Hc'. cbn [fst snd] in *.
  destruct (registered_name functionNames Hfull (equality functionNames)) as (name & Hname & _).
  { unfold registered. by left. }
  unfold ExprFactory.makeEq. eapply builds_weaken.
  - apply (makeFunction_implements _ _ _ _ _ _ _ Heval Hreversed b0 _ name [e; e'] 0%N 0 Hname); [by each|].
    apply (registered_typed functionNames types Hfull name CompareName).
    + unfold name_classes. rewrite <- Hname. by left.
    + by each.
    + simpl. by rewrite equivalent_sym.
  - cbn beta. intros b x _ _ Hx. split; [split|].
    + apply Hx.
    + by eapply implements_boolean.
    + etransitivity; [apply Hx|]. simpl. clear -Hc Hc'. set_solver.
    + intros r Hr. unfold FilterSimplifiers.passes.
      rewrite (refines_truth _ _ _ _ _ _ (implements_refines _ _ _ _ _ _ Hx) Hr).
      by apply passes_equality.
Qed.

(** The loop after some pairs: the ones it keeps and the equalities are as strong. *)
Record keys_derived (leftCols rightCols : list (Column T)) (b : Builder T V) (done : list Keys)
    (kept : list Keys) (result : ImpliedFilters.KeyEqualities (T:=T) (V:=V)) : Prop := {
  derived_flags : length (ImpliedFilters.redundant result) = length done;
  derived_kept p : p ∈ kept -> p ∈ kept_pairs done (ImpliedFilters.redundant result);
  derived_kept_ok : Forall (key_pair b) kept;
  derived_kept_columns p : p ∈ kept -> Expr.columns p.1 ⊆ leftCols /\ Expr.columns p.2 ⊆ rightCols;
  derived_left : Forall (condition leftCols b) (ImpliedFilters.left result);
  derived_right : Forall (condition rightCols b) (ImpliedFilters.right result);
  derived_same r : row_ok types r ->
    Forall (keys_equal r) done <->
    Forall (keys_equal r) (kept_pairs done (ImpliedFilters.redundant result)) /\
    Forall (passes r) (ImpliedFilters.left result) /\ Forall (passes r) (ImpliedFilters.right result)
}.

Lemma derive_key_spec leftCols rightCols (b0 : Builder T V) done kept result p :
  keys_derived leftCols rightCols b0 done kept result -> key_pair b0 p ->
  Expr.columns p.1 ⊆ leftCols -> Expr.columns p.2 ⊆ rightCols ->
  builds b0 (F ImpliedFilters.derive_key functionNames kept result p) (fun b state =>
    keys_derived leftCols rightCols b (done ++ [p]) state.1 state.2).
Proof.
  intros Hd Hp Hcl Hcr. destruct result as [left right flags]. destruct Hd as [Hlen Hk Hkok Hkc Hl Hr Hsame].
  cbn [ImpliedFilters.left ImpliedFilters.right ImpliedFilters.redundant] in *.
  assert (Hkeep : forall kept', kept' ⊆ kept ++ [p] ->
    builds b0 (mret (kept', ImpliedFilters.mkKeyEqualities left right (flags ++ [false])))
      (fun b state => keys_derived leftCols rightCols b (done ++ [p]) state.1 state.2)).
  { intros kept' Hsub. apply builds_ret. intros b _ Hext. split; cbn [fst snd ImpliedFilters.left ImpliedFilters.right ImpliedFilters.redundant]; rewrite ?kept_pairs_app by done.
    - rewrite !length_app. simpl. lia.
    - intros q [Hq| ->%list_elem_of_singleton]%Hsub%elem_of_app; apply elem_of_app;
        [left; by apply Hk|right; by left].
    - apply (key_pairs_extend _ _ _ Hext). rewrite Forall_forall in *.
      intros q [Hq| ->%list_elem_of_singleton]%Hsub%elem_of_app; [by apply Hkok|done].
    - intros q [Hq| ->%list_elem_of_singleton]%Hsub%elem_of_app; [by apply Hkc|done].
    - by eapply conditions_extend.
    - by eapply conditions_extend.
    - intros r Hrow. rewrite !Forall_app, (Hsame r Hrow). tauto. }
  assert (Hdrop : forall b left' right' (P : Row V -> Prop), extends b0 b ->
    Forall (condition leftCols b) left' -> Forall (condition rightCols b) right' ->
    (forall r, Forall (passes r) left' /\ Forall (passes r) right' <->
       (Forall (passes r) left /\ Forall (passes r) right) /\ P r) ->
    (forall r, row_ok types r -> Forall (keys_equal r) (kept_pairs done flags) -> keys_equal r p <-> P r) ->
    builds b (mret (kept, ImpliedFilters.mkKeyEqualities left' right' (flags ++ [true])))
      (fun b state => keys_derived leftCols rightCols b (done ++ [p]) state.1 state.2)).
  { intros b left' right' P Hext Hl' Hr' Hpass HP. apply builds_ret. intros b1 _ Hext1.
    split; cbn [fst snd ImpliedFilters.left ImpliedFilters.right ImpliedFilters.redundant]; rewrite ?kept_pairs_app, ?app_nil_r by done.
    - rewrite !length_app. simpl. lia.
    - done.
    - apply (key_pairs_extend b0); [by transitivity b|done].
    - done.
    - by apply (conditions_extend _ b).
    - by apply (conditions_extend _ b).
    - intros r Hrow. rewrite Forall_app, Forall_singleton, (Hsame r Hrow), Hpass.
      specialize (HP r Hrow). clear -HP. tauto. }
  unfold ImpliedFilters.derive_key. destruct (_ || _).
  { apply Hkeep. clear. set_solver. }
  destruct (List.find _ kept) as [q|] eqn:Hfind.
  2: { by apply Hkeep. }
  apply List.find_some in Hfind as [Hq%list_elem_of_In Hmatch].
  pose proof (Hkc q Hq) as [Hqcl Hqcr].
  rewrite Forall_forall in Hkok. pose proof (Hkok q Hq) as Hqok. apply Hk in Hq as Hqk.
  assert (Hqeq : forall r, Forall (keys_equal r) (kept_pairs done flags) -> keys_equal r q).
  { intros r Hall. rewrite Forall_forall in Hall. by apply Hall. }
  destruct p as [p1 p2], q as [q1 q2]. cbn [fst snd] in *.
  destruct Hp as [[Hpv1 Hpv2] [Hpt1 Hpt2] [Hpp1 Hpp2] Hpe], Hqok as [[Hqv1 Hqv2] [Hqt1 Hqt2] [Hqp1 Hqp2] Hqe].
  cbn [fst snd] in *.
  destruct (Expr.same q1 p1) eqn:Hs1; simpl negb; cbv iota.
  - apply (same_eq b0) in Hs1 as ->; [|done..]. destruct (Expr.same q2 p2) eqn:Hs2; simpl negb; cbv iota.
    + apply (same_eq b0) in Hs2 as ->; [|done..]. apply (Hdrop _ _ _ (fun _ => True)); [done..| |].
      * intros r. tauto.
      * intros r _ Hall. split; [done|]. intros _. by apply Hqeq.
    + eapply builds_bind.
      * apply (makeEq_spec rightCols b0 q2 p2); [|done..]. split; cbn [fst snd]; try done.
        apply (equivalent_trans _ (Expr.expr_type p1)); [by apply equivalent_sym|done].
      * cbn beta. intros b1 x _ Hext1 [Hx Hpass].
        destruct (addOnce_spec rightCols b1 right x) as [Hone Hones]; [by eapply conditions_extend|done|].
        apply (Hdrop _ _ _ (fun r => passes r x)); [done|by eapply conditions_extend|done| |].
        -- intros r. rewrite Hones. tauto.
        -- intros r Hrow Hall. rewrite (Hpass r Hrow). destruct (Hqeq r Hall) as (u & H1' & H2').
           unfold keys_equal in *. cbn [fst snd] in *. naive_solver.
  - assert (Hs2 : Expr.same q2 p2 = true) by (by destruct (Expr.same q2 p2)).
    apply (same_eq b0) in Hs2 as ->; [|done..]. eapply builds_bind.
    + apply (makeEq_spec leftCols b0 q1 p1); [|done..]. split; cbn [fst snd]; try done.
      apply (equivalent_trans _ (Expr.expr_type p2)); [done|by apply equivalent_sym].
    + cbn beta. intros b1 x _ Hext1 [Hx Hpass].
      destruct (addOnce_spec leftCols b1 left x) as [Hone Hones]; [by eapply conditions_extend|done|].
      apply (Hdrop _ _ _ (fun r => passes r x)); [done|done|by eapply conditions_extend| |].
      * intros r. rewrite Hones. tauto.
      * intros r Hrow Hall. rewrite (Hpass r Hrow). destruct (Hqeq r Hall) as (u & H1' & H2').
        unfold keys_equal in *. cbn [fst snd] in *. naive_solver.
Qed.

Lemma derive_keys_spec leftCols rightCols (b0 : Builder T V) done kept result ps :
  keys_derived leftCols rightCols b0 done kept result -> Forall (key_pair b0) ps ->
  Forall (fun p => Expr.columns p.1 ⊆ leftCols /\ Expr.columns p.2 ⊆ rightCols) ps ->
  builds b0 (F ImpliedFilters.derive_keys functionNames kept result ps) (fun b result =>
    exists kept, keys_derived leftCols rightCols b (done ++ ps) kept result).
Proof.
  revert b0 done kept result. induction ps as [|p ps IH]; intros b0 done kept result Hd Hps Hcs; simpl.
  - apply builds_ret. intros b _ Hext. exists kept. rewrite app_nil_r. destruct Hd.
    split; [done|done|by eapply key_pairs_extend|done|by eapply conditions_extend..|done].
  - inversion Hps; inversion Hcs as [|? ? [? ?] ?]; subst.
    eapply builds_bind; [by apply (derive_key_spec leftCols rightCols b0 done)|].
    cbn beta. intros b1 [kept1 result1] _ Hext1 Hd1.
    replace (done ++ p :: ps) with ((done ++ [p]) ++ ps) by by rewrite <- app_assoc.
    apply (IH b1 (done ++ [p])); [done|by eapply key_pairs_extend|done].
Qed.

Lemma deriveForJoinKeys_spec (b0 : Builder T V) leftKeys rightKeys :
  Forall (key_pair b0) (zip leftKeys rightKeys) ->
  builds b0 (F ImpliedFilters.deriveForJoinKeys functionNames leftKeys rightKeys) (fun b result =>
    length leftKeys = length rightKeys /\
    exists kept, keys_derived (flat_map Expr.columns leftKeys) (flat_map Expr.columns rightKeys) b
      (zip leftKeys rightKeys) kept result).
Proof.
  intros Hps. unfold ImpliedFilters.deriveForJoinKeys, velox_check.
  destruct (Nat.eqb_spec (length leftKeys) (length rightKeys)) as [Hlen|]; [|apply builds_throw].
  eapply (builds_bind _ _ _ (fun _ _ => True)); [by apply builds_ret|].
  cbn beta. intros b _ Hb Hext _. eapply builds_weaken; [apply (derive_keys_spec (flat_map Expr.columns leftKeys) (flat_map Expr.columns rightKeys) b [] [])|].
  - split; cbn; try done; by intros p ?%not_elem_of_nil.
  - by eapply key_pairs_extend.
  - apply Forall_forall. intros [l r] Hin. apply list_elem_of_lookup in Hin as (k & Hk).
    apply lookup_zip_with_Some in Hk as (? & ? & [= <- <-] & Hl & Hr).
    split; by apply args_columns, list_elem_of_In, (list_elem_of_lookup_2 _ k).
  - cbn beta. intros b' result _ _ Hkept. done.
Qed.

(** ** What the derived filters are for *)

(** C23: [deriveForJoinInputs] pushes filters below an inner join: from the filters of
    the join it derives, for each input, boolean filters on that input's columns
    alone, and joining the inputs filtered by them gives exactly the rows, in the
    same order, of joining the whole inputs. *)
Theorem deriveForJoinInputs_keeps_join b filters leftColumns rightColumns :
  arena_ok b -> Forall (fun e => valid b e /\ boolean_expr e) filters ->
  leftColumns ## rightColumns ->
  match F ImpliedFilters.deriveForJoinInputs functionNames filters leftColumns rightColumns b with
  | Ok ((leftFilters, rightFilters), b') =>
      arena_ok b' /\ extends b b' /\
      Forall (fun e => valid b' e /\ boolean_expr e /\ on_columns leftColumns e) leftFilters /\
      Forall (fun e => valid b' e /\ boolean_expr e /\ on_columns rightColumns e) rightFilters /\
      forall lefts rights,
        Forall (row_of leftColumns) lefts -> Forall (row_of rightColumns) rights ->
        inner_join filters (filtered_rows leftFilters lefts) (filtered_rows rightFilters rights) =
        inner_join filters lefts rights
  | Throw e => e <> OutOfFuel
  end.
Proof.
  intros Hb Hfs Hd.
  pose proof (deriveForJoinInputs_spec leftColumns rightColumns b filters filters (reflexivity _) Hfs
    b Hb (PreOrder_Reflexive b)) as Hs.
  destruct (ImpliedFilters.deriveForJoinInputs _ _ _ _ _ _ _) as [[[ls rs] b']|e]; [|done].
  destruct Hs as (Hb' & Hext & Hls & Hrs). cbn [fst snd] in *.
  split; [done|]. split; [done|]. split; [|split].
  - eapply Forall_impl; [exact Hls|]. by intros e [].
  - eapply Forall_impl; [exact Hrs|]. by intros e [].
  - intros xs ys Hxs Hys. by apply (inner_join_filtered leftColumns rightColumns Hd filters ls rs b').
Qed.

(** [deriveForColumns] derives, from an OR or from an IN over rows, boolean filters
    on single columns that the filters imply: adding them drops no row.  Each is
    new - not one of the filters, nor derived twice. *)
Theorem deriveForColumns_implied b filters :
  arena_ok b -> Forall (fun e => valid b e /\ boolean_expr e) filters ->
  match F ImpliedFilters.deriveForColumns functionNames filters b with
  | Ok (result, b') =>
      arena_ok b' /\ extends b b' /\
      Forall (fun e => valid b' e /\ boolean_expr e /\
        exists column : Column T, forall c, c ∈ Expr.columns e -> column_id c = column_id column) result /\
      NoDup (map Expr.expr_id result) /\
      (forall e e', e ∈ result -> e' ∈ filters -> Expr.same e e' = false) /\
      forall rows, Forall (row_ok types) rows ->
        filtered_rows (filters ++ result) rows = filtered_rows filters rows
  | Throw e => e <> OutOfFuel
  end.
Proof.
  intros Hb Hfs.
  assert (Hfound : found filters b (list_to_set (map Expr.expr_id filters), [])).
  { split; cbn [fst snd]; [done|constructor|by intros e ?%not_elem_of_nil| |by intros e e' ?%not_elem_of_nil].
    intros e He. apply elem_of_list_to_set, list_elem_of_In, in_map, list_elem_of_In, He. }
  pose proof (derive_columns_spec b filters filters _ (reflexivity _) Hfs Hfound b Hb (PreOrder_Reflexive b)) as Hs.
  unfold ImpliedFilters.deriveForColumns.
  destruct (ImpliedFilters.derive_columns _ _ _ _ _ _ _) as [[result b']|e]; [|done].
  destruct Hs as (Hb' & Hext & ids & [Himp Hnd _ _ Hnew]). cbn [fst snd] in *.
  split; [done|]. split; [done|]. split; [|split; [done|split]].
  - eapply Forall_impl; [exact Himp|]. by intros e [].
  - intros e e' He He'. apply Nat.eqb_neq. by apply Hnew.
  - intros rows Hrows. unfold filtered_rows. induction Hrows as [|r rows Hr _ IH]; [done|]. simpl.
    rewrite forallb_app, IH. destruct (forallb (accepts r) filters) eqn:Ha; [|done].
    assert (forallb (accepts r) result = true) as ->; [|done].
    apply accepts_all. apply accepts_all in Ha. eapply Forall_impl; [exact Himp|].
    intros e He. by apply (implied_holds _ _ _ He).
Qed.

(** [deriveForJoinKeys] drops only key equalities the others imply: on every row,
    all key pairs are equal exactly when the pairs not marked redundant are and the
    equalities derived for the inputs hold; these compare keys of one input. *)
Theorem deriveForJoinKeys_as_strong b leftKeys rightKeys :
  arena_ok b -> Forall (key_pair b) (zip leftKeys rightKeys) ->
  match F ImpliedFilters.deriveForJoinKeys functionNames leftKeys rightKeys b with
  | Ok (result, b') =>
      arena_ok b' /\ extends b b' /\
      length (ImpliedFilters.redundant result) = length leftKeys /\
      Forall (condition (flat_map Expr.columns leftKeys) b') (ImpliedFilters.left result) /\
      Forall (condition (flat_map Expr.columns rightKeys) b') (ImpliedFilters.right result) /\
      forall r, row_ok types r ->
        Forall (keys_equal r) (zip leftKeys rightKeys) <->
        Forall (keys_equal r) (kept_pairs (zip leftKeys rightKeys) (ImpliedFilters.redundant result)) /\
        Forall (passes r) (ImpliedFilters.left result) /\ Forall (passes r) (ImpliedFilters.right result)
  | Throw e => e <> OutOfFuel
  end.
Proof.
  intros Hb Hps. pose proof (deriveForJoinKeys_spec b leftKeys rightKeys Hps b Hb (PreOrder_Reflexive b)) as Hs.
  destruct (ImpliedFilters.deriveForJoinKeys _ _ _ _ _ _) as [[result b']|e]; [|done].
  destruct Hs as (Hb' & Hext & Hlen & kept & []). split; [done|]. split; [done|].
  split; [|done]. rewrite derived_flags0. rewrite length_zip_with. lia.
Qed.
End Conditions.
