(* ===== verification/Substitutions.v ===== *)
(** * Substitution

    [replace] and [substitute] of [axiom/optimizer/v2/ExprFactory.cpp]: rewriting an
    expression under a mapping of expressions, with a memo of the calls, fields and
    lambdas rewritten, the original object shared where nothing changes, and the
    arguments of a lambda shadowing the mapping.

    The theorem: what [substitute] returns has, on every row, the value of the
    original expression on the row in which the sources hold the values of the
    targets; and it reads no source, except through a target.

    A mapping is the list of its entries; the memo is the objects by id, passed
    along. *)

From Stdlib Require Import ZArith Lia.
From S2P Require Import Prelude Domains DomainSets Expressions ExprDomains SqlSemantics Builders ExprFactories ExprSimplifiers.

Local Open Scope nat_scope.
Set Warnings "-register-all".

Module Substitution.
Section Substitution.
Context {T V : Type} `{TypeOps T} `{VariantOps V} `{FunctionRegistry}.
Variable maxPlanObjects : nat.
Variable reversibleFunctions : string -> option string.

Abbreviation Expr := (Expr T V).
Abbreviation M := (StateM (Builder T V)).
Abbreviation F f := (f maxPlanObjects reversibleFunctions).

(** [ExprSubstitution], [find], [contains] and [erase]. *)
Abbreviation ExprSubstitution := (list (Expr * Expr)).
Abbreviation ReplaceMemo := (gmap nat Expr).

Definition find (mapping : ExprSubstitution) (expr : Expr) : option Expr :=
  snd <$> List.find (fun entry => Expr.same entry.1 expr) mapping.

Definition contains (mapping : ExprSubstitution) (expr : Expr) : bool :=
  existsb (fun entry => Expr.same entry.1 expr) mapping.

Definition erase (mapping : ExprSubstitution) (expr : Expr) : ExprSubstitution :=
  List.filter (fun entry => negb (Expr.same entry.1 expr)) mapping.

(** The mapping the body of a lambda sees. *)
Definition visible (mapping : ExprSubstitution) (args : list (Column T)) : ExprSubstitution :=
  foldl (fun mapping boundArg => erase mapping (ColumnExpr boundArg)) mapping args.

Definition shadowsMapping (mapping : ExprSubstitution) (args : list (Column T)) : bool :=
  existsb (fun boundArg => contains mapping (ColumnExpr boundArg)) args.

(** A loop over expressions that passes the memo along. *)
Section Thread.
Variable f : Expr -> ReplaceMemo -> M (Expr * ReplaceMemo).

Fixpoint thread (exprs : list Expr) (memo : ReplaceMemo) : M (list Expr * ReplaceMemo) :=
  match exprs with
  | [] => mret ([], memo)
  | expr :: exprs =>
      replaced ← f expr memo;
      rest ← thread exprs replaced.2;
      mret (replaced.1 :: rest.1, rest.2)
  end.
End Thread.

(** [anyChange] *)
Fixpoint any_change (exprs exprs' : list Expr) : bool :=
  match exprs, exprs' with
  | e :: exprs, e' :: exprs' => negb (Expr.same e' e) || any_change exprs exprs'
  | _, _ => false
  end.

(** [memo.emplace(expr, result)] *)
Definition remember (expr : Expr) (replaced : Expr * ReplaceMemo) : Expr * ReplaceMemo :=
  (replaced.1, match replaced.2 !! Expr.expr_id expr with
               | Some _ => replaced.2
               | None => <[Expr.expr_id expr := replaced.1]> replaced.2
               end).

Fixpoint replaceExpr (mapping : ExprSubstitution) (expr : Expr) (memo : ReplaceMemo) :
    M (Expr * ReplaceMemo) :=
  match find mapping expr with
  | Some target => mret (target, memo)
  | None =>
      match memo !! Expr.expr_id expr with
      | Some result => mret (result, memo)
      | None =>
          match expr with
          | ColumnExpr _ | LiteralExpr _ _ _ => mret (expr, memo)
          | CallExpr name args type functions _ =>
              replaced ← thread (fun arg memo => replaceExpr mapping arg memo) args memo;
              (if any_change args replaced.1
               then result ← F ExprFactory.rebuildCall name type functions replaced.1;
                    mret (remember expr (result, replaced.2))
               else mret (remember expr (expr, replaced.2)))
          | FieldExpr base field type _ =>
              replaced ← replaceExpr mapping base memo;
              (if Expr.same replaced.1 base then mret (remember expr (expr, replaced.2))
               else result ← ExprFactory.rebuildField maxPlanObjects field type replaced.1;
                    mret (remember expr (result, replaced.2)))
          | LambdaExpr args body type _ =>
              replaced ← (if shadowsMapping mapping args
                          then newBody ← replaceExpr (visible mapping args) body ∅;
                               mret (newBody.1, memo)
                          else replaceExpr mapping body memo);
              (if Expr.same replaced.1 body then mret (remember expr (expr, replaced.2))
               else result ← ExprFactory.rebuildLambda maxPlanObjects args type replaced.1;
                    mret (remember expr (result, replaced.2)))
          | OtherExpr _ _ _ _ =>
              throw (VeloxCheck "ExprFactory::replace: unsupported expression type")
          end
      end
  end.

Definition replace (expr : Expr) (mapping : ExprSubstitution) : M Expr :=
  fst <$> replaceExpr mapping expr ∅.

Definition replaceAll (exprs : list Expr) (mapping : ExprSubstitution) : M (list Expr) :=
  fst <$> thread (replaceExpr mapping) exprs ∅.

(** The loop of [toSubstitution], [emplace] included. *)
Fixpoint to_substitution (mapping : ExprSubstitution) (pairs : list (Column T * Expr)) :
    Result ExprSubstitution :=
  match pairs with
  | [] => Ok mapping
  | (source, target) :: pairs =>
      match find mapping (ColumnExpr source) with
      | None => to_substitution (mapping ++ [(ColumnExpr source, target)]) pairs
      | Some target' =>
          velox_check (Expr.same target' target) "Conflicting substitution targets for source" ≫= fun _ =>
          to_substitution mapping pairs
      end
  end.

Definition toSubstitution (sources : list (Column T)) (targets : list Expr) : Result ExprSubstitution :=
  velox_check (length sources =? length targets) "sources.size(), targets.size()" ≫= fun _ =>
  to_substitution [] (zip sources targets).

Definition substitute (expr : Expr) (sources : list (Column T)) (targets : list Expr) : M Expr :=
  lift (toSubstitution sources targets) ≫= replace expr.

Definition substituteAll (exprs : list Expr) (sources : list (Column T)) (targets : list Expr) :
    M (list Expr) :=
  lift (toSubstitution sources targets) ≫= replaceAll exprs.
End Substitution.
End Substitution.

(** ** What a substitution means *)

Section Meaning.
Context {T V : Type} `{TypedValues T V} `{FunctionRegistry} `{!VariantEq V}.
Context (functionNames : FunctionNames) (types : gmap nat T)
  (eval : Expr T V -> Row V -> option V)
  (less : V -> V -> bool) (reversed : string -> option string)
  (constant : Expr T V -> option (V * T)) (maxPlanObjects : nat).
Context (Heval : EvalLaws functionNames types eval less reversed constant)
  (Hreversed : reversible_ok functionNames reversed).
Abbreviation Expr := (Expr T V).
Abbreviation typed := (typed functionNames types).
Abbreviation Mapping := (list (Expr * Expr)).
Abbreviation F f := (f maxPlanObjects reversed).
Abbreviation find := Substitution.find.
Abbreviation visible := Substitution.visible.

(** *** Mappings *)

(** Sources that are no literals, with targets of their type. *)
Record entry_ok (b : Builder T V) (p : Expr * Expr) : Prop := {
  source_valid : valid b p.1;
  source_not_literal : Builder.is_literal_expr p.1 = false;
  target_valid : valid b p.2;
  target_typed : typed p.2 = true;
  target_type : Expr.expr_type p.2 = Expr.expr_type p.1
}.

Definition mapping_ok (b : Builder T V) (mapping : Mapping) : Prop :=
  forall p, p ∈ mapping -> entry_ok b p.

Lemma mapping_extends b b' mapping : extends b b' -> mapping_ok b mapping -> mapping_ok b' mapping.
Proof. intros Hext Hm p Hp. destruct (Hm p Hp). split; try done; by eapply valid_extends. Qed.

Lemma find_some b mapping (e target : Expr) :
  mapping_ok b mapping -> valid b e -> find mapping e = Some target -> (e, target) ∈ mapping.
Proof.
  unfold Substitution.find. intros Hm He Hf.
  destruct (List.find _ mapping) as [[source t]|] eqn:Hfind; [|done]. injection Hf as ->.
  apply List.find_some in Hfind as [Hin%list_elem_of_In Hs]. cbn [fst] in Hs.
  by rewrite <- (same_eq b source e (source_valid _ _ (Hm _ Hin)) He Hs).
Qed.

Lemma find_none (mapping : Mapping) (e : Expr) :
  find mapping e = None <-> forall p, p ∈ mapping -> Expr.same p.1 e = false.
Proof.
  unfold Substitution.find. destruct (List.find _ mapping) as [q|] eqn:Hfind; split; try done.
  - intros Hall. apply List.find_some in Hfind as [Hin%list_elem_of_In Hs].
    specialize (Hall q Hin). congruence.
  - intros _ p Hp. by eapply List.find_none in Hfind; [|by apply list_elem_of_In].
Qed.

Lemma find_mapped (mapping : Mapping) (e e' : Expr) :
  Expr.expr_id e = Expr.expr_id e' -> find mapping e = find mapping e'.
Proof.
  intros Hid. unfold Substitution.find, Expr.same. rewrite Hid. done.
Qed.

Definition bound (args : list (Column T)) (c : nat) : Prop := In c (map column_id args).

Lemma elem_of_visible (mapping : Mapping) args p :
  p ∈ visible mapping args <-> p ∈ mapping /\ ~ bound args (Expr.expr_id p.1).
Proof.
  unfold Substitution.visible, bound. revert mapping. induction args as [|c args IH]; intros mapping; simpl; [tauto|].
  rewrite IH. unfold Substitution.erase. rewrite list_elem_of_In, filter_In, <- list_elem_of_In.
  unfold Expr.same. simpl. rewrite negb_true_iff, Nat.eqb_neq. intuition congruence.
Qed.

Lemma visible_all (mapping : Mapping) args :
  Substitution.shadowsMapping mapping args = false -> visible mapping args = mapping.
Proof.
  unfold Substitution.visible. revert mapping. induction args as [|c args IH]; intros mapping; simpl; [done|].
  intros [Hc Hargs]%orb_false_iff.
  assert (Substitution.erase mapping (ColumnExpr c) = mapping) as ->; [|by apply IH].
  clear -Hc. unfold Substitution.contains in Hc. induction mapping as [|p mapping IH]; [done|].
  simpl in *. apply orb_false_iff in Hc as [-> Hc]. simpl. by rewrite IH.
Qed.

Lemma find_visible_none (mapping : Mapping) args (c : Column T) :
  find (visible mapping args) (ColumnExpr c) = None -> ~ bound args (column_id c) ->
  find mapping (ColumnExpr c) = None.
Proof.
  rewrite !find_none. intros Hf Hc p Hp. destruct (Expr.same p.1 (ColumnExpr c)) eqn:Hs; [|done].
  rewrite <- Hs. apply Hf, elem_of_visible. split; [done|].
  apply Nat.eqb_eq in Hs. simpl in Hs. by rewrite Hs.
Qed.

(** *** Capture *)

(** No column of the expression is an argument. *)
Definition avoids (args : list (Column T)) (e : Expr) : bool :=
  forallb (fun c => negb (existsb (fun arg => Nat.eqb (column_id arg) (column_id c)) args))
    (Expr.columns e).

Lemma avoids_spec args (e : Expr) c : avoids args e = true -> In c (Expr.columns e) -> ~ bound args (column_id c).
Proof.
  unfold avoids, bound. rewrite forallb_forall. intros Hall Hc (arg & Heq & Harg)%in_map_iff.
  specialize (Hall c Hc). apply negb_true_iff in Hall.
  assert (existsb (fun arg => Nat.eqb (column_id arg) (column_id c)) args = true); [|congruence].
  apply existsb_exists. exists arg. split; [done|]. by apply Nat.eqb_eq.
Qed.

(** No lambda of the expression binds a column of the entries its body sees. *)
Fixpoint no_capture (mapping : Mapping) (e : Expr) : bool :=
  match find mapping e with
  | Some _ => true
  | None =>
      match e with
      | CallExpr _ args _ _ _ => forallb (no_capture mapping) args
      | FieldExpr base _ _ _ => no_capture mapping base
      | LambdaExpr args body _ _ =>
          forallb (fun p => avoids args p.1 && avoids args p.2) (visible mapping args) &&
          no_capture (visible mapping args) body
      | _ => true
      end
  end.

(** A row on which the sources have the values the targets have on another; the
    other columns of the expression are the same. *)
Record agree (mapping : Mapping) (e : Expr) (r s : Row V) : Prop := {
  agree_sources p : p ∈ mapping -> eval p.1 r = eval p.2 s;
  agree_columns c : c ∈ Expr.columns e -> find mapping (ColumnExpr c) = None ->
    r !! column_id c = s !! column_id c
}.

Lemma agree_part mapping e e' r s :
  Expr.columns e' ⊆ Expr.columns e -> agree mapping e r s -> agree mapping e' r s.
Proof. intros Hsub []. split; [done|]. intros c Hc. apply agree_columns0. by apply Hsub. Qed.

(** The rows on which a lambda evaluates its body. *)
Lemma agree_body (mapping : Mapping) args body t i r s r' s' :
  forallb (fun p => avoids args p.1 && avoids args p.2) (visible mapping args) = true ->
  agree mapping (LambdaExpr args body t i) r s ->
  binds_row args r r' -> binds_row args s s' ->
  (forall c, bound args c -> r' !! c = s' !! c) ->
  agree (visible mapping args) body r' s'.
Proof.
  intros Havoid [Hsrc Hcol] Hr Hs Hargs. rewrite forallb_forall in Havoid. split.
  - intros p Hp. specialize (Havoid p (proj1 (list_elem_of_In _ _) Hp)).
    apply andb_true_iff in Havoid as [Ha1 Ha2]. apply elem_of_visible in Hp as [Hp _].
    transitivity (eval p.1 r); [|rewrite (Hsrc p Hp)].
    + apply (eval_local _ _ _ _ _ _ Heval). intros c Hc. apply Hr. exact (avoids_spec args p.1 c Ha1 Hc).
    + apply (eval_local _ _ _ _ _ _ Heval). intros c Hc. symmetry. apply Hs. exact (avoids_spec args p.2 c Ha2 Hc).
  - intros c Hc Hf. destruct (in_dec Nat.eq_dec (column_id c) (map column_id args)) as [Hb|Hb]; [by apply Hargs|].
    rewrite (Hr _ Hb), (Hs _ Hb). apply Hcol; [|exact (find_visible_none mapping args c Hf Hb)].
    simpl. apply list_elem_of_In, filter_In. split; [by apply list_elem_of_In|].
    apply negb_true_iff, not_true_is_false. intros (arg & Harg & Heq%Nat.eqb_eq)%existsb_exists.
    apply Hb. rewrite <- Heq. by apply in_map.
Qed.

(** *** The result *)

(** [e'] is [e] with targets for sources. *)
Record stands_for (mapping : Mapping) (e e' : Expr) : Prop := {
  stands_typed : typed e' = true;
  stands_shape : same_shape e e';
  stands_columns c : c ∈ Expr.columns e' ->
    (c ∈ Expr.columns e /\ find mapping (ColumnExpr c) = None) \/
    (exists p, p ∈ mapping /\ c ∈ Expr.columns p.2);
  stands_eval r s : no_capture mapping e = true -> row_ok types r -> row_ok types s ->
    agree mapping e r s -> eval e r = eval e' s
}.

Definition substituted (mapping : Mapping) (b : Builder T V) (e e' : Expr) : Prop :=
  valid b e' /\ stands_for mapping e e'.

Lemma substituted_extends mapping b b' e e' :
  extends b b' -> substituted mapping b e e' -> substituted mapping b' e e'.
Proof. intros Hext []. split; [by eapply valid_extends|done]. Qed.

Definition memo_ok (mapping : Mapping) (b : Builder T V) (memo : gmap nat Expr) : Prop :=
  forall i e', memo !! i = Some e' ->
    exists e, valid b e /\ Expr.expr_id e = i /\ substituted mapping b e e'.

Lemma memo_extends mapping b b' memo : extends b b' -> memo_ok mapping b memo -> memo_ok mapping b' memo.
Proof.
  intros Hext Hm i e' Hi. destruct (Hm i e' Hi) as (e & He & ? & ?). exists e.
  split; [by eapply valid_extends|]. split; [done|]. by eapply substituted_extends.
Qed.

(** The outcome of a rewrite, with the memo after it. *)
Definition replaced (mapping : Mapping) (e : Expr) (b : Builder T V) (result : Expr * gmap nat Expr) : Prop :=
  substituted mapping b e result.1 /\ memo_ok mapping b result.2.

Lemma remember_ok mapping b e result :
  valid b e -> replaced mapping e b result -> replaced mapping e b (Substitution.remember e result).
Proof.
  intros He [Hs Hm]. split; [done|]. simpl. destruct (result.2 !! Expr.expr_id e) eqn:Hi; [done|].
  intros i e' [[<- <-]|[_ Hi']]%lookup_insert_Some; [by exists e|by apply Hm].
Qed.

(** *** Rewriting *)

Lemma replaced_extends mapping e b b' result :
  extends b b' -> replaced mapping e b result -> replaced mapping e b' result.
Proof. intros Hext []. split; [by eapply substituted_extends|by eapply memo_extends]. Qed.

(** A result that was found before. *)
Lemma memo_hit mapping b memo e e' :
  valid b e -> memo_ok mapping b memo -> memo !! Expr.expr_id e = Some e' ->
  substituted mapping b e e'.
Proof.
  intros He Hm Hi. destruct (Hm _ _ Hi) as (e0 & He0 & Hid & Hs).
  assert (e0 = e) as <-; [|done]. apply (same_eq b); [done..|]. by apply Nat.eqb_eq.
Qed.

Lemma any_change_none b (es es' : list Expr) :
  Forall (valid b) es -> Forall (valid b) es' -> length es = length es' ->
  Substitution.any_change es es' = false -> es' = es.
Proof.
  intros Hes. revert es'. induction Hes as [|e es He _ IH]; intros [|e' es'] Hes' Hlen; try done.
  simpl. intros [Hs%negb_false_iff Hss]%orb_false_iff. inversion Hes'; subst. f_equal.
  - by apply (same_eq b).
  - by apply IH; [|injection Hlen|].
Qed.

(** The loop over the arguments. *)
Lemma thread_spec mapping f (es : list Expr) :
  Forall (fun e => forall b memo, arena_ok b -> mapping_ok b mapping -> memo_ok mapping b memo ->
    valid b e -> typed e = true -> builds b (f e memo) (replaced mapping e)) es ->
  forall b memo, mapping_ok b mapping -> memo_ok mapping b memo -> Forall (valid b) es ->
  Forall (fun e => typed e = true) es ->
  builds b (Substitution.thread f es memo) (fun b result =>
    Forall2 (substituted mapping b) es result.1 /\ memo_ok mapping b result.2).
Proof.
  intros Hf. induction Hf as [|e es He _ IH]; intros b0 memo Hm Hmemo Hv Ht; simpl.
  { apply builds_ret. intros b _ Hext. split; [constructor|]. by eapply memo_extends. }
  inversion Hv; inversion Ht; subst. intros b Hb Hext.
  eapply (builds_bind b); [apply He|..]; try done.
  - by eapply mapping_extends.
  - by eapply memo_extends.
  - by eapply valid_extends.
  - intros b1 [e' memo1] Hb1 Hext1 [He' Hmemo1]. cbn [fst snd] in *.
    assert (Hext' : extends b0 b1) by by transitivity b.
    eapply builds_bind; [apply (IH b1 memo1)|].
    + by eapply mapping_extends.
    + done.
    + by eapply valids_extends.
    + done.
    + cbn beta. intros b2 [es' memo2] Hb2 Hext2 [Hes' Hmemo2]. apply builds_ret.
      intros b3 _ Hext3. cbn [fst snd] in *. split.
      * constructor; [|eapply Forall2_impl; [exact Hes'|]; intros x y; by apply substituted_extends].
        apply (substituted_extends _ b1); [by transitivity b2|done].
      * by eapply memo_extends.
Qed.

Lemma substituted_list (mapping : Mapping) b es es' :
  Forall2 (substituted mapping b) es es' ->
  Forall2 same_shape es es' /\ Forall (valid b) es' /\ Forall (fun e => typed e = true) es' /\
  (forall c, c ∈ flat_map Expr.columns es' ->
    (c ∈ flat_map Expr.columns es /\ find mapping (ColumnExpr c) = None) \/
    (exists p, p ∈ mapping /\ c ∈ Expr.columns p.2)) /\
  (forall r s, forallb (no_capture mapping) es = true -> row_ok types r -> row_ok types s ->
    (forall e, e ∈ es -> agree mapping e r s) -> Forall2 (same_at eval r s) es es').
Proof.
  induction 1 as [|e e' es es' He _ IH].
  { split; [constructor|]. split; [constructor|]. split; [constructor|]. split; [by intros c ?%not_elem_of_nil|].
    intros. constructor. }
  destruct IH as (Hsh & Hv & Ht & Hc & Hev). destruct He as [Hv0 [Ht0 Hsh0 Hc0 Hev0]].
  split; [by constructor|]. split; [by constructor|]. split; [by constructor|]. split.
  - intros c [Hin|Hin]%elem_of_app; simpl; rewrite elem_of_app.
    + destruct (Hc0 c Hin) as [[? ?]|?]; [left|by right]. split; [by left|done].
    + destruct (Hc c Hin) as [[? ?]|?]; [left|by right]. split; [by right|done].
  - intros r s [Hn Hns]%andb_true_iff Hr Hs Hag. constructor.
    + split; [symmetry; apply Hsh0|]. apply Hev0; [done..|]. apply Hag. by left.
    + apply Hev; [done..|]. intros x Hx. apply Hag. by right.
Qed.

(** A new object that means the rewritten expression. *)
Lemma stands_for_implements mapping b e m e' :
  Builder.is_literal_expr e = false -> stands_for mapping e m ->
  implements functionNames types eval b m e' -> substituted mapping b e e'.
Proof.
  intros Hl [Ht Hsh Hc Hev] [Hv' Ht' [Hty He Hcols _]]. split; [done|]. split; [done| | |].
  - split; [rewrite Hty; apply Hsh|]. by rewrite Hl.
  - intros c Hin. apply Hc. by apply Hcols.
  - intros r s Hn Hr Hs Hag. rewrite (He s Hs). by apply Hev.
Qed.

(** A call over rewritten arguments. *)
Lemma stands_call mapping b name args args' t fs i fs' i' :
  typed (CallExpr name args t fs i) = true -> find mapping (CallExpr name args t fs i) = None ->
  Forall2 (substituted mapping b) args args' ->
  stands_for mapping (CallExpr name args t fs i) (CallExpr name args' t fs' i').
Proof.
  intros Ht Hf Hargs. destruct (substituted_list _ _ _ _ Hargs) as (Hsh & _ & Ht' & Hc & Hev). split.
  - by eapply typed_replace.
  - done.
  - exact Hc.
  - intros r s Hn Hr Hs Hag. apply (eval_call _ _ _ _ _ _ Heval); [|done..]. simpl in Hn. rewrite Hf in Hn.
    apply Hev; [done..|]. intros e He. eapply agree_part; [|exact Hag]. simpl.
    by apply args_columns, list_elem_of_In.
Qed.

Lemma stands_field mapping b base base' f t i i' :
  find mapping (FieldExpr base f t i) = None -> substituted mapping b base base' ->
  stands_for mapping (FieldExpr base f t i) (FieldExpr base' f t i').
Proof.
  intros Hf [_ [Ht Hsh Hc Hev]]. split; [done|done|exact Hc|].
  intros r s Hn Hr Hs Hag. apply (eval_field _ _ _ _ _ _ Heval); [|done..]. simpl in Hn. rewrite Hf in Hn.
  split; [symmetry; apply Hsh|]. apply Hev; [done..|]. by eapply agree_part; [|exact Hag].
Qed.

Lemma stands_lambda mapping b args body body' t i i' :
  typed (LambdaExpr args body t i) = true -> find mapping (LambdaExpr args body t i) = None ->
  substituted (visible mapping args) b body body' ->
  stands_for mapping (LambdaExpr args body t i) (LambdaExpr args body' t i').
Proof.
  intros Ht Hf [_ [Ht' Hsh Hc Hev]]. simpl in Ht. apply andb_true_iff in Ht as [Hta _]. split.
  - simpl. by rewrite Hta.
  - done.
  - simpl. intros c. rewrite !list_elem_of_In, !filter_In, <- !list_elem_of_In. intros [Hin Hargs].
    destruct (Hc c Hin) as [[Hin' Hfv]|(p & [Hp _]%elem_of_visible & Hcp)]; [left|right; by exists p].
    split; [done|]. apply (find_visible_none mapping args); [done|].
    apply negb_true_iff in Hargs. intros (arg & Heq & Harg)%in_map_iff.
    assert (existsb (fun arg => column_id arg =? column_id c) args = true); [|congruence].
    apply existsb_exists. exists arg. split; [done|]. by apply Nat.eqb_eq.
  - intros r s Hn Hr Hs Hag. apply (eval_lambda _ _ _ _ _ _ Heval); [|done..].
    simpl in Hn. rewrite Hf in Hn. apply andb_true_iff in Hn as [Havoid Hn].
    intros r' s' Hr' Hs' Hbr Hbs Hsame. split; [symmetry; apply Hsh|].
    apply Hev; [done..|]. by eapply agree_body.
Qed.

(** New objects over rewritten parts. *)
Lemma rebuildField_spec (b0 : Builder T V) base f t :
  valid b0 base -> typed base = true ->
  builds b0 (ExprFactory.rebuildField maxPlanObjects f t base)
    (fun b e => implements functionNames types eval b (FieldExpr base f t 0) e).
Proof.
  intros Hv Ht. eapply builds_weaken; [apply make_spec; [done..|by each]|].
  cbn beta. intros b e _ _ [He [i ->]]. split; [done..|]. by apply (refines_field _ _ _ _ _ _ Heval).
Qed.

Lemma rebuildLambda_spec (b0 : Builder T V) args body t :
  Forall (valid b0) (map ColumnExpr args) -> valid b0 body ->
  forallb (fun c => bool_decide (types !! column_id c = Some (column_type c))) args = true ->
  typed body = true ->
  builds b0 (ExprFactory.rebuildLambda maxPlanObjects args t body)
    (fun b e => implements functionNames types eval b (LambdaExpr args body t 0) e).
Proof.
  intros Hvs Hv Hta Ht. eapply builds_weaken.
  { apply make_spec; [done..|]. simpl. apply Forall_app. split; [done|by each]. }
  cbn beta. intros b e _ _ [He [i ->]]. split; [done| |by apply (refines_lambda _ _ _ _ _ _ Heval)].
  simpl. by rewrite Hta.
Qed.

(** Only what is neither mapped nor rewritten before is rewritten. *)
Lemma lookups_spec mapping b0 memo e (m : StateM (Builder T V) (Expr * gmap nat Expr)) :
  mapping_ok b0 mapping -> memo_ok mapping b0 memo -> valid b0 e ->
  (find mapping e = None -> builds b0 m (replaced mapping e)) ->
  builds b0 (match find mapping e with
             | Some target => mret (target, memo)
             | None => match memo !! Expr.expr_id e with
                       | Some result => mret (result, memo)
                       | None => m
                       end
             end) (replaced mapping e).
Proof.
  intros Hm Hmemo Hv Hrest.
  assert (Hret : forall target, substituted mapping b0 e target ->
    builds b0 (mret (target, memo)) (replaced mapping e)).
  { intros target Hs. apply builds_ret. intros b _ Hext.
    split; [by eapply substituted_extends|by eapply memo_extends]. }
  destruct (find mapping e) as [target|] eqn:Hf.
  - apply Hret. apply (find_some b0) in Hf; [|done..]. destruct (Hm _ Hf) as [? Hlit ? ? Htype].
    cbn [fst snd] in *. split; [done|]. split; [done|split; [done|by rewrite Hlit]| |].
    + intros c Hc. right. by exists (e, target).
    + intros r s _ _ _ Hag. apply (agree_sources _ _ _ _ Hag _ Hf).
  - destruct (memo !! Expr.expr_id e) as [result|] eqn:Hi; [|by apply Hrest].
    by eapply Hret, memo_hit.
Qed.

(** A leaf. *)
Lemma leaf_spec mapping b0 memo e :
  memo_ok mapping b0 memo -> valid b0 e -> stands_for mapping e e ->
  builds b0 (mret (e, memo)) (replaced mapping e).
Proof.
  intros Hmemo Hv Hs. apply builds_ret. intros b _ Hext.
  split; [|by eapply memo_extends]. split; [by eapply valid_extends|done].
Qed.

(** The end of a rewrite: the original object, or a new one. *)
Lemma rewritten_spec mapping b0 memo e m result :
  valid b0 e -> memo_ok mapping b0 memo -> Builder.is_literal_expr e = false ->
  stands_for mapping e m ->
  builds b0 result (fun b e' => implements functionNames types eval b m e') ->
  builds b0 (result ≫= fun e' => mret (Substitution.remember e (e', memo))) (replaced mapping e).
Proof.
  intros Hv Hmemo Hl Hs Hresult. eapply builds_bind; [exact Hresult|]. cbn beta.
  intros b e' Hb Hext He'. apply builds_ret. intros b1 _ Hext1.
  assert (Hext' : extends b0 b1) by by transitivity b.
  apply remember_ok; [by eapply valid_extends|]. split; [|by apply (memo_extends _ b0)].
  eapply stands_for_implements; [exact Hl|exact Hs|]. by apply (implements_extends _ _ _ b).
Qed.

Lemma kept_spec mapping b0 memo e :
  valid b0 e -> memo_ok mapping b0 memo -> stands_for mapping e e ->
  builds b0 (mret (Substitution.remember e (e, memo))) (replaced mapping e).
Proof.
  intros Hv Hmemo Hs. apply builds_ret. intros b _ Hext.
  apply remember_ok; [by eapply valid_extends|]. split; [|by apply (memo_extends _ b0)].
  split; [by eapply valid_extends|done].
Qed.

Lemma replaceExpr_spec e : forall mapping b0 memo,
  arena_ok b0 -> mapping_ok b0 mapping -> memo_ok mapping b0 memo -> valid b0 e -> typed e = true ->
  builds b0 (F Substitution.replaceExpr mapping e memo) (replaced mapping e).
Proof.
  induction e as [c|v t i|name args t fs i IH|base f t i IH|args body t i IH|cs fs t i] using Expr_nested_ind;
    intros mapping b0 memo Hb0 Hm Hmemo Hv Ht; cbn [Substitution.replaceExpr];
    apply lookups_spec; try done; intros Hf.
  - apply leaf_spec; [done..|]. split; [done|done| |].
    + intros c' ->%list_elem_of_singleton. left. split; [by left|done].
    + intros r s _ _ _ [_ Hag].
      rewrite !(eval_column_at _ _ _ _ _ _ Heval). apply Hag; [by left|done].
  - apply leaf_spec; [done..|]. split; [done|done|by intros c ?%not_elem_of_nil|].
    intros r s _ _ _ _. by apply (eval_local _ _ _ _ _ _ Heval).
  - pose proof (valid_children _ _ Hb0 Hv) as Hargs. simpl in Hargs.
    assert (Hta : Forall (fun e => typed e = true) args).
    { apply andb_true_iff in Ht as [Ht _]. by apply List.Forall_forall; rewrite forallb_forall in Ht. }
    eapply builds_bind.
    + apply (thread_spec mapping _ args); [|done..].
      eapply Forall_impl; [exact IH|]. cbn beta. intros e He b memo1. apply He.
    + cbn beta. intros b [args' memo'] Hb Hext [Hargs' Hmemo']. cbn [fst snd] in *.
      destruct (Substitution.any_change args args') eqn:Hc.
      * destruct (substituted_list _ _ _ _ Hargs') as (Hsh & Hva & Hta' & _).
        eapply (rewritten_spec mapping b memo' _ (CallExpr name args' t fs 0)); [|done|done| |].
        -- by eapply valid_extends.
        -- by eapply stands_call.
        -- apply (makeCall_implements _ _ _ _ _ _ _ Heval Hreversed); [done|].
           by eapply typed_replace.
      * apply (any_change_none b) in Hc as ->.
        -- apply kept_spec; [by eapply valid_extends|done|]. by eapply stands_call.
        -- by eapply valids_extends.
        -- by destruct (substituted_list _ _ _ _ Hargs') as (_ & ? & _).
        -- by eapply Forall2_length.
  - pose proof (valid_children _ _ Hb0 Hv) as Hbase. simpl in Hbase. inversion Hbase as [|? ? Hvb _]; subst.
    eapply builds_bind; [by apply IH|]. cbn beta. intros b [base' memo'] Hb Hext [Hs Hmemo'].
    cbn [fst snd] in *. destruct (Expr.same base' base) eqn:Hsame.
    + apply (same_eq b) in Hsame as ->; [|apply Hs|by eapply valid_extends].
      apply kept_spec; [by eapply valid_extends|done|]. by eapply stands_field.
    + eapply (rewritten_spec mapping b memo' _ (FieldExpr base' f t 0)); [|done|done| |].
      * by eapply valid_extends.
      * by eapply stands_field.
      * apply rebuildField_spec; [apply Hs|]. apply Hs.
  - pose proof (valid_children _ _ Hb0 Hv) as Hch. simpl in Hch. apply Forall_app in Hch as [Hcols Hbody].
    inversion Hbody as [|? ? Hvb _]; subst. apply andb_true_iff in Ht as Ht'. destruct Ht' as [Htc Htb].
    eapply (builds_bind _ _ _ (fun b result =>
      substituted (visible mapping args) b body result.1 /\ memo_ok mapping b result.2)).
    + destruct (Substitution.shadowsMapping mapping args) eqn:Hshadow.
      * eapply builds_bind; [apply (IH (visible mapping args) b0 ∅ Hb0)|]; try done.
        -- intros p [Hp _]%elem_of_visible. by apply Hm.
        -- cbn beta. intros b result Hb Hext [Hs _]. apply builds_ret. intros b1 _ Hext1.
           split; [by eapply substituted_extends|]. eapply memo_extends; [|exact Hmemo]. by transitivity b.
      * rewrite visible_all by done. by apply IH.
    + cbn beta. intros b [body' memo'] Hb Hext [Hs Hmemo']. cbn [fst snd] in *.
      destruct (Expr.same body' body) eqn:Hsame.
      * apply (same_eq b) in Hsame as ->; [|apply Hs|by eapply valid_extends].
        apply kept_spec; [by eapply valid_extends|done|]. by eapply stands_lambda.
      * eapply (rewritten_spec mapping b memo' _ (LambdaExpr args body' t 0)); [|done|done| |].
        -- by eapply valid_extends.
        -- by eapply stands_lambda.
        -- apply rebuildLambda_spec; [by eapply valids_extends|apply Hs|done|apply Hs].
Qed.

(** *** Substituting columns *)

(** The entries, repetitions included. *)
Definition column_mapping (pairs : list (Column T * Expr)) : Mapping :=
  map (fun p => (ColumnExpr p.1, p.2)) pairs.

(** A row in which the sources hold the values of the targets. *)
Definition set_values (base : Row V) (pairs : list (Column T * Expr)) (r : Row V) : Row V :=
  foldr (fun p row => set_value (column_id p.1) (eval p.2 r) row) base pairs.
Definition with_values (pairs : list (Column T * Expr)) (r : Row V) : Row V := set_values r pairs r.

(** A column of the row, and an expression of its type. *)
Record pair_ok (b : Builder T V) (p : Column T * Expr) : Prop := {
  pair_source : valid b (ColumnExpr p.1);
  pair_column : types !! column_id p.1 = Some (column_type p.1);
  pair_valid : valid b p.2;
  pair_typed : typed p.2 = true;
  pair_type : Expr.expr_type p.2 = column_type p.1
}.

Lemma no_capture_same m m' e :
  (forall p, p ∈ m <-> p ∈ m') -> no_capture m e = no_capture m' e.
Proof.
  revert m m'.
  assert (Hfind : forall m m' (e : Expr), (forall p, p ∈ m <-> p ∈ m') -> find m e = None -> find m' e = None).
  { intros m m' e' Hm. rewrite !find_none. intros Hf p Hp. by apply Hf, Hm. }
  assert (Hmatch : forall m m' (e : Expr) (a a' : bool), (forall p, p ∈ m <-> p ∈ m') -> a = a' ->
    match find m e with Some _ => true | None => a end = match find m' e with Some _ => true | None => a' end).
  { intros m m' e' a a' Hm <-. destruct (find m e') eqn:Hf, (find m' e') eqn:Hf'; try done.
    - by rewrite (Hfind m' m e') in Hf.
    - by rewrite (Hfind m m' e') in Hf'. }
  induction e as [c|v t i|name args t fs i IH|base f t i IH|args body t i IH|cs fs t i] using Expr_nested_ind;
    intros m m' Hm; cbn [no_capture]; apply (Hmatch m m'); try done.
  - induction IH as [|arg args Ha _ IH]; [done|]. cbn [forallb]. by rewrite (Ha m m' Hm), IH.
  - by apply IH.
  - assert (Hv : forall p, p ∈ visible m args <-> p ∈ visible m' args).
    { intros p. by rewrite !elem_of_visible, Hm. }
    f_equal; [|by apply IH]. apply eq_true_iff_eq. rewrite !forallb_forall.
    setoid_rewrite <- list_elem_of_In. by setoid_rewrite Hv.
Qed.

(** The entries of a substitution are the pairs. *)
Lemma to_substitution_spec b mapping pairs :
  Forall (pair_ok b) pairs -> mapping_ok b mapping ->
  match Substitution.to_substitution mapping pairs with
  | Ok mapping' => mapping_ok b mapping' /\
      (forall p, p ∈ mapping' <-> p ∈ mapping \/ p ∈ column_mapping pairs) /\
      (forall e target, find mapping e = Some target -> find mapping' e = Some target) /\
      (forall s t, (s, t) ∈ pairs -> find mapping' (ColumnExpr s) = Some t)
  | Throw e => e <> OutOfFuel
  end.
Proof.
  intros Hps. revert mapping. induction Hps as [|[s t] pairs Hp _ IH]; intros mapping Hm; simpl.
  { split; [done|]. split; [intros p; rewrite elem_of_nil; tauto|]. split; [done|].
    by intros s t ?%not_elem_of_nil. }
  destruct Hp as [Hs Hc Ht Htt Hty]. cbn [fst snd] in *.
  destruct (find mapping (ColumnExpr s)) as [t'|] eqn:Hf.
  - pose proof (find_some b mapping _ _ Hm Hs Hf) as Hin.
    unfold velox_check. destruct (Expr.same t' t) eqn:Hsame; [|done]. simpl.
    apply (same_eq b) in Hsame as ->; [|by apply (Hm _ Hin)|done].
    specialize (IH mapping Hm). destruct (Substitution.to_substitution mapping pairs) as [m'|]; [|done].
    destruct IH as (? & Hel & Hfind & Hpairs). split; [done|]. split; [|split; [done|]].
    + intros p. rewrite Hel, elem_of_cons. split; [tauto|]. intros [?|[->|?]]; tauto.
    + intros s' t'' [[= -> ->]|?]%elem_of_cons; [by apply Hfind|by apply Hpairs].
  - assert (Hm' : mapping_ok b (mapping ++ [(ColumnExpr s, t)])).
    { intros p [Hp| ->%list_elem_of_singleton]%elem_of_app; [by apply Hm|]. by split. }
    assert (Hnew : forall e target, find (mapping ++ [(ColumnExpr s, t)]) e = Some target <->
      find mapping e = Some target \/ find mapping e = None /\ Expr.same (ColumnExpr s) e = true /\ target = t).
    { clear. intros e target. unfold Substitution.find. induction mapping as [|p mapping IH]; simpl.
      - destruct (Expr.same (ColumnExpr s) e); simpl; naive_solver.
      - destruct (Expr.same p.1 e); simpl; [naive_solver|exact IH]. }
    specialize (IH _ Hm'). destruct (Substitution.to_substitution _ pairs) as [m'|]; [|done].
    destruct IH as (? & Hel & Hfind & Hpairs). split; [done|]. split; [|split].
    + intros p. rewrite Hel, elem_of_app, list_elem_of_singleton, elem_of_cons. tauto.
    + intros e target He. apply Hfind, Hnew. by left.
    + intros s' t'' [[= -> ->]|?]%elem_of_cons; [|by apply Hpairs].
      apply Hfind, Hnew. right. split; [done|]. split; [apply same_refl|done].
Qed.

Lemma set_values_other base pairs r c :
  (forall s t, (s, t) ∈ pairs -> column_id s <> c) -> set_values base pairs r !! c = base !! c.
Proof.
  induction pairs as [|[s t] pairs IH]; intros Hc; [done|]. simpl. unfold set_value.
  rewrite lookup_partial_alter_ne by (apply (Hc s t); by left). apply IH. intros s' t' Hp.
  apply (Hc s' t'). by right.
Qed.

Lemma set_values_source base pairs r s t :
  (s, t) ∈ pairs -> (forall s' t', (s', t') ∈ pairs -> column_id s' = column_id s -> t' = t) ->
  set_values base pairs r !! column_id s = eval t r.
Proof.
  induction pairs as [|[s' t'] pairs IH]; [by intros ?%not_elem_of_nil|]. intros Hp Hsame. simpl.
  unfold set_value. destruct (decide (column_id s' = column_id s)) as [Heq|Hne].
  - rewrite Heq, lookup_partial_alter_eq. by rewrite (Hsame s' t' ltac:(by left) Heq).
  - rewrite lookup_partial_alter_ne by done. apply IH.
    + apply elem_of_cons in Hp as [[= -> ->]|Hp]; done.
    + intros s'' t'' Hp'. apply Hsame. by right.
Qed.

Lemma set_values_ok b base pairs r :
  Forall (pair_ok b) pairs -> row_ok types base -> row_ok types r -> row_ok types (set_values base pairs r).
Proof.
  intros Hps Hbase Hr. induction Hps as [|[s t] pairs Hp _ IH]; [done|]. intros c ty Hc. simpl. unfold set_value.
  destruct (decide (column_id s = c)) as [<-|Hne].
  - rewrite lookup_partial_alter_eq. destruct Hp as [_ Hcol _ Ht Hty]. cbn [fst snd] in *.
    rewrite Hcol in Hc. injection Hc as <-. rewrite <- Hty. by apply (eval_typed _ _ _ _ _ _ Heval).
  - rewrite lookup_partial_alter_ne by done. by apply IH.
Qed.

Lemma with_values_ok b pairs r :
  Forall (pair_ok b) pairs -> row_ok types r -> row_ok types (with_values pairs r).
Proof. intros Hps Hr. by eapply set_values_ok. Qed.

(** The row with the values of the targets agrees with the one they are evaluated on, where
    the columns that are no sources do. *)
Lemma set_values_agree b pairs mapping base r e :
  Forall (pair_ok b) pairs -> Substitution.to_substitution [] pairs = Ok mapping ->
  (forall c, c ∈ Expr.columns e -> find mapping (ColumnExpr c) = None -> base !! column_id c = r !! column_id c) ->
  agree mapping e (set_values base pairs r) r.
Proof.
  intros Hps Hmapping Hbase. pose proof (to_substitution_spec b [] pairs Hps) as Hmap. rewrite Hmapping in Hmap.
  destruct Hmap as (Hm & Hel & _ & Hfind); [by intros p ?%not_elem_of_nil|]. split.
  - intros p Hp. apply Hel in Hp as [Hp%not_elem_of_nil|Hp]; [done|].
    unfold column_mapping in Hp. apply list_elem_of_In, in_map_iff in Hp as ([s t] & <- & Hin%list_elem_of_In). cbn [fst snd].
    rewrite (eval_column_at _ _ _ _ _ _ Heval). apply set_values_source; [done|].
    intros s' t' Hin' Hid. pose proof (Hfind _ _ Hin) as Hf. pose proof (Hfind _ _ Hin') as Hf'.
    rewrite (find_mapped _ _ (ColumnExpr s)) in Hf' by done. congruence.
  - intros c Hc Hf. rewrite <- (Hbase c Hc Hf). apply set_values_other. intros s t Hp Heq.
    pose proof (Hfind _ _ Hp) as Hs. by rewrite (find_mapped _ _ (ColumnExpr c)), Hf in Hs.
Qed.

(** C15: [substitute] is substitution.  When it returns, the result has the type of the
    expression and, on every row, its value on the row in which each source column
    holds the value of its target - all at once, so sources may occur in targets -
    unless a lambda of the expression captures a column of what its body sees.  The
    result reads no source column except through a target.  Conflicting targets of a source
    are refused: it returns only if every source has one target. *)
Theorem substitute_is_substitution b e sources targets :
  arena_ok b -> valid b e -> typed e = true -> Forall (pair_ok b) (zip sources targets) ->
  match F Substitution.substitute e sources targets b with
  | Ok (e', b') =>
      arena_ok b' /\ extends b b' /\ valid b' e' /\ typed e' = true /\
      Expr.expr_type e' = Expr.expr_type e /\
      (length sources = length targets /\ forall s t s' t', (s, t) ∈ zip sources targets ->
        (s', t') ∈ zip sources targets -> column_id s = column_id s' -> t = t') /\
      (forall c, c ∈ Expr.columns e' ->
        (c ∈ Expr.columns e /\ column_id c ∉ map column_id sources) \/
        (exists target, target ∈ targets /\ c ∈ Expr.columns target)) /\
      (no_capture (column_mapping (zip sources targets)) e = true ->
       forall r, row_ok types r -> eval e' r = eval e (with_values (zip sources targets) r))
  | Throw error => error <> OutOfFuel
  end.
Proof.
  intros Hb He Ht Hps.
  unfold Substitution.substitute, Substitution.toSubstitution, mbind, StateM_bind, lift, velox_check.
  destruct (Nat.eqb_spec (length sources) (length targets)) as [Hlen|]; [|done]. simpl.
  set (pairs := zip sources targets) in *.
  pose proof (to_substitution_spec b [] pairs Hps) as Hmap.
  destruct (Substitution.to_substitution [] pairs) as [mapping|error] eqn:Hto; [|by apply Hmap; intros p ?%not_elem_of_nil].
  destruct Hmap as (Hm & Hel & _ & Hfind); [by intros p ?%not_elem_of_nil|].
  assert (Hel' : forall p, p ∈ mapping <-> p ∈ column_mapping pairs).
  { intros p. rewrite Hel, elem_of_nil. tauto. }
  assert (Hmemo : memo_ok mapping b ∅) by by intros i e'.
  pose proof (replaceExpr_spec e mapping b ∅ Hb Hm Hmemo He Ht b Hb (PreOrder_Reflexive b)) as Hs.
  unfold Substitution.replace, fmap, StateM_fmap, mbind, StateM_bind.
  destruct (Substitution.replaceExpr _ _ _ _ _ _) as [[[e' memo] b']|error]; [|done].
  destruct Hs as (Hb' & Hext & [[Hv [Ht' Hsh Hc Hev]] _]). cbn [fst] in *.
  assert (Hsource : forall p, p ∈ mapping -> exists s, p = (ColumnExpr s, p.2) /\ (s, p.2) ∈ pairs).
  { intros p Hp%Hel'. unfold column_mapping in Hp. apply list_elem_of_In, in_map_iff in Hp as ([s t] & <- & Hp).
    exists s. split; [done|]. by apply list_elem_of_In. }
  assert (Hnone : forall c : Column T, find mapping (ColumnExpr c) = None ->
    forall s t, (s, t) ∈ pairs -> column_id s <> column_id c).
  { intros c Hf s t Hp Heq. rewrite find_none in Hf.
    assert (Hin : (ColumnExpr s, t) ∈ mapping).
    { apply Hel', list_elem_of_In, in_map_iff. exists (s, t). split; [done|]. by apply list_elem_of_In. }
    specialize (Hf _ Hin). apply Nat.eqb_neq in Hf. by apply Hf. }
  split; [done|]. split; [done|]. split; [done|]. split; [done|]. split; [apply Hsh|].
  split.
  { split; [done|]. intros s t s' t' Hp Hp' Hid. apply Hfind in Hp, Hp'.
    rewrite (find_mapped _ _ (ColumnExpr s)) in Hp' by done. congruence. }
  split.
  - intros c Hin. destruct (Hc c Hin) as [[Hin' Hf]|(p & Hp & Hcp)]; [left|right].
    + split; [done|]. intros (i & Hi)%list_elem_of_lookup.
      change (map column_id sources) with (column_id <$> sources) in Hi.
      apply list_lookup_fmap_Some in Hi as (s & Hid & Hs).
      destruct (lookup_lt_is_Some_2 targets i) as [t Htgt].
      { rewrite <- Hlen. by eapply lookup_lt_Some. }
      apply (Hnone c Hf s t); [|done]. apply list_elem_of_lookup. exists i.
      apply lookup_zip_with_Some. by exists s, t.
    + exists p.2. split; [|done]. destruct (Hsource p Hp) as (s & _ & Hin').
      apply list_elem_of_lookup in Hin' as (i & Hi). apply lookup_zip_with_Some in Hi as (? & ? & [= <- <-] & _ & Hi).
      by eapply list_elem_of_lookup_2.
  - intros Hn r Hr. symmetry. rewrite <- (no_capture_same _ _ e Hel') in Hn.
    apply Hev; [done|by eapply with_values_ok|done|]. by eapply set_values_agree.
Qed.
End Meaning.
