(* ===== verification/PlanSubstitutions.v ===== *)
(** * Substitutions of a rewritten plan

    [axiom/optimizer/v2/PlanSubstitutions.cpp]: the expressions a rewritten plan
    replaces with equivalent ones, applied until nothing changes.

    The theorems: [apply] ends - a substitution that grows forever runs into the limit
    on objects, a cycle into its own check -, and what it returns has the value of the
    expression wherever the sources have the values of their replacements, and is
    not changed by applying it again; [retainVisible] keeps only such entries, and only
    those that can be evaluated from the output.

    The substitutions are the entries of the hash map in an order the theorems do not
    depend on.  Aggregates, which are leaves here, are not rewritten. *)

From Stdlib Require Import ZArith Lia.
From S2P Require Import Prelude Domains DomainSets Expressions ExprDomains SqlSemantics Builders ExprFactories ExprSimplifiers Substitutions.

Local Open Scope nat_scope.
Set Warnings "-register-all".

Module PlanSubstitutions.
Section PlanSubstitutions.
Context {T V : Type} `{TypeOps T} `{VariantOps V} `{FunctionRegistry}.
Variable maxPlanObjects : nat.
Variable reversibleFunctions : string -> option string.
Abbreviation Expr := (Expr T V).
Abbreviation M := (StateM (Builder T V)).
Abbreviation F f := (f maxPlanObjects reversibleFunctions).
Abbreviation Substitutions := (list (Expr * Expr)).

Definition empty (substitutions : Substitutions) : bool :=
  match substitutions with [] => true | _ :: _ => false end.

Definition add (substitutions : Substitutions) (source replacement : Expr) : Result Substitutions :=
  match Substitution.find substitutions source with
  | None => Ok (substitutions ++ [(source, replacement)])
  | Some existing =>
      velox_check (Expr.same existing replacement) "Conflicting substitutions for expression: {}" ≫= fun _ =>
      Ok substitutions
  end.

Definition set (substitutions : Substitutions) (source replacement : Expr) : Substitutions :=
  match Substitution.find substitutions source with
  | None => substitutions ++ [(source, replacement)]
  | Some _ => map (fun p => if Expr.same p.1 source then (p.1, replacement) else p) substitutions
  end.

Definition erase (substitutions : Substitutions) (source : Expr) : Substitutions :=
  Substitution.erase substitutions source.

Definition setAll (substitutions other : Substitutions) : Substitutions :=
  foldl (fun substitutions p => set substitutions p.1 p.2) substitutions other.

Definition addIfAbsent (substitutions : Substitutions) (source replacement : Expr) : Substitutions :=
  match Substitution.find substitutions source with
  | None => substitutions ++ [(source, replacement)]
  | Some _ => substitutions
  end.

Fixpoint merge (substitutions other : Substitutions) : Result Substitutions :=
  match other with
  | [] => Ok substitutions
  | (source, target) :: other =>
      substitutions ← add substitutions source target;
      merge substitutions other
  end.

(** The loop of [apply], on [visited]. *)
Fixpoint apply_loop (fuel : nat) (substitutions : Substitutions) (visited : gset nat)
    (expression : Expr) : M Expr :=
  match fuel with
  | O => throw OutOfFuel
  | S fuel =>
      if bool_decide (Expr.expr_id expression ∈ visited)
      then throw (VeloxCheck "Expression substitutions did not converge")
      else
        rewritten ← F Substitution.replace expression substitutions;
        if Expr.same rewritten expression then mret expression
        else apply_loop fuel substitutions ({[Expr.expr_id expression]} ∪ visited) rewritten
  end.

(** Each round visits another of the objects there can be. *)
Definition apply (substitutions : Substitutions) (expression : Expr) : M Expr :=
  limit ← gets (fun b => Nat.max maxPlanObjects (next_id b));
  apply_loop (S limit) substitutions ∅ expression.

Fixpoint applyAll (substitutions : Substitutions) (expressions : list Expr) : M (list Expr) :=
  match expressions with
  | [] => mret []
  | expression :: expressions =>
      rewritten ← apply substitutions expression;
      rest ← applyAll substitutions expressions;
      mret (rewritten :: rest)
  end.

(** [PlanObjectSet::containsColumns] *)
Definition containsColumns (columns : list (Column T)) (expression : Expr) : bool :=
  forallb (fun c => existsb (fun output => column_id output =? column_id c) columns)
    (Expr.columns expression).

(** The loop of [retainVisible], over the entries. *)
Fixpoint retain_visible (substitutions : Substitutions) (outputColumns : list (Column T))
    (entries : Substitutions) : M Substitutions :=
  match entries with
  | [] => mret []
  | (source, target) :: entries =>
      replacement ← apply substitutions target;
      visible ← retain_visible substitutions outputColumns entries;
      mret (if containsColumns outputColumns replacement then (source, replacement) :: visible else visible)
  end.

Definition retainVisible (substitutions : Substitutions) (outputColumns : list (Column T)) :
    M Substitutions :=
  retain_visible substitutions outputColumns substitutions.
End PlanSubstitutions.
End PlanSubstitutions.

(** ** The limit on objects *)

Section Limit.
Context {T V : Type} `{TypeOps T} `{VariantOps V} `{FunctionRegistry}.
Context (maxPlanObjects : nat) (reversed : string -> option string) (limit : nat).
Hypothesis Hlimit : maxPlanObjects <= limit.
Abbreviation Expr := (Expr T V).
Abbreviation F f := (f maxPlanObjects reversed).

(** The command creates no more objects than the limit. *)
Definition within {A} (m : StateM (Builder T V) A) : Prop :=
  spec (fun b => next_id b <= limit) (fun _ => True) m (fun _ => True).

Lemma within_bind {A B} (m : StateM (Builder T V) A) (f : A -> StateM (Builder T V) B) :
  within m -> (forall a, within (f a)) -> within (m ≫= f).
Proof. intros Hm Hf. eapply spec_bind; [exact Hm|]. intros a _. apply Hf. Qed.

Lemma within_ret {A} (a : A) : within (mret a).
Proof. by apply spec_ret. Qed.

Lemma within_gets {A} (f : Builder T V -> A) : within (gets f).
Proof. by apply spec_gets. Qed.

Lemma within_make (object : nat -> Expr) : within (Builder.make maxPlanObjects object).
Proof.
  intros b Hb. unfold Builder.make. destruct (Nat.ltb_spec (next_id b) maxPlanObjects); [|done].
  simpl. split; [lia|done].
Qed.

Lemma within_makeCall name t (args : list Expr) fs : within (F Builder.makeCall name t args fs).
Proof.
  unfold Builder.makeCall. destruct (FunctionSet.contains _ _); [apply within_make|].
  destruct (Builder.canonicalizeCall _ _ _) as [name' args']. apply within_bind; [apply within_gets|].
  intros [e|]; [apply within_ret|]. apply within_bind; [apply within_make|]. intros e.
  apply within_bind; [by apply spec_modify|]. intros _. apply within_ret.
Qed.

Lemma within_thread (f : Expr -> gmap nat Expr -> StateM (Builder T V) (Expr * gmap nat Expr)) es memo :
  (forall e memo, e ∈ es -> within (f e memo)) -> within (Substitution.thread f es memo).
Proof.
  revert memo. induction es as [|e es IH]; intros memo Hf; [apply within_ret|]. simpl.
  apply within_bind; [apply Hf; by left|]. intros r. apply within_bind; [|intros; apply within_ret].
  apply IH. intros e' memo' He'. apply Hf. by right.
Qed.

Lemma within_replaceExpr mapping (e : Expr) memo : within (F Substitution.replaceExpr mapping e memo).
Proof.
  revert mapping memo. induction e as [c|v t i|name args t fs i IH|base f t i IH|args body t i IH|cs fs t i]
    using Expr_nested_ind; intros mapping memo; cbn [Substitution.replaceExpr];
    (destruct (Substitution.find mapping _); [apply within_ret|]);
    (destruct (memo !! _); [apply within_ret|]); try apply within_ret.
  - apply within_bind.
    + apply within_thread. intros e memo' He. rewrite Forall_forall in IH. by apply IH.
    + intros r. destruct (Substitution.any_change _ _); [|apply within_ret].
      apply within_bind; [apply within_makeCall|]. intros; apply within_ret.
  - apply within_bind; [apply IH|]. intros r. destruct (Expr.same _ _); [apply within_ret|].
    apply within_bind; [apply within_make|]. intros; apply within_ret.
  - apply within_bind.
    + destruct (Substitution.shadowsMapping _ _); [|apply IH].
      apply within_bind; [apply IH|]. intros; apply within_ret.
    + intros r. destruct (Expr.same _ _); [apply within_ret|].
      apply within_bind; [apply within_make|]. intros; apply within_ret.
  - done.
Qed.

Lemma within_replace (e : Expr) mapping : within (F Substitution.replace e mapping).
Proof.
  unfold Substitution.replace, fmap, StateM_fmap. apply within_bind; [apply within_replaceExpr|].
  intros; apply within_ret.
Qed.
End Limit.

(** ** Values *)

Section Meaning.
Context {T V : Type} `{TypedValues T V} `{FunctionRegistry} `{!VariantEq V}.
Context (functionNames : FunctionNames) (types : gmap nat T)
  (eval : Expr T V -> Row V -> option V)
  (less : V -> V -> bool) (reversed : string -> option string)
  (constant : Expr T V -> option (V * T)) (maxPlanObjects : nat).
Context (Heval : EvalLaws functionNames types eval less reversed constant)
  (Hreversed : reversible_ok functionNames reversed).
Abbreviation Expr := (Expr T V).
Abbreviation typed := (typed functionNames types).
Abbreviation Mapping := (list (Expr * Expr)).
Abbreviation F f := (f maxPlanObjects reversed).
Abbreviation mapping_ok := (mapping_ok functionNames types).
Abbreviation find := Substitution.find.
Abbreviation visible := Substitution.visible.

(** On the row, each source has the value of its replacement. *)
Definition holds (mapping : Mapping) (r : Row V) : Prop :=
  forall p, p ∈ mapping -> eval p.1 r = eval p.2 r.

(** No lambda among the objects binds a column of the entries. *)
Definition captures_nothing (mapping : Mapping) (b : Builder T V) : Prop :=
  forall args body t i p, valid b (LambdaExpr args body t i) -> p ∈ mapping ->
    avoids args p.1 && avoids args p.2 = true.

Lemma captures_nothing_before mapping mapping' b b' :
  extends b b' -> mapping ⊆ mapping' -> captures_nothing mapping' b' -> captures_nothing mapping b.
Proof.
  intros Hext Hsub Hc args body t i p Hl Hp. apply (Hc args body t i); [by eapply valid_extends|by apply Hsub].
Qed.

Lemma captures_nothing_spec mapping b e :
  arena_ok b -> captures_nothing mapping b -> valid b e -> no_capture mapping e = true.
Proof.
  intros Hb. revert mapping.
  induction e as [c|v t i|name args t fs i IH|base f t i IH|args body t i IH|cs fs t i]
    using Expr_nested_ind; intros mapping Hc Hv; cbn [no_capture]; (destruct (find mapping _); [done|]); try done.
  - apply forallb_forall. intros e He. rewrite List.Forall_forall in IH. apply IH; [done|done|].
    pose proof (valid_children _ _ Hb Hv) as Hch. rewrite List.Forall_forall in Hch. by apply Hch.
  - apply IH; [done|]. pose proof (valid_children _ _ Hb Hv) as Hch. by inversion Hch.
  - assert (Hsub : visible mapping args ⊆ mapping) by (intros p [Hp _]%elem_of_visible; done).
    apply andb_true_iff. split.
    + apply forallb_forall. intros p Hp%list_elem_of_In%Hsub. by apply (Hc args body t i).
    + apply IH; [by apply (captures_nothing_before _ mapping b b)|].
      pose proof (valid_children _ _ Hb Hv) as Hch. simpl in Hch. apply Forall_app in Hch as [_ Hch].
      by inversion Hch.
Qed.

(** [e'] is [e] with sources replaced, in the builder [b]. *)
Record rewrites (mapping : Mapping) (b : Builder T V) (e e' : Expr) : Prop := {
  rewrites_valid : valid b e';
  rewrites_typed : typed e' = true;
  rewrites_type : Expr.expr_type e' = Expr.expr_type e;
  rewrites_eval r : captures_nothing mapping b -> row_ok types r -> holds mapping r ->
    eval e' r = eval e r
}.

Lemma rewrites_after mapping b b' e e' :
  extends b b' -> rewrites mapping b e e' -> rewrites mapping b' e e'.
Proof.
  intros Hext []. split; [by eapply valid_extends|done..|].
  intros r Hc. apply rewrites_eval0. by apply (captures_nothing_before mapping mapping b b').
Qed.

Lemma replace_rewrites b0 mapping e :
  arena_ok b0 -> mapping_ok b0 mapping -> valid b0 e -> typed e = true ->
  builds b0 (F Substitution.replace e mapping) (fun b e' => rewrites mapping b e e').
Proof.
  intros Hb0 Hm Hv Ht. unfold Substitution.replace. apply builds_fmap. eapply builds_weaken.
  { apply (replaceExpr_spec functionNames types eval less reversed constant maxPlanObjects Heval Hreversed e
      mapping b0 ∅); try done. }
  cbn beta. intros b [e' memo] Hb Hext [[Hv' [Ht' Hsh _ Hev]] _]. cbn [fst snd] in *.
  split; [done|done|apply Hsh|]. intros r Hc Hr Hh. symmetry. apply Hev; [|done..|].
  - apply (captures_nothing_spec mapping b); [done|done|by eapply valid_extends].
  - split; [exact Hh|done].
Qed.

(** The rounds of [apply]: each visits an object that was not visited, below the limit. *)
Lemma apply_loop_spec limit mapping fuel : maxPlanObjects <= limit ->
  forall visited e b, arena_ok b -> next_id b <= limit -> mapping_ok b mapping -> valid b e -> typed e = true ->
  visited ⊆ set_seq 0 limit -> fuel + size visited = S limit ->
  match F PlanSubstitutions.apply_loop fuel mapping visited e b with
  | Ok (e', b') =>
      arena_ok b' /\ extends b b' /\ next_id b' <= limit /\ rewrites mapping b' e e' /\
      exists b1, extends b b1 /\ arena_ok b1 /\ F Substitution.replace e' mapping b1 = Ok (e', b')
  | Throw error => error <> OutOfFuel
  end.
Proof.
  intros Hlimit. induction fuel as [|fuel IH]; intros visited e b Hb Hn Hm Hv Ht Hsub Hfuel.
  { exfalso. apply subseteq_size in Hsub. rewrite size_set_seq in Hsub. lia. }
  cbn [PlanSubstitutions.apply_loop]. case_bool_decide as Hin; [done|].
  pose proof (replace_rewrites b mapping e Hb Hm Hv Ht b Hb (PreOrder_Reflexive b)) as Hr.
  pose proof (within_replace maxPlanObjects reversed limit Hlimit e mapping b Hn) as Hw.
  unfold mbind, StateM_bind.
  destruct (Substitution.replace _ _ e mapping b) as [[e1 b1]|error] eqn:Hrep; [|done].
  destruct Hr as (Hb1 & Hext & He1). destruct Hw as [Hn1 _].
  destruct (Expr.same e1 e) eqn:Hsame.
  - apply (same_eq b1) in Hsame as ->; [|apply He1|by eapply valid_extends].
    split; [done|]. split; [done|]. split; [done|]. split; [done|]. exists b. split; [reflexivity|done].
  - assert (Hid : Expr.expr_id e < limit).
    { apply (objects_ok b Hb) in Hv as (_ & Hlt & _). lia. }
    assert (Hsize : size ({[Expr.expr_id e]} ∪ visited) = S (size visited)).
    { rewrite size_union, size_singleton; [done|]. apply disjoint_singleton_l. exact Hin. }
    assert (Hsub' : {[Expr.expr_id e]} ∪ visited ⊆ set_seq 0 limit).
    { intros i [ ->%elem_of_singleton|Hi]%elem_of_union; [apply elem_of_set_seq; lia|by apply Hsub]. }
    specialize (IH ({[Expr.expr_id e]} ∪ visited) e1 b1 Hb1 Hn1 (mapping_extends _ _ _ _ _ Hext Hm)
      (rewrites_valid _ _ _ _ He1) (rewrites_typed _ _ _ _ He1) Hsub' ltac:(lia)).
    destruct (PlanSubstitutions.apply_loop _ _ _ _ _ _ _) as [[e' b']|error]; [|done].
    destruct IH as (Hb' & Hext' & Hn' & He' & b2 & Hext2 & Hb2 & Hfix).
    split; [done|]. split; [by transitivity b1|]. split; [done|]. split.
    + split; [apply He'|apply He'| |].
      * rewrite (rewrites_type _ _ _ _ He'). apply He1.
      * intros r Hc Hr Hh. rewrite (rewrites_eval _ _ _ _ He' r) by done.
        apply (rewrites_eval _ _ _ _ He1 r); [|done..].
        exact (captures_nothing_before mapping mapping b1 b' Hext' (reflexivity _) Hc).
    + exists b2. split; [by transitivity b1|done].
Qed.

Lemma apply_spec mapping e b :
  arena_ok b -> mapping_ok b mapping -> valid b e -> typed e = true ->
  match F PlanSubstitutions.apply mapping e b with
  | Ok (e', b') =>
      arena_ok b' /\ extends b b' /\ rewrites mapping b' e e' /\
      exists b1, extends b b1 /\ arena_ok b1 /\ F Substitution.replace e' mapping b1 = Ok (e', b')
  | Throw error => error <> OutOfFuel
  end.
Proof.
  intros Hb Hm Hv Ht. unfold PlanSubstitutions.apply, mbind, StateM_bind, gets.
  pose proof (apply_loop_spec (Nat.max maxPlanObjects (next_id b)) mapping (S (Nat.max maxPlanObjects (next_id b)))
    ltac:(lia) ∅ e b Hb ltac:(lia) Hm Hv Ht ltac:(set_solver) ltac:(rewrite size_empty; lia)) as Hs.
  destruct (PlanSubstitutions.apply_loop _ _ _ _ _ _ _) as [[e' b']|error]; [|done].
  destruct Hs as (? & ? & _ & ? & ?). done.
Qed.

Lemma apply_builds mapping e b0 :
  mapping_ok b0 mapping -> valid b0 e -> typed e = true ->
  builds b0 (F PlanSubstitutions.apply mapping e) (fun b e' => rewrites mapping b e e').
Proof.
  intros Hm Hv Ht b Hb Hext.
  pose proof (apply_spec mapping e b Hb (mapping_extends _ _ _ _ _ Hext Hm) (valid_extends _ _ _ Hext Hv) Ht) as Hs.
  destruct (PlanSubstitutions.apply _ _ _ _ _) as [[e' b']|error]; [|done].
  destruct Hs as (? & ? & ? & _). done.
Qed.

Lemma visible_columns (columns : list (Column T)) (e : Expr) :
  PlanSubstitutions.containsColumns columns e = true <->
  forall c, c ∈ Expr.columns e -> column_id c ∈ map column_id columns.
Proof.
  unfold PlanSubstitutions.containsColumns. rewrite forallb_forall. setoid_rewrite existsb_exists.
  split; intros Hc c.
  - intros Hin. destruct (Hc c (proj1 (list_elem_of_In _ _) Hin)) as (o & Ho & Heq%Nat.eqb_eq).
    rewrite <- Heq. by apply list_elem_of_In, in_map.
  - intros Hin%list_elem_of_In. apply Hc in Hin. apply list_elem_of_In, in_map_iff in Hin as (o & Heq & Ho).
    exists o. split; [done|]. by apply Nat.eqb_eq.
Qed.

(** What is retained: entries of the mapping, their targets rewritten to expressions of
    the output. *)
Record retained (mapping : Mapping) (outputColumns : list (Column T)) (b : Builder T V)
    (p : Expr * Expr) : Prop := {
  retained_source : exists target, (p.1, target) ∈ mapping /\ rewrites mapping b target p.2;
  retained_columns c : c ∈ Expr.columns p.2 -> column_id c ∈ map column_id outputColumns
}.

Lemma retain_visible_spec mapping outputColumns entries b0 :
  mapping_ok b0 mapping -> entries ⊆ mapping ->
  builds b0 (F PlanSubstitutions.retain_visible mapping outputColumns entries)
    (fun b ps => Forall (retained mapping outputColumns b) ps /\ map fst ps `sublist_of` map fst entries).
Proof.
  revert b0. induction entries as [|[s t] entries IH]; intros b0 Hm Hsub; cbn [PlanSubstitutions.retain_visible].
  { apply builds_ret. intros. done. }
  assert (Hin : (s, t) ∈ mapping) by (apply Hsub; by left).
  pose proof (Hm _ Hin) as [_ _ Hv Ht _]. cbn [fst snd] in *.
  eapply builds_bind; [by apply apply_builds|]. cbn beta. intros b1 t' Hb1 Hext1 Ht'.
  eapply builds_bind.
  { apply IH; [by eapply mapping_extends|]. intros p Hp. apply Hsub. by right. }
  cbn beta. intros b2 ps _ Hext2 [Hps Hlist]. apply builds_ret. intros b3 _ Hext3.
  assert (Hps3 : Forall (retained mapping outputColumns b3) ps).
  { eapply Forall_impl; [exact Hps|]. intros p [(target & ? & Hr) ?]. split; [|done]. exists target.
    split; [done|]. by apply (rewrites_after _ b2). }
  destruct (PlanSubstitutions.containsColumns outputColumns t') eqn:Hc; simpl.
  - split; [constructor; [|done]|by constructor]. split.
    + exists t. split; [done|]. apply (rewrites_after _ b1); [by transitivity b2|done].
    + by apply visible_columns.
  - split; [done|by constructor].
Qed.

(** ** The theorems *)

(** C16: [apply] ends: with an expression that replacing does not change, or - when the
    substitutions run in a circle, or grow an expression without end - with an error of
    the code.  The result has the type of the expression and, on every row on which each
    source has the value of its replacement, its value. *)
Theorem apply_reaches_fixpoint mapping e b :
  arena_ok b -> mapping_ok b mapping -> valid b e -> typed e = true ->
  match F PlanSubstitutions.apply mapping e b with
  | Ok (e', b') =>
      arena_ok b' /\ extends b b' /\ valid b' e' /\ typed e' = true /\
      Expr.expr_type e' = Expr.expr_type e /\
      (exists b1, extends b b1 /\ arena_ok b1 /\ F Substitution.replace e' mapping b1 = Ok (e', b')) /\
      forall r, captures_nothing mapping b' -> row_ok types r -> holds mapping r -> eval e' r = eval e r
  | Throw error => error <> OutOfFuel
  end.
Proof.
  intros Hb Hm Hv Ht. pose proof (apply_spec mapping e b Hb Hm Hv Ht) as Hs.
  destruct (PlanSubstitutions.apply _ _ _ _ _) as [[e' b']|error]; [|done].
  destruct Hs as (? & ? & [] & ?). done.
Qed.

(** [retainVisible] keeps entries that still hold, with targets the output can evaluate. *)
Theorem retainVisible_sound mapping outputColumns b :
  arena_ok b -> mapping_ok b mapping ->
  match F PlanSubstitutions.retainVisible mapping outputColumns b with
  | Ok (mapping', b') =>
      arena_ok b' /\ extends b b' /\ map fst mapping' `sublist_of` map fst mapping /\
      (forall p c, p ∈ mapping' -> c ∈ Expr.columns p.2 -> column_id c ∈ map column_id outputColumns) /\
      forall r, captures_nothing mapping b' -> row_ok types r -> holds mapping r -> holds mapping' r
  | Throw error => error <> OutOfFuel
  end.
Proof.
  intros Hb Hm. unfold PlanSubstitutions.retainVisible.
  pose proof (retain_visible_spec mapping outputColumns mapping b Hm (reflexivity _) b Hb (PreOrder_Reflexive b)) as Hs.
  destruct (PlanSubstitutions.retain_visible _ _ _ _ _ _) as [[mapping' b']|error]; [|done].
  destruct Hs as (Hb' & Hext & Hps & Hsub). rewrite Forall_forall in Hps.
  split; [done|]. split; [done|]. split; [done|]. split.
  - intros p c Hp. by apply (retained_columns _ _ _ _ (Hps p Hp)).
  - intros r Hc Hr Hh p Hp. destruct (retained_source _ _ _ _ (Hps p Hp)) as (target & Hin & Htarget).
    rewrite (rewrites_eval _ _ _ _ Htarget r) by done. by apply (Hh (p.1, target)).
Qed.

(** *** The maps *)

(** Adding entries that hold keeps a map that holds; conflicting entries are refused. *)
Lemma add_holds mapping s t mapping' r :
  PlanSubstitutions.add mapping s t = Ok mapping' -> holds mapping r -> eval s r = eval t r -> holds mapping' r.
Proof.
  unfold PlanSubstitutions.add, velox_check. destruct (Substitution.find mapping s) as [t'|].
  - destruct (Expr.same t' t); [|done]. by intros [= <-].
  - intros [= <-] Hh Hst p [Hp| ->%list_elem_of_singleton]%elem_of_app; [by apply Hh|done].
Qed.

Lemma merge_holds mapping other mapping' r :
  PlanSubstitutions.merge mapping other = Ok mapping' -> holds mapping r -> holds other r -> holds mapping' r.
Proof.
  revert mapping. induction other as [|[s t] other IH]; intros mapping; simpl; [by intros [= <-]|].
  destruct (PlanSubstitutions.add mapping s t) as [m|] eqn:Ha; [|done]. simpl. intros Hm Hh Ho.
  apply (IH m Hm); [|intros p Hp; apply Ho; by right]. eapply add_holds; [exact Ha|exact Hh|].
  apply (Ho (s, t)). by left.
Qed.

(** The map of a map: each source once. *)
Definition sources_once (mapping : Mapping) : Prop := NoDup (map (fun p => Expr.expr_id p.1) mapping).

Lemma find_none_id (mapping : Mapping) (e : Expr) :
  Substitution.find mapping e = None -> Expr.expr_id e ∉ map (fun p => Expr.expr_id p.1) mapping.
Proof.
  rewrite find_none. intros Hf Hin. apply list_elem_of_In, in_map_iff in Hin as (p & Hid & Hp%list_elem_of_In).
  specialize (Hf p Hp). unfold Expr.same in Hf. by rewrite Hid, Nat.eqb_refl in Hf.
Qed.

Lemma sources_once_snoc mapping s t :
  sources_once mapping -> Substitution.find mapping s = None -> sources_once (mapping ++ [(s, t)]).
Proof.
  intros Hm Hf%find_none_id. unfold sources_once. rewrite map_app. apply NoDup_app. split; [done|].
  split; [|apply NoDup_singleton]. intros i Hi ->%list_elem_of_singleton. by apply Hf.
Qed.

Lemma operations_keep_sources_once mapping s t :
  sources_once mapping ->
  (forall mapping', PlanSubstitutions.add mapping s t = Ok mapping' -> sources_once mapping') /\
  sources_once (PlanSubstitutions.set mapping s t) /\
  sources_once (PlanSubstitutions.addIfAbsent mapping s t) /\
  sources_once (PlanSubstitutions.erase mapping s).
Proof.
  intros Hm. unfold PlanSubstitutions.add, PlanSubstitutions.set, PlanSubstitutions.addIfAbsent, velox_check.
  split; [|split; [|split]].
  - intros mapping'. destruct (Substitution.find mapping s) as [t'|] eqn:Hf.
    + destruct (Expr.same t' t); [|done]. by intros [= <-].
    + intros [= <-]. by apply sources_once_snoc.
  - destruct (Substitution.find mapping s) eqn:Hf; [|by apply sources_once_snoc].
    unfold sources_once. rewrite map_map. erewrite map_ext; [exact Hm|]. intros p. by destruct (Expr.same p.1 s).
  - destruct (Substitution.find mapping s) eqn:Hf; [done|by apply sources_once_snoc].
  - unfold PlanSubstitutions.erase, Substitution.erase, sources_once.
    eapply sublist_NoDup; [exact Hm|]. clear. induction mapping as [|p mapping IH]; [done|]. simpl.
    destruct (negb _); simpl; by constructor.
Qed.

(** [set] replaces the entry of a source, or adds it. *)
Lemma find_same_source (mapping : Mapping) (s e : Expr) :
  Expr.same s e = true -> Substitution.find mapping s = Substitution.find mapping e.
Proof. intros Hs. apply find_mapped. by apply Nat.eqb_eq. Qed.

Lemma find_replaced (mapping : Mapping) (s t e : Expr) :
  Substitution.find (map (fun p => if Expr.same p.1 s then (p.1, t) else p) mapping) e =
  if Expr.same s e then (fun _ => t) <$> Substitution.find mapping e else Substitution.find mapping e.
Proof.
  unfold Substitution.find, Expr.same. induction mapping as [|[q u] mapping IH]; simpl.
  { by destruct (Nat.eqb _ _). }
  destruct (Nat.eqb_spec (Expr.expr_id q) (Expr.expr_id s)) as [Hqs|Hqs]; simpl;
    destruct (Nat.eqb_spec (Expr.expr_id q) (Expr.expr_id e)) as [Hqe|Hqe]; simpl; try done;
    destruct (Nat.eqb_spec (Expr.expr_id s) (Expr.expr_id e)); done || congruence.
Qed.

Lemma find_snoc (mapping : Mapping) (s t e : Expr) :
  Substitution.find (mapping ++ [(s, t)]) e =
  match Substitution.find mapping e with
  | Some u => Some u
  | None => if Expr.same s e then Some t else None
  end.
Proof.
  unfold Substitution.find. induction mapping as [|p mapping IH]; simpl; [by destruct (Expr.same s e)|].
  by destruct (Expr.same p.1 e).
Qed.

Lemma set_find (mapping : Mapping) (s t e : Expr) :
  Substitution.find (PlanSubstitutions.set mapping s t) e =
  if Expr.same s e then Some t else Substitution.find mapping e.
Proof.
  unfold PlanSubstitutions.set. destruct (Substitution.find mapping s) as [t'|] eqn:Hf.
  - rewrite find_replaced. destruct (Expr.same s e) eqn:Hs; [|done].
    by rewrite <- (find_same_source mapping s e Hs), Hf.
  - rewrite find_snoc. destruct (Expr.same s e) eqn:Hs.
    + by rewrite <- (find_same_source mapping s e Hs), Hf.
    + by destruct (Substitution.find mapping e).
Qed.
End Meaning.
