(* ===== verification/JoinPlacements.v ===== *)
(** * Predicates at a join

    [axiom/optimizer/v2/JoinCondition.cpp] and
    [axiom/optimizer/v2/JoinPredicatePlacement.cpp]: the keys of a join condition, where the
    predicates above a join and those of its condition are evaluated, what an input
    tells about the other, and the pairs of columns a join makes equal.

    First the definitions, then joins of filtered inputs: when the predicates above a
    join and those of its condition may be evaluated by an input, for every join type
    ([placed_join]); and the theorem that [filterPropagation] allows exactly the
    directions in which restricting an input changes nothing.  [JoinRouting] has what
    [route] makes of a join.

    A [Join] here has the members the placement reads, its expressions as trees. *)

From Stdlib Require Import ZArith Lia.
From S2P Require Import Prelude Joins Domains DomainSets Expressions ExprDomains SqlSemantics Builders ExprFactories ExprSimplifiers FilterSimplifiers ImpliedFilters.

Local Open Scope nat_scope.
Set Warnings "-register-all".

(** The columns a [PlanObjectSet] contains. *)
Abbreviation isSubset := ImpliedFilters.isSubset.

Module JoinCondition.
Section JoinCondition.
Context {T V : Type} (functionNames : FunctionNames).
Abbreviation Expr := (Expr T V).

Record Split := mkSplit {
  leftKeys : list Expr;
  rightKeys : list Expr;
  residual : list Expr
}.

(** The two sides of an equality that can be a key, the left one first. *)
Definition split_key (leftColumns rightColumns : gset nat) (conjunct : Expr) :
    option (Expr * Expr) :=
  match conjunct with
  | CallExpr name [lhs; rhs] _ _ _ =>
      if negb (name_is (Some name) (equality functionNames)) then None
      else if Expr.containsNonDeterministic conjunct then None
      else
        let lhsCols := Expr.columns lhs in
        let rhsCols := Expr.columns rhs in
        if bool_decide (lhsCols = []) || bool_decide (rhsCols = []) then None
        else if isSubset lhsCols leftColumns && isSubset rhsCols rightColumns then Some (lhs, rhs)
        else if isSubset lhsCols rightColumns && isSubset rhsCols leftColumns then Some (rhs, lhs)
        else None
  | _ => None
  end.

(** The body of the loop. *)
Definition split_conjunct (leftColumns rightColumns : gset nat) (result : Split)
    (conjunct : Expr) : Split :=
  match split_key leftColumns rightColumns conjunct with
  | Some (leftKey, rightKey) =>
      mkSplit (leftKeys result ++ [leftKey]) (rightKeys result ++ [rightKey]) (residual result)
  | None => mkSplit (leftKeys result) (rightKeys result) (residual result ++ [conjunct])
  end.

Definition splitEquiKeys (conjuncts : list Expr) (leftColumns rightColumns : gset nat) : Split :=
  foldl (split_conjunct leftColumns rightColumns) (mkSplit [] [] []) conjuncts.
End JoinCondition.
End JoinCondition.

(** The members of [v2::Join] that the placement of predicates reads. *)
Record Join {T V : Type} := mkJoin {
  leftKeys : list (Expr T V);
  rightKeys : list (Expr T V);
  filter : list (Expr T V);
  nullAsValue : bool
}.
Arguments Join : clear implicits.
Arguments mkJoin {T V} leftKeys rightKeys filter nullAsValue.

Module JoinPredicatePlacement.
Section JoinPredicatePlacement.
Context {T V : Type} `{TypeOps T} `{VariantOps V} `{FunctionRegistry}.
Variable maxPlanObjects : nat.
Variable reversibleFunctions : string -> option string.
Variable functionNames : FunctionNames.
(** [velox::core::isCountingJoin] *)
Variable isCountingJoin : JoinType -> bool.
Abbreviation Expr := (Expr T V).
Abbreviation M := (StateM (Builder T V)).
Abbreviation F f := (f maxPlanObjects reversibleFunctions).

Record Routed := mkRouted {
  leftInputPredicates : list Expr;
  rightInputPredicates : list Expr;
  routedLeftKeys : list Expr;
  routedRightKeys : list Expr;
  joinPredicates : list Expr;
  aboveJoinPredicates : list Expr
}.

Record FilterPropagation := mkPropagation {
  leftToRight : bool;
  rightToLeft : bool;
  emitsOnlyMatchedRows : bool
}.

Definition canPushLeft (joinType : JoinType) (leftOnly : bool) : Result bool :=
  if leftOnly then left_ <$> preservedSides joinType else Ok false.

Definition canPushRight (joinType : JoinType) (rightOnly : bool) : Result bool :=
  if rightOnly then right_ <$> preservedSides joinType else Ok false.

Inductive FilterTarget := kKeep | kLeft | kRight.

Definition filterTarget (joinType : JoinType) (leftOnly rightOnly : bool) : Result FilterTarget :=
  match joinType with
  | kInner => Ok (if leftOnly then kLeft else if rightOnly then kRight else kKeep)
  | Joins.kLeft => Ok (if rightOnly then kRight else kKeep)
  | Joins.kRight => Ok (if leftOnly then kLeft else kKeep)
  | kFull => Ok kKeep
  | kLeftSemiFilter | kCountingLeftSemiFilter | kLeftSemiProject | kAnti | kCountingAnti =>
      Ok (if rightOnly then kRight else kKeep)
  | kRightSemiFilter | kRightSemiProject | kRightAnti => Ok (if leftOnly then kLeft else kKeep)
  | kNumJoinTypes => Throw (VeloxUnreachable "")
  end.

(** Where the conjuncts of [result] go. *)
Definition addLeft (es : list Expr) (r : Routed) : Routed :=
  mkRouted (leftInputPredicates r ++ es) (rightInputPredicates r) (routedLeftKeys r)
    (routedRightKeys r) (joinPredicates r) (aboveJoinPredicates r).
Definition addRight (es : list Expr) (r : Routed) : Routed :=
  mkRouted (leftInputPredicates r) (rightInputPredicates r ++ es) (routedLeftKeys r)
    (routedRightKeys r) (joinPredicates r) (aboveJoinPredicates r).
Definition addJoin (es : list Expr) (r : Routed) : Routed :=
  mkRouted (leftInputPredicates r) (rightInputPredicates r) (routedLeftKeys r)
    (routedRightKeys r) (joinPredicates r ++ es) (aboveJoinPredicates r).
Definition addAbove (es : list Expr) (r : Routed) : Routed :=
  mkRouted (leftInputPredicates r) (rightInputPredicates r) (routedLeftKeys r)
    (routedRightKeys r) (joinPredicates r) (aboveJoinPredicates r ++ es).
Definition setKeys (leftKeys rightKeys : list Expr) (r : Routed) : Routed :=
  mkRouted (leftInputPredicates r) (rightInputPredicates r) leftKeys rightKeys
    (joinPredicates r) (aboveJoinPredicates r).

(** The loop that drops the redundant key pairs. *)
Fixpoint drop_redundant (leftKeys rightKeys : list Expr) (redundant : list bool) :
    list Expr * list Expr :=
  match leftKeys, rightKeys, redundant with
  | l :: leftKeys, r :: rightKeys, flag :: redundant =>
      let '(ls, rs) := drop_redundant leftKeys rightKeys redundant in
      if flag : bool then (ls, rs) else (l :: ls, r :: rs)
  | _, _, _ => ([], [])
  end.

Definition placeKeyEqualities (joinType : JoinType) (routed : Routed) : M Routed :=
  equalities ← F ImpliedFilters.deriveForJoinKeys functionNames (routedLeftKeys routed)
                 (routedRightKeys routed);
  leftTarget ← lift (filterTarget joinType true false);
  let routed := match leftTarget with
                | kLeft => addLeft (ImpliedFilters.left equalities) routed
                | _ => addJoin (ImpliedFilters.left equalities) routed
                end in
  rightTarget ← lift (filterTarget joinType false true);
  let routed := match rightTarget with
                | kRight => addRight (ImpliedFilters.right equalities) routed
                | _ => addJoin (ImpliedFilters.right equalities) routed
                end in
  let '(leftKeys, rightKeys) := drop_redundant (routedLeftKeys routed) (routedRightKeys routed)
                                  (ImpliedFilters.redundant equalities) in
  mret (setKeys leftKeys rightKeys routed).

Definition filterPropagation (joinType : JoinType) (nullAware : bool) : Result FilterPropagation :=
  match joinType with
  | kInner | kLeftSemiFilter | kCountingLeftSemiFilter | kRightSemiFilter =>
      Ok (mkPropagation true true true)
  | Joins.kLeft => Ok (mkPropagation true false false)
  | Joins.kRight => Ok (mkPropagation false true false)
  | kLeftSemiProject => Ok (mkPropagation (negb nullAware) false false)
  | kRightSemiProject => Ok (mkPropagation false (negb nullAware) false)
  | kAnti => Ok (mkPropagation (negb nullAware) false false)
  | kCountingAnti => Ok (mkPropagation true false false)
  | kRightAnti => Ok (mkPropagation false (negb nullAware) false)
  | kFull => Ok (mkPropagation false false false)
  | kNumJoinTypes => Throw (VeloxUnreachable "")
  end.

(** *** Pairs of equal columns *)

(** [addPair] *)
Definition addPair (pairs : list (Column T * Column T)) (l r : Column T) :
    list (Column T * Column T) :=
  if existsb (fun p => (column_id p.1 =? column_id l) && (column_id p.2 =? column_id r)) pairs
  then pairs else pairs ++ [(l, r)].

(** The loop over the keys. *)
Definition addKeyPair (pairs : list (Column T * Column T)) (keys : Expr * Expr) :
    list (Column T * Column T) :=
  match keys with
  | (ColumnExpr l, ColumnExpr r) => addPair pairs l r
  | _ => pairs
  end.

(** [addEqualityPair]; an equality has two arguments. *)
Definition addEqualityPair (leftColumns rightColumns : gset nat)
    (pairs : list (Column T * Column T)) (conjunct : Expr) : list (Column T * Column T) :=
  match conjunct with
  | CallExpr name (ColumnExpr firstColumn :: ColumnExpr secondColumn :: _) _ _ _ =>
      if negb (name_is (Some name) (equality functionNames)) then pairs
      else if bool_decide (column_id firstColumn ∈ leftColumns) &&
              bool_decide (column_id secondColumn ∈ rightColumns)
      then addPair pairs firstColumn secondColumn
      else if bool_decide (column_id secondColumn ∈ leftColumns) &&
              bool_decide (column_id firstColumn ∈ rightColumns)
      then addPair pairs secondColumn firstColumn
      else pairs
  | _ => pairs
  end.

Definition equiColumnPairs (join : Join T V) (leftColumns rightColumns : gset nat)
    (extraConjuncts : list Expr) : list (Column T * Column T) :=
  let pairs := foldl addKeyPair [] (zip (leftKeys join) (rightKeys join)) in
  let pairs := foldl (addEqualityPair leftColumns rightColumns) pairs (filter join) in
  foldl (addEqualityPair leftColumns rightColumns) pairs extraConjuncts.

(** *** Routing *)

Definition only (columns : list (Column T)) (set : gset nat) : bool :=
  negb (bool_decide (columns = [])) && isSubset columns set.

(** The loop over [pending], on [result] and [joinCandidates]. *)
Fixpoint route_pending (joinType : JoinType) (leftColumns rightColumns : gset nat)
    (pending : list Expr) (result : Routed) (joinCandidates : list Expr) :
    Result (Routed * list Expr) :=
  match pending with
  | [] => Ok (result, joinCandidates)
  | conjunct :: pending =>
      let columns := Expr.columns conjunct in
      let leftOnly := only columns leftColumns in
      let rightOnly := only columns rightColumns in
      let next := route_pending joinType leftColumns rightColumns pending in
      if Expr.containsNonDeterministic conjunct && (leftOnly || rightOnly)
      then next (addAbove [conjunct] result) joinCandidates
      else
        pushLeft ← canPushLeft joinType leftOnly;
        if pushLeft : bool then next (addLeft [conjunct] result) joinCandidates
        else
          pushRight ← canPushRight joinType rightOnly;
          if pushRight : bool then next (addRight [conjunct] result) joinCandidates
          else if bool_decide (joinType = kInner)
          then next result (joinCandidates ++ [conjunct])
          else next (addAbove [conjunct] result) joinCandidates
  end.

(** The loop over the filter of the join. *)
Fixpoint route_filter (joinType : JoinType) (leftColumns rightColumns : gset nat)
    (filter : list Expr) (result : Routed) : Result Routed :=
  match filter with
  | [] => Ok result
  | conjunct :: filter =>
      let next := route_filter joinType leftColumns rightColumns filter in
      if Expr.containsNonDeterministic conjunct then next (addJoin [conjunct] result)
      else
        let columns := Expr.columns conjunct in
        target ← filterTarget joinType (only columns leftColumns) (only columns rightColumns);
        next (match target with
              | kLeft => addLeft [conjunct] result
              | kRight => addRight [conjunct] result
              | kKeep => addJoin [conjunct] result
              end)
  end.

(** The filters the inputs inherit from the conditions. *)
Definition route_implied (joinType : JoinType) (leftColumns rightColumns : gset nat)
    (result : Routed) (joinCandidates : list Expr) : M Routed :=
  let pushLeft := bool_decide (joinType = kInner) || bool_decide (joinType = Joins.kRight) in
  let pushRight := bool_decide (joinType = kInner) || bool_decide (joinType = Joins.kLeft) in
  if pushLeft || pushRight then
    let filters := joinPredicates result ++ joinCandidates in
    '(leftFilters, rightFilters) ← F ImpliedFilters.deriveForJoinInputs functionNames filters leftColumns rightColumns;
    let result := if pushLeft then addLeft leftFilters result else result in
    mret (if pushRight then addRight rightFilters result else result)
  else mret result.

Definition route (join : Join T V) (joinType : JoinType) (nullAware : bool)
    (leftColumns rightColumns : gset nat)
    (pending leftInputPredicates rightInputPredicates : list Expr) : M Routed :=
  let result := mkRouted leftInputPredicates rightInputPredicates (leftKeys join) (rightKeys join) [] [] in
  '(result, joinCandidates) ← lift (route_pending joinType leftColumns rightColumns pending result []);
  result ← lift (route_filter joinType leftColumns rightColumns (filter join) result);
  result ← route_implied joinType leftColumns rightColumns result joinCandidates;
  let result :=
    match joinCandidates with
    | [] => result
    | _ =>
        let split := JoinCondition.splitEquiKeys functionNames joinCandidates leftColumns rightColumns in
        addJoin (JoinCondition.residual split)
          (setKeys (routedLeftKeys result ++ JoinCondition.leftKeys split)
             (routedRightKeys result ++ JoinCondition.rightKeys split) result)
    end in
  if negb (nullKeysMatch nullAware (nullAsValue join)) && negb (isCountingJoin joinType)
  then placeKeyEqualities joinType result
  else mret result.
End JoinPredicatePlacement.
End JoinPredicatePlacement.

(** ** Joins of filtered inputs *)

Section FilteredInputs.
Context {L R : Type}.
Implicit Types (xs : list L) (ys : list R).

Lemma filter_map_some {A B} (f : A -> B) (p : B -> bool) (l : list A) :
  List.filter p (map f l) = map f (List.filter (fun a => p (f a)) l).
Proof. induction l as [|a l IH]; [done|]. simpl. rewrite IH. by destruct (p (f a)). Qed.

Lemma filter_ext_elem {A} (p q : A -> bool) (l : list A) :
  (forall a, a ∈ l -> p a = q a) -> List.filter p l = List.filter q l.
Proof. intros Hpq. apply List.filter_ext_in. intros a Ha. by apply Hpq, list_elem_of_In. Qed.

Lemma existsb_filter {A} (p q : A -> bool) (l : list A) :
  existsb p (List.filter q l) = existsb (fun a => q a && p a) l.
Proof. induction l as [|a l IH]; [done|]. simpl. destruct (q a); simpl; by rewrite IH. Qed.

Lemma existsb_ext_elem {A} (p q : A -> bool) (l : list A) :
  (forall a, a ∈ l -> p a = q a) -> existsb p l = existsb q l.
Proof.
  induction l as [|a l IH]; intros Hpq; [done|]. simpl. rewrite (Hpq a) by by left.
  rewrite IH; [done|]. intros b Hb. apply Hpq. by right.
Qed.

(** Both matchings find a partner for the same rows. *)
Lemma has_match_filtered (m m' : L -> R -> bool) (q : R -> bool) x ys :
  (forall y, y ∈ ys -> q y && m' x y = m x y) ->
  has_match m' (List.filter q ys) x = has_match m ys x.
Proof. intros Hm. unfold has_match. rewrite existsb_filter. by apply existsb_ext_elem. Qed.

Lemma pairs_filtered (m m' : L -> R -> bool) (p : L -> bool) (q : R -> bool) (keep : L -> R -> bool)
    xs ys :
  (forall x y, x ∈ xs -> y ∈ ys -> p x && q y && m' x y = keep x y && m x y) ->
  pairs m' (List.filter p xs) (List.filter q ys) =
  List.filter (fun row : Joins.Row L R =>
    match row with (Some x, Some y, _) => keep x y | _ => true end) (pairs m xs ys).
Proof.
  intros Hm. unfold pairs. induction xs as [|x xs IH]; [done|]. simpl.
  rewrite List.filter_app, <- IH by (intros x' y Hx'; apply Hm; by right).
  assert (Hx : forall y, y ∈ ys -> p x && q y && m' x y = keep x y && m x y).
  { intros y. apply Hm. by left. }
  clear IH Hm.
  assert (Hpairs : List.filter (fun row : Joins.Row L R =>
      match row with (Some x, Some y, _) => keep x y | _ => true end) (pairs_of m ys x) =
    if p x then pairs_of m' (List.filter q ys) x else []).
  { unfold pairs_of. rewrite filter_map_some. simpl. rewrite filter_filter.
    rewrite (filter_ext_elem _ (fun y => p x && q y && m' x y)).
    2: { intros y Hy. by rewrite (Hx y Hy). }
    destruct (p x); simpl.
    { rewrite filter_filter. f_equal. apply filter_ext_elem. intros y _. apply andb_comm. }
    clear Hx. induction ys as [|y ys IH]; [done|]. simpl. exact IH. }
  rewrite Hpairs. by destruct (p x).
Qed.

(** The rows on the side of [p], with or without a partner. *)
Lemma matched_filtered (matching : bool) (m m' : L -> R -> bool) (p : L -> bool) (q : R -> bool) xs ys :
  (forall x y, x ∈ xs -> y ∈ ys -> p x = true -> q y && m' x y = m x y) ->
  List.filter (fun x => eqb (has_match m' (List.filter q ys) x) matching) (List.filter p xs) =
  List.filter p (List.filter (fun x => eqb (has_match m ys x) matching) xs).
Proof.
  intros Hm. rewrite !filter_filter. apply filter_ext_elem. intros x Hx.
  destruct (p x) eqn:Hp; simpl; [|by rewrite andb_false_r].
  rewrite (has_match_filtered m) by (intros y Hy; by apply Hm). apply andb_true_r.
Qed.

Lemma matched_eqb (m : L -> R -> bool) xs ys :
  matched m xs ys = List.filter (fun x => eqb (has_match m ys x) true) xs.
Proof. apply filter_ext_elem. intros x _. by destruct (has_match m ys x). Qed.

Lemma unmatched_eqb (m : L -> R -> bool) xs ys :
  unmatched m xs ys = List.filter (fun x => eqb (has_match m ys x) false) xs.
Proof. apply filter_ext_elem. intros x _. by destruct (has_match m ys x). Qed.

(** *** Counting joins *)

Lemma consume_filtered (m m' : L -> R -> bool) (q : R -> bool) x ys :
  (forall y, y ∈ ys -> q y && m' x y = m x y) ->
  consume m' x (List.filter q ys) = List.filter q <$> consume m x ys.
Proof.
  induction ys as [|y ys IH]; intros Hm; [done|]. simpl.
  rewrite <- (Hm y) by by left.
  specialize (IH ltac:(intros y' Hy'; apply Hm; by right)).
  destruct (q y) eqn:Hq; simpl.
  - destruct (m' x y); simpl; [done|]. rewrite IH. destruct (consume m x ys); simpl; [|done].
    by rewrite Hq.
  - rewrite IH. destruct (consume m x ys); simpl; [|done]. by rewrite Hq.
Qed.

Lemma consume_subset (m : L -> R -> bool) x ys ys' : consume m x ys = Some ys' -> ys' ⊆ ys.
Proof.
  revert ys'. induction ys as [|y ys IH]; intros ys'; simpl; [done|].
  destruct (m x y); [intros [= <-]; set_solver|].
  destruct (consume m x ys) as [ys''|]; [|done]. intros [= <-]. specialize (IH ys'' eq_refl). set_solver.
Qed.

Lemma counting_filtered_right (m m' : L -> R -> bool) (q : R -> bool) keep xs ys :
  (forall x y, x ∈ xs -> y ∈ ys -> q y && m' x y = m x y) ->
  counting m' keep xs (List.filter q ys) = counting m keep xs ys.
Proof.
  revert ys. induction xs as [|x xs IH]; intros ys Hm; [done|]. simpl.
  rewrite (consume_filtered m) by (intros y Hy; apply Hm; [by left|done]).
  destruct (consume m x ys) as [ys'|] eqn:Hc; simpl; f_equal; apply IH; intros x' y Hx Hy;
    (apply Hm; [by right|]); [|done]. by eapply consume_subset.
Qed.

(** What a row consumes is of no use to a row that shares no partner with it. *)
Lemma consume_removed (m : L -> R -> bool) (useful : R -> bool) x ys ys' :
  (forall y, y ∈ ys -> m x y = true -> useful y = false) ->
  consume m x ys = Some ys' -> List.filter useful ys' = List.filter useful ys.
Proof.
  revert ys'. induction ys as [|y ys IH]; intros ys' Hu; simpl; [done|].
  destruct (m x y) eqn:Hm.
  - intros [= <-]. by rewrite (Hu y) by first [by left|done].
  - destruct (consume m x ys) as [ys''|] eqn:Hc; [|done]. intros [= <-]. simpl.
    rewrite (IH ys''); [done| |done]. intros y' Hy'. apply Hu. by right.
Qed.

Lemma counting_useful (m : L -> R -> bool) (useful : R -> bool) keep xs ys :
  (forall x y, x ∈ xs -> y ∈ ys -> m x y = true -> useful y = true) ->
  counting m keep xs (List.filter useful ys) = counting m keep xs ys.
Proof.
  intros Hu. apply counting_filtered_right. intros x y Hx Hy.
  destruct (m x y) eqn:Hm; [by rewrite (Hu x y)|by apply andb_false_r].
Qed.

(** A predicate whose value the rows that share a partner agree on. *)
Lemma counting_filtered_left (m : L -> R -> bool) (p : L -> bool) keep xs ys :
  (forall x x' y, x ∈ xs -> x' ∈ xs -> y ∈ ys -> m x y = true -> m x' y = true -> p x = p x') ->
  counting m keep (List.filter p xs) ys = List.filter p (counting m keep xs ys).
Proof.
  revert ys. induction xs as [|x xs IH]; intros ys Hp; [done|]. simpl.
  assert (Hrest : forall ys', ys' ⊆ ys ->
    counting m keep (List.filter p xs) ys' = List.filter p (counting m keep xs ys')).
  { intros ys' Hs. apply IH. intros x1 x2 y Hx1 Hx2 Hy. apply Hp; [by right..|by apply Hs]. }
  destruct (p x) eqn:Hpx; simpl.
  - destruct (consume m x ys) as [ys'|] eqn:Hc.
    + rewrite List.filter_app, <- Hrest by by eapply consume_subset.
      destruct keep; simpl; by rewrite ?Hpx.
    + rewrite List.filter_app, <- Hrest by done. destruct keep; simpl; by rewrite ?Hpx.
  - destruct (consume m x ys) as [ys'|] eqn:Hc.
    + rewrite List.filter_app, <- Hrest by by eapply consume_subset.
      assert (List.filter p (if keep then [x] else []) = []) as -> by (destruct keep; simpl; by rewrite ?Hpx).
      simpl. set (useful y := existsb (fun x' => m x' y) (List.filter p xs)).
      assert (Huse : forall l, l ⊆ ys ->
        counting m keep (List.filter p xs) (List.filter useful l) = counting m keep (List.filter p xs) l).
      { intros l _. apply counting_useful. intros x' y Hx' _ Hm. apply existsb_exists. exists x'.
        split; [by apply list_elem_of_In|done]. }
      rewrite <- (Huse ys), <- (Huse ys') by first [done|by eapply consume_subset].
      f_equal. symmetry. eapply consume_removed; [|exact Hc]. intros y Hy Hm.
      apply not_true_is_false. intros (x' & [Hx' Hpx']%filter_In & Hm')%existsb_exists.
      assert (p x = p x'); [|congruence].
      apply (Hp x x' y); [by left|right; by apply list_elem_of_In|done..].
    + rewrite List.filter_app, <- Hrest by done.
      destruct keep; simpl; by rewrite ?Hpx.
Qed.
End FilteredInputs.

(** A predicate on each input and on pairs of rows, on the output of a join. *)
Definition keeps {L R} (p : L -> bool) (q : R -> bool) (c : L -> R -> bool) (row : Joins.Row L R) :
    bool :=
  match row_left row, row_right row with
  | Some x, Some y => p x && q y && c x y
  | Some x, None => p x
  | None, Some y => q y
  | None, None => true
  end.

Definition always {A} (p : A -> bool) (l : list A) : Prop := forall a, a ∈ l -> p a = true.

(** The joins that count rows. *)
Definition counting_type (t : JoinType) : bool :=
  bool_decide (t = kCountingLeftSemiFilter) || bool_decide (t = kCountingAnti).

(** Predicates [p], [q] from above the join, and [jp], [jq] of its condition, may be
    evaluated by the inputs, and [c] by the condition: the filters on a side that is
    not preserved come from the condition, those on a side that is from above. *)
Record placed {L R} (t : JoinType) (m m' : L -> R -> bool) (p jp : L -> bool) (q jq : R -> bool)
    (c : L -> R -> bool) (xs : list L) (ys : list R) : Prop := {
  placed_condition x y : x ∈ xs -> y ∈ ys -> p x = true -> q y = true ->
    jp x && jq y && m' x y = c x y && m x y;
  placed_sides : exists s, preservedSides t = Ok s /\
    (left_ s = false -> always p xs) /\ (right_ s = false -> always q ys) /\
    (t <> kInner -> (left_ s = true \/ t = kFull -> always jp xs) /\ (right_ s = true \/ t = kFull -> always jq ys) /\
       forall x y, x ∈ xs -> y ∈ ys -> c x y = true);
  placed_counting : counting_type t = true ->
    forall x x' y, x ∈ xs -> x' ∈ xs -> y ∈ ys -> m x y = true -> m x' y = true -> p x = p x'
}.

Section PlacedJoin.
Context {L R : Type} (m m' : L -> R -> bool) (p jp : L -> bool) (q jq : R -> bool) (c : L -> R -> bool).

Lemma filter_keeps_left xs :
  List.filter (keeps p q c) (map row_of_left xs) = map row_of_left (List.filter p xs).
Proof. by rewrite filter_map_some. Qed.

Lemma filter_keeps_right ys :
  List.filter (keeps p q c) (map row_of_right ys) = map row_of_right (List.filter q ys).
Proof. by rewrite filter_map_some. Qed.

Lemma filter_keeps_pairs xs ys :
  (forall x y, x ∈ xs -> y ∈ ys -> p x = true -> q y = true ->
    jp x && jq y && m' x y = c x y && m x y) ->
  pairs m' (List.filter (fun x => p x && jp x) xs) (List.filter (fun y => q y && jq y) ys) =
  List.filter (keeps p q c) (pairs m xs ys).
Proof.
  intros Hm. rewrite (pairs_filtered m m' _ _ (fun x y => p x && q y && c x y)).
  - apply filter_ext_elem. intros row Hrow. unfold pairs, pairs_of in Hrow.
    apply list_elem_of_In, in_flat_map in Hrow as (x & _ & (y & <- & _)%in_map_iff). done.
  - intros x y Hx Hy. specialize (Hm x y Hx Hy). destruct (p x), (q y); simpl; try done.
    + by apply Hm.
    + by rewrite andb_false_r.
Qed.

(** The side that is preserved keeps its own rows. *)
Lemma filter_keeps_side (matching : bool) xs ys :
  (forall x y, x ∈ xs -> y ∈ ys -> p x = true -> q y = true ->
    jp x && jq y && m' x y = c x y && m x y) ->
  always jp xs -> always q ys -> (forall x y, x ∈ xs -> y ∈ ys -> c x y = true) ->
  List.filter (fun x => eqb (has_match m' (List.filter (fun y => q y && jq y) ys) x) matching)
    (List.filter (fun x => p x && jp x) xs) =
  List.filter p (List.filter (fun x => eqb (has_match m ys x) matching) xs).
Proof.
  intros Hm Hjp Hq Hc. rewrite (filter_ext_elem (fun x => p x && jp x) p).
  2: { intros x Hx. by rewrite (Hjp x Hx), andb_true_r. }
  apply matched_filtered. intros x y Hx Hy Hpx. specialize (Hm x y Hx Hy Hpx (Hq y Hy)).
  rewrite (Hjp x Hx), (Hc x y Hx Hy) in Hm. by rewrite (Hq y Hy).
Qed.

(** The marks of the rows of a preserved side. *)
Lemma filter_keeps_marks xs ys :
  (forall x y, x ∈ xs -> y ∈ ys -> p x = true -> q y = true ->
    jp x && jq y && m' x y = c x y && m x y) ->
  always jp xs -> always q ys -> (forall x y, x ∈ xs -> y ∈ ys -> c x y = true) ->
  map (marked m' (List.filter (fun y => q y && jq y) ys)) (List.filter (fun x => p x && jp x) xs) =
  map (marked m ys) (List.filter p xs).
Proof.
  intros Hm Hjp Hq Hc. rewrite (filter_ext_elem (fun x => p x && jp x) p).
  2: { intros x Hx. by rewrite (Hjp x Hx), andb_true_r. }
  apply List.map_ext_in. intros x [Hx%list_elem_of_In Hpx]%filter_In. unfold marked.
  rewrite (has_match_filtered m); [done|]. intros y Hy. specialize (Hm x y Hx Hy Hpx (Hq y Hy)).
  rewrite (Hjp x Hx), (Hc x y Hx Hy) in Hm. by rewrite (Hq y Hy).
Qed.

Lemma filter_keeps_counting keep xs ys :
  (forall x y, x ∈ xs -> y ∈ ys -> p x = true -> q y = true ->
    jp x && jq y && m' x y = c x y && m x y) ->
  always jp xs -> always q ys -> (forall x y, x ∈ xs -> y ∈ ys -> c x y = true) ->
  (forall x x' y, x ∈ xs -> x' ∈ xs -> y ∈ ys -> m x y = true -> m x' y = true -> p x = p x') ->
  counting m' keep (List.filter (fun x => p x && jp x) xs) (List.filter (fun y => q y && jq y) ys) =
  List.filter p (counting m keep xs ys).
Proof.
  intros Hm Hjp Hq Hc Hp. rewrite (filter_ext_elem (fun x => p x && jp x) p).
  2: { intros x Hx. by rewrite (Hjp x Hx), andb_true_r. }
  rewrite <- counting_filtered_left by done. apply counting_filtered_right.
  intros x y [Hx%list_elem_of_In Hpx]%list_elem_of_In%filter_In Hy.
  specialize (Hm x y Hx Hy Hpx (Hq y Hy)).
  rewrite (Hjp x Hx), (Hc x y Hx Hy) in Hm. by rewrite (Hq y Hy).
Qed.
End PlacedJoin.

(** Placing predicates keeps the rows the predicates from above keep. *)
Lemma placed_join {L R} t (m m' : L -> R -> bool) p jp q jq c xs ys :
  t <> kNumJoinTypes -> placed t m m' p jp q jq c xs ys ->
  join_rows t m' (List.filter (fun x => p x && jp x) xs) (List.filter (fun y => q y && jq y) ys) =
  List.filter (keeps p q c) (join_rows t m xs ys).
Proof.
  intros Ht [Hm (s & Hs & Hp & Hq & Hother) Hcount].
  assert (Hm' : forall y x, y ∈ ys -> x ∈ xs -> q y = true -> p x = true ->
    jq y && jp x && m' x y = c x y && m x y).
  { intros y x Hy Hx Hqy Hpx. rewrite (andb_comm (jq y)). by apply Hm. }
  assert (Hleft : t <> kInner -> left_ s = true \/ t = kFull -> right_ s = false ->
    forall matching,
    List.filter (fun x => eqb (has_match m' (List.filter (fun y => q y && jq y) ys) x) matching)
      (List.filter (fun x => p x && jp x) xs) =
    List.filter p (List.filter (fun x => eqb (has_match m ys x) matching) xs)).
  { intros Hi Hl Hr matching. destruct (Hother Hi) as (Hjp & _ & Hc).
    by apply (filter_keeps_side m m' p jp q jq c); auto. }
  assert (Hright : t <> kInner -> right_ s = true \/ t = kFull -> left_ s = false ->
    forall matching,
    List.filter (fun y => eqb (has_match (fun y x => m' x y) (List.filter (fun x => p x && jp x) xs) y) matching)
      (List.filter (fun y => q y && jq y) ys) =
    List.filter q (List.filter (fun y => eqb (has_match (fun y x => m x y) xs y) matching) ys)).
  { intros Hi Hr Hl matching. destruct (Hother Hi) as (_ & Hjq & Hc).
    apply (filter_keeps_side (fun y x => m x y) (fun y x => m' x y) q jq p jp (fun y x => c x y)); auto. }
  destruct t; try discriminate Hs; injection Hs as <-; cbn [left_ right_] in *; cbn [join_rows];
    rewrite ?List.filter_app, ?filter_keeps_left, ?filter_keeps_right, ?matched_eqb, ?unmatched_eqb;
    rewrite <- ?(filter_keeps_pairs m m' p jp q jq c xs ys Hm);
    rewrite ?Hleft, ?Hright by auto; try done.
  all: destruct Hother as (Hjp & Hjq & Hc); [done|].
  - specialize (Hcount eq_refl). by rewrite (filter_keeps_counting m m' p jp q jq c) by auto.
  - rewrite (filter_keeps_marks m m' p jp q jq c) by auto. by rewrite filter_map_some.
  - pose proof (filter_keeps_marks (fun y x => m x y) (fun y x => m' x y) q jq p jp (fun y x => c x y)
      ys xs Hm' (Hjq (or_introl eq_refl)) (Hp eq_refl) (fun y x Hy Hx => Hc x y Hx Hy)) as Hmarks.
    apply (f_equal (map swap_row)) in Hmarks. rewrite !List.map_map in Hmarks.
    rewrite filter_map_some. exact Hmarks.
  - specialize (Hcount eq_refl). by rewrite (filter_keeps_counting m m' p jp q jq c) by auto.
Qed.

(** The sides of an emitted row are rows of the inputs; a preserved side is there. *)
Definition row_sides {L R} (t : JoinType) (xs : list L) (ys : list R) (row : Joins.Row L R) : Prop :=
  (forall x, row_left row = Some x -> x ∈ xs) /\ (forall y, row_right row = Some y -> y ∈ ys) /\
  (left_ <$> preservedSides t = Ok true -> exists x, row_left row = Some x) /\
  (right_ <$> preservedSides t = Ok true -> exists y, row_right row = Some y) /\
  (t = kInner -> row.2 = None).

Lemma pair_row_sides {L R} t (xs : list L) (ys : list R) x y :
  x ∈ xs -> y ∈ ys -> row_sides t xs ys (pair_row x y).
Proof.
  intros Hx Hy. split; [by intros ? [= <-]|]. split; [by intros ? [= <-]|].
  split; [by exists x|]. split; [by exists y|done].
Qed.

Lemma left_row_sides {L R} t (xs : list L) (ys : list R) x mark :
  x ∈ xs -> t <> kInner -> right_ <$> preservedSides t <> Ok true -> row_sides t xs ys (Some x, None, mark).
Proof. intros Hx Ht Hr. split; [by intros ? [= <-]|]. split; [done|]. split; [by exists x|done]. Qed.

Lemma right_row_sides {L R} t (xs : list L) (ys : list R) y mark :
  y ∈ ys -> t <> kInner -> left_ <$> preservedSides t <> Ok true -> row_sides t xs ys (None, Some y, mark).
Proof. intros Hy Ht Hl. split; [done|]. split; [by intros ? [= <-]|]. split; [done|]. split; [by exists y|done]. Qed.

Lemma join_rows_sides {L R} t (m : L -> R -> bool) (xs : list L) (ys : list R) row :
  row ∈ join_rows t m xs ys -> row_sides t xs ys row.
Proof.
  assert (Hpairs : row ∈ pairs m xs ys -> row_sides t xs ys row).
  { unfold pairs, pairs_of. rewrite list_elem_of_In, in_flat_map.
    intros (x & Hx & (y & <- & [Hy _]%filter_In)%in_map_iff). apply pair_row_sides; by apply list_elem_of_In. }
  assert (Hleft : forall l mark, (forall x, x ∈ l -> x ∈ xs) -> t <> kInner ->
    right_ <$> preservedSides t <> Ok true -> row ∈ map (fun x => (Some x, None, mark x)) l -> row_sides t xs ys row).
  { intros l mark Hl Ht Hr (x & <- & Hx%list_elem_of_In%Hl)%list_elem_of_In%in_map_iff. by apply left_row_sides. }
  assert (Hright : forall l mark, (forall y, y ∈ l -> y ∈ ys) -> t <> kInner ->
    left_ <$> preservedSides t <> Ok true -> row ∈ map (fun y => (None, Some y, mark y)) l -> row_sides t xs ys row).
  { intros l mark Hl Ht Hr (y & <- & Hy%list_elem_of_In%Hl)%list_elem_of_In%in_map_iff. by apply right_row_sides. }
  assert (Hfilter : forall {A} (f : A -> bool) l a, a ∈ List.filter f l -> a ∈ l).
  { intros A f l a [Ha _]%list_elem_of_In%filter_In. by apply list_elem_of_In. }
  assert (Hcounting : forall keep a, a ∈ counting m keep xs ys -> a ∈ xs).
  { intros keep a Ha. by eapply elem_of_submseteq, counting_submseteq. }
  destruct t; cbn [join_rows]; rewrite ?elem_of_app; intros Hrow; 
    repeat match type of Hrow with _ \/ _ => destruct Hrow as [Hrow|Hrow] end;
    first [ by apply Hpairs | by apply not_elem_of_nil in Hrow
          | solve [apply (Hleft _ (fun _ => None)) in Hrow; eauto; try done; intros ?; apply Hfilter]
          | solve [apply (Hright _ (fun _ => None)) in Hrow; eauto; try done; intros ?; apply Hfilter]
          | solve [apply (Hleft _ (fun x => Some (has_match m ys x))) in Hrow; eauto; done]
          | solve [apply (Hright _ (fun y => Some (has_match (fun y x => m x y) xs y))) in Hrow; eauto; done] ].
Qed.

(** ** What an input tells about the other *)

(** The reading of three-valued matching: a null-aware join emits what it emits
    depending on the matches that are not false. *)
Definition reading {L R} (nullAware : bool) (m : L -> R -> option bool) (l : L) (r : R) : bool :=
  if nullAware then negb (bool_decide (m l r = Some false)) else bool_decide (m l r = Some true).

(** The check of the constructor of [Join]. *)
Definition admitsNullAware (joinType : JoinType) : bool :=
  bool_decide (joinType = kAnti) || bool_decide (joinType = kLeftSemiProject) ||
  bool_decide (joinType = kRightSemiProject).

(** Predicates that hold on the right rows that match, and on the left ones. *)
Definition restricts_right (t : JoinType) (nullAware : bool) : Prop :=
  forall L R (m : L -> R -> option bool) ls rs (p : R -> bool),
    (forall l r, l ∈ ls -> r ∈ rs -> m l r = Some true -> p r = true) ->
    join_rows t (reading nullAware m) ls (List.filter p rs) = join_rows t (reading nullAware m) ls rs.

Definition restricts_left (t : JoinType) (nullAware : bool) : Prop :=
  forall L R (m : L -> R -> option bool) ls rs (p : L -> bool),
    (forall l r, l ∈ ls -> r ∈ rs -> m l r = Some true -> p l = true) ->
    join_rows t (reading nullAware m) (List.filter p ls) rs = join_rows t (reading nullAware m) ls rs.

(** Each row that is emitted has a match, of which it has the sides it shows. *)
Definition only_matched (t : JoinType) (nullAware : bool) : Prop :=
  forall L R (m : L -> R -> option bool) ls rs row,
    row ∈ join_rows t (reading nullAware m) ls rs ->
    exists l r, l ∈ ls /\ r ∈ rs /\ m l r = Some true /\
      (forall l', row_left row = Some l' -> l' = l) /\ (forall r', row_right row = Some r' -> r' = r).

Section Propagation.
Context {L R : Type} (m : L -> R -> bool).
Implicit Types (ls : list L) (rs : list R).

Lemma pairs_restricted_right ls rs (p : R -> bool) :
  (forall l r, l ∈ ls -> r ∈ rs -> p r && m l r = m l r) ->
  pairs m ls (List.filter p rs) = pairs m ls rs.
Proof.
  intros Hp. rewrite <- (filter_all (fun _ => true) ls) at 1 by done.
  rewrite (pairs_filtered m m _ p (fun _ _ => true)).
  - apply filter_all. intros [[[l|] [r|]] mark] _; done.
  - intros l r Hl Hr. simpl. by apply Hp.
Qed.

Lemma pairs_restricted_left ls rs (p : L -> bool) :
  (forall l r, l ∈ ls -> r ∈ rs -> p l && m l r = m l r) ->
  pairs m (List.filter p ls) rs = pairs m ls rs.
Proof.
  intros Hp. rewrite <- (filter_all (fun _ => true) rs) at 1 by done.
  rewrite (pairs_filtered m m p _ (fun _ _ => true)).
  - apply filter_all. intros [[[l|] [r|]] mark] _; done.
  - intros l r Hl Hr. rewrite andb_true_r. simpl. by apply Hp.
Qed.

Lemma matched_restricted ls rs (p : L -> bool) :
  (forall l r, l ∈ ls -> r ∈ rs -> p l && m l r = m l r) ->
  matched m (List.filter p ls) rs = matched m ls rs.
Proof.
  intros Hp. unfold matched. rewrite filter_filter. apply filter_ext_elem. intros l Hl.
  destruct (has_match m rs l) eqn:Hh; [|done]. rewrite andb_true_l.
  apply has_match_elem in Hh as (r & Hr & Hm). specialize (Hp l r Hl Hr). rewrite Hm in Hp.
  by rewrite andb_true_r in Hp.
Qed.

Lemma counting_restricted keep ls rs (p : L -> bool) :
  keep = true -> (forall l r, l ∈ ls -> r ∈ rs -> p l && m l r = m l r) ->
  counting m keep (List.filter p ls) rs = counting m keep ls rs.
Proof.
  intros ->. revert rs. induction ls as [|l ls IH]; intros rs Hp; [done|]. simpl.
  assert (Hrest : forall rs', rs' ⊆ rs -> counting m true (List.filter p ls) rs' = counting m true ls rs').
  { intros rs' Hs. apply IH. intros l' r Hl' Hr. apply Hp; [by right|by apply Hs]. }
  destruct (consume m l rs) as [rs'|] eqn:Hc.
  - assert (p l = true) as ->.
    { clear -Hp Hc. revert rs' Hc. induction rs as [|r rs IH]; intros rs'; simpl; [done|].
      destruct (m l r) eqn:Hm.
      - intros _. specialize (Hp l r ltac:(by left) ltac:(by left)). rewrite Hm in Hp.
        by rewrite andb_true_r in Hp.
      - destruct (consume m l rs) as [rs''|]; [|done]. intros _. apply (IH) with (rs' := rs''); [|done].
        intros l' r' Hl' Hr'. apply Hp; [done|by right]. }
    simpl. rewrite Hc. rewrite Hrest; [done|]. by eapply consume_subset.
  - destruct (p l); simpl; rewrite ?Hc; simpl; by apply Hrest.
Qed.

Lemma counting_matched ls rs l : l ∈ counting m true ls rs -> exists r, r ∈ rs /\ m l r = true /\ l ∈ ls.
Proof.
  revert rs. induction ls as [|l' ls IH]; intros rs; simpl; [by intros ?%not_elem_of_nil|].
  destruct (consume m l' rs) as [rs'|] eqn:Hc; simpl.
  - intros [->|Hl]%elem_of_cons.
    + clear IH. revert rs' Hc. induction rs as [|r rs IH]; intros rs'; simpl; [done|].
      destruct (m l' r) eqn:Hm.
      * intros _. exists r. split; [by left|]. split; [done|by left].
      * destruct (consume m l' rs) as [rs''|]; [|done]. intros _.
        destruct (IH rs'' eq_refl) as (r' & Hr' & ? & ?). exists r'. split; [by right|done].
    + destruct (IH rs' Hl) as (r & Hr & ? & ?). exists r.
      split; [by eapply consume_subset|]. split; [done|by right].
  - intros Hl. destruct (IH rs Hl) as (r & ? & ? & ?). exists r. split; [done|]. split; [done|by right].
Qed.
End Propagation.

Lemma reading_true {L R} (m : L -> R -> option bool) l r : reading false m l r = true <-> m l r = Some true.
Proof. unfold reading. apply bool_decide_eq_true. Qed.

Lemma restricted_reading {L R} (m : L -> R -> option bool) (p : bool) l r :
  (m l r = Some true -> p = true) -> p && reading false m l r = reading false m l r.
Proof.
  intros Hp. destruct (reading false m l r) eqn:Hm; [|apply andb_false_r].
  apply reading_true in Hm. by rewrite (Hp Hm).
Qed.

Lemma propagates_right t :
  t ∈ [kInner; kLeft; kLeftSemiFilter; kCountingLeftSemiFilter; kRightSemiFilter;
       kLeftSemiProject; kAnti; kCountingAnti] -> restricts_right t false.
Proof.
  intros Ht L R m ls rs p Hp.
  assert (Hm : forall l r, l ∈ ls -> r ∈ rs -> p r && reading false m l r = reading false m l r).
  { intros l r Hl Hr. by apply restricted_reading, Hp. }
  assert (Hmatch : forall l, l ∈ ls ->
    has_match (reading false m) (List.filter p rs) l = has_match (reading false m) rs l).
  { intros l Hl. apply has_match_filtered. intros r Hr. by apply Hm. }
  assert (Hpairs := pairs_restricted_right (reading false m) ls rs p Hm).
  rewrite !elem_of_cons, elem_of_nil in Ht.
  destruct Ht as [->|[->|[->|[->|[->|[->|[->|[->|[]]]]]]]]]; cbn [join_rows];
    rewrite ?Hpairs, ?(counting_filtered_right (reading false m)) by done; try done.
  - f_equal. f_equal. apply filter_ext_elem. intros l Hl. by rewrite Hmatch.
  - f_equal. apply filter_ext_elem. intros l Hl. by rewrite Hmatch.
  - f_equal. apply (matched_restricted (fun r l => reading false m l r)). auto.
  - apply List.map_ext_in. intros l Hl%list_elem_of_In. unfold marked. by rewrite Hmatch.
  - f_equal. apply filter_ext_elem. intros l Hl. by rewrite Hmatch.
Qed.

Lemma propagates_left t :
  t ∈ [kInner; kRight; kLeftSemiFilter; kCountingLeftSemiFilter; kRightSemiFilter;
       kRightSemiProject; kRightAnti] -> restricts_left t false.
Proof.
  intros Ht L R m ls rs p Hp.
  assert (Hm : forall l r, l ∈ ls -> r ∈ rs -> p l && reading false m l r = reading false m l r).
  { intros l r Hl Hr. by apply restricted_reading, Hp. }
  assert (Hmatch : forall r, r ∈ rs ->
    has_match (fun r l => reading false m l r) (List.filter p ls) r =
    has_match (fun r l => reading false m l r) ls r).
  { intros r Hr. apply has_match_filtered. intros l Hl. by apply Hm. }
  assert (Hpairs := pairs_restricted_left (reading false m) ls rs p Hm).
  rewrite !elem_of_cons, elem_of_nil in Ht.
  destruct Ht as [->|[->|[->|[->|[->|[->|[->|[]]]]]]]]; cbn [join_rows];
    rewrite ?Hpairs, ?(counting_restricted (reading false m)) by done; try done.
  - f_equal. f_equal. apply filter_ext_elem. intros r Hr. by rewrite Hmatch.
  - f_equal. by apply matched_restricted.
  - f_equal. apply filter_ext_elem. intros r Hr. by rewrite Hmatch.
  - apply List.map_ext_in. intros r Hr%list_elem_of_In. simpl. unfold marked. by rewrite Hmatch.
  - f_equal. apply filter_ext_elem. intros r Hr. by rewrite Hmatch.
Qed.

Lemma matched_in {L R} (m : L -> R -> bool) ls rs l :
  l ∈ matched m ls rs -> l ∈ ls /\ exists r, r ∈ rs /\ m l r = true.
Proof. intros [Hl Hh]%list_elem_of_In%filter_In. by apply has_match_elem in Hh; rewrite list_elem_of_In. Qed.

Lemma matched_row {L R} (m : L -> R -> option bool) (ls : list L) (rs : list R) (row : Joins.Row L R) l r :
  l ∈ ls -> r ∈ rs -> reading false m l r = true ->
  row = pair_row l r \/ row = row_of_left l \/ row = row_of_right r ->
  exists l r, l ∈ ls /\ r ∈ rs /\ m l r = Some true /\
    (forall l', row_left row = Some l' -> l' = l) /\ (forall r', row_right row = Some r' -> r' = r).
Proof.
  intros Hl Hr Hm Hrow. exists l, r. split; [done|]. split; [done|]. split; [by apply reading_true|].
  destruct Hrow as [->|[->| ->]]; split; by intros ? [= <-].
Qed.

Lemma emits_matched t :
  t ∈ [kInner; kLeftSemiFilter; kCountingLeftSemiFilter; kRightSemiFilter] -> only_matched t false.
Proof.
  intros Ht L R m ls rs row Hrow. rewrite !elem_of_cons, elem_of_nil in Ht.
  destruct Ht as [->|[->|[->|[->|[]]]]]; cbn [join_rows] in Hrow.
  - unfold pairs, pairs_of in Hrow.
    apply list_elem_of_In, in_flat_map in Hrow as (l & Hl & (r & <- & [Hr Hm]%filter_In)%in_map_iff).
    apply (matched_row m ls rs _ l r); [by apply list_elem_of_In..|done|auto].
  - apply list_elem_of_In, in_map_iff in Hrow as (l & <- & Hin%list_elem_of_In).
    apply matched_in in Hin as (? & r & ? & ?). apply (matched_row m ls rs _ l r); auto.
  - apply list_elem_of_In, in_map_iff in Hrow as (l & <- & Hin%list_elem_of_In).
    apply counting_matched in Hin as (r & ? & ? & ?). apply (matched_row m ls rs _ l r); auto.
  - apply list_elem_of_In, in_map_iff in Hrow as (r & <- & Hin%list_elem_of_In).
    apply matched_in in Hin as (? & l & ? & ?). apply (matched_row m ls rs _ l r); auto.
Qed.

(** Rows without a match: one of each side, and one whose match is unknown. *)
Lemma not_restricts_right t nullAware :
  length (join_rows t (reading nullAware (fun _ _ => Some true)) ([] : list unit) ([] : list unit)) <>
    length (join_rows t (reading nullAware (fun _ _ => Some true)) ([] : list unit) [()]) \/
  join_rows t (reading nullAware (fun _ _ => None)) [()] ([] : list unit) <>
    join_rows t (reading nullAware (fun _ _ => None)) [()] [()] ->
  ~ restricts_right t nullAware.
Proof.
  intros Hne Hr. destruct Hne as [Hne|Hne]; apply Hne.
  - f_equal. apply (Hr unit unit (fun _ _ => Some true) [] [()] (fun _ => false)).
    by intros ? ? ?%not_elem_of_nil.
  - by apply (Hr unit unit (fun _ _ => None) [()] [()] (fun _ => false)).
Qed.

Lemma not_restricts_left t nullAware :
  length (join_rows t (reading nullAware (fun _ _ => Some true)) ([] : list unit) ([] : list unit)) <>
    length (join_rows t (reading nullAware (fun _ _ => Some true)) [()] ([] : list unit)) \/
  join_rows t (reading nullAware (fun _ _ => None)) ([] : list unit) [()] <>
    join_rows t (reading nullAware (fun _ _ => None)) [()] [()] ->
  ~ restricts_left t nullAware.
Proof.
  intros Hne Hr. destruct Hne as [Hne|Hne]; apply Hne.
  - f_equal. apply (Hr unit unit (fun _ _ => Some true) [()] [] (fun _ => false)).
    by intros ? ? ? ?%not_elem_of_nil.
  - by apply (Hr unit unit (fun _ _ => None) [()] [()] (fun _ => false)).
Qed.

Lemma not_only_matched t nullAware :
  join_rows t (reading nullAware (fun _ _ => Some true)) [()] ([] : list unit) <> [] \/
  join_rows t (reading nullAware (fun _ _ => Some true)) ([] : list unit) [()] <> [] ->
  ~ only_matched t nullAware.
Proof.
  intros Hne Hr. destruct Hne as [Hne|Hne].
  - destruct (join_rows t _ [()] []) as [|row rows] eqn:Hj; [done|].
    destruct (Hr unit unit (fun _ _ => Some true) [()] [] row) as (? & ? & _ & Hin & _).
    + rewrite Hj. by left.
    + by apply not_elem_of_nil in Hin.
  - destruct (join_rows t _ [] [()]) as [|row rows] eqn:Hj; [done|].
    destruct (Hr unit unit (fun _ _ => Some true) [] [()] row) as (? & ? & Hin & _).
    + rewrite Hj. by left.
    + by apply not_elem_of_nil in Hin.
Qed.

(** C18: [filterPropagation] allows exactly the directions that are safe: restricting the
    right rows by a predicate that holds on all of them that match changes nothing, for
    every input, if and only if [leftToRight]; likewise for the left rows; and each row
    that is emitted comes from a match if and only if [emitsOnlyMatchedRows]. *)
Theorem filterPropagation_exact t nullAware :
  t <> kNumJoinTypes -> (nullAware = true -> admitsNullAware t = true) ->
  exists f, JoinPredicatePlacement.filterPropagation t nullAware = Ok f /\
    (JoinPredicatePlacement.leftToRight f = true <-> restricts_right t nullAware) /\
    (JoinPredicatePlacement.rightToLeft f = true <-> restricts_left t nullAware) /\
    (JoinPredicatePlacement.emitsOnlyMatchedRows f = true <-> only_matched t nullAware).
Proof.
  intros Ht Haware.
  assert (Hf : exists f, JoinPredicatePlacement.filterPropagation t nullAware = Ok f) by (destruct t; eauto; done).
  destruct Hf as [f Hf]. exists f. split; [done|].
  destruct nullAware; [specialize (Haware eq_refl)|clear Haware];
    destruct t; try done; injection Hf as <-; simpl;
    (split; [|split]; (split; [intros Htrue|intros Hsafe]; try done;
      first [apply propagates_right|apply propagates_left|apply emits_matched|exfalso]; try set_solver));
    first [revert Hsafe; apply not_restricts_right|revert Hsafe; apply not_restricts_left
          |revert Hsafe; apply not_only_matched]; vm_compute; first [by left|by right].
Qed.

(** A null-aware anti join may not lose right rows whose match is unknown; a left
    join may, and may not lose left rows. *)
Lemma filterPropagation_exact_witness :
  ~ restricts_right kAnti true /\ restricts_right kLeft false /\ ~ restricts_left kLeft false.
Proof.
  destruct (filterPropagation_exact kAnti true) as (f & [= <-] & Hanti & _); [done..|].
  destruct (filterPropagation_exact kLeft false) as (f & [= <-] & Hr & Hl & _); [done..|].
  simpl in *. split; [intros Hs; by apply Hanti in Hs|]. split; [by apply Hr|].
  intros Hs. by apply Hl in Hs.
Defined.
