(* ===== verification/JoinRouting.v ===== *)
(** * Routing predicates around a join

    The rows of a join with keys, a filter, predicates above it and predicates on its
    inputs; and the theorem that [JoinPredicatePlacement::route] keeps them, for every
    join type.

    Rows are maps of column ids to values; the comparison of keys is a parameter, the
    equality of values that are not [NULL] unless the join matches [NULL] keys.  The mark
    of a semi-project join is a column of its own. *)

From Stdlib Require Import ZArith Lia.
From S2P Require Import Prelude Joins Domains DomainSets Expressions ExprDomains SqlSemantics Builders ExprFactories ExprSimplifiers FilterSimplifiers ImpliedFilters JoinPlacements.

Local Open Scope nat_scope.
Set Warnings "-register-all".

Section Routing.
Context {T V : Type} `{TypedValues T V} `{FunctionRegistry} `{!VariantEq V}.
Context (functionNames : FunctionNames) (types : gmap nat T)
  (eval : Expr T V -> SqlSemantics.Row V -> option V)
  (less : V -> V -> bool) (reversed : string -> option string)
  (constant : Expr T V -> option (V * T)) (maxPlanObjects : nat).
Context (Heval : EvalLaws functionNames types eval less reversed constant)
  (Hreversed : reversible_ok functionNames reversed)
  (Hfull : full_registry functionNames = true) (isCountingJoin : JoinType -> bool).
Abbreviation Row := (SqlSemantics.Row V).
Abbreviation Expr := (Expr T V).
Abbreviation Keys := (Expr * Expr)%type.
Abbreviation boolean_expr := (boolean_expr functionNames types).
Abbreviation passes := (passes eval).
Abbreviation accepts := (accepts eval).
Abbreviation filtered_rows := (filtered_rows eval).
Abbreviation keys_equal := (keys_equal eval).
Abbreviation key_pair := (key_pair functionNames types).
Abbreviation row_of := (row_of types).
Abbreviation Routed := (JoinPredicatePlacement.Routed (T:=T) (V:=V)).
Abbreviation F f := (f maxPlanObjects reversed).

(** ** The rows of a join *)

Section Rows.
Variable same_key : option V -> option V -> bool.

Definition keys_match (r : Row) (p : Keys) : bool := same_key (eval p.1 r) (eval p.2 r).

(** The condition of a join. *)
Definition matches (keys : list Keys) (filter : list Expr) (x y : Row) : bool :=
  forallb (keys_match (x ∪ y)) keys && forallb (accepts (x ∪ y)) filter.

(** A row the join emits, the mark in a column. *)
Definition mark_row (mark : nat) (z : option bool) : Row :=
  match z with Some b => {[mark := of_bool b]} | None => ∅ end.

Definition output_row (mark : nat) (row : Joins.Row Row Row) : Row :=
  default ∅ (row_left row) ∪ default ∅ (row_right row) ∪ mark_row mark row.2.

(** The predicates [above] over a join of two inputs. *)
Definition join_output (t : JoinType) (mark : nat) (keys : list Keys) (filter above : list Expr)
    (xs ys : list Row) : list (Joins.Row Row Row) :=
  List.filter (fun row => forallb (accepts (output_row mark row)) above)
    (join_rows t (matches keys filter) xs ys).
End Rows.

(** ** Keys of a condition *)

Section Sides.
Context (leftColumns rightColumns : gset nat).

(** Both keys are on their side. *)
Definition keys_on_sides (p : Keys) : Prop :=
  on_columns leftColumns p.1 /\ on_columns rightColumns p.2.

Lemma isSubset_on_columns (e : Expr) set :
  isSubset (Expr.columns e) set = true <-> on_columns set e.
Proof.
  unfold ImpliedFilters.isSubset, on_columns. rewrite forallb_forall.
  setoid_rewrite bool_decide_eq_true. by setoid_rewrite list_elem_of_In.
Qed.

Lemma only_on_columns (e : Expr) set :
  JoinPredicatePlacement.only (Expr.columns e) set = true -> on_columns set e.
Proof. unfold JoinPredicatePlacement.only. by intros [_ ?%isSubset_on_columns]%andb_true_iff. Qed.

(** An equality compares values of a primitive type. *)
Definition comparable (e : Expr) : bool :=
  match e with
  | CallExpr name args _ _ _ =>
      negb (name_is (Some name) (equality functionNames)) || forallb primitive args
  | _ => true
  end.

Lemma split_key_spec (b : Builder T V) e p :
  arena_ok b -> valid b e -> boolean_expr e -> comparable e = true ->
  JoinCondition.split_key functionNames leftColumns rightColumns e = Some p ->
  key_pair b p /\ keys_on_sides p /\ Expr.containsNonDeterministic e = false /\
  forall r, row_ok types r -> passes r e <-> keys_equal r p.
Proof.
  intros Hb Hv [Ht _] Hcomp Hs. destruct e as [| |name args t fs i| | |]; try done.
  destruct args as [|lhs [|rhs [|]]]; try done. unfold JoinCondition.split_key in Hs.
  destruct (name_is (Some name) (equality functionNames)) eqn:Hname; [|done].
  unfold comparable in Hcomp. rewrite Hname in Hcomp. cbn [negb orb forallb] in Hs, Hcomp.
  destruct (Expr.containsNonDeterministic _) eqn:Hnd; [done|].
  unfold name_is in Hname. apply bool_decide_eq_true in Hname.
  rewrite !andb_true_iff in Hcomp. destruct Hcomp as (Hp1 & Hp2 & _).
  pose proof (valid_children _ _ Hb Hv) as Hch. simpl in Hch.
  inversion Hch as [|? ? Hv1 Hch2]; inversion Hch2 as [|? ? Hv2 _]; subst.
  assert (Hclass : classify functionNames name = CompareName).
  { apply (classify_registered functionNames Hfull name CompareName). unfold name_classes.
    rewrite Hname. by left. }
  simpl in Ht. unfold well_formed_call in Ht. rewrite Hclass in Ht. rewrite !andb_true_iff in Ht.
  destruct Ht as [[Ht1 [Ht2 _]] [_ [_ Hsame]]]. simpl in Hsame. rewrite andb_true_r in Hsame.
  assert (Hpair : key_pair b (lhs, rhs)).
  { split; cbn [fst snd]; try done. by apply equivalent_sym. }
  assert (Hpass : forall r, row_ok types r -> passes r (CallExpr name [lhs; rhs] t fs i) <-> keys_equal r (lhs, rhs)).
  { intros r Hr. apply (passes_equality functionNames types eval less reversed constant Heval); try done.
    by apply equivalent_sym. }
  destruct (_ || _); [done|].
  destruct (isSubset (Expr.columns lhs) leftColumns && isSubset (Expr.columns rhs) rightColumns) eqn:Hsides.
  - injection Hs as <-. rewrite andb_true_iff, !isSubset_on_columns in Hsides. done.
  - destruct (isSubset (Expr.columns lhs) rightColumns && isSubset (Expr.columns rhs) leftColumns) eqn:Hsides';
      [|discriminate Hs]. injection Hs as <-.
    rewrite andb_true_iff, !isSubset_on_columns in Hsides'. split; [|split; [|split]].
    + split; cbn [fst snd]; done.
    + by split; apply Hsides'.
    + done.
    + intros r Hr. rewrite Hpass by done. unfold ImpliedFilters.keys_equal. cbn [fst snd]. naive_solver.
Qed.

Abbreviation split := (JoinCondition.Split (T:=T) (V:=V)).
Abbreviation splitKeys s := (zip (JoinCondition.leftKeys s) (JoinCondition.rightKeys s)).

(** The conjuncts [done] as keys and a residual. *)
Record splits (b : Builder T V) (done : list Expr) (s : split) : Prop := {
  split_lengths : length (JoinCondition.leftKeys s) = length (JoinCondition.rightKeys s);
  split_pairs : Forall (key_pair b) (splitKeys s);
  split_sides : Forall keys_on_sides (splitKeys s);
  split_residual e : e ∈ JoinCondition.residual s -> e ∈ done;
  split_rest e : e ∈ done -> Expr.containsNonDeterministic e = true -> e ∈ JoinCondition.residual s;
  split_same r : row_ok types r ->
    Forall (passes r) done <->
    Forall (keys_equal r) (splitKeys s) /\ Forall (passes r) (JoinCondition.residual s)
}.

Lemma splitEquiKeys_spec (b : Builder T V) conjuncts :
  arena_ok b -> Forall (fun e => valid b e /\ boolean_expr e /\ comparable e = true) conjuncts ->
  splits b conjuncts
    (JoinCondition.splitEquiKeys functionNames conjuncts leftColumns rightColumns).
Proof.
  intros Hb Hes. unfold JoinCondition.splitEquiKeys.
  assert (Hgen : forall done s, splits b done s -> splits b (done ++ conjuncts)
    (foldl (JoinCondition.split_conjunct functionNames leftColumns rightColumns) s conjuncts)).
  { induction Hes as [|e es (Hv & Hbool & Hcomp) _ IH]; intros done s Hs; simpl; [by rewrite app_nil_r|].
    replace (done ++ e :: es) with ((done ++ [e]) ++ es) by by rewrite <- app_assoc.
    apply IH. clear IH. destruct Hs as [Hlen Hp Hside Hres Hrest Hsame].
    unfold JoinCondition.split_conjunct.
    destruct (JoinCondition.split_key functionNames leftColumns rightColumns e) as [[l r]|] eqn:Hk.
    - destruct (split_key_spec b e (l, r) Hb Hv Hbool Hcomp Hk) as (Hkp & Hks & Hnd & Heq).
      split; cbn [JoinCondition.leftKeys JoinCondition.rightKeys JoinCondition.residual].
      + rewrite !length_app. simpl. lia.
      + rewrite zip_with_app by done. apply Forall_app. split; [done|]. by constructor.
      + rewrite zip_with_app by done. apply Forall_app. split; [done|]. by constructor.
      + intros x Hx. apply elem_of_app. left. by apply Hres.
      + intros x [Hx| ->%list_elem_of_singleton]%elem_of_app Hx'; [by apply Hrest|congruence].
      + intros row Hrow. rewrite zip_with_app, !Forall_app, Hsame by done. simpl.
        rewrite !Forall_singleton, (Heq row Hrow). tauto.
    - split; cbn [JoinCondition.leftKeys JoinCondition.rightKeys JoinCondition.residual]; try done.
      + intros x [Hx|Hx]%elem_of_app; apply elem_of_app; [left; by apply Hres|by right].
      + intros x [Hx|Hx]%elem_of_app Hx'; apply elem_of_app; [left; by apply Hrest|by right].
      + intros row Hrow. rewrite !Forall_app, Hsame by done. tauto. }
  apply (Hgen []). by split.
Qed.

(** ** Where conjuncts go *)

Definition side_condition (set : gset nat) (b : Builder T V) (e : Expr) : Prop :=
  valid b e /\ boolean_expr e /\ on_columns set e.

Lemma side_conditions_extend set b b' es :
  extends b b' -> Forall (side_condition set b) es -> Forall (side_condition set b') es.
Proof.
  intros Hext Hes. eapply Forall_impl; [exact Hes|]. intros e (? & ? & ?).
  split; [by eapply valid_extends|done].
Qed.

(** A condition of the join may be evaluated by the input. *)
Definition left_target (t : JoinType) : Prop :=
  JoinPredicatePlacement.filterTarget t true false = Ok JoinPredicatePlacement.kLeft.
Definition right_target (t : JoinType) : Prop :=
  JoinPredicatePlacement.filterTarget t false true = Ok JoinPredicatePlacement.kRight.

Lemma left_target_sides t s :
  left_target t -> preservedSides t = Ok s -> t = kInner \/ left_ s = false /\ t <> kFull.
Proof. destruct t; try done; intros _ [= <-]; auto. Qed.

Lemma right_target_sides t s :
  right_target t -> preservedSides t = Ok s -> t = kInner \/ right_ s = false /\ t <> kFull.
Proof. destruct t; try done; intros _ [= <-]; auto. Qed.

(** Where the conjuncts above the join go: to the inputs, above the join and into its
    condition. *)
Record distributes (t : JoinType) (pending lefts rights above candidates : list Expr) : Prop := {
  distributes_all (P : Expr -> Prop) :
    Forall P pending <-> Forall P lefts /\ Forall P rights /\ Forall P above /\ Forall P candidates;
  distributes_left e : e ∈ lefts -> left_ <$> preservedSides t = Ok true /\ on_columns leftColumns e;
  distributes_right e : e ∈ rights -> right_ <$> preservedSides t = Ok true /\ on_columns rightColumns e;
  distributes_candidates e : e ∈ candidates -> t = kInner;
  distributes_single e : e ∈ lefts \/ e ∈ rights -> Expr.containsNonDeterministic e = false
}.

Lemma distributes_in t pending lefts rights above candidates e :
  distributes t pending lefts rights above candidates -> e ∈ pending ->
  e ∈ lefts \/ e ∈ rights \/ e ∈ above \/ e ∈ candidates.
Proof.
  intros Hd He.
  assert (Hall : Forall (fun e => e ∈ lefts \/ e ∈ rights \/ e ∈ above \/ e ∈ candidates) pending).
  { apply (distributes_all _ _ _ _ _ _ Hd). rewrite !Forall_forall. tauto. }
  rewrite Forall_forall in Hall. by apply Hall.
Qed.

Lemma distributes_left_in t pending lefts rights above candidates e :
  distributes t pending lefts rights above candidates -> e ∈ lefts -> e ∈ pending.
Proof.
  intros Hd He. assert (Hall : Forall (fun e => e ∈ pending) pending) by by apply Forall_forall.
  apply (distributes_all _ _ _ _ _ _ Hd) in Hall as [Hall _]. rewrite Forall_forall in Hall. by apply Hall.
Qed.

Lemma canPush_spec t s leftOnly rightOnly :
  preservedSides t = Ok s ->
  JoinPredicatePlacement.canPushLeft t leftOnly = Ok (leftOnly && left_ s) /\
  JoinPredicatePlacement.canPushRight t rightOnly = Ok (rightOnly && right_ s).
Proof.
  unfold JoinPredicatePlacement.canPushLeft, JoinPredicatePlacement.canPushRight. intros ->.
  by destruct leftOnly, rightOnly.
Qed.

(** [result] with some conjuncts more, in the order of the groups. *)
Definition add_groups (lefts rights above : list Expr) (result : Routed) : Routed :=
  JoinPredicatePlacement.addAbove above
    (JoinPredicatePlacement.addRight rights (JoinPredicatePlacement.addLeft lefts result)).

Lemma add_groups_app ls rs above ls' rs' above' result :
  add_groups ls' rs' above' (add_groups ls rs above result) =
  add_groups (ls ++ ls') (rs ++ rs') (above ++ above') result.
Proof.
  unfold add_groups, JoinPredicatePlacement.addAbove, JoinPredicatePlacement.addRight,
    JoinPredicatePlacement.addLeft. simpl. by rewrite !app_assoc.
Qed.

Lemma add_groups_nil result : add_groups [] [] [] result = result.
Proof.
  destruct result. unfold add_groups, JoinPredicatePlacement.addAbove, JoinPredicatePlacement.addRight,
    JoinPredicatePlacement.addLeft. simpl. by rewrite !app_nil_r.
Qed.

Lemma add_one e result :
  JoinPredicatePlacement.addLeft [e] result = add_groups [e] [] [] result /\
  JoinPredicatePlacement.addRight [e] result = add_groups [] [e] [] result /\
  JoinPredicatePlacement.addAbove [e] result = add_groups [] [] [e] result.
Proof.
  unfold add_groups, JoinPredicatePlacement.addAbove, JoinPredicatePlacement.addRight,
    JoinPredicatePlacement.addLeft. simpl. by rewrite !app_nil_r.
Qed.

Lemma distributes_cons t e pending ls rs above cs ls' rs' above' cs' :
  distributes t [e] ls' rs' above' cs' -> distributes t pending ls rs above cs ->
  distributes t (e :: pending) (ls' ++ ls) (rs' ++ rs) (above' ++ above) (cs' ++ cs).
Proof.
  intros [Hall1 Hl1 Hr1 Hc1 Hs1] [Hall2 Hl2 Hr2 Hc2 Hs2]. split.
  - intros P. specialize (Hall1 P). specialize (Hall2 P).
    rewrite Forall_singleton in Hall1. rewrite Forall_cons, !Forall_app. tauto.
  - intros x [Hx|Hx]%elem_of_app; auto.
  - intros x [Hx|Hx]%elem_of_app; auto.
  - intros x [Hx|Hx]%elem_of_app; eauto.
  - intros x [[Hx|Hx]%elem_of_app|[Hx|Hx]%elem_of_app]; auto.
Qed.

Ltac one_conjunct :=
  split;
  [ intros ?; rewrite ?Forall_singleton; split; [intros ?; repeat split; auto|tauto]
  | intros ?; rewrite ?list_elem_of_singleton, ?elem_of_nil; try done; intros ->
  | intros ?; rewrite ?list_elem_of_singleton, ?elem_of_nil; try done; intros ->
  | intros ?; rewrite ?list_elem_of_singleton, ?elem_of_nil; try done
  | intros ?; rewrite ?list_elem_of_singleton, ?elem_of_nil; intros [?|?]; try done; subst ].

Lemma route_pending_spec t pending (result : Routed) candidates :
  t <> kNumJoinTypes -> exists lefts rights above cs,
    distributes t pending lefts rights above cs /\
    JoinPredicatePlacement.route_pending t leftColumns rightColumns pending result candidates =
    Ok (add_groups lefts rights above result, candidates ++ cs).
Proof.
  intros Ht. revert result candidates. induction pending as [|e pending IH]; intros result candidates.
  { exists [], [], [], []. rewrite add_groups_nil, app_nil_r. split; [|done].
    split; [|by intros e ?%not_elem_of_nil..|intros e [?%not_elem_of_nil|?%not_elem_of_nil]; done].
    intros P. split; [intros _; by repeat split|done]. }
  assert (Hs : exists s, preservedSides t = Ok s) by (destruct t; try done; by eexists).
  destruct Hs as [s Hs]. cbn [JoinPredicatePlacement.route_pending].
  set (leftOnly := JoinPredicatePlacement.only (Expr.columns e) leftColumns).
  set (rightOnly := JoinPredicatePlacement.only (Expr.columns e) rightColumns).
  destruct (canPush_spec t s leftOnly rightOnly Hs) as [-> ->]. cbn [mbind Result_bind].
  assert (Hstep : forall ls rs above cs, distributes t [e] ls rs above cs ->
    exists lefts rights above' cs', distributes t (e :: pending) lefts rights above' cs' /\
      JoinPredicatePlacement.route_pending t leftColumns rightColumns pending
        (add_groups ls rs above result) (candidates ++ cs) =
      Ok (add_groups lefts rights above' result, candidates ++ cs')).
  { intros ls rs above cs He.
    destruct (IH (add_groups ls rs above result) (candidates ++ cs)) as (ls' & rs' & above' & cs' & Hd & ->).
    rewrite add_groups_app, <- app_assoc. exists (ls ++ ls'), (rs ++ rs'), (above ++ above'), (cs ++ cs').
    split; [by apply distributes_cons|done]. }
  destruct (add_one e result) as (Hleft & Hright & Habove). rewrite Hleft, Hright, Habove.
  destruct (_ && _) eqn:Hnd.
  { specialize (Hstep [] [] [e] []). rewrite app_nil_r in Hstep. apply Hstep. one_conjunct. }
  assert (Hsingle : leftOnly || rightOnly = true -> Expr.containsNonDeterministic e = false).
  { intros Hone. by rewrite Hone, andb_true_r in Hnd. }
  destruct (leftOnly && left_ s) eqn:Hl.
  { specialize (Hstep [e] [] [] []). rewrite app_nil_r in Hstep. apply Hstep.
    apply andb_true_iff in Hl as [Hl Hp]. one_conjunct.
    - rewrite Hs. simpl. rewrite Hp. split; [done|]. by apply only_on_columns.
    - apply Hsingle. by rewrite Hl. }
  destruct (rightOnly && right_ s) eqn:Hr.
  { specialize (Hstep [] [e] [] []). rewrite app_nil_r in Hstep. apply Hstep.
    apply andb_true_iff in Hr as [Hr Hp]. one_conjunct.
    - rewrite Hs. simpl. rewrite Hp. split; [done|]. by apply only_on_columns.
    - apply Hsingle. by rewrite Hr, orb_true_r. }
  case_bool_decide as Hinner.
  - specialize (Hstep [] [] [] [e]). rewrite add_groups_nil in Hstep. apply Hstep. one_conjunct.
  - specialize (Hstep [] [] [e] []). rewrite app_nil_r in Hstep. apply Hstep. one_conjunct.
Qed.

(** ** What is routed *)

Section Stages.
Variable same_key : option V -> option V -> bool.
Context (t : JoinType) (join : Join T V) (leftInput rightInput lefts rights above : list Expr).
Hypothesis Ht : t <> kNumJoinTypes.
Abbreviation matched r p := (keys_match same_key r p = true).
Abbreviation keys r :=
  (zip (JoinPredicatePlacement.routedLeftKeys r) (JoinPredicatePlacement.routedRightKeys r)).
Abbreviation joinKeys := (zip (leftKeys join) (rightKeys join)).
Abbreviation joinPredicates := JoinPredicatePlacement.joinPredicates.

(** The conditions [conds] of the join are placed, but for those in [rest]: as keys, as
    predicates of the join, and, in [jls] and [jrs], as predicates of its inputs. *)
Record routing (b : Builder T V) (conds rest jls jrs : list Expr) (r : Routed) : Prop := {
  routing_left : JoinPredicatePlacement.leftInputPredicates r = leftInput ++ lefts ++ jls;
  routing_right : JoinPredicatePlacement.rightInputPredicates r = rightInput ++ rights ++ jrs;
  routing_above : JoinPredicatePlacement.aboveJoinPredicates r = above;
  routing_left_ok : Forall (side_condition leftColumns b) jls;
  routing_right_ok : Forall (side_condition rightColumns b) jrs;
  routing_left_target : jls <> [] -> left_target t;
  routing_right_target : jrs <> [] -> right_target t;
  routing_lengths : length (JoinPredicatePlacement.routedLeftKeys r) =
                    length (JoinPredicatePlacement.routedRightKeys r);
  routing_keys : Forall (key_pair b) (keys r);
  routing_key_sides : Forall keys_on_sides (keys r);
  routing_join : Forall (fun e => valid b e /\ boolean_expr e) (joinPredicates r);
  routing_volatile e : e ∈ conds -> Expr.containsNonDeterministic e = true ->
    e ∈ joinPredicates r ++ rest;
  routing_same row : row_ok types row ->
    Forall (fun p => matched row p) (keys r) /\
      (Forall (passes row) (joinPredicates r) /\ Forall (passes row) rest) /\
      (Forall (passes row) jls /\ Forall (passes row) jrs) <->
    Forall (fun p => matched row p) joinKeys /\ Forall (passes row) conds
}.

Lemma routing_extends b b' conds rest jls jrs r :
  extends b b' -> routing b conds rest jls jrs r -> routing b' conds rest jls jrs r.
Proof.
  intros Hext []. split; try done.
  - by eapply side_conditions_extend.
  - by eapply side_conditions_extend.
  - by eapply key_pairs_extend.
  - eapply Forall_impl; [eassumption|]. intros e [? ?]. split; [by eapply valid_extends|done].
Qed.

(** [r] with conditions more for the inputs and the join. *)
Definition add_conditions (ls rs js : list Expr) (r : Routed) : Routed :=
  JoinPredicatePlacement.addJoin js
    (JoinPredicatePlacement.addRight rs (JoinPredicatePlacement.addLeft ls r)).

Lemma routing_add b conds rest jls jrs r ls rs js conds' :
  routing b conds rest jls jrs r ->
  Forall (side_condition leftColumns b) ls -> (ls <> [] -> left_target t) ->
  Forall (side_condition rightColumns b) rs -> (rs <> [] -> right_target t) ->
  Forall (fun e => valid b e /\ boolean_expr e) js ->
  (forall e, e ∈ conds' -> Expr.containsNonDeterministic e = true -> e ∈ conds ++ js) ->
  (forall row, row_ok types row ->
     (Forall (fun p => matched row p) joinKeys /\ Forall (passes row) conds) /\
     Forall (passes row) ls /\ Forall (passes row) rs /\ Forall (passes row) js <->
     Forall (fun p => matched row p) joinKeys /\ Forall (passes row) conds') ->
  routing b conds' rest (jls ++ ls) (jrs ++ rs) (add_conditions ls rs js r).
Proof.
  intros [] Hls Hlt Hrs Hrt Hjs Hvol Hsame. unfold add_conditions.
  split; cbn [JoinPredicatePlacement.addLeft JoinPredicatePlacement.addRight JoinPredicatePlacement.addJoin
    JoinPredicatePlacement.leftInputPredicates JoinPredicatePlacement.rightInputPredicates
    JoinPredicatePlacement.aboveJoinPredicates JoinPredicatePlacement.routedLeftKeys
    JoinPredicatePlacement.routedRightKeys JoinPredicatePlacement.joinPredicates]; try done.
  - rewrite routing_left0. by rewrite !app_assoc.
  - rewrite routing_right0. by rewrite !app_assoc.
  - by apply Forall_app.
  - by apply Forall_app.
  - destruct jls; [done|]. intros _. by apply routing_left_target0.
  - destruct jrs; [done|]. intros _. by apply routing_right_target0.
  - by apply Forall_app.
  - intros e He Hnd. apply (Hvol e He) in Hnd as Hin. apply elem_of_app in Hin as [Hin|Hin].
    + specialize (routing_volatile0 e Hin Hnd). clear -routing_volatile0. set_solver.
    + clear -Hin. set_solver.
  - intros row Hrow. rewrite !Forall_app, <- Hsame, <- routing_same0 by done. tauto.
Qed.

Lemma filterTarget_spec leftOnly rightOnly : exists target,
  JoinPredicatePlacement.filterTarget t leftOnly rightOnly = Ok target /\
  match target with
  | JoinPredicatePlacement.kLeft => leftOnly = true /\ left_target t
  | JoinPredicatePlacement.kRight => rightOnly = true /\ right_target t
  | JoinPredicatePlacement.kKeep => True
  end.
Proof. unfold left_target, right_target. destruct t, leftOnly, rightOnly; try done; by eexists. Qed.

Lemma add_conditions_one e r :
  JoinPredicatePlacement.addLeft [e] r = add_conditions [e] [] [] r /\
  JoinPredicatePlacement.addRight [e] r = add_conditions [] [e] [] r /\
  JoinPredicatePlacement.addJoin [e] r = add_conditions [] [] [e] r.
Proof.
  unfold add_conditions, JoinPredicatePlacement.addJoin, JoinPredicatePlacement.addRight,
    JoinPredicatePlacement.addLeft. simpl. by rewrite !app_nil_r.
Qed.

Lemma route_filter_spec b conds rest jls jrs r filter :
  routing b conds rest jls jrs r -> Forall (fun e => valid b e /\ boolean_expr e) filter ->
  exists jls' jrs' r',
    JoinPredicatePlacement.route_filter t leftColumns rightColumns filter r = Ok r' /\
    routing b (conds ++ filter) rest jls' jrs' r'.
Proof.
  intros Hr Hes. revert conds jls jrs r Hr.
  induction Hes as [|e es [Hv Hbool] _ IH]; intros conds jls jrs r Hr; cbn [JoinPredicatePlacement.route_filter].
  { exists jls, jrs, r. by rewrite app_nil_r. }
  destruct (add_conditions_one e r) as (Hl & Hr' & Hj). rewrite Hl, Hr', Hj.
  assert (Hstep : forall ls rs js, [e] = ls ++ rs ++ js ->
    Forall (side_condition leftColumns b) ls -> (ls <> [] -> left_target t) ->
    Forall (side_condition rightColumns b) rs -> (rs <> [] -> right_target t) ->
    (Expr.containsNonDeterministic e = true -> js = [e]) ->
    exists jls' jrs' r',
      JoinPredicatePlacement.route_filter t leftColumns rightColumns es (add_conditions ls rs js r) = Ok r' /\
      routing b (conds ++ e :: es) rest jls' jrs' r').
  { intros ls rs js Hone Hls Hlt Hrs Hrt Hvol.
    replace (conds ++ e :: es) with ((conds ++ [e]) ++ es) by by rewrite <- app_assoc.
    eapply IH, routing_add; [exact Hr|done..| | |].
    - apply Forall_forall. intros x Hx. assert (x ∈ [e]) as ->%list_elem_of_singleton; [|done].
      rewrite Hone. clear -Hx. set_solver.
    - intros x [Hx| ->%list_elem_of_singleton]%elem_of_app Hnd; apply elem_of_app; [by left|right].
      rewrite (Hvol Hnd). by left.
    - intros row _. rewrite Forall_app, Hone, !Forall_app. tauto. }
  destruct (Expr.containsNonDeterministic e) eqn:Hnd; [by apply Hstep|].
  destruct (filterTarget_spec (JoinPredicatePlacement.only (Expr.columns e) leftColumns)
    (JoinPredicatePlacement.only (Expr.columns e) rightColumns)) as (target & -> & Htarget).
  cbn [mbind Result_bind]. destruct target.
  - by apply Hstep.
  - destruct Htarget as [Ho Hlt]. apply Hstep; try done. apply Forall_singleton.
    split; [done|]. split; [done|]. by apply only_on_columns.
  - destruct Htarget as [Ho Hrt]. apply Hstep; try done. apply Forall_singleton.
    split; [done|]. split; [done|]. by apply only_on_columns.
Qed.

Lemma implied_targets :
  (bool_decide (t = kInner) || bool_decide (t = kRight) = true -> left_target t) /\
  (bool_decide (t = kInner) || bool_decide (t = kLeft) = true -> right_target t).
Proof. unfold left_target, right_target. by destruct t. Qed.

Lemma pushed_side set conditions b es :
  Forall (pushed functionNames types eval set conditions b) es -> Forall (side_condition set b) es.
Proof. intros Hes. eapply Forall_impl; [exact Hes|]. by intros e []. Qed.

Lemma route_implied_spec (b0 : Builder T V) conds rest jls jrs r :
  routing b0 conds rest jls jrs r -> Forall (fun e => valid b0 e /\ boolean_expr e) rest ->
  builds b0 (F JoinPredicatePlacement.route_implied functionNames t leftColumns rightColumns r rest)
    (fun b r' => exists jls' jrs', routing b conds rest jls' jrs' r' /\ joinPredicates r' = joinPredicates r).
Proof.
  intros Hr Hrest. unfold JoinPredicatePlacement.route_implied. destruct implied_targets as [Hl Hrt].
  set (pushLeft := bool_decide (t = kInner) || bool_decide (t = kRight)) in *.
  set (pushRight := bool_decide (t = kInner) || bool_decide (t = kLeft)) in *.
  destruct (pushLeft || pushRight).
  2: { apply builds_ret. intros b _ Hext. exists jls, jrs. split; [by eapply routing_extends|done]. }
  eapply builds_bind.
  { apply (deriveForJoinInputs_spec functionNames types eval less reversed constant maxPlanObjects Heval Hreversed
      leftColumns rightColumns b0 (joinPredicates r ++ rest) (joinPredicates r ++ rest)); [done|].
    apply Forall_app. split; [apply Hr|done]. }
  cbn beta. intros b [ls rs] _ Hext [Hls Hrs]. apply builds_ret. intros b' _ Hext'. cbn [fst snd] in *.
  set (ls' := if pushLeft then ls else []). set (rs' := if pushRight then rs else []).
  assert (Heq : (let result := if pushLeft then JoinPredicatePlacement.addLeft ls r else r in
    if pushRight then JoinPredicatePlacement.addRight rs result else result) = add_conditions ls' rs' [] r).
  { unfold ls', rs', add_conditions, JoinPredicatePlacement.addJoin, JoinPredicatePlacement.addRight,
      JoinPredicatePlacement.addLeft. destruct r, pushLeft, pushRight; simpl; by rewrite !app_nil_r. }
  cbn zeta in Heq. rewrite Heq. exists (jls ++ ls'), (jrs ++ rs').
  split; [|unfold add_conditions; simpl; by rewrite app_nil_r].
  assert (Himplied : forall row, row_ok types row -> Forall (fun p => matched row p) joinKeys /\ Forall (passes row) conds ->
    Forall (passes row) ls /\ Forall (passes row) rs).
  { intros row Hrow Hc. apply (routing_same _ _ _ _ _ _ Hr) in Hc as (_ & [Hj Hres] & _); [|done].
    split; [apply (Forall_impl _ _ _ Hls)|apply (Forall_impl _ _ _ Hrs)]; intros e He;
      apply (pushed_implied _ _ _ _ _ _ _ He); try done; by apply Forall_app. }
  apply (routing_add b' conds); [eapply routing_extends, Hr; by transitivity b|..].
  - unfold ls'. destruct pushLeft; [|done]. apply (side_conditions_extend _ _ _ _ Hext'). by eapply pushed_side.
  - unfold ls'. destruct pushLeft; [|done]. auto.
  - unfold rs'. destruct pushRight; [|done]. apply (side_conditions_extend _ _ _ _ Hext'). by eapply pushed_side.
  - unfold rs'. destruct pushRight; [|done]. auto.
  - done.
  - intros e He _. rewrite app_nil_r. done.
  - intros row Hrow. specialize (Himplied row Hrow). unfold ls', rs'.
    destruct pushLeft, pushRight; rewrite ?Forall_nil; tauto.
Qed.

(** Comparing keys is an equality. *)
Definition same_values : Prop :=
  forall u v, same_key u v = true <-> exists w, u = Some w /\ v = Some w.

Lemma matched_keys_equal row p : same_values -> matched row p <-> keys_equal row p.
Proof. intros Hs. apply Hs. Qed.

Lemma Forall_matched row ps : same_values ->
  Forall (fun p => matched row p) ps <-> Forall (keys_equal row) ps.
Proof. intros Hs. rewrite !Forall_forall. by setoid_rewrite (matched_keys_equal row _ Hs). Qed.

(** The candidates become keys and predicates of the join. *)
Lemma routing_split b conds rest jls jrs r s :
  routing b conds rest jls jrs r -> splits b rest s -> same_values ->
  Forall (fun e => valid b e /\ boolean_expr e) rest ->
  routing b conds [] jls jrs
    (JoinPredicatePlacement.addJoin (JoinCondition.residual s)
       (JoinPredicatePlacement.setKeys
          (JoinPredicatePlacement.routedLeftKeys r ++ JoinCondition.leftKeys s)
          (JoinPredicatePlacement.routedRightKeys r ++ JoinCondition.rightKeys s) r)).
Proof.
  intros [] [Hlen Hp Hside Hres Hrest Hsame] Hkey Hvalid.
  split; cbn [JoinPredicatePlacement.addJoin JoinPredicatePlacement.setKeys
    JoinPredicatePlacement.leftInputPredicates JoinPredicatePlacement.rightInputPredicates
    JoinPredicatePlacement.aboveJoinPredicates JoinPredicatePlacement.routedLeftKeys
    JoinPredicatePlacement.routedRightKeys JoinPredicatePlacement.joinPredicates];
    rewrite ?zip_with_app by done; try done.
  - rewrite !length_app. lia.
  - by apply Forall_app.
  - by apply Forall_app.
  - apply Forall_app. split; [done|]. rewrite Forall_forall in *. intros e He. by apply Hvalid, Hres.
  - intros e He Hnd. rewrite app_nil_r. specialize (routing_volatile0 e He Hnd).
    apply elem_of_app in routing_volatile0 as [Hin|Hin]; apply elem_of_app; [by left|right; by apply Hrest].
  - intros row Hrow. rewrite <- routing_same0, !Forall_app, (Hsame row Hrow) by done.
    rewrite (Forall_matched row (splitKeys s) Hkey). rewrite Forall_nil. tauto.
Qed.

Lemma drop_redundant_spec (ls rs : list Expr) flags :
  length ls = length rs -> length flags = length ls ->
  let '(ls', rs') := JoinPredicatePlacement.drop_redundant ls rs flags in
  length ls' = length rs' /\ zip ls' rs' = kept_pairs (zip ls rs) flags.
Proof.
  revert rs flags. induction ls as [|l ls IH]; intros [|r rs] [|flag flags] Hlen Hf; try done.
  injection Hlen as Hlen. injection Hf as Hf. simpl. specialize (IH rs flags Hlen Hf).
  destruct (JoinPredicatePlacement.drop_redundant ls rs flags) as [ls' rs']. destruct IH as [Hl Hz].
  destruct flag; simpl; [done|]. by rewrite Hl, Hz.
Qed.

Lemma kept_pairs_Forall (P : Keys -> Prop) ps flags : Forall P ps -> Forall P (kept_pairs ps flags).
Proof.
  intros Hps. revert flags. induction Hps as [|p ps Hp _ IH]; intros [|[] flags]; simpl; auto.
Qed.

(** Keys that the rest implies are dropped. *)
Lemma routing_drop_keys b conds jls jrs r ls rs flags :
  routing b conds [] jls jrs r -> length flags = length (JoinPredicatePlacement.routedLeftKeys r) ->
  JoinPredicatePlacement.drop_redundant (JoinPredicatePlacement.routedLeftKeys r)
    (JoinPredicatePlacement.routedRightKeys r) flags = (ls, rs) ->
  (forall row, row_ok types row -> Forall (fun p => matched row p) (kept_pairs (keys r) flags) ->
     Forall (passes row) (joinPredicates r) -> Forall (passes row) jls -> Forall (passes row) jrs ->
     Forall (fun p => matched row p) (keys r)) ->
  routing b conds [] jls jrs (JoinPredicatePlacement.setKeys ls rs r).
Proof.
  intros Hr Hf Hdrop Hkept. pose proof (routing_lengths _ _ _ _ _ _ Hr) as Hlen.
  pose proof (drop_redundant_spec _ _ flags Hlen Hf) as Hd. rewrite Hdrop in Hd. destruct Hd as [Hl Hz].
  destruct Hr. split; cbn [JoinPredicatePlacement.setKeys
    JoinPredicatePlacement.leftInputPredicates JoinPredicatePlacement.rightInputPredicates
    JoinPredicatePlacement.aboveJoinPredicates JoinPredicatePlacement.routedLeftKeys
    JoinPredicatePlacement.routedRightKeys JoinPredicatePlacement.joinPredicates]; rewrite ?Hz; try done.
  - by apply kept_pairs_Forall.
  - by apply kept_pairs_Forall.
  - intros row Hrow. rewrite <- routing_same0 by done. split.
    + intros (Hk & [Hj _] & Hls & Hrs). split; [by apply Hkept|done].
    + intros (Hk & Hrest). split; [by apply kept_pairs_Forall|done].
Qed.

Lemma keys_columns (ls rs : list Expr) :
  length ls = length rs -> Forall keys_on_sides (zip ls rs) ->
  (forall c, c ∈ flat_map Expr.columns ls -> column_id c ∈ leftColumns) /\
  (forall c, c ∈ flat_map Expr.columns rs -> column_id c ∈ rightColumns).
Proof.
  revert rs. induction ls as [|l ls IH]; intros [|r rs] Hlen Hs; try done; [split; by intros c ?%not_elem_of_nil|].
  injection Hlen as Hlen. inversion Hs as [|? ? [Hl Hr] Hrest]; subst. cbn [fst snd] in *.
  destruct (IH rs Hlen Hrest) as [IHl IHr].
  split; intros c [Hc|Hc]%elem_of_app; first [by apply Hl|by apply Hr|by apply IHl|by apply IHr].
Qed.

Lemma conditions_side set cols b es :
  (forall c, c ∈ cols -> column_id c ∈ set) ->
  Forall (condition functionNames types cols b) es -> Forall (side_condition set b) es.
Proof.
  intros Hcols Hes. eapply Forall_impl; [exact Hes|]. intros e [Hv Hb Hc]. split; [done|]. split; [done|].
  intros c Hin. by apply Hcols, Hc.
Qed.

Lemma placeKeyEqualities_spec (b0 : Builder T V) conds jls jrs r :
  routing b0 conds [] jls jrs r -> same_values ->
  builds b0 (F JoinPredicatePlacement.placeKeyEqualities functionNames t r)
    (fun b r' => exists jls' jrs', routing b conds [] jls' jrs' r').
Proof.
  intros Hr Hkey. unfold JoinPredicatePlacement.placeKeyEqualities.
  eapply builds_bind.
  { apply (deriveForJoinKeys_spec functionNames types eval less reversed constant maxPlanObjects Heval Hreversed Hfull b0).
    apply Hr. }
  cbn beta. intros b1 eqs Hb1 Hext1 (Hlen & kept & Hd).
  destruct (filterTarget_spec true false) as (lt & Hlt & Hltarget). rewrite Hlt.
  eapply (builds_bind _ _ _ (fun _ x => x = lt)); [by apply builds_ret|]. intros b2 ? Hb2 Hext2 ->.
  destruct (filterTarget_spec false true) as (rt & Hrt & Hrtarget). rewrite Hrt.
  eapply (builds_bind _ _ _ (fun _ x => x = rt)); [by apply builds_ret|]. intros b3 ? Hb3 Hext3 ->.
  set (ls := match lt with JoinPredicatePlacement.kLeft => ImpliedFilters.left eqs | _ => [] end).
  set (ljs := match lt with JoinPredicatePlacement.kLeft => [] | _ => ImpliedFilters.left eqs end).
  set (rs := match rt with JoinPredicatePlacement.kRight => ImpliedFilters.right eqs | _ => [] end).
  set (rjs := match rt with JoinPredicatePlacement.kRight => [] | _ => ImpliedFilters.right eqs end).
  assert (Heq : match rt with
    | JoinPredicatePlacement.kRight => JoinPredicatePlacement.addRight (ImpliedFilters.right eqs)
        match lt with JoinPredicatePlacement.kLeft => JoinPredicatePlacement.addLeft (ImpliedFilters.left eqs) r
        | _ => JoinPredicatePlacement.addJoin (ImpliedFilters.left eqs) r end
    | _ => JoinPredicatePlacement.addJoin (ImpliedFilters.right eqs)
        match lt with JoinPredicatePlacement.kLeft => JoinPredicatePlacement.addLeft (ImpliedFilters.left eqs) r
        | _ => JoinPredicatePlacement.addJoin (ImpliedFilters.left eqs) r end
    end = add_conditions ls rs (ljs ++ rjs) r).
  { unfold ls, ljs, rs, rjs, add_conditions, JoinPredicatePlacement.addJoin, JoinPredicatePlacement.addRight,
      JoinPredicatePlacement.addLeft. destruct r, lt, rt; simpl; by rewrite ?app_nil_r, ?app_assoc. }
  rewrite Heq. clear Heq.
  destruct Hd as [Hflags _ _ _ Hleft Hright Hsame].
  destruct (keys_columns _ _ Hlen (routing_key_sides _ _ _ _ _ _ Hr)) as [Hlc Hrc].
  assert (Hext : extends b1 b3) by by transitivity b2.
  apply (conditions_side leftColumns) in Hleft; [|done]. apply (side_conditions_extend _ _ _ _ Hext) in Hleft.
  apply (conditions_side rightColumns) in Hright; [|done]. apply (side_conditions_extend _ _ _ _ Hext) in Hright.
  assert (Hadded : routing b3 conds [] (jls ++ ls) (jrs ++ rs) (add_conditions ls rs (ljs ++ rjs) r)).
  { apply (routing_add b3 conds); [eapply routing_extends, Hr; by transitivity b1|..].
    - unfold ls. by destruct lt.
    - unfold ls. by destruct lt; [|intros _|].
    - unfold rs. by destruct rt.
    - unfold rs. by destruct rt; [| |intros _].
    - assert (Hboth : Forall (fun e => valid b3 e /\ boolean_expr e) (ImpliedFilters.left eqs) /\
        Forall (fun e => valid b3 e /\ boolean_expr e) (ImpliedFilters.right eqs)).
      { split; [apply (Forall_impl _ _ _ Hleft)|apply (Forall_impl _ _ _ Hright)]; by intros e (? & ? & _). }
      destruct Hboth as [Hbl Hbr]. unfold ljs, rjs. apply Forall_app. by destruct lt, rt.
    - intros e He _. apply elem_of_app. by left.
    - intros row Hrow. split; [tauto|]. intros Hc. split; [done|].
      apply (routing_same _ _ _ _ _ _ Hr) in Hc as (Hk & _); [|done].
      apply (Forall_matched row _ Hkey), (Hsame row Hrow) in Hk as (_ & Hl & Hrr).
      unfold ls, rs, ljs, rjs. rewrite Forall_app. by destruct lt, rt. }
  destruct (JoinPredicatePlacement.drop_redundant _ _ _) as [ls' rs'] eqn:Hdrop.
  apply builds_ret. intros b _ Hext4. exists (jls ++ ls), (jrs ++ rs). apply (routing_extends b3); [done|].
  eapply routing_drop_keys; [exact Hadded| |exact Hdrop|].
  - transitivity (length (JoinPredicatePlacement.routedLeftKeys r)); [|done].
    rewrite Hflags, length_zip_with. clear -Hlen. lia.
  - intros row Hrow Hk Hj Hl Hrr. apply (Forall_matched row _ Hkey), (Hsame row Hrow).
    split; [by apply (Forall_matched row _ Hkey)|].
    unfold add_conditions in Hj. cbn in Hj. rewrite !Forall_app in Hj. rewrite Forall_app in Hl, Hrr.
    unfold ls, rs, ljs, rjs in *. destruct lt, rt; tauto.
Qed.
End Stages.

(** ** A join in its place *)

(** What [route] is given. *)
Record routable (b : Builder T V) (same_key : option V -> option V -> bool) (t : JoinType)
    (join : Join T V) (nullAware : bool) (pending : list Expr) : Prop := {
  routable_type : t <> kNumJoinTypes;
  routable_lengths : length (leftKeys join) = length (rightKeys join);
  routable_keys : Forall (key_pair b) (zip (leftKeys join) (rightKeys join));
  routable_sides : Forall keys_on_sides (zip (leftKeys join) (rightKeys join));
  routable_filter : Forall (fun e => valid b e /\ boolean_expr e) (filter join);
  routable_pending :
    Forall (fun e => valid b e /\ boolean_expr e /\ (t = kInner -> comparable e = true)) pending;
  (** Keys are compared as values, unless the join matches [NULL] keys, which an inner
      join does not. *)
  routable_same : nullKeysMatch nullAware (nullAsValue join) = false -> same_values same_key;
  routable_inner : t = kInner -> nullKeysMatch nullAware (nullAsValue join) = false
}.

Lemma route_spec (b0 : Builder T V) same_key t join nullAware pending leftInput rightInput :
  routable b0 same_key t join nullAware pending ->
  builds b0 (F JoinPredicatePlacement.route functionNames isCountingJoin join t nullAware leftColumns rightColumns
      pending leftInput rightInput) (fun b r =>
    exists lefts rights above cs jls jrs, distributes t pending lefts rights above cs /\
      routing same_key t join leftInput rightInput lefts rights above b (cs ++ filter join) [] jls jrs r).
Proof.
  intros [Ht Hlen Hkeys Hsides Hfilter Hpending Hsame Hinner].
  unfold JoinPredicatePlacement.route. set (start := JoinPredicatePlacement.mkRouted _ _ _ _ _ _).
  destruct (route_pending_spec t pending start [] Ht) as (lefts & rights & above & cs & Hd & ->).
  assert (Hcs : Forall (fun e => valid b0 e /\ boolean_expr e /\ (t = kInner -> comparable e = true)) cs)
    by by apply (distributes_all _ _ _ _ _ _ Hd) in Hpending as (_ & _ & _ & ?).
  assert (Hcs' : Forall (fun e => valid b0 e /\ boolean_expr e) cs).
  { eapply Forall_impl; [exact Hcs|]. by intros e (? & ? & _). }
  assert (Hstart : routing same_key t join leftInput rightInput lefts rights above b0 cs cs [] []
    (add_groups lefts rights above start)).
  { split; cbn; rewrite ?app_nil_r; try done. intros row Hrow. rewrite !Forall_nil. tauto. }
  destruct (route_filter_spec same_key t join leftInput rightInput lefts rights above Ht b0 cs cs [] []
    _ (filter join) Hstart Hfilter) as (jls & jrs & r & Hfiltered & Hr).
  eapply (builds_bind _ _ _ (fun _ x => x = (add_groups lefts rights above start, cs))); [by apply builds_ret|].
  intros b1 ? Hb1 Hext1 ->. rewrite Hfiltered.
  eapply (builds_bind _ _ _ (fun _ x => x = r)); [by apply builds_ret|]. intros b2 ? Hb2 Hext2 ->.
  assert (Hext : extends b0 b2) by by transitivity b1.
  assert (Hvalid : forall b, extends b2 b -> Forall (fun e => valid b e /\ boolean_expr e) cs).
  { intros b Hb. eapply Forall_impl; [exact Hcs'|]. intros e [? ?]. split; [|done].
    eapply valid_extends; [|done]. by transitivity b2. }
  eapply builds_bind.
  { apply (route_implied_spec same_key t join leftInput rightInput lefts rights above Ht b2 (cs ++ filter join) cs jls jrs).
    - by eapply routing_extends.
    - by apply Hvalid. }
  cbn beta. intros b3 r1 Hb3 Hext3 (jls1 & jrs1 & Hr1 & _).
  assert (Hsplit : routing same_key t join leftInput rightInput lefts rights above b3 (cs ++ filter join) [] jls1 jrs1
    match cs with
    | [] => r1
    | _ => JoinPredicatePlacement.addJoin
             (JoinCondition.residual (JoinCondition.splitEquiKeys functionNames cs leftColumns rightColumns))
             (JoinPredicatePlacement.setKeys
                (JoinPredicatePlacement.routedLeftKeys r1 ++
                 JoinCondition.leftKeys (JoinCondition.splitEquiKeys functionNames cs leftColumns rightColumns))
                (JoinPredicatePlacement.routedRightKeys r1 ++
                 JoinCondition.rightKeys (JoinCondition.splitEquiKeys functionNames cs leftColumns rightColumns)) r1)
    end).
  { destruct cs as [|e cs]; [done|].
    assert (Hi : t = kInner) by (apply (distributes_candidates _ _ _ _ _ _ Hd e); by left).
    apply (routing_split same_key t join leftInput rightInput lefts rights above b3 _ (e :: cs)); [done| |by auto|by auto].
    apply splitEquiKeys_spec; [done|]. eapply Forall_impl; [exact Hcs|]. intros x (? & ? & Hc).
    split; [|split; [done|by apply Hc]]. eapply valid_extends; [|done]. by transitivity b2. }
  destruct (negb _ && negb _) eqn:Hplace.
  - apply andb_true_iff in Hplace as [Hnull%negb_true_iff _].
    eapply builds_weaken; [by apply (placeKeyEqualities_spec same_key t join leftInput rightInput lefts rights above Ht b3 _ jls1 jrs1 _ Hsplit), Hsame|].
    cbn beta. intros b r2 _ _ (jls2 & jrs2 & Hr2). by exists lefts, rights, above, cs, jls2, jrs2.
  - apply builds_ret. intros b _ Hext4. exists lefts, rights, above, cs, jls1, jrs1. split; [done|].
    by eapply routing_extends.
Qed.

(** ** Rows *)

Lemma accepts_columns (e : Expr) r r' :
  (forall c, c ∈ Expr.columns e -> r !! column_id c = r' !! column_id c) -> accepts r e = accepts r' e.
Proof.
  intros Hc. unfold ImpliedFilters.accepts. apply bool_decide_ext.
  by apply (passes_columns functionNames types eval less reversed constant Heval).
Qed.

Lemma all_accept r es : forallb (accepts r) es = true <-> Forall (passes r) es.
Proof. apply accepts_all. Qed.

Lemma filtered_rows_app es es' rows :
  filtered_rows (es ++ es') rows =
  List.filter (fun r => forallb (accepts r) es') (filtered_rows es rows).
Proof.
  unfold ImpliedFilters.filtered_rows. rewrite Joins.filter_filter. apply filter_ext_elem.
  intros r _. rewrite forallb_app. apply andb_comm.
Qed.

Context (Hdisjoint : leftColumns ## rightColumns).
Context (mark : nat) (Hmark : mark ∉ leftColumns ∪ rightColumns).

(** A predicate on the columns of a side reads that side of an output row. *)
Lemma output_side (left : bool) e x y (z : option bool) :
  on_columns (if left then leftColumns else rightColumns) e ->
  (forall x', x = Some x' -> row_of leftColumns x') ->
  (forall y', y = Some y' -> row_of rightColumns y') ->
  accepts (output_row mark (x, y, z)) e = accepts (default ∅ (if left then x else y)) e.
Proof.
  intros He Hx Hy. apply accepts_columns. intros c Hc. specialize (He c Hc).
  assert (Hnone : forall set (o : option Row), (forall r, o = Some r -> row_of set r) ->
    column_id c ∉ set -> default ∅ o !! column_id c = None).
  { intros set [r|] Ho Hn; [|done]. simpl. apply not_elem_of_dom. destruct (Ho r eq_refl) as [Hd _].
    clear -Hd Hn. set_solver. }
  assert (Hz : mark_row mark z !! column_id c = None).
  { unfold mark_row. destruct z; [|done]. apply lookup_singleton_ne. intros ->.
    clear -He Hmark. destruct left; set_solver. }
  unfold output_row. cbn [row_left row_right fst snd]. rewrite !lookup_union, Hz.
  destruct left.
  - rewrite (Hnone rightColumns y Hy) by (clear -He Hdisjoint; set_solver).
    by destruct (default ∅ x !! column_id c).
  - rewrite (Hnone leftColumns x Hx) by (clear -He Hdisjoint; set_solver).
    by destruct (default ∅ y !! column_id c).
Qed.

Lemma output_pair x y : output_row mark (Some x, Some y, None) = x ∪ y.
Proof. unfold output_row. cbn. by rewrite map_union_empty. Qed.

Lemma rows_of set es rows : Forall (row_of set) rows ->
  forall r, r ∈ filtered_rows es rows -> row_of set r.
Proof.
  intros Hrows r [Hr%list_elem_of_In _]%list_elem_of_In%filter_In. rewrite Forall_forall in Hrows.
  by apply Hrows.
Qed.

Section Placed.
Context (b : Builder T V) (same_key : option V -> option V -> bool) (t : JoinType) (join : Join T V)
  (pending leftInput rightInput lefts rights above cs jls jrs : list Expr) (r : Routed)
  (xs ys : list Row).
Hypothesis Ht : t <> kNumJoinTypes.
Hypothesis Hd : distributes t pending lefts rights above cs.
Hypothesis Hr : routing same_key t join leftInput rightInput lefts rights above b (cs ++ filter join) [] jls jrs r.
Hypothesis Hxs : forall x, x ∈ xs -> row_of leftColumns x.
Hypothesis Hys : forall y, y ∈ ys -> row_of rightColumns y.
Abbreviation all es := (fun row => forallb (accepts row) es).
Abbreviation joinMatches := (matches same_key (zip (leftKeys join) (rightKeys join)) (filter join)).
Abbreviation routedMatches := (matches same_key
  (zip (JoinPredicatePlacement.routedLeftKeys r) (JoinPredicatePlacement.routedRightKeys r))
  (JoinPredicatePlacement.joinPredicates r)).

Lemma matches_spec keys filter x y :
  matches same_key keys filter x y = true <->
  Forall (fun p => keys_match same_key (x ∪ y) p = true) keys /\ Forall (passes (x ∪ y)) filter.
Proof.
  unfold matches. rewrite andb_true_iff, all_accept, forallb_forall. by rewrite (List.Forall_forall _ keys).
Qed.

Lemma sides_pass x y es es' :
  Forall (side_condition leftColumns b) es -> Forall (side_condition rightColumns b) es' ->
  row_of leftColumns x -> row_of rightColumns y ->
  (Forall (passes (x ∪ y)) es <-> Forall (passes x) es) /\
  (Forall (passes (x ∪ y)) es' <-> Forall (passes y) es').
Proof.
  intros Hes Hes' Hx Hy. rewrite !Forall_forall. rewrite Forall_forall in Hes. rewrite Forall_forall in Hes'.
  pose proof (fun e He => passes_left functionNames types eval less reversed constant Heval leftColumns rightColumns
    Hdisjoint e x y He Hy) as Hl.
  pose proof (fun e He => passes_right functionNames types eval less reversed constant Heval leftColumns rightColumns
    Hdisjoint e x y He Hx) as Hr'.
  split; (split; intros Hall e He; specialize (Hall e He)).
  - by apply Hl; [apply Hes|].
  - by apply Hl; [apply Hes|].
  - by apply Hr'; [apply Hes'|].
  - by apply Hr'; [apply Hes'|].
Qed.

Lemma routed_matches x y : x ∈ xs -> y ∈ ys ->
  all jls x && all jrs y && routedMatches x y = all cs (x ∪ y) && joinMatches x y.
Proof.
  intros Hx Hy. apply eq_true_iff_eq.
  destruct (sides_pass x y jls jrs (routing_left_ok _ _ _ _ _ _ _ _ _ _ _ _ _ _ Hr)
    (routing_right_ok _ _ _ _ _ _ _ _ _ _ _ _ _ _ Hr) (Hxs x Hx) (Hys y Hy)) as [Hjl Hjr].
  pose proof (row_of_union types leftColumns rightColumns x y (Hxs x Hx) (Hys y Hy)) as Hrow.
  pose proof (routing_same _ _ _ _ _ _ _ _ _ _ _ _ _ _ Hr (x ∪ y) Hrow) as Hsame.
  rewrite Forall_app, Forall_nil, Hjl, Hjr in Hsame. rewrite !andb_true_iff, !all_accept, !matches_spec. tauto.
Qed.

Lemma routed_placed :
  (counting_type t = true -> forall e, e ∈ lefts -> forall x x' y, x ∈ xs -> x' ∈ xs -> y ∈ ys ->
     joinMatches x y = true -> joinMatches x' y = true -> accepts x e = accepts x' e) ->
  placed t joinMatches routedMatches (all lefts) (all jls) (all rights) (all jrs)
    (fun x y => all cs (x ∪ y)) xs ys.
Proof.
  intros Hcount.
  assert (Hs : exists s, preservedSides t = Ok s) by (destruct t; try done; by eexists).
  destruct Hs as [s Hs]. split.
  - intros x y Hx Hy _ _. by apply routed_matches.
  - exists s. split; [done|].
    assert (Hnil : forall es : list Expr, (forall e, e ∈ es -> False) -> es = []).
    { intros [|e es] Hne; [done|]. exfalso. apply (Hne e). by left. }
    split; [|split].
    + intros Hl x _. rewrite (Hnil lefts); [done|]. intros e He.
      destruct (distributes_left _ _ _ _ _ _ Hd e He) as [Hp _]. rewrite Hs in Hp. simpl in Hp. congruence.
    + intros Hl x _. rewrite (Hnil rights); [done|]. intros e He.
      destruct (distributes_right _ _ _ _ _ _ Hd e He) as [Hp _]. rewrite Hs in Hp. simpl in Hp. congruence.
    + intros Hinner. split; [|split].
      * intros Hl x _. pose proof (routing_left_target _ _ _ _ _ _ _ _ _ _ _ _ _ _ Hr) as Htarget.
        destruct jls as [|e es]; [done|]. specialize (Htarget ltac:(done)).
        destruct (left_target_sides t s Htarget Hs) as [|[Hf Hfull']]; [done|]. destruct Hl; congruence.
      * intros Hl x _. pose proof (routing_right_target _ _ _ _ _ _ _ _ _ _ _ _ _ _ Hr) as Htarget.
        destruct jrs as [|e es]; [done|]. specialize (Htarget ltac:(done)).
        destruct (right_target_sides t s Htarget Hs) as [|[Hf Hfull']]; [done|]. destruct Hl; congruence.
      * intros x y _ _. rewrite (Hnil cs); [done|]. intros e He.
        by apply (distributes_candidates _ _ _ _ _ _ Hd e) in He.
  - intros Hc x x' y Hx Hx' Hy Hm Hm'. clear -Hcount Hc Hx Hx' Hy Hm Hm'.
    assert (Hall : forall e, e ∈ lefts -> accepts x e = accepts x' e) by eauto. clear -Hall.
    induction lefts as [|e es IH]; [done|]. simpl. rewrite (Hall e) by by left. rewrite IH; [done|].
    intros e' He'. apply Hall. by right.
Qed.

Lemma all_ext (es : list Expr) row row' :
  (forall e, e ∈ es -> accepts row e = accepts row' e) -> all es row = all es row'.
Proof.
  induction es as [|e es IH]; intros He; [done|]. simpl. rewrite (He e) by by left. rewrite IH; [done|].
  intros e' He'. apply He. by right.
Qed.

Lemma distributes_nil (es : list Expr) : (forall e, e ∈ es -> False) -> forall row, all es row = true.
Proof. intros Hne row. destruct es as [|e es]; [done|]. exfalso. apply (Hne e). by left. Qed.

Lemma pending_all row :
  all pending row = all lefts row && all rights row && all cs row && all above row.
Proof.
  apply eq_true_iff_eq. rewrite !andb_true_iff, !all_accept, (distributes_all _ _ _ _ _ _ Hd). tauto.
Qed.

(** The predicates left above the join, on a row it emits. *)
Lemma above_accepts row : row ∈ join_rows t joinMatches xs ys ->
  keeps (all lefts) (all rights) (fun x y => all cs (x ∪ y)) row && all above (output_row mark row) =
  all pending (output_row mark row).
Proof.
  intros Hrow. apply join_rows_sides in Hrow as (Hx & Hy & Hl & Hright & Hinner).
  destruct row as [[x y] z]. cbn [row_left row_right fst snd] in *.
  rewrite pending_all. f_equal.
  assert (Hls : match x with Some x => all lefts x | None => true end = all lefts (output_row mark (x, y, z))).
  { destruct x as [x|].
    - symmetry. apply all_ext. intros e He. apply (output_side true); [|by eauto..].
      by apply (distributes_left _ _ _ _ _ _ Hd).
    - symmetry. apply distributes_nil. intros e He. apply (distributes_left _ _ _ _ _ _ Hd) in He as [Hp _].
      by apply Hl in Hp as [? ?]. }
  assert (Hrs : match y with Some y => all rights y | None => true end = all rights (output_row mark (x, y, z))).
  { destruct y as [y|].
    - symmetry. apply all_ext. intros e He. apply (output_side false); [|by eauto..].
      by apply (distributes_right _ _ _ _ _ _ Hd).
    - symmetry. apply distributes_nil. intros e He. apply (distributes_right _ _ _ _ _ _ Hd) in He as [Hp _].
      by apply Hright in Hp as [? ?]. }
  assert (Hcs : match x, y with Some x, Some y => all cs (x ∪ y) | _, _ => true end = all cs (output_row mark (x, y, z))).
  { destruct (decide (t = kInner)) as [Hi|Hi].
    - destruct Hl as [x' ->]; [by rewrite Hi|]. destruct Hright as [y' ->]; [by rewrite Hi|].
      rewrite (Hinner Hi), output_pair. done.
    - assert (Hne : forall e, e ∈ cs -> False) by (intros e He; by apply (distributes_candidates _ _ _ _ _ _ Hd) in He).
      rewrite (distributes_nil _ Hne (output_row _ _)). destruct x, y; try done. by apply distributes_nil. }
  rewrite <- Hls, <- Hrs, <- Hcs. unfold keeps. cbn [row_left row_right fst snd].
  destruct x, y; rewrite ?andb_true_r; done.
Qed.
End Placed.

(** C17: [route] keeps the rows of every join, in their order.  Joining the inputs filtered
    by the predicates it gives them, on the keys and predicates it gives the join, and
    then filtering by what it leaves above, is filtering the original join by all of
    [pending].  What it gives an input reads that input alone; the keys can be compared,
    each on its side; and non-deterministic predicates, which the rows of the model
    cannot tell from others, stay where they are evaluated once per output row or
    once per pair.  A counting join matches whole rows, so that a predicate on its left
    input has one value on all left rows with a common match. *)
Theorem route_keeps_join (b : Builder T V) same_key t join nullAware pending leftInput rightInput :
  arena_ok b -> routable b same_key t join nullAware pending ->
  match F JoinPredicatePlacement.route functionNames isCountingJoin join t nullAware leftColumns rightColumns
          pending leftInput rightInput b with
  | Ok (r, b') =>
      arena_ok b' /\ extends b b' /\
      (exists ls, JoinPredicatePlacement.leftInputPredicates r = leftInput ++ ls /\
         Forall (on_columns leftColumns) ls) /\
      (exists rs, JoinPredicatePlacement.rightInputPredicates r = rightInput ++ rs /\
         Forall (on_columns rightColumns) rs) /\
      length (JoinPredicatePlacement.routedLeftKeys r) = length (JoinPredicatePlacement.routedRightKeys r) /\
      Forall (fun p => key_pair b' p /\ keys_on_sides p)
        (zip (JoinPredicatePlacement.routedLeftKeys r) (JoinPredicatePlacement.routedRightKeys r)) /\
      (forall e, e ∈ pending ++ filter join -> Expr.containsNonDeterministic e = true ->
         e ∈ JoinPredicatePlacement.aboveJoinPredicates r ++ JoinPredicatePlacement.joinPredicates r) /\
      forall xs ys, Forall (row_of leftColumns) xs -> Forall (row_of rightColumns) ys ->
        (counting_type t = true -> forall e, e ∈ pending -> on_columns leftColumns e ->
           forall x x' y, x ∈ xs -> x' ∈ xs -> y ∈ ys ->
           matches same_key (zip (leftKeys join) (rightKeys join)) (filter join) x y = true ->
           matches same_key (zip (leftKeys join) (rightKeys join)) (filter join) x' y = true ->
           accepts x e = accepts x' e) ->
        join_output same_key t mark
          (zip (JoinPredicatePlacement.routedLeftKeys r) (JoinPredicatePlacement.routedRightKeys r))
          (JoinPredicatePlacement.joinPredicates r) (JoinPredicatePlacement.aboveJoinPredicates r)
          (filtered_rows (JoinPredicatePlacement.leftInputPredicates r) xs)
          (filtered_rows (JoinPredicatePlacement.rightInputPredicates r) ys) =
        join_output same_key t mark (zip (leftKeys join) (rightKeys join)) (filter join) pending
          (filtered_rows leftInput xs) (filtered_rows rightInput ys)
  | Throw e => e <> OutOfFuel
  end.
Proof.
  intros Hb Hroutable.
  pose proof (route_spec b same_key t join nullAware pending leftInput rightInput Hroutable b Hb (PreOrder_Reflexive b)) as Hs.
  destruct (JoinPredicatePlacement.route _ _ _ _ _ _ _ _ _ _ _ _ _) as [[r b']|e]; [|done].
  destruct Hs as (Hb' & Hext & lefts & rights & above & cs & jls & jrs & Hd & Hr).
  split; [done|]. split; [done|].
  split; [|split; [|split; [|split; [|split]]]].
  - exists (lefts ++ jls). split; [apply Hr|]. apply Forall_app. split; apply Forall_forall; intros e He.
    + by apply (distributes_left _ _ _ _ _ _ Hd).
    + pose proof (routing_left_ok _ _ _ _ _ _ _ _ _ _ _ _ _ _ Hr) as Hok. rewrite Forall_forall in Hok. by apply Hok.
  - exists (rights ++ jrs). split; [apply Hr|]. apply Forall_app. split; apply Forall_forall; intros e He.
    + by apply (distributes_right _ _ _ _ _ _ Hd).
    + pose proof (routing_right_ok _ _ _ _ _ _ _ _ _ _ _ _ _ _ Hr) as Hok. rewrite Forall_forall in Hok. by apply Hok.
  - apply Hr.
  - apply Forall_and. split; apply Hr.
  - intros e [He|He]%elem_of_app Hnd.
    + destruct (distributes_in _ _ _ _ _ _ e Hd He) as [Hin|[Hin|[Hin|Hin]]].
      * pose proof (distributes_single _ _ _ _ _ _ Hd e (or_introl Hin)). congruence.
      * pose proof (distributes_single _ _ _ _ _ _ Hd e (or_intror Hin)). congruence.
      * rewrite (routing_above _ _ _ _ _ _ _ _ _ _ _ _ _ _ Hr). apply elem_of_app. by left.
      * apply elem_of_app. right.
        pose proof (routing_volatile _ _ _ _ _ _ _ _ _ _ _ _ _ _ Hr e) as Hv. rewrite app_nil_r in Hv.
        apply Hv; [|done]. apply elem_of_app. by left.
    + apply elem_of_app. right.
      pose proof (routing_volatile _ _ _ _ _ _ _ _ _ _ _ _ _ _ Hr e) as Hv. rewrite app_nil_r in Hv.
      apply Hv; [|done]. apply elem_of_app. by right.
  - intros xs ys Hxs Hys Hcount. unfold join_output.
    rewrite (routing_left _ _ _ _ _ _ _ _ _ _ _ _ _ _ Hr), (routing_right _ _ _ _ _ _ _ _ _ _ _ _ _ _ Hr),
      (routing_above _ _ _ _ _ _ _ _ _ _ _ _ _ _ Hr).
    rewrite !(filtered_rows_app leftInput), !(filtered_rows_app rightInput).
    set (xs' := filtered_rows leftInput xs). set (ys' := filtered_rows rightInput ys).
    assert (Hxs' : forall x, x ∈ xs' -> row_of leftColumns x) by by apply rows_of.
    assert (Hys' : forall y, y ∈ ys' -> row_of rightColumns y) by by apply rows_of.
    assert (Hsub : forall es rows x, x ∈ filtered_rows es rows -> x ∈ rows).
    { intros es rows x [Hx _]%list_elem_of_In%filter_In. by apply list_elem_of_In. }
    pose proof (routed_placed b' same_key t join pending leftInput rightInput lefts rights above cs jls jrs r
      xs' ys' (routable_type _ _ _ _ _ _ Hroutable) Hd Hr Hxs' Hys') as Hplaced.
    assert (Hcount' : counting_type t = true -> forall e, e ∈ lefts -> forall x x' y, x ∈ xs' -> x' ∈ xs' -> y ∈ ys' ->
      matches same_key (zip (leftKeys join) (rightKeys join)) (filter join) x y = true ->
      matches same_key (zip (leftKeys join) (rightKeys join)) (filter join) x' y = true ->
      accepts x e = accepts x' e).
    { intros Hc e He x x' y Hx%Hsub Hx'%Hsub Hy%Hsub. apply (Hcount Hc); [|by apply (distributes_left _ _ _ _ _ _ Hd)|done..].
      by apply (distributes_left_in _ _ _ _ _ _ _ Hd). }
    rewrite (filter_ext_elem _ _ xs' (fun x _ => forallb_app (accepts x) lefts jls)).
    rewrite (filter_ext_elem _ _ ys' (fun y _ => forallb_app (accepts y) rights jrs)).
    rewrite (placed_join t _ _ _ _ _ _ _ xs' ys' (routable_type _ _ _ _ _ _ Hroutable) (Hplaced Hcount')).
    rewrite Joins.filter_filter. apply filter_ext_elem. intros row Hrow.
    rewrite andb_comm. apply (above_accepts same_key t join pending lefts rights above cs xs' ys' Hd Hxs' Hys' row Hrow).
Qed.

(** ** Columns a join makes equal *)

Section EquiColumns.
Context (same_key : option V -> option V -> bool) (join : Join T V) (extraConjuncts : list Expr).
Hypothesis Hsame : same_values same_key.
Hypothesis Hsides : Forall keys_on_sides (zip (leftKeys join) (rightKeys join)).
Hypothesis Hconds : Forall (fun e => boolean_expr e /\ comparable e = true) (filter join ++ extraConjuncts).

(** A column of each side, equal on the rows that match. *)
Definition equal_pair (p : Column T * Column T) : Prop :=
  column_id p.1 ∈ leftColumns /\ column_id p.2 ∈ rightColumns /\
  forall r, row_ok types r ->
    Forall (fun k => keys_match same_key r k = true) (zip (leftKeys join) (rightKeys join)) ->
    Forall (passes r) (filter join ++ extraConjuncts) ->
    exists w, r !! column_id p.1 = Some w /\ r !! column_id p.2 = Some w.

(** The pairs so far: each one once. *)
Definition equal_pairs (ps : list (Column T * Column T)) : Prop :=
  Forall equal_pair ps /\ NoDup (map (fun p => (column_id p.1, column_id p.2)) ps).

Lemma addPair_spec ps l r :
  equal_pairs ps -> equal_pair (l, r) -> equal_pairs (JoinPredicatePlacement.addPair ps l r).
Proof.
  intros [Hps Hnd] Hp. unfold JoinPredicatePlacement.addPair. destruct (existsb _ ps) eqn:He; [done|].
  split; [apply Forall_app; split; [done|by constructor]|].
  rewrite map_app. apply NoDup_app. split; [done|]. split; [|apply NoDup_singleton].
  intros i Hi ->%list_elem_of_singleton.
  apply list_elem_of_In, in_map_iff in Hi as (q & [= Hq1 Hq2] & Hq).
  assert (existsb (fun p => (column_id p.1 =? column_id l) && (column_id p.2 =? column_id r)) ps = true); [|congruence].
  apply existsb_exists. exists q. split; [done|]. by rewrite Hq1, Hq2, !Nat.eqb_refl.
Qed.

Lemma addKeyPair_spec ps k :
  equal_pairs ps -> k ∈ zip (leftKeys join) (rightKeys join) ->
  equal_pairs (JoinPredicatePlacement.addKeyPair ps k).
Proof.
  intros Hps Hk. unfold JoinPredicatePlacement.addKeyPair.
  destruct k as [[l| | | | |] [r| | | | |]]; try done. apply addPair_spec; [done|].
  rewrite Forall_forall in Hsides. destruct (Hsides _ Hk) as [Hl Hr]. cbn [fst snd] in *.
  split; [apply (Hl l); by left|]. split; [apply (Hr r); by left|]. intros row Hrow Hkeys _.
  rewrite Forall_forall in Hkeys. specialize (Hkeys _ Hk). apply Hsame in Hkeys. cbn [fst snd] in *.
  by rewrite !(eval_column_at functionNames types eval less reversed constant Heval) in Hkeys.
Qed.

Lemma addEqualityPair_spec ps e :
  equal_pairs ps -> e ∈ filter join ++ extraConjuncts ->
  equal_pairs (JoinPredicatePlacement.addEqualityPair functionNames leftColumns rightColumns ps e).
Proof.
  intros Hps He. rewrite Forall_forall in Hconds. destruct (Hconds _ He) as (Hbool & Hcomp).
  destruct e as [| |name args t fs i| | |]; try done. unfold JoinPredicatePlacement.addEqualityPair.
  destruct args as [|[c1| | | | |] args]; try done. destruct args as [|[c2| | | | |] args]; try done.
  destruct (negb (name_is _ _)) eqn:Hname; [done|].
  assert (Hequal : forall row, row_ok types row -> Forall (passes row) (filter join ++ extraConjuncts) ->
    exists w, row !! column_id c1 = Some w /\ row !! column_id c2 = Some w).
  { intros row Hrow Hall. rewrite Forall_forall in Hall. specialize (Hall _ He).
    unfold comparable in Hcomp. rewrite Hname in Hcomp. cbn [orb forallb] in Hcomp.
    rewrite !andb_true_iff in Hcomp. destruct Hcomp as (Hp1 & Hp2 & _).
    apply negb_false_iff in Hname. unfold name_is in Hname. apply bool_decide_eq_true in Hname.
    assert (Hclass : classify functionNames name = CompareName).
    { apply (classify_registered functionNames Hfull name CompareName). unfold name_classes.
      rewrite Hname. by left. }
    destruct Hbool as [Ht _]. simpl in Ht. unfold well_formed_call in Ht. rewrite Hclass in Ht.
    rewrite !andb_true_iff in Ht. destruct Ht as [[Ht1 [Ht2 _]] [_ [Hlen Hst]]].
    destruct args; [|done]. simpl in Hst. rewrite andb_true_r in Hst.
    apply (passes_equality functionNames types eval less reversed constant Heval) in Hall as (w & H1' & H2');
      try done; [|by apply equivalent_sym].
    cbn [fst snd] in *. exists w. by rewrite !(eval_column_at functionNames types eval less reversed constant Heval) in *. }
  destruct (bool_decide (column_id c1 ∈ leftColumns) && bool_decide (column_id c2 ∈ rightColumns)) eqn:Hd1.
  { rewrite andb_true_iff, !bool_decide_eq_true in Hd1. apply addPair_spec; [done|].
    split; [apply Hd1|]. split; [apply Hd1|]. intros row Hrow _ Hall. by apply Hequal. }
  destruct (bool_decide (column_id c2 ∈ leftColumns) && bool_decide (column_id c1 ∈ rightColumns)) eqn:Hd2; [|done].
  rewrite andb_true_iff, !bool_decide_eq_true in Hd2. apply addPair_spec; [done|].
  split; [apply Hd2|]. split; [apply Hd2|]. intros row Hrow _ Hall.
  destruct (Hequal row Hrow Hall) as (w & ? & ?). by exists w.
Qed.

Lemma foldl_equal_pairs {A} (f : list (Column T * Column T) -> A -> list (Column T * Column T)) l ps :
  (forall ps a, equal_pairs ps -> a ∈ l -> equal_pairs (f ps a)) -> equal_pairs ps ->
  equal_pairs (foldl f ps l).
Proof.
  revert ps. induction l as [|a l IH]; intros ps Hf Hps; [done|]. simpl. apply IH.
  - intros ps' a' Hps' Ha'. apply Hf; [done|by right].
  - apply Hf; [done|by left].
Qed.

(** The pairs are distinct, of a column of each side, and equal, not [NULL], on all rows
    the join matches. *)
Theorem equiColumnPairs_equal :
  equal_pairs (JoinPredicatePlacement.equiColumnPairs functionNames join leftColumns rightColumns extraConjuncts).
Proof.
  unfold JoinPredicatePlacement.equiColumnPairs.
  apply foldl_equal_pairs.
  { intros ps e Hps He. apply addEqualityPair_spec; [done|]. apply elem_of_app. by right. }
  apply foldl_equal_pairs.
  { intros ps e Hps He. apply addEqualityPair_spec; [done|]. apply elem_of_app. by left. }
  apply foldl_equal_pairs.
  { intros ps k Hps Hk. by apply addKeyPair_spec. }
  split; [done|constructor].
Qed.
End EquiColumns.
End Sides.
End Routing.
