(* ===== verification/JoinReductions.v ===== *)
(** * Simpler joins

    [axiom/optimizer/v2/OuterJoinReduction.cpp] and
    [axiom/optimizer/v2/MarkFilterFusion.cpp]: the type of an outer join whose padded rows
    the predicates above reject, the outputs that then need no identity of their own, and
    the filtering join a filter on the mark of a semi-project join makes of it.

    The theorems: the consumer's filters keep the same rows of the reduced join, in the
    same order, and what the reduction reads directly is never padded; filtering by the
    mark and dropping it is the semi or anti join, [NOT IN] over [NULL]s included.

    That a function without [kNonDefaultNullBehavior] is [NULL] on a [NULL] argument is a
    law of the evaluator, and so it is of the fields of a row.  A lambda is no value that
    is [NULL]: functions of lambdas have a [NULL] behavior of their own. *)

From Stdlib Require Import ZArith Lia.
From S2P Require Import Prelude Joins Domains DomainSets Expressions ExprDomains SqlSemantics Builders ExprFactories FilterSimplifiers ImpliedFilters Substitutions PlanSubstitutions JoinPlacements JoinRouting.

Local Open Scope nat_scope.
Set Warnings "-register-all".

(** The members of [v2::Join] that the reductions read. *)
Record Join {T : Type} := mkJoin {
  joinType : JoinType;
  nullAware : bool;
  outputColumns : list (Column T);
  sourceColumns : list (Column T);
  markColumn : option (Column T)
}.
Arguments Join : clear implicits.
Arguments mkJoin {T} joinType nullAware outputColumns sourceColumns markColumn.

(** [a == b] on columns. *)
Definition same_column {T} (a b : Column T) : bool := column_id a =? column_id b.

(** [Join::preservesSource] *)
Definition preservesSource {T} (joinType : JoinType) (source : Column T)
    (leftColumns rightColumns : gset nat) : Result bool :=
  preserved ← preservedSides joinType;
  Ok ((left_ preserved && bool_decide (column_id source ∈ leftColumns)) ||
      (right_ preserved && bool_decide (column_id source ∈ rightColumns))).

Module OuterJoinReduction.
Section OuterJoinReduction.
Context {T V : Type}.
Abbreviation Expr := (Expr T V).
Abbreviation Substitutions := (list (Expr * Expr)).

Definition isNullRejecting (conjunct : Expr) (columns : gset nat) : bool :=
  existsb (fun c => bool_decide (column_id c ∈ columns)) (Expr.columns conjunct) &&
  negb (Expr.containsNonDefaultNullBehavior conjunct).

Definition anyRejects (pending : list Expr) (nonNullColumns columns : gset nat) : bool :=
  existsb (fun conjunct => isNullRejecting conjunct columns) pending ||
  negb (bool_decide (columns ∩ nonNullColumns = ∅)).

Definition reduce (joinType : JoinType) (pending : list Expr)
    (nonNullColumns leftColumns rightColumns : gset nat) : Result JoinType :=
  let anyRejects := anyRejects pending nonNullColumns in
  match joinType with
  | kLeft => Ok (if anyRejects rightColumns then kInner else joinType)
  | kRight => Ok (if anyRejects leftColumns then kInner else joinType)
  | kFull =>
      let rejectsLeft := anyRejects leftColumns in
      let rejectsRight := anyRejects rightColumns in
      Ok (if rejectsLeft && rejectsRight then kInner
          else if rejectsLeft then kLeft
          else if rejectsRight then kRight
          else joinType)
  | kInner | kLeftSemiFilter | kCountingLeftSemiFilter | kLeftSemiProject | kRightSemiFilter
  | kRightSemiProject | kRightAnti | kAnti | kCountingAnti => Ok joinType
  | kNumJoinTypes => Throw (VeloxUnreachable "")
  end.

(** The loops over the outputs with their sources. *)
Fixpoint output_sources (outputs : list (Column T * Column T)) (substitutions : Substitutions) :
    Result Substitutions :=
  match outputs with
  | [] => Ok substitutions
  | (output, source) :: outputs =>
      substitutions ← (if negb (same_column output source)
                       then PlanSubstitutions.add substitutions (ColumnExpr output) (ColumnExpr source)
                       else Ok substitutions);
      output_sources outputs substitutions
  end.

Definition outputSources (join : Join T) : Result Substitutions :=
  output_sources (zip (outputColumns join) (sourceColumns join)) [].

Fixpoint reduced_outputs (join : Join T) (joinType' : JoinType)
    (leftColumns rightColumns : gset nat) (outputs : list (Column T * Column T))
    (substitutions : Substitutions) : Result Substitutions :=
  match outputs with
  | [] => Ok substitutions
  | (output, source) :: outputs =>
      originallyPreserved ← preservesSource (joinType join) source leftColumns rightColumns;
      nowPreserved ← preservesSource joinType' source leftColumns rightColumns;
      substitutions ← (if negb originallyPreserved && nowPreserved && negb (same_column output source)
                       then PlanSubstitutions.add substitutions (ColumnExpr output) (ColumnExpr source)
                       else Ok substitutions);
      reduced_outputs join joinType' leftColumns rightColumns outputs substitutions
  end.

Definition reducedOutputs (join : Join T) (joinType' : JoinType)
    (leftColumns rightColumns : gset nat) : Result Substitutions :=
  reduced_outputs join joinType' leftColumns rightColumns
    (zip (outputColumns join) (sourceColumns join)) [].
End OuterJoinReduction.
End OuterJoinReduction.

Module MarkFilterFusion.
Section MarkFilterFusion.
Context {T V : Type} (functionNames : FunctionNames).
Abbreviation Expr := (Expr T V).

(** [MarkFilterFusion::Result] *)
Record Fusion := mkFusion { fusedType : JoinType; conjunct : Expr }.

(** The argument of a negation. *)
Definition isNot (expression : Expr) : option Expr :=
  match expression with
  | CallExpr name [argument] _ _ _ =>
      if name_is (Some name) (negation functionNames) then Some argument else None
  | _ => None
  end.

(** The first conjunct that is the mark, or its negation. *)
Fixpoint find_fused (mark : Column T) (pending : list Expr) : option Fusion :=
  match pending with
  | [] => None
  | conjunct :: pending =>
      if Expr.same conjunct (ColumnExpr mark) then Some (mkFusion kLeftSemiFilter conjunct)
      else
        match isNot conjunct with
        | Some negated =>
            if Expr.same negated (ColumnExpr mark) then Some (mkFusion kAnti conjunct)
            else find_fused mark pending
        | None => find_fused mark pending
        end
  end.

Definition reads (mark : Column T) (expression : Expr) : bool :=
  existsb (fun c => same_column c mark) (Expr.columns expression).

Definition fuse (join : Join T) (pending : list Expr) (requiredAbove : gset nat) :
    Result (option Fusion) :=
  if negb (bool_decide (joinType join = kLeftSemiProject)) then Ok None
  else
    match markColumn join with
    | None => Throw (VeloxCheck "mark != nullptr")
    | Some mark =>
        if bool_decide (column_id mark ∈ requiredAbove) then Ok None
        else
          match find_fused mark pending with
          | None => Ok None
          | Some fused =>
              Ok (if existsb (fun e => negb (Expr.same e (conjunct fused)) && reads mark e) pending
                  then None else Some fused)
          end
    end.

(** What [prepareJoin] makes of a fusion: the predicates that remain, and whether the
    filtering join is null-aware. *)
Definition remaining (fusion : Fusion) (pending : list Expr) : list Expr :=
  List.filter (fun e => negb (Expr.same e (conjunct fusion))) pending.

Definition fusedNullAware (join : Join T) (fusion : Fusion) : bool :=
  bool_decide (fusedType fusion = kAnti) && nullAware join.
End MarkFilterFusion.
End MarkFilterFusion.

(** ** Functions with default null behavior *)

Section Meaning.
Context {T V : Type} `{TypedValues T V} `{FunctionRegistry} `{!VariantEq V}.
Context (functionNames : FunctionNames) (types : gmap nat T)
  (eval : Expr T V -> SqlSemantics.Row V -> option V)
  (less : V -> V -> bool) (reversed : string -> option string)
  (constant : Expr T V -> option (V * T)).
Context (Heval : EvalLaws functionNames types eval less reversed constant).
(** A field of a row that is [NULL] is [NULL]. *)
Hypothesis eval_field_null : forall base field t i r,
  eval base r = None -> eval (FieldExpr base field t i) r = None.
Abbreviation Row := (SqlSemantics.Row V).
Abbreviation Expr := (Expr T V).
Abbreviation accepts := (accepts eval).
Abbreviation row_of := (row_of types).

(** What is [NULL] or a value: no lambda, aggregate or window. *)
Definition is_value (e : Expr) : bool :=
  match e with LambdaExpr _ _ _ _ | OtherExpr _ _ _ _ => false | _ => true end.

Definition default_null_function (name : string) : bool :=
  match functionBits name (isSpecialForm name) with
  | Ok bits => negb (FunctionSet.contains bits FunctionSet.kNonDefaultNullBehavior)
  | Throw _ => false
  end.

(** The flag [kNonDefaultNullBehavior] of each call is that of its function and its
    arguments; a function without it has values for arguments. *)
Fixpoint flags_ok (e : Expr) : bool :=
  match e with
  | ColumnExpr _ | LiteralExpr _ _ _ | OtherExpr _ _ _ _ => true
  | CallExpr name args _ functions _ =>
      forallb flags_ok args &&
      (FunctionSet.contains functions FunctionSet.kNonDefaultNullBehavior ||
       default_null_function name &&
       forallb (fun arg => negb (Expr.containsNonDefaultNullBehavior arg) && is_value arg) args)
  | FieldExpr base _ _ _ => flags_ok base && is_value base
  | LambdaExpr _ body _ _ => flags_ok body
  end.

(** Such an expression is [NULL] as soon as one of its columns is. *)
Lemma null_propagates (e : Expr) r c :
  flags_ok e = true -> is_value e = true -> Expr.containsNonDefaultNullBehavior e = false ->
  c ∈ Expr.columns e -> r !! column_id c = None -> eval e r = None.
Proof.
  intros Hf Hv Hd Hc Hr. revert Hf Hv Hd Hc.
  induction e as [col|v t i|name args t fs i IH|base f t i IH|args body t i IH|cs fs t i]
    using Expr_nested_ind; cbn [flags_ok]; intros Hf Hv Hd Hc; try done.
  - apply list_elem_of_singleton in Hc as ->.
    by rewrite (eval_column_at functionNames types eval less reversed constant Heval).
  - by apply not_elem_of_nil in Hc.
  - apply andb_true_iff in Hf as [Hargs Hf].
    unfold Expr.containsNonDefaultNullBehavior, Expr.containsFunction in Hd. simpl in Hd. rewrite Hd in Hf.
    apply andb_true_iff in Hf as [Hname Hvals]. unfold default_null_function in Hname.
    destruct (functionBits name (isSpecialForm name)) as [bits|] eqn:Hbits; [|done].
    apply list_elem_of_In, in_flat_map in Hc as (arg & Hin & Hc%list_elem_of_In).
    rewrite forallb_forall in Hargs, Hvals. rewrite List.Forall_forall in IH.
    specialize (Hvals arg Hin). apply andb_true_iff in Hvals as [Hnd Hval].
    apply (eval_default_null _ _ _ _ _ _ Heval name bits args arg); [done|by apply negb_true_iff|done|].
    apply IH; [done|by apply Hargs|done|by apply negb_true_iff|done].
  - apply andb_true_iff in Hf as [Hf Hb]. apply eval_field_null, IH; done.
Qed.

(** ** Padded rows *)

Context (leftColumns rightColumns : gset nat).
Hypothesis Hdisjoint : leftColumns ## rightColumns.

(** The row is one the predicates pass and a consumer of the non-null columns wants. *)
Definition wanted (pending : list Expr) (nonNullColumns : gset nat) (r : Row) : bool :=
  forallb (accepts r) pending && forallb (fun c => bool_decide (r !! c <> None)) (elements nonNullColumns).

(** [pending], as the code makes predicates. *)
Definition predicate_ok (e : Expr) : bool := flags_ok e && is_value e.

Lemma rejected pending nonNullColumns columns (r : Row) :
  forallb predicate_ok pending = true ->
  OuterJoinReduction.anyRejects pending nonNullColumns columns = true ->
  (forall c, c ∈ columns -> r !! c = None) ->
  wanted pending nonNullColumns r = false.
Proof.
  unfold OuterJoinReduction.anyRejects, wanted. rewrite forallb_forall.
  intros Hp [(e & He & Hn)%existsb_exists|Hn%negb_true_iff%bool_decide_eq_false]%orb_true_iff Hr.
  - unfold OuterJoinReduction.isNullRejecting in Hn. apply andb_true_iff in Hn as [Hcol Hd%negb_true_iff].
    apply existsb_exists in Hcol as (c & Hc & Hin%bool_decide_eq_true).
    specialize (Hp e He). apply andb_true_iff in Hp as [Hf Hv].
    apply andb_false_iff. left. apply not_true_is_false. rewrite forallb_forall. intros Hall.
    specialize (Hall e He). unfold ImpliedFilters.accepts, truth_of in Hall.
    rewrite (null_propagates e r c) in Hall by first [done|by apply list_elem_of_In|by apply Hr]. done.
  - apply set_choose_L in Hn as (c & [Hc Hnn]%elem_of_intersection).
    apply andb_false_iff. right. apply not_true_is_false. rewrite forallb_forall. intros Hall.
    assert (Hin : In c (elements nonNullColumns)) by by apply list_elem_of_In, elem_of_elements.
    specialize (Hall c Hin). rewrite (Hr c Hc) in Hall. done.
Qed.

Lemma padded_left (mark : nat) x c :
  row_of leftColumns x -> c ∈ rightColumns -> output_row mark (Some x, None, None) !! c = None.
Proof.
  intros [Hd _] Hc. unfold output_row. cbn [row_left row_right fst snd default mark_row].
  rewrite !map_union_empty. apply not_elem_of_dom. clear -Hd Hc Hdisjoint. set_solver.
Qed.

Lemma padded_right (mark : nat) y c :
  row_of rightColumns y -> c ∈ leftColumns -> output_row mark (None, Some y, None) !! c = None.
Proof.
  intros [Hd _] Hc. unfold output_row. cbn [row_left row_right fst snd default mark_row].
  rewrite map_union_empty, map_empty_union. apply not_elem_of_dom. clear -Hd Hc Hdisjoint. set_solver.
Qed.

Lemma filter_none {A} (f : A -> bool) l : (forall a, a ∈ l -> f a = false) -> List.filter f l = [].
Proof.
  induction l as [|a l IH]; intros Hf; [done|]. simpl. rewrite Hf by by left. apply IH.
  intros b Hb. apply Hf. by right.
Qed.

(** The rows padded on a side that is rejected are dropped. *)
Lemma padded_dropped mark (pad : Row -> Joins.Row Row Row) keep rows (columns : gset nat) :
  (forall x, x ∈ rows -> forall c, c ∈ columns -> output_row mark (pad x) !! c = None) ->
  (forall r : Row, (forall c, c ∈ columns -> r !! c = None) -> keep r = false) ->
  List.filter (fun row => keep (output_row mark row)) (map pad rows) = [].
Proof.
  intros Hrows Hkeep. apply filter_none. intros row (x & <- & Hx%list_elem_of_In)%list_elem_of_In%in_map_iff.
  apply Hkeep. by apply Hrows.
Qed.

Lemma unmatched_sub {L R} (m : L -> R -> bool) ls rs l : l ∈ unmatched m ls rs -> l ∈ ls.
Proof. unfold unmatched. rewrite !list_elem_of_In, filter_In. tauto. Qed.

(** C19: A consumer that keeps the rows [pending] passes, and of them those whose non-null
    columns are not [NULL], keeps the same rows of the join and of the join of the reduced
    type, in the same order, whatever the join's condition. *)
Theorem reduce_keeps_rows t t' pending nonNullColumns mark (m : Row -> Row -> bool) xs ys :
  forallb predicate_ok pending = true ->
  Forall (row_of leftColumns) xs -> Forall (row_of rightColumns) ys ->
  OuterJoinReduction.reduce t pending nonNullColumns leftColumns rightColumns = Ok t' ->
  let keep row := wanted pending nonNullColumns (output_row mark row) in
  List.filter keep (join_rows t' m xs ys) = List.filter keep (join_rows t m xs ys).
Proof.
  intros Hp Hxs Hys Hr keep. rewrite Forall_forall in Hxs. rewrite Forall_forall in Hys.
  assert (Hleft : OuterJoinReduction.anyRejects pending nonNullColumns rightColumns = true ->
    List.filter keep (map row_of_left (unmatched m xs ys)) = []).
  { intros Hany. apply (padded_dropped mark row_of_left _ _ rightColumns).
    - intros x Hx%unmatched_sub c Hc. by apply padded_left; [apply Hxs|].
    - intros r. by apply rejected. }
  assert (Hright : OuterJoinReduction.anyRejects pending nonNullColumns leftColumns = true ->
    List.filter keep (map row_of_right (unmatched (fun y x => m x y) ys xs)) = []).
  { intros Hany. apply (padded_dropped mark row_of_right _ _ leftColumns).
    - intros y Hy%unmatched_sub c Hc. by apply padded_right; [apply Hys|].
    - intros r. by apply rejected. }
  unfold OuterJoinReduction.reduce in Hr.
  destruct t; try discriminate Hr; injection Hr as <-; try done;
    destruct (OuterJoinReduction.anyRejects pending nonNullColumns leftColumns);
    destruct (OuterJoinReduction.anyRejects pending nonNullColumns rightColumns);
    cbn [andb join_rows]; rewrite ?List.filter_app, ?Hleft, ?Hright, ?app_nil_r by done; done.
Qed.

(** ** Outputs that need no identity of their own *)

Definition preserves (sides : Sides) (source : Column T) : bool :=
  (left_ sides && bool_decide (column_id source ∈ leftColumns)) ||
  (right_ sides && bool_decide (column_id source ∈ rightColumns)).

Lemma preservesSource_ok t sides source :
  preservedSides t = Ok sides ->
  preservesSource t source leftColumns rightColumns = Ok (preserves sides source).
Proof. unfold preservesSource. by intros ->. Qed.

Lemma add_absent (substitutions : list (Expr * Expr)) (output source : Column T) :
  column_id output ∉ map (fun p => Expr.expr_id p.1) substitutions ->
  PlanSubstitutions.add substitutions (ColumnExpr output) (ColumnExpr source) =
  Ok (substitutions ++ [(ColumnExpr output, ColumnExpr source)]).
Proof.
  intros Hn. unfold PlanSubstitutions.add.
  destruct (Substitution.find substitutions (ColumnExpr output)) as [e|] eqn:Hf; [|done].
  exfalso. unfold Substitution.find in Hf.
  destruct (List.find _ substitutions) as [p|] eqn:Hp; [|done].
  apply List.find_some in Hp as [Hin Hs%Nat.eqb_eq]. apply Hn. cbn [Expr.expr_id] in Hs. rewrite <- Hs.
  by apply list_elem_of_In, (in_map (fun p => Expr.expr_id p.1)).
Qed.

(** The outputs that [keep] selects, with their sources. *)
Definition columns_to (keep : Column T * Column T -> bool) (outputs : list (Column T * Column T)) :
    list (Expr * Expr) :=
  map (fun p => (ColumnExpr p.1, ColumnExpr p.2)) (List.filter keep outputs).

Definition newly_preserved (sides sides' : Sides) (p : Column T * Column T) : bool :=
  negb (preserves sides p.2) && preserves sides' p.2 && negb (same_column p.1 p.2).

Lemma reduced_outputs_spec join t' sides sides' outputs substitutions :
  preservedSides (joinType join) = Ok sides -> preservedSides t' = Ok sides' ->
  NoDup (map (fun p => Expr.expr_id p.1) substitutions ++ map (fun p => column_id p.1) outputs) ->
  OuterJoinReduction.reduced_outputs join t' leftColumns rightColumns outputs substitutions =
  Ok (substitutions ++ columns_to (newly_preserved sides sides') outputs).
Proof.
  intros Hs Hs'. revert substitutions. unfold columns_to.
  induction outputs as [|[output source] outputs IH]; intros substitutions Hnd; simpl.
  { by rewrite app_nil_r. }
  rewrite (preservesSource_ok _ sides source Hs). simpl.
  rewrite (preservesSource_ok _ sides' source Hs'). simpl.
  unfold newly_preserved at 1. cbn [fst snd].
  destruct (negb (preserves sides source) && preserves sides' source && negb (same_column output source)).
  - rewrite add_absent. 2:{ apply NoDup_app in Hnd as (_ & Hnd & _). intros Hin. apply (Hnd _ Hin). by left. }
    simpl. rewrite IH, <- app_assoc; [done|]. rewrite map_app, <- app_assoc. exact Hnd.
  - apply IH. apply (sublist_NoDup _ _ Hnd). apply sublist_app; [done|]. by constructor.
Qed.

Lemma zip_outputs (outputs sources : list (Column T)) :
  NoDup (map column_id outputs) -> NoDup (map (fun p => column_id p.1) (zip outputs sources)).
Proof.
  intros Hnd. apply (sublist_NoDup _ _ Hnd). clear Hnd. revert sources.
  induction outputs as [|c outputs IH]; intros [|d sources]; simpl; try done; [apply sublist_nil_l|].
  by constructor.
Qed.

(** [reducedOutputs] replaces exactly the outputs whose source the join did not preserve
    and now does; on every row the reduced join emits, the input the source comes from is
    there. *)
Theorem reducedOutputs_exact join t' sides sides' :
  preservedSides (joinType join) = Ok sides -> preservedSides t' = Ok sides' ->
  NoDup (map column_id (outputColumns join)) ->
  OuterJoinReduction.reducedOutputs join t' leftColumns rightColumns =
    Ok (columns_to (newly_preserved sides sides') (zip (outputColumns join) (sourceColumns join))) /\
  forall m (xs ys : list Row) row source,
    row ∈ join_rows t' m xs ys -> preserves sides' source = true ->
    (column_id source ∈ leftColumns -> is_Some (row_left row)) /\
    (column_id source ∈ rightColumns -> is_Some (row_right row)).
Proof.
  intros Hs Hs' Hnd. split.
  { unfold OuterJoinReduction.reducedOutputs. rewrite (reduced_outputs_spec _ _ sides sides'); try done.
    by apply zip_outputs. }
  intros m xs ys row source Hrow Hp.
  apply join_rows_sides in Hrow as (_ & _ & Hl & Hr & _). rewrite Hs' in Hl, Hr. simpl in Hl, Hr.
  unfold preserves in Hp. rewrite orb_true_iff, !andb_true_iff, !bool_decide_eq_true in Hp.
  split; intros Hin; destruct Hp as [[Hside Hin']|[Hside Hin']].
  - destruct Hl as [x ->]; [by rewrite Hside|]. done.
  - exfalso. clear -Hin Hin' Hdisjoint. set_solver.
  - exfalso. clear -Hin Hin' Hdisjoint. set_solver.
  - destruct Hr as [y ->]; [by rewrite Hside|]. done.
Qed.

(** ** The mark of a semi-project join *)

(** The mark of a row: whether it has a match, unknown when only unknown ones and the
    join is null-aware. *)
Definition mark_value {L R} (nullAware : bool) (m : L -> R -> option bool) (rs : list R) (l : L) :
    option bool :=
  if has_match (reading false m) rs l then Some true
  else if nullAware && has_match (reading true m) rs l then None else Some false.

(** The rows of the left semi-project join. *)
Definition projected {L R} (nullAware : bool) (m : L -> R -> option bool) (ls : list L) (rs : list R) :
    list (Joins.Row L R) :=
  map (fun l => (Some l, None, mark_value nullAware m rs l)) ls.

Lemma projected_two_valued {L R} (m : L -> R -> option bool) (ls : list L) (rs : list R) :
  projected false m ls rs = join_rows kLeftSemiProject (reading false m) ls rs.
Proof.
  unfold projected, join_rows. apply map_ext. intros l. unfold marked, mark_value.
  by destruct (has_match _ rs l).
Qed.

Lemma reading_weaker {L R} (m : L -> R -> option bool) (rs : list R) (l : L) :
  has_match (reading false m) rs l = true -> has_match (reading true m) rs l = true.
Proof.
  unfold has_match. rewrite !existsb_exists. intros (r & Hr & Hm). exists r. split; [done|].
  unfold reading in *. apply bool_decide_eq_true in Hm. by rewrite Hm.
Qed.

(** The mark is false on the rows of the anti join, true on those of the semi join. *)
Lemma mark_value_false {L R} nullAware (m : L -> R -> option bool) (rs : list R) (l : L) :
  mark_value nullAware m rs l = Some false <-> has_match (reading nullAware m) rs l = false.
Proof.
  unfold mark_value. pose proof (reading_weaker m rs l) as Hw.
  destruct (has_match (reading false m) rs l) eqn:Hm; destruct nullAware; cbn [andb].
  - by rewrite Hw.
  - by rewrite Hm.
  - by destruct (has_match (reading true m) rs l).
  - by rewrite Hm.
Qed.

Lemma mark_value_true {L R} nullAware (m : L -> R -> option bool) (rs : list R) (l : L) :
  mark_value nullAware m rs l = Some true <-> has_match (reading false m) rs l = true.
Proof.
  unfold mark_value. destruct (has_match (reading false m) rs l); [done|]. by destruct (_ && _).
Qed.

Context (b : Builder T V) (Hb : arena_ok b).

(** The conjunct that is fused, and the join it asks for. *)
Definition asks_for (mark : Column T) (fusion : MarkFilterFusion.Fusion (T:=T) (V:=V)) : Prop :=
  match MarkFilterFusion.conjunct fusion with
  | ColumnExpr c => c = mark /\ MarkFilterFusion.fusedType fusion = kLeftSemiFilter
  | CallExpr name args _ _ _ =>
      args = [ColumnExpr mark] /\ negation functionNames = Some name /\
      MarkFilterFusion.fusedType fusion = kAnti
  | _ => False
  end.

Lemma find_fused_spec mark pending fusion :
  Forall (valid b) pending -> valid b (ColumnExpr mark) ->
  MarkFilterFusion.find_fused functionNames mark pending = Some fusion ->
  MarkFilterFusion.conjunct fusion ∈ pending /\ asks_for mark fusion.
Proof.
  intros Hp Hm. induction Hp as [|e pending He _ IH]; [done|]. cbn [MarkFilterFusion.find_fused].
  assert (Hlater : MarkFilterFusion.find_fused functionNames mark pending = Some fusion ->
    MarkFilterFusion.conjunct fusion ∈ e :: pending /\ asks_for mark fusion).
  { intros [? ?]%IH. split; [by right|done]. }
  destruct (Expr.same e (ColumnExpr mark)) eqn:Hs.
  { intros [= <-]. apply (same_eq b) in Hs as ->; [|done..]. split; [by left|done]. }
  destruct (MarkFilterFusion.isNot functionNames e) as [negated|] eqn:Hn; [|done].
  destruct (Expr.same negated (ColumnExpr mark)) eqn:Hs'; [|done]. intros [= <-].
  destruct e as [| |name [|arg [|]] t fs i| | |]; try done. unfold MarkFilterFusion.isNot in Hn.
  destruct (name_is (Some name) (negation functionNames)) eqn:Hname; [|done]. injection Hn as ->.
  pose proof (valid_children _ _ Hb He) as Hch. inversion Hch as [|? ? Hneg _]; subst.
  apply (same_eq b) in Hs' as ->; [|done..]. unfold name_is in Hname. apply bool_decide_eq_true in Hname.
  split; [by left|done].
Qed.

(** The fused conjunct on a row with a mark. *)
Lemma accepts_mark mark fusion (r : Row) z :
  asks_for mark fusion -> r !! column_id mark = of_bool <$> z ->
  accepts r (MarkFilterFusion.conjunct fusion) =
  bool_decide (z = Some (bool_decide (MarkFilterFusion.fusedType fusion = kLeftSemiFilter))).
Proof.
  intros Ha Hz. unfold ImpliedFilters.accepts, asks_for in *.
  assert (Ht : truth_of eval (ColumnExpr mark) r = z).
  { unfold truth_of. rewrite (eval_column_at functionNames types eval less reversed constant Heval), Hz.
    destruct z; [|done]. simpl. by rewrite boolean_of_bool. }
  apply bool_decide_ext. destruct (MarkFilterFusion.conjunct fusion); try done.
  - destruct Ha as [-> ->]. by rewrite Ht.
  - destruct Ha as (-> & Hn & ->).
    rewrite (truth_not_at functionNames types eval less reversed constant Heval) by done. rewrite Ht.
    by destruct z as [[]|].
Qed.

Lemma output_marked mark (l : Row) z : output_row mark (Some l, None, z) = l ∪ mark_row mark z.
Proof. unfold output_row. cbn. by rewrite map_union_empty. Qed.

(** The other conjuncts do not read the mark. *)
Lemma accepts_unmarked (mark : Column T) (l : Row) z (e : Expr) :
  MarkFilterFusion.reads mark e = false ->
  accepts (output_row (column_id mark) (Some l, None, z)) e =
  accepts (output_row (column_id mark) (Some l, None, None)) e.
Proof.
  intros Hr. apply (accepts_columns functionNames types eval less reversed constant Heval).
  intros c Hc. rewrite !output_marked, !lookup_union. f_equal. destruct z as [z|]; [|done]. cbn [mark_row].
  rewrite lookup_empty. apply lookup_singleton_ne. intros Heq. unfold MarkFilterFusion.reads in Hr.
  assert (existsb (fun c => same_column c mark) (Expr.columns e) = true); [|congruence].
  apply existsb_exists. exists c. split; [by apply list_elem_of_In|]. by apply Nat.eqb_eq.
Qed.

Lemma fuse_some join pending requiredAbove fusion :
  MarkFilterFusion.fuse functionNames join pending requiredAbove = Ok (Some fusion) ->
  exists mark, joinType join = kLeftSemiProject /\ markColumn join = Some mark /\
    (column_id mark ∉ requiredAbove) /\
    MarkFilterFusion.find_fused functionNames mark pending = Some fusion /\
    (forall e : Expr, e ∈ MarkFilterFusion.remaining fusion pending -> MarkFilterFusion.reads mark e = false).
Proof.
  unfold MarkFilterFusion.fuse. case_bool_decide as Ht; [|done]. cbn [negb].
  destruct (markColumn join) as [mark|]; [|done]. case_bool_decide as Hin; [done|].
  destruct (MarkFilterFusion.find_fused functionNames mark pending) as [fused|] eqn:Hfind; [|done].
  destruct (existsb _ pending) eqn:Hany; [done|]. intros [= <-]. exists mark.
  do 4 (split; [done|]). intros e He. unfold MarkFilterFusion.remaining in He. apply list_elem_of_In, filter_In in He as [Hine Hs].
  apply not_true_is_false. intros Hr.
  assert (existsb (fun e : Expr => negb (Expr.same e (MarkFilterFusion.conjunct fused)) &&
    MarkFilterFusion.reads mark e) pending = true); [|congruence].
  apply existsb_exists. exists e. split; [done|]. by rewrite Hs, Hr.
Qed.

Lemma accepts_pending (fusion : MarkFilterFusion.Fusion (T:=T) (V:=V)) pending (r : Row) :
  Forall (valid b) pending -> MarkFilterFusion.conjunct fusion ∈ pending ->
  forallb (accepts r) pending =
  accepts r (MarkFilterFusion.conjunct fusion) && forallb (accepts r) (MarkFilterFusion.remaining fusion pending).
Proof.
  intros Hp Hin. apply Bool.eq_true_iff_eq. rewrite andb_true_iff, !forallb_forall.
  unfold MarkFilterFusion.remaining. setoid_rewrite filter_In.
  rewrite Forall_forall in Hp. split.
  - intros Hall. split; [by apply Hall, list_elem_of_In|]. intros e [He _]. by apply Hall.
  - intros [Hc Hall] e He. destruct (Expr.same e (MarkFilterFusion.conjunct fusion)) eqn:Hs.
    + apply (same_eq b) in Hs as ->; [done|by apply Hp, list_elem_of_In|by apply Hp].
    + apply Hall. by rewrite Hs.
Qed.

Lemma forallb_ext_elem {A} (p q : A -> bool) (l : list A) :
  (forall a, a ∈ l -> p a = q a) -> forallb p l = forallb q l.
Proof.
  induction l as [|a l IH]; intros Hpq; [done|]. simpl. rewrite (Hpq a) by by left.
  rewrite IH; [done|]. intros a' Ha. apply Hpq. by right.
Qed.

(** The rows of a projection that pass, and what passes of the filtering join. *)
Lemma passing_marked (mark : Column T) fusion pending (l : Row) z :
  Forall (valid b) pending -> MarkFilterFusion.conjunct fusion ∈ pending -> asks_for mark fusion ->
  (forall e : Expr, e ∈ MarkFilterFusion.remaining fusion pending -> MarkFilterFusion.reads mark e = false) ->
  l !! column_id mark = None ->
  forallb (accepts (output_row (column_id mark) (Some l, None, z))) pending =
  bool_decide (z = Some (bool_decide (MarkFilterFusion.fusedType fusion = kLeftSemiFilter))) &&
  forallb (accepts (output_row (column_id mark) (Some l, None, None)))
    (MarkFilterFusion.remaining fusion pending).
Proof.
  intros Hp Hin Hasks Hrest Hl. rewrite (accepts_pending fusion pending) by done. f_equal.
  - apply (accepts_mark mark); [done|]. rewrite output_marked, lookup_union, Hl.
    destruct z; cbn [mark_row]; [by rewrite lookup_singleton_eq|by rewrite lookup_empty].
  - apply forallb_ext_elem. intros e He. by apply accepts_unmarked, Hrest.
Qed.

(** C20: Filtering the rows of a left semi-project join by the predicates above it and
    dropping the mark is filtering the rows of the fused join by the remaining ones: the
    semi join for the mark, the anti join for its negation, null-aware - no row with an
    unknown match is emitted - if the mark is.  No one misses the mark: it is not required
    above, and no remaining predicate reads it. *)
Theorem fuse_is_filtering_join join pending requiredAbove fusion (m : Row -> Row -> option bool)
    (mark : Column T) xs ys :
  Forall (valid b) pending -> markColumn join = Some mark -> valid b (ColumnExpr mark) ->
  column_id mark ∉ leftColumns -> Forall (row_of leftColumns) xs ->
  MarkFilterFusion.fuse functionNames join pending requiredAbove = Ok (Some fusion) ->
  let passing es row := forallb (accepts (output_row (column_id mark) row)) es in
  joinType join = kLeftSemiProject /\ (column_id mark ∉ requiredAbove) /\
  (forall e, e ∈ MarkFilterFusion.remaining fusion pending -> MarkFilterFusion.reads mark e = false) /\
  map row_left (List.filter (passing pending) (projected (nullAware join) m xs ys)) =
  map row_left (List.filter (passing (MarkFilterFusion.remaining fusion pending))
    (join_rows (MarkFilterFusion.fusedType fusion)
       (reading (MarkFilterFusion.fusedNullAware join fusion) m) xs ys)).
Proof.
  intros Hp Hmark Hv Hfresh Hxs Hf passing.
  apply fuse_some in Hf as (mark' & Hproject & Hmark' & Habove & Hfind & Hrest).
  rewrite Hmark in Hmark'. injection Hmark' as <-. split; [done|]. split; [done|]. split; [done|].
  apply find_fused_spec in Hfind as [Hin Hasks]; [|done..].
  assert (Hl : forall l, l ∈ xs -> l !! column_id mark = None).
  { intros l Hl. rewrite Forall_forall in Hxs. destruct (Hxs l Hl) as [Hd _]. apply not_elem_of_dom.
    clear -Hd Hfresh. set_solver. }
  assert (Hpass : forall l, l ∈ xs -> passing pending (Some l, None, mark_value (nullAware join) m ys l) =
    bool_decide (mark_value (nullAware join) m ys l =
      Some (bool_decide (MarkFilterFusion.fusedType fusion = kLeftSemiFilter))) &&
    passing (MarkFilterFusion.remaining fusion pending) (Some l, None, None)).
  { intros l Hlx. apply passing_marked; try done. by apply Hl. }
  unfold projected. rewrite filter_map_some, map_map. cbn [row_left fst snd].
  rewrite (filter_ext_elem _ _ _ Hpass). unfold MarkFilterFusion.fusedNullAware.
  assert (Htype : MarkFilterFusion.fusedType fusion = kLeftSemiFilter \/ MarkFilterFusion.fusedType fusion = kAnti).
  { unfold asks_for in Hasks. destruct (MarkFilterFusion.conjunct fusion); naive_solver. }
  destruct Htype as [-> | ->]; cbn [join_rows]; unfold matched, unmatched;
    rewrite filter_map_some, map_map, Joins.filter_filter; cbn [row_left fst snd];
    f_equal; apply filter_ext_elem; intros l _; rewrite andb_comm; f_equal.
  - apply Bool.eq_true_iff_eq. rewrite bool_decide_eq_true. apply mark_value_true.
  - apply Bool.eq_true_iff_eq. rewrite bool_decide_eq_true, negb_true_iff. apply mark_value_false.
Qed.
End Meaning.
