(* ===== verification/RedundantKeys.v ===== *)
(** * Redundant partition and sort keys

    [axiom/optimizer/v2/RedundantKeys.cpp]: dropping literal and repeated keys.  The sort keys
    and their orders are compacted in place, as the code does.

    The theorem: rows are in one partition under the kept partition keys exactly when they
    are under all keys; two rows of a partition compare under the kept sort keys as under
    all; and no further key is redundant by the same rules. *)

From Stdlib Require Import Lia.
From S2P Require Import Prelude Expressions.

Local Open Scope nat_scope.
Set Warnings "-register-all".

(** [OrderType] *)
Inductive OrderType := kAscNullsFirst | kAscNullsLast | kDescNullsFirst | kDescNullsLast.

Module RedundantKeys.
Section RedundantKeys.
Context {T V : Type}.
Abbreviation Expr := (Expr T V).

Definition is_literal (key : Expr) : bool := match key with LiteralExpr _ _ _ => true | _ => false end.

(** [std::erase_if] with the set the predicate fills. *)
Fixpoint erase_redundant (seen : gset nat) (keys : list Expr) : list Expr :=
  match keys with
  | [] => []
  | key :: keys =>
      if is_literal key || bool_decide (Expr.expr_id key ∈ seen) then erase_redundant seen keys
      else key :: erase_redundant ({[Expr.expr_id key]} ∪ seen) keys
  end.

Definition dropFromPartitionKeys (partitionKeys : list Expr) : list Expr := erase_redundant ∅ partitionKeys.

(** The vectors being compacted, [seen] and [numKept]. *)
Record Compaction := mkCompaction {
  sortKeys : list Expr;
  sortTypes : list OrderType;
  seen : gset nat;
  numKept : nat
}.

(** One iteration; an index past the vectors does not occur. *)
Definition compact_step (s : Compaction) (i : nat) : Compaction :=
  match sortKeys s !! i, sortTypes s !! i with
  | Some key, Some type =>
      if is_literal key || bool_decide (Expr.expr_id key ∈ seen s) then s
      else mkCompaction (<[numKept s := key]> (sortKeys s)) (<[numKept s := type]> (sortTypes s))
             ({[Expr.expr_id key]} ∪ seen s) (S (numKept s))
  | _, _ => s
  end.

Definition dropFromSortKeys (partitionKeys keys : list Expr) (types : list OrderType) :
    Result (list Expr * list OrderType) :=
  velox_check (length keys =? length types) "sortKeys.size(), sortTypes.size()" ≫= fun _ =>
  let s := foldl compact_step
             (mkCompaction keys types (list_to_set (map Expr.expr_id partitionKeys)) 0)
             (seq 0 (length keys)) in
  Ok (take (numKept s) (sortKeys s), take (numKept s) (sortTypes s)).
End RedundantKeys.
End RedundantKeys.

Import RedundantKeys.

(** ** The compaction is a filter *)

Section Compaction.
Context {T V : Type}.
Abbreviation Expr := (Expr T V).

(** The pairs of a key and its order that are kept. *)
Fixpoint kept_pairs (seen : gset nat) (pairs : list (Expr * OrderType)) : list (Expr * OrderType) :=
  match pairs with
  | [] => []
  | (key, type) :: pairs =>
      if is_literal key || bool_decide (Expr.expr_id key ∈ seen) then kept_pairs seen pairs
      else (key, type) :: kept_pairs ({[Expr.expr_id key]} ∪ seen) pairs
  end.

Lemma insert_compact {A} (kept pad rest : list A) x :
  exists pad', <[length kept := x]> (kept ++ pad ++ x :: rest) = (kept ++ [x]) ++ pad' ++ rest /\
    length pad' = length pad.
Proof.
  rewrite <- (Nat.add_0_r (length kept)), insert_app_r. destruct pad as [|y pad]; cbn.
  - exists []. by rewrite <- (assoc_L app).
  - exists (pad ++ [x]). rewrite length_app. cbn. split; [| lia]. by rewrite <- !(assoc_L app).
Qed.

Lemma lookup_behind {A} (kept pad rest : list A) x :
  (kept ++ pad ++ x :: rest) !! (length kept + length pad) = Some x.
Proof.
  rewrite (assoc_L app), <- length_app. by apply list_lookup_middle.
Qed.

Lemma compact_step_behind keptKeys keptTypes padKeys padTypes key type restKeys restTypes found :
  length keptKeys = length keptTypes -> length padKeys = length padTypes ->
  compact_step (mkCompaction (keptKeys ++ padKeys ++ key :: restKeys) (keptTypes ++ padTypes ++ type :: restTypes)
                  found (length keptKeys)) (length keptKeys + length padKeys) =
  if is_literal (T:=T) (V:=V) key || bool_decide (Expr.expr_id key ∈ found)
  then mkCompaction (keptKeys ++ padKeys ++ key :: restKeys) (keptTypes ++ padTypes ++ type :: restTypes)
         found (length keptKeys)
  else mkCompaction (<[length keptKeys := key]> (keptKeys ++ padKeys ++ key :: restKeys))
         (<[length keptTypes := type]> (keptTypes ++ padTypes ++ type :: restTypes))
         ({[Expr.expr_id key]} ∪ found) (S (length keptKeys)).
Proof.
  intros Hk Hp. unfold compact_step. cbn [sortKeys sortTypes seen numKept]. rewrite lookup_behind.
  replace (length keptKeys + length padKeys) with (length keptTypes + length padTypes) by lia.
  by rewrite lookup_behind, Hk.
Qed.

(** The kept pairs are in front, what is to come is in place. *)
Lemma compact_loop (rest : list (Expr * OrderType)) keptKeys keptTypes padKeys padTypes (found : gset nat) :
  length keptKeys = length keptTypes -> length padKeys = length padTypes ->
  let s' := foldl compact_step
              (mkCompaction (keptKeys ++ padKeys ++ map fst rest) (keptTypes ++ padTypes ++ map snd rest)
                 found (length keptKeys))
              (seq (length keptKeys + length padKeys) (length rest)) in
  take (numKept s') (sortKeys s') = keptKeys ++ map fst (kept_pairs found rest) /\
  take (numKept s') (sortTypes s') = keptTypes ++ map snd (kept_pairs found rest).
Proof.
  revert keptKeys keptTypes padKeys padTypes found.
  induction rest as [|[key type] rest IH]; intros keptKeys keptTypes padKeys padTypes found Hk Hp.
  - cbn. rewrite !app_nil_r, take_app_length, Hk, take_app_length. done.
  - cbn [length seq foldl map fst snd]. rewrite compact_step_behind by done. cbn [kept_pairs].
    destruct (is_literal key || _).
    + specialize (IH keptKeys keptTypes (padKeys ++ [key]) (padTypes ++ [type]) found Hk).
      rewrite !length_app, Hp in IH. cbn in IH. specialize (IH eq_refl).
      rewrite <- !(assoc_L app) in IH. cbn in IH. rewrite <- Hp in IH.
      replace (S (length keptKeys + length padKeys)) with (length keptKeys + (length padKeys + 1)) by lia. exact IH.
    + destruct (insert_compact keptKeys padKeys (map fst rest) key) as (pad1 & -> & L1).
      destruct (insert_compact keptTypes padTypes (map snd rest) type) as (pad2 & -> & L2).
      specialize (IH (keptKeys ++ [key]) (keptTypes ++ [type]) pad1 pad2 ({[Expr.expr_id key]} ∪ found)).
      rewrite !length_app in IH. cbn [length] in IH. specialize (IH ltac:(lia) ltac:(lia)).
      rewrite L1 in IH. cbn [map fst snd].
      replace (S (length keptKeys + length padKeys)) with (length keptKeys + 1 + length padKeys) by lia.
      replace (S (length keptKeys)) with (length keptKeys + 1) by lia.
      destruct IH as [IH1 IH2]. split; [rewrite IH1 | rewrite IH2]; by rewrite <- (assoc_L app).
Qed.

Lemma dropFromSortKeys_spec (partitionKeys keys : list Expr) types keys' types' :
  dropFromSortKeys partitionKeys keys types = Ok (keys', types') ->
  length keys = length types /\
  keys' = map fst (kept_pairs (list_to_set (map Expr.expr_id partitionKeys)) (zip keys types)) /\
  types' = map snd (kept_pairs (list_to_set (map Expr.expr_id partitionKeys)) (zip keys types)).
Proof.
  unfold dropFromSortKeys. destruct (length keys =? length types) eqn:E; [| done]. apply Nat.eqb_eq in E.
  cbn [mbind Result_bind velox_check]. intros [= <- <-]. split; [done |].
  pose proof (compact_loop (zip keys types) [] [] [] [] (list_to_set (map Expr.expr_id partitionKeys)) eq_refl eq_refl)
    as H. cbn [app length Nat.add] in H. change (map fst) with (fmap (M := list) (@fst Expr OrderType)) in H |- *.
  change (map snd) with (fmap (M := list) (@snd Expr OrderType)) in H |- *.
  rewrite fst_zip, snd_zip, length_zip_with in H by lia. rewrite E, Nat.min_id, <- E in H. exact H.
Qed.
End Compaction.

(** ** What keys mean *)

Section Meaning.
Context {T V : Type} {R A : Type}.
Abbreviation Expr := (Expr T V).
(** The value of a key in a row; which values are one (not distinct); the order of two
    values. *)
Variable value : Expr -> R -> A.
Variable same_value : A -> A -> Prop.
Variable compare : OrderType -> A -> A -> comparison.

(** The rows agree on the key. *)
Definition agree (key : Expr) (r r' : R) : Prop := same_value (value key r) (value key r').

(** Rows of one partition. *)
Definition same_partition (keys : list Expr) (r r' : R) : Prop := forall key, key ∈ keys -> agree key r r'.

(** The order of two rows: by the first key that tells them apart. *)
Fixpoint compare_rows (keys : list (Expr * OrderType)) (r r' : R) : comparison :=
  match keys with
  | [] => Eq
  | (key, type) :: keys =>
      match compare type (value key r) (value key r') with
      | Eq => compare_rows keys r r'
      | c => c
      end
  end.

(** Keys are interned: an id names one expression. *)
Definition interned (keys : list Expr) : Prop :=
  forall a b, a ∈ keys -> b ∈ keys -> Expr.expr_id a = Expr.expr_id b -> a = b.

Hypothesis same_value_refl : forall x, same_value x x.
Hypothesis literal_constant : forall key r r', is_literal key = true -> value key r = value key r'.
(** All orders tie on the same values. *)
Hypothesis compare_same : forall type x y, compare type x y = Eq <-> same_value x y.

Lemma literal_agree key r r' : is_literal key = true -> agree key r r'.
Proof. intros Hl. unfold agree. by rewrite (literal_constant key r r' Hl). Qed.

Lemma erase_redundant_sub found (keys : list Expr) key : key ∈ erase_redundant found keys -> key ∈ keys.
Proof.
  revert found. induction keys as [|k keys IH]; intros found; cbn; [done |].
  destruct (is_literal k || _); rewrite ?elem_of_cons; [eauto |]. intros [->|H]; eauto.
Qed.

(** Rows that agree on the kept keys and on those found before agree on all. *)
Lemma erase_redundant_agree (keys all : list Expr) (found : gset nat) r r' :
  interned all -> keys ⊆ all ->
  (forall key, key ∈ all -> Expr.expr_id key ∈ found -> agree key r r') ->
  same_partition (erase_redundant found keys) r r' -> same_partition keys r r'.
Proof.
  intros Hint. revert found. induction keys as [|k keys IH]; intros found Hsub Hfound Hkept key Hkey;
    [by apply not_elem_of_nil in Hkey |].
  assert (Hk : k ∈ all) by (apply Hsub; by left). assert (Hsub' : keys ⊆ all) by (intros x Hx; apply Hsub; by right).
  cbn in Hkept. destruct (is_literal k || bool_decide (Expr.expr_id k ∈ found)) eqn:Edrop.
  - apply elem_of_cons in Hkey as [->|Hkey]; [| by apply (IH found)].
    apply orb_true_iff in Edrop as [Hl|Hin%bool_decide_eq_true]; [by apply literal_agree | by apply Hfound].
  - assert (Hval : agree k r r') by (apply Hkept; by left).
    apply elem_of_cons in Hkey as [->|Hkey]; [done |].
    apply (IH ({[Expr.expr_id k]} ∪ found)); [done | | | done].
    + intros x Hx [Hid%elem_of_singleton|Hin]%elem_of_union; [| by apply Hfound].
      by rewrite (Hint x k Hx Hk Hid).
    + intros x Hx. apply Hkept. by right.
Qed.

(** Rows that agree on the keys found before compare under the kept pairs as under all. *)
Lemma kept_pairs_compare (pairs : list (Expr * OrderType)) (all : list Expr) (found : gset nat) r r' :
  interned all -> map fst pairs ⊆ all ->
  (forall key, key ∈ all -> Expr.expr_id key ∈ found -> agree key r r') ->
  compare_rows (kept_pairs found pairs) r r' = compare_rows pairs r r'.
Proof.
  intros Hint. revert found. induction pairs as [|[k type] pairs IH]; intros found Hsub Hfound; cbn; [done |].
  assert (Hk : k ∈ all) by (apply Hsub; by left).
  assert (Hsub' : map fst pairs ⊆ all) by (intros x Hx; apply Hsub; by right).
  destruct (is_literal k || bool_decide (Expr.expr_id k ∈ found)) eqn:Edrop.
  - assert (Hval : agree k r r').
    { apply orb_true_iff in Edrop as [Hl|Hin%bool_decide_eq_true]; [by apply literal_agree | by apply Hfound]. }
    apply compare_same with (type := type) in Hval. rewrite Hval. by apply IH.
  - cbn. destruct (compare type (value k r) (value k r')) eqn:Ec; try done.
    apply compare_same in Ec. apply IH; [done |].
    intros x Hx [Hid%elem_of_singleton|Hin]%elem_of_union; [| by apply Hfound].
    by rewrite (Hint x k Hx Hk Hid).
Qed.

(** No kept key is a literal, was found before or repeats another. *)
Lemma erase_redundant_needed (keys : list Expr) (found : gset nat) :
  NoDup (map Expr.expr_id (erase_redundant found keys)) /\
  Forall (fun key => is_literal key = false /\ Expr.expr_id key ∉ found) (erase_redundant found keys).
Proof.
  revert found. induction keys as [|k keys IH]; intros found; cbn; [split; [constructor | done] |].
  destruct (is_literal k || bool_decide (Expr.expr_id k ∈ found)) eqn:Edrop; [apply IH |].
  apply orb_false_iff in Edrop as [Hl Hn%bool_decide_eq_false].
  destruct (IH ({[Expr.expr_id k]} ∪ found)) as [Hnodup Hall]. rewrite Forall_forall in Hall. split; cbn.
  - constructor; [| done]. intros (x & Hid & Hx)%list_elem_of_fmap.
    destruct (Hall x Hx) as [_ Hnot]. apply Hnot. rewrite Hid. set_solver.
  - constructor; [done |]. apply Forall_forall. intros x Hx. destruct (Hall x Hx) as [? Hnot].
    split; [done |]. set_solver.
Qed.

(** The kept keys are those of [erase_redundant]. *)
Lemma kept_pairs_keys (pairs : list (Expr * OrderType)) found :
  map fst (kept_pairs found pairs) = erase_redundant found (map fst pairs).
Proof.
  revert found. induction pairs as [|[k type] pairs IH]; intros found; cbn; [done |].
  destruct (is_literal k || _); cbn; by rewrite IH.
Qed.

(** Dropping redundant keys changes no result.  Rows are in one partition under the kept
    partition keys exactly when they are under all of them.  The kept sort keys keep their
    orders, and rows of one partition compare under them as under all of them.  Of the kept
    keys none is a literal and none repeats another or, in a sort, a partition key. *)
Theorem dropped_keys_change_nothing partitionKeys keys types keys' types' :
  interned (partitionKeys ++ keys) -> dropFromSortKeys partitionKeys keys types = Ok (keys', types') ->
  (forall r r', same_partition (dropFromPartitionKeys partitionKeys) r r' <-> same_partition partitionKeys r r') /\
  (forall r r', same_partition partitionKeys r r' ->
     compare_rows (zip keys' types') r r' = compare_rows (zip keys types) r r') /\
  length keys' = length types' /\
  NoDup (map Expr.expr_id (dropFromPartitionKeys partitionKeys)) /\ NoDup (map Expr.expr_id keys') /\
  Forall (fun key => is_literal key = false) (dropFromPartitionKeys partitionKeys) /\
  Forall (fun key => is_literal key = false /\ Expr.expr_id key ∉ map Expr.expr_id partitionKeys) keys'.
Proof.
  intros Hint (Hlen & -> & ->)%dropFromSortKeys_spec.
  destruct (erase_redundant_needed partitionKeys ∅) as [Hn1 Hf1].
  destruct (erase_redundant_needed keys (list_to_set (map Expr.expr_id partitionKeys))) as [Hn2 Hf2].
  assert (Hfst : map fst (zip keys types) = keys) by (apply (fst_zip keys types); lia).
  rewrite kept_pairs_keys, Hfst. split_conj; try done.
  - intros r r'. split.
    + apply (erase_redundant_agree partitionKeys (partitionKeys ++ keys)); [done | set_solver | set_solver].
    + intros Hall key Hkey. apply Hall. by eapply erase_redundant_sub.
  - intros r r' Hsame. rewrite <- Hfst at 1. rewrite <- kept_pairs_keys.
    assert (Hzip : forall l : list (Expr * OrderType), zip (map fst l) (map snd l) = l).
    { induction l as [|[a b] l IHl]; cbn; [done | by rewrite IHl]. }
    rewrite Hzip. apply (kept_pairs_compare _ (partitionKeys ++ keys)); [done | rewrite Hfst; set_solver |].
    intros key Hkey Hid. apply elem_of_list_to_set, list_elem_of_fmap in Hid as (key' & Heq & Hkey').
    rewrite (Hint key key'); [by apply Hsame | done | set_solver | done].
  - rewrite <- Hfst at 1. by rewrite <- kept_pairs_keys, !length_map.
  - eapply Forall_impl; [exact Hf1 |]. by intros x [? _].
  - eapply Forall_impl; [exact Hf2 |]. intros x [? Hn]. split; [done |]. by rewrite elem_of_list_to_set in Hn.
Qed.
End Meaning.

(** ** Keys to drop *)

Module KeyExample.
Definition key (id : nat) : Expr unit Z := ColumnExpr (mkColumn id tt).
Definition five : Expr unit Z := LiteralExpr 5%Z tt 9.

(** Rows give a number to each column. *)
Definition value (e : Expr unit Z) (r : nat -> Z) : Z :=
  match e with ColumnExpr column => r (column_id column) | LiteralExpr n _ _ => n | _ => 0%Z end.
Definition compare (type : OrderType) (x y : Z) : comparison :=
  match type with
  | kAscNullsFirst | kAscNullsLast => Z.compare x y
  | kDescNullsFirst | kDescNullsLast => Z.compare y x
  end.

Definition partitionKeys : list (Expr unit Z) := [key 0; five; key 0; key 1].
Definition sortBy : list (Expr unit Z) := [five; key 1; key 2; key 2; key 3].
Definition orders : list OrderType :=
  [kAscNullsFirst; kAscNullsFirst; kDescNullsLast; kAscNullsFirst; kAscNullsLast].

Lemma dropped_keys_change_nothing_witness :
  dropFromPartitionKeys partitionKeys = [key 0; key 1] /\
  dropFromSortKeys partitionKeys sortBy orders = Ok ([key 2; key 3], [kDescNullsLast; kAscNullsLast]) /\
  forall r r' : nat -> Z, r 0 = r' 0 -> r 1 = r' 1 ->
    compare_rows value compare (zip [key 2; key 3] [kDescNullsLast; kAscNullsLast]) r r' =
    compare_rows value compare (zip sortBy orders) r r'.
Proof.
  split; [vm_compute; reflexivity |].
  assert (H : dropFromSortKeys partitionKeys sortBy orders =
              Ok ([key 2; key 3], [kDescNullsLast; kAscNullsLast])) by (vm_compute; reflexivity).
  split; [exact H |]. intros r r' H0 H1.
  refine (proj1 (proj2 (dropped_keys_change_nothing value eq compare _ _ _ _ _ _ _ _ _ H)) r r' _).
  - reflexivity.
  - intros [] ? ? Hl; try discriminate Hl. reflexivity.
  - intros [] x y; cbn; rewrite Z.compare_eq_iff; split; congruence.
  - intros a b Ha Hb. cbn in Ha, Hb.
    repeat (apply elem_of_cons in Ha as [->|Ha]); [.. | by apply not_elem_of_nil in Ha];
      repeat (apply elem_of_cons in Hb as [->|Hb]); try reflexivity; try discriminate;
      by apply not_elem_of_nil in Hb.
  - intros k Hk. unfold agree. repeat (apply elem_of_cons in Hk as [->|Hk]); try assumption; try reflexivity.
    by apply not_elem_of_nil in Hk.
Defined.
End KeyExample.
