(* ===== verification/NonNullOutputs.v ===== *)
(** * Columns that are never NULL

    [axiom/optimizer/v2/NonNullOutput.*]: for each node of a plan the output columns that are
    proven not to be [NULL], with the cache of answers by node.

    A node is a tree with the members the derivation reads; a node is found in the cache by
    its pointer.  What a node emits is a relation on rows: those of a join are the rows of
    [Joins], and nodes that pass rows through keep the columns they share with their input.

    The theorem: no row a node emits has [NULL] in a column of its answer, whatever the cache
    holds of earlier answers. *)

From Stdlib Require Import ZArith Lia.
From S2P Require Import Prelude Word64 BitSets QueryGraph Joins Partitionings Nodes.
From S2P Require Import Domains DomainSets Expressions ExprDomains SqlSemantics Builders ExprFactories ExprSimplifiers NonNullSimplifiers FilterSimplifiers ImpliedFilters JoinPlacements JoinRouting JoinReductions.

Local Open Scope nat_scope.
Set Warnings "-register-all".

Module NonNullOutput.
Section NonNullOutput.
Context {T V : Type} `{TypeOps T} `{VariantOps V}.
(** Whether [VELOX_DCHECK]s are checked. *)
Variable debug : bool.
Abbreviation Expr := (Expr T V).
Abbreviation Column := (Column T).

(** The nodes; [OtherNode] is a node of any other type. *)
Inductive PlanNode :=
  | ProjectNode (pointer : nat) (exprs : list Expr) (outputColumns : list Column) (input : PlanNode)
  | AggregateNode (pointer : nat) (groupingKeys : list Expr) (outputColumns : list Column) (input : PlanNode)
  | UnionAllNode (pointer : nat) (legColumns : list (list Column)) (outputColumns : list Column)
      (inputs : list PlanNode)
  | JoinNode (pointer : nat) (joinType : JoinType) (nullAsValue : bool) (leftKeys rightKeys : list Expr)
      (outputColumns sourceColumns : list Column) (leftInput rightInput : PlanNode)
  | OtherNode (pointer : nat) (nodeType : NodeType) (outputColumns : list Column) (inputs : list PlanNode).

Definition pointer_of (node : PlanNode) : nat :=
  match node with
  | ProjectNode pointer _ _ _ | AggregateNode pointer _ _ _ | UnionAllNode pointer _ _ _
  | JoinNode pointer _ _ _ _ _ _ _ _ | OtherNode pointer _ _ _ => pointer
  end.

Definition outputs_of (node : PlanNode) : list Column :=
  match node with
  | ProjectNode _ _ outputColumns _ | AggregateNode _ _ outputColumns _ | UnionAllNode _ _ outputColumns _
  | JoinNode _ _ _ _ _ outputColumns _ _ _ | OtherNode _ _ outputColumns _ => outputColumns
  end.

Definition inputs_of (node : PlanNode) : list PlanNode :=
  match node with
  | ProjectNode _ _ _ input | AggregateNode _ _ _ input => [input]
  | UnionAllNode _ _ _ inputs | OtherNode _ _ _ inputs => inputs
  | JoinNode _ _ _ _ _ _ _ leftInput rightInput => [leftInput; rightInput]
  end.

(** [cache_] *)
Abbreviation Cache := (gmap nat (gset nat)).
Abbreviation M := (StateM Cache).

(** [NonNullOutput::save]: [emplace] keeps an answer that is there, and returns it. *)
Definition save (pointer : nat) (result : gset nat) : M (gset nat) := fun cache =>
  match cache !! pointer with
  | Some saved => Ok (saved, cache)
  | None => Ok (result, <[pointer := result]> cache)
  end.

(** [NonNullOutput::propagate] *)
Definition propagate (source : gset nat) (outputColumns : list Column) (result : gset nat) : gset nat :=
  foldl (fun result column => if bool_decide (column_id column ∈ source) then {[column_id column]} ∪ result else result)
    result outputColumns.

(** The outputs whose expression is known not to be [NULL]. *)
Definition known_outputs (nonNull : gset nat) (exprs : list Expr) (outputColumns : list Column) : gset nat :=
  foldl (fun result '(expr, column) =>
    if NonNullSimplifier.isKnownNonNull nonNull expr then {[column_id column]} ∪ result else result)
    ∅ (zip exprs outputColumns).

(** Whether the column of the output is non-null in every leg. *)
Fixpoint all_legs (legs : list (M (gset nat) * list Column)) (output : nat) : M bool :=
  match legs with
  | [] => mret true
  | (get, columns) :: legs =>
      nonNull ← get;
      match columns !! output with
      | None => throw (VeloxUnreachable "legColumns()[leg][output]")
      | Some column => if bool_decide (column_id column ∈ nonNull) then all_legs legs output else mret false
      end
  end.

Fixpoint union_outputs (legs : list (M (gset nat) * list Column)) (output : nat) (outputColumns : list Column)
    (result : gset nat) : M (gset nat) :=
  match outputColumns with
  | [] => mret result
  | column :: outputColumns =>
      nonNull ← all_legs legs output;
      union_outputs legs (S output) outputColumns (if nonNull : bool then {[column_id column]} ∪ result else result)
  end.

(** The columns of the keys that are [NULL] with any column they read. *)
Definition equiColumns (keys : list Expr) (columns : gset nat) : gset nat :=
  foldl (fun columns key =>
    if negb (Expr.containsNonDefaultNullBehavior key)
    then list_to_set (map column_id (Expr.columns key)) ∪ columns else columns) columns keys.

Definition passesRows (type : NodeType) : bool :=
  match type with
  | kFilter | kLimit | kSort | kTopN | kGroupId | kMarkDistinct | kUnnest | kWindow | kInference
  | kRowNumber | kTopNRowNumber | kAssignUniqueId | kEnforceDistinct | kNodeExchange => true
  | _ => false
  end.

(** The answer for an outer join's side. *)
Definition when_preserved (preserved : bool) (get : M (gset nat)) (outputColumns : list Column)
    (result : gset nat) : M (gset nat) :=
  if preserved then (nonNull ← get; mret (propagate nonNull outputColumns result)) else mret result.

Fixpoint get (node : PlanNode) : M (gset nat) := fun cache =>
  match cache !! pointer_of node with
  | Some saved => Ok (saved, cache)
  | None =>
      (match node with
       | ProjectNode pointer exprs outputColumns input =>
           inputNonNull ← get input;
           save pointer (known_outputs inputNonNull exprs outputColumns)
       | AggregateNode pointer groupingKeys outputColumns input =>
           inputNonNull ← get input;
           save pointer (known_outputs inputNonNull groupingKeys outputColumns)
       | UnionAllNode pointer legColumns outputColumns inputs =>
           result ← union_outputs (zip (map get inputs) legColumns) 0 outputColumns ∅;
           save pointer result
       | JoinNode pointer joinType nullAsValue leftKeys rightKeys outputColumns _ leftInput rightInput =>
           preserved ← lift (preservedSides joinType);
           result ← when_preserved (left_ preserved) (get leftInput) outputColumns ∅;
           result ← when_preserved (right_ preserved) (get rightInput) outputColumns result;
           save pointer
             (if bool_decide (joinType = kInner) && negb nullAsValue
              then propagate (equiColumns rightKeys (equiColumns leftKeys ∅)) outputColumns result
              else result)
       | OtherNode pointer nodeType outputColumns inputs =>
           if passesRows nodeType then
             lift (velox_check (negb debug || (length inputs =? 1)) "node->inputs().size(), 1") ≫= fun _ =>
             match map get inputs with
             | get_input :: _ =>
                 nonNull ← get_input;
                 save pointer (propagate nonNull outputColumns ∅)
             | [] => throw (VeloxUnreachable "node->inputs()[0]")
             end
           else save pointer ∅
       end) cache
  end.
End NonNullOutput.
End NonNullOutput.
Import NonNullOutput.

(** ** Trees *)

Section Trees.
Context {T V : Type}.
Abbreviation PlanNode := (PlanNode (T:=T) (V:=V)).

Section Induction.
Context (P : PlanNode -> Prop) (Hnode : forall node, Forall P (inputs_of node) -> P node).

Fixpoint PlanNode_nested_ind (node : PlanNode) : P node :=
  Hnode node
    (match node return Forall P (inputs_of node) with
     | ProjectNode _ _ _ input | AggregateNode _ _ _ input => Forall_cons_2 _ _ _ (PlanNode_nested_ind input) (Forall_nil_2 _)
     | UnionAllNode _ _ _ inputs | OtherNode _ _ _ inputs =>
         (fix each (inputs : list PlanNode) : Forall P inputs :=
            match inputs with
            | [] => Forall_nil_2 _
            | input :: inputs => Forall_cons_2 _ _ _ (PlanNode_nested_ind input) (each inputs)
            end) inputs
     | JoinNode _ _ _ _ _ _ _ leftInput rightInput =>
         Forall_cons_2 _ _ _ (PlanNode_nested_ind leftInput)
           (Forall_cons_2 _ _ _ (PlanNode_nested_ind rightInput) (Forall_nil_2 _))
     end).
End Induction.

(** The nodes of a plan. *)
Inductive node_of : PlanNode -> PlanNode -> Prop :=
  | node_of_root node : node_of node node
  | node_of_input node input other : input ∈ inputs_of node -> node_of input other -> node_of node other.

Lemma node_of_trans a b c : node_of a b -> node_of b c -> node_of a c.
Proof. induction 1; [done |]. intros Hc. eapply node_of_input; eauto. Qed.

Lemma node_of_its_input root node input : node_of root node -> input ∈ inputs_of node -> node_of root input.
Proof. intros Hn Hi. eapply node_of_trans; [exact Hn |]. eapply node_of_input; [exact Hi | constructor]. Qed.

(** A pointer names one node. *)
Definition coherent_plan (root : PlanNode) : Prop :=
  forall a b, node_of root a -> node_of root b -> pointer_of a = pointer_of b -> a = b.
End Trees.

(** ** Sets *)

Section Sets.
Context {T V : Type} `{TypeOps T} `{VariantOps V}.
Abbreviation ids := (map (column_id (T:=T))).

Lemma propagate_spec source (outputs : list (Column T)) result c :
  c ∈ propagate source outputs result <-> c ∈ result \/ (c ∈ source /\ c ∈ ids outputs).
Proof.
  unfold propagate. revert result. induction outputs as [|o outputs IH]; intros result; cbn.
  - split; [auto |]. intros [|[_ Hn%not_elem_of_nil]]; done.
  - rewrite IH, elem_of_cons. case_bool_decide as Ho; [| naive_solver].
    rewrite elem_of_union, elem_of_singleton. naive_solver.
Qed.

Lemma known_outputs_spec nonNull (exprs : list (Expr T V)) (outputs : list (Column T)) c :
  c ∈ known_outputs nonNull exprs outputs -> exists (e : Expr T V) (o : Column T), (e, o) ∈ zip exprs outputs /\
    NonNullSimplifier.isKnownNonNull nonNull e = true /\ c = column_id o.
Proof.
  unfold known_outputs.
  enough (Hall : forall l (acc : gset nat), c ∈ foldl (fun result '(expr, column) =>
      if NonNullSimplifier.isKnownNonNull nonNull expr then {[column_id column]} ∪ result else result) acc l ->
    c ∈ acc \/ exists (e : Expr T V) (o : Column T), (e, o) ∈ l /\ NonNullSimplifier.isKnownNonNull nonNull e = true /\ c = column_id o).
  { intros [Hn|Hs]%Hall; [by apply not_elem_of_empty in Hn | exact Hs]. }
  intros l. induction l as [|[e o] l IH]; intros acc; cbn; [auto |]. intros [Hc|(e' & o' & Hin & Hrest)]%IH.
  - destruct (NonNullSimplifier.isKnownNonNull nonNull e) eqn:Ek; [| by left].
    apply elem_of_union in Hc as [->%elem_of_singleton|Hc]; [right | by left]. exists e, o. split; [by left | done].
  - right. exists e', o'. split; [by right | done].
Qed.

Lemma equiColumns_spec (keys : list (Expr T V)) columns c :
  c ∈ equiColumns keys columns <-> c ∈ columns \/
    exists key, key ∈ keys /\ Expr.containsNonDefaultNullBehavior key = false /\ c ∈ ids (Expr.columns key).
Proof.
  unfold equiColumns. revert columns. induction keys as [|key keys IH]; intros columns; cbn.
  - split; [auto |]. intros [|(k & Hn%not_elem_of_nil & _)]; done.
  - rewrite IH. destruct (Expr.containsNonDefaultNullBehavior key) eqn:E; cbn.
    + split; (intros [Hc|(k & Hk & Hd & Hc)]; [by left |]); right; exists k; (split; [| done]).
      * by right.
      * apply elem_of_cons in Hk as [->|Hk]; [congruence | done].
    + rewrite elem_of_union, elem_of_list_to_set. split.
      * intros [[Hc|Hc]|(k & Hk & Hd & Hc)]; [right | by left | right].
        -- exists key. split; [by left | done].
        -- exists k. split; [by right | done].
      * intros [Hc|(k & [->|Hk]%elem_of_cons & Hd & Hc)]; [auto | auto |]. right. by exists k.
Qed.
End Sets.

(** ** What nodes emit *)

Section Meaning.
Context {T V : Type} `{TypedValues T V} `{FunctionRegistry} `{!VariantEq V}.
Context (functionNames : FunctionNames) (types : gmap nat T)
  (eval : Expr T V -> SqlSemantics.Row V -> option V)
  (less : V -> V -> bool) (reversed : string -> option string)
  (constant : Expr T V -> option (V * T)).
Context (Heval : EvalLaws functionNames types eval less reversed constant).
(** A field of a row that is [NULL] is [NULL]. *)
Hypothesis eval_field_null : forall base field t i r,
  eval base r = None -> eval (FieldExpr base field t i) r = None.
Variable debug : bool.
Abbreviation Row := (SqlSemantics.Row V).
Abbreviation Expr := (Expr T V).
Abbreviation PlanNode := (PlanNode (T:=T) (V:=V)).
Abbreviation ids := (map (column_id (T:=T))).

(** A row a node may emit. *)
Inductive emits : PlanNode -> Row -> Prop :=
  | emits_project pointer exprs outputs input r out :
      emits input r -> (forall e o, (e, o) ∈ zip exprs outputs -> out !! column_id o = eval e r) ->
      emits (ProjectNode pointer exprs outputs input) out
  | emits_group pointer keys outputs input r out :
      emits input r -> (forall key o, (key, o) ∈ zip keys outputs -> out !! column_id o = eval key r) ->
      emits (AggregateNode pointer keys outputs input) out
  | emits_global pointer outputs input out : emits (AggregateNode pointer [] outputs input) out
  | emits_leg pointer legColumns outputs inputs leg input columns r out :
      inputs !! leg = Some input -> legColumns !! leg = Some columns -> emits input r ->
      (forall i o c, outputs !! i = Some o -> columns !! i = Some c -> out !! column_id o = r !! column_id c) ->
      emits (UnionAllNode pointer legColumns outputs inputs) out
  | emits_join pointer t nullAsValue leftKeys rightKeys outputs sources leftInput rightInput
      (m : Row -> Row -> bool) xs ys row mark out :
      (forall x, x ∈ xs -> emits leftInput x) -> (forall y, y ∈ ys -> emits rightInput y) ->
      (forall x y, nullAsValue = false -> m x y = true ->
         (forall key, key ∈ leftKeys -> eval key x <> None) /\ (forall key, key ∈ rightKeys -> eval key y <> None)) ->
      row ∈ join_rows t m xs ys ->
      (forall o s, (o, s) ∈ zip outputs sources -> out !! column_id o = output_row mark row !! column_id s) ->
      emits (JoinNode pointer t nullAsValue leftKeys rightKeys outputs sources leftInput rightInput) out
  | emits_passed pointer type outputs input inputs r out :
      passesRows type = true -> emits input r ->
      (forall c, c ∈ ids outputs -> c ∈ ids (outputs_of input) -> out !! c = r !! c) ->
      emits (OtherNode pointer type outputs (input :: inputs)) out
  | emits_other pointer type outputs inputs out :
      passesRows type = false -> emits (OtherNode pointer type outputs inputs) out.

(** The outputs of a join are columns of its inputs or fresh; its keys read their side. *)
Definition well_formed_node (node : PlanNode) : Prop :=
  match node with
  | JoinNode _ _ _ leftKeys rightKeys outputs sources leftInput rightInput =>
      length outputs = length sources /\
      (forall o s, (o, s) ∈ zip outputs sources -> column_id o = column_id s \/
         ((column_id o ∉ ids (outputs_of leftInput)) /\ (column_id o ∉ ids (outputs_of rightInput)))) /\
      (forall key, key ∈ leftKeys -> predicate_ok key = true /\
         forall c, c ∈ ids (Expr.columns key) -> c ∈ ids (outputs_of leftInput)) /\
      (forall key, key ∈ rightKeys -> predicate_ok key = true /\
         forall c, c ∈ ids (Expr.columns key) -> c ∈ ids (outputs_of rightInput))
  | _ => True
  end.

(** No row of the node has [NULL] in a column of the set, and they are outputs. *)
Definition sound (node : PlanNode) (s : gset nat) : Prop :=
  forall c, c ∈ s -> c ∈ ids (outputs_of node) /\ forall r, emits node r -> r !! c <> None.

(** *** Nodes over one input *)

Lemma sound_empty node : sound node ∅.
Proof. by intros c ?%not_elem_of_empty. Qed.

Lemma sound_non_null node s r : sound node s -> emits node r -> forall c, c ∈ s -> r !! c <> None.
Proof. intros Hs Hr c Hc. by apply (Hs c Hc). Qed.

Lemma known_outputs_sound pointer exprs outputs input s (node : PlanNode) :
  node = ProjectNode pointer exprs outputs input \/ node = AggregateNode pointer exprs outputs input ->
  sound input s -> sound node (known_outputs s exprs outputs).
Proof.
  intros Hnode Hs c (e & o & Hin & Hk & ->)%known_outputs_spec. split.
  - assert (Ho : outputs_of node = outputs) by (by destruct Hnode as [->| ->]). rewrite Ho.
    apply list_elem_of_fmap_2. by apply elem_of_zip_r in Hin.
  - intros out Hout. assert (Hr : exists r, emits input r /\ out !! column_id o = eval e r).
    { destruct Hnode as [->| ->]; inversion Hout; subst; eauto. by apply not_elem_of_nil in Hin. }
    destruct Hr as (r & Hr & ->).
    apply (known_non_null_eval functionNames types eval less reversed constant Heval s); [| done].
    by apply (sound_non_null input).
Qed.

Lemma passed_sound pointer type outputs input inputs s :
  passesRows type = true -> sound input s ->
  sound (OtherNode pointer type outputs (input :: inputs)) (propagate s outputs ∅).
Proof.
  intros Ht Hs c [Hc|[Hc Ho]]%propagate_spec; [by apply not_elem_of_empty in Hc |]. split; [done |].
  intros out Hout. destruct (Hs c Hc) as [Hin Hall]. inversion Hout; subst; [| congruence].
  match goal with Hagree : forall c, c ∈ ids outputs -> _ |- _ => rewrite Hagree by done end. by apply Hall.
Qed.

(** *** Joins *)

Lemma elem_of_pairs {L R} (m : L -> R -> bool) ls rs row :
  row ∈ pairs m ls rs -> exists l r, row = pair_row l r /\ l ∈ ls /\ r ∈ rs /\ m l r = true.
Proof.
  unfold pairs, pairs_of. rewrite list_elem_of_In, in_flat_map.
  intros (l & Hl%list_elem_of_In & (r & <- & [Hr%list_elem_of_In Hm]%filter_In)%in_map_iff). eauto 6.
Qed.

Lemma counting_sub {L R} (m : L -> R -> bool) keep ls rs l : l ∈ counting m keep ls rs -> l ∈ ls.
Proof.
  revert rs. induction ls as [|l' ls IH]; intros rs Hl; cbn in Hl; [done |].
  assert (Hin : l = l' \/ exists rs, l ∈ counting m keep ls rs).
  { destruct (consume m l' rs) as [rs'|], keep; cbn in Hl; try apply elem_of_cons in Hl as [->|Hl]; eauto. }
  destruct Hin as [->|[rs' Hin]]; [by left | right; by eapply IH].
Qed.

(** The rows with a side from the list. *)
Definition has_left (xs : list Row) (row : Joins.Row Row Row) : Prop := exists x, row_left row = Some x /\ x ∈ xs.
Definition has_right (ys : list Row) (row : Joins.Row Row Row) : Prop := exists y, row_right row = Some y /\ y ∈ ys.

Lemma pairs_sides m xs ys row : row ∈ pairs m xs ys -> has_left xs row /\ has_right ys row.
Proof. intros (x & y & -> & Hx & Hy & _)%elem_of_pairs. split; eexists; done. Qed.

Lemma left_rows (P : list Row) xs row : (forall x, x ∈ P -> x ∈ xs) -> row ∈ map row_of_left P -> has_left xs row.
Proof. intros HP (x & -> & Hx)%list_elem_of_fmap. exists x. auto. Qed.

Lemma right_rows (P : list Row) ys row : (forall y, y ∈ P -> y ∈ ys) -> row ∈ map row_of_right P -> has_right ys row.
Proof. intros HP (y & -> & Hy)%list_elem_of_fmap. exists y. auto. Qed.

Lemma matched_sub {L R} (m : L -> R -> bool) ls rs l : l ∈ matched m ls rs -> l ∈ ls.
Proof. unfold matched. rewrite !list_elem_of_In, filter_In. tauto. Qed.

#[local] Hint Resolve unmatched_sub matched_sub counting_sub : core.

(** A side the join preserves is in every row; the rows of an inner join match. *)
Lemma join_row_sides t (m : Row -> Row -> bool) xs ys row sides :
  preservedSides t = Ok sides -> row ∈ join_rows t m xs ys ->
  (left_ sides = true -> has_left xs row) /\ (right_ sides = true -> has_right ys row).
Proof.
  intros Hp Hin. destruct t; try discriminate Hp; injection Hp as <-; cbn [left_ right_ join_rows] in *;
    (split; intros Hs; try discriminate Hs); rewrite ?elem_of_app in Hin.
  1, 2: by apply pairs_sides in Hin as [? ?].
  - destruct Hin as [Hin|Hin]; [by apply pairs_sides in Hin as [? ?] | eapply left_rows; [| exact Hin]; eauto].
  - destruct Hin as [Hin|Hin]; [by apply pairs_sides in Hin as [? ?] | eapply right_rows; [| exact Hin]; eauto].
  - eapply left_rows; [| exact Hin]; eauto.
  - eapply left_rows; [| exact Hin]; eauto.
  - eapply right_rows; [| exact Hin]; eauto.
  - apply list_elem_of_fmap in Hin as (x & -> & Hx). by exists x.
  - apply list_elem_of_fmap in Hin as (y & -> & Hy). by exists y.
  - eapply left_rows; [| exact Hin]; eauto.
  - eapply left_rows; [| exact Hin]; eauto.
  - eapply right_rows; [| exact Hin]; eauto.
Qed.

(** A column of a side is in the row the join emits. *)
Lemma output_row_left mark (row : Joins.Row Row Row) x c :
  row_left row = Some x -> x !! c <> None -> output_row mark row !! c <> None.
Proof.
  intros Hx Hc. unfold output_row. rewrite Hx. cbn [default]. rewrite not_eq_None_Some in *.
  rewrite !lookup_union_is_Some. auto.
Qed.

Lemma output_row_right mark (row : Joins.Row Row Row) y c :
  row_right row = Some y -> y !! c <> None -> output_row mark row !! c <> None.
Proof.
  intros Hy Hc. unfold output_row. rewrite Hy. cbn [default]. rewrite not_eq_None_Some in *.
  rewrite !lookup_union_is_Some. auto.
Qed.

Section Join.
Context (pointer : nat) (t : JoinType) (nullAsValue : bool) (leftKeys rightKeys : list Expr)
  (outputs sources : list (Column T)) (leftInput rightInput : PlanNode).
Abbreviation join := (JoinNode pointer t nullAsValue leftKeys rightKeys outputs sources leftInput rightInput).
Hypothesis Hwf : well_formed_node join.

(** An output that is a column of an input has the value of the row. *)
Lemma join_output_value (row out : Row) c :
  (forall o s, (o, s) ∈ zip outputs sources -> out !! column_id o = row !! column_id s) ->
  c ∈ ids outputs -> c ∈ ids (outputs_of leftInput) \/ c ∈ ids (outputs_of rightInput) -> out !! c = row !! c.
Proof.
  destruct Hwf as (Hlen & Hfresh & _). intros Hval (o & -> & Ho)%list_elem_of_fmap Hside.
  apply list_elem_of_lookup in Ho as (i & Hi).
  destruct (lookup_lt_is_Some_2 sources i) as [s Hs]; [rewrite <- Hlen; by eapply lookup_lt_Some |].
  assert (Hin : (o, s) ∈ zip outputs sources).
  { apply list_elem_of_lookup. exists i. by rewrite lookup_zip_with, Hi, Hs. }
  rewrite (Hval o s Hin). destruct (Hfresh o s Hin) as [->|[Hl Hr]]; [done |].
  by destruct Hside.
Qed.

Lemma join_side_sound sides (isLeft : bool) s result :
  preservedSides t = Ok sides -> (if isLeft then left_ sides else right_ sides) = true ->
  sound (if isLeft then leftInput else rightInput) s -> sound join result ->
  sound join (propagate s outputs result).
Proof.
  intros Hp Hside Hs Hresult c [Hc|[Hc Ho]]%propagate_spec; [by apply Hresult |]. split; [done |].
  intros out Hout. destruct (Hs c Hc) as [Hin Hall]. inversion Hout; subst.
  match goal with H : ?row ∈ join_rows _ ?m ?xs ?ys |- _ =>
    destruct (join_row_sides t m xs ys row sides Hp H) as [Hl Hr] end.
  destruct isLeft.
  - erewrite join_output_value; [| done | done | by left].
    destruct (Hl Hside) as (x & Hx & Hxs). eapply output_row_left; [exact Hx |]. apply Hall. auto.
  - erewrite join_output_value; [| done | done | by right].
    destruct (Hr Hside) as (y & Hy & Hys). eapply output_row_right; [exact Hy |]. apply Hall. auto.
Qed.

(** A key without other null behavior is [NULL] with each of its columns. *)
Lemma key_column_not_null key (r : Row) c :
  predicate_ok key = true -> Expr.containsNonDefaultNullBehavior key = false -> c ∈ ids (Expr.columns key) ->
  eval key r <> None -> r !! c <> None.
Proof.
  intros [Hf Hv]%andb_true_iff Hd (col & -> & Hcol)%list_elem_of_fmap Hk Hn. apply Hk.
  by apply (null_propagates functionNames types eval less reversed constant Heval eval_field_null key r col).
Qed.

Lemma join_keys_sound result :
  t = kInner -> nullAsValue = false -> sound join result ->
  sound join (propagate (equiColumns rightKeys (equiColumns leftKeys ∅)) outputs result).
Proof.
  intros Ht Hn Hresult c [Hc|[Hc Ho]]%propagate_spec; [by apply Hresult |]. split; [done |].
  intros out Hout. pose proof Hwf as (_ & _ & Hlk & Hrk).
  pose proof join_output_value as Hvalue. inversion Hout; subst.
  match goal with H : ?row ∈ join_rows _ ?m ?xs ?ys |- _ =>
    destruct (elem_of_pairs m xs ys row H) as (x & y & Hrow & _ & _ & Hm) end.
  assert (Hx : row_left row = Some x) by (by rewrite Hrow). assert (Hy : row_right row = Some y) by (by rewrite Hrow).
  match goal with H : forall x y, false = false -> _ |- _ => destruct (H x y eq_refl Hm) as [Hl Hr] end.
  apply equiColumns_spec in Hc as [[Hc|(key & Hkey & Hd & Hc)]%equiColumns_spec|(key & Hkey & Hd & Hc)].
  - by apply not_elem_of_empty in Hc.
  - destruct (Hlk key Hkey) as [Hok Hcols].
    erewrite Hvalue; [| done | done | left; auto]. eapply output_row_left; [exact Hx |].
    eapply key_column_not_null; eauto.
  - destruct (Hrk key Hkey) as [Hok Hcols].
    erewrite Hvalue; [| done | done | right; auto]. eapply output_row_right; [exact Hy |].
    eapply key_column_not_null; eauto.
Qed.
End Join.

(** *** The derivation *)

Section Derivation.
Context (root : PlanNode) (Hcoherent : coherent_plan root).
Hypothesis Hwf : forall node, node_of root node -> well_formed_node node.

(** Each saved answer is sound for its node. *)
Definition cache_sound (cache : gmap nat (gset nat)) : Prop :=
  forall node s, node_of root node -> cache !! pointer_of node = Some s -> sound node s.

(** Code that keeps the cache sound and, if it returns, has a result in [Q]. *)
Abbreviation answers m Q := (spec cache_sound (fun _ => True) m Q).

Lemma save_answers node result :
  node_of root node -> sound node result -> answers (save (pointer_of node) result) (sound node).
Proof.
  intros Hnode Hs cache Hc. unfold save. destruct (cache !! pointer_of node) as [saved|] eqn:E; [eauto |].
  split; [| done]. intros other s Hother. rewrite lookup_insert_Some. intros [[Hp <-]|[_ Hl]]; [| by eapply Hc].
  by rewrite <- (Hcoherent node other Hnode Hother Hp).
Qed.

Lemma all_legs_answers (legs : list (PlanNode * list (Column T))) output :
  (forall p, p ∈ legs -> answers (get debug p.1) (sound p.1)) ->
  answers (all_legs (map (fun p => (get debug p.1, p.2)) legs) output) (fun nonNull => nonNull = true ->
    forall p, p ∈ legs -> exists c, p.2 !! output = Some c /\ forall r, emits p.1 r -> r !! column_id c <> None).
Proof.
  induction legs as [|[leg columns] legs IH]; intros Hlegs; cbn.
  - apply spec_ret. by intros _ p ?%not_elem_of_nil.
  - eapply spec_bind; [apply (Hlegs (leg, columns)); by left |]. intros s Hs.
    destruct (columns !! output) as [c|] eqn:Ec; [| by intros cache _].
    case_bool_decide as Hin; [| by apply spec_ret].
    eapply spec_weaken; [apply IH; intros p Hp; apply Hlegs; by right |].
    intros nonNull Hall Hn p [->|Hp]%elem_of_cons; [| by apply Hall].
    exists c. split; [done |]. by apply Hs.
Qed.

(** The outputs from a position on that are non-null in every leg. *)
Lemma union_outputs_answers (legs : list (PlanNode * list (Column T))) output outputs result (P : nat -> Prop) :
  (forall p, p ∈ legs -> answers (get debug p.1) (sound p.1)) ->
  (forall c, c ∈ result -> P c) ->
  (forall i o, outputs !! i = Some o ->
     (forall p, p ∈ legs -> exists c, p.2 !! (output + i) = Some c /\ forall r, emits p.1 r -> r !! column_id c <> None) ->
     P (column_id o)) ->
  answers (union_outputs (map (fun p => (get debug p.1, p.2)) legs) output outputs result)
    (fun result => forall c, c ∈ result -> P c).
Proof.
  intros Hlegs. revert output result. induction outputs as [|o outputs IH]; intros output result Hresult Hout; cbn.
  - by apply spec_ret.
  - eapply spec_bind; [by apply all_legs_answers |]. intros nonNull Hn. apply IH.
    + intros c Hc. destruct nonNull; [| by apply Hresult].
      apply elem_of_union in Hc as [->%elem_of_singleton|Hc]; [| by apply Hresult].
      apply (Hout 0 o eq_refl). intros p Hp. rewrite Nat.add_0_r. by apply Hn.
    + intros i o' Ho Hall. apply (Hout (S i) o' Ho). intros p Hp.
      replace (output + S i) with (S output + i) by lia. by apply Hall.
Qed.

Lemma zip_map_legs (inputs : list PlanNode) (legColumns : list (list (Column T))) :
  zip (map (get debug) inputs) legColumns = map (fun p => (get debug p.1, p.2)) (zip inputs legColumns).
Proof.
  revert legColumns. induction inputs as [|input inputs IH]; intros [|columns legColumns]; cbn; [done ..|].
  by rewrite IH.
Qed.

Lemma union_all_answers pointer legColumns outputs inputs :
  let node := UnionAllNode pointer legColumns outputs inputs in
  Forall (fun input => answers (get debug input) (sound input)) inputs ->
  answers (union_outputs (zip (map (get debug) inputs) legColumns) 0 outputs ∅) (sound node).
Proof.
  intros node Hinputs.
  rewrite zip_map_legs. apply union_outputs_answers.
  - intros [input columns] Hp%elem_of_zip_l. rewrite Forall_forall in Hinputs. by apply Hinputs.
  - by intros c ?%not_elem_of_empty.
  - intros i o Ho Hall. cbn in Hall. split; [apply list_elem_of_fmap_2; by eapply list_elem_of_lookup_2 |].
    intros out Hout. inversion Hout; subst.
    match goal with H1 : inputs !! ?leg = Some ?input, H2 : legColumns !! ?leg = Some ?columns |- _ =>
      destruct (Hall (input, columns)) as (c & Hc & Hnn);
        [apply list_elem_of_lookup; exists leg; by rewrite lookup_zip_with, H1, H2 |] end.
    cbn in Hc, Hnn.
    match goal with Hagree : forall i o c, outputs !! i = Some o -> _ |- _ => rewrite (Hagree i o c Ho Hc) end. auto.
Qed.

Lemma when_preserved_answers (preserved isLeft : bool) sides pointer t nullAsValue leftKeys rightKeys outputs sources
    leftInput rightInput result :
  let join := JoinNode pointer t nullAsValue leftKeys rightKeys outputs sources leftInput rightInput in
  let input := if isLeft then leftInput else rightInput in
  well_formed_node join -> preservedSides t = Ok sides ->
  preserved = (if isLeft then left_ sides else right_ sides) ->
  answers (get debug input) (sound input) -> sound join result ->
  answers (when_preserved preserved (get debug input) outputs result) (sound join).
Proof.
  intros join input Hjoin Hsides -> Hget Hresult. unfold when_preserved.
  destruct (if isLeft then left_ sides else right_ sides) eqn:E; [| by apply spec_ret].
  eapply spec_bind; [exact Hget |]. intros s Hs. apply spec_ret. by eapply join_side_sound.
Qed.

Lemma get_answers node : node_of root node -> answers (get debug node) (sound node).
Proof.
  induction node as [node IH] using PlanNode_nested_ind. intros Hnode.
  assert (Hinputs : Forall (fun input => answers (get debug input) (sound input)) (inputs_of node)).
  { apply Forall_forall. intros input Hin. rewrite Forall_forall in IH. apply (IH input Hin).
    by eapply node_of_its_input. }
  clear IH. intros cache Hc. pose proof (Hwf node Hnode) as Hnode_wf.
  destruct node as [pointer exprs outputs input|pointer keys outputs input|pointer legColumns outputs inputs
    |pointer t nullAsValue leftKeys rightKeys outputs sources leftInput rightInput|pointer type outputs inputs];
    cbn [get pointer_of inputs_of] in *;
    (destruct (cache !! pointer) as [saved|] eqn:Esaved;
      [split; [done | by eapply (Hc _ _ Hnode)] |]); revert cache Hc Esaved;
    match goal with |- forall cache, _ -> _ -> match ?m cache with _ => _ end =>
      enough (Hanswers : answers m (sound _)) by (intros cache Hc _; by apply Hanswers) end.
  - rewrite Forall_singleton in Hinputs. eapply spec_bind; [exact Hinputs |]. intros s Hs.
    apply (save_answers (ProjectNode pointer exprs outputs input) _ Hnode). eapply known_outputs_sound; [by left | done].
  - rewrite Forall_singleton in Hinputs. eapply spec_bind; [exact Hinputs |]. intros s Hs.
    apply (save_answers (AggregateNode pointer keys outputs input) _ Hnode). eapply known_outputs_sound; [by right | done].
  - eapply spec_bind; [by apply union_all_answers |]. intros result Hr. by apply (save_answers _ _ Hnode).
  - rewrite !Forall_cons in Hinputs. destruct Hinputs as (Hl & Hr & _).
    destruct (preservedSides t) as [sides|] eqn:Hsides; [| by intros cache _].
    eapply spec_bind; [apply (spec_lift _ _ (Ok sides) (fun s => s = sides)); done |]. intros _ ->.
    eapply spec_bind; [by apply (when_preserved_answers _ true sides pointer t nullAsValue leftKeys rightKeys outputs
      sources leftInput rightInput ∅ Hnode_wf Hsides eq_refl Hl), sound_empty |]. intros result Hresult.
    eapply spec_bind; [by apply (when_preserved_answers _ false sides pointer t nullAsValue leftKeys rightKeys outputs
      sources leftInput rightInput result Hnode_wf Hsides eq_refl Hr) |]. intros result' Hresult'.
    apply (save_answers _ _ Hnode). destruct (bool_decide (t = kInner) && negb nullAsValue) eqn:E; [| done].
    apply andb_true_iff in E as [->%bool_decide_eq_true ->%negb_true_iff]. by apply join_keys_sound.
  - destruct (passesRows type) eqn:Ep; [| apply (save_answers _ _ Hnode), sound_empty].
    eapply spec_bind; [apply (spec_lift _ _ _ (fun _ => True)); by destruct (velox_check _ _) |]. intros _ _.
    destruct inputs as [|input inputs]; cbn [map]; [by intros cache _ |].
    rewrite Forall_cons in Hinputs. destruct Hinputs as [Hi _]. eapply spec_bind; [exact Hi |]. intros s Hs.
    apply (save_answers _ _ Hnode). by apply passed_sound.
Qed.

(** *** The derivation returns *)

(** Each leg of a union has a column for each output; joins are of a join type; a node that
    passes rows has one input. *)
Definition complete_node (node : PlanNode) : Prop :=
  match node with
  | UnionAllNode _ legColumns outputs inputs =>
      length legColumns = length inputs /\ Forall (fun columns => length outputs <= length columns) legColumns
  | JoinNode _ t _ _ _ _ _ _ _ => t <> kNumJoinTypes
  | OtherNode _ type _ inputs => passesRows type = true -> length inputs = 1
  | _ => True
  end.

Abbreviation returns m := (spec (fun _ : gmap nat (gset nat) => True) (fun _ => False) m (fun _ => True)).

Lemma save_returns pointer result : returns (save pointer result).
Proof. intros cache _. unfold save. by destruct (cache !! pointer). Qed.

Lemma all_legs_returns (legs : list (PlanNode * list (Column T))) output :
  (forall p, p ∈ legs -> returns (get debug p.1) /\ output < length p.2) ->
  returns (all_legs (map (fun p => (get debug p.1, p.2)) legs) output).
Proof.
  induction legs as [|[leg columns] legs IH]; intros Hlegs; cbn; [by apply spec_ret |].
  destruct (Hlegs (leg, columns)) as [Hget Hlt]; [by left |].
  eapply spec_bind; [exact Hget |]. intros s _. cbn in Hlt.
  destruct (lookup_lt_is_Some_2 columns output Hlt) as [c ->].
  case_bool_decide; [| by apply spec_ret]. apply IH. intros p Hp. apply Hlegs. by right.
Qed.

Lemma union_outputs_returns (legs : list (PlanNode * list (Column T))) output outputs result :
  (forall p, p ∈ legs -> returns (get debug p.1) /\ output + length outputs <= length p.2) ->
  returns (union_outputs (map (fun p => (get debug p.1, p.2)) legs) output outputs result).
Proof.
  revert output result. induction outputs as [|o outputs IH]; intros output result Hlegs; cbn; [by apply spec_ret |].
  eapply spec_bind; [apply all_legs_returns | intros nonNull _; apply IH]; intros p Hp;
    (destruct (Hlegs p Hp) as [Hget Hlt]; cbn in Hlt; split; [done | lia]).
Qed.

Lemma get_returns node : (forall other, node_of node other -> complete_node other) -> returns (get debug node).
Proof.
  induction node as [node IH] using PlanNode_nested_ind. intros Hall.
  assert (Hinputs : Forall (fun input => returns (get debug input)) (inputs_of node)).
  { apply Forall_forall. intros input Hin. rewrite Forall_forall in IH. apply (IH input Hin).
    intros other Hother. apply Hall. eapply node_of_input; [exact Hin | done]. }
  clear IH. assert (Hnode : complete_node node) by (apply Hall; constructor). clear Hall. intros cache _.
  destruct node as [pointer exprs outputs input|pointer keys outputs input|pointer legColumns outputs inputs
    |pointer t nullAsValue leftKeys rightKeys outputs sources leftInput rightInput|pointer type outputs inputs];
    cbn [get pointer_of inputs_of] in *; (destruct (cache !! pointer) as [saved|]; [done |]);
    revert cache; match goal with |- forall cache, match ?m cache with _ => _ end =>
      enough (Hreturns : returns m) by (intros cache; by apply Hreturns) end.
  - rewrite Forall_singleton in Hinputs. eapply spec_bind; [exact Hinputs |]. intros s _. apply save_returns.
  - rewrite Forall_singleton in Hinputs. eapply spec_bind; [exact Hinputs |]. intros s _. apply save_returns.
  - eapply spec_bind; [| intros result _; apply save_returns].
    rewrite zip_map_legs. apply union_outputs_returns. intros [input columns] Hp. destruct Hnode as [_ Hnode].
    rewrite Forall_forall in Hinputs. rewrite Forall_forall in Hnode. split.
    + by apply Hinputs, (elem_of_zip_l _ _ _ _ Hp).
    + by apply Hnode, (elem_of_zip_r _ _ _ _ Hp).
  - rewrite !Forall_cons in Hinputs. destruct Hinputs as (Hl & Hr & _).
    assert (Hpreserved : exists sides, preservedSides t = Ok sides) by (destruct t; try done; eauto).
    destruct Hpreserved as [sides ->].
    eapply spec_bind; [by apply (spec_lift _ _ (Ok sides) (fun _ => True)) |]. intros s _.
    assert (Hside : forall (preserved : bool) (input : PlanNode) (result : gset nat), returns (get debug input) ->
              returns (when_preserved preserved (get debug input) outputs result)).
    { intros [] input result Hi; [| by apply spec_ret]. eapply spec_bind; [exact Hi |]. intros nn _. by apply spec_ret. }
    eapply spec_bind; [by apply Hside |]. intros r1 _. eapply spec_bind; [by apply Hside |]. intros r2 _. apply save_returns.
  - destruct (passesRows type) eqn:Ep; [| apply save_returns].
    destruct inputs as [|input [|? ?]]; try discriminate (Hnode Ep).
    rewrite Forall_singleton in Hinputs. cbn [length Nat.eqb map]. rewrite orb_true_r.
    eapply spec_bind; [by apply (spec_lift _ _ (Ok tt) (fun _ => True)) |]. intros _ _.
    eapply spec_bind; [exact Hinputs |]. intros s _. apply save_returns.
Qed.

(** C24: every node of a plan gets an answer, and a column in it is an output that is [NULL]
    in no row the node emits - whatever expressions, keys and joins are below, and whichever
    answers were saved before; and the answers saved stay sound. *)
Theorem get_never_null node cache
    (Hcomplete : forall other, node_of root other -> complete_node other) :
  node_of root node -> cache_sound cache ->
  exists result cache', get debug node cache = Ok (result, cache') /\
    (forall c, c ∈ result -> c ∈ ids (outputs_of node) /\ forall r, emits node r -> r !! c <> None) /\
    cache_sound cache'.
Proof.
  intros Hnode Hc. pose proof (get_answers node Hnode cache Hc) as Hanswers.
  pose proof (get_returns node ltac:(intros other Ho; eapply Hcomplete, node_of_trans; eauto) cache I) as Hret.
  destruct (get debug node cache) as [[result cache']|e]; [| done].
  exists result, cache'. destruct Hanswers as [Hc' Hs]. by split_conj.
Qed.
End Derivation.
End Meaning.
