(* ===== verification/JoinIdentities.v ===== *)
(** * What the keys of a join make equal

    [NodeSimplifier::addJoinKeySubstitutions]
    ([axiom/optimizer/v2/NodeSimplifier.cpp]) and the canonical coalesce of
    [axiom/optimizer/v2/Builder.cpp]: the identities the key pairs of a join establish over
    its output - a right key reads as its left key above an inner join, the coalesce of a
    pair as the key of the preserved side above an outer one, and as one coalesce above a
    full join.

    The theorem: every identity holds on every row the join emits, the padded ones
    included.  The keys read a column of their side, as [JoinCondition::splitEquiKeys]
    makes them, and are of types whose values, if equal, are the same value.  The code does
    not check that of the types; [ReductionExamples.equal_keys_read_as_the_left] shows that
    an identity fails without it. *)

From Stdlib Require Import ZArith Lia.
From S2P Require Import Prelude Joins Domains DomainSets Expressions ExprDomains SqlSemantics Builders ExprFactories ExprSimplifiers FilterSimplifiers ImpliedFilters Substitutions PlanSubstitutions JoinPlacements JoinRouting JoinReductions.

Local Open Scope nat_scope.
Set Warnings "-register-all".

Module NodeSimplifier.
Section NodeSimplifier.
Context {T V : Type} `{TypeOps T} `{VariantOps V} `{FunctionRegistry}.
Variable maxPlanObjects : nat.
Variable reversibleFunctions : string -> option string.
Abbreviation Expr := (Expr T V).
Abbreviation M := (StateM (Builder T V)).
Abbreviation F f := (f maxPlanObjects reversibleFunctions).
Abbreviation Substitutions := (list (Expr * Expr)).
Abbreviation Keys := (Expr * Expr)%type.

(** [Builder::canonicalizeCoalesce] *)
Definition canonicalizeCoalesce (a b : Expr) : M Expr :=
  if Builder.shouldInvert a b then F ExprFactory.makeCoalesce b a else F ExprFactory.makeCoalesce a b.

Definition isColumn (e : Expr) : bool := match e with ColumnExpr _ => true | _ => false end.

Definition addRewrite (substitutions : Substitutions) (source target : Expr) : M Substitutions :=
  if negb (Expr.same source target)
  then lift (PlanSubstitutions.add substitutions source target)
  else mret substitutions.

(** The coalesce of a pair, in either order, reads as [target]. *)
Definition addCoalesces (substitutions : Substitutions) (leftKey rightKey target : Expr) :
    M Substitutions :=
  source ← F ExprFactory.makeCoalesce leftKey rightKey;
  substitutions ← addRewrite substitutions source target;
  source ← F ExprFactory.makeCoalesce rightKey leftKey;
  addRewrite substitutions source target.

(** The loop for full joins. *)
Fixpoint add_full_keys (pairs : list Keys) (substitutions : Substitutions) : M Substitutions :=
  match pairs with
  | [] => mret substitutions
  | (leftKey, rightKey) :: pairs =>
      substitutions ←
        (if Expr.containsNonDefaultNullBehavior leftKey || Expr.containsNonDefaultNullBehavior rightKey
         then mret substitutions
         else
           canonical ← canonicalizeCoalesce leftKey rightKey;
           addCoalesces substitutions leftKey rightKey canonical);
      add_full_keys pairs substitutions
  end.

(** A right key column reads as its left key above an inner join; the right key that
    remains, with the substitutions. *)
Definition alias_key (joinType : JoinType) (leftKey rightKey : Expr) (substitutions : Substitutions) :
    M (Expr * Substitutions) :=
  if bool_decide (joinType = kInner) && isColumn leftKey && isColumn rightKey then
    let substitutions := PlanSubstitutions.addIfAbsent substitutions rightKey leftKey in
    rightKey ← F PlanSubstitutions.apply substitutions rightKey;
    mret (rightKey, substitutions)
  else mret (rightKey, substitutions).

(** The loop for the others. *)
Fixpoint add_selected_keys (joinType : JoinType) (pairs : list Keys) (substitutions : Substitutions) :
    M Substitutions :=
  match pairs with
  | [] => mret substitutions
  | (leftKey, rightKey) :: pairs =>
      let selectLeft := negb (bool_decide (joinType = kRight)) in
      '(rightKey, substitutions) ← alias_key joinType leftKey rightKey substitutions;
      let discarded := if selectLeft then rightKey else leftKey in
      substitutions ←
        (if negb (bool_decide (joinType = kInner)) && Expr.containsNonDefaultNullBehavior discarded
         then mret substitutions
         else
           let selected := if selectLeft then leftKey else rightKey in
           addCoalesces substitutions leftKey rightKey selected);
      add_selected_keys joinType pairs substitutions
  end.

Definition addJoinKeySubstitutions (joinType : JoinType) (leftKeys rightKeys : list Expr)
    (substitutions : Substitutions) : M Substitutions :=
  lift (velox_check (length leftKeys =? length rightKeys) "leftKeys.size() == rightKeys.size()") ≫= fun _ =>
  match joinType with
  | kFull => add_full_keys (zip leftKeys rightKeys) substitutions
  | kInner | kLeft | kRight => add_selected_keys joinType (zip leftKeys rightKeys) substitutions
  | _ => mret substitutions
  end.
End NodeSimplifier.
End NodeSimplifier.

Section Meaning.
Context {T V : Type} `{TypedValues T V} `{FunctionRegistry} `{!VariantEq V}.
Context (functionNames : FunctionNames) (types : gmap nat T)
  (eval : Expr T V -> SqlSemantics.Row V -> option V)
  (less : V -> V -> bool) (reversed : string -> option string)
  (constant : Expr T V -> option (V * T)) (maxPlanObjects : nat).
Context (Heval : EvalLaws functionNames types eval less reversed constant)
  (Hreversed : reversible_ok functionNames reversed).
Hypothesis eval_field_null : forall base field t i r,
  eval base r = None -> eval (FieldExpr base field t i) r = None.
Abbreviation Row := (SqlSemantics.Row V).
Abbreviation Expr := (Expr T V).
Abbreviation Keys := (Expr * Expr)%type.
Abbreviation Mapping := (list (Expr * Expr)).
Abbreviation typed := (typed functionNames types).
Abbreviation F f := (f maxPlanObjects reversed).
Abbreviation mapping_ok := (mapping_ok functionNames types).
Abbreviation entry_ok := (entry_ok functionNames types).
Abbreviation holds := (holds eval).
Abbreviation captures_nothing := (captures_nothing (T:=T) (V:=V)).
Abbreviation row_of := (row_of types).

(** ** Coalesce *)

(** The coalesce of two expressions of one type. *)
Record coalesce_of (b : Builder T V) (l r e : Expr) : Prop := {
  coalesce_valid : valid b e;
  coalesce_call : Builder.is_literal_expr e = false;
  coalesce_typed : typed e = true;
  coalesce_type : Expr.expr_type e = Expr.expr_type l;
  coalesce_value row : row_ok types row -> eval e row = first_non_null [eval l row; eval r row]
}.

Lemma makeCoalesce_spec (b0 : Builder T V) l r :
  valid b0 l -> valid b0 r -> typed l = true -> typed r = true -> Expr.expr_type r = Expr.expr_type l ->
  builds b0 (F ExprFactory.makeCoalesce l r) (fun b e => coalesce_of b l r e).
Proof.
  intros Hl Hr Htl Htr Hty. unfold ExprFactory.makeCoalesce, ExprFactory.makeCall.
  eapply builds_bind.
  { apply (builds_lift b0 _ (fun _ _ => True)); [by apply functionBits_fuel|done]. }
  cbn beta. intros b bits _ Hext _. eapply builds_weaken.
  { apply makeCall_spec. repeat constructor; by eapply valid_extends. }
  cbn beta. intros b' e _ _ (Hv & fs & i & ->).
  assert (Ht : typed (CallExpr kCoalesce [l; r] (Expr.expr_type l) 0 0) = true).
  { apply typed_call. split; [by repeat constructor|]. unfold well_formed_call.
    change (classify functionNames kCoalesce) with CoalesceName. simpl. unfold of_type.
    by rewrite !bool_decide_eq_true_2. }
  destruct (canonical_refines functionNames types eval less reversed constant Heval Hreversed kCoalesce
    (Expr.expr_type l) [l; r] (Expr.unionArgFunctions bits [l; r]) 0 0 fs i Ht) as [Ht' Href].
  split; [done|done|done|by apply Href|]. intros row Hrow.
  rewrite (refines_eval _ _ _ _ _ Href) by done. by rewrite (eval_coalesce _ _ _ _ _ _ Heval).
Qed.

(** ** Entries *)

(** [mapping'] is [mapping] with entries that hold on the rows [P]. *)
Record extended (P : Row -> Prop) (b : Builder T V) (mapping mapping' : Mapping) : Prop := {
  extended_ok : mapping_ok b mapping';
  extended_keeps : mapping ⊆ mapping';
  extended_holds r : captures_nothing mapping' b -> row_ok types r -> P r -> holds mapping r -> holds mapping' r
}.

Lemma extended_refl P b mapping : mapping_ok b mapping -> extended P b mapping mapping.
Proof. by split. Qed.

Lemma extended_trans (P : Row -> Prop) b b' m1 m2 m3 :
  extends b b' -> extended P b m1 m2 -> extended P b' m2 m3 -> extended P b' m1 m3.
Proof.
  intros Hext [] []. split; [done|by etransitivity|]. intros r Hc Hr Hp Hh.
  apply extended_holds1; [done..|]. apply extended_holds0; [|done..].
  by apply (captures_nothing_before m2 m3 b b').
Qed.

Lemma extended_weaken (P Q : Row -> Prop) b m m' :
  (forall r, Q r -> P r) -> extended P b m m' -> extended Q b m m'.
Proof. intros HPQ []. split; [done..|]. intros r Hc Hr Hq. apply extended_holds0; auto. Qed.

Lemma extended_after (P : Row -> Prop) b b' m m' :
  extends b b' -> extended P b m m' -> extended P b' m m'.
Proof.
  intros Hext []. split; [by eapply mapping_extends|done|]. intros r Hc. apply extended_holds0.
  by apply (captures_nothing_before m' m' b b').
Qed.

Lemma add_extends (P : Row -> Prop) b mapping source target mapping' :
  mapping_ok b mapping -> entry_ok b (source, target) ->
  (forall r, row_ok types r -> P r -> eval source r = eval target r) ->
  PlanSubstitutions.add mapping source target = Ok mapping' -> extended P b mapping mapping'.
Proof.
  intros Hm He Hval Ha. pose proof (add_holds eval mapping source target mapping') as Hh.
  unfold PlanSubstitutions.add, velox_check in Ha.
  destruct (Substitution.find mapping source) as [existing|].
  - destruct (Expr.same existing target); [|done]. injection Ha as <-. by apply extended_refl.
  - injection Ha as <-. split.
    + intros p [Hp| ->%list_elem_of_singleton]%elem_of_app; [by apply Hm|done].
    + intros p Hp. apply elem_of_app. by left.
    + intros r _ Hr Hp Hold p [Hin| ->%list_elem_of_singleton]%elem_of_app; [by apply Hold|]. by apply Hval.
Qed.

Lemma addRewrite_spec (P : Row -> Prop) b0 mapping source target :
  mapping_ok b0 mapping -> entry_ok b0 (source, target) ->
  (forall r, row_ok types r -> P r -> eval source r = eval target r) ->
  builds b0 (NodeSimplifier.addRewrite mapping source target) (fun b mapping' => extended P b mapping mapping').
Proof.
  intros Hm He Hval. unfold NodeSimplifier.addRewrite. destruct (Expr.same source target); cbn [negb].
  - apply builds_ret. intros b _ Hext. apply extended_refl. by eapply mapping_extends.
  - apply builds_lift.
    + unfold PlanSubstitutions.add, velox_check. intros e.
      destruct (Substitution.find mapping source) as [existing|]; [|done].
      destruct (Expr.same existing target); [done|]. by intros [= <-].
    + intros b mapping' _ Hext Ha. apply (extended_after P b0); [done|]. by eapply add_extends.
Qed.

(** Two expressions of one type. *)
Record same_typed (b : Builder T V) (l r : Expr) : Prop := {
  same_valid : valid b l /\ valid b r;
  same_are_typed : typed l = true /\ typed r = true;
  same_type : Expr.expr_type r = Expr.expr_type l
}.

Lemma same_typed_extends b b' l r : extends b b' -> same_typed b l r -> same_typed b' l r.
Proof. intros Hext [[] ? ?]. split; [split; by eapply valid_extends|done..]. Qed.

Lemma same_typed_sym b l r : same_typed b l r -> same_typed b r l.
Proof. by intros [[] [] ?]. Qed.

(** Both coalesces of a pair have the value of the target on the rows [P]. *)
Lemma addCoalesces_spec (P : Row -> Prop) b0 mapping l r target :
  mapping_ok b0 mapping -> same_typed b0 l r -> valid b0 target -> typed target = true ->
  Expr.expr_type target = Expr.expr_type l ->
  (forall row, row_ok types row -> P row ->
     first_non_null [eval l row; eval r row] = eval target row /\
     first_non_null [eval r row; eval l row] = eval target row) ->
  builds b0 (F NodeSimplifier.addCoalesces mapping l r target) (fun b mapping' => extended P b mapping mapping').
Proof.
  intros Hm Hlr Hv Ht Hty Hval.
  assert (Hone : forall b1 m l' r', extends b0 b1 -> mapping_ok b1 m -> same_typed b1 l' r' ->
    Expr.expr_type target = Expr.expr_type l' ->
    (forall row, row_ok types row -> P row -> first_non_null [eval l' row; eval r' row] = eval target row) ->
    builds b1 (F ExprFactory.makeCoalesce l' r' ≫= fun source => NodeSimplifier.addRewrite m source target)
      (fun b mapping' => extended P b m mapping')).
  { intros b1 m l' r' Hext1 Hm1 [[Hl Hr] [Htl Htr] Hty'] Htt Hval'. eapply builds_bind; [by apply makeCoalesce_spec|].
    cbn beta. intros b2 source _ Hext2 [Hvs Hcall Hts Htys Hevs].
    apply addRewrite_spec; [by eapply mapping_extends| |].
    - split; cbn [fst snd]; [done|done| |done|by rewrite Htys].
      apply (valid_extends b0); [by transitivity b1|done].
    - intros row Hrow Hp. rewrite Hevs by done. by apply Hval'. }
  unfold NodeSimplifier.addCoalesces.
  assert (Hassoc : builds b0 ((F ExprFactory.makeCoalesce l r ≫= fun source =>
      NodeSimplifier.addRewrite mapping source target) ≫= fun mapping' =>
      F ExprFactory.makeCoalesce r l ≫= fun source => NodeSimplifier.addRewrite mapping' source target)
    (fun b mapping' => extended P b mapping mapping')).
  { eapply builds_bind.
    - apply (Hone b0 mapping l r); [reflexivity|done|done|done|]. intros row Hrow Hp. by apply Hval.
    - cbn beta. intros b1 m1 _ Hext1 Hm1. eapply builds_weaken.
      + apply (Hone b1 m1 r l); [done|apply Hm1|by apply same_typed_sym, (same_typed_extends b0)| |].
        * rewrite Hty. symmetry. apply Hlr.
        * intros row Hrow Hp. by apply Hval.
      + cbn beta. intros b2 m2 _ Hext2 Hm2. by apply (extended_trans P b1 b2 mapping m1 m2). }
  intros b Hb Hext. specialize (Hassoc b Hb Hext). revert Hassoc. unfold mbind, StateM_bind.
  destruct (ExprFactory.makeCoalesce maxPlanObjects reversed l r b) as [[e b1]|]; [|done]. done.
Qed.

(** ** The rows of a join *)

Context (leftColumns rightColumns : gset nat).
Hypothesis Hdisjoint : leftColumns ## rightColumns.

(** A key on a side: an expression over columns of the side, one at least. *)
Record side_key (set : gset nat) (e : Expr) : Prop := {
  side_columns : on_columns set e;
  side_reads : Expr.columns e <> [];
  side_value : is_value e = true;
  side_flags : flags_ok e = true
}.

Record joined_keys (b : Builder T V) (p : Keys) : Prop := {
  keys_typed : same_typed b p.1 p.2;
  keys_left : side_key leftColumns p.1;
  keys_right : side_key rightColumns p.2
}.

Lemma joined_keys_extend b b' ps :
  extends b b' -> Forall (joined_keys b) ps -> Forall (joined_keys b') ps.
Proof.
  intros Hext Hps. eapply Forall_impl; [exact Hps|]. intros p []. split; try done. by eapply same_typed_extends.
Qed.

(** The keys are equal, or the row is padded on a side the join does not preserve. *)
Definition joined (t : JoinType) (p : Keys) (r : Row) : Prop :=
  eval p.1 r = eval p.2 r \/
  (t = kLeft \/ t = kFull) /\ (forall c, c ∈ rightColumns -> r !! c = None) \/
  (t = kRight \/ t = kFull) /\ (forall c, c ∈ leftColumns -> r !! c = None).

(** Without a null behavior of its own, a key is [NULL] on the rows padded on its side. *)
Lemma padded_key set e (r : Row) :
  side_key set e -> Expr.containsNonDefaultNullBehavior e = false ->
  (forall c, c ∈ set -> r !! c = None) -> eval e r = None.
Proof.
  intros [Hcols Hreads Hv Hf] Hnd Hr. destruct (Expr.columns e) as [|c cs] eqn:Hc; [done|].
  assert (Hin : c ∈ Expr.columns e) by (rewrite Hc; by left).
  by apply (null_propagates functionNames types eval less reversed constant Heval eval_field_null e r c);
    [| | | |apply Hr, Hcols].
Qed.

Lemma first_of_two (x y : option V) : first_non_null [x; y] = match x with Some v => Some v | None => y end.
Proof. destruct x; [done|]. by destruct y. Qed.

(** Values of a type that compare equal as keys are one value: not so for [REAL], [DOUBLE]
    and types with a custom comparison. *)
Definition indistinguishable (same_key : option V -> option V -> bool) (t : T) : Prop :=
  forall u v, value_of_type t u -> value_of_type t v -> same_key u v = true -> u = v.

Lemma joined_rows t same_key keys filter mark xs ys row b :
  Forall (joined_keys b) keys -> Forall (fun p => indistinguishable same_key (Expr.expr_type p.1)) keys ->
  Forall (row_of leftColumns) xs -> Forall (row_of rightColumns) ys ->
  t = kInner \/ t = kLeft \/ t = kRight \/ t = kFull ->
  row ∈ join_rows t (matches eval same_key keys filter) xs ys ->
  row_ok types (output_row mark row) /\ forall p, p ∈ keys -> joined t p (output_row mark row).
Proof.
  intros Hkeys Hsame Hxs Hys Ht Hrow. rewrite Forall_forall in Hxs. rewrite Forall_forall in Hys.
  rewrite Forall_forall in Hkeys. rewrite Forall_forall in Hsame. set (m := matches eval same_key keys filter) in *.
  assert (Hpair : row ∈ pairs m xs ys -> row_ok types (output_row mark row) /\ forall p, p ∈ keys -> joined t p (output_row mark row)).
  { unfold pairs, pairs_of. rewrite list_elem_of_In, in_flat_map.
    intros (x & Hx%list_elem_of_In & (y & <- & [Hy%list_elem_of_In Hm]%filter_In)%in_map_iff).
    unfold pair_row. rewrite output_pair. assert (Hok : row_ok types (x ∪ y)) by (by apply (row_of_union types leftColumns rightColumns); auto).
    split; [done|]. intros p Hp. left. unfold m, matches in Hm. apply andb_true_iff in Hm as [Hm _].
    rewrite forallb_forall in Hm. destruct (keys_typed _ _ (Hkeys p Hp)) as [_ [Hl Hr] Hty].
    apply (Hsame p Hp); [by apply (eval_typed _ _ _ _ _ _ Heval) | |apply (Hm p); by apply list_elem_of_In].
    rewrite <- Hty. by apply (eval_typed _ _ _ _ _ _ Heval). }
  assert (Hleft : t = kLeft \/ t = kFull -> row ∈ map row_of_left (unmatched m xs ys) ->
    row_ok types (output_row mark row) /\ forall p, p ∈ keys -> joined t p (output_row mark row)).
  { intros Ht' (x & <- & Hx%list_elem_of_In%unmatched_sub)%list_elem_of_In%in_map_iff. split.
    - rewrite (output_marked mark x None). cbn [mark_row]. rewrite map_union_empty. apply Hxs. done.
    - intros p _. right. left. split; [done|]. intros c Hc.
      apply (padded_left types leftColumns rightColumns Hdisjoint); [by apply Hxs|done]. }
  assert (Hright : t = kRight \/ t = kFull -> row ∈ map row_of_right (unmatched (fun y x => m x y) ys xs) ->
    row_ok types (output_row mark row) /\ forall p, p ∈ keys -> joined t p (output_row mark row)).
  { intros Ht' (y & <- & Hy%list_elem_of_In%unmatched_sub)%list_elem_of_In%in_map_iff. split.
    - unfold output_row. cbn. rewrite map_union_empty, map_empty_union. by apply Hys.
    - intros p _. right. right. split; [done|]. intros c Hc.
      apply (padded_right types leftColumns rightColumns Hdisjoint); [by apply Hys|done]. }
  destruct Ht as [->|[->|[->| ->]]]; cbn [join_rows] in Hrow; rewrite ?elem_of_app in Hrow.
  - by apply Hpair.
  - destruct Hrow as [Hrow|Hrow]; [by apply Hpair|apply Hleft; auto].
  - destruct Hrow as [Hrow|Hrow]; [by apply Hpair|apply Hright; auto].
  - destruct Hrow as [Hrow|[Hrow|Hrow]]; [by apply Hpair|apply Hleft; auto|apply Hright; auto].
Qed.

(** ** The loops *)

Lemma canonicalizeCoalesce_spec (b0 : Builder T V) l r :
  same_typed b0 l r ->
  builds b0 (F NodeSimplifier.canonicalizeCoalesce l r) (fun b e => coalesce_of b l r e \/ coalesce_of b r l e).
Proof.
  intros [[Hl Hr] [Htl Htr] Hty]. unfold NodeSimplifier.canonicalizeCoalesce. destruct (Builder.shouldInvert l r).
  - eapply builds_weaken; [by apply makeCoalesce_spec|]. auto.
  - eapply builds_weaken; [by apply makeCoalesce_spec|]. auto.
Qed.

(** Above a full join, the keys of a pair are equal or one of them is [NULL]. *)
Lemma full_key_values l r b (row : Row) :
  joined_keys b (l, r) -> joined kFull (l, r) row ->
  Expr.containsNonDefaultNullBehavior l = false -> Expr.containsNonDefaultNullBehavior r = false ->
  first_non_null [eval r row; eval l row] = first_non_null [eval l row; eval r row].
Proof.
  intros [_ Hkl Hkr] Hj Hl Hr. unfold joined in Hj. cbn [fst snd] in *. rewrite !first_of_two.
  destruct Hj as [->|[[_ Hpad]|[_ Hpad]]].
  - by destruct (eval r row).
  - rewrite (padded_key rightColumns r) by done. by destruct (eval l row).
  - rewrite (padded_key leftColumns l) by done. by destruct (eval r row).
Qed.

Lemma add_full_keys_spec pairs : forall mapping b0,
  mapping_ok b0 mapping -> Forall (joined_keys b0) pairs ->
  builds b0 (F NodeSimplifier.add_full_keys pairs mapping)
    (fun b mapping' => extended (fun r => forall p, p ∈ pairs -> joined kFull p r) b mapping mapping').
Proof.
  induction pairs as [|[l r] pairs IH]; intros mapping b0 Hm Hps; cbn [NodeSimplifier.add_full_keys].
  { apply builds_ret. intros b _ Hext. apply extended_refl. by eapply mapping_extends. }
  inversion Hps as [|? ? Hp Hps']; subst.
  eapply (builds_bind _ _ _ (fun b m => extended (joined kFull (l, r)) b mapping m)).
  - destruct (Expr.containsNonDefaultNullBehavior l) eqn:Hl; cbn [orb].
    { apply builds_ret. intros b _ Hext. apply extended_refl. by eapply mapping_extends. }
    destruct (Expr.containsNonDefaultNullBehavior r) eqn:Hr.
    { apply builds_ret. intros b _ Hext. apply extended_refl. by eapply mapping_extends. }
    eapply builds_bind; [by apply canonicalizeCoalesce_spec, Hp|]. cbn beta. intros b1 canonical _ Hext1 Hcan.
    pose proof (keys_typed _ _ Hp) as Hst. cbn [fst snd] in Hst.
    assert (Hty := same_type _ _ _ Hst). apply addCoalesces_spec.
    + by eapply mapping_extends.
    + by eapply same_typed_extends.
    + by destruct Hcan as [[]|[]].
    + by destruct Hcan as [[]|[]].
    + destruct Hcan as [Hcan|Hcan]; rewrite (coalesce_type _ _ _ _ Hcan); done.
    + intros row Hrow Hj. pose proof (full_key_values l r b0 row Hp Hj Hl Hr) as Heq.
      destruct Hcan as [Hcan|Hcan]; rewrite (coalesce_value _ _ _ _ Hcan row Hrow), ?Heq; done.
  - cbn beta. intros b1 m1 _ Hext1 Hm1. eapply builds_weaken.
    + apply IH; [apply Hm1|by eapply joined_keys_extend].
    + cbn beta. intros b2 m2 _ Hext2 Hm2. apply (extended_trans _ b1 b2 mapping m1 m2); [done|..].
      * eapply extended_weaken; [|exact Hm1]. cbn beta. intros row Hall. apply Hall. by left.
      * eapply extended_weaken; [|exact Hm2]. cbn beta. intros row Hall p Hin. apply Hall. by right.
Qed.

Lemma addIfAbsent_spec (P : Row -> Prop) b mapping source target :
  mapping_ok b mapping -> entry_ok b (source, target) ->
  (forall r, row_ok types r -> P r -> eval source r = eval target r) ->
  extended P b mapping (PlanSubstitutions.addIfAbsent mapping source target).
Proof.
  intros Hm He Hval. unfold PlanSubstitutions.addIfAbsent.
  destruct (Substitution.find mapping source) as [existing|] eqn:Hf; [by apply extended_refl|].
  apply (add_extends P b mapping source target); [done..|]. unfold PlanSubstitutions.add. by rewrite Hf.
Qed.

(** The right key of a pair after aliasing, [r'], and the substitutions. *)
Record aliased (t : JoinType) (l r : Expr) (b : Builder T V) (mapping : Mapping) (result : Expr * Mapping) : Prop := {
  aliased_typed : same_typed b l result.1;
  aliased_mapping : extended (joined t (l, r)) b mapping result.2;
  aliased_value row : captures_nothing result.2 b -> row_ok types row -> joined t (l, r) row ->
    holds mapping row -> eval result.1 row = eval r row;
  aliased_outer : t <> kInner -> result.1 = r
}.

Lemma alias_key_spec t l r mapping b0 :
  mapping_ok b0 mapping -> joined_keys b0 (l, r) ->
  builds b0 (F NodeSimplifier.alias_key t l r mapping) (fun b result => aliased t l r b mapping result).
Proof.
  intros Hm [Hst _ _]. cbn [fst snd] in *. unfold NodeSimplifier.alias_key.
  destruct (bool_decide (t = kInner) && NodeSimplifier.isColumn l && NodeSimplifier.isColumn r) eqn:Hcase.
  2: { apply builds_ret. intros b _ Hext. split; cbn [fst snd]; try done.
       - by eapply same_typed_extends.
       - apply extended_refl. by eapply mapping_extends. }
  rewrite !andb_true_iff, bool_decide_eq_true in Hcase. destruct Hcase as [[-> _] Hcol].
  set (m1 := PlanSubstitutions.addIfAbsent mapping r l).
  assert (Hm1 : extended (joined kInner (l, r)) b0 mapping m1).
  { apply addIfAbsent_spec; [done| |].
    - destruct Hst as [[Hvl Hvr] [Htl Htr] Hty]. split; cbn [fst snd]; try done. by destruct r.
    - intros row Hrow [Heq|[[[|] _]|[[|] _]]]; done. }
  eapply builds_bind.
  { destruct Hst as [[_ Hvr] [_ Htr] _].
    apply (apply_builds functionNames types eval less reversed constant maxPlanObjects Heval Hreversed m1 r b0);
      [apply Hm1|done|done]. }
  cbn beta. intros b1 r' Hb1 Hext1 Hr'. apply builds_ret. intros b2 Hb2 Hext2.
  apply (rewrites_after _ _ _ _ _ _ _ _ Hext2) in Hr'. assert (Hext02 : extends b0 b2) by by transitivity b1.
  split; cbn [fst snd]; try done.
  - apply (same_typed_extends b0 b2) in Hst; [|done]. destruct Hst as [[Hvl Hvr] [Htl Htr] Hty].
    split; [split; [done|apply Hr']|split; [done|apply Hr']|]. rewrite (rewrites_type _ _ _ _ _ _ _ Hr'). done.
  - by apply (extended_after _ b0).
  - intros row Hc Hrow Hj Hh. apply (rewrites_eval _ _ _ _ _ _ _ Hr'); [done..|].
    apply (extended_holds _ _ _ _ (extended_after _ b0 b2 _ _ Hext02 Hm1)); done.
Qed.

(** Of a pair above an inner or one-sided join, the selected key has the value of the
    coalesce. *)
Lemma selected_key_values t l r r' b (row : Row) :
  t = kInner \/ t = kLeft \/ t = kRight ->
  joined_keys b (l, r) -> joined t (l, r) row -> eval r' row = eval r row ->
  (t <> kInner -> r' = r /\
    Expr.containsNonDefaultNullBehavior (if negb (bool_decide (t = kRight)) then r' else l) = false) ->
  let selected := if negb (bool_decide (t = kRight)) then l else r' in
  first_non_null [eval l row; eval r' row] = eval selected row /\
  first_non_null [eval r' row; eval l row] = eval selected row.
Proof.
  intros Ht [_ Hkl Hkr] Hj Hr' Hnd selected. unfold joined in Hj. cbn [fst snd] in *. rewrite !first_of_two.
  assert (Hequal : eval l row = eval r row -> eval selected row = eval r row).
  { unfold selected. by destruct (bool_decide (t = kRight)). }
  destruct Hj as [Heq|[[Hpad Hnull]|[Hpad Hnull]]].
  - rewrite (Hequal Heq), Hr', Heq. by destruct (eval r row).
  - assert (t = kLeft) as -> by (destruct Ht as [->|[->| ->]]; destruct Hpad; done). clear Hequal.
    destruct Hnd as [-> Hnd]; [done|]. unfold selected. simpl in *.
    rewrite (padded_key rightColumns r row) by done. by destruct (eval l row).
  - assert (t = kRight) as -> by (destruct Ht as [->|[->| ->]]; destruct Hpad; done). clear Hequal.
    destruct Hnd as [-> Hnd]; [done|]. unfold selected. simpl in *.
    rewrite (padded_key leftColumns l row) by done. by destruct (eval r row).
Qed.

Lemma add_selected_keys_spec t pairs : t = kInner \/ t = kLeft \/ t = kRight -> forall mapping b0,
  mapping_ok b0 mapping -> Forall (joined_keys b0) pairs ->
  builds b0 (F NodeSimplifier.add_selected_keys t pairs mapping)
    (fun b mapping' => extended (fun r => forall p, p ∈ pairs -> joined t p r) b mapping mapping').
Proof.
  intros Ht. induction pairs as [|[l r] pairs IH]; intros mapping b0 Hm Hps;
    cbn [NodeSimplifier.add_selected_keys].
  { apply builds_ret. intros b _ Hext. apply extended_refl. by eapply mapping_extends. }
  inversion Hps as [|? ? Hp Hps']; subst.
  eapply builds_bind; [by apply alias_key_spec|]. cbn beta. intros b1 [r' m1] _ Hext1 [Hst Hm1 Hval Houter].
  cbn [fst snd] in *. cbv zeta.
  set (known row := joined t (l, r) row /\ eval r' row = eval r row).
  eapply (builds_bind _ _ _ (fun b m => extended known b m1 m)).
  - destruct (negb (bool_decide (t = kInner)) && _) eqn:Hskip.
    { apply builds_ret. intros b _ Hext. apply extended_refl. eapply mapping_extends; [exact Hext|apply Hm1]. }
    destruct Hst as [[Hvl Hvr] [Htl Htr] Hty].
    apply addCoalesces_spec; [apply Hm1|done| | | |].
    + by destruct (negb (bool_decide (t = kRight))).
    + by destruct (negb (bool_decide (t = kRight))).
    + by destruct (negb (bool_decide (t = kRight))).
    + intros row _ [Hj Heq]. apply (selected_key_values t l r r' b0 row); [done..|].
      intros Hne. split; [by apply Houter|]. rewrite bool_decide_eq_false_2 in Hskip by done. exact Hskip.
  - cbn beta. intros b2 m2 _ Hext2 Hm2. eapply builds_weaken.
    + apply IH; [apply Hm2|]. eapply joined_keys_extend; [|exact Hps']. by transitivity b1.
    + cbn beta. intros b3 m3 _ Hext3 Hm3. apply (extended_trans _ b2 b3 mapping m2 m3); [done| |].
      * assert (Hm1' : extended (joined t (l, r)) b2 mapping m1) by by apply (extended_after _ b1).
        split; [apply Hm2|etransitivity; [apply Hm1'|apply Hm2]|]. intros row Hc Hrow Hall Hh.
        assert (Hj : joined t (l, r) row) by (apply Hall; by left).
        assert (Hc2 : captures_nothing m1 b2).
        { apply (captures_nothing_before m1 m2 b2 b2); [reflexivity|apply Hm2|done]. }
        apply (extended_holds _ _ _ _ Hm2); [done|done| |by apply (extended_holds _ _ _ _ Hm1')].
        split; [done|]. apply Hval; [|done..].
        by apply (captures_nothing_before m1 m1 b1 b2).
      * eapply extended_weaken; [|exact Hm3]. cbn beta. intros row Hall p Hin. apply Hall. by right.
Qed.

(** C22: Every identity [addJoinKeySubstitutions] adds holds on every row a join with these
    keys emits - of any type, with any filter, padded rows included - on which the
    substitutions it was given hold, if the keys are of types whose values, when they compare
    equal, are the same value (so not [REAL], [DOUBLE], or a type with a custom comparison,
    which the code does not exclude); what it adds is well formed. *)
Theorem join_key_identities_hold t leftKeys rightKeys mapping b :
  arena_ok b -> mapping_ok b mapping -> Forall (joined_keys b) (zip leftKeys rightKeys) ->
  match F NodeSimplifier.addJoinKeySubstitutions t leftKeys rightKeys mapping b with
  | Ok (mapping', b') =>
      arena_ok b' /\ extends b b' /\ mapping_ok b' mapping' /\ mapping ⊆ mapping' /\
      forall same_key filter mark xs ys row,
        Forall (fun p => indistinguishable same_key (Expr.expr_type p.1)) (zip leftKeys rightKeys) ->
        Forall (row_of leftColumns) xs -> Forall (row_of rightColumns) ys ->
        row ∈ join_rows t (matches eval same_key (zip leftKeys rightKeys) filter) xs ys ->
        captures_nothing mapping' b' ->
        holds mapping (output_row mark row) -> holds mapping' (output_row mark row)
  | Throw error => error <> OutOfFuel
  end.
Proof.
  intros Hb Hm Hps. set (pairs := zip leftKeys rightKeys) in *.
  assert (Hrun : builds b (F NodeSimplifier.addJoinKeySubstitutions t leftKeys rightKeys mapping)
    (fun b mapping' => extended (fun r => forall p, p ∈ pairs -> joined t p r) b mapping mapping' /\
       (mapping' = mapping \/ t = kInner \/ t = kLeft \/ t = kRight \/ t = kFull))).
  { unfold NodeSimplifier.addJoinKeySubstitutions. fold pairs.
    eapply (builds_bind _ _ _ (fun _ _ => True)).
    { apply builds_lift; [|done]. unfold velox_check. intros e. destruct (_ =? _); [done|]. by intros [= <-]. }
    intros b1 _ _ Hext _. assert (Hm1 : mapping_ok b1 mapping) by by eapply mapping_extends.
    assert (Hps1 : Forall (joined_keys b1) pairs) by by eapply joined_keys_extend.
    assert (Hsel : t = kInner \/ t = kLeft \/ t = kRight ->
      builds b1 (F NodeSimplifier.add_selected_keys t pairs mapping) (fun b2 mapping' =>
        extended (fun r => forall p, p ∈ pairs -> joined t p r) b2 mapping mapping' /\
        (mapping' = mapping \/ t = kInner \/ t = kLeft \/ t = kRight \/ t = kFull))).
    { intros Ht. eapply builds_weaken; [by apply add_selected_keys_spec|]. cbn beta.
      intros b2 m2 _ _ Hm2. split; [exact Hm2|tauto]. }
    assert (Hnone : builds b1 (mret mapping) (fun b2 mapping' =>
        extended (fun r => forall p, p ∈ pairs -> joined t p r) b2 mapping mapping' /\
        (mapping' = mapping \/ t = kInner \/ t = kLeft \/ t = kRight \/ t = kFull))).
    { apply builds_ret. intros b2 _ Hext2. split; [|by left]. apply extended_refl. by eapply mapping_extends. }
    destruct t; try exact Hnone; try (apply Hsel; tauto).
    eapply builds_weaken; [by apply add_full_keys_spec|]. cbn beta.
    intros b2 m2 _ _ Hm2. split; [exact Hm2|tauto]. }
  specialize (Hrun b Hb (PreOrder_Reflexive b)).
  destruct (NodeSimplifier.addJoinKeySubstitutions _ _ _ _ _ _ _) as [[mapping' b']|error]; [|done].
  destruct Hrun as (Hb' & Hext & [Hok Hkeep Hholds] & Htypes).
  split; [done|]. split; [done|]. split; [done|]. split; [done|].
  intros same_key filter mark xs ys row Hsame Hxs Hys Hrow Hc Hh.
  destruct Htypes as [->|Ht]; [done|].
  destruct (joined_rows t same_key pairs filter mark xs ys row b Hps Hsame Hxs Hys Ht Hrow). by apply Hholds.
Qed.
End Meaning.
