(* ===== verification/ImpliedExamples.v ===== *)
(** * Implied filters and substitution on the Presto registry

    The theorems on implied filters, key equalities and substitution at concrete
    expressions, with the evaluator of [SqlEngine]. *)

From Stdlib Require Import ZArith Lia.
From S2P Require Import Prelude Domains DomainSets Expressions ExprDomains IntegralDomains SqlSemantics SqlEngine Builders ExprFactories FilterSimplifiers ImpliedFilters Substitutions PlanSubstitutions SimplifierExamples.

Local Open Scope nat_scope.
Set Warnings "-register-all".

(** The arguments of an expression that was built. *)
Definition built_args (e : Filter) : list Filter := Expr.children (built e).1.

Lemma built_args_valid e :
  is_ok (build_with_columns e no_objects) = true ->
  arena_ok (built e).2 /\ Forall (valid (built e).2) (built_args e).
Proof. intros Hb. destruct (built_valid e Hb) as [? ?]. split; [done|]. by apply valid_children. Qed.

(** Filters that are built. *)
Definition is_filter (e : Filter) : bool :=
  typed presto types e && bool_decide (Expr.expr_type e = booleanType).

Lemma built_filters e :
  is_ok (build_with_columns e no_objects) = true -> forallb is_filter (built_args e) = true ->
  arena_ok (built e).2 /\
  Forall (fun e' => valid (built e).2 e' /\ boolean_expr presto types e') (built_args e).
Proof.
  intros Hbuilt Hbool. destruct (built_args_valid e Hbuilt) as [Hok Hv]. split; [done|].
  rewrite forallb_forall in Hbool. rewrite List.Forall_forall in *. intros e' He.
  split; [by apply Hv|]. specialize (Hbool e' He). apply andb_true_iff in Hbool as [? Ht].
  split; [done|]. by apply bool_decide_eq_true in Ht.
Qed.

(** ** The inputs of a join *)

(** [(a > 0 AND b = 1) OR (b = 2 AND a < -5 AND a < -7)], [a < b] *)
Definition join_filters : Filter :=
  call kAnd
    [ call kOr [call kAnd [call "gt" [a; lit 0]; call "eq" [b; lit 1]];
                call kAnd [call "eq" [b; lit 2]; call "lt" [a; lit (-5)]; call "lt" [a; lit (-7)]]];
      call "lt" [a; b] ].

Definition run_join_inputs : Result ((list Filter * list Filter) * Builder Ty Val) :=
  P ImpliedFilters.deriveForJoinInputs presto (built_args join_filters) {[ 0 ]} {[ 1 ]}
    (built join_filters).2.

Definition left_filters : list Filter :=
  match run_join_inputs with Ok ((ls, _), _) => ls | Throw _ => [] end.
Definition right_filters : list Filter :=
  match run_join_inputs with Ok ((_, rs), _) => rs | Throw _ => [] end.

Lemma inputs_disjoint : ({[ 0 ]} : gset nat) ## {[ 1 ]}.
Proof. set_solver. Qed.

Lemma deriveForJoinInputs_keeps_join_witness :
  map erase left_filters =
    [call kOr [call "gt" [a; lit 0]; call kAnd [call "lt" [a; lit (-5)]; call "lt" [a; lit (-7)]]]] /\
  map erase right_filters = [call kOr [call "eq" [b; lit 1]; call "eq" [b; lit 2]]] /\
  forall lefts rights, Forall (row_of types {[ 0 ]}) lefts -> Forall (row_of types {[ 1 ]}) rights ->
    inner_join eval (built_args join_filters) (filtered_rows eval left_filters lefts)
      (filtered_rows eval right_filters rights) =
    inner_join eval (built_args join_filters) lefts rights.
Proof.
  split; [vm_compute; reflexivity|]. split; [vm_compute; reflexivity|].
  assert (Hbuilt : is_ok (build_with_columns join_filters no_objects) = true) by (vm_compute; reflexivity).
  assert (Hbool : forallb is_filter (built_args join_filters) = true) by (vm_compute; reflexivity).
  destruct (built_filters join_filters Hbuilt Hbool) as [Hok Hfs].
  pose proof (deriveForJoinInputs_keeps_join presto types eval val_less presto_reversed presto_constant
    max_objects (presto_laws types) presto_reversible (built join_filters).2 (built_args join_filters)
    {[ 0 ]} {[ 1 ]} Hok Hfs inputs_disjoint) as Hs.
  assert (Hrun : is_ok run_join_inputs = true) by (vm_compute; reflexivity).
  unfold left_filters, right_filters, run_join_inputs in *.
  destruct (ImpliedFilters.deriveForJoinInputs _ _ _ _ _ _ _) as [[[ls rs] b']|]; [|discriminate Hrun].
  apply Hs.
Defined.

(** ** Single columns *)

(** [(a = 1 AND b = 2) OR a = 3], [a = 3 OR a = 1] and
    [ROW(a, b) IN ((1, 10), (2, NULL), NULL)] *)
Definition column_filters : Filter :=
  call kAnd
    [ call kOr [call kAnd [call "eq" [a; lit 1]; call "eq" [b; lit 2]]; call "eq" [a; lit 3]];
      call kOr [call "eq" [a; lit 3]; call "eq" [a; lit 1]];
      call kIn [CallExpr kRowConstructor [a; b] pair_type 0 0;
                LiteralExpr (VArr [VRow [VInt SMALLINT 1; VInt SMALLINT 10];
                                   VRow [VInt SMALLINT 2; VNull SMALLINT]; VNull ROW])
                  (ArrayOf pair_type) 0] ].

Definition run_columns : Result (list Filter * Builder Ty Val) :=
  P ImpliedFilters.deriveForColumns presto (built_args column_filters) (built column_filters).2.
Definition column_result : list Filter :=
  match run_columns with Ok (es, _) => es | Throw _ => [] end.

Lemma deriveForColumns_implied_witness :
  map erase column_result =
    [ call kOr [call "eq" [a; lit 1]; call "eq" [a; lit 3]];
      call kIn [a; LiteralExpr (VArr [VInt SMALLINT 1; VInt SMALLINT 2]) (ArrayOf (Prim SMALLINT)) 0];
      call "eq" [b; lit 10] ] /\
  forall rows, Forall (row_ok types) rows ->
    filtered_rows eval (built_args column_filters ++ column_result) rows =
    filtered_rows eval (built_args column_filters) rows.
Proof.
  split; [vm_compute; reflexivity|].
  assert (Hbuilt : is_ok (build_with_columns column_filters no_objects) = true) by (vm_compute; reflexivity).
  assert (Hbool : forallb is_filter (built_args column_filters) = true) by (vm_compute; reflexivity).
  destruct (built_filters column_filters Hbuilt Hbool) as [Hok Hfs].
  pose proof (deriveForColumns_implied presto types eval val_less presto_reversed presto_constant
    max_objects (presto_laws types) presto_reversible presto_full (built column_filters).2
    (built_args column_filters) Hok Hfs) as Hs.
  assert (Hrun : is_ok run_columns = true) by (vm_compute; reflexivity).
  unfold column_result, run_columns in *.
  destruct (ImpliedFilters.deriveForColumns _ _ _ _ _) as [[es b']|]; [|discriminate Hrun].
  apply Hs.
Defined.

(** ** Key equalities *)

(** The keys [a = b], [a = coalesce(b, 1)] and [coalesce(a, 2) = b]. *)
Definition b_or_1 : Filter := CallExpr kCoalesce [b; lit 1] (Prim SMALLINT) 0 0.
Definition a_or_2 : Filter := CallExpr kCoalesce [a; lit 2] (Prim SMALLINT) 0 0.
Definition all_keys : Filter := CallExpr kCoalesce [a; a; a_or_2; b; b_or_1; b] (Prim SMALLINT) 0 0.
Definition left_keys : list Filter := take 3 (built_args all_keys).
Definition right_keys : list Filter := drop 3 (built_args all_keys).

Definition run_keys : Result (ImpliedFilters.KeyEqualities * Builder Ty Val) :=
  P ImpliedFilters.deriveForJoinKeys presto left_keys right_keys (built all_keys).2.
Definition key_result : ImpliedFilters.KeyEqualities :=
  match run_keys with Ok (result, _) => result | Throw _ => ImpliedFilters.mkKeyEqualities [] [] [] end.

Definition comparable (p : Filter * Filter) : bool :=
  typed presto types p.1 && typed presto types p.2 && (primitive p.1 && primitive p.2) &&
  equivalent (Expr.expr_type p.1) (Expr.expr_type p.2).

(** Comparable pairs of valid expressions. *)
Lemma comparable_key_pairs (b : Builder Ty Val) (ls rs : list Filter) :
  Forall (valid b) ls -> Forall (valid b) rs -> forallb comparable (zip ls rs) = true ->
  Forall (key_pair presto types b) (zip ls rs).
Proof.
  intros Hls Hrs Hc. rewrite forallb_forall in Hc. rewrite Forall_forall in Hls. rewrite Forall_forall in Hrs.
  apply Forall_forall. intros p Hp.
  specialize (Hc p (proj1 (list_elem_of_In _ _) Hp)). unfold comparable in Hc.
  rewrite !andb_true_iff in Hc. destruct Hc as [[[? ?] [? ?]] ?].
  split; [|done..]. destruct p as [l r]. apply list_elem_of_lookup in Hp as (k & Hk).
  apply lookup_zip_with_Some in Hk as (? & ? & [= <- <-] & Hl & Hr).
  apply list_elem_of_lookup_2 in Hl, Hr. split; [by apply Hls|by apply Hrs].
Qed.

Lemma all_keys_ok :
  arena_ok (built all_keys).2 /\ Forall (key_pair presto types (built all_keys).2) (zip left_keys right_keys).
Proof.
  assert (Hbuilt : is_ok (build_with_columns all_keys no_objects) = true) by (vm_compute; reflexivity).
  destruct (built_args_valid all_keys Hbuilt) as [Hok Hv]. split; [done|].
  apply comparable_key_pairs; [by apply Forall_take|by apply Forall_drop|vm_compute; reflexivity].
Qed.

Lemma deriveForJoinKeys_as_strong_witness :
  ImpliedFilters.redundant key_result = [false; true; true] /\
  map erase (ImpliedFilters.left key_result) = [call "eq" [a; a_or_2]] /\
  map erase (ImpliedFilters.right key_result) = [call "eq" [b; b_or_1]] /\
  forall r, row_ok types r ->
    Forall (keys_equal eval r) (zip left_keys right_keys) <->
    Forall (keys_equal eval r) (kept_pairs (zip left_keys right_keys) (ImpliedFilters.redundant key_result)) /\
    Forall (passes eval r) (ImpliedFilters.left key_result) /\
    Forall (passes eval r) (ImpliedFilters.right key_result).
Proof.
  split; [vm_compute; reflexivity|]. split; [vm_compute; reflexivity|]. split; [vm_compute; reflexivity|].
  destruct all_keys_ok as [Hok Hkeys].
  pose proof (deriveForJoinKeys_as_strong presto types eval val_less presto_reversed presto_constant
    max_objects (presto_laws types) presto_reversible presto_full (built all_keys).2
    left_keys right_keys Hok Hkeys) as Hs.
  assert (Hrun : is_ok run_keys = true) by (vm_compute; reflexivity).
  unfold key_result, run_keys in *.
  destruct (ImpliedFilters.deriveForJoinKeys _ _ _ _ _ _) as [[result b']|]; [|discriminate Hrun].
  apply Hs.
Defined.

(** ** Substitution *)

(** [a < b AND b = coalesce(a, 1)], and what exchanging the columns makes of it. *)
Definition compared : Filter :=
  call kAnd [call "lt" [a; b]; call "eq" [b; CallExpr kCoalesce [a; lit 1] (Prim SMALLINT) 0 0]].
Definition exchanged : Filter :=
  call kAnd [call "gt" [a; b]; call "eq" [a; CallExpr kCoalesce [b; lit 1] (Prim SMALLINT) 0 0]].

Definition exchange : list (Column Ty * Filter) := zip [a_col; b_col] [b; a].

Definition run_substitute : Result (Filter * Builder Ty Val) :=
  P Substitution.substitute (built compared).1 [a_col; b_col] [b; a] (built compared).2.
Definition substituted_filter : Filter :=
  match run_substitute with Ok (e, _) => e | Throw _ => a end.

Lemma substitute_is_substitution_witness :
  erase substituted_filter = exchanged /\
  forall r, row_ok types r ->
    eval substituted_filter r = eval (built compared).1 (with_values eval exchange r).
Proof.
  split; [vm_compute; reflexivity|].
  assert (Hbuilt : is_ok (build_with_columns compared no_objects) = true) by (vm_compute; reflexivity).
  assert (Htyped : typed presto types (built compared).1 = true) by (vm_compute; reflexivity).
  destruct (built_valid compared Hbuilt) as [Hok Hv].
  assert (Ha : valid (built compared).2 a) by (vm_compute; reflexivity).
  assert (Hb : valid (built compared).2 b) by (vm_compute; reflexivity).
  assert (Hpairs : Forall (pair_ok presto types (built compared).2) exchange).
  { repeat constructor; first [exact Ha|exact Hb|vm_compute; reflexivity]. }
  assert (Hcapture : no_capture (column_mapping exchange) (built compared).1 = true)
    by (vm_compute; reflexivity).
  pose proof (substitute_is_substitution presto types eval val_less presto_reversed presto_constant
    max_objects (presto_laws types) presto_reversible (built compared).2 (built compared).1
    [a_col; b_col] [b; a] Hok Hv Htyped Hpairs) as Hs.
  assert (Hrun : is_ok run_substitute = true) by (vm_compute; reflexivity).
  unfold substituted_filter, run_substitute in *.
  destruct (Substitution.substitute _ _ _ _ _ _) as [[e b']|]; [|discriminate Hrun].
  destruct Hs as (_ & _ & _ & _ & _ & _ & _ & Hs). exact (Hs Hcapture).
Defined.

(** ** Substitutions of a plan *)

(** [a < b], [a], [b] and [1] are objects; [a -> b] and [b -> 1] are the substitutions, in
    one order and in the other. *)
Definition chained : Filter := call kAnd [call "lt" [a; b]; call "eq" [b; lit 1]].
Definition built_one : Filter :=
  match built_args chained with [_; e] => nth 1 (Expr.children e) b | _ => b end.
Definition chain : list (Filter * Filter) := [(a, b); (b, built_one)].

Definition run_apply (mapping : list (Filter * Filter)) : Result (Filter * Builder Ty Val) :=
  P PlanSubstitutions.apply mapping (built chained).1 (built chained).2.

(** The substitutions chase their targets ... *)
Definition chased : Filter := match run_apply chain with Ok (e, _) => e | Throw _ => a end.

(** ... and going round in a circle is an error. *)
Example circle_does_not_converge :
  match run_apply [(a, b); (b, a)] with
  | Throw (VeloxCheck message) => String.eqb message "Expression substitutions did not converge"
  | _ => false
  end = true.
Proof. vm_compute. reflexivity. Qed.

(** That nothing is captured, over the objects there are. *)
Definition captures_check (mapping : list (Filter * Filter)) (s : Builder Ty Val) : bool :=
  forallb (fun o =>
    match o.2 with
    | LambdaExpr args _ _ _ => forallb (fun p => avoids args p.1 && avoids args p.2) mapping
    | _ => true
    end) (map_to_list (objects s)).

Lemma captures_check_spec mapping s : captures_check mapping s = true -> captures_nothing mapping s.
Proof.
  unfold captures_check. rewrite forallb_forall. intros Hc args body t i p He Hp.
  specialize (Hc (i, LambdaExpr args body t i)). cbn [snd] in Hc. rewrite forallb_forall in Hc.
  apply Hc; [by apply list_elem_of_In, elem_of_map_to_list|by apply list_elem_of_In].
Qed.

Definition entry_check (p : Filter * Filter) : bool :=
  negb (Builder.is_literal_expr p.1) && typed presto types p.2 &&
  bool_decide (Expr.expr_type p.2 = Expr.expr_type p.1).

Lemma mapping_check (s : Builder Ty Val) (mapping : list (Filter * Filter)) :
  Forall (fun p => valid s p.1 /\ valid s p.2) mapping -> forallb entry_check mapping = true ->
  mapping_ok presto types s mapping.
Proof.
  rewrite Forall_forall, forallb_forall. intros Hv Hc p Hp. destruct (Hv p Hp).
  specialize (Hc p (proj1 (list_elem_of_In _ _) Hp)). unfold entry_check in Hc.
  rewrite !andb_true_iff, negb_true_iff, bool_decide_eq_true in Hc. destruct Hc as [[? ?] ?]. by split.
Qed.

Lemma apply_reaches_fixpoint_witness :
  erase chased = call kAnd [call "lt" [lit 1; lit 1]; call "eq" [lit 1; lit 1]] /\
  forall r, row_ok types r -> holds eval chain r -> eval chased r = eval (built chained).1 r.
Proof.
  split; [vm_compute; reflexivity|].
  assert (Hbuilt : is_ok (build_with_columns chained no_objects) = true) by (vm_compute; reflexivity).
  assert (Htyped : typed presto types (built chained).1 = true) by (vm_compute; reflexivity).
  destruct (built_valid chained Hbuilt) as [Hok Hv].
  assert (Hm : mapping_ok presto types (built chained).2 chain).
  { apply mapping_check; [|vm_compute; reflexivity]. repeat constructor; vm_compute; reflexivity. }
  pose proof (apply_reaches_fixpoint presto types eval val_less presto_reversed presto_constant
    max_objects (presto_laws types) presto_reversible chain (built chained).1 (built chained).2
    Hok Hm Hv Htyped) as Hs.
  assert (Hrun : match run_apply chain with Ok (_, s) => captures_check chain s | Throw _ => false end = true)
    by (vm_compute; reflexivity).
  unfold chased, run_apply in *. destruct (PlanSubstitutions.apply _ _ _ _ _) as [[e s]|]; [|discriminate Hrun].
  apply captures_check_spec in Hrun. destruct Hs as (_ & _ & _ & _ & _ & _ & Hs).
  intros r Hr Hh. exact (Hs r Hrun Hr Hh).
Defined.
