(* ===== verification/JoinExamples.v ===== *)
(** * Joins on the Presto registry

    The theorems on the predicates of joins at concrete joins, with the evaluator of
    [SqlEngine]: [a] is the column of the left input, [b] that of the right one. *)

From Stdlib Require Import ZArith Lia.
From S2P Require Import Prelude Joins Domains DomainSets Expressions ExprDomains IntegralDomains SqlSemantics SqlEngine Builders ExprFactories FilterSimplifiers SimplifierExamples ImpliedFilters JoinPlacements JoinRouting ImpliedExamples.

Local Open Scope nat_scope.
Set Warnings "-register-all".

(** Values that are not [NULL] are compared. *)
Definition value_key (u v : option Val) : bool :=
  match u, v with Some x, Some y => veq x y | _, _ => false end.

Lemma value_key_same : same_values value_key.
Proof.
  intros [x|] [y|]; unfold value_key; try (split; [done|by intros (? & ? & ?)]). split.
  - intros Hxy%SqlEngine.veq_eq. subst y. by exists x.
  - intros (w & [= ->] & [= ->]). by rewrite veq_refl.
Qed.

(** The predicates above an inner join, its filter, and its keys:
    [a > 0], [a = b], [(a = 1 AND b = 2) OR (a = 3 AND b = 3)]; [b < 5]; [coalesce(a, 2) = b], written [b = coalesce(a, 2)] by the
    builder. *)
Definition placement_input : Filter :=
  call kAnd
    [ call "gt" [a; lit 0]; call "eq" [a; b];
      call kOr [call kAnd [call "eq" [a; lit 1]; call "eq" [b; lit 2]];
                call kAnd [call "eq" [a; lit 3]; call "eq" [b; lit 3]]];
      call "lt" [b; lit 5]; call "eq" [a_or_2; b] ].

Definition placement_args : list Filter := built_args placement_input.
Definition placement_pending : list Filter := take 3 placement_args.
Definition placement_filter : list Filter := take 1 (drop 3 placement_args).
Definition placement_keys : list Filter :=
  match drop 4 placement_args with e :: _ => Expr.children e | [] => [] end.
Definition placement_join : Join Ty Val :=
  mkJoin (drop 1 placement_keys) (take 1 placement_keys) placement_filter false.
Definition placement_builder : Builder Ty Val := (built placement_input).2.

Definition placed_at (t : JoinType) : Result (JoinPredicatePlacement.Routed * Builder Ty Val) :=
  P JoinPredicatePlacement.route presto counting_type placement_join t false {[ 0 ]} {[ 1 ]} placement_pending [] []
    placement_builder.

(** The predicates of the inputs, the keys, the predicates of the join, those above. *)
Definition shown (r : Result (JoinPredicatePlacement.Routed (T:=Ty) (V:=Val) * Builder Ty Val)) :
    list (list Filter) :=
  match r with
  | Ok (r, _) =>
      map (map erase)
        [JoinPredicatePlacement.leftInputPredicates r; JoinPredicatePlacement.rightInputPredicates r;
         JoinPredicatePlacement.routedLeftKeys r; JoinPredicatePlacement.routedRightKeys r;
         JoinPredicatePlacement.joinPredicates r; JoinPredicatePlacement.aboveJoinPredicates r]
  | Throw _ => []
  end.

Definition one_of : Filter :=
  call kOr [call kAnd [call "eq" [a; lit 1]; call "eq" [b; lit 2]];
            call kAnd [call "eq" [a; lit 3]; call "eq" [b; lit 3]]].

(** An inner join takes everything: the key pair [(a, b)] shares [b] with the join's own,
    and becomes an equality of [a]. *)
Example placed_inner :
  shown (placed_at kInner) =
    [ [call "gt" [a; lit 0]; call kOr [call "eq" [a; lit 1]; call "eq" [a; lit 3]]; call "eq" [a; a_or_2]];
      [call "lt" [b; lit 5]; call kOr [call "eq" [b; lit 2]; call "eq" [b; lit 3]]];
      [a_or_2]; [b]; [one_of]; [] ].
Proof. vm_compute. reflexivity. Qed.

(** A left join filters its left input by the predicate above it, and its right input by
    its own filter; a full join neither. *)
Example placed_left :
  shown (placed_at kLeft) =
    [ [call "gt" [a; lit 0]]; [call "lt" [b; lit 5]]; [a_or_2]; [b]; [];
      [call "eq" [a; b]; one_of] ].
Proof. vm_compute. reflexivity. Qed.

Example placed_full :
  shown (placed_at kFull) =
    [ []; []; [a_or_2]; [b]; [call "lt" [b; lit 5]];
      [call "gt" [a; lit 0]; call "eq" [a; b]; one_of] ].
Proof. vm_compute. reflexivity. Qed.

Lemma placement_valid :
  arena_ok placement_builder /\ Forall (valid placement_builder) placement_args /\
  Forall (valid placement_builder) placement_keys.
Proof.
  assert (Hbuilt : is_ok (build_with_columns placement_input no_objects) = true) by (vm_compute; reflexivity).
  destruct (built_args_valid placement_input Hbuilt) as [Hok Hv]. split; [done|]. split; [done|].
  unfold placement_keys. destruct (drop 4 placement_args) as [|e es] eqn:Hd; [done|].
  apply valid_children; [done|]. rewrite Forall_forall in Hv. apply Hv.
  eapply elem_of_sublist; [|apply sublist_drop with (i := 4)]. unfold placement_args in Hd. rewrite Hd. by left.
Qed.

Lemma placement_filters (es : list Filter) :
  es ⊆ placement_args ->
  forallb (fun e => is_filter e && JoinRouting.comparable presto e) placement_args = true ->
  Forall (fun e => valid placement_builder e /\ boolean_expr presto types e /\
    JoinRouting.comparable presto e = true) es.
Proof.
  intros Hes Hall. destruct placement_valid as (_ & Hargs & _). apply Forall_forall. intros e He%Hes.
  rewrite Forall_forall in Hargs. split; [by apply Hargs|].
  rewrite forallb_forall in Hall. specialize (Hall e (proj1 (list_elem_of_In _ _) He)).
  apply andb_true_iff in Hall as [[? Ht%bool_decide_eq_true]%andb_true_iff ?]. done.
Qed.

Lemma placement_filter_in : placement_filter ⊆ placement_args.
Proof.
  intros e He. apply (elem_of_sublist _ _ _ He). unfold placement_filter.
  etransitivity; [apply sublist_take|apply sublist_drop].
Qed.

Lemma placement_pending_in : placement_pending ⊆ placement_args.
Proof. intros e He. apply (elem_of_sublist _ _ _ He). apply sublist_take. Qed.

(** Keys that read their side. *)
Lemma check_sides ls rs (ps : list (Filter * Filter)) :
  forallb (fun p => isSubset (Expr.columns p.1) ls && isSubset (Expr.columns p.2) rs) ps = true ->
  Forall (keys_on_sides ls rs) ps.
Proof.
  rewrite forallb_forall. intros Hc. apply Forall_forall. intros p Hp%list_elem_of_In%Hc.
  apply andb_true_iff in Hp as [Hl Hr]. split; by apply isSubset_on_columns.
Qed.

Lemma placement_routable t :
  t <> kNumJoinTypes ->
  routable presto types {[ 0 ]} {[ 1 ]} placement_builder value_key t placement_join false placement_pending.
Proof.
  intros Ht. destruct placement_valid as (Hok & _ & Hkeys).
  assert (Hall : forallb (fun e => is_filter e && JoinRouting.comparable presto e) placement_args = true)
    by (vm_compute; reflexivity).
  split; [exact Ht|vm_compute; reflexivity|..].
  - apply comparable_key_pairs; [by apply Forall_drop|by apply Forall_take|vm_compute; reflexivity].
  - apply check_sides. vm_compute. reflexivity.
  - eapply Forall_impl; [exact (placement_filters placement_filter placement_filter_in Hall)|].
    intros e (Hv & Hb & _). exact (conj Hv Hb).
  - eapply Forall_impl; [exact (placement_filters placement_pending placement_pending_in Hall)|].
    intros e (Hv & Hb & Hc). exact (conj Hv (conj Hb (fun _ => Hc))).
  - intros _. apply value_key_same.
  - intros _. reflexivity.
Qed.

(** The mark's column. *)
Lemma mark_fresh : 2 ∉ ({[ 0 ]} ∪ {[ 1 ]} : gset nat).
Proof. set_solver. Qed.

(** The inner join of [placed_inner], on all inputs. *)
Lemma route_keeps_join_witness :
  is_ok (placed_at kInner) = true /\
  match placed_at kInner with
  | Ok (r, _) => forall xs ys, Forall (row_of types {[ 0 ]}) xs -> Forall (row_of types {[ 1 ]}) ys ->
      join_output eval value_key kInner 2
        (zip (JoinPredicatePlacement.routedLeftKeys r) (JoinPredicatePlacement.routedRightKeys r))
        (JoinPredicatePlacement.joinPredicates r) (JoinPredicatePlacement.aboveJoinPredicates r)
        (filtered_rows eval (JoinPredicatePlacement.leftInputPredicates r) xs)
        (filtered_rows eval (JoinPredicatePlacement.rightInputPredicates r) ys) =
      join_output eval value_key kInner 2 (zip (leftKeys placement_join) (rightKeys placement_join))
        placement_filter placement_pending (filtered_rows eval [] xs) (filtered_rows eval [] ys)
  | Throw _ => False
  end.
Proof.
  split; [vm_compute; reflexivity|].
  assert (Hrun : is_ok (placed_at kInner) = true) by (vm_compute; reflexivity).
  pose proof (route_keeps_join presto types eval val_less presto_reversed presto_constant max_objects
    (presto_laws types) presto_reversible presto_full counting_type {[ 0 ]} {[ 1 ]} inputs_disjoint 2 mark_fresh
    placement_builder value_key kInner placement_join false placement_pending [] []
    (proj1 placement_valid) (placement_routable kInner ltac:(done))) as Hs.
  unfold placed_at in *. destruct (JoinPredicatePlacement.route _ _ _ _ _ _ _ _ _ _ _ _ _) as [[r b']|]; [|discriminate Hrun].
  destruct Hs as (_ & _ & _ & _ & _ & _ & _ & Hrows). intros xs ys Hxs Hys.
  apply Hrows; [exact Hxs|exact Hys|]. intros Hc. discriminate Hc.
Defined.
