(* ===== verification/ReductionExamples.v ===== *)
(** * Reduced joins on the Presto registry

    The theorems on outer-join reduction, mark fusion and the identities of join keys at
    concrete joins, with the evaluator of [SqlEngine]: [a] is the column of the left input,
    [b] that of the right one. *)

From Stdlib Require Import ZArith Lia.
From S2P Require Import Prelude Joins Domains DomainSets Expressions ExprDomains IntegralDomains SqlSemantics SqlEngine Builders ExprFactories FilterSimplifiers SimplifierExamples ImpliedFilters Substitutions PlanSubstitutions JoinPlacements JoinRouting JoinReductions JoinIdentities ImpliedExamples JoinExamples.

Local Open Scope nat_scope.
Set Warnings "-register-all".

Lemma presto_field_null (base : Filter) field t i r :
  eval base r = None -> eval (FieldExpr base field t i) r = None.
Proof. done. Qed.

(** ** Outer joins *)

(** [b > 0] above a left join; [b IS NULL]; [a < b] above a full join. *)
Definition rejecting : list Filter := built_args (call kAnd [call "gt" [b; lit 0]; call "lt" [b; lit 9]]).
Definition accepting : list Filter := built_args (call kAnd [call "is_null" [b]; call "is_null" [a]]).
Definition comparing : list Filter := built_args (call kAnd [call "lt" [a; b]; call "lt" [a; lit 9]]).

Definition reduced (t : JoinType) (pending : list Filter) (nonNull : gset nat) : Result JoinType :=
  OuterJoinReduction.reduce t pending nonNull {[ 0 ]} {[ 1 ]}.

Example reduced_types :
  (reduced kLeft rejecting ∅, reduced kRight rejecting ∅, reduced kFull rejecting ∅) = (Ok kInner, Ok kRight, Ok kRight) /\
  (reduced kLeft accepting ∅, reduced kFull accepting {[ 0 ]}) = (Ok kLeft, Ok kLeft) /\
  reduced kFull comparing ∅ = Ok kInner.
Proof. split; [|split]; vm_compute; reflexivity. Qed.

Lemma reduce_keeps_rows_witness :
  reduced kLeft rejecting ∅ = Ok kInner /\
  forall m xs ys, Forall (row_of types {[ 0 ]}) xs -> Forall (row_of types {[ 1 ]}) ys ->
    let keep row := wanted eval rejecting ∅ (output_row 2 row) in
    List.filter keep (join_rows kInner m xs ys) = List.filter keep (join_rows kLeft m xs ys).
Proof.
  assert (Hok : forallb predicate_ok rejecting = true) by (vm_compute; reflexivity).
  assert (Hred : reduced kLeft rejecting ∅ = Ok kInner) by (vm_compute; reflexivity).
  split; [exact Hred|]. intros m xs ys Hxs Hys.
  exact (reduce_keeps_rows presto types eval val_less presto_reversed presto_constant (presto_laws types)
    presto_field_null {[ 0 ]} {[ 1 ]} inputs_disjoint kLeft kInner rejecting ∅ 2 m xs ys Hok Hxs Hys Hred).
Defined.

(** ** Marks *)

(** Two inputs and the mark, a boolean column. *)
Definition mark_col : Column Ty := mkColumn 2 (Prim BOOLEAN).
Definition mark : Filter := ColumnExpr mark_col.

Definition build_with_mark (e : Filter) : M Filter :=
  Builder.make max_objects (fun i => ColumnExpr (mkColumn i (Prim SMALLINT))) ≫= fun _ =>
  Builder.make max_objects (fun i => ColumnExpr (mkColumn i (Prim SMALLINT))) ≫= fun _ =>
  Builder.make max_objects (fun i => ColumnExpr (mkColumn i (Prim BOOLEAN))) ≫= fun _ =>
  build e.

Lemma build_with_mark_valid e : builds no_objects (build_with_mark e) valid.
Proof.
  eapply builds_bind; [by apply make_spec|]. intros b1 _ _ _ _.
  eapply builds_bind; [by apply make_spec|]. intros b2 _ _ _ _.
  eapply builds_bind; [by apply make_spec|]. intros b3 _ _ _ _. apply build_valid.
Qed.

Definition marked_build (e : Filter) : Filter * Builder Ty Val :=
  match build_with_mark e no_objects with Ok built => built | Throw _ => (e, no_objects) end.

Lemma marked_build_valid e :
  is_ok (build_with_mark e no_objects) = true ->
  arena_ok (marked_build e).2 /\ Forall (valid (marked_build e).2) (Expr.children (marked_build e).1).
Proof.
  unfold marked_build. destruct (build_with_mark e no_objects) as [[e' s]|] eqn:Hrun; [|done].
  destruct (builds_run _ _ _ _ _ (build_with_mark_valid e) no_objects_ok Hrun) as (? & _ & ?).
  intros _. split; [done|]. by apply valid_children.
Qed.

(** [NOT mark] and [a > 0] above [a NOT IN (b)]. *)
Definition not_in : Filter := call kAnd [call "not" [mark]; call "gt" [a; lit 0]].
Definition not_in_pending : list Filter := Expr.children (marked_build not_in).1.
Definition not_in_join : JoinReductions.Join Ty :=
  JoinReductions.mkJoin kLeftSemiProject true [a_col; mark_col] [a_col; mark_col] (Some mark_col).

Definition not_in_fusion : Result (option (MarkFilterFusion.Fusion (T:=Ty) (V:=Val))) :=
  MarkFilterFusion.fuse presto not_in_join not_in_pending {[ 0 ]}.

Lemma mark_not_left : 2 ∉ ({[ 0 ]} : gset nat).
Proof. set_solver. Qed.

Lemma fuse_is_filtering_join_witness :
  match not_in_fusion with
  | Ok (Some fusion) =>
      MarkFilterFusion.fusedType fusion = kAnti /\
      MarkFilterFusion.fusedNullAware not_in_join fusion = true /\
      map erase (MarkFilterFusion.remaining fusion not_in_pending) = [call "gt" [a; lit 0]] /\
      forall m xs ys, Forall (row_of types {[ 0 ]}) xs ->
        let passing es row := forallb (accepts eval (output_row 2 row)) es in
        (forall e, e ∈ MarkFilterFusion.remaining fusion not_in_pending -> MarkFilterFusion.reads mark_col e = false) /\
        map row_left (List.filter (passing not_in_pending) (projected true m xs ys)) =
        map row_left (List.filter (passing (MarkFilterFusion.remaining fusion not_in_pending))
          (join_rows kAnti (reading true m) xs ys))
  | _ => False
  end.
Proof.
  assert (Hbuilt : is_ok (build_with_mark not_in no_objects) = true) by (vm_compute; reflexivity).
  destruct (marked_build_valid not_in Hbuilt) as [Hok Hv].
  assert (Hmark : valid (marked_build not_in).2 mark) by (vm_compute; reflexivity).
  assert (Hrun : match not_in_fusion with
    | Ok (Some fusion) =>
        MarkFilterFusion.fusedType fusion = kAnti /\
        MarkFilterFusion.fusedNullAware not_in_join fusion = true /\
        map erase (MarkFilterFusion.remaining fusion not_in_pending) = [call "gt" [a; lit 0]]
    | _ => False
    end) by (vm_compute; repeat split; reflexivity).
  pose proof (fun fusion m xs ys => fuse_is_filtering_join presto types eval val_less presto_reversed presto_constant
    (presto_laws types) {[ 0 ]} (marked_build not_in).2 Hok
    not_in_join not_in_pending {[ 0 ]} fusion m mark_col xs ys Hv eq_refl Hmark mark_not_left) as Hs.
  unfold not_in_fusion in *.
  destruct (MarkFilterFusion.fuse presto not_in_join not_in_pending {[ 0 ]}) as [[fusion|]|]; [|done..].
  destruct Hrun as (Ht & Hna & Hrest). split; [exact Ht|]. split; [exact Hna|]. split; [exact Hrest|].
  intros m xs ys Hxs. specialize (Hs fusion m xs ys Hxs eq_refl). rewrite Ht, Hna in Hs.
  destruct Hs as (_ & _ & Hreads & Hrows). exact (conj Hreads Hrows).
Defined.

(** ** Keys *)

Definition key_identities (t : JoinType) : Result (list (Filter * Filter) * Builder Ty Val) :=
  P NodeSimplifier.addJoinKeySubstitutions t [a] [b] [] two_columns.

Definition shown_identities (t : JoinType) : list (Filter * Filter) :=
  match key_identities t with
  | Ok (mapping, _) => map (fun p => (erase p.1, erase p.2)) mapping
  | Throw _ => []
  end.

Definition coalesced (l r : Filter) : Filter := CallExpr kCoalesce [l; r] (Prim SMALLINT) 0 0.

Example identities_of_types :
  shown_identities kInner = [(b, a); (coalesced a a, a)] /\
  shown_identities kRight = [(coalesced a b, b); (coalesced b a, b)] /\
  shown_identities kFull = [(coalesced b a, coalesced a b)] /\
  shown_identities kAnti = [].
Proof. split; [|split; [|split]]; vm_compute; reflexivity. Qed.

Lemma side_column (set : gset nat) (c : Column Ty) :
  column_id c ∈ set -> side_key (T:=Ty) (V:=Val) set (ColumnExpr c).
Proof. intros Hc. split; [|done..]. by intros c' ->%list_elem_of_singleton. Qed.

(** Above a left join, the coalesce of the keys reads as the left key. *)
Lemma join_key_identities_hold_witness :
  match key_identities kLeft with
  | Ok (mapping, _) =>
      map (fun p => (erase p.1, erase p.2)) mapping = [(coalesced a b, a); (coalesced b a, a)] /\
      forall filter xs ys row,
        Forall (row_of types {[ 0 ]}) xs -> Forall (row_of types {[ 1 ]}) ys ->
        row ∈ join_rows kLeft (matches eval value_key [(a, b)] filter) xs ys ->
        holds eval mapping (output_row 2 row)
  | Throw _ => False
  end.
Proof.
  assert (Hbuilt : is_ok (build_with_columns a no_objects) = true) by (vm_compute; reflexivity).
  destruct (built_valid a Hbuilt) as [Hok Ha].
  assert (Hb : valid two_columns b) by (vm_compute; reflexivity).
  assert (Hkeys : Forall (joined_keys presto types {[ 0 ]} {[ 1 ]} two_columns) (zip [a] [b])).
  { constructor; [|constructor]. split; cbn [fst snd].
    - split; [split; [exact Ha|exact Hb]|split; vm_compute; reflexivity|reflexivity].
    - apply side_column. by apply elem_of_singleton.
    - apply side_column. by apply elem_of_singleton. }
  assert (Hempty : mapping_ok presto types two_columns []) by (intros p Hp; by apply not_elem_of_nil in Hp).
  pose proof (join_key_identities_hold presto types eval val_less presto_reversed presto_constant max_objects
    (presto_laws types) presto_reversible presto_field_null {[ 0 ]} {[ 1 ]} inputs_disjoint kLeft [a] [b] []
    two_columns Hok Hempty Hkeys) as Hs.
  assert (Hrun : match key_identities kLeft with
    | Ok (mapping, s) =>
        map (fun p => (erase p.1, erase p.2)) mapping = [(coalesced a b, a); (coalesced b a, a)] /\
        captures_check mapping s = true
    | Throw _ => False
    end) by (vm_compute; split; reflexivity).
  unfold key_identities in *.
  destruct (NodeSimplifier.addJoinKeySubstitutions _ _ _ _ _ _ _) as [[mapping s]|]; [|done].
  destruct Hrun as [Hshown Hcapture%captures_check_spec]. split; [exact Hshown|].
  destruct Hs as (_ & _ & _ & _ & Hs). intros filter xs ys row Hxs Hys Hrow.
  apply (Hs value_key filter 2 xs ys row); [|exact Hxs|exact Hys|exact Hrow|exact Hcapture|].
  - apply Forall_singleton. intros u v _ _ Huv. apply value_key_same in Huv as (w & -> & ->). reflexivity.
  - intros p Hp. by apply not_elem_of_nil in Hp.
Defined.

(** Keys that compare equal and can be told apart, as 0.0 and -0.0 - here 1 and 2, under a
    comparison that takes all numbers for equal: above the join the right key reads as the
    left one, a different value. *)
Example equal_keys_read_as_the_left :
  let equal (u v : option Val) := bool_decide (is_Some u) && bool_decide (is_Some v) in
  let row : Joins.Row (SqlSemantics.Row Val) (SqlSemantics.Row Val) :=
    pair_row {[ 0 := VInt SMALLINT 1 ]} {[ 1 := VInt SMALLINT 2 ]} in
  match key_identities kInner with
  | Ok (mapping, _) =>
      join_rows kInner (matches eval equal [(a, b)] []) [{[ 0 := VInt SMALLINT 1 ]}] [{[ 1 := VInt SMALLINT 2 ]}] = [row] /\
      existsb (fun p => Expr.same p.1 b && Expr.same p.2 a) mapping = true /\
      (eval b (output_row 2 row), eval a (output_row 2 row)) = (Some (VInt SMALLINT 2), Some (VInt SMALLINT 1))
  | Throw _ => False
  end.
Proof. vm_compute. split; [|split]; reflexivity. Qed.
