(* ===== verification/NonNullExamples.v ===== *)
(** * Non-null columns of a plan on the Presto registry

    [NonNullOutputs] on a project and a union over a join of two scans, with the evaluator of
    [SqlEngine]: [a] is the column of the left input, [b] that of the right one. *)

From Stdlib Require Import ZArith Lia.
From S2P Require Import Prelude QueryGraph Joins Nodes Domains DomainSets Expressions ExprDomains IntegralDomains SqlSemantics SqlEngine Builders ExprFactories NonNullSimplifiers FilterSimplifiers SimplifierExamples ImpliedFilters JoinPlacements JoinRouting JoinReductions NonNullOutputs ImpliedExamples JoinExamples ReductionExamples.

Local Open Scope nat_scope.
Set Warnings "-register-all".
Import NonNullOutput.

Abbreviation Plan := (PlanNode (T:=Ty) (V:=Val)).

Definition out_col (id : nat) : Column Ty := mkColumn id (Prim SMALLINT).

Definition scan (pointer : nat) (column : Column Ty) : Plan := OtherNode pointer kScan [column] [].

(** A join of the scans on [a = b]. *)
Definition join_of (t : JoinType) (nullAsValue : bool) : Plan :=
  JoinNode 2 t nullAsValue [a] [b] [a_col; b_col] [a_col; b_col] (scan 0 a_col) (scan 1 b_col).

(** [a], [7] and [b] over the first 10 rows of the join. *)
Definition plan_of (t : JoinType) (nullAsValue : bool) : Plan :=
  ProjectNode 4 [a; lit 7; b] [out_col 10; out_col 11; out_col 12]
    (OtherNode 3 kLimit [a_col; b_col] [join_of t nullAsValue]).

(** The plan above united with itself, its columns shuffled. *)
Definition union_of (t : JoinType) : Plan :=
  UnionAllNode 5 [[out_col 10; out_col 11]; [out_col 11; out_col 11]] [out_col 20; out_col 21]
    [plan_of t false; plan_of t false].

Definition answer (plan : Plan) : option (list nat) :=
  match get true plan ∅ with Ok (result, _) => Some (List.filter (fun id => bool_decide (id ∈ result)) (seq 0 30)) | Throw _ => None end.

(** The keys of an inner join are not [NULL] unless [NULL] matches as a value; an outer join
    proves nothing of its inputs; a union needs every leg. *)
Example answers_of_plans :
  (answer (plan_of kInner false), answer (plan_of kInner true), answer (plan_of kLeft false)) =
    (Some [10; 11; 12], Some [11], Some [11]) /\
  (answer (union_of kInner), answer (union_of kFull)) = (Some [20; 21], Some [21]) /\
  answer (OtherNode 3 kLimit [] []) = None.
Proof. split; [|split]; vm_compute; reflexivity. Qed.

(** ** The nodes of a plan, as a list *)

Fixpoint nodes (plan : Plan) : list Plan :=
  plan ::
  match plan with
  | ProjectNode _ _ _ input | AggregateNode _ _ _ input => nodes input
  | UnionAllNode _ _ _ inputs | OtherNode _ _ _ inputs => flat_map nodes inputs
  | JoinNode _ _ _ _ _ _ _ leftInput rightInput => nodes leftInput ++ nodes rightInput
  end.

Lemma nodes_self (plan : Plan) : plan ∈ nodes plan.
Proof. destruct plan; by left. Qed.

Lemma nodes_input (plan input node : Plan) : input ∈ inputs_of plan -> node ∈ nodes input -> node ∈ nodes plan.
Proof.
  intros Hi Hn. destruct plan; cbn [nodes inputs_of] in *; right.
  1, 2: by apply list_elem_of_singleton in Hi as ->.
  1, 3: apply list_elem_of_In, in_flat_map; exists input; by rewrite <- !list_elem_of_In.
  apply elem_of_app. apply elem_of_cons in Hi as [-> |Hi]; [by left |]. apply list_elem_of_singleton in Hi as ->. by right.
Qed.

Lemma node_of_nodes (root node : Plan) : node_of root node -> node ∈ nodes root.
Proof. induction 1; [apply nodes_self | by eapply nodes_input]. Qed.

Lemma forall_nodes (P : Plan -> Prop) root : Forall P (nodes root) -> forall node, node_of root node -> P node.
Proof. intros Hall node Hn%node_of_nodes. rewrite Forall_forall in Hall. by apply Hall. Qed.

Definition the_plan : Plan := plan_of kInner false.

Lemma the_plan_coherent : coherent_plan the_plan.
Proof.
  intros p q Hp%node_of_nodes Hq%node_of_nodes. cbn in Hp, Hq.
  repeat rewrite elem_of_cons in Hp. repeat rewrite elem_of_cons in Hq. rewrite elem_of_nil in Hp, Hq.
  destruct Hp as [-> |[-> |[-> |[-> |[-> |[]]]]]], Hq as [-> |[-> |[-> |[-> |[-> |[]]]]]]; intros Hpq; (discriminate Hpq || reflexivity).
Qed.

Lemma key_of_scan (c : Column Ty) pointer key :
  key ∈ [ColumnExpr c : Filter] -> predicate_ok key = true /\
  forall id, id ∈ map column_id (Expr.columns key) -> id ∈ map column_id (outputs_of (scan pointer c)).
Proof. intros ->%list_elem_of_singleton. split; [reflexivity |]. by intros id Hid. Qed.

Lemma the_join_well_formed : well_formed_node (join_of kInner false).
Proof.
  split; [reflexivity|]. split; [| split; intros key; apply key_of_scan].
  intros o s Hos. left. cbn in Hos. rewrite !elem_of_cons, elem_of_nil in Hos.
  destruct Hos as [Ho|[Ho|[]]]; injection Ho as -> ->; reflexivity.
Qed.

Lemma get_never_null_witness :
  answer the_plan = Some [10; 11; 12] /\
  exists result cache',
    get true the_plan ∅ = Ok (result, cache') /\
    (forall c, c ∈ result ->
       c ∈ map column_id (outputs_of the_plan) /\ forall r, emits eval the_plan r -> r !! c <> None) /\
    cache_sound eval the_plan cache'.
Proof.
  split; [vm_compute; reflexivity|].
  apply (get_never_null presto types eval val_less presto_reversed presto_constant (presto_laws types)
    presto_field_null true the_plan the_plan_coherent).
  - apply forall_nodes. repeat apply Forall_cons_2; first [exact I | exact the_join_well_formed | apply Forall_nil_2].
  - apply forall_nodes. repeat apply Forall_cons_2; first [exact I | done | apply Forall_nil_2].
  - apply node_of_root.
  - intros other s Hother Hs. by rewrite lookup_empty in Hs.
Defined.
