(* ===== verification/LimitOrders.v ===== *)
(** * Limits and orders

    [axiom/optimizer/v2/LimitAndOrderPass.cpp], on the rewriter of [v2/NodeRewriter.h]: one
    top-down pass that moves row bounds down a plan, fuses them with sorts, and drops sorts
    whose order nobody observes.  The context is passed by reference, so a rewrite returns
    the context it leaves.  Nodes are interned: a node rebuilt from equal parts is the node. *)

From Stdlib Require Import ZArith Lia.
From S2P Require Import Prelude Joins Nodes Builders.

Local Open Scope Z_scope.
Set Warnings "-register-all".

(** Signed 64-bit sums wrap here; in the source an overflow is undefined. *)
Definition add64 (a b : Z) : Z := (a + b + 2 ^ 63) mod 2 ^ 64 - 2 ^ 63.

(** The projections of a plan, and what [PrecomputeProjections::inlineInputProject] makes of
    two of them: the merged one, or none if the input stays. *)
Class ProjectOps (S P : Type) := {
  inlineInputProject : P -> P -> StateM S (option P);
  projectColumns : P -> list nat;
}.

(** ** Nodes *)

Section Nodes.
Context {P E D : Type}.

(** [D] stands for the members of a node the pass copies; a rebuilt join loses its
    [buildIsLoopInvariant], which physical planning sets after this pass.  [OtherNode] are the nodes whose
    inputs are rewritten by the inherited hooks. *)
Inductive PlanNode :=
  | EmptyValues (outputColumns : list nat)
  | LeafNode (nodeType : NodeType) (members : D)
  | FilterNode (members : D) (input : PlanNode)
  | ProjectNode (projection : P) (input : PlanNode)
  | LimitNode (offset count : Z) (partial : bool) (input : PlanNode)
  | SortNode (order : D) (partial : bool) (input : PlanNode)
  | TopNNode (order : D) (offset count : Z) (partial : bool) (input : PlanNode)
  | UnionAllNode (members : D) (inputs : list PlanNode)
  | JoinNode (joinType : JoinType) (leftKeys filter : list E) (nullAware : bool) (members : D)
      (leftInput rightInput : PlanNode)
  | WindowNode (functions : list (option string)) (orderKeys : list E) (members : D) (input : PlanNode)
  | EnforceSingleRowNode (members : D) (input : PlanNode)
  | OtherNode (nodeType : NodeType) (members : D) (inputs : list PlanNode).

Definition inputs_of (node : PlanNode) : list PlanNode :=
  match node with
  | EmptyValues _ | LeafNode _ _ => []
  | FilterNode _ input | ProjectNode _ input | LimitNode _ _ _ input | SortNode _ _ input
  | TopNNode _ _ _ _ input | WindowNode _ _ _ input | EnforceSingleRowNode _ input => [input]
  | JoinNode _ _ _ _ _ leftInput rightInput => [leftInput; rightInput]
  | UnionAllNode _ inputs | OtherNode _ _ inputs => inputs
  end.
End Nodes.
Arguments PlanNode : clear implicits.

(** ** The pass *)

Module LimitAndOrderPass.
Section LimitAndOrderPass.
Context {S P E D : Type} `{ProjectOps S P}.
(** The columns of a node that are not its input's; the registry's name of [row_number]. *)
Context (columns : D -> list nat) (rowNumber : option string).
Abbreviation Node := (PlanNode P E D).
Abbreviation M := (StateM S).

Definition kNoCount : Z := 2 ^ 63 - 1.

Record LimitBound := mkBound { offset : Z; count : Z }.

Definition collapse (outer inner : LimitBound) : LimitBound :=
  let offset' := add64 (offset inner) (offset outer) in
  if count inner =? kNoCount then mkBound offset' (count outer)
  else
    let afterOuterOffset := Z.max 0 (count inner - offset outer) in
    mkBound offset' (if count outer =? kNoCount then afterOuterOffset else Z.min (count outer) afterOuterOffset).

Definition isUnorderedRowNumber (functions : list (option string)) (orderKeys : list E) : bool :=
  match orderKeys, functions with
  | [], [Some name] => bool_decide (Some name = rowNumber)
  | _, _ => false
  end.

Definition readsRightForExistenceOnly (joinType : JoinType) (leftKeys filter : list E) (nullAware : bool) : bool :=
  (bool_decide (joinType = kLeftSemiFilter) || bool_decide (joinType = kLeftSemiProject) ||
   bool_decide (joinType = kAnti)) &&
  (match leftKeys with [] => true | _ => false end) && (match filter with [] => true | _ => false end) &&
  negb nullAware.

Record LimitContext := mkContext { pending : option LimitBound; orderPreserved : bool }.

Fixpoint outputColumns (node : Node) : list nat :=
  match node with
  | EmptyValues outputs => outputs
  | ProjectNode p _ => projectColumns (S:=S) p
  | FilterNode _ input | LimitNode _ _ _ input | SortNode _ _ input | TopNNode _ _ _ _ input => outputColumns input
  | LeafNode _ d | UnionAllNode d _ | JoinNode _ _ _ _ d _ _ | WindowNode _ _ d _ | EnforceSingleRowNode d _
  | OtherNode _ d _ => columns d
  end.

(** [builder().make<Limit>] and [make<TopN>], with the checks of the constructors. *)
Definition makeLimit (input : Node) (offset count : Z) : M Node :=
  lift (velox_check (0 <=? offset) "offset_, 0");;
  lift (velox_check (0 <=? count) "count_, 0");;
  mret (LimitNode offset count false input).

Definition makeTopN (input : Node) (order : D) (offset count : Z) : M Node :=
  lift (velox_check (0 <=? offset) "offset_, 0");;
  lift (velox_check (0 <=? count) "count_, 0");;
  mret (TopNNode order offset count false input).

Definition materialize (pending : option LimitBound) (node : Node) : M Node :=
  match pending with
  | None => mret node
  | Some bound => makeLimit node (offset bound) (count bound)
  end.

(** [NodeRewriter::rewriteProject] past the rewrite of the input: unchanged, or rebuilt over
    the new input with a project of the input inlined. *)
Definition rebuildProject (node : Node) (p : P) (input newInput : Node) (same : bool) : M Node :=
  if same then mret node
  else
    match newInput with
    | ProjectNode child below =>
        merged ← inlineInputProject p child;
        mret (match merged with Some p => ProjectNode p below | None => ProjectNode p newInput end)
    | _ => mret (ProjectNode p newInput)
    end.

(** Which barriers pass the order of their input on. *)
Definition preservesOrder (type : NodeType) : bool :=
  match type with
  | kScan | kValues | kFilter | kUnnest | kWorkingTable => true
  | _ => false
  end.

(** The nodes that are barriers by [LIMIT_BARRIER]. *)
Definition isBarrier (type : NodeType) : bool :=
  match type with
  | kScan | kValues | kFilter | kAggregate | kGroupId | kUnnest | kApply | kEnforceDistinct | kTopNRowNumber
  | kNodeExchange | kWorkingTable | kFixedPoint | kRepeat => true
  | _ => false
  end.

Definition enter (preserves : bool) (context : LimitContext) : LimitContext :=
  mkContext None (if preserves then orderPreserved context else false).

(** A node that passes the bound on or, a barrier, keeps it above. *)
Definition barrier {A} (type : NodeType) (context : LimitContext)
    (body : LimitContext -> M (A * LimitContext)) (above : option LimitBound -> A -> M Node) :
    M (Node * LimitContext) :=
  if isBarrier type then
    r ← body (enter (preservesOrder type) context);
    node ← above (pending context) r.1;
    mret (node, r.2)
  else
    r ← body context;
    node ← above None r.1;
    mret (node, r.2).

(** Every leg with the same bound; the inputs of one node with one context. *)
Definition rewriteLegs (rewrite : Node -> M (Node * LimitContext)) : list Node -> M (list Node) :=
  fix legs inputs :=
    match inputs with
    | [] => mret []
    | input :: inputs =>
        r ← rewrite input;
        newInputs ← legs inputs;
        mret (r.1 :: newInputs)
    end.

Definition rewriteInputs (rewrite : Node -> LimitContext -> M (Node * LimitContext)) :
    list Node -> LimitContext -> M (list Node * LimitContext) :=
  fix each inputs context :=
    match inputs with
    | [] => mret ([], context)
    | input :: inputs =>
        r ← rewrite input context;
        rest ← each inputs r.2;
        mret (r.1 :: rest.1, rest.2)
    end.

Context `{!EqDecision Node}.

Fixpoint rewrite (node : Node) (context : LimitContext) : M (Node * LimitContext) :=
  match node with
  | EmptyValues _ =>
      node ← materialize (pending context) node;
      mret (node, enter true context)
  | LeafNode type _ =>
      barrier type context (fun context => mret (node, context)) materialize
  | FilterNode d input =>
      barrier kFilter context (rewrite input) (fun bound newInput => materialize bound (FilterNode d newInput))
  | ProjectNode p input =>
      r ← rewrite input context;
      node ← rebuildProject node p input r.1 (bool_decide (r.1 = input));
      mret (node, r.2)
  | LimitNode offset count _ input =>
      let here := mkBound offset count in
      let bound := match pending context with Some outer => collapse outer here | None => here end in
      if LimitAndOrderPass.count bound =? 0 then mret (EmptyValues (outputColumns node), context)
      else rewrite input (mkContext (Some bound) (orderPreserved context))
  | SortNode order partial input =>
      let dropSort := match pending context with None => negb (orderPreserved context) | Some _ => false end in
      r ← rewrite input (mkContext None false);
      match pending context with
      | Some bound =>
          if negb (count bound =? kNoCount)
          then node ← makeTopN r.1 order (offset bound) (count bound); mret (node, r.2)
          else node ← materialize (Some bound) (SortNode order partial r.1); mret (node, r.2)
      | None => mret (if dropSort then r.1 else SortNode order partial r.1, r.2)
      end
  | TopNNode order offset count partial input =>
      r ← rewrite input (mkContext None false);
      match pending context with
      | Some outer =>
          let folded := collapse outer (mkBound offset count) in
          if LimitAndOrderPass.count folded =? 0 then mret (EmptyValues (outputColumns node), r.2)
          else node ← makeTopN r.1 order (LimitAndOrderPass.offset folded) (LimitAndOrderPass.count folded); mret (node, r.2)
      | None =>
          if bool_decide (r.1 = input) then mret (node, r.2)
          else newNode ← makeTopN r.1 order offset count; mret (newNode, r.2)
      end
  | UnionAllNode d inputs =>
      let legBound := match pending context with
                      | Some bound => if negb (count bound =? kNoCount)
                                      then Some (mkBound 0 (add64 (offset bound) (count bound))) else None
                      | None => None
                      end in
      newInputs ← rewriteLegs (fun input => rewrite input (mkContext legBound false)) inputs;
      node ← materialize (pending context) (UnionAllNode d newInputs);
      mret (node, mkContext None (orderPreserved context))
  | JoinNode joinType leftKeys filter nullAware d leftInput rightInput =>
      newLeft ← rewrite leftInput (mkContext None false);
      newRight ← rewrite rightInput
        (mkContext (if readsRightForExistenceOnly joinType leftKeys filter nullAware
                    then Some (mkBound 0 1) else None) false);
      node ← materialize (pending context)
               (JoinNode joinType leftKeys filter nullAware d newLeft.1 newRight.1);
      mret (node, newLeft.2)
  | WindowNode functions orderKeys d input =>
      if isUnorderedRowNumber functions orderKeys then
        r ← rewrite input (mkContext (pending context) false);
        mret (WindowNode functions orderKeys d r.1, r.2)
      else
        r ← rewrite input (mkContext None false);
        node ← materialize (pending context) (WindowNode functions orderKeys d r.1);
        mret (node, r.2)
  | EnforceSingleRowNode d input =>
      let bound := match pending context with
                   | Some bound => if 0 <? offset bound then Some bound else None
                   | None => None
                   end in
      r ← rewrite input (mkContext None (orderPreserved context));
      node ← materialize bound (EnforceSingleRowNode d r.1);
      mret (node, r.2)
  | OtherNode type d inputs =>
      if bool_decide (type = kRowNumber) then throw (VeloxUnreachable "A RowNumber cannot reach this pass")
      else
        barrier type context (rewriteInputs rewrite inputs)
          (fun bound newInputs => materialize bound (OtherNode type d newInputs))
  end.

Definition run (root : Node) : M Node :=
  r ← rewrite root (mkContext None true);
  mret r.1.
End LimitAndOrderPass.
End LimitAndOrderPass.
Import LimitAndOrderPass.
