(* ===== verification/LimitMeanings.v ===== *)
(** * What the plans of the limit pass emit

    The rows a plan of [LimitOrders] may emit, over an [Engine] that says what its operators
    compute: a limit cuts a list of rows, a scan and most operators emit their rows in any
    order, and a filter, a projection or an unnest keeps the order of its input.  [meets] is
    what a rewritten plan has to emit under the bound and the order its consumer imposes. *)

From Stdlib Require Import ZArith Lia.
From S2P Require Import Prelude Joins Nodes Builders LimitOrders.
Import LimitAndOrderPass.

Local Open Scope Z_scope.
Set Warnings "-register-all".

(** ** Engines *)

(** What the operators compute, by the members of their nodes. *)
Class Engine (P E D R : Type) := {
  row_ok : R -> Prop;                                    (* a well-typed row *)
  values : D -> list R;                                  (* Values *)
  scanned : D -> list R -> Prop;                         (* Scan *)
  keeps : D -> R -> bool;                                (* Filter *)
  project : P -> R -> R;                                 (* Project *)
  rowLe : D -> R -> R -> Prop;                           (* the order of Sort and TopN *)
  expand : D -> R -> list R;                             (* Unnest *)
  extended : NodeType -> D -> list R -> list R -> Prop;  (* a row for each row of the input *)
  numbered : D -> list R -> list R -> Prop;              (* an unordered row_number *)
  joined : JoinType -> list E -> list E -> bool -> D -> list R -> list R -> list R -> Prop;  (* keys, filter, nullAware *)
  nullRow : D -> R;                                      (* EnforceSingleRow over no row *)
  computed : NodeType -> D -> list R -> list R -> Prop   (* the other operators *)
}.

(** Nodes that emit one row for each row of the input, and those that compute their output
    from all rows of the input. *)
Definition isRowWise (type : NodeType) : bool :=
  match type with kAssignUniqueId | kMarkDistinct | kInference => true | _ => false end.
Definition isComputed (type : NodeType) : bool :=
  match type with
  | kAggregate | kGroupId | kEnforceDistinct | kTopNRowNumber | kNodeExchange => true
  | _ => false
  end.

(** A function of rows whose output for some rows is part of an output for more. *)
Record grows {R} (f : list R -> list R -> Prop) : Prop := {
  grows_length l out : f l out -> length out = length l;
  grows_around pre mid post out : f mid out -> exists pre' post',
    length pre' = length pre /\ f (pre ++ mid ++ post) (pre' ++ out ++ post');
}.

(** What the code relies on: tables have no order; sorting is by a total preorder; ids,
    marks and numbers given to some rows can be given to them among more; joins and the
    operators that compute from all rows look at no order, and an unconditional semi or anti
    join looks only at whether its right side has a row. *)
Class EngineLaws (P E D R : Type) `{Engine P E D R} := {
  rowLe_dec d : RelDecision (rowLe d);
  rowLe_total d : Total (rowLe d);
  rowLe_trans d : Transitive (rowLe d);
  scanned_perm d l l' : scanned d l -> l ≡ₚ l' -> scanned d l';
  extended_grows type d : isRowWise type = true -> grows (extended type d);
  extended_perm type d l l' out : isRowWise type = true -> extended type d l out -> l ≡ₚ l' ->
    exists out', out ≡ₚ out' /\ extended type d l' out';
  extended_perm_out type d l out out' : isRowWise type = true -> extended type d l out -> out ≡ₚ out' ->
    exists l', l ≡ₚ l' /\ extended type d l' out';
  numbered_grows d : grows (numbered d);
  numbered_perm d l l' out out' : numbered d l out -> l ≡ₚ l' -> out ≡ₚ out' -> numbered d l' out';
  joined_perm t keys filter na d ls ls' rs rs' out out' :
    joined t keys filter na d ls rs out -> ls ≡ₚ ls' -> rs ≡ₚ rs' -> out ≡ₚ out' ->
    joined t keys filter na d ls' rs' out';
  joined_exists t keys filter na d ls rs rs' out :
    readsRightForExistenceOnly t keys filter na = true ->
    joined t keys filter na d ls rs out -> (rs = [] <-> rs' = []) -> joined t keys filter na d ls rs' out;
  computed_perm type d l l' out out' :
    computed type d l out -> l ≡ₚ l' -> out ≡ₚ out' -> computed type d l' out';
  values_row_ok d : Forall row_ok (values d);
  scanned_row_ok d l : scanned d l -> Forall row_ok l;
  expand_row_ok d r : row_ok r -> Forall row_ok (expand d r);
  extended_row_ok type d l out : extended type d l out -> Forall row_ok l -> Forall row_ok out;
  numbered_row_ok d l out : numbered d l out -> Forall row_ok l -> Forall row_ok out;
  joined_row_ok t keys filter na d ls rs out :
    joined t keys filter na d ls rs out -> Forall row_ok ls -> Forall row_ok rs -> Forall row_ok out;
  nullRow_ok d : row_ok (nullRow d);
  computed_row_ok type d l out : computed type d l out -> Forall row_ok l -> Forall row_ok out
}.

(** ** Cutting lists *)

Definition cut_bound {R} (b : LimitBound) (l : list R) : list R :=
  let rest := drop (Z.to_nat (offset b)) l in
  if count b =? kNoCount then rest else take (Z.to_nat (count b)) rest.

Definition cut {R} (b : option LimitBound) (l : list R) : list R :=
  match b with Some b => cut_bound b l | None => l end.

(** The rows a bound may have to count; what it may add up to. *)
Definition bound_weight (b : LimitBound) : Z :=
  offset b + (if count b =? kNoCount then 0 else count b).
Definition pending_weight (b : option LimitBound) : Z :=
  match b with Some b => bound_weight b | None => 0 end.
Definition bound_ok (b : LimitBound) : Prop := 0 <= offset b /\ 0 <= count b <= kNoCount.

Section Cut.
Context {R : Type}.
Implicit Types (l : list R) (b : LimitBound).

Lemma bound_weight_nonneg b : bound_ok b -> 0 <= bound_weight b.
Proof. unfold bound_ok, bound_weight. destruct (count b =? kNoCount); lia. Qed.

Lemma add64_small (x y : Z) : 0 <= x -> 0 <= y -> x + y <= kNoCount -> add64 x y = x + y.
Proof. unfold add64, kNoCount. intros. rewrite Z.mod_small; lia. Qed.

Lemma collapse_ok outer inner : bound_ok outer -> bound_ok inner ->
  bound_weight outer + bound_weight inner < kNoCount ->
  bound_ok (collapse outer inner) /\
  bound_weight (collapse outer inner) <= bound_weight outer + bound_weight inner.
Proof.
  destruct outer as [o2 c2], inner as [o1 c1]. unfold bound_ok, bound_weight, collapse. cbn [offset count].
  intros [Ho2 Hc2] [Ho1 Hc1] Hw.
  assert (Hsum : add64 o1 o2 = o1 + o2).
  { apply add64_small; [lia | lia |]. destruct (c2 =? kNoCount), (c1 =? kNoCount); lia. }
  destruct (Z.eqb_spec c1 kNoCount); cbn [offset count]; rewrite Hsum; [split; [lia | destruct (c2 =? kNoCount); lia] |].
  destruct (Z.eqb_spec c2 kNoCount); split; try lia.
  - destruct (Z.eqb_spec (Z.max 0 (c1 - o2)) kNoCount); lia.
  - destruct (Z.eqb_spec (Z.min c2 (Z.max 0 (c1 - o2))) kNoCount); lia.
Qed.

(** Collapsed bounds cut as one after the other. *)
Lemma cut_collapse outer inner l : bound_ok outer -> bound_ok inner ->
  bound_weight outer + bound_weight inner < kNoCount ->
  cut_bound (collapse outer inner) l = cut_bound outer (cut_bound inner l).
Proof.
  destruct outer as [o2 c2], inner as [o1 c1]. unfold bound_ok, bound_weight, collapse, cut_bound. cbn [offset count].
  intros [Ho2 Hc2] [Ho1 Hc1] Hw.
  assert (Hsum : add64 o1 o2 = o1 + o2).
  { apply add64_small; [lia | lia |]. destruct (c2 =? kNoCount), (c1 =? kNoCount); lia. }
  destruct (Z.eqb_spec c1 kNoCount) as [E1|E1]; cbn [offset count]; rewrite Hsum, (Z2Nat.inj_add o1 o2), <- drop_drop by lia;
    [done |].
  assert (Hdrop : forall m : list R, drop (Z.to_nat o2) (take (Z.to_nat c1) m) = take (Z.to_nat (c1 - o2)) (drop (Z.to_nat o2) m)).
  { intros m. rewrite skipn_firstn_comm. f_equal. lia. }
  rewrite Hdrop. replace (Z.to_nat (Z.max 0 (c1 - o2))) with (Z.to_nat (c1 - o2)) by lia.
  destruct (Z.eqb_spec c2 kNoCount) as [E2|E2].
  - rewrite (proj2 (Z.eqb_neq _ _)) by lia. by replace (Z.to_nat (Z.max 0 (c1 - o2))) with (Z.to_nat (c1 - o2)) by lia.
  - rewrite (proj2 (Z.eqb_neq _ _)) by lia. rewrite take_take. f_equal. lia.
Qed.

Lemma cut_zero b l : count b = 0 -> cut_bound b l = [].
Proof. unfold cut_bound. by intros ->. Qed.

(** A cut takes out the middle of a list, by its length alone. *)
Lemma cut_middle b l : exists pre post, l = pre ++ cut_bound b l ++ post /\
  forall (R' : Type) (pre' mid' post' : list R'), length pre' = length pre -> length mid' = length (cut_bound b l) ->
    length post' = length post -> cut_bound b (pre' ++ mid' ++ post') = mid'.
Proof.
  unfold cut_bound. set (o := Z.to_nat (offset b)). destruct (count b =? kNoCount).
  - exists (take o l), []. rewrite app_nil_r, take_drop. split; [done |].
    intros R' pre mid post Hpre Hmid Hpost. rewrite (nil_length_inv post Hpost), app_nil_r.
    rewrite length_take in Hpre. rewrite length_drop in Hmid. destruct (Nat.le_gt_cases o (length l)) as [Hle|Hgt].
    + rewrite drop_app_length'; [done | lia].
    + rewrite drop_ge; [| rewrite length_app; lia]. by rewrite (nil_length_inv mid) by lia.
  - set (c := Z.to_nat (count b)). exists (take o l), (drop c (drop o l)). rewrite take_drop, take_drop.
    split; [done |]. intros R' pre mid post Hpre Hmid Hpost.
    rewrite length_take in Hpre. rewrite length_take, length_drop in Hmid. rewrite !length_drop in Hpost.
    destruct (Nat.le_gt_cases o (length l)) as [Hle|Hgt].
    + rewrite drop_app_length' by lia. destruct (Nat.le_gt_cases c (length l - o)) as [Hc|Hc].
      * rewrite take_app_length'; [done | lia].
      * rewrite (nil_length_inv post) by lia. rewrite app_nil_r. apply take_ge. lia.
    + rewrite drop_ge; [| rewrite !length_app; lia]. rewrite take_nil. by rewrite (nil_length_inv mid) by lia.
Qed.

(** Reordered rows of a cut are a cut of reordered rows. *)
Lemma cut_reorder b l l' : l' ≡ₚ cut_bound b l -> exists p, p ≡ₚ l /\ l' = cut_bound b p.
Proof.
  intros Hp. destruct (cut_middle b l) as (pre & post & E & Hcut). exists (pre ++ l' ++ post). split.
  - rewrite E at 1. by rewrite Hp.
  - symmetry. apply Hcut; [done | by rewrite Hp | done].
Qed.

Lemma cut_map {R'} (f : R -> R') b l : cut_bound b (map f l) = map f (cut_bound b l).
Proof. unfold cut_bound. rewrite skipn_map. destruct (_ =? _); [done |]. by rewrite firstn_map. Qed.

(** A cut of at most one row that skips none and keeps one. *)
Lemma cut_single b l : offset b = 0 -> 0 < count b -> (length l <= 1)%nat -> cut_bound b l = l.
Proof.
  intros Ho Hc Hl. unfold cut_bound. rewrite Ho. cbn [Z.to_nat drop]. destruct (_ =? _); [done |].
  apply take_ge. lia.
Qed.
End Cut.

(** ** What a plan emits *)

Section Meaning.
Context {S P E D R : Type} `{ProjectOps S P} `{Engine P E D R}.
Context (columns : D -> list nat) (rowNumber : option string).
Abbreviation Node := (PlanNode P E D).

Inductive emits : Node -> list R -> Prop :=
  | emits_empty outputs : emits (EmptyValues outputs) []
  | emits_values d : emits (LeafNode kValues d) (values d)
  | emits_scan d l : scanned d l -> emits (LeafNode kScan d) l
  | emits_filter d input l : emits input l -> emits (FilterNode d input) (List.filter (keeps d) l)
  | emits_project p input l : emits input l -> emits (ProjectNode p input) (map (project p) l)
  | emits_limit offset count input l :
      emits input l -> emits (LimitNode offset count false input) (cut_bound (mkBound offset count) l)
  | emits_sort d input l s :
      emits input l -> s ≡ₚ l -> StronglySorted (rowLe d) s -> emits (SortNode d false input) s
  | emits_topn d offset count input l s :
      emits input l -> s ≡ₚ l -> StronglySorted (rowLe d) s ->
      emits (TopNNode d offset count false input) (cut_bound (mkBound offset count) s)
  | emits_union d inputs ls l : Forall2 emits inputs ls -> l ≡ₚ concat ls -> emits (UnionAllNode d inputs) l
  | emits_join t leftKeys filter nullAware d leftInput rightInput ls rs out :
      emits leftInput ls -> emits rightInput rs -> joined t leftKeys filter nullAware d ls rs out ->
      emits (JoinNode t leftKeys filter nullAware d leftInput rightInput) out
  | emits_row_number functions orderKeys d input l out :
      isUnorderedRowNumber rowNumber functions orderKeys = true -> emits input l -> numbered d l out ->
      emits (WindowNode functions orderKeys d input) out
  | emits_window functions orderKeys d input l out :
      isUnorderedRowNumber rowNumber functions orderKeys = false -> emits input l -> computed kWindow d l out ->
      emits (WindowNode functions orderKeys d input) out
  | emits_single d input l : emits input l -> (length l <= 1)%nat ->
      emits (EnforceSingleRowNode d input) (match l with [] => [nullRow d] | _ => l end)
  | emits_unnest d input l : emits input l -> emits (OtherNode kUnnest d [input]) (flat_map (expand d) l)
  | emits_row_wise type d input l out :
      isRowWise type = true -> emits input l -> extended type d l out -> emits (OtherNode type d [input]) out
  | emits_computed type d input l out :
      isComputed type = true -> emits input l -> computed type d l out -> emits (OtherNode type d [input]) out.

(** ** Plans the theorem is about *)

(** What holds of each projection and the columns of its input. *)
Fixpoint all_projects (Q : P -> list nat -> Prop) (node : Node) : Prop :=
  match node with
  | EmptyValues _ | LeafNode _ _ => True
  | ProjectNode p input => Q p (outputColumns (S:=S) columns input) /\ all_projects Q input
  | FilterNode _ input | LimitNode _ _ _ input | SortNode _ _ input | TopNNode _ _ _ _ input
  | WindowNode _ _ _ input | EnforceSingleRowNode _ input => all_projects Q input
  | JoinNode _ _ _ _ _ leftInput rightInput => all_projects Q leftInput /\ all_projects Q rightInput
  | UnionAllNode _ inputs | OtherNode _ _ inputs =>
      (fix each (inputs : list Node) : Prop :=
         match inputs with [] => True | input :: inputs => all_projects Q input /\ each inputs end) inputs
  end.

Definition isSupported (type : NodeType) : bool :=
  isRowWise type || isComputed type || bool_decide (type = kUnnest).

(** No physical nodes, and none that evaluates an input more than once (FixedPoint, Repeat,
    Apply). *)
Fixpoint supported (node : Node) : bool :=
  match node with
  | EmptyValues _ => true
  | LeafNode type _ => bool_decide (type = kScan) || bool_decide (type = kValues)
  | FilterNode _ input | ProjectNode _ input | WindowNode _ _ _ input | EnforceSingleRowNode _ input => supported input
  | LimitNode _ _ partial input | SortNode _ partial input | TopNNode _ _ _ partial input =>
      negb partial && supported input
  | JoinNode _ _ _ _ _ leftInput rightInput => supported leftInput && supported rightInput
  | UnionAllNode _ inputs => forallb supported inputs
  | OtherNode type _ inputs =>
      isSupported type && match inputs with [input] => supported input | _ => false end
  end.

(** Bounds are not negative, and add up to less than the count that stands for no bound. *)
Fixpoint bounds_ok (node : Node) : bool :=
  match node with
  | EmptyValues _ | LeafNode _ _ => true
  | LimitNode offset count _ input | TopNNode _ offset count _ input =>
      (0 <=? offset) && (0 <=? count) && (count <=? kNoCount) && bounds_ok input
  | FilterNode _ input | ProjectNode _ input | SortNode _ _ input | WindowNode _ _ _ input
  | EnforceSingleRowNode _ input => bounds_ok input
  | JoinNode _ _ _ _ _ leftInput rightInput => bounds_ok leftInput && bounds_ok rightInput
  | UnionAllNode _ inputs | OtherNode _ _ inputs => forallb bounds_ok inputs
  end.

Fixpoint weight (node : Node) : Z :=
  match node with
  | EmptyValues _ | LeafNode _ _ => 0
  | LimitNode offset count _ input | TopNNode _ offset count _ input =>
      bound_weight (mkBound offset count) + weight input
  | FilterNode _ input | ProjectNode _ input | SortNode _ _ input | WindowNode _ _ _ input
  | EnforceSingleRowNode _ input => weight input
  | JoinNode _ _ _ _ _ leftInput rightInput => weight leftInput + (1 + weight rightInput)
  | UnionAllNode _ inputs | OtherNode _ _ inputs => foldr (fun input total => weight input + total) 0 inputs
  end.

(** The rows of the node come in any order. *)
Fixpoint unordered (node : Node) : bool :=
  match node with
  | EmptyValues _ | UnionAllNode _ _ | JoinNode _ _ _ _ _ _ _ | WindowNode _ _ _ _ | EnforceSingleRowNode _ _ => true
  | LeafNode type _ => bool_decide (type = kScan)
  | FilterNode _ input | ProjectNode _ input | LimitNode _ _ _ input => unordered input
  | SortNode _ _ _ | TopNNode _ _ _ _ _ => false
  | OtherNode type _ inputs =>
      isComputed type || match inputs with [input] => isRowWise type && unordered input | _ => false end
  end.

(** No limit below an operator that observes no order has, between it and a sort, a filter
    or an unnest: [limited] is set below a bound, [strict] if a limit of the plan is part of
    it. *)
Fixpoint orders_ok (limited ordered strict : bool) (node : Node) : bool :=
  match node with
  | EmptyValues _ | LeafNode _ _ => true
  | ProjectNode _ input => orders_ok limited ordered strict input
  | FilterNode _ input =>
      (negb (limited && negb ordered && strict) || unordered input) && orders_ok false ordered false input
  | LimitNode _ _ _ input => orders_ok true ordered true input
  | SortNode _ _ input | TopNNode _ _ _ _ input => orders_ok false false false input
  | UnionAllNode _ inputs => forallb (orders_ok limited false false) inputs
  | JoinNode _ _ _ _ _ leftInput rightInput =>
      orders_ok false false false leftInput && orders_ok true false false rightInput
  | WindowNode functions orderKeys _ input =>
      orders_ok (isUnorderedRowNumber rowNumber functions orderKeys && limited) false false input
  | EnforceSingleRowNode _ input => orders_ok false ordered false input
  | OtherNode type _ inputs =>
      match inputs with
      | [input] =>
          if bool_decide (type = kUnnest)
          then (negb (limited && negb ordered && strict) || unordered input) && orders_ok false ordered false input
          else if isRowWise type then orders_ok limited ordered strict input
          else orders_ok false false false input
      | _ => true
      end
  end.

(** ** What a rewritten plan has to emit *)

(** Under a bound and an order that is observed, a cut of an output of the plan; if the order
    is not observed, the rows of one, in any order - or, when only the number of rows
    matters, any rows. *)
Definition meets (strict : bool) (context : LimitContext) (outputs : list R -> Prop) (l' : list R) : Prop :=
  if orderPreserved context then exists l, outputs l /\ l' = cut (pending context) l
  else if strict then exists l, outputs l /\ l' ≡ₚ cut (pending context) l
  else exists l p, outputs l /\ p ≡ₚ l /\ l' = cut (pending context) p.

Lemma meets_exact strict context (outputs : list R -> Prop) l :
  outputs l -> meets strict context outputs (cut (pending context) l).
Proof. intros Hl. unfold meets. destruct (orderPreserved context), strict; eauto 6. Qed.

Lemma meets_weak strict context (outputs : list R -> Prop) l' :
  meets strict context outputs l' -> meets false context outputs l'.
Proof.
  unfold meets. destruct (orderPreserved context); [done |]. destruct strict; [| done]. intros (l & Hl & Hp).
  destruct (pending context) as [b|]; cbn [cut] in *.
  - destruct (cut_reorder b l l' Hp) as (p & Hp' & ->). eauto 6.
  - exists l, l'. auto.
Qed.

(** Without a bound the rows are those of an output. *)
Lemma meets_unbounded strict ordered (outputs : list R -> Prop) l' :
  meets strict (mkContext None ordered) outputs l' ->
  exists l, outputs l /\ l' ≡ₚ l /\ (ordered = true -> l' = l).
Proof.
  unfold meets. cbn. destruct ordered, strict.
  1, 2: intros (l & Hl & ->); eauto.
  - intros (l & Hl & Hp). exists l. split_conj; [done | done | discriminate].
  - intros (l & p & Hl & Hp & ->). exists l. split_conj; [done | done | discriminate].
Qed.
End Meaning.
