(* ===== verification/LimitFacts.v ===== *)
(** * The limit pass keeps what a plan may emit

    By induction on the plan: a plan [LimitAndOrderPass] rewrites under a bound and an order
    emits what the original may emit, cut by the bound - in the order of the original where
    that is observed, and some of its rows in any order where it is not.  The whole pass
    therefore only narrows the outputs of a query.

    The induction needs that no limit below an operator that observes no order looks at a
    sort through a filter or an unnest ([orders_ok]); [LimitExamples] shows that the pass
    changes the rows of such a plan. *)

From Stdlib Require Import ZArith Lia.
From S2P Require Import Prelude Joins Nodes Builders LimitOrders LimitMeanings.
Import LimitAndOrderPass.

Local Open Scope Z_scope.
Set Warnings "-register-all".

(** What merging two projections promises. *)
Class InlineLaws (S P E D R : Type) `{ProjectOps S P} `{World S} `{Engine P E D R} := {
  known : S -> P -> list nat -> Prop;  (* a projection over the columns *)
  mergeable : P -> Prop;               (* one that may be merged with its input *)
  known_extends b b' p cols : extends b b' -> known b p cols -> known b' p cols;
  project_row_ok b p cols r : known b p cols -> row_ok r -> row_ok (project p r);
  inline_ok b p child cols :
    world_ok b -> known b p (projectColumns (S:=S) child) -> mergeable p -> known b child cols ->
    match inlineInputProject p child b with
    | Ok (merged, b') => world_ok b' /\ extends b b' /\
        forall q, merged = Some q ->
          known b' q cols /\ projectColumns (S:=S) q = projectColumns (S:=S) p /\
          forall r, row_ok r -> project q r = project p (project child r)
    | Throw _ => True
    end
}.

Section Facts.
Context {S P E D R : Type} `{InlineLaws S P E D R} `{!EngineLaws P E D R}.
Context `{!EqDecision (PlanNode P E D)}.
Context (columns : D -> list nat) (rowNumber : option string).
Abbreviation Node := (PlanNode P E D).
Abbreviation emits := (emits (P:=P) (E:=E) (D:=D) (R:=R) rowNumber).
Abbreviation rewrite_ := (rewrite (S:=S) columns rowNumber).
Abbreviation orders_ok := (orders_ok (P:=P) (E:=E) (D:=D) rowNumber).
Abbreviation all_known b := (all_projects (S:=S) (P:=P) (E:=E) (D:=D) columns (known b)).
Abbreviation original b := (all_projects (S:=S) (P:=P) (E:=E) (D:=D) columns (fun p cols => known b p cols /\ mergeable p)).
Abbreviation outputColumns := (outputColumns (S:=S) (P:=P) (E:=E) (D:=D) columns).

(** ** Trees *)

Section Induction.
Context (Q : Node -> Prop) (Hnode : forall node, Forall Q (inputs_of node) -> Q node).

Fixpoint Node_nested_ind (node : Node) : Q node :=
  let one input := Forall_cons_2 Q input [] (Node_nested_ind input) (Forall_nil_2 _) in
  let each := fix each (inputs : list Node) : Forall Q inputs :=
    match inputs with
    | [] => Forall_nil_2 _
    | input :: inputs => Forall_cons_2 _ _ _ (Node_nested_ind input) (each inputs)
    end in
  Hnode node
    (match node return Forall Q (inputs_of node) with
     | EmptyValues _ | LeafNode _ _ => Forall_nil_2 _
     | FilterNode _ input | ProjectNode _ input | LimitNode _ _ _ input | SortNode _ _ input
     | TopNNode _ _ _ _ input | WindowNode _ _ _ input | EnforceSingleRowNode _ input => one input
     | JoinNode _ _ _ _ _ leftInput rightInput =>
         Forall_cons_2 _ _ _ (Node_nested_ind leftInput) (one rightInput)
     | UnionAllNode _ inputs | OtherNode _ _ inputs => each inputs
     end).
End Induction.

Lemma all_projects_impl (Q Q' : P -> list nat -> Prop) (node : Node) :
  (forall p cols, Q p cols -> Q' p cols) -> all_projects (S:=S) columns Q node -> all_projects (S:=S) columns Q' node.
Proof.
  intros Himp. induction node as [node IH] using Node_nested_ind. intros Hn.
  assert (Hlist : forall inputs, Forall (fun input => all_projects (S:=S) columns Q input -> all_projects (S:=S) columns Q' input) inputs ->
    (fix each (inputs : list Node) : Prop :=
       match inputs with [] => True | input :: inputs => all_projects (S:=S) columns Q input /\ each inputs end) inputs ->
    (fix each (inputs : list Node) : Prop :=
       match inputs with [] => True | input :: inputs => all_projects (S:=S) columns Q' input /\ each inputs end) inputs).
  { induction 1 as [|input inputs Hi _ IHi]; [done |]. intros [Hi1 Hi2]. split; [by apply Hi | by apply IHi]. }
  destruct node; cbn [all_projects inputs_of] in *; rewrite ?Forall_cons in IH; try (by apply Hlist); try done.
  1, 3, 4, 5, 7, 8: by apply IH.
  - destruct Hn as [Hq Hi]. split; [by apply Himp | by apply IH].
  - destruct Hn as [Hl Hr], IH as (IHl & IHr & _). auto.
Qed.



Lemma original_known b (node : Node) : original b node -> all_known b node.
Proof. apply all_projects_impl. by intros p cols [? _]. Qed.

Lemma Forall2_one {A B} (Q : A -> B -> Prop) a l : Forall2 Q [a] l -> exists b, l = [b] /\ Q a b.
Proof. intros HQ. inversion HQ as [|? b ? l' Hb Hl]; subst. inversion Hl. eauto. Qed.




(** ** Runs of the pass *)












(** ** What each operator makes of its input *)


















(** ** The pass *)


























End Facts.
