(* ===== verification/ProjectInlinings.v ===== *)
(** * Projections and their merging

    [PrecomputeProjections::inlineInputProject] of [axiom/optimizer/v2/PrecomputeProjections.cpp]:
    a projection over a projection becomes one, with the expressions of the input substituted
    for its columns - unless one of them is non-deterministic and read more than once or
    inside an expression.  It implements the interface the limit pass relies on
    ([InlineLaws]). *)

From Stdlib Require Import ZArith Lia.
From S2P Require Import Prelude Joins Nodes Domains DomainSets Expressions ExprDomains SqlSemantics Builders ExprFactories ExprSimplifiers Substitutions LimitOrders LimitMeanings LimitFacts.

Local Open Scope nat_scope.
Set Warnings "-register-all".

Module PrecomputeProjections.
Section PrecomputeProjections.
Context {T V : Type} `{TypeOps T} `{VariantOps V} `{FunctionRegistry} `{!VariantEq V}.
Context (maxPlanObjects : nat) (reversed : string -> option string).
Abbreviation Expr := (Expr T V).
Abbreviation M := (StateM (Builder T V)).

(** The members of a [Project] node but its input. *)
Record Projection := mkProjection { exprs : list Expr; outputColumns : list (Column T) }.

(** [Project::isDeterministic] *)
Definition isDeterministic (project : Projection) : bool :=
  negb (existsb Expr.containsNonDeterministic (exprs project)).

(** Each expression is a column that none before it is; [read] holds the columns seen. *)
Fixpoint distinct_columns (read : gset nat) (exprs : list Expr) : bool :=
  match exprs with
  | [] => true
  | expr :: exprs =>
      match expr with
      | ColumnExpr column =>
          if bool_decide (column_id column ∈ read) then false
          else distinct_columns ({[column_id column]} ∪ read) exprs
      | _ => false
      end
  end.

(** The merged projection over the input of [child]; [None] when the input stays. *)
Definition inlineInputProject (project child : Projection) : M (option Projection) :=
  if isDeterministic child || distinct_columns ∅ (exprs project)
  then
    exprs' ← Substitution.substituteAll maxPlanObjects reversed (exprs project) (outputColumns child) (exprs child);
    mret (Some (mkProjection exprs' (outputColumns project)))
  else mret None.
End PrecomputeProjections.
Arguments Projection : clear implicits.
End PrecomputeProjections.
Import PrecomputeProjections.

(** No expression below binds a column. *)
Fixpoint lambda_free {T V} (e : Expr T V) : bool :=
  match e with
  | CallExpr _ args _ _ _ => forallb lambda_free args
  | FieldExpr base _ _ _ => lambda_free base
  | LambdaExpr _ _ _ _ => false
  | _ => true
  end.

Section Inlining.
Context {T V : Type} `{TypedValues T V} `{FunctionRegistry} `{!VariantEq V}.
Context (functionNames : FunctionNames) (types : gmap nat T)
  (eval : Expr T V -> SqlSemantics.Row V -> option V)
  (less : V -> V -> bool) (reversed : string -> option string)
  (constant : Expr T V -> option (V * T)) (maxPlanObjects : nat).
Context (Heval : EvalLaws functionNames types eval less reversed constant)
  (Hreversed : reversible_ok functionNames reversed).
Abbreviation Expr := (Expr T V).
Abbreviation Row := (SqlSemantics.Row V).
Abbreviation Projection := (Projection T V).
Abbreviation row_ok := (SqlSemantics.row_ok types).

(** The row a projection makes of a row. *)
Definition project_row (p : Projection) (r : Row) : Row :=
  set_values eval ∅ (zip (PrecomputeProjections.outputColumns p) (exprs p)) r.

Record projection_ok (b : Builder T V) (p : Projection) (columns : list nat) : Prop := {
  projection_length : length (PrecomputeProjections.outputColumns p) = length (exprs p);
  projection_pairs : Forall (pair_ok functionNames types b) (zip (PrecomputeProjections.outputColumns p) (exprs p));
  projection_reads e c : e ∈ exprs p -> c ∈ Expr.columns e -> column_id c ∈ columns;
}.

Lemma lambda_free_no_capture mapping (e : Expr) : lambda_free e = true -> no_capture mapping e = true.
Proof.
  intros He. induction e as [c|v t i|name args t fs i IH|base f t i IH|args body t i IH|cs fs t i] using Expr_nested_ind;
    cbn [no_capture lambda_free] in *; destruct (Substitution.find mapping _); try done; [| by apply IH].
  induction IH as [|arg args Ha _ IHargs]; [done |]. cbn in *. apply andb_true_iff in He as [He1 He2].
  by rewrite Ha, IHargs.
Qed.

Lemma projection_extends b b' p columns : extends b b' -> projection_ok b p columns -> projection_ok b' p columns.
Proof.
  intros Hext [Hlen Hpairs Hreads]. split; [done | | done]. eapply Forall_impl; [exact Hpairs |].
  intros q []. split; try done; by eapply valid_extends.
Qed.

Lemma empty_row_ok : row_ok ∅.
Proof. intros c t Hc. by rewrite lookup_empty. Qed.

Lemma project_row_is_ok b p columns r : projection_ok b p columns -> row_ok r -> row_ok (project_row p r).
Proof.
  intros [_ Hpairs _] Hr. by apply (set_values_ok functionNames types eval less reversed constant Heval b);
    [| apply empty_row_ok |].
Qed.

(** The expressions of a projection are valid and typed. *)
Lemma projection_exprs b p columns : projection_ok b p columns ->
  Forall (valid b) (exprs p) /\ Forall (fun e => typed functionNames types e = true) (exprs p).
Proof.
  intros [Hlen Hpairs _]. revert Hlen Hpairs. generalize (PrecomputeProjections.outputColumns p) (exprs p).
  intros outs es. revert es. induction outs as [|o outs IH]; intros [|e es] Hlen Hpairs; try discriminate Hlen; [done |].
  apply Forall_cons in Hpairs as [[_ _ Hv Ht _] Hpairs]. destruct (IH es) as [Hvs Hts]; [by injection Hlen | done |].
  cbn [fst snd] in *. split; by constructor.
Qed.

Abbreviation substituted := (substituted functionNames types eval).
Abbreviation inline := (inlineInputProject maxPlanObjects reversed).

(** Expressions with targets for the columns of [child] have, on its input, the values they
    had on its output. *)
Lemma substituted_project b mapping (child : Projection) columns outs es es' r :
  projection_ok b child columns ->
  Substitution.to_substitution [] (zip (PrecomputeProjections.outputColumns child) (exprs child)) = Ok mapping ->
  Forall (fun e => lambda_free e = true /\
    forall c, c ∈ Expr.columns e -> column_id c ∈ map column_id (PrecomputeProjections.outputColumns child)) es ->
  Forall2 (substituted mapping b) es es' -> row_ok r ->
  set_values eval ∅ (zip outs es') r = set_values eval ∅ (zip outs es) (project_row child r).
Proof.
  intros Hchild Hmapping Hes Hsub Hr. pose proof (projection_pairs _ _ _ Hchild) as Hpairs.
  pose proof (to_substitution_spec functionNames types b [] _ Hpairs) as Hspec. rewrite Hmapping in Hspec.
  destruct Hspec as (_ & _ & _ & Hfind); [by intros p ?%not_elem_of_nil |].
  revert outs Hes. induction Hsub as [|e e' es es' [_ He] _ IH]; intros outs Hes; [by destruct outs |].
  destruct outs as [|o outs]; [done |]. apply Forall_cons in Hes as [[Hfree Hreads] Hes]. 
  change (set_value (column_id o) (eval e' r) (set_values eval ∅ (zip outs es') r) =
    set_value (column_id o) (eval e (project_row child r)) (set_values eval ∅ (zip outs es) (project_row child r))).
  rewrite (IH outs Hes). f_equal.
  symmetry. apply (stands_eval _ _ _ _ _ _ He); [by apply lambda_free_no_capture | by eapply project_row_is_ok | done |].
  apply (set_values_agree functionNames types eval less reversed constant Heval b); [done | done |]. intros c Hc Hnone.
  exfalso. specialize (Hreads c Hc). apply list_elem_of_fmap in Hreads as (s & Hid & Hs).
  apply list_elem_of_lookup in Hs as (i & Hi). destruct (lookup_lt_is_Some_2 (exprs child) i) as [t Htarget].
  { rewrite <- (projection_length _ _ _ Hchild). by eapply lookup_lt_Some. }
  assert (Hin : (s, t) ∈ zip (PrecomputeProjections.outputColumns child) (exprs child)).
  { apply list_elem_of_lookup. exists i. by rewrite lookup_zip_with, Hi, Htarget. }
  pose proof (Hfind s t Hin) as Hsome. by rewrite (find_mapped _ _ (ColumnExpr c)), Hnone in Hsome.
Qed.

(** The merged projection is one over the input's columns, and makes the same rows. *)
Lemma inline_spec b p child columns :
  arena_ok b -> projection_ok b p (map column_id (PrecomputeProjections.outputColumns child)) ->
  forallb lambda_free (exprs p) = true -> projection_ok b child columns ->
  match inline p child b with
  | Ok (merged, b') => arena_ok b' /\ extends b b' /\
      forall q, merged = Some q -> projection_ok b' q columns /\
        PrecomputeProjections.outputColumns q = PrecomputeProjections.outputColumns p /\
        forall r, row_ok r -> project_row q r = project_row p (project_row child r)
  | Throw e => e <> OutOfFuel
  end.
Proof.
  intros Hb Hp Hfree Hchild. unfold inlineInputProject.
  destruct (isDeterministic child || distinct_columns ∅ (exprs p)); [| by split_conj].
  pose proof (projection_pairs _ _ _ Hchild) as Hpairs. pose proof (projection_length _ _ _ Hchild) as Hlen.
  unfold Substitution.substituteAll, Substitution.toSubstitution, mbind, StateM_bind, lift, velox_check.
  rewrite Hlen, Nat.eqb_refl. simpl. pose proof (to_substitution_spec functionNames types b [] _ Hpairs) as Hmap.
  destruct (Substitution.to_substitution [] _) as [mapping|e] eqn:Hto; [| by apply Hmap; intros q ?%not_elem_of_nil].
  destruct Hmap as (Hm & Hel & _ & Hfind); [by intros q ?%not_elem_of_nil |].
  destruct (projection_exprs b p _ Hp) as [Hvalid Htyped].
  assert (Hmemo : memo_ok functionNames types eval mapping b ∅) by by intros i e'.
  assert (Hrun : builds b (Substitution.thread (Substitution.replaceExpr maxPlanObjects reversed mapping) (exprs p) ∅)
    (fun b result => Forall2 (substituted mapping b) (exprs p) result.1 /\ memo_ok functionNames types eval mapping b result.2)).
  { apply (thread_spec functionNames types eval); [| done..]. apply Forall_forall. intros e _ b1 memo Hb1 Hm1 Hmemo1 Hv Ht.
    by apply (replaceExpr_spec functionNames types eval less reversed constant maxPlanObjects Heval Hreversed). }
  specialize (Hrun b Hb (PreOrder_Reflexive b)). unfold Substitution.replaceAll, fmap, StateM_fmap, mbind, StateM_bind.
  destruct (Substitution.thread _ _ _ _) as [[[exprs' memo] b']|e]; [| exact Hrun].
  destruct Hrun as (Hb' & Hext & Hsub & _). cbn in Hsub |- *. split_conj; [done | done |]. intros q [= <-].
  rewrite forallb_forall in Hfree. split_conj; [| done |].
  - pose proof Hp as [Hplen Hppairs Hpreads]. split; cbn; [by rewrite Hplen; apply Forall2_length in Hsub | |].
    + clear Hfree Hpreads Hvalid Htyped. revert Hplen Hppairs. generalize (PrecomputeProjections.outputColumns p).
      induction Hsub as [|e e' es es' [Hv He] _ IH]; intros outs Hl Hps; destruct outs as [|o outs]; try done.
      cbn in *. apply Forall_cons in Hps as [[Ho Hoc _ _ Hty] Hps]. constructor; [| apply IH; [by injection Hl | done]].
      cbn [fst snd] in *. split; cbn [fst snd]; [by eapply valid_extends | done | done | by apply He |].
      rewrite <- Hty. apply (stands_shape _ _ _ _ _ _ He).
    + intros e' c He' Hc. apply list_elem_of_lookup in He' as (i & Hi).
      destruct (Forall2_lookup_r _ _ _ _ _ Hsub Hi) as (e & He & _ & Hstands).
      destruct (stands_columns _ _ _ _ _ _ Hstands c Hc) as [[Hin Hnone]|([src t] & Hin & Hct)].
      * exfalso. specialize (Hpreads e c ltac:(by eapply list_elem_of_lookup_2) Hin).
        apply list_elem_of_fmap in Hpreads as (s & Hid & (j & Hj)%list_elem_of_lookup).
        destruct (lookup_lt_is_Some_2 (exprs child) j) as [t Ht]; [rewrite <- Hlen; by eapply lookup_lt_Some |].
        assert (Hst : (s, t) ∈ zip (PrecomputeProjections.outputColumns child) (exprs child))
          by (apply list_elem_of_lookup; exists j; by rewrite lookup_zip_with, Hj, Ht).
        pose proof (Hfind s t Hst) as Hsome. by rewrite (find_mapped _ _ (ColumnExpr c)), Hnone in Hsome.
      * apply Hel in Hin as [Hin%not_elem_of_nil|Hin]; [done |]. unfold column_mapping in Hin.
        apply list_elem_of_fmap in Hin as ([s t'] & [= -> ->] & Hin). cbn in Hct.
        apply (projection_reads _ _ _ Hchild t'); [by apply elem_of_zip_r in Hin | done].
  - intros r Hr. unfold project_row. cbn. apply (substituted_project b' mapping child columns); [by eapply projection_extends | done | | done | done].
    apply Forall_forall. intros e He. split; [by apply Hfree, list_elem_of_In |]. intros c. by apply (projection_reads _ _ _ Hp).
Qed.

(** ** The interface of the limit pass *)

#[export] Instance project_ops : ProjectOps (Builder T V) Projection := {
  LimitOrders.inlineInputProject := inline;
  projectColumns p := map column_id (PrecomputeProjections.outputColumns p)
}.

Lemma inline_laws {E D} `{Engine Projection E D Row} :
  (forall p r, project (P:=Projection) (E:=E) (D:=D) p r = project_row p r) ->
  (forall r, LimitMeanings.row_ok (P:=Projection) (E:=E) (D:=D) r <-> row_ok r) ->
  InlineLaws (Builder T V) Projection E D Row.
Proof.
  intros Hproject Hok. refine {| known := projection_ok; mergeable p := forallb lambda_free (exprs p) = true |}.
  - intros. by eapply projection_extends.
  - intros b p columns r Hp Hr%Hok. apply Hok. rewrite Hproject. by eapply project_row_is_ok.
  - intros b p child columns Hb Hp Hfree Hchild. pose proof (inline_spec b p child columns Hb Hp Hfree Hchild) as Hspec.
    cbn [LimitOrders.inlineInputProject project_ops]. destruct (inline p child b) as [[merged b']|e]; [| done].
    destruct Hspec as (Hb' & Hext & Hmerged). split_conj; [done | done |]. intros q Hq.
    destruct (Hmerged q Hq) as (Hq1 & Hq2 & Hq3). split_conj; [done | by cbn; rewrite Hq2 |].
    intros r Hr%Hok. rewrite !Hproject. by apply Hq3.
Defined.
End Inlining.
