(* ===== verification/LimitExamples.v ===== *)
(** * Limits and orders over rows of columns

    The theorem on the limit pass at a concrete plan: an engine over the rows and the
    evaluator of [SqlEngine], with the projections of [ProjectInlinings].  Two plans the
    theorem leaves out, and what the pass does to them, close the file. *)

From Stdlib Require Import ZArith Lia.
From S2P Require Import Prelude Joins Nodes Domains DomainSets Expressions ExprDomains SqlSemantics SqlEngine Builders ExprFactories ExprSimplifiers FilterSimplifiers SimplifierExamples ImpliedFilters Substitutions LimitOrders LimitMeanings LimitFacts ProjectInlinings.
Import LimitAndOrderPass PrecomputeProjections.

Local Open Scope Z_scope.
Set Warnings "-register-all".

(** ** Equality of plans *)

#[export] Instance Val_eq_dec : EqDecision Val.
Proof.
  refine (fix eq v w {struct v} : {v = w} + {v <> w} := _). decide equality;
    first [apply (List.list_eq_dec eq) | apply (List.list_eq_dec Ascii.ascii_dec) | apply (decide (_ = _)) | idtac].
Defined.

#[export] Instance Expr_eq_dec {T V} `{EqDecision T} `{EqDecision V} : EqDecision (Expr T V).
Proof.
  refine (fix eq v w {struct v} : {v = w} + {v <> w} := _). decide equality;
    first [apply (List.list_eq_dec eq) | apply (decide (_ = _)) | idtac].
Defined.

#[export] Instance Projection_eq_dec {T V} `{EqDecision T} `{EqDecision V} : EqDecision (Projection T V).
Proof. solve_decision. Defined.

#[export] Instance PlanNode_eq_dec {P E D} `{EqDecision P} `{EqDecision E} `{EqDecision D} : EqDecision (PlanNode P E D).
Proof.
  refine (fix eq v w {struct v} : {v = w} + {v <> w} := _). decide equality;
    first [apply (List.list_eq_dec eq) | apply (decide (_ = _)) | idtac].
Defined.

(** ** An engine *)

(** A table of numbers for [a] and [b], a predicate, the column of an order; the columns of
    any other node. *)
Inductive Members :=
  | Table (rows : list (Z * Z)) | Predicate (e : Filter) | OrderBy (column : nat) | Columns (columns : list nat).

#[export] Instance Members_eq_dec : EqDecision Members.
Proof. solve_decision. Defined.

Definition member_columns (d : Members) : list nat :=
  match d with Columns columns => columns | _ => [0; 1]%nat end.

Abbreviation Row := (SqlSemantics.Row Val).
Abbreviation Projected := (Projection Ty Val).
Abbreviation Plan := (PlanNode Projected Filter Members).

Definition table_row (row : Z * Z) : Row :=
  <[ 0%nat := VInt SMALLINT row.1 ]> {[ 1%nat := VInt SMALLINT row.2 ]}.
Definition table_rows (d : Members) : list Row :=
  match d with
  | Table rows => map table_row (List.filter (fun row => in_range SMALLINT row.1 && in_range SMALLINT row.2) rows)
  | _ => []
  end.

Definition sort_key (d : Members) (r : Row) : Z :=
  match d with OrderBy column => match r !! column with Some v => val_int v | None => 0 end | _ => 0 end.

(** Inner joins without keys, and unconditional left semi joins and anti joins. *)
Definition engine_join (type : JoinType) (filter : list Filter) (ls rs : list Row) : option (list Row) :=
  match type with
  | kInner => Some (flat_map (fun l => List.filter (fun row => forallb (ImpliedFilters.accepts eval row) filter) (map (fun r => l ∪ r) rs)) ls)
  | kLeftSemiFilter => Some (match rs with [] => [] | _ => ls end)
  | kAnti => Some (match rs with [] => ls | _ => [] end)
  | _ => None
  end.

#[export] Instance engine : Engine Projected Filter Members Row := {|
  row_ok := SqlSemantics.row_ok types;
  values := table_rows;
  scanned d l := l ≡ₚ table_rows d;
  keeps d r := match d with Predicate e => ImpliedFilters.accepts eval r e | _ => true end;
  project := project_row eval;
  rowLe d r s := sort_key d r <= sort_key d s;
  expand _ r := [r];
  extended _ _ l out := out = l;
  numbered _ l out := out ≡ₚ l;
  joined t keys filter _ _ ls rs out :=
    match engine_join t filter ls rs with Some rows => out ≡ₚ rows | None => False end;
  nullRow _ := ∅;
  computed type _ l out := out ≡ₚ (match type with kAggregate => remove_dups l | _ => l end)
|}.

Lemma grows_same : grows (fun l out : list Row => out = l).
Proof. split; [by intros l out -> |]. intros pre mid post out ->. by exists pre, post. Qed.

Lemma grows_perm : grows (fun l out : list Row => out ≡ₚ l).
Proof.
  split; [by intros l out ->%Permutation_length |]. intros pre mid post out Hp. exists pre, post. by rewrite Hp.
Qed.

Lemma remove_dups_perm (l l' : list Row) : l ≡ₚ l' -> remove_dups l ≡ₚ remove_dups l'.
Proof.
  intros Hl. apply NoDup_Permutation; [apply NoDup_remove_dups.. |]. intros r. rewrite !elem_of_remove_dups. by rewrite Hl.
Qed.

Lemma engine_join_perm t filter ls ls' rs rs' : ls ≡ₚ ls' -> rs ≡ₚ rs' ->
  match engine_join t filter ls rs, engine_join t filter ls' rs' with
  | Some l, Some l' => l ≡ₚ l'
  | None, None => True
  | _, _ => False
  end.
Proof.
  intros Hl Hr. destruct t; try done; cbn [engine_join].
  - rewrite Hl. clear Hl ls. induction ls' as [|l ls IH]; [done |]. cbn [flat_map]. rewrite IH. apply Permutation_app; [| done].
    by apply filter_perm, Permutation_map.
  - destruct rs as [|r rs]; [by apply Permutation_nil in Hr as -> |]. by destruct rs'; [apply Permutation_sym, Permutation_nil in Hr |].
  - destruct rs as [|r rs]; [by apply Permutation_nil in Hr as -> |]. by destruct rs'; [apply Permutation_sym, Permutation_nil in Hr |].
Qed.

Lemma table_row_ok rows : Forall (SqlSemantics.row_ok types) (table_rows rows).
Proof.
  destruct rows as [rows| | |]; try apply Forall_nil_2. cbn [table_rows]. apply Forall_forall. intros r Hr.
  apply list_elem_of_fmap in Hr as ([x y] & -> & Hin). rewrite list_elem_of_In, filter_In in Hin.
  destruct Hin as [_ [Hx Hy]%andb_true_iff]. cbn [fst snd] in *. intros c t Hc. unfold table_row. cbn [fst snd].
  destruct (decide (c = 0%nat)) as [->|Hc0]; [injection Hc as <-; rewrite lookup_insert_eq; split; [done |]; cbn -[in_range]; by rewrite Hx |].
  rewrite lookup_insert_ne by done. destruct (decide (c = 1%nat)) as [->|Hc1]; [injection Hc as <-; rewrite lookup_singleton_eq; split; [done |]; cbn -[in_range]; by rewrite Hy |].
  by rewrite lookup_singleton_ne.
Qed.

Lemma engine_join_row_ok t filter ls rs rows :
  Forall (SqlSemantics.row_ok types) ls -> Forall (SqlSemantics.row_ok types) rs ->
  engine_join t filter ls rs = Some rows -> Forall (SqlSemantics.row_ok types) rows.
Proof.
  rewrite !Forall_forall. intros Hls Hrs Hrows r Hr.
  destruct t; try discriminate Hrows; injection Hrows as <-; [| destruct rs; [by apply not_elem_of_nil in Hr | by apply Hls]..
    | destruct rs; [by apply Hls | by apply not_elem_of_nil in Hr]].
  rewrite list_elem_of_In, in_flat_map in Hr. destruct Hr as (l & Hl & Hr). apply filter_In in Hr as [Hr _].
  apply in_map_iff in Hr as (s & <- & Hs). apply list_elem_of_In in Hl, Hs. specialize (Hls l Hl). specialize (Hrs s Hs).
  intros c ty Hc. specialize (Hls c ty Hc). specialize (Hrs c ty Hc). rewrite lookup_union. by destruct (l !! c), (s !! c).
Qed.

#[export] Instance engine_laws : EngineLaws Projected Filter Members Row.
Proof.
  split; cbn.
  - intros d r s. apply _.
  - intros d r s. lia.
  - intros d r s u. lia.
  - intros d l l' Hl Hp. by rewrite <- Hp.
  - intros _ _ _. apply grows_same.
  - intros _ _ l l' out _ -> Hp. by exists l'.
  - intros _ _ l out out' _ -> Hp. by exists out'.
  - intros _. apply grows_perm.
  - intros _ l l' out out' Hout Hl Hout'. by rewrite <- Hl, <- Hout'.
  - intros t _ filter _ _ ls ls' rs rs' out out' Hout Hl Hr Hout'.
    pose proof (engine_join_perm t filter ls ls' rs rs' Hl Hr) as Hp.
    destruct (engine_join t filter ls rs), (engine_join t filter ls' rs'); try done. by rewrite <- Hout', Hout.
  - intros t keys filter na _ ls rs rs' out Hread. destruct t; try discriminate Hread; try done; cbn; intros Hout Hsame;
      destruct rs, rs'; try done; destruct Hsame as [H1 H2]; first [by specialize (H1 eq_refl) | by specialize (H2 eq_refl)].
  - intros type _ l l' out out' Hout Hl Hout'. rewrite <- Hout', Hout. destruct type; try done. by apply remove_dups_perm.
  - apply table_row_ok.
  - intros d l ->. apply table_row_ok.
  - intros _ r Hr. by apply Forall_singleton.
  - by intros _ _ l out ->.
  - by intros _ l out ->.
  - intros t _ filter _ _ ls rs out Hout Hls Hrs. destruct (engine_join t filter ls rs) as [rows|] eqn:Hjoin; [| done].
    rewrite Hout. by apply (engine_join_row_ok t filter ls rs).
  - intros _. apply empty_row_ok.
  - intros type _ l out -> Hl. destruct type; try done.
    rewrite Forall_forall in *. intros r Hr. by apply Hl, elem_of_remove_dups.
Qed.

(** ** A query *)

#[export] Instance projections : ProjectOps (Builder Ty Val) Projected := project_ops presto_reversed max_objects.

#[export] Instance inlining : InlineLaws (Builder Ty Val) Projected Filter Members Row.
Proof.
  apply (inline_laws presto types eval val_less presto_reversed presto_constant max_objects (presto_laws types) presto_reversible); done.
Defined.

Definition rewritten (plan : Plan) : StateM (Builder Ty Val) Plan := run member_columns (Some "row_number"%string) plan.
Abbreviation emits := (emits (P:=Projected) (E:=Filter) (D:=Members) (R:=Row) (Some "row_number"%string)).

(** [coalesce(b, 1)], and the builder it is in. *)
Definition value : Filter * Builder Ty Val := built (CallExpr kCoalesce [SimplifierExamples.b; lit 1] (Prim SMALLINT) 0 0).



Definition scan : Plan := LeafNode kScan (Table [(3, 7); (1, 8)]).
Definition small : Plan := LeafNode kValues (Table [(2, 9)]).
Definition large : Plan := LeafNode kValues (Table [(5, 5); (4, 4)]).






(** ** What the pass gets wrong *)

Definition outcome (plan : Plan) : Result Plan :=
  match rewritten plan value.2 with Ok (plan, _) => Ok plan | Throw e => Throw e end.

Definition sorted_values : Plan := SortNode (OrderBy 0) false (LeafNode kValues (Table [(3, 7); (1, 8)])).
Definition kept : Members := Predicate (bool_lit true).
Definition first_of (input : Plan) : Plan := LimitNode 0 1 false (FilterNode kept input).
Definition joined_first (input : Plan) : Plan := JoinNode kInner [] [] false (Columns [0; 1]%nat) (first_of input) large.

(** Below a join, the limit observes the order of the sort, but the filter between them keeps
    the order off that the join turned off: the sort is dropped ... *)
Lemma limit_loses_its_order :
  outcome (joined_first sorted_values) = Ok (joined_first (LeafNode kValues (Table [(3, 7); (1, 8)]))) /\
  orders_ok (Some "row_number"%string) false true false (joined_first sorted_values) = false.
Proof. split; vm_compute; reflexivity. Qed.

(** ... and the limit takes another row. *)
Lemma limit_takes_another_row :
  (forall l, emits (first_of sorted_values) l -> l = [table_row (1, 8)]) /\
  emits (first_of (LeafNode kValues (Table [(3, 7); (1, 8)]))) [table_row (3, 7)].
Proof.
  split.
  - intros l Hl. inversion Hl as [| | | | |o c i lf Hf| | | | | | | | | |]; subst.
    inversion Hf as [| | |d i ls Hs| | | | | | | | | | | |]; subst.
    inversion Hs as [| | | | | |d i lv s Hv Hp Hsorted| | | | | | | | |]; subst.
    inversion Hv as [|d| | | | | | | | | | | | | |]; subst. cbn in Hp. symmetry in Hp.
    apply Permutation_length_2_inv in Hp as [->| ->]; [| vm_compute; reflexivity].
    apply StronglySorted_inv in Hsorted as [_ Hall]. rewrite Forall_singleton in Hall. by vm_compute in Hall.
  - change [table_row (3, 7)] with (cut_bound (mkBound 0 1) (List.filter (keeps kept) (table_rows (Table [(3, 7); (1, 8)])))).
    apply emits_limit, emits_filter. exact (emits_values _ (Table [(3, 7); (1, 8)])).
Qed.

(** A limit that keeps nothing returns early with its bound pending: the next input of the
    node above is rewritten with it. *)
Lemma bound_leaks_to_next_input :
  outcome (OtherNode kFixedPoint (Columns [0; 1]%nat) [LimitNode 0 5 false (LimitNode 0 0 false small); scan]) =
    Ok (OtherNode kFixedPoint (Columns [0; 1]%nat) [EmptyValues [0; 1]%nat; LimitNode 0 5 false scan]).
Proof. vm_compute. reflexivity. Qed.

(** The bound of the legs of a union overflows [int64_t]. *)
Lemma large_bound_overflows :
  outcome (LimitNode 2 (2 ^ 63 - 2) false (UnionAllNode (Columns [0; 1]%nat) [scan])) = Throw (VeloxCheck "count_, 0").
Proof. vm_compute. reflexivity. Qed.
