(* ===== verification/NameMappings.v ===== *)
(** * Name resolution of the logical plan builder

    Models [axiom/logical_plan/NameMappings.h] and [NameMappings.cpp]: the names a
    query can use for the columns in scope, with and without a relation alias, the
    index from columns back to names, and the names that more than one column
    answers to.

    A hash map is a finite map and a [std::vector] a list.  The order in which a
    hash map is iterated is not specified: a function that iterates takes the
    entries in some order, and the theorems hold of every order.  The theorems:
    the index stays in sync with the names; a name marked ambiguous resolves to
    nothing whatever is done next; merging two scopes resolves each name as
    documented, in any iteration order - except one case of ambiguity it misses;
    [reverseLookup] and [enableUnqualifiedAccess] never throw. *)

From Stdlib Require Import Lia.
From S2P Require Import Prelude.

Open Scope nat_scope.

(** ** Names *)

(** [NameMappings::QualifiedName] *)
Record QualifiedName := mkName { alias : option string; name : string }.

#[export] Instance QualifiedName_eq_dec : EqDecision QualifiedName.
Proof. solve_decision. Defined.

#[export] Instance QualifiedName_countable : Countable QualifiedName.
Proof.
  refine (inj_countable' (fun n => (alias n, name n)) (fun p => mkName p.1 p.2) _).
  by intros [].
Defined.

(** [alias.has_value()] *)
Definition qualified (n : QualifiedName) : bool :=
  match alias n with Some _ => true | None => false end.

(** [QualifiedName::toString] *)
Definition name_toString (n : QualifiedName) : string :=
  match alias n with
  | Some alias => (alias ++ "." ++ name n)%string
  | None => name n
  end.

(** ** [class NameMappings] *)

Record NameMappings := mkMappings {
  mappings_ : gmap QualifiedName string;
  reverseIndex_ : gmap string (list QualifiedName);
  ambiguousNames_ : gset QualifiedName;
  hiddenIds_ : gset string;
  userNames_ : gmap string string
}.

Definition empty_mappings : NameMappings := mkMappings ∅ ∅ ∅ ∅ ∅.

(** An entry of a hash map that is iterated. *)
Abbreviation Entry := (QualifiedName * string)%type.

Definition set_mappings (m : gmap QualifiedName string) (s : NameMappings) : NameMappings :=
  mkMappings m (reverseIndex_ s) (ambiguousNames_ s) (hiddenIds_ s) (userNames_ s).
Definition set_reverseIndex (r : gmap string (list QualifiedName)) (s : NameMappings) :=
  mkMappings (mappings_ s) r (ambiguousNames_ s) (hiddenIds_ s) (userNames_ s).
Definition set_userNames (u : gmap string string) (s : NameMappings) : NameMappings :=
  mkMappings (mappings_ s) (reverseIndex_ s) (ambiguousNames_ s) (hiddenIds_ s) u.

Module NameMappings.

(** [reverseIndex_[id].push_back(name)] *)
Definition push_back (index : gmap string (list QualifiedName)) (n : QualifiedName)
    (id : string) : gmap string (list QualifiedName) :=
  <[id := default [] (index !! id) ++ [n]]> index.

(** Returns true if the mapping was added. *)
Definition insert (n : QualifiedName) (id : string) (s : NameMappings) : bool * NameMappings :=
  if bool_decide (n ∈ ambiguousNames_ s) then (false, s)
  else match mappings_ s !! n with
       | Some _ => (false, s)
       | None =>
           (true, mkMappings (<[n := id]> (mappings_ s)) (push_back (reverseIndex_ s) n id)
                    (ambiguousNames_ s) (hiddenIds_ s) (userNames_ s))
       end.

Definition add (n : QualifiedName) (id : string) (s : NameMappings) : Result NameMappings :=
  velox_check (bool_decide (mappings_ s !! n = None)) "Duplicate name" ≫= fun _ =>
  Ok (insert n id s).2.

(** [add(name, id)] without an alias. *)
Definition add_unqualified (n : string) (id : string) : NameMappings -> Result NameMappings :=
  add (mkName None n) id.

(** [std::erase(names, name)] in the entry of [id], which goes when it is empty. *)
Definition erase_name (index : gmap string (list QualifiedName)) (n : QualifiedName)
    (id : string) : gmap string (list QualifiedName) :=
  match index !! id with
  | None => index
  | Some names =>
      match filter (fun m => m <> n) names with
      | [] => delete id index
      | names => <[id := names]> index
      end
  end.

Definition markAmbiguous (n : QualifiedName) (s : NameMappings) : NameMappings :=
  let ambiguousNames := {[n]} ∪ ambiguousNames_ s in
  match mappings_ s !! n with
  | None => mkMappings (mappings_ s) (reverseIndex_ s) ambiguousNames (hiddenIds_ s) (userNames_ s)
  | Some id =>
      mkMappings (delete n (mappings_ s)) (erase_name (reverseIndex_ s) n id) ambiguousNames
        (hiddenIds_ s) (userNames_ s)
  end.

Definition markHidden (id : string) (s : NameMappings) : NameMappings :=
  mkMappings (mappings_ s) (reverseIndex_ s) (ambiguousNames_ s) ({[id]} ∪ hiddenIds_ s)
    (userNames_ s).

Definition isHidden (id : string) (s : NameMappings) : bool := bool_decide (id ∈ hiddenIds_ s).

(** [userNames_.try_emplace(id, name)], which keeps an entry already there. *)
Definition try_emplace (id n : string) (u : gmap string string) : gmap string string :=
  match u !! id with Some _ => u | None => <[id := n]> u end.

Definition addUserName (id n : string) (s : NameMappings) : Result NameMappings :=
  velox_check (bool_decide (userNames_ s !! id = None)) "Duplicate user name" ≫= fun _ =>
  Ok (set_userNames (try_emplace id n (userNames_ s)) s).

Definition userName (id : string) (s : NameMappings) : option string := userNames_ s !! id.

Definition copyUserName (id : string) (source s : NameMappings) : Result NameMappings :=
  match userName id source with
  | Some n => addUserName id n s
  | None => Ok s
  end.

Definition lookup (n : string) (s : NameMappings) : option string :=
  mappings_ s !! mkName None n.

Definition lookup_qualified (a n : string) (s : NameMappings) : option string :=
  mappings_ s !! mkName (Some a) n.

Definition reverseLookup (id : string) (s : NameMappings) : Result (list QualifiedName) :=
  match reverseIndex_ s !! id with
  | None => Ok []
  | Some names =>
      velox_check (length names <=? 2) "names.size() <= 2" ≫= fun _ =>
      match names with
      | [a; b] =>
          velox_check (bool_decide (name a = name b)) "names[0].name == names[1].name" ≫= fun _ =>
          velox_check (negb (Bool.eqb (qualified a) (qualified b))) "alias" ≫= fun _ =>
          Ok names
      | _ => Ok names
      end
  end.

(** The loop of [rebuildReverseIndex] over the entries of [mappings_]. *)
Definition index_of (entries : list Entry) : gmap string (list QualifiedName) :=
  foldl (fun index e => push_back index e.1 e.2) ∅ entries.

Definition rebuildReverseIndex_in (entries : list Entry) (s : NameMappings) : NameMappings :=
  set_reverseIndex (index_of entries) s.

Definition rebuildReverseIndex (s : NameMappings) : NameMappings :=
  rebuildReverseIndex_in (map_to_list (mappings_ s)) s.

Definition clearAliases (s : NameMappings) : NameMappings :=
  rebuildReverseIndex
    (set_mappings (filter (fun e => qualified e.1 = false) (mappings_ s)) s).

(** The second loop of [setAlias], over the surviving names. *)
Definition insert_aliased (a : string) (names : list (string * string)) (s : NameMappings) :=
  foldl (fun s e => (insert (mkName (Some a) e.1) e.2 s).2) s names.

(** [setAlias], the entries of [mappings_] in some order. *)
Definition setAlias_in (entries : list Entry) (a : string) (s : NameMappings) : NameMappings :=
  let names := omap (fun e => if qualified e.1 then None else Some (name e.1, e.2)) entries in
  let s := set_mappings (filter (fun e => qualified e.1 = false) (mappings_ s)) s in
  rebuildReverseIndex (insert_aliased a names s).

Definition setAlias (a : string) (s : NameMappings) : NameMappings :=
  setAlias_in (map_to_list (mappings_ s)) a s.

(** [leftQualifiedNames]: the base names [this] has under an alias. *)
Definition qualifiedNames (s : NameMappings) : gset string :=
  list_to_set (omap (fun e => if qualified e.1 then Some (name e.1) else None)
                 (map_to_list (mappings_ s))).

(** [preserveOtherUserName(id, fallback)] *)
Definition preserveOtherUserName (other : NameMappings) (id fallback : string)
    (s : NameMappings) : NameMappings :=
  set_userNames (try_emplace id (default fallback (userName id other)) (userNames_ s)) s.

(** The body of the loop of [merge]. *)
Definition merge_entry (leftQualifiedNames : gset string) (other : NameMappings)
    (s : NameMappings) (e : Entry) : NameMappings :=
  let '(n, id) := e in
  match mappings_ s !! n with
  | Some existing =>
      let s := set_userNames (try_emplace existing (name n) (userNames_ s)) s in
      markAmbiguous n (preserveOtherUserName other id (name n) s)
  | None =>
      if negb (qualified n) && bool_decide (name n ∈ leftQualifiedNames)
      then preserveOtherUserName other id (name n) s
      else (insert n id s).2
  end.

(** [merge], the entries of [other.mappings_] in some order. *)
Definition merge_in (entries : list Entry) (other s : NameMappings) : NameMappings :=
  let s := foldl (merge_entry (qualifiedNames s) other) s entries in
  mkMappings (mappings_ s) (reverseIndex_ s) (ambiguousNames_ s)
    (hiddenIds_ s ∪ hiddenIds_ other) (userNames_ s ∪ userNames_ other).

Definition merge (other s : NameMappings) : NameMappings :=
  merge_in (map_to_list (mappings_ other)) other s.

(** [counts]: how many names have a base. *)
Definition count_base (m : gmap QualifiedName string) (n : string) : nat :=
  length (filter (fun e : Entry => name e.1 = n) (map_to_list m)).

(** [enableUnqualifiedAccess], the entries of [mappings_] in some order. *)
Definition enableUnqualifiedAccess_in (entries : list Entry) (s : NameMappings) :
    Result NameMappings :=
  let toAdd := omap (fun e =>
      if (count_base (mappings_ s) (name e.1) =? 1) && qualified e.1
      then Some (name e.1, e.2) else None) entries in
  foldl (fun r e => r ≫= add_unqualified e.1 e.2) (Ok s) toAdd.

Definition enableUnqualifiedAccess (s : NameMappings) : Result NameMappings :=
  enableUnqualifiedAccess_in (map_to_list (mappings_ s)) s.

(** [names.emplace(id, name)] of the unqualified names; an id keeps the first. *)
Definition uniqueNames_in (entries : list Entry) : gmap string string :=
  foldl (fun names e => if qualified e.1 then names else try_emplace e.2 (name e.1) names)
    ∅ entries.

Definition uniqueNames (s : NameMappings) : gmap string string :=
  uniqueNames_in (map_to_list (mappings_ s)).

Definition idsWithAlias (a : string) (s : NameMappings) : gset string :=
  list_to_set (omap (fun e => if bool_decide (alias e.1 = Some a) then Some e.2 else None)
                 (map_to_list (mappings_ s))).

(** [reset] leaves [hiddenIds_]. *)
Definition reset (s : NameMappings) : NameMappings := mkMappings ∅ ∅ ∅ (hiddenIds_ s) ∅.

End NameMappings.

Import NameMappings.

(** ** The index stays in sync *)

(** [index] holds, for each id, the names [m] maps to it, each once; ids without
    names have no entry. *)
Definition indexes (index : gmap string (list QualifiedName)) (m : gmap QualifiedName string) :
    Prop :=
  forall id, index !! id <> Some [] /\ NoDup (default [] (index !! id)) /\
    forall n, n ∈ default [] (index !! id) <-> m !! n = Some id.

(** What every operation maintains: the index, and that marked names are gone. *)
Record in_sync (s : NameMappings) : Prop := {
  sync_index : indexes (reverseIndex_ s) (mappings_ s);
  sync_ambiguous n : n ∈ ambiguousNames_ s -> mappings_ s !! n = None
}.

Lemma indexes_empty : indexes ∅ ∅.
Proof.
  intros id. rewrite lookup_empty. repeat split; [done|constructor| |];
    rewrite ?lookup_empty; simpl; intros Hn; inversion Hn.
Qed.

Lemma indexes_push index m n id :
  indexes index m -> m !! n = None -> indexes (push_back index n id) (<[n := id]> m).
Proof.
  intros Hi Hn id'. destruct (Hi id') as (He & Hnd & Hin). unfold push_back.
  destruct (decide (id' = id)) as [->|Hne].
  - rewrite lookup_insert_eq. simpl. repeat split.
    + by destruct (default [] (index !! id)).
    + apply NoDup_app. split; [done|]. split; [|apply NoDup_singleton].
      intros x Hx%Hin ->%list_elem_of_singleton. congruence.
    + intros [Hx%Hin| ->%list_elem_of_singleton]%elem_of_app; [|apply lookup_insert_eq].
      rewrite lookup_insert_ne; [done|]. intros ->. congruence.
    + destruct (decide (n0 = n)) as [->|Hd]; rewrite elem_of_app.
      * intros _. right. by apply list_elem_of_singleton.
      * rewrite lookup_insert_ne by done. left. by apply Hin.
  - rewrite lookup_insert_ne by done. split; [done|]. split; [done|]. intros x. rewrite Hin.
    destruct (decide (x = n)) as [->|]; [|by rewrite lookup_insert_ne].
    rewrite lookup_insert_eq. split; [congruence|]. intros [= ->]. done.
Qed.

Lemma indexes_erase index m n id :
  indexes index m -> m !! n = Some id ->
  indexes (erase_name index n id) (delete n m).
Proof.
  intros Hi Hn id'. unfold erase_name.
  assert (Hother : id' <> id -> forall x, x ∈ default [] (index !! id') <->
    delete n m !! x = Some id').
  { intros Hne x. destruct (Hi id') as (_ & _ & Hin). rewrite Hin.
    destruct (decide (x = n)) as [->|]; [|by rewrite lookup_delete_ne].
    rewrite lookup_delete_eq. split; [congruence|done]. }
  destruct (Hi id) as (_ & Hnd & Hin). destruct (Hi id') as (He' & Hnd' & _).
  destruct (index !! id) as [names|] eqn:Eid; simpl in *.
  2: { exfalso. apply Hin in Hn. inversion Hn. }
  assert (Hsame : forall x, x ∈ filter (fun x => x <> n) names <-> delete n m !! x = Some id).
  { intros x. rewrite list_elem_of_filter, Hin. destruct (decide (x = n)) as [->|].
    - rewrite lookup_delete_eq. tauto || (split; [tauto|done]).
    - rewrite lookup_delete_ne by done. tauto. }
  pose proof (NoDup_filter (fun x => x <> n) names Hnd) as Hndf.
  destruct (filter (fun x => x <> n) names) as [|x rest];
    destruct (decide (id' = id)) as [->|Hne].
  - rewrite lookup_delete_eq. split; [done|]. by split; [constructor|].
  - rewrite lookup_delete_ne by done. auto.
  - rewrite lookup_insert_eq. by repeat split; try apply Hsame.
  - rewrite lookup_insert_ne by done. auto.
Qed.

Lemma empty_in_sync : in_sync empty_mappings.
Proof. split; [apply indexes_empty|set_solver]. Qed.

Lemma insert_in_sync n id s : in_sync s -> in_sync (insert n id s).2.
Proof.
  intros [Hi Ha]. unfold insert. case_bool_decide as Hn; [done|].
  destruct (mappings_ s !! n) eqn:E; [done|]. split; simpl.
  - by apply indexes_push.
  - intros n' Hn'. rewrite lookup_insert_ne; [auto|]. by intros ->.
Qed.

Lemma add_in_sync n id s s' : in_sync s -> add n id s = Ok s' -> in_sync s'.
Proof.
  unfold add, velox_check. case_bool_decide; simpl; [|done].
  intros Hs [= <-]. by apply insert_in_sync.
Qed.

Lemma markAmbiguous_in_sync n s : in_sync s -> in_sync (markAmbiguous n s).
Proof.
  intros [Hi Ha]. unfold markAmbiguous. destruct (mappings_ s !! n) as [id|] eqn:E; split; simpl.
  - by apply indexes_erase.
  - intros n' Hn'. destruct (decide (n' = n)) as [->|]; [apply lookup_delete_eq|].
    rewrite lookup_delete_ne by done. apply Ha. set_solver.
  - done.
  - intros n' Hn'. destruct (decide (n' = n)) as [->|]; [done|]. apply Ha. set_solver.
Qed.

(** Rebuilding the index, whatever the order of iteration. *)
Lemma index_of_indexes entries m :
  entries ≡ₚ map_to_list m -> indexes (index_of entries) m.
Proof.
  intros Hp. assert (Hnd : NoDup entries.*1) by (rewrite Hp; apply NoDup_fst_map_to_list).
  rewrite <- (list_to_map_to_list m), <- (list_to_map_proper entries _ Hnd Hp). clear Hp.
  induction entries as [|[n id] entries IH] using rev_ind; [apply indexes_empty|].
  unfold index_of. rewrite foldl_app. simpl. rewrite fmap_app in Hnd. simpl in Hnd.
  apply NoDup_app in Hnd as (Hnd & Hn & _).
  rewrite list_to_map_snoc.
  - apply indexes_push; [by apply IH|]. apply not_elem_of_list_to_map_1.
    intros Hin. apply (Hn n Hin). by apply list_elem_of_singleton.
  - intros Hin. apply (Hn n Hin). by apply list_elem_of_singleton.
Qed.

Lemma rebuild_in_sync s :
  (forall n, n ∈ ambiguousNames_ s -> mappings_ s !! n = None) -> in_sync (rebuildReverseIndex s).
Proof. split; [by apply index_of_indexes|done]. Qed.

Lemma clearAliases_in_sync s : in_sync s -> in_sync (clearAliases s).
Proof.
  intros [_ Ha]. apply rebuild_in_sync. simpl. intros n Hn. apply map_lookup_filter_None. auto.
Qed.

(** ** What each operation resolves *)

Lemma insert_lookup n id s n' :
  mappings_ (insert n id s).2 !! n' =
  if decide (n' = n) then
    match mappings_ s !! n with
    | Some id' => Some id'
    | None => if bool_decide (n ∈ ambiguousNames_ s) then None else Some id
    end
  else mappings_ s !! n'.
Proof.
  unfold insert. case_bool_decide as Ha; simpl.
  - case_decide as Hn; [subst|done]. by destruct (mappings_ s !! n).
  - destruct (mappings_ s !! n) as [id'|] eqn:E; simpl; case_decide as Hn; subst; try done.
    + by rewrite lookup_insert_eq.
    + by rewrite lookup_insert_ne.
Qed.

Lemma insert_ambiguous n id s : ambiguousNames_ (insert n id s).2 = ambiguousNames_ s.
Proof. unfold insert. case_bool_decide; [done|]. by destruct (mappings_ s !! n). Qed.

Lemma markAmbiguous_lookup n s n' :
  mappings_ (markAmbiguous n s) !! n' = if decide (n' = n) then None else mappings_ s !! n'.
Proof.
  unfold markAmbiguous. destruct (mappings_ s !! n) as [id|] eqn:E; simpl; case_decide as Hn; subst; try done.
  - apply lookup_delete_eq.
  - by rewrite lookup_delete_ne.
Qed.

Lemma markAmbiguous_ambiguous n s :
  ambiguousNames_ (markAmbiguous n s) = {[n]} ∪ ambiguousNames_ s.
Proof. unfold markAmbiguous. by destruct (mappings_ s !! n). Qed.

(** *** [merge] *)

(** What a name of the other side resolves to in the merged scope. *)
Definition entry_result (left : gset string) (s : NameMappings) (n : QualifiedName)
    (id : string) : option string :=
  match mappings_ s !! n with
  | Some _ => None
  | None =>
      if negb (qualified n) && bool_decide (name n ∈ left) then None
      else if bool_decide (n ∈ ambiguousNames_ s) then None else Some id
  end.

Lemma merge_entry_lookup left other s n id n' :
  mappings_ (merge_entry left other s (n, id)) !! n' =
  if decide (n' = n) then entry_result left s n id else mappings_ s !! n'.
Proof.
  unfold merge_entry, entry_result. destruct (mappings_ s !! n) as [id'|] eqn:E.
  - by rewrite markAmbiguous_lookup.
  - destruct (negb (qualified n) && _); simpl.
    + case_decide; [by subst|done].
    + rewrite insert_lookup, E. done.
Qed.

Lemma merge_entry_ambiguous left other s n id n' :
  n' ∈ ambiguousNames_ (merge_entry left other s (n, id)) <->
  n' ∈ ambiguousNames_ s \/ (n' = n /\ is_Some (mappings_ s !! n)).
Proof.
  unfold merge_entry. destruct (mappings_ s !! n) as [id'|] eqn:E.
  - rewrite markAmbiguous_ambiguous. simpl. set_solver.
  - destruct (negb (qualified n) && _); simpl; rewrite ?insert_ambiguous;
      split; [by left|intros [?|[_ [? ?]]]; done|by left|intros [?|[_ [? ?]]]; done].
Qed.

Lemma merge_loop_spec left other entries s :
  NoDup entries.*1 ->
  (forall n, mappings_ (foldl (merge_entry left other) s entries) !! n =
     match (list_to_map entries : gmap QualifiedName string) !! n with
     | Some id => entry_result left s n id
     | None => mappings_ s !! n
     end) /\
  (forall n, n ∈ ambiguousNames_ (foldl (merge_entry left other) s entries) <->
     n ∈ ambiguousNames_ s \/ (n ∈ entries.*1 /\ is_Some (mappings_ s !! n))).
Proof.
  revert s. induction entries as [|[k id] entries IH]; intros s Hnd.
  - simpl. split; intros n; [by rewrite lookup_empty|]. set_solver.
  - cbn [foldl fmap list_fmap fst] in *. apply NoDup_cons in Hnd as [Hk Hnd].
    destruct (IH (merge_entry left other s (k, id)) Hnd) as [IHm IHa]. clear IH.
    split; intros n.
    + rewrite IHm. cbn [list_to_map foldr fst snd]. unfold entry_result.
      rewrite merge_entry_lookup. destruct (decide (n = k)) as [->|Hne].
      * rewrite lookup_insert_eq. by rewrite (not_elem_of_list_to_map_1 entries k Hk).
      * rewrite lookup_insert_ne by done.
        destruct (list_to_map entries !! n); [|done]. destruct (mappings_ s !! n); [done|].
        assert (bool_decide (n ∈ ambiguousNames_ (merge_entry left other s (k, id))) =
                bool_decide (n ∈ ambiguousNames_ s)) as ->; [|done].
        apply bool_decide_ext. rewrite merge_entry_ambiguous. naive_solver.
    + rewrite IHa, merge_entry_ambiguous, merge_entry_lookup, elem_of_cons.
      destruct (decide (n = k)) as [->|Hne].
      * split; [|tauto]. intros [?|[? ?]]; tauto.
      * tauto.
Qed.

Lemma merge_entry_in_sync left other s e :
  in_sync s -> in_sync (merge_entry left other s e).
Proof.
  intros Hs. destruct e as [n id]. unfold merge_entry.
  destruct (mappings_ s !! n) as [id'|] eqn:E.
  - apply markAmbiguous_in_sync. destruct Hs. by split.
  - destruct (negb (qualified n) && _); [destruct Hs; by split|by apply insert_in_sync].
Qed.

Lemma merge_in_sync entries other s : in_sync s -> in_sync (merge_in entries other s).
Proof.
  intros Hs. unfold merge_in. set (left := qualifiedNames s). clearbody left.
  assert (Hl : in_sync (foldl (merge_entry left other) s entries)).
  { revert s Hs. induction entries as [|e entries IH]; intros s Hs; [done|].
    simpl. by apply IH, merge_entry_in_sync. }
  destruct Hl. by split.
Qed.

(** The base names that have an aliased name. *)
Lemma elem_of_qualifiedNames b s :
  b ∈ qualifiedNames s <-> exists a, is_Some (mappings_ s !! mkName (Some a) b).
Proof.
  unfold qualifiedNames. rewrite elem_of_list_to_set, list_elem_of_omap. split.
  - intros ([[[a|] b'] id] & Hin%elem_of_map_to_list & He); simpl in He; [|done].
    injection He as ->. exists a. by exists id.
  - intros (a & id & Hid). exists (mkName (Some a) b, id). split; [|done].
    by apply elem_of_map_to_list.
Qed.

Lemma merge_loop_hidden left other entries s :
  hiddenIds_ (foldl (merge_entry left other) s entries) = hiddenIds_ s.
Proof.
  revert s. induction entries as [|[n id] entries IH]; intros s; [done|]. simpl.
  rewrite IH. unfold markAmbiguous, insert.
  destruct (mappings_ s !! n) eqn:E; simpl; [by rewrite E|].
  destruct (negb (qualified n) && _); [done|]. by case_bool_decide.
Qed.

Lemma merge_resolves entries other s :
  in_sync s -> entries ≡ₚ map_to_list (mappings_ other) ->
  let s' := merge_in entries other s in
  in_sync s' /\
  (forall n, mappings_ s' !! n =
     match mappings_ s !! n, mappings_ other !! n with
     | Some id, None => Some id
     | Some _, Some _ => None
     | None, None => None
     | None, Some id =>
         if bool_decide (n ∈ ambiguousNames_ s) ||
            (negb (qualified n) && bool_decide (name n ∈ qualifiedNames s))
         then None else Some id
     end) /\
  (forall n, n ∈ ambiguousNames_ s' <->
     n ∈ ambiguousNames_ s \/ (is_Some (mappings_ s !! n) /\ is_Some (mappings_ other !! n))) /\
  hiddenIds_ s' = hiddenIds_ s ∪ hiddenIds_ other.
Proof.
  intros Hs Hp. cbv zeta.
  assert (Hnd : NoDup entries.*1) by (rewrite Hp; apply NoDup_fst_map_to_list).
  assert (Hmap : (list_to_map entries : gmap QualifiedName string) = mappings_ other).
  { by rewrite (list_to_map_proper entries _ Hnd Hp), list_to_map_to_list. }
  destruct (merge_loop_spec (qualifiedNames s) other entries s Hnd) as [Hm Ha].
  split; [by apply merge_in_sync|]. unfold merge_in. simpl. split; [|split].
  - intros n. rewrite Hm, Hmap. unfold entry_result.
    destruct (mappings_ s !! n), (mappings_ other !! n); try done.
    destruct (negb (qualified n) && _); [by rewrite orb_true_r|by rewrite orb_false_r].
  - intros n. rewrite Ha.
    assert (Hk : n ∈ entries.*1 <-> is_Some (mappings_ other !! n)); [|rewrite Hk; tauto].
    rewrite <- Hmap. split.
    + intros Hin. destruct (list_to_map entries !! n) eqn:E; [done|].
      by apply not_elem_of_list_to_map_2 in E.
    + intros [id Hid%elem_of_list_to_map_2]. apply list_elem_of_fmap. by exists (n, id).
  - by rewrite merge_loop_hidden.
Qed.

(** ** Columns have one base name *)

(** A column has at most two names: its base name with one alias, and without. *)
Definition paired (m : gmap QualifiedName string) : Prop :=
  forall n n' id, m !! n = Some id -> m !! n' = Some id ->
    name n = name n' /\ (qualified n = qualified n' -> n = n').

(** The columns of two scopes are distinct: the precondition of [merge]. *)
Definition disjoint_ids (m m' : gmap QualifiedName string) : Prop :=
  forall n n' id, m !! n = Some id -> m' !! n' <> Some id.

Lemma paired_sub m m' : (forall n id, m' !! n = Some id -> m !! n = Some id) -> paired m -> paired m'.
Proof. intros Hs Hp n n' id Hn Hn'. eapply Hp; eauto. Qed.

Lemma merge_paired entries other s :
  in_sync s -> paired (mappings_ s) -> paired (mappings_ other) ->
  disjoint_ids (mappings_ s) (mappings_ other) -> entries ≡ₚ map_to_list (mappings_ other) ->
  paired (mappings_ (merge_in entries other s)).
Proof.
  intros Hs Hps Hpo Hd Hp. destruct (merge_resolves entries other s Hs Hp) as (_ & Hm & _).
  assert (Hfrom : forall n id, mappings_ (merge_in entries other s) !! n = Some id ->
    mappings_ s !! n = Some id \/ mappings_ other !! n = Some id).
  { intros n id. rewrite Hm. destruct (mappings_ s !! n), (mappings_ other !! n); try done; auto.
    destruct (_ || _); [done|auto]. }
  intros n n' id [Hn|Hn]%Hfrom [Hn'|Hn']%Hfrom.
  - by eapply Hps.
  - by destruct (Hd n n' id).
  - by destruct (Hd n' n id).
  - by eapply Hpo.
Qed.

(** *** The user names a merge adds *)

Lemma try_emplace_union id n u : try_emplace id n u = u ∪ {[id := n]}.
Proof.
  unfold try_emplace. apply map_eq. intros k. rewrite lookup_union.
  destruct (u !! id) as [v|] eqn:E.
  - destruct (decide (k = id)) as [->|]; [by rewrite E, lookup_singleton_eq|].
    rewrite lookup_singleton_ne by done. by destruct (u !! k).
  - destruct (decide (k = id)) as [->|].
    + by rewrite lookup_insert_eq, E, lookup_singleton_eq.
    + rewrite lookup_insert_ne, lookup_singleton_ne by done. by destruct (u !! k).
Qed.

Lemma try_emplace_all u (cs : list (string * string)) :
  foldl (fun u c => try_emplace c.1 c.2 u) u cs = u ∪ list_to_map cs.
Proof.
  revert u. induction cs as [|[k v] cs IH]; intros u; cbn [foldl list_to_map foldr fst snd].
  - by rewrite (right_id_L ∅ (∪)).
  - rewrite IH, try_emplace_union, <- (assoc_L (∪)). f_equal.
    by rewrite insert_union_singleton_l.
Qed.

(** The user names one entry offers, given the scope before the merge. *)
Definition offered (left : gset string) (other s : NameMappings) (e : Entry) :
    list (string * string) :=
  let own := (e.2, default (name e.1) (userName e.2 other)) in
  match mappings_ s !! e.1 with
  | Some existing => [(existing, name e.1); own]
  | None => if negb (qualified e.1) && bool_decide (name e.1 ∈ left) then [own] else []
  end.

Lemma merge_entry_userNames left other s e :
  userNames_ (merge_entry left other s e) =
  foldl (fun u c => try_emplace c.1 c.2 u) (userNames_ s) (offered left other s e).
Proof.
  destruct e as [n id]. unfold merge_entry, offered. simpl.
  destruct (mappings_ s !! n) as [existing|] eqn:E.
  - unfold markAmbiguous. simpl. by rewrite E.
  - destruct (negb (qualified n) && _); [done|]. unfold insert.
    case_bool_decide; [done|]. by rewrite E.
Qed.

Lemma merge_loop_userNames left other entries s :
  NoDup entries.*1 ->
  userNames_ (foldl (merge_entry left other) s entries) =
  userNames_ s ∪ list_to_map (mjoin (map (offered left other s) entries)).
Proof.
  intros Hnd. rewrite <- try_emplace_all. revert s.
  induction entries as [|[k id] entries IH]; intros s; [done|].
  cbn [foldl fmap list_fmap fst] in *. apply NoDup_cons in Hnd as [Hk Hnd].
  rewrite IH by done. cbn [map mjoin list_join]. rewrite foldl_app, merge_entry_userNames.
  do 2 f_equal. apply map_ext_in. intros [k' id'] Hin. unfold offered. cbn [fst snd].
  rewrite merge_entry_lookup. case_decide as Heq; [|done]. subst. exfalso. apply Hk.
  apply list_elem_of_fmap. exists (k, id'). split; [done|]. by apply list_elem_of_In.
Qed.

(** Entries that give one value to each key make one map in any order. *)
Lemma list_to_map_functional (cs cs' : list (string * string)) :
  cs ≡ₚ cs' -> (forall k v v', (k, v) ∈ cs -> (k, v') ∈ cs -> v = v') ->
  (list_to_map cs : gmap string string) = list_to_map cs'.
Proof.
  intros Hp Hf. assert (Hl : forall l, l ≡ₚ cs -> forall k v,
    (list_to_map l : gmap string string) !! k = Some v <-> (k, v) ∈ cs).
  { intros l Hpl k v. split; [by intros ?%elem_of_list_to_map_2; rewrite <- Hpl|].
    intros Hin. destruct (list_to_map l !! k) as [v'|] eqn:E.
    - apply elem_of_list_to_map_2 in E. rewrite Hpl in E. by rewrite (Hf k v v' Hin E).
    - apply not_elem_of_list_to_map_2 in E. exfalso. apply E, list_elem_of_fmap.
      exists (k, v). split; [done|]. by rewrite Hpl. }
  apply map_eq. intros k. apply option_eq. intros v. by rewrite !Hl.
Qed.

Lemma offered_functional left other s entries k v v' :
  paired (mappings_ s) -> paired (mappings_ other) ->
  disjoint_ids (mappings_ s) (mappings_ other) -> entries ≡ₚ map_to_list (mappings_ other) ->
  (k, v) ∈ mjoin (map (offered left other s) entries) ->
  (k, v') ∈ mjoin (map (offered left other s) entries) -> v = v'.
Proof.
  intros Hps Hpo Hd Hp.
  assert (Hfrom : forall v, (k, v) ∈ mjoin (map (offered left other s) entries) ->
    exists n id, mappings_ other !! n = Some id /\
      ((mappings_ s !! n = Some k /\ v = name n) \/
       (id = k /\ v = default (name n) (userName k other)))).
  { intros w (l & Hkl & (e & -> & He)%list_elem_of_fmap)%list_elem_of_join.
    destruct e as [n id]. rewrite Hp in He. apply elem_of_map_to_list in He.
    exists n, id. split; [done|]. unfold offered in Hkl. simpl in Hkl.
    destruct (mappings_ s !! n) as [existing|].
    - apply elem_of_cons in Hkl as [[= -> ->]|[= -> ->]%list_elem_of_singleton]; auto.
    - destruct (negb _ && _); [|by inversion Hkl].
      apply list_elem_of_singleton in Hkl as [= -> ->]. auto. }
  intros (n & id & Hn & Hv)%Hfrom (n' & id' & Hn' & Hv')%Hfrom.
  destruct Hv as [[Hk ->]|[-> ->]], Hv' as [[Hk' ->]|[-> ->]].
  - by eapply Hps.
  - by destruct (Hd n n' k).
  - by destruct (Hd n' n k).
  - f_equal. by eapply Hpo.
Qed.

(** Merging gives the same scope in whatever order the hash map is iterated: the
    same names, marks, hidden columns and user names, and the same names for each
    column, possibly listed in another order.  It needs what [merge] documents,
    distinct columns, and that a column's names share their base. *)
Theorem merge_order_irrelevant entries entries' other s :
  in_sync s -> paired (mappings_ s) -> paired (mappings_ other) ->
  disjoint_ids (mappings_ s) (mappings_ other) ->
  entries ≡ₚ map_to_list (mappings_ other) -> entries' ≡ₚ map_to_list (mappings_ other) ->
  let a := merge_in entries other s in
  let b := merge_in entries' other s in
  mappings_ a = mappings_ b /\ ambiguousNames_ a = ambiguousNames_ b /\
  hiddenIds_ a = hiddenIds_ b /\ userNames_ a = userNames_ b /\
  forall id, default [] (reverseIndex_ a !! id) ≡ₚ default [] (reverseIndex_ b !! id).
Proof.
  intros Hs Hps Hpo Hd Hp Hp'. cbv zeta.
  destruct (merge_resolves entries other s Hs Hp) as (Hsa & Hma & Haa & Hha).
  destruct (merge_resolves entries' other s Hs Hp') as (Hsb & Hmb & Hab & Hhb).
  assert (Hm : mappings_ (merge_in entries other s) = mappings_ (merge_in entries' other s)).
  { apply map_eq. intros n. by rewrite Hma, Hmb. }
  repeat split; [done| | | |].
  - apply set_eq. intros n. by rewrite Haa, Hab.
  - by rewrite Hha, Hhb.
  - unfold merge_in. simpl.
    assert (Hk : NoDup entries.*1) by (rewrite Hp; apply NoDup_fst_map_to_list).
    assert (Hk' : NoDup entries'.*1) by (rewrite Hp'; apply NoDup_fst_map_to_list).
    rewrite !merge_loop_userNames by done. do 2 f_equal.
    apply list_to_map_functional.
    + rewrite Hp, Hp'. done.
    + intros k v v'. by apply offered_functional.
  - intros id. destruct (sync_index _ Hsa id) as (_ & Hna & Hia), (sync_index _ Hsb id) as (_ & Hnb & Hib).
    apply NoDup_Permutation; [done..|]. intros n. by rewrite Hia, Hib, Hm.
Qed.

(** The keys an [omap] yields are distinct when entries of one key are one entry. *)
Lemma omap_keys_NoDup {A K B} (f : A -> option (K * B)) (l : list A) :
  NoDup l ->
  (forall e e' k v v', e ∈ l -> e' ∈ l -> f e = Some (k, v) -> f e' = Some (k, v') -> e = e') ->
  NoDup (omap f l).*1.
Proof.
  induction 1 as [|e l He _ IH]; intros Hkey; [constructor|].
  cbn [omap list_omap].
  assert (Hsub : NoDup (omap f l).*1).
  { apply IH. intros x y k v v' Hx Hy. apply Hkey; by right. }
  destruct (f e) as [[k v]|] eqn:Ee; [|done].
  cbn [fmap list_fmap fst]. apply NoDup_cons. split; [|done].
  intros ([k' v'] & Hk & Hin)%list_elem_of_fmap. simpl in Hk. subst k'.
  apply list_elem_of_omap in Hin as (e' & Hin' & He').
  assert (e = e') as -> by (eapply Hkey; [by left|by right|done|done]). done.
Qed.

(** ** [setAlias] *)

Lemma insert_aliased_spec a names s :
  NoDup names.*1 -> (forall b, b ∈ names.*1 -> mappings_ s !! mkName (Some a) b = None) ->
  (forall n, mappings_ (insert_aliased a names s) !! n =
     match (list_to_map names : gmap string string) !! name n with
     | Some id => if decide (alias n = Some a)
                  then if bool_decide (n ∈ ambiguousNames_ s) then None else Some id
                  else mappings_ s !! n
     | None => mappings_ s !! n
     end) /\
  ambiguousNames_ (insert_aliased a names s) = ambiguousNames_ s.
Proof.
  revert s. induction names as [|[b id] names IH]; intros s Hnd Hfree; [done|].
  cbn [insert_aliased foldl fmap list_fmap fst snd] in *. apply NoDup_cons in Hnd as [Hb Hnd].
  change (foldl _ ?s' names) with (insert_aliased a names s').
  destruct (IH (insert (mkName (Some a) b) id s).2 Hnd) as [IHm IHa].
  { intros b' Hb'. rewrite insert_lookup. case_decide as Heq; [|apply Hfree; by right].
    injection Heq as ->. done. }
  rewrite IHa, insert_ambiguous. split; [|done].
  intros n. rewrite IHm, insert_ambiguous. cbn [list_to_map foldr fst snd].
  destruct (decide (name n = b)) as [Hn|Hn].
  - rewrite Hn, lookup_insert_eq, (not_elem_of_list_to_map_1 names b Hb), insert_lookup.
    destruct n as [al b']; simpl in *; subst b'.
    destruct (decide (al = Some a)) as [->|Hal]; case_decide as Heq; try congruence.
    by rewrite Hfree by (left).
  - rewrite lookup_insert_ne by done. destruct (list_to_map names !! name n) eqn:El.
    + case_decide; [done|]. rewrite insert_lookup. case_decide as Heq; [|done]. by subst n.
    + rewrite insert_lookup. case_decide as Heq; [|done]. by subst n.
Qed.

(** The survivors of [setAlias]. *)
Definition unqualified_names (entries : list Entry) : list (string * string) :=
  omap (fun e => if qualified e.1 then None else Some (name e.1, e.2)) entries.

Lemma elem_of_unqualified_names entries b id :
  (b, id) ∈ unqualified_names entries <-> (mkName None b, id) ∈ entries.
Proof.
  unfold unqualified_names. rewrite list_elem_of_omap. split.
  - intros ([[[al|] b'] id'] & Hin & He); simpl in He; [done|]. by injection He as -> ->.
  - intros Hin. by exists (mkName None b, id).
Qed.

Lemma unqualified_names_NoDup entries : NoDup entries.*1 -> NoDup (unqualified_names entries).*1.
Proof.
  intros Hnd. apply omap_keys_NoDup; [by eapply NoDup_fmap_1|].
  intros [[[a|] b] id] [[[a'|] b'] id'] k v v' Hin Hin'; simpl; try done.
  intros [= -> ->] [= -> ->]. f_equal.
  apply (elem_of_list_to_map (M:=gmap QualifiedName)) in Hin, Hin'; [congruence|done..].
Qed.

(** A relation alias replaces the others, in whatever order the names are
    iterated: each unqualified name stays, and resolves under the new alias as
    well unless that name was marked ambiguous; no other qualified name is left. *)
Theorem setAlias_spec entries a s :
  in_sync s -> entries ≡ₚ map_to_list (mappings_ s) ->
  let s' := setAlias_in entries a s in
  in_sync s' /\ ambiguousNames_ s' = ambiguousNames_ s /\
  (forall b, lookup b s' = lookup b s) /\
  (forall a' b, lookup_qualified a' b s' =
     if bool_decide (a' = a /\ mkName (Some a) b ∉ ambiguousNames_ s)
     then lookup b s else None).
Proof.
  intros [Hi Ha] Hp. cbv zeta.
  assert (Hnd : NoDup entries.*1) by (rewrite Hp; apply NoDup_fst_map_to_list).
  unfold setAlias_in. fold (unqualified_names entries).
  set (s1 := set_mappings _ s).
  assert (Hs1 : forall n, mappings_ s1 !! n = if qualified n then None else mappings_ s !! n).
  { intros n. unfold s1. simpl. destruct (qualified n) eqn:Eq.
    - apply map_lookup_filter_None. right. intros x _. simpl. by rewrite Eq.
    - destruct (mappings_ s !! n) eqn:E.
      + by apply map_lookup_filter_Some.
      + apply map_lookup_filter_None. by left. }
  destruct (insert_aliased_spec a (unqualified_names entries) s1) as [Hm Hamb].
  { by apply unqualified_names_NoDup. }
  { intros b _. by rewrite Hs1. }
  assert (Hl : forall b, (list_to_map (unqualified_names entries) : gmap string string) !! b
    = mappings_ s !! mkName None b).
  { intros b. apply option_eq. intros id.
    rewrite <- elem_of_list_to_map by (by apply unqualified_names_NoDup).
    rewrite elem_of_unqualified_names, Hp. apply elem_of_map_to_list. }
  split; [|split; [done|split]].
  - apply rebuild_in_sync. intros n. rewrite Hamb. intros Hn. rewrite Hm, Hl, Hs1.
    assert (Hnn : mappings_ s !! n = None) by (by apply Ha).
    destruct (mappings_ s !! mkName None (name n)) eqn:E.
    + case_decide; [by rewrite bool_decide_eq_true_2|]. by destruct (qualified n).
    + by destruct (qualified n).
  - intros b. unfold lookup. simpl. rewrite Hm, Hs1. simpl. by destruct (_ !! _).
  - intros a' b. unfold lookup_qualified, lookup. simpl.
    rewrite Hm, Hl, Hs1. cbn [name alias qualified].
    destruct (mappings_ s !! mkName None b) eqn:E; [|by case_bool_decide].
    change (ambiguousNames_ s1) with (ambiguousNames_ s).
    destruct (decide (a' = a)) as [->|Hne].
    + rewrite decide_True by done. repeat case_bool_decide; tauto.
    + rewrite decide_False by congruence. by rewrite bool_decide_eq_false_2 by tauto.
Qed.

(** ** [enableUnqualifiedAccess] *)

Lemma add_all_spec l s :
  in_sync s -> NoDup l.*1 -> (forall b, b ∈ l.*1 -> mappings_ s !! mkName None b = None) ->
  exists s', foldl (fun r e => r ≫= add_unqualified e.1 e.2) (Ok s) l = Ok s' /\
    in_sync s' /\ ambiguousNames_ s' = ambiguousNames_ s /\
    forall n, mappings_ s' !! n =
      if qualified n then mappings_ s !! n
      else match (list_to_map l : gmap string string) !! name n with
           | Some id => if bool_decide (n ∈ ambiguousNames_ s) then None else Some id
           | None => mappings_ s !! n
           end.
Proof.
  revert s. induction l as [|[b id] l IH]; intros s Hs Hnd Hfree.
  - exists s. repeat split; try apply Hs. intros n. by destruct (qualified n).
  - cbn [foldl fmap list_fmap fst snd] in *. apply NoDup_cons in Hnd as [Hb Hnd].
    assert (Hadd : Ok s ≫= add_unqualified b id = Ok (insert (mkName None b) id s).2).
    { simpl. unfold add_unqualified, add, velox_check. rewrite bool_decide_eq_true_2; [done|].
      apply Hfree. by left. }
    rewrite Hadd.
    destruct (IH (insert (mkName None b) id s).2) as (s' & Hf & Hs' & Ha & Hm).
    + by apply insert_in_sync.
    + done.
    + intros b' Hb'. rewrite insert_lookup. case_decide as Heq; [|apply Hfree; by right].
      injection Heq as ->. done.
    + exists s'. split; [done|]. split; [done|]. rewrite Ha, insert_ambiguous. split; [done|].
      intros n. rewrite Hm, insert_ambiguous, insert_lookup. cbn [list_to_map foldr fst snd].
      destruct n as [[al|] b']; cbn [qualified alias name].
      * by rewrite decide_False.
      * destruct (decide (b' = b)) as [->|Hne].
        -- rewrite lookup_insert_eq, (not_elem_of_list_to_map_1 l b Hb).
           rewrite decide_True, Hfree by (done || by left). done.
        -- rewrite lookup_insert_ne by done.
           destruct (list_to_map l !! b'); [done|]. rewrite decide_False; [done|congruence].
Qed.

(** A base with one name. *)
Lemma count_base_one m b :
  count_base m b = 1 <->
  exists n, name n = b /\ is_Some (m !! n) /\ forall n', name n' = b -> is_Some (m !! n') -> n' = n.
Proof.
  unfold count_base.
  assert (Hin : forall n id, (n, id) ∈ filter (fun e : Entry => name e.1 = b) (map_to_list m) <->
    name n = b /\ m !! n = Some id).
  { intros n id. by rewrite list_elem_of_filter, elem_of_map_to_list. }
  assert (Hnd : NoDup (filter (fun e : Entry => name e.1 = b) (map_to_list m))).
  { apply NoDup_filter, NoDup_map_to_list. }
  destruct (filter _ (map_to_list m)) as [|[n id] [|[n2 id2] rest]]; simpl; split; try lia.
  - intros (n & Hn & [id Hid] & _). pose proof (proj2 (Hin n id) (conj Hn Hid)) as HF.
    inversion HF.
  - intros _. destruct (proj1 (Hin n id)) as [Hn Hid]; [by left|].
    exists n. split; [done|]. split; [by exists id|]. intros n' Hn' [id' Hid'].
    pose proof (proj2 (Hin n' id') (conj Hn' Hid')) as [= -> ->]%list_elem_of_singleton. done.
  - intros (x & _ & _ & Hu). exfalso.
    destruct (proj1 (Hin n id)) as [Hn Hid]; [by left|].
    destruct (proj1 (Hin n2 id2)) as [Hn2 Hid2]; [by right; left|].
    assert (n = x) as -> by (apply Hu; [done|by exists id]).
    assert (n2 = x) as -> by (apply Hu; [done|by exists id2]).
    assert (id = id2) as -> by congruence.
    apply NoDup_cons in Hnd as [Hnd _]. apply Hnd. by left.
Qed.

(** The unqualified names to add. *)
Definition unique_names (s : NameMappings) (entries : list Entry) : list (string * string) :=
  omap (fun e =>
      if (count_base (mappings_ s) (name e.1) =? 1) && qualified e.1
      then Some (name e.1, e.2) else None) entries.

(** [id] is the column of the only name with base [b], an aliased one. *)
Definition sole_owner (s : NameMappings) (b id : string) : Prop :=
  exists a, lookup_qualified a b s = Some id /\
    forall n, name n = b -> is_Some (mappings_ s !! n) -> n = mkName (Some a) b.

Lemma elem_of_unique_names s entries b id :
  entries ≡ₚ map_to_list (mappings_ s) ->
  (b, id) ∈ unique_names s entries <-> sole_owner s b id.
Proof.
  intros Hp. unfold unique_names. rewrite list_elem_of_omap. split.
  - intros ([n id'] & Hin & He). rewrite Hp in Hin. apply elem_of_map_to_list in Hin.
    simpl in He. destruct (_ =? 1) eqn:Ec; [|done].
    destruct n as [[a|] b']; simpl in He; [|done]. injection He as -> ->.
    apply Nat.eqb_eq, count_base_one in Ec as (m & Hmb & _ & Hu). exists a. split; [done|].
    intros n Hn Hsn. rewrite (Hu n Hn Hsn). symmetry. apply Hu; [done|by exists id].
  - intros (a & Hid & Hu). exists (mkName (Some a) b, id). split.
    + rewrite Hp. by apply elem_of_map_to_list.
    + simpl. assert (Hc : count_base (mappings_ s) b = 1); [|by rewrite Hc].
      apply count_base_one. exists (mkName (Some a) b). split; [done|]. split; [by exists id|done].
Qed.

Lemma unique_names_NoDup s entries :
  entries ≡ₚ map_to_list (mappings_ s) -> NoDup (unique_names s entries).*1.
Proof.
  intros Hp. apply omap_keys_NoDup; [rewrite Hp; apply NoDup_map_to_list|].
  intros [n i] [n' i'] b id id' Hin Hin'. rewrite Hp in Hin, Hin'.
  apply elem_of_map_to_list in Hin, Hin'. simpl.
  destruct (count_base (mappings_ s) (name n) =? 1) eqn:Ec; [|done].
  destruct (qualified n); simpl; [|done]. intros [= <- <-].
  destruct (_ && qualified n'); [|done]. intros [= Hb <-].
  apply Nat.eqb_eq, count_base_one in Ec as (m & _ & _ & Hu).
  assert (n = m) as -> by (apply Hu; [done|by exists i]).
  assert (n' = m) as -> by (apply Hu; [done|by exists i']). congruence.
Qed.

Lemma enableUnqualifiedAccess_resolves entries s :
  in_sync s -> entries ≡ₚ map_to_list (mappings_ s) ->
  exists s', enableUnqualifiedAccess_in entries s = Ok s' /\ in_sync s' /\
    ambiguousNames_ s' = ambiguousNames_ s /\
    (forall a b, lookup_qualified a b s' = lookup_qualified a b s) /\
    (forall b id, lookup b s' = Some id <->
       lookup b s = Some id \/
       ((mkName None b ∉ ambiguousNames_ s) /\ sole_owner s b id)).
Proof.
  intros Hs Hp. unfold enableUnqualifiedAccess_in. fold (unique_names s entries).
  pose proof (fun b id => elem_of_unique_names s entries b id Hp) as Hl.
  pose proof (unique_names_NoDup s entries Hp) as Hnd.
  set (l := unique_names s entries) in *.
  assert (Hfree : forall b id, (b, id) ∈ l -> mappings_ s !! mkName None b = None).
  { intros b id (a & _ & Hu)%Hl. destruct (mappings_ s !! mkName None b) eqn:E; [|done].
    by assert (mkName None b = mkName (Some a) b) by (apply Hu; [done|by eexists]). }
  destruct (add_all_spec l s Hs Hnd) as (s' & -> & Hs' & Ha & Hm).
  { intros b ([b' id] & -> & Hin)%list_elem_of_fmap. by eapply Hfree. }
  exists s'. split; [done|]. split; [done|]. split; [done|]. split.
  - intros a b. unfold lookup_qualified. by rewrite Hm.
  - intros b id. unfold lookup. rewrite Hm, <- Hl. cbn [qualified alias name].
    rewrite (elem_of_list_to_map l b id) by done.
    destruct (list_to_map l !! b) as [id'|] eqn:E.
    + apply elem_of_list_to_map_2, Hfree in E. rewrite E.
      case_bool_decide; naive_solver.
    + naive_solver.
Qed.

(** ** Every scope *)

(** A step of a scope other than [merge] and [reset]: an operation, with what its
    documentation requires of its arguments. *)
Inductive Step : NameMappings -> NameMappings -> Prop :=
  | step_add n id s s' :
      (forall n', mappings_ s !! n' = Some id ->
         name n' = name n /\ qualified n' <> qualified n) ->
      add n id s = Ok s' -> Step s s'
  | step_markAmbiguous n s : Step s (markAmbiguous n s)
  | step_markHidden id s : Step s (markHidden id s)
  | step_addUserName id n s s' : addUserName id n s = Ok s' -> Step s s'
  | step_copyUserName id source s s' : copyUserName id source s = Ok s' -> Step s s'
  | step_setAlias entries a s :
      entries ≡ₚ map_to_list (mappings_ s) -> Step s (setAlias_in entries a s)
  | step_clearAliases s : Step s (clearAliases s)
  | step_enableUnqualifiedAccess entries s s' :
      entries ≡ₚ map_to_list (mappings_ s) ->
      enableUnqualifiedAccess_in entries s = Ok s' -> Step s s'.

(** The scopes queries build. *)
Inductive Scope : NameMappings -> Prop :=
  | scope_empty : Scope empty_mappings
  | scope_reset s : Scope s -> Scope (reset s)
  | scope_step s s' : Scope s -> Step s s' -> Scope s'
  | scope_merge entries other s :
      Scope s -> Scope other -> disjoint_ids (mappings_ s) (mappings_ other) ->
      entries ≡ₚ map_to_list (mappings_ other) -> Scope (merge_in entries other s).

Definition consistent (s : NameMappings) : Prop := in_sync s /\ paired (mappings_ s).

Lemma addUserName_mappings id n s s' :
  addUserName id n s = Ok s' ->
  mappings_ s' = mappings_ s /\ reverseIndex_ s' = reverseIndex_ s /\
  ambiguousNames_ s' = ambiguousNames_ s.
Proof. unfold addUserName, velox_check. case_bool_decide; simpl; [|done]. by intros [= <-]. Qed.

Lemma copyUserName_mappings id source s s' :
  copyUserName id source s = Ok s' ->
  mappings_ s' = mappings_ s /\ reverseIndex_ s' = reverseIndex_ s /\
  ambiguousNames_ s' = ambiguousNames_ s.
Proof.
  unfold copyUserName. destruct (userName id source); [apply addUserName_mappings|].
  by intros [= <-].
Qed.

Lemma consistent_same s s' :
  mappings_ s' = mappings_ s /\ reverseIndex_ s' = reverseIndex_ s /\
  ambiguousNames_ s' = ambiguousNames_ s -> consistent s -> consistent s'.
Proof.
  intros (Hm & Hr & Ha) [[Hi Hn] Hp].
  split; [split|]; rewrite ?Hm, ?Hr, ?Ha; done.
Qed.

(** How an operation that keeps its own columns keeps them paired: each name it
    adds is the base of a name of the column, with or without an alias. *)
Lemma setAlias_paired entries a s :
  in_sync s -> paired (mappings_ s) -> entries ≡ₚ map_to_list (mappings_ s) ->
  paired (mappings_ (setAlias_in entries a s)).
Proof.
  intros Hs Hp Hperm. destruct (setAlias_spec entries a s Hs Hperm) as (_ & _ & Hu & Hq).
  assert (Hfrom : forall n id, mappings_ (setAlias_in entries a s) !! n = Some id ->
    mappings_ s !! mkName None (name n) = Some id /\ (alias n = None \/ alias n = Some a)).
  { intros [[a'|] b] id Hn; simpl.
    - pose proof (Hq a' b) as Hab. unfold lookup_qualified in Hab. rewrite Hab in Hn.
      case_bool_decide as Hd; [|done]. destruct Hd as [-> _]. auto.
    - pose proof (Hu b) as Hb. unfold lookup in Hb. rewrite Hb in Hn. auto. }
  intros [al b] [al' b'] id [Hn Hal]%Hfrom [Hn' Hal']%Hfrom. simpl in *.
  destruct (Hp _ _ _ Hn Hn') as [Hb _]. simpl in Hb. subst b'. split; [done|].
  unfold qualified. simpl. destruct Hal as [-> | ->], Hal' as [-> | ->]; done.
Qed.

Lemma enableUnqualifiedAccess_paired entries s s' :
  in_sync s -> paired (mappings_ s) -> entries ≡ₚ map_to_list (mappings_ s) ->
  enableUnqualifiedAccess_in entries s = Ok s' -> paired (mappings_ s').
Proof.
  intros Hs Hp Hperm He.
  destruct (enableUnqualifiedAccess_resolves entries s Hs Hperm) as (s'' & He' & _ & _ & Hq & Hu).
  rewrite He in He'. injection He' as <-. unfold lookup_qualified, lookup in *.
  assert (Hfrom : forall n id, mappings_ s' !! n = Some id ->
    mappings_ s !! n = Some id \/
    (alias n = None /\ exists a, mappings_ s !! mkName (Some a) (name n) = Some id /\
       mappings_ s !! n = None)).
  { intros [[a|] b] id Hn; [rewrite Hq in Hn; by left|].
    apply Hu in Hn as [Hn|(_ & a & Ha & Hsole)]; [by left|]. right. split; [done|].
    exists a. split; [done|]. destruct (mappings_ s !! mkName None b) eqn:E; [|done].
    by assert (mkName None b = mkName (Some a) b) by (apply Hsole; [done|by eexists]). }
  intros n n' id Hn Hn'.
  assert (Hbase : name n = name n').
  { apply Hfrom in Hn as [Hn|(_ & a & Hn & _)], Hn' as [Hn'|(_ & a' & Hn' & _)];
      by destruct (Hp _ _ _ Hn Hn') as [Hb _]. }
  split; [done|]. intros Hqq. destruct n as [[a|] b], n' as [[a'|] b']; try done; simpl in *; subst b'.
  - rewrite Hq in Hn, Hn'. by apply (Hp _ _ _ Hn Hn').
  - done.
Qed.

Lemma add_paired n id s s' :
  (forall n', mappings_ s !! n' = Some id -> name n' = name n /\ qualified n' <> qualified n) ->
  paired (mappings_ s) -> add n id s = Ok s' -> paired (mappings_ s').
Proof.
  unfold add, velox_check. case_bool_decide as Hn; simpl; [|done].
  intros Hid Hp [= <-]. assert (Hl : forall m i, mappings_ (insert n id s).2 !! m = Some i ->
    mappings_ s !! m = Some i \/ (m = n /\ i = id)).
  { intros m i. rewrite insert_lookup, Hn. case_decide; [|by left].
    case_bool_decide; [done|]. intros [= ->]. by right. }
  intros m m' i [Hm|[-> ->]]%Hl [Hm'|[-> Hi]]%Hl; subst; try done.
  - by eapply Hp.
  - destruct (Hid m Hm). split; [done|]. congruence.
  - destruct (Hid m' Hm') as [? Hq]. split; [done|]. intros Heq. by destruct Hq.
Qed.

Lemma step_consistent s s' : consistent s -> Step s s' -> consistent s'.
Proof.
  intros Hc Hstep. pose proof Hc as [Hs Hp].
  destruct Hstep as [n id s s' Hid Ha|n s|id s|id n s s' Ha|id src s s' Ha|es a s Hes|s|es s s' Hes Ha].
  - split; [by eapply add_in_sync|by eapply add_paired].
  - split; [by apply markAmbiguous_in_sync|]. eapply paired_sub; [|done].
    intros n' id. rewrite markAmbiguous_lookup. by case_decide.
  - by apply (consistent_same s).
  - eapply consistent_same; [by eapply addUserName_mappings|done].
  - eapply consistent_same; [by eapply copyUserName_mappings|done].
  - split; [by apply setAlias_spec|by apply setAlias_paired].
  - split; [by apply clearAliases_in_sync|]. eapply paired_sub; [|done].
    intros n id. by intros [? _]%map_lookup_filter_Some.
  - destruct (enableUnqualifiedAccess_resolves es s Hs Hes) as (s'' & He & Hs'' & _).
    split; [congruence|]. by apply (enableUnqualifiedAccess_paired es s).
Qed.

Lemma scope_consistent s : Scope s -> consistent s.
Proof.
  induction 1 as [|s _ _|s s' _ IH Hstep|es other s _ [Hs Hp] _ [_ Hpo] Hd Hes].
  - split; [apply empty_in_sync|]. intros n n' id Hn. done.
  - split; [split; [apply indexes_empty|set_solver]|]. intros n n' id Hn. done.
  - by eapply step_consistent.
  - split; [by apply merge_in_sync|by apply merge_paired].
Qed.

(** The names of a column: at most two, the base with and without one alias. *)
Lemma paired_names m names id :
  paired m -> NoDup names -> (forall n, n ∈ names -> m !! n = Some id) ->
  length names <= 2 /\
  forall a b, names = [a; b] -> name a = name b /\ qualified a <> qualified b.
Proof.
  intros Hp Hnd Hin.
  assert (Hd : forall a b, a ∈ names -> b ∈ names -> a <> b ->
    name a = name b /\ qualified a <> qualified b).
  { intros a b Ha%Hin Hb%Hin Hne. destruct (Hp a b id Ha Hb) as [? Hq]. split; [done|]. auto. }
  split.
  - destruct names as [|a [|b [|c rest]]]; simpl; try lia. exfalso.
    rewrite !NoDup_cons, !not_elem_of_cons in Hnd.
    destruct (Hd a b) as [_ Hab], (Hd a c) as [_ Hac], (Hd b c) as [_ Hbc];
      try (rewrite !elem_of_cons; tauto); try tauto.
    destruct (qualified a), (qualified b), (qualified c); tauto.
  - intros a b ->. rewrite NoDup_cons, not_elem_of_cons in Hnd.
    apply Hd; rewrite ?elem_of_cons; tauto.
Qed.

(** C40: In every scope [reverseLookup] never throws, and is the inverse of the name
    lookup: it returns exactly the names that resolve to the column, each once. *)
Theorem reverseLookup_inverse s id :
  Scope s ->
  exists names, reverseLookup id s = Ok names /\ NoDup names /\
    forall n, n ∈ names <-> mappings_ s !! n = Some id.
Proof.
  intros [[Hi _] Hp]%scope_consistent. destruct (Hi id) as (_ & Hnd & Hin).
  unfold reverseLookup. destruct (reverseIndex_ s !! id) as [names|]; simpl in *; [|by exists []].
  destruct (paired_names _ names id Hp Hnd) as [Hlen Htwo]; [intros n; apply Hin|].
  exists names. split; [|done]. rewrite (proj2 (Nat.leb_le _ _) Hlen). simpl.
  destruct names as [|a [|b [|c rest]]]; try done.
  destruct (Htwo a b eq_refl) as [Hb Hq]. rewrite bool_decide_eq_true_2 by done. simpl.
  by destruct (qualified a), (qualified b).
Qed.

(** ** A marked name stays ambiguous *)

(** Whatever can happen to a scope short of [reset]. *)
Definition later_step (s s' : NameMappings) : Prop :=
  Step s s' \/
  exists entries other, Scope other /\ disjoint_ids (mappings_ s) (mappings_ other) /\
    entries ≡ₚ map_to_list (mappings_ other) /\ s' = merge_in entries other s.

Lemma step_keeps_marks s s' :
  consistent s -> Step s s' -> ambiguousNames_ s ⊆ ambiguousNames_ s'.
Proof.
  intros [Hs _] Hstep.
  destruct Hstep as [n id s1 s2 Hid Ha|n s1|id s1|id n s1 s2 Ha|id src s1 s2 Ha|es a s1 Hes|s1|
    es s1 s2 Hes Ha]; try done.
  - unfold add, velox_check in Ha. case_bool_decide; [|done]. simpl in Ha.
    injection Ha as <-. by rewrite insert_ambiguous.
  - rewrite markAmbiguous_ambiguous. set_solver.
  - apply addUserName_mappings in Ha as (_ & _ & ->). done.
  - apply copyUserName_mappings in Ha as (_ & _ & ->). done.
  - destruct (setAlias_spec es a s1 Hs Hes) as (_ & -> & _). done.
  - destruct (enableUnqualifiedAccess_resolves es s1 Hs Hes) as (s3 & He & _ & Hamb & _).
    rewrite He in Ha. injection Ha as <-. by rewrite Hamb.
Qed.

(** Once a name is marked ambiguous, no sequence of operations - adding it again,
    aliasing, merging other scopes, enabling unqualified access - makes it resolve
    to a column before [reset]. *)
Theorem ambiguous_until_reset n s s' :
  Scope s -> n ∈ ambiguousNames_ s -> rtc later_step s s' ->
  Scope s' /\ n ∈ ambiguousNames_ s' /\ mappings_ s' !! n = None.
Proof.
  intros Hs Hn Hsteps. induction Hsteps as [s|s s1 s2 Hstep _ IH].
  - split; [done|]. split; [done|]. apply scope_consistent in Hs as [Hsync _].
    by apply (sync_ambiguous _ Hsync).
  - pose proof (scope_consistent s Hs) as Hc. apply IH.
    + destruct Hstep as [Hstep|(es & other & Ho & Hd & Hes & ->)].
      * by eapply scope_step.
      * by apply scope_merge.
    + destruct Hstep as [Hstep|(es & other & Ho & Hd & Hes & ->)].
      * by eapply step_keeps_marks.
      * destruct Hc as [Hsync _]. destruct (merge_resolves es other s Hsync Hes) as (_ & _ & Ha & _).
        apply Ha. by left.
Qed.

(** Merging two scopes resolves, in whatever order the other scope's hash map is
    iterated: a name of one side alone keeps its column; a name of both sides is
    marked ambiguous and resolves to nothing; an unqualified name of the right
    side whose base the left side has under an alias, and a name already marked,
    resolve to nothing.  Hidden ids are united, and the index stays in sync. *)
Theorem merge_spec entries other s :
  in_sync s -> entries ≡ₚ map_to_list (mappings_ other) ->
  let s' := merge_in entries other s in
  in_sync s' /\
  (forall n, mappings_ s' !! n =
     match mappings_ s !! n, mappings_ other !! n with
     | Some id, None => Some id
     | Some _, Some _ => None
     | None, None => None
     | None, Some id =>
         if bool_decide (n ∈ ambiguousNames_ s) ||
            (negb (qualified n) && bool_decide (name n ∈ qualifiedNames s))
         then None else Some id
     end) /\
  (forall n, n ∈ ambiguousNames_ s' <->
     n ∈ ambiguousNames_ s \/ (is_Some (mappings_ s !! n) /\ is_Some (mappings_ other !! n))) /\
  hiddenIds_ s' = hiddenIds_ s ∪ hiddenIds_ other.
Proof. apply merge_resolves. Qed.

(** [enableUnqualifiedAccess] never throws, in whatever order the names are
    iterated, and makes exactly the unique names available: the base of a name
    resolves without an alias if it did before, or if one name has that base, an
    aliased one, and the unqualified name is not marked ambiguous. *)
Theorem enableUnqualifiedAccess_spec entries s :
  in_sync s -> entries ≡ₚ map_to_list (mappings_ s) ->
  exists s', enableUnqualifiedAccess_in entries s = Ok s' /\ in_sync s' /\
    ambiguousNames_ s' = ambiguousNames_ s /\
    (forall a b, lookup_qualified a b s' = lookup_qualified a b s) /\
    (forall b id, lookup b s' = Some id <->
       lookup b s = Some id \/
       ((mkName None b ∉ ambiguousNames_ s) /\ sole_owner s b id)).
Proof. apply enableUnqualifiedAccess_resolves. Qed.

(** ** Examples *)

(** [t(x)], and [a(x)] joined to [b(x)]. *)
Definition scope_of (relation base id : string) : NameMappings :=
  setAlias relation (insert (mkName None base) id empty_mappings).2.

Definition scope_t : NameMappings := scope_of "t" "x" "x_0".
Definition scope_a_join_b : NameMappings := merge (scope_of "b" "x" "x_2") (scope_of "a" "x" "x_1").

(** [x] names three columns of [t JOIN (a JOIN b)], and still resolves to that of
    [t]: the ambiguity of the right side is forgotten.  In [(a JOIN b) JOIN t] it
    resolves to nothing.  [merge] documents that it removes unqualified access to
    non-unique names. *)
Theorem merge_forgets_right_ambiguity :
  lookup "x" scope_a_join_b = None /\
  lookup_qualified "a" "x" scope_a_join_b = Some "x_1"%string /\
  lookup_qualified "b" "x" scope_a_join_b = Some "x_2"%string /\
  lookup "x" (merge scope_a_join_b scope_t) = Some "x_0"%string /\
  lookup "x" (merge scope_t scope_a_join_b) = None.
Proof. vm_compute. repeat split; reflexivity. Qed.


Lemma scope_of_ok r b id : Scope (scope_of r b id).
Proof.
  unfold scope_of. eapply scope_step; [|by apply step_setAlias].
  eapply scope_step; [apply scope_empty|]. by apply (step_add (mkName None b) id).
Qed.

(** Columns of scopes whose ids differ. *)
Lemma scope_of_disjoint r b id r' b' id' :
  id <> id' ->
  disjoint_ids (mappings_ (scope_of r b id)) (mappings_ (scope_of r' b' id')).
Proof.
  assert (Hids : forall r b id n i, mappings_ (scope_of r b id) !! n = Some i -> i = id).
  { clear. intros r b id [al b'] i Hn. unfold scope_of in Hn.
    set (s := (insert (mkName None b) id empty_mappings).2) in *.
    assert (Hs : in_sync s) by apply insert_in_sync, empty_in_sync.
    destruct (setAlias_spec (map_to_list (mappings_ s)) r s Hs (reflexivity _))
      as (_ & _ & Hu & Hq).
    assert (Hl : lookup b' s = Some i).
    { destruct al as [a|].
      - pose proof (Hq a b') as Hab. unfold lookup_qualified, setAlias in *. rewrite Hab in Hn.
        by case_bool_decide.
      - by rewrite <- Hu. }
    unfold lookup, s in Hl. rewrite insert_lookup in Hl.
    cbn [mappings_ empty_mappings] in Hl. rewrite !lookup_empty in Hl.
    case_decide; [|done]. case_bool_decide; congruence. }
  intros Hne n n' i Hi%Hids Hi'%Hids. congruence.
Qed.

Lemma scope_t_sync : in_sync scope_t.
Proof. apply scope_consistent, scope_of_ok. Qed.

Theorem merge_spec_witness :
  let entries := map_to_list (mappings_ (scope_of "u" "x" "x_9")) in
  let s' := merge_in entries (scope_of "u" "x" "x_9") scope_t in
  in_sync s' /\ mappings_ s' !! mkName None "x" = None /\
  mappings_ s' !! mkName (Some "t"%string) "x" = Some "x_0"%string.
Proof.
  destruct (merge_spec (map_to_list (mappings_ (scope_of "u" "x" "x_9"))) (scope_of "u" "x" "x_9")
    scope_t scope_t_sync (reflexivity _)) as (Hs & Hm & _).
  split; [exact Hs|]. split; rewrite Hm; vm_compute; reflexivity.
Defined.

Theorem merge_order_irrelevant_witness :
  let other := scope_of "u" "x" "x_9" in
  let entries := map_to_list (mappings_ other) in
  userNames_ (merge_in entries other scope_t) = userNames_ (merge_in (rev entries) other scope_t) /\
  length entries = 2.
Proof.
  split; [|vm_compute; reflexivity].
  refine (proj1 (proj2 (proj2 (proj2 (merge_order_irrelevant
    (map_to_list (mappings_ (scope_of "u" "x" "x_9")))
    (rev (map_to_list (mappings_ (scope_of "u" "x" "x_9"))))
    (scope_of "u" "x" "x_9") scope_t scope_t_sync _ _ _ _ _))))).
  - apply scope_consistent, scope_of_ok.
  - apply scope_consistent, scope_of_ok.
  - by apply scope_of_disjoint.
  - reflexivity.
  - symmetry. apply Permutation_rev.
Defined.

Theorem setAlias_spec_witness :
  lookup_qualified "v" "x" (setAlias "v" scope_t) = Some "x_0"%string /\
  lookup_qualified "t" "x" (setAlias "v" scope_t) = None.
Proof.
  destruct (setAlias_spec (map_to_list (mappings_ scope_t)) "v" scope_t scope_t_sync (reflexivity _))
    as (_ & _ & _ & Hq).
  split; (etransitivity; [apply Hq|vm_compute; reflexivity]).
Defined.

Theorem enableUnqualifiedAccess_spec_witness :
  let s := (insert (mkName (Some "t"%string) "y") "y_1" empty_mappings).2 in
  exists s', enableUnqualifiedAccess s = Ok s' /\ lookup "y" s' = Some "y_1"%string.
Proof.
  set (s := (insert (mkName (Some "t"%string) "y") "y_1" empty_mappings).2).
  destruct (enableUnqualifiedAccess_spec (map_to_list (mappings_ s)) s)
    as (s' & He & _ & _ & _ & Hu).
  - apply insert_in_sync, empty_in_sync.
  - reflexivity.
  - exists s'. split; [exact He|]. apply Hu. right. split; [apply (not_elem_of_empty (C:=gset QualifiedName))|].
    exists "t"%string. split; [vm_compute; reflexivity|]. intros n Hn [i Hi].
    unfold s in Hi. rewrite insert_lookup in Hi. case_decide as Hd; [exact Hd|].
    vm_compute in Hi. discriminate Hi.
Defined.

Theorem reverseLookup_inverse_witness :
  Scope scope_t /\
  exists names, reverseLookup "x_0" scope_t = Ok names /\ NoDup names /\
    forall n, n ∈ names <-> mappings_ scope_t !! n = Some "x_0"%string.
Proof. split; [apply scope_of_ok|]. apply reverseLookup_inverse. apply scope_of_ok. Defined.

(** [x] of [t JOIN u] is ambiguous, and no later alias makes it resolve. *)
Theorem ambiguous_until_reset_witness :
  let s := merge (scope_of "u" "x" "x_9") scope_t in
  mappings_ (setAlias "v" s) !! mkName None "x" = None.
Proof.
  apply (ambiguous_until_reset (mkName None "x") (merge (scope_of "u" "x" "x_9") scope_t)).
  - apply scope_merge; [apply scope_of_ok|apply scope_of_ok|by apply scope_of_disjoint|reflexivity].
  - apply (bool_decide_unpack _). vm_compute. exact I.
  - apply rtc_once. left. by apply step_setAlias.
Defined.
