(* ===== verification/IntervalParser.v ===== *)
(** * Presto interval literals

    Models [axiom/sql/presto/IntervalParser.cpp]: the parser of the value of
    [INTERVAL 'value' start TO end], into months or milliseconds.

    [pos], the position in the [std::string], is the rest of the text still to be
    read; [int64_t] arithmetic is checked ([SignedOverflow] stands for undefined
    behaviour).  The grammar of [docs/IntervalParser.md] is stated as a relation
    between texts and durations, and the parser is proved to accept exactly its
    texts with exactly its durations; no intermediate result overflows, and the
    unreachable branch is not reached. *)

From Stdlib Require Import ZArith Lia Ascii.
From S2P Require Import Prelude.

Open Scope Z_scope.

(** ** Results *)

(** [IntervalLiteral::IntervalField], from the largest unit to the smallest. *)
Inductive IntervalField := kYear | kMonth | kDay | kHour | kMinute | kSecond.

#[export] Instance IntervalField_eq_dec : EqDecision IntervalField.
Proof. solve_decision. Defined.

Inductive Separator := kSpace | kColon | kHyphen.

(** The messages of the parser. *)
Inductive ParseError :=
  | TooManyDigits (field : IntervalField)
  | ExpectedDigits (field : IntervalField)
  | FieldExceedsLimit (field : IntervalField)
  | DecimalPointAfterTooManyDigits
  | TooManySecondDigits
  | ExpectedSecondDigits
  | NegativeField (field : IntervalField)
  | ExpectedSeparator (separator : Separator) (previous next : IntervalField)
  | UnexpectedCharacters (rest : list ascii)
  | TotalExceedsLimit
  | SignedOverflow
  | UnreachableField.

(** [folly::Expected<T, std::string>] *)
Inductive ParseResult (A : Type) :=
  | Expected (a : A)
  | Unexpected (e : ParseError).
Arguments Expected {A} a.
Arguments Unexpected {A} e.

#[export] Instance ParseResult_ret : MRet ParseResult := fun A a => Expected a.
#[export] Instance ParseResult_bind : MBind ParseResult := fun A B f m =>
  match m with Expected a => f a | Unexpected e => Unexpected e end.

Definition int32_max : Z := 2 ^ 31 - 1.
Definition int64_max : Z := 2 ^ 63 - 1.

(** An [int64_t] result. *)
Definition int64 (n : Z) : ParseResult Z :=
  if (- 2 ^ 63 <=? n) && (n <=? int64_max) then Expected n else Unexpected SignedOverflow.

(** ** The parser *)

Module IntervalParser.

Definition kMaxDigits : nat := 10.

Definition isDigit (character : ascii) : bool :=
  (nat_of_ascii "0" <=? nat_of_ascii character)%nat &&
  (nat_of_ascii character <=? nat_of_ascii "9")%nat.

(** [character - '0'] *)
Definition digit (character : ascii) : Z :=
  Z.of_nat (nat_of_ascii character) - Z.of_nat (nat_of_ascii "0").

(** [pos < value.size() && value[pos] == character] *)
Definition looking_at (character : ascii) (rest : list ascii) : bool :=
  match rest with c :: _ => Ascii.eqb c character | [] => false end.

(** The loop of [readNumber]: [digits] is [pos - start]. *)
Fixpoint readNumber_loop (field : IntervalField) (digits : nat) (number : Z)
    (rest : list ascii) : ParseResult (Z * nat * list ascii) :=
  match rest with
  | c :: rest' =>
      if isDigit c then
        if (digits =? kMaxDigits)%nat then Unexpected (TooManyDigits field)
        else
          number ← (number ← int64 (number * 10); int64 (number + digit c));
          readNumber_loop field (S digits) number rest'
      else Expected (number, digits, rest)
  | [] => Expected (number, digits, rest)
  end.

(** The number, how many digits it has, and the rest. *)
Definition readNumber (field : IntervalField) (rest : list ascii) :
    ParseResult (Z * nat * list ascii) :=
  '(number, digits, rest) ← readNumber_loop field 0 0 rest;
  if (digits =? 0)%nat && negb (bool_decide (field = kSecond) && looking_at "." rest)
  then Unexpected (ExpectedDigits field)
  else if number >? int32_max then Unexpected (FieldExceedsLimit field)
  else Expected (number, digits, rest).

(** The loop of [readMillis]. *)
Fixpoint readMillis_loop (integerDigits fractionDigits : nat) (millis : Z)
    (rest : list ascii) : ParseResult (Z * nat * list ascii) :=
  match rest with
  | c :: rest' =>
      if isDigit c then
        if (integerDigits + fractionDigits =? kMaxDigits)%nat
        then Unexpected TooManySecondDigits
        else
          millis ← (if (fractionDigits <? 3)%nat
                    then (millis ← int64 (millis * 10); int64 (millis + digit c))
                    else Expected millis);
          readMillis_loop integerDigits (S fractionDigits) millis rest'
      else Expected (millis, fractionDigits, rest)
  | [] => Expected (millis, fractionDigits, rest)
  end.

(** [for (; digits < 3; ++digits) millis *= 10], [n] times. *)
Fixpoint scale_millis (n : nat) (millis : Z) : ParseResult Z :=
  match n with
  | O => Expected millis
  | S n => millis ← int64 (millis * 10); scale_millis n millis
  end.

Definition readMillis (rest : list ascii) (integerDigits : nat) :
    ParseResult (Z * list ascii) :=
  match rest with
  | c :: rest' =>
      if negb (Ascii.eqb c ".") then Expected (0, rest)
      else if (kMaxDigits <=? integerDigits)%nat then Unexpected DecimalPointAfterTooManyDigits
      else
        '(millis, digits, rest) ← readMillis_loop integerDigits 0 0 rest';
        if (integerDigits =? 0)%nat && (digits =? 0)%nat then Unexpected ExpectedSecondDigits
        else
          millis ← scale_millis (3 - digits) millis;
          Expected (millis, rest)
  | [] => Expected (0, rest)
  end.

Definition readField (field : IntervalField) (rest : list ascii) :
    ParseResult (Z * list ascii) :=
  let rest := if looking_at "+" rest then tail rest else rest in
  if looking_at "-" rest then Unexpected (NegativeField field)
  else
    '(number, digits, rest) ← readNumber field rest;
    if bool_decide (field = kSecond) then
      '(millis, rest) ← readMillis rest digits;
      total ← (scaled ← int64 (number * 1000); int64 (scaled + millis));
      Expected (total, rest)
    else Expected (number, rest).

Definition separator_char (separator : Separator) : ascii :=
  match separator with kSpace => " " | kColon => ":" | kHyphen => "-" end.

(** [value[pos]] past the end of a [std::string] is the null character. *)
Definition readSeparator (separator : Separator) (previous next : IntervalField)
    (rest : list ascii) : ParseResult (list ascii) :=
  if negb (Ascii.eqb (hd "000"%char rest) (separator_char separator))
  then Unexpected (ExpectedSeparator separator previous next)
  else Expected (tail rest).

Definition checkEnd (rest : list ascii) : ParseResult unit :=
  match rest with [] => Expected tt | _ => Unexpected (UnexpectedCharacters rest) end.

(** [dayTimeField]: the index in [kUnits]. *)
Definition dayTimeField (field : IntervalField) : ParseResult nat :=
  match field with
  | kDay => Expected 0%nat | kHour => Expected 1%nat
  | kMinute => Expected 2%nat | kSecond => Expected 3%nat
  | _ => Unexpected UnreachableField
  end.

Definition kUnits : list (IntervalField * Z) :=
  [(kDay, 24 * 60 * 60 * 1000); (kHour, 60 * 60 * 1000); (kMinute, 60 * 1000); (kSecond, 1)].

(** The loop of [parseDayTime] over the units from [index] to [last]; [previous]
    is the unit before, none for the first. *)
Fixpoint parseDayTime_loop (units : list (IntervalField * Z)) (previous : option IntervalField)
    (millis : Z) (rest : list ascii) : ParseResult (Z * list ascii) :=
  match units, rest with
  | (field, unitMillis) :: units, _ :: _ =>
      rest ← match previous with
             | Some previous =>
                 readSeparator (if bool_decide (field = kHour) then kSpace else kColon)
                   previous field rest
             | None => Expected rest
             end;
      '(fieldValue, rest) ← readField field rest;
      millis ← (product ← int64 (fieldValue * unitMillis); int64 (millis + product));
      parseDayTime_loop units (Some field) millis rest
  | _, _ => Expected (millis, rest)
  end.

Definition parseDayTime (rest : list ascii) (start end_ : IntervalField) : ParseResult Z :=
  first ← dayTimeField start;
  last ← dayTimeField end_;
  '(millis, rest) ← parseDayTime_loop (drop first (take (S last) kUnits)) None 0 rest;
  _ ← checkEnd rest;
  Expected millis.

Definition parseYearMonth (rest : list ascii) (start end_ : IntervalField) : ParseResult Z :=
  match rest with
  | [] => Expected 0
  | _ =>
      '(months, rest) ← readField start rest;
      months ← (if bool_decide (start = kYear) then int64 (months * 12) else Expected months);
      '(months, rest) ←
        match rest with
        | _ :: _ =>
            if bool_decide (start <> end_) then
              rest ← readSeparator kHyphen start end_ rest;
              '(lastField, rest) ← readField end_ rest;
              months ← int64 (months + lastField);
              Expected (months, rest)
            else Expected (months, rest)
        | [] => Expected (months, rest)
        end;
      if months >? int32_max then Unexpected TotalExceedsLimit
      else
        _ ← checkEnd rest;
        Expected months
  end.

End IntervalParser.

(** ** [IntervalParser::parse] *)

Inductive Sign := kPositive | kNegative.

(** [IntervalLiteral] *)
Record IntervalLiteral := mkInterval {
  literal_value : list ascii;
  literal_sign : Sign;
  startField : IntervalField;
  endField : option IntervalField
}.

(** The typed constants, and the semantic errors. *)
Inductive Constant := INTERVAL_YEAR_MONTH (months : Z) | INTERVAL_DAY_TIME (millis : Z).

Inductive SemanticError :=
  | DifferentGroups | WrongOrder | InvalidValue (e : ParseError).

Definition isYearMonth (field : IntervalField) : bool :=
  match field with kYear | kMonth => true | _ => false end.

(** The position of a field in the enumeration. *)
Definition field_index (field : IntervalField) : Z :=
  match field with
  | kYear => 0 | kMonth => 1 | kDay => 2 | kHour => 3 | kMinute => 4 | kSecond => 5
  end.

(** [static_cast<int32_t>]: reduction modulo 2^32 to the signed range. *)
Definition to_int32 (n : Z) : Z := (n + 2 ^ 31) mod 2 ^ 32 - 2 ^ 31.

Definition parse (literal : IntervalLiteral) : Constant + SemanticError :=
  let start := startField literal in
  let end_ := default start (endField literal) in
  let value := literal_value literal in
  let yearMonth := isYearMonth start in
  if negb (Bool.eqb yearMonth (isYearMonth end_)) then inr DifferentGroups
  else if negb (field_index start <=? field_index end_) then inr WrongOrder
  else
    let sign := match literal_sign literal with kPositive => 1 | kNegative => -1 end in
    let '(sign, rest) :=
      if IntervalParser.looking_at "-" value then (- sign, tail value) else (sign, value) in
    let parsed :=
      number ← (if yearMonth then IntervalParser.parseYearMonth rest start end_
                else IntervalParser.parseDayTime rest start end_);
      int64 (sign * number) in
    match parsed with
    | Unexpected e => inr (InvalidValue e)
    | Expected number =>
        inl (if yearMonth then INTERVAL_YEAR_MONTH (to_int32 number)
             else INTERVAL_DAY_TIME number)
    end.

(** ** The grammar of [docs/IntervalParser.md] *)

Import IntervalParser.

Definition all_digits (ds : list ascii) : Prop := Forall (fun c => isDigit c = true) ds.

(** The number digits denote, continued from [n]. *)
Definition number_from (n : Z) (ds : list ascii) : Z := fold_left (fun n c => n * 10 + digit c) ds n.
Definition number_of (ds : list ascii) : Z := number_from 0 ds.

(** A field without its optional plus sign, and its value: an integer of at most
    ten digits and at most [2^31 - 1]; of seconds, in milliseconds, also a decimal
    of at most ten digits, fewer than ten before the point, truncated. *)
Inductive UnsignedText : IntervalField -> list ascii -> Z -> Prop :=
  | text_integer field ds :
      field <> kSecond -> all_digits ds -> (1 <= length ds <= 10)%nat ->
      number_of ds <= int32_max -> UnsignedText field ds (number_of ds)
  | text_seconds ds :
      all_digits ds -> (1 <= length ds <= 10)%nat ->
      number_of ds <= int32_max -> UnsignedText kSecond ds (number_of ds * 1000)
  | text_decimal ds fs :
      all_digits ds -> all_digits fs -> (length ds < 10)%nat ->
      (1 <= length ds + length fs <= 10)%nat ->
      UnsignedText kSecond (ds ++ "."%char :: fs)
        (number_of ds * 1000 + number_of (take 3 (fs ++ ["0"; "0"; "0"]%char))).

Inductive FieldText : IntervalField -> list ascii -> Z -> Prop :=
  | text_unsigned field t v : UnsignedText field t v -> FieldText field t v
  | text_plus field t v : UnsignedText field t v -> FieldText field ("+"%char :: t) v.

(** The text of a day-time value with the given units: it can end after any
    field; a separator precedes every field but the first. *)
Inductive DayTimeText : list (IntervalField * Z) -> bool -> list ascii -> Z -> Prop :=
  | daytime_end units first : DayTimeText units first [] 0
  | daytime_field field unit units (first : bool) t v rest w :
      FieldText field t v -> DayTimeText units false rest w ->
      DayTimeText ((field, unit) :: units) first
        ((if first then [] else [separator_char (if bool_decide (field = kHour) then kSpace else kColon)])
           ++ t ++ rest)
        (v * unit + w).

(** The text of a year-month value. *)
Inductive YearMonthText : IntervalField -> IntervalField -> list ascii -> Z -> Prop :=
  | yearmonth_empty start end_ : YearMonthText start end_ [] 0
  | yearmonth_one start end_ t v :
      FieldText start t v -> YearMonthText start end_ t (v * (if bool_decide (start = kYear) then 12 else 1))
  | yearmonth_two t v t' v' :
      FieldText kYear t v -> FieldText kMonth t' v' ->
      YearMonthText kYear kMonth (t ++ "-"%char :: t') (v * 12 + v').

(** The units a qualifier selects. *)
Definition unit_index (field : IntervalField) : nat :=
  match field with kDay => 0 | kHour => 1 | kMinute => 2 | kSecond => 3 | _ => 0 end%nat.

Definition qualifier_units (start end_ : IntervalField) : list (IntervalField * Z) :=
  drop (unit_index start) (take (S (unit_index end_)) kUnits).

(** A literal's value: an optional minus sign, then fields. *)
Definition LiteralText (start end_ : IntervalField) (text : list ascii) (magnitude : Z) : Prop :=
  if isYearMonth start then YearMonthText start end_ text magnitude /\ magnitude <= int32_max
  else DayTimeText (qualifier_units start end_) true text magnitude.

Inductive SignedText (start end_ : IntervalField) : list ascii -> Z -> Prop :=
  | text_positive text n :
      looking_at "-" text = false -> LiteralText start end_ text n -> SignedText start end_ text n
  | text_negative text n :
      LiteralText start end_ text n -> SignedText start end_ ("-"%char :: text) (- n).

(** ** Digits *)

Lemma digit_bounds c : isDigit c = true -> 0 <= digit c <= 9.
Proof.
  unfold isDigit, digit. rewrite andb_true_iff, !Nat.leb_le.
  change (nat_of_ascii "0") with 48%nat. change (nat_of_ascii "9") with 57%nat. lia.
Qed.

Lemma number_from_bounds n ds k :
  all_digits ds -> 0 <= n < 10 ^ Z.of_nat k -> 0 <= number_from n ds < 10 ^ Z.of_nat (k + length ds).
Proof.
  intros Hds. revert n k. induction Hds as [|c ds Hc _ IH]; intros n k Hn; simpl.
  - by rewrite Nat.add_0_r.
  - rewrite Nat.add_succ_r, <- Nat.add_succ_l. apply digit_bounds in Hc. apply IH.
    rewrite Nat2Z.inj_succ, Z.pow_succ_r; lia.
Qed.

Lemma number_of_bounds ds : all_digits ds -> 0 <= number_of ds < 10 ^ Z.of_nat (length ds).
Proof. intros Hds. apply (number_from_bounds 0 ds 0 Hds). simpl. lia. Qed.

Lemma number_from_app n ds ds' : number_from n (ds ++ ds') = number_from (number_from n ds) ds'.
Proof. apply fold_left_app. Qed.

Lemma pow10_le a b : (a <= b)%nat -> 10 ^ Z.of_nat a <= 10 ^ Z.of_nat b.
Proof. intros. apply Z.pow_le_mono_r; lia. Qed.

Lemma int64_ok n : - 2 ^ 63 <= n <= int64_max -> int64 n = Expected n.
Proof. unfold int64. intros [Hl Hh]. by rewrite (proj2 (Z.leb_le _ _) Hl), (proj2 (Z.leb_le _ _) Hh). Qed.

(** The longest run of digits at the start. *)
Definition stops (rest : list ascii) : Prop :=
  match rest with c :: _ => isDigit c = false | [] => True end.

Lemma digits_span s : exists ds rest, s = ds ++ rest /\ all_digits ds /\ stops rest.
Proof.
  induction s as [|c s (ds & rest & -> & Hds & Hr)]; [by exists [], []; repeat constructor|].
  destruct (isDigit c) eqn:Hc.
  - exists (c :: ds), rest. repeat split; [by constructor|done].
  - exists [], (c :: ds ++ rest). repeat split; [constructor|done].
Qed.

Lemma readNumber_loop_spec field k n ds rest :
  all_digits ds -> stops rest -> (k <= 10)%nat -> 0 <= n < 10 ^ Z.of_nat k ->
  readNumber_loop field k n (ds ++ rest) =
  if (k + length ds <=? 10)%nat then Expected (number_from n ds, (k + length ds)%nat, rest)
  else Unexpected (TooManyDigits field).
Proof.
  intros Hds Hr. revert k n. induction Hds as [|c ds Hc Hds IH]; intros k n Hk Hn.
  - rewrite Nat.add_0_r, (proj2 (Nat.leb_le _ _) Hk). simpl.
    destruct rest as [|c rest]; simpl; [done|]. simpl in Hr. by rewrite Hr.
  - simpl. rewrite Hc. unfold kMaxDigits. destruct (Nat.eqb_spec k 10) as [->|Hne]; [done|].
    pose proof (digit_bounds c Hc). assert (Hp : 10 ^ Z.of_nat k <= 10 ^ 9) by (apply (pow10_le k 9); lia).
    simpl in Hp. rewrite int64_ok by (unfold int64_max; lia). simpl.
    rewrite int64_ok by (unfold int64_max; lia). simpl.
    rewrite IH; [by rewrite Nat.add_succ_r|lia|]. rewrite Nat2Z.inj_succ, Z.pow_succ_r; lia.
Qed.

Lemma readNumber_spec field ds rest :
  all_digits ds -> stops rest ->
  readNumber field (ds ++ rest) =
  if negb (length ds <=? 10)%nat then Unexpected (TooManyDigits field)
  else if (length ds =? 0)%nat && negb (bool_decide (field = kSecond) && looking_at "." rest)
  then Unexpected (ExpectedDigits field)
  else if number_of ds >? int32_max then Unexpected (FieldExceedsLimit field)
  else Expected (number_of ds, length ds, rest).
Proof.
  intros Hds Hr. unfold readNumber.
  rewrite (readNumber_loop_spec field 0 0 ds rest); [|done..|lia|simpl; lia].
  simpl (0 + _)%nat. by destruct (length ds <=? 10)%nat.
Qed.

Lemma readMillis_loop_spec i k m ds rest :
  all_digits ds -> stops rest -> (i + k <= 10)%nat -> 0 <= m < 10 ^ Z.of_nat (k `min` 3) ->
  readMillis_loop i k m (ds ++ rest) =
  if (i + k + length ds <=? 10)%nat
  then Expected (number_from m (take (3 - k) ds), (k + length ds)%nat, rest)
  else Unexpected TooManySecondDigits.
Proof.
  intros Hds Hr. revert k m. induction Hds as [|c ds Hc Hds IH]; intros k m Hk Hm.
  - rewrite !Nat.add_0_r, (proj2 (Nat.leb_le _ _) Hk), take_nil. simpl.
    destruct rest as [|c rest]; simpl; [done|]. simpl in Hr. by rewrite Hr.
  - cbn [app readMillis_loop]. rewrite Hc. unfold kMaxDigits.
    destruct (Nat.eqb_spec (i + k) 10) as [->|Hne]; [done|].
    pose proof (digit_bounds c Hc).
    assert (Hp : 10 ^ Z.of_nat (k `min` 3) <= 10 ^ 3) by (apply (pow10_le _ 3); lia).
    simpl in Hp. destruct (Nat.ltb_spec k 3) as [Hk3|Hk3].
    + rewrite int64_ok by (unfold int64_max; lia). simpl.
      rewrite int64_ok by (unfold int64_max; lia). simpl.
      rewrite IH; [|lia|].
      * rewrite !Nat.add_succ_r, Nat.add_succ_l. replace (3 - k)%nat with (S (3 - S k)) by lia. done.
      * rewrite (Nat.min_l (S k)) by lia. rewrite Nat.min_l in Hm by lia.
        rewrite Nat2Z.inj_succ, Z.pow_succ_r; lia.
    + simpl. rewrite IH; [|lia|].
      * rewrite !Nat.add_succ_r, Nat.add_succ_l.
        by replace (3 - k)%nat with 0%nat by lia; replace (3 - S k)%nat with 0%nat by lia.
      * rewrite (Nat.min_r (S k)) by lia. rewrite Nat.min_r in Hm by lia. done.
Qed.

Lemma number_from_zeros n m : number_from m (repeat "0"%char n) = m * 10 ^ Z.of_nat n.
Proof.
  revert m. induction n as [|n IH]; intros m; [simpl; lia|].
  cbn [repeat number_from fold_left]. change (fold_left _ _ ?m) with (number_from m (repeat "0"%char n)).
  rewrite IH, Nat2Z.inj_succ, Z.pow_succ_r by lia. change (digit "0") with 0. lia.
Qed.

Lemma scale_millis_spec n m :
  0 <= m < 1000 -> (n <= 3)%nat -> scale_millis n m = Expected (m * 10 ^ Z.of_nat n).
Proof.
  intros Hm Hn. assert (Hg : forall n m, 0 <= m * 10 ^ Z.of_nat n <= int64_max ->
    0 <= m -> scale_millis n m = Expected (m * 10 ^ Z.of_nat n)).
  { clear. induction n as [|n IH]; intros m Hm Hm0; cbn [scale_millis].
    { f_equal. simpl. lia. }
    rewrite Nat2Z.inj_succ, Z.pow_succ_r in * by lia.
    pose proof (Z.pow_pos_nonneg 10 (Z.of_nat n)).
    rewrite int64_ok by (unfold int64_max in *; nia). simpl.
    rewrite IH by (unfold int64_max in *; nia). f_equal. lia. }
  apply Hg; [|lia]. pose proof (pow10_le n 3 Hn) as Hp. simpl in Hp.
  pose proof (Z.pow_pos_nonneg 10 (Z.of_nat n)). unfold int64_max. nia.
Qed.

(** The milliseconds of a fraction: its first three digits, zeros added. *)
Lemma fraction_millis fs :
  number_of (take 3 (fs ++ ["0"; "0"; "0"]%char)) =
  number_of (take 3 fs) * 10 ^ Z.of_nat (3 - length fs).
Proof.
  rewrite take_app. change ["0"; "0"; "0"]%char with (repeat "0"%char 3).
  unfold number_of. rewrite number_from_app.
  destruct (length fs) as [|[|[|n]]]; simpl take;
    [exact (number_from_zeros 3 _)|exact (number_from_zeros 2 _)|
     exact (number_from_zeros 1 _)|exact (number_from_zeros 0 _)].
Qed.

Lemma readMillis_spec i fs rest :
  all_digits fs -> stops rest -> (i < 10)%nat ->
  readMillis ("."%char :: fs ++ rest) i =
  if negb (i + length fs <=? 10)%nat then Unexpected TooManySecondDigits
  else if (i =? 0)%nat && (length fs =? 0)%nat then Unexpected ExpectedSecondDigits
  else Expected (number_of (take 3 (fs ++ ["0"; "0"; "0"]%char)), rest).
Proof.
  intros Hfs Hr Hi. unfold readMillis, kMaxDigits. simpl negb. cbv iota.
  rewrite (proj2 (Nat.leb_gt 10 i) Hi).
  rewrite (readMillis_loop_spec i 0 0 fs rest); [|done..|lia|simpl; lia].
  assert (Hm : 0 <= number_of (take 3 fs) < 1000).
  { assert (Ht : all_digits (take 3 fs)) by (by apply Forall_take).
    pose proof (number_of_bounds _ Ht) as Hb.
    pose proof (pow10_le (length (take 3 fs)) 3) as Hp. rewrite length_take in *.
    specialize (Hp ltac:(lia)). change (10 ^ Z.of_nat 3) with 1000 in Hp. lia. }
  rewrite Nat.add_0_r. destruct (i + length fs <=? 10)%nat; [|done].
  cbn [mbind ParseResult_bind negb]. change (0 + length fs)%nat with (length fs).
  destruct ((i =? 0)%nat && (length fs =? 0)%nat); [done|].
  change (3 - 0)%nat with 3%nat. change (number_from 0 (take 3 fs)) with (number_of (take 3 fs)).
  rewrite scale_millis_spec by (done || lia). by rewrite fraction_millis.
Qed.

(** ** Fields *)

(** What may follow a field's text, so that the text is all of the field. *)
Definition ends_at (field : IntervalField) (t rest : list ascii) : Prop :=
  stops rest /\ (field = kSecond -> ~ In "."%char t -> looking_at "." rest = false).

(** [readField] after the plus sign. *)
Definition readUnsigned (field : IntervalField) (rest : list ascii) : ParseResult (Z * list ascii) :=
  if looking_at "-" rest then Unexpected (NegativeField field)
  else
    '(number, digits, rest) ← readNumber field rest;
    if bool_decide (field = kSecond) then
      '(millis, rest) ← readMillis rest digits;
      total ← (scaled ← int64 (number * 1000); int64 (scaled + millis));
      Expected (total, rest)
    else Expected (number, rest).

Lemma readField_unsigned field rest :
  readField field rest =
  readUnsigned field (if looking_at "+" rest then tail rest else rest).
Proof. done. Qed.

Lemma digits_not_special c ds : all_digits ds -> isDigit c = false -> ~ In c ds.
Proof.
  intros Hds Hc Hin. unfold all_digits in Hds. rewrite List.Forall_forall in Hds.
  by rewrite (Hds c Hin) in Hc.
Qed.

(** Text that starts with digits, or where the digits are missing, is not signed. *)
Lemma looking_at_app c ds rest :
  all_digits ds -> isDigit c = false -> looking_at c rest = false ->
  looking_at c (ds ++ rest) = false.
Proof.
  intros Hds Hc Hr. destruct Hds as [|d ds Hd _]; [done|]. simpl.
  apply Ascii.eqb_neq. intros ->. by rewrite Hd in Hc.
Qed.

Lemma number_of_nonneg ds : all_digits ds -> 0 <= number_of ds.
Proof. intros Hds. by apply number_of_bounds. Qed.

Lemma fraction_bounds fs :
  all_digits fs -> 0 <= number_of (take 3 (fs ++ ["0"; "0"; "0"]%char)) <= 999.
Proof.
  intros Hfs. set (l := take 3 _).
  assert (Hl : all_digits l).
  { apply Forall_take, Forall_app. split; [done|]. repeat constructor. }
  pose proof (number_of_bounds l Hl) as Hb. pose proof (pow10_le (length l) 3) as Hp.
  unfold l in Hp at 1. rewrite length_take in Hp. specialize (Hp ltac:(lia)).
  change (10 ^ Z.of_nat 3) with 1000 in Hp. lia.
Qed.

(** The largest value of a field. *)
Definition field_max (field : IntervalField) : Z :=
  if bool_decide (field = kSecond) then int32_max * 1000 + 999 else int32_max.

Lemma UnsignedText_bounds field t v : UnsignedText field t v -> 0 <= v <= field_max field.
Proof.
  destruct 1 as [field ds Hf Hds Hl Hm|ds Hds Hl Hm|ds fs Hds Hfs Hl Hl2]; unfold field_max.
  - rewrite bool_decide_eq_false_2 by done. split; [by apply number_of_nonneg|done].
  - simpl. pose proof (number_of_nonneg _ Hds). lia.
  - simpl. pose proof (number_of_bounds _ Hds) as Hb. pose proof (fraction_bounds _ Hfs).
    pose proof (pow10_le (length ds) 9 ltac:(lia)) as Hp.
    change (10 ^ Z.of_nat 9) with 1000000000 in Hp. change int32_max with 2147483647. lia.
Qed.

Lemma FieldText_bounds field t v : FieldText field t v -> 0 <= v <= field_max field.
Proof. destruct 1; by eapply UnsignedText_bounds. Qed.

Lemma readUnsigned_complete field t v rest :
  UnsignedText field t v -> ends_at field t rest ->
  readUnsigned field (t ++ rest) = Expected (v, rest).
Proof.
  intros Ht [Hr Hdot]. unfold readUnsigned.
  assert (Hnd : forall c, c = "-"%char \/ c = "."%char -> isDigit c = false) by (by intros c [-> | ->]).
  destruct Ht as [field ds Hf Hds Hl Hm|ds Hds Hl Hm|ds fs Hds Hfs Hl Hl2].
  - assert (looking_at "-" (ds ++ rest) = false) as ->.
    { destruct Hds as [|c ds Hc _]; [simpl in Hl; lia|]. simpl. apply Ascii.eqb_neq. by intros ->. }
    rewrite readNumber_spec by done.
    rewrite (proj2 (Nat.leb_le _ _) (proj2 Hl)), (proj2 (Nat.eqb_neq _ _)) by lia. simpl.
    rewrite Z.gtb_ltb, (proj2 (Z.ltb_ge _ _) Hm). simpl. by rewrite bool_decide_eq_false_2.
  - assert (looking_at "-" (ds ++ rest) = false) as ->.
    { destruct Hds as [|c ds Hc _]; [simpl in Hl; lia|]. simpl. apply Ascii.eqb_neq. by intros ->. }
    rewrite readNumber_spec by done.
    rewrite (proj2 (Nat.leb_le _ _) (proj2 Hl)), (proj2 (Nat.eqb_neq _ _)) by lia. simpl.
    rewrite Z.gtb_ltb, (proj2 (Z.ltb_ge _ _) Hm). simpl.
    assert (readMillis rest (length ds) = Expected (0, rest)) as ->.
    { specialize (Hdot eq_refl (digits_not_special _ _ Hds (Hnd _ (or_intror eq_refl)))).
      destruct rest as [|c rest]; [done|]. simpl in *. by rewrite Hdot. }
    pose proof (number_of_nonneg _ Hds). unfold int32_max in Hm. simpl.
    rewrite int64_ok by (unfold int64_max; lia). simpl.
    rewrite int64_ok by (unfold int64_max; lia). simpl. by rewrite Z.add_0_r.
  - rewrite <- app_assoc, <- app_comm_cons. set (r := "."%char :: fs ++ rest).
    assert (Hsr : stops r) by done.
    rewrite looking_at_app by done. rewrite readNumber_spec by done.
    rewrite (proj2 (Nat.leb_le _ _)) by lia. rewrite andb_comm. simpl.
    pose proof (number_of_bounds _ Hds) as Hb.
    pose proof (pow10_le (length ds) 9 ltac:(lia)) as Hp.
    change (10 ^ Z.of_nat 9) with 1000000000 in Hp.
    assert ((number_of ds >? int32_max) = false) as ->.
    { rewrite Z.gtb_ltb. apply Z.ltb_ge. change int32_max with 2147483647. lia. }
    cbn [mbind ParseResult_bind]. unfold r. rewrite readMillis_spec by done.
    rewrite (proj2 (Nat.leb_le _ _)) by lia. cbn [negb].
    assert ((length ds =? 0)%nat && (length fs =? 0)%nat = false) as ->.
    { apply andb_false_iff. rewrite !Nat.eqb_neq. lia. }
    cbn [mbind ParseResult_bind]. pose proof (fraction_bounds _ Hfs).
    rewrite int64_ok by (unfold int64_max; lia). cbn [mbind ParseResult_bind].
    rewrite int64_ok by (unfold int64_max; lia). done.
Qed.

(** The errors [int64] overflow and the unreachable field are not raised. *)
Definition proper (e : ParseError) : Prop := e <> SignedOverflow /\ e <> UnreachableField.

Definition proper_result {A} (r : ParseResult A) : Prop :=
  match r with Expected _ => True | Unexpected e => proper e end.

Lemma looking_at_cons c s : looking_at c s = true -> s = c :: tail s.
Proof. destruct s as [|d s]; [done|]. simpl. by intros ->%Ascii.eqb_eq. Qed.

Lemma readUnsigned_sound field s :
  match readUnsigned field s with
  | Expected (v, rest) =>
      exists t, s = t ++ rest /\ UnsignedText field t v /\ ends_at field t rest
  | Unexpected e => proper e
  end.
Proof.
  unfold readUnsigned. destruct (looking_at "-" s); [done|].
  destruct (digits_span s) as (ds & r & -> & Hds & Hr). rewrite readNumber_spec by done.
  destruct (Nat.leb_spec (length ds) 10) as [Hl|]; [|done]. simpl.
  destruct (_ && negb _) eqn:Hempty; [done|].
  rewrite Z.gtb_ltb. destruct (Z.ltb_spec int32_max (number_of ds)) as [|Hm]; [done|]. simpl.
  pose proof (number_of_nonneg _ Hds) as Hn.
  destruct (decide (field = kSecond)) as [->|Hf].
  2: { rewrite bool_decide_eq_false_2 in Hempty |- * by done. simpl in Hempty.
    rewrite andb_true_r in Hempty. apply Nat.eqb_neq in Hempty.
    exists ds. repeat split; try done. constructor; [done..| |done]. lia. }
  rewrite bool_decide_eq_true_2 in Hempty |- * by done. simpl in Hempty.
  destruct (looking_at "." r) eqn:Hdot.
  - rewrite (looking_at_cons _ _ Hdot). destruct (digits_span (tail r)) as (fs & r' & -> & Hfs & Hr').
    destruct (Nat.ltb_spec (length ds) 10) as [Hl9|Hl9].
    + rewrite readMillis_spec by done.
      destruct (Nat.leb_spec (length ds + length fs) 10) as [Hl2|]; [|done]. cbn [negb].
      destruct ((length ds =? 0)%nat && (length fs =? 0)%nat) eqn:Hz; [done|].
      cbn [mbind ParseResult_bind].
      pose proof (fraction_bounds _ Hfs). unfold int32_max in Hm.
      rewrite int64_ok by (unfold int64_max; lia). cbn [mbind ParseResult_bind].
      rewrite int64_ok by (unfold int64_max; lia). cbn [mbind ParseResult_bind].
      exists (ds ++ "."%char :: fs). rewrite <- app_assoc. split; [done|]. split; [|split; [done|]].
      * constructor; [done..|]. apply andb_false_iff in Hz. rewrite !Nat.eqb_neq in Hz. lia.
      * intros _ Hno. exfalso. apply Hno, in_app_iff. right. by left.
    + unfold readMillis, kMaxDigits. simpl negb. cbv iota. by rewrite (proj2 (Nat.leb_le 10 _) Hl9).
  - rewrite andb_true_r in Hempty. apply Nat.eqb_neq in Hempty.
    assert (readMillis r (length ds) = Expected (0, r)) as ->.
    { destruct r as [|c r]; [done|]. simpl in *. by rewrite Hdot. }
    unfold int32_max in Hm. cbn [mbind ParseResult_bind].
    rewrite int64_ok by (unfold int64_max; lia). cbn [mbind ParseResult_bind].
    rewrite int64_ok by (unfold int64_max; lia). cbn [mbind ParseResult_bind].
    rewrite Z.add_0_r. exists ds. repeat split; try done. apply text_seconds; [done|lia|done].
Qed.

Lemma readField_sound field s :
  match readField field s with
  | Expected (v, rest) =>
      exists t, s = t ++ rest /\ FieldText field t v /\ ends_at field t rest
  | Unexpected e => proper e
  end.
Proof.
  rewrite readField_unsigned. destruct (looking_at "+" s) eqn:Hp.
  - pose proof (readUnsigned_sound field (tail s)) as Hs.
    destruct (readUnsigned field (tail s)) as [[v rest]|]; [|done].
    destruct Hs as (t & Ht & Htext & Hr & Hd). exists ("+"%char :: t).
    split; [by rewrite (looking_at_cons _ _ Hp), Ht|]. split; [by constructor|].
    split; [done|]. intros Hf Hn. apply Hd; [done|]. intros Hin. apply Hn. by right.
  - pose proof (readUnsigned_sound field s) as Hs.
    destruct (readUnsigned field s) as [[v rest]|]; [|done].
    destruct Hs as (t & Ht & Htext & Hr). exists t. split; [done|]. by split; [constructor|].
Qed.

Lemma UnsignedText_not_plus field t v rest : UnsignedText field t v -> looking_at "+" (t ++ rest) = false.
Proof.
  destruct 1 as [field ds Hf Hds Hl Hm|ds Hds Hl Hm|ds fs Hds Hfs Hl Hl2].
  1,2: destruct Hds as [|c ds Hc _]; [simpl in Hl; lia|]; simpl; apply Ascii.eqb_neq; by intros ->.
  rewrite <- app_assoc. by apply looking_at_app.
Qed.

Lemma readField_complete field t v rest :
  FieldText field t v -> ends_at field t rest -> readField field (t ++ rest) = Expected (v, rest).
Proof.
  rewrite readField_unsigned. destruct 1 as [field t v Ht|field t v Ht]; intros He.
  - rewrite (UnsignedText_not_plus _ _ _ _ Ht). by apply readUnsigned_complete.
  - simpl. apply readUnsigned_complete; [done|]. destruct He as [Hr Hd]. split; [done|].
    intros Hf Hn. apply Hd; [done|]. intros [HF|Hin]; [done|]. by apply Hn.
Qed.

Lemma FieldText_nonempty field t v : FieldText field t v -> t <> [].
Proof.
  destruct 1 as [field t v Ht|]; [|done].
  destruct Ht as [field ds Hf Hds Hl Hm|ds Hds Hl Hm|ds fs Hds Hfs Hl Hl2].
  1,2: by intros ->; simpl in Hl; lia.
  by destruct ds.
Qed.

(** ** Day-time values *)

Definition separator_before (field : IntervalField) : Separator :=
  if bool_decide (field = kHour) then kSpace else kColon.

Lemma ends_at_separator field t (c : ascii) rest :
  isDigit c = false -> c <> "."%char -> ends_at field t (c :: rest).
Proof. intros Hc Hd. split; [done|]. intros _ _. simpl. by apply Ascii.eqb_neq. Qed.

Lemma ends_at_nil field t : ends_at field t [].
Proof. by split. Qed.

(** What follows a field in a day-time value ends it. *)
Lemma DayTimeText_ends units rest w field t :
  DayTimeText units false rest w -> ends_at field t rest.
Proof.
  inversion 1; subst; [apply ends_at_nil|]. simpl.
  apply ends_at_separator; by case_bool_decide.
Qed.

(** The largest total of the units. *)
Definition units_max (units : list (IntervalField * Z)) : Z :=
  fold_right (fun u total => field_max u.1 * u.2 + total) 0 units.

Lemma units_max_nonneg units : Forall (fun u => 0 <= u.2) units -> 0 <= units_max units.
Proof.
  assert (Hf : forall f, 0 <= field_max f) by (by intros []).
  induction 1 as [|u units Hu _ IH]; simpl; [done|]. specialize (Hf u.1). nia.
Qed.

Lemma DayTimeText_bounds units first t v :
  Forall (fun u => 0 <= u.2) units -> DayTimeText units first t v -> 0 <= v <= units_max units.
Proof.
  intros Hu Ht. induction Ht as [units first|field unit units first t v rest w Ht _ IH].
  - split; [done|]. by apply units_max_nonneg.
  - inversion Hu as [|? ? Hunit Hu']; subst. simpl in *. specialize (IH Hu').
    pose proof (FieldText_bounds _ _ _ Ht). nia.
Qed.

Definition is_first (previous : option IntervalField) : bool :=
  match previous with None => true | Some _ => false end.

Lemma readSeparator_spec separator previous next rest :
  match readSeparator separator previous next rest with
  | Expected rest' => rest = separator_char separator :: rest'
  | Unexpected e => proper e
  end.
Proof.
  unfold readSeparator. destruct (Ascii.eqb_spec (hd "000"%char rest) (separator_char separator))
    as [Hc|]; [|done].
  simpl. destruct rest as [|c rest]; simpl in *; [|by subst]. by destruct separator.
Qed.

Lemma readSeparator_ok separator previous next rest :
  readSeparator separator previous next (separator_char separator :: rest) = Expected rest.
Proof. unfold readSeparator. simpl. by rewrite Ascii.eqb_refl. Qed.

Definition unit_ok (u : IntervalField * Z) : Prop := 0 <= u.2.

(** One step of the bound on the total. *)
Lemma units_max_step field unit units millis v :
  Forall unit_ok ((field, unit) :: units) -> 0 <= millis -> 0 <= v <= field_max field ->
  millis + units_max ((field, unit) :: units) <= int64_max ->
  0 <= v * unit <= int64_max /\ 0 <= millis + v * unit <= int64_max /\
  millis + v * unit + units_max units <= int64_max.
Proof.
  intros Hu Hm Hv Hmax. inversion Hu as [|? ? Hunit Hu']; subst.
  pose proof (units_max_nonneg units Hu') as Hn. unfold unit_ok in Hunit. simpl in *. nia.
Qed.

Lemma parseDayTime_loop_sound units previous millis rest :
  Forall unit_ok units -> 0 <= millis -> millis + units_max units <= int64_max ->
  match parseDayTime_loop units previous millis rest with
  | Expected (total, []) =>
      exists w, total = millis + w /\ DayTimeText units (is_first previous) rest w
  | Expected _ => True
  | Unexpected e => proper e
  end.
Proof.
  revert previous millis rest. induction units as [|[field unit] units IH];
    intros previous millis rest Hu Hm Hmax.
  - simpl. destruct rest; [|done]. exists 0. split; [lia|constructor].
  - destruct rest as [|c rest]; [exists 0; split; [lia|constructor]|].
    set (s := c :: rest). cbn [parseDayTime_loop]. unfold s at 1.
    fold s. fold (separator_before field).
    assert (Hsep : match (match previous with
        | Some previous => readSeparator (separator_before field) previous field s
        | None => Expected s end) with
      | Expected s' => s = (if is_first previous then [] else [separator_char (separator_before field)]) ++ s'
      | Unexpected e => proper e
      end).
    { destruct previous as [p|]; [|done]. simpl. pose proof (readSeparator_spec (separator_before field) p field s) as Hs.
      by destruct (readSeparator _ _ _ _). }
    destruct (match previous with Some _ => _ | None => _ end) as [s'|e]; [|done].
    rewrite Hsep. cbn [mbind ParseResult_bind].
    pose proof (readField_sound field s') as Hf.
    destruct (readField field s') as [[v s'']|]; [|done]. destruct Hf as (t & -> & Ht & _).
    pose proof (FieldText_bounds _ _ _ Ht) as Hv.
    destruct (units_max_step field unit units millis v Hu Hm Hv Hmax) as (Hp & Hs & Hrest).
    cbn [mbind ParseResult_bind]. rewrite int64_ok by lia. cbn [mbind ParseResult_bind].
    rewrite int64_ok by lia. cbn [mbind ParseResult_bind].
    inversion Hu as [|? ? _ Hu']; subst.
    specialize (IH (Some field) (millis + v * unit) s'' Hu' ltac:(lia) Hrest).
    destruct (parseDayTime_loop units (Some field) (millis + v * unit) s'') as [[total [|]]|]; try done.
    destruct IH as (w & -> & Hw). exists (v * unit + w). split; [lia|]. by constructor.
Qed.

Lemma parseDayTime_loop_complete units previous millis t w :
  Forall unit_ok units -> 0 <= millis -> millis + units_max units <= int64_max ->
  DayTimeText units (is_first previous) t w ->
  parseDayTime_loop units previous millis t = Expected (millis + w, []).
Proof.
  intros Hu Hm Hmax Ht. remember (is_first previous) as first eqn:Hfirst.
  revert previous millis Hfirst Hu Hm Hmax.
  induction Ht as [units first|field unit units first t v rest w Ht Hrest IH];
    intros previous millis -> Hu Hm Hmax.
  - rewrite Z.add_0_r. by destruct units as [|[]].
  - fold (separator_before field).
    pose proof (FieldText_nonempty _ _ _ Ht) as Hne.
    pose proof (FieldText_bounds _ _ _ Ht) as Hv.
    destruct (units_max_step field unit units millis v Hu Hm Hv Hmax) as (Hp & Hs & Hmax').
    inversion Hu as [|? ? _ Hu']; subst.
    assert (Hloop : forall s, s = (if is_first previous then [] else [separator_char (separator_before field)]) ++ t ++ rest ->
      parseDayTime_loop ((field, unit) :: units) previous millis s = Expected (millis + (v * unit + w), [])).
    { intros s Hs'. assert (Hsne : s <> []).
      { rewrite Hs'. destruct (is_first previous); [|done]. by destruct t. }
      destruct s as [|c s]; [done|]. cbn [parseDayTime_loop]. fold (separator_before field).
      rewrite Hs'.
      assert (match previous with
        | Some previous => readSeparator (separator_before field) previous field
            ((if is_first (Some previous) then [] else [separator_char (separator_before field)]) ++ t ++ rest)
        | None => Expected (t ++ rest) end = Expected (t ++ rest)) as Hsep.
      { destruct previous as [p|]; [|done]. apply readSeparator_ok. }
      destruct previous as [p|]; cbn [is_first] in Hsep |- *; [rewrite Hsep|simpl app];
        cbn [mbind ParseResult_bind];
        rewrite (readField_complete _ _ _ _ Ht (DayTimeText_ends _ _ _ _ _ Hrest));
        cbn [mbind ParseResult_bind]; rewrite int64_ok by lia;
        cbn [mbind ParseResult_bind]; rewrite int64_ok by lia;
        cbn [mbind ParseResult_bind];
        rewrite (IH (Some field)) by (done || lia); f_equal; f_equal; lia. }
    by apply Hloop.
Qed.

(** A day-time qualifier. *)
Definition daytime_qualifier (start end_ : IntervalField) : Prop :=
  isYearMonth start = false /\ isYearMonth end_ = false.

Lemma qualifier_units_ok start end_ :
  Forall unit_ok (qualifier_units start end_) /\ 0 + units_max (qualifier_units start end_) <= int64_max.
Proof. destruct start, end_; (split; [repeat constructor; by vm_compute|by vm_compute]). Qed.

Lemma parseDayTime_unfold start end_ rest :
  daytime_qualifier start end_ ->
  parseDayTime rest start end_ =
  ('(millis, rest) ← parseDayTime_loop (qualifier_units start end_) None 0 rest;
   _ ← checkEnd rest;
   Expected millis).
Proof. intros [Hs He]. by destruct start, end_. Qed.

Lemma parseDayTime_sound start end_ rest :
  daytime_qualifier start end_ ->
  match parseDayTime rest start end_ with
  | Expected v => DayTimeText (qualifier_units start end_) true rest v
  | Unexpected e => proper e
  end.
Proof.
  intros Hq. rewrite parseDayTime_unfold by done.
  destruct (qualifier_units_ok start end_) as [Hu Hmax].
  pose proof (parseDayTime_loop_sound _ None 0 rest Hu ltac:(lia) Hmax) as Hs.
  destruct (parseDayTime_loop _ None 0 rest) as [[v [|c r]]|]; simpl; try done.
  by destruct Hs as (w & -> & Hw).
Qed.

Lemma parseDayTime_complete start end_ rest v :
  daytime_qualifier start end_ -> DayTimeText (qualifier_units start end_) true rest v ->
  parseDayTime rest start end_ = Expected v.
Proof.
  intros Hq Ht. rewrite parseDayTime_unfold by done.
  destruct (qualifier_units_ok start end_) as [Hu Hmax].
  by rewrite (parseDayTime_loop_complete _ None 0 rest v) by (done || lia).
Qed.

(** ** Year-month values *)

Definition yearmonth_qualifier (start end_ : IntervalField) : Prop :=
  isYearMonth start = true /\ isYearMonth end_ = true /\ field_index start <= field_index end_.

Lemma yearmonth_field_max field : isYearMonth field = true -> field_max field = int32_max.
Proof. by destruct field. Qed.

(** The months of the first field. *)
Definition first_months (start : IntervalField) (v : Z) : Z :=
  v * (if bool_decide (start = kYear) then 12 else 1).

Lemma first_months_ok start v :
  0 <= v <= int32_max ->
  (if bool_decide (start = kYear) then int64 (v * 12) else Expected v) =
    Expected (first_months start v) /\ 0 <= first_months start v <= 12 * int32_max.
Proof.
  unfold first_months, int32_max. intros Hv. case_bool_decide.
  - rewrite int64_ok by (unfold int64_max; lia). split; [done|lia].
  - rewrite Z.mul_1_r. split; [done|lia].
Qed.

Lemma parseYearMonth_sound start end_ rest :
  yearmonth_qualifier start end_ ->
  match parseYearMonth rest start end_ with
  | Expected v => YearMonthText start end_ rest v /\ v <= int32_max
  | Unexpected e => proper e
  end.
Proof.
  intros (Hs & He & Hle). destruct rest as [|c rest]; [by split; [constructor|]|].
  set (s := c :: rest). unfold parseYearMonth. unfold s at 1.
  pose proof (readField_sound start s) as Hf.
  destruct (readField start s) as [[v s']|]; [|done]. destruct Hf as (t & -> & Ht & _).
  pose proof (FieldText_bounds _ _ _ Ht) as Hv. rewrite yearmonth_field_max in Hv by done.
  destruct (first_months_ok start v Hv) as [Hm Hmb]. cbn [mbind ParseResult_bind].
  rewrite Hm. cbn [mbind ParseResult_bind].
  destruct s' as [|c' s'].
  { cbn [mbind ParseResult_bind]. rewrite Z.gtb_ltb.
    destruct (Z.ltb_spec int32_max (first_months start v)); [done|].
    simpl. rewrite app_nil_r. split; [by constructor|done]. }
  destruct (decide (start <> end_)) as [Hne|Hne].
  2: { rewrite bool_decide_eq_false_2 by done. cbn [mbind ParseResult_bind].
    by destruct (_ >? _). }
  rewrite bool_decide_eq_true_2 by done.
  assert (start = kYear /\ end_ = kMonth) as [-> ->] by (by destruct start, end_).
  pose proof (readSeparator_spec kHyphen kYear kMonth (c' :: s')) as Hsep.
  destruct (readSeparator _ _ _ _) as [s2|]; [|done]. rewrite Hsep. cbn [mbind ParseResult_bind].
  pose proof (readField_sound kMonth s2) as Hf2.
  destruct (readField kMonth s2) as [[v' s3]|]; [|done]. destruct Hf2 as (t' & -> & Ht' & _).
  pose proof (FieldText_bounds _ _ _ Ht') as Hv'. cbn [mbind ParseResult_bind].
  change (field_max kMonth) with int32_max in Hv'. unfold int32_max in Hv', Hmb.
  rewrite int64_ok by (unfold int64_max; lia). cbn [mbind ParseResult_bind].
  rewrite Z.gtb_ltb. destruct (Z.ltb_spec int32_max (first_months kYear v + v')); [done|].
  destruct s3; [|done]. simpl. rewrite app_nil_r. split; [|done].
  by apply (yearmonth_two t v t' v').
Qed.

Lemma parseYearMonth_complete start end_ rest v :
  yearmonth_qualifier start end_ -> YearMonthText start end_ rest v -> v <= int32_max ->
  parseYearMonth rest start end_ = Expected v.
Proof.
  intros (Hs & He & Hle) Ht Hmax.
  destruct Ht as [start end_|start end_ t v Ht|t v t' v' Ht Ht']; [done| |].
  - pose proof (FieldText_nonempty _ _ _ Ht) as Hne.
    pose proof (FieldText_bounds _ _ _ Ht) as Hv. rewrite yearmonth_field_max in Hv by done.
    destruct (first_months_ok start v Hv) as [Hm _].
    pose proof (readField_complete _ _ _ [] Ht (ends_at_nil _ _)) as Hr. rewrite app_nil_r in Hr.
    destruct t as [|c t]; [done|]. unfold parseYearMonth. rewrite Hr. cbn [mbind ParseResult_bind].
    rewrite Hm. cbn [mbind ParseResult_bind]. fold (first_months start v) in Hmax |- *.
    by rewrite Z.gtb_ltb, (proj2 (Z.ltb_ge _ _) Hmax).
  - pose proof (FieldText_bounds _ _ _ Ht) as Hv. pose proof (FieldText_bounds _ _ _ Ht') as Hv'.
    change (field_max kMonth) with int32_max in Hv'.
    destruct (first_months_ok kYear v Hv) as [Hm Hmb].
    assert (Hr : readField kYear (t ++ "-"%char :: t') = Expected (v, "-"%char :: t')).
    { apply readField_complete; [done|]. by apply ends_at_separator. }
    pose proof (readField_complete _ _ _ [] Ht' (ends_at_nil _ _)) as Hr'. rewrite app_nil_r in Hr'.
    unfold parseYearMonth.
    destruct (t ++ "-"%char :: t') as [|c s] eqn:Es; [by destruct t|]. rewrite Hr.
    cbn [mbind ParseResult_bind]. rewrite Hm. cbn [mbind ParseResult_bind].
    rewrite bool_decide_eq_true_2 by done.
    change ("-"%char) with (separator_char kHyphen). rewrite readSeparator_ok.
    cbn [mbind ParseResult_bind]. rewrite Hr'. cbn [mbind ParseResult_bind].
    unfold int32_max in Hv', Hmb. rewrite int64_ok by (unfold int64_max; lia).
    cbn [mbind ParseResult_bind]. change (first_months kYear v) with (v * 12).
    by rewrite Z.gtb_ltb, (proj2 (Z.ltb_ge _ _) Hmax).
Qed.

(** ** Literals *)

Definition literal_end (literal : IntervalLiteral) : IntervalField :=
  default (startField literal) (endField literal).

Definition sign_value (sign : Sign) : Z := match sign with kPositive => 1 | kNegative => -1 end.

(** The constant of [n] months or milliseconds. *)
Definition constant (start : IntervalField) (n : Z) : Constant :=
  if isYearMonth start then INTERVAL_YEAR_MONTH n else INTERVAL_DAY_TIME n.

(** A qualifier whose fields are of one group, from largest to smallest. *)
Definition valid_qualifier (start end_ : IntervalField) : Prop :=
  isYearMonth start = isYearMonth end_ /\ field_index start <= field_index end_.

(** The number of a text, in either group. *)
Definition parse_number (start end_ : IntervalField) (rest : list ascii) : ParseResult Z :=
  if isYearMonth start then parseYearMonth rest start end_ else parseDayTime rest start end_.

Definition magnitude_max (start : IntervalField) : Z :=
  if isYearMonth start then int32_max else int64_max.

Lemma parse_number_spec start end_ rest :
  valid_qualifier start end_ ->
  (forall v, parse_number start end_ rest = Expected v <-> LiteralText start end_ rest v) /\
  match parse_number start end_ rest with
  | Expected v => 0 <= v <= magnitude_max start
  | Unexpected e => proper e
  end.
Proof.
  intros [Hg Hle]. unfold parse_number, LiteralText, magnitude_max.
  destruct (isYearMonth start) eqn:Es.
  - assert (Hq : yearmonth_qualifier start end_) by done.
    pose proof (parseYearMonth_sound start end_ rest Hq) as Hs. split.
    + intros v. split; [by intros Hv; rewrite Hv in Hs|]. intros [Ht Hv].
      by apply parseYearMonth_complete.
    + destruct (parseYearMonth rest start end_) as [v|]; [|done]. destruct Hs as [Ht Hv].
      split; [|done]. destruct Ht as [| ? ? t v Ht|t v t' v' Ht Ht']; [done| |].
      * pose proof (FieldText_bounds _ _ _ Ht). case_bool_decide; lia.
      * pose proof (FieldText_bounds _ _ _ Ht). pose proof (FieldText_bounds _ _ _ Ht'). lia.
  - assert (Hq : daytime_qualifier start end_) by done.
    pose proof (parseDayTime_sound start end_ rest Hq) as Hs. split.
    + intros v. split; [by intros Hv; rewrite Hv in Hs|]. by apply parseDayTime_complete.
    + destruct (parseDayTime rest start end_) as [v|]; [|done].
      destruct (qualifier_units_ok start end_) as [Hu Hmax].
      pose proof (DayTimeText_bounds _ _ _ _ Hu Hs). lia.
Qed.

Lemma to_int32_id n : - int32_max <= n <= int32_max -> to_int32 n = n.
Proof.
  unfold to_int32, int32_max. intros Hn. rewrite Z.mod_small; lia.
Qed.

(** The sign and the rest of a literal's value. *)
Definition split_sign (value : list ascii) : Z * list ascii :=
  if looking_at "-" value then (-1, tail value) else (1, value).

Lemma parse_valid literal :
  valid_qualifier (startField literal) (literal_end literal) ->
  let '(s, rest) := split_sign (literal_value literal) in
  parse literal =
  match parse_number (startField literal) (literal_end literal) rest with
  | Expected v => inl (constant (startField literal) (sign_value (literal_sign literal) * (s * v)))
  | Unexpected e => inr (InvalidValue e)
  end.
Proof.
  intros Hv. destruct (split_sign (literal_value literal)) as [s rest] eqn:Esplit.
  pose proof (parse_number_spec _ _ rest Hv) as [_ Hb]. destruct Hv as [Hg Hle].
  unfold parse. fold (literal_end literal).
  rewrite Hg, Bool.eqb_reflx, (proj2 (Z.leb_le _ _) Hle). cbn [negb]. rewrite <- Hg.
  fold (sign_value (literal_sign literal)).
  assert (Hs : (if looking_at "-" (literal_value literal)
    then (- sign_value (literal_sign literal), tail (literal_value literal))
    else (sign_value (literal_sign literal), literal_value literal)) =
    (sign_value (literal_sign literal) * s, rest)).
  { unfold split_sign in Esplit. destruct (looking_at _ _); injection Esplit as <- <-; f_equal; lia. }
  rewrite Hs. fold (parse_number (startField literal) (literal_end literal) rest).
  destruct (parse_number _ _ rest) as [v|e]; [|done]. cbn [mbind ParseResult_bind].
  assert (Hss : sign_value (literal_sign literal) * s = 1 \/ sign_value (literal_sign literal) * s = -1).
  { unfold split_sign in Esplit. destruct (looking_at _ _); injection Esplit as <- _;
      destruct (literal_sign literal); simpl; auto. }
  rewrite Z.mul_assoc. unfold magnitude_max, constant in *.
  destruct (isYearMonth (startField literal)); unfold int64_max, int32_max in Hb.
  - rewrite int64_ok by (unfold int64_max; destruct Hss as [-> | ->]; lia).
    rewrite to_int32_id; [done|]. unfold int32_max. destruct Hss as [-> | ->]; lia.
  - by rewrite int64_ok by (unfold int64_max; destruct Hss as [-> | ->]; lia).
Qed.

Lemma parse_groups literal :
  isYearMonth (startField literal) <> isYearMonth (literal_end literal) ->
  parse literal = inr DifferentGroups.
Proof.
  intros Hg. unfold parse. fold (literal_end literal).
  by destruct (isYearMonth (startField literal)), (isYearMonth (literal_end literal)).
Qed.

Lemma parse_order literal :
  isYearMonth (startField literal) = isYearMonth (literal_end literal) ->
  field_index (literal_end literal) < field_index (startField literal) ->
  parse literal = inr WrongOrder.
Proof.
  intros Hg Hlt. unfold parse. fold (literal_end literal).
  by rewrite Hg, Bool.eqb_reflx, (proj2 (Z.leb_gt _ _) Hlt).
Qed.

Lemma parse_constant literal c :
  valid_qualifier (startField literal) (literal_end literal) ->
  parse literal = inl c <->
  exists n, SignedText (startField literal) (literal_end literal) (literal_value literal) n /\
    c = constant (startField literal) (sign_value (literal_sign literal) * n).
Proof.
  intros Hv. pose proof (parse_valid literal Hv) as Hp.
  destruct (split_sign (literal_value literal)) as [s rest] eqn:Esplit. rewrite Hp.
  pose proof (parse_number_spec _ _ rest Hv) as [Hn _]. unfold split_sign in Esplit.
  destruct (looking_at "-" (literal_value literal)) eqn:El; injection Esplit as <- <-.
  - destruct (literal_value literal) as [|c0 text]; [done|].
    simpl in El. apply Ascii.eqb_eq in El as ->. cbn [tail] in *. split.
    * destruct (parse_number _ _ _) as [v|] eqn:Ev; [|done]. intros [= <-].
      exists (- v). split; [constructor; by apply Hn|]. f_equal; lia.
    * intros (n & Ht & ->). inversion Ht as [t m Hno|t m Htext]; subst; [done|].
      apply Hn in Htext. rewrite Htext. repeat f_equal; lia.
  - split.
    * destruct (parse_number _ _ _) as [v|] eqn:Ev; [|done]. intros [= <-].
      exists v. split; [constructor; [done|by apply Hn]|]. f_equal; lia.
    * intros (n & Ht & ->). inversion Ht as [t m Hno Htext|t m Htext Heq]; subst.
      -- apply Hn in Htext. rewrite Htext. repeat f_equal; lia.
      -- by rewrite <- Heq in El.
Qed.


(** C32: The parser accepts exactly the documented grammar: with a valid qualifier a
    literal parses to a constant if and only if its value is an optional minus
    sign and a text of the grammar, and the constant is its duration with both
    signs applied; with any other qualifier it reports which rule is broken. *)
Theorem parse_exact literal :
  let start := startField literal in
  let end_ := literal_end literal in
  (isYearMonth start <> isYearMonth end_ -> parse literal = inr DifferentGroups) /\
  (isYearMonth start = isYearMonth end_ -> field_index end_ < field_index start ->
     parse literal = inr WrongOrder) /\
  (valid_qualifier start end_ -> forall c,
     parse literal = inl c <->
     exists n, SignedText start end_ (literal_value literal) n /\
       c = constant start (sign_value (literal_sign literal) * n)).
Proof.
  cbv zeta. split; [apply parse_groups|]. split; [apply parse_order|].
  intros Hv c. by apply parse_constant.
Qed.

(** Whatever the text, no arithmetic overflows [int64_t], the unreachable branch
    is not reached, and a constant fits its type: months in [int32_t] (the cast
    loses nothing), milliseconds in [int64_t]. *)
Theorem parse_never_overflows literal :
  match parse literal with
  | inl (INTERVAL_YEAR_MONTH months) => - int32_max <= months <= int32_max
  | inl (INTERVAL_DAY_TIME millis) => - int64_max <= millis <= int64_max
  | inr (InvalidValue e) => e <> SignedOverflow /\ e <> UnreachableField
  | inr _ => True
  end.
Proof.
  destruct (decide (valid_qualifier (startField literal) (literal_end literal))) as [Hv|Hv].
  - pose proof (parse_valid literal Hv) as Hp.
    destruct (split_sign (literal_value literal)) as [s rest] eqn:Esplit. rewrite Hp.
    pose proof (parse_number_spec _ _ rest Hv) as [_ Hb].
    destruct (parse_number _ _ rest) as [v|e]; [|done].
    assert (Hs : s = 1 \/ s = -1).
    { unfold split_sign in Esplit. destruct (looking_at _ _); injection Esplit; auto. }
    unfold constant, magnitude_max in *.
    destruct (isYearMonth _), (literal_sign literal), Hs as [-> | ->]; simpl sign_value; lia.
  - unfold valid_qualifier in Hv.
    destruct (decide (isYearMonth (startField literal) = isYearMonth (literal_end literal))) as [He|He].
    + rewrite parse_order; [done..|]. apply Z.nle_gt. tauto.
    + by rewrite parse_groups.
Qed.

(** ** The examples of the documentation *)

Definition literal_of (text : string) (start : IntervalField) (end_ : option IntervalField) :=
  mkInterval (String.list_ascii_of_string text) kPositive start end_.

Lemma documented_examples :
  parse (literal_of "1-6" kYear (Some kMonth)) = inl (INTERVAL_YEAR_MONTH 18) /\
  parse (literal_of "1 02:03:04.5" kDay (Some kSecond)) = inl (INTERVAL_DAY_TIME 93784500) /\
  parse (literal_of "03:.004" kMinute (Some kSecond)) = inl (INTERVAL_DAY_TIME 180004) /\
  parse (literal_of "1:60" kHour (Some kMinute)) = inl (INTERVAL_DAY_TIME 7200000) /\
  parse (literal_of "124-30" kYear (Some kMonth)) = inl (INTERVAL_YEAR_MONTH 1518) /\
  parse (literal_of "12" kDay (Some kSecond)) = inl (INTERVAL_DAY_TIME 1036800000) /\
  parse (literal_of "-1-6" kYear (Some kMonth)) = inl (INTERVAL_YEAR_MONTH (-18)) /\
  parse (literal_of "-+1" kSecond None) = inl (INTERVAL_DAY_TIME (-1000)) /\
  parse (literal_of "-" kSecond None) = inl (INTERVAL_DAY_TIME 0) /\
  parse (literal_of "-0.00049" kSecond None) = inl (INTERVAL_DAY_TIME 0) /\
  parse (literal_of "123456789.9" kSecond None) = inl (INTERVAL_DAY_TIME 123456789900) /\
  parse (literal_of "178956970-7" kYear (Some kMonth)) = inl (INTERVAL_YEAR_MONTH 2147483647).
Proof. vm_compute. repeat split; reflexivity. Qed.

Lemma documented_errors :
  parse (literal_of "1:" kHour (Some kSecond)) = inr (InvalidValue (ExpectedDigits kMinute)) /\
  parse (literal_of "++1" kSecond None) = inr (InvalidValue (ExpectedDigits kSecond)) /\
  parse (literal_of "." kSecond None) = inr (InvalidValue ExpectedSecondDigits) /\
  parse (literal_of "2147483647." kSecond None) = inr (InvalidValue DecimalPointAfterTooManyDigits) /\
  parse (literal_of "178956970-8" kYear (Some kMonth)) = inr (InvalidValue TotalExceedsLimit) /\
  parse (literal_of "1:-2" kHour (Some kMinute)) = inr (InvalidValue (NegativeField kMinute)) /\
  parse (literal_of "1,5" kSecond None) =
    inr (InvalidValue (UnexpectedCharacters (String.list_ascii_of_string ",5"))) /\
  parse (literal_of "1" kYear (Some kSecond)) = inr DifferentGroups /\
  parse (literal_of "1" kSecond (Some kDay)) = inr WrongOrder.
Proof. vm_compute. repeat split; reflexivity. Qed.

(** ['1:+2' HOUR TO MINUTE] is one hour and two minutes. *)
Theorem parse_exact_witness :
  valid_qualifier kHour kMinute /\
  exists n, SignedText kHour kMinute (String.list_ascii_of_string "1:+2") n /\
    INTERVAL_DAY_TIME 3720000 = constant kHour (1 * n).
Proof.
  split; [split; [reflexivity|vm_compute; discriminate]|].
  apply (proj2 (proj2 (parse_exact (literal_of "1:+2" kHour (Some kMinute))))
    ltac:(split; [reflexivity|vm_compute; discriminate]) (INTERVAL_DAY_TIME 3720000)).
  vm_compute. reflexivity.
Defined.
